(* ===== verification/_CoqProject ===== *)
-Q . S2P
Prelude.v
Errors.v
Externals.v
Identity.v
Frame.v
Wire.v
Value.v
ValueCodec.v
ValueLoop.v
ValueRoundtrip.v
ValueCanonical.v
ValueProps.v
Snapshot.v
Disk.v
StoreDirectory.v
Control.v
Selection.v
Names.v
Publication.v
SelectProps.v
Reader.v
Stream.v
Log.v
Commit.v
Reading.v
Maintenance.v
PruneProps.v
Recovery.v
RecoveryProps.v
Durability.v
Scenario.v
Ordered.v
LabelSet.v
PropertyMap.v
PropertyProps.v
Schema.v
GraphDelta.v
WireProps.v
SchemaProps.v
DeltaProps.v
Catalog.v
IndexName.v
CatalogSnapshot.v
CatalogOrder.v
CatalogBuild.v
CatalogRecords.v
CatalogChange.v
CatalogCodec.v
CatalogCodecProps.v
CatalogImage.v
CatalogProps.v
Transaction.v
TransactionProps.v
Columns.v
GraphTypes.v
Store.v
Derived.v
Candidates.v
TypeValidator.v
Fanout.v
Unique.v
UniqueProps.v
GraphApply.v
GraphApplyProps.v
Mutator.v
Seal.v
Consistent.v
CandidateProps.v
Rebuild.v
Shared.v
RebuildProps.v
ValidatorProps.v
MutatorProps.v
DeleteProps.v
TruncateProps.v
Session.v
ConstraintProps.v
CommitProps.v
GraphProps.v
SharedProps.v
