(* ===== verification/Prelude.v ===== *)
(** Verification of selene-db: the format-2 store, its codecs, its catalog and the
    core of its graph engine.

    selene-db (crates under src/crates) is a property-graph database.  Its
    durable state is a directory with a log of transaction frames, snapshots,
    and control files of which CURRENT selects a root.  The crate selene-persist
    owns the directory, the log, the control files and the snapshots; the bodies
    of log records and snapshots are written by the logical codecs of selene-core,
    selene-catalog and selene-graph.  The latter keeps graphs in memory: a write
    transaction changes a graph through mutator calls that log changes, the log is
    the body of a commit, and recovery applies it again.  This development is a shallow embedding of those parts:
    one definition per function of the source, with the name it has there where
    possible, and theorems about the definitions.

    * Conventions

    [Prelude] (this file) has the shared vocabulary.  A fallible function returns
    [result E A]; [let? x := e in k] is the [?] operator and [refuse c with err; k]
    an early return.  A method with a mutable receiver is a
    [method S E A := S -> result E A * S], with the notations [do x <- m; k] and
    [m ;; k]; its second component is the receiver after the call, also when the
    call fails.  Integers are [Z]; where the source has a fixed width the bound is
    a check ([checked_add], [is_u64], ...) or a written-out wrap-around.  Bytes are
    [list Init.Byte.byte] and strings of the data model are their UTF-8 bytes.

    Third-party code is a class of operations together with a class of the laws
    the code relies on: BLAKE3 and Zstandard ([Externals]), postcard ([Control]),
    decimals, spans, times and JSON text ([Value]), Unicode tables ([Catalog]).
    Facts of the compiler ([size_of]) are the class [Sizes] ([Schema]).  Every
    theorem with such a hypothesis is applied to concrete instances.

    * The store (selene-persist)

    - [Errors], [Identity]: error enums, store ids, epochs, generations
      (control/types.rs, control_error.rs, error.rs, logical_stream/outcome.rs).
    - [Frame]: transaction frames (logical_frame.rs).  Round trip, canonicity,
      classification of torn frames, binding of the digest, bounded expansion.
    - [Snapshot]: log positions and the snapshot envelope (logical_snapshot.rs).
    - [Disk]: the file system as a [World], a [Machine] that decides which native
      call fails and how much of it happens, [crash], and the wp logic.
    - [StoreDirectory], [Control], [Selection], [Names]: the retained directory
      and its locks, control records and their publication, selections, and the
      file names (store_directory.rs, manifest_lock.rs, legacy_probe.rs,
      control.rs, control/codec.rs, control/logical.rs and below).
    - [Publication], [SelectProps]: publication is atomic under every crash, and
      opening a store refines a specification of its format ([stands_at]) that
      is written without the decoders.
    - [Reader], [Stream], [Recovery], [Maintenance]: the log reader, the writer
      with its commit phases, recovery and reopening, rotation, checkpoints and
      pruning (logical_stream.rs, logical_stream, control/logical/prune.rs).
    - [Log]: the meaning of a log segment, a [chain] of frames.
    - [Commit], [Reading], [RecoveryProps], [PruneProps], [Durability]: a commit
      reports the truth about the disk, reading returns the committed records,
      recovery returns the records after the snapshot, pruning removes nothing
      that a root needs, and a crash after a commit loses nothing acknowledged,
      but for a record with the last sequence number, which no reader returns
      ([last_sequence_unreadable]).
    - [Scenario]: a concrete store on which these theorems are applied.

    * The logical codecs (selene-core, src/logical)

    - [Wire]: limits, budgets, encoder and decoder (logical/wire.rs), with the two
      contracts of a codec.  [mirrors e d a]: what [e] appends, [d] reads back as
      [a] in front of any suffix with the same charges.  [canonical d e]: what
      [d] consumes is what [e] writes for the result.
    - [Value], [ValueCodec], [ValueLoop], [ValueRoundtrip], [ValueCanonical],
      [ValueProps]: stored values and their codec (value.rs, stored_value.rs,
      logical/value.rs).  The decoder loop over an explicit stack is the recursive
      reading of the format.  The limits bound the size, depth and text of what is
      decoded.  Values whose JSON and temporal leaves have texts that parse back
      round-trip; other JSON is written and refused ([decode_unstable_json]).
    - [Ordered], [LabelSet], [PropertyMap], [PropertyProps]: sorted slices and
      [binary_search_by], label sets, property maps and diffs (label_set.rs,
      property_map.rs, changeset/diff.rs), which refine finite sets and maps.
    - [Schema], [GraphDelta]: graph definitions and deltas with their codecs
      (schema.rs, changeset.rs, logical/schema.rs, logical/tags.rs,
      logical/graph.rs).
    - [WireProps], [SchemaProps], [DeltaProps]: combinators for the contracts of
      [Wire], and both contracts for definitions and deltas.

    * The catalog (selene-catalog)

    - [Catalog], [IndexName]: identities, generations, names, declarations and
      descriptors with every validation in the order of the source (identity.rs,
      name.rs, declaration.rs, index.rs, constraint.rs, native.rs, descriptor.rs,
      and scalar_index_expression.rs of selene-core); generated index names, which
      determine the target they are made from.
    - [CatalogSnapshot]: the dependency check, the snapshot builder, lookups, draft
      transactions, logical records, and deltas (dependencies.rs, snapshot.rs,
      transaction.rs, logical.rs, codec.rs).  A [BTreeMap] is a [gmap] whose
      [entries] are taken in key order; a failure is [Fails] and a panic [Panic].
    - [CatalogOrder], [CatalogBuild], [CatalogRecords], [CatalogChange]: the
      dependency check decides that dependencies are present, compatible and
      acyclic; [build] succeeds exactly for a [well_formed] set of descriptors and
      its lookups by name find what has the name; the greedy order of the changes
      of a delta never gets stuck; applied deltas only let a catalog evolve.
    - [CatalogCodec], [CatalogCodecProps], [CatalogImage]: the codecs of
      descriptors, deltas and catalog images (codec.rs and codec/), with both
      contracts of [Wire] for all of them.
    - [CatalogProps]: the theorems about the catalog, and a concrete catalog on
      which they are applied.

    * The graph engine (selene-graph)

    - [Transaction], [TransactionProps]: the body of a log record, which joins a
      catalog delta, graph types and graph deltas (logical_transaction.rs), with
      both contracts of [Wire]; the round trip assumes stable leaves and gives the
      transaction in its normal form.
    - [Columns], [Store], [Derived]: chunked columns, node and edge stores,
      adjacency, identity maps, label bitmaps and reads (chunked_vec.rs, store.rs,
      adjacency.rs, graph.rs).  Property, composite, vector, text and expression
      indexes are one opaque component ([Indexes]); their maintenance is the class
      [Engine], about which only its success is assumed, and only where a failure
      of it is at stake ([total_indexes]).
    - [GraphTypes], [TypeValidator]: graph types, their validation, and the
      validation of a change and of all live elements (graph_types.rs,
      graph_types/endpoint.rs, type_validator.rs).  The structural types of
      property values are the class [TypeOps].
    - [Candidates], [CandidateProps]: sets of elements bound to a snapshot, their
      algebra and producers (candidate_set.rs, candidate_state_shared.rs).
    - [Unique], [UniqueProps]: the indexes of UNIQUE and KEY constraints
      (type_validator/unique.rs, unique/domain.rs).
    - [GraphApply], [GraphApplyProps]: replay of a change (graph_apply/changes.rs)
      and its meaning on the contents of a graph ([LogicalGraph], [spec_apply]).
    - [Mutator], [Fanout]: the calls that change a graph in a transaction, with
      their log and its view for index providers (mutator.rs and below,
      id_allocator.rs, write_txn/pipeline.rs).
    - [Consistent], [MutatorProps], [DeleteProps], [TruncateProps], [Session]: every
      call keeps a graph [consistent] and logs changes that mean what it did.
    - [Rebuild], [RebuildProps], [ValidatorProps]: derived state from the columns
      (shared/rebuild.rs), and incremental validation.
    - [GraphProps]: a concrete session, and the theorems: replay of a log gives what
      the run did, derived state is what a rebuild gives, and incremental validation
      misses nothing.
    - [ConstraintProps]: what it is for a graph to satisfy a rule ([satisfied]), and
      that building the indexes of rules and changing them by a log both decide it.
    - [Seal]: the rules of a graph (graph/constraint_declarations.rs),
      preparation, sealing and publication of a transaction (write_txn.rs,
      write_txn/pipeline.rs).
    - [Shared], [CommitProps]: the reorder buffer that publishes in the order of the
      seals (committer.rs), admission and the write lock (shared.rs); a graph that is
      admitted or prepared is [valid].
      Threads and channels are an order of arrival; where a publication panics is a
      parameter.  Histories are the relation [reachable].
    - [SharedProps]: the theorems on these: readers see committed states only,
      sealing is all or nothing, constraints are kept incrementally, publication is
      in order, and admission establishes what commits preserve.  They assume that
      the comparison of structural types ([comparable_with]) is symmetric.
    * Fuel and bounds

    A loop of the source that is not structural recursion has fuel, and a lemma
    that the fuel is enough: the value decoder ([value_loop_terminates]), the
    readers ([reading_terminates]), expansion ([expand_bounded]), the recursive
    types of a definition ([value_type_unfold], [structure_unfold]),
    the dependency check (one round per descriptor, [dependencies_validate_correct]),
    the order of a delta (one round per change, [arrange_spec]), the buffer of the committer (one round per
    work in it, [drain_fuel]), native types
    (65 levels, the limit of the format) and decimal numerals (20 digits for a
    length below 2^64).
    Binary search and the merges of diffs recurse with the length of their input
    as fuel.

    * Not modelled

    The failure of the allocator; elapsed times and observation counters; the
    platform without directory handles, where every operation fails; the serde
    and rkyv adapters of the data types; of the graph engine the schema calls of the
    mutator, compaction, the calls of index providers, and the property, vector,
    text and expression indexes with their searches; the graph algorithms, the
    query language and the embedding facade.  Concurrency between
    processes is represented by locks that are granted or refused by the [Machine]. *)

From Stdlib Require Export ZArith Lia.
From Stdlib Require Export Strings.Byte.
From Stdlib Require Import String.
From stdpp Require Export base list strings gmap.
From coqutil Require Import Byte Word.LittleEndianList.

#[export] Set Default Goal Selector "!".
Open Scope Z_scope.

(** ** Results: Rust's [Result<A, E>] and the [?] operator *)

Inductive result (E A : Type) : Type :=
| Ok (a : A)
| Err (e : E).
Arguments Ok {E A} a.
Arguments Err {E A} e.

Declare Scope selene_scope.
Delimit Scope selene_scope with selene.
Open Scope selene_scope.

(** [let? x := e in k] is Rust's [let x = e?; k]. *)
Notation "'let?' x ':=' e 'in' k" :=
  (match e with Ok x => k | Err err => Err err end)
  (at level 10, x pattern, e at level 100, k at level 200) : selene_scope.

(** [refuse c with err; k] is Rust's [if c { return Err(err); } k]. *)
Notation "'refuse' c 'with' err ; k" :=
  (if c then Err err else k)
  (at level 10, c at level 100, err at level 100, k at level 200) : selene_scope.

Section Results.
Context {E E' A B : Type}.

  (** [Result::map_err]. *)
Definition map_err (f : E -> E') (r : result E A) : result E' A :=
    match r with Ok a => Ok a | Err e => Err (f e) end.

  (** [Option::ok_or]. *)
Definition ok_or (o : option A) (e : E) : result E A :=
    match o with Some a => Ok a | None => Err e end.

Definition is_err (r : result E A) : bool :=
    match r with Ok _ => false | Err _ => true end.

Lemma ok_or_Ok o e a : ok_or o e = Ok a <-> o = Some a.
  Proof. destruct o; cbn; split; congruence. Qed.

Lemma map_err_Ok f r a : map_err f r = Ok a <-> r = Ok a.
  Proof. destruct r; cbn; split; congruence. Qed.
End Results.

#[export] Instance result_eq_dec {E A} `{EqDecision E, EqDecision A} : EqDecision (result E A).
Proof. solve_decision. Defined.

(** ** Machine integers

    A [w]-bit unsigned integer is a [Z] in [0, 2^w).  The operations write out
    what the Rust code does at the bounds; the target is a 64-bit platform, so
    [usize] has the width of [u64] and [usize::try_from(u64)] never fails. *)

Definition u16_max : Z := 2 ^ 16 - 1.
Definition u32_max : Z := 2 ^ 32 - 1.
Definition u64_max : Z := 2 ^ 64 - 1.
Definition u128_max : Z := 2 ^ 128 - 1.

Definition is_u32 (z : Z) : Prop := 0 <= z <= u32_max.
Definition is_u64 (z : Z) : Prop := 0 <= z <= u64_max.

(** [u64::checked_add] and [usize::checked_add]. *)
Definition checked_add (a b : Z) : option Z :=
  if a + b <=? u64_max then Some (a + b) else None.

(** [usize::checked_mul]. *)
Definition checked_mul (a b : Z) : option Z :=
  if a * b <=? u64_max then Some (a * b) else None.

(** [usize::saturating_sub]. *)
Definition saturating_sub (a b : Z) : Z := Z.max 0 (a - b).

(** [usize::saturating_mul]. *)
Definition saturating_mul (a b : Z) : Z := Z.min u64_max (a * b).

Lemma checked_add_Some a b c : checked_add a b = Some c <-> c = a + b /\ a + b <= u64_max.
Proof.
  unfold checked_add. destruct (Z.leb_spec (a + b) u64_max); split; intros; intuition (congruence || lia).
Qed.

Lemma checked_mul_Some a b c : checked_mul a b = Some c <-> c = a * b /\ a * b <= u64_max.
Proof.
  unfold checked_mul. destruct (Z.leb_spec (a * b) u64_max); split; intros; intuition (congruence || lia).
Qed.

(** Two's complement reading of a [w]-bit pattern: Rust's [u64 as i64]. *)
Definition to_signed (w z : Z) : Z := if z <? 2 ^ (w - 1) then z else z - 2 ^ w.

(** The bit pattern of a signed integer: [i64::to_le_bytes] encodes this value. *)
Definition of_signed (w z : Z) : Z := z mod 2 ^ w.

Definition is_signed (w z : Z) : Prop := - 2 ^ (w - 1) <= z < 2 ^ (w - 1).

Lemma to_of_signed w z : 0 < w -> is_signed w z -> to_signed w (of_signed w z) = z.
Proof.
  intros Hw [H1 H2]. unfold to_signed, of_signed.
  assert (Hp : 2 ^ w = 2 * 2 ^ (w - 1)) by (rewrite <- Z.pow_succ_r by lia; f_equal; lia).
  assert (0 < 2 ^ (w - 1)) by (apply Z.pow_pos_nonneg; lia).
  destruct (Z.ltb_spec z 0).
  - replace (z mod 2 ^ w) with (z + 2 ^ w).
    + destruct (Z.ltb_spec (z + 2 ^ w) (2 ^ (w - 1))); lia.
    + symmetry. rewrite <- (Z.mod_add z 1) by lia. rewrite Z.mul_1_l. apply Z.mod_small. lia.
  - rewrite Z.mod_small by lia. destruct (Z.ltb_spec z (2 ^ (w - 1))); lia.
Qed.

Lemma of_to_signed w z : 0 < w -> 0 <= z < 2 ^ w -> of_signed w (to_signed w z) = z.
Proof.
  intros Hw Hz. unfold to_signed, of_signed. destruct (z <? _).
  - now apply Z.mod_small.
  - replace (z - 2 ^ w) with (z + (-1) * 2 ^ w) by lia.
    rewrite Z.mod_add by lia. now apply Z.mod_small.
Qed.

Lemma of_signed_range w z : 0 <= w -> 0 <= of_signed w z < 2 ^ w.
Proof. intros. apply Z.mod_pos_bound. apply Z.pow_pos_nonneg; lia. Qed.

Lemma to_signed_range w z : 0 < w -> 0 <= z < 2 ^ w -> is_signed w (to_signed w z).
Proof.
  intros Hw Hz. unfold is_signed, to_signed.
  assert (Hp : 2 ^ w = 2 * 2 ^ (w - 1)) by (rewrite <- Z.pow_succ_r by lia; f_equal; lia).
  destruct (Z.ltb_spec z (2 ^ (w - 1))); lia.
Qed.

(** ** Bytes *)

Abbreviation bytes := (list byte).

#[export] Instance byte_eq_decision : EqDecision byte := Byte.byte_eq_dec.

(** The value of a byte. *)
Definition u8 (b : byte) : Z := byte.unsigned b.

Lemma u8_range b : 0 <= u8 b < 256.
Proof. pose proof (byte.unsigned_range b). unfold u8. lia. Qed.

Lemma u8_of_Z z : 0 <= z < 256 -> u8 (byte.of_Z z) = z.
Proof. intros. unfold u8. rewrite byte.unsigned_of_Z. unfold byte.wrap. now apply Z.mod_small. Qed.

Lemma of_Z_u8 b : byte.of_Z (u8 b) = b.
Proof. apply byte.of_Z_unsigned. Qed.

Lemma u8_inj a b : u8 a = u8 b -> a = b.
Proof. apply byte.unsigned_inj. Qed.

(** [slice::len] as an integer. *)
Definition zlen {A} (l : list A) : Z := Z.of_nat (length l).

Lemma zlen_app {A} (l k : list A) : zlen (l ++ k) = zlen l + zlen k.
Proof. unfold zlen. rewrite length_app. lia. Qed.

Lemma zlen_nonneg {A} (l : list A) : 0 <= zlen l.
Proof. unfold zlen. lia. Qed.

Lemma zlen_nil {A} : zlen (@nil A) = 0.
Proof. reflexivity. Qed.

Lemma zlen_cons {A} (a : A) l : zlen (a :: l) = 1 + zlen l.
Proof. unfold zlen. cbn [length]. lia. Qed.

(** ASCII literals: Rust's [b"..."] without escapes. *)
Definition ascii_bytes (s : string) : bytes := String.list_byte_of_string s.

(** [to_le_bytes] and [from_le_bytes] at a width of [n] bytes. *)
Definition to_le (n : nat) (z : Z) : bytes := le_split n z.
Definition of_le (b : bytes) : Z := le_combine b.

Lemma length_to_le n z : length (to_le n z) = n.
Proof. apply length_le_split. Qed.

Lemma of_to_le n z : 0 <= z < 2 ^ (Z.of_nat n * 8) -> of_le (to_le n z) = z.
Proof. intros. unfold of_le, to_le. rewrite le_combine_split. now apply Z.mod_small. Qed.

Lemma to_of_le n b : length b = n -> to_le n (of_le b) = b.
Proof. apply split_le_combine'. Qed.

Lemma of_le_range b : 0 <= of_le b < 2 ^ (Z.of_nat (length b) * 8).
Proof. pose proof (le_combine_bound b). unfold of_le. rewrite Z.mul_comm. lia. Qed.

Lemma of_to_le_u64 z : is_u64 z -> of_le (to_le 8 z) = z.
Proof. intros [? ?]. apply of_to_le. unfold u64_max in *. cbn. lia. Qed.

Lemma of_to_le_u32 z : is_u32 z -> of_le (to_le 4 z) = z.
Proof. intros [? ?]. apply of_to_le. unfold u32_max in *. cbn. lia. Qed.

Lemma of_le_u64 b : length b = 8%nat -> is_u64 (of_le b).
Proof. intros H. pose proof (of_le_range b) as R. rewrite H in R. unfold is_u64, u64_max. cbn in R. lia. Qed.

Lemma of_le_u32 b : length b = 4%nat -> is_u32 (of_le b).
Proof. intros H. pose proof (of_le_range b) as R. rewrite H in R. unfold is_u32, u32_max. cbn in R. lia. Qed.

(** ** Slices

    [slice a b l] is Rust's [&l[a..b]].  Rust panics when the range is out of
    bounds; the code guards every range it takes, and the model truncates. *)

Definition slice {A} (a b : nat) (l : list A) : list A := take (b - a) (drop a l).

(** [l[i]] of a byte slice; the code guards the index. *)
Definition byte_at (l : bytes) (i : nat) : byte := default x00 (l !! i).

Section Slices.
Context {A : Type}.
  Implicit Types l x y : list A.

Lemma length_slice a b l : (b <= length l)%nat -> length (slice a b l) = (b - a)%nat.
  Proof. intros. unfold slice. rewrite length_take, length_drop. lia. Qed.

Lemma slice_skip a b k x y : length x = k -> (k <= a)%nat -> slice a b (x ++ y) = slice (a - k) (b - k) y.
  Proof.
    intros <- H. unfold slice. rewrite drop_app_ge by done. f_equal. lia.
  Qed.

Lemma slice_here n x y : length x = n -> slice 0 n (x ++ y) = x.
  Proof. intros <-. unfold slice. rewrite Nat.sub_0_r. cbn. apply take_app_length. Qed.

Lemma slice_here' a n x y : (a = 0 /\ length x = n)%nat -> slice a n (x ++ y) = x.
  Proof. intros [-> ?]. now apply slice_here. Qed.

Lemma slice_all n x : length x = n -> slice 0 n x = x.
  Proof. intros <-. unfold slice. rewrite Nat.sub_0_r. cbn. apply firstn_all. Qed.

Lemma slice_mid a b x y z :
    length x = a -> (a + length y)%nat = b -> slice a b (x ++ y ++ z) = y.
  Proof. intros <- <-. rewrite (slice_skip _ _ (length x)) by lia. apply slice_here'; lia. Qed.

Lemma slice_within a b x y : (b <= length x)%nat -> slice a b (x ++ y) = slice a b x.
  Proof.
    intros H. unfold slice. destruct (Nat.le_gt_cases a b).
    - rewrite drop_app_le by lia. rewrite take_app_le; [done|]. rewrite length_drop. lia.
    - replace (b - a)%nat with 0%nat by lia. done.
  Qed.

Lemma slice_join a b c l : (a <= b <= c)%nat -> slice a b l ++ slice b c l = slice a c l.
  Proof.
    intros H. unfold slice.
    replace (c - a)%nat with ((b - a) + (c - b))%nat by lia.
    rewrite <- (take_take_drop _ (b - a) (c - b)), drop_drop. do 3 f_equal. lia.
  Qed.

Lemma slice_take n l : slice 0 n l = take n l.
  Proof. unfold slice. now rewrite Nat.sub_0_r. Qed.

Lemma slice_of_take a b n l : (b <= n)%nat -> slice a b (take n l) = slice a b l.
  Proof.
    intros H. unfold slice. rewrite skipn_firstn_comm, take_take. f_equal. lia.
  Qed.

Lemma slice_drop a n l : (length l <= n)%nat -> slice a n l = drop a l.
  Proof. intros. unfold slice. apply take_ge. rewrite length_drop. lia. Qed.

Lemma slice_slice a b c d l : (c + b <= d)%nat -> slice a b (slice c d l) = slice (c + a) (c + b) l.
  Proof.
    intros H. unfold slice. rewrite skipn_firstn_comm, drop_drop, take_take. f_equal; lia.
  Qed.
End Slices.

Lemma slice_one l i : (i < length l)%nat -> slice i (S i) l = [byte_at l i].
Proof.
  intros H. unfold slice, byte_at. replace (S i - i)%nat with 1%nat by lia.
  destruct (lookup_lt_is_Some_2 l i H) as [b Hb]. rewrite Hb. cbn [default id from_option].
  now rewrite (drop_S _ _ _ Hb).
Qed.

Lemma byte_at_app_l x y i : (i < length x)%nat -> byte_at (x ++ y) i = byte_at x i.
Proof. intros. unfold byte_at. now rewrite lookup_app_l. Qed.

Lemma byte_at_app_r x y i : (length x <= i)%nat -> byte_at (x ++ y) i = byte_at y (i - length x).
Proof. intros. unfold byte_at. now rewrite lookup_app_r. Qed.

(** ** Automation *)

Create HintDb selene.
#[export] Hint Resolve length_to_le zlen_nonneg u8_range of_le_u64 of_le_u32 : selene.

Create Rewrite HintDb selene_len.
#[export] Hint Rewrite @length_app @length_to_le @zlen_app @zlen_cons @zlen_nil
  @length_cons @length_nil @length_take @length_drop : selene_len.

(** Break one step of a chain of [let?] and [refuse] known to succeed. *)
Ltac ok_step :=
  match goal with
  | H : Ok _ = Ok _ |- _ => injection H as H; try subst
  | H : Err _ = Ok _ |- _ => discriminate H
  | H : Ok _ = Err _ |- _ => discriminate H
  | H : Err _ = Err _ |- _ => injection H as H; try subst
  | H : (match ?e with Ok _ => _ | Err _ => _ end) = Ok _ |- _ =>
      let E := fresh "Hok" in destruct e eqn:E; [|discriminate H]
  | H : (if ?b then Err _ else _) = Ok _ |- _ =>
      let E := fresh "Hif" in destruct b eqn:E; [discriminate H|]
  | H : (if ?b then _ else Err _) = Ok _ |- _ =>
      let E := fresh "Hif" in destruct b eqn:E; [|discriminate H]
  | H : ok_or _ _ = Ok _ |- _ => apply ok_or_Ok in H
  | H : map_err _ _ = Ok _ |- _ => apply map_err_Ok in H
  | H : checked_add _ _ = Some _ |- _ => apply checked_add_Some in H as [? ?]; try subst
  | H : checked_mul _ _ = Some _ |- _ => apply checked_mul_Some in H as [? ?]; try subst
  end.
Ltac ok_inv := repeat ok_step.

(** Turn boolean tests into the propositions they decide. *)
Ltac bool_step :=
  match goal with
  | H : _ || _ = false |- _ => apply orb_false_iff in H as [? ?]
  | H : _ && _ = true |- _ => apply andb_true_iff in H as [? ?]
  | H : negb _ = true |- _ => apply negb_true_iff in H
  | H : negb _ = false |- _ => apply negb_false_iff in H
  | H : bool_decide _ = true |- _ => apply bool_decide_eq_true in H
  | H : bool_decide _ = false |- _ => apply bool_decide_eq_false in H
  | H : (_ <? _) = true |- _ => apply Z.ltb_lt in H
  | H : (_ <? _) = false |- _ => apply Z.ltb_ge in H
  | H : (_ <=? _) = true |- _ => apply Z.leb_le in H
  | H : (_ <=? _) = false |- _ => apply Z.leb_gt in H
  | H : (_ >? _) = true |- _ => apply Z.gtb_lt in H
  | H : (_ >? _) = false |- _ => rewrite Z.gtb_ltb in H; apply Z.ltb_ge in H
  | H : (_ =? _) = true |- _ => apply Z.eqb_eq in H
  | H : (_ =? _) = false |- _ => apply Z.eqb_neq in H
  end.
Ltac bool_inv := repeat bool_step.

Ltac ok_bool := repeat (ok_step || bool_step).

(** Lengths of concrete concatenations. *)
Ltac len := autorewrite with selene_len in *; cbn [length] in *; try lia.

(** ** Known lengths

    [Len l n] records that [l] has [n] elements; resolution computes the length
    of a concatenation of fixed-width fields. *)
Class Len {A} (l : list A) (n : nat) : Prop := len_is : length l = n.
#[export] Hint Mode Len + + - : typeclass_instances.

#[export] Instance Len_to_le n z : Len (to_le n z) n.
Proof. apply length_to_le. Qed.
#[export] Instance Len_nil {A} : Len (@nil A) 0.
Proof. reflexivity. Qed.
#[export] Instance Len_cons {A} (a : A) l n : Len l n -> Len (a :: l) (S n).
Proof. intros <-. reflexivity. Qed.
#[export] Instance Len_app {A} (l k : list A) n m : Len l n -> Len k m -> Len (l ++ k) (n + m).
Proof. intros <- <-. apply length_app. Qed.
#[export] Instance Len_replicate {A} (a : A) n : Len (replicate n a) n.
Proof. apply length_replicate. Qed.

Lemma Len_conv {A} (l : list A) n m : Len l n -> n = m -> Len l m.
Proof. congruence. Qed.

(** Prove [Len l m] from the computed length of [l]. *)
Ltac len_by := eapply Len_conv; [typeclasses eauto | first [reflexivity | lia]].

(** Evaluate [slice a b (x1 ++ ... ++ xn)] when the range is one of the parts. *)
Ltac slice_step :=
  match goal with
  | |- context [slice ?a ?b (?x ++ ?y)] =>
      let L := constr:(len_is (l := x)) in
      first [ rewrite (slice_here _ x y L)
            | rewrite (slice_skip a b _ x y L) by (cbn; lia); cbn [Nat.sub Nat.add] ]
  | |- context [slice 0 ?b ?x] => rewrite (slice_all b x) by (exact (len_is (l := x)))
  end.
Ltac slices := repeat slice_step.

(** ** Methods on a mutable receiver

    A Rust method [fn f(&mut self, ..) -> Result<A, E>] is a [method S E A]: it
    maps the receiver to a result and the receiver it leaves behind, also when
    it fails. *)
Definition method (S E A : Type) : Type := S -> result E A * S.

Section Methods.
Context {S E A B : Type}.

Definition ret (a : A) : method S E A := fun s => (Ok a, s).
Definition throw (e : E) : method S E A := fun s => (Err e, s).
Definition bind (m : method S E A) (k : A -> method S E B) : method S E B :=
  fun s => match m s with
           | (Ok a, s') => k a s'
           | (Err e, s') => (Err e, s')
           end.
Definition of_result (r : result E A) : method S E A := fun s => (r, s).
End Methods.

(** [if c { return Err(e); }] *)
Definition fail_if {S E} (c : bool) (e : E) : method S E unit := if c then throw e else ret tt.

(** [do x <- m; k] is [let x = m?; k], and [m ;; k] is [m?; k]. *)
Notation "'do' x <- m ; k" := (bind m (fun x => k))
  (at level 10, x pattern, m at level 100, k at level 200) : selene_scope.
Notation "m ;; k" := (bind m (fun _ => k)) : selene_scope.

(** [for x in l { f(x)?; }] *)
Definition for_each {S E A} (f : A -> method S E unit) : list A -> method S E unit :=
  fix go l := match l with
              | [] => ret tt
              | x :: l => f x ;; go l
              end.

(** [(0..n).map(|_| m()).collect()]: [n] calls of [m], their results in order. *)
Fixpoint repeat_m {S E A} (n : nat) (m : method S E A) : method S E (list A) :=
  match n with
  | O => ret []
  | Datatypes.S n => do x <- m; do l <- repeat_m n m; ret (x :: l)
  end.

Lemma repeat_m_S {S E A} n (m : method S E A) :
  repeat_m (Datatypes.S n) m = (do x <- m; do l <- repeat_m n m; ret (x :: l)).
Proof. reflexivity. Qed.

Section MethodLemmas.
Context {S E A B : Type}.

Lemma bind_Ok (m : method S E A) (k : A -> method S E B) s b s' :
  (bind m k) s = (Ok b, s') <-> exists a s1, m s = (Ok a, s1) /\ k a s1 = (Ok b, s').
Proof.
  unfold bind. destruct (m s) as [[a|e] s1]; split.
  - eauto.
  - intros (? & ? & [= -> ->] & ?). done.
  - done.
  - intros (? & ? & ? & _). done.
Qed.

Lemma bind_step (m : method S E A) (k : A -> method S E B) s a s1 :
  m s = (Ok a, s1) -> (bind m k) s = k a s1.
Proof. unfold bind. by intros ->. Qed.

Lemma bind_ext (m : method S E A) (k k' : A -> method S E B) s :
  (forall a s, k a s = k' a s) -> bind m k s = bind m k' s.
Proof. intros X. unfold bind. by destruct (m s) as [[|]]. Qed.

Lemma ret_Ok (a b : A) (s s' : S) : @ret S E A a s = (Ok b, s') <-> a = b /\ s = s'.
Proof. unfold ret. split; [by intros [= -> ->]|by intros [-> ->]]. Qed.

Lemma throw_Ok (e : E) (b : A) (s s' : S) : @throw S E A e s = (Ok b, s') <-> False.
Proof. by unfold throw. Qed.

Lemma fail_if_Ok c (e : E) u (s s' : S) : fail_if c e s = (Ok u, s') <-> c = false /\ s = s'.
Proof.
  unfold fail_if, throw, ret. destruct c, u; split.
  - done.
  - by intros [? _].
  - by intros [= ->].
  - by intros [_ ->].
Qed.

Lemma of_result_Ok (r : result E A) b (s s' : S) : of_result r s = (Ok b, s') <-> r = Ok b /\ s = s'.
Proof. unfold of_result. split; [by intros [= -> ->]|by intros [-> ->]]. Qed.
End MethodLemmas.

Lemma bind_assoc {S E A B C} (m : method S E A) (k : A -> method S E B) (l : B -> method S E C) s :
  bind (bind m k) l s = bind m (fun a => bind (k a) l) s.
Proof. unfold bind. by destruct (m s) as [[|]]. Qed.

Lemma bind_pass {S E B} (e : E) (k : unit -> method S E B) s : bind (fail_if false e) k s = k tt s.
Proof. done. Qed.
Lemma bind_fail {S E B} (e : E) (k : unit -> method S E B) s : bind (fail_if true e) k s = (Err e, s).
Proof. done. Qed.
Lemma bind_pure {S E A B} (a : A) (k : A -> method S E B) s : bind (of_result (Ok a)) k s = k a s.
Proof. done. Qed.

Lemma bind_ret_unit {S E} (m : method S E unit) s : (m ;; ret tt) s = m s.
Proof. unfold bind, ret. by destruct (m s) as [[[]|]]. Qed.

(** Decompose the success of a method. *)
Ltac run_step :=
  match goal with
  | H : bind _ _ _ = (Ok _, _) |- _ =>
      apply bind_Ok in H as (?a & ?s & ?Hrun & H)
  | H : ret _ _ = (Ok _, _) |- _ => first [apply ret_Ok in H as [<- <-] | apply ret_Ok in H as [? ?]; subst]
  | H : throw _ _ = (Ok _, _) |- _ => apply throw_Ok in H; destruct H
  | H : fail_if _ _ _ = (Ok _, _) |- _ => first [apply fail_if_Ok in H as [H <-] | apply fail_if_Ok in H as [H ?]; subst]
  | H : of_result _ _ = (Ok _, _) |- _ => first [apply of_result_Ok in H as [H <-] | apply of_result_Ok in H as [H ?]; subst]
  end.
Ltac run_inv := repeat run_step.

(** ** Panics *)

Inductive fault (E : Type) := Panic (what : string) | Fails (e : E).
Arguments Panic {E} what.
Arguments Fails {E} e.
Abbreviation outcome E A := (result (fault E) A).

(** A result of a function that does not panic. *)
Definition lift {E A} (r : result E A) : outcome E A := map_err Fails r.
(** [map_err(|_| err)]; a panic goes on. *)
Definition fails_as {E E' A} (err : E') (r : outcome E A) : outcome E' A :=
  map_err (fun f => match f with Panic what => Panic what | Fails _ => Fails err end) r.

(** ** Sums over lists *)

Definition sum_of {A} (f : A -> nat) : list A -> nat :=
  fix go l := match l with
              | [] => O
              | x :: l => (f x + go l)%nat
              end.

Section Sums.
Context {A B : Type}.
Implicit Type f : A -> nat.

Lemma sum_of_cons f x l : sum_of f (x :: l) = (f x + sum_of f l)%nat.
Proof. done. Qed.
Lemma sum_of_app f l k : sum_of f (l ++ k) = (sum_of f l + sum_of f k)%nat.
Proof. induction l as [|x l IH]; [done|]. cbn [app]. rewrite !sum_of_cons, IH. lia. Qed.
Lemma sum_of_rev f l : sum_of f (rev l) = sum_of f l.
Proof. induction l as [|x l IH]; [done|]. cbn [rev]. rewrite sum_of_app, !sum_of_cons, IH. cbn. lia. Qed.
Lemma sum_of_Forall f l n : (sum_of f l <= n)%nat -> Forall (fun x => f x <= n)%nat l.
Proof.
  revert n. induction l as [|x l IH]; intros n Hn; [done|]. rewrite sum_of_cons in Hn.
  constructor; [lia|]. apply IH. lia.
Qed.
Lemma sum_of_map (g : B -> A) f l : sum_of f (map g l) = sum_of (fun x => f (g x)) l.
Proof. induction l as [|x l IH]; [done|]. cbn [map]. by rewrite !sum_of_cons, IH. Qed.
End Sums.

Lemma forallb_rev {A} (f : A -> bool) l : forallb f (rev l) = forallb f l.
Proof.
  induction l as [|x l IH]; [done|]. cbn [rev]. rewrite forallb_app, IH. cbn.
  by rewrite andb_true_r, andb_comm.
Qed.

Lemma forallb_map {A B} (g : A -> B) (f : B -> bool) l :
  forallb f (map g l) = forallb (fun x => f (g x)) l.
Proof. induction l as [|x l IH]; [done|]. cbn. by rewrite IH. Qed.

(** [P] holds of every element; computes on lists, unlike [Forall]. *)
Definition all_of {A} (P : A -> Prop) : list A -> Prop :=
  fix go l := match l with
              | [] => True
              | x :: l => P x /\ go l
              end.

Lemma all_of_Forall {A} (P : A -> Prop) l : all_of P l <-> Forall P l.
Proof. induction l as [|x l IH]; cbn; [done|]. by rewrite Forall_cons, IH. Qed.

(** Fields of the same lengths are determined by their concatenation. *)
Lemma concat_inj (l l' : list bytes) :
  map (@length byte) l = map (@length byte) l' -> concat l = concat l' -> l = l'.
Proof.
  revert l'. induction l as [|x l IH]; intros [|x' l']; try done. cbn. intros [= Hx Hl] E.
  apply app_inj_1 in E as [-> E]; [|done]. f_equal. by apply IH.
Qed.

Lemma to_le_u64_inj a b : to_le 8 a = to_le 8 b -> is_u64 a -> is_u64 b -> a = b.
Proof. intros E Ha Hb. rewrite <- (of_to_le_u64 a), <- (of_to_le_u64 b) by done. by rewrite E. Qed.
