(* ===== verification/Errors.v ===== *)
(** Error types of the persistence crate and of the logical codec.

    One inductive type per Rust error enum, with the source's constructors:
    [CodecError] (selene-core, logical.rs), [FrameError] (logical_frame.rs),
    [ControlError], [DirectoryError] and [PersistError] (control_error.rs,
    directory_error.rs, error.rs) and [StreamError] (logical_stream/outcome.rs).
    A [std::io::Error] is represented by its kind, the only part of it that the
    code inspects.  [PathBuf] and [String] are [string]s. *)

From S2P Require Import Prelude.

(** The kinds of [std::io::Error] the code distinguishes. *)
Inductive IoError :=
| IoNotFound
| IoAlreadyExists
| IoOther.

#[global] Instance IoError_eq_dec : EqDecision IoError.
Proof. solve_decision. Defined.

(** [selene_core::logical::CodecError]. *)
Module CodecError.
Inductive t :=
| Incomplete
| Limit
| Invalid (what : string)
| Unsupported (what : string)
| Semantic
| Admission (what : string).

#[global] Instance eq_dec : EqDecision t.
Proof. solve_decision. Defined.
End CodecError.
Abbreviation CodecError := CodecError.t.

(** [selene_persist::logical_frame::FrameError]. *)
Module FrameError.
Inductive t :=
| Invalid (what : string)
| Context
| Unsupported (what : string)
| Integrity (what : string)
| Store
| Epoch
| Segment
| Origin
| Sequence (expected observed : Z)
| SnapshotBoundary
| Payload (e : CodecError)
| Limit
| CorruptIncomplete
| Compression.

#[global] Instance eq_dec : EqDecision t.
Proof. solve_decision. Defined.
End FrameError.
Abbreviation FrameError := FrameError.t.

(** [selene_persist::PersistArtifact]. *)
Inductive PersistArtifact :=
| Wal
| Snapshot
| Manifest
| AuditLog.

#[global] Instance PersistArtifact_eq_dec : EqDecision PersistArtifact.
Proof. solve_decision. Defined.

(** [ControlError], [DirectoryError] and [PersistError], which refer to each other. *)
Inductive ControlError :=
| NotInitialized
| AlreadyInitialized
| UnpublishedArtifacts
| MixedArtifacts (path : string)
| TooLarge
| Envelope (what : string)
| UnsupportedVersion
| Checksum
| Lineage
| Compatibility
| Stale
| GenerationExhausted
| PublicationUncertain (source : PersistError)
| RequiresReopen
with DirectoryError :=
| UnsupportedPlatform
| NotDirectory
| InvalidName (path : string)
| NotRegular (path : string)
| CoordinationEntry (path : string)
| DPublicationUncertain (source : PersistError)
| DRequiresReopen
with PersistError :=
| PArtifact (name : string) (source : PersistError)
| PDirectory (e : DirectoryError)
| PControl (e : ControlError)
| PIo (e : IoError)
| PUnsupportedVersion (artifact : PersistArtifact) (major minor : Z)
| WriterLockHeld.

(** The boxed causes of [StreamError::Preparation] in the modelled code. *)
Inductive PreparationError :=
| PrepCodec (e : CodecError)
| PrepFrame (e : FrameError).

(** [selene_persist::logical_stream::StreamError]. *)
Module StreamError.
Inductive t :=
| Artifact (name : string) (offset expected_sequence : option Z) (source : t)
| MissingSnapshot
| IncompleteTail
| Terminated
| Persist (e : PersistError)
| Io (e : IoError)
| Frame (e : FrameError)
| Protocol (what : string)
| Panicked
| Preparation (e : PreparationError).

(** [StreamError::at]. *)
Definition at_ (e : t) (name : string) (offset expected_sequence : option Z) : t :=
  Artifact name offset expected_sequence e.
End StreamError.
Abbreviation StreamError := StreamError.t.

(** [PersistError::gqlstatus]. *)
Fixpoint gqlstatus (e : PersistError) : string :=
  match e with
  | PArtifact _ source => gqlstatus source
  | PUnsupportedVersion _ _ _ => "08000"
  | PDirectory _ | PControl _ | PIo _ | WriterLockHeld => "5GQL0"
  end.
