(* ===== verification/Externals.v ===== *)
(** Interfaces of the third-party code the persistence crate calls.

    BLAKE3 (the [blake3] crate) and Zstandard (the [zstd] crate) are not part of
    the repository.  Each is a class of operations; what the code relies on is a
    separate class of laws, stated from the crates' documented behaviour.  The
    last module gives one concrete instance of each, so that theorems that
    assume the laws can be applied to concrete inputs. *)

From S2P Require Import Prelude.
From Stdlib Require Ascii String.
From coqutil Require Import Byte.

(** ** [blake3::hash] *)

Class Blake3 := blake3 : bytes -> bytes.

(** A digest has 32 bytes. *)
Class Blake3Laws `{Blake3} : Prop := {
  blake3_length : forall b, length (blake3 b) = 32%nat
}.

(** Two different inputs with the same digest. *)
Definition collision `{Blake3} : Prop := exists x y : bytes, x <> y /\ blake3 x = blake3 y.

(** ** Zstandard streams

    [zstd_encode] is the whole use of [zstd::stream::write::Encoder] in
    logical_frame.rs (level 1, window log 23, pledged size, one [write_all],
    [finish]), with [None] for any of its errors.  [zstd_decoder] is
    [Decoder::with_buffer(..).single_frame()] with [window_log_max(23)];
    [zstd_read] is one [read] into an 8192 byte buffer, and [zstd_finish] gives
    the input that was not consumed. *)
Class Zstd := {
  zstd_encode : bytes -> option bytes;
  zstd_stream : Type;
  zstd_decoder : bytes -> option zstd_stream;
  zstd_read : zstd_stream -> option (bytes * zstd_stream);
  zstd_finish : zstd_stream -> bytes
}.

(** The decoder [d] delivers exactly [out] and then reports the end of its
    single frame with no input left over. *)
Inductive drains `{Zstd} : zstd_stream -> bytes -> Prop :=
| drains_end d d' :
    zstd_read d = Some ([], d') -> zstd_finish d' = [] -> drains d []
| drains_chunk d d' c out :
    zstd_read d = Some (c, d') -> c <> [] -> drains d' out -> drains d (c ++ out).

(** RFC 8878 frames: a compressed body starts with the frame magic number, has
    no dictionary identifier (the low two bits of the frame header descriptor),
    and decompresses to the body. *)
Class ZstdLaws `{Zstd} : Prop := {
  zstd_magic : forall body out, zstd_encode body = Some out ->
    take 4 out = [x28; xb5; x2f; xfd];
  zstd_no_dictionary : forall body out, zstd_encode body = Some out ->
    exists b, out !! 4%nat = Some b /\ Z.land (u8 b) 3 = 0;
  zstd_roundtrip : forall body out, zstd_encode body = Some out ->
    exists d, zstd_decoder out = Some d /\ drains d body
}.

(** ** Postcard

    [postcard::to_stdvec] and [postcard::take_from_bytes] at one serializable
    type.  The code relies on reading back what was written, before any
    continuation. *)
Class Postcard (A : Type) := {
  to_stdvec : A -> option bytes;
  take_from_bytes : bytes -> option (A * bytes)
}.

Class PostcardLaws (A : Type) `{Postcard A} : Prop :=
  postcard_roundtrip : forall (a : A) b rest, to_stdvec a = Some b -> take_from_bytes (b ++ rest) = Some (a, rest).

(** ** Texts of hashes and UUIDs

    [blake3::Hash::to_hex], [Uuid] printing and [Uuid::parse_str]. *)
Class HashHex := to_hex : bytes -> string.

(** Sixty-four lower case hexadecimal digits, a different text for each hash. *)
Definition is_hex_char (c : Ascii.ascii) : bool :=
  let n := Ascii.nat_of_ascii c in ((48 <=? n) && (n <=? 57) || (97 <=? n) && (n <=? 102))%nat.

Class HashHexLaws `{HashHex} : Prop := {
  to_hex_inj : forall a b, length a = 32%nat -> length b = 32%nat -> to_hex a = to_hex b -> a = b;
  to_hex_length : forall a, length a = 32%nat -> String.length (to_hex a) = 64%nat;
  to_hex_chars : forall a, length a = 32%nat -> Forall (fun c => is_hex_char c = true) (String.list_ascii_of_string (to_hex a))
}.

Class UuidText := {
  uuid_display : bytes -> string;
  uuid_parse_ok : string -> bool
}.

Class UuidLaws `{UuidText} : Prop := {
  uuid_parse_display : forall u, length u = 16%nat -> uuid_parse_ok (uuid_display u) = true;
  uuid_display_chars : forall u, length u = 16%nat ->
    Forall (fun c => is_hex_char c = true \/ Ascii.nat_of_ascii c = 45%nat) (String.list_ascii_of_string (uuid_display u))
}.

(** ** Concrete instances

    [Toy.toy_blake3] folds the input into a position-dependent 32 byte word.
    [Toy.toy_zstd] stores a run of one repeated byte as the frame header, the
    byte and a count, and refuses every other body. *)
Module Toy.

Definition toy_sum (b : bytes) : Z :=
  fold_left (fun acc x => (acc * 257 + u8 x + 1) mod 4294967291) b 7.

Definition toy_blake3 : Blake3 := fun b => to_le 32 (toy_sum b).

Lemma toy_blake3_laws : @Blake3Laws toy_blake3.
Proof. split. intros b. unfold blake3, toy_blake3. apply length_to_le. Qed.

Definition toy_header : bytes := [x28; xb5; x2f; xfd; x20].

(** Emits [b] ([n] copies) in chunks of 1, then the end. *)
Definition toy_zstd : Zstd := {|
  zstd_encode body :=
    match body with
    | [] => None
    | b :: _ =>
        if bool_decide (body = replicate (length body) b) && (zlen body <=? u64_max)
        then Some (toy_header ++ [b] ++ to_le 8 (zlen body)) else None
    end;
  zstd_stream := byte * nat;
  zstd_decoder input :=
    if bool_decide (length input = 14%nat)
    then Some (byte_at input 5, Z.to_nat (of_le (slice 6 14 input))) else None;
  zstd_read := fun '(b, n) =>
    match n with O => Some ([], (b, O)) | S m => Some ([b], (b, m)) end;
  zstd_finish _ := []
|}.

Lemma toy_drains b n : @drains toy_zstd (b, n) (replicate n b).
Proof.
  induction n as [|n IH]; [now apply (@drains_end toy_zstd _ (b, O))|].
  apply (@drains_chunk toy_zstd (b, S n) (b, n) [b]); [done..|exact IH].
Qed.

Lemma toy_encode_inv body out :
  @zstd_encode toy_zstd body = Some out ->
  exists b, body = replicate (length body) b /\ is_u64 (zlen body) /\
    out = toy_header ++ [b] ++ to_le 8 (zlen body).
Proof.
  destruct body as [|b body]; [done|]. cbn [zstd_encode toy_zstd].
  destruct (bool_decide _ && _) eqn:E; [|done]. bool_inv. intros [= <-].
  exists b. repeat split; auto using zlen_nonneg.
Qed.

Lemma toy_zstd_laws : @ZstdLaws toy_zstd.
Proof.
  split; intros body out (b & Hb & Hn & ->)%toy_encode_inv.
  - reflexivity.
  - exists x20. split; reflexivity.
  - exists (b, length body). split.
    + cbn [zstd_decoder toy_zstd]. rewrite bool_decide_eq_true_2 by (cbn; now rewrite length_to_le).
      do 3 f_equal. replace (toy_header ++ [b] ++ _) with ((toy_header ++ [b]) ++ to_le 8 (zlen body))
        by now rewrite <- app_assoc.
      rewrite (slice_skip 6 14 6), slice_all by (reflexivity || apply length_to_le || lia).
      rewrite of_to_le_u64 by done. apply Nat2Z.id.
    + rewrite Hb at 2. apply toy_drains.
Qed.

(** A law-abiding instance that never compresses. *)
Definition raw_zstd : Zstd := {|
  zstd_encode _ := None;
  zstd_stream := unit;
  zstd_decoder _ := None;
  zstd_read _ := None;
  zstd_finish _ := []
|}.

Lemma raw_zstd_laws : @ZstdLaws raw_zstd.
Proof. split; cbn; intros; discriminate. Qed.

End Toy.
