(* ===== verification/Identity.v ===== *)
(** Durable identities of the format-2 store (control/types.rs).

    [StoreId] is a 16 byte UUID, [StoreEpoch] and [ManifestGeneration] are
    nonzero 64-bit numbers; the empty manifest and the CURRENT selector bind
    them.  Newtypes are represented by their payload. *)

From Stdlib Require Import Ascii.
From S2P Require Import Prelude Errors.

(** ** [StoreId] *)
Module StoreId.
Definition t : Type := bytes.

(** The type is [[u8; 16]]. *)
Definition wf (s : t) : Prop := length s = 16%nat.

(** [StoreId::from_bytes]: version nibble 4 and variant bits 10. *)
Definition from_bytes (b : bytes) : result PersistError t :=
  refuse negb (Z.shiftr (u8 (byte_at b 6)) 4 =? 4) || negb (Z.shiftr (u8 (byte_at b 8)) 6 =? 2)
    with PControl Lineage;
  Ok b.

Lemma from_bytes_Ok b s : from_bytes b = Ok s -> s = b.
Proof. unfold from_bytes. intros. now ok_inv. Qed.
End StoreId.

(** ** [StoreEpoch] *)
Module StoreEpoch.
Definition t : Type := Z.

(** [StoreEpoch::new]. *)
Definition new (value : Z) : result PersistError t :=
  refuse value =? 0 with PControl Lineage;
  Ok value.
End StoreEpoch.

(** ** [ManifestGeneration] *)

(** [format!("{:020}", n)]: [n] in decimal, padded with zeros to 20 digits. *)
Fixpoint dec_digits (fuel : nat) (n : Z) (acc : string) : string :=
  match fuel with
  | O => acc
  | S fuel =>
      dec_digits fuel (n / 10)
        (String (Ascii.ascii_of_N (Z.to_N (48 + n mod 10))) acc)
  end.

Definition dec20 (n : Z) : string := dec_digits 20 n "".

Module ManifestGeneration.
Definition t : Type := Z.

(** [ManifestGeneration::next]. *)
Definition next (g : t) : result PersistError t :=
  ok_or (checked_add g 1) (PControl GenerationExhausted).

(** [ManifestGeneration::name]. *)
Definition name (g : t) : string := "MANIFEST-" +:+ dec20 g +:+ ".control".
End ManifestGeneration.

(** ** [CompatibilityIdentity] *)

(** [name.chars().any(char::is_control)] on UTF-8 text: the C0 controls, DEL and
    the C1 controls U+0080..U+009F, whose encoding is C2 80 .. C2 9F. *)
Fixpoint has_control (s : bytes) : bool :=
  match s with
  | [] => false
  | b :: rest =>
      (u8 b <? 32) || (u8 b =? 127)
      || ((u8 b =? 194)
          && match rest with c :: _ => (128 <=? u8 c) && (u8 c <=? 159) | [] => false end)
      || has_control rest
  end.

Record CompatibilityIdentity := {
  profile : bytes;
  profile_version : Z;
  profile_hash : bytes;
  unicode_version : list Z;
  collation : bytes;
  collation_version : Z
}.

#[global] Instance CompatibilityIdentity_eq_dec : EqDecision CompatibilityIdentity.
Proof. solve_decision. Defined.

(** The loop body of [CompatibilityIdentity::validate]. *)
Definition identity_name_ok (name : bytes) : bool :=
  negb (bool_decide (name = []) || (96 <? zlen name) || has_control name).

(** [CompatibilityIdentity::validate]. *)
Definition identity_validate (i : CompatibilityIdentity) : result PersistError unit :=
  refuse negb (forallb identity_name_ok [profile i; collation i]) with PControl Compatibility;
  Ok tt.

(** ** [EmptyManifest] *)

Record Parent := {
  parent_generation : ManifestGeneration.t;
  parent_digest : bytes
}.

#[global] Instance Parent_eq_dec : EqDecision Parent.
Proof. solve_decision. Defined.

Record EmptyManifest := {
  em_store_id : StoreId.t;
  em_epoch : StoreEpoch.t;
  em_generation : ManifestGeneration.t;
  em_format : list Z;
  em_identity : CompatibilityIdentity;
  em_parent : option Parent
}.

#[global] Instance EmptyManifest_eq_dec : EqDecision EmptyManifest.
Proof. solve_decision. Defined.

Definition zeros (n : nat) : bytes := replicate n x00.

(** The match on the parent in [EmptyManifest::validate]. *)
Definition parent_ok (generation : Z) (parent : option Parent) : bool :=
  match parent with
  | None => generation =? 1
  | Some p =>
      negb (parent_generation p =? 0)
      && bool_decide (checked_add (parent_generation p) 1 = Some generation)
  end.

(** [EmptyManifest::validate]. *)
Definition manifest_validate (m : EmptyManifest) : result PersistError unit :=
  refuse negb (bool_decide (em_format m = [2; 0])) with PControl UnsupportedVersion;
  refuse bool_decide (em_store_id m = zeros 16) || (em_epoch m =? 0) || (em_generation m =? 0)
    with PControl Lineage;
  refuse negb (parent_ok (em_generation m) (em_parent m)) with PControl Lineage;
  identity_validate (em_identity m).

(** ** [CurrentSelector] *)

Record CurrentSelector := {
  cs_store_id : StoreId.t;
  cs_epoch : StoreEpoch.t;
  cs_generation : ManifestGeneration.t;
  cs_manifest_name : string;
  cs_digest : bytes
}.

#[global] Instance CurrentSelector_eq_dec : EqDecision CurrentSelector.
Proof. solve_decision. Defined.

(** [CurrentSelector::from_manifest]. *)
Definition from_manifest (m : EmptyManifest) (digest : bytes) : CurrentSelector := {|
  cs_store_id := em_store_id m;
  cs_epoch := em_epoch m;
  cs_generation := em_generation m;
  cs_manifest_name := ManifestGeneration.name (em_generation m);
  cs_digest := digest
|}.

Fixpoint string_any (f : Ascii.ascii -> bool) (s : string) : bool :=
  match s with EmptyString => false | String c s => f c || string_any f s end.

(** [validate_name] of store_directory.rs.  A single component without separators
    is its own [Path::file_name], so the last test of the source is implied by
    the others and has no counterpart here. *)
Definition validate_name (name : string) : result PersistError unit :=
  refuse bool_decide (name = "") || bool_decide (name = ".") || bool_decide (name = "..")
         || string_any (fun c => bool_decide (c = "/"%char) || bool_decide (c = "\"%char)
                              || bool_decide (c = ":"%char) || bool_decide (c = Ascii.zero)) name
    with PDirectory (InvalidName name);
  Ok tt.

(** [CurrentSelector::validate]. *)
Definition selector_validate (s : CurrentSelector) : result PersistError unit :=
  refuse bool_decide (cs_store_id s = zeros 16) || (cs_epoch s =? 0) || (cs_generation s =? 0)
         || negb (bool_decide (cs_manifest_name s = ManifestGeneration.name (cs_generation s)))
    with PControl Lineage;
  validate_name (cs_manifest_name s).
