(* ===== verification/Frame.v ===== *)
(** Format-2 transaction frames (logical_frame.rs).

    [encode] and [decode] are the whole functions of the source, [expand] the
    bounded decompression loop.  BLAKE3 and Zstandard are the interfaces of
    Externals.v.  The theorems show that decoding inverts encoding at any later
    position of a stream, that an accepted frame is byte for byte what the
    encoder writes, how a torn frame is classified, and that a record digest
    binds the whole record. *)

From S2P Require Import Prelude Errors Externals Identity.
From coqutil Require Import Byte.

(** ** Constants *)

Definition MAGIC : bytes := ascii_bytes "SLTXN2" ++ [x00; x00].
Definition HEADER_LEN : nat := 160.
Definition TRAILER_LEN : nat := 40.
Definition FRAME_OVERHEAD : nat := HEADER_LEN + TRAILER_LEN.
Definition MAX_PAYLOAD : Z := 256 * 1024 * 1024.
Definition END_MARK : bytes := ascii_bytes "SLTXEND2".

(** ** Data *)

Inductive Compression := Raw | Auto.

Record Context := {
  store : StoreId.t;
  epoch : StoreEpoch.t;
  sequence : Z;
  segment : bytes;
  previous : bytes
}.

#[global] Instance Context_eq_dec : EqDecision Context.
Proof. solve_decision. Defined.

(** What the Rust types of the fields guarantee. *)
Record context_wf (c : Context) : Prop := {
  wf_store : length (store c) = 16%nat;
  wf_epoch : is_u64 (epoch c);
  wf_sequence : is_u64 (sequence c);
  wf_segment : length (segment c) = 32%nat;
  wf_previous : length (previous c) = 32%nat
}.

Inductive Boundary := UnsealedEnd | SealedEnd | Interior.

#[global] Instance Boundary_eq_dec : EqDecision Boundary.
Proof. solve_decision. Defined.

Inductive Decoded :=
| Complete (body digest : bytes) (consumed : nat)
| Incomplete (needed : nat).

(** ** Operations *)

(** [check_context]. *)
Definition check_context (c : Context) : result FrameError unit :=
  refuse (sequence c =? 0) || (epoch c =? 0) with FrameError.Context;
  let? _ := map_err (fun _ => FrameError.Context) (StoreId.from_bytes (store c)) in
  Ok tt.

(** [number]: a little-endian [u64] field of the header. *)
Definition number (header : bytes) (offset : nat) : Z := of_le (slice offset (offset + 8) header).

(** [incomplete]. *)
Definition incomplete (boundary : Boundary) (needed : nat) : result FrameError Decoded :=
  if bool_decide (boundary = UnsealedEnd) then Ok (Incomplete needed)
  else Err FrameError.CorruptIncomplete.

Section Operations.
Context `{Blake3} `{Zstd}.

(** The header fields [encode] appends before the header digest. *)
Definition header_fields (codec encoded expanded : Z) (c : Context) : bytes :=
  MAGIC ++ to_le 2 2 ++ to_le 2 0 ++ [byte.of_Z codec; x00; x00; x00]
  ++ to_le 8 encoded ++ to_le 8 expanded ++ to_le 8 (sequence c)
  ++ store c ++ to_le 8 (epoch c) ++ segment c ++ previous c.

(** The bytes [encode] appends for an encoded body: header, header digest, body,
    end marker and record digest. *)
Definition frame_bytes (codec : Z) (encoded : bytes) (expanded : Z) (c : Context) : bytes :=
  let fields := header_fields codec (zlen encoded) expanded c in
  let result := fields ++ blake3 fields ++ encoded ++ END_MARK in
  result ++ blake3 result.

(** The compressed body [encode] selects, [None] for RAW. *)
Definition compress (body : bytes) (compression : Compression) : result FrameError (option bytes) :=
  match compression with
  | Auto =>
      if 4096 <=? zlen body then
        let? out := ok_or (zstd_encode body) FrameError.Compression in
        Ok (if zlen out <? zlen body then Some out else None)
      else Ok None
  | Raw => Ok None
  end.

(** [encode]. *)
Definition encode (body : bytes) (c : Context) (compression : Compression) (limit : Z) :
    result FrameError bytes :=
  let? _ := check_context c in
  refuse (MAX_PAYLOAD <? limit) || (limit <? zlen body) with FrameError.Limit;
  let? compressed := compress body compression in
  match compressed with
  | Some out => Ok (frame_bytes 1 out (zlen body) c)
  | None => Ok (frame_bytes 0 body (zlen body) c)
  end.

(** The read loop of [expand]; [None] when the fuel runs out. *)
Fixpoint expand_loop (fuel : nat) (decoder : zstd_stream) (expected : Z) (output : bytes) :
    option (result FrameError (bytes * zstd_stream)) :=
  match fuel with
  | O => None
  | S fuel =>
      match zstd_read decoder with
      | None => Some (Err FrameError.Compression)
      | Some ([], decoder) => Some (Ok (output, decoder))
      | Some (chunk, decoder) =>
          if saturating_sub expected (zlen output) <? zlen chunk then Some (Err FrameError.Limit)
          else expand_loop fuel decoder expected (output ++ chunk)
      end
  end.

(** Every chunk the loop keeps is nonempty and fits in what is left of
    [expected], so [expected + 1] rounds are enough; see [expand_loop_total]. *)
Definition expand_fuel (expected : Z) : nat := S (Z.to_nat expected).

(** [expand]. *)
Definition expand (b : bytes) (expected : Z) : result FrameError bytes :=
  refuse negb (bool_decide (take 4 b = [x28; xb5; x2f; xfd]))
         || match b !! 4%nat with None => true | Some d => negb (Z.land (u8 d) 3 =? 0) end
    with FrameError.Compression;
  let? decoder := ok_or (zstd_decoder b) FrameError.Compression in
  match expand_loop (expand_fuel expected) decoder expected [] with
  | None => Err FrameError.Compression
  | Some loop =>
      let? (output, decoder) := loop in
      refuse negb (zlen output =? expected) || negb (bool_decide (zstd_finish decoder = []))
        with FrameError.Invalid "Zstd consumption/length";
      Ok output
  end.

(** The checks of [decode] on the header, from the header digest to the lineage;
    returns the codec, the encoded and the expanded length. *)
Definition decode_header (header : bytes) (c : Context) (limit : Z) :
    result FrameError (Z * Z * Z) :=
  refuse negb (bool_decide (blake3 (slice 0 128 header) = slice 128 160 header))
    with FrameError.Integrity "header";
  refuse negb (bool_decide (slice 8 12 header = [x02; x00; x00; x00]))
    with FrameError.Unsupported "version";
  let codec := u8 (byte_at header 12) in
  refuse 1 <? codec with FrameError.Unsupported "codec";
  refuse negb (bool_decide (slice 13 16 header = [x00; x00; x00])) with FrameError.Invalid "reserved";
  let encoded := number header 16 in
  let expanded := number header 24 in
  refuse (limit <? encoded) || (limit <? expanded) with FrameError.Limit;
  refuse (codec =? 0) && negb (encoded =? expanded) with FrameError.Invalid "raw length";
  refuse negb (bool_decide (slice 40 56 header = store c)) with FrameError.Store;
  refuse negb (number header 56 =? epoch c) with FrameError.Epoch;
  refuse negb (bool_decide (slice 64 96 header = segment c)) with FrameError.Segment;
  refuse negb (number header 32 =? sequence c)
    with FrameError.Sequence (sequence c) (number header 32);
  refuse negb (bool_decide (slice 96 128 header = previous c)) with FrameError.Origin;
  Ok (codec, encoded, expanded).

(** [decode]. *)
Definition decode (b : bytes) (c : Context) (boundary : Boundary) (limit : Z) :
    result FrameError Decoded :=
  let? _ := check_context c in
  refuse MAX_PAYLOAD <? limit with FrameError.Limit;
  refuse negb (bool_decide (take 8 b = take (Nat.min (length b) 8) MAGIC))
    with FrameError.Invalid "magic";
  if (length b <? HEADER_LEN)%nat then incomplete boundary HEADER_LEN else
  let header := slice 0 HEADER_LEN b in
  let? (codec, encoded, expanded) := decode_header header c limit in
  let? total := ok_or (checked_add encoded (Z.of_nat FRAME_OVERHEAD)) FrameError.Limit in
  if zlen b <? total then incomplete boundary (Z.to_nat total) else
  let trailer := (HEADER_LEN + Z.to_nat encoded)%nat in
  refuse negb (bool_decide (slice trailer (trailer + 8) b = END_MARK)) with FrameError.Invalid "trailer";
  let digest := blake3 (slice 0 (trailer + 8) b) in
  refuse negb (bool_decide (digest = slice (trailer + 8) (Z.to_nat total) b))
    with FrameError.Integrity "record";
  let payload := slice HEADER_LEN trailer b in
  let? body := if codec =? 0 then Ok payload else expand payload expanded in
  Ok (Complete body digest (Z.to_nat total)).

End Operations.

(** ** The frame layout *)

#[export] Instance Len_blake3 `{Blake3Laws} b : Len (blake3 b) 32.
Proof. apply blake3_length. Qed.
#[export] Instance Len_MAGIC : Len MAGIC 8.
Proof. reflexivity. Qed.
#[export] Instance Len_END_MARK : Len END_MARK 8.
Proof. reflexivity. Qed.
#[export] Instance Len_store c : context_wf c -> Len (store c) 16.
Proof. apply wf_store. Qed.
#[export] Instance Len_segment c : context_wf c -> Len (segment c) 32.
Proof. apply wf_segment. Qed.
#[export] Instance Len_previous c : context_wf c -> Len (previous c) 32.
Proof. apply wf_previous. Qed.
#[export] Hint Extern 1 (context_wf _) => assumption : typeclass_instances.
#[export] Hint Resolve wf_epoch wf_sequence : selene.

#[export] Instance Len_header_fields codec n m c : context_wf c -> Len (header_fields codec n m c) 128.
Proof. intros W. unfold header_fields. len_by. Qed.

Section Layout.
Context `{Blake3Laws}.
Implicit Types c : Context.

(** Each field of an encoded header, read back at its offset. *)
Lemma header_layout codec n m c (d : bytes) (h := header_fields codec n m c ++ d) :
  context_wf c -> 0 <= codec < 256 -> is_u64 n -> is_u64 m -> Len d 32 ->
  slice 0 128 h = header_fields codec n m c /\ slice 128 160 h = d /\
  slice 0 8 h = MAGIC /\ slice 8 12 h = [x02; x00; x00; x00] /\ u8 (byte_at h 12) = codec /\
  slice 13 16 h = [x00; x00; x00] /\ number h 16 = n /\ number h 24 = m /\
  number h 32 = sequence c /\ slice 40 56 h = store c /\ number h 56 = epoch c /\
  slice 64 96 h = segment c /\ slice 96 128 h = previous c.
Proof.
  intros W Hc Hn Hm Hd. subst h.
  split; [now slices|]. split; [now slices|].
  unfold number, header_fields. cbn [Nat.add]. rewrite <- !app_assoc.
  repeat split.
  all: try (slices; first [reflexivity | apply of_to_le_u64; eauto with selene]).
  transitivity (u8 (byte.of_Z codec)); [reflexivity | now apply u8_of_Z].
Qed.
End Layout.

(** ** The decompression loop *)

Section Expand.
Context `{Zstd}.

(** The loop ends within its fuel: it either fails or keeps at least one byte
    per round, and never more than [expected]. *)
Lemma expand_loop_total fuel d expected output :
  zlen output <= expected ->
  (Z.to_nat (expected - zlen output) < fuel)%nat ->
  is_Some (expand_loop fuel d expected output).
Proof.
  revert d output. induction fuel as [|fuel IH]; intros d output Hle Hf; [lia|].
  cbn [expand_loop]. destruct (zstd_read d) as [[[|x chunk] d']|]; [eauto| |eauto].
  destruct (_ <? _) eqn:E; [eauto|]. bool_inv.
  unfold saturating_sub in E. rewrite Z.max_r in E by lia.
  apply IH; rewrite zlen_app; [lia|]. rewrite zlen_cons in *. pose proof (zlen_nonneg chunk). lia.
Qed.

Lemma expand_loop_le fuel d expected output result rest :
  zlen output <= expected ->
  expand_loop fuel d expected output = Some (Ok (result, rest)) -> zlen result <= expected.
Proof.
  revert d output. induction fuel as [|fuel IH]; intros d output Hle; cbn [expand_loop]; [done|].
  destruct (zstd_read d) as [[[|x chunk] d']|]; [intros [= <- <-]; done| |done].
  destruct (_ <? _) eqn:E; [done|]. bool_inv. unfold saturating_sub in E.
  apply IH. rewrite zlen_app. lia.
Qed.

Lemma expand_loop_drains d rest : drains d rest ->
  forall fuel expected output,
  zlen output + zlen rest = expected -> (length rest < fuel)%nat ->
  exists d', expand_loop fuel d expected output = Some (Ok (output ++ rest, d')) /\ zstd_finish d' = [].
Proof.
  induction 1 as [d d' Hr Hf|d d' c rest Hr Hc _ IH]; intros fuel expected output He Hl.
  - destruct fuel; [lia|]. cbn [expand_loop]. rewrite Hr, app_nil_r. eauto.
  - destruct fuel as [|fuel]; [lia|]. cbn [expand_loop]. rewrite Hr. destruct c as [|x c]; [done|].
    rewrite zlen_app in He. pose proof (zlen_nonneg rest).
    rewrite (proj2 (Z.ltb_ge _ _)) by (unfold saturating_sub; lia).
    rewrite app_assoc. apply IH; [rewrite zlen_app; lia|]. rewrite length_app in Hl. cbn in Hl. lia.
Qed.

(** [expand] inverts the encoder's compression. *)
Lemma expand_encode `{!ZstdLaws} body out :
  zstd_encode body = Some out -> expand out (zlen body) = Ok body.
Proof.
  intros He. destruct (zstd_roundtrip _ _ He) as (d & Hd & Hdr).
  destruct (zstd_no_dictionary _ _ He) as (b & Hb & Hl).
  unfold expand. rewrite (zstd_magic _ _ He), Hb, Hl, Hd, bool_decide_eq_true_2 by done. cbn [negb orb ok_or].
  destruct (expand_loop_drains d body Hdr (expand_fuel (zlen body)) (zlen body) [])
    as (d' & -> & ->); [done|unfold expand_fuel, zlen; lia|].
  cbn [app]. rewrite (Z.eqb_refl (zlen body)), bool_decide_eq_true_2 by done. reflexivity.
Qed.

Lemma expand_Ok b expected body : expand b expected = Ok body -> zlen body = expected.
Proof.
  unfold expand. intros E. ok_step. ok_step. destruct (expand_loop _ _ _ _) as [r|]; [|discriminate].
  destruct r as [[o d]|]; [|discriminate]. by ok_bool.
Qed.
End Expand.

(** ** Decoding what the encoder wrote *)

Section Decode.
Context `{Blake3Laws} `{Zstd}.
Implicit Types c : Context.

(** The record digest of a frame. *)
Definition frame_digest (codec : Z) (encoded : bytes) (expanded : Z) c : bytes :=
  let fields := header_fields codec (zlen encoded) expanded c in
  blake3 (fields ++ blake3 fields ++ encoded ++ END_MARK).

Lemma frame_bytes_length codec e m c :
  context_wf c -> length (frame_bytes codec e m c) = (200 + length e)%nat.
Proof.
  intros W. unfold frame_bytes. rewrite !length_app. cbv zeta.
  rewrite !(len_is (l := blake3 _)), (len_is (l := header_fields _ _ _ _)), (len_is (l := END_MARK)). lia.
Qed.

Lemma frame_parts codec e m c rest (F := frame_bytes codec e m c ++ rest) (n := length e)
    (fields := header_fields codec (zlen e) m c) :
  context_wf c ->
  take 8 F = MAGIC /\ (200 + n <= length F)%nat /\
  slice 0 160 F = fields ++ blake3 fields /\ slice 160 (160 + n) F = e /\
  slice (160 + n) (168 + n) F = END_MARK /\
  slice 0 (168 + n) F = fields ++ blake3 fields ++ e ++ END_MARK /\
  slice (168 + n) (200 + n) F = frame_digest codec e m c.
Proof.
  intros W. assert (Le : Len e n) by reflexivity.
  assert (HF : F = fields ++ blake3 fields ++ e ++ END_MARK ++ frame_digest codec e m c ++ rest).
  { subst F. unfold frame_bytes, frame_digest. cbv zeta. fold fields. by rewrite <- !app_assoc. }
  assert (Lf : Len fields 128) by (subst fields; typeclasses eauto).
  assert (Ld : Len (frame_digest codec e m c) 32) by (unfold frame_digest; cbv zeta; typeclasses eauto).
  clearbody fields. split; [subst F; unfold frame_bytes, header_fields; cbv zeta; rewrite <- !app_assoc; reflexivity|].
  split; [subst F; rewrite length_app, frame_bytes_length by done; lia|].
  rewrite HF. clear HF F. set (d := frame_digest _ _ _ _) in *.
  assert (Lb := len_is (l := blake3 fields)). unfold Len in *. clearbody d n.
  repeat split.
  - rewrite app_assoc. apply slice_here. rewrite length_app. lia.
  - rewrite app_assoc. apply slice_mid; rewrite ?length_app; lia.
  - replace (fields ++ _) with ((fields ++ blake3 fields ++ e) ++ END_MARK ++ (d ++ rest))
      by (by rewrite <- !app_assoc).
    apply slice_mid; rewrite ?length_app; cbn; lia.
  - replace (fields ++ _ ++ _ ++ _ ++ d ++ rest)
      with ((fields ++ blake3 fields ++ e ++ END_MARK) ++ (d ++ rest)) by (by rewrite <- !app_assoc).
    apply slice_here. rewrite ?length_app; cbn; lia.
  - replace (fields ++ _) with ((fields ++ blake3 fields ++ e ++ END_MARK) ++ d ++ rest)
      by (by rewrite <- !app_assoc).
    apply slice_mid; rewrite ?length_app; cbn; lia.
Qed.

(** What [decode] accepts of the lengths a frame declares. *)
Record frame_ok (codec : Z) (e : bytes) (m : Z) (limit : Z) : Prop := {
  fo_limit : limit <= MAX_PAYLOAD;
  fo_encoded : zlen e <= limit;
  fo_expanded : 0 <= m <= limit;
  fo_codec : codec = 0 \/ codec = 1;
  fo_raw : codec = 0 -> zlen e = m
}.

Lemma frame_ok_u64 codec e m limit : frame_ok codec e m limit -> is_u64 (zlen e) /\ is_u64 m.
Proof.
  intros [? ? ? _ _]. unfold is_u64, u64_max, MAX_PAYLOAD in *. pose proof (zlen_nonneg e). lia.
Qed.

(** Where a frame of context [c] may be read: the identity checks of the header
    of [c] against the expected context [c']. *)
Definition place c c' : result FrameError unit :=
  refuse negb (bool_decide (store c = store c')) with FrameError.Store;
  refuse negb (epoch c =? epoch c') with FrameError.Epoch;
  refuse negb (bool_decide (segment c = segment c')) with FrameError.Segment;
  refuse negb (sequence c =? sequence c') with FrameError.Sequence (sequence c') (sequence c);
  refuse negb (bool_decide (previous c = previous c')) with FrameError.Origin;
  Ok tt.

Lemma place_refl c : place c c = Ok tt.
Proof. unfold place. by rewrite !bool_decide_eq_true_2, !Z.eqb_refl by done. Qed.

Lemma decode_header_fields codec e m c c' limit (fields := header_fields codec (zlen e) m c) :
  context_wf c -> frame_ok codec e m limit ->
  decode_header (fields ++ blake3 fields) c' limit = (let? _ := place c c' in Ok (codec, zlen e, m)).
Proof.
  intros W F. destruct (frame_ok_u64 _ _ _ _ F) as [He Hm]. destruct F as [? ? ? Hcodec Hraw].
  destruct (header_layout codec (zlen e) m c (blake3 fields) W ltac:(lia) He Hm (len_is (l := blake3 _)))
    as (L1 & L2 & _ & L4 & L5 & L6 & L7 & L8 & L9 & L10 & L11 & L12 & L13).
  fold fields in L1, L2, L4, L5, L6, L7, L8, L9, L10, L11, L12, L13.
  unfold decode_header. cbv zeta. rewrite L1, L2, L4, L5, L6, L7, L8, L9, L10, L11, L12, L13.
  rewrite (bool_decide_eq_true_2 (blake3 _ = _)), (bool_decide_eq_true_2 (_ = [x02; x00; x00; x00])),
    (bool_decide_eq_true_2 (_ = [x00; x00; x00])) by done. cbn [negb].
  rewrite !(proj2 (Z.ltb_ge _ _)) by lia. cbn [orb].
  rewrite (proj2 (andb_false_iff (codec =? 0) (negb (zlen e =? m)))).
  2: { destruct (Z.eqb_spec codec 0) as [->|]; [|by left]. right. rewrite Hraw, Z.eqb_refl by done. done. }
  unfold place. by repeat (case_bool_decide || destruct (_ =? _); cbn [negb]).
Qed.

(** [decode] on an encoded frame followed by anything reduces to its place and
    its body. *)
Lemma decode_frame_bytes codec e m c c' rest boundary limit :
  context_wf c -> check_context c' = Ok tt -> frame_ok codec e m limit ->
  decode (frame_bytes codec e m c ++ rest) c' boundary limit =
  (let? _ := place c c' in
   let? body := if codec =? 0 then Ok e else expand e m in
   Ok (Complete body (frame_digest codec e m c) (200 + length e))).
Proof.
  intros W Hc F. pose proof (decode_header_fields codec e m c c' limit W F) as Hh.
  destruct (frame_ok_u64 _ _ _ _ F) as [He Hm]. destruct F as [Hl ? ? _ _].
  destruct (frame_parts codec e m c rest W) as (P1 & P2 & P3 & P4 & P5 & P6 & P7).
  assert (zlen e <= MAX_PAYLOAD) by lia.
  unfold decode. rewrite Hc, P1, (proj2 (Z.ltb_ge MAX_PAYLOAD limit)) by lia.
  rewrite Nat.min_r, bool_decide_eq_true_2 by (done || lia). cbn [negb].
  rewrite (proj2 (Nat.ltb_ge _ HEADER_LEN)) by (unfold HEADER_LEN; lia).
  unfold HEADER_LEN. rewrite P3, Hh. cbv zeta. destruct (place c c') as [[]|]; [|done].
  change (Z.of_nat FRAME_OVERHEAD) with 200.
  unfold checked_add. rewrite (proj2 (Z.leb_le _ u64_max)) by (unfold u64_max, MAX_PAYLOAD in *; lia).
  cbn [ok_or].
  replace (Z.to_nat (zlen e + 200)) with (200 + length e)%nat by (unfold zlen; lia).
  rewrite (proj2 (Z.ltb_ge _ _)) by (unfold zlen in *; lia).
  replace (Z.to_nat (zlen e)) with (length e) by (unfold zlen; lia).
  replace (160 + length e + 8)%nat with (168 + length e)%nat by lia.
  rewrite P4, P5, P6, P7, !bool_decide_eq_true_2 by done. reflexivity.
Qed.

(** A header [decode_header] accepts is the one the encoder writes. *)
Lemma decode_header_inv h c limit codec n m :
  length h = 160%nat -> slice 0 8 h = MAGIC -> decode_header h c limit = Ok (codec, n, m) ->
  h = header_fields codec n m c ++ blake3 (header_fields codec n m c) /\
  (codec = 0 \/ codec = 1) /\ 0 <= n <= limit /\ 0 <= m <= limit /\ (codec = 0 -> n = m).
Proof.
  intros Hl Hm Hd. unfold decode_header in Hd. cbv zeta in Hd. ok_bool.
  pose proof (u8_range (byte_at h 12)) as Hr.
  assert (Hn : forall o, (o + 8 <= 160)%nat -> slice o (o + 8) h = to_le 8 (number h o)).
  { intros o Ho. symmetry. apply to_of_le. rewrite length_slice; lia. }
  assert (Hu : forall o, (o + 8 <= 160)%nat -> 0 <= number h o).
  { intros o Ho. unfold number. pose proof (of_le_range (slice o (o + 8) h)). lia. }
  assert (H128 : slice 0 128 h = header_fields (u8 (byte_at h 12)) (number h 16) (number h 24) c).
  { rewrite <- (slice_join 0 8 128), <- (slice_join 8 12 128), <- (slice_join 12 13 128),
      <- (slice_join 13 16 128), <- (slice_join 16 24 128), <- (slice_join 24 32 128),
      <- (slice_join 32 40 128), <- (slice_join 40 56 128), <- (slice_join 56 64 128),
      <- (slice_join 64 96 128) by lia.
    pose proof (Hn 16%nat ltac:(lia)) as N16. pose proof (Hn 24%nat ltac:(lia)) as N24.
    pose proof (Hn 32%nat ltac:(lia)) as N32. pose proof (Hn 56%nat ltac:(lia)) as N56.
    cbn [Nat.add] in N16, N24, N32, N56. rewrite N16, N24, N32, N56, (slice_one h 12) by lia.
    unfold header_fields. rewrite of_Z_u8, Hm, Hif0, Hif2, Hif5, Hif6, Hif7, Hif8, Hif9. reflexivity. }
  rewrite <- H128. split; [by rewrite Hif, slice_join, slice_all by lia|].
  pose proof (Hu 16%nat ltac:(lia)). pose proof (Hu 24%nat ltac:(lia)).
  split; [lia|]. split; [lia|]. split; [lia|]. intros Hz. rewrite Hz in Hif4. cbn [Z.eqb andb] in Hif4. by bool_inv.
Qed.

(** What an accepted frame looks like: its bytes are the encoder's bytes for
    some encoded body, which is the body itself or expands to it. *)
Lemma decode_inv b c boundary limit body digest consumed :
  decode b c boundary limit = Ok (Complete body digest consumed) ->
  exists codec e,
    take consumed b = frame_bytes codec e (zlen body) c /\
    digest = frame_digest codec e (zlen body) c /\
    consumed = (200 + length e)%nat /\ (consumed <= length b)%nat /\
    zlen body <= limit /\ zlen e <= limit /\ check_context c = Ok tt /\
    (codec = 0 /\ e = body \/ codec = 1 /\ expand e (zlen body) = Ok body).
Proof.
  unfold decode. intros D. ok_step. destruct a. ok_step. ok_step. bool_inv.
  destruct (Nat.ltb_spec (length b) HEADER_LEN) as [|Hlen];
    [unfold incomplete in D; destruct (bool_decide _); discriminate|].
  unfold HEADER_LEN in *. rewrite Nat.min_r in Hif0 by lia.
  ok_step. destruct a as [[codec n] m].
  destruct (decode_header_inv (slice 0 160 b) c limit codec n m) as (Hh & Hcodec & Hn & Hm & Hraw).
  { rewrite length_slice; lia. }
  { rewrite slice_slice by lia. cbn [Nat.add]. rewrite slice_take. done. }
  { done. }
  ok_step. change (Z.of_nat FRAME_OVERHEAD) with 200 in *. ok_inv.
  destruct (Z.ltb_spec (zlen b) (n + 200));
    [unfold incomplete in D; destruct (bool_decide _); discriminate|].
  set (k := Z.to_nat n) in *.
  replace (160 + k + 8)%nat with (168 + k)%nat in * by lia.
  remember (Z.to_nat (n + 200)) as total eqn:Ht.
  assert (Hk : (total = 200 + k /\ total <= length b)%nat) by (unfold zlen in *; lia).
  destruct Hk as [Htk Hk]. clear Ht. ok_bool. rename Hok1 into Hbody.
  set (e := slice 160 (160 + k) b) in *.
  assert (Hle : length e = k) by (subst e; rewrite length_slice; lia).
  assert (Hze : zlen e = n) by (unfold zlen; lia).
  assert (Hfe : (codec = 0 /\ e = body \/ codec = 1 /\ expand e m = Ok body) /\ m = zlen body).
  { destruct (Z.eqb_spec codec 0) as [E0|].
    { injection Hbody as Hb. rewrite <- Hb. split; [by left|]. specialize (Hraw E0). lia. }
    split; [right; split; [lia|done]|]. by apply expand_Ok in Hbody. }
  destruct Hfe as [Hfe ->]. rewrite <- Hze in *.
  assert (Hpre : slice 0 (168 + k) b
      = header_fields codec (zlen e) (zlen body) c ++ blake3 (header_fields codec (zlen e) (zlen body) c)
        ++ e ++ END_MARK).
  { rewrite <- (slice_join 0 160), Hh, <- (slice_join 160 (160 + k)), Hif1, <- app_assoc by lia. done. }
  exists codec, e. unfold frame_bytes, frame_digest. cbv zeta. rewrite <- Hpre.
  repeat split; try done; try lia.
  rewrite Hif2, slice_join, slice_take by lia. done.
Qed.

(** What [encode] produces: the frame of the body itself or of a strictly
    smaller compressed form. *)
Lemma encode_inv body c compression limit out :
  encode body c compression limit = Ok out ->
  check_context c = Ok tt /\
  exists codec e, out = frame_bytes codec e (zlen body) c /\ frame_ok codec e (zlen body) limit /\
    (codec = 0 /\ e = body \/ codec = 1 /\ zstd_encode body = Some e).
Proof.
  unfold encode. intros E. ok_step. destruct a. split; [done|]. ok_step. bool_inv.
  pose proof (zlen_nonneg body).
  ok_step. destruct a as [e|]; ok_inv.
  - exists 1, e. split; [done|]. unfold compress in Hok0.
    destruct compression; [discriminate|]. destruct (_ <=? _); [|discriminate].
    ok_step. destruct (_ <? _) eqn:Hlt; [|discriminate]. injection Hok0 as ->. ok_bool.
    split; [split; (lia || done)|by right].
  - exists 0, body. split; [done|]. split; [split; (lia || done)|by left].
Qed.

Lemma encode_length body c compression limit out :
  context_wf c -> encode body c compression limit = Ok out -> (200 <= length out)%nat.
Proof.
  intros W (_ & codec & e & -> & _ & _)%encode_inv. rewrite frame_bytes_length by done. lia.
Qed.

(** The record digest is the last 32 bytes of a frame. *)
Lemma frame_digest_tail codec e m c (out := frame_bytes codec e m c) :
  context_wf c -> slice (length out - 32) (length out) out = frame_digest codec e m c.
Proof.
  intros W. subst out. rewrite frame_bytes_length by done.
  destruct (frame_parts codec e m c [] W) as (_ & _ & _ & _ & _ & _ & P). rewrite app_nil_r in P.
  rewrite <- P. f_equal; lia.
Qed.

Lemma decode_encode_aux `{!ZstdLaws} body c c' compression limit out rest boundary :
  context_wf c -> encode body c compression limit = Ok out -> check_context c' = Ok tt ->
  decode (out ++ rest) c' boundary limit
  = (let? _ := place c c' in Ok (Complete body (slice (length out - 32) (length out) out) (length out))).
Proof.
  intros W (Hc & codec & e & -> & F & Hb)%encode_inv Hc'.
  rewrite frame_digest_tail, decode_frame_bytes, frame_bytes_length by done.
  destruct Hb as [[-> ->]|[-> Hz]]; [done|]. by rewrite (expand_encode _ _ Hz).
Qed.

Lemma encode_context body c compression limit out :
  encode body c compression limit = Ok out -> check_context c = Ok tt.
Proof. by intros [? _]%encode_inv. Qed.

(** The contexts of two frames are read back from their headers. *)
Lemma header_fields_inj codec n m c codec' n' m' c' :
  context_wf c -> context_wf c' -> 0 <= codec < 256 -> 0 <= codec' < 256 ->
  is_u64 n -> is_u64 m -> is_u64 n' -> is_u64 m' ->
  header_fields codec n m c = header_fields codec' n' m' c' ->
  codec = codec' /\ n = n' /\ m = m' /\ c = c'.
Proof.
  intros W W' Hc Hc' Hn Hm Hn' Hm' E.
  destruct (header_layout codec n m c (zeros 32) W Hc Hn Hm (len_is (l := zeros 32)))
    as (_ & _ & _ & _ & L5 & _ & L7 & L8 & L9 & L10 & L11 & L12 & L13).
  destruct (header_layout codec' n' m' c' (zeros 32) W' Hc' Hn' Hm' (len_is (l := zeros 32)))
    as (_ & _ & _ & _ & M5 & _ & M7 & M8 & M9 & M10 & M11 & M12 & M13).
  rewrite E in *. repeat split; try congruence.
  destruct c, c'; cbn in *; congruence.
Qed.

Lemma frame_prefix_inj codec e m c codec' e' m' c' limit limit' :
  context_wf c -> context_wf c' -> frame_ok codec e m limit -> frame_ok codec' e' m' limit' ->
  header_fields codec (zlen e) m c ++ blake3 (header_fields codec (zlen e) m c) ++ e ++ END_MARK
  = header_fields codec' (zlen e') m' c' ++ blake3 (header_fields codec' (zlen e') m' c') ++ e' ++ END_MARK ->
  codec = codec' /\ e = e' /\ m = m' /\ c = c'.
Proof.
  intros W W' F F' E.
  destruct (frame_ok_u64 _ _ _ _ F), (frame_ok_u64 _ _ _ _ F').
  pose proof (fo_codec _ _ _ _ F). pose proof (fo_codec _ _ _ _ F').
  apply app_inj_1 in E as [E1 E2]; [|by rewrite !(len_is (l := header_fields _ _ _ _))].
  apply header_fields_inj in E1 as (-> & Hl & -> & ->); try done; try lia.
  rewrite Hl in E2. apply app_inv_head, app_inv_tail in E2. done.
Qed.

(** An accepted frame satisfies the bounds of the encoder. *)
Lemma decode_frame_ok b c boundary limit body digest consumed :
  decode b c boundary limit = Ok (Complete body digest consumed) ->
  exists codec e,
    take consumed b = frame_bytes codec e (zlen body) c /\ frame_ok codec e (zlen body) limit /\
    digest = frame_digest codec e (zlen body) c /\
    consumed = (200 + length e)%nat /\ (consumed <= length b)%nat /\ check_context c = Ok tt /\
    (codec = 0 /\ e = body \/ codec = 1 /\ expand e (zlen body) = Ok body).
Proof.
  intros D. assert (limit <= MAX_PAYLOAD) by (unfold decode in D; ok_step; ok_step; by ok_bool).
  apply decode_inv in D as (codec & e & Hb & Hd & Hn & Hl & ? & ? & Hc & Hcase).
  exists codec, e. pose proof (zlen_nonneg body).
  destruct Hcase as [[-> ->]|[-> Hx]]; repeat split; auto; (lia || done).
Qed.

(** A frame cut short decodes to [incomplete]. *)
Lemma decode_torn_aux codec e m c k boundary limit :
  context_wf c -> check_context c = Ok tt -> frame_ok codec e m limit -> (k < 200 + length e)%nat ->
  decode (take k (frame_bytes codec e m c)) c boundary limit
  = incomplete boundary (if (k <? 160)%nat then 160 else (200 + length e)).
Proof.
  intros W Hc F Hk. pose proof (decode_header_fields codec e m c c limit W F) as Hh. rewrite place_refl in Hh.
  destruct (frame_ok_u64 _ _ _ _ F) as [He Hm]. destruct F as [Hl ? ? _ _].
  destruct (frame_parts codec e m c [] W) as (P1 & P2 & P3 & _). rewrite app_nil_r in *.
  assert (zlen e <= MAX_PAYLOAD) by lia.
  set (b := frame_bytes codec e m c) in *.
  unfold decode. rewrite Hc, (proj2 (Z.ltb_ge MAX_PAYLOAD limit)) by lia. cbv zeta.
  rewrite length_take_le by lia.
  rewrite bool_decide_eq_true_2 by (rewrite <- P1, !take_take; f_equal; lia). cbn [negb].
  unfold HEADER_LEN. destruct (Nat.ltb_spec k 160); [done|].
  rewrite slice_of_take by lia. rewrite P3, Hh. change (Z.of_nat FRAME_OVERHEAD) with 200.
  unfold checked_add. rewrite (proj2 (Z.leb_le _ u64_max)) by (unfold u64_max, MAX_PAYLOAD in *; lia).
  cbn [ok_or]. unfold zlen at 1. rewrite length_take_le by lia.
  rewrite (proj2 (Z.ltb_lt _ _)) by (unfold zlen; lia). f_equal. unfold zlen. lia.
Qed.

End Decode.

(** ** The properties of frames *)

(** C30: a frame round-trips.  Whatever follows it in the stream and whatever
    the boundary, [decode] of an encoded frame returns the body, the record
    digest stored in the last 32 bytes, and exactly the length of the frame. *)
Theorem decode_encode `{Blake3Laws} `{ZstdLaws} body c compression limit out rest boundary :
  context_wf c -> encode body c compression limit = Ok out ->
  decode (out ++ rest) c boundary limit
  = Ok (Complete body (slice (length out - 32) (length out) out) (length out)).
Proof.
  intros W E. rewrite (decode_encode_aux _ _ c _ _ _ rest boundary W E (encode_context _ _ _ _ _ E)).
  by rewrite place_refl.
Qed.

(** C31: frames are canonical.  An accepted frame with the RAW codec byte is byte
    for byte the frame the encoder writes for the returned body, the digest is
    its last field, and nothing beyond the buffer is consumed. *)
Theorem decode_canonical `{Blake3Laws} `{Zstd} b c boundary limit body digest consumed :
  decode b c boundary limit = Ok (Complete body digest consumed) ->
  context_wf c -> byte_at b 12 = x00 ->
  encode body c Raw limit = Ok (take consumed b) /\
  digest = slice (consumed - 32) consumed b /\ (consumed <= length b)%nat.
Proof.
  intros D W H12. apply decode_frame_ok in D as (codec & e & Hb & F & Hd & Hn & Hl & Hc & Hcase).
  assert (Hcodec : byte.of_Z codec = x00).
  { rewrite <- H12. transitivity (byte_at (take consumed b) 12); [by rewrite Hb|].
    unfold byte_at. rewrite lookup_take_lt by lia. done. }
  destruct Hcase as [[-> ->]|[-> _]]; [|discriminate].
  destruct F as [? ? ? _ _]. split; [|split; [|done]].
  - unfold encode. rewrite Hc, !(proj2 (Z.ltb_ge _ _)) by lia. cbn. by rewrite Hb.
  - rewrite Hd, <- (frame_digest_tail _ _ _ _ W), <- Hb. rewrite length_take_le by done.
    apply slice_of_take. done.
Qed.

(** torn tails are classified.  A strict prefix of an encoded frame is never
    accepted and never called corrupt at an unsealed end: [decode] asks for the
    header or for exactly the whole frame.  At any other boundary the same
    prefix is corrupt. *)
Theorem decode_torn `{Blake3Laws} `{Zstd} body c compression limit out k boundary :
  context_wf c -> encode body c compression limit = Ok out -> (k < length out)%nat ->
  decode (take k out) c boundary limit =
  match boundary with
  | UnsealedEnd => Ok (Incomplete (if (k <? HEADER_LEN)%nat then HEADER_LEN else length out))
  | _ => Err FrameError.CorruptIncomplete
  end.
Proof.
  intros W (Hc & codec & e & -> & F & _)%encode_inv. rewrite frame_bytes_length by done. intros Hk.
  rewrite decode_torn_aux by done. unfold incomplete, HEADER_LEN. by destruct boundary.
Qed.

(** a record digest binds its record.  Two accepted frames with the same
    digest, read anywhere, are the same bytes in the same context with the same
    body, or exhibit a BLAKE3 collision. *)
Theorem decode_digest_binds `{Blake3Laws} `{Zstd} b c bd lim body b' c' bd' lim' body' d n n' :
  decode b c bd lim = Ok (Complete body d n) -> decode b' c' bd' lim' = Ok (Complete body' d n') ->
  context_wf c -> context_wf c' ->
  collision \/ (take n b = take n' b' /\ c = c' /\ body = body').
Proof.
  intros (k & e & Hb & F & Hd & _ & _ & _ & Hx)%decode_frame_ok
         (k' & e' & Hb' & F' & Hd' & _ & _ & _ & Hx')%decode_frame_ok W W'.
  subst d. unfold frame_digest in Hd'. cbv zeta in Hd'.
  match type of Hd' with blake3 ?x = blake3 ?y => destruct (decide (x = y)) as [E|E] end;
    [|by left; unfold collision; eauto].
  right. destruct (frame_prefix_inj _ _ _ _ _ _ _ _ _ _ W W' F F' E) as (-> & -> & Hm & ->).
  rewrite Hb, Hb', Hm. split; [done|]. split; [done|].
  destruct Hx as [[-> ->]|[-> Hx]], Hx' as [[? ?]|[? Hx']]; try lia; [done|].
  rewrite Hm in Hx. congruence.
Qed.

(** A frame is only accepted where it belongs.  Reading a frame encoded for
    context [c] in context [c'] fails with the error of the first of store,
    epoch, segment, sequence and lineage that differs, in this order. *)
Theorem decode_foreign `{Blake3Laws} `{ZstdLaws} body c c' compression limit out rest boundary :
  context_wf c -> encode body c compression limit = Ok out -> check_context c' = Ok tt ->
  decode (out ++ rest) c' boundary limit =
  (refuse negb (bool_decide (store c = store c')) with FrameError.Store;
   refuse negb (epoch c =? epoch c') with FrameError.Epoch;
   refuse negb (bool_decide (segment c = segment c')) with FrameError.Segment;
   refuse negb (sequence c =? sequence c') with FrameError.Sequence (sequence c') (sequence c);
   refuse negb (bool_decide (previous c = previous c')) with FrameError.Origin;
   Ok (Complete body (slice (length out - 32) (length out) out) (length out))).
Proof.
  intros W E Hc'. rewrite (decode_encode_aux _ _ c' _ _ _ rest boundary W E Hc').
  unfold place. by repeat (case_bool_decide || destruct (_ =? _); cbn [negb]).
Qed.

(** decompression terminates within the declared size.  For every decoder
    behaviour, hostile streams included, the loop of [expand] finishes within
    its bound and never keeps more than the expected number of bytes. *)
Theorem expand_bounded `{Zstd} decoder expected :
  0 <= expected ->
  exists r, expand_loop (expand_fuel expected) decoder expected [] = Some r /\
    forall output rest, r = Ok (output, rest) -> zlen output <= expected.
Proof.
  intros He. destruct (expand_loop_total (expand_fuel expected) decoder expected []) as [r Hr];
    [done|unfold expand_fuel, zlen; cbn [length]; lia|].
  exists r. split; [done|]. intros output rest ->. by eapply expand_loop_le; [|done].
Qed.

(** ** Witnesses *)

Module FrameExample.
#[export] Existing Instance Toy.toy_blake3.
#[export] Existing Instance Toy.toy_blake3_laws.
#[export] Existing Instance Toy.toy_zstd.
#[export] Existing Instance Toy.toy_zstd_laws.

Definition c : Context := {|
  store := replicate 6 x11 ++ [x4f; x11; x80] ++ replicate 7 x11;
  epoch := 1; sequence := 7;
  segment := replicate 32 x0a; previous := replicate 32 x0b |}.

Lemma c_wf : context_wf c.
Proof. by split. Qed.

Definition body : bytes := ascii_bytes "graph delta".
Definition raw : bytes := frame_bytes 0 body (zlen body) c.

Definition big : bytes := replicate 5000 x2a.
Definition packed : bytes := frame_bytes 1 (default [] (zstd_encode big)) (zlen big) c.
Definition stray : Context := {| store := store c; epoch := epoch c; sequence := 8;
  segment := segment c; previous := previous c |}.
End FrameExample.

Import FrameExample.

Lemma decode_encode_witness :
  decode (packed ++ raw) c Interior MAX_PAYLOAD
  = Ok (Complete big (slice (length packed - 32) (length packed) packed) (length packed)).
Proof. apply (decode_encode big c Auto); [exact c_wf|vm_compute; reflexivity]. Defined.

Lemma decode_canonical_witness :
  encode body c Raw MAX_PAYLOAD = Ok (take 211 raw) /\
  slice 179 211 raw = slice (211 - 32) 211 raw /\ (211 <= length raw)%nat.
Proof.
  apply (decode_canonical raw c SealedEnd); [vm_compute; reflexivity|exact c_wf|reflexivity].
Defined.

Lemma decode_torn_witness :
  decode (take 163 raw) c UnsealedEnd MAX_PAYLOAD = Ok (Incomplete 211).
Proof.
  apply (decode_torn body c Raw MAX_PAYLOAD raw 163 UnsealedEnd c_wf); [vm_compute; reflexivity|apply Nat.ltb_lt; reflexivity].
Defined.

Lemma decode_digest_binds_witness :
  collision \/ (take 211 raw = take 211 (raw ++ packed) /\ c = c /\ body = body).
Proof.
  apply (decode_digest_binds raw c SealedEnd MAX_PAYLOAD body (raw ++ packed) c UnsealedEnd MAX_PAYLOAD body
           (slice 179 211 raw) 211 211); [vm_compute; reflexivity..|exact c_wf|exact c_wf].
Defined.

Lemma decode_foreign_witness :
  decode (raw ++ []) stray SealedEnd MAX_PAYLOAD = Err (FrameError.Sequence 8 7).
Proof. apply (decode_foreign body c stray Raw MAX_PAYLOAD raw [] SealedEnd); [exact c_wf|vm_compute; reflexivity|reflexivity]. Defined.

Lemma expand_bounded_witness :
  exists r, @expand_loop Toy.toy_zstd (expand_fuel 3) (x2a, 9%nat) 3 [] = Some r /\
    forall output rest, r = Ok (output, rest) -> zlen output <= 3.
Proof. apply (@expand_bounded Toy.toy_zstd (x2a, 9%nat) 3). lia. Defined.
