(* ===== verification/Wire.v ===== *)
(** Checked wire fields and resource accounting (selene-core, logical/wire.rs).

    [Budget], [Encoder] and [Decoder] are the structs of the source and their
    methods are [method]s of the same names.  [std::mem::size_of::<T>()] is a
    fact of the compiler and is the argument [size] of [count_for].  Failure of
    the allocator ([try_reserve]) is not modelled.

    [mirrors] is the contract between the two sides: what an encoding method
    appends, the corresponding decoding method reads back, in front of any
    suffix and with exactly the same charges.  It composes, so a codec built
    from these methods inherits it. *)

From S2P Require Import Prelude Errors.
From coqutil Require Import Byte.

Abbreviation E_Incomplete := CodecError.Incomplete.
Abbreviation E_Limit := CodecError.Limit.
Abbreviation E_Semantic := CodecError.Semantic.
Abbreviation E_Invalid := CodecError.Invalid.
Abbreviation E_Unsupported := CodecError.Unsupported.

(** ** Limits *)

Definition WIRE_MAX_PAYLOAD : Z := 256 * 1024 * 1024.
Definition MAX_STORED_VALUE_DEPTH : Z := 256.

Module Limits.
Record t := {
  bytes : Z;
  allocation : Z;
  items : Z;
  metadata : Z;
  depth : Z
}.

(** [Limits::default]. *)
Definition default : t := {|
  bytes := WIRE_MAX_PAYLOAD; allocation := WIRE_MAX_PAYLOAD;
  items := 1048576; metadata := 4096; depth := MAX_STORED_VALUE_DEPTH |}.

(** [Limits::validate]. *)
Definition validate (self : t) : result CodecError t :=
  let ceiling := default in
  refuse (bytes ceiling <? bytes self) || (allocation ceiling <? allocation self)
         || (items ceiling <? items self) || (metadata ceiling <? metadata self)
         || (depth ceiling <? depth self) with E_Limit;
  Ok self.
End Limits.

(** ** Budget *)

Module Budget.
Record t := mk {
  limits : Limits.t;
  allocation : Z;
  items : Z;
  metadata_ : Z
}.

(** [Budget::new]. *)
Definition new (limits : Limits.t) : result CodecError t :=
  let? limits := Limits.validate limits in
  Ok (mk limits 0 0 0).

(** [Budget::charge]: the counters keep their new values when a limit is
    exceeded. *)
Definition charge (n alloc : Z) : method t CodecError unit := fun self =>
  match checked_add (items self) n with
  | None => (Err E_Limit, self)
  | Some items' =>
      let self := mk (limits self) (allocation self) items' (metadata_ self) in
      match checked_add (allocation self) alloc with
      | None => (Err E_Limit, self)
      | Some alloc' =>
          let self := mk (limits self) alloc' (items self) (metadata_ self) in
          if (Limits.items (limits self) <? items self) || (Limits.allocation (limits self) <? allocation self)
          then (Err E_Limit, self) else (Ok tt, self)
      end
  end.

(** [Budget::metadata]. *)
Definition metadata (count : Z) : method t CodecError unit := fun self =>
  match checked_add (metadata_ self) count with
  | None => (Err E_Limit, self)
  | Some m =>
      let self := mk (limits self) (allocation self) (items self) m in
      if Limits.metadata (limits self) <? metadata_ self then (Err E_Limit, self) else (Ok tt, self)
  end.

(** [Budget::depth]. *)
Definition depth (d : Z) : method t CodecError unit := fun self =>
  if Limits.depth (limits self) <? d then (Err E_Limit, self) else (Ok tt, self).

(** [Budget::json_limit]. *)
Definition json_limit (self : t) : Z :=
  Z.min (Z.min (Limits.bytes (limits self)) (saturating_sub (Limits.items (limits self)) (items self)))
        (saturating_sub (Limits.allocation (limits self)) (allocation self) / 136).
End Budget.

(** ** Encoder *)

Module Encoder.
Record t := mk {
  bytes : Prelude.bytes;
  length : Z;
  retain : bool;
  budget : Budget.t
}.
Abbreviation M := (method t CodecError).

(** [Encoder::new]. *)
Definition new (limits : Limits.t) : result CodecError t :=
  let? budget := Budget.new limits in
  Ok (mk [] 0 true budget).

(** [Encoder::counting]. *)
Definition counting (budget : Budget.t) : t := mk [] 0 false budget.

(** [self.budget.f(..)]. *)
Definition on_budget {A} (m : method Budget.t CodecError A) : M A := fun self =>
  let '(r, b) := m (budget self) in (r, mk (bytes self) (length self) (retain self) b).

(** [Encoder::fixed]. *)
Definition fixed (b : Prelude.bytes) : M unit := fun self =>
  match checked_add (length self) (zlen b) with
  | None => (Err E_Limit, self)
  | Some n =>
      if Limits.bytes (Budget.limits (budget self)) <? n then (Err E_Limit, self) else
      (Ok tt, mk (if retain self then bytes self ++ b else bytes self) n (retain self) (budget self))
  end.

Definition u8 (value : Z) : M unit := fixed [byte.of_Z value].
Definition boolean (value : bool) : M unit := u8 (if value then 1 else 0).
Definition u32 (value : Z) : M unit := fixed (to_le 4 value).
Definition u64 (value : Z) : M unit := fixed (to_le 8 value).

(** [u32::try_from(usize)]. *)
Definition try_u32 (n : Z) : M Z := of_result (if n <=? u32_max then Ok n else Err E_Limit).

(** [Encoder::count_for::<T>], with [size] for [size_of::<T>()]. *)
Definition count_for (size count : Z) : M unit :=
  let charge := Z.max (saturating_mul size 4) 256 in
  do alloc <- of_result (ok_or (checked_mul count charge) E_Limit);
  on_budget (Budget.charge count alloc) ;;
  do n <- try_u32 count;
  u32 n.

(** [Encoder::count]. *)
Definition count (n : Z) : M unit := count_for 64 n.

(** [Encoder::blob]. *)
Definition blob (value : Prelude.bytes) : M unit :=
  do alloc <- of_result (ok_or (checked_mul (zlen value) 8) E_Limit);
  on_budget (Budget.charge 0 alloc) ;;
  do n <- try_u32 (zlen value);
  u32 n ;;
  fixed value.

(** [Encoder::text]; a string is its UTF-8 bytes. *)
Definition text (value : Prelude.bytes) : M unit := blob value.

(** [Encoder::finish]. *)
Definition finish (self : t) : Prelude.bytes := bytes self.
End Encoder.

(** ** UTF-8

    [core::str::from_utf8]: the well-formed byte sequences of the Unicode
    standard, without overlong forms and surrogates. *)

Definition in_range (lo hi : Z) (b : byte) : bool := (lo <=? u8 b) && (u8 b <=? hi).
Definition continuation (b : byte) : bool := in_range 0x80 0xbf b.

Fixpoint utf8_valid (b : bytes) : bool :=
  match b with
  | [] => true
  | b0 :: t0 =>
      if u8 b0 <? 0x80 then utf8_valid t0 else
      match t0 with
      | [] => false
      | b1 :: t1 =>
          if in_range 0xc2 0xdf b0 then continuation b1 && utf8_valid t1 else
          match t1 with
          | [] => false
          | b2 :: t2 =>
              if in_range 0xe0 0xef b0 then
                (if u8 b0 =? 0xe0 then in_range 0xa0 0xbf b1
                 else if u8 b0 =? 0xed then in_range 0x80 0x9f b1
                 else continuation b1)
                && continuation b2 && utf8_valid t2
              else
              match t2 with
              | [] => false
              | b3 :: t3 =>
                  in_range 0xf0 0xf4 b0
                  && (if u8 b0 =? 0xf0 then in_range 0x90 0xbf b1
                      else if u8 b0 =? 0xf4 then in_range 0x80 0x8f b1
                      else continuation b1)
                  && continuation b2 && continuation b3 && utf8_valid t3
              end
          end
      end
  end.

(** ** Decoder *)

Module Decoder.
Record t := mk {
  bytes : Prelude.bytes;
  budget : Budget.t
}.
Abbreviation M := (method t CodecError).

(** [Decoder::new]. *)
Definition new (b : Prelude.bytes) (budget : Budget.t) : result CodecError t :=
  refuse Limits.bytes (Budget.limits budget) <? zlen b with E_Limit;
  Ok (mk b budget).

(** [self.budget.f(..)]. *)
Definition on_budget {A} (m : method Budget.t CodecError A) : M A := fun self =>
  let '(r, b) := m (budget self) in (r, mk (bytes self) b).

(** [Decoder::take]. *)
Definition take (len : Z) : M Prelude.bytes := fun self =>
  if zlen (bytes self) <? len then (Err E_Incomplete, self)
  else (Ok (list.take (Z.to_nat len) (bytes self)), mk (drop (Z.to_nat len) (bytes self)) (budget self)).

Definition u8 : M Z := do b <- take 1; ret (Prelude.u8 (byte_at b 0)).

Definition boolean : M bool :=
  do b <- u8;
  if b =? 0 then ret false else if b =? 1 then ret true else throw (E_Invalid "boolean").

Definition u32 : M Z := do b <- take 4; ret (of_le b).
Definition u64 : M Z := do b <- take 8; ret (of_le b).

(** [self.bytes.len()]. *)
Definition remaining : M Z := fun self => (Ok (zlen (bytes self)), self).

(** [Decoder::count_for::<T>], with [size] for [size_of::<T>()]. *)
Definition count_for (size : Z) : M Z :=
  do count <- u32;
  do avail <- remaining;
  fail_if (avail <? count) E_Incomplete ;;
  let charge := Z.max (saturating_mul size 4) 256 in
  do alloc <- of_result (ok_or (checked_mul count charge) E_Limit);
  on_budget (Budget.charge count alloc) ;;
  ret count.

(** [Decoder::count]. *)
Definition count : M Z := count_for 64.

(** [Decoder::blob]. *)
Definition blob : M Prelude.bytes :=
  do len <- u32;
  do avail <- remaining;
  fail_if (avail <? len) E_Incomplete ;;
  do alloc <- of_result (ok_or (checked_mul len 8) E_Limit);
  on_budget (Budget.charge 0 alloc) ;;
  take len.

(** [Decoder::text]. *)
Definition text : M Prelude.bytes :=
  do b <- blob;
  fail_if (negb (utf8_valid b)) (E_Invalid "UTF-8") ;;
  ret b.

(** [Decoder::finish]. *)
Definition finish (self : t) : result CodecError unit :=
  match bytes self with [] => Ok tt | _ => Err (E_Invalid "trailing bytes") end.
End Decoder.

(** ** Encoding and decoding mirror each other *)

(** The encoder after appending [out] and replacing the budget. *)
Definition after (s : Encoder.t) (out : bytes) (b : Budget.t) : Encoder.t :=
  Encoder.mk (if Encoder.retain s then Encoder.bytes s ++ out else Encoder.bytes s)
             (Encoder.length s + zlen out) (Encoder.retain s) b.

Abbreviation byte_limit s := (Limits.bytes (Budget.limits s)).

(** [e] appends an encoding that [d] reads back as [a], whatever follows, and
    both leave the same budget.  The output stays within the byte limit. *)
Definition mirrors {A} (e : Encoder.M unit) (d : Decoder.M A) (a : A) : Prop :=
  forall s s', e s = (Ok tt, s') ->
  exists out b, s' = after s out b /\ Budget.limits b = Budget.limits (Encoder.budget s) /\
    (Encoder.length s <= byte_limit b -> Encoder.length s' <= byte_limit b) /\
    forall rest, d (Decoder.mk (out ++ rest) (Encoder.budget s)) = (Ok a, Decoder.mk rest b).

(** [e] appends at least [n] bytes. *)
Definition emits (n : Z) (e : Encoder.M unit) : Prop :=
  forall s s', e s = (Ok tt, s') -> Encoder.length s + n <= Encoder.length s'.

(** A method of the budget that does not change the limits. *)
Definition keeps_limits (m : method Budget.t CodecError unit) : Prop :=
  forall b, Budget.limits (snd (m b)) = Budget.limits b.

Lemma charge_keeps n alloc : keeps_limits (Budget.charge n alloc).
Proof. intros b. unfold Budget.charge. by repeat case_match. Qed.
Lemma metadata_keeps n : keeps_limits (Budget.metadata n).
Proof. intros b. unfold Budget.metadata. by repeat case_match. Qed.
Lemma depth_keeps n : keeps_limits (Budget.depth n).
Proof. intros b. unfold Budget.depth. by repeat case_match. Qed.

Lemma after_nil s : after s [] (Encoder.budget s) = s.
Proof. unfold after. destruct s as [b l [] bu]; cbn; by rewrite ?app_nil_r, Z.add_0_r. Qed.

Lemma after_after s o1 b1 o2 b2 : after (after s o1 b1) o2 b2 = after s (o1 ++ o2) b2.
Proof. unfold after. cbn. rewrite zlen_app. destruct (Encoder.retain s); f_equal; (lia || by rewrite app_assoc). Qed.

Section Mirrors.
Context {A B : Type}.

Lemma mirrors_bind e1 e2 (d1 : Decoder.M A) (d2 : A -> Decoder.M B) a b :
  mirrors e1 d1 a -> mirrors e2 (d2 a) b -> mirrors (e1 ;; e2) (bind d1 d2) b.
Proof.
  intros M1 M2 s s' E. run_inv. destruct a0.
  destruct (M1 _ _ Hrun) as (o1 & b1 & -> & L1 & F1 & D1).
  destruct (M2 _ _ E) as (o2 & b2 & -> & L2 & F2 & D2). cbn in *.
  exists (o1 ++ o2), b2. rewrite after_after. split; [done|]. split; [congruence|]. split.
  - rewrite L2 in F2 |- *. cbn. lia.
  - intros rest. rewrite <- app_assoc. by rewrite (bind_step _ _ _ _ _ (D1 _)).
Qed.

Lemma mirrors_ret (a : A) : mirrors (ret tt) (ret a) a.
Proof.
  intros s s' [_ ->]%ret_Ok. exists [], (Encoder.budget s'). rewrite after_nil. by repeat split.
Qed.

Lemma mirrors_then e (d : Decoder.M A) (k : A -> Decoder.M B) a b :
  mirrors e d a -> (forall t, k a t = (Ok b, t)) -> mirrors e (bind d k) b.
Proof.
  intros M K s s' E. destruct (M _ _ E) as (o & b' & -> & L & F & D).
  exists o, b'. repeat split; auto. intros rest. by rewrite (bind_step _ _ _ _ _ (D _)), K.
Qed.

Lemma mirrors_pure e (d : Decoder.M A) (k : A -> Decoder.M B) a b :
  (forall t, d t = (Ok a, t)) -> mirrors e (k a) b -> mirrors e (bind d k) b.
Proof.
  intros K M s s' E. destruct (M _ _ E) as (o & b' & -> & L & F & D).
  exists o, b'. repeat split; auto. intros rest. by rewrite (bind_step _ _ _ _ _ (K _)).
Qed.

Lemma mirrors_fail_if e (d : Decoder.M A) a c err :
  (c = false -> mirrors e d a) -> mirrors (fail_if c err ;; e) d a.
Proof. intros M s s' E. run_inv. by apply M. Qed.

Lemma mirrors_of_result {X} (r : result CodecError X) e (d : Decoder.M A) a :
  (forall x, r = Ok x -> mirrors (e x) d a) -> mirrors (bind (of_result r) e) d a.
Proof. intros M s s' E. run_inv. by eapply M. Qed.
End Mirrors.

Lemma mirrors_budget m :
  keeps_limits m -> mirrors (Encoder.on_budget m) (Decoder.on_budget m) tt.
Proof.
  intros K s s'. unfold Encoder.on_budget, Decoder.on_budget. specialize (K (Encoder.budget s)). cbn.
  destruct (m (Encoder.budget s)) as [r b]. intros [= -> <-]. exists [], b. cbn in *.
  split; [|done]. unfold after. rewrite app_nil_r. cbn. rewrite Z.add_0_r. by destruct (Encoder.retain s).
Qed.

(** A field of known width. *)
Lemma mirrors_fixed b n : zlen b = n -> mirrors (Encoder.fixed b) (Decoder.take n) b.
Proof.
  intros <- s s'. unfold Encoder.fixed. destruct (checked_add _ _) eqn:C; [|done].
  apply checked_add_Some in C as [-> _]. destruct (_ <? _) eqn:L; [done|]. bool_inv.
  intros [= <-]. exists b, (Encoder.budget s). split; [done|]. split; [done|]. split; [cbn; lia|].
  intros rest. unfold Decoder.take. cbn. rewrite zlen_app. pose proof (zlen_nonneg rest).
  rewrite (proj2 (Z.ltb_ge _ _)) by lia. unfold zlen. rewrite Nat2Z.id, take_app_length, drop_app_length. done.
Qed.

Lemma mirrors_u8 v : 0 <= v < 256 -> mirrors (Encoder.u8 v) Decoder.u8 v.
Proof.
  intros Hv. eapply mirrors_then; [by apply mirrors_fixed|]. intros t. unfold ret, byte_at. cbn.
  by rewrite u8_of_Z.
Qed.

Lemma mirrors_boolean v : mirrors (Encoder.boolean v) Decoder.boolean v.
Proof. eapply mirrors_then; [apply mirrors_u8; destruct v; lia|]. by destruct v. Qed.

Lemma mirrors_u32 v : is_u32 v -> mirrors (Encoder.u32 v) Decoder.u32 v.
Proof.
  intros Hv. eapply mirrors_then; [apply mirrors_fixed; unfold zlen; by rewrite length_to_le|].
  intros t. unfold ret. by rewrite of_to_le_u32.
Qed.

Lemma mirrors_u64 v : is_u64 v -> mirrors (Encoder.u64 v) Decoder.u64 v.
Proof.
  intros Hv. eapply mirrors_then; [apply mirrors_fixed; unfold zlen; by rewrite length_to_le|].
  intros t. unfold ret. by rewrite of_to_le_u64.
Qed.

(** *** One-step lemmas *)

Lemma enc_budget_Ok {A} (m : method Budget.t CodecError A) s a s' :
  Encoder.on_budget m s = (Ok a, s') ->
  exists b, m (Encoder.budget s) = (Ok a, b) /\ s' = after s [] b.
Proof.
  unfold Encoder.on_budget. destruct (m _) as [r b]. intros [= -> <-]. exists b. split; [done|].
  unfold after. rewrite app_nil_r. cbn. rewrite Z.add_0_r. by destruct (Encoder.retain s).
Qed.

Lemma enc_fixed_Ok b s u s' :
  Encoder.fixed b s = (Ok u, s') ->
  s' = after s b (Encoder.budget s) /\ Encoder.length s + zlen b <= byte_limit (Encoder.budget s) /\
  Encoder.length s + zlen b <= u64_max.
Proof.
  unfold Encoder.fixed. destruct (checked_add _ _) eqn:C; [|done].
  apply checked_add_Some in C as [-> ?]. destruct (_ <? _) eqn:L; [done|]. bool_inv. by intros [= _ <-].
Qed.

Lemma try_u32_Ok n s m s' : Encoder.try_u32 n s = (Ok m, s') -> m = n /\ s' = s /\ n <= u32_max.
Proof. unfold Encoder.try_u32. intros [E ->]%of_result_Ok. by ok_bool. Qed.

Lemma dec_take_app n o rest b :
  zlen o = n -> Decoder.take n (Decoder.mk (o ++ rest) b) = (Ok o, Decoder.mk rest b).
Proof.
  intros <-. unfold Decoder.take. cbn. rewrite zlen_app. pose proof (zlen_nonneg rest).
  rewrite (proj2 (Z.ltb_ge _ _)) by lia. unfold zlen. by rewrite Nat2Z.id, take_app_length, drop_app_length.
Qed.

Lemma dec_u32_app v rest b :
  is_u32 v -> Decoder.u32 (Decoder.mk (to_le 4 v ++ rest) b) = (Ok v, Decoder.mk rest b).
Proof.
  intros Hv. unfold Decoder.u32. erewrite bind_step; [|apply dec_take_app; unfold zlen; by rewrite length_to_le].
  unfold ret. by rewrite of_to_le_u32.
Qed.

Lemma dec_budget_step {A} (m : method Budget.t CodecError A) bs b r b' :
  m b = (r, b') -> Decoder.on_budget m (Decoder.mk bs b) = (r, Decoder.mk bs b').
Proof. unfold Decoder.on_budget. cbn. by intros ->. Qed.

Lemma dec_take_Ok n t o t' :
  Decoder.take n t = (Ok o, t') ->
  Decoder.bytes t = o ++ Decoder.bytes t' /\ Decoder.budget t' = Decoder.budget t /\ (0 <= n -> zlen o = n).
Proof.
  unfold Decoder.take. destruct (_ <? _) eqn:L; [done|]. bool_inv. intros [= <- <-]. cbn.
  rewrite take_drop. repeat split. intros Hn. unfold zlen in *. rewrite length_take. lia.
Qed.

Lemma dec_budget_Ok {A} (m : method Budget.t CodecError A) t a t' :
  Decoder.on_budget m t = (Ok a, t') ->
  m (Decoder.budget t) = (Ok a, Decoder.budget t') /\ Decoder.bytes t' = Decoder.bytes t.
Proof. unfold Decoder.on_budget. destruct (m _) as [r b]. by intros [= -> <-]. Qed.

Lemma is_u32_zlen {A} (l : list A) : zlen l <= u32_max -> is_u32 (zlen l).
Proof. split; [apply zlen_nonneg|done]. Qed.
#[export] Hint Resolve is_u32_zlen : selene.

(** Decompose the success of wire methods. *)
Ltac wire_step :=
  match goal with
  | _ => run_step
  | H : Encoder.on_budget _ _ = (Ok _, _) |- _ =>
      let b := fresh "b" in let Hm := fresh "Hm" in
      apply enc_budget_Ok in H as (b & Hm & ->)
  | H : Encoder.fixed _ _ = (Ok _, _) |- _ =>
      let Hl := fresh "Hl" in let Hw := fresh "Hw" in apply enc_fixed_Ok in H as (-> & Hl & Hw)
  | H : Encoder.try_u32 _ _ = (Ok _, _) |- _ =>
      let Hl := fresh "Hl" in apply try_u32_Ok in H as (-> & -> & Hl)
  | H : ok_or _ _ = Ok _ |- _ => apply ok_or_Ok in H
  end.
Ltac wire_inv := repeat wire_step.

Lemma mirrors_blob v : mirrors (Encoder.blob v) Decoder.blob v.
Proof.
  intros s s' E. unfold Encoder.blob, Encoder.u32 in E. wire_inv. rewrite !after_after. cbn in *.
  eexists _, _. split; [done|]. pose proof (charge_keeps 0 a (Encoder.budget s)) as K. rewrite Hm in K. cbn [snd] in K.
  split; [exact K|]. split; [cbn in *; rewrite ?zlen_app, ?zlen_nil in *; lia|].
  intros rest. unfold Decoder.blob. rewrite ?app_nil_l, <- app_assoc.
  rewrite (bind_step _ _ _ _ _ (dec_u32_app _ _ _ (is_u32_zlen v Hl1))).
  unfold Decoder.remaining, bind at 1. cbn. rewrite zlen_app.
  rewrite (proj2 (Z.ltb_ge _ _)) by (pose proof (zlen_nonneg rest); lia).
  unfold bind, fail_if, ret, of_result. rewrite Hrun. cbn [ok_or].
  rewrite (dec_budget_step _ _ _ _ _ Hm). by apply dec_take_app.
Qed.

Lemma mirrors_text v : utf8_valid v = true -> mirrors (Encoder.text v) Decoder.text v.
Proof.
  intros U. eapply mirrors_then; [apply mirrors_blob|]. intros t. unfold bind, fail_if. by rewrite U.
Qed.

(** A count in front of at least that many bytes. *)
Lemma mirrors_count_for {A} size n body (k : Z -> Decoder.M A) a :
  0 <= n -> emits n body -> mirrors body (k n) a ->
  mirrors (Encoder.count_for size n ;; body) (bind (Decoder.count_for size) k) a.
Proof.
  intros Hn Hem M s s' E. unfold Encoder.count_for, Encoder.u32 in E. wire_inv.
  pose proof (Hem _ _ E) as Hlen. destruct (M _ _ E) as (out & b' & -> & L & F & D).
  rewrite !after_after in *. cbn in *. rewrite ?zlen_app, ?zlen_nil in Hlen. pose proof (charge_keeps n a1 (Encoder.budget s)) as K.
  rewrite Hm in K. cbn [snd] in K. eexists _, _. split; [done|]. split; [cbn in *; congruence|].
  split; [cbn in *; rewrite ?app_nil_l, ?zlen_app, ?zlen_nil in *; rewrite L in *; lia|].
  intros rest. rewrite ?app_nil_l, <- app_assoc. unfold Decoder.count_for.
  assert (Hu : is_u32 n) by (split; lia).
  unfold bind at 1 2. rewrite (dec_u32_app _ _ _ Hu). unfold Decoder.remaining, bind at 1. cbn.
  rewrite zlen_app, (proj2 (Z.ltb_ge _ _)) by (pose proof (zlen_nonneg rest); lia).
  unfold bind, fail_if, ret, of_result. match goal with H : checked_mul _ _ = _ |- _ => rewrite H end. cbn [ok_or].
  by rewrite (dec_budget_step _ _ _ _ _ Hm), D.
Qed.

Lemma mirrors_for_each {A} (f : A -> Encoder.M unit) (d : Decoder.M A) l :
  Forall (fun x => mirrors (f x) d x) l -> mirrors (for_each f l) (repeat_m (length l) d) l.
Proof.
  induction 1 as [|x l Hx _ IH]; cbn [for_each repeat_m length]; [apply mirrors_ret|].
  eapply mirrors_bind; [done|]. eapply mirrors_then; [exact IH|done].
Qed.

(** *** Lower bounds on the output *)

Lemma emits_bind n m e1 e2 : emits n e1 -> emits m e2 -> emits (n + m) (e1 ;; e2).
Proof. intros H1 H2 s s' E. run_inv. destruct a. specialize (H1 _ _ Hrun). specialize (H2 _ _ E). lia. Qed.

Lemma emits_weaken n m e : emits n e -> m <= n -> emits m e.
Proof. intros H Hm s s' E. specialize (H _ _ E). lia. Qed.

Lemma emits_bind_l n e1 e2 : emits n e1 -> emits 0 e2 -> emits n (e1 ;; e2).
Proof. intros. eapply emits_weaken; [by apply emits_bind|lia]. Qed.

Lemma emits_bind_r n e1 e2 : emits 0 e1 -> emits n e2 -> emits n (e1 ;; e2).
Proof. intros. eapply emits_weaken; [by apply emits_bind|lia]. Qed.

Lemma emits_of_mirrors {A} e (d : Decoder.M A) a : mirrors e d a -> emits 0 e.
Proof.
  intros M s s' E. destruct (M _ _ E) as (out & b & -> & _). cbn. pose proof (zlen_nonneg out). lia.
Qed.

Lemma emits_fixed b : emits (zlen b) (Encoder.fixed b).
Proof. intros s s' E. wire_inv. cbn. rewrite ?zlen_nil. lia. Qed.

Lemma emits_u8 v : emits 1 (Encoder.u8 v).
Proof. apply emits_fixed. Qed.

Lemma emits_budget m : emits 0 (Encoder.on_budget m).
Proof. intros s s' E. wire_inv. cbn. unfold zlen; cbn. lia. Qed.

Lemma emits_fail_if c err n e : emits n e -> emits n (fail_if c err ;; e).
Proof. intros H s s' E. run_inv. by apply H. Qed.

Lemma emits_blob v : emits 4 (Encoder.blob v).
Proof.
  intros s s' E. unfold Encoder.blob, Encoder.u32 in E. wire_inv. cbn.
  unfold zlen. cbn [length]. rewrite length_to_le. lia.
Qed.

Lemma emits_for_each {A} (f : A -> Encoder.M unit) l :
  Forall (fun x => emits 1 (f x)) l -> emits (zlen l) (for_each f l).
Proof.
  induction 1 as [|x l Hx _ IH]; cbn [for_each].
  - intros s s' E. run_inv. rewrite zlen_nil. lia.
  - rewrite zlen_cons, Z.add_comm. eapply emits_weaken; [by apply emits_bind|lia].
Qed.

(** ** Decoders accept only what the encoder writes *)

(** Whatever [d] accepts, [e] of the result writes back byte for byte, with the
    same charges, wherever it fits. *)
Definition canonical {A} (d : Decoder.M A) (e : A -> Encoder.M unit) : Prop :=
  forall t t' a, d t = (Ok a, t') ->
  exists out, Decoder.bytes t = out ++ Decoder.bytes t' /\
    Budget.limits (Decoder.budget t') = Budget.limits (Decoder.budget t) /\
    forall s, Encoder.budget s = Decoder.budget t -> 0 <= Encoder.length s ->
      Encoder.length s + zlen out <= byte_limit (Decoder.budget t) ->
      byte_limit (Decoder.budget t) <= u64_max ->
      e a s = (Ok tt, after s out (Decoder.budget t')).

Section Canonical.
Context {A B : Type}.

Lemma canonical_impl (d : Decoder.M A) e e' :
  canonical d e ->
  (forall t t' a, d t = (Ok a, t') -> forall s s', 0 <= Encoder.length s ->
     e a s = (Ok tt, s') -> e' a s = (Ok tt, s')) ->
  canonical d e'.
Proof.
  intros C X t t' a D. destruct (C _ _ _ D) as (out & Hb & Hl & F).
  exists out. repeat split; [done..|]. intros. by apply (X _ _ _ D); [|apply F].
Qed.

Lemma canonical_ext (d : Decoder.M A) e e' :
  canonical d e -> (forall t t' a, d t = (Ok a, t') -> forall s, e' a s = e a s) -> canonical d e'.
Proof.
  intros C X t t' a D. destruct (C _ _ _ D) as (out & Hb & Hl & F).
  exists out. repeat split; [done..|]. intros. rewrite (X _ _ _ D). by apply F.
Qed.

Lemma canonical_bind (d1 : Decoder.M A) (d2 : A -> Decoder.M B) e1 e2 :
  canonical d1 e1 -> (forall a, canonical (d2 a) (e2 a)) ->
  forall e, (forall t0 a t b t', d1 t0 = (Ok a, t) -> d2 a t = (Ok b, t') ->
    forall s, e b s = (e1 a ;; e2 a b) s) ->
  canonical (bind d1 d2) e.
Proof.
  intros C1 C2 e X t t' b D. run_inv.
  destruct (C1 _ _ _ Hrun) as (o1 & B1 & L1 & F1). destruct (C2 _ _ _ _ D) as (o2 & B2 & L2 & F2).
  exists (o1 ++ o2). rewrite B1, B2, app_assoc. repeat split; [congruence|].
  intros s' Hs H0 Hl Hu. rewrite zlen_app in Hl. pose proof (zlen_nonneg o1). pose proof (zlen_nonneg o2).
  rewrite (X _ _ _ _ _ Hrun D), (bind_step _ _ _ _ _ (F1 s' Hs H0 ltac:(lia) Hu)), F2, after_after; [done|done| | |].
  - cbn. lia.
  - rewrite L1. cbn. lia.
  - by rewrite L1.
Qed.

(** Results computed from the input without reading more. *)
Lemma canonical_then (d : Decoder.M A) (k : A -> Decoder.M B) e e' :
  canonical d e ->
  (forall t0 a t b t', d t0 = (Ok a, t) -> k a t = (Ok b, t') -> t' = t /\ forall s, e' b s = e a s) ->
  canonical (bind d k) e'.
Proof.
  intros C K t t' b D. run_inv. destruct (K _ _ _ _ _ Hrun D) as [-> X].
  destruct (C _ _ _ Hrun) as (out & Hb & Hl & F). exists out. repeat split; [done..|].
  intros s' Hs H0 H1 H2. rewrite X. by apply F.
Qed.

Lemma canonical_ret (a : A) : canonical (ret a) (fun _ => ret tt).
Proof.
  intros t t' b D. run_inv. exists []. repeat split.
  intros s Hs _ _ _. unfold ret. by rewrite <- Hs, after_nil.
Qed.

Lemma canonical_throw err (e : A -> Encoder.M unit) : canonical (throw err) e.
Proof. intros t t' b D. run_inv. Qed.
End Canonical.

Lemma canonical_take n : 0 <= n -> canonical (Decoder.take n) Encoder.fixed.
Proof.
  intros Hn t t' b D. destruct (dec_take_Ok _ _ _ _ D) as (Hb & Hbu & Hz).
  exists b. rewrite Hbu. repeat split; [done..|]. intros s Hs H0 Hl Hu.
  unfold Encoder.fixed, checked_add. rewrite (proj2 (Z.leb_le _ _)), Hs by lia.
  by rewrite (proj2 (Z.ltb_ge _ _)) by lia.
Qed.

Lemma canonical_u8 : canonical Decoder.u8 Encoder.u8.
Proof.
  intros t t' v D. unfold Decoder.u8 in D. run_inv.
  destruct (canonical_take 1 ltac:(lia) _ _ _ Hrun) as (out & Hb & Hl & F).
  destruct (dec_take_Ok _ _ _ _ Hrun) as (_ & _ & Hz). specialize (Hz ltac:(lia)).
  exists out. repeat split; [done..|]. intros s' Hs H0 H1 H2. rewrite <- F by done.
  unfold Encoder.u8. destruct a as [|x [|]]; [done| |cbn in Hz; unfold zlen in Hz; cbn in Hz; lia].
  unfold byte_at. cbn. by rewrite of_Z_u8.
Qed.

Lemma canonical_le n (e : Z -> Encoder.M unit) :
  (forall v, e v = Encoder.fixed (to_le n v)) ->
  canonical (do b <- Decoder.take (Z.of_nat n); ret (of_le b)) e.
Proof.
  intros He t t' v D. run_inv.
  destruct (canonical_take (Z.of_nat n) ltac:(lia) _ _ _ Hrun) as (out & Hb & Hl & F).
  destruct (dec_take_Ok _ _ _ _ Hrun) as (_ & _ & Hz). specialize (Hz ltac:(lia)).
  exists out. repeat split; [done..|]. intros s' Hs H0 H1 H2. rewrite <- F, He by done.
  rewrite to_of_le; [done|]. unfold zlen in Hz. lia.
Qed.

Lemma canonical_u32 : canonical Decoder.u32 Encoder.u32.
Proof. by apply (canonical_le 4). Qed.
Lemma canonical_u64 : canonical Decoder.u64 Encoder.u64.
Proof. by apply (canonical_le 8). Qed.

Lemma canonical_boolean : canonical Decoder.boolean Encoder.boolean.
Proof.
  apply (canonical_then _ _ _ _ canonical_u8). intros t0 v t b t' _ D.
  destruct (Z.eqb_spec v 0) as [->|]; [by run_inv|].
  destruct (Z.eqb_spec v 1) as [->|]; by run_inv.
Qed.

Lemma canonical_budget m :
  keeps_limits m -> canonical (Decoder.on_budget m) (fun _ => Encoder.on_budget m).
Proof.
  intros K t t' [] D. destruct (dec_budget_Ok _ _ _ _ D) as [Hm Hb].
  specialize (K (Decoder.budget t)). rewrite Hm in K. cbn [snd] in K. exists []. repeat split; [done..|].
  intros s Hs _ _ _. unfold Encoder.on_budget. rewrite Hs, Hm. unfold after. cbn.
  rewrite app_nil_r, Z.add_0_r. by destruct (Encoder.retain s).
Qed.

Lemma dec_u32_Ok t n t' :
  Decoder.u32 t = (Ok n, t') ->
  Decoder.bytes t = to_le 4 n ++ Decoder.bytes t' /\ Decoder.budget t' = Decoder.budget t /\ is_u32 n.
Proof.
  unfold Decoder.u32. intros D. run_inv. destruct (dec_take_Ok _ _ _ _ Hrun) as (Hb & Hbu & Hz).
  specialize (Hz ltac:(lia)). assert (length a = 4%nat) by (unfold zlen in Hz; lia).
  rewrite to_of_le by done. split; [done|]. split; [done|]. by apply of_le_u32.
Qed.

Lemma remaining_Ok t n t' : Decoder.remaining t = (Ok n, t') -> n = zlen (Decoder.bytes t) /\ t' = t.
Proof. unfold Decoder.remaining. by intros [= <- <-]. Qed.

Lemma enc_fixed_step b s :
  Encoder.length s + zlen b <= byte_limit (Encoder.budget s) -> Encoder.length s + zlen b <= u64_max ->
  Encoder.fixed b s = (Ok tt, after s b (Encoder.budget s)).
Proof.
  intros. unfold Encoder.fixed, checked_add. rewrite (proj2 (Z.leb_le _ _)) by lia.
  by rewrite (proj2 (Z.ltb_ge _ _)) by lia.
Qed.

Lemma enc_budget_step {A} (m : method Budget.t CodecError A) s r b :
  m (Encoder.budget s) = (r, b) -> Encoder.on_budget m s = (r, after s [] b).
Proof.
  unfold Encoder.on_budget. intros ->. unfold after. rewrite app_nil_r. cbn. rewrite Z.add_0_r.
  by destruct (Encoder.retain s).
Qed.

Lemma try_u32_step n s : n <= u32_max -> Encoder.try_u32 n s = (Ok n, s).
Proof. intros. unfold Encoder.try_u32, of_result. by rewrite (proj2 (Z.leb_le _ _)). Qed.

(** A length-prefixed field: what the decoder checked is what the encoder
    charges and writes. *)
Lemma canonical_count_for size : canonical (Decoder.count_for size) (Encoder.count_for size).
Proof.
  intros t t' n D. unfold Decoder.count_for in D. wire_inv. rename a into n.
  apply dec_u32_Ok in Hrun as (Hb & Hbu & Hn). apply remaining_Ok in Hrun0 as [-> ->].
  apply dec_budget_Ok in Hrun3 as [Hm Hb']. destruct a3.
  pose proof (charge_keeps n a2 (Decoder.budget s)) as K. rewrite Hm in K. cbn [snd] in K.
  exists (to_le 4 n). rewrite Hb, Hb'. split; [done|]. split; [cbn in *; congruence|].
  intros s' Hs H0 Hl Hu. rewrite Hbu, <- Hs in Hm. unfold Encoder.count_for, Encoder.u32, of_result.
  cbv zeta. erewrite bind_step; [|by rewrite Hrun2].
  rewrite (bind_step _ _ _ _ _ (enc_budget_step _ _ _ _ Hm)).
  rewrite (bind_step _ _ _ _ _ (try_u32_step _ _ (proj2 Hn))), enc_fixed_step, after_after; [done|..];
    cbn; rewrite ?K, ?Hbu; unfold zlen in *; cbn; lia.
Qed.

Lemma canonical_blob : canonical Decoder.blob Encoder.blob.
Proof.
  intros t t' v D. unfold Decoder.blob in D. wire_inv.
  apply dec_u32_Ok in Hrun as (Hb & Hbu & Hn). apply remaining_Ok in Hrun0 as [-> ->].
  apply dec_budget_Ok in Hrun3 as [Hm Hb']. destruct a3.
  apply dec_take_Ok in D as (Hv & Hbv & Hz). specialize (Hz (proj1 Hn)). subst a.
  pose proof (charge_keeps 0 a2 (Decoder.budget s)) as K. rewrite Hm in K. cbn [snd] in K.
  exists (to_le 4 (zlen v) ++ v). rewrite Hb, <- Hb', Hv, app_assoc, Hbv. split; [done|].
  split; [cbn in *; congruence|].
  intros s' Hs H0 Hl Hu. rewrite Hbu, <- Hs in Hm. rewrite zlen_app in Hl.
  unfold Encoder.blob, Encoder.u32, of_result. erewrite bind_step; [|by rewrite Hrun2].
  pose proof (zlen_nonneg v). assert (Hk : byte_limit (Decoder.budget s3) = byte_limit (Decoder.budget t))
    by (cbn in *; congruence).
  rewrite (bind_step _ _ _ _ _ (enc_budget_step _ _ _ _ Hm)).
  rewrite (bind_step _ _ _ _ _ (try_u32_step _ _ (proj2 Hn))).
  unfold bind. rewrite enc_fixed_step, after_after; [|cbn; rewrite ?Hk; unfold zlen in *; cbn; lia..].
  rewrite enc_fixed_step, after_after; [done|cbn; rewrite ?Hk; unfold zlen in *; cbn; lia..].
Qed.

Lemma canonical_text : canonical Decoder.text Encoder.text.
Proof. apply (canonical_then _ _ _ _ canonical_blob). intros. by run_inv. Qed.

Lemma text_utf8 t v t' : Decoder.text t = (Ok v, t') -> utf8_valid v = true.
Proof. unfold Decoder.text. intros D. run_inv. by bool_inv. Qed.

Lemma canonical_repeat {A} n (d : Decoder.M A) f :
  canonical d f -> canonical (repeat_m n d) (for_each f).
Proof.
  intros C. induction n as [|n IH]; cbn [repeat_m].
  - eapply canonical_ext; [apply canonical_ret|]. intros t t' a D. by run_inv.
  - eapply (canonical_bind _ _ f (fun _ l => for_each f (tail l)) C).
    + intros x. eapply canonical_then; [exact IH|]. intros t0 l t b t' _ D. by run_inv.
    + intros t0 x t b t' _ D s. run_inv. reflexivity.
Qed.

Lemma repeat_m_length {S E A} n (m : method S E A) s l s' :
  repeat_m n m s = (Ok l, s') -> length l = n.
Proof.
  revert s l. induction n as [|n IH]; cbn [repeat_m]; intros s l D; run_inv; [done|].
  cbn. f_equal. eauto.
Qed.

(** ** Fresh budgets *)

Lemma limits_validate_Ok limits l : Limits.validate limits = Ok l ->
  l = limits /\ Limits.bytes limits <= WIRE_MAX_PAYLOAD.
Proof. unfold Limits.validate. cbv zeta. intros E. ok_bool. split; [done|]. cbn in *. lia. Qed.

Lemma budget_new_Ok limits b : Budget.new limits = Ok b ->
  b = Budget.mk limits 0 0 0 /\ Limits.bytes limits <= WIRE_MAX_PAYLOAD.
Proof.
  unfold Budget.new. intros E. destruct (Limits.validate limits) as [l|] eqn:V; [|done].
  apply limits_validate_Ok in V as [-> ?]. by injection E as <-.
Qed.

(** ** Runs of fixed fields *)

Lemma for_each_fixed_step l s :
  Encoder.length s + zlen (concat l) <= byte_limit (Encoder.budget s) ->
  Encoder.length s + zlen (concat l) <= u64_max ->
  for_each Encoder.fixed l s = (Ok tt, after s (concat l) (Encoder.budget s)).
Proof.
  revert s. induction l as [|c l IH]; intros s Hl Hu; cbn [for_each concat] in *.
  { unfold ret. by rewrite after_nil. }
  rewrite zlen_app in *. pose proof (zlen_nonneg (concat l)).
  rewrite (bind_step _ _ _ _ _ (enc_fixed_step c s ltac:(lia) ltac:(lia))).
  rewrite IH, after_after; [done|cbn; lia..].
Qed.

Lemma dec_u64_app v rest b :
  is_u64 v -> Decoder.u64 (Decoder.mk (to_le 8 v ++ rest) b) = (Ok v, Decoder.mk rest b).
Proof.
  intros Hv. unfold Decoder.u64. erewrite bind_step; [|apply dec_take_app; unfold zlen; by rewrite length_to_le].
  unfold ret. by rewrite of_to_le_u64.
Qed.

Lemma dec_u64_Ok t n t' :
  Decoder.u64 t = (Ok n, t') ->
  Decoder.bytes t = to_le 8 n ++ Decoder.bytes t' /\ Decoder.budget t' = Decoder.budget t /\ is_u64 n.
Proof.
  unfold Decoder.u64. intros D. run_inv. destruct (dec_take_Ok _ _ _ _ Hrun) as (Hb & Hbu & Hz).
  specialize (Hz ltac:(lia)). assert (length a = 8%nat) by (unfold zlen in Hz; lia).
  rewrite to_of_le by done. split; [done|]. split; [done|]. by apply of_le_u64.
Qed.
