(* ===== verification/Value.v ===== *)
(** Runtime values and their format-2 codec (selene-core: value.rs,
    stored_value.rs, logical/value.rs).

    [Value.t] has the variants of the source.  The payloads of foreign crates
    are parameters: decimals ([rust_decimal]), civil and zoned times and spans
    ([jiff]) and JSON values ([JsonValue], a checked wrapper of [serde_json]).
    A text payload is known through the chunks its formatter writes and through
    its parser; nothing is assumed about them, and the theorems say for which
    payloads they hold.  Strings are their UTF-8 bytes, floating-point numbers
    their bit patterns.

    The encoder is the recursive method of the source.  The decoder is its
    iterative loop over an explicit stack of open containers, and
    [decode_value_rec] is the recursive reading of the format it is proved
    equivalent to. *)

From S2P Require Import Prelude Errors Wire.
From coqutil Require Import Byte.

(** ** Payloads of other crates *)

(** A type with [Display] and [FromStr]. *)
Class TextCodec (T : Type) := {
  fmt_chunks : T -> list bytes;   (** the pieces the formatter writes *)
  parse_text : bytes -> option T
}.

Definition display {T} `{TextCodec T} (v : T) : bytes := concat (fmt_chunks v).

(** [rust_decimal::Decimal]. *)
Class DecimalOps := {
  Decimal : Type;
  decimal_serialize : Decimal -> bytes;
  decimal_deserialize : bytes -> Decimal
}.

(** The flag word [scalar_value] accepts: sign and a scale of at most 28. *)
Definition decimal_flags_ok (b : bytes) : bool :=
  let flags := of_le (take 4 b) in
  (Z.land flags (Z.lxor 0xffffffff 0x80ff0000) =? 0) && (Z.land (Z.shiftr flags 16) 0xff <=? 28).

(** Documented behaviour of [rust_decimal]: the 16 byte form is faithful. *)
Class DecimalLaws `{DecimalOps} := {
  decimal_length d : length (decimal_serialize d) = 16%nat;
  decimal_flags d : decimal_flags_ok (decimal_serialize d) = true;
  decimal_of_bytes d : decimal_deserialize (decimal_serialize d) = d;
  decimal_to_bytes b :
    length b = 16%nat -> decimal_flags_ok b = true -> decimal_serialize (decimal_deserialize b) = b
}.

(** [jiff::Span]: ten units, from years (0) to nanoseconds (9). *)
Class SpanOps := {
  Span : Type;
  span_new : Span;
  span_get : nat -> Span -> Z;
  span_try : nat -> Z -> Span -> option Span;
  span_signum : Span -> Z
}.

(** Documented behaviour of [jiff::Span]: a unit has a range of its own, all
    nonzero units share one sign, and setting a unit of that sign changes that
    unit only. *)
Class SpanLaws `{SpanOps} := {
  span_limit : nat -> Z;
  span_get_range u s : is_signed 64 (span_get u s) /\ - span_limit u <= span_get u s <= span_limit u;
  span_get_new u : span_get u span_new = 0;
  span_try_Some u a s : - span_limit u <= a <= span_limit u -> is_Some (span_try u a s);
  span_try_get u a s s' :
    span_try u a s = Some s' -> a = 0 \/ span_signum s = 0 \/ Z.sgn a = span_signum s ->
    span_get u s' = a /\ forall u', u' <> u -> span_get u' s' = span_get u' s;
  span_sign u s : span_get u s <> 0 -> Z.sgn (span_get u s) = span_signum s;
  span_sign_zero s : (forall u, (u < 10)%nat -> span_get u s = 0) -> span_signum s = 0;
  span_ext s s' : (forall u, (u < 10)%nat -> span_get u s = span_get u s') -> s = s'
}.

Class Leaves := {
  leaves_decimal :: DecimalOps;
  leaves_span :: SpanOps;
  JsonValue : Type;
  json_text :: TextCodec JsonValue;
  Date : Type;
  date_text :: TextCodec Date;
  Time : Type;
  time_text :: TextCodec Time;
  DateTime : Type;
  datetime_text :: TextCodec DateTime;
  Zoned : Type;
  zoned_text :: TextCodec Zoned
}.

(** ** Values *)

#[local] Set Warnings "-register-all".

Definition MAX_VECTOR_DIMENSION : Z := u16_max.

Inductive EdgeDirection := Outgoing | Incoming | Undirected.

Record PathSegment := {
  seg_edge : Z;
  seg_direction : EdgeDirection;
  seg_node : Z
}.

Record Path := {
  path_graph : Z;
  path_start : Z;
  path_segments : list PathSegment
}.

Module Value.
Section Value.
Context `{Leaves}.

Inductive t :=
| Bool (v : bool)
| Int (v : Z)
| Uint (v : Z)
| Int128 (v : Z)
| Uint128 (v : Z)
| Float (bits : Z)
| Float32 (bits : Z)
| Decimal_ (v : Decimal)
| String (v : bytes)
| Bytes (v : bytes)
| List (values : list t)
| Record_ (fields : list (bytes * t))
| RecordTyped (type_id : Z) (values : list (option t))
| Path_ (v : Path)
| NodeRef (id : Z)
| EdgeRef (id : Z)
| GraphRef (id : Z)
| TableRef (id : Z)
| ZonedDateTime (v : Zoned)
| LocalDateTime (v : DateTime)
| Date_ (v : Date)
| ZonedTime (v : Zoned)
| LocalTime (v : Time)
| Duration (v : Span)
| Extended (type_id : Z) (payload : bytes)
| Null
| Uuid (v : bytes)
| Vector (components : list Z)
| Json (v : JsonValue).

(** [Value::variant_name]. *)
Definition variant_name (v : t) : string :=
  match v with
  | Bool _ => "Bool" | Int _ => "Int" | Uint _ => "Uint" | Int128 _ => "Int128"
  | Uint128 _ => "Uint128" | Float _ => "Float" | Float32 _ => "Float32"
  | Decimal_ _ => "Decimal" | String _ => "String" | Bytes _ => "Bytes" | List _ => "List"
  | Record_ _ => "Record" | RecordTyped _ _ => "RecordTyped" | Path_ _ => "Path"
  | NodeRef _ => "NodeRef" | EdgeRef _ => "EdgeRef" | GraphRef _ => "GraphRef"
  | TableRef _ => "TableRef" | ZonedDateTime _ => "ZonedDateTime"
  | LocalDateTime _ => "LocalDateTime" | Date_ _ => "Date" | ZonedTime _ => "ZonedTime"
  | LocalTime _ => "LocalTime" | Duration _ => "Duration" | Extended _ _ => "Extended"
  | Null => "Null" | Uuid _ => "Uuid" | Vector _ => "Vector" | Json _ => "Json"
  end.

(** [Value::is_number]. *)
Definition is_number (v : t) : bool :=
  match v with
  | Int _ | Uint _ | Int128 _ | Uint128 _ | Float _ | Float32 _ | Decimal_ _ => true
  | _ => false
  end.

(** Induction through lists and records. *)
Section Induction.
Variable P : t -> Prop.
Hypothesis P_list : forall values, Forall P values -> P (List values).
Hypothesis P_record : forall fields, Forall (fun f => P (snd f)) fields -> P (Record_ fields).
Hypothesis P_leaf : forall v,
  match v with List _ | Record_ _ => True | _ => P v end.

Fixpoint ind (v : t) : P v :=
  match v with
  | List values =>
      P_list values ((fix go l := match l return Forall P l with
                                  | [] => Forall_nil_2 _
                                  | x :: l => Forall_cons_2 _ _ _ (ind x) (go l)
                                  end) values)
  | Record_ fields =>
      P_record fields ((fix go l := match l return Forall (fun f => P (snd f)) l with
                                    | [] => Forall_nil_2 _
                                    | (n, x) :: l => Forall_cons_2 _ (n, x) _ (ind x) (go l)
                                    end) fields)
  | v => P_leaf v
  end.
End Induction.
End Value.
End Value.
Abbreviation Value := Value.t.

(** ** Stored values *)

(** [StoredValueError]. *)
Inductive StoredValueError :=
| DepthLimit
| QueryOnly (family : string)
| MissingRecordDescriptor
| DuplicateField (name : bytes).

Section StoredValue.
Context `{Leaves}.

(** The field loop of [check]: [names] are the names seen, the values are pushed
    on [pending] (top first). *)
Fixpoint check_fields (fields : list (bytes * Value)) (names : list bytes) (depth : Z)
    (pending : list (Value * Z)) : result StoredValueError (list (Value * Z)) :=
  match fields with
  | [] => Ok pending
  | (name, value) :: fields =>
      refuse bool_decide (name ∈ names) with DuplicateField name;
      check_fields fields (name :: names) depth ((value, depth + 1) :: pending)
  end.

(** The inner function [check] of [StoredValue::validate]. *)
Definition check (value : Value) (depth : Z) (pending : list (Value * Z)) :
    result StoredValueError (list (Value * Z)) :=
  refuse MAX_STORED_VALUE_DEPTH <? depth with DepthLimit;
  match value with
  | Value.NodeRef _ | Value.EdgeRef _ | Value.GraphRef _ | Value.TableRef _
  | Value.Path_ _ | Value.Extended _ _ => Err (QueryOnly (Value.variant_name value))
  | Value.RecordTyped _ _ => Err MissingRecordDescriptor
  | Value.List values => Ok (rev (map (fun v => (v, depth + 1)) values) ++ pending)
  | Value.Record_ fields => check_fields fields [] depth pending
  | _ => Ok pending
  end.

(** The loop of [validate]; [None] when the fuel runs out. *)
Fixpoint validate_loop (fuel : nat) (pending : list (Value * Z)) : option (result StoredValueError unit) :=
  match fuel with
  | O => None
  | S fuel =>
      match pending with
      | [] => Some (Ok tt)
      | (value, depth) :: pending =>
          match check value depth pending with
          | Err e => Some (Err e)
          | Ok pending => validate_loop fuel pending
          end
      end
  end.

(** Number of values nested in a value, itself included. *)
Fixpoint value_size (v : Value) : nat :=
  match v with
  | Value.List values => S (sum_of value_size values)
  | Value.Record_ fields => S (sum_of (fun f => value_size (snd f)) fields)
  | _ => 1
  end.

(** [StoredValue::validate].  Every nested value is visited once, so its size is
    enough fuel ([validate_loop_total]). *)
Definition validate (value : Value) : result StoredValueError unit :=
  let? pending := check value 1 [] in
  match validate_loop (S (value_size value)) pending with
  | Some r => r
  | None => Err DepthLimit
  end.

(** Specification: the values that may be stored at nesting level [depth]. *)
Fixpoint storable (v : Value) (depth : Z) : bool :=
  (depth <=? MAX_STORED_VALUE_DEPTH) &&
  match v with
  | Value.NodeRef _ | Value.EdgeRef _ | Value.GraphRef _ | Value.TableRef _
  | Value.Path_ _ | Value.Extended _ _ | Value.RecordTyped _ _ => false
  | Value.List values => forallb (fun v => storable v (depth + 1)) values
  | Value.Record_ fields =>
      bool_decide (NoDup (map fst fields)) && forallb (fun f => storable (snd f) (depth + 1)) fields
  | _ => true
  end.

Definition pending_size (p : list (Value * Z)) : nat := sum_of (fun e => value_size (fst e)) p.

Lemma check_fields_size fields names depth pending p :
  check_fields fields names depth pending = Ok p ->
  pending_size p = (sum_of (fun f => value_size (snd f)) fields + pending_size pending)%nat.
Proof.
  revert names pending. induction fields as [|[n v] fields IH]; intros names pending E.
  - by injection E as <-.
  - cbn [check_fields] in E. ok_step. rewrite (IH _ _ E). unfold pending_size. rewrite !sum_of_cons. cbn. lia.
Qed.

Lemma check_size v depth pending p :
  check v depth pending = Ok p -> (pending_size p < value_size v + pending_size pending)%nat.
Proof.
  unfold check. intros E. ok_step. destruct v; ok_inv; cbn [value_size]; try lia.
  - unfold pending_size. rewrite sum_of_app, sum_of_rev, sum_of_map. cbn [fst]. apply Nat.lt_succ_diag_r.
  - rewrite (check_fields_size _ _ _ _ _ E). lia.
Qed.

Lemma validate_loop_total fuel pending :
  (pending_size pending < fuel)%nat -> is_Some (validate_loop fuel pending).
Proof.
  revert pending. induction fuel as [|fuel IH]; intros pending Hf; [lia|].
  destruct pending as [|[v d] pending]; cbn [validate_loop]; [eauto|].
  destruct (check v d pending) as [p|] eqn:E; [|eauto]. apply check_size in E. apply IH.
  unfold pending_size in *. rewrite sum_of_cons in Hf. cbn in Hf. lia.
Qed.

Lemma check_fields_Ok fields names depth pending p :
  NoDup names ->
  check_fields fields names depth pending = Ok p <->
  NoDup (map fst fields ++ names) /\ p = rev (map (fun f => (snd f, depth + 1)) fields) ++ pending.
Proof.
  revert names pending. induction fields as [|[n v] fields IH]; cbn; intros names pending Hn.
  { split; [by intros [= ->]|by intros [_ ->]]. }
  case_bool_decide as Hin.
  - split; [done|]. intros [[Hd _]%NoDup_cons _]. exfalso. apply Hd, elem_of_app. by right.
  - rewrite IH by (by apply NoDup_cons). rewrite <- app_assoc. cbn.
    rewrite (Permutation_middle _ _ n : _ ≡ₚ _) at 1. done.
Qed.

Definition storable_all (p : list (Value * Z)) : bool := forallb (fun e => storable (fst e) (snd e)) p.

Lemma check_storable v depth pending :
  match check v depth pending with
  | Ok p => storable_all p = storable v depth && storable_all pending
  | Err _ => storable v depth = false
  end.
Proof.
  unfold check. destruct (Z.ltb_spec MAX_STORED_VALUE_DEPTH depth) as [Hd|Hd].
  { destruct v; cbn [storable]; rewrite (proj2 (Z.leb_gt _ _)) by done; done. }
  destruct v; cbn [storable]; rewrite ?(proj2 (Z.leb_le depth _)) by done; try done.
  - unfold storable_all. by rewrite forallb_app, forallb_rev, forallb_map.
  - destruct (check_fields fields [] depth pending) as [p|] eqn:E.
    + apply check_fields_Ok in E as [Hn ->]; [|by apply NoDup_nil]. rewrite app_nil_r in Hn.
      rewrite bool_decide_eq_true_2 by done. unfold storable_all.
      by rewrite forallb_app, forallb_rev, forallb_map.
    + cbn [andb]. case_bool_decide as Hn; [|done]. exfalso.
      assert (E' : check_fields fields [] depth pending
          = Ok (rev (map (fun f => (snd f, depth + 1)) fields) ++ pending)); [|congruence].
      apply check_fields_Ok; [by apply NoDup_nil_2|]. by rewrite app_nil_r.
Qed.

Lemma validate_loop_storable fuel pending r :
  validate_loop fuel pending = Some r -> (r = Ok tt <-> storable_all pending = true).
Proof.
  revert pending r. induction fuel as [|fuel IH]; intros [|[v d] pending] r; cbn [validate_loop]; try done.
  { by intros [= <-]. }
  pose proof (check_storable v d pending) as C. destruct (check v d pending) as [p|e].
  - intros E. rewrite (IH _ _ E), C. done.
  - intros [= <-]. cbn. rewrite C. done.
Qed.

Lemma validate_storable v : validate v = Ok tt <-> storable v 1 = true.
Proof.
  unfold validate. pose proof (check_storable v 1 []) as C. destruct (check v 1 []) as [p|e] eqn:E.
  - destruct (validate_loop_total (S (value_size v)) p) as [r Hr].
    { apply check_size in E. unfold pending_size in *. cbn in *. lia. }
    rewrite Hr, (validate_loop_storable _ _ _ Hr), C. cbn. by rewrite andb_true_r.
  - rewrite C. done.
Qed.
End StoredValue.
