(* ===== verification/ValueCodec.v ===== *)
(** The format-2 codec of values (selene-core, logical/value.rs). *)

From S2P Require Import Prelude Errors Wire Value.
From coqutil Require Import Byte.

(** ** Text buffers *)

(** [BoundedTextBuffer]: [write] refuses a piece that would exceed the limit. *)
Definition buffer_write (limit : Z) (buffer piece : bytes) : option bytes :=
  if saturating_sub limit (zlen buffer) <? zlen piece then None else Some (buffer ++ piece).

(** Writing all pieces of a formatter to an empty buffer. *)
Fixpoint buffer_fill (limit : Z) (buffer : bytes) (pieces : list bytes) : option bytes :=
  match pieces with
  | [] => Some buffer
  | piece :: pieces =>
      match buffer_write limit buffer piece with
      | None => None
      | Some buffer => buffer_fill limit buffer pieces
      end
  end.

(** [DbString] construction ([db_string]): the per-string byte limit. *)
Definition MAX_DB_STRING_BYTES : Z := u32_max.
Definition db_string (s : bytes) : option bytes :=
  if MAX_DB_STRING_BYTES <? zlen s then None else Some s.

(** [f32::is_finite] on a bit pattern. *)
Definition f32_is_finite (bits : Z) : bool := negb (Z.land (Z.shiftr bits 23) 255 =? 255).

(** [VectorValue::new]. *)
Definition vector_new (components : list Z) : option (list Z) :=
  if (zlen components =? 0) || (MAX_VECTOR_DIMENSION <? zlen components)
     || negb (forallb f32_is_finite components)
  then None else Some components.

Section Codec.
Context `{Leaves}.

(** ** Encoding *)

(** [Encoder::temporal]. *)
Definition temporal {T} `{TextCodec T} (tag : Z) (v : T) : Encoder.M unit :=
  do buffer <- of_result (ok_or (buffer_fill 512 [] (fmt_chunks v)) E_Limit);
  Encoder.u8 tag ;;
  Encoder.blob buffer.

(** The [Json] arm of [Encoder::value]. *)
Definition encode_json (v : JsonValue) : Encoder.M unit :=
  do limit <- Encoder.on_budget (fun b => (Ok (Budget.json_limit b), b));
  do buffer <- of_result (ok_or (buffer_fill limit [] (fmt_chunks v)) E_Limit);
  do alloc <- of_result (ok_or (checked_mul (zlen buffer) 128) E_Limit);
  Encoder.on_budget (Budget.charge (zlen buffer) alloc) ;;
  Encoder.u8 15 ;;
  Encoder.blob buffer.

(** The [Vector] arm. *)
Definition encode_vector (components : list Z) : Encoder.M unit :=
  Encoder.u8 14 ;;
  Encoder.on_budget (Budget.charge (zlen components) (zlen components * 16)) ;;
  Encoder.u32 (zlen components) ;;
  for_each Encoder.u32 components.

(** The [Duration] arm. *)
Definition encode_span (v : Span) : Encoder.M unit :=
  Encoder.u8 21 ;;
  for_each (fun u => Encoder.fixed (to_le 8 (of_signed 64 (span_get u v)))) (seq 0 10).

(** The field loop of the [Record] arm; [encode] is the recursive call. *)
Definition encode_fields (encode : Value -> Encoder.M unit) : list bytes -> list (bytes * Value) -> Encoder.M unit :=
  fix go names fields :=
    match fields with
    | [] => ret tt
    | (name, v) :: fields =>
        fail_if (bool_decide (name ∈ names)) (E_Invalid "duplicate record field") ;;
        Encoder.text name ;;
        encode v ;;
        go (name :: names) fields
    end.

(** The arms of [Encoder::value]; [encode] is the recursive call on a nested
    value. *)
Definition encode_arm (encode : Value -> Encoder.M unit) (value : Value) : Encoder.M unit :=
  match value with
  | Value.Null => Encoder.u8 0
  | Value.Bool v => Encoder.u8 1 ;; Encoder.boolean v
  | Value.Int v => Encoder.u8 2 ;; Encoder.fixed (to_le 8 (of_signed 64 v))
  | Value.Uint v => Encoder.u8 3 ;; Encoder.u64 v
  | Value.Int128 v => Encoder.u8 4 ;; Encoder.fixed (to_le 16 (of_signed 128 v))
  | Value.Uint128 v => Encoder.u8 5 ;; Encoder.fixed (to_le 16 v)
  | Value.Float bits => Encoder.u8 6 ;; Encoder.u64 bits
  | Value.Float32 bits => Encoder.u8 7 ;; Encoder.u32 bits
  | Value.Decimal_ v => Encoder.u8 8 ;; Encoder.fixed (decimal_serialize v)
  | Value.String v => Encoder.u8 9 ;; Encoder.text v
  | Value.Bytes v => Encoder.u8 10 ;; Encoder.blob v
  | Value.List values =>
      Encoder.u8 11 ;;
      Encoder.count (zlen values) ;;
      for_each encode values
  | Value.Record_ fields =>
      Encoder.u8 12 ;;
      Encoder.count (zlen fields) ;;
      encode_fields encode [] fields
  | Value.Uuid v => Encoder.u8 13 ;; Encoder.fixed v
  | Value.Vector components => encode_vector components
  | Value.Json v => encode_json v
  | Value.Date_ v => temporal 16 v
  | Value.LocalTime v => temporal 17 v
  | Value.LocalDateTime v => temporal 18 v
  | Value.ZonedTime v => temporal 19 v
  | Value.ZonedDateTime v => temporal 20 v
  | Value.Duration v => encode_span v
  | Value.NodeRef _ | Value.EdgeRef _ | Value.GraphRef _ | Value.TableRef _ | Value.Path_ _
  | Value.Extended _ _ | Value.RecordTyped _ _ => throw E_Semantic
  end.

(** [Encoder::value]. *)
Fixpoint encode_value_at (value : Value) (depth : Z) : Encoder.M unit :=
  Encoder.on_budget (Budget.depth depth) ;;
  Encoder.on_budget (Budget.charge 1 128) ;;
  encode_arm (fun v => encode_value_at v (depth + 1)) value.

(** [encode_value]. *)
Definition encode_value (value : Value) (limits : Limits.t) : result CodecError bytes :=
  let? encoder := Encoder.new limits in
  let '(r, encoder) := encode_value_at value 1 encoder in
  let? _ := r in
  Ok (Encoder.finish encoder).

(** ** Decoding *)

(** [parse_temporal]. *)
Definition parse_temporal {T} `{TextCodec T} (text : bytes) : result CodecError T :=
  refuse 512 <? zlen text with E_Limit;
  let? value := ok_or (parse_text text) E_Semantic in
  refuse negb (bool_decide (display value = text)) with E_Invalid "temporal canonical text";
  Ok value.

Definition temporal_value {T} `{TextCodec T} (make : T -> Value) : Decoder.M Value :=
  do text <- Decoder.text;
  do v <- of_result (parse_temporal text);
  ret (make v).

(** The [Json] arm of [scalar_value]. *)
Definition json_value : Decoder.M Value :=
  do text <- Decoder.text;
  do alloc <- of_result (ok_or (checked_mul (zlen text) 128) E_Limit);
  Decoder.on_budget (Budget.charge (zlen text) alloc) ;;
  do json <- of_result (ok_or (parse_text text) E_Semantic);
  fail_if (negb (bool_decide (display json = text))) (E_Invalid "JSON canonical text") ;;
  ret (Value.Json json).

(** [chunks_exact(4)] of a buffer, each read as a little-endian [u32]. *)
Fixpoint words (n : nat) (b : bytes) : list Z :=
  match n with
  | O => []
  | S n => of_le (take 4 b) :: words n (drop 4 b)
  end.

(** The [Vector] arm. *)
Definition vector_value : Decoder.M Value :=
  do count <- Decoder.u32;
  fail_if (negb ((1 <=? count) && (count <=? MAX_VECTOR_DIMENSION))) E_Limit ;;
  Decoder.on_budget (Budget.charge count (count * 16)) ;;
  do b <- Decoder.take (count * 4);
  do v <- of_result (ok_or (vector_new (words (Z.to_nat count) b)) E_Semantic);
  ret (Value.Vector v).

(** The unit loop of the [Duration] arm. *)
Fixpoint span_units (units : list nat) (span : Span) : Decoder.M Span :=
  match units with
  | [] => ret span
  | u :: units =>
      do raw <- Decoder.u64;
      let amount := to_signed 64 raw in
      fail_if (negb (amount =? 0) && negb (span_signum span =? 0)
               && negb (Z.sgn amount =? span_signum span)) (E_Invalid "duration sign") ;;
      do span <- of_result (ok_or (span_try u amount span) E_Semantic);
      span_units units span
  end.

(** The [Decimal] arm. *)
Definition decimal_value : Decoder.M Value :=
  do b <- Decoder.take 16;
  fail_if (negb (decimal_flags_ok b)) (E_Invalid "decimal flags") ;;
  ret (Value.Decimal_ (decimal_deserialize b)).

(** [Decoder::name]: an exact database string. *)
Definition decode_name : Decoder.M bytes :=
  do text <- Decoder.text;
  of_result (ok_or (db_string text) E_Semantic).

(** [Decoder::scalar_value]. *)
Definition scalar_value (tag : Z) : Decoder.M Value :=
  match tag with
  | 0 => ret Value.Null
  | 1 => do v <- Decoder.boolean; ret (Value.Bool v)
  | 2 => do v <- Decoder.u64; ret (Value.Int (to_signed 64 v))
  | 3 => do v <- Decoder.u64; ret (Value.Uint v)
  | 4 => do b <- Decoder.take 16; ret (Value.Int128 (to_signed 128 (of_le b)))
  | 5 => do b <- Decoder.take 16; ret (Value.Uint128 (of_le b))
  | 6 => do v <- Decoder.u64; ret (Value.Float v)
  | 7 => do v <- Decoder.u32; ret (Value.Float32 v)
  | 8 => decimal_value
  | 9 => do v <- decode_name; ret (Value.String v)
  | 10 => do v <- Decoder.blob; ret (Value.Bytes v)
  | 13 => do b <- Decoder.take 16; ret (Value.Uuid b)
  | 14 => vector_value
  | 15 => json_value
  | 16 => temporal_value Value.Date_
  | 17 => temporal_value Value.LocalTime
  | 18 => temporal_value Value.LocalDateTime
  | 19 => temporal_value Value.ZonedTime
  | 20 => temporal_value Value.ZonedDateTime
  | 21 => do s <- span_units (seq 0 10) span_new; ret (Value.Duration s)
  | _ => throw (E_Unsupported "value tag")
  end.

(** [Container]: an open list or record of the decoder's stack. *)
Inductive Container :=
| CList (remaining : Z) (values : list Value)
| CRecord (remaining : Z) (fields : list (bytes * Value)) (key : option bytes) (names : list bytes).

(** The key of the next field, when the innermost open container is a record.
    The stack [pending] has its last element first. *)
Definition read_key (pending : list Container) : Decoder.M (list Container) :=
  match pending with
  | CRecord remaining fields _ names :: rest =>
      do name <- decode_name;
      fail_if (bool_decide (name ∈ names)) (E_Invalid "duplicate record field") ;;
      ret (CRecord remaining fields (Some name) (name :: names) :: rest)
  | _ => ret pending
  end.

(** The tag and either a container that was opened ([inl], [continue]) or a
    complete value. *)
Definition open_value (pending : list Container) : Decoder.M (list Container + Value) :=
  Decoder.on_budget (Budget.charge 1 128) ;;
  do tag <- Decoder.u8;
  match tag with
  | 11 =>
      do count <- Decoder.count;
      if negb (count =? 0) then ret (inl (CList count [] :: pending))
      else ret (inr (Value.List []))
  | 12 =>
      do count <- Decoder.count;
      if negb (count =? 0) then ret (inl (CRecord count [] None [] :: pending))
      else ret (inr (Value.Record_ []))
  | _ => do v <- scalar_value tag; ret (inr v)
  end.

(** The inner loop: add a complete value to the innermost container, closing the
    containers it completes.  [None] is the [expect] on a missing record key. *)
Fixpoint complete (value : Value) (pending : list Container) : option (Value + list Container) :=
  match pending with
  | [] => Some (inl value)
  | CList remaining values :: rest =>
      let values := values ++ [value] in
      let remaining := remaining - 1 in
      if negb (remaining =? 0) then Some (inr (CList remaining values :: rest))
      else complete (Value.List values) rest
  | CRecord _ _ None _ :: _ => None
  | CRecord remaining fields (Some key) names :: rest =>
      let fields := fields ++ [(key, value)] in
      let remaining := remaining - 1 in
      if negb (remaining =? 0) then Some (inr (CRecord remaining fields None names :: rest))
      else complete (Value.Record_ fields) rest
  end.

(** The outer loop of [Decoder::value]; [None] when the fuel runs out or the
    [expect] fails, which [value_loop_total] excludes. *)
Fixpoint value_loop (fuel : nat) (depth : Z) (pending : list Container) (self : Decoder.t) :
    option (result CodecError Value * Decoder.t) :=
  match fuel with
  | O => None
  | S fuel =>
      match (Decoder.on_budget (Budget.depth (depth + zlen pending)) ;; read_key pending) self with
      | (Err e, self) => Some (Err e, self)
      | (Ok pending, self) =>
          match open_value pending self with
          | (Err e, self) => Some (Err e, self)
          | (Ok (inl pending), self) => value_loop fuel depth pending self
          | (Ok (inr value), self) =>
              match complete value pending with
              | None => None
              | Some (inl value) => Some (Ok value, self)
              | Some (inr pending) => value_loop fuel depth pending self
              end
          end
      end
  end.

(** [Decoder::value].  Every round reads a tag, so the length of the input
    bounds the number of rounds. *)
Definition decode_value_at (depth : Z) : Decoder.M Value := fun self =>
  match value_loop (S (length (Decoder.bytes self))) depth [] self with
  | Some r => r
  | None => (Err E_Incomplete, self)
  end.

(** [decode_value]. *)
Definition decode_value (b : bytes) (limits : Limits.t) : result CodecError Value :=
  let? budget := Budget.new limits in
  let? decoder := Decoder.new b budget in
  let '(r, decoder) := decode_value_at 1 decoder in
  let? value := r in
  let? _ := Decoder.finish decoder in
  let? _ := map_err (fun _ => E_Semantic) (validate value) in
  Ok value.

(** ** The recursive reading of the format *)

(** [n] record fields, each read by [decode] after its key. *)
Definition fields_rec (depth : Z) (decode : Decoder.M Value) : nat -> list bytes -> Decoder.M (list (bytes * Value)) :=
  fix go n names :=
    match n with
    | O => ret []
    | S n =>
        Decoder.on_budget (Budget.depth depth) ;;
        do name <- decode_name;
        fail_if (bool_decide (name ∈ names)) (E_Invalid "duplicate record field") ;;
        do v <- decode;
        do fields <- go n (name :: names);
        ret ((name, v) :: fields)
    end.

(** A value after its depth check. *)
Fixpoint value_rec (fuel : nat) (depth : Z) : Decoder.M Value :=
  match fuel with
  | O => throw E_Incomplete
  | S fuel =>
      Decoder.on_budget (Budget.charge 1 128) ;;
      do tag <- Decoder.u8;
      match tag with
      | 11 =>
          do count <- Decoder.count;
          do values <- repeat_m (Z.to_nat count)
            (Decoder.on_budget (Budget.depth (depth + 1)) ;; value_rec fuel (depth + 1));
          ret (Value.List values)
      | 12 =>
          do count <- Decoder.count;
          do fields <- fields_rec (depth + 1) (value_rec fuel (depth + 1)) (Z.to_nat count) [];
          ret (Value.Record_ fields)
      | _ => scalar_value tag
      end
  end.

Definition decode_value_rec (depth : Z) : Decoder.M Value := fun self =>
  (Decoder.on_budget (Budget.depth depth) ;; value_rec (S (length (Decoder.bytes self))) depth) self.

End Codec.
