(* ===== verification/ValueLoop.v ===== *)
(** The value decoder's loop terminates, never hits its [expect], and is the
    recursive reading of the format (selene-core, logical/value.rs). *)

From S2P Require Import Prelude Errors Wire Value ValueCodec.

(** ** Decoders only consume *)

Abbreviation left_over t := (length (Decoder.bytes t)).

(** A decoder never gives bytes back. *)
Definition narrows {A} (d : Decoder.M A) : Prop :=
  forall t a t', d t = (Ok a, t') -> (left_over t' <= left_over t)%nat.

Create HintDb narrow.

Section Narrows.
Context {A B : Type}.

Lemma narrows_bind (d : Decoder.M A) (k : A -> Decoder.M B) :
  narrows d -> (forall a, narrows (k a)) -> narrows (bind d k).
Proof. intros D K t b t' E. run_inv. apply D in Hrun. apply K in E. lia. Qed.

Lemma narrows_ret (a : A) : narrows (ret a).
Proof. intros t b t' E. by run_inv. Qed.

Lemma narrows_throw err : narrows (@throw Decoder.t _ A err).
Proof. intros t b t' E. by run_inv. Qed.

Lemma narrows_of_result r : narrows (@of_result Decoder.t CodecError A r).
Proof. intros t b t' E. by run_inv. Qed.

Lemma narrows_budget (m : method Budget.t CodecError A) : narrows (Decoder.on_budget m).
Proof. intros t b t' [_ ->]%dec_budget_Ok. done. Qed.

End Narrows.

Lemma narrows_repeat {A} n (d : Decoder.M A) : narrows d -> narrows (repeat_m n d).
Proof.
  intros D. induction n; cbn [repeat_m]; [apply narrows_ret|].
  apply narrows_bind; [done|intros]. apply narrows_bind; [done|intros; apply narrows_ret].
Qed.

Lemma narrows_fail_if c err : narrows (@fail_if Decoder.t _ c err).
Proof. intros t b t' E. by run_inv. Qed.

Lemma narrows_take n : narrows (Decoder.take n).
Proof.
  intros t b t' (E & _ & _)%dec_take_Ok. rewrite E, length_app. lia.
Qed.

Lemma narrows_remaining : narrows Decoder.remaining.
Proof. intros t b t' [_ ->]%remaining_Ok. done. Qed.

#[export] Hint Resolve @narrows_bind @narrows_ret @narrows_throw @narrows_of_result @narrows_budget
  @narrows_repeat narrows_fail_if narrows_take narrows_remaining : narrow.
#[export] Hint Extern 1 => intros : narrow.

Lemma narrows_u8 : narrows Decoder.u8.
Proof. unfold Decoder.u8. auto with narrow. Qed.
Lemma narrows_u32 : narrows Decoder.u32.
Proof. unfold Decoder.u32. auto with narrow. Qed.
Lemma narrows_u64 : narrows Decoder.u64.
Proof. unfold Decoder.u64. auto with narrow. Qed.
#[export] Hint Resolve narrows_u8 narrows_u32 narrows_u64 : narrow.
Lemma narrows_boolean : narrows Decoder.boolean.
Proof. unfold Decoder.boolean. apply narrows_bind; intros; [|repeat case_match]; auto with narrow. Qed.
Lemma narrows_count size : narrows (Decoder.count_for size).
Proof. unfold Decoder.count_for. auto 12 with narrow. Qed.
Lemma narrows_blob : narrows Decoder.blob.
Proof. unfold Decoder.blob. auto 12 with narrow. Qed.
#[export] Hint Resolve narrows_boolean narrows_count narrows_blob : narrow.
Lemma narrows_text : narrows Decoder.text.
Proof. unfold Decoder.text. auto with narrow. Qed.
#[export] Hint Resolve narrows_text : narrow.

Lemma u8_consumes t v t' : Decoder.u8 t = (Ok v, t') -> left_over t = S (left_over t').
Proof.
  unfold Decoder.u8. intros E. run_inv. apply dec_take_Ok in Hrun as (E & _ & Hz).
  specialize (Hz ltac:(lia)). rewrite E, length_app. unfold zlen in Hz. lia.
Qed.

Section Loop.
Context `{Leaves}.

Lemma narrows_name : narrows decode_name.
Proof. unfold decode_name. auto with narrow. Qed.
Hint Resolve narrows_name : narrow.

Lemma narrows_span units s : narrows (span_units units s).
Proof. revert s. induction units; intros; cbn [span_units]; auto 12 with narrow. Qed.
Hint Resolve narrows_span : narrow.

Lemma narrows_scalar tag : narrows (scalar_value tag).
Proof.
  unfold scalar_value, temporal_value, json_value, vector_value, decimal_value.
  repeat case_match; auto 15 with narrow.
Qed.
Hint Resolve narrows_scalar : narrow.

Lemma narrows_fields depth d n names : narrows d -> narrows (fields_rec depth d n names).
Proof. intros D. revert names. induction n; intros; cbn [fields_rec]; auto 12 with narrow. Qed.
Hint Resolve narrows_fields : narrow.

Lemma narrows_value_rec fuel depth : narrows (value_rec fuel depth).
Proof.
  revert depth. induction fuel as [|fuel IH]; intros depth; cbn [value_rec]; [auto with narrow|].
  repeat (apply narrows_bind; [auto with narrow|intros]). unfold Decoder.count.
  repeat case_match; auto 12 with narrow.
Qed.

(** ** The loop, one round at a time *)

(** A round after the key was read. *)
Definition body_run (fuel : nat) (depth : Z) (pending : list Container) (self : Decoder.t) :
    option (result CodecError Value * Decoder.t) :=
  match open_value pending self with
  | (Err e, self) => Some (Err e, self)
  | (Ok (inl pending), self) => value_loop fuel depth pending self
  | (Ok (inr value), self) =>
      match complete value pending with
      | None => None
      | Some (inl value) => Some (Ok value, self)
      | Some (inr pending) => value_loop fuel depth pending self
      end
  end.

(** What follows a complete value. *)
Definition finish_run (fuel : nat) (depth : Z) (value : Value) (pending : list Container) (self : Decoder.t) :
    option (result CodecError Value * Decoder.t) :=
  match complete value pending with
  | None => None
  | Some (inl value) => Some (Ok value, self)
  | Some (inr pending) => value_loop fuel depth pending self
  end.

Lemma value_loop_S fuel depth pending self :
  value_loop (S fuel) depth pending self =
  match (Decoder.on_budget (Budget.depth (depth + zlen pending)) ;; read_key pending) self with
  | (Err e, self) => Some (Err e, self)
  | (Ok pending, self) => body_run fuel depth pending self
  end.
Proof. reflexivity. Qed.

Lemma value_loop_mono fuel fuel' depth pending self r :
  value_loop fuel depth pending self = Some r -> (fuel <= fuel')%nat ->
  value_loop fuel' depth pending self = Some r.
Proof.
  revert fuel' pending self. induction fuel as [|fuel IH]; intros [|fuel'] pending self E Hf; try done; [lia|].
  rewrite value_loop_S in *. unfold body_run in *.
  destruct ((_ ;; _) self) as [[p|e] s]; [|done].
  destruct (open_value p s) as [[[p'|v]|e] s']; [|destruct (complete v p) as [[|]|]|]; try done;
    apply IH; (done || lia).
Qed.

(** ** Termination *)

(** A container that can take a value. *)
Definition keyed (c : Container) : Prop :=
  match c with CRecord _ _ None _ => False | _ => True end.

Lemma read_key_keyed pending t p t' :
  Forall keyed (tail pending) -> read_key pending t = (Ok p, t') -> Forall keyed p.
Proof.
  destruct pending as [|[] pending]; cbn; intros K E; run_inv; repeat constructor; auto.
Qed.

Lemma complete_keyed v p : Forall keyed p ->
  exists r, complete v p = Some r /\ match r with inl _ => True | inr p' => Forall keyed (tail p') end.
Proof.
  revert v. induction p as [|[|? ? [|] ?] p IH]; intros v K; cbn [complete]; [by exists (inl v)| | |by inversion K].
  all: apply Forall_cons in K as [_ K]; destruct (negb _); [eexists; split; [done|exact K]|by apply IH].
Qed.

Lemma open_value_spec pending t r t' :
  open_value pending t = (Ok r, t') ->
  (left_over t' < left_over t)%nat /\ match r with inl p => tail p = pending | inr _ => True end.
Proof.
  unfold open_value. intros E. run_inv. apply u8_consumes in Hrun0. apply dec_budget_Ok in Hrun as [_ Hb].
  assert (L : left_over t = S (left_over s0)) by congruence.
  unfold Decoder.count in *. split.
  - assert (left_over t' <= left_over s0)%nat; [|lia].
    match type of E with ?k s0 = _ => assert (N : narrows k); [|by apply N in E] end.
    repeat case_match; auto 12 with narrow.
    all: apply narrows_bind; [auto with narrow|intros; case_match; auto with narrow].
  - repeat match type of E with (match ?x with _ => _ end) _ = _ => destruct x end; run_inv; try done.
    all: destruct (negb _); by run_inv.
Qed.

(** Every round reads a tag: [value_loop] always returns, without running out of
    fuel and without the [expect] on a record key failing. *)
Lemma value_loop_total fuel depth pending t :
  Forall keyed (tail pending) -> (left_over t < fuel)%nat -> is_Some (value_loop fuel depth pending t).
Proof.
  revert pending t. induction fuel as [|fuel IH]; intros pending t K Hf; [lia|].
  rewrite value_loop_S. destruct ((_ ;; _) t) as [[p|e] s] eqn:E; [|eauto].
  run_inv. apply narrows_budget in Hrun. pose proof (read_key_keyed _ _ _ _ K E) as Kp.
  assert (left_over s <= left_over s0)%nat.
  { assert (N : narrows (read_key pending)) by (destruct pending as [|[]]; cbn; auto 12 with narrow). by apply N in E. }
  unfold body_run. destruct (open_value p s) as [[[p'|v]|e] s'] eqn:O; [| |eauto].
  - apply open_value_spec in O as [? Ht]. apply IH; [by rewrite Ht|lia].
  - apply open_value_spec in O as [? _]. destruct (complete_keyed v p Kp) as ([v'|p'] & -> & Kt); [eauto|].
    apply IH; [done|lia].
Qed.

(** ** Equivalence with the recursive reading *)

(** [d] on [t] leads the loop where [k] leads it: its value goes to [k], its
    error is the loop's error. *)
Definition simulates {A} (ok : Prop) (d : Decoder.M A) (t : Decoder.t)
    (k : A -> Decoder.t -> nat -> option (result CodecError Value * Decoder.t))
    (run : nat -> option (result CodecError Value * Decoder.t)) : Prop :=
  match d t with
  | (Ok a, t') => forall r, (exists f, k a t' f = Some r) -> exists f, run f = Some r
  | (Err e, t') => ok -> exists f, run f = Some (Err e, t')
  end.

Lemma body_run_open depth K t :
  match open_value K t with
  | (Err e, t') => forall f, body_run f depth K t = Some (Err e, t')
  | (Ok (inl p), t') => forall f, body_run f depth K t = value_loop f depth p t'
  | (Ok (inr v), t') => forall f, body_run f depth K t = finish_run f depth v K t'
  end.
Proof. unfold body_run, finish_run. destruct (open_value K t) as [[[|]|] ?]; done. Qed.

(** The induction hypothesis on the nesting depth. *)
Definition body_sim (R : nat) : Prop := forall depth K t,
  simulates (left_over t < R)%nat (value_rec R (depth + zlen K)) t
    (fun v t' f => finish_run f depth v K t') (fun f => body_run f depth K t).

(** One element or field: depth check, key, value.  [K'] is the stack after the
    key was read, [next] the rest of the container. *)
Lemma round_sim R depth K K' t t1 :
  body_sim R ->
  (Decoder.on_budget (Budget.depth (depth + zlen K)) ;; read_key K) t = (Ok K', t1) ->
  zlen K' = zlen K ->
  simulates (left_over t1 < R)%nat (value_rec R (depth + zlen K)) t1
    (fun v t' f => finish_run f depth v K' t') (fun f => value_loop f depth K t).
Proof.
  intros IH E HK. rewrite <- HK. specialize (IH depth K' t1). unfold simulates in *.
  destruct (value_rec _ _ _) as [[v|e] t2].
  - intros r' Hf. destruct (IH r' Hf) as [f Hb]. exists (S f). by rewrite value_loop_S, E.
  - intros Hok. destruct (IH Hok) as [f Hb]. exists (S f). by rewrite value_loop_S, E.
Qed.

Lemma list_sim R depth K : body_sim R -> forall n acc t,
  simulates (left_over t < R)%nat
    (repeat_m (S n) (Decoder.on_budget (Budget.depth (depth + zlen K + 1)) ;; value_rec R (depth + zlen K + 1))) t
    (fun vs t' f => finish_run f depth (Value.List (acc ++ vs)) K t')
    (fun f => value_loop f depth (CList (Z.of_nat (S n)) acc :: K) t).
Proof.
  intros IH n. induction n as [|n IHn]; intros acc t; set (C := CList _ acc).
  all: assert (HC : depth + zlen (C :: K) = depth + zlen K + 1) by (rewrite zlen_cons; lia).
  all: rewrite repeat_m_S; unfold simulates, bind at 1 2.
  all: destruct (Decoder.on_budget _ t) as [[[]|e] t1] eqn:Ed;
    [|intros _; exists 1%nat; rewrite value_loop_S, HC; unfold bind; by rewrite Ed].
  all: pose proof (narrows_budget _ _ _ _ Ed) as Hn1.
  all: assert (Hr : (Decoder.on_budget (Budget.depth (depth + zlen (C :: K))) ;; read_key (C :: K)) t = (Ok (C :: K), t1))
    by (rewrite HC; unfold bind; by rewrite Ed).
  all: pose proof (round_sim R depth _ _ _ _ IH Hr eq_refl) as HR; rewrite HC in HR;
    unfold simulates in HR.
  all: destruct (value_rec R _ t1) as [[v|e] t2] eqn:Ev; [|intros Hok; apply HR; lia].
  all: pose proof (narrows_value_rec _ _ _ _ _ Ev) as Hn2.
  - unfold bind, ret. intros r Hf. apply HR. exact Hf.
  - specialize (IHn (acc ++ [v]) t2). unfold simulates in IHn. unfold bind at 1.
    destruct (repeat_m (S n) _ t2) as [[vs|e] t3].
    + unfold ret. intros r Hf. apply HR. rewrite <- app_assoc in IHn. destruct (IHn r Hf) as [f Hl].
      exists f. unfold finish_run, C. cbn [complete].
      replace (Z.of_nat (S (S n)) - 1) with (Z.of_nat (S n)) by lia.
      by rewrite (proj2 (Z.eqb_neq _ 0)) by lia.
    + intros Hok. apply HR. destruct IHn as [f Hl]; [lia|]. exists f. unfold finish_run, C. cbn [complete].
      replace (Z.of_nat (S (S n)) - 1) with (Z.of_nat (S n)) by lia.
      by rewrite (proj2 (Z.eqb_neq _ 0)) by lia.
Qed.

Lemma fields_rec_S depth d n names :
  fields_rec depth d (S n) names =
  (Decoder.on_budget (Budget.depth depth) ;;
   do name <- decode_name;
   fail_if (bool_decide (name ∈ names)) (E_Invalid "duplicate record field") ;;
   do v <- d;
   do fields <- fields_rec depth d n (name :: names);
   ret ((name, v) :: fields)).
Proof. reflexivity. Qed.

Lemma record_sim R depth K : body_sim R -> forall n acc key names t,
  simulates (left_over t < R)%nat
    (fields_rec (depth + zlen K + 1) (value_rec R (depth + zlen K + 1)) (S n) names) t
    (fun fs t' f => finish_run f depth (Value.Record_ (acc ++ fs)) K t')
    (fun f => value_loop f depth (CRecord (Z.of_nat (S n)) acc key names :: K) t).
Proof.
  intros IH n. induction n as [|n IHn]; intros acc key names t; set (C := CRecord _ acc key names).
  all: assert (HC : depth + zlen (C :: K) = depth + zlen K + 1) by (rewrite zlen_cons; lia).
  all: rewrite fields_rec_S; unfold simulates, bind at 1 2 3 4.
  all: destruct (Decoder.on_budget _ t) as [[[]|e] t0] eqn:Ed;
    [|intros _; exists 1%nat; rewrite value_loop_S, HC; unfold bind; by rewrite Ed].
  all: destruct (decode_name t0) as [[name|e] t1] eqn:En;
    [|intros _; exists 1%nat; rewrite value_loop_S, HC; unfold bind; rewrite Ed; cbn; unfold bind; by rewrite En].
  all: pose proof (narrows_budget _ _ _ _ Ed) as Hn0; pose proof (narrows_name _ _ _ En) as Hn1.
  all: unfold fail_if at 1; destruct (bool_decide _) eqn:Eb;
    [intros _; exists 1%nat; rewrite value_loop_S, HC; unfold bind; rewrite Ed; cbn; unfold bind, fail_if;
     by rewrite En, Eb|].
  all: set (C' := CRecord (match C with CRecord r _ _ _ => r | _ => 0 end) acc (Some name) (name :: names)).
  all: assert (Hr : (Decoder.on_budget (Budget.depth (depth + zlen (C :: K))) ;; read_key (C :: K)) t = (Ok (C' :: K), t1))
    by (rewrite HC; unfold bind; rewrite Ed; cbn; unfold bind, fail_if; by rewrite En, Eb).
  all: pose proof (round_sim R depth _ _ _ _ IH Hr eq_refl) as HR; rewrite HC in HR; unfold simulates in HR.
  all: unfold ret at 1; destruct (value_rec R _ t1) as [[v|e] t2] eqn:Ev; [|intros Hok; apply HR; lia].
  all: pose proof (narrows_value_rec _ _ _ _ _ Ev) as Hn2.
  - unfold bind, ret. intros r Hf. apply HR. exact Hf.
  - specialize (IHn (acc ++ [(name, v)]) None (name :: names) t2). unfold simulates in IHn. unfold bind at 1.
    assert (HF : forall f t3, finish_run f depth v (C' :: K) t3
        = value_loop f depth (CRecord (Z.of_nat (S n)) (acc ++ [(name, v)]) None (name :: names) :: K) t3).
    { intros f t3. unfold finish_run, C', C. cbn [complete].
      replace (Z.of_nat (S (S n)) - 1) with (Z.of_nat (S n)) by lia.
      by rewrite (proj2 (Z.eqb_neq _ 0)) by lia. }
    destruct (fields_rec _ _ (S n) _ t2) as [[fs|e] t3].
    + unfold ret. intros r Hf. apply HR. rewrite <- app_assoc in IHn. destruct (IHn r Hf) as [f Hl].
      exists f. by rewrite HF.
    + intros Hok. apply HR. destruct IHn as [f Hl]; [lia|]. exists f. by rewrite HF.
Qed.

(** The two container tags, as a test. *)
Lemma tag_cases {A} (tag : Z) (a b c : A) :
  match tag with 11 => a | 12 => b | _ => c end = if tag =? 11 then a else if tag =? 12 then b else c.
Proof. by repeat (case_match; try done). Qed.

Lemma count_for_nonneg size t n t' : Decoder.count_for size t = (Ok n, t') -> 0 <= n.
Proof. unfold Decoder.count_for. intros E. run_inv. by apply dec_u32_Ok in Hrun as (_ & _ & ? & _). Qed.

(** Opening a value: the recursive reading of a nonempty container continues in
    the loop with that container on the stack. *)
Lemma value_rec_sim R : body_sim R.
Proof.
  induction R as [|R IH]; intros depth K t; [unfold simulates; cbn; lia|].
  pose proof (body_run_open depth K t) as HB. unfold open_value in HB. unfold simulates.
  cbn [value_rec]. unfold bind at 1 2. unfold bind at 1 2 in HB.
  destruct (Decoder.on_budget _ t) as [[[]|e] t1] eqn:Ec; [|intros _; by exists O].
  destruct (Decoder.u8 t1) as [[tag|e] t2] eqn:Et; [|intros _; by exists O].
  apply narrows_budget in Ec. apply u8_consumes in Et. rewrite !tag_cases in *.
  unfold Decoder.count in *.
  destruct (tag =? 11); [|destruct (tag =? 12)].
  - unfold bind at 1. unfold bind at 1 in HB.
    destruct (Decoder.count_for 64 t2) as [[n|e] t3] eqn:En; [|intros _; by exists O].
    pose proof (narrows_count _ _ _ _ En) as Hn. apply count_for_nonneg in En.
    destruct (Z.eqb_spec n 0) as [->|Hz].
    { unfold bind, ret, negb in *. intros r [f Hf]. exists f. by rewrite HB. }
    cbn [negb] in HB. unfold ret in HB. destruct (Z.to_nat n) as [|m] eqn:Hm; [lia|].
    pose proof (list_sim R depth K IH m [] t3) as L. unfold simulates in L. unfold bind at 1.
    replace (Z.of_nat (S m)) with n in L by lia.
    destruct (repeat_m _ _ t3) as [[vs|e] t4].
    + unfold ret. intros r Hf. destruct (L r Hf) as [f Hl]. exists f. by rewrite HB.
    + intros Hok. destruct L as [f Hl]; [lia|]. exists f. by rewrite HB.
  - unfold bind at 1. unfold bind at 1 in HB.
    destruct (Decoder.count_for 64 t2) as [[n|e] t3] eqn:En; [|intros _; by exists O].
    pose proof (narrows_count _ _ _ _ En) as Hn. apply count_for_nonneg in En.
    destruct (Z.eqb_spec n 0) as [->|Hz].
    { unfold bind, ret, negb in *. intros r [f Hf]. exists f. by rewrite HB. }
    cbn [negb] in HB. unfold ret in HB. destruct (Z.to_nat n) as [|m] eqn:Hm; [lia|].
    pose proof (record_sim R depth K IH m [] None [] t3) as L. unfold simulates in L. unfold bind at 1.
    replace (Z.of_nat (S m)) with n in L by lia.
    destruct (fields_rec _ _ _ _ t3) as [[vs|e] t4].
    + unfold ret. intros r Hf. destruct (L r Hf) as [f Hl]. exists f. by rewrite HB.
    + intros Hok. destruct L as [f Hl]; [lia|]. exists f. by rewrite HB.
  - unfold bind at 1 in HB. destruct (scalar_value tag t2) as [[v|e] t3].
    + intros r [f Hf]. exists f. by rewrite HB.
    + intros _. by exists O.
Qed.

Lemma decode_value_at_loop depth t r :
  (exists f, value_loop f depth [] t = Some r) -> decode_value_at depth t = r.
Proof.
  intros [f Hf]. unfold decode_value_at.
  destruct (value_loop_total (S (left_over t)) depth [] t (Forall_nil_2 _) ltac:(lia)) as [r' Hr].
  rewrite Hr. pose proof (value_loop_mono _ (f + S (left_over t)) _ _ _ _ Hf ltac:(lia)) as H1.
  pose proof (value_loop_mono _ (f + S (left_over t)) _ _ _ _ Hr ltac:(lia)) as H2. congruence.
Qed.

(** The recursive reading at nesting bound [R] leads the loop: its value always,
    its error when the bound exceeds the input. *)
Lemma rec_loop R depth t :
  match (Decoder.on_budget (Budget.depth depth) ;; value_rec R depth) t with
  | (Ok v, t') => decode_value_at depth t = (Ok v, t')
  | (Err e, t') => (left_over t < R)%nat -> decode_value_at depth t = (Err e, t')
  end.
Proof.
  pose proof (value_rec_sim R depth []) as S0. rewrite zlen_nil, Z.add_0_r in S0.
  assert (HL : forall f, value_loop (S f) depth [] t = match Decoder.on_budget (Budget.depth depth) t with
      | (Err e, s) => Some (Err e, s) | (Ok _, s) => body_run f depth [] s end).
  { intros f. rewrite value_loop_S, zlen_nil, Z.add_0_r. unfold bind. by destruct (Decoder.on_budget _ _) as [[|]]. }
  unfold bind. destruct (Decoder.on_budget _ t) as [[[]|e] t1] eqn:Ed.
  2: { intros _. apply decode_value_at_loop. exists 1%nat. by rewrite HL. }
  apply narrows_budget in Ed. specialize (S0 t1). unfold simulates in S0.
  destruct (value_rec _ _ t1) as [[v|e] t2].
  - apply decode_value_at_loop. destruct (S0 (Ok v, t2)) as [f Hf]; [by exists O|]. exists (S f). by rewrite HL.
  - intros Hl. apply decode_value_at_loop. destruct S0 as [f Hf]; [lia|]. exists (S f). by rewrite HL.
Qed.

(** The iterative decoder is the recursive reading, on every input, error and
    remaining budget included. *)
Lemma decode_value_at_rec depth t : decode_value_at depth t = decode_value_rec depth t.
Proof.
  unfold decode_value_rec. pose proof (rec_loop (S (left_over t)) depth t) as R.
  destruct (bind _ _ t) as [[v|e] t']; [done|]. apply R. lia.
Qed.
End Loop.
