(* ===== verification/ValueRoundtrip.v ===== *)
(** The value codec round-trips and is canonical (selene-core,
    logical/value.rs).

    [value_ok] is what the Rust types guarantee of a value, plus [text_stable]
    of its JSON and temporal leaves: their text parses back to them.  The
    encoder does not check the latter; [decode_unstable_json] shows what happens
    when a foreign parser does not give it. *)

From S2P Require Import Prelude Errors Wire Value ValueCodec ValueLoop.
From coqutil Require Import Byte.

(** ** Buffers *)

Lemma buffer_fill_spec limit buffer pieces :
  zlen buffer <= limit ->
  buffer_fill limit buffer pieces =
  if limit <? zlen buffer + zlen (concat pieces) then None else Some (buffer ++ concat pieces).
Proof.
  revert buffer. induction pieces as [|p pieces IH]; intros buffer Hb; cbn [buffer_fill concat].
  { rewrite app_nil_r, (proj2 (Z.ltb_ge _ _)); [done|]. unfold zlen in *. cbn. lia. }
  unfold buffer_write, saturating_sub. rewrite zlen_app. pose proof (zlen_nonneg (concat pieces)).
  destruct (Z.ltb_spec (Z.max 0 (limit - zlen buffer)) (zlen p)).
  { rewrite (proj2 (Z.ltb_lt _ _)) by lia. done. }
  rewrite IH by (rewrite zlen_app; lia). rewrite zlen_app, Z.add_assoc, <- app_assoc. done.
Qed.

Lemma buffer_fill_Some limit pieces b :
  0 <= limit -> buffer_fill limit [] pieces = Some b <-> b = concat pieces /\ zlen b <= limit.
Proof.
  intros Hl. rewrite buffer_fill_spec by done. rewrite zlen_nil, Z.add_0_l, app_nil_l.
  destruct (Z.ltb_spec limit (zlen (concat pieces))); split; try done.
  - intros [-> ?]. lia.
  - by intros [= <-].
  - by intros [-> _].
Qed.

Lemma buffer_fill_concat limit buffer pieces b :
  buffer_fill limit buffer pieces = Some b -> b = buffer ++ concat pieces.
Proof.
  revert buffer. induction pieces as [|p pieces IH]; intros buffer; cbn [buffer_fill concat].
  - intros [= <-]. by rewrite app_nil_r.
  - unfold buffer_write. destruct (_ <? _); [done|]. intros E. rewrite (IH _ E). by rewrite <- app_assoc.
Qed.

(** ** Charging commutes with appending *)

Lemma charge_Ok n a b u b' :
  Budget.charge n a b = (Ok u, b') <->
  b' = Budget.mk (Budget.limits b) (Budget.allocation b + a) (Budget.items b + n) (Budget.metadata_ b) /\
  Budget.items b + n <= u64_max /\ Budget.allocation b + a <= u64_max /\
  Budget.items b + n <= Limits.items (Budget.limits b) /\
  Budget.allocation b + a <= Limits.allocation (Budget.limits b).
Proof.
  unfold Budget.charge, checked_add. destruct u. destruct (Z.leb_spec (Budget.items b + n) u64_max); cbn.
  2: { split; [done|]. intros (_ & ? & _). lia. }
  destruct (Z.leb_spec (Budget.allocation b + a) u64_max); cbn.
  2: { split; [done|]. intros (_ & _ & ? & _). lia. }
  destruct (_ || _) eqn:E.
  - apply orb_true_iff in E. rewrite !Z.ltb_lt in E. split; [done|]. intros (_ & _ & _ & ? & ?). lia.
  - bool_inv. split; [intros [= <-]; done|]. by intros (-> & _).
Qed.

Lemma charge_swap n1 a1 n2 a2 b u1 u2 b1 b2 :
  0 <= n2 -> 0 <= a2 ->
  Budget.charge n1 a1 b = (Ok u1, b1) -> Budget.charge n2 a2 b1 = (Ok u2, b2) ->
  0 <= n1 -> 0 <= a1 ->
  exists b1', Budget.charge n2 a2 b = (Ok tt, b1') /\ Budget.charge n1 a1 b1' = (Ok tt, b2).
Proof.
  intros ? ? (-> & ? & ? & ? & ?)%charge_Ok (-> & ? & ? & ? & ?)%charge_Ok ? ?. cbn in *.
  exists (Budget.mk (Budget.limits b) (Budget.allocation b + a2) (Budget.items b + n2) (Budget.metadata_ b)).
  rewrite !charge_Ok. cbn. repeat split; try lia. f_equal; lia.
Qed.

(** Replace an encoder by one that succeeds whenever it does. *)
Lemma mirrors_impl {A} e e' (d : Decoder.M A) a :
  (forall s s', e s = (Ok tt, s') -> e' s = (Ok tt, s')) -> mirrors e' d a -> mirrors e d a.
Proof. intros X M s s' E. by apply M, X. Qed.

Lemma after_budget s o b : Encoder.budget (after s o b) = b.
Proof. done. Qed.

(** A charge may be made after the field it precedes. *)
Lemma charge_after_blob n a tag v s s' :
  0 <= n -> 0 <= a ->
  (Encoder.on_budget (Budget.charge n a) ;; Encoder.u8 tag ;; Encoder.blob v) s = (Ok tt, s') ->
  (Encoder.u8 tag ;; Encoder.blob v ;; Encoder.on_budget (Budget.charge n a)) s = (Ok tt, s').
Proof.
  intros Hn Ha E. unfold Encoder.blob, Encoder.u8, Encoder.u32 in *. wire_inv. cbn in *.
  pose proof Hrun1 as [-> _]%checked_mul_Some. pose proof (zlen_nonneg v).
  destruct (charge_swap n a 0 (zlen v * 8) _ _ _ _ _ ltac:(lia) ltac:(lia) Hm0 Hm Hn Ha) as (b1 & C1 & C2).
  assert (K0 : byte_limit b0 = byte_limit (Encoder.budget s)) by (apply charge_Ok in Hm0 as [-> _]; done).
  assert (K : byte_limit b = byte_limit b0) by (apply charge_Ok in Hm as [-> _]; done).
  assert (K1 : byte_limit b1 = byte_limit (Encoder.budget s)) by (apply charge_Ok in C1 as [-> _]; done).
  rewrite K, K0 in *.
  assert (F : forall x t, Encoder.budget t = Encoder.budget s \/ Encoder.budget t = b1 ->
     Encoder.length t + zlen x <= Encoder.length s + 1 + 4 + zlen v ->
     Encoder.fixed x t = (Ok tt, after t x (Encoder.budget t))).
  { intros x t Ht Hx. apply enc_fixed_step; [destruct Ht as [->| ->]; rewrite ?K1|];
      unfold zlen in *; cbn [length] in *; rewrite ?length_to_le in *; lia. }
  assert (Z4 : zlen (to_le 4 (zlen v)) = 4) by (unfold zlen; by rewrite length_to_le).
  rewrite (bind_step _ _ _ _ _ (F [byte.of_Z tag] s (or_introl eq_refl) ltac:(unfold zlen; cbn; lia))).
  unfold bind, of_result. rewrite Hrun1. cbn [ok_or].
  rewrite (enc_budget_step _ _ _ _ (C1 : _ (Encoder.budget (after s _ _)) = _)), try_u32_step by done.
  rewrite F by (by right || (cbn; rewrite Z4; unfold zlen; cbn; lia)). cbn [Encoder.budget].
  rewrite F by (by right || (cbn; rewrite Z4; unfold zlen; cbn; lia)). cbn [Encoder.budget].
  erewrite enc_budget_step by exact C2. rewrite !after_after. do 2 f_equal.
  by rewrite ?app_nil_r, ?app_nil_l, <- ?app_assoc.
Qed.

(** Likewise for a fixed field. *)
Lemma charge_after_fixed n a b e s s' :
  (Encoder.on_budget (Budget.charge n a) ;; Encoder.fixed b ;; e) s = (Ok tt, s') ->
  (Encoder.fixed b ;; Encoder.on_budget (Budget.charge n a) ;; e) s = (Ok tt, s').
Proof.
  intros E. wire_inv. cbn in *. pose proof Hm as [-> _]%charge_Ok. cbn in *.
  assert (Z0 : zlen (@nil byte) = 0) by done. rewrite Z0 in *.
  rewrite (bind_step _ _ _ _ _ (enc_fixed_step b s ltac:(lia) ltac:(lia))).
  rewrite (bind_step _ _ _ _ _ (enc_budget_step _ (after s b _) _ _ Hm)), after_after, app_nil_r.
  rewrite after_after, app_nil_l in E. done.
Qed.

Section Scalars.
Context `{Leaves} `{!DecimalLaws} `{!SpanLaws}.

Lemma of_to_le_u128 z : 0 <= z <= u128_max -> of_le (to_le 16 z) = z.
Proof. intros Hz. apply of_to_le. unfold u128_max in Hz. cbn. lia. Qed.

Lemma mirrors_u128 v :
  0 <= v <= u128_max -> mirrors (Encoder.fixed (to_le 16 v)) (do b <- Decoder.take 16; ret (of_le b)) v.
Proof.
  intros Hv. eapply mirrors_then; [apply mirrors_fixed; unfold zlen; by rewrite length_to_le|].
  intros t. unfold ret. by rewrite of_to_le_u128.
Qed.

Lemma signed_u64 z : is_signed 64 z -> is_u64 (of_signed 64 z).
Proof. intros. pose proof (of_signed_range 64 z ltac:(lia)). unfold is_u64, u64_max. lia. Qed.

Lemma signed_u128 z : is_signed 128 z -> 0 <= of_signed 128 z <= u128_max.
Proof. intros. pose proof (of_signed_range 128 z ltac:(lia)). unfold u128_max. lia. Qed.

(** *** Spans *)

(** The units before [k] are those of [v], the others are zero. *)
Definition span_prefix (v : Span) (k : nat) (s : Span) : Prop :=
  (forall u, (u < k)%nat -> span_get u s = span_get u v) /\ (forall u, (k <= u)%nat -> span_get u s = 0).

Lemma span_prefix_sign v k s a :
  span_prefix v k s -> a = span_get k v ->
  a = 0 \/ span_signum s = 0 \/ Z.sgn a = span_signum s.
Proof.
  intros [P1 P2] ->. destruct (decide (span_get k v = 0)) as [|Ha]; [by left|right].
  destruct (decide (Forall (fun u => span_get u s = 0) (seq 0 10))) as [Hz|Hz].
  { left. apply span_sign_zero. intros u Hu. rewrite Forall_forall in Hz. apply Hz, elem_of_seq. lia. }
  right. apply not_Forall_Exists in Hz; [|solve_decision]. apply Exists_exists in Hz as (u & _ & Hu). cbn in Hu.
  rewrite (span_sign k v Ha). destruct (decide (u < k)%nat) as [Hk|Hk]; [|exfalso; apply Hu, P2; lia].
  rewrite <- (span_sign u s Hu), (P1 u Hk). symmetry. apply span_sign. by rewrite <- (P1 u Hk).
Qed.

Lemma span_prefix_step v k s s' :
  span_prefix v k s -> span_try k (span_get k v) s = Some s' -> span_prefix v (S k) s'.
Proof.
  intros P T. destruct (span_try_get _ _ _ _ T (span_prefix_sign _ _ _ _ P eq_refl)) as [G1 G2].
  destruct P as [P1 P2]. split; intros u Hu.
  - destruct (decide (u = k)) as [->|Hk]; [done|]. rewrite G2 by done. apply P1. lia.
  - rewrite G2 by lia. apply P2. lia.
Qed.

Lemma mirrors_span_units v n k s :
  span_prefix v k s ->
  exists s', mirrors (for_each (fun u => Encoder.fixed (to_le 8 (of_signed 64 (span_get u v)))) (seq k n))
               (span_units (seq k n) s) s' /\ span_prefix v (k + n) s'.
Proof.
  revert k s. induction n as [|n IH]; intros k s P; cbn [seq for_each span_units].
  { exists s. rewrite Nat.add_0_r. split; [apply mirrors_ret|done]. }
  destruct (span_get_range k v) as [Hs Hr].
  destruct (span_try_Some k (span_get k v) s Hr) as [s1 T].
  destruct (IH (S k) s1 (span_prefix_step _ _ _ _ P T)) as (s' & M & P').
  exists s'. rewrite Nat.add_succ_r. split; [|done].
  eapply mirrors_bind; [apply (mirrors_u64 (of_signed 64 (span_get k v))), signed_u64, Hs|].
  cbv zeta. rewrite to_of_signed by (lia || done).
  assert (C : negb (span_get k v =? 0) && negb (span_signum s =? 0)
      && negb (Z.sgn (span_get k v) =? span_signum s) = false).
  { destruct (span_prefix_sign v k s _ P eq_refl) as [->|[->| ->]]; rewrite ?Z.eqb_refl;
      rewrite ?andb_false_r; done. }
  intros t t' E. destruct (M _ _ E) as (out & b & Ht & L & F & D). exists out, b. repeat split; auto.
  intros rest. unfold bind, fail_if, ret, of_result. rewrite C, T. cbn [ok_or]. apply D.
Qed.

Lemma mirrors_span v :
  mirrors (encode_span v)
    (do tag <- Decoder.u8; do x <- scalar_value 21; ret (tag, x)) (21, Value.Duration v).
Proof.
  destruct (mirrors_span_units v 10 0 span_new) as (s & M & P & _).
  { split; [lia|]. intros. apply span_get_new. }
  assert (s = v) as ->. { apply span_ext. intros u Hu. apply P. lia. }
  eapply mirrors_bind; [apply mirrors_u8; lia|]. eapply mirrors_then; [|done]. by eapply mirrors_then.
Qed.

(** *** Vectors *)

Lemma words_concat cs :
  Forall is_u32 cs -> words (length cs) (concat (map (to_le 4) cs)) = cs.
Proof.
  induction 1 as [|c cs Hc _ IH]; [done|]. cbn [words length map concat].
  rewrite take_app_length', drop_app_length', IH, of_to_le_u32 by (done || by rewrite length_to_le). done.
Qed.

Lemma for_each_u32 cs s s' :
  for_each Encoder.u32 cs s = (Ok tt, s') ->
  s' = after s (concat (map (to_le 4) cs)) (Encoder.budget s) /\
  (Encoder.length s <= byte_limit (Encoder.budget s) -> Encoder.length s' <= byte_limit (Encoder.budget s)).
Proof.
  revert s. induction cs as [|c cs IH]; intros s E; cbn [for_each] in E.
  { run_inv. by rewrite after_nil. }
  unfold Encoder.u32 in E at 1. wire_inv. destruct (IH _ E) as [-> Hl']. rewrite after_after. split; [done|].
  cbn in *. rewrite zlen_app. lia.
Qed.

Lemma zlen_words cs : zlen (concat (map (to_le 4) cs)) = zlen cs * 4.
Proof.
  induction cs as [|c cs IH]; [done|]. cbn [map concat]. rewrite zlen_app, IH, zlen_cons.
  unfold zlen at 1. rewrite length_to_le. lia.
Qed.

Lemma mirrors_words cs : Forall is_u32 cs ->
  mirrors (for_each Encoder.u32 cs)
    (do b <- Decoder.take (zlen cs * 4); ret (words (Z.to_nat (zlen cs)) b)) cs.
Proof.
  intros Hc s s' E. apply for_each_u32 in E as [-> Hl].
  exists (concat (map (to_le 4) cs)), (Encoder.budget s). split; [done|]. split; [done|]. split; [done|].
  intros rest. rewrite (bind_step _ _ _ _ _ (dec_take_app _ _ _ _ (zlen_words cs))). unfold ret.
  unfold zlen. by rewrite Nat2Z.id, words_concat.
Qed.

(** A validated vector: what [VectorValue] guarantees. *)
Definition vector_ok (cs : list Z) : Prop := vector_new cs = Some cs /\ Forall is_u32 cs.

Lemma vector_ok_len cs : vector_ok cs -> 1 <= zlen cs <= MAX_VECTOR_DIMENSION.
Proof.
  intros [V _]. unfold vector_new in V. destruct (_ || _ || _) eqn:E; [done|].
  apply orb_false_iff in E as [[E1 E2]%orb_false_iff _].
  apply Z.eqb_neq in E1. apply Z.ltb_ge in E2. pose proof (zlen_nonneg cs). lia.
Qed.

Lemma mirrors_vector cs : vector_ok cs ->
  mirrors (encode_vector cs) (do tag <- Decoder.u8; do v <- vector_value; ret (tag, v)) (14, Value.Vector cs).
Proof.
  intros V. pose proof (vector_ok_len _ V) as Hl. destruct V as [Vn Vc].
  eapply mirrors_bind; [apply mirrors_u8; lia|]. apply mirrors_then with (a := Value.Vector cs); [|done].
  eapply mirrors_impl; [intros s s'; apply charge_after_fixed|]. unfold vector_value.
  eapply mirrors_bind; [apply mirrors_u32; unfold is_u32, MAX_VECTOR_DIMENSION, u16_max, u32_max in *; lia|].
  cbv beta. rewrite (proj2 (Z.leb_le 1 _)), (proj2 (Z.leb_le _ MAX_VECTOR_DIMENSION)) by lia. cbn [andb negb].
  apply mirrors_pure with (a := tt); [done|].
  eapply mirrors_bind; [apply mirrors_budget, charge_keeps|].
  pose proof (mirrors_words cs Vc) as M. intros s s' E. destruct (M _ _ E) as (o & b & Hs & L & F & D).
  exists o, b. split; [done|]. split; [done|]. split; [done|]. intros rest. specialize (D rest).
  apply bind_Ok in D as (x & t & D1 & [W ->]%ret_Ok). cbv beta.
  rewrite (bind_step _ _ _ _ _ D1). unfold bind, of_result, ret. by rewrite W, Vn.
Qed.

(** *** Text leaves *)

(** The text of a leaf is a string that parses back to the leaf. *)
Definition text_stable {T} `{TextCodec T} (v : T) : Prop :=
  utf8_valid (display v) = true /\ parse_text (display v) = Some v.

Lemma mirrors_temporal {T} `{TextCodec T} tag (make : T -> Value) v :
  0 <= tag < 256 -> text_stable v ->
  mirrors (temporal tag v) (do t <- Decoder.u8; do x <- temporal_value make; ret (t, x)) (tag, make v).
Proof.
  intros Ht [U P]. unfold temporal. apply mirrors_of_result. intros b Hb.
  apply ok_or_Ok, buffer_fill_Some in Hb as [-> Hl]; [|lia]. fold (display v) in *.
  eapply mirrors_bind; [by apply mirrors_u8|]. apply mirrors_then with (a := make v); [|done].
  unfold temporal_value. eapply mirrors_then; [apply mirrors_text, U|].
  intros t. unfold bind, of_result, parse_temporal, ret.
  rewrite (proj2 (Z.ltb_ge _ _)), P by done. cbn [ok_or]. by rewrite bool_decide_eq_true_2.
Qed.

(** A JSON value is encoded as its text, whose charge may come last. *)
Lemma encode_json_fields v s s' :
  encode_json v s = (Ok tt, s') ->
  (Encoder.u8 15 ;; Encoder.blob (display v) ;;
   Encoder.on_budget (Budget.charge (zlen (display v)) (zlen (display v) * 128))) s = (Ok tt, s') /\
  checked_mul (zlen (display v)) 128 = Some (zlen (display v) * 128).
Proof.
  intros E. unfold encode_json in E. apply bind_Ok in E as (limit & s1 & E1 & E).
  apply enc_budget_Ok in E1 as (b & [= <- <-] & ->). rewrite after_nil in E.
  apply bind_Ok in E as (buffer & s2 & E1 & E). apply of_result_Ok in E1 as [E1 ->].
  apply ok_or_Ok, buffer_fill_concat in E1 as ->. rewrite app_nil_l in E. fold (display v) in E.
  apply bind_Ok in E as (alloc & s3 & E2 & E). apply of_result_Ok in E2 as [E2 ->].
  apply ok_or_Ok in E2. pose proof E2 as [-> _]%checked_mul_Some. pose proof (zlen_nonneg (display v)).
  split; [|done]. apply charge_after_blob; [done|lia|done].
Qed.

Lemma mirrors_json v : text_stable v ->
  mirrors (encode_json v) (do t <- Decoder.u8; do x <- json_value; ret (t, x)) (15, Value.Json v).
Proof.
  intros [U P] s s' [E Hm]%encode_json_fields. revert s s' E.
  change (mirrors (Encoder.u8 15 ;; Encoder.blob (display v) ;;
      Encoder.on_budget (Budget.charge (zlen (display v)) (zlen (display v) * 128)))
    (do t <- Decoder.u8; do x <- json_value; ret (t, x)) (15, Value.Json v)).
  eapply mirrors_bind; [apply mirrors_u8; lia|]. apply mirrors_then with (a := Value.Json v); [|done].
  unfold json_value. eapply mirrors_bind; [apply mirrors_text, U|]. cbv beta. rewrite Hm.
  apply mirrors_pure with (a := zlen (display v) * 128); [done|].
  eapply mirrors_then; [apply mirrors_budget, charge_keeps|]. intros t.
  unfold bind, of_result, fail_if, ret. rewrite P. cbn [ok_or]. by rewrite bool_decide_eq_true_2.
Qed.

Lemma mirrors_decimal v :
  mirrors (Encoder.u8 8 ;; Encoder.fixed (decimal_serialize v))
    (do t <- Decoder.u8; do x <- decimal_value; ret (t, x)) (8, Value.Decimal_ v).
Proof.
  eapply mirrors_bind; [apply mirrors_u8; lia|]. apply mirrors_then with (a := Value.Decimal_ v); [|done].
  unfold decimal_value. eapply mirrors_then.
  { apply mirrors_fixed. unfold zlen. by rewrite decimal_length. }
  intros t. unfold bind, fail_if, ret. by rewrite decimal_flags, decimal_of_bytes.
Qed.

Lemma mirrors_name v : utf8_valid v = true -> zlen v <= u32_max -> mirrors (Encoder.text v) decode_name v.
Proof.
  intros U L. eapply mirrors_then; [apply mirrors_text, U|]. intros t.
  unfold of_result, db_string, MAX_DB_STRING_BYTES. by rewrite (proj2 (Z.ltb_ge _ _)).
Qed.
End Scalars.

(** ** Values *)

Section Values.
Context `{Leaves} `{!DecimalLaws} `{!SpanLaws}.

(** What [DbString] guarantees. *)
Definition string_ok (s : bytes) : Prop := utf8_valid s = true /\ zlen s <= u32_max.

(** What the Rust types guarantee, and stable text leaves. *)
Fixpoint value_ok (v : Value) : Prop :=
  match v with
  | Value.Int v => is_signed 64 v
  | Value.Uint v => is_u64 v
  | Value.Int128 v => is_signed 128 v
  | Value.Uint128 v => 0 <= v <= u128_max
  | Value.Float bits => is_u64 bits
  | Value.Float32 bits => is_u32 bits
  | Value.String s => string_ok s
  | Value.List values => all_of value_ok values
  | Value.Record_ fields => all_of (fun f => string_ok (fst f) /\ value_ok (snd f)) fields
  | Value.Uuid b => length b = 16%nat
  | Value.Vector cs => vector_ok cs
  | Value.Json v => text_stable v
  | Value.Date_ v => text_stable v
  | Value.LocalTime v => text_stable v
  | Value.LocalDateTime v => text_stable v
  | Value.ZonedTime v => text_stable v
  | Value.ZonedDateTime v => text_stable v
  | _ => True
  end.

Lemma mirrors_tagged {A} e (d : Decoder.M A) (k : Z -> Decoder.M A) tag a :
  mirrors e (do t <- Decoder.u8; do x <- d; ret (t, x)) (tag, a) -> (k tag = d) ->
  mirrors e (bind Decoder.u8 k) a.
Proof.
  intros M K s s' E. destruct (M _ _ E) as (o & b & Hs & L & F & D). exists o, b.
  split; [done|]. split; [done|]. split; [done|]. intros rest. specialize (D rest).
  apply bind_Ok in D as (t & t1 & D1 & (x & t2 & D2 & [[= -> ->] ->]%ret_Ok)%bind_Ok).
  by rewrite (bind_step _ _ _ _ _ D1), K.
Qed.

(** A decoder that reads at least one byte bounds its encoder's output. *)
Lemma emits_strict {A} e (d : Decoder.M A) a :
  mirrors e d a -> (forall t x t', d t = (Ok x, t') -> (left_over t' < left_over t)%nat) -> emits 1 e.
Proof.
  intros M St s s' E. destruct (M _ _ E) as (o & b & -> & _ & _ & D). specialize (D []).
  apply St in D. cbn in *. rewrite app_nil_r in D. unfold zlen. lia.
Qed.

Lemma value_rec_strict fuel depth t v t' :
  value_rec fuel depth t = (Ok v, t') -> (left_over t' < left_over t)%nat.
Proof.
  destruct fuel as [|fuel]; cbn [value_rec]; [done|]. intros E.
  apply bind_Ok in E as (? & t1 & E1%narrows_budget & (tag & t2 & E2%u8_consumes & E)%bind_Ok).
  rewrite tag_cases in E. assert (left_over t' <= left_over t2)%nat; [|lia]. revert E.
  assert (N : forall m, narrows m -> m t2 = (Ok v, t') -> (left_over t' <= left_over t2)%nat) by (intros m Nm; apply Nm).
  apply N. pose proof (narrows_value_rec fuel (depth + 1)) as NV.
  destruct (tag =? 11); [|destruct (tag =? 12)]; unfold Decoder.count.
  - auto 15 with narrow.
  - pose proof (fun n names => narrows_fields (depth + 1) _ n names NV). auto 15 with narrow.
  - apply narrows_scalar.
Qed.

(** A depth check does not depend on what was written. *)
Lemma depth_first d e1 e2 (X : forall s s', e1 s = (Ok tt, s') ->
    Budget.limits (Encoder.budget s') = Budget.limits (Encoder.budget s)) s s' :
  (e1 ;; (Encoder.on_budget (Budget.depth d) ;; e2)) s = (Ok tt, s') ->
  (Encoder.on_budget (Budget.depth d) ;; (e1 ;; e2)) s = (Ok tt, s').
Proof.
  intros E. apply bind_Ok in E as ([] & s1 & E1 & ([] & s2 & E2 & E)%bind_Ok).
  apply enc_budget_Ok in E2 as (b & D & ->). unfold Budget.depth in D.
  destruct (_ <? _) eqn:L; [done|]. injection D as <-. rewrite after_nil in E.
  rewrite (X _ _ E1) in L. erewrite bind_step by (apply enc_budget_step; unfold Budget.depth; by rewrite L).
  rewrite after_nil. by rewrite (bind_step _ _ _ _ _ E1).
Qed.

Lemma mirrors_limits {A} e (d : Decoder.M A) a s s' :
  mirrors e d a -> e s = (Ok tt, s') -> Budget.limits (Encoder.budget s') = Budget.limits (Encoder.budget s).
Proof. intros M E. by destruct (M _ _ E) as (o & b & -> & L & _). Qed.

(** The field loops mirror each other. *)
Lemma mirrors_fields depth enc dec fields names :
  Forall (fun f => string_ok (fst f) /\
    exists body, enc (snd f) = (Encoder.on_budget (Budget.depth depth) ;; body) /\ mirrors body dec (snd f)) fields ->
  mirrors (encode_fields enc names fields) (fields_rec depth dec (length fields) names) fields.
Proof.
  intros Hf. revert names. induction Hf as [|[name v] fields (Hs & body & Hb & M) _ IH]; intros names;
    cbn [encode_fields fields_rec length]; [apply mirrors_ret|].
  apply mirrors_fail_if. intros Hn. cbn in Hs, Hb, M. destruct Hs as [Hu Hl]. rewrite Hb.
  eapply mirrors_impl.
  { intros s s' E. apply (depth_first depth (Encoder.text name) (body ;; encode_fields enc (name :: names) fields)).
    - intros. eapply mirrors_limits; [by apply mirrors_text|done].
    - rewrite <- E. apply bind_ext. intros. symmetry. apply bind_assoc. }
  eapply mirrors_bind; [apply mirrors_budget, depth_keeps|].
  eapply mirrors_bind; [by apply mirrors_name|]. cbv beta. rewrite Hn.
  apply mirrors_pure with (a := tt); [done|].
  eapply mirrors_bind; [done|]. eapply mirrors_then; [apply IH|done].
Qed.

Definition value_mirrors (v : Value) : Prop := forall fuel depth,
  (value_size v <= fuel)%nat -> value_ok v ->
  mirrors (Encoder.on_budget (Budget.charge 1 128) ;;
           encode_arm (fun v => encode_value_at v (depth + 1)) v) (value_rec fuel depth) v.

(** Reduce a mirror goal to the arm of its tag. *)
Ltac arm n d :=
  apply (mirrors_tagged _ d _ n);
  [eapply mirrors_bind; [apply mirrors_u8; lia|]; eapply mirrors_then; [|done]|reflexivity].

Lemma scalar_mirrors v :
  match v with Value.List _ | Value.Record_ _ => True | _ => value_mirrors v end.
Proof.
  destruct v; try exact I; intros [|fuel] depth Hf Hv; try (cbn in Hf; lia); cbn [value_rec encode_arm];
    (eapply mirrors_bind; [apply mirrors_budget, charge_keeps|]); cbn [value_ok] in Hv;
    try (by intros s s' E%throw_Ok).
  - arm 1 (scalar_value 1). eapply mirrors_then; [apply mirrors_boolean|done].
  - arm 2 (scalar_value 2). eapply mirrors_then; [apply (mirrors_u64 (of_signed 64 v)), signed_u64, Hv|].
    intros t. rewrite to_of_signed by (lia || done). done.
  - arm 3 (scalar_value 3). eapply mirrors_then; [by apply mirrors_u64|done].
  - arm 4 (scalar_value 4). eapply mirrors_then; [apply mirrors_fixed; unfold zlen; by rewrite length_to_le|].
    intros t. rewrite of_to_le_u128, to_of_signed by (lia || done || by apply signed_u128). done.
  - arm 5 (scalar_value 5). eapply mirrors_then; [apply mirrors_fixed; unfold zlen; by rewrite length_to_le|].
    intros t. by rewrite of_to_le_u128.
  - arm 6 (scalar_value 6). eapply mirrors_then; [by apply mirrors_u64|done].
  - arm 7 (scalar_value 7). eapply mirrors_then; [by apply mirrors_u32|done].
  - eapply (mirrors_tagged _ decimal_value); [apply mirrors_decimal|done].
  - arm 9 (scalar_value 9). destruct Hv. eapply mirrors_then; [by apply mirrors_name|done].
  - arm 10 (scalar_value 10). eapply mirrors_then; [apply mirrors_blob|done].
  - eapply (mirrors_tagged _ (temporal_value Value.ZonedDateTime)); [apply mirrors_temporal; [lia|done]|done].
  - eapply (mirrors_tagged _ (temporal_value Value.LocalDateTime)); [apply mirrors_temporal; [lia|done]|done].
  - eapply (mirrors_tagged _ (temporal_value Value.Date_)); [apply mirrors_temporal; [lia|done]|done].
  - eapply (mirrors_tagged _ (temporal_value Value.ZonedTime)); [apply mirrors_temporal; [lia|done]|done].
  - eapply (mirrors_tagged _ (temporal_value Value.LocalTime)); [apply mirrors_temporal; [lia|done]|done].
  - eapply (mirrors_tagged _ (scalar_value 21)); [apply mirrors_span|done].
  - eapply mirrors_then; [apply mirrors_u8; lia|done].
  - arm 13 (scalar_value 13). eapply mirrors_then; [apply mirrors_fixed; unfold zlen; by rewrite Hv|done].
  - eapply (mirrors_tagged _ vector_value); [by apply mirrors_vector|done].
  - eapply (mirrors_tagged _ json_value); [by apply mirrors_json|done].
Qed.

Lemma encode_value_at_eq v depth :
  encode_value_at v depth =
  (Encoder.on_budget (Budget.depth depth) ;;
   Encoder.on_budget (Budget.charge 1 128) ;; encode_arm (fun v => encode_value_at v (depth + 1)) v).
Proof. by destruct v. Qed.

Lemma value_mirrors_at v fuel depth :
  value_mirrors v -> (value_size v <= fuel)%nat -> value_ok v ->
  mirrors (encode_value_at v depth) (Decoder.on_budget (Budget.depth depth) ;; value_rec fuel depth) v.
Proof.
  intros M Hf Hv. rewrite encode_value_at_eq.
  eapply mirrors_bind; [apply mirrors_budget, depth_keeps|by apply M].
Qed.

Lemma value_mirrors_list values :
  Forall value_mirrors values -> value_mirrors (Value.List values).
Proof.
  intros IH [|fuel] depth Hf Hv; cbn [value_size] in Hf; [lia|]. cbn [value_ok] in Hv. rewrite all_of_Forall in Hv.
  assert (M : Forall (fun v => mirrors (encode_value_at v (depth + 1))
      (Decoder.on_budget (Budget.depth (depth + 1)) ;; value_rec fuel (depth + 1)) v) values).
  { apply le_S_n, sum_of_Forall in Hf. rewrite Forall_forall in *. intros v Hin.
    apply value_mirrors_at; auto. }
  cbn [value_rec encode_arm]. eapply mirrors_bind; [apply mirrors_budget, charge_keeps|].
  eapply mirrors_bind; [apply mirrors_u8; lia|]. cbv beta iota.
  apply mirrors_count_for; [apply zlen_nonneg| |].
  - apply emits_for_each. eapply Forall_impl; [exact M|]. intros v Mv. eapply emits_strict; [exact Mv|].
    intros t x t' E. apply bind_Ok in E as (? & ? & E1%narrows_budget & E2%value_rec_strict). lia.
  - unfold zlen. rewrite Nat2Z.id. eapply mirrors_then; [by apply mirrors_for_each|done].
Qed.

Lemma emits_fields enc names fields :
  Forall (fun f => emits 1 (enc (snd f))) fields -> emits (zlen fields) (encode_fields enc names fields).
Proof.
  intros Hf. revert names. induction Hf as [|[name v] fields He _ IH]; intros names; cbn [encode_fields].
  { intros s s' E. run_inv. rewrite zlen_nil. lia. }
  apply emits_fail_if. eapply emits_weaken.
  - eapply emits_bind; [apply emits_blob|]. eapply emits_bind; [exact He|apply IH].
  - rewrite zlen_cons. lia.
Qed.

Lemma value_mirrors_record fields :
  Forall (fun f => value_mirrors (snd f)) fields -> value_mirrors (Value.Record_ fields).
Proof.
  intros IH [|fuel] depth Hf Hv; cbn [value_size] in Hf; [lia|]. cbn [value_ok] in Hv. rewrite all_of_Forall in Hv.
  apply le_S_n, sum_of_Forall in Hf. rewrite Forall_forall in IH, Hf, Hv.
  cbn [value_rec encode_arm]. eapply mirrors_bind; [apply mirrors_budget, charge_keeps|].
  eapply mirrors_bind; [apply mirrors_u8; lia|]. cbv beta iota.
  apply mirrors_count_for; [apply zlen_nonneg| |].
  - apply emits_fields, Forall_forall. intros f Hin. destruct (Hv f Hin) as [_ Ho].
    eapply emits_strict; [exact (value_mirrors_at _ fuel _ (IH f Hin) (Hf f Hin) Ho)|].
    intros t x t' E. apply bind_Ok in E as (? & ? & E1%narrows_budget & E2%value_rec_strict). lia.
  - unfold zlen. rewrite Nat2Z.id. eapply mirrors_then; [|done]. apply mirrors_fields, Forall_forall.
    intros f Hin. destruct (Hv f Hin) as [Hs Ho]. split; [done|]. eexists. split; [apply encode_value_at_eq|].
    by apply (IH f Hin); [apply Hf|].
Qed.

Lemma value_mirrors_all v : value_mirrors v.
Proof.
  apply (Value.ind value_mirrors value_mirrors_list value_mirrors_record scalar_mirrors).
Qed.

(** Decoding what the encoder wrote, at any place of a payload. *)
Lemma mirrors_value v depth :
  value_ok v -> mirrors (encode_value_at v depth) (decode_value_at depth) v.
Proof.
  intros Hv s s' E.
  destruct (value_mirrors_at v (value_size v) depth (value_mirrors_all v) ltac:(lia) Hv _ _ E)
    as (out & b & Hs & L & F & D).
  exists out, b. split; [done|]. split; [done|]. split; [done|]. intros rest.
  pose proof (rec_loop (value_size v) depth (Decoder.mk (out ++ rest) (Encoder.budget s))) as R.
  by rewrite D in R.
Qed.
End Values.
