(* ===== verification/ValueCanonical.v ===== *)
(** Every accepted value encoding is the one the encoder writes (selene-core,
    logical/value.rs). *)

From S2P Require Import Prelude Errors Wire Value ValueCodec ValueLoop ValueRoundtrip.
From coqutil Require Import Byte.

(** ** Tagged alternatives *)

(** The decoder of one alternative: its tag, then its payload. *)
Definition alternative {A} (tag : Z) (d : Decoder.M A) : Decoder.M A :=
  do t <- Decoder.u8;
  if t =? tag then d else throw (E_Unsupported "value tag").

Lemma canonical_alternatives {A} (arm : Z -> Decoder.M A) e :
  (forall tag, canonical (alternative tag (arm tag)) e) -> canonical (bind Decoder.u8 arm) e.
Proof.
  intros C t t' a D. apply bind_Ok in D as (tag & t1 & D1 & D2).
  apply (C tag). unfold alternative. rewrite (bind_step _ _ _ _ _ D1), Z.eqb_refl. done.
Qed.

Lemma alternative_Ok {A} tag (d : Decoder.M A) t a t' :
  alternative tag d t = (Ok a, t') -> exists t1, Decoder.u8 t = (Ok tag, t1) /\ d t1 = (Ok a, t').
Proof.
  unfold alternative. intros D. apply bind_Ok in D as (x & t1 & D1 & D2).
  destruct (Z.eqb_spec x tag) as [->|]; [eauto|by apply throw_Ok in D2].
Qed.

Lemma canonical_alternative {A} tag (d : Decoder.M A) payload e :
  canonical d payload ->
  (forall t t' a, d t = (Ok a, t') -> forall s, e a s = (Encoder.u8 tag ;; payload a) s) ->
  canonical (alternative tag d) e.
Proof.
  intros C X. apply (canonical_bind _ _ Encoder.u8 (fun _ => payload) canonical_u8).
  - intros x. destruct (x =? tag); [done|apply canonical_throw].
  - intros t0 x t b t' _ D. destruct (Z.eqb_spec x tag) as [->|]; [by eapply X|by apply throw_Ok in D].
Qed.

Section Canonical.
Context `{Leaves} `{!DecimalLaws} `{!SpanLaws}.

(** *** Numbers *)

Lemma u64_range t v t' : Decoder.u64 t = (Ok v, t') -> is_u64 v.
Proof.
  unfold Decoder.u64. intros E. run_inv. apply dec_take_Ok in Hrun as (_ & _ & Hz).
  specialize (Hz ltac:(lia)). apply of_le_u64. unfold zlen in Hz. lia.
Qed.

Lemma take_length n t b t' : 0 <= n -> Decoder.take n t = (Ok b, t') -> length b = Z.to_nat n.
Proof. intros Hn (_ & _ & Hz)%dec_take_Ok. specialize (Hz Hn). unfold zlen in Hz. lia. Qed.

Lemma canonical_i64 : canonical (do v <- Decoder.u64; ret (Value.Int (to_signed 64 v)))
  (fun v => match v with Value.Int v => Encoder.fixed (to_le 8 (of_signed 64 v)) | _ => throw E_Semantic end).
Proof.
  apply (canonical_then _ _ _ _ canonical_u64). intros t0 v t b t' D E. run_inv. split; [done|].
  intros s. apply u64_range in D. rewrite of_to_signed; [done|lia|]. unfold is_u64, u64_max in D. lia.
Qed.

Lemma le16_range b : length b = 16%nat -> 0 <= of_le b < 2 ^ 128.
Proof. intros Hb. pose proof (of_le_range b) as R. rewrite Hb in R. exact R. Qed.

Lemma canonical_i128 : canonical (do b <- Decoder.take 16; ret (Value.Int128 (to_signed 128 (of_le b))))
  (fun v => match v with Value.Int128 v => Encoder.fixed (to_le 16 (of_signed 128 v)) | _ => throw E_Semantic end).
Proof.
  apply (canonical_then _ _ _ _ (canonical_take 16 ltac:(lia))). intros t0 b t v t' D E. run_inv. split; [done|].
  intros s. apply take_length in D; [|lia]. pose proof (le16_range b D).
  rewrite of_to_signed, to_of_le by (lia || done). done.
Qed.

Lemma canonical_u128 : canonical (do b <- Decoder.take 16; ret (Value.Uint128 (of_le b)))
  (fun v => match v with Value.Uint128 v => Encoder.fixed (to_le 16 v) | _ => throw E_Semantic end).
Proof.
  apply (canonical_then _ _ _ _ (canonical_take 16 ltac:(lia))). intros t0 b t v t' D E. run_inv. split; [done|].
  intros s. apply take_length in D; [|lia]. by rewrite to_of_le.
Qed.

Lemma canonical_decimal : canonical decimal_value
  (fun v => match v with Value.Decimal_ d => Encoder.fixed (decimal_serialize d) | _ => throw E_Semantic end).
Proof.
  apply (canonical_then _ _ _ _ (canonical_take 16 ltac:(lia))). intros t0 b t v t' D E. run_inv. split; [done|].
  intros s. apply take_length in D; [|lia]. bool_inv. by rewrite decimal_to_bytes.
Qed.

Lemma canonical_name : canonical decode_name Encoder.text.
Proof.
  apply (canonical_then _ _ _ _ canonical_text). intros t0 b t v t' D E. unfold db_string in E.
  run_inv. by destruct (_ <? _); [|injection E as <-].
Qed.

(** *** Spans *)

Lemma span_units_get units s t v t' :
  NoDup units -> span_units units s t = (Ok v, t') ->
  forall u, u ∉ units -> span_get u v = span_get u s.
Proof.
  revert s t. induction units as [|x units IH]; intros s t Hn E u Hu; cbn [span_units] in E; [by run_inv|].
  apply NoDup_cons in Hn as [Hx Hn]. run_inv. apply ok_or_Ok in Hrun1. cbv zeta in *.
  rewrite (IH _ _ Hn E u) by set_solver. destruct (span_try_get _ _ _ _ Hrun1) as [_ G].
  { apply andb_false_iff in Hrun0 as [[Z0|Z0]%andb_false_iff|Z0]; bool_inv; auto. }
  apply G. set_solver.
Qed.

Lemma canonical_span_units units s :
  NoDup units ->
  canonical (span_units units s)
    (fun v => for_each (fun u => Encoder.fixed (to_le 8 (of_signed 64 (span_get u v)))) units).
Proof.
  revert s. induction units as [|x units IH]; intros s Hn; cbn [span_units for_each].
  { eapply canonical_ext; [apply canonical_ret|]. done. }
  pose proof Hn as [Hx Hn']%NoDup_cons.
  apply (canonical_bind _ _ Encoder.u64 (fun _ v =>
    for_each (fun u => Encoder.fixed (to_le 8 (of_signed 64 (span_get u v)))) units) canonical_u64).
  - intros raw t t' v E. run_inv. by eapply IH.
  - intros t0 raw t v t' D E s0. apply u64_range in D. run_inv. apply ok_or_Ok in Hrun0. cbv zeta in *.
    rewrite (span_units_get _ _ _ _ _ Hn' E x Hx). destruct (span_try_get _ _ _ _ Hrun0) as [-> _].
    { apply andb_false_iff in Hrun as [[Z0|Z0]%andb_false_iff|Z0]; bool_inv; auto. }
    rewrite of_to_signed; [done|lia|]. unfold is_u64, u64_max in D. lia.
Qed.

(** *** Vectors and text *)

Lemma words_to_le n b : length b = (4 * n)%nat -> concat (map (to_le 4) (words n b)) = b.
Proof.
  revert b. induction n as [|n IH]; intros b Hb; cbn [words map concat]; [by destruct b|].
  rewrite IH by (rewrite length_drop; lia). rewrite to_of_le by (rewrite length_take; lia). apply take_drop.
Qed.

Lemma words_length n b : length (words n b) = n.
Proof. revert b. induction n as [|n IH]; intros b; cbn; [done|]. by rewrite IH. Qed.

Lemma for_each_u32_step cs s :
  Encoder.length s + zlen (concat (map (to_le 4) cs)) <= byte_limit (Encoder.budget s) ->
  Encoder.length s + zlen (concat (map (to_le 4) cs)) <= u64_max ->
  for_each Encoder.u32 cs s = (Ok tt, after s (concat (map (to_le 4) cs)) (Encoder.budget s)).
Proof.
  revert s. induction cs as [|c cs IH]; intros s Hl Hu; cbn [for_each map concat] in *.
  { unfold ret. by rewrite after_nil. }
  rewrite zlen_app in *. pose proof (zlen_nonneg (concat (map (to_le 4) cs))).
  unfold Encoder.u32 at 1. rewrite (bind_step _ _ _ _ _ (enc_fixed_step (to_le 4 c) s ltac:(lia) ltac:(lia))).
  rewrite IH, after_after; [done|cbn; lia..].
Qed.

Lemma canonical_words n : 0 <= n ->
  canonical (do b <- Decoder.take (n * 4); ret (words (Z.to_nat n) b)) (for_each Encoder.u32).
Proof.
  intros Hn t t' cs D. run_inv. apply dec_take_Ok in Hrun as (Hb & Hbu & Hz). specialize (Hz ltac:(lia)).
  exists a. rewrite Hbu. split; [done|]. split; [done|]. intros s' Hs P0 Hl Hu.
  assert (W : concat (map (to_le 4) (words (Z.to_nat n) a)) = a) by (apply words_to_le; unfold zlen in Hz; lia).
  rewrite for_each_u32_step; rewrite W; [by rewrite Hs|rewrite Hs; lia|lia].
Qed.

Definition vector_payload (v : Value) : Encoder.M unit :=
  match v with
  | Value.Vector cs =>
      Encoder.on_budget (Budget.charge (zlen cs) (zlen cs * 16)) ;;
      Encoder.u32 (zlen cs) ;; for_each Encoder.u32 cs
  | _ => throw E_Semantic
  end.

Lemma vector_new_Some cs v : vector_new cs = Some v -> v = cs.
Proof. unfold vector_new. destruct (_ || _); [done|]. by intros [= <-]. Qed.

Lemma fixed_after_charge n a b e s s' :
  (Encoder.fixed b ;; Encoder.on_budget (Budget.charge n a) ;; e) s = (Ok tt, s') ->
  (Encoder.on_budget (Budget.charge n a) ;; Encoder.fixed b ;; e) s = (Ok tt, s').
Proof.
  intros E. wire_inv. cbn in *. pose proof Hm as [Hb _]%charge_Ok.
  rewrite (bind_step _ _ _ _ _ (enc_budget_step _ s _ _ Hm)).
  assert (Z0 : zlen (@nil byte) = 0) by done.
  erewrite bind_step; [|apply enc_fixed_step; subst; cbn; rewrite Z0; lia].
  rewrite after_after, app_nil_r in E. by rewrite after_after, app_nil_l.
Qed.

Lemma canonical_vector : canonical vector_value vector_payload.
Proof.
  apply canonical_impl with (e := fun v => match v with
    | Value.Vector cs => Encoder.u32 (zlen cs) ;;
        Encoder.on_budget (Budget.charge (zlen cs) (zlen cs * 16)) ;; for_each Encoder.u32 cs
    | _ => throw E_Semantic end).
  2: { intros t t' v D. unfold vector_value in D. run_inv. intros s4 s' _ E. by apply fixed_after_charge. }
  unfold vector_value.
  apply (canonical_bind _ _ Encoder.u32 (fun n v => match v with
    | Value.Vector cs => Encoder.on_budget (Budget.charge n (n * 16)) ;; for_each Encoder.u32 cs
    | _ => throw E_Semantic end) canonical_u32).
  - intros n t t' v D. apply bind_Ok in D as ([] & t1 & [Hn <-]%fail_if_Ok & D). bool_inv.
    revert t t' v D. eapply canonical_bind with (e2 := fun _ v => match v with
      | Value.Vector cs => for_each Encoder.u32 cs | _ => throw E_Semantic end);
      [apply canonical_budget, charge_keeps| |].
    + intros [] t t' v D. apply bind_Ok in D as (b & t1 & Hb & D). run_inv.
      apply ok_or_Ok, vector_new_Some in Hrun as ->.
      apply (canonical_words n); [lia|]. rewrite (bind_step _ _ _ _ _ Hb). done.
    + intros t0 [] t v t' _ D s. run_inv. done.
  - intros t0 n t v t' D E s. apply dec_u32_Ok in D as (_ & _ & Hn0 & _). run_inv.
    apply ok_or_Ok, vector_new_Some in Hrun2 as ->.
    assert (Hl : zlen (words (Z.to_nat n) a1) = n) by (unfold zlen; rewrite words_length; lia).
    by rewrite Hl.
Qed.

Lemma canonical_temporal {T} `{TextCodec T} tag (make : T -> Value) e :
  (forall v, e (make v) = temporal tag v) ->
  canonical (alternative tag (temporal_value make)) e.
Proof.
  intros He t t' x (t1 & D1 & D2)%alternative_Ok. unfold temporal_value in D2.
  apply bind_Ok in D2 as (text & t2 & D2 & D3). run_inv. unfold parse_temporal in Hrun.
  ok_step. ok_step. ok_step. ok_step. bool_inv. subst text.
  assert (C : canonical (alternative tag Decoder.text) (fun v => Encoder.u8 tag ;; Encoder.text v)).
  { eapply canonical_alternative; [apply canonical_text|done]. }
  destruct (C t t2 (display a)) as (out & Hb & Hl & F).
  { unfold alternative. by rewrite (bind_step _ _ _ _ _ D1), Z.eqb_refl. }
  exists out. split; [done|]. split; [done|]. intros s Hs P0 P1 P2. rewrite He. unfold temporal.
  erewrite bind_step; [by apply F|]. unfold of_result.
  rewrite (proj2 (buffer_fill_Some 512 (fmt_chunks a) (display a) ltac:(lia))); [done|]. done.
Qed.

(** A charge may be made before the field it follows; then the JSON limit of the
    budget admits the text. *)
Lemma blob_after_charge n a tag v s s' :
  0 <= n -> 0 <= a ->
  (Encoder.u8 tag ;; Encoder.blob v ;; Encoder.on_budget (Budget.charge n a)) s = (Ok tt, s') ->
  (Encoder.on_budget (Budget.charge n a) ;; Encoder.u8 tag ;; Encoder.blob v) s = (Ok tt, s') /\
  Encoder.length s + zlen v <= byte_limit (Encoder.budget s) /\
  Budget.items (Encoder.budget s) + n <= Limits.items (Budget.limits (Encoder.budget s)) /\
  Budget.allocation (Encoder.budget s) + zlen v * 8 + a <= Limits.allocation (Budget.limits (Encoder.budget s)).
Proof.
  intros Hn Ha E. unfold Encoder.blob, Encoder.u8, Encoder.u32 in *. wire_inv. cbn in *.
  match goal with X : checked_mul _ _ = Some _ |- _ => rename X into Hc end.
  pose proof Hc as [-> _]%checked_mul_Some. pose proof (zlen_nonneg v).
  match goal with X : Budget.charge n a _ = (Ok _, ?x) |- _ => rename X into C2; rename x into b2 end.
  match goal with X : Budget.charge 0 _ _ = (Ok _, ?x) |- _ => rename X into C1; rename x into b1 end.
  destruct (charge_swap 0 (zlen v * 8) n a _ _ _ _ _ Hn Ha C1 C2 ltac:(lia) ltac:(lia)) as (b0 & D1 & D2).
  assert (Z0 : zlen (@nil byte) = 0) by done. assert (Z1 : zlen [byte.of_Z tag] = 1) by done.
  assert (Z4 : zlen (to_le 4 (zlen v)) = 4) by (unfold zlen; by rewrite length_to_le).
  assert (K1 : byte_limit b1 = byte_limit (Encoder.budget s)) by (apply charge_Ok in C1 as [-> _]; done).
  assert (K0 : byte_limit b0 = byte_limit (Encoder.budget s)) by (apply charge_Ok in D1 as [-> _]; done).
  assert (K2 : byte_limit b2 = byte_limit (Encoder.budget s)) by (apply charge_Ok in D2 as [-> _]; cbn; done).
  rewrite Z0, Z1, Z4, K1 in *.
  pose proof C1 as (-> & _ & _ & ? & ?)%charge_Ok. pose proof C2 as (_ & _ & _ & ? & ?)%charge_Ok. cbn in *.
  split; [|lia].
  rewrite (bind_step _ _ _ _ _ (enc_budget_step _ s _ _ D1)).
  erewrite bind_step; [|apply enc_fixed_step; cbn; rewrite ?K0, ?Z0, ?Z1; lia].
  unfold bind, of_result. rewrite Hc. cbn [ok_or].
  erewrite enc_budget_step by exact D2. rewrite try_u32_step by done.
  rewrite enc_fixed_step; [|cbn; rewrite ?K2, ?Z0, ?Z1, ?Z4; lia..].
  rewrite enc_fixed_step; [|cbn; rewrite ?K2, ?Z0, ?Z1, ?Z4; lia..].
  rewrite !after_after. do 2 f_equal. by rewrite ?app_nil_r, ?app_nil_l, <- ?app_assoc.
Qed.

Lemma canonical_json (e : Value -> Encoder.M unit) :
  (forall v, e (Value.Json v) = encode_json v) -> canonical (alternative 15 json_value) e.
Proof.
  intros He. apply canonical_impl with (e := fun v => match v with
    | Value.Json j => Encoder.u8 15 ;; Encoder.blob (display j) ;;
        Encoder.on_budget (Budget.charge (zlen (display j)) (zlen (display j) * 128))
    | _ => throw E_Semantic end).
  - apply canonical_alternative with (payload := fun v => match v with
      | Value.Json j => Encoder.blob (display j) ;;
          Encoder.on_budget (Budget.charge (zlen (display j)) (zlen (display j) * 128))
      | _ => throw E_Semantic end).
    + unfold json_value. apply (canonical_bind _ _ Encoder.text (fun text _ =>
        Encoder.on_budget (Budget.charge (zlen text) (zlen text * 128))) canonical_text).
      * intros text t t' v D. apply bind_Ok in D as (alloc & t1 & [Hm <-]%of_result_Ok & D).
        apply ok_or_Ok, checked_mul_Some in Hm as [-> _]. revert t t' v D.
        eapply canonical_then; [apply canonical_budget, charge_keeps|]. intros. by run_inv.
      * intros t0 text t v t' _ D s. run_inv. bool_inv. by subst.
    + intros t t' v D s. unfold json_value in D. by run_inv.
  - intros t t' v (t1 & _ & D)%alternative_Ok. unfold json_value in D. run_inv. intros s4 s' Hl E.
    rewrite He. rename a2 into j. apply negb_false_iff, bool_decide_eq_true in Hrun3. subst a.
    apply ok_or_Ok in Hrun0. pose proof (zlen_nonneg (display j)).
    apply blob_after_charge in E as (E & L1 & L2 & L3); [|lia..].
    assert (Hj : zlen (display j) <= Budget.json_limit (Encoder.budget s4)).
    { unfold Budget.json_limit, saturating_sub. apply Z.min_glb; [lia|]. apply Z.div_le_lower_bound; lia. }
    unfold encode_json. erewrite bind_step by (by apply enc_budget_step). rewrite after_nil.
    erewrite bind_step.
    2: { unfold of_result. 
       by rewrite (proj2 (buffer_fill_Some (Budget.json_limit (Encoder.budget s4)) (fmt_chunks j)
         (display j) ltac:(lia)) (conj eq_refl Hj)). }
    pose proof Hrun0 as [Ha _]%checked_mul_Some. subst a0.
    erewrite bind_step by (unfold of_result; by rewrite Hrun0). exact E.
Qed.

(** ** Containers *)

Lemma depth_last d e1 e2 (X : forall s s', e1 s = (Ok tt, s') ->
    Budget.limits (Encoder.budget s') = Budget.limits (Encoder.budget s)) s s' :
  (Encoder.on_budget (Budget.depth d) ;; (e1 ;; e2)) s = (Ok tt, s') ->
  (e1 ;; (Encoder.on_budget (Budget.depth d) ;; e2)) s = (Ok tt, s').
Proof.
  intros E. apply bind_Ok in E as ([] & s1 & E1 & ([] & s2 & E2 & E)%bind_Ok).
  apply enc_budget_Ok in E1 as (b & D & ->). unfold Budget.depth in D.
  destruct (_ <? _) eqn:L; [done|]. injection D as <-. rewrite after_nil in E2.
  rewrite (bind_step _ _ _ _ _ E2). rewrite <- (X _ _ E2) in L.
  erewrite bind_step by (apply enc_budget_step; unfold Budget.depth; by rewrite L). by rewrite after_nil.
Qed.

Lemma canonical_fields depth enc dec n names :
  (exists body, (forall v, enc v = (Encoder.on_budget (Budget.depth depth) ;; body v)) /\ canonical dec body) ->
  canonical (fields_rec depth dec n names) (encode_fields enc names).
Proof.
  intros (body & Hb & C). revert names. induction n as [|n IH]; intros names.
  { eapply canonical_ext; [apply canonical_ret|]. intros t t' a D. cbn in D. by run_inv. }
  rewrite fields_rec_S.
  apply canonical_impl with (e := fun fs => match fs with
    | [] => throw E_Semantic
    | (name, v) :: fs => Encoder.on_budget (Budget.depth depth) ;;
        (Encoder.text name ;; (body v ;; encode_fields enc (name :: names) fs))
    end).
  - eapply (canonical_bind _ _ (fun _ => Encoder.on_budget (Budget.depth depth)) (fun _ fs => match fs with
      | [] => throw E_Semantic
      | (name, v) :: fs => Encoder.text name ;; (body v ;; encode_fields enc (name :: names) fs) end));
      [apply canonical_budget, depth_keeps| |].
    + intros []. eapply (canonical_bind _ _ Encoder.text (fun name fs => match fs with
        | [] => throw E_Semantic
        | (_, v) :: fs => body v ;; encode_fields enc (name :: names) fs end) canonical_name).
      * intros name t t' fs D. apply bind_Ok in D as ([] & t1 & [_ <-]%fail_if_Ok & D). revert t t' fs D.
        eapply (canonical_bind _ _ body (fun _ fs => encode_fields enc (name :: names) (tail fs)) C).
        -- intros v. eapply canonical_then; [apply IH|]. intros. by run_inv.
        -- intros t0 v t fs t' _ D s. run_inv. done.
      * intros t0 name t fs t' _ D s. run_inv. done.
    + intros t0 [] t fs t' _ D s. run_inv. done.
  - intros t t' fs D. run_inv. intros s4 s' _ E. cbn [encode_fields]. rewrite Hb.
    match goal with X : bool_decide _ = false |- _ => rewrite X end. unfold fail_if, bind at 1, ret at 1.
    rewrite (bind_ext _ _ (fun _ => Encoder.on_budget (Budget.depth depth) ;;
      (body a2 ;; encode_fields enc (a0 :: names) a3))) by (intros; apply bind_assoc).
    apply depth_last; [|exact E]. intros x x' Hx. unfold Encoder.text in Hx.
    eapply mirrors_limits; [apply mirrors_blob|exact Hx].
Qed.

Lemma fields_rec_length depth dec n names t fs t' :
  fields_rec depth dec n names t = (Ok fs, t') -> length fs = n.
Proof.
  revert names t fs. induction n as [|n IH]; intros names t fs D; [cbn in D; by run_inv|].
  rewrite fields_rec_S in D. run_inv. cbn. f_equal. by eapply IH.
Qed.

(** The scalar alternatives. *)
Lemma scalar_tags tag :
  tag ∈ [0; 1; 2; 3; 4; 5; 6; 7; 8; 9; 10; 13; 14; 15; 16; 17; 18; 19; 20; 21] \/
  scalar_value tag = throw (E_Unsupported "value tag").
Proof. unfold scalar_value. repeat case_match; subst; first [by right | left; set_solver]. Qed.

Lemma canonical_none {A} tag err (e : A -> Encoder.M unit) : canonical (alternative tag (throw err)) e.
Proof. intros t t' a (? & _ & E)%alternative_Ok. by apply throw_Ok in E. Qed.

(** An alternative whose payload is [p], by the lemma [L] about its fields. *)
Ltac wrapped p L :=
  apply canonical_alternative with (payload := p);
  [eapply canonical_then; [apply L|intros; by run_inv]|intros ? ? ? ? ?; by run_inv].
Ltac direct L :=
  eapply canonical_alternative; [apply L|intros ? ? ? ? ?; unfold decimal_value, vector_value in *; by run_inv].

Lemma canonical_scalar enc tag : canonical (alternative tag (scalar_value tag)) (encode_arm enc).
Proof.
  destruct (scalar_tags tag) as [Hin| ->]; [|apply canonical_none].
  repeat (apply elem_of_cons in Hin as [->|Hin]); cbn [scalar_value]; [..|by apply not_elem_of_nil in Hin].
  - apply canonical_alternative with (payload := fun _ => ret tt); [apply canonical_ret|].
    intros t t' a D s. run_inv. symmetry. apply bind_ret_unit.
  - wrapped (fun v => match v with Value.Bool b => Encoder.boolean b | _ => throw E_Semantic end) canonical_boolean.
  - direct canonical_i64.
  - wrapped (fun v => match v with Value.Uint v => Encoder.u64 v | _ => throw E_Semantic end) canonical_u64.
  - direct canonical_i128.
  - direct canonical_u128.
  - wrapped (fun v => match v with Value.Float v => Encoder.u64 v | _ => throw E_Semantic end) canonical_u64.
  - wrapped (fun v => match v with Value.Float32 v => Encoder.u32 v | _ => throw E_Semantic end) canonical_u32.
  - direct canonical_decimal.
  - wrapped (fun v => match v with Value.String v => Encoder.text v | _ => throw E_Semantic end) canonical_name.
  - wrapped (fun v => match v with Value.Bytes v => Encoder.blob v | _ => throw E_Semantic end) canonical_blob.
  - wrapped (fun v => match v with Value.Uuid v => Encoder.fixed v | _ => throw E_Semantic end)
      (canonical_take 16 ltac:(lia)).
  - direct canonical_vector.
  - by apply canonical_json.
  - by apply canonical_temporal.
  - by apply canonical_temporal.
  - by apply canonical_temporal.
  - by apply canonical_temporal.
  - by apply canonical_temporal.
  - wrapped (fun v => match v with Value.Duration v =>
        for_each (fun u => Encoder.fixed (to_le 8 (of_signed 64 (span_get u v)))) (seq 0 10)
      | _ => throw E_Semantic end) (canonical_span_units (seq 0 10) span_new (NoDup_seq 0 10)).
Qed.

Definition value_body (depth : Z) (v : Value) : Encoder.M unit :=
  Encoder.on_budget (Budget.charge 1 128) ;; encode_arm (fun v => encode_value_at v (depth + 1)) v.

Lemma canonical_value_rec fuel depth : canonical (value_rec fuel depth) (value_body depth).
Proof.
  revert depth. induction fuel as [|fuel IH]; intros depth; [apply canonical_throw|]. cbn [value_rec].
  eapply (canonical_bind _ _ (fun _ => Encoder.on_budget (Budget.charge 1 128))
    (fun _ => encode_arm (fun v => encode_value_at v (depth + 1)))); [apply canonical_budget, charge_keeps| |done].
  intros []. apply canonical_alternatives. intros tag. rewrite tag_cases.
  destruct (Z.eqb_spec tag 11) as [->|_]; [|destruct (Z.eqb_spec tag 12) as [->|_]].
  - apply canonical_alternative with (payload := fun v => match v with
      | Value.List vs => Encoder.count (zlen vs) ;; for_each (fun v => encode_value_at v (depth + 1)) vs
      | _ => throw E_Semantic end); [|intros t t' v D s; by run_inv].
    eapply (canonical_bind _ _ Encoder.count (fun _ v => match v with
      | Value.List vs => for_each (fun v => encode_value_at v (depth + 1)) vs | _ => throw E_Semantic end));
      [apply canonical_count_for| |].
    + intros n. eapply canonical_then; [apply canonical_repeat|intros; by run_inv].
      eapply (canonical_bind _ _ (fun _ => Encoder.on_budget (Budget.depth (depth + 1)))
        (fun _ => value_body (depth + 1))); [apply canonical_budget, depth_keeps|intros; apply IH|].
      intros t0 x t v t' _ _ s. by rewrite encode_value_at_eq.
    + intros t0 n t v t' D%count_for_nonneg E s. run_inv. apply repeat_m_length in Hrun.
      replace n with (zlen a) by (unfold zlen; lia). done.
  - apply canonical_alternative with (payload := fun v => match v with
      | Value.Record_ fs => Encoder.count (zlen fs) ;; encode_fields (fun v => encode_value_at v (depth + 1)) [] fs
      | _ => throw E_Semantic end); [|intros t t' v D s; by run_inv].
    eapply (canonical_bind _ _ Encoder.count (fun _ v => match v with
      | Value.Record_ fs => encode_fields (fun v => encode_value_at v (depth + 1)) [] fs
      | _ => throw E_Semantic end)); [apply canonical_count_for| |].
    + intros n. eapply canonical_then; [apply canonical_fields|intros; by run_inv].
      exists (value_body (depth + 1)). split; [intros; apply encode_value_at_eq|apply IH].
    + intros t0 n t v t' D%count_for_nonneg E s. run_inv. apply fields_rec_length in Hrun.
      replace n with (zlen a) by (unfold zlen; lia). done.
  - apply canonical_scalar.
Qed.

Lemma canonical_value depth : canonical (decode_value_at depth) (fun v => encode_value_at v depth).
Proof.
  intros t t' v D. rewrite decode_value_at_rec in D. unfold decode_value_rec in D.
  assert (C : canonical (Decoder.on_budget (Budget.depth depth) ;; value_rec (S (left_over t)) depth)
    (fun v => encode_value_at v depth)); [|by apply C].
  eapply (canonical_bind _ _ (fun _ => Encoder.on_budget (Budget.depth depth)) (fun _ => value_body depth));
    [apply canonical_budget, depth_keeps|intros; apply canonical_value_rec|].
  intros t0 x t1 v1 t1' _ _ s. by rewrite encode_value_at_eq.
Qed.
End Canonical.
