(* ===== verification/ValueProps.v ===== *)
(** The properties of the value codec (selene-core: stored_value.rs,
    logical/value.rs, logical/wire.rs), with concrete payload types for the
    witnesses. *)

From Stdlib Require Import Eqdep_dec Bool.
From S2P Require Import Prelude Errors Wire Value ValueCodec ValueLoop ValueRoundtrip ValueCanonical.
From coqutil Require Import Byte.

(** ** Resources *)

Definition max_of {A} (f : A -> nat) : list A -> nat :=
  fix go l := match l with
              | [] => O
              | x :: l => Nat.max (f x) (go l)
              end.

Section Resources.
Context `{Leaves}.

(** Levels of nesting of a value. *)
Fixpoint value_depth (v : Value) : nat :=
  match v with
  | Value.List values => S (max_of value_depth values)
  | Value.Record_ fields => S (max_of (fun f => value_depth (snd f)) fields)
  | _ => 1
  end.
(** Bytes of the strings, byte strings, field names and texts in a value. *)
Fixpoint value_text (v : Value) : nat :=
  match v with
  | Value.String s | Value.Bytes s => length s
  | Value.List values => sum_of value_text values
  | Value.Record_ fields => sum_of (fun f => length (fst f) + value_text (snd f))%nat fields
  | Value.Json x => length (display x)
  | Value.Date_ x => length (display x)
  | Value.LocalTime x => length (display x)
  | Value.LocalDateTime x => length (display x)
  | Value.ZonedTime x => length (display x)
  | Value.ZonedDateTime x => length (display x)
  | _ => O
  end.

Abbreviation items_of s := (Budget.items (Encoder.budget s)).
Abbreviation memory_of s := (Budget.allocation (Encoder.budget s)).
Abbreviation limits_of s := (Budget.limits (Encoder.budget s)).

(** The counters are within their limits. *)
Definition within (s : Encoder.t) : Prop :=
  items_of s <= Limits.items (limits_of s) /\ memory_of s <= Limits.allocation (limits_of s) /\ Encoder.length s <= Limits.bytes (limits_of s).
(** [e] charges at least [n] items and [a] bytes of memory, writes at least [k]
    bytes, and leaves the counters within their limits. *)
Definition charges (n a k : Z) (e : Encoder.M unit) : Prop :=
  forall s s', e s = (Ok tt, s') ->
    items_of s + n <= items_of s' /\ memory_of s + a <= memory_of s' /\ Encoder.length s + k <= Encoder.length s' /\
    limits_of s' = limits_of s /\ (within s -> within s').

Lemma charges_bind n a k n' a' k' e1 e2 : charges n a k e1 -> charges n' a' k' e2 -> charges (n + n') (a + a') (k + k') (e1 ;; e2).
Proof.
  intros H1 H2 s s' E. apply bind_Ok in E as ([] & s1 & E1 & E2).
  apply H1 in E1 as (A1 & A2 & A3 & A4 & A5). apply H2 in E2 as (B1 & B2 & B3 & B4 & B5). rewrite A4 in B4. split_and!; [lia..|done|auto].
Qed.
Lemma charges_weaken n a k n' a' k' e : charges n a k e -> n' <= n -> a' <= a -> k' <= k -> charges n' a' k' e.
Proof. intros H1 ? ? ? s s' E. apply H1 in E as (A1 & A2 & A3 & A4). split_and!; [lia..|apply A4|apply A4]. Qed.
Lemma charges_l n a k e1 e2 : charges n a k e1 -> charges 0 0 0 e2 -> charges n a k (e1 ;; e2).
Proof. intros. eapply charges_weaken; [by apply charges_bind|lia..]. Qed.
Lemma charges_r n a k e1 e2 : charges 0 0 0 e1 -> charges n a k e2 -> charges n a k (e1 ;; e2).
Proof. intros. eapply charges_weaken; [by apply charges_bind|lia..]. Qed.

Lemma charges_fixed_len b : charges 0 0 (zlen b) (Encoder.fixed b).
Proof. intros s s' E. wire_inv. unfold within. cbn. split_and!; [lia..|done|]. intros (? & ? & ?). by split_and!. Qed.
Lemma charges_fixed b : charges 0 0 0 (Encoder.fixed b).
Proof. pose proof (zlen_nonneg b). eapply charges_weaken; [apply charges_fixed_len|lia..]. Qed.
Lemma charges_charge n a : charges n a 0 (Encoder.on_budget (Budget.charge n a)).
Proof.
  intros s s' E. wire_inv. apply charge_Ok in Hm as (-> & _ & _ & ? & ?). unfold within. cbn. change (zlen []) with 0. split_and!; [lia..|done|lia].
Qed.
Lemma charges_depth d : charges 0 0 0 (Encoder.on_budget (Budget.depth d)).
Proof.
  intros s s' E. wire_inv. unfold Budget.depth in Hm. destruct (_ <? _); [done|]. injection Hm as <-. unfold within. cbn. change (zlen []) with 0. split_and!; [lia..|done|lia].
Qed.
Lemma charges_throw n a k err : charges n a k (throw err).
Proof. intros s s' E. by run_inv. Qed.
Lemma charges_ret : charges 0 0 0 (ret tt).
Proof. intros s s' E. run_inv. by split_and!; [lia..| |]. Qed.
Lemma charges_of_result {A} n a k (r : result CodecError A) f : (forall x, r = Ok x -> charges n a k (f x)) -> charges n a k (bind (of_result r) f).
Proof. intros K s s' E. run_inv. by eapply K. Qed.
Lemma charges_fail_if n a k c err e : charges n a k e -> charges n a k (fail_if c err ;; e).
Proof. intros K s s' E. run_inv. by eapply K. Qed.
Lemma charges_count n : 0 <= n -> charges 0 0 0 (Encoder.count n).
Proof.
  intros Hn. unfold Encoder.count, Encoder.count_for. apply charges_of_result. intros a Ha%ok_or_Ok%checked_mul_Some.
  apply charges_l; [|apply charges_of_result; intros; apply charges_fixed].
  eapply charges_weaken; [apply charges_charge|lia| |lia]. destruct Ha as [-> _]. unfold saturating_mul. nia.
Qed.
Lemma charges_blob b : charges 0 (8 * zlen b) (zlen b) (Encoder.blob b).
Proof.
  unfold Encoder.blob. apply charges_of_result. intros a Ha%ok_or_Ok%checked_mul_Some. destruct Ha as [-> _].
  eapply charges_weaken; [apply charges_bind; [apply charges_charge|]|..].
  { apply charges_of_result. intros. apply charges_r; [apply charges_fixed|apply charges_fixed_len]. }
  all: lia.
Qed.
Lemma charges_each {A} (f : A -> Encoder.M unit) (g h : A -> nat) l :
  Forall (fun x => charges (Z.of_nat (g x)) (128 * Z.of_nat (g x) + 8 * Z.of_nat (h x)) (Z.of_nat (h x)) (f x)) l ->
  charges (Z.of_nat (sum_of g l)) (128 * Z.of_nat (sum_of g l) + 8 * Z.of_nat (sum_of h l)) (Z.of_nat (sum_of h l)) (for_each f l).
Proof.
  induction 1 as [|x l Hx _ IH]; cbn [for_each]; [apply charges_ret|]. rewrite !sum_of_cons. eapply charges_weaken; [by apply charges_bind|lia..].
Qed.
Lemma charges_none {A} (f : A -> Encoder.M unit) l : (forall x, charges 0 0 0 (f x)) -> charges 0 0 0 (for_each f l).
Proof. intros Hf. induction l as [|x l IH]; cbn [for_each]; [apply charges_ret|]. by apply charges_l. Qed.
(** What a value charges. *)
Definition charges_value (v : Value) (e : Encoder.M unit) : Prop :=
  charges (Z.of_nat (value_size v)) (128 * Z.of_nat (value_size v) + 8 * Z.of_nat (value_text v)) (Z.of_nat (value_text v)) e.
Lemma charges_fields enc names fields : Forall (fun f => charges_value (snd f) (enc (snd f))) fields ->
  charges (Z.of_nat (sum_of (fun f => value_size (snd f)) fields))
    (128 * Z.of_nat (sum_of (fun f => value_size (snd f)) fields) + 8 * Z.of_nat (sum_of (fun f => length (fst f) + value_text (snd f))%nat fields))
    (Z.of_nat (sum_of (fun f => length (fst f) + value_text (snd f))%nat fields)) (encode_fields enc names fields).
Proof.
  intros Hf. revert names. induction Hf as [|[name v] fields Hv _ IH]; intros names; [apply charges_ret|]. cbn [encode_fields]. apply charges_fail_if. rewrite !sum_of_cons. cbn [fst snd] in *.
  eapply charges_weaken; [apply charges_bind; [apply charges_blob|apply charges_bind; [exact Hv|apply IH]]|unfold zlen; lia..].
Qed.
Lemma charges_json v : charges 0 (8 * zlen (display v)) (zlen (display v)) (encode_json v).
Proof.
  intros s s' E. apply encode_json_fields in E as [E _]. revert s s' E. pose proof (zlen_nonneg (display v)).
  match goal with |- forall s s', ?e s = _ -> _ => change (charges 0 (8 * zlen (display v)) (zlen (display v)) e) end.
  apply charges_r; [apply charges_fixed|]. apply charges_l; [apply charges_blob|]. eapply charges_weaken; [apply charges_charge|lia..].
Qed.
Lemma charges_vector cs : charges 0 0 0 (encode_vector cs).
Proof.
  pose proof (zlen_nonneg cs). unfold encode_vector. apply charges_l; [apply charges_fixed|]. apply charges_l; [eapply charges_weaken; [apply charges_charge|lia..]|].
  apply charges_l; [apply charges_fixed|]. apply charges_none. intros. apply charges_fixed.
Qed.
Lemma charges_span v : charges 0 0 0 (encode_span v).
Proof. unfold encode_span. apply charges_l; [apply charges_fixed|]. apply charges_none. intros. apply charges_fixed. Qed.
Lemma charges_temporal {T} `{TextCodec T} tag (v : T) : charges 0 (8 * zlen (display v)) (zlen (display v)) (temporal tag v).
Proof.
  unfold temporal. apply charges_of_result. intros b Hb%ok_or_Ok%buffer_fill_concat. subst b. apply charges_r; [apply charges_fixed|apply charges_blob].
Qed.

(** Encoding a value charges an item and memory for every value nested in it, and
    memory and output for its text. *)
Lemma charges_encode v : forall depth, charges_value v (encode_value_at v depth).
Proof.
  assert (R : forall v depth n t, charges (Z.of_nat n) (128 * Z.of_nat n + 8 * Z.of_nat t) (Z.of_nat t) (encode_arm (fun v => encode_value_at v (depth + 1)) v) ->
    charges (Z.of_nat (S n)) (128 * Z.of_nat (S n) + 8 * Z.of_nat t) (Z.of_nat t) (encode_value_at v depth)).
  { intros u depth n t A. rewrite encode_value_at_eq. apply charges_r; [apply charges_depth|].
    eapply charges_weaken; [apply charges_bind; [apply charges_charge|exact A]|lia..]. }
  apply (Value.ind (fun v => forall depth, charges_value v (encode_value_at v depth))); unfold charges_value.
  - intros values IH depth. cbn [value_size value_text]. apply R. cbn [encode_arm].
    apply charges_r; [apply charges_fixed|]. apply charges_r; [apply charges_count, zlen_nonneg|]. apply charges_each. eapply Forall_impl; [exact IH|done].
  - intros fields IH depth. cbn [value_size value_text]. apply R. cbn [encode_arm].
    apply charges_r; [apply charges_fixed|]. apply charges_r; [apply charges_count, zlen_nonneg|]. apply charges_fields. eapply Forall_impl; [exact IH|]. intros f Hf. apply Hf.
  - intros u. destruct u; try exact I; intros depth; apply (R _ depth O); cbn [encode_arm value_text];
      first [apply charges_throw|apply charges_json|apply charges_vector|apply charges_span|apply charges_temporal|apply charges_fixed
            |apply charges_r; [apply charges_fixed|first [apply charges_fixed|apply charges_blob]]].
Qed.

(** What is encoded at level [d] is within the limit on depth. *)
Definition reaches_depth (d : Z) (e : Encoder.M unit) : Prop := forall s s', e s = (Ok tt, s') -> d <= Limits.depth (limits_of s).
Lemma reaches_after n a k d e1 e2 : charges n a k e1 -> reaches_depth d e2 -> reaches_depth d (e1 ;; e2).
Proof. intros H1 H2 s s' E. apply bind_Ok in E as ([] & s1 & E1 & E2). apply H1 in E1 as (_ & _ & _ & <- & _). by eapply H2. Qed.
Lemma reaches_first d e1 e2 : reaches_depth d e1 -> reaches_depth d (e1 ;; e2).
Proof. intros H1 s s' E. apply bind_Ok in E as ([] & s1 & E1 & E2). by eapply H1. Qed.
Lemma max_of_cons {A} (f : A -> nat) x l : max_of f (x :: l) = Nat.max (f x) (max_of f l).
Proof. done. Qed.
Lemma reaches_each depth values : Forall (fun v => forall depth, reaches_depth (depth + Z.of_nat (value_depth v) - 1) (encode_value_at v depth)) values ->
  values <> [] -> reaches_depth (depth + Z.of_nat (max_of value_depth values) - 1) (for_each (fun v => encode_value_at v depth) values).
Proof.
  induction 1 as [|v values Hv _ IH]; intros Hne; [done|]. cbn [for_each]. rewrite max_of_cons. intros s s' E. pose proof (reaches_first _ _ (for_each (fun v => encode_value_at v depth) values) (Hv depth) s s' E) as H1.
  destruct values as [|v' values]; [cbn [max_of]; lia|]. pose proof (reaches_after _ _ _ _ _ _ (charges_encode v depth) (IH ltac:(done)) s s' E). lia.
Qed.
Lemma reaches_fields depth names fields : Forall (fun f => forall depth, reaches_depth (depth + Z.of_nat (value_depth (snd f)) - 1) (encode_value_at (snd f) depth)) fields ->
  fields <> [] -> reaches_depth (depth + Z.of_nat (max_of (fun f => value_depth (snd f)) fields) - 1) (encode_fields (fun v => encode_value_at v depth) names fields).
Proof.
  intros HF. revert names. induction HF as [|[name v] fields Hv _ IH]; intros names Hne; [done|]. cbn [encode_fields]. rewrite max_of_cons. cbn [snd] in *. intros s s' E.
  apply bind_Ok in E as ([] & s1 & E1 & E). assert (s1 = s) as -> by (clear E; by run_inv). pose proof (reaches_after _ _ _ _ _ _ (charges_blob name) (reaches_first _ _ (encode_fields (fun v => encode_value_at v depth) (name :: names) fields) (Hv depth)) _ _ E) as H1.
  destruct fields as [|f fields]; [cbn [max_of]; lia|].
  pose proof (reaches_after _ _ _ _ _ _ (charges_blob name) (reaches_after _ _ _ _ _ _ (charges_encode v depth) (IH (name :: names) ltac:(done))) _ _ E). lia.
Qed.
Lemma reaches_value v : forall depth, reaches_depth (depth + Z.of_nat (value_depth v) - 1) (encode_value_at v depth).
Proof.
  assert (R : forall v depth, reaches_depth depth (encode_value_at v depth)).
  { intros u depth s s' E. rewrite encode_value_at_eq in E. apply bind_Ok in E as ([] & s1 & E1 & _). wire_inv. unfold Budget.depth in Hm. by destruct (Z.ltb_spec (Limits.depth (limits_of s)) depth). }
  apply (Value.ind (fun v => forall depth, reaches_depth (depth + Z.of_nat (value_depth v) - 1) (encode_value_at v depth))).
  - intros values IH depth s s' E. pose proof (R _ _ _ _ E) as H1. cbn [value_depth]. destruct values as [|v0 values]; [cbn [max_of]; lia|]. rewrite encode_value_at_eq in E.
    pose proof (reaches_after _ _ _ _ _ _ (charges_depth depth) (reaches_after _ _ _ _ _ _ (charges_charge 1 128) (reaches_after _ _ _ _ _ _ (charges_fixed _)
      (reaches_after _ _ _ _ _ _ (charges_count _ (zlen_nonneg (v0 :: values))) (reaches_each (depth + 1) _ IH ltac:(done))))) _ _ E). lia.
  - intros fields IH depth s s' E. pose proof (R _ _ _ _ E) as H1. cbn [value_depth]. destruct fields as [|f fields]; [cbn [max_of]; lia|]. rewrite encode_value_at_eq in E.
    pose proof (reaches_after _ _ _ _ _ _ (charges_depth depth) (reaches_after _ _ _ _ _ _ (charges_charge 1 128) (reaches_after _ _ _ _ _ _ (charges_fixed _)
      (reaches_after _ _ _ _ _ _ (charges_count _ (zlen_nonneg (f :: fields))) (reaches_fields (depth + 1) [] _ IH ltac:(done))))) _ _ E). lia.
  - intros u. destruct u; try exact I; intros depth s s' E; pose proof (R _ _ _ _ E); cbn [value_depth]; lia.
Qed.

Lemma encode_value_inv v limits b :
  encode_value v limits = Ok b ->
  Budget.new limits = Ok (Budget.mk limits 0 0 0) /\
  exists s, encode_value_at v 1 (Encoder.mk [] 0 true (Budget.mk limits 0 0 0)) = (Ok tt, s) /\
    Encoder.bytes s = b.
Proof.
  unfold encode_value, Encoder.new. intros E. destruct (Budget.new limits) as [b0|] eqn:N; [|done].
  apply budget_new_Ok in N as [-> _]. split; [done|].
  destruct (encode_value_at v 1 _) as [[[]|] s] eqn:E1; [|done]. injection E as <-. by exists s.
Qed.

(** An encoder never exceeds the limits it charged against. *)
Lemma encode_value_within v limits b : 0 <= Limits.items limits -> 0 <= Limits.allocation limits -> 0 <= Limits.bytes limits -> encode_value v limits = Ok b ->
  Z.of_nat (value_size v) <= Limits.items limits /\ 128 * Z.of_nat (value_size v) + 8 * Z.of_nat (value_text v) <= Limits.allocation limits /\
  Z.of_nat (value_text v) <= Limits.bytes limits /\ Z.of_nat (value_depth v) <= Limits.depth limits.
Proof.
  intros Hi Ha Hb (_ & s & E & _)%encode_value_inv. pose proof (reaches_value v 1 _ _ E) as HD. apply charges_encode in E as (A1 & A2 & A3 & A4 & A5).
  unfold within in A5. rewrite A4 in A5. cbn in *. lia.
Qed.
End Resources.

(** ** JSON that fits *)

Section Json.
Context `{Leaves}.

(** A JSON value at the top fits the limits: an item and 128 bytes for the value, an
    item and 136 bytes of memory for each byte of its text. *)
Record json_fits (v : JsonValue) (limits : Limits.t) : Prop := {
  jf_limits : Limits.validate limits = Ok limits;
  jf_depth : 1 <= Limits.depth limits;
  jf_items : 1 + zlen (display v) <= Limits.items limits;
  jf_memory : 128 + 136 * zlen (display v) <= Limits.allocation limits;
  jf_bytes : 5 + zlen (display v) <= Limits.bytes limits
}.
Lemma on_budget_step {A} (m : method Budget.t CodecError A) s a b : m (Encoder.budget s) = (Ok a, b) ->
  Encoder.on_budget m s = (Ok a, Encoder.mk (Encoder.bytes s) (Encoder.length s) (Encoder.retain s) b).
Proof. unfold Encoder.on_budget. by intros ->. Qed.
Lemma fixed_step b s : Encoder.length s + zlen b <= Limits.bytes (Budget.limits (Encoder.budget s)) -> Encoder.length s + zlen b <= u64_max ->
  Encoder.fixed b s = (Ok tt, Encoder.mk (if Encoder.retain s then Encoder.bytes s ++ b else Encoder.bytes s) (Encoder.length s + zlen b) (Encoder.retain s) (Encoder.budget s)).
Proof. intros H1 H2. unfold Encoder.fixed. rewrite (proj2 (checked_add_Some _ _ _)) by done. by rewrite (proj2 (Z.ltb_ge _ _)). Qed.
Lemma json_buffer (v : JsonValue) b :
  zlen (display v) <= Limits.bytes (Budget.limits b) -> zlen (display v) <= Limits.items (Budget.limits b) - Budget.items b ->
  136 * zlen (display v) <= Limits.allocation (Budget.limits b) - Budget.allocation b ->
  buffer_fill (Budget.json_limit b) [] (fmt_chunks v) = Some (display v).
Proof.
  intros K1 K2 K3. pose proof (zlen_nonneg (display v)).
  assert (zlen (display v) <= Budget.json_limit b).
  { unfold Budget.json_limit, saturating_sub. apply Z.min_glb; [lia|]. apply Z.div_le_lower_bound; lia. }
  apply buffer_fill_Some; [lia|done].
Qed.
Lemma json_encodes v limits : json_fits v limits -> exists b, encode_value (Value.Json v) limits = Ok b.
Proof.
  intros [HV Hd Hi Ha Hb]. pose proof (zlen_nonneg (display v)) as Hn. set (n := zlen (display v)) in *. pose proof HV as HV'. unfold Limits.validate in HV'.
  destruct (_ || _) eqn:Hc in HV'; [done|]. rewrite !orb_false_iff, !Z.ltb_ge in Hc. destruct Hc as [[[[Hc1 Hc2] Hc3] Hc4] Hc5].
  assert (Limits.bytes limits <= u32_max /\ Limits.items limits <= u64_max /\ Limits.allocation limits <= u64_max) as (K1 & K2 & K3)
    by (repeat split; (etransitivity; [eassumption|]); vm_compute; congruence).
  assert (K4 : u32_max <= u64_max) by (vm_compute; congruence).
  unfold encode_value, Encoder.new, Budget.new. rewrite HV. cbn [Encoder.budget]. rewrite encode_value_at_eq. cbn [encode_arm]. unfold encode_json, Encoder.u8, Encoder.blob, Encoder.u32.
  erewrite bind_step by (apply on_budget_step; unfold Budget.depth; cbn; by rewrite (proj2 (Z.ltb_ge _ _))).
  erewrite bind_step by (apply on_budget_step, (charge_Ok _ _ _ tt); cbn; repeat split; lia).
  erewrite bind_step by by apply on_budget_step.
  rewrite json_buffer by (cbn; lia). erewrite bind_step by done.
  fold n. rewrite (proj2 (checked_mul_Some n 128 _)) by (split; [reflexivity|lia]).
  rewrite (proj2 (checked_mul_Some n 8 _)) by (split; [reflexivity|lia]).
  cbn [ok_or]. erewrite bind_step by done.
  erewrite bind_step by (apply on_budget_step, (charge_Ok _ _ _ tt); cbn; repeat split; lia).
  erewrite bind_step by (apply fixed_step; cbn; change (zlen [byte.of_Z 15]) with 1; lia).
  erewrite bind_step by done.
  erewrite bind_step by (apply on_budget_step, (charge_Ok _ _ _ tt); cbn; repeat split; lia).
  erewrite bind_step by (unfold Encoder.try_u32; rewrite (proj2 (Z.leb_le _ _)) by lia; done).
  erewrite bind_step by (apply fixed_step; cbn; change (zlen [byte.of_Z 15]) with 1; change (zlen (to_le 4 n)) with 4; lia).
  rewrite fixed_step; cbn; change (zlen [byte.of_Z 15]) with 1; change (zlen (to_le 4 n)) with 4; fold n; [eauto|lia..].
Qed.
End Json.

(** ** Round trip and canonicity of whole payloads *)

Section Payloads.
Context `{Leaves} `{!DecimalLaws} `{!SpanLaws}.

Lemma decode_of_encode v limits b :
  0 <= Limits.bytes limits -> encode_value v limits = Ok b -> value_ok v ->
  exists budget decoder, Budget.new limits = Ok budget /\ Decoder.new b budget = Ok decoder /\
    exists b', decode_value_at 1 decoder = (Ok v, Decoder.mk [] b').
Proof.
  intros Hb (N & s & E & <-)%encode_value_inv Hv.
  destruct (mirrors_value v 1 Hv _ _ E) as (out & b' & -> & L & F & D). cbn in *.
  eexists _, _. split; [done|]. split; [|exists b'; specialize (D []); by rewrite app_nil_r in D].
  unfold Decoder.new. cbn. by rewrite (proj2 (Z.ltb_ge _ _)) by (rewrite L in F; cbn in F; lia).
Qed.

Lemma encode_of_decode v limits b :
  decode_value b limits = Ok v -> encode_value v limits = Ok b /\ storable v 1 = true.
Proof.
  unfold decode_value. intros D. destruct (Budget.new limits) as [b0|] eqn:N; [|done].
  pose proof N as [-> Hl]%budget_new_Ok. unfold Decoder.new in D. cbn in D.
  destruct (Z.ltb_spec (Limits.bytes limits) (zlen b)) as [|Hb]; [done|].
  destruct (decode_value_at 1 _) as [[v'|] t'] eqn:E; [|done].
  unfold Decoder.finish in D. destruct (Decoder.bytes t') as [|] eqn:Hn; [|done].
  destruct (validate v') as [[]|] eqn:V; [|done]. injection D as ->. apply validate_storable in V. split; [|done].
  destruct (canonical_value 1 _ _ _ E) as (out & Ho & _ & F). cbn in *. rewrite Hn, app_nil_r in Ho. subst out.
  unfold encode_value, Encoder.new. rewrite N. rewrite F; [done|done|cbn; lia|cbn; lia|].
  unfold WIRE_MAX_PAYLOAD, u64_max in *. lia.
Qed.

(** The wire fields of a JSON value, read back before the text is parsed. *)
Lemma json_fields v limits b :
  0 <= Limits.bytes limits -> encode_value (Value.Json v) limits = Ok b -> utf8_valid (display v) = true ->
  checked_mul (zlen (display v)) 128 = Some (zlen (display v) * 128) /\ zlen b <= Limits.bytes limits /\
  exists b', (Decoder.on_budget (Budget.depth 1) ;; Decoder.on_budget (Budget.charge 1 128) ;;
    do tag <- Decoder.u8; do text <- Decoder.text;
    Decoder.on_budget (Budget.charge (zlen (display v)) (zlen (display v) * 128)) ;; ret (tag, text))
    (Decoder.mk b (Budget.mk limits 0 0 0)) = (Ok (15, display v), Decoder.mk [] b').
Proof.
  intros Hb (_ & s & E & <-)%encode_value_inv U. rewrite encode_value_at_eq in E.
  apply bind_Ok in E as ([] & s1 & E1 & ([] & s2 & E2 & E)%bind_Ok). cbn [encode_arm] in E.
  apply encode_json_fields in E as [E Hm]. split; [done|].
  assert (M : mirrors (Encoder.on_budget (Budget.depth 1) ;; Encoder.on_budget (Budget.charge 1 128) ;;
      Encoder.u8 15 ;; Encoder.blob (display v) ;;
      Encoder.on_budget (Budget.charge (zlen (display v)) (zlen (display v) * 128)))
    (Decoder.on_budget (Budget.depth 1) ;; Decoder.on_budget (Budget.charge 1 128) ;;
      do tag <- Decoder.u8; do text <- Decoder.text;
      Decoder.on_budget (Budget.charge (zlen (display v)) (zlen (display v) * 128)) ;; ret (tag, text)) (15, display v)).
  { eapply mirrors_bind; [apply mirrors_budget, depth_keeps|].
    eapply mirrors_bind; [apply mirrors_budget, charge_keeps|].
    eapply mirrors_bind; [apply mirrors_u8; lia|]. eapply mirrors_bind; [apply mirrors_text, U|].
    eapply mirrors_then; [apply mirrors_budget, charge_keeps|done]. }
  destruct (M (Encoder.mk [] 0 true (Budget.mk limits 0 0 0)) s) as (out & b' & -> & L & F & D).
  { by rewrite (bind_step _ _ _ _ _ E1), (bind_step _ _ _ _ _ E2). }
  split; [rewrite L in F; cbn in *; lia|]. exists b'. specialize (D []). by rewrite app_nil_r in D.
Qed.
End Payloads.

(** ** The properties *)

(** C22: stored values round-trip.  Decoding the encoding of a stored value whose
    text leaves are stable returns the value, under the same limits. *)
Theorem decode_encode_value `{Leaves} `{!DecimalLaws} `{!SpanLaws} v limits b :
  0 <= Limits.bytes limits -> validate v = Ok tt -> value_ok v ->
  encode_value v limits = Ok b -> decode_value b limits = Ok v.
Proof.
  intros Hb V Hv E. destruct (decode_of_encode v limits b Hb E Hv) as (bu & d & N & D & b' & R).
  unfold decode_value. by rewrite N, D, R, V.
Qed.

(** C23: the value format is canonical.  Every accepted byte string is exactly
    what the encoder writes for the decoded value under the same limits, and
    the decoded value is storable; so no two byte strings decode to the same
    value. *)
Theorem decode_value_canonical `{Leaves} `{!DecimalLaws} `{!SpanLaws} v limits b :
  decode_value b limits = Ok v ->
  encode_value v limits = Ok b /\ storable v 1 = true /\
  forall b', decode_value b' limits = Ok v -> b' = b.
Proof.
  intros D. destruct (encode_of_decode _ _ _ D) as [E S]. split; [done|]. split; [done|].
  intros b' [E' _]%encode_of_decode. congruence.
Qed.

(** The decoder's loop over an explicit stack is the recursive reading of
    the format: same value or error, same remaining input, same budget, for
    every input and every nesting depth. *)
Theorem decode_value_iterative `{Leaves} depth self :
  decode_value_at depth self = decode_value_rec depth self.
Proof. apply decode_value_at_rec. Qed.

(** decoding terminates and never panics.  The loop returns within one round
    per input byte, and the record key it expects is always there. *)
Theorem value_loop_terminates `{Leaves} depth self :
  is_Some (value_loop (S (length (Decoder.bytes self))) depth [] self).
Proof. apply value_loop_total; [done|lia]. Qed.

(** C24: [StoredValue::validate] decides storability.  The traversal with an
    explicit stack accepts exactly the values of at most 256 levels without
    query-only variants, positional records and duplicate record fields. *)
Theorem validate_correct `{Leaves} v : validate v = Ok tt <-> storable v 1 = true.
Proof. apply validate_storable. Qed.

(** C25: resource ceilings hold.  A value the decoder returns, for any input, has no
    more values nested in it than the item limit and no more levels than the depth
    limit; its texts (strings, byte strings, field names, JSON and temporal texts) have
    no more bytes than the byte limit; and the memory limit covers 128 bytes for each
    value and eight for each byte of text. *)
Theorem decode_value_bounded `{Leaves} `{!DecimalLaws} `{!SpanLaws} v limits b :
  0 <= Limits.items limits -> 0 <= Limits.allocation limits -> 0 <= Limits.bytes limits -> decode_value b limits = Ok v ->
  Z.of_nat (value_size v) <= Limits.items limits /\ Z.of_nat (value_depth v) <= Limits.depth limits /\ Z.of_nat (value_text v) <= Limits.bytes limits /\
  128 * Z.of_nat (value_size v) + 8 * Z.of_nat (value_text v) <= Limits.allocation limits /\ zlen b <= Limits.bytes limits.
Proof.
  intros Hi Ha Hb D. destruct (encode_of_decode _ _ _ D) as [E _]. destruct (encode_value_within v limits b Hi Ha Hb E) as (K1 & K2 & K3 & K4). split_and!; [done..|].
  unfold decode_value in D. destruct (Budget.new limits) as [b0|] eqn:N; [|done].
  apply budget_new_Ok in N as [-> _]. unfold Decoder.new in D. cbn in D.
  by destruct (Z.ltb_spec (Limits.bytes limits) (zlen b)).
Qed.

(** C33: the encoder accepts JSON the decoder refuses.  If the text of a JSON value
    does not parse back to a value with that text (the parser of the library has
    limits of its own), and the value fits the limits, then [encode_value] writes it
    and [decode_value] fails on what was written: the defect is only found out at
    recovery. *)
Theorem decode_unstable_json `{Leaves} v limits :
  json_fits v limits -> utf8_valid (display v) = true ->
  (forall w : JsonValue, parse_text (display v) = Some w -> display w <> display v) ->
  exists b, encode_value (Value.Json v) limits = Ok b /\
    (decode_value b limits = Err E_Semantic \/ decode_value b limits = Err (E_Invalid "JSON canonical text")).
Proof.
  intros HF U X. destruct (json_encodes v limits HF) as [b E]. exists b. split; [done|].
  assert (H0 : 0 <= Limits.bytes limits) by (pose proof (zlen_nonneg (display v)); pose proof (jf_bytes _ _ HF); lia).
  destruct (json_fields _ _ _ H0 E U) as (Hm & Hl & b' & D).
  apply encode_value_inv in E as (N & _).
  apply bind_Ok in D as (? & t1 & D1 & (? & t2 & D2 & (tag & t3 & D3 & (text & t4 & D4 & D)%bind_Ok)%bind_Ok)%bind_Ok).
  apply bind_Ok in D as (? & t5 & D5 & [[= -> ->] ->]%ret_Ok).
  unfold decode_value. rewrite N. unfold Decoder.new. cbn. rewrite (proj2 (Z.ltb_ge _ _)) by done.
  rewrite decode_value_at_rec. unfold decode_value_rec. cbn [value_rec].
  rewrite (bind_step _ _ _ _ _ D1), (bind_step _ _ _ _ _ D2), (bind_step _ _ _ _ _ D3).
  cbn [scalar_value]. unfold json_value. rewrite (bind_step _ _ _ _ _ D4).
  unfold bind, of_result. rewrite Hm. cbn [ok_or]. rewrite D5.
  destruct (parse_text (display v)) as [w|]; cbn [ok_or]; [|by left].
  rewrite bool_decide_eq_false_2 by (by apply X). by right.
Qed.

(** ** Witnesses *)

Module ValueExample.

(** Decimals are their legal 16 byte forms. *)
Definition decimal_legal (b : bytes) : bool := bool_decide (length b = 16%nat) && decimal_flags_ok b.
Definition toy_decimal : Type := {b : bytes | decimal_legal b = true}.
Definition toy_zero : toy_decimal := exist _ (replicate 16 x00) eq_refl.

#[export] Instance decimal_ops : DecimalOps := {|
  Decimal := toy_decimal;
  decimal_serialize d := proj1_sig d;
  decimal_deserialize b :=
    match bool_dec (decimal_legal b) true with left H => exist _ b H | right _ => toy_zero end
|}.

#[export] Instance decimal_laws : DecimalLaws.
Proof.
  split.
  - intros [b H]. cbn. apply andb_true_iff in H as [H _]. by apply bool_decide_eq_true in H.
  - intros [b H]. cbn. by apply andb_true_iff in H as [_ H].
  - intros [b H]. cbn. destruct (bool_dec _ _) as [H'|]; [|done]. f_equal. apply UIP_dec, bool_dec.
  - intros b Hl Hf. cbn. destruct (bool_dec _ _) as [H'|H']; [done|]. exfalso. apply H'.
    unfold decimal_legal. by rewrite Hf, bool_decide_eq_true_2.
Qed.

(** Spans of at most a hundred years. *)
Definition years_legal (z : Z) : bool := (-100 <=? z) && (z <=? 100).
Definition toy_span : Type := {z : Z | years_legal z = true}.

#[export] Instance span_ops : SpanOps := {|
  Span := toy_span;
  span_new := exist _ 0 eq_refl;
  span_get u s := match u with O => proj1_sig s | _ => 0 end;
  span_try u a s :=
    match u with
    | O => match bool_dec (years_legal a) true with left H => Some (exist _ a H) | right _ => None end
    | _ => if a =? 0 then Some s else None
    end;
  span_signum s := Z.sgn (proj1_sig s)
|}.

Lemma years_bounds (s : toy_span) : -100 <= proj1_sig s <= 100.
Proof. destruct s as [z H]. cbn. unfold years_legal in H. bool_inv. lia. Qed.

#[export] Instance span_laws : SpanLaws.
Proof.
  refine {| span_limit u := match u with O => 100 | _ => 0 end |}; cbn.
  - intros [|u] s; [|unfold is_signed; lia]. pose proof (years_bounds s). unfold is_signed. lia.
  - by intros [|u].
  - intros [|u] a s Ha.
    + destruct (bool_dec _ _) as [|X]; [eauto|]. exfalso. apply X. unfold years_legal.
      apply andb_true_iff. rewrite !Z.leb_le. done.
    + replace a with 0 by lia. eauto.
  - intros [|u] a s s' T _.
    + destruct (bool_dec _ _); [|done]. injection T as <-. split; [done|]. by intros [|u'].
    + destruct (Z.eqb_spec a 0) as [->|]; [|done]. injection T as <-. done.
  - by intros [|u] s.
  - intros s Z0. by rewrite (Z0 O) by lia.
  - intros [z H] [z' H'] E. specialize (E O ltac:(lia)). cbn in E. subst z'. f_equal. apply UIP_dec, bool_dec.
Qed.

(** JSON values with a literal the parser knows and one beyond its nesting
    limit. *)
Inductive toy_json := JTrue | JDeep.

#[export] Instance toy_json_text : TextCodec toy_json := {|
  fmt_chunks v := match v with JTrue => [ascii_bytes "tr"; ascii_bytes "ue"] | JDeep => [ascii_bytes "[[]]"] end;
  parse_text b := if bool_decide (b = ascii_bytes "true") then Some JTrue else None
|}.

(** A temporal type with a single value. *)
Definition one_text (text : bytes) : TextCodec unit := {|
  fmt_chunks _ := [text];
  parse_text b := if bool_decide (b = text) then Some tt else None
|}.

#[export] Instance leaves : Leaves := {|
  JsonValue := toy_json;
  Date := unit; date_text := one_text (ascii_bytes "2024-01-01");
  Time := unit; time_text := one_text (ascii_bytes "00:00:00");
  DateTime := unit; datetime_text := one_text (ascii_bytes "2024-01-01T00:00:00");
  Zoned := unit; zoned_text := one_text (ascii_bytes "2024-01-01T00:00:00+00:00[UTC]")
|}.

Definition minus_three : toy_span := exist _ (-3) eq_refl.

Definition sample : Value := Value.Record_
  [(ascii_bytes "b", Value.List [Value.Int (-5); Value.Json (JTrue : JsonValue); Value.Record_ []]);
   (ascii_bytes "a", Value.Vector [0; 1065353216]);
   (ascii_bytes "d", Value.Duration (minus_three : Span));
   (ascii_bytes "t", Value.ZonedDateTime (tt : Zoned));
   (ascii_bytes "z", Value.Decimal_ (toy_zero : Decimal))].

Definition sample_bytes : bytes :=
  match encode_value sample Limits.default with Ok b => b | Err _ => [] end.

Lemma sample_encodes : encode_value sample Limits.default = Ok sample_bytes.
Proof. vm_compute. reflexivity. Qed.

Lemma sample_ok : value_ok sample.
Proof.
  unfold sample. cbn [value_ok all_of fst snd].
  unfold string_ok, text_stable, vector_ok, is_signed.
  repeat match goal with |- _ /\ _ => split end; try exact I;
    lazymatch goal with |- Forall _ _ => idtac | _ => vm_compute; congruence end.
  repeat apply Forall_cons_2; try apply Forall_nil_2; split; vm_compute; congruence.
Qed.

Lemma sample_decodes : decode_value sample_bytes Limits.default = Ok sample.
Proof.
  destruct (decode_of_encode sample Limits.default sample_bytes) as (bu & d & N & D & b' & R);
    [vm_compute; congruence|exact sample_encodes|exact sample_ok|].
  unfold decode_value. rewrite N, D, R. cbn [Decoder.finish Decoder.bytes].
  replace (validate sample) with (@Ok StoredValueError unit tt) by (vm_compute; reflexivity). done.
Qed.
End ValueExample.

Import ValueExample.

Lemma decode_encode_value_witness : decode_value sample_bytes Limits.default = Ok sample.
Proof.
  apply (decode_encode_value sample); [vm_compute; congruence|vm_compute; reflexivity|exact sample_ok|exact sample_encodes].
Defined.

Lemma decode_value_canonical_witness :
  encode_value sample Limits.default = Ok sample_bytes /\ storable sample 1 = true /\
  forall b', decode_value b' Limits.default = Ok sample -> b' = sample_bytes.
Proof. apply (decode_value_canonical sample). exact sample_decodes. Defined.

Lemma decode_value_bounded_witness : (value_size sample, value_depth sample, value_text sample) = (9, 3, 39)%nat /\
  Z.of_nat (value_depth sample) <= Limits.depth Limits.default /\ zlen sample_bytes <= Limits.bytes Limits.default.
Proof.
  split; [vm_compute; reflexivity|].
  destruct (decode_value_bounded sample Limits.default sample_bytes ltac:(vm_compute; congruence) ltac:(vm_compute; congruence) ltac:(vm_compute; congruence) sample_decodes) as (_ & H1 & _ & _ & H2).
  exact (conj H1 H2).
Defined.

Lemma decode_unstable_json_witness :
  exists b, encode_value (Value.Json (JDeep : JsonValue)) Limits.default = Ok b /\
    (decode_value b Limits.default = Err E_Semantic \/ decode_value b Limits.default = Err (E_Invalid "JSON canonical text")).
Proof.
  apply (@decode_unstable_json leaves JDeep Limits.default);
    [split; vm_compute; congruence|vm_compute; reflexivity|].
  intros w P. vm_compute in P. discriminate.
Defined.
