(* ===== verification/Snapshot.v ===== *)
(** Positions of the log and the snapshot envelope (logical_stream/outcome.rs,
    logical_snapshot.rs).

    [Position] is the boundary of a complete record.  The envelope is written
    with the wire encoder and read with the wire decoder of Wire.v, as in the
    source. *)

From S2P Require Import Prelude Errors Externals Identity Wire.
From coqutil Require Import Byte.

(** ** Positions *)

Module Position.
Record t := mk {
  store : StoreId.t;
  epoch : StoreEpoch.t;
  segment : bytes;
  sequence : Z;
  offset : Z;
  digest : bytes
}.

#[global] Instance eq_dec : EqDecision t.
Proof. solve_decision. Defined.

(** What the Rust types guarantee. *)
Record wf (p : t) : Prop := {
  wf_store : length (store p) = 16%nat /\ StoreId.from_bytes (store p) = Ok (store p);
  wf_epoch : 0 < epoch p <= u64_max;
  wf_segment : length (segment p) = 32%nat;
  wf_sequence : is_u64 (sequence p);
  wf_offset : is_u64 (offset p);
  wf_digest : length (digest p) = 32%nat
}.
End Position.
Abbreviation Position := Position.t.

(** [SnapshotContext]. *)
Record SnapshotContext := {
  boundary : Position;
  publication : Z
}.

#[global] Instance SnapshotContext_eq_dec : EqDecision SnapshotContext.
Proof. solve_decision. Defined.

(** ** The envelope *)

Module Snapshot.

Definition HEADER_LEN : nat := 168.
Definition OVERHEAD : Z := 168 + 40.
Definition MAGIC : bytes := ascii_bytes "SLSNP2" ++ [x00; x00].
Definition END_MARK : bytes := ascii_bytes "SLSNEND2".

(** [validate_context]. *)
Definition validate_context (context : SnapshotContext) : result CodecError unit :=
  let p := boundary context in
  refuse bool_decide (Position.segment p = zeros 32) || bool_decide (Position.digest p = zeros 32)
         || ((Position.sequence p =? 0) && negb (Position.offset p =? 0))
    with CodecError.Invalid "snapshot context";
  Ok tt.

Section Operations.
Context `{Blake3}.

(** The fields [header] encodes before its digest. *)
Definition header_fields (length : Z) (context : SnapshotContext) : Encoder.M unit :=
  let p := boundary context in
  Encoder.fixed MAGIC ;;
  Encoder.u32 2 ;;
  Encoder.u32 0 ;;
  Encoder.u64 length ;;
  Encoder.u64 (publication context) ;;
  Encoder.fixed (Position.store p) ;;
  Encoder.u64 (Position.epoch p) ;;
  Encoder.fixed (Position.segment p) ;;
  Encoder.u64 (Position.sequence p) ;;
  Encoder.u64 (Position.offset p) ;;
  Encoder.fixed (Position.digest p).

(** [header]. *)
Definition header (length : Z) (context : SnapshotContext) : result CodecError bytes :=
  let? e := Encoder.new Limits.default in
  let '(r, e) := header_fields length context e in
  let? _ := r in
  let b := Encoder.finish e in
  Ok (b ++ blake3 b).

(** [encode]. *)
Definition encode (body : bytes) (context : SnapshotContext) (limit : Z) : result CodecError bytes :=
  refuse (Limits.bytes Limits.default <? limit) || (limit <? zlen body) with CodecError.Limit;
  let? _ := validate_context context in
  let? h := header (zlen body) context in
  let? _ := ok_or (checked_add (zlen body) 40) CodecError.Limit in
  let b := h ++ body ++ END_MARK in
  Ok (b ++ blake3 b).

(** A decoder call whose error is converted by [?]. *)
Definition lift {A} (m : Decoder.M A) : method Decoder.t FrameError A := fun d =>
  let '(r, d) := m d in (map_err FrameError.Payload r, d).

(** [d.finish()?]. *)
Definition finish_decoder : method Decoder.t FrameError unit := fun d =>
  (map_err FrameError.Payload (Decoder.finish d), d).

(** The reads and checks of [required_length] on the 136 bytes of fields;
    returns the body length. *)
Definition read_fields (expected : SnapshotContext) (limit : Z) : method Decoder.t FrameError Z :=
  do magic <- lift (Decoder.take 8);
  fail_if (negb (bool_decide (magic = MAGIC))) (FrameError.Invalid "snapshot magic") ;;
  do version <- lift Decoder.u32;
  fail_if (negb (version =? 2)) (FrameError.Unsupported "snapshot version") ;;
  do reserved <- lift Decoder.u32;
  fail_if (negb (reserved =? 0)) (FrameError.Invalid "snapshot reserved") ;;
  do length <- lift Decoder.u64;
  fail_if (limit <? length) FrameError.Limit ;;
  do publication_ <- lift Decoder.u64;
  do raw <- lift (Decoder.take 16);
  do store <- of_result (map_err (fun _ => FrameError.Payload CodecError.Semantic) (StoreId.from_bytes raw));
  do number <- lift Decoder.u64;
  do epoch <- of_result (map_err (fun _ => FrameError.Payload CodecError.Semantic) (StoreEpoch.new number));
  do segment <- lift (Decoder.take 32);
  do sequence <- lift Decoder.u64;
  do offset <- lift Decoder.u64;
  do digest <- lift (Decoder.take 32);
  finish_decoder ;;
  let p := boundary expected in
  fail_if (negb (bool_decide (store = Position.store p))) FrameError.Store ;;
  fail_if (negb (epoch =? Position.epoch p)) FrameError.Epoch ;;
  fail_if (negb (bool_decide (segment = Position.segment p))) FrameError.Segment ;;
  fail_if (negb (bool_decide (digest = Position.digest p))) FrameError.Origin ;;
  fail_if (negb (sequence =? Position.sequence p) || negb (offset =? Position.offset p)
           || negb (publication_ =? publication expected)) FrameError.SnapshotBoundary ;;
  ret length.

(** [required_length]. *)
Definition required_length (b : bytes) (expected : SnapshotContext) (limit : Z) : result FrameError Z :=
  let? _ := map_err FrameError.Payload (validate_context expected) in
  refuse Limits.bytes Limits.default <? limit with FrameError.Limit;
  if (length b <? HEADER_LEN)%nat then Err FrameError.CorruptIncomplete else
  let header := take HEADER_LEN b in
  refuse negb (bool_decide (slice 0 8 header = MAGIC)) with FrameError.Invalid "snapshot magic";
  refuse negb (bool_decide (blake3 (slice 0 136 header) = slice 136 168 header))
    with FrameError.Integrity "snapshot header";
  let? budget := map_err FrameError.Payload (Budget.new Limits.default) in
  let? d := map_err FrameError.Payload (Decoder.new (slice 0 136 header) budget) in
  let? length := fst (read_fields expected limit d) in
  ok_or (checked_add length OVERHEAD) FrameError.Limit.

(** [decode]. *)
Definition decode (b : bytes) (expected : SnapshotContext) (digest : bytes) (limit : Z) :
    result FrameError bytes :=
  let? length := required_length b expected limit in
  refuse zlen b <? length with FrameError.CorruptIncomplete;
  refuse length <? zlen b with FrameError.Invalid "snapshot file length";
  let n := Z.to_nat length in
  refuse negb (bool_decide (slice (n - 40) (n - 32) b = END_MARK))
         || negb (bool_decide (slice (n - 32) n b = digest))
         || negb (bool_decide (blake3 (slice 0 (n - 32) b) = digest))
    with FrameError.Integrity "snapshot complete";
  Ok (slice HEADER_LEN (n - 40) b).
End Operations.

(** ** Layout *)

Record context_wf (c : SnapshotContext) : Prop := {
  wf_boundary : Position.wf (boundary c);
  wf_publication : is_u64 (publication c)
}.

(** The fields of a header, in order. *)
Definition fields (length : Z) (context : SnapshotContext) : list bytes :=
  let p := boundary context in
  [MAGIC; to_le 4 2; to_le 4 0; to_le 8 length; to_le 8 (publication context);
   Position.store p; to_le 8 (Position.epoch p); Position.segment p;
   to_le 8 (Position.sequence p); to_le 8 (Position.offset p); Position.digest p].

Definition fields_bytes (length : Z) (context : SnapshotContext) : bytes := concat (fields length context).

Section Layout.
Context `{Blake3Laws}.
Implicit Types c : SnapshotContext.

Lemma fields_length n c : context_wf c -> length (fields_bytes n c) = 136%nat.
Proof.
  intros [[[Hs _] _ Hg _ _ Hd] _]. unfold fields_bytes, fields. cbn [concat].
  rewrite !length_app, !length_to_le, Hs, Hg, Hd. done.
Qed.

Lemma header_fields_each n c s : header_fields n c s = for_each Encoder.fixed (fields n c) s.
Proof.
  unfold header_fields, fields, Encoder.u32, Encoder.u64. cbn [for_each].
  repeat (apply bind_ext; intros [] ?). symmetry. apply bind_ret_unit.
Qed.

Lemma header_eq n c :
  context_wf c -> header n c = Ok (fields_bytes n c ++ blake3 (fields_bytes n c)).
Proof.
  intros W. pose proof (fields_length n c W) as L. unfold header, Encoder.new.
  change (Budget.new Limits.default) with (@Ok CodecError _ (Budget.mk Limits.default 0 0 0)).
  cbn iota beta. rewrite header_fields_each, for_each_fixed_step; [done|..]; cbn -[Z.le concat fields];
    fold (fields_bytes n c); unfold zlen; rewrite L; vm_compute; congruence.
Qed.

Lemma lift_step {A} (m : Decoder.M A) d a d' : m d = (Ok a, d') -> lift m d = (Ok a, d').
Proof. unfold lift. by intros ->. Qed.

Lemma lift_Ok {A} (m : Decoder.M A) d a d' : lift m d = (Ok a, d') <-> m d = (Ok a, d').
Proof. unfold lift. destruct (m d) as [[|] ?]; cbn; split; congruence. Qed.

(** The identity checks of a header written for [c] where [expected] is selected. *)
Definition place c (expected : SnapshotContext) : result FrameError unit :=
  let p := boundary c in
  let q := boundary expected in
  refuse negb (bool_decide (Position.store p = Position.store q)) with FrameError.Store;
  refuse negb (Position.epoch p =? Position.epoch q) with FrameError.Epoch;
  refuse negb (bool_decide (Position.segment p = Position.segment q)) with FrameError.Segment;
  refuse negb (bool_decide (Position.digest p = Position.digest q)) with FrameError.Origin;
  refuse negb (Position.sequence p =? Position.sequence q) || negb (Position.offset p =? Position.offset q)
         || negb (publication c =? publication expected) with FrameError.SnapshotBoundary;
  Ok tt.

Lemma snapshot_place_refl c : place c c = Ok tt.
Proof. unfold place. by rewrite !bool_decide_eq_true_2, !Z.eqb_refl by done. Qed.

Lemma read_fields_fwd n c expected limit b :
  context_wf c -> is_u64 n -> n <= limit ->
  fst (read_fields expected limit (Decoder.mk (fields_bytes n c) b)) = (let? _ := place c expected in Ok n).
Proof.
  intros [[[Hs Hid] He Hg Hq Ho Hd] Hp] Hn Hl. unfold fields_bytes, fields. cbn [concat].
  assert (T : forall k (x rest : bytes), length x = k ->
    lift (Decoder.take (Z.of_nat k)) (Decoder.mk (x ++ rest) b) = (Ok x, Decoder.mk rest b)).
  { intros k x rest Hx. apply lift_step, dec_take_app. unfold zlen. lia. }
  assert (U : forall v rest, is_u64 v -> lift Decoder.u64 (Decoder.mk (to_le 8 v ++ rest) b) = (Ok v, Decoder.mk rest b)).
  { intros. by apply lift_step, dec_u64_app. }
  assert (Heu : is_u64 (Position.epoch (boundary c))) by (unfold is_u64; lia).
  unfold read_fields. rewrite (bind_step _ _ _ _ _ (T 8%nat MAGIC _ eq_refl)), bool_decide_eq_true_2, bind_pass by done.
  rewrite (bind_step _ _ _ _ _ (lift_step _ _ _ _ (dec_u32_app 2 _ b ltac:(by vm_compute)))). cbn [Z.eqb Pos.eqb negb].
  rewrite bind_pass, (bind_step _ _ _ _ _ (lift_step _ _ _ _ (dec_u32_app 0 _ b ltac:(by vm_compute)))). cbn [Z.eqb negb].
  rewrite bind_pass, (bind_step _ _ _ _ _ (U n _ Hn)), (proj2 (Z.ltb_ge _ _)), bind_pass by done.
  rewrite (bind_step _ _ _ _ _ (U _ _ Hp)), (bind_step _ _ _ _ _ (T 16%nat _ _ Hs)), Hid. cbn [map_err].
  rewrite bind_pure, (bind_step _ _ _ _ _ (U _ _ Heu)).
  unfold StoreEpoch.new. rewrite (proj2 (Z.eqb_neq _ 0)) by lia. cbn [map_err]. rewrite bind_pure.
  rewrite (bind_step _ _ _ _ _ (T 32%nat _ _ Hg)), (bind_step _ _ _ _ _ (U _ _ Hq)), (bind_step _ _ _ _ _ (U _ _ Ho)).
  rewrite (bind_step _ _ _ _ _ (T 32%nat _ _ Hd)).
  unfold place, finish_decoder, bind, fail_if, throw, ret. cbn.
  by repeat (case_bool_decide || destruct (_ =? _); cbn).
Qed.

(** What the accepted fields of a header are. *)
Lemma read_fields_inv expected limit t n t' :
  Position.wf (boundary expected) ->
  read_fields expected limit t = (Ok n, t') ->
  Decoder.bytes t = fields_bytes n expected /\ is_u64 n /\ n <= limit.
Proof.
  intros W. unfold read_fields. cbv zeta. intros D. run_inv.
  repeat match goal with H : lift _ _ = (Ok _, _) |- _ => apply lift_Ok in H end.
  repeat match goal with
  | H : Decoder.u64 _ = (Ok _, _) |- _ => apply dec_u64_Ok in H as (? & _ & ?)
  | H : Decoder.u32 _ = (Ok _, _) |- _ => apply dec_u32_Ok in H as (? & _ & _)
  | H : Decoder.take _ _ = (Ok _, _) |- _ => apply dec_take_Ok in H as (? & _ & _)
  end.
  apply map_err_Ok, StoreId.from_bytes_Ok in Hrun9. apply map_err_Ok in Hrun11. unfold StoreEpoch.new in Hrun11.
  unfold finish_decoder, Decoder.finish in Hrun16.
  destruct (Decoder.bytes s15) eqn:E; [|done]. ok_step. ok_step. bool_inv.
  split; [|split; [done|lia]]. unfold fields_bytes, fields. cbn [concat].
  by subst; repeat match goal with H : Decoder.bytes _ = _ |- _ => rewrite H; clear H end.
Qed.

(** *** Whole envelopes *)

Definition prefix_bytes body c : bytes :=
  let f := fields_bytes (zlen body) c in f ++ blake3 f ++ body ++ END_MARK.

Lemma encode_eq body c limit out :
  context_wf c -> encode body c limit = Ok out ->
  out = prefix_bytes body c ++ blake3 (prefix_bytes body c) /\ validate_context c = Ok tt /\
  zlen body <= limit /\ limit <= Limits.bytes Limits.default.
Proof.
  intros W E. unfold encode in E. ok_step. bool_inv. ok_step. destruct a.
  rewrite header_eq in E by done. ok_step.
  match type of E with Ok ?x = Ok _ => assert (x = out) as <- by congruence end.
  unfold prefix_bytes. cbv zeta. rewrite (app_assoc (fields_bytes _ _)). repeat split; lia || done.
Qed.

Lemma encode_fwd body c limit :
  context_wf c -> validate_context c = Ok tt -> zlen body <= limit -> limit <= Limits.bytes Limits.default ->
  encode body c limit = Ok (prefix_bytes body c ++ blake3 (prefix_bytes body c)).
Proof.
  intros W V Hb Hl. unfold encode. rewrite (proj2 (Z.ltb_ge _ _)), (proj2 (Z.ltb_ge _ _)), V, header_eq by done.
  assert (Limits.bytes Limits.default < 2 ^ 32) by (by vm_compute).
  unfold checked_add. rewrite (proj2 (Z.leb_le _ _)) by (unfold u64_max; lia).
  unfold prefix_bytes. cbv zeta. by rewrite (app_assoc (fields_bytes _ _)).
Qed.

Lemma prefix_length body c : context_wf c -> length (prefix_bytes body c) = (176 + length body)%nat.
Proof.
  intros W. unfold prefix_bytes. cbv zeta. rewrite !length_app, fields_length, blake3_length by done. cbn. lia.
Qed.

(** A header written for [c] is accepted where [expected] is selected exactly
    when its place is. *)
Lemma required_length_fwd n c expected limit rest :
  context_wf c -> validate_context expected = Ok tt -> is_u64 n -> n <= limit -> limit <= Limits.bytes Limits.default ->
  required_length (fields_bytes n c ++ blake3 (fields_bytes n c) ++ rest) expected limit =
  (let? _ := place c expected in Ok (n + OVERHEAD)).
Proof.
  intros W V Hn Hb Hl. pose proof (fields_length n c W) as Lf.
  assert (M8 : forall x, slice 0 8 (fields_bytes n c ++ x) = MAGIC).
  { intros x. unfold fields_bytes, fields. cbn [concat]. rewrite <- app_assoc. by apply slice_here. }
  pose proof (read_fields_fwd n c expected limit (Budget.mk Limits.default 0 0 0) W Hn Hb) as R.
  set (f := fields_bytes n c) in *.
  assert (HT : take HEADER_LEN (f ++ blake3 f ++ rest) = f ++ blake3 f).
  { rewrite app_assoc. apply take_app_length'. by rewrite length_app, Lf, blake3_length. }
  unfold required_length. rewrite V, (proj2 (Z.ltb_ge _ limit)) by done. cbn [map_err].
  rewrite (proj2 (Nat.ltb_ge _ _)) by (rewrite !length_app, Lf, blake3_length; unfold HEADER_LEN; lia). rewrite HT.
  rewrite M8, (slice_here 136 f), (slice_drop 136) by (done || by rewrite length_app, Lf, blake3_length).
  rewrite (drop_app_length' f) by done. rewrite !bool_decide_eq_true_2 by done.
  change (Budget.new Limits.default) with (@Ok CodecError _ (Budget.mk Limits.default 0 0 0)). cbn [map_err negb].
  unfold Decoder.new. cbn [Budget.limits]. rewrite (proj2 (Z.ltb_ge _ _)) by (unfold zlen; rewrite Lf; by vm_compute).
  cbn [map_err]. rewrite R. destruct (place c expected); [|done].
  assert (Limits.bytes Limits.default < 2 ^ 32) by (by vm_compute). unfold checked_add, OVERHEAD.
  by rewrite (proj2 (Z.leb_le _ _)) by (unfold u64_max; lia).
Qed.

(** The header of an accepted file is the one written for the selected context. *)
Lemma required_length_inv b expected limit m :
  context_wf expected -> required_length b expected limit = Ok m ->
  exists n rest, m = n + OVERHEAD /\ is_u64 n /\ n <= limit /\ limit <= Limits.bytes Limits.default /\
    validate_context expected = Ok tt /\
    b = fields_bytes n expected ++ blake3 (fields_bytes n expected) ++ rest.
Proof.
  intros W E. unfold required_length in E. ok_step. ok_step. case_match eqn:HL; [done|].
  apply Nat.ltb_ge in HL. unfold HEADER_LEN in HL. ok_step. ok_step. bool_inv. ok_step. ok_step. ok_step.
  destruct a. rewrite !slice_of_take in * by (unfold HEADER_LEN; lia).
  apply map_err_Ok in Hok, Hok1. unfold Decoder.new in Hok1. ok_step. injection Hok1 as <-.
  destruct (read_fields _ _ _) as [r t'] eqn:R. cbn [fst] in Hok2. subst r.
  apply read_fields_inv in R as (F & Hn & Hl); [|apply W]. cbn [Decoder.bytes] in F.
  unfold checked_add in E. case_match; [|done]. injection E as <-.
  exists a2, (drop 168 b). repeat split; try done; try apply Hn.
  rewrite <- F, Hif1, app_assoc, slice_join by lia. rewrite slice_take. symmetry. apply take_drop.
Qed.

Lemma envelope_slices body c dg :
  context_wf c -> length dg = 32%nat -> let n := (208 + length body)%nat in
  let out := prefix_bytes body c ++ dg in
  length out = n /\ slice (n - 40) (n - 32) out = END_MARK /\ slice (n - 32) n out = dg /\
  slice 0 (n - 32) out = prefix_bytes body c /\ slice HEADER_LEN (n - 40) out = body.
Proof.
  intros W Hd n out. pose proof (prefix_length body c W) as HP. pose proof (fields_length (zlen body) c W) as Lf.
  assert (L : length out = n) by (subst out n; rewrite length_app; lia). split; [done|].
  assert (LE : length END_MARK = 8%nat) by done.
  assert (E : out = (fields_bytes (zlen body) c ++ blake3 (fields_bytes (zlen body) c)) ++ body ++ END_MARK ++ dg).
  { subst out. unfold prefix_bytes. cbv zeta. by rewrite <- !app_assoc. }
  assert (LH : length (fields_bytes (zlen body) c ++ blake3 (fields_bytes (zlen body) c)) = 168%nat).
  { by rewrite length_app, Lf, blake3_length. }
  repeat split.
  - rewrite E, (app_assoc _ body). apply slice_mid; [rewrite length_app|]; subst n; lia.
  - subst out. rewrite (slice_drop _ _ _) by lia. apply drop_app_length'. subst n; lia.
  - subst out. apply slice_here. subst n; lia.
  - rewrite E. apply slice_mid; [done|]. unfold HEADER_LEN. subst n. lia.
Qed.

(** Decoding an envelope written for [c] where [expected] is selected. *)
Lemma decode_envelope body c expected dg limit :
  context_wf c -> validate_context expected = Ok tt -> zlen body <= limit -> limit <= Limits.bytes Limits.default ->
  let full := prefix_bytes body c in
  decode (full ++ blake3 full) expected dg limit =
  (let? _ := place c expected in
   refuse negb (bool_decide (blake3 full = dg)) with FrameError.Integrity "snapshot complete"; Ok body).
Proof.
  intros W V Hb Hl full. pose proof (zlen_nonneg body) as Hz.
  assert (Limits.bytes Limits.default < 2 ^ 32) by (by vm_compute).
  destruct (envelope_slices body c (blake3 full) W (blake3_length _)) as (L & S1 & S2 & S3 & S4).
  unfold decode. assert (R : required_length (full ++ blake3 full) expected limit =
    (let? _ := place c expected in Ok (zlen body + OVERHEAD))).
  { subst full. unfold prefix_bytes at 1. cbv zeta. rewrite <- app_assoc, <- (app_assoc (blake3 _)).
    apply required_length_fwd; try done. unfold is_u64, u64_max. lia. }
  rewrite R. destruct (place c expected) as [|]; [|done].
  assert (Hlen : zlen (full ++ blake3 full) = zlen body + OVERHEAD).
  { unfold zlen, OVERHEAD, full in *. rewrite L. lia. }
  rewrite Hlen, Z.ltb_irrefl. replace (Z.to_nat (zlen body + OVERHEAD)) with (208 + length body)%nat
    by (unfold zlen, OVERHEAD; lia).
  fold full in S1, S2, S3, S4. cbv zeta in S1, S2, S3, S4. rewrite S1, S2, S3, S4, (bool_decide_eq_true_2 (END_MARK = END_MARK)) by done.
  by case_bool_decide.
Qed.

(** An accepted file is the envelope of the returned body. *)
Lemma snapshot_decode_inv b expected dg limit body :
  context_wf expected -> decode b expected dg limit = Ok body ->
  b = prefix_bytes body expected ++ dg /\ dg = blake3 (prefix_bytes body expected) /\
  validate_context expected = Ok tt /\ zlen body <= limit /\ limit <= Limits.bytes Limits.default.
Proof.
  intros W E. unfold decode in E. ok_step. apply required_length_inv in Hok as (n & rest & -> & Hn & Hl & Hm & V & Eb); [|done].
  ok_step. ok_step. ok_step. bool_inv.
  injection E as Eb'.
  assert (LB : length b = (Z.to_nat n + 208)%nat) by (unfold zlen, OVERHEAD, is_u64 in *; lia).
  replace (Z.to_nat (n + OVERHEAD)) with (Z.to_nat n + 208)%nat in * by (unfold OVERHEAD, is_u64 in *; lia).
  assert (Hbody : zlen body = n).
  { unfold zlen. rewrite <- Eb', length_slice by (unfold HEADER_LEN; lia). unfold HEADER_LEN, is_u64 in *. lia. }
  assert (HP : slice 0 (Z.to_nat n + 208 - 32) b = prefix_bytes body expected).
  { unfold prefix_bytes. cbv zeta. rewrite Hbody.
    rewrite <- (slice_join 0 168), <- (slice_join 168 (Z.to_nat n + 208 - 40)) by lia.
    rewrite H1. unfold HEADER_LEN in Eb'. rewrite Eb', (app_assoc (fields_bytes _ _)). f_equal.
    rewrite Eb, (app_assoc (fields_bytes _ _)). apply slice_here.
    rewrite length_app, fields_length, blake3_length; done. }
  rewrite HP in H2. split; [|split; [done|split; [done|lia]]].
  rewrite <- HP, <- H3, slice_join by lia. symmetry. by apply slice_all.
Qed.

(** The header fields determine the body length and the context. *)
Lemma fields_inj n c n' c' x x' :
  context_wf c -> context_wf c' -> is_u64 n -> is_u64 n' ->
  fields_bytes n c ++ x = fields_bytes n' c' ++ x' -> n = n' /\ c = c' /\ x = x'.
Proof.
  intros W W' Hn Hn' E. pose proof (fields_length n c W) as L. pose proof (fields_length n' c' W') as L'.
  apply app_inj_1 in E as [E ->]; [|by rewrite L, L'].
  apply concat_inj in E.
  - unfold fields in E. apply list_eq_Forall2 in E. cbv zeta in E.
    repeat match goal with H : Forall2 _ (_ :: _) _ |- _ => apply Forall2_cons in H as [? H] end.
    repeat match goal with H : to_le 8 _ = to_le 8 _ |- _ =>
      apply to_le_u64_inj in H; [|destruct W as [[]], W' as [[]]; unfold is_u64 in *; (done || lia)..] end.
    split; [done|]. split; [|done]. destruct c as [[] ?], c' as [[] ?]; cbn in *; congruence.
  - destruct W as [[[? _] ? ? ? ? ?] ?], W' as [[[? _] ? ? ? ? ?] ?].
    unfold fields. cbn [map]. rewrite !length_to_le. congruence.
Qed.

Lemma prefix_inj body c body' c' :
  context_wf c -> context_wf c' -> is_u64 (zlen body) -> is_u64 (zlen body') ->
  prefix_bytes body c = prefix_bytes body' c' -> body = body' /\ c = c'.
Proof.
  intros W W' Hn Hn' E. unfold prefix_bytes in E. cbv zeta in E.
  apply fields_inj in E as (En & -> & E); try done. rewrite En in E.
  apply app_inv_head, app_inv_tail in E. done.
Qed.
End Layout.

(** ** Properties *)

(** C32: snapshots survive their envelope, and only at their own boundary.
    Reading an encoded snapshot where [expected] is selected with digest [dg]
    returns the body exactly when the store, epoch, segment, record digest,
    sequence, offset and publication are the encoded ones and [dg] is the
    file's last field; otherwise the first difference decides the error. *)
Theorem snapshot_decode_encode `{Blake3Laws} body c limit out expected dg :
  context_wf c -> encode body c limit = Ok out -> validate_context expected = Ok tt ->
  decode out expected dg limit =
  (let? _ := place c expected in
   refuse negb (bool_decide (slice (length out - 32) (length out) out = dg))
     with FrameError.Integrity "snapshot complete"; Ok body).
Proof.
  intros W E V. apply encode_eq in E as (-> & _ & Hb & Hl); [|done].
  rewrite decode_envelope by done.
  destruct (envelope_slices body c (blake3 (prefix_bytes body c)) W (blake3_length _)) as (L & _ & S2 & _).
  rewrite L, S2. done.
Qed.

(** snapshots are canonical.  The files a reader accepts for a selected
    context are exactly the encoder's outputs for that context, with the
    selected digest as last field: no byte of an accepted file is free. *)
Theorem snapshot_decode_canonical `{Blake3Laws} b expected dg limit body :
  context_wf expected ->
  decode b expected dg limit = Ok body <->
  encode body expected limit = Ok b /\ dg = slice (length b - 32) (length b) b.
Proof.
  intros W. split.
  - intros (-> & Hd & V & Hb & Hl)%snapshot_decode_inv; [|done].
    pose proof (blake3_length (prefix_bytes body expected)) as LB. rewrite <- Hd in LB.
    destruct (envelope_slices body expected dg W LB) as (L & _ & S2 & _). rewrite L, S2. split; [|done].
    rewrite (encode_fwd _ _ _ W V Hb Hl). by rewrite <- Hd.
  - intros [E ->]. pose proof E as E'. apply encode_eq in E' as (-> & V & Hb & Hl); [|done].
    rewrite decode_envelope, snapshot_place_refl by done.
    destruct (envelope_slices body expected (blake3 (prefix_bytes body expected)) W (blake3_length _)) as (L & _ & S2 & _).
    by rewrite L, S2, bool_decide_eq_true_2.
Qed.

(** The selected digest binds the snapshot.  Two files accepted under the
    same digest, at whatever boundaries, are the same file with the same body
    and the same boundary, or exhibit a BLAKE3 collision. *)
Theorem snapshot_digest_binds `{Blake3Laws} b c limit body b' c' limit' body' dg :
  context_wf c -> context_wf c' ->
  decode b c dg limit = Ok body -> decode b' c' dg limit' = Ok body' ->
  collision \/ (b = b' /\ c = c' /\ body = body').
Proof.
  intros W W' (-> & Hd & _ & Hb & Hl)%snapshot_decode_inv (-> & Hd' & _ & Hb' & Hl')%snapshot_decode_inv; try done.
  destruct (decide (prefix_bytes body c = prefix_bytes body' c')) as [E|E].
  - right. rewrite <- E. split; [done|].
    apply prefix_inj in E as [-> ->]; try done; split; try apply zlen_nonneg;
      assert (Limits.bytes Limits.default < u64_max) by (by vm_compute); lia.
  - left. exists (prefix_bytes body c), (prefix_bytes body' c'). split; congruence.
Qed.

(** ** Witnesses *)

Module Example.
#[export] Existing Instance Toy.toy_blake3.
#[export] Existing Instance Toy.toy_blake3_laws.

Definition p : Position := {|
  Position.store := replicate 6 x11 ++ [x4f; x11; x80] ++ replicate 7 x11;
  Position.epoch := 7;
  Position.segment := replicate 32 x09;
  Position.sequence := 13;
  Position.offset := 2048;
  Position.digest := replicate 32 x17 |}.

Definition c : SnapshotContext := {| boundary := p; publication := 19 |}.
Definition stale : SnapshotContext := {| boundary := p; publication := 20 |}.

Lemma snapshot_c_wf : context_wf c.
Proof. by repeat split. Qed.

Definition body : bytes := ascii_bytes "semantic image".
Definition file : bytes := prefix_bytes body c ++ blake3 (prefix_bytes body c).
Definition dg : bytes := blake3 (prefix_bytes body c).
End Example.
Import (hints) Example.

Lemma snapshot_decode_encode_witness :
  decode Example.file Example.stale Example.dg 1024 = Err FrameError.SnapshotBoundary.
Proof.
  apply (snapshot_decode_encode Example.body Example.c 1024 Example.file Example.stale Example.dg Example.snapshot_c_wf);
    vm_compute; reflexivity.
Defined.

Lemma snapshot_decode_canonical_witness :
  encode Example.body Example.c 1024 = Ok Example.file /\
  Example.dg = slice (length Example.file - 32) (length Example.file) Example.file.
Proof.
  apply (snapshot_decode_canonical Example.file Example.c Example.dg 1024 Example.body Example.snapshot_c_wf).
  vm_compute. reflexivity.
Defined.

Lemma snapshot_digest_binds_witness :
  collision \/ (Example.file = Example.file /\ Example.c = Example.c /\ Example.body = Example.body).
Proof.
  apply (snapshot_digest_binds Example.file Example.c 1024 Example.body Example.file Example.c 14 Example.body Example.dg
           Example.snapshot_c_wf Example.snapshot_c_wf); vm_compute; reflexivity.
Defined.
End Snapshot.
