(* ===== verification/Disk.v ===== *)
(** The file system under the store, and a logic for code that runs on it.

    The store calls rustix and std::fs for handle-relative file operations.
    [World] holds what those calls act on: file objects, the visible directory,
    and what of both has been synchronized.  Every native call may fail: the
    [Machine] decides, call by call, whether it succeeds, and when it does not,
    how much of its effect happened anyway.  A
    theorem that holds for every machine holds for every pattern of I/O errors;
    since calls may fail without effect from some point on, it also describes
    the disk at every instant where the process can stop.

    [crash] says what a crash may leave on disk. *)

From S2P Require Import Prelude Errors.
From coqutil Require Import Byte.

(** ** Weakest preconditions of methods *)

Section Wp.
Context {S E E' A B : Type}.

(** [Q] holds of the result and the final state of [m] run in [s]. *)
Definition wp (m : method S E A) (Q : result E A -> S -> Prop) (s : S) : Prop :=
  let '(r, s') := m s in Q r s'.

(** [m.map_err(f)]. *)
Definition map_error (f : E -> E') (m : method S E A) : method S E' A := fun s =>
  let '(r, s') := m s in (map_err f r, s').

(** Runs [m] and returns its [Result] as a value. *)
Definition attempt (m : method S E A) : method S E' (result E A) := fun s =>
  let '(r, s') := m s in (Ok r, s').

(** Runs [m] for its effect: [let _ = m;]. *)
Definition ignore (m : method S E A) : method S E' unit := fun s =>
  let '(_, s') := m s in (Ok tt, s').
End Wp.

(** Methods of an object that also act on a shared state. *)
Section Objects.
Context {O S E A : Type}.
Definition on_snd (m : method S E A) : method (O * S) E A := fun '(o, s) =>
  let '(r, s') := m s in (r, (o, s')).
Definition get : method (O * S) E O := fun s => (Ok (fst s), s).
Definition put (f : O -> O) : method (O * S) E unit := fun '(o, s) => (Ok tt, (f o, s)).
End Objects.

Section WpRules.
Context {S E A B : Type}.
Implicit Types m : method S E A.
Implicit Types Q : result E A -> S -> Prop.

Lemma wp_mono m (Q Q' : result E A -> S -> Prop) s : wp m Q s -> (forall r s', Q r s' -> Q' r s') -> wp m Q' s.
Proof. unfold wp. destruct (m s). auto. Qed.

Lemma wp_conj m (Q Q' : result E A -> S -> Prop) s : wp m Q s -> wp m Q' s -> wp m (fun r s' => Q r s' /\ Q' r s') s.
Proof. unfold wp. destruct (m s). auto. Qed.

Lemma wp_bind m (k : A -> method S E B) (Q : result E B -> S -> Prop) s :
  wp m (fun r s' => match r with Ok a => wp (k a) Q s' | Err e => Q (Err e) s' end) s ->
  wp (bind m k) Q s.
Proof. unfold wp, bind. destruct (m s) as [[a|e] s']; auto. Qed.

Lemma wp_ret a (Q : result E A -> S -> Prop) s : Q (Ok a) s -> wp (ret a) Q s.
Proof. done. Qed.
Lemma wp_throw e (Q : result E A -> S -> Prop) s : Q (Err e) s -> wp (throw e) Q s.
Proof. done. Qed.
Lemma wp_of_result (r : result E A) Q s : Q r s -> wp (of_result r) Q s.
Proof. done. Qed.

Lemma wp_run m Q s r s' : wp m Q s -> m s = (r, s') -> Q r s'.
Proof. unfold wp. intros H E'. by rewrite E' in H. Qed.

Lemma wp_if (b : bool) (m m' : method S E A) Q s :
  (b = true -> wp m Q s) -> (b = false -> wp m' Q s) -> wp (if b then m else m') Q s.
Proof. destruct b; auto. Qed.
End WpRules.

Lemma wp_fail_if {S E} (c : bool) (e : E) (Q : result E unit -> S -> Prop) s :
  (c = true -> Q (Err e) s) -> (c = false -> Q (Ok tt) s) -> wp (fail_if c e) Q s.
Proof. destruct c; cbn; auto. Qed.

Lemma wp_map_error {S E E' A} (f : E -> E') (m : method S E A) Q s :
  wp m (fun r s' => Q (map_err f r) s') s -> wp (map_error f m) Q s.
Proof. unfold wp, map_error. by destruct (m s). Qed.

Lemma wp_attempt {S E E' A} (m : method S E A) (Q : result E' _ -> S -> Prop) s :
  wp m (fun r s' => Q (Ok r) s') s -> wp (attempt m) Q s.
Proof. unfold wp, attempt. by destruct (m s). Qed.

Lemma wp_ignore {S E E' A} (m : method S E A) (Q : result E' unit -> S -> Prop) s :
  wp m (fun _ s' => Q (Ok tt) s') s -> wp (ignore m) Q s.
Proof. unfold wp, ignore. by destruct (m s). Qed.

Lemma wp_on_snd {O S E A} (m : method S E A) (Q : result E A -> O * S -> Prop) o s :
  wp m (fun r s' => Q r (o, s')) s -> wp (on_snd m) Q (o, s).
Proof. unfold wp, on_snd. by destruct (m s). Qed.

(** A loop keeps an invariant indexed by the elements not yet visited. *)
Lemma wp_for_each {S E A} (f : A -> method S E unit) (I : list A -> S -> Prop) (Q : result E unit -> S -> Prop) l s :
  I l s ->
  (forall x rest s', I (x :: rest) s' ->
     wp (f x) (fun r s'' => match r with Ok _ => I rest s'' | Err e => Q (Err e) s'' end) s') ->
  (forall s', I [] s' -> Q (Ok tt) s') ->
  wp (for_each f l) Q s.
Proof.
  intros HI Hf Hd. revert s HI. induction l as [|x l IH]; intros s HI; cbn; [by apply Hd|].
  apply wp_bind. eapply wp_mono; [by apply Hf|]. intros [[]|e] s' H; [by apply IH|done].
Qed.

Lemma wp_get {O S E} (Q : result E O -> O * S -> Prop) o s : Q (Ok o) (o, s) -> wp get Q (o, s).
Proof. done. Qed.
Lemma wp_put {O S E} (f : O -> O) (Q : result E unit -> O * S -> Prop) o s : Q (Ok tt) (f o, s) -> wp (put f) Q (o, s).
Proof. done. Qed.
(** One step of a method over an object and the world. *)
Ltac wp_step :=
  match goal with
  | |- wp (bind _ _) _ _ => apply wp_bind
  | |- wp (ret _) _ _ => apply wp_ret
  | |- wp (throw _) _ _ => apply wp_throw
  | |- wp (of_result _) _ _ => apply wp_of_result
  | |- wp (fail_if _ _) _ _ => apply wp_fail_if; intros ?
  | |- wp (on_snd _) _ _ => apply wp_on_snd
  | |- wp (map_error _ _) _ _ => apply wp_map_error
  | |- wp (attempt _) _ _ => apply wp_attempt
  | |- wp (ignore _) _ _ => apply wp_ignore
  | |- wp get _ _ => apply wp_get
  | |- wp (put _) _ _ => apply wp_put
  end; cbn beta iota.

(** ** The world *)

(** A file object.  [intact] counts the leading bytes of [data] that no write or
    truncation has touched since the last successful synchronization; [leases]
    are the shared locks held on the file, [locked] the exclusive one. *)
Record Inode := {
  data : bytes;
  intact : nat;
  dirty : bool;
  regular : bool;
  single_link : bool;
  leases : nat;
  locked : bool
}.

#[global] Instance Inode_eq_dec : EqDecision Inode.
Proof. solve_decision. Defined.

(** A directory maps names to file objects. *)
Abbreviation Directory := (gmap string nat).

(** [history] lists the directories seen since the last successful directory
    synchronization, the current one first. *)
Record World := {
  inodes : gmap nat Inode;
  names : Directory;
  history : list Directory;
  next_inode : nat;
  clock : nat
}.

Definition with_inodes (f : gmap nat Inode -> gmap nat Inode) (w : World) : World := {|
  inodes := f (inodes w); names := names w; history := history w;
  next_inode := next_inode w; clock := clock w |}.

(** A change of the directory. *)
Definition with_names (f : Directory -> Directory) (w : World) : World := {|
  inodes := inodes w; names := f (names w); history := f (names w) :: history w;
  next_inode := next_inode w; clock := clock w |}.

Definition tick (w : World) : World := {|
  inodes := inodes w; names := names w; history := history w;
  next_inode := next_inode w; clock := S (clock w) |}.

(** The file object a name refers to. *)
Definition lookup (w : World) (name : string) : option Inode := names w !! name ≫= (inodes w !!.).

(** The content of an entry. *)
Definition content (w : World) (x : string) : option bytes := data <$> lookup w x.

(** Only time has passed. *)
Definition same_disk (w w' : World) : Prop :=
  inodes w' = inodes w /\ names w' = names w /\ history w' = history w /\ next_inode w' = next_inode w.

#[export] Instance same_disk_trans : Transitive same_disk.
Proof. intros w1 w2 w3 (? & ? & ? & ?) (? & ? & ? & ?). repeat split; congruence. Qed.
#[export] Instance same_disk_refl : Reflexive same_disk.
Proof. by repeat split. Qed.

(** ** Crashes *)

(** [d] may be the content of the file after a crash. *)
Definition survives (n : Inode) (d : bytes) : Prop :=
  take (intact n) d = take (intact n) (data n) /\ (dirty n = false -> d = data n).

(** [w'] is a disk a crash in [w] may leave: every name as it was at some moment
    since the last directory synchronization, every file with its synchronized
    and untouched prefix, and no locks. *)
Definition crash (w w' : World) : Prop :=
  (forall name, exists d, d ∈ history w /\ names w' !! name = d !! name) /\
  (forall i n', inodes w' !! i = Some n' ->
     exists n, inodes w !! i = Some n /\ survives n (data n') /\ regular n' = regular n /\ single_link n' = single_link n) /\
  (forall i n, inodes w !! i = Some n -> is_Some (inodes w' !! i)) /\
  next_inode w' = next_inode w.

(** ** Native calls *)

(** [outcome n] decides native call number [n]: [Some k] when it fails although
    the entries it needs are there, after [k] units of its effect.  Such a
    failure is neither [NotFound] nor [AlreadyExists], which report the state of
    the directory.  [new_v4 n] is a random UUID drawn at that time; [readdir] is
    the order in which a directory is listed. *)
Class Machine := {
  outcome : nat -> option nat;
  new_v4 : nat -> bytes;
  readdir : Directory -> list string
}.

Class MachineLaws `{Machine} : Prop := {
  readdir_all : forall d name, name ∈ readdir d <-> is_Some (d !! name);
  new_v4_length : forall n, length (new_v4 n) = 16%nat
}.

(** An open file: its object and its cursor. *)
Record Handle := {
  inode : nat;
  cursor : nat
}.

Definition seek_to (h : Handle) (n : nat) : Handle := {| inode := inode h; cursor := n |}.

(** [b] written at offset [at_] of [d]; a gap is filled with zeros. *)
Definition write_at (d : bytes) (at_ : nat) (b : bytes) : bytes :=
  take at_ d ++ replicate (at_ - length d) x00 ++ b ++ drop (at_ + length b) d.

(** [d] cut or extended with zeros to [n] bytes. *)
Definition resize (d : bytes) (n : nat) : bytes := take n d ++ replicate (n - length d) x00.

Arguments write_at : simpl never.
Arguments resize : simpl never.

Definition modify (i : nat) (f : Inode -> Inode) : World -> World := with_inodes (alter f i).

Definition write_inode (at_ : nat) (b : bytes) (n : Inode) : Inode := {|
  data := write_at (data n) at_ b; intact := min (intact n) at_; dirty := true;
  regular := regular n; single_link := single_link n; leases := leases n; locked := locked n |}.

Definition resize_inode (size : nat) (n : Inode) : Inode := {|
  data := resize (data n) size; intact := min (intact n) size; dirty := true;
  regular := regular n; single_link := single_link n; leases := leases n; locked := locked n |}.

Definition sync_inode (n : Inode) : Inode := {|
  data := data n; intact := length (data n); dirty := false;
  regular := regular n; single_link := single_link n; leases := leases n; locked := locked n |}.

Definition lease_inode (n : Inode) : Inode := {|
  data := data n; intact := intact n; dirty := dirty n;
  regular := regular n; single_link := single_link n; leases := S (leases n); locked := locked n |}.

(** A shared lock is released. *)
Definition release_inode (n : Inode) : Inode := {|
  data := data n; intact := intact n; dirty := dirty n;
  regular := regular n; single_link := single_link n; leases := pred (leases n); locked := locked n |}.

Definition lock_inode (n : Inode) : Inode := {|
  data := data n; intact := intact n; dirty := dirty n;
  regular := regular n; single_link := single_link n; leases := leases n; locked := true |}.

Definition new_inode : Inode := {|
  data := []; intact := 0; dirty := true; regular := true; single_link := true; leases := 0; locked := false |}.

(** A fresh empty file under [name]. *)
Definition create (name : string) (w : World) : World := {|
  inodes := <[next_inode w := new_inode]> (inodes w);
  names := <[name := next_inode w]> (names w);
  history := <[name := next_inode w]> (names w) :: history w;
  next_inode := S (next_inode w);
  clock := clock w |}.

(** The directory after a rename of an entry for [i]. *)
Definition moved (from to : string) (i : nat) (d : Directory) : Directory := <[to := i]> (delete from d).

(** Metadata as [statat] and [fstat] report it (store_directory.rs). *)
Record EntryMetadata := {
  em_regular : bool;
  em_single_link : bool;
  em_len : Z
}.

Definition metadata_of (n : Inode) : EntryMetadata := {|
  em_regular := regular n; em_single_link := single_link n; em_len := zlen (data n) |}.

Section Native.
Context `{Machine}.

(** One native call: [partial k] is its effect when it fails after [k] units. *)
Definition call {A} (partial : nat -> World -> World) (m : method World IoError A) : method World IoError A :=
  fun w =>
    match outcome (clock w) with
    | Some k => (Err IoOther, partial k (tick w))
    | None => m (tick w)
    end.

Definition harmless (k : nat) (w : World) : World := w.
(** The effect is atomic, but a failed call may have had it. *)
Definition atomic (effect : World -> World) (k : nat) (w : World) : World :=
  match k with O => w | _ => effect w end.

(** [fs::statat(.., SYMLINK_NOFOLLOW)]. *)
Definition statat (name : string) : method World IoError (option EntryMetadata) :=
  call harmless (fun w => (Ok (metadata_of <$> lookup w name), w)).

(** [fs::openat], with [CREATE | EXCL] when [exclusive]. *)
Definition openat (name : string) (exclusive : bool) : method World IoError Handle := fun w =>
  call (match names w !! name with
        | None => if exclusive then atomic (create name) else harmless
        | Some _ => harmless
        end)
    (fun w =>
       match names w !! name, exclusive with
       | Some _, true => (Err IoAlreadyExists, w)
       | Some i, false => (Ok {| inode := i; cursor := 0 |}, w)
       | None, true => (Ok {| inode := next_inode w; cursor := 0 |}, create name w)
       | None, false => (Err IoNotFound, w)
       end) w.

(** [fs::renameat]; with [noreplace], [renameat_with(.., NOREPLACE)]. *)
Definition renameat (from to : string) (noreplace : bool) : method World IoError unit := fun w =>
  match names w !! from with
  | None => call harmless (throw IoNotFound) w
  | Some i =>
      if noreplace && bool_decide (is_Some (names w !! to)) then call harmless (throw IoAlreadyExists) w
      else call (atomic (with_names (moved from to i))) (fun w => (Ok tt, with_names (moved from to i) w)) w
  end.

(** [fs::unlinkat]. *)
Definition unlinkat (name : string) : method World IoError unit := fun w =>
  match names w !! name with
  | None => call harmless (throw IoNotFound) w
  | Some _ => call (atomic (with_names (delete name))) (fun w => (Ok tt, with_names (delete name) w)) w
  end.

(** [fsync] of the directory handle. *)
Definition fsync_dir : method World IoError unit :=
  call harmless (fun w => (Ok tt, {|
    inodes := inodes w; names := names w; history := [names w];
    next_inode := next_inode w; clock := clock w |})).

(** [fs::Dir::read_from], without the dot entries. *)
Definition list_dir : method World IoError (list string) :=
  call harmless (fun w => (Ok (readdir (names w)), w)).

(** [Uuid::new_v4]. *)
Definition random_uuid {E} : method World E bytes := fun w => (Ok (new_v4 (clock w)), tick w).

(** [File::metadata]. *)
Definition fstat (h : Handle) : method World IoError EntryMetadata :=
  call harmless (fun w =>
    match inodes w !! inode h with
    | Some n => (Ok (metadata_of n), w)
    | None => (Err IoOther, w)
    end).

(** [File::sync_all]. *)
Definition sync_all (h : Handle) : method World IoError unit :=
  call harmless (fun w => (Ok tt, modify (inode h) sync_inode w)).

(** [File::set_len]; the cursor does not move. *)
Definition set_len (h : Handle) (n : nat) : method World IoError unit :=
  call (atomic (modify (inode h) (resize_inode n))) (fun w => (Ok tt, modify (inode h) (resize_inode n) w)).

(** [File::write_all] at the cursor of [h]; a failed call may have written a
    part of [b].  Returns the moved handle. *)
Definition write_all (h : Handle) (b : bytes) : method World IoError Handle :=
  call (fun k => modify (inode h) (write_inode (cursor h) (take k b)))
       (fun w => (Ok (seek_to h (cursor h + length b)), modify (inode h) (write_inode (cursor h) b) w)).

(** [seek(SeekFrom::Start(n))]. *)
Definition seek (h : Handle) (n : nat) : method World IoError Handle :=
  call harmless (ret (seek_to h n)).

(** [h.take(n).read_to_end(..)]: at most [n] bytes from the cursor. *)
Definition read_take (h : Handle) (n : nat) : method World IoError (bytes * Handle) :=
  call harmless (fun w =>
    match inodes w !! inode h with
    | Some f =>
        let b := take n (drop (cursor h) (data f)) in
        (Ok (b, seek_to h (cursor h + length b)), w)
    | None => (Err IoOther, w)
    end).

(** [File::lock_shared] on an artifact: one more lease. *)
Definition lock_shared (h : Handle) : method World IoError unit :=
  call harmless (fun w => (Ok tt, modify (inode h) lease_inode w)).

(** Dropping a file that holds a shared lock. *)
Definition drop_shared (h : Handle) : World -> World := modify (inode h) release_inode.

(** [File::try_lock]: [false] for [TryLockError::WouldBlock]. *)
Definition try_lock (h : Handle) : method World IoError bool :=
  call harmless (fun w =>
    match inodes w !! inode h with
    | Some n => (Ok (negb (locked n) && (leases n =? 0)%nat), w)
    | None => (Err IoOther, w)
    end).
End Native.

(** ** Rules for native calls *)

Section CallRules.
Context `{Machine}.

Lemma wp_call {A} partial (m : method World IoError A) Q w :
  (forall k, outcome (clock w) = Some k -> Q (Err IoOther) (partial k (tick w))) -> wp m Q (tick w) ->
  wp (call partial m) Q w.
Proof. intros He Hm. unfold wp, call. destruct (outcome (clock w)); [by apply He|exact Hm]. Qed.

(** Some native call fails. *)
Definition faulty : Prop := exists n k, outcome n = Some k.

Lemma wp_renameat from to noreplace (Q : result IoError unit -> World -> Prop) w :
  (names w !! from = None -> Q (Err IoNotFound) (tick w)) ->
  (is_Some (names w !! to) -> noreplace = true -> Q (Err IoAlreadyExists) (tick w)) ->
  Q (Err IoOther) (tick w) ->
  (forall i r, names w !! from = Some i -> (noreplace = true -> names w !! to = None) ->
     r = Err IoOther \/ r = Ok tt -> Q r (with_names (moved from to i) (tick w))) ->
  wp (renameat from to noreplace) Q w.
Proof.
  intros H1 H2 H3 H4. unfold wp, renameat. destruct (names w !! from) as [i|] eqn:Ef.
  - destruct noreplace; cbn [andb].
    + case_bool_decide as Hto; unfold call, atomic, throw; destruct (outcome (clock w)) as [[|k]|]; auto;
        apply H4; auto; intros _; by apply eq_None_not_Some.
    + unfold call, atomic. destruct (outcome (clock w)) as [[|k]|]; auto; apply H4; auto; done.
  - unfold call, harmless, throw. destruct (outcome (clock w)); auto.
Qed.

Lemma wp_unlinkat name (Q : result IoError unit -> World -> Prop) w :
  (names w !! name = None -> Q (Err IoNotFound) (tick w)) ->
  Q (Err IoOther) (tick w) ->
  (forall r, is_Some (names w !! name) -> r = Err IoOther \/ r = Ok tt ->
     Q r (with_names (delete name) (tick w))) ->
  wp (unlinkat name) Q w.
Proof.
  intros H1 H2 H3. unfold wp, unlinkat. destruct (names w !! name) as [i|] eqn:Ef;
    unfold call, atomic, harmless, throw; destruct (outcome (clock w)) as [[|k]|]; auto; apply H3; eauto.
Qed.

(** Opening an entry; [None] for a new one. *)
Lemma wp_openat name exclusive (Q : result IoError Handle -> World -> Prop) w :
  (names w !! name = None -> exclusive = false -> Q (Err IoNotFound) (tick w)) ->
  (is_Some (names w !! name) -> exclusive = true -> Q (Err IoAlreadyExists) (tick w)) ->
  Q (Err IoOther) (tick w) ->
  (forall i, names w !! name = Some i -> exclusive = false -> Q (Ok {| inode := i; cursor := 0 |}) (tick w)) ->
  (forall r, names w !! name = None -> exclusive = true ->
     r = Err IoOther \/ r = Ok {| inode := next_inode w; cursor := 0 |} -> Q r (create name (tick w))) ->
  wp (openat name exclusive) Q w.
Proof.
  intros H1 H2 H3 H4 H5. unfold wp, openat, call.
  destruct (outcome (clock w)) as [k|].
  - destruct (names w !! name) eqn:En; [done|]. destruct exclusive; [|done]. destruct k; cbn; [done|]. apply H5; auto.
  - cbn [names tick next_inode]. destruct (names w !! name) eqn:En, exclusive; auto; apply H2; eauto.
Qed.

(** *** Files that code leaves alone *)

(** File object [i] exists and is [n]. *)
Definition file_at (i : nat) (n : Inode) (w : World) : Prop :=
  inodes w !! i = Some n /\ (i < next_inode w)%nat.

(** [m] does not change file object [i]. *)
Class Keeps {E A} (i : nat) (m : method World E A) : Prop :=
  keeps : forall n w, file_at i n w -> wp m (fun _ w' => file_at i n w') w.

#[export] Instance keeps_bind {E A B} i (m : method World E A) (k : A -> method World E B) :
  Keeps i m -> (forall a, Keeps i (k a)) -> Keeps i (bind m k).
Proof.
  intros Hm Hk n w Hw. apply wp_bind. eapply wp_mono; [by apply Hm|].
  intros [a|e] w' Hw'; [by apply Hk|done].
Qed.
#[export] Instance keeps_ret {E A} i (a : A) : Keeps (E := E) i (ret a).
Proof. intros n w Hw. exact Hw. Qed.
#[export] Instance keeps_throw {E A} i (e : E) : Keeps (A := A) i (throw e).
Proof. intros n w Hw. exact Hw. Qed.
#[export] Instance keeps_of_result {E A} i (r : result E A) : Keeps i (of_result r).
Proof. intros n w Hw. exact Hw. Qed.
#[export] Instance keeps_fail_if {E} i c (e : E) : Keeps i (fail_if c e).
Proof. intros n w Hw. by destruct c. Qed.
#[export] Instance keeps_map_error {E E' A} i (f : E -> E') (m : method World E A) : Keeps i m -> Keeps i (map_error f m).
Proof. intros Hm n w Hw. apply wp_map_error. eapply wp_mono; [by apply Hm|done]. Qed.
#[export] Instance keeps_attempt {E E' A} i (m : method World E A) : Keeps i m -> Keeps (E := E') i (attempt m).
Proof. intros Hm n w Hw. apply wp_attempt. eapply wp_mono; [by apply Hm|done]. Qed.
#[export] Instance keeps_ignore {E E' A} i (m : method World E A) : Keeps i m -> Keeps (E := E') i (ignore m).
Proof. intros Hm n w Hw. apply wp_ignore. eapply wp_mono; [by apply Hm|done]. Qed.
#[export] Instance keeps_if {E A} i (b : bool) (m m' : method World E A) :
  Keeps i m -> Keeps i m' -> Keeps i (if b then m else m').
Proof. by destruct b. Qed.

Lemma keeps_call {A} i partial (m : method World IoError A) :
  (forall n w k, file_at i n w -> file_at i n (partial k w)) -> Keeps i m -> Keeps i (call partial m).
Proof.
  intros Hp Hm n w Hw. assert (file_at i n (tick w)) by exact Hw.
  apply wp_call; [intros; by apply Hp|by apply Hm].
Qed.

Lemma file_at_create i n name w : file_at i n w -> file_at i n (create name w).
Proof. intros [H1 H2]. split; cbn; [rewrite lookup_insert_ne by lia; done|lia]. Qed.

#[export] Instance keeps_statat i name : Keeps i (statat name).
Proof. apply keeps_call; [done|]. intros n w Hw. exact Hw. Qed.
#[export] Instance keeps_fstat i h : Keeps i (fstat h).
Proof. apply keeps_call; [done|]. intros n w Hw. unfold wp. by destruct (inodes w !! inode h). Qed.
#[export] Instance keeps_list_dir i : Keeps i list_dir.
Proof. apply keeps_call; [done|]. intros n w Hw. exact Hw. Qed.
#[export] Instance keeps_fsync_dir i : Keeps i fsync_dir.
Proof. apply keeps_call; [done|]. intros n w Hw. exact Hw. Qed.
#[export] Instance keeps_random_uuid {E} i : Keeps (E := E) i random_uuid.
Proof. intros n w Hw. exact Hw. Qed.
#[export] Instance keeps_read_take i h n : Keeps i (read_take h n).
Proof. apply keeps_call; [done|]. intros n' w Hw. unfold wp. by destruct (inodes w !! inode h). Qed.
#[export] Instance keeps_try_lock i h : Keeps i (try_lock h).
Proof. apply keeps_call; [done|]. intros n w Hw. unfold wp. by destruct (inodes w !! inode h). Qed.
#[export] Instance keeps_seek i h n : Keeps i (seek h n).
Proof. apply keeps_call; [done|]. apply _. Qed.

#[export] Instance keeps_openat i name exclusive : Keeps i (openat name exclusive).
Proof. intros n w Hw. apply wp_openat; intros; try done; by apply file_at_create. Qed.
#[export] Instance keeps_renameat i from to b : Keeps i (renameat from to b).
Proof. intros n w Hw. by apply wp_renameat. Qed.
#[export] Instance keeps_unlinkat i name : Keeps i (unlinkat name).
Proof. intros n w Hw. by apply wp_unlinkat. Qed.

(** *** Code that only reads *)

Class Quiet {E A} (m : method World E A) : Prop :=
  quiet : forall w, wp m (fun _ w' => same_disk w w') w.

#[export] Instance quiet_bind {E A B} (m : method World E A) (k : A -> method World E B) :
  Quiet m -> (forall a, Quiet (k a)) -> Quiet (bind m k).
Proof.
  intros Hm Hk w. apply wp_bind. eapply wp_mono; [apply Hm|].
  intros [a|e] w' Hw; [|done]. eapply wp_mono; [apply Hk|]. intros r w'' Hw'. by etrans.
Qed.
#[export] Instance quiet_ret {E A} (a : A) : Quiet (E := E) (ret a).
Proof. intros w. by apply wp_ret. Qed.
#[export] Instance quiet_throw {E A} (e : E) : Quiet (A := A) (throw e).
Proof. intros w. by apply wp_throw. Qed.
#[export] Instance quiet_of_result {E A} (r : result E A) : Quiet (of_result r).
Proof. intros w. by apply wp_of_result. Qed.
#[export] Instance quiet_fail_if {E} c (e : E) : Quiet (fail_if c e).
Proof. intros w. by apply wp_fail_if. Qed.
#[export] Instance quiet_map_error {E E' A} (f : E -> E') (m : method World E A) : Quiet m -> Quiet (map_error f m).
Proof. intros Hm w. apply wp_map_error. eapply wp_mono; [apply Hm|done]. Qed.
#[export] Instance quiet_attempt {E E' A} (m : method World E A) : Quiet m -> Quiet (E := E') (attempt m).
Proof. intros Hm w. apply wp_attempt. eapply wp_mono; [apply Hm|done]. Qed.
#[export] Instance quiet_if {E A} (b : bool) (m m' : method World E A) : Quiet m -> Quiet m' -> Quiet (if b then m else m').
Proof. by destruct b. Qed.
#[export] Instance quiet_for_each {E A} (f : A -> method World E unit) l : (forall x, Quiet (f x)) -> Quiet (for_each f l).
Proof. intros Hf. induction l as [|x l IH]; cbn [for_each]; apply _. Qed.

#[export] Instance quiet_statat name : Quiet (statat name).
Proof. intros w. apply wp_call; [done|]. by unfold wp. Qed.
#[export] Instance quiet_fstat h : Quiet (fstat h).
Proof. intros w. apply wp_call; [done|]. unfold wp. by destruct (inodes (tick w) !! inode h). Qed.
#[export] Instance quiet_list_dir : Quiet list_dir.
Proof. intros w. apply wp_call; [done|]. by unfold wp. Qed.
#[export] Instance quiet_read_take h n : Quiet (read_take h n).
Proof. intros w. apply wp_call; [done|]. unfold wp. by destruct (inodes (tick w) !! inode h). Qed.
#[export] Instance quiet_try_lock h : Quiet (try_lock h).
Proof. intros w. apply wp_call; [done|]. unfold wp. by destruct (inodes (tick w) !! inode h). Qed.
#[export] Instance quiet_random_uuid {E} : Quiet (E := E) random_uuid.
Proof. intros w. by unfold wp. Qed.
#[export] Instance quiet_openat name : Quiet (openat name false).
Proof. intros w. by apply wp_openat. Qed.
End CallRules.

(** ** Machines without faults *)

(** No native call fails. *)
Definition reliable (M : Machine) : Prop := forall n, @outcome M n = None.

Lemma reliable_not_faulty (M : Machine) : reliable M -> ~ @faulty M.
Proof. intros HR (n & k & E). by rewrite HR in E. Qed.

Lemma wp_reliable {M : Machine} (HM : reliable M) {A} partial (m : method World IoError A) Q w :
  wp m Q (tick w) -> wp (call partial m) Q w.
Proof. intros Hm. apply wp_call; [|done]. intros k Hk. by rewrite (HM (clock w)) in Hk. Qed.
