(* ===== verification/StoreDirectory.v ===== *)
(** The retained directory capability (store_directory.rs, store_directory/native.rs),
    the writer and epoch locks (manifest_lock.rs) and the probe for retired
    artifacts (legacy_probe.rs).

    Operations are methods on the [World] of Disk.v.  A [StoreDirectory] is the
    directory of that world; its diagnostic locator only occurs in error texts
    and is left out.  The fault points of [check_fault] do nothing outside
    tests. *)

From S2P Require Import Prelude Errors Identity Wire Disk.

Definition STORE_LOCK_FILE_NAME : string := "LOCK".
Definition MANIFEST_LOCK_FILE_NAME : string := "MANIFEST.lock".

(** [?] on an [io::Error] in a function that returns [PersistResult]. *)
Definition io {A} (m : method World IoError A) : method World PersistError A := map_error PIo m.

(** [validate_mutable_name]. *)
Definition validate_mutable_name (name : string) : result PersistError unit :=
  let? _ := validate_name name in
  refuse bool_decide (name = STORE_LOCK_FILE_NAME) || bool_decide (name = MANIFEST_LOCK_FILE_NAME)
    with PDirectory (CoordinationEntry name);
  Ok tt.

(** [OsStr::to_str]. *)
Definition to_str (name : string) : option string :=
  if utf8_valid (ascii_bytes name) then Some name else None.

Section Operations.
Context `{Machine}.

(** [native::is_regular]. *)
Definition is_regular (h : Handle) : method World IoError bool :=
  do m <- fstat h;
  ret (em_regular m && em_single_link m).

(** [StoreDirectory::metadata]. *)
Definition metadata (name : string) : method World PersistError (option EntryMetadata) :=
  of_result (validate_name name) ;;
  io (statat name).

(** [StoreDirectory::regular_metadata]. *)
Definition regular_metadata (name : string) : method World PersistError (option EntryMetadata) :=
  do m <- metadata name;
  fail_if (match m with Some m => negb (em_regular m) || negb (em_single_link m) | None => false end)
    (PDirectory (NotRegular name)) ;;
  ret m.

(** [StoreDirectory::contains]. *)
Definition contains (name : string) : method World PersistError bool :=
  do m <- regular_metadata name;
  ret (bool_decide (is_Some m)).

(** [StoreDirectory::open_file]. *)
Definition open_file (name : string) (exclusive : bool) : method World PersistError Handle :=
  of_result (validate_name name) ;;
  (if exclusive then ret tt else (regular_metadata name ;; ret tt)) ;;
  do file <- io (openat name exclusive);
  do r <- io (is_regular file);
  fail_if (negb r) (PDirectory (NotRegular name)) ;;
  ret file.

(** [StoreDirectory::open_read] and [open_write], which differ only in the access
    mode they request, and [create_new]. *)
Definition open_read (name : string) : method World PersistError Handle := open_file name false.
Definition open_write (name : string) : method World PersistError Handle := open_file name false.
Definition create_new (name : string) : method World PersistError Handle := open_file name true.

(** [StoreDirectory::open_or_create]. *)
Definition open_or_create (name : string) : method World PersistError Handle :=
  do r <- attempt (create_new name);
  match r with
  | Err (PIo IoAlreadyExists) => open_write name
  | result => of_result result
  end.

(** [StoreDirectory::entries] and [entries_bounded]: [native::entries] reports an
    inventory above [limit] while it enumerates. *)
Definition entries_bounded (limit : Z) : method World PersistError (list string) :=
  do l <- io list_dir;
  fail_if (limit <? Z.of_nat (length l)) (PControl TooLarge) ;;
  ret l.
Definition entries : method World PersistError (list string) := entries_bounded u64_max.

(** [StoreDirectory::rename]. *)
Definition rename (from to : string) : method World PersistError unit :=
  of_result (validate_mutable_name from) ;;
  of_result (validate_mutable_name to) ;;
  regular_metadata from ;;
  regular_metadata to ;;
  io (renameat from to false).

(** [StoreDirectory::publish_new]. *)
Definition publish_new (from to : string) : method World PersistError unit :=
  of_result (validate_mutable_name from) ;;
  of_result (validate_mutable_name to) ;;
  regular_metadata from ;;
  io (renameat from to true).

(** [StoreDirectory::remove]. *)
Definition remove (name : string) : method World PersistError unit :=
  of_result (validate_mutable_name name) ;;
  do m <- metadata name;
  fail_if (match m with Some m => negb (em_regular m) | None => false end) (PDirectory (NotRegular name)) ;;
  io (unlinkat name).

(** [StoreDirectory::sync]. *)
Definition sync : method World PersistError unit := io fsync_dir.

(** The whole content of an opened file up to [limit] bytes. *)
Definition read_up_to (h : Handle) (limit : Z) : method World PersistError bytes :=
  do r <- io (read_take h (Z.to_nat limit));
  ret (fst r).

(** *** Locks

    [StoreWriter::lock_file] fails when another holder has the writer lock.  The
    epoch locks block until they are granted, so they either succeed or report
    an I/O error; [ManifestEpochGuard] and [PersistenceReadGuard] are released
    when they are dropped. *)

(** [StoreWriter::lock_file]. *)
Definition lock_file (h : Handle) : method World PersistError unit :=
  do free <- io (try_lock h);
  fail_if (negb free) WriterLockHeld ;;
  io (fun w => (Ok tt, modify (inode h) lock_inode w)).

(** [ManifestEpochGuard::acquire] after [open_lock_file]; the epoch is exclusive. *)
Definition epoch_acquire : method World PersistError unit :=
  do file <- open_or_create MANIFEST_LOCK_FILE_NAME;
  io (call harmless (ret tt)).

(** [PersistenceReadGuard::acquire_existing_in]: a shared epoch on the existing
    lock file. *)
Definition read_acquire_existing : method World PersistError unit :=
  do file <- open_read MANIFEST_LOCK_FILE_NAME;
  io (call harmless (ret tt)).
End Operations.

(** ** Retired artifacts *)

Module LegacyProbe.

(** [str::strip_prefix] and [str::strip_suffix]. *)
Fixpoint strip_prefix (prefix s : string) : option string :=
  match prefix, s with
  | EmptyString, _ => Some s
  | String a prefix, String b s => if bool_decide (a = b) then strip_prefix prefix s else None
  | String _ _, EmptyString => None
  end.

Fixpoint strip_suffix (suffix s : string) : option string :=
  if bool_decide (suffix = s) then Some EmptyString
  else match s with
       | EmptyString => None
       | String a s => String a <$> strip_suffix suffix s
       end.

Definition is_digit (a : Ascii.ascii) : bool :=
  let n := Z.of_nat (Ascii.nat_of_ascii a) in (48 <=? n) && (n <=? 57).

Fixpoint all_chars (f : Ascii.ascii -> bool) (s : string) : bool :=
  match s with EmptyString => true | String c s => f c && all_chars f s end.

(** [numbered]. *)
Definition numbered (name prefix suffix : string) : bool :=
  match strip_prefix prefix name ≫= strip_suffix suffix with
  | Some number => negb (bool_decide (number = "")) && all_chars is_digit number
  | None => false
  end.

(** The names [reject] looks into. *)
Definition candidate (text : string) : bool :=
  bool_decide (text = "wal.log") || bool_decide (text = "audit.log") || bool_decide (text = "MANIFEST")
  || numbered text "snapshot." ".snap" || numbered text "wal." ".archive".

(** The artifact a prefix of a file announces. *)
Definition artifact_of (prefix : bytes) : option PersistArtifact :=
  let m := take 4 prefix in
  if bool_decide (m = ascii_bytes "SLDB") then Some Wal
  else if bool_decide (m = ascii_bytes "SLSN") && negb (bool_decide (take 6 prefix = ascii_bytes "SLSNP2"))
  then Some Snapshot
  else if bool_decide (m = ascii_bytes "SLMF") then Some Manifest
  else if bool_decide (m = ascii_bytes "SLAU") then Some AuditLog
  else None.

(** The closure [version]. *)
Definition version (prefix : bytes) (offset : nat) : Z :=
  if (offset + 2 <=? length prefix)%nat then of_le (slice offset (offset + 2) prefix) else 0.

Section Reject.
Context `{Machine}.

(** One iteration of the loop of [reject]. *)
Definition reject_entry (name : string) : method World PersistError unit :=
  match to_str name with
  | None => ret tt
  | Some text =>
      if negb (candidate text) then ret tt
      else map_error (PArtifact text) (
        do h <- open_read name;
        do prefix <- read_up_to h 8;
        match artifact_of prefix with
        | None => ret tt
        | Some artifact =>
            throw (PUnsupportedVersion artifact (version prefix 4)
                     (match artifact with Wal | Snapshot => version prefix 6 | _ => 0 end))
        end)
  end.

(** [reject]. *)
Definition reject : method World PersistError unit :=
  do l <- entries;
  for_each reject_entry l.
End Reject.
End LegacyProbe.

Section Writer.
Context `{Machine}.

(** [StoreWriter::acquire_existing]. *)
Definition writer_acquire_existing : method World PersistError unit :=
  LegacyProbe.reject ;;
  do h <- open_write STORE_LOCK_FILE_NAME;
  lock_file h.

(** [StoreWriter::acquire]. *)
Definition writer_acquire : method World PersistError unit :=
  LegacyProbe.reject ;;
  do h <- open_or_create STORE_LOCK_FILE_NAME;
  lock_file h.

(** [PersistenceReadGuard::acquire_in]. *)
Definition read_acquire : method World PersistError unit :=
  LegacyProbe.reject ;;
  do file <- open_or_create MANIFEST_LOCK_FILE_NAME;
  io (call harmless (ret tt)).
End Writer.

(** ** Directory operations do not touch file contents *)

Section Keeping.
Context `{Machine}.

#[export] Instance keeps_metadata i name : Keeps i (metadata name).
Proof. unfold metadata, io. apply _. Qed.
#[export] Instance keeps_regular_metadata i name : Keeps i (regular_metadata name).
Proof. unfold regular_metadata. apply _. Qed.
#[export] Instance keeps_contains i name : Keeps i (contains name).
Proof. unfold contains. apply _. Qed.
#[export] Instance keeps_open_file i name exclusive : Keeps i (open_file name exclusive).
Proof. unfold open_file, io, is_regular. destruct exclusive; apply _. Qed.
#[export] Instance keeps_open_or_create i name : Keeps i (open_or_create name).
Proof.
  unfold open_or_create, create_new, open_write. apply keeps_bind; [apply _|].
  intros [h|[| | |[| |]| |]]; apply _.
Qed.
#[export] Instance keeps_entries i n : Keeps i (entries_bounded n).
Proof. unfold entries_bounded, io. apply _. Qed.
#[export] Instance keeps_rename i from to : Keeps i (rename from to).
Proof. unfold rename, io. apply _. Qed.
#[export] Instance keeps_publish_new i from to : Keeps i (publish_new from to).
Proof. unfold publish_new, io. apply _. Qed.
#[export] Instance keeps_remove i name : Keeps i (remove name).
Proof. unfold remove, io. apply _. Qed.
#[export] Instance keeps_sync i : Keeps i sync.
Proof. unfold sync, io. apply _. Qed.
#[export] Instance keeps_epoch_acquire i : Keeps i epoch_acquire.
Proof. unfold epoch_acquire, io. apply keeps_bind; [apply _|]. intros _. apply keeps_map_error, keeps_call; [done|apply _]. Qed.
End Keeping.

(** ** Directory operations that only read *)

Section Reading.
Context `{Machine}.

#[export] Instance quiet_metadata name : Quiet (metadata name).
Proof. unfold metadata, io. apply _. Qed.
#[export] Instance quiet_regular_metadata name : Quiet (regular_metadata name).
Proof. unfold regular_metadata. apply _. Qed.
#[export] Instance quiet_contains name : Quiet (contains name).
Proof. unfold contains. apply _. Qed.
#[export] Instance quiet_open_read name : Quiet (open_read name).
Proof. unfold open_read, open_file, io, is_regular. apply _. Qed.
#[export] Instance quiet_open_write name : Quiet (open_write name).
Proof. apply quiet_open_read. Qed.
#[export] Instance quiet_entries n : Quiet (entries_bounded n).
Proof. unfold entries_bounded, io. apply _. Qed.
#[export] Instance quiet_read_up_to h n : Quiet (read_up_to h n).
Proof. unfold read_up_to, io. apply _. Qed.
#[export] Instance quiet_reject_entry name : Quiet (LegacyProbe.reject_entry name).
Proof.
  unfold LegacyProbe.reject_entry. destruct (to_str name); [|apply _]. apply quiet_if; [apply _|].
  apply quiet_map_error, quiet_bind; [apply _|]. intros h. apply quiet_bind; [apply _|].
  intros p. destruct (LegacyProbe.artifact_of p); apply _.
Qed.
#[export] Instance quiet_reject : Quiet LegacyProbe.reject.
Proof. unfold LegacyProbe.reject, entries. apply _. Qed.

(** Opening does not change the disk and yields the file of the entry. *)
Lemma wp_open_read name (Q : result PersistError Handle -> World -> Prop) w :
  (forall res w', same_disk w w' ->
     match res with Ok h => names w !! name = Some (inode h) /\ cursor h = 0%nat | Err _ => True end -> Q res w') ->
  wp (open_file name false) Q w.
Proof.
  intros HQ. unfold open_file, regular_metadata, metadata, is_regular, io. do 2 wp_step.
  destruct (validate_name name) as [[]|e]; [|by apply HQ]. repeat wp_step.
  apply wp_call; [intros; by apply HQ|]. unfold wp at 1. cbn beta iota delta [map_err]. repeat wp_step.
  { by apply HQ. }
  apply wp_openat; try done; cbn [names tick]; try (intros; by apply HQ).
  intros i Hi _. cbn [map_err]. repeat wp_step.
  apply wp_call; [intros; by apply HQ|]. unfold wp at 1. cbn [inodes tick inode].
  destruct (inodes w !! i); cbn beta iota delta [map_err]; repeat (wp_step; cbn [map_err]); by apply HQ.
Qed.

Lemma wp_open_existing name i (Q : result PersistError Handle -> World -> Prop) w :
  names w !! name = Some i ->
  (forall res w', same_disk w w' -> match res with Ok h => h = {| inode := i; cursor := 0 |} | Err _ => True end -> Q res w') ->
  wp (open_file name false) Q w.
Proof.
  intros Hn HQ. apply wp_open_read. intros [[j c]|e] w' Hs Hh; apply HQ; try done.
  destruct Hh as [Hj Hc]. cbn in *. congruence.
Qed.
End Reading.
