(* ===== verification/Control.v ===== *)
(** Store control: the CURRENT selector and its immutable manifests
    (control.rs, control/codec.rs).

    [Codec] is the envelope of every control record; postcard is an interface.
    The operations of [EmptyStoreControl] are methods on the world of Disk.v. *)

From Stdlib Require Import Ascii.
From S2P Require Import Prelude Errors Externals Identity Disk StoreDirectory.
From coqutil Require Import Byte.

(** ** The envelope of control records *)

Module Codec.

Definition MAX_CONTROL_BYTES : Z := 4096.
Definition VERSION : Z := 1.

Record Envelope := {
  magic : bytes;
  version : Z;
  body : bytes;
  digest : bytes
}.

(** Postcard writes and reads the magic, a fixed array, first and without a length. *)
Class EnvelopeLaws `{Postcard Envelope} : Prop := {
  envelope_roundtrip : PostcardLaws Envelope;
  envelope_magic : forall e b, length (magic e) = 4%nat -> to_stdvec e = Some b -> take 4 b = magic e;
  envelope_magic_read : forall b e rest, take_from_bytes b = Some (e, rest) -> take 4 b = magic e
}.
#[export] Existing Instance envelope_roundtrip.

Section Codec.
Context `{Blake3} `{Postcard Envelope}.

(** [encode_payload]. *)
Definition encode_payload (body : bytes) (magic : bytes) : result PersistError bytes :=
  refuse MAX_CONTROL_BYTES <? zlen body with PControl TooLarge;
  let envelope := {| magic := magic; version := VERSION; body := body; digest := blake3 body |} in
  let? bytes := ok_or (to_stdvec envelope) (PControl (Errors.Envelope "encode envelope")) in
  refuse MAX_CONTROL_BYTES <? zlen bytes with PControl TooLarge;
  Ok bytes.

(** [encode]. *)
Definition encode `{Postcard T} (value : T) (magic : bytes) : result PersistError bytes :=
  let? body := ok_or (to_stdvec value) (PControl (Errors.Envelope "encode")) in
  encode_payload body magic.

(** [decode]. *)
Definition decode `{Postcard T} (b : bytes) (m : bytes) : result PersistError T :=
  refuse MAX_CONTROL_BYTES <? zlen b with PControl TooLarge;
  let? (envelope, tail) := ok_or (take_from_bytes (A := Envelope) b) (PControl (Errors.Envelope "framing")) in
  refuse negb (bool_decide (tail = [])) || negb (bool_decide (magic envelope = m))
    with PControl (Errors.Envelope "magic or trailing bytes");
  refuse negb (bool_decide (blake3 (body envelope) = digest envelope)) with PControl Checksum;
  refuse negb (version envelope =? VERSION) with PControl UnsupportedVersion;
  let? (value, tail) := ok_or (take_from_bytes (A := T) (body envelope)) (PControl (Errors.Envelope "payload")) in
  refuse negb (bool_decide (tail = [])) with PControl (Errors.Envelope "payload trailing bytes");
  Ok value.
End Codec.

(** *** What the envelope guarantees *)

Section Theory.
Context `{Blake3} `{EnvelopeLaws}.

Lemma envelope_decode_encode `{PostcardLaws T} (v : T) m b :
  encode v m = Ok b -> decode b m = Ok v.
Proof.
  unfold encode, encode_payload, decode. intros E. ok_step. ok_step. ok_step. ok_step.
  apply ok_or_Ok in Hok, Hok0. injection E as <-.
  bool_inv. rewrite (proj2 (Z.ltb_ge _ (zlen a0))) by lia.
  apply (postcard_roundtrip _ _ []) in Hok, Hok0. rewrite app_nil_r in Hok, Hok0. rewrite Hok0. cbn.
  by rewrite !bool_decide_eq_true_2, Hok.
Qed.

Lemma encode_magic `{Postcard T} (v : T) m b : length m = 4%nat -> encode v m = Ok b -> take 4 b = m.
Proof.
  unfold encode, encode_payload. intros Hm E. ok_step. ok_step. ok_step. ok_step.
  apply ok_or_Ok in Hok0. injection E as <-. by apply envelope_magic in Hok0.
Qed.

Lemma decode_magic `{Postcard T} (v : T) m b : decode b m = Ok v -> take 4 b = m.
Proof.
  unfold decode. intros E. ok_step. ok_step. destruct a as [e tail]. ok_step. apply orb_false_iff in Hif0 as [_ Hm]. bool_inv.
  apply ok_or_Ok in Hok. by apply envelope_magic_read in Hok as ->.
Qed.

Lemma encode_bounded `{Postcard T} (v : T) m b : encode v m = Ok b -> zlen b <= MAX_CONTROL_BYTES.
Proof.
  unfold encode, encode_payload. intros E. ok_step. ok_step. ok_step. ok_step. bool_inv. injection E as <-. lia.
Qed.
End Theory.
End Codec.

(** ** Names *)

Definition CURRENT_FILE_NAME : string := "CURRENT".

(** [str::parse::<u64>]: an optional plus sign and at least one digit, without overflow. *)
Fixpoint parse_digits (s : string) (acc : Z) : option Z :=
  match s with
  | EmptyString => Some acc
  | String c s =>
      if LegacyProbe.is_digit c then
        let acc := acc * 10 + (Z.of_nat (Ascii.nat_of_ascii c) - 48) in
        if acc <=? u64_max then parse_digits s acc else None
      else None
  end.

Definition parse_u64 (s : string) : option Z :=
  match s with
  | EmptyString => None
  | String c rest =>
      if bool_decide (c = "+"%char) then (if bool_decide (rest = "") then None else parse_digits rest 0)
      else parse_digits s 0
  end.

(** [name.strip_prefix(p).and_then(|s| s.strip_suffix(q))]. *)
Definition strip (p q name : string) : option string :=
  LegacyProbe.strip_prefix p name ≫= LegacyProbe.strip_suffix q.

(** [is_manifest_name]. *)
Definition is_manifest_name (name : string) : bool :=
  match strip "MANIFEST-" ".control" name ≫= parse_u64 with
  | Some n => negb (n =? 0) && bool_decide (ManifestGeneration.name n = name)
  | None => false
  end.

(** [is_stage_name]. *)
Definition is_stage_name `{UuidText} (name : string) : bool :=
  match strip ".control." ".tmp" name with
  | Some s => uuid_parse_ok s
  | None => false
  end.

(** ** Operations *)

(** The payload codecs derived for the control records. *)
Class ControlCodecs := {
  envelope_codec :: Postcard Codec.Envelope;
  manifest_codec :: Postcard EmptyManifest;
  selector_codec :: Postcard CurrentSelector
}.

Class ControlCodecsLaws `{ControlCodecs} : Prop := {
  envelope_codec_laws :: Codec.EnvelopeLaws;
  manifest_codec_laws :: PostcardLaws EmptyManifest;
  selector_codec_laws :: PostcardLaws CurrentSelector
}.

Section Records.
Context `{Blake3} `{ControlCodecs}.

(** [EmptyManifest::encode] and [decode]. *)
Definition manifest_encode (m : EmptyManifest) : result PersistError bytes :=
  let? _ := manifest_validate m in
  Codec.encode m (ascii_bytes "SLEM").

Definition manifest_decode (b : bytes) : result PersistError EmptyManifest :=
  let? value := Codec.decode (T := EmptyManifest) b (ascii_bytes "SLEM") in
  let? _ := manifest_validate value in
  Ok value.

(** [CurrentSelector::encode] and [decode]. *)
Definition selector_encode (s : CurrentSelector) : result PersistError bytes :=
  let? _ := selector_validate s in
  Codec.encode s (ascii_bytes "SLCU").

Definition selector_decode (b : bytes) : result PersistError CurrentSelector :=
  let? value := Codec.decode (T := CurrentSelector) b (ascii_bytes "SLCU") in
  let? _ := selector_validate value in
  Ok value.
End Records.

Section Reading.
Context `{Machine} `{Blake3} `{ControlCodecs} `{UuidText}.

(** [read_bounded]. *)
Definition read_bounded (name : string) : method World PersistError bytes :=
  do file <- open_read name;
  do m <- io (fstat file);
  fail_if (Codec.MAX_CONTROL_BYTES <? em_len m) (PControl TooLarge) ;;
  do b <- read_up_to file (Codec.MAX_CONTROL_BYTES + 1);
  fail_if (Codec.MAX_CONTROL_BYTES <? zlen b) (PControl TooLarge) ;;
  ret b.

(** One iteration of the loop of [validate_directory]; the state carries [artifacts]. *)
Definition validate_entry (name : string) : method (bool * World) PersistError unit :=
  on_snd (regular_metadata name) ;;
  if bool_decide (name = STORE_LOCK_FILE_NAME) || bool_decide (name = MANIFEST_LOCK_FILE_NAME) then ret tt
  else match to_str name with
       | None => throw (PControl (MixedArtifacts name))
       | Some text =>
           if bool_decide (text = CURRENT_FILE_NAME) || is_manifest_name text || is_stage_name text
           then put (fun _ => true)
           else throw (PControl (MixedArtifacts name))
       end.

(** [validate_directory]. *)
Definition validate_directory : method World PersistError bool :=
  do l <- entries;
  fun w =>
    let '(r, (artifacts, w)) := for_each validate_entry l (false, w) in
    (let? _ := r in Ok artifacts, w).

(** [read_selected]. *)
Definition read_selected (selector : CurrentSelector) : method World PersistError EmptyManifest :=
  of_result (selector_validate selector) ;;
  do b <- map_error (fun e => match e with PIo IoNotFound => PControl Lineage | e => e end)
            (read_bounded (cs_manifest_name selector));
  fail_if (negb (bool_decide (blake3 b = cs_digest selector))) (PControl Checksum) ;;
  do manifest <- of_result (manifest_decode b);
  fail_if (negb (bool_decide (em_store_id manifest = cs_store_id selector))
           || negb (em_epoch manifest =? cs_epoch selector)
           || negb (em_generation manifest =? cs_generation selector)) (PControl Lineage) ;;
  ret manifest.

(** [read_state]. *)
Definition read_state (expected : CompatibilityIdentity) : method World PersistError (EmptyManifest * CurrentSelector) :=
  validate_directory ;;
  do b <- map_error (fun e => match e with PIo IoNotFound => PControl NotInitialized | e => e end)
            (read_bounded CURRENT_FILE_NAME);
  do selector <- of_result (selector_decode b);
  do manifest <- read_selected selector;
  fail_if (negb (bool_decide (em_identity manifest = expected))) (PControl Compatibility) ;;
  ret (manifest, selector).
End Reading.

Section Publishing.
Context `{Machine} `{Blake3} `{ControlCodecs} `{UuidText}.

(** [file.write_all(bytes)?; file.sync_all()?]. *)
Definition write_and_sync (file : Handle) (b : bytes) : method World PersistError unit :=
  do file <- io (write_all file b);
  io (sync_all file).

(** [stage]. *)
Definition stage (b : bytes) : method World PersistError string :=
  do u <- random_uuid;
  let name := ".control." +:+ uuid_display u +:+ ".tmp" in
  do file <- create_new name;
  do r <- attempt (write_and_sync file b);
  match r with
  | Err error => ignore (remove name) ;; throw error
  | Ok _ => ret name
  end.

(** The closure [immutable] of [publish_bytes]. *)
Definition publish_immutable (temp name : string) (b : bytes) : method World PersistError unit :=
  do r <- attempt (publish_new temp name);
  match r with
  | Ok _ => ret tt
  | Err (PIo IoAlreadyExists) =>
      do found <- read_bounded name;
      fail_if (negb (bool_decide (found = b))) (PControl Lineage) ;;
      do h <- open_read name;
      io (sync_all h) ;;
      remove temp
  | Err error => throw error
  end ;;
  sync.

(** The closure [result] of [publish_bytes]; the state carries [published]. *)
Definition replace_current (temp : string) (initial : bool) : method (bool * World) PersistError unit :=
  put (fun _ => true) ;;
  (if initial then
     do r <- on_snd (attempt (publish_new temp CURRENT_FILE_NAME));
     match r with
     | Ok _ => ret tt
     | Err (PIo IoAlreadyExists) => put (fun _ => false) ;; throw (PControl AlreadyInitialized)
     | Err error => throw error
     end
   else on_snd (rename temp CURRENT_FILE_NAME)) ;;
  on_snd sync.

(** [publish_bytes] once the manifest is durable. *)
Definition publish_current (current_bytes : bytes) (initial : bool) : method World PersistError unit :=
  do temp <- stage current_bytes;
  do result <- (fun w => let '(r, (published, w)) := replace_current temp initial (false, w) in (Ok (r, published), w));
  match result with
  | (Ok _, _) => ret tt
  | (Err error, published) =>
      ignore (remove temp) ;;
      throw (if published : bool then PControl (PublicationUncertain error) else error)
  end.

(** [publish_bytes]. *)
Definition publish_bytes (b : bytes) (selector : CurrentSelector) (initial : bool) : method World PersistError unit :=
  do current_bytes <- of_result (selector_encode selector);
  let name := cs_manifest_name selector in
  do present <- contains name;
  do differs <- (if present : bool then do found <- read_bounded name; ret (negb (bool_decide (found = b)))
                 else ret false);
  fail_if differs (PControl Lineage) ;;
  do temp <- stage b;
  do immutable <- attempt (publish_immutable temp name b);
  match immutable with
  | Err error => ignore (remove temp) ;; throw error
  | Ok _ =>
      publish_current current_bytes initial
  end.

(** [publish]. *)
Definition publish (manifest : EmptyManifest) (initial : bool) : method World PersistError CurrentSelector :=
  do b <- of_result (manifest_encode manifest);
  let selector := from_manifest manifest (blake3 b) in
  publish_bytes b selector initial ;;
  ret selector.
End Publishing.

(** ** [EmptyStoreControl] *)

Record EmptyStoreControl := {
  manifest : EmptyManifest;
  selector : CurrentSelector;
  fenced : bool
}.

(** The manifest that follows [m] under the selector digest [d]. *)
Definition successor (m : EmptyManifest) (generation : ManifestGeneration.t) (d : bytes) : EmptyManifest := {|
  em_store_id := em_store_id m;
  em_epoch := em_epoch m;
  em_generation := generation;
  em_format := em_format m;
  em_identity := em_identity m;
  em_parent := Some {| parent_generation := em_generation m; parent_digest := d |} |}.

Section Control.
Context `{Machine} `{Blake3} `{ControlCodecs} `{UuidText}.

(** [EmptyStoreControl::create_empty]. *)
Definition create_empty (identity : CompatibilityIdentity) : method World PersistError EmptyStoreControl :=
  of_result (identity_validate identity) ;;
  LegacyProbe.reject ;;
  validate_directory ;;
  writer_acquire ;;
  epoch_acquire ;;
  do artifacts <- validate_directory;
  do present <- contains CURRENT_FILE_NAME;
  fail_if present (PControl AlreadyInitialized) ;;
  fail_if artifacts (PControl UnpublishedArtifacts) ;;
  do id <- random_uuid;
  let manifest := {| em_store_id := id; em_epoch := 1; em_generation := 1; em_format := [2; 0];
                     em_identity := identity; em_parent := None |} in
  do selector <- publish manifest true;
  ret {| manifest := manifest; selector := selector; fenced := false |}.

(** [EmptyStoreControl::open]. *)
Definition open (expected : CompatibilityIdentity) : method World PersistError EmptyStoreControl :=
  of_result (identity_validate expected) ;;
  LegacyProbe.reject ;;
  writer_acquire ;;
  read_acquire ;;
  do state <- read_state expected;
  ret {| manifest := fst state; selector := snd state; fenced := false |}.

(** [EmptyStoreControl::publish_empty]. *)
Definition publish_empty : method (EmptyStoreControl * World) PersistError ManifestGeneration.t :=
  do self <- get;
  fail_if (fenced self) (PControl RequiresReopen) ;;
  on_snd epoch_acquire ;;
  do state <- on_snd (read_state (em_identity (manifest self)));
  fail_if (negb (bool_decide (snd state = selector self))) (PControl Stale) ;;
  do generation <- of_result (ManifestGeneration.next (em_generation (manifest self)));
  let m := successor (manifest self) generation (cs_digest (selector self)) in
  do r <- on_snd (attempt (publish m false));
  match r with
  | Ok s => put (fun _ => {| manifest := m; selector := s; fenced := fenced self |}) ;; ret generation
  | Err error =>
      (match error with
       | PControl (PublicationUncertain _) =>
           put (fun c => {| manifest := manifest c; selector := selector c; fenced := true |})
       | _ => ret tt
       end) ;;
      throw error
  end.
End Control.
