(* ===== verification/Selection.v ===== *)
(** Logical control: what CURRENT selects once a store has data
    (control/logical.rs, control/logical/checkpoint.rs and the records and
    checks of control/logical/rotation.rs).

    A selection is a log segment, and possibly a snapshot (a [DataManifest]) and
    a rotation history (a [RotatingManifest]).  [publish_rotation], which
    verifies the old root with a reader, is in Maintenance.v. *)

From Stdlib Require Import Ascii.
From S2P Require Import Prelude Errors Externals Identity Frame Wire Snapshot Disk StoreDirectory Control.
From coqutil Require Import Byte.

(** ** Records *)

Module SnapshotDescriptor.
Record t := mk {
  name : string;
  bytes : Z;
  digest : Prelude.bytes;
  boundary : Position;
  publication : Z
}.
#[global] Instance eq_dec : EqDecision t.
Proof. solve_decision. Defined.
End SnapshotDescriptor.
Abbreviation SnapshotDescriptor := SnapshotDescriptor.t.

Record PreviousRoot := {
  pr_selector : CurrentSelector;
  pr_end : Position
}.

Record Rotation := {
  rot_base : Position;
  rot_snapshot_base : Position;
  rot_previous : PreviousRoot
}.

#[global] Instance PreviousRoot_eq_dec : EqDecision PreviousRoot.
Proof. solve_decision. Defined.
#[global] Instance Rotation_eq_dec : EqDecision Rotation.
Proof. solve_decision. Defined.

Record LogicalManifest := {
  lm_metadata : EmptyManifest;
  lm_segment : bytes
}.

Record DataManifest := {
  dm_metadata : EmptyManifest;
  dm_segment : bytes;
  dm_origin : bytes;
  dm_snapshot : SnapshotDescriptor
}.

Record RotatingManifest := {
  rm_metadata : EmptyManifest;
  rm_snapshot : SnapshotDescriptor;
  rm_rotation : Rotation
}.

Record Selected := {
  sel_metadata : EmptyManifest;
  sel_selector : CurrentSelector;
  sel_context : Context;
  sel_checkpoint : option SnapshotDescriptor;
  sel_rotation : option Rotation
}.

(** The payload codecs derived for the logical manifests. *)
Class LogicalCodecs := {
  control_codecs :: ControlCodecs;
  logical_codec :: Postcard LogicalManifest;
  data_codec :: Postcard DataManifest;
  rotating_codec :: Postcard RotatingManifest
}.

Class LogicalCodecsLaws `{LogicalCodecs} : Prop := {
  control_codecs_laws :: ControlCodecsLaws;
  logical_codec_laws :: PostcardLaws LogicalManifest;
  data_codec_laws :: PostcardLaws DataManifest;
  rotating_codec_laws :: PostcardLaws RotatingManifest
}.

(** ** Names *)

Definition LOG_NAME : string := "WAL-00000000000000000001.logical".

(** [snapshot_name]. *)
Definition snapshot_name (generation : Z) : string := "SNAPSHOT-" +:+ dec20 generation +:+ ".logical".

(** [is_snapshot_name]. *)
Definition is_snapshot_name (name : string) : bool :=
  match strip "SNAPSHOT-" ".logical" name ≫= parse_u64 with
  | Some n => negb (n =? 0) && bool_decide (snapshot_name n = name)
  | None => false
  end.

(** [rotation::log_name] and [rotation::is_log_name]. *)
Definition rotated_log_name `{HashHex} (segment : bytes) : string := "WAL-" +:+ to_hex segment +:+ ".logical".

Definition is_log_name (name : string) : bool :=
  match strip "WAL-" ".logical" name with
  | Some s => (String.length s =? 64)%nat && LegacyProbe.all_chars is_hex_char s
  | None => false
  end.

(** The staged snapshot names [select_in] accepts. *)
Definition is_snapshot_stage_name `{UuidText} (name : string) : bool :=
  match strip ".snapshot." ".tmp" name with
  | Some s => uuid_parse_ok s
  | None => false
  end.

(** The names the loop of [select_in] accepts. *)
Definition is_known_name `{UuidText} (text : string) : bool :=
  bool_decide (text = CURRENT_FILE_NAME) || bool_decide (text = LOG_NAME)
  || bool_decide (text = STORE_LOCK_FILE_NAME) || bool_decide (text = MANIFEST_LOCK_FILE_NAME)
  || is_manifest_name text || is_stage_name text || is_snapshot_name text
  || is_log_name text || is_snapshot_stage_name text.

(** ** Selections *)

(** [Selected::manifest_name], [Selected::log_name] and [Selected::base]. *)
Definition manifest_name (s : Selected) : string := cs_manifest_name (sel_selector s).

Definition log_name `{HashHex} (s : Selected) : string :=
  match sel_rotation s with
  | Some r => rotated_log_name (Position.segment (rot_base r))
  | None => LOG_NAME
  end.

Definition base (s : Selected) : Position :=
  let c := sel_context s in {|
    Position.store := store c;
    Position.epoch := epoch c;
    Position.segment := segment c;
    Position.sequence := sequence c - 1;
    Position.offset := 0;
    Position.digest := previous c |}.

(** [context] of control/logical.rs. *)
Definition context_of (manifest : LogicalManifest) (selector : CurrentSelector) : Context := {|
  store := em_store_id (lm_metadata manifest);
  epoch := em_epoch (lm_metadata manifest);
  sequence := 1;
  segment := lm_segment manifest;
  previous := cs_digest selector |}.

(** The comparison of a manifest with the selector that names it. *)
Definition names_other (m : EmptyManifest) (s : CurrentSelector) : bool :=
  negb (bool_decide (em_store_id m = cs_store_id s))
  || negb (em_epoch m =? cs_epoch s)
  || negb (em_generation m =? cs_generation s).

(** The size checks of a snapshot descriptor. *)
Definition snapshot_size_bad (s : SnapshotDescriptor) : bool :=
  (SnapshotDescriptor.bytes s <? Snapshot.OVERHEAD)
  || (Limits.bytes Limits.default + Snapshot.OVERHEAD <? SnapshotDescriptor.bytes s).

Definition zero32 (b : bytes) : bool := bool_decide (b = zeros 32).

(** The lineage conditions of [checkpoint::decode_manifest]. *)
Definition data_lineage_bad (m : DataManifest) : bool :=
  let p := SnapshotDescriptor.boundary (dm_snapshot m) in
  negb (bool_decide (Position.store p = em_store_id (dm_metadata m)))
  || negb (Position.epoch p =? em_epoch (dm_metadata m))
  || negb (bool_decide (Position.segment p = dm_segment m))
  || zero32 (Position.segment p) || zero32 (dm_origin m) || zero32 (Position.digest p)
  || negb (Bool.eqb (Position.sequence p =? 0) (Position.offset p =? 0))
  || ((Position.sequence p =? 0) && negb (bool_decide (Position.digest p = dm_origin m)))
  || negb (bool_decide (SnapshotDescriptor.name (dm_snapshot m) = snapshot_name (em_generation (dm_metadata m))))
  || snapshot_size_bad (dm_snapshot m).

(** The lineage conditions of [rotation::decode]. *)
Definition rotation_lineage_bad (m : RotatingManifest) : bool :=
  let r := rm_rotation m in
  let rb := rot_base r in
  let p := SnapshotDescriptor.boundary (rm_snapshot m) in
  let b := rot_snapshot_base r in
  let prev := rot_previous r in
  negb (bool_decide (Position.store rb = em_store_id (rm_metadata m)))
  || negb (Position.epoch rb =? em_epoch (rm_metadata m))
  || negb (bool_decide (Position.store p = Position.store rb))
  || negb (Position.epoch p =? Position.epoch rb)
  || negb (bool_decide (Position.store b = Position.store p))
  || negb (Position.epoch b =? Position.epoch p)
  || negb (bool_decide (Position.segment b = Position.segment p))
  || negb (Position.offset b =? 0)
  || zero32 (Position.digest b) || zero32 (Position.segment b)
  || (Position.sequence p <? Position.sequence b)
  || zero32 (Position.digest p)
  || negb (Bool.eqb (Position.sequence p =? Position.sequence b) (Position.offset p =? 0))
  || ((Position.offset p =? 0) && negb (bool_decide (Position.digest p = Position.digest b)))
  || negb (Position.sequence rb =? Position.sequence p)
  || (Position.sequence rb =? u64_max)
  || negb (Position.offset rb =? 0)
  || zero32 (Position.segment rb)
  || bool_decide (Position.segment rb = Position.segment p)
  || negb (bool_decide (Position.digest rb = Position.segment rb))
  || negb (bool_decide (pr_end prev = p))
  || negb (bool_decide (cs_store_id (pr_selector prev) = Position.store p))
  || negb (cs_epoch (pr_selector prev) =? Position.epoch p)
  || (em_generation (rm_metadata m) <=? cs_generation (pr_selector prev))
  || match em_parent (rm_metadata m) with
     | None => true
     | Some parent =>
         negb (parent_generation parent =? cs_generation (pr_selector prev))
         || negb (bool_decide (parent_digest parent = cs_digest (pr_selector prev)))
     end
  || negb (bool_decide (SnapshotDescriptor.name (rm_snapshot m) = snapshot_name (em_generation (rm_metadata m))))
  || snapshot_size_bad (rm_snapshot m).

(** ** Decoding manifests *)

Section Decoding.
Context `{Blake3} `{LogicalCodecs}.

(** [decode] of control/logical.rs. *)
Definition logical_decode (b : bytes) : result PersistError LogicalManifest :=
  let? m := Codec.decode (T := LogicalManifest) b (ascii_bytes "SLLM") in
  let? _ := manifest_validate (lm_metadata m) in
  let? _ := StoreId.from_bytes (em_store_id (lm_metadata m)) in
  refuse zero32 (lm_segment m) with PControl Lineage;
  Ok m.

(** [checkpoint::decode_manifest]. *)
Definition data_decode (b : bytes) : result PersistError DataManifest :=
  let? m := Codec.decode (T := DataManifest) b (ascii_bytes "SLDM") in
  let? _ := manifest_validate (dm_metadata m) in
  let p := SnapshotDescriptor.boundary (dm_snapshot m) in
  let? _ := StoreId.from_bytes (Position.store p) in
  let? _ := StoreEpoch.new (Position.epoch p) in
  refuse data_lineage_bad m with PControl Lineage;
  Ok m.

(** [rotation::decode]. *)
Definition rotating_decode (b : bytes) : result PersistError RotatingManifest :=
  let? m := Codec.decode (T := RotatingManifest) b (ascii_bytes "SLRM") in
  let? _ := manifest_validate (rm_metadata m) in
  let? _ := selector_validate (pr_selector (rot_previous (rm_rotation m))) in
  refuse rotation_lineage_bad m with PControl Lineage;
  Ok m.

(** [checkpoint::decode_selected]. *)
Definition data_select (b : bytes) (selector : CurrentSelector) (expected : CompatibilityIdentity) :
    result PersistError Selected :=
  let? m := data_decode b in
  let p := SnapshotDescriptor.boundary (dm_snapshot m) in
  refuse names_other (dm_metadata m) selector with PControl Lineage;
  refuse negb (bool_decide (em_identity (dm_metadata m) = expected)) with PControl Compatibility;
  Ok {| sel_context := {| store := Position.store p; epoch := Position.epoch p; segment := dm_segment m;
                          sequence := 1; previous := dm_origin m |};
        sel_metadata := dm_metadata m; sel_selector := selector;
        sel_checkpoint := Some (dm_snapshot m); sel_rotation := None |}.

(** [rotation::decode_selected]. *)
Definition rotating_select (b : bytes) (selector : CurrentSelector) (expected : CompatibilityIdentity) :
    result PersistError Selected :=
  let? m := rotating_decode b in
  refuse names_other (rm_metadata m) selector with PControl Lineage;
  refuse negb (bool_decide (em_identity (rm_metadata m) = expected)) with PControl Compatibility;
  let b := rot_base (rm_rotation m) in
  Ok {| sel_context := {| store := Position.store b; epoch := Position.epoch b; segment := Position.segment b;
                          sequence := Position.sequence b + 1; previous := Position.digest b |};
        sel_metadata := rm_metadata m; sel_selector := selector;
        sel_checkpoint := Some (rm_snapshot m); sel_rotation := Some (rm_rotation m) |}.

(** [bytes.starts_with(magic)]. *)
Definition starts_with (b magic : bytes) : bool := bool_decide (take (length magic) b = magic).

(** [logical::validate], which [validate_manifest] exports. *)
Definition validate (b : bytes) : result PersistError unit :=
  if starts_with b (ascii_bytes "SLRM") then (let? _ := rotating_decode b in Ok tt)
  else if starts_with b (ascii_bytes "SLDM") then (let? _ := data_decode b in Ok tt)
  else let? _ := logical_decode b in Ok tt.

(** [select_root] on the bytes of the selected manifest. *)
Definition select_bytes (b : bytes) (selector : CurrentSelector) (expected : CompatibilityIdentity) :
    result PersistError Selected :=
  refuse negb (bool_decide (blake3 b = cs_digest selector)) with PControl Checksum;
  if starts_with b (ascii_bytes "SLDM") then data_select b selector expected
  else if starts_with b (ascii_bytes "SLRM") then rotating_select b selector expected
  else
    let? m := logical_decode b in
    refuse names_other (lm_metadata m) selector || zero32 (lm_segment m) with PControl Lineage;
    refuse negb (bool_decide (em_identity (lm_metadata m) = expected)) with PControl Compatibility;
    Ok {| sel_context := context_of m selector; sel_metadata := lm_metadata m; sel_selector := selector;
          sel_checkpoint := None; sel_rotation := None |}.
End Decoding.

(** ** Selecting *)

Section Selecting.
Context `{Machine} `{Blake3} `{HashHex} `{LogicalCodecs} `{UuidText}.

(** [select_root]. *)
Definition select_root (selector : CurrentSelector) (expected : CompatibilityIdentity) :
    method World PersistError Selected :=
  do b <- read_bounded (cs_manifest_name selector);
  of_result (select_bytes b selector expected).

(** One iteration of the loop of [select_in]. *)
Definition select_entry (name : string) : method World PersistError unit :=
  map_error (PArtifact name) (regular_metadata name) ;;
  match to_str name with
  | None => throw (PArtifact name (PControl (MixedArtifacts name)))
  | Some text =>
      fail_if (negb (is_known_name text))
        (PArtifact text (PControl (MixedArtifacts name)))
  end.

(** [select_in]. *)
Definition select_in (expected : CompatibilityIdentity) : method World PersistError Selected :=
  of_result (identity_validate expected) ;;
  do l <- entries;
  for_each select_entry l ;;
  do selector <- map_error (PArtifact CURRENT_FILE_NAME)
                   (do b <- read_bounded CURRENT_FILE_NAME; of_result (selector_decode b));
  map_error (PArtifact (cs_manifest_name selector)) (select_root selector expected).

(** [select]. *)
Definition select (expected : CompatibilityIdentity) : method World PersistError (Handle * Selected) :=
  of_result (identity_validate expected) ;;
  do selected <- select_in expected;
  let name := log_name selected in
  do file <- map_error (PArtifact name) (open_read name);
  ret (file, selected).

(** A new segment identity: two random UUIDs. *)
Definition fresh_segment {E} : method World E bytes :=
  do a <- random_uuid;
  do b <- random_uuid;
  ret (a ++ b).

(** [logical::create]. *)
Definition create_log (control : EmptyStoreControl) : method World PersistError (Handle * Selected) :=
  fail_if (fenced control) (PControl RequiresReopen) ;;
  epoch_acquire ;;
  do state <- read_state (em_identity (Control.manifest control));
  fail_if (negb (bool_decide (snd state = selector control))) (PControl Stale) ;;
  do segment <- fresh_segment;
  do generation <- of_result (ManifestGeneration.next (em_generation (Control.manifest control)));
  let m := {| lm_metadata := successor (Control.manifest control) generation (cs_digest (selector control));
              lm_segment := segment |} in
  do b <- of_result (Codec.encode m (ascii_bytes "SLLM"));
  let s := from_manifest (lm_metadata m) (blake3 b) in
  do file <- create_new LOG_NAME;
  io (sync_all file) ;;
  sync ;;
  publish_bytes b s false ;;
  ret (file, {| sel_metadata := lm_metadata m; sel_selector := s; sel_context := context_of m s;
                sel_checkpoint := None; sel_rotation := None |}).
End Selecting.

(** ** Publishing snapshots *)

(** Conversions of [?] in functions that return a [StreamError]. *)
Definition persist {A} (m : method World PersistError A) : method World StreamError A := map_error StreamError.Persist m.
Definition stream_io {A} (m : method World IoError A) : method World StreamError A := map_error StreamError.Io m.

Section Snapshots.
Context `{Machine} `{Blake3} `{HashHex} `{LogicalCodecs} `{UuidText}.

(** [logical_snapshot::decode(..).map_err(Preparation)]. *)
Definition check_snapshot (b : bytes) (c : SnapshotContext) (digest : bytes) : result StreamError unit :=
  let? _ := map_err (fun e => StreamError.Preparation (PrepFrame e))
              (Snapshot.decode b c digest (Limits.bytes Limits.default)) in
  Ok tt.

(** [publish_snapshot]. *)
Definition publish_snapshot (generation : ManifestGeneration.t) (body : bytes) (context : SnapshotContext) :
    method World StreamError SnapshotDescriptor :=
  let name := snapshot_name generation in
  do b <- of_result (map_err (fun e => StreamError.Preparation (PrepCodec e))
                       (Snapshot.encode body context (Limits.bytes Limits.default)));
  let digest := drop (length b - 32) b in
  of_result (check_snapshot b context digest) ;;
  do u <- random_uuid;
  let temp := ".snapshot." +:+ uuid_display u +:+ ".tmp" in
  do file <- persist (create_new temp);
  let split := (length b / 2)%nat in
  do file <- stream_io (write_all file (take split b));
  do file <- stream_io (write_all file (drop split b));
  stream_io (sync_all file) ;;
  do h <- persist (open_read temp);
  do r <- stream_io (read_take h (length b + 1));
  of_result (check_snapshot (fst r) context digest) ;;
  persist (publish_new temp name) ;;
  persist sync ;;
  ret {| SnapshotDescriptor.name := name; SnapshotDescriptor.bytes := zlen b; SnapshotDescriptor.digest := digest;
         SnapshotDescriptor.boundary := boundary context; SnapshotDescriptor.publication := publication context |}.

(** [publish_checkpoint]. *)
Definition publish_checkpoint (prev : Selected) (body : bytes) (context : SnapshotContext) :
    method World StreamError Selected :=
  do current <- persist (select_in (em_identity (sel_metadata prev)));
  fail_if (negb (bool_decide (sel_selector current = sel_selector prev))) (StreamError.Persist (PControl Stale)) ;;
  do generation <- of_result (map_err StreamError.Persist (ManifestGeneration.next (em_generation (sel_metadata prev))));
  do snapshot <- publish_snapshot generation body context;
  let m := {| dm_metadata := successor (sel_metadata prev) generation (cs_digest (sel_selector prev));
              dm_segment := segment (sel_context prev); dm_origin := previous (sel_context prev);
              dm_snapshot := snapshot |} in
  do b <- of_result (map_err StreamError.Persist (Codec.encode m (ascii_bytes "SLDM")));
  let s := from_manifest (dm_metadata m) (blake3 b) in
  persist (publish_bytes b s false) ;;
  of_result (map_err StreamError.Persist (data_select b s (em_identity (sel_metadata prev)))).
End Snapshots.
