(* ===== verification/Names.v ===== *)
(** The names the store writes are the names it accepts.

    Printing a generation and parsing it back, the recognition of manifest,
    snapshot, log and staging names, and the checks of [validate_name] and
    [to_str] on all of them. *)

From Stdlib Require Import Ascii.
From S2P Require Import Prelude Errors Externals Identity Wire Snapshot Disk StoreDirectory Control Selection.

(** ** Plain text *)

(** Characters of the store's names: letters, digits, points and dashes. *)
Definition plain (c : ascii) : bool :=
  let n := nat_of_ascii c in
  ((48 <=? n) && (n <=? 57) || (65 <=? n) && (n <=? 90) || (97 <=? n) && (n <=? 122) || (n =? 45) || (n =? 46))%nat.

Abbreviation all_plain := (LegacyProbe.all_chars plain).

Lemma string_cons_app c s t : String c s +:+ t = String c (s +:+ t).
Proof. done. Qed.

Lemma all_chars_app f s t : LegacyProbe.all_chars f (s +:+ t) = LegacyProbe.all_chars f s && LegacyProbe.all_chars f t.
Proof. induction s as [|c s IH]; [done|]. rewrite string_cons_app. cbn [LegacyProbe.all_chars]. by rewrite IH, andb_assoc. Qed.

Lemma all_chars_Forall (f : ascii -> bool) s :
  Forall (fun c => f c = true) (String.list_ascii_of_string s) <-> LegacyProbe.all_chars f s = true.
Proof. induction s as [|c s IH]; cbn; [done|]. by rewrite Forall_cons, IH, andb_true_iff. Qed.

Lemma all_chars_mono (f g : ascii -> bool) s :
  (forall c, f c = true -> g c = true) -> LegacyProbe.all_chars f s = true -> LegacyProbe.all_chars g s = true.
Proof. intros Hfg. rewrite <- !all_chars_Forall. intros H. eapply Forall_impl; [exact H|]. auto. Qed.

Lemma plain_byte c : plain c = true -> u8 (byte_of_ascii c) < 128.
Proof. destruct c as [[] [] [] [] [] [] [] []]; vm_compute; congruence. Qed.

Lemma plain_to_str s : all_plain s = true -> to_str s = Some s.
Proof.
  intros Hs. unfold to_str. enough (utf8_valid (ascii_bytes s) = true) as -> by done.
  unfold ascii_bytes. induction s as [|c s IH]; [done|]. cbn in Hs. apply andb_true_iff in Hs as [Hc Hs].
  change (String.list_byte_of_string (String c s)) with (byte_of_ascii c :: String.list_byte_of_string s).
  cbn [utf8_valid]. rewrite (proj2 (Z.ltb_lt _ _) (plain_byte c Hc)). auto.
Qed.

Lemma plain_validate s :
  all_plain s = true -> s <> "" -> s <> "." -> s <> ".." -> validate_name s = Ok tt.
Proof.
  intros Hs H1 H2 H3. unfold validate_name. rewrite !bool_decide_eq_false_2 by done. cbn [orb].
  enough (string_any (fun c => bool_decide (c = "/"%char) || bool_decide (c = "\"%char)
                              || bool_decide (c = ":"%char) || bool_decide (c = Ascii.zero)) s = false) as -> by done.
  clear H1 H2 H3. induction s as [|c s IH]; [done|]. cbn in *. apply andb_true_iff in Hs as [Hc Hs].
  rewrite IH by done. rewrite orb_false_r. destruct c as [[] [] [] [] [] [] [] []]; vm_compute in Hc |- *; congruence.
Qed.

(** ** Prefixes and suffixes *)

Lemma strip_prefix_app p s : LegacyProbe.strip_prefix p (p +:+ s) = Some s.
Proof. induction p as [|c p IH]; [done|]. rewrite string_cons_app. cbn [LegacyProbe.strip_prefix]. by rewrite bool_decide_eq_true_2. Qed.

Lemma app_length_string s t : String.length (s +:+ t) = (String.length s + String.length t)%nat.
Proof. induction s as [|c s IH]; [done|]. rewrite string_cons_app. cbn [String.length]. by rewrite IH. Qed.

Lemma strip_suffix_app q s : LegacyProbe.strip_suffix q (s +:+ q) = Some s.
Proof.
  induction s as [|c s IH].
  - change ("" +:+ q) with q. destruct q; cbn; by rewrite bool_decide_eq_true_2.
  - rewrite string_cons_app. cbn [LegacyProbe.strip_suffix]. rewrite bool_decide_eq_false_2, IH; [done|]. intros E%(f_equal String.length). cbn [String.length] in E. rewrite app_length_string in E. lia.
Qed.

Lemma strip_app p q s : strip p q (p +:+ s +:+ q) = Some s.
Proof. unfold strip. rewrite strip_prefix_app. apply strip_suffix_app. Qed.

(** ** Decimal numbers *)

Definition digit (n : Z) : ascii := ascii_of_N (Z.to_N (48 + n mod 10)).

Lemma nat_of_digit n : Z.of_nat (nat_of_ascii (digit n)) = 48 + n mod 10.
Proof.
  unfold digit, nat_of_ascii. pose proof (Z.mod_pos_bound n 10). rewrite N_ascii_embedding by lia. lia.
Qed.

Lemma is_digit_digit n : LegacyProbe.is_digit (digit n) = true.
Proof. unfold LegacyProbe.is_digit. rewrite nat_of_digit. pose proof (Z.mod_pos_bound n 10). lia. Qed.

Lemma parse_dec_digits f : forall n a acc,
  0 <= n < 10 ^ Z.of_nat f -> 0 <= a -> a * 10 ^ Z.of_nat f + n <= u64_max ->
  parse_digits (dec_digits f n acc) a = parse_digits acc (a * 10 ^ Z.of_nat f + n).
Proof.
  induction f as [|f IH]; intros n a acc Hn Ha Hb.
  - cbn in *. f_equal. lia.
  - rewrite Nat2Z.inj_succ, Z.pow_succ_r in * by lia. cbn [dec_digits]. fold (digit n).
    pose proof (Z.div_mod n 10). pose proof (Z.mod_pos_bound n 10).
    rewrite IH by (try split; try apply Z.div_lt_upper_bound; try apply Z.div_pos; lia).
    cbn [parse_digits]. rewrite is_digit_digit, nat_of_digit.
    replace ((a * 10 ^ Z.of_nat f + n / 10) * 10 + (48 + n mod 10 - 48)) with (a * (10 * 10 ^ Z.of_nat f) + n) by lia.
    by rewrite (proj2 (Z.leb_le _ _) Hb).
Qed.

Lemma dec_digits_chars f : forall n acc, LegacyProbe.all_chars LegacyProbe.is_digit acc = true ->
  LegacyProbe.all_chars LegacyProbe.is_digit (dec_digits f n acc) = true.
Proof. induction f as [|f IH]; intros n acc Ha; cbn [dec_digits]; [done|]. apply IH. cbn. by rewrite Ha, andb_true_r; apply is_digit_digit. Qed.

Lemma dec20_head n : exists c s, dec20 n = String c s /\ LegacyProbe.is_digit c = true.
Proof.
  pose proof (dec_digits_chars 20 n "" eq_refl) as HD. fold (dec20 n) in HD.
  destruct (dec20 n) as [|c s] eqn:E.
  - apply (f_equal String.length) in E. done.
  - cbn in HD. apply andb_true_iff in HD as [Hc _]. eauto.
Qed.

Lemma parse_dec20 n : 0 <= n <= u64_max -> parse_u64 (dec20 n) = Some n.
Proof.
  intros Hn. assert (HP : parse_digits (dec20 n) 0 = Some n).
  { unfold dec20. rewrite parse_dec_digits by (unfold u64_max in *; lia). done. }
  destruct (dec20_head n) as (c & s & E & Hc). unfold parse_u64. rewrite E in *.
  rewrite bool_decide_eq_false_2; [done|]. by intros ->.
Qed.

Lemma dec20_inj n m : 0 <= n <= u64_max -> 0 <= m <= u64_max -> dec20 n = dec20 m -> n = m.
Proof. intros Hn Hm E. pose proof (parse_dec20 n Hn) as P. rewrite E, parse_dec20 in P by done. congruence. Qed.

(** ** The names of the store *)

(** [x] passes all checks that [select_in] makes on a name. *)
Definition recognised `{UuidText} (x : string) : Prop :=
  validate_name x = Ok tt /\ to_str x = Some x /\ is_known_name x = true.

Section Recognised.
Context `{UuidLaws} `{HashHexLaws}.

Lemma recognised_plain x : all_plain x = true -> (2 < String.length x)%nat -> is_known_name x = true -> recognised x.
Proof.
  intros Hp Hl Hk. split; [|split; [by apply plain_to_str|done]]. apply plain_validate; [done|..]; intros ->; cbn in Hl; lia.
Qed.

Lemma dec20_plain n : all_plain (dec20 n) = true.
Proof.
  apply (all_chars_mono LegacyProbe.is_digit); [|by apply dec_digits_chars].
  intros [[] [] [] [] [] [] [] []]; vm_compute; congruence.
Qed.

(** A name of the form [p ++ middle ++ q] with plain parts. *)
Lemma recognised_form p q s :
  all_plain p = true -> all_plain q = true -> all_plain s = true -> (2 < String.length p)%nat ->
  is_known_name (p +:+ s +:+ q) = true -> recognised (p +:+ s +:+ q).
Proof.
  intros Hp Hq Hs Hl Hk. apply recognised_plain; [|rewrite app_length_string; lia|done].
  rewrite !all_chars_app. by rewrite Hp, Hs, Hq.
Qed.

Lemma is_manifest_name_name g : 1 <= g <= u64_max -> is_manifest_name (ManifestGeneration.name g) = true.
Proof.
  intros Hg. unfold is_manifest_name, ManifestGeneration.name. rewrite strip_app. cbn [mbind option_bind].
  rewrite parse_dec20 by lia. apply andb_true_iff. split; [lia|]. by apply bool_decide_eq_true.
Qed.

Lemma is_snapshot_name_name g : 1 <= g <= u64_max -> is_snapshot_name (snapshot_name g) = true.
Proof.
  intros Hg. unfold is_snapshot_name, snapshot_name. rewrite strip_app. cbn [mbind option_bind].
  rewrite parse_dec20 by lia. apply andb_true_iff. split; [lia|]. by apply bool_decide_eq_true.
Qed.

Lemma is_log_name_name seg : length seg = 32%nat -> is_log_name (rotated_log_name seg) = true.
Proof.
  intros Hl. unfold is_log_name, rotated_log_name. rewrite strip_app, to_hex_length by done.
  apply all_chars_Forall. by apply to_hex_chars.
Qed.

Lemma hex_char_plain c : is_hex_char c = true -> plain c = true.
Proof. destruct c as [[] [] [] [] [] [] [] []]; vm_compute; congruence. Qed.

Lemma uuid_plain u : length u = 16%nat -> all_plain (uuid_display u) = true.
Proof.
  intros Hu. apply all_chars_Forall. eapply Forall_impl; [by apply uuid_display_chars|].
  intros c [Hc|Hc]; [by apply hex_char_plain|]. unfold plain. by rewrite Hc.
Qed.

Lemma hex_plain seg : length seg = 32%nat -> all_plain (to_hex seg) = true.
Proof.
  intros Hu. apply all_chars_Forall. eapply Forall_impl; [by apply to_hex_chars|].
  exact hex_char_plain.
Qed.

Lemma manifest_recognised g : 1 <= g <= u64_max -> recognised (ManifestGeneration.name g).
Proof.
  intros Hg. apply recognised_form; [done|done|apply dec20_plain|cbn; lia|]. fold (ManifestGeneration.name g).
  unfold is_known_name. rewrite is_manifest_name_name by done. by rewrite orb_true_r.
Qed.

Lemma snapshot_recognised g : 1 <= g <= u64_max -> recognised (snapshot_name g).
Proof.
  intros Hg. apply recognised_form; [done|done|apply dec20_plain|cbn; lia|]. fold (snapshot_name g).
  unfold is_known_name. rewrite is_snapshot_name_name by done. by rewrite orb_true_r.
Qed.

Lemma log_recognised seg : length seg = 32%nat -> recognised (rotated_log_name seg).
Proof.
  intros Hg. apply recognised_form; [done|done|by apply hex_plain|cbn; lia|]. fold (rotated_log_name seg).
  unfold is_known_name. rewrite is_log_name_name by done. by rewrite orb_true_r.
Qed.

Lemma stage_recognised u : length u = 16%nat -> recognised (".control." +:+ uuid_display u +:+ ".tmp").
Proof.
  intros Hu. apply recognised_form; [done|done|by apply uuid_plain|cbn; lia|].
  unfold is_known_name, is_stage_name. rewrite strip_app, uuid_parse_display by done. by rewrite !orb_true_r.
Qed.

Lemma snapshot_stage_recognised u : length u = 16%nat -> recognised (".snapshot." +:+ uuid_display u +:+ ".tmp").
Proof.
  intros Hu. apply recognised_form; [done|done|by apply uuid_plain|cbn; lia|].
  unfold is_known_name, is_snapshot_stage_name. rewrite strip_app, uuid_parse_display by done. by rewrite !orb_true_r.
Qed.

Lemma fixed_recognised x :
  x ∈ [CURRENT_FILE_NAME; LOG_NAME; STORE_LOCK_FILE_NAME; MANIFEST_LOCK_FILE_NAME] -> recognised x.
Proof. intros Hx. repeat apply elem_of_cons in Hx as [->|Hx]; [..|by apply not_elem_of_nil in Hx]; (apply recognised_plain; [done|cbn; lia|done]). Qed.

Lemma manifest_name_inj g g' :
  0 <= g <= u64_max -> 0 <= g' <= u64_max -> ManifestGeneration.name g = ManifestGeneration.name g' -> g = g'.
Proof.
  intros Hg Hg' E. apply (f_equal (strip "MANIFEST-" ".control")) in E. unfold ManifestGeneration.name in E.
  rewrite !strip_app in E. apply dec20_inj; congruence.
Qed.
End Recognised.

(** The store accepts every name it writes.  For every generation, segment
    and UUID, the names of the selector, the locks, the logs, the manifest, the
    snapshot and the staged files pass the checks that opening makes on each
    directory entry. *)
Theorem store_names_recognised `{UuidLaws} `{HashHexLaws} generation segment uuid :
  1 <= generation <= u64_max -> length segment = 32%nat -> length uuid = 16%nat ->
  Forall recognised
    [CURRENT_FILE_NAME; LOG_NAME; STORE_LOCK_FILE_NAME; MANIFEST_LOCK_FILE_NAME;
     ManifestGeneration.name generation; snapshot_name generation; rotated_log_name segment;
     ".control." +:+ uuid_display uuid +:+ ".tmp"; ".snapshot." +:+ uuid_display uuid +:+ ".tmp"].
Proof.
  intros Hg Hs Hu. rewrite !Forall_cons.
  do 4 (split; [apply fixed_recognised; by repeat first [left; reflexivity | right]|]).
  split; [by apply manifest_recognised|]. split; [by apply snapshot_recognised|]. split; [by apply log_recognised|].
  split; [by apply stage_recognised|]. split; [by apply snapshot_stage_recognised|done].
Qed.
