(* ===== verification/Publication.v ===== *)
(** Crash atomicity of control publication (control.rs, [publish_bytes]).

    [entry S x w] says what every crash of [w] leaves under the name [x]: nothing
    or a clean file, with content in [S].  The theorems show how publication
    changes the entries of CURRENT and of the manifest, and that it changes no
    other. *)

From S2P Require Import Prelude Errors Externals Identity Disk StoreDirectory Control Selection Names.

(** ** Entries *)

(** Every directory that may be found has only known names of regular files. *)
Record world_ok `{UuidText} (w : World) : Prop := {
  ok_now : names w ∈ history w;
  ok_ids : forall d x i, d ∈ history w -> d !! x = Some i -> (i < next_inode w)%nat /\ recognised x /\
    exists n, inodes w !! i = Some n /\ regular n = true /\ single_link n = true
}.

Definition entry (S : option bytes -> Prop) (x : string) (w : World) : Prop :=
  forall d, d ∈ history w ->
    match d !! x with
    | None => S None
    | Some j => exists n, inodes w !! j = Some n /\ dirty n = false /\ S (Some (data n))
    end.

(** Names of staged files. *)
Definition staged (x : string) : Prop := is_Some (LegacyProbe.strip_prefix ".control." x).

(** The world changed, but no entry except those in [touched] and staged ones. *)
Definition preserves `{UuidText} (touched : list string) (w w' : World) : Prop :=
  world_ok w' /\ forall x S, ~ staged x -> x ∉ touched -> entry S x w -> entry S x w'.

(** No entry but staged ones refers to file [i]. *)
Definition private (i : nat) (w : World) : Prop :=
  forall d x, d ∈ history w -> ~ staged x -> d !! x <> Some i.

Section Entries.
Context `{UuidText}.
Implicit Types w : World.

Lemma entry_mono (S S' : option bytes -> Prop) x w : (forall c, S c -> S' c) -> entry S x w -> entry S' x w.
Proof.
  intros HS HE d Hd. specialize (HE d Hd). destruct (d !! x) as [j|]; [|auto].
  destruct HE as (n & Hn & Hc & Hs). exists n. auto.
Qed.

#[export] Instance entry_proper S x : Proper (same_disk ==> iff) (entry S x).
Proof.
  intros w w' (Hi & Hn & Hh & Hx). unfold entry. by rewrite Hi, Hh.
Qed.
#[export] Instance world_ok_proper : Proper (same_disk ==> iff) world_ok.
Proof.
  intros w w' (Hi & Hn & Hh & Hx). split; intros [Hok1 Hok2]; split; rewrite ?Hn, ?Hh, ?Hx, ?Hi in *; done.
Qed.
#[export] Instance same_disk_sym : Symmetric same_disk.
Proof. intros w w' (? & ? & ? & ?). by repeat split. Qed.

Lemma preserves_same L w w' : world_ok w -> same_disk w w' -> preserves L w w'.
Proof. intros Hw Hs. split; [by rewrite <- Hs|]. intros x S _ _ HE. by rewrite <- Hs. Qed.

Lemma preserves_trans L w1 w2 w3 : preserves L w1 w2 -> preserves L w2 w3 -> preserves L w1 w3.
Proof. intros [_ H1] [H2 H3]. split; [done|]. intros x S Hx HL HE. by apply H3, H1. Qed.

Lemma preserves_weaken L L' w w' : preserves L w w' -> L ⊆ L' -> preserves L' w w'.
Proof. intros [H1 H2] HL. split; [done|]. intros x S Hx Hn. apply H2; [done|]. set_solver. Qed.

(** Directory changes. *)
Lemma preserves_names L f w :
  world_ok w -> (forall x, ~ staged x -> x ∉ L -> f (names w) !! x = names w !! x) ->
  (forall x i, f (names w) !! x = Some i -> recognised x /\ exists y, names w !! y = Some i) ->
  preserves L w (with_names f w).
Proof.
  intros [Hnow Hids] Hf Hi. split.
  - split; cbn; [by left|]. intros d x i [->|Hd]%elem_of_cons Hx; [|by eapply Hids].
    destruct (Hi _ _ Hx) as [Hr [y Hy]]. destruct (Hids _ _ _ Hnow Hy) as (? & _ & ?). auto.
  - intros x S Hx HL HE d [->|Hd]%elem_of_cons; [|by apply HE]. cbn. rewrite Hf by done. by apply (HE _ Hnow).
Qed.

Lemma preserves_create L name w : world_ok w -> staged name -> recognised name -> preserves L w (create name w).
Proof.
  intros [Hnow Hids] Hs Hrec. split.
  - split; cbn; [by left|]. intros d x i Hd Hx.
    assert (Hcase : (i = next_inode w /\ x = name) \/ exists d', d' ∈ history w /\ d' !! x = Some i).
    { apply elem_of_cons in Hd as [->|Hd]; [|right; by exists d].
      apply lookup_insert_Some in Hx as [[-> <-]|[_ Hx]]; [by left|]. right. by exists (names w). }
    destruct Hcase as [[-> ->]|(d' & Hd' & Hx')]; [rewrite lookup_insert_eq; split; [lia|]; split; [done|by eexists]|].
    destruct (Hids _ _ _ Hd' Hx') as (? & ? & ?). split; [lia|]. by rewrite lookup_insert_ne by lia.
  - intros x S Hx HL HE d Hd. cbn in Hd. cbn.
    assert (HE' : match d !! x with None => S None | Some j => exists n, inodes w !! j = Some n /\ dirty n = false /\ S (Some (data n)) end).
    { apply elem_of_cons in Hd as [->|Hd]; [|by apply HE]. rewrite lookup_insert_ne by (by intros ->). by apply (HE _ Hnow). }
    destruct (d !! x) as [j|] eqn:Ej; [|done]. destruct HE' as (n & Hn & Hrest). exists n. split; [|done].
    rewrite lookup_insert_ne; [done|]. intros <-.
    apply elem_of_cons in Hd as [->|Hd]; [|pose proof (Hids _ _ _ Hd Ej); lia].
    rewrite lookup_insert_ne in Ej by (by intros ->). pose proof (Hids _ _ _ Hnow Ej). lia.
Qed.

Lemma private_create name w : world_ok w -> staged name -> private (next_inode w) (create name w).
Proof.
  intros [Hnow Hids] Hs d x Hd Hx Ej. cbn in Hd. apply elem_of_cons in Hd as [->|Hd].
  - rewrite lookup_insert_ne in Ej by (by intros ->). pose proof (Hids _ _ _ Hnow Ej). lia.
  - pose proof (Hids _ _ _ Hd Ej). lia.
Qed.

(** File changes, which keep the kind of file. *)
Definition same_kind (f : Inode -> Inode) : Prop :=
  forall n, regular (f n) = regular n /\ single_link (f n) = single_link n.

Lemma world_ok_modify i f w : world_ok w -> same_kind f -> world_ok (modify i f w).
Proof.
  intros [Hnow Hids] Hf. split; [done|]. cbn. intros d x j Hd Hx. destruct (Hids _ _ _ Hd Hx) as (Hlt & Hr & n & Hn & Hk).
  split; [done|]. split; [done|]. destruct (decide (i = j)) as [->|Hne]; [|rewrite lookup_alter_ne by done; by exists n].
  rewrite lookup_alter_eq, Hn. exists (f n). destruct (Hf n) as [-> ->]. done.
Qed.

Lemma preserves_private L i f w : world_ok w -> private i w -> same_kind f -> preserves L w (modify i f w).
Proof.
  intros Hw Hp Hk. split; [by apply world_ok_modify|]. intros x S Hx _ HE d Hd. specialize (HE d Hd). cbn.
  destruct (d !! x) as [j|] eqn:Ej; [|done]. rewrite lookup_alter_ne; [done|]. intros <-. by apply (Hp d x Hd Hx).
Qed.

(** A change that keeps clean files clean and their data. *)
Lemma preserves_clean L i f w :
  world_ok w -> same_kind f -> (forall n, dirty n = false -> dirty (f n) = false /\ data (f n) = data n) -> preserves L w (modify i f w).
Proof.
  intros Hw Hk Hf. split; [by apply world_ok_modify|]. intros x S Hx _ HE d Hd. specialize (HE d Hd). cbn.
  destruct (d !! x) as [j|] eqn:Ej; [|done]. destruct HE as (n & Hn & Hc & Hs).
  destruct (decide (i = j)) as [->|Hne]; [|rewrite lookup_alter_ne by done; by exists n].
  rewrite lookup_alter_eq, Hn. exists (f n). destruct (Hf n Hc) as [H1 H2]. by rewrite H1, H2.
Qed.

(** Directory synchronization. *)
Definition synced_dir (w : World) : World := {|
  inodes := inodes w; names := names w; history := [names w]; next_inode := next_inode w; clock := clock w |}.

Lemma preserves_fsync L w : world_ok w -> preserves L w (synced_dir w).
Proof.
  intros [Hnow Hids]. split.
  - split; cbn; [by left|]. intros d x i ->%list_elem_of_singleton. by apply Hids.
  - intros x S _ _ HE d Hd. cbn in Hd. apply list_elem_of_singleton in Hd as ->. by apply (HE _ Hnow).
Qed.
End Entries.

(** ** Operations that preserve entries *)

Section Preserving.
Context `{Machine} `{UuidText}.

Class Preserving {E A} (L : list string) (m : method World E A) : Prop :=
  preserving : forall w, world_ok w -> wp m (fun _ w' => preserves L w w') w.

#[export] Instance preserving_bind {E A B} L (m : method World E A) (k : A -> method World E B) :
  Preserving L m -> (forall a, Preserving L (k a)) -> Preserving L (bind m k).
Proof.
  intros Hm Hk w Hw. apply wp_bind. eapply wp_mono; [by apply Hm|]. intros [a|e] w' Hp; [|done].
  eapply wp_mono; [apply Hk, Hp|]. intros r w'' Hp'. by eapply preserves_trans.
Qed.
#[export] Instance preserving_quiet {E A} L (m : method World E A) : Quiet m -> Preserving L m | 10.
Proof. intros Hm w Hw. eapply wp_mono; [apply Hm|]. intros r w' Hs. by apply preserves_same. Qed.
#[export] Instance preserving_map_error {E E' A} L (f : E -> E') (m : method World E A) :
  Preserving L m -> Preserving L (map_error f m).
Proof. intros Hm w Hw. apply wp_map_error. eapply wp_mono; [by apply Hm|done]. Qed.
#[export] Instance preserving_attempt {E E' A} L (m : method World E A) :
  Preserving L m -> Preserving (E := E') L (attempt m).
Proof. intros Hm w Hw. apply wp_attempt. eapply wp_mono; [by apply Hm|done]. Qed.
#[export] Instance preserving_ignore {E E' A} L (m : method World E A) :
  Preserving L m -> Preserving (E := E') L (ignore m).
Proof. intros Hm w Hw. apply wp_ignore. eapply wp_mono; [by apply Hm|done]. Qed.

Lemma preserves_tick L w w' : world_ok w -> preserves L (tick w) w' -> preserves L w w'.
Proof. intros Hw Hp. eapply preserves_trans; [|exact Hp]. by apply preserves_same. Qed.
Lemma world_ok_tick w : world_ok w -> world_ok (tick w).
Proof. by intros [? ?]. Qed.
Hint Resolve world_ok_tick : core.

#[export] Instance preserving_fsync_dir L : Preserving L fsync_dir.
Proof.
  intros w Hw. apply wp_call; [intros; by apply preserves_same|]. apply preserves_tick; [done|].
  by apply (preserves_fsync L (tick w)), world_ok_tick.
Qed.
#[export] Instance preserving_sync L : Preserving L sync.
Proof. unfold sync, io. apply _. Qed.

#[export] Instance preserving_sync_all L h : Preserving L (sync_all h).
Proof.
  intros w Hw. apply wp_call; [intros; by apply preserves_same|]. apply preserves_tick; [done|].
  by apply (preserves_clean L (inode h) sync_inode (tick w)); [apply world_ok_tick|..].
Qed.

Lemma preserving_renameat L from to b : staged from -> recognised to -> to ∈ L -> Preserving L (renameat from to b).
Proof.
  intros Hs Hto HL w Hw. apply wp_renameat; intros; try by apply preserves_same. apply preserves_tick; [done|].
  apply preserves_names; [auto| |].
  - intros x Hx Hn. unfold moved. rewrite lookup_insert_ne by (by intros ->). by rewrite lookup_delete_ne by (by intros ->).
  - intros x j. unfold moved. intros [[-> <-]|[_ [_ Hd]%lookup_delete_Some]]%lookup_insert_Some; [by eauto|].
    split; [by eapply (ok_ids _ Hw _ _ _ (ok_now _ Hw))|eauto].
Qed.

Lemma preserving_unlinkat L name : staged name -> Preserving L (unlinkat name).
Proof.
  intros Hs w Hw. apply wp_unlinkat; intros; try by apply preserves_same. apply preserves_tick; [done|].
  apply preserves_names; [auto| |].
  - intros x Hx Hn. by rewrite lookup_delete_ne by (by intros ->).
  - intros x j [_ Hd]%lookup_delete_Some. split; [by eapply (ok_ids _ Hw _ _ _ (ok_now _ Hw))|eauto].
Qed.

Lemma preserving_remove L name : staged name -> Preserving L (remove name).
Proof. intros Hs. pose proof (preserving_unlinkat L name Hs). unfold remove, io. apply _. Qed.
Lemma preserving_publish_new L from to : staged from -> recognised to -> to ∈ L -> Preserving L (publish_new from to).
Proof. intros Hs Ht HL. pose proof (preserving_renameat L from to true Hs Ht HL). unfold publish_new, io. apply _. Qed.
Lemma preserving_rename L from to : staged from -> recognised to -> to ∈ L -> Preserving L (rename from to).
Proof. intros Hs Ht HL. pose proof (preserving_renameat L from to false Hs Ht HL). unfold rename, io. apply _. Qed.

#[export] Instance quiet_read_bounded name : Quiet (read_bounded name).
Proof. unfold read_bounded, io. apply _. Qed.

Lemma preserving_publish_immutable temp name b : staged temp -> recognised name -> Preserving [name] (publish_immutable temp name b).
Proof.
  intros Hs Hn. assert (name ∈ [name]) as HL by (by left).
  pose proof (preserving_publish_new [name] temp name Hs Hn HL). pose proof (preserving_remove [name] temp Hs).
  unfold publish_immutable, io. apply preserving_bind; [apply _|].
  intros r. apply preserving_bind; [|apply _]. destruct r as [?|[| | |[| |]| |]]; apply _.
Qed.
End Preserving.

(** ** What the steps achieve *)

(** [x] is a clean file with content [b] in the current directory. *)
Definition holds (x : string) (b : bytes) (w : World) : Prop :=
  exists i n, names w !! x = Some i /\ inodes w !! i = Some n /\ dirty n = false /\ data n = b.

#[export] Instance holds_proper x b : Proper (same_disk ==> iff) (holds x b).
Proof. intros w w' (Hi & Hn & Hh & Hx). unfold holds. by rewrite Hi, Hn. Qed.

Lemma holds_synced x b w : holds x b w -> entry (eq (Some b)) x (synced_dir w).
Proof.
  intros (i & n & Hx & Hn & Hc & <-) d Hd. cbn in Hd. apply list_elem_of_singleton in Hd as ->.
  rewrite Hx. by exists n.
Qed.

Lemma entry_moved S from to b w :
  entry S to w -> holds from b w -> forall i, names w !! from = Some i ->
  entry (fun c => S c \/ c = Some b) to (with_names (moved from to i) w).
Proof.
  intros HE (j & n & Hx & Hn & Hc & <-) i Hi d Hd. rewrite Hi in Hx. injection Hx as <-.
  apply elem_of_cons in Hd as [->|Hd].
  - unfold moved. rewrite lookup_insert_eq. exists n. auto.
  - cbn. specialize (HE d Hd). destruct (d !! to); [|by left]. destruct HE as (m & ? & ? & ?). exists m. auto.
Qed.

Lemma holds_moved from to b w i :
  holds from b w -> names w !! from = Some i -> holds to b (with_names (moved from to i) w).
Proof.
  intros (j & n & Hx & Hn & Hc & <-) Hi. rewrite Hi in Hx. injection Hx as <-. exists i, n. cbn.
  unfold moved. by rewrite lookup_insert_eq.
Qed.

Section Steps.
Context `{MachineLaws} `{Blake3} `{ControlCodecs} `{UuidLaws}.
Hint Resolve world_ok_tick : core.

(** Code that preserves entries and ends in [Q]. *)
Lemma wp_preserving {E A} L (m : method World E A) Q w :
  Preserving L m -> world_ok w -> wp m (fun r w' => preserves L w w' -> Q r w') w -> wp m Q w.
Proof.
  intros HL Hw Hm. eapply wp_mono; [apply (wp_conj _ _ _ _ (preserving w Hw) Hm)|]. intros r w' [Hp HQ]. auto.
Qed.

Lemma wp_quiet {E A} (m : method World E A) `{!Quiet m} (Q : result E A -> World -> Prop) w :
  (forall r w', same_disk w w' -> Q r w') -> wp m Q w.
Proof. intros HQ. eapply wp_mono; [apply quiet|]. intros r w' Hs. by apply HQ. Qed.

Lemma staged_temp u : staged (".control." +:+ uuid_display u +:+ ".tmp").
Proof. unfold staged. cbn. eauto. Qed.

(** A staged file is new and refers to a private file object. *)
Lemma wp_create_new L name (Q : result PersistError Handle -> World -> Prop) w :
  world_ok w -> staged name -> recognised name ->
  (forall res w', preserves L w w' ->
     match res with
     | Ok h => private (inode h) w' /\ names w' !! name = Some (inode h) /\
               inodes w' !! inode h = Some new_inode /\ cursor h = 0%nat
     | Err _ => True
     end -> Q res w') ->
  wp (create_new name) Q w.
Proof.
  intros Hw Hs Hrec HQ. unfold create_new, open_file, is_regular, io.
  assert (Hsame : forall e w', same_disk w w' -> Q (Err e) w') by (intros; apply HQ; [by apply preserves_same|done]).
  do 2 wp_step. destruct (validate_name name) as [[]|e]; [|by apply Hsame]. repeat wp_step.
  apply wp_openat; try done; try (intros; by apply Hsame).
  assert (Hp : preserves L w (create name (tick w))).
  { apply preserves_tick; [done|]. apply preserves_create; auto. }
  intros r Hn _ [-> | ->]; cbn [map_err]; [by apply HQ|]. repeat wp_step.
  assert (Hp' : forall w', same_disk (create name (tick w)) w' -> preserves L w w').
  { intros w' Hs'. eapply preserves_trans; [exact Hp|]. by apply preserves_same; [apply Hp|]. }
  apply wp_call; [intros k _; apply HQ; [by apply Hp'|done]|]. unfold wp at 1. cbn [inode].
  cbn [tick create inodes next_inode]. rewrite lookup_insert_eq. cbn beta iota delta [map_err]. repeat (wp_step; cbn [map_err]).
  { apply HQ; [by apply Hp'|done]. }
  apply HQ; [by apply Hp'|]. cbn. rewrite !lookup_insert_eq. split; [|done].
  by apply (private_create name (tick w)); [apply world_ok_tick|].
Qed.

Lemma write_at_empty b : write_at [] 0 b = b.
Proof. unfold write_at. cbn. by rewrite drop_nil, app_nil_r. Qed.

(** Writing and synchronizing a private file. *)
Lemma wp_write_and_sync L h name b (Q : result PersistError unit -> World -> Prop) w :
  world_ok w -> private (inode h) w -> names w !! name = Some (inode h) ->
  inodes w !! inode h = Some new_inode -> cursor h = 0%nat ->
  (forall res w', preserves L w w' -> match res with Ok _ => holds name b w' | Err _ => True end -> Q res w') ->
  wp (write_and_sync h b) Q w.
Proof.
  intros Hw Hp Hn Hi Hc HQ. unfold write_and_sync, io.
  assert (Hm : forall f, same_kind f -> preserves L w (modify (inode h) f (tick w))).
  { intros f Hf. apply preserves_tick; [done|]. apply preserves_private; auto. }
  do 2 wp_step. apply wp_call; [intros k _; apply HQ; [by apply Hm|done]|]. unfold wp at 1. cbn beta iota delta [map_err]. wp_step.
  assert (Hm1 : preserves L w (modify (inode h) (write_inode (cursor h) b) (tick w))) by (by apply Hm). apply (wp_preserving L); [apply _|apply Hm1|].
  apply wp_call; unfold wp; intros; (apply HQ; [by eapply preserves_trans|]); [done|].
  eexists (inode h), _. cbn. split; [done|]. rewrite !lookup_alter_eq, Hi. split; [done|]. split; [done|].
  rewrite Hc. apply write_at_empty.
Qed.

Lemma wp_stage L b (Q : result PersistError string -> World -> Prop) w :
  world_ok w ->
  (forall res w', preserves L w w' ->
     match res with Ok temp => staged temp /\ holds temp b w' | Err _ => True end -> Q res w') ->
  wp (stage b) Q w.
Proof.
  intros Hw HQ. unfold stage. wp_step. unfold wp at 1. cbn beta iota delta [random_uuid]. wp_step.
  set (name := (".control." +:+ _)). assert (Hs : staged name) by apply staged_temp.
  assert (Hrec : recognised name) by (apply stage_recognised, new_v4_length).
  apply (wp_create_new L); [by auto|done|done|]. intros [h|e] w1 Hp1; [|intros _; by apply HQ; [apply preserves_tick|]].
  intros (Hpr & Hn & Hi & Hc). do 2 wp_step. apply (wp_write_and_sync L _ name); [by apply Hp1|done..|].
  assert (Hp1' : preserves L w w1) by (by apply preserves_tick).
  intros [[]|e] w2 Hp2 Hh; [by apply HQ; [eapply preserves_trans|]|].
  pose proof (preserving_remove L name Hs). do 2 wp_step. apply (wp_preserving L); [apply _|apply Hp2|].
  unfold wp. destruct (remove name w2) as [r w3]. intros Hp3. apply HQ; [|done].
  eapply preserves_trans; [by eapply preserves_trans|done].
Qed.

(** [read_bounded] returns the whole content of a present file. *)
Lemma wp_read_bounded name (Q : result PersistError bytes -> World -> Prop) w :
  (forall res w', same_disk w w' ->
     match res with Ok b => content w name = Some b /\ zlen b <= Codec.MAX_CONTROL_BYTES | Err _ => True end -> Q res w') ->
  wp (read_bounded name) Q w.
Proof.
  intros HQ. unfold read_bounded, read_up_to, io. wp_step. apply wp_open_read.
  intros [h|e] w1 Hs Hh; [|by apply HQ]. destruct Hh as [Hn Hc]. do 2 wp_step.
  apply wp_call; [intros; by apply HQ|]. unfold wp at 1. cbn [inodes tick].
  destruct (inodes w1 !! inode h) as [n|] eqn:En; cbn beta iota delta [map_err]; [|by apply HQ].
  repeat wp_step; [by apply HQ|]. apply wp_call; [intros; by apply HQ|]. unfold wp at 1. cbn [inodes tick].
  rewrite En, Hc, drop_0. cbn beta iota delta [map_err fst]. repeat wp_step; [by apply HQ|]. apply HQ; [done|].
  unfold Codec.MAX_CONTROL_BYTES in *. split; [|bool_inv; lia]. destruct Hs as (Hi & _). unfold content, lookup. rewrite Hn. cbn.
  rewrite <- Hi, En. cbn. rewrite take_ge; [done|]. cbn in *. unfold zlen in *. lia.
Qed.

(** A rename either leaves the disk alone and fails, or moves the entry. *)
Definition renamed (from to : string) (w w' : World) : Prop :=
  exists i, names w !! from = Some i /\ same_disk (with_names (moved from to i) w) w'.

Definition rename_outcome (from to : string) (w : World) (res : result PersistError unit) (w' : World) : Prop :=
  (same_disk w w' /\ res <> Ok tt) \/ (renamed from to w w' /\ res <> Err (PIo IoAlreadyExists)).

Lemma wp_renameat_outcome from to b (Q : result PersistError unit -> World -> Prop) w w0 :
  same_disk w0 w -> (forall res w', rename_outcome from to w0 res w' -> Q res w') ->
  wp (io (renameat from to b)) Q w.
Proof.
  intros Hs HQ. unfold io. wp_step. apply wp_renameat; [intros; apply HQ; left; split; [exact Hs|done]..|].
  intros i r Hi _ Hr. apply HQ. right. split; [|by destruct Hr as [-> | ->]]. exists i. destruct Hs as (Hs1 & Hs2 & Hs3 & Hs4).
  split; [congruence|]. unfold same_disk. cbn. rewrite Hs1, Hs2, Hs3, Hs4. done.
Qed.

Lemma wp_publish_new from to (Q : result PersistError unit -> World -> Prop) w :
  (forall res w', rename_outcome from to w res w' -> Q res w') -> wp (publish_new from to) Q w.
Proof.
  intros HQ. unfold publish_new. do 2 wp_step. destruct (validate_mutable_name from) as [[]|]; [|apply HQ; by left].
  do 2 wp_step. destruct (validate_mutable_name to) as [[]|]; [|apply HQ; by left].
  wp_step. apply wp_quiet; [apply _|]. intros [m|e] w1 Hs; [|apply HQ; by left].
  by apply (wp_renameat_outcome _ _ _ _ _ w).
Qed.

Lemma wp_rename from to (Q : result PersistError unit -> World -> Prop) w :
  (forall res w', rename_outcome from to w res w' -> Q res w') -> wp (rename from to) Q w.
Proof.
  intros HQ. unfold rename. do 2 wp_step. destruct (validate_mutable_name from) as [[]|]; [|apply HQ; by left].
  do 2 wp_step. destruct (validate_mutable_name to) as [[]|]; [|apply HQ; by left].
  wp_step. apply wp_quiet; [apply _|]. intros [m|e] w1 Hs; [|apply HQ; by left].
  wp_step. apply wp_quiet; [apply _|]. intros [m'|e] w2 Hs2; [|apply HQ; left; split; [by etrans|done]].
  apply (wp_renameat_outcome _ _ _ _ _ w); [by etrans|done].
Qed.

Lemma wp_sync x b (Q : result PersistError unit -> World -> Prop) w :
  holds x b w -> (forall res w', (res = Ok tt -> entry (eq (Some b)) x w') -> Q res w') -> wp sync Q w.
Proof.
  intros Hh HQ. unfold sync, io. wp_step. apply wp_call; [intros; by apply HQ|].
  apply HQ. intros _. by apply (holds_synced x b (tick w)).
Qed.

Lemma holds_renamed from to b w w' : holds from b w -> renamed from to w w' -> holds to b w'.
Proof. intros Hh (i & Hi & Hs). rewrite <- Hs. by apply (holds_moved from). Qed.

Lemma wp_remove_other x b temp (Q : result PersistError unit -> World -> Prop) w :
  x <> temp -> holds x b w -> (forall res w', holds x b w' -> Q res w') -> wp (remove temp) Q w.
Proof.
  intros Hne Hh HQ. unfold remove, io. do 2 wp_step. destruct (validate_mutable_name temp) as [[]|]; [|by apply HQ].
  wp_step. apply wp_quiet; [apply _|]. intros [m|e] w1 Hs; (assert (Hh1 : holds x b w1) by (by rewrite <- Hs));
    [|by apply HQ]. wp_step. wp_step; [by apply HQ|]. wp_step.
  apply wp_unlinkat; intros; apply HQ; [exact Hh1..|]. destruct Hh1 as (i & n & Hx & Hrest).
  exists i, n. cbn. by rewrite lookup_delete_ne by done.
Qed.

Lemma wp_publish_immutable temp name b :
  staged temp -> ~ staged name -> recognised name -> forall w, world_ok w -> holds temp b w ->
  wp (publish_immutable temp name b)
     (fun res w' => preserves [name] w w' /\ (res = Ok tt -> entry (eq (Some b)) name w')) w.
Proof.
  intros Hst Hns Hrec w Hw Hh. apply wp_conj; [by apply preserving_publish_immutable|].
  unfold publish_immutable. do 2 wp_step. apply wp_publish_new. intros res w1 [[Hs Hr]|[Hr Hx]].
  - destruct res as [[]|e]; [done|]. wp_step.
    destruct e as [| | |[| |]| |]; try (wp_step; done). clear Hr Hh.
    wp_step. apply wp_read_bounded. intros [found|e] w2 Hs2 Hf; [|done].
    destruct Hf as [(n & (i & Hi & Hn)%bind_Some & Hd)%fmap_Some _].
    repeat wp_step; [done|]. bool_inv. subst found.
    assert (Hs' : same_disk w1 w2) by done. destruct Hs' as (Hi2 & Hn2 & _).
    apply (wp_open_existing name i); [congruence|]. intros [h|e] w3 Hs3 Hh; [subst h|done].
    unfold io. repeat wp_step. apply wp_call; [done|]. unfold wp at 1. cbn beta iota delta [map_err]. 
    apply (wp_remove_other name b); [by intros ->| |].
    + destruct Hs3 as (Hi3 & Hn3 & _). exists i, (sync_inode n). cbn. rewrite lookup_alter_eq, Hi3, Hi2, Hn, Hn3, Hn2. done.
    + intros [[]|e] w4 Hh; [|done]. apply (wp_sync name b); [done|]. auto.
  - destruct res as [[]|e].
    + repeat wp_step. apply (wp_sync name b); [by eapply holds_renamed|]. auto.
    + wp_step. by destruct e as [| | |[| |]| |].
Qed.

(** The entry of CURRENT after a rename and a directory synchronization. *)
Lemma wp_replaced S temp cur (Q : result PersistError unit -> World -> Prop) w w0 :
  world_ok w0 -> entry S CURRENT_FILE_NAME w0 -> holds temp cur w0 -> renamed temp CURRENT_FILE_NAME w0 w ->
  preserves [CURRENT_FILE_NAME] w0 w ->
  (forall res w', preserves [CURRENT_FILE_NAME] w0 w' ->
     entry (fun c => S c \/ c = Some cur) CURRENT_FILE_NAME w' ->
     (res = Ok tt -> entry (eq (Some cur)) CURRENT_FILE_NAME w') -> Q res w') ->
  wp sync Q w.
Proof.
  intros Hw HE Hh Hr Hp HQ. pose proof (holds_renamed _ _ _ _ _ Hh Hr) as Hh'.
  assert (HE' : entry (fun c => S c \/ c = Some cur) CURRENT_FILE_NAME w).
  { destruct Hr as (i & Hi & Hs). rewrite <- Hs. by apply entry_moved. }
  unfold sync, io. wp_step. apply wp_call.
  - intros k _. apply HQ; [|exact HE'|done]. eapply preserves_trans; [exact Hp|]. apply preserves_same; [apply Hp|done].
  - destruct Hp as [Hok Hp]. assert (Hf : preserves [] w (synced_dir (tick w))).
    { apply preserves_tick; [done|]. apply preserves_fsync. auto. }
    apply HQ; [eapply preserves_trans; [done|]; eapply preserves_weaken; [exact Hf|set_solver]| |].
    + apply Hf; [|set_solver|done]. by intros [? ?].
    + intros _. by apply (holds_synced _ _ (tick w)).
Qed.

(** What [replace_current] leaves under CURRENT. *)
Definition replaced (S : option bytes -> Prop) (cur : bytes) (w : World)
    (res : result PersistError unit) (published : bool) (w' : World) : Prop :=
  preserves [CURRENT_FILE_NAME] w w' /\
  match res with
  | Ok _ => entry (eq (Some cur)) CURRENT_FILE_NAME w'
  | Err _ => entry (fun c => S c \/ (published = true /\ c = Some cur)) CURRENT_FILE_NAME w'
  end.

Lemma replaced_same S cur w e published w' :
  world_ok w -> entry S CURRENT_FILE_NAME w -> same_disk w w' -> replaced S cur w (Err e) published w'.
Proof.
  intros Hw HE Hs. split; [by apply preserves_same|]. eapply entry_mono; [|by rewrite <- Hs]. auto.
Qed.

Lemma replaced_moved S cur temp w e w' :
  world_ok w -> staged temp -> entry S CURRENT_FILE_NAME w -> holds temp cur w -> preserves [CURRENT_FILE_NAME] w w' ->
  renamed temp CURRENT_FILE_NAME w w' -> replaced S cur w (Err e) true w'.
Proof.
  intros Hw Hs HE Hh Hp (i & Hi & Hd). split; [done|]. rewrite <- Hd.
  eapply entry_mono; [|by apply (entry_moved S temp _ cur)]. intros c [?|?]; auto.
Qed.

Lemma wp_replace_current S temp cur initial w :
  world_ok w -> staged temp -> holds temp cur w -> entry S CURRENT_FILE_NAME w ->
  wp (replace_current temp initial) (fun res s => replaced S cur w res (fst s) (snd s)) (false, w).
Proof.
  intros Hw Hst Hh HE. unfold replace_current. do 2 wp_step. wp_step.
  assert (HL : CURRENT_FILE_NAME ∈ [CURRENT_FILE_NAME]) by (by left).
  assert (Hrec : recognised CURRENT_FILE_NAME) by (apply fixed_recognised; by left).
  assert (Hsync : forall w', preserves [CURRENT_FILE_NAME] w w' -> renamed temp CURRENT_FILE_NAME w w' ->
    wp (on_snd sync) (fun res s => replaced S cur w res (fst s) (snd s)) (true, w')).
  { intros w' Hp Hr. wp_step. apply (wp_replaced S temp cur _ _ w); try done.
    intros res w'' Hp' HE' HO. split; [exact Hp'|]. destruct res as [[]|e]; [by apply HO|].
    eapply entry_mono; [|exact HE']. intros c [?|?]; auto. }
  destruct initial.
  - pose proof (preserving_publish_new _ _ _ Hst Hrec HL). do 3 wp_step.
    apply (wp_preserving [CURRENT_FILE_NAME]); [done..|]. apply wp_publish_new.
    intros res w1 [[Hs Hr]|[Hr Hx]] Hp; destruct res as [[]|e]; try done.
    + destruct e as [| | |[| |]| |]; repeat wp_step; by apply replaced_same.
    + wp_step. by apply Hsync.
    + destruct e as [| | |[| |]| |]; try done; repeat wp_step; by eapply replaced_moved.
  - pose proof (preserving_rename _ _ _ Hst Hrec HL). wp_step.
    apply (wp_preserving [CURRENT_FILE_NAME]); [done..|]. apply wp_rename.
    intros res w1 [[Hs Hr]|[Hr Hx]] Hp; destruct res as [[]|e]; try done.
    + by apply replaced_same.
    + by apply Hsync.
    + by eapply replaced_moved.
Qed.

(** What [publish_bytes] leaves: on success CURRENT is the new selector and the
    manifest is complete; on failure CURRENT is as before, or the error says that
    the publication is uncertain, and then the manifest is complete. *)
Definition publication (S : option bytes -> Prop) (b cur : bytes) (name : string) (w : World)
    (res : result PersistError unit) (w' : World) : Prop :=
  preserves [CURRENT_FILE_NAME; name] w w' /\
  match res with
  | Ok _ => entry (eq (Some cur)) CURRENT_FILE_NAME w' /\ entry (eq (Some b)) name w'
  | Err e =>
      entry S CURRENT_FILE_NAME w' \/
      (exists source, e = PControl (PublicationUncertain source)) /\
      entry (fun c => S c \/ c = Some cur) CURRENT_FILE_NAME w' /\ entry (eq (Some b)) name w'
  end.

Lemma selector_name s cur :
  selector_encode s = Ok cur -> cs_manifest_name s = ManifestGeneration.name (cs_generation s) /\ cs_generation s <> 0.
Proof. unfold selector_encode, selector_validate. intros E. ok_step. ok_step. by bool_inv. Qed.

Lemma manifest_not_staged g : ~ staged (ManifestGeneration.name g).
Proof. by intros [x Hx]. Qed.
Lemma manifest_not_current g : ManifestGeneration.name g <> CURRENT_FILE_NAME.
Proof. done. Qed.

(** Failures before the selector is replaced. *)
Lemma publication_early S b cur name w e w' :
  preserves [name] w w' -> name <> CURRENT_FILE_NAME -> entry S CURRENT_FILE_NAME w -> publication S b cur name w (Err e) w'.
Proof.
  intros Hp Hne HE. split; [eapply preserves_weaken; [done|set_solver]|]. left. apply Hp; [by intros [? ?]|set_solver|done].
Qed.

Lemma wp_publish_current S b cur name initial w :
  world_ok w -> entry S CURRENT_FILE_NAME w -> name <> CURRENT_FILE_NAME -> ~ staged name -> entry (eq (Some b)) name w ->
  wp (publish_current cur initial) (publication S b cur name w) w.
Proof.
  intros Hw HE Hne Hns Hb. set (L := [CURRENT_FILE_NAME]).
  assert (Hkeep : forall w', preserves L w w' -> preserves [CURRENT_FILE_NAME; name] w w' /\ entry (eq (Some b)) name w').
  { intros w' Hp. split; [eapply preserves_weaken; [exact Hp|set_solver]|]. apply Hp; [done|set_solver|done]. }
  unfold publish_current. wp_step. apply (wp_stage []); [done|]. intros [temp|e] w1 Hp1 Ht.
  2: { apply publication_early; [eapply preserves_weaken; [exact Hp1|set_solver]|done..]. }
  destruct Ht as [Hst Hh]. assert (HE1 : entry S CURRENT_FILE_NAME w1) by (apply Hp1; [by intros [? ?]|set_solver|done]).
  wp_step. pose proof (wp_replace_current S temp cur initial w1 (proj1 Hp1) Hst Hh HE1) as Hr. unfold wp in Hr |- * at 1.
  destruct (replace_current temp initial (false, w1)) as [res [published w2]]. destruct Hr as [Hp2 Hr]. cbn [fst snd] in *.
  assert (Hp : preserves L w w2) by (eapply preserves_trans; [eapply preserves_weaken; [exact Hp1|set_solver]|exact Hp2]).
  destruct res as [[]|e].
  { wp_step. destruct (Hkeep _ Hp). by split. }
  do 2 wp_step. apply (wp_preserving []); [by apply preserving_remove|apply Hp|].
  unfold wp. destruct (remove temp w2) as [r w3]. intros Hp3. cbn.
  assert (Hp' : preserves L w w3) by (eapply preserves_trans; [exact Hp|eapply preserves_weaken; [exact Hp3|set_solver]]).
  destruct (Hkeep _ Hp') as [Hk Hb']. split; [done|]. apply (proj2 Hp3) in Hr; [|by intros [? ?]|set_solver].
  destruct published; [right|left]; [split; [eauto|split; [|done]]|]; (eapply entry_mono; [|exact Hr]); intros c [?|[? ?]]; auto; done.
Qed.

Lemma wp_publish_bytes S b selector initial cur w :
  world_ok w -> entry S CURRENT_FILE_NAME w -> selector_encode selector = Ok cur -> 0 <= cs_generation selector <= u64_max ->
  wp (publish_bytes b selector initial) (publication S b cur (cs_manifest_name selector) w) w.
Proof.
  intros Hw HE Hcur Hgen. destruct (selector_name _ _ Hcur) as [Hname Hg].
  assert (Hns : ~ staged (cs_manifest_name selector)) by (rewrite Hname; apply manifest_not_staged).
  assert (Hnc : cs_manifest_name selector <> CURRENT_FILE_NAME) by (by rewrite Hname).
  assert (Hrec : recognised (cs_manifest_name selector)) by (rewrite Hname; apply manifest_recognised; lia).
  set (name := cs_manifest_name selector) in *. assert (Hnc' : ~ staged CURRENT_FILE_NAME) by (by intros [? ?]).
  assert (Hsame : forall e w', same_disk w w' -> publication S b cur name w (Err e) w').
  { intros e w' Hs. apply publication_early; [by apply preserves_same|done..]. }
  unfold publish_bytes. rewrite Hcur. fold name. do 2 wp_step.
  wp_step. apply wp_quiet; [apply _|]. intros [present|e] w1 Hs1; [|by apply Hsame].
  wp_step. apply wp_quiet; [destruct present; apply _|]. intros [differs|e] w2 Hs2; [|apply Hsame; by etrans].
  assert (Hs : same_disk w w2) by (by etrans). clear Hs1 Hs2.
  do 2 wp_step; [by apply Hsame|]. wp_step. apply (wp_stage [name]); [by rewrite <- Hs|].
  intros [temp|e] w3 Hp3 Ht; assert (Hp : preserves [name] w w3)
    by (eapply preserves_trans; [by apply preserves_same|done]); [|by apply publication_early].
  destruct Ht as [Hst Hh]. do 2 wp_step. eapply wp_mono; [by apply wp_publish_immutable; [..|apply Hp|]|].
  intros res w4 [Hp4 Hok]. cbn beta in Hp4, Hok. assert (Hp' : preserves [name] w w4) by (by eapply preserves_trans).
  destruct res as [[]|e].
  2: { do 2 wp_step. apply (wp_preserving [name]); [by apply preserving_remove|apply Hp'|].
       unfold wp. destruct (remove temp w4) as [r w5]. intros Hp5. apply publication_early; [by eapply preserves_trans|done..]. }
  assert (HE' : entry S CURRENT_FILE_NAME w4) by (apply Hp'; [done|set_solver|done]).
  eapply wp_mono; [apply (wp_publish_current S b cur name); [apply Hp'|auto..]|].
  intros r w5 [Hp5 HQ]. split; [|done]. eapply preserves_trans; [eapply preserves_weaken; [exact Hp'|set_solver]|done].
Qed.
End Steps.
