(* ===== verification/SelectProps.v ===== *)
(** Opening after a crash: the selection a crashed store opens with.

    On a disk with only known, regular entries and without I/O errors,
    [select_in] returns the selection that CURRENT names.  Together with
    Publication.v: after any publication and any crash the store opens with
    the old or the new selection. *)

From coqutil Require Import Byte.
From S2P Require Import Prelude Errors Externals Identity Frame Wire Snapshot Disk StoreDirectory Control Selection Names Publication.

(** The directory has only known names of regular files. *)
Definition tidy `{UuidText} (w : World) : Prop :=
  forall x i, names w !! x = Some i ->
    recognised x /\ exists n, inodes w !! i = Some n /\ regular n = true /\ single_link n = true.

#[export] Instance tidy_proper `{UuidText} : Proper (same_disk ==> iff) tidy.
Proof. intros w w' (Hi & Hn & _). unfold tidy. by rewrite Hi, Hn. Qed.
#[export] Instance content_proper : Proper (same_disk ==> eq ==> eq) content.
Proof. intros w w' (Hi & Hn & _) x _ <-. unfold content, lookup. by rewrite Hi, Hn. Qed.

Section Crash.
Context `{UuidText}.

Lemma tidy_crash w w' : world_ok w -> crash w w' -> tidy w'.
Proof.
  intros Hw (HN & HI & HK & _) x i Hx. destruct (HN x) as (d & Hd & E). rewrite E in Hx.
  destruct (ok_ids _ Hw _ _ _ Hd Hx) as (_ & Hr & n & Hn & Hreg & Hl). split; [done|].
  destruct (HK i n Hn) as [n' Hn']. exists n'. destruct (HI i n' Hn') as (m & Hm & _ & -> & ->).
  rewrite Hn in Hm. injection Hm as <-. done.
Qed.

(** A crash leaves what [entry] says. *)
Lemma entry_crash S x w w' : entry S x w -> crash w w' -> S (content w' x).
Proof.
  intros HE (HN & HI & HK & _). destruct (HN x) as (d & Hd & E). specialize (HE d Hd). unfold content, lookup. rewrite E.
  destruct (d !! x) as [j|]; [|done]. destruct HE as (n & Hn & Hc & HS). destruct (HK j n Hn) as [n' Hn'].
  destruct (HI j n' Hn') as (m & Hm & [_ Hs] & _). rewrite Hn in Hm. injection Hm as <-. cbn. rewrite Hn'. cbn. by rewrite Hs.
Qed.
End Crash.

(** *** What the control files of a store mean

    The format of CURRENT and of the three kinds of root manifest, described by what
    they contain and not by the code that reads them. *)

Section Format.
Context `{Blake3} `{LogicalCodecs}.

(** [b] is one value and nothing else. *)
Definition exactly `{Postcard T} (v : T) (b : bytes) : Prop := take_from_bytes b = Some (v, []).
(** A control record: an envelope of version 1 with the digest of its payload. *)
Definition enveloped `{Postcard T} (magic : string) (v : T) (b : bytes) : Prop :=
  zlen b <= 4096 /\ exists body,
    exactly {| Codec.magic := ascii_bytes magic; Codec.version := 1; Codec.body := body; Codec.digest := blake3 body |} b /\ exactly v body.

(** Text of a bounded length without control characters, in UTF-8. *)
Record label_text (s : bytes) : Prop := {
  lt_length : 1 <= zlen s <= 96;
  lt_chars : forall i b, s !! i = Some b -> 32 <= u8 b /\ u8 b <> 127 /\ (u8 b = 194 -> forall c, s !! S i = Some c -> ~ (128 <= u8 c <= 159))
}.
Definition version4 (id : bytes) : Prop := u8 (byte_at id 6) / 16 = 4 /\ u8 (byte_at id 8) / 64 = 2.
(** The metadata of a manifest: format 2.0, a place in the history of its store. *)
Record metadata_ok (m : EmptyManifest) : Prop := {
  mo_format : em_format m = [2; 0];
  mo_store : em_store_id m <> replicate 16 x00;
  mo_epoch : em_epoch m <> 0;
  mo_generation : em_generation m <> 0;
  mo_parent : match em_parent m with
              | None => em_generation m = 1
              | Some p => parent_generation p <> 0 /\ em_generation m = parent_generation p + 1 /\ em_generation m <= u64_max
              end;
  mo_profile : label_text (profile (em_identity m));
  mo_collation : label_text (collation (em_identity m))
}.
Record selector_ok (s : CurrentSelector) : Prop := {
  so_store : cs_store_id s <> replicate 16 x00;
  so_epoch : cs_epoch s <> 0;
  so_generation : cs_generation s <> 0;
  so_name : cs_manifest_name s = ManifestGeneration.name (cs_generation s)
}.
(** The manifest is the one the selector is for, with the identity that is expected. *)
Record is_for (m : EmptyManifest) (s : CurrentSelector) (expected : CompatibilityIdentity) : Prop := {
  if_store : em_store_id m = cs_store_id s;
  if_epoch : em_epoch m = cs_epoch s;
  if_generation : em_generation m = cs_generation s;
  if_identity : em_identity m = expected
}.
(** The snapshot of generation [g]: its name, and room for the frame around it. *)
Definition snapshot_fits (d : SnapshotDescriptor) (g : Z) : Prop :=
  SnapshotDescriptor.name d = snapshot_name g /\ 208 <= SnapshotDescriptor.bytes d <= Limits.bytes Limits.default + 208.
(** A checkpoint of the first segment. *)
Record checkpoint_ok (m : DataManifest) : Prop := {
  ck_store : Position.store (SnapshotDescriptor.boundary (dm_snapshot m)) = em_store_id (dm_metadata m);
  ck_version : version4 (em_store_id (dm_metadata m));
  ck_epoch : Position.epoch (SnapshotDescriptor.boundary (dm_snapshot m)) = em_epoch (dm_metadata m);
  ck_segment : Position.segment (SnapshotDescriptor.boundary (dm_snapshot m)) = dm_segment m;
  ck_nonzero : dm_segment m <> replicate 32 x00 /\ dm_origin m <> replicate 32 x00;
  ck_digest : Position.digest (SnapshotDescriptor.boundary (dm_snapshot m)) <> replicate 32 x00;
  ck_offset : Position.sequence (SnapshotDescriptor.boundary (dm_snapshot m)) = 0 <-> Position.offset (SnapshotDescriptor.boundary (dm_snapshot m)) = 0;
  ck_origin : Position.sequence (SnapshotDescriptor.boundary (dm_snapshot m)) = 0 -> Position.digest (SnapshotDescriptor.boundary (dm_snapshot m)) = dm_origin m;
  ck_snapshot : snapshot_fits (dm_snapshot m) (em_generation (dm_metadata m))
}.
(** A rotation: a new segment begins at [b] where the snapshot of the segment that
    began at [sb] ends, and the root before it is named. *)
Record rotation_ok (m : RotatingManifest) (b sb p : Position) (prev : PreviousRoot) : Prop := {
  ro_b : b = rot_base (rm_rotation m);
  ro_sb : sb = rot_snapshot_base (rm_rotation m);
  ro_p : p = SnapshotDescriptor.boundary (rm_snapshot m);
  ro_prev : prev = rot_previous (rm_rotation m);
  ro_store : Position.store b = em_store_id (rm_metadata m) /\ Position.store p = Position.store b /\ Position.store sb = Position.store p;
  ro_epoch : Position.epoch b = em_epoch (rm_metadata m) /\ Position.epoch p = Position.epoch b /\ Position.epoch sb = Position.epoch p;
  ro_old : Position.segment sb = Position.segment p /\ Position.segment sb <> replicate 32 x00 /\ Position.offset sb = 0 /\ Position.digest sb <> replicate 32 x00;
  ro_end : Position.sequence sb <= Position.sequence p /\ Position.digest p <> replicate 32 x00 /\
           (Position.sequence p = Position.sequence sb <-> Position.offset p = 0) /\ (Position.offset p = 0 -> Position.digest p = Position.digest sb);
  ro_new : Position.sequence b = Position.sequence p /\ Position.sequence b <> u64_max /\ Position.offset b = 0 /\
           Position.segment b <> replicate 32 x00 /\ Position.segment b <> Position.segment p /\ Position.digest b = Position.segment b;
  ro_previous : selector_ok (pr_selector prev) /\ pr_end prev = p /\ cs_store_id (pr_selector prev) = Position.store p /\
                cs_epoch (pr_selector prev) = Position.epoch p /\ cs_generation (pr_selector prev) < em_generation (rm_metadata m);
  ro_parent : em_parent (rm_metadata m) = Some {| parent_generation := cs_generation (pr_selector prev); parent_digest := cs_digest (pr_selector prev) |};
  ro_snapshot : snapshot_fits (rm_snapshot m) (em_generation (rm_metadata m))
}.

(** The manifest bytes [b] that selector [s] names mean a selection. *)
Inductive means (s : CurrentSelector) (expected : CompatibilityIdentity) (b : bytes) : Selected -> Prop :=
| means_log (m : LogicalManifest) : enveloped "SLLM" m b -> metadata_ok (lm_metadata m) -> version4 (em_store_id (lm_metadata m)) -> lm_segment m <> replicate 32 x00 ->
    is_for (lm_metadata m) s expected ->
    means s expected b {| sel_metadata := lm_metadata m; sel_selector := s; sel_checkpoint := None; sel_rotation := None;
      sel_context := {| store := em_store_id (lm_metadata m); epoch := em_epoch (lm_metadata m); sequence := 1; segment := lm_segment m; previous := cs_digest s |} |}
| means_checkpoint (m : DataManifest) : enveloped "SLDM" m b -> metadata_ok (dm_metadata m) -> checkpoint_ok m -> is_for (dm_metadata m) s expected ->
    means s expected b {| sel_metadata := dm_metadata m; sel_selector := s; sel_checkpoint := Some (dm_snapshot m); sel_rotation := None;
      sel_context := {| store := em_store_id (dm_metadata m); epoch := em_epoch (dm_metadata m); sequence := 1; segment := dm_segment m; previous := dm_origin m |} |}
| means_rotation (m : RotatingManifest) base sb p prev : enveloped "SLRM" m b -> metadata_ok (rm_metadata m) -> rotation_ok m base sb p prev -> is_for (rm_metadata m) s expected ->
    means s expected b {| sel_metadata := rm_metadata m; sel_selector := s; sel_checkpoint := Some (rm_snapshot m); sel_rotation := Some (rm_rotation m);
      sel_context := {| store := em_store_id (rm_metadata m); epoch := em_epoch (rm_metadata m); sequence := Position.sequence p + 1;
                        segment := Position.segment base; previous := Position.segment base |} |}.

(** The store is at the selection [x]: CURRENT names a manifest by its digest. *)
Definition stands_at (w : World) (expected : CompatibilityIdentity) (x : Selected) : Prop :=
  exists cur s b, content w "CURRENT" = Some cur /\ enveloped "SLCU" s cur /\ selector_ok s /\
    content w (cs_manifest_name s) = Some b /\ blake3 b = cs_digest s /\ means s expected b x.
End Format.

(** *** The decoders read this format *)

Ltac iff_bools := rewrite ?orb_false_iff, ?andb_false_iff, ?negb_false_iff, ?bool_decide_eq_true, ?bool_decide_eq_false, ?Z.eqb_eq, ?Z.eqb_neq, ?Z.ltb_ge, ?Z.leb_gt, ?Bool.eqb_true_iff.

Section Meaning.
Context `{Blake3} `{LogicalCodecsLaws}.

Lemma refuse_Ok {E A} (c : bool) (e : E) (r : result E A) a : (if c then Err e else r) = Ok a <-> c = false /\ r = Ok a.
Proof. destruct c; naive_solver. Qed.
Lemma let_Ok {E A B} (r : result E A) (k : A -> result E B) b : (let? a := r in k a) = Ok b <-> exists a, r = Ok a /\ k a = Ok b.
Proof. destruct r; naive_solver. Qed.

Lemma codec_decode_enveloped `{Postcard T} (v : T) magic b : Codec.decode b (ascii_bytes magic) = Ok v <-> enveloped magic v b.
Proof.
  unfold Codec.decode, enveloped, exactly. rewrite refuse_Ok, Z.ltb_ge. change Codec.MAX_CONTROL_BYTES with 4096. apply and_iff_compat_l. rewrite let_Ok. split.
  - intros ([[mg v' body dg] tail] & E%ok_or_Ok & K1). rewrite !refuse_Ok, let_Ok in K1. destruct K1 as (K1 & K2 & K3 & [x tail'] & E'%ok_or_Ok & K4). rewrite refuse_Ok in K4.
    cbn in *. revert K1 K2 K3 K4. iff_bools. intros [-> ->] <- -> [-> [= ->]]. by exists body.
  - intros (body & E & E'). eexists (_, _). rewrite E. split; [done|]. cbn. rewrite !bool_decide_true, E' by done. done.
Qed.
Lemma has_control_spec s : has_control s = false <->
  forall i b, s !! i = Some b -> 32 <= u8 b /\ u8 b <> 127 /\ (u8 b = 194 -> forall c, s !! S i = Some c -> ~ (128 <= u8 c <= 159)).
Proof.
  induction s as [|b s IH]; cbn [has_control]; [split; [by intros _ i b|done]|]. rewrite !orb_false_iff, IH. iff_bools. split.
  - intros [[[K1 K2] K3] K4] [|i] x Hx; [|by apply (K4 i)]. injection Hx as <-. split; [lia|]. split; [done|]. intros Hb c Hc. destruct s as [|y s]; [done|]. injection Hc as <-.
    destruct K3 as [|K3]; [lia|]. apply andb_false_iff in K3. rewrite !Z.leb_gt in K3. lia.
  - intros HA. split; [|intros i; apply (HA (S i))]. destruct (HA 0%nat b eq_refl) as (K1 & K2 & K3). split_and!; [lia|done|]. destruct (Z.eq_dec (u8 b) 194) as [Hb|]; [right|by left].
    destruct s as [|y s]; [done|]. specialize (K3 Hb y eq_refl). apply andb_false_iff. rewrite !Z.leb_gt. lia.
Qed.
Lemma label_text_spec s : identity_name_ok s = true <-> label_text s.
Proof.
  unfold identity_name_ok. rewrite negb_true_iff, !orb_false_iff, has_control_spec. iff_bools. split.
  - intros [[K1 K2] K3]. split; [|done]. destruct s; [done|]. unfold zlen in *. cbn [length] in *. lia.
  - intros [[K1 K2] K3]. split_and!; [intros ->; unfold zlen in K1; cbn in K1; lia|lia|done].
Qed.
Lemma metadata_spec m : manifest_validate m = Ok tt <-> metadata_ok m.
Proof.
  unfold manifest_validate, identity_validate, parent_ok. rewrite !refuse_Ok. cbn [forallb]. iff_bools. rewrite andb_true_r, andb_true_iff, !label_text_spec. split.
  - intros (K1 & [[K2 K3] K4] & K5 & [K6 K7] & _). split; try done. destruct (em_parent m) as [p|]; [|lia]. apply andb_true_iff in K5 as [K5 K8].
    apply bool_decide_eq_true, checked_add_Some in K8. lia.
  - intros [K1 K2 K3 K4 K5 K6 K7]. split_and!; try done. destruct (em_parent m) as [p|]; [|lia]. apply andb_true_iff. rewrite bool_decide_eq_true, checked_add_Some. lia.
Qed.
Lemma manifest_name_valid g : validate_name (ManifestGeneration.name g) = Ok tt.
Proof.
  apply plain_validate; [|done..]. unfold ManifestGeneration.name. by rewrite !all_chars_app, dec20_plain.
Qed.
Lemma selector_spec s : selector_validate s = Ok tt <-> selector_ok s.
Proof.
  unfold selector_validate. rewrite refuse_Ok. iff_bools. split; [intros [[[[K1 K2] K3] K4] _]; by split|]. intros [K1 K2 K3 K4]. rewrite K4 at 2. split; [done|apply manifest_name_valid].
Qed.
Lemma names_spec m s expected : names_other m s = false /\ negb (bool_decide (em_identity m = expected)) = false <-> is_for m s expected.
Proof. unfold names_other. iff_bools. split; [intros [[[? ?] ?] ?]; by split|intros []; done]. Qed.
Lemma version4_spec id : StoreId.from_bytes id = Ok id <-> version4 id.
Proof. unfold StoreId.from_bytes, version4. rewrite refuse_Ok. iff_bools. rewrite !Z.shiftr_div_pow2 by lia. tauto. Qed.
Lemma snapshot_fits_spec d g : bool_decide (SnapshotDescriptor.name d = snapshot_name g) = true /\ snapshot_size_bad d = false <-> snapshot_fits d g.
Proof. unfold snapshot_size_bad, snapshot_fits. change Snapshot.OVERHEAD with 208. iff_bools. tauto. Qed.
Lemma checkpoint_spec m : StoreId.from_bytes (Position.store (SnapshotDescriptor.boundary (dm_snapshot m))) = Ok (Position.store (SnapshotDescriptor.boundary (dm_snapshot m))) /\
  data_lineage_bad m = false <-> checkpoint_ok m.
Proof.
  unfold data_lineage_bad, zero32. rewrite version4_spec. set (p := SnapshotDescriptor.boundary (dm_snapshot m)). pose proof (snapshot_fits_spec (dm_snapshot m) (em_generation (dm_metadata m))) as HS.
  revert HS. iff_bools. intros HS. split.
  - intros (K1 & [[[[[[[[[K2 K3] K4] K5] K6] K7] K8] K9] K10] K11]). split; fold p; try done; [by rewrite <- K2|by rewrite <- K4| |intros K; by destruct K9 as [|K9]|by apply HS].
    split; intros K; revert K8; rewrite !(proj2 (Z.eqb_eq _ _) K); intros K8; [by apply Z.eqb_eq; rewrite <- K8|by apply Z.eqb_eq].
  - intros [K1 K2 K3 K4 [K5 K6] K7 K8 K9 [K10 K11]%HS]. fold p in K1, K3, K4, K7, K8, K9. split; [by rewrite K1|]. split_and!; try done; [by rewrite K4| |].
    + apply Bool.eq_iff_eq_true. by rewrite !Z.eqb_eq.
    + destruct (Z.eq_dec (Position.sequence p) 0); auto.
Qed.
Lemma rotation_spec m : selector_validate (pr_selector (rot_previous (rm_rotation m))) = Ok tt /\ rotation_lineage_bad m = false <->
  rotation_ok m (rot_base (rm_rotation m)) (rot_snapshot_base (rm_rotation m)) (SnapshotDescriptor.boundary (rm_snapshot m)) (rot_previous (rm_rotation m)).
Proof.
  rewrite selector_spec. unfold rotation_lineage_bad, zero32. set (b := rot_base (rm_rotation m)). set (sb := rot_snapshot_base (rm_rotation m)).
  set (p := SnapshotDescriptor.boundary (rm_snapshot m)). set (prev := rot_previous (rm_rotation m)).
  pose proof (snapshot_fits_spec (rm_snapshot m) (em_generation (rm_metadata m))) as HS.
  assert (HP : (match em_parent (rm_metadata m) with
     | None => true
     | Some parent => negb (parent_generation parent =? cs_generation (pr_selector prev)) || negb (bool_decide (parent_digest parent = cs_digest (pr_selector prev)))
     end) = false <-> em_parent (rm_metadata m) = Some {| parent_generation := cs_generation (pr_selector prev); parent_digest := cs_digest (pr_selector prev) |}).
  { destruct (em_parent (rm_metadata m)) as [[pg pd]|]; [|done]. cbn. iff_bools. naive_solver. }
  assert (HO : forall x y : Z, (x =? y) = (Position.offset p =? 0) <-> (x = y <-> Position.offset p = 0)).
  { intros x y. rewrite Bool.eq_iff_eq_true, !Z.eqb_eq. done. }
  revert HS. iff_bools. rewrite HP, HO. intros HS. split.
  - intros (K & K'). split; tauto.
  - intros [_ _ _ _ R1 R2 R3 R4 R5 R6 R7 [R8 R9]%HS]. assert (Position.offset p <> 0 \/ Position.digest p = Position.digest sb) by (destruct (Z.eq_dec (Position.offset p) 0); tauto). tauto.
Qed.
(** The magic of a record, and the dispatch on it. *)
Lemma enveloped_starts `{Postcard T} (v : T) (magic other : string) b : enveloped magic v b -> length (ascii_bytes other) = 4%nat ->
  starts_with b (ascii_bytes other) = bool_decide (ascii_bytes magic = ascii_bytes other).
Proof. intros HE%codec_decode_enveloped%Codec.decode_magic Hl. unfold starts_with. by rewrite Hl, HE. Qed.
Lemma data_select_means b s expected x : data_select b s expected = Ok x <->
  exists m, enveloped "SLDM" m b /\ metadata_ok (dm_metadata m) /\ checkpoint_ok m /\ is_for (dm_metadata m) s expected /\
    x = {| sel_metadata := dm_metadata m; sel_selector := s; sel_checkpoint := Some (dm_snapshot m); sel_rotation := None;
      sel_context := {| store := em_store_id (dm_metadata m); epoch := em_epoch (dm_metadata m); sequence := 1; segment := dm_segment m; previous := dm_origin m |} |}.
Proof.
  unfold data_select, data_decode. rewrite let_Ok. split.
  - intros (m & Hd & Hx). rewrite let_Ok in Hd. destruct Hd as (m' & He%codec_decode_enveloped & Hd). rewrite let_Ok in Hd. destruct Hd as ([] & Hm%metadata_spec & Hd).
    rewrite let_Ok in Hd. destruct Hd as (st & Hs & Hd). rewrite let_Ok in Hd. destruct Hd as (ep & _ & Hd). rewrite refuse_Ok in Hd. destruct Hd as [Hl [= ->]].
    rewrite !refuse_Ok in Hx. destruct Hx as (Hn & Hi & [= <-]). pose proof (StoreId.from_bytes_Ok _ _ Hs) as ->. pose proof (proj1 (checkpoint_spec m) (conj Hs Hl)) as HC.
    exists m. split_and!; [done..|by apply names_spec|]. by rewrite (ck_store _ HC), (ck_epoch _ HC).
  - intros (m & He%codec_decode_enveloped & Hm & HC & Hf%names_spec & ->). destruct Hf as [Hn Hi]. pose proof (proj2 (checkpoint_spec m) HC) as [Hs Hl]. exists m.
    rewrite He, (proj2 (metadata_spec _) Hm), Hs, Hl, Hn, Hi. rewrite (ck_store _ HC), (ck_epoch _ HC). split; [|done]. unfold StoreEpoch.new. by rewrite (proj2 (Z.eqb_neq _ _) (mo_epoch _ Hm)).
Qed.
Lemma rotating_select_means b s expected x : rotating_select b s expected = Ok x <->
  exists m base sb p prev, enveloped "SLRM" m b /\ metadata_ok (rm_metadata m) /\ rotation_ok m base sb p prev /\ is_for (rm_metadata m) s expected /\
    x = {| sel_metadata := rm_metadata m; sel_selector := s; sel_checkpoint := Some (rm_snapshot m); sel_rotation := Some (rm_rotation m);
      sel_context := {| store := em_store_id (rm_metadata m); epoch := em_epoch (rm_metadata m); sequence := Position.sequence p + 1;
                        segment := Position.segment base; previous := Position.segment base |} |}.
Proof.
  unfold rotating_select, rotating_decode. rewrite let_Ok. split.
  - intros (m & Hd & Hx). rewrite let_Ok in Hd. destruct Hd as (m' & He%codec_decode_enveloped & Hd). rewrite let_Ok in Hd. destruct Hd as ([] & Hm%metadata_spec & Hd).
    rewrite let_Ok in Hd. destruct Hd as ([] & Hs & Hd). rewrite refuse_Ok in Hd. destruct Hd as [Hl [= ->]].
    rewrite !refuse_Ok in Hx. destruct Hx as (Hn & Hi & [= <-]). pose proof (proj1 (rotation_spec m) (conj Hs Hl)) as HR. eexists m, _, _, _, _.
    split_and!; [done|done|exact HR|by apply names_spec|]. destruct HR as [_ _ _ _ [-> _] [-> _] _ _ (-> & _ & _ & _ & _ & ->) _ _ _]. done.
  - intros (m & base & sb & p & prev & He%codec_decode_enveloped & Hm & HR & Hf%names_spec & ->). destruct Hf as [Hn Hi].
    pose proof HR as [-> -> -> -> [E1 _] [E2 _] _ _ (E3 & _ & _ & _ & _ & E4) _ _ _]. pose proof (proj2 (rotation_spec m) HR) as [Hs Hl]. exists m.
    rewrite He, (proj2 (metadata_spec _) Hm), Hs, Hl, Hn, Hi. split; [done|]. by rewrite E1, E2, E3, E4.
Qed.
Lemma log_select_means b s expected x :
  (let? m := logical_decode b in
   refuse names_other (lm_metadata m) s || zero32 (lm_segment m) with PControl Lineage;
   refuse negb (bool_decide (em_identity (lm_metadata m) = expected)) with PControl Compatibility;
   Ok {| sel_context := context_of m s; sel_metadata := lm_metadata m; sel_selector := s; sel_checkpoint := None; sel_rotation := None |}) = Ok x <->
  exists m, enveloped "SLLM" m b /\ metadata_ok (lm_metadata m) /\ version4 (em_store_id (lm_metadata m)) /\ lm_segment m <> replicate 32 x00 /\ is_for (lm_metadata m) s expected /\
    x = {| sel_metadata := lm_metadata m; sel_selector := s; sel_checkpoint := None; sel_rotation := None;
      sel_context := {| store := em_store_id (lm_metadata m); epoch := em_epoch (lm_metadata m); sequence := 1; segment := lm_segment m; previous := cs_digest s |} |}.
Proof.
  unfold logical_decode. rewrite let_Ok. split.
  - intros (m & Hd & Hx). rewrite let_Ok in Hd. destruct Hd as (m' & He%codec_decode_enveloped & Hd). rewrite let_Ok in Hd. destruct Hd as ([] & Hm%metadata_spec & Hd).
    rewrite let_Ok in Hd. destruct Hd as (st & Hs & Hd). rewrite refuse_Ok in Hd. destruct Hd as [Hl [= ->]].
    rewrite !refuse_Ok, orb_false_iff in Hx. destruct Hx as ([Hn _] & Hi & [= <-]). pose proof (StoreId.from_bytes_Ok _ _ Hs) as ->. exists m.
    split_and!; [done|done|by apply version4_spec|by apply bool_decide_eq_false in Hl|by apply names_spec|done].
  - intros (m & He%codec_decode_enveloped & Hm & Hv%version4_spec & Hz & Hf%names_spec & ->). destruct Hf as [Hn Hi]. exists m.
    assert (Hl : zero32 (lm_segment m) = false) by (by apply bool_decide_eq_false). by rewrite He, (proj2 (metadata_spec _) Hm), Hv, Hl, Hn, Hi.
Qed.
Lemma select_bytes_means b s expected x : select_bytes b s expected = Ok x <-> blake3 b = cs_digest s /\ means s expected b x.
Proof.
  unfold select_bytes. rewrite refuse_Ok, negb_false_iff, bool_decide_eq_true. apply and_iff_compat_l. split.
  - destruct (starts_with b (ascii_bytes "SLDM")); [|destruct (starts_with b (ascii_bytes "SLRM"))].
    + intros (m & ? & ? & ? & ? & ->)%data_select_means. by constructor.
    + intros (m & base & sb & p & prev & ? & ? & ? & ? & ->)%rotating_select_means. by eapply means_rotation.
    + intros (m & ? & ? & ? & ? & ? & ->)%log_select_means. by constructor.
  - intros HM. destruct HM as [m He|m He|m base sb p prev He]; rewrite !(enveloped_starts _ _ _ _ He) by done.
    + rewrite !bool_decide_false by done. apply log_select_means. by exists m.
    + rewrite bool_decide_true by done. apply data_select_means. by exists m.
    + rewrite bool_decide_false, bool_decide_true by done. apply rotating_select_means. by exists m, base, sb, p, prev.
Qed.
End Meaning.

(** *** The selection that is read from a disk *)

(** The manifest that selector [s] names is read as the selection [x]. *)
Definition selects `{Blake3} `{HashHex} `{LogicalCodecs} (w : World) (s : CurrentSelector) (expected : CompatibilityIdentity) (x : Selected) : Prop :=
  exists b, content w (cs_manifest_name s) = Some b /\ zlen b <= Codec.MAX_CONTROL_BYTES /\ select_bytes b s expected = Ok x.

(** CURRENT is read as a selector that selects [x]; [opens_stands] says what this means. *)
Definition opens `{Blake3} `{HashHex} `{LogicalCodecs} (w : World) (expected : CompatibilityIdentity) (x : Selected) : Prop :=
  exists cur s, content w CURRENT_FILE_NAME = Some cur /\ zlen cur <= Codec.MAX_CONTROL_BYTES /\ selector_decode cur = Ok s /\
    selects w s expected x.

Lemma opens_functional `{Blake3} `{HashHex} `{LogicalCodecs} w expected x y : opens w expected x -> opens w expected y -> x = y.
Proof.
  intros (cur & s & HC & _ & Hs & b & Hb & _ & Hx) (cur' & s' & HC' & _ & Hs' & b' & Hb' & _ & Hx').
  assert (cur' = cur) as -> by congruence. assert (s' = s) as -> by congruence. congruence.
Qed.

Lemma opens_stands `{Blake3} `{HashHex} `{LogicalCodecsLaws} w expected x : opens w expected x <-> stands_at w expected x.
Proof.
  unfold opens, selects, stands_at, selector_decode. split.
  - intros (cur & s & HC & _ & Hs & b & Hb & _ & Hx). rewrite let_Ok in Hs. destruct Hs as (s' & He & Hs). rewrite let_Ok in Hs. destruct Hs as ([] & Hv & [= ->]).
    apply codec_decode_enveloped in He. apply selector_spec in Hv. apply select_bytes_means in Hx as [Hd Hm]. by exists cur, s, b.
  - intros (cur & s & b & HC & He & Hv & Hb & Hd & Hm). exists cur, s. split; [done|]. split; [by apply He|].
    rewrite (proj2 (codec_decode_enveloped _ _ _) He), (proj2 (selector_spec _) Hv). split; [done|]. exists b. split; [done|]. split; [|by apply select_bytes_means].
    destruct Hm as [m He'|m He'|m ? ? ? ? He']; apply He'.
Qed.

Section Select.
Context {M : Machine} (HM : reliable M) `{!MachineLaws} `{Blake3} `{HashHex} `{LogicalCodecsLaws} `{UuidText}.

(** The method succeeds with [a] and leaves the disk alone. *)
Definition yields {E A} (m : method World E A) (a : A) (w : World) : Prop :=
  wp m (fun r w' => r = Ok a /\ same_disk w w') w.

Lemma yields_bind {E A B} (m : method World E A) (k : A -> method World E B) a b w :
  yields m a w -> (forall w', same_disk w w' -> yields (k a) b w') -> yields (bind m k) b w.
Proof.
  intros Hm Hk. apply wp_bind. eapply wp_mono; [exact Hm|]. intros r w' [-> Hs].
  eapply wp_mono; [by apply Hk|]. intros r w'' [-> Hs']. split; [done|]. by etrans.
Qed.

Lemma yields_map_error {E E' A} (f : E -> E') (m : method World E A) a w : yields m a w -> yields (map_error f m) a w.
Proof. intros Hm. apply wp_map_error. eapply wp_mono; [exact Hm|]. by intros r w' [-> Hs]. Qed.

Lemma yields_ret {E A} (a : A) w : yields (E := E) (ret a) a w.
Proof. by apply wp_ret. Qed.

Lemma yields_of_result {E A} (r : result E A) a w : r = Ok a -> yields (of_result r) a w.
Proof. intros ->. by apply wp_of_result. Qed.

Lemma yields_fail_if {E} c (e : E) w : c = false -> yields (fail_if c e) tt w.
Proof. by intros ->. Qed.

Lemma yields_run {E A} (m : method World E A) a w : yields m a w -> exists w', m w = (Ok a, w') /\ same_disk w w'.
Proof. unfold yields, wp. destruct (m w) as [r w']. intros [-> Hs]. eauto. Qed.

Lemma yields_for_each {E A} (f : A -> method World E unit) l w :
  (forall x w', x ∈ l -> same_disk w w' -> yields (f x) tt w') -> yields (for_each f l) tt w.
Proof.
  revert w. induction l as [|x l IH]; intros w Hf; cbn [for_each]; [apply yields_ret|].
  apply (yields_bind _ _ tt); [apply Hf; [by left|done]|]. intros w' Hs. apply IH.
  intros y w'' Hy Hs'. apply Hf; [by right|by etrans].
Qed.

Lemma yields_metadata x i n w :
  validate_name x = Ok tt -> names w !! x = Some i -> inodes w !! i = Some n -> regular n = true -> single_link n = true ->
  yields (regular_metadata x) (Some (metadata_of n)) w.
Proof.
  intros Hv Hx Hn Hr Hl. unfold regular_metadata, metadata. eapply yields_bind.
  - eapply yields_bind; [by apply yields_of_result|]. intros w1 (Hi1 & Hn1 & _). apply yields_map_error, wp_reliable; [done|].
    unfold wp, lookup. cbn. by rewrite Hn1, Hx; cbn; rewrite Hi1, Hn.
  - intros w1 _. eapply yields_bind; [apply yields_fail_if; cbn; by rewrite Hr, Hl|]. intros w2 _. apply yields_ret.
Qed.

(** Opening a regular entry. *)
Lemma yields_openat x i w : names w !! x = Some i -> yields (openat x false) {| inode := i; cursor := 0 |} w.
Proof. intros Hx. unfold yields, wp, openat, call. rewrite (HM (clock w)). cbn [names tick]. by rewrite Hx. Qed.

Lemma yields_fstat h n w : inodes w !! inode h = Some n -> yields (fstat h) (metadata_of n) w.
Proof. intros Hn. apply wp_reliable; [done|]. unfold wp. cbn [inodes tick]. by rewrite Hn. Qed.

Lemma yields_open x i n w :
  validate_name x = Ok tt -> names w !! x = Some i -> inodes w !! i = Some n -> regular n = true -> single_link n = true ->
  yields (open_file x false) {| inode := i; cursor := 0 |} w.
Proof.
  intros Hv Hx Hn Hr Hl. unfold open_file, io, is_regular. eapply yields_bind; [by apply yields_of_result|].
  intros w1 Hs1. eapply (yields_bind _ _ tt).
  { eapply yields_bind; [|intros; apply yields_ret]. destruct Hs1 as (Hi1 & Hn1 & _).
    by eapply (yields_metadata x i n); rewrite ?Hi1, ?Hn1. }
  intros w2 Hs2. eapply yields_bind.
  { apply yields_map_error, yields_openat. destruct Hs1 as (_ & Hn1 & _), Hs2 as (_ & -> & _). by rewrite Hn1. }
  intros w3 Hs3. eapply yields_bind.
  { apply yields_map_error. eapply yields_bind; [|intros; apply yields_ret]. apply (yields_fstat _ n).
    destruct Hs1 as (Hi1 & _), Hs2 as (Hi2 & _), Hs3 as (-> & _). by rewrite Hi2, Hi1. }
  intros w4 _. eapply yields_bind; [apply yields_fail_if; cbn; by rewrite Hr, Hl|]. intros w5 _. apply yields_ret.
Qed.

(** [x] is a regular file that can be opened. *)
Definition openable (x : string) (w : World) : Prop :=
  validate_name x = Ok tt /\ exists i n, names w !! x = Some i /\ inodes w !! i = Some n /\ regular n = true /\ single_link n = true.

(** Reading a control record of a tidy directory. *)
Lemma yields_read_bounded x b w :
  tidy w -> content w x = Some b -> zlen b <= Codec.MAX_CONTROL_BYTES -> yields (read_bounded x) b w.
Proof.
  intros HT HC Hb. unfold content, lookup in HC. destruct (names w !! x) as [i|] eqn:Hx; [|done].
  destruct (HT x i Hx) as ((Hv & _) & n & Hn & Hr & Hl). cbn in HC. rewrite Hn in HC. injection HC as <-.
  unfold read_bounded, read_up_to, io. eapply yields_bind; [by eapply yields_open|].
  intros w1 Hs1. eapply yields_bind; [apply yields_map_error, (yields_fstat _ n); by destruct Hs1 as (-> & _)|].
  intros w2 Hs2. eapply yields_bind; [apply yields_fail_if; cbn; lia|].
  intros w3 Hs3. eapply yields_bind.
  { eapply yields_bind; [|intros; apply yields_ret]. apply yields_map_error, wp_reliable; [done|].
    destruct Hs1 as (Hi1 & _), Hs2 as (Hi2 & _), Hs3 as (Hi3 & _). unfold wp. cbn [inodes tick inode cursor].
    rewrite Hi3, Hi2, Hi1, Hn, drop_0. done. }
  cbn [fst]. rewrite take_ge by (unfold Codec.MAX_CONTROL_BYTES, zlen in *; lia).
  intros w4 _. eapply yields_bind; [apply yields_fail_if; lia|]. intros w5 _. apply yields_ret.
Qed.

Lemma yields_select_entry x w : tidy w -> is_Some (names w !! x) -> yields (select_entry x) tt w.
Proof.
  intros HT [i Hx]. destruct (HT x i Hx) as ((Hv & Ht & Hk) & n & Hn & Hr & Hl). unfold select_entry.
  eapply yields_bind; [apply yields_map_error; by eapply yields_metadata|]. intros w1 _. rewrite Ht, Hk. by apply yields_fail_if.
Qed.

Lemma selector_decode_encode s b : selector_encode s = Ok b -> selector_decode b = Ok s.
Proof.
  unfold selector_encode, selector_decode. intros E. ok_step. rewrite (Codec.envelope_decode_encode _ _ _ E). cbn. by rewrite Hok.
Qed.

Lemma selector_encode_bounded s b : selector_encode s = Ok b -> zlen b <= Codec.MAX_CONTROL_BYTES.
Proof. unfold selector_encode. intros E. ok_step. exact (Codec.encode_bounded _ _ _ E). Qed.

Lemma opens_encoded w expected s cur b x :
  content w CURRENT_FILE_NAME = Some cur -> selector_encode s = Ok cur -> content w (cs_manifest_name s) = Some b ->
  zlen b <= Codec.MAX_CONTROL_BYTES -> select_bytes b s expected = Ok x -> opens w expected x.
Proof.
  intros HC Hs Hb Hl Hx. exists cur, s. split; [done|]. split; [by eapply selector_encode_bounded|].
  split; [by apply selector_decode_encode|]. by exists b.
Qed.

(** [select_in] follows CURRENT. *)
Lemma yields_select_in expected sel w :
  tidy w -> Z.of_nat (length (readdir (names w))) <= u64_max ->
  identity_validate expected = Ok tt -> opens w expected sel -> yields (select_in expected) sel w.
Proof.
  intros HT Hlen Hid (cur & s & HC & Hlc & Hcur & b & Hb & Hlb & Hsel). unfold select_in, entries, entries_bounded.
  eapply yields_bind; [by apply yields_of_result|]. intros w1 Hs1. eapply yields_bind.
  { eapply (yields_bind _ _ (readdir (names w))).
    - apply yields_map_error, wp_reliable; [done|]. unfold wp. cbn [names tick]. by destruct Hs1 as (_ & -> & _).
    - intros w2 _. eapply yields_bind; [apply yields_fail_if; lia|]. intros w3 _. apply yields_ret. }
  intros w2 Hs2. assert (Hs : same_disk w w2) by (by etrans). clear w1 Hs1 Hs2. eapply yields_bind.
  { apply yields_for_each. intros x w3 Hx Hs3. assert (Hs' : same_disk w w3) by (by etrans).
    apply yields_select_entry; [by rewrite <- Hs'|]. destruct Hs' as (_ & -> & _). by apply readdir_all. }
  intros w3 Hs3. assert (Hs' : same_disk w w3) by (by etrans). clear w2 Hs Hs3. eapply yields_bind.
  { apply yields_map_error. eapply yields_bind; [apply (yields_read_bounded _ cur); [by rewrite <- Hs'..|done]|].
    intros w4 _. by apply yields_of_result. }
  intros w4 Hs4. assert (Hs : same_disk w w4) by (by etrans). apply yields_map_error. unfold select_root.
  eapply yields_bind; [apply (yields_read_bounded _ b); [by rewrite <- Hs..|done]|]. intros w5 _. by apply yields_of_result.
Qed.
End Select.

(** Whatever fails, a selection that is returned is the one the disk determines. *)
Section Sound.
Context `{Machine} `{Blake3} `{HashHex} `{LogicalCodecs} `{UuidText}.

Lemma wp_select_root s expected w :
  wp (select_root s expected) (fun res w' => same_disk w w' /\ forall x, res = Ok x -> selects w s expected x) w.
Proof.
  unfold select_root. wp_step. apply wp_read_bounded. intros [b|e] w1 Hs Hb; [|done]. wp_step. split; [done|].
  intros x Hx. destruct Hb as [Hb Hl]. by exists b.
Qed.

#[export] Instance quiet_select_root s expected : Quiet (select_root s expected).
Proof. unfold select_root. apply _. Qed.
#[export] Instance quiet_select_entry x : Quiet (select_entry x).
Proof. unfold select_entry. apply quiet_bind; [apply _|]. intros _. destruct (to_str x); apply _. Qed.

Lemma wp_select_in expected w :
  wp (select_in expected) (fun res w' => same_disk w w' /\ forall x, res = Ok x -> opens w expected x) w.
Proof.
  unfold select_in. wp_step. apply wp_quiet; [apply _|]. intros [[]|e] w1 Hs1; [|done].
  wp_step. apply wp_quiet; [unfold entries; apply _|]. intros [l|e] w2 Hs2; [|split; [by etrans|done]].
  wp_step. apply wp_quiet; [apply _|]. assert (Hs : same_disk w w2) by (by etrans). clear Hs1 Hs2.
  intros [[]|e] w3 Hs3; [|split; [by etrans|done]]. assert (Hs' : same_disk w w3) by (by etrans). clear Hs Hs3.
  do 3 wp_step. apply wp_read_bounded. intros [cur|e] w4 Hs4 Hc; cbn [map_err]; [|split; [by etrans|done]].
  wp_step. assert (Hs : same_disk w w4) by (by etrans). destruct (selector_decode cur) as [s|e] eqn:Hd; cbn [map_err]; [|done].
  wp_step. eapply wp_mono; [apply wp_select_root|]. intros res w5 [Hs5 Hx]. split; [by etrans|].
  intros x E. destruct res as [y|e]; [|done]. injection E as <-. destruct (Hx y eq_refl) as (b & Hb & Hl & Hsel).
  rewrite <- Hs' in Hc. rewrite <- Hs in Hb. destruct Hc as [Hc Hlc]. exists cur, s. split_and!; [done..|]. by exists b.
Qed.
End Sound.

(** What a publication, with any faults, leaves after a crash: the new selector
    with its manifest, or an old content of CURRENT; and every other entry. *)
Lemma publication_crash `{UuidText} S b cur name w r w' w'' :
  publication S b cur name w r w' -> crash w' w'' ->
  tidy w'' /\
  (forall x c, ~ staged x -> x <> CURRENT_FILE_NAME -> x <> name -> entry (eq c) x w -> content w'' x = c) /\
  match r with
  | Ok _ => content w'' CURRENT_FILE_NAME = Some cur /\ content w'' name = Some b
  | Err e =>
      S (content w'' CURRENT_FILE_NAME) \/
      (exists source, e = PControl (PublicationUncertain source)) /\
      content w'' CURRENT_FILE_NAME = Some cur /\ content w'' name = Some b
  end.
Proof.
  intros [Hp HQ] HC. split; [eapply tidy_crash; [apply Hp|done]|]. split.
  { intros x c Hs H1 H2 HE. symmetry. apply (entry_crash (eq c) x w'); [|done]. apply Hp; [done| |done].
    by intros [->|[->|[]%elem_of_nil]%elem_of_cons]%elem_of_cons. }
  destruct r as [[]|e].
  - destruct HQ as [H1 H2]. split; symmetry; by eapply (entry_crash (eq _)).
  - destruct HQ as [HQ|(He & H1 & H2)]; [left; by eapply entry_crash|].
    destruct (entry_crash _ _ _ _ H1 HC) as [HS|Hc]; [by left|right]. split; [done|]. split; [done|].
    symmetry. by eapply (entry_crash (eq _)).
Qed.

(** ** Properties *)

(** C2: publishing is atomic under crashes.  The store has the published
    selection [sel_old] and publishes the manifest bytes [b] under the selector
    [new].  Whatever I/O errors occur, and whatever crash follows, opening the
    store without further errors selects [sel_new] if the publication returned
    [Ok], selects [sel_old] if it returned an error other than
    [PublicationUncertain], and selects one of the two otherwise.  A process
    that stops in the middle is covered: this is the machine whose later calls
    all fail without effect. *)
Theorem publish_then_crash {M1 M2 : Machine} `{!MachineLaws (H := M1)} `{!MachineLaws (H := M2)}
    `{Blake3} `{HashHex} `{LogicalCodecsLaws} `{UuidLaws}
    expected old cur_old b_old sel_old new cur b sel_new initial w r w' w'' :
  reliable M2 -> world_ok w -> identity_validate expected = Ok tt ->
  selector_encode old = Ok cur_old -> select_bytes b_old old expected = Ok sel_old -> zlen b_old <= Codec.MAX_CONTROL_BYTES ->
  entry (eq (Some cur_old)) CURRENT_FILE_NAME w -> entry (eq (Some b_old)) (cs_manifest_name old) w ->
  selector_encode new = Ok cur -> select_bytes b new expected = Ok sel_new -> zlen b <= Codec.MAX_CONTROL_BYTES ->
  0 <= cs_generation old < cs_generation new -> cs_generation new <= u64_max ->
  publish_bytes (H := M1) b new initial w = (r, w') -> crash w' w'' ->
  Z.of_nat (length (readdir (Machine := M2) (names w''))) <= u64_max ->
  exists sel w3, select_in (H := M2) expected w'' = (Ok sel, w3) /\
    match r with
    | Ok _ => sel = sel_new
    | Err (PControl (PublicationUncertain _)) => sel = sel_old \/ sel = sel_new
    | Err _ => sel = sel_old
    end.
Proof.
  intros HM Hw Hid Hco Hso Hbo HEc HEm Hcn Hsn Hbn Hgen Hmax E HC Hlen.
  destruct (selector_name _ _ Hco) as [Hno _], (selector_name _ _ Hcn) as [Hnn _].
  pose proof (wp_run _ _ _ _ _ (wp_publish_bytes (H := M1) (eq (Some cur_old)) b new initial cur w Hw HEc Hcn ltac:(lia)) E) as HP.
  destruct (publication_crash _ _ _ _ _ _ _ _ HP HC) as (HT & Hother & HQ).
  assert (Hm : content w'' (cs_manifest_name old) = Some b_old).
  { apply Hother; [rewrite Hno; apply manifest_not_staged|by rewrite Hno| |done].
    rewrite Hno, Hnn. intros Hn%manifest_name_inj; lia. }
  assert (Hnew : content w'' CURRENT_FILE_NAME = Some cur -> content w'' (cs_manifest_name new) = Some b ->
    exists w3, select_in (H := M2) expected w'' = (Ok sel_new, w3)).
  { intros H5 H6. destruct (yields_run _ _ _ (yields_select_in HM _ sel_new _ HT Hlen Hid (opens_encoded _ _ _ _ _ _ H5 Hcn H6 Hbn Hsn)))
      as (w3 & ? & _). eauto. }
  assert (Hold : content w'' CURRENT_FILE_NAME = Some cur_old -> exists w3, select_in (H := M2) expected w'' = (Ok sel_old, w3)).
  { intros H5. destruct (yields_run _ _ _ (yields_select_in HM _ sel_old _ HT Hlen Hid (opens_encoded _ _ _ _ _ _ H5 Hco Hm Hbo Hso)))
      as (w3 & ? & _). eauto. }
  destruct r as [[]|e].
  - destruct HQ as [H5 H6]. destruct (Hnew H5 H6) as [w3 E3]. eauto.
  - destruct HQ as [H5|([src ->] & H5 & H6)].
    + destruct (Hold (eq_sym H5)) as [w3 E3]. exists sel_old, w3. split; [done|].
      repeat case_match; auto.
    + destruct (Hnew H5 H6) as [w3 E3]. eauto.
Qed.

(** C10: [select_in] implements the format of a store.  The relation [stands_at]
    describes the selection of a store by what its files contain: CURRENT is an
    envelope around a selector, the selector names a manifest by its digest, and the
    manifest is one of the three kinds of root, complete, for this store, epoch,
    generation and identity, with a coherent lineage.  On any machine a returned
    selection is the one the store stands at and the disk is left alone; on a machine
    without faults a store that stands at a selection and has only recognised entries
    is always opened. *)
Theorem select_in_refines {M : Machine} `{!MachineLaws} `{Blake3} `{HashHex} `{LogicalCodecsLaws} `{UuidText} expected w :
  tidy w -> Z.of_nat (length (readdir (names w))) <= u64_max -> label_text (profile expected) -> label_text (collation expected) ->
  (forall r w', select_in expected w = (r, w') -> same_disk w w' /\ forall x, r = Ok x -> stands_at w expected x) /\
  (reliable M -> forall x, stands_at w expected x -> exists w', select_in expected w = (Ok x, w') /\ same_disk w w').
Proof.
  intros HT Hlen Hp Hc. split.
  - intros r w' E. pose proof (wp_select_in expected w) as Hw. unfold wp in Hw. rewrite E in Hw. destruct Hw as [Hs Hx]. split; [done|]. intros x Er. by apply opens_stands, Hx.
  - intros HM x Hx%opens_stands. assert (Hid : identity_validate expected = Ok tt) by (unfold identity_validate; cbn [forallb]; by rewrite !(proj2 (label_text_spec _))).
    destruct (yields_run _ _ _ (yields_select_in HM _ x _ HT Hlen Hid Hx)) as (w' & E & Hs). eauto.
Qed.
