(* ===== verification/Reader.v ===== *)
(** The log reader (logical_stream/reader.rs, logical_stream/reader_snapshot.rs).

    A reader holds the extent of the log it captured when it was opened, the
    context of the next record, and a shared lock on the selected manifest.
    Its methods act on the reader and the world. *)

From S2P Require Import Prelude Errors Externals Identity Frame Wire Snapshot Disk StoreDirectory Control Selection.
From coqutil Require Import Byte.

(** [file] is a [Take<File>]: [rest] bytes may still be read. *)
Record LogicalReader := {
  file : Handle;
  rest : Z;
  context : Context;
  limit : Z;
  ended : bool;
  failed : bool;
  incomplete_flag : bool;
  position : Position;
  selected : Selected;
  lease : Handle;
  captured_bytes : Z;
  last_record_offset : Z
}.

(** Field updates. *)
Definition set_file (h : Handle) (n : Z) (r : LogicalReader) : LogicalReader := {|
  file := h; rest := n; context := context r; limit := limit r; ended := ended r; failed := failed r;
  incomplete_flag := incomplete_flag r; position := position r; selected := selected r; lease := lease r;
  captured_bytes := captured_bytes r; last_record_offset := last_record_offset r |}.
Definition set_ended (b : bool) (r : LogicalReader) : LogicalReader := {|
  file := file r; rest := rest r; context := context r; limit := limit r; ended := b; failed := failed r;
  incomplete_flag := incomplete_flag r; position := position r; selected := selected r; lease := lease r;
  captured_bytes := captured_bytes r; last_record_offset := last_record_offset r |}.
Definition set_failed (r : LogicalReader) : LogicalReader := {|
  file := file r; rest := rest r; context := context r; limit := limit r; ended := ended r; failed := true;
  incomplete_flag := incomplete_flag r; position := position r; selected := selected r; lease := lease r;
  captured_bytes := captured_bytes r; last_record_offset := last_record_offset r |}.
Definition set_incomplete (r : LogicalReader) : LogicalReader := {|
  file := file r; rest := rest r; context := context r; limit := limit r; ended := ended r; failed := failed r;
  incomplete_flag := true; position := position r; selected := selected r; lease := lease r;
  captured_bytes := captured_bytes r; last_record_offset := last_record_offset r |}.
Definition set_last (n : Z) (r : LogicalReader) : LogicalReader := {|
  file := file r; rest := rest r; context := context r; limit := limit r; ended := ended r; failed := failed r;
  incomplete_flag := incomplete_flag r; position := position r; selected := selected r; lease := lease r;
  captured_bytes := captured_bytes r; last_record_offset := n |}.
Definition set_context (c : Context) (r : LogicalReader) : LogicalReader := {|
  file := file r; rest := rest r; context := c; limit := limit r; ended := ended r; failed := failed r;
  incomplete_flag := incomplete_flag r; position := position r; selected := selected r; lease := lease r;
  captured_bytes := captured_bytes r; last_record_offset := last_record_offset r |}.
Definition set_position (p : Position) (r : LogicalReader) : LogicalReader := {|
  file := file r; rest := rest r; context := context r; limit := limit r; ended := ended r; failed := failed r;
  incomplete_flag := incomplete_flag r; position := p; selected := selected r; lease := lease r;
  captured_bytes := captured_bytes r; last_record_offset := last_record_offset r |}.

(** [self.context] with the next sequence and lineage. *)
Definition with_sequence (c : Context) (n : Z) : Context := {|
  store := store c; epoch := epoch c; sequence := n; segment := segment c; previous := previous c |}.
Definition with_previous (c : Context) (d : bytes) : Context := {|
  store := store c; epoch := epoch c; sequence := sequence c; segment := segment c; previous := d |}.
Definition advance (p : Position) (sequence offset : Z) (digest : bytes) : Position := {|
  Position.store := Position.store p; Position.epoch := Position.epoch p; Position.segment := Position.segment p;
  Position.sequence := sequence; Position.offset := offset; Position.digest := digest |}.

(** [StreamError::at]. *)
Definition at_artifact {S A} (name : string) (offset expected : option Z) (m : method S StreamError A) :
    method S StreamError A := map_error (fun e => StreamError.at_ e name offset expected) m.

Section Reader.
Context `{Machine} `{Blake3} `{Zstd} `{HashHex} `{LogicalCodecs} `{UuidText}.

(** [LogicalReader::from_selection]; an early return drops [lease]. *)
Definition from_selection (f : Handle) (s : Selected) (limit : Z) : method World StreamError LogicalReader :=
  do lease <- at_artifact (manifest_name s) None None (persist (open_read (manifest_name s)));
  at_artifact (manifest_name s) None None (persist (io (lock_shared lease))) ;;
  do r <- attempt (at_artifact (log_name s) None None (stream_io (fstat f)));
  match r with
  | Err e => fun w => (Err e, drop_shared lease w)
  | Ok m =>
  ret {| file := f; rest := em_len m; context := sel_context s; limit := limit; ended := false; failed := false;
         incomplete_flag := false; position := base s; selected := s; lease := lease;
         captured_bytes := em_len m; last_record_offset := 0 |}
  end.

(** [LogicalReader::open]. *)
Definition reader_open (expected : CompatibilityIdentity) (limit : Z) : method World StreamError LogicalReader :=
  persist LegacyProbe.reject ;;
  fail_if (MAX_PAYLOAD <? limit) (StreamError.Frame FrameError.Limit) ;;
  at_artifact MANIFEST_LOCK_FILE_NAME None None (persist read_acquire_existing) ;;
  do s <- persist (select expected);
  from_selection (fst s) (snd s) limit.

(** [self.file.by_ref().take(n).read_to_end(..)]. *)
Definition read_file (n : nat) : method (LogicalReader * World) StreamError bytes :=
  do self <- get;
  do r <- on_snd (stream_io (read_take (file self) (min n (Z.to_nat (rest self)))));
  put (set_file (snd r) (rest self - zlen (fst r))) ;;
  ret (fst r).

(** The loop of [read_next]; [None] when the fuel runs out. *)
Fixpoint read_loop (fuel : nat) (b : bytes) : method (LogicalReader * World) StreamError (option (option bytes)) :=
  match fuel with
  | O => ret None
  | S fuel =>
      do self <- get;
      do r <- of_result (map_err StreamError.Frame (decode b (context self) UnsealedEnd (limit self)));
      match r with
      | Incomplete needed =>
          if (length b <? needed)%nat then
            let missing := (needed - length b)%nat in
            do more <- read_file missing;
            if (length more <? missing)%nat then put set_incomplete ;; ret (Some None)
            else read_loop fuel (b ++ more)
          else throw (StreamError.Protocol "decoder made no progress")
      | Complete body digest consumed =>
          put (set_last (Position.offset (position self))) ;;
          do n <- of_result (ok_or (checked_add (sequence (context self)) 1) (StreamError.Protocol "sequence exhausted"));
          put (set_context (with_previous (with_sequence (context self) n) digest)) ;;
          do offset <- (put (set_position (advance (position self) (n - 1) (Position.offset (position self))
                               (Position.digest (position self)))) ;;
                        of_result (ok_or (checked_add (Position.offset (position self)) (Z.of_nat consumed))
                                     (StreamError.Frame FrameError.Limit)));
          put (set_position (advance (position self) (n - 1) offset digest)) ;;
          put (set_ended false) ;;
          ret (Some (Some body))
      end
  end.

(** The loop decodes a header and then a whole frame; see [next_body_advances]
    in Reading.v. *)
Definition read_fuel : nat := 2.

(** [read_next]. *)
Definition read_next : method (LogicalReader * World) StreamError (option bytes) :=
  do self <- get;
  if ended self then ret None
  else
    put (set_ended true) ;;
    do b <- read_file Frame.HEADER_LEN;
    if bool_decide (b = []) then ret None
    else
      do r <- read_loop read_fuel b;
      match r with
      | Some r => ret r
      | None => throw (StreamError.Protocol "decoder made no progress")
      end.

(** [LogicalReader::next_body]. *)
Definition next_body : method (LogicalReader * World) StreamError (option bytes) :=
  do self <- get;
  fail_if (failed self) StreamError.Terminated ;;
  do r <- attempt read_next;
  (if is_err r then put set_failed else ret tt) ;;
  at_artifact (log_name (selected self)) (Some (Position.offset (position self))) (Some (sequence (context self)))
    (of_result r).

(** Dropping a reader releases its artifact lease. *)
Definition drop_reader (r : LogicalReader) : World -> World := drop_shared (lease r).

(** [LogicalReader::incomplete_tail]. *)
Definition incomplete_tail (r : LogicalReader) : bool := incomplete_flag r.

(** [LogicalReader::snapshot_context]. *)
Definition snapshot_context (s : Selected) : option SnapshotContext :=
  d ← sel_checkpoint s;
  Some {| boundary := SnapshotDescriptor.boundary d; publication := SnapshotDescriptor.publication d |}.

(** [read_snapshot]. *)
Definition read_snapshot (self : LogicalReader) : method World StreamError bytes :=
  do s <- of_result (ok_or (sel_checkpoint (selected self)) StreamError.MissingSnapshot);
  do f <- persist (open_read (SnapshotDescriptor.name s));
  do m <- stream_io (fstat f);
  fail_if (em_len m <? SnapshotDescriptor.bytes s) (StreamError.Frame FrameError.CorruptIncomplete) ;;
  fail_if (SnapshotDescriptor.bytes s <? em_len m)
    (StreamError.Frame (FrameError.Invalid "snapshot descriptor length")) ;;
  do r <- stream_io (read_take f Snapshot.HEADER_LEN);
  let header := fst r in
  fail_if (length header <? Snapshot.HEADER_LEN)%nat (StreamError.Io IoOther) ;;
  let c := {| boundary := SnapshotDescriptor.boundary s; publication := SnapshotDescriptor.publication s |} in
  do n <- of_result (map_err StreamError.Frame (Snapshot.required_length header c (limit self)));
  fail_if (negb (n =? SnapshotDescriptor.bytes s))
    (StreamError.Frame (FrameError.Invalid "snapshot declared length")) ;;
  do r <- stream_io (read_take (snd r) (Z.to_nat n - length header));
  of_result (map_err StreamError.Frame
    (Snapshot.decode (header ++ fst r) c (SnapshotDescriptor.digest s) (limit self))).

(** [LogicalReader::snapshot_body]. *)
Definition snapshot_body : method (LogicalReader * World) StreamError bytes :=
  do self <- get;
  fail_if (failed self) StreamError.Terminated ;;
  do r <- on_snd (attempt (read_snapshot self));
  (if is_err r then put set_failed else ret tt) ;;
  of_result (match sel_checkpoint (selected self) with
             | Some s => map_err (fun e => StreamError.at_ e (SnapshotDescriptor.name s) (Some 0)
                                   (Some (Position.sequence (SnapshotDescriptor.boundary s)))) r
             | None => r
             end).

(** [while let Some(body) = self.next_body()? { .. }] with [visit] applied to the
    reader's position after each body; [None] when the fuel runs out. *)
Fixpoint drain {A} (fuel : nat) (visit : Position -> A -> A) (acc : A) :
    method (LogicalReader * World) StreamError (option A) :=
  match fuel with
  | O => ret None
  | S fuel =>
      do r <- next_body;
      match r with
      | None => ret (Some acc)
      | Some _ => do self <- get; drain fuel visit (visit (position self) acc)
      end
  end.

(** Every body takes bytes of the captured extent; see [drain_ends] in Reading.v. *)
Definition drain_fuel (r : LogicalReader) : nat := S (Z.to_nat (rest r)).
End Reader.
