(* ===== verification/Stream.v ===== *)
(** The log writer (logical_stream.rs, logical_stream/outcome.rs).

    [commit_steps] is the closure that [commit] runs under [catch_unwind]; a
    panic of a caller's closure is the outcome [Panic].  The answers of the
    caller's closures are arguments, so the theorems hold for every caller. *)

From S2P Require Import Prelude Errors Externals Identity Frame Wire Snapshot Disk StoreDirectory Control Selection Reader.
From coqutil Require Import Byte.

Definition MAX_GROUP : Z := 32.

(** ** Outcomes *)

Record Progress := {
  written : Position;
  synchronized : Position;
  published : option Position;
  acknowledged : option Position
}.

#[global] Instance Progress_eq_dec : EqDecision Progress.
Proof. solve_decision. Defined.

Inductive CommitPhase := Prepare | Append | Synchronize | Publish | Acknowledge.

#[global] Instance CommitPhase_eq_dec : EqDecision CommitPhase.
Proof. solve_decision. Defined.

Inductive Durability := Canceled | Uncertain | Committed.

#[global] Instance Durability_eq_dec : EqDecision Durability.
Proof. solve_decision. Defined.

Record CommitFailure := {
  cf_phase : CommitPhase;
  cf_durability : Durability;
  cf_progress : Progress;
  cf_candidate : option Position;
  cf_source : StreamError;
  cf_cleanup : option StreamError
}.

(** ** The writer *)

Record PreparedGroup := {
  pg_base : Position;
  pg_frames : list (bytes * Position)
}.

Record LogicalWal := {
  wal_file : Handle;
  wal_progress : Progress;
  wal_fenced : bool;
  wal_selected : Selected
}.

Definition set_wal_file (h : Handle) (s : LogicalWal) : LogicalWal := {|
  wal_file := h; wal_progress := wal_progress s; wal_fenced := wal_fenced s; wal_selected := wal_selected s |}.
Definition set_progress (f : Progress -> Progress) (s : LogicalWal) : LogicalWal := {|
  wal_file := wal_file s; wal_progress := f (wal_progress s); wal_fenced := wal_fenced s; wal_selected := wal_selected s |}.
Definition set_fenced (b : bool) (s : LogicalWal) : LogicalWal := {|
  wal_file := wal_file s; wal_progress := wal_progress s; wal_fenced := b; wal_selected := wal_selected s |}.

Definition set_written (p : Position) (x : Progress) : Progress := {|
  written := p; synchronized := synchronized x; published := published x; acknowledged := acknowledged x |}.
Definition set_synchronized (p : Position) (x : Progress) : Progress := {|
  written := written x; synchronized := p; published := published x; acknowledged := acknowledged x |}.
Definition set_published (p : Position) (x : Progress) : Progress := {|
  written := written x; synchronized := synchronized x; published := Some p; acknowledged := acknowledged x |}.
Definition set_acknowledged (p : Position) (x : Progress) : Progress := {|
  written := written x; synchronized := synchronized x; published := published x; acknowledged := Some p |}.

(** What a caller's closure does: it returns or it panics. *)
Inductive Answer (A : Type) := Returns (a : A) | Unwinds.
Arguments Returns {A} a.
Arguments Unwinds {A}.

(** The closure [publish]: whether it calls [mark_published], and how it ends. *)
Record PublishCall := {
  marks : bool;
  publish_end : Answer (result StreamError unit)
}.

(** How the closure of [commit] stops early. *)
Inductive Stop := Failed (e : StreamError) | Panic.

(** The variables the closure of [commit] shares with the rest of [commit]. *)
Record Attempt := {
  wal : LogicalWal;
  phase : CommitPhase;
  reached : bool
}.

Definition on_wal (f : LogicalWal -> LogicalWal) (a : Attempt) : Attempt := {|
  wal := f (wal a); phase := phase a; reached := reached a |}.
Definition set_phase (p : CommitPhase) (a : Attempt) : Attempt := {|
  wal := wal a; phase := p; reached := reached a |}.
Definition set_reached (a : Attempt) : Attempt := {|
  wal := wal a; phase := phase a; reached := true |}.

(** The context of the record after [p]. *)
Definition frame_context (p : Position) (sequence : Z) : Context := {|
  store := Position.store p; epoch := Position.epoch p; segment := Position.segment p;
  sequence := sequence; previous := Position.digest p |}.

Section Prepare.
Context `{Blake3} `{Zstd}.

(** The loop of [prepare]. *)
Fixpoint prepare_loop (bodies : list bytes) (compression : Compression) (limit : Z)
    (next : Position) (total : Z) : result StreamError (list (bytes * Position)) :=
  match bodies with
  | [] => Ok []
  | body :: bodies =>
      let? sequence := ok_or (checked_add (Position.sequence next) 1) (StreamError.Protocol "sequence exhausted") in
      let? b := map_err StreamError.Frame (encode body (frame_context next sequence) compression limit) in
      let? total := ok_or (checked_add total (zlen b)) (StreamError.Frame FrameError.Limit) in
      refuse MAX_PAYLOAD + MAX_GROUP * Z.of_nat FRAME_OVERHEAD <? total with StreamError.Frame FrameError.Limit;
      let? offset := ok_or (checked_add (Position.offset next) (zlen b)) (StreamError.Frame FrameError.Limit) in
      let next := advance next sequence offset (drop (length b - 32) b) in
      let? frames := prepare_loop bodies compression limit next total in
      Ok ((b, next) :: frames)
  end.

(** [LogicalWal::prepare]. *)
Definition prepare (self : LogicalWal) (bodies : list bytes) (compression : Compression) (limit : Z) :
    result StreamError PreparedGroup :=
  refuse wal_fenced self with StreamError.Protocol "writer fenced; reconcile before reopen";
  refuse bool_decide (bodies = []) || (MAX_GROUP <? Z.of_nat (length bodies)) with StreamError.Protocol "group size";
  let base := synchronized (wal_progress self) in
  let? frames := prepare_loop bodies compression limit base 0 in
  Ok {| pg_base := base; pg_frames := frames |}.
End Prepare.

Section Commit.
Context `{Machine}.

(** [self.file.write_all(bytes)?; self.progress.written = *position]. *)
Definition append_frame (f : bytes * Position) : method (Attempt * World) Stop unit :=
  do a <- get;
  do h <- on_snd (map_error (fun e => Failed (StreamError.Io e)) (write_all (wal_file (wal a)) (fst f)));
  put (on_wal (set_wal_file h)) ;;
  put (on_wal (set_progress (set_written (snd f)))).

(** [if canceled() { return Err(Protocol(what)) }]. *)
Definition ask (answer : Answer bool) (what : string) : method (Attempt * World) Stop unit :=
  match answer with
  | Unwinds => throw Panic
  | Returns c => fail_if c (Failed (StreamError.Protocol what))
  end.

(** [publish(&mut Publication { .. })?]. *)
Definition run_publish (call : PublishCall) (candidate : Position) : method (Attempt * World) Stop unit :=
  (if marks call then put (on_wal (set_progress (set_published candidate))) else ret tt) ;;
  match publish_end call with
  | Unwinds => throw Panic
  | Returns r => of_result (map_err Failed r)
  end.

(** The closure of [commit]; [canceled n] answers the call number [n]. *)
Definition commit_steps (group : PreparedGroup) (candidate : Position)
    (canceled : nat -> Answer bool) (publish : PublishCall) : method (Attempt * World) Stop unit :=
  do a <- get;
  fail_if (wal_fenced (wal a) || negb (bool_decide (pg_base group = synchronized (wal_progress (wal a)))))
    (Failed (StreamError.Protocol "fenced or stale prepared group")) ;;
  ask (canceled 0%nat) "canceled before append" ;;
  on_snd (map_error (fun e => Failed (StreamError.Persist e)) epoch_acquire) ;;
  put (on_wal (set_fenced true)) ;;
  put (set_phase Append) ;;
  for_each append_frame (pg_frames group) ;;
  put (set_phase Synchronize) ;;
  do a <- get;
  on_snd (map_error (fun e => Failed (StreamError.Io e)) (sync_all (wal_file (wal a)))) ;;
  put (on_wal (set_progress (set_synchronized candidate))) ;;
  put set_reached ;;
  put (set_phase Publish) ;;
  ask (canceled 1%nat) "canceled after synchronization" ;;
  run_publish publish candidate ;;
  do a <- get;
  fail_if (negb (bool_decide (published (wal_progress (wal a)) = Some candidate)))
    (Failed (StreamError.Protocol "outer state not published")) ;;
  put (set_phase Acknowledge) ;;
  ask (canceled 2%nat) "canceled after publication" ;;
  put (on_wal (set_progress (set_acknowledged candidate))) ;;
  put (on_wal (set_fenced false)).

(** [LogicalWal::rollback]. *)
Definition rollback (boundary : Position) : method (LogicalWal * World) StreamError unit :=
  do self <- get;
  fail_if (negb (bool_decide (boundary = synchronized (wal_progress self))))
    (StreamError.Protocol "rollback boundary is not the synchronized prefix") ;;
  let n := Z.to_nat (Position.offset boundary) in
  on_snd (stream_io (set_len (wal_file self) n)) ;;
  do h <- on_snd (stream_io (seek (wal_file self) n));
  put (set_wal_file h) ;;
  on_snd (stream_io (sync_all h)) ;;
  put (set_progress (set_written boundary)).

(** What [commit] does after the closure stopped with [source]. *)
Definition conclude (group : PreparedGroup) (candidate : Position) (source : StreamError) (a : Attempt) (w : World) :
    CommitFailure * (LogicalWal * World) :=
  let ph := if reached a && bool_decide (published (wal_progress (wal a)) = Some candidate)
            then Acknowledge else phase a in
  let '(durability, cleanup, (s, w)) :=
    if reached a then (Committed, None, (wal a, w))
    else if bool_decide (ph = Prepare) then (Canceled, None, (wal a, w))
    else
      let '(r, sw) := rollback (pg_base group) (wal a, w) in
      match r with
      | Ok _ => (Canceled, None, sw)
      | Err error => (Uncertain, Some error, sw)
      end in
  ({| cf_phase := ph; cf_durability := durability; cf_progress := wal_progress s;
      cf_candidate := if bool_decide (ph = Prepare) then None else Some candidate;
      cf_source := source; cf_cleanup := cleanup |}, (s, w)).

(** [LogicalWal::commit]; [None] when [expect] panics on a group without members. *)
Definition commit (group : PreparedGroup) (canceled : nat -> Answer bool) (publish : PublishCall)
    (sw : LogicalWal * World) : option (result CommitFailure Position * (LogicalWal * World)) :=
  match last (pg_frames group) with
  | None => None
  | Some (_, candidate) =>
      let start := {| wal := fst sw; phase := Prepare; reached := false |} in
      let '(r, (a, w)) := commit_steps group candidate canceled publish (start, snd sw) in
      Some (match r with
            | Ok _ => (Ok candidate, (wal a, w))
            | Err stop =>
                let source := match stop with Failed e => e | Panic => StreamError.Panicked end in
                let '(f, sw) := conclude group candidate source a w in (Err f, sw)
            end)
  end.
End Commit.

Section Create.
Context `{Machine} `{Blake3} `{HashHex} `{LogicalCodecs} `{UuidText}.

(** [LogicalWal::create]. *)
Definition wal_create (control : EmptyStoreControl) : method World StreamError LogicalWal :=
  do r <- persist (create_log control);
  let c := sel_context (snd r) in
  let initial := {| Position.store := store c; Position.epoch := epoch c; Position.segment := segment c;
                    Position.sequence := 0; Position.offset := 0; Position.digest := previous c |} in
  ret {| wal_file := fst r;
         wal_progress := {| written := initial; synchronized := initial; published := None; acknowledged := None |};
         wal_fenced := false; wal_selected := snd r |}.
End Create.
