(* ===== verification/Log.v ===== *)
(** Logs as chains of frames.

    [chain limit c bodies log c'] is the meaning of a log segment: starting in
    context [c], [log] is the concatenation of the frames of [bodies], each
    encoded for the sequence number and the digest its predecessor leaves, and
    [c'] is the context of the next record.  The writer extends chains, the
    reader and the recovery return their bodies. *)

From S2P Require Import Prelude Errors Externals Identity Frame Snapshot Selection Reader Stream.
From coqutil Require Import Byte.

(** The context that follows the frame [fr] written in [c]. *)
Definition next_context (c : Context) (fr : bytes) : Context := {|
  store := store c; epoch := epoch c; sequence := sequence c + 1; segment := segment c;
  previous := drop (length fr - 32) fr |}.

(** The position before the record of context [c], at byte [offset]. *)
Definition at_context (c : Context) (offset : Z) : Position := {|
  Position.store := store c; Position.epoch := epoch c; Position.segment := segment c;
  Position.sequence := sequence c - 1; Position.offset := offset; Position.digest := previous c |}.

Section Chains.
Context `{Blake3} `{Zstd}.

(** [fr] is a frame of [body] in context [c]. *)
Definition frame (limit : Z) (c : Context) (body fr : bytes) : Prop :=
  exists compression, encode body c compression limit = Ok fr.

Inductive chain (limit : Z) : Context -> list bytes -> bytes -> Context -> Prop :=
| chain_nil c : chain limit c [] [] c
| chain_cons c body fr bodies log c' :
    frame limit c body fr -> chain limit (next_context c fr) bodies log c' ->
    chain limit c (body :: bodies) (fr ++ log) c'.

Lemma chain_app limit c bodies log c' bodies' log' c'' :
  chain limit c bodies log c' -> chain limit c' bodies' log' c'' ->
  chain limit c (bodies ++ bodies') (log ++ log') c''.
Proof.
  induction 1 as [c|c body fr bodies log c' Hf _ IH]; intros Hc; [done|].
  rewrite <- app_assoc. cbn. constructor; auto.
Qed.

Lemma chain_snoc_inv limit c bodies body log c' : chain limit c (bodies ++ [body]) log c' ->
  exists log1 c1 fr, chain limit c bodies log1 c1 /\ frame limit c1 body fr /\ log = log1 ++ fr.
Proof.
  revert c log. induction bodies as [|b bodies IH]; intros c log C; cbn in C; inversion C as [|? ? fr ? log0 ? F C0]; subst.
  - inversion C0; subst. exists [], c, fr. rewrite app_nil_r. split; [constructor|done].
  - destruct (IH _ _ C0) as (log1 & c1 & fr1 & C1 & F1 & ->). exists (fr ++ log1), c1, fr1.
    rewrite app_assoc. split; [by constructor|done].
Qed.

Lemma chain_sequence limit c bodies log c' :
  chain limit c bodies log c' -> sequence c' = sequence c + Z.of_nat (length bodies).
Proof.
  induction 1 as [c|c body fr bodies log c' Hf _ IH]; cbn [length]; [lia|]. rewrite IH. cbn. lia.
Qed.

Lemma chain_identity limit c bodies log c' :
  chain limit c bodies log c' -> store c' = store c /\ epoch c' = epoch c /\ segment c' = segment c.
Proof. by induction 1 as [c|c body fr bodies log c' Hf _ IH]. Qed.

Lemma frame_mono limit limit' c body fr :
  limit <= limit' -> limit' <= MAX_PAYLOAD -> frame limit c body fr -> frame limit' c body fr.
Proof.
  intros H1 H2 [comp E]. exists comp. revert E. unfold encode.
  destruct (check_context c) as [[]|]; [|done]. intros E. ok_step. bool_inv.
  rewrite (proj2 (Z.ltb_ge MAX_PAYLOAD _)), (proj2 (Z.ltb_ge limit' _)) by lia. done.
Qed.

Lemma chain_mono limit limit' c bodies log c' :
  limit <= limit' -> limit' <= MAX_PAYLOAD -> chain limit c bodies log c' -> chain limit' c bodies log c'.
Proof. intros H1 H2. induction 1; econstructor; eauto using frame_mono. Qed.

(** *** Preparing a group extends a chain *)

Lemma frame_context_at c n : frame_context (at_context c n) (sequence c) = c.
Proof. by destruct c. Qed.

Lemma advance_at c n fr m :
  advance (at_context c n) (sequence c) m (drop (length fr - 32) fr) = at_context (next_context c fr) m.
Proof. unfold advance, at_context, next_context. cbn. f_equal. lia. Qed.

Definition group_bytes (frames : list (bytes * Position)) : bytes := concat (map fst frames).

Lemma prepare_loop_chain bodies comp limit c n total frames :
  prepare_loop bodies comp limit (at_context c n) total = Ok frames ->
  exists c', chain limit c bodies (group_bytes frames) c' /\
    length frames = length bodies /\
    default (at_context c n) (snd <$> last frames) = at_context c' (n + zlen (group_bytes frames)) /\
    (bodies <> [] -> n + zlen (group_bytes frames) <= u64_max).
Proof.
  revert c n total frames. induction bodies as [|body bodies IH]; intros c n total frames E; cbn [prepare_loop] in E.
  - injection E as <-. exists c. split; [constructor|]. cbn. unfold zlen. cbn. rewrite Z.add_0_r. by repeat split.
  - ok_step. ok_step. ok_step. ok_step. ok_step. ok_step.
    apply ok_or_Ok, checked_add_Some in Hok as [-> _], Hok2 as [-> Ho]. apply map_err_Ok in Hok0.
    cbn [Position.sequence Position.offset at_context] in *. rewrite Z.sub_add in *.
    rewrite frame_context_at in Hok0. rewrite advance_at in *.
    apply IH in Hok3 as (c' & Hc & Hl & Hp & Hb). injection E as <-. exists c'. split; [|split; [|split]].
    + constructor; [by exists comp|done].
    + cbn. by rewrite Hl.
    + unfold group_bytes. cbn [map concat fst]. rewrite zlen_app, Z.add_assoc.
      fold (group_bytes a3). rewrite <- Hp, last_cons. by destruct (last a3).
    + intros _. unfold group_bytes in *. cbn [map concat fst]. rewrite zlen_app, Z.add_assoc.
      destruct bodies; [|by apply Hb]. destruct a3; [|done]. cbn. rewrite Z.add_0_r. done.
Qed.

Lemma prepare_chain self bodies comp limit c n group :
  prepare self bodies comp limit = Ok group -> synchronized (wal_progress self) = at_context c n ->
  wal_fenced self = false /\ pg_base group = at_context c n /\
  exists c' candidate, chain limit c bodies (group_bytes (pg_frames group)) c' /\
    snd <$> last (pg_frames group) = Some candidate /\
    candidate = at_context c' (n + zlen (group_bytes (pg_frames group))) /\
    n + zlen (group_bytes (pg_frames group)) <= u64_max.
Proof.
  unfold prepare. intros E Hs. ok_step. ok_step. ok_step. bool_inv. injection E as <-. rewrite Hs in Hok.
  destruct (wal_fenced self); [done|]. split; [done|]. split; [done|].
  apply prepare_loop_chain in Hok as (c' & Hc & Hl & Hp & Hb). exists c'. cbn [pg_frames].
  destruct (last a) as [[b p]|] eqn:L; [exists p; repeat split; auto|].
  apply last_None in L as ->. destruct bodies; done.
Qed.
End Chains.
