(* ===== verification/Commit.v ===== *)
(** Correctness of commits: durability, fencing and the order of the phases.

    The theorems quantify over the [Machine], so over every pattern of I/O
    errors and partial writes, and over every behaviour of the caller's
    closures, panics included. *)

From S2P Require Import Prelude Errors Externals Identity Frame Snapshot Disk StoreDirectory Control Selection Reader Stream Log.
From coqutil Require Import Byte.

(** ** Log files *)

(** File object [i] holds exactly [log], and all of it is synchronized. *)
Definition log_synced (i : nat) (log : bytes) (w : World) : Prop :=
  exists n, file_at i n w /\ data n = log /\ intact n = length log /\ dirty n = false.

(** File object [i] starts with [log], and that part is synchronized. *)
Definition log_prefix (i : nat) (log : bytes) (w : World) : Prop :=
  exists n tail, file_at i n w /\ data n = log ++ tail /\ (length log <= intact n)%nat.

Lemma log_synced_prefix i log w : log_synced i log w -> log_prefix i log w.
Proof. intros (n & Hn & Hd & Hi & _). exists n, []. rewrite app_nil_r. repeat split; try apply Hn; [done|lia]. Qed.

(** What a crash leaves of them. *)
Lemma log_synced_crash i log w w' : log_synced i log w -> crash w w' -> exists n, file_at i n w' /\ data n = log.
Proof.
  intros (n & [Hn Hlt] & Hd & Hi & Hs) (_ & Hold & Hall & Hnext). destruct (Hall _ _ Hn) as [n' Hn'].
  destruct (Hold _ _ Hn') as (n0 & Hn0 & [_ Hs'] & _). simplify_eq. exists n'. split; [split; [done|lia]|]. by apply Hs'.
Qed.

Lemma log_prefix_crash i log w w' :
  log_prefix i log w -> crash w w' -> exists n tail, file_at i n w' /\ data n = log ++ tail.
Proof.
  intros (n & t & [Hn Hlt] & Hd & Hi) (_ & Hold & Hall & Hnext). destruct (Hall _ _ Hn) as [n' Hn'].
  destruct (Hold _ _ Hn') as (n0 & Hn0 & [Ht _] & _). assert (n0 = n) as -> by congruence.
  exists n', (drop (length log) (data n')). split; [split; [done|lia]|].
  rewrite <- (take_drop (length log) (data n')) at 1. f_equal.
  assert (E : take (length log) (take (intact n) (data n')) = take (length log) (take (intact n) (data n))) by by rewrite Ht.
  rewrite !take_take, !Nat.min_l in E by done. rewrite E, Hd. apply take_app_length.
Qed.

Lemma write_at_end d b : write_at d (length d) b = d ++ b.
Proof. unfold write_at. rewrite take_ge, Nat.sub_diag, drop_ge by lia. cbn. by rewrite app_nil_r. Qed.

Lemma resize_prefix log tail : resize (log ++ tail) (length log) = log.
Proof. unfold resize. rewrite take_app_length, length_app. replace (_ - _)%nat with 0%nat by lia. apply app_nil_r. Qed.

Section Commit.
Context `{Machine}.
Implicit Types log : bytes.

(** *** Appending *)

(** The attempt while frames are appended: [gone] has been written after [log]. *)
Definition appending (i : nat) (s0 : LogicalWal) log gone (a : Attempt) (w : World) : Prop :=
  phase a = Append /\ reached a = false /\ wal_fenced (wal a) = true /\
  wal_selected (wal a) = wal_selected s0 /\
  wal_file (wal a) = {| inode := i; cursor := length (log ++ gone) |} /\
  synchronized (wal_progress (wal a)) = synchronized (wal_progress s0) /\
  published (wal_progress (wal a)) = published (wal_progress s0) /\
  acknowledged (wal_progress (wal a)) = acknowledged (wal_progress s0) /\
  exists n, file_at i n w /\ data n = log ++ gone /\ intact n = length log.

(** The attempt stopped before the synchronization. *)
Definition unsynchronized (i : nat) (s0 : LogicalWal) log (a : Attempt) (w : World) : Prop :=
  (phase a = Append \/ phase a = Synchronize) /\ reached a = false /\ wal_fenced (wal a) = true /\
  wal_selected (wal a) = wal_selected s0 /\ inode (wal_file (wal a)) = i /\
  synchronized (wal_progress (wal a)) = synchronized (wal_progress s0) /\
  published (wal_progress (wal a)) = published (wal_progress s0) /\
  acknowledged (wal_progress (wal a)) = acknowledged (wal_progress s0) /\ log_prefix i log w.

Lemma append_frame_spec i s0 log gone f a w :
  appending i s0 log gone a w ->
  wp (append_frame f) (fun r s => match r with
    | Ok _ => appending i s0 log (gone ++ fst f) (fst s) (snd s) /\ written (wal_progress (wal (fst s))) = snd f
    | Err _ => unsynchronized i s0 log (fst s) (snd s) end) (a, w).
Proof.
  intros (Hp & Hr & Hf & Hs & Hh & H1 & H2 & H3 & n & [Hn Hi] & Hd & Hk).
  unfold append_frame. do 5 wp_step. apply wp_call; cbn.
  - intros k _. repeat split; auto; [by rewrite Hh|].
    exists (write_inode (cursor (wal_file (wal a))) (take k (fst f)) n), (gone ++ take k (fst f)). rewrite Hh. cbn.
    split; [split; [|done]; cbn; by rewrite lookup_alter_eq, Hn|].
    cbn [data intact write_inode]. rewrite Hd, write_at_end, <- app_assoc. split; [done|]. rewrite Hk, length_app. lia.
  - unfold appending. cbn. rewrite Hh. cbn. repeat split; auto.
    + by rewrite !length_app, Nat.add_assoc.
    + exists (write_inode (length (log ++ gone)) (fst f) n). split; [split; [|done]; cbn; by rewrite lookup_alter_eq, Hn|].
      cbn. rewrite Hd, write_at_end, app_assoc, Hk, length_app. split; [done|lia].
Qed.

Lemma append_frames_spec i s0 log gone frames a w :
  appending i s0 log gone a w ->
  wp (for_each append_frame frames) (fun r s => match r with
    | Ok _ => appending i s0 log (gone ++ group_bytes frames) (fst s) (snd s) /\
              written (wal_progress (wal (fst s))) = default (written (wal_progress (wal a))) (snd <$> last frames)
    | Err _ => unsynchronized i s0 log (fst s) (snd s) end) (a, w).
Proof.
  revert gone a w. induction frames as [|f frames IH]; intros gone a w Ha.
  - cbn. unfold group_bytes. cbn. by rewrite app_nil_r.
  - cbn [for_each]. wp_step. eapply wp_mono; [by eapply append_frame_spec|].
    intros [[]|e] [a' w'] Hw; [|done]. destruct Hw as [Hw Hwr]. cbn [fst snd] in *.
    eapply wp_mono; [by eapply IH|]. intros [[]|e] [a'' w''] Hw'; [|done]. cbn [fst snd] in *.
    unfold group_bytes in *. cbn [map concat]. rewrite app_assoc. destruct Hw' as [? ->]. split; [done|].
    rewrite last_cons, Hwr. by destruct (last frames).
Qed.

(** *** The closure of [commit] *)

(** The attempt after a successful synchronization of [log']. *)
Definition synced_attempt (i : nat) (s0 : LogicalWal) log' (candidate : Position) (a : Attempt) (w : World) : Prop :=
  reached a = true /\ wal_selected (wal a) = wal_selected s0 /\
  wal_file (wal a) = {| inode := i; cursor := length log' |} /\
  written (wal_progress (wal a)) = candidate /\ synchronized (wal_progress (wal a)) = candidate /\
  log_synced i log' w.

(** How the closure can stop with an error. *)
Definition stopped (i : nat) (s0 : LogicalWal) log log' candidate (a : Attempt) (w : World) : Prop :=
  (phase a = Prepare /\ reached a = false /\ wal a = s0 /\ log_synced i log w) \/
  unsynchronized i s0 log a w \/
  (synced_attempt i s0 log' candidate a w /\ (phase a = Publish \/ phase a = Acknowledge) /\
   wal_fenced (wal a) = true /\ acknowledged (wal_progress (wal a)) = acknowledged (wal_progress s0) /\
   (published (wal_progress (wal a)) = published (wal_progress s0) \/
    published (wal_progress (wal a)) = Some candidate)).

(** How it can end successfully. *)
Definition finished (i : nat) (s0 : LogicalWal) log' candidate (a : Attempt) (w : World) : Prop :=
  synced_attempt i s0 log' candidate a w /\ wal_fenced (wal a) = false /\
  published (wal_progress (wal a)) = Some candidate /\ acknowledged (wal_progress (wal a)) = Some candidate.

Lemma wp_ask answer what (Q : result Stop unit -> Attempt * World -> Prop) s :
  (forall stop, Q (Err stop) s) -> Q (Ok tt) s -> wp (ask answer what) Q s.
Proof. intros. unfold ask. destruct answer as [[]|]; cbn; auto. Qed.

Lemma wp_run_publish call candidate (Q : result Stop unit -> Attempt * World -> Prop) a w :
  (forall r a', a' = a \/ a' = on_wal (set_progress (set_published candidate)) a -> Q r (a', w)) ->
  wp (run_publish call candidate) Q (a, w).
Proof.
  intros HQ. unfold run_publish. wp_step. destruct (marks call); wp_step;
    (destruct (publish_end call) as [[[]|e]|]; wp_step; auto).
Qed.

Lemma synced_attempt_published i s0 log' candidate a w :
  synced_attempt i s0 log' candidate a w -> synced_attempt i s0 log' candidate (on_wal (set_progress (set_published candidate)) a) w.
Proof. done. Qed.

(** The steps after the synchronization. *)
Definition publish_steps (candidate : Position) canceled publish : method (Attempt * World) Stop unit :=
  ask (canceled 1%nat) "canceled after synchronization" ;;
  run_publish publish candidate ;;
  do a <- get;
  fail_if (negb (bool_decide (published (wal_progress (wal a)) = Some candidate)))
    (Failed (StreamError.Protocol "outer state not published")) ;;
  put (set_phase Acknowledge) ;;
  ask (canceled 2%nat) "canceled after publication" ;;
  put (on_wal (set_progress (set_acknowledged candidate))) ;;
  put (on_wal (set_fenced false)).

Lemma publish_steps_spec i s0 log log' candidate canceled publish a w :
  synced_attempt i s0 log' candidate a w -> phase a = Publish -> wal_fenced (wal a) = true ->
  acknowledged (wal_progress (wal a)) = acknowledged (wal_progress s0) ->
  published (wal_progress (wal a)) = published (wal_progress s0) ->
  wp (publish_steps candidate canceled publish)
    (fun r s => match r with
      | Ok _ => finished i s0 log' candidate (fst s) (snd s)
      | Err _ => stopped i s0 log log' candidate (fst s) (snd s) end) (a, w).
Proof.
  intros Hs Hp Hf Ha Hpub. unfold publish_steps.
  assert (Hstop : forall a', a' = a \/ a' = on_wal (set_progress (set_published candidate)) a ->
    stopped i s0 log log' candidate a' w).
  { intros a' [-> | ->]; right; right; auto 6 using synced_attempt_published. }
  wp_step. apply wp_ask; [auto|]. wp_step. apply wp_run_publish. intros r a' Ha'.
  destruct r as [[]|e]; [|by apply Hstop]. wp_step. wp_step. wp_step. wp_step; [by apply Hstop|].
  assert (Hs' : synced_attempt i s0 log' candidate a' w) by (destruct Ha' as [-> | ->]; done).
  assert (Hf' : wal_fenced (wal a') = true) by (destruct Ha' as [-> | ->]; done).
  assert (Hk' : acknowledged (wal_progress (wal a')) = acknowledged (wal_progress s0)) by (destruct Ha' as [-> | ->]; done).
  wp_step. wp_step. wp_step. apply wp_ask; [intros; right; right; cbn; bool_inv; auto 6|]. wp_step. wp_step. wp_step.
  bool_inv. done.
Qed.

Lemma commit_steps_spec i s0 log group candidate canceled publish w :
  wal_fenced s0 = false -> wal_file s0 = {| inode := i; cursor := length log |} -> log_synced i log w ->
  snd <$> last (pg_frames group) = Some candidate ->
  wp (commit_steps group candidate canceled publish)
    (fun r s => match r with
      | Ok _ => finished i s0 (log ++ group_bytes (pg_frames group)) candidate (fst s) (snd s)
      | Err _ => stopped i s0 log (log ++ group_bytes (pg_frames group)) candidate (fst s) (snd s) end)
    ({| wal := s0; phase := Prepare; reached := false |}, w).
Proof.
  intros Hf Hh Hl Hc. unfold commit_steps. fold (publish_steps candidate canceled publish).
  assert (Hprep : stopped i s0 log (log ++ group_bytes (pg_frames group)) candidate
    {| wal := s0; phase := Prepare; reached := false |} w) by (left; done).
  wp_step. wp_step. wp_step. wp_step; [done|]. wp_step. apply wp_ask; [done|]. do 3 wp_step.
  destruct Hl as (n & Hn & Hd & Hi & Hs). eapply wp_mono; [exact (keeps (i:=i) (m:=epoch_acquire) n w Hn)|].
  intros [[]|e] w' Hn'; cbn [map_err]; [|left; repeat split; try done; by exists n].
  wp_step. wp_step. wp_step. wp_step. wp_step. cbn [on_wal set_phase wal phase reached].
  eapply wp_mono; [apply (append_frames_spec i s0 log [])|].
  { unfold appending. cbn. rewrite app_nil_r. repeat split; try done. by exists n. }
  intros [[]|e] [a w1] Ha; [|right; left; done]. destruct Ha as [Ha Hw]. cbn [fst snd app] in *.
  rewrite Hc in Hw. cbn [default from_option id] in Hw.
  destruct Ha as (Hp & Hr & Hfe & Hse & Hfi & H1 & H2 & H3 & n1 & Hn1 & Hd1 & Hi1).
  wp_step. wp_step. wp_step. wp_step. wp_step. wp_step. wp_step. apply wp_call.
  - intros k _. right; left. unfold unsynchronized. cbn. rewrite Hfi. repeat split; auto.
    exists n1, (group_bytes (pg_frames group)). repeat split; try apply Hn1; [done|lia].
  - unfold wp at 1. cbn [map_err]. wp_step. wp_step. wp_step. wp_step. wp_step. wp_step.
    apply publish_steps_spec; try done.
    unfold synced_attempt. cbn. repeat split; try done. rewrite Hfi. cbn.
    exists (sync_inode n1). destruct Hn1 as [Hn1 Hlt]. cbn. rewrite Hd1. repeat split; try done.
    cbn. by rewrite lookup_alter_eq, Hn1.
Qed.

(** *** Rollback *)

Lemma rollback_spec i s0 log a w (b : Position) :
  unsynchronized i s0 log a w -> synchronized (wal_progress s0) = b -> Position.offset b = zlen log ->
  wp (rollback b) (fun r s =>
    wal_fenced (fst s) = true /\ wal_selected (fst s) = wal_selected s0 /\ inode (wal_file (fst s)) = i /\
    published (wal_progress (fst s)) = published (wal_progress s0) /\
    acknowledged (wal_progress (fst s)) = acknowledged (wal_progress s0) /\
    match r with
    | Ok _ => log_synced i log (snd s) /\ written (wal_progress (fst s)) = b /\ synchronized (wal_progress (fst s)) = b
    | Err _ => log_prefix i log (snd s) end) (wal a, w).
Proof.
  intros (_ & _ & Hf & Hs & Hi & H1 & H2 & H3 & n & tail & [Hn Hlt] & Hd & Hk) Hb Hoff. unfold rollback.
  assert (Hz : Z.to_nat (Position.offset b) = length log) by (rewrite Hoff; unfold zlen; lia). rewrite Hz.
  assert (HP : log_prefix i log w) by (by exists n, tail).
  set (w' := modify i (resize_inode (length log)) (tick w)).
  assert (Hn' : file_at i (resize_inode (length log) n) w').
  { split; [|done]. cbn. by rewrite lookup_alter_eq, Hn. }
  assert (HP' : log_prefix i log w').
  { exists (resize_inode (length log) n), []. cbn. rewrite app_nil_r, Hd, resize_prefix. split; [done|]. split; [done|lia]. }
  do 4 wp_step; [done|]. wp_step. wp_step. unfold stream_io. wp_step. unfold set_len. rewrite Hi.
  fold w'. apply wp_call; [intros [|k]; cbn [atomic]; fold w'; repeat split; done|]. unfold wp at 1. fold w'. cbn [map_err].
  wp_step. wp_step. wp_step. apply wp_call; [done|]. cbn [map_err ret wp]. wp_step. wp_step. wp_step. wp_step. wp_step.
  apply wp_call; [repeat split; done|]. unfold wp at 1. cbn [map_err]. wp_step. cbn. repeat split; try done; [|congruence].
  rewrite Hi. exists (sync_inode (resize_inode (length log) n)). cbn. rewrite Hd, resize_prefix. repeat split; try done.
  cbn. destruct Hn' as [Hn' _]. subst w'. cbn in *. by rewrite lookup_alter_eq, Hn'.
Qed.

(** *** Whole commits *)

(** What the writer guarantees between commits: its log is a chain of [bodies],
    all of it is on disk, and its cursor and its progress are at the end. *)
Definition wal_ready `{Blake3} `{Zstd} (limit : Z) (s : LogicalWal) (bodies : list bytes) (w : World) : Prop :=
  exists log c', chain limit (sel_context (wal_selected s)) bodies log c' /\
    log_synced (inode (wal_file s)) log w /\ cursor (wal_file s) = length log /\
    written (wal_progress s) = at_context c' (zlen log) /\
    synchronized (wal_progress s) = at_context c' (zlen log) /\ wal_fenced s = false.

(** Exactly [bodies] are on disk. *)
Definition durable `{Blake3} `{Zstd} (limit : Z) (s : LogicalWal) (bodies : list bytes) (w : World) : Prop :=
  exists log c', chain limit (sel_context (wal_selected s)) bodies log c' /\ log_synced (inode (wal_file s)) log w.

(** [bodies] are on disk, and nothing is known of what follows them. *)
Definition durable_prefix `{Blake3} `{Zstd} (limit : Z) (s : LogicalWal) (bodies : list bytes) (w : World) : Prop :=
  exists log c', chain limit (sel_context (wal_selected s)) bodies log c' /\ log_prefix (inode (wal_file s)) log w.

(** The outcome of a commit, by cases. *)
Inductive commit_outcome (i : nat) (s : LogicalWal) log log' (w : World) (candidate : Position) :
    result CommitFailure Position -> LogicalWal -> World -> Prop :=
| outcome_ok a w' :
    finished i s log' candidate a w' -> commit_outcome i s log log' w candidate (Ok candidate) (wal a) w'
| outcome_prepare w' source :
    log_synced i log w' ->
    commit_outcome i s log log' w candidate
      (Err {| cf_phase := Prepare; cf_durability := Canceled; cf_progress := wal_progress s;
              cf_candidate := None; cf_source := source; cf_cleanup := None |}) s w'
| outcome_undone s' w' ph source :
    ph = Append \/ ph = Synchronize -> log_synced i log w' -> wal_fenced s' = true ->
    wal_selected s' = wal_selected s -> inode (wal_file s') = i ->
    published (wal_progress s') = published (wal_progress s) ->
    acknowledged (wal_progress s') = acknowledged (wal_progress s) ->
    commit_outcome i s log log' w candidate
      (Err {| cf_phase := ph; cf_durability := Canceled; cf_progress := wal_progress s';
              cf_candidate := Some candidate; cf_source := source; cf_cleanup := None |}) s' w'
| outcome_uncertain s' w' ph source error :
    ph = Append \/ ph = Synchronize -> log_prefix i log w' -> wal_fenced s' = true ->
    wal_selected s' = wal_selected s -> inode (wal_file s') = i ->
    published (wal_progress s') = published (wal_progress s) ->
    acknowledged (wal_progress s') = acknowledged (wal_progress s) ->
    commit_outcome i s log log' w candidate
      (Err {| cf_phase := ph; cf_durability := Uncertain; cf_progress := wal_progress s';
              cf_candidate := Some candidate; cf_source := source; cf_cleanup := Some error |}) s' w'
| outcome_committed a w' ph source :
    synced_attempt i s log' candidate a w' -> ph = Publish \/ ph = Acknowledge -> wal_fenced (wal a) = true ->
    (published (wal_progress (wal a)) = published (wal_progress s) \/
     published (wal_progress (wal a)) = Some candidate /\ ph = Acknowledge) ->
    acknowledged (wal_progress (wal a)) = acknowledged (wal_progress s) ->
    commit_outcome i s log log' w candidate
      (Err {| cf_phase := ph; cf_durability := Committed; cf_progress := wal_progress (wal a);
              cf_candidate := Some candidate; cf_source := source; cf_cleanup := None |}) (wal a) w'.

Lemma conclude_outcome i s log log' w group candidate source a w1 :
  stopped i s log log' candidate a w1 -> synchronized (wal_progress s) = pg_base group ->
  Position.offset (pg_base group) = zlen log ->
  let '(f, (s', w')) := conclude group candidate source a w1 in
  commit_outcome i s log log' w candidate (Err f) s' w'.
Proof.
  intros Hst Hb Ho. unfold conclude. destruct Hst as [(Hp & Hr & Hw & Hl)|[Hu|(Hs & Hp & Hf & Ha & Hpu)]].
  - rewrite Hr, Hp. cbn [andb]. rewrite bool_decide_eq_true_2 by done. rewrite Hw. by constructor.
  - pose proof (rollback_spec i s log a w1 (pg_base group) Hu Hb Ho) as HR. unfold wp in HR.
    destruct Hu as (Hp & Hr & _). rewrite Hr. cbn [andb].
    rewrite (bool_decide_eq_false_2 (phase a = Prepare)) by (destruct Hp as [-> | ->]; done).
    destruct (rollback _ _) as [[[]|e] [s' w']]; cbn [fst snd] in HR; destruct HR as (? & ? & ? & ? & ? & HR).
    + apply outcome_undone; try done; apply HR.
    + by apply outcome_uncertain.
  - destruct Hs as [Hr Hs']. rewrite Hr. cbn [andb].
    case_bool_decide as Hpub; [|destruct Hp as [-> | Hp]; [|rewrite Hp]]; rewrite ?bool_decide_eq_false_2 by done;
      apply outcome_committed; auto; try (split; done); intuition congruence.
Qed.
Lemma commit_total `{Blake3} `{Zstd} limit limit' s bodies w bodies' comp group canceled publish :
  wal_ready limit s bodies w -> limit' <= limit -> limit <= MAX_PAYLOAD -> prepare s bodies' comp limit' = Ok group ->
  exists r s' w' log log' c' candidate,
    commit group canceled publish (s, w) = Some (r, (s', w')) /\
    commit_outcome (inode (wal_file s)) s log log' w candidate r s' w' /\
    chain limit (sel_context (wal_selected s)) bodies log (fst c') /\
    chain limit (sel_context (wal_selected s)) (bodies ++ bodies') log' (snd c') /\
    candidate = at_context (snd c') (zlen log') /\ zlen log <= zlen log' <= u64_max /\
    cursor (wal_file s) = length log /\ written (wal_progress s) = at_context (fst c') (zlen log) /\
    synchronized (wal_progress s) = at_context (fst c') (zlen log).
Proof.
  intros (log & c & Hc & Hl & Hcur & Hw & Hs & Hf) Hlim Hmax P.
  apply (prepare_chain _ _ _ _ c (zlen log)) in P as (_ & Hb & c' & candidate & Hc' & Hlast & Hcand & Hmaxo); [|done].
  apply (chain_mono _ limit) in Hc'; [|done..].
  set (g := group_bytes (pg_frames group)) in *.
  unfold commit. destruct (last (pg_frames group)) as [[fr p]|] eqn:EL; [|done]. cbn in Hlast. injection Hlast as Hlast.
  pose proof (commit_steps_spec (inode (wal_file s)) s log group candidate canceled publish w Hf) as HS.
  rewrite EL in HS. cbn [fmap option_fmap option_map snd] in HS. rewrite Hlast in HS.
  specialize (HS ltac:(destruct (wal_file s); cbn in *; congruence) Hl eq_refl). unfold wp in HS.
  cbn [fst snd]. rewrite Hlast. destruct (commit_steps _ _ _ _ _) as [[[]|stop] [a w1]]; cbn [fst snd] in HS.
  - exists (Ok candidate), (wal a), w1, log, (log ++ g), (c, c'), candidate. split; [done|]. split; [by constructor|].
    split; [done|]. split; [by eapply chain_app|]. rewrite zlen_app. split; [done|]. pose proof (zlen_nonneg g). by split_and!; [lia..| | |].
  - set (source := match stop with Failed e => e | Panic => _ end).
    pose proof (conclude_outcome _ _ _ _ w group candidate source a w1 HS) as HC. rewrite Hs, Hb in HC.
    specialize (HC eq_refl eq_refl). destruct (conclude _ _ _ _ _) as [f [s' w']].
    exists (Err f), s', w', log, (log ++ g), (c, c'), candidate. split; [done|]. split; [done|].
    split; [done|]. split; [by eapply chain_app|]. rewrite zlen_app. split; [done|]. pose proof (zlen_nonneg g). by split_and!; [lia..| | |].
Qed.

(** ** Properties *)

(** C9: the durability a commit reports is the truth.  Whatever I/O errors,
    partial writes, cancellations and panics occur, a commit on a ready writer
    ends and returns; when it succeeds the writer is ready with the new records
    appended; when it fails the writer is fenced, or it is [Canceled] and the writer
    is as ready as it was.  When it reports [Committed] all new records are on disk,
    when it reports [Canceled] none is and the old log is exactly what is on disk,
    and when it reports [Uncertain] the old records are on disk. *)
Theorem commit_durability `{Blake3} `{Zstd} limit limit' s bodies w bodies' comp group canceled publish :
  wal_ready limit s bodies w -> limit' <= limit -> limit <= MAX_PAYLOAD -> prepare s bodies' comp limit' = Ok group ->
  exists r s' w', commit group canceled publish (s, w) = Some (r, (s', w')) /\
    wal_selected s' = wal_selected s /\
    match r with
    | Ok p => wal_ready limit s' (bodies ++ bodies') w' /\ p = synchronized (wal_progress s')
    | Err f =>
        (wal_fenced s' = true \/ cf_durability f = Canceled /\ wal_ready limit s' bodies w') /\
        match cf_durability f with
        | Committed => durable limit s' (bodies ++ bodies') w'
        | Canceled => durable limit s' bodies w'
        | Uncertain => durable_prefix limit s' bodies w'
        end
    end.
Proof.
  intros HR Hle Hmax P.
  destruct (commit_total _ _ _ _ _ _ _ _ canceled publish HR Hle Hmax P)
    as (r & s' & w' & log & log' & [c c'] & candidate & E & O & Hc & Hc' & Hp & _ & Hcur & Hwr0 & Hsy0).
  exists r, s', w'. split; [done|]. cbn [fst snd] in *. assert (Hnf : wal_fenced s = false) by (destruct HR as (? & ? & ? & ? & ? & ? & ? & ?); done).
  destruct O as [a w' (Hs & Hf & Hpub & Hack)|w' ? Hl|s' w' ph ? ? Hl ? Hsel Hi|s' w' ph ? ? ? Hl ? Hsel Hi|a w' ph ? Hs];
    try (destruct Hs as (? & Hsel & Hfile & Hwr & Hsy & Hl)).
  - split; [done|]. split; [|done]. exists log', c'. rewrite Hsel, Hfile, Hwr, Hsy. cbn. by subst candidate.
  - split; [done|]. split; [right; split; [done|]|]; by exists log, c.
  - split; [done|]. split; [by left|]. exists log, c. by rewrite Hsel, Hi.
  - split; [done|]. split; [by left|]. exists log, c. by rewrite Hsel, Hi.
  - split; [done|]. split; [by left|]. exists log', c'. by rewrite Hsel, Hfile.
Qed.
End Commit.

(** C21: phases are ordered and a failed commit never acknowledges.  A failure
    leaves the acknowledged position as it was.  It changes the published
    position only in phase [Acknowledge], and then everything is [Committed].
    The phases [Publish] and [Acknowledge] are exactly the [Committed] failures,
    a cleanup error is reported exactly when the outcome is [Uncertain], and
    after any failure but one in phase [Prepare], which leaves the writer as it
    was, the writer is fenced. *)
Theorem commit_phases `{Machine} `{Blake3} `{Zstd} limit limit' s bodies w bodies' comp group canceled publish f s' w' :
  wal_ready limit s bodies w -> limit' <= limit -> limit <= MAX_PAYLOAD -> prepare s bodies' comp limit' = Ok group ->
  commit group canceled publish (s, w) = Some (Err f, (s', w')) ->
  cf_progress f = wal_progress s' /\
  acknowledged (wal_progress s') = acknowledged (wal_progress s) /\
  (published (wal_progress s') <> published (wal_progress s) -> cf_phase f = Acknowledge) /\
  (cf_durability f = Committed <-> cf_phase f = Publish \/ cf_phase f = Acknowledge) /\
  (cf_durability f = Uncertain <-> is_Some (cf_cleanup f)) /\
  (cf_phase f = Prepare -> s' = s /\ cf_durability f = Canceled) /\
  (cf_phase f <> Prepare -> wal_fenced s' = true).
Proof.
  intros HR Hle Hmax P E.
  destruct (commit_total _ _ _ _ _ _ _ _ canceled publish HR Hle Hmax P)
    as (r & s1 & w1 & log & log' & [c c'] & candidate & E' & O & _).
  rewrite E in E'. injection E' as <- <- <-.
  inversion O; subst; cbn [cf_progress cf_phase cf_durability cf_cleanup]; 
    repeat split; intros; repeat match goal with
    | H : _ \/ _ |- _ => destruct H
    | H : is_Some None |- _ => by destruct H
    | H : _ /\ _ |- _ => destruct H
    end; subst; try done; try congruence; eauto.
Qed.
