(* ===== verification/Reading.v ===== *)
(** Correctness of reading: what the reader returns on a log.

    A reader at [c] sees the bytes of the log it captured.  On a chain it
    returns the bodies in order whatever follows the chain, and it classifies
    what follows. *)

From S2P Require Import Prelude Errors Externals Identity Frame Snapshot Disk StoreDirectory Control Selection Reader Stream Log Commit.
From coqutil Require Import Byte.

(** The bytes [r] can still read are [suffix]. *)
Definition sees (r : LogicalReader) (w : World) (suffix : bytes) : Prop :=
  exists f, inodes w !! inode (file r) = Some f /\
    take (Z.to_nat (rest r)) (drop (cursor (file r)) (data f)) = suffix /\ rest r = zlen suffix.

(** [r] is a working reader in context [c] at byte [off], before [suffix]. *)
Record reader_at (r : LogicalReader) (w : World) (c : Context) (off : Z) (suffix : bytes) : Prop := {
  ra_context : context r = c;
  ra_position : position r = at_context c off;
  ra_ended : ended r = false;
  ra_failed : failed r = false;
  ra_incomplete : incomplete_flag r = false;
  ra_sees : sees r w suffix
}.

(** The reader's configuration is unchanged. *)
Definition same_reader (r r' : LogicalReader) : Prop :=
  limit r' = limit r /\ selected r' = selected r /\ lease r' = lease r /\ captured_bytes r' = captured_bytes r.

Section Reading.
Context `{Machine} `{Blake3Laws} `{ZstdLaws} `{HashHex}.

Lemma wp_read_file n r w suffix (Q : result StreamError bytes -> LogicalReader * World -> Prop) :
  sees r w suffix ->
  (faulty -> Q (Err (StreamError.Io IoOther)) (r, tick w)) ->
  (forall h m, sees (set_file h m r) (tick w) (drop n suffix) -> Q (Ok (take n suffix)) (set_file h m r, tick w)) ->
  wp (read_file n) Q (r, w).
Proof.
  intros (f & Hf & Hs & Hr) He Hk. unfold read_file, stream_io. do 5 wp_step. apply wp_call; [intros k Hk'; apply He; by eexists _, k|].
  unfold wp at 1. cbn [inodes tick]. rewrite Hf. cbn beta iota zeta delta [map_err]. do 3 wp_step. cbn [fst snd].
  assert (E : take (n `min` Z.to_nat (rest r)) (drop (cursor (file r)) (data f)) = take n suffix).
  { rewrite <- Hs, take_take. done. }
  rewrite E. apply Hk. exists f. cbn. split; [done|].
  assert (Hl : zlen (take n suffix) + zlen (drop n suffix) = rest r) by (rewrite <- zlen_app, take_drop; lia).
  split; [|lia]. rewrite <- drop_drop.
  replace (Z.to_nat (rest r - zlen (take n suffix))) with (Z.to_nat (rest r) - length (take n suffix))%nat
    by (unfold zlen; lia).
  rewrite <- skipn_firstn_comm, Hs, length_take. destruct (Nat.le_gt_cases n (length suffix)).
  - by rewrite Nat.min_l.
  - by rewrite Nat.min_r, !drop_ge by lia.
Qed.

(** *** A complete frame *)

Lemma frame_length limit c body fr : context_wf c -> frame limit c body fr -> (200 <= length fr)%nat.
Proof. intros W [comp E]. by eapply encode_length. Qed.

Lemma frame_torn limit c body fr k :
  context_wf c -> frame limit c body fr -> (k < length fr)%nat ->
  decode (take k fr) c UnsealedEnd limit = Ok (Incomplete (if (k <? 160)%nat then 160 else length fr)).
Proof.
  intros W [comp (Hc & codec & e & -> & F & _)%encode_inv]. rewrite frame_bytes_length by done. intros Hk.
  by rewrite decode_torn_aux.
Qed.

Lemma frame_complete limit c body fr :
  context_wf c -> frame limit c body fr ->
  decode fr c UnsealedEnd limit = Ok (Complete body (drop (length fr - 32) fr) (length fr)).
Proof.
  intros W [comp E]. rewrite <- (app_nil_r fr) at 1.
  rewrite (decode_encode_aux _ c c comp _ _ _ _ W E), place_refl by (by eapply encode_context).
  by rewrite slice_drop by lia.
Qed.

(** The reader after a record. *)
Definition read_past (r : LogicalReader) (c : Context) (off : Z) (fr : bytes) (r' : LogicalReader) (w' : World) suffix : Prop :=
  reader_at r' w' (next_context c fr) (off + zlen fr) suffix /\ same_reader r r' /\ last_record_offset r' = off.

(** Decoding a whole frame. *)
Lemma wp_read_loop_complete fuel r w c off body fr suffix (Q : result StreamError (option (option bytes)) -> LogicalReader * World -> Prop) :
  context_wf c -> frame (limit r) c body fr -> sequence c < u64_max -> 0 <= off -> off + zlen fr <= u64_max ->
  context r = c -> position r = at_context c off -> failed r = false -> incomplete_flag r = false -> sees r w suffix ->
  (forall r', read_past r c off fr r' w suffix -> Q (Ok (Some (Some body))) (r', w)) ->
  wp (read_loop (S fuel) fr) Q (r, w).
Proof.
  intros W F Hseq Ho Hoff Hc Hp Hf Hi Hs HQ. pose proof (wf_sequence _ W) as Hu. unfold is_u64 in Hu.
  cbn [read_loop]. repeat wp_step. rewrite Hc, (frame_complete _ _ _ _ W F). cbn [map_err]. repeat wp_step.
  unfold checked_add at 1. rewrite (proj2 (Z.leb_le _ _)) by lia. cbn [ok_or]. repeat wp_step.
  rewrite Hp. cbn [Position.offset at_context]. unfold zlen in Hoff.
  unfold checked_add. rewrite (proj2 (Z.leb_le _ _)) by lia. cbn [ok_or]. repeat wp_step. apply HQ.
  split; [|done]. by split.
Qed.

(** Decoding a part of a frame reads what is missing. *)
Lemma wp_read_loop_more fuel b r w needed suffix (Q : result StreamError (option (option bytes)) -> LogicalReader * World -> Prop) :
  decode b (context r) UnsealedEnd (limit r) = Ok (Incomplete needed) -> (length b < needed)%nat -> sees r w suffix ->
  (faulty -> Q (Err (StreamError.Io IoOther)) (r, tick w)) ->
  ((length suffix < needed - length b)%nat -> forall h m,
     sees (set_file h m r) (tick w) [] -> Q (Ok (Some None)) (set_incomplete (set_file h m r), tick w)) ->
  ((needed - length b <= length suffix)%nat -> forall h m, let r' := set_file h m r in
     sees r' (tick w) (drop (needed - length b) suffix) ->
     wp (read_loop fuel (b ++ take (needed - length b) suffix)) Q (r', tick w)) ->
  wp (read_loop (S fuel) b) Q (r, w).
Proof.
  intros Hd Hl Hs Hio Hshort Hmore. cbn [read_loop]. do 4 wp_step. rewrite Hd. cbn [map_err].
  rewrite (proj2 (Nat.ltb_lt _ _)) by done. wp_step. eapply wp_read_file; [exact Hs|exact Hio|]. intros h m Hs'.
  rewrite length_take. destruct (Nat.ltb_spec (min (needed - length b) (length suffix)) (needed - length b)).
  - do 3 wp_step. rewrite drop_ge in Hs' by lia. apply Hshort; [lia|done].
  - apply Hmore; [lia|done].
Qed.

Lemma wp_next_body r w (Q : result StreamError (option bytes) -> LogicalReader * World -> Prop) :
  failed r = false ->
  wp read_next (fun res s => match res with
    | Ok x => Q (Ok x) s
    | Err e => Q (Err (StreamError.at_ e (log_name (selected r)) (Some (Position.offset (position r)))
                         (Some (sequence (context r))))) (set_failed (fst s), snd s)
    end) (r, w) ->
  wp next_body Q (r, w).
Proof.
  intros Hf Hr. unfold next_body. do 3 wp_step. wp_step; [congruence|]. do 2 wp_step.
  eapply wp_mono; [exact Hr|]. intros [x|e] [r' w'] HQ; cbn [is_err]; repeat wp_step; exact HQ.
Qed.

(** The first read of [read_next] and its loop. *)
Lemma wp_read_next r w suffix (Q : result StreamError (option bytes) -> LogicalReader * World -> Prop) :
  ended r = false -> sees r w suffix ->
  (faulty -> Q (Err (StreamError.Io IoOther)) (set_ended true r, tick w)) ->
  (suffix = [] -> forall h m, sees (set_file h m (set_ended true r)) (tick w) [] ->
     Q (Ok None) (set_file h m (set_ended true r), tick w)) ->
  (suffix <> [] -> forall h m, let r' := set_file h m (set_ended true r) in
     sees r' (tick w) (drop 160 suffix) ->
     wp (read_loop 2 (take 160 suffix)) (fun res s => match res with
       | Ok (Some x) => Q (Ok x) s
       | Ok None => Q (Err (StreamError.Protocol "decoder made no progress")) s
       | Err e => Q (Err e) s end) (r', tick w)) ->
  wp read_next Q (r, w).
Proof.
  intros He Hs Hio Hnil Hcons. unfold read_next. do 2 wp_step. rewrite He. do 3 wp_step.
  eapply (wp_read_file _ _ _ suffix); [exact Hs|exact Hio|]. intros h m Hs'. fold Frame.HEADER_LEN in Hcons.
  case_bool_decide as E.
  - assert (suffix = []) as ->.
    { apply (f_equal length) in E. rewrite length_take in E. destruct suffix; [done|cbn in E; lia]. }
    wp_step. by apply Hnil.
  - wp_step. eapply wp_mono; [apply (Hcons ltac:(by intros ->) h m Hs')|].
    intros [[x|]|e] s; cbn beta iota; auto.
Qed.

(** Before a complete frame, [read_next] decodes that frame. *)
Lemma wp_read_next_frame r w c off body fr tail (Q : result StreamError (option bytes) -> LogicalReader * World -> Prop) :
  context_wf c -> frame (limit r) c body fr -> reader_at r w c off (fr ++ tail) ->
  (faulty -> forall s, same_disk w (snd s) -> Q (Err (StreamError.Io IoOther)) s) ->
  (forall h m w', let r' := set_file h m (set_ended true r) in same_disk w w' -> sees r' w' tail ->
     wp (read_loop 1 fr) (fun res s => match res with
       | Ok (Some x) => Q (Ok x) s
       | Ok None => Q (Err (StreamError.Protocol "decoder made no progress")) s
       | Err e => Q (Err e) s end) (r', w')) ->
  wp read_next Q (r, w).
Proof.
  intros W F [Hc Hp He Hf Hi Hs] HE HQ. pose proof (frame_length _ _ _ _ W F) as HL.
  eapply wp_read_next; [done|exact Hs|intros; by apply HE| |].
  { intros E. apply (f_equal length) in E. rewrite length_app in E. cbn in E. lia. }
  intros _ h m r' Hs'. rewrite take_app_le, drop_app_le in * by lia.
  eapply (wp_read_loop_more _ _ _ _ (length fr)); [|rewrite length_take; lia|exact Hs'|intros; by apply HE| |].
  { cbn. rewrite Hc, (frame_torn _ _ body), Nat.ltb_irrefl by (done || lia). done. }
  { rewrite length_take, length_app, length_drop. intros. lia. }
  intros _ h' m' r2 Hs''. rewrite length_take, Nat.min_l in * by lia.
  rewrite take_app_le, drop_app_ge, (take_ge (drop _ _)) in * by (rewrite length_drop; lia).
  rewrite length_drop, Nat.sub_diag, take_drop in *. by apply (HQ h' m').
Qed.

(** A reader before a complete frame returns its body, or reports an I/O error
    and is dead. *)
Lemma next_body_frame r w c off body fr tail :
  context_wf c -> frame (limit r) c body fr -> sequence c < u64_max -> 0 <= off -> off + zlen fr <= u64_max ->
  reader_at r w c off (fr ++ tail) ->
  wp next_body (fun res s => same_disk w (snd s) /\
    match res with
    | Ok None => False
    | Ok (Some b) => b = body /\ read_past r c off fr (fst s) (snd s) tail
    | Err e => faulty /\ failed (fst s) = true /\
               e = StreamError.at_ (StreamError.Io IoOther) (log_name (selected r)) (Some off) (Some (sequence c))
    end) (r, w).
Proof.
  intros W F Hseq Ho Hoff HR. pose proof HR as [Hc Hp He Hf Hi Hs].
  apply wp_next_body; [done|]. rewrite Hp, Hc. eapply wp_read_next_frame; [done|exact F|exact HR|done|].
  intros h m w' r' Hd Hs'. by eapply wp_read_loop_complete.
Qed.

(** A complete frame with the last sequence number is refused. *)
Lemma next_body_last r w c off body fr tail :
  context_wf c -> frame (limit r) c body fr -> sequence c = u64_max -> reader_at r w c off (fr ++ tail) ->
  wp next_body (fun res _ => faulty \/
    res = Err (StreamError.at_ (StreamError.Protocol "sequence exhausted") (log_name (selected r)) (Some off) (Some u64_max))) (r, w).
Proof.
  intros W F Hseq HR. pose proof HR as [Hc Hp He Hf Hi Hs].
  apply wp_next_body; [done|]. rewrite Hp, Hc, Hseq. eapply wp_read_next_frame; [done|exact F|exact HR|by left|].
  intros h m w' r' Hd Hs'. cbn [read_loop]. repeat wp_step. cbn [context limit set_file set_ended r'].
  rewrite Hc, (frame_complete _ _ _ _ W F). cbn [map_err]. repeat wp_step. rewrite Hseq. by right.
Qed.

(** *** The end of the log *)

Lemma next_body_end r w c off :
  reader_at r w c off [] ->
  wp next_body (fun res s => same_disk w (snd s) /\ same_reader r (fst s) /\
    match res with
    | Ok None => ended (fst s) = true /\ failed (fst s) = false /\ incomplete_flag (fst s) = false /\
                 position (fst s) = at_context c off
    | Ok (Some _) => False
    | Err e => faulty /\ failed (fst s) = true
    end) (r, w).
Proof.
  intros [Hc Hp He Hf Hi Hs]. apply wp_next_body; [done|].
  by eapply wp_read_next; [done|exact Hs|..].
Qed.

(** A strict prefix of a frame is an incomplete tail. *)
Lemma next_body_torn r w c off body fr k :
  context_wf c -> frame (limit r) c body fr -> (0 < k < length fr)%nat -> reader_at r w c off (take k fr) ->
  wp next_body (fun res s => same_disk w (snd s) /\ same_reader r (fst s) /\
    match res with
    | Ok None => ended (fst s) = true /\ failed (fst s) = false /\ incomplete_flag (fst s) = true /\
                 position (fst s) = at_context c off
    | Ok (Some _) => False
    | Err e => faulty /\ failed (fst s) = true
    end) (r, w).
Proof.
  intros W F Hk [Hc Hp He Hf Hi Hs]. pose proof (frame_length _ _ _ _ W F) as HL.
  apply wp_next_body; [done|]. eapply wp_read_next; [done|exact Hs|done| |].
  { intros E. apply (f_equal length) in E. rewrite length_take in E. cbn in E. lia. }
  intros _ h m r' Hs'. rewrite take_take, skipn_firstn_comm in *.
  eapply wp_read_loop_more; [cbn [context set_file set_ended r' limit]; rewrite Hc; apply (frame_torn (limit r) c body fr (160 `min` k) W F); lia| |exact Hs'|done|done|].
  - rewrite length_take. destruct (Nat.ltb_spec (160 `min` k) 160); lia.
  - destruct (Nat.ltb_spec (160 `min` k) 160); intros Hle; rewrite !length_take, length_drop in Hle; lia.
Qed.

(** *** Reading everything *)

(** A client that calls [next_body] until it returns no body: the bodies, and how
    it stopped; [None] when the fuel runs out first. *)
Fixpoint read_all (fuel : nat) (s : LogicalReader * World) :
    list bytes * option (result StreamError unit) * (LogicalReader * World) :=
  match fuel with
  | O => ([], None, s)
  | S fuel =>
      let '(r, s) := next_body s in
      match r with
      | Ok (Some body) => let '(got, e, s) := read_all fuel s in (body :: got, e, s)
      | Ok None => ([], Some (Ok tt), s)
      | Err e => ([], Some (Err e), s)
      end
  end.

Lemma next_context_wf limit c body fr :
  context_wf c -> frame limit c body fr -> sequence c < u64_max -> context_wf (next_context c fr).
Proof.
  intros W F Hs. pose proof (frame_length _ _ _ _ W F). destruct W as [? ? [? ?] ? ?].
  split; cbn; try done; [unfold is_u64; lia|]. rewrite length_drop. lia.
Qed.

Lemma chain_wf limit c bodies log c' :
  chain limit c bodies log c' -> context_wf c -> sequence c' <= u64_max -> context_wf c'.
Proof.
  induction 1 as [|c body fr bodies log c' F C IH]; intros W Hs; [done|]. apply IH; [|done].
  pose proof (chain_sequence _ _ _ _ _ C) as E. cbn in E. eapply next_context_wf; [done|exact F|lia].
Qed.

(** Reading a chain returns its bodies and leaves the reader behind it, unless an
    I/O call fails. *)
Lemma read_all_chain r w c bodies log c' :
  chain (limit r) c bodies log c' -> forall off tail fuel,
  context_wf c -> sequence c' <= u64_max -> 0 <= off -> off + zlen log <= u64_max ->
  reader_at r w c off (log ++ tail) ->
  (exists r' w', same_disk w w' /\ reader_at r' w' c' (off + zlen log) tail /\ same_reader r r' /\ context_wf c' /\
     read_all (length bodies + fuel) (r, w) =
       (let '(got, e, s) := read_all fuel (r', w') in (bodies ++ got, e, s))) \/
  (faulty /\ exists k e s, (k < length bodies)%nat /\ read_all (length bodies + fuel) (r, w) = (take k bodies, Some (Err e), s)).
Proof.
  intros C. remember (limit r) as lim eqn:Hlim. revert r w Hlim.
  induction C as [c|c body fr bodies log c' F C IH]; intros r w Hlim off tail fuel W Hseq Ho Hoff HR.
  - left. exists r, w. change (zlen []) with 0. rewrite Z.add_0_r. cbn [length Nat.add app].
    split; [done|]. split; [done|]. split; [done|]. split; [done|]. by destruct (read_all fuel (r, w)) as [[? ?] ?].
  - pose proof (chain_sequence _ _ _ _ _ C) as Hcs. cbn [sequence next_context] in Hcs.
    rewrite zlen_app in Hoff. pose proof (zlen_nonneg log). rewrite <- app_assoc in HR. subst lim.
    pose proof (next_body_frame r w c off body fr (log ++ tail) W F ltac:(lia) Ho ltac:(lia) HR) as HN.
    unfold wp in HN. cbn [length Nat.add read_all]. destruct (next_body (r, w)) as [res [r1 w1]].
    destruct HN as [Hd HN]. cbn [fst snd] in *. destruct res as [[b|]|e]; [|done|].
    + destruct HN as [-> (HR1 & (Hl1 & Hs1) & _)]. assert (Hz := zlen_nonneg fr).
      destruct (IH r1 w1 ltac:(done) (off + zlen fr) tail fuel) as [(r' & w' & Hd' & HR' & Hsame & Wc' & E)|(Hfa & k & e & s & Hk & E)];
        try done; try lia; [by eapply next_context_wf; [|exact F|lia]| |].
      * left. exists r', w'. rewrite zlen_app, Z.add_assoc, E. destruct (read_all fuel (r', w')) as [[? ?] ?].
        split; [by etrans|]. split; [done|]. split; [|done]. unfold same_reader in *. intuition congruence.
      * right. split; [done|]. exists (S k), e, s. rewrite E. split; [lia|done].
    + right. destruct HN as (Hfa & _). split; [done|]. exists 0%nat, e, (r1, w1). split; [lia|done].
Qed.

(** A cut chain is a chain followed by a torn frame or by nothing. *)
Lemma chain_cut limit c bodies log c' k :
  chain limit c bodies log c' -> context_wf c -> sequence c' <= u64_max ->
  exists j log1 c1 torn, chain limit c (take j bodies) log1 c1 /\ take k log = log1 ++ torn /\ (j <= length bodies)%nat /\
    sequence c1 <= u64_max /\
    (torn = [] \/ exists body fr m, frame limit c1 body fr /\ (0 < m < length fr)%nat /\ torn = take m fr).
Proof.
  intros C. revert k. induction C as [c|c body fr bodies log c' F C IH]; intros k W Hs.
  - exists 0%nat, [], c, []. rewrite !take_nil. split; [apply chain_nil|]. split; [done|]. split; [done|]. split; [done|by left].
  - pose proof (chain_sequence _ _ _ _ _ C) as Hcs. cbn [sequence next_context] in Hcs.
    destruct (Nat.le_gt_cases (length fr) k) as [Hk|Hk].
    + destruct (IH (k - length fr)%nat) as (j & log1 & c1 & torn & C1 & E & Hj & Hs1 & Ht);
        [by eapply next_context_wf; [|exact F|lia]|done|].
      exists (S j), (fr ++ log1), c1, torn. cbn [take]. split; [by constructor|].
      rewrite take_app_ge, E, app_assoc by done. cbn [length]. repeat split; auto; lia.
    + exists 0%nat, [], c, (take k fr). cbn [take]. rewrite take_app_le by lia. pose proof (wf_sequence _ W) as [_ ?].
      split; [apply chain_nil|]. split; [done|]. split; [cbn; lia|]. split; [lia|]. destruct k as [|k]; [by left|].
      right. exists body, fr, (S k). repeat split; auto; lia.
Qed.

(** *** The loop of [read_next] is bounded *)

Lemma decode_incomplete_inv b c boundary limit n :
  decode b c boundary limit = Ok (Incomplete n) ->
  (length b < 160 /\ n = 160)%nat \/
  (160 <= length b < n)%nat /\ forall more m, (n <= length (b ++ more))%nat -> decode (b ++ more) c boundary limit <> Ok (Incomplete m).
Proof.
  unfold decode. intros E. ok_step. ok_step. ok_step. bool_inv. destruct (Nat.ltb_spec (length b) Frame.HEADER_LEN) as [Hl|Hl].
  - left. unfold incomplete in E. case_match; [|done]. injection E as <-. split; done.
  - right. rewrite slice_take in E. destruct (decode_header (take Frame.HEADER_LEN b) c limit) as [[[codec en] ex]|] eqn:Eh; [|done].
    ok_step. match goal with H : ok_or (checked_add en _) _ = Ok ?t |- _ => rename t into total; rename H into Ht end.
    destruct (Z.ltb_spec (zlen b) total) as [Hz|Hz].
    2: { ok_step. ok_step. ok_step. done. }
    unfold incomplete in E. case_match; [|done]. injection E as <-. unfold Frame.HEADER_LEN, zlen in *.
    split; [lia|]. intros more m Hm D.
    rewrite length_app in *.
    ok_step. rewrite (proj2 (Nat.ltb_ge _ _)), slice_within, slice_take, Eh, Ht in D by lia.
    rewrite (proj2 (Z.ltb_ge _ _)) in D by lia. ok_step. ok_step. ok_step. done.
Qed.

(** The error of a decoder that asks for nothing new. *)
Definition no_progress : StreamError := StreamError.Protocol "decoder made no progress".

(** The loop ended with some of [suffix] left. *)
Definition advanced (suffix : bytes) (s : LogicalReader * World) : Prop :=
  exists rest, sees (fst s) (snd s) rest /\ (length rest <= length suffix)%nat.

Lemma wp_read_loop_last fuel b r w suffix :
  (forall m, decode b (context r) UnsealedEnd (limit r) <> Ok (Incomplete m)) -> sees r w suffix ->
  wp (read_loop (S fuel) b) (fun res s => res <> Ok None /\ res <> Err no_progress /\ advanced suffix s) (r, w).
Proof.
  intros Hd Hs. assert (HA : forall r', file r' = file r -> rest r' = rest r -> advanced suffix (r', w)).
  { intros r' H5 H6. exists suffix. unfold sees in *. cbn [fst snd]. by rewrite H5, H6. }
  cbn [read_loop]. do 4 wp_step. destruct (decode b _ _ _) as [[body d n|m]|e] eqn:E.
  - cbn [map_err]. repeat wp_step. destruct (checked_add _ 1); [|split; [done|split; [done|by apply HA]]].
    cbn [ok_or]. repeat wp_step. destruct (checked_add _ _); [|split; [done|split; [done|by apply HA]]].
    cbn [ok_or]. repeat wp_step. split; [done|split; [done|by apply HA]].
  - by destruct (Hd m).
  - split; [done|split; [done|by apply HA]].
Qed.

Lemma wp_read_loop_bounded r w b suffix :
  sees r w suffix -> b <> [] -> ((length b < 160)%nat -> suffix = []) ->
  wp (read_loop 2 b) (fun res s => res <> Ok None /\ res <> Err no_progress /\ advanced suffix s) (r, w).
Proof.
  intros Hs Hb Hshort. assert (HA : advanced suffix (r, tick w)) by (by exists suffix).
  destruct (decode b (context r) UnsealedEnd (limit r)) as [[body d n|n]|e] eqn:E.
  - apply wp_read_loop_last; [|done]. intros k. by rewrite E.
  - destruct (decode_incomplete_inv _ _ _ _ _ E) as [[Hl ->]|[Hl Hfull]].
    + eapply wp_read_loop_more; [exact E|done|exact Hs|done| |rewrite Hshort by done; cbn; lia].
      intros _ h m Hs'. split; [done|split; [done|]]. exists []. split; [done|cbn; lia].
    + eapply wp_read_loop_more; [exact E|lia|exact Hs|done| |].
      { intros _ h m Hs'. split; [done|split; [done|]]. exists []. split; [done|cbn; lia]. }
      intros Hle h' m' r2 Hs2. eapply wp_mono; [eapply wp_read_loop_last; [|exact Hs2]|].
      { intros k. apply Hfull. rewrite length_app, length_take. lia. }
      intros res s (Ha & Hb' & rest & Hr & Hle'). split; [done|split; [done|]]. exists rest. split; [done|].
      rewrite length_drop in Hle'. lia.
  - apply wp_read_loop_last; [|done]. intros k. by rewrite E.
Qed.

(** Reading always ends, and a returned body takes bytes from the log. *)
Lemma next_body_advances r w suffix :
  sees r w suffix ->
  wp next_body (fun res s => (forall n o e, res <> Err (StreamError.at_ no_progress n o e)) /\ advanced suffix s /\
    match res with Ok (Some _) => exists rest, sees (fst s) (snd s) rest /\ (length rest < length suffix)%nat | _ => True end) (r, w).
Proof.
  intros Hs. assert (HA : forall r', file r' = file r -> Reader.rest r' = Reader.rest r -> forall w', inodes w' = inodes w -> advanced suffix (r', w')).
  { intros r' H5 H6 w' H7. exists suffix. unfold sees in *. cbn [fst snd]. by rewrite H5, H6, H7. }
  destruct (failed r) eqn:Hf.
  { unfold next_body. do 3 wp_step. wp_step; [|congruence]. split; [done|]. split; [by apply HA|done]. }
  apply wp_next_body; [done|]. destruct (ended r) eqn:He.
  { unfold read_next. do 2 wp_step. rewrite He. wp_step. split; [done|]. split; [by apply HA|done]. }
  eapply wp_read_next; [done|exact Hs|..].
  - intros _. split; [done|]. split; [by apply HA|done].
  - intros -> h m Hs'. split; [done|]. split; [by exists []|done].
  - intros Hne h m r' Hs'. eapply wp_mono; [eapply wp_read_loop_bounded; [exact Hs'|..]|].
    + destruct suffix; [done|]. by cbn.
    + rewrite length_take. intros. apply drop_ge. lia.
    + assert (0 < length suffix)%nat by (destruct suffix; [done|cbn; lia]).
      intros [[[body|]|]|e] s (Hx & Hy & rest & Hr & Hl); try done; rewrite length_drop in Hl;
        (split; [try done|split; [exists rest; split; [exact Hr|lia]|try done]]).
      * exists rest. split; [exact Hr|lia].
      * intros n o x [= E]. congruence.
Qed.

(** *** A fresh reader *)

Lemma wp_from_selection h sel lim f w :
  file_at (inode h) f w -> cursor h = 0%nat ->
  wp (from_selection h sel lim) (fun res w' => forall r, res = Ok r ->
    reader_at r w' (sel_context sel) 0 (data f) /\ limit r = lim /\ selected r = sel) w.
Proof.
  intros Hf Hc. unfold from_selection, at_artifact, persist, io, stream_io, open_read. do 3 wp_step.
  eapply wp_mono; [exact (keeps (i := inode h) (m := open_file (manifest_name sel) false) f w Hf)|].
  intros [l|e] w1 Hf1; cbn [map_err]; [|done]. do 4 wp_step. apply wp_call; [done|]. unfold wp at 1. cbn beta iota delta [map_err].
  do 4 wp_step. apply wp_call; [done|]. destruct Hf1 as [Hf1 _].
  assert (Hm : exists f', inodes (modify (inode l) lease_inode (tick w1)) !! inode h = Some f' /\ data f' = data f).
  { cbn. destruct (decide (inode l = inode h)) as [->|Hne]; [rewrite lookup_alter_eq, Hf1; by eexists|].
    rewrite lookup_alter_ne, Hf1 by done. by eexists. }
  destruct Hm as (f' & Hf' & Hd'). unfold wp at 1. cbn [inodes tick]. cbn [inodes tick] in Hf'. rewrite Hf'.
  cbn beta iota delta [map_err]. wp_step. intros r [= <-]. split; [|done]. split; try done.
  exists f'. cbn. split; [exact Hf'|]. rewrite Hc, drop_0, Hd'. split; [|done]. unfold zlen. rewrite Nat2Z.id. by apply take_ge.
Qed.

(** *** Whole logs *)

(** Reading a chain that ends with the captured bytes. *)
Lemma read_all_exact r w c bodies log c' fuel :
  reader_at r w c 0 log -> chain (limit r) c bodies log c' -> context_wf c ->
  sequence c' <= u64_max -> zlen log <= u64_max ->
  faulty \/ exists r' w', read_all (length bodies + S fuel) (r, w) = (bodies, Some (Ok tt), (r', w')) /\
    position r' = at_context c' (zlen log) /\ incomplete_tail r' = false /\ failed r' = false /\ same_reader r r'.
Proof.
  intros HR C W Hs Hz. rewrite <- (app_nil_r log) in HR.
  destruct (read_all_chain _ _ _ _ _ _ C 0 [] (S fuel) W Hs ltac:(lia) ltac:(lia) HR)
    as [(r1 & w1 & Hd & HR1 & Hsame & W' & E)|[Hf _]]; [|by left].
  pose proof (next_body_end _ _ _ _ HR1) as HN. unfold wp in HN. cbn [read_all] in E.
  destruct (next_body (r1, w1)) as [[[b|]|e] [r2 w2]]; cbn [fst snd] in HN; destruct HN as (Hd2 & Hs2 & HN); [done| |left; apply HN].
  right. exists r2, w2. rewrite E, app_nil_r. destruct HN as (_ & ? & ? & ?). repeat split; try done.
  all: unfold same_reader in *; intuition congruence.
Qed.

Lemma read_all_prefix r w c bodies log c' tail fuel :
  reader_at r w c 0 (log ++ tail) -> chain (limit r) c bodies log c' -> context_wf c ->
  sequence c' <= u64_max -> zlen log <= u64_max ->
  exists got e s, read_all (length bodies + fuel) (r, w) = (got, e, s) /\
    (bodies `prefix_of` got \/ faulty /\ got `prefix_of` bodies /\ exists err, e = Some (Err err)).
Proof.
  intros HR C W Hs Hz.
  destruct (read_all_chain _ _ _ _ _ _ C 0 tail fuel W Hs ltac:(lia) ltac:(lia) HR)
    as [(r1 & w1 & _ & _ & _ & _ & E)|(Hf & k & e & s & Hk & E)].
  - destruct (read_all fuel (r1, w1)) as [[got e] s]. exists (bodies ++ got), e, s. split; [done|]. left. by eexists.
  - exists (take k bodies), (Some (Err e)), s. split; [done|]. right. split; [done|]. split; [|by eexists].
    exists (drop k bodies). by rewrite take_drop.
Qed.

(** Reading a chain and a record with the last sequence number. *)
Lemma read_all_last r w c bodies log c' body fr tail fuel :
  reader_at r w c 0 (log ++ fr ++ tail) -> chain (limit r) c bodies log c' -> frame (limit r) c' body fr -> context_wf c ->
  sequence c' = u64_max -> zlen log <= u64_max ->
  faulty \/ exists s, read_all (length bodies + S fuel) (r, w) =
    (bodies, Some (Err (StreamError.at_ (StreamError.Protocol "sequence exhausted") (log_name (selected r)) (Some (zlen log)) (Some u64_max))), s).
Proof.
  intros HR C F W Hs Hz.
  destruct (read_all_chain _ _ _ _ _ _ C 0 (fr ++ tail) (S fuel) W ltac:(lia) ltac:(lia) ltac:(lia) HR)
    as [(r1 & w1 & Hd & HR1 & (Hlim & Hsel & _) & W' & E)|[Hf _]]; [|by left].
  rewrite <- Hlim in F. pose proof (next_body_last _ _ _ _ _ _ _ W' F Hs HR1) as HN. unfold wp in HN. cbn [read_all] in E.
  destruct (next_body (r1, w1)) as [res s]. destruct HN as [|HN]; [by left|]. right. exists s. by rewrite E, HN, Hsel, app_nil_r.
Qed.

(** Each body takes bytes from the log. *)
Lemma drain_ends {A} (visit : Position -> A -> A) fuel acc r w suffix :
  sees r w suffix -> (length suffix < fuel)%nat -> wp (drain fuel visit acc) (fun res _ => res <> Ok None) (r, w).
Proof.
  revert acc r w suffix. induction fuel as [|fuel IH]; intros acc r w suffix Hs Hl; [lia|]. cbn [drain].
  wp_step. eapply wp_mono; [by apply next_body_advances|]. intros [[b|]|e] [r' w'] (_ & _ & HN); [|done..].
  destruct HN as (rest & Hr & Hlt). do 2 wp_step. eapply IH; [exact Hr|lia].
Qed.
End Reading.

(** ** Properties *)

(** C18: committed records are always read back first.  Whatever bytes follow a
    chain of records in the log, garbage included, a reader returns the
    records of the chain, all of them and in order, before anything else; only
    an I/O error of the machine can stop it earlier, and then it has returned
    a prefix and reports an error. *)
Theorem read_committed `{Machine} `{Blake3Laws} `{ZstdLaws} `{HashHex} r w c bodies log c' tail fuel :
  reader_at r w c 0 (log ++ tail) -> chain (limit r) c bodies log c' -> context_wf c ->
  sequence c' <= u64_max -> zlen log <= u64_max ->
  exists got e s, read_all (length bodies + fuel) (r, w) = (got, e, s) /\
    (bodies `prefix_of` got \/ faulty /\ got `prefix_of` bodies /\ exists err, e = Some (Err err)).
Proof. apply read_all_prefix. Qed.

(** C17: a crash while appending is recognized.  When a log is followed by the
    first [k] bytes of further records, a reader returns all records of the log
    and exactly the complete ones of the rest, ends without error, and reports
    an incomplete tail exactly when the cut is inside a record; its position is
    the end of the last complete record. *)
Theorem read_torn `{Machine} `{Blake3Laws} `{ZstdLaws} `{HashHex} r w c bodies log c' more log' c'' k fuel :
  reader_at r w c 0 (log ++ take k log') ->
  chain (limit r) c bodies log c' -> chain (limit r) c' more log' c'' -> context_wf c ->
  sequence c'' <= u64_max -> zlen (log ++ log') <= u64_max -> (length (bodies ++ more) < fuel)%nat ->
  faulty \/
  exists j log1 c1 r' w', chain (limit r) c' (take j more) log1 c1 /\
    log1 `prefix_of` take k log' /\
    read_all fuel (r, w) = (bodies ++ take j more, Some (Ok tt), (r', w')) /\
    incomplete_tail r' = negb (bool_decide (log1 = take k log')) /\
    position r' = at_context c1 (zlen (log ++ log1)).
Proof.
  intros HR C C' W Hs Hz Hfuel.
  pose proof (chain_sequence _ _ _ _ _ C'). pose proof (chain_wf _ _ _ _ _ C W ltac:(lia)) as Wc'.
  destruct (chain_cut _ _ _ _ _ k C' Wc' Hs) as (j & log1 & c1 & torn & C1 & E & Hj & Hs1 & Ht).
  pose proof (chain_app _ _ _ _ _ _ _ _ C C1) as CC. rewrite E, app_assoc in HR.
  assert (Hl : zlen (log ++ log1) <= u64_max).
  { rewrite zlen_app in *. apply (f_equal length) in E. rewrite length_take, length_app in E. unfold zlen in *. lia. }
  rewrite length_app in Hfuel.
  replace fuel with (length (bodies ++ take j more) + S (fuel - S (length (bodies ++ take j more))))%nat
    by (rewrite length_app, length_take; lia).
  destruct (read_all_chain _ _ _ _ _ _ CC 0 torn (S (fuel - S (length (bodies ++ take j more)))) W Hs1 ltac:(lia) ltac:(lia) HR)
    as [(r1 & w1 & _ & HR1 & Hsame & W1 & ER)|[Hf _]]; [|by left]. rewrite Z.add_0_l in HR1.
  enough (HN : wp next_body (fun res s => match res with
      | Ok None => incomplete_flag (fst s) = negb (bool_decide (log1 = take k log')) /\
                   position (fst s) = at_context c1 (zlen (log ++ log1))
      | Ok (Some _) => False | Err _ => faulty end) (r1, w1)).
  { unfold wp in HN. cbn [read_all] in ER. destruct (next_body (r1, w1)) as [[[b|]|e] [r2 w2]]; [done| |by left].
    right. exists j, log1, c1, r2, w2. rewrite app_nil_r in ER. split; [done|]. split; [by exists torn|]. by rewrite ER. }
  destruct Ht as [->|(body & fr & m & F & Hm & ->)].
  - rewrite app_nil_r in E. rewrite bool_decide_eq_true_2 by done.
    eapply wp_mono; [by apply next_body_end|]. intros [[b|]|e] s (_ & _ & HN); intuition.
  - rewrite bool_decide_eq_false_2.
    2: { intros E'. rewrite <- E' in E. apply (f_equal length) in E. rewrite length_app, length_take in E. lia. }
    destruct Hsame as [Hlim _]. rewrite <- Hlim in F.
    eapply wp_mono; [by eapply next_body_torn|]. intros [[b|]|e] s (_ & _ & HN); intuition.
Qed.

(** Reading terminates.  On any bytes at all, the loops that consume a log
    end within the fuel the model gives them, and the decoder never asks for
    data it already has. *)
Theorem reading_terminates `{Machine} `{Blake3Laws} `{ZstdLaws} `{HashHex} r w suffix :
  sees r w suffix ->
  wp next_body (fun res _ => forall n o e, res <> Err (StreamError.at_ no_progress n o e)) (r, w) /\
  forall A (visit : Position -> A -> A) acc, wp (drain (drain_fuel r) visit acc) (fun res _ => res <> Ok None) (r, w).
Proof.
  intros Hs. split; [eapply wp_mono; [by apply next_body_advances|]; by intros res s [? _]|].
  intros A visit acc. assert (Hf : (length suffix < drain_fuel r)%nat).
  { destruct Hs as (f & _ & _ & Hr). unfold drain_fuel. rewrite Hr. unfold zlen. lia. }
  by eapply drain_ends.
Qed.
