(* ===== verification/Maintenance.v ===== *)
(** Rotation, checkpoints and pruning (control/logical/prune.rs,
    [publish_rotation] of control/logical/rotation.rs,
    logical_stream/checkpoint.rs, logical_stream/prune.rs).

    Elapsed times, which only report, are left out. *)

From Stdlib Require String.
From S2P Require Import Prelude Errors Externals Identity Frame Wire Snapshot Disk StoreDirectory Control Selection Reader Stream.
From coqutil Require Import Byte.

Definition MAX_ARTIFACTS : Z := 4096.

(** ** Verification of a root *)

Section Verify.
Context `{Machine} `{Blake3} `{Zstd} `{HashHex} `{LogicalCodecs} `{UuidText}.

(** [dependencies]. *)
Definition dependencies (root : Selected) : list string :=
  [manifest_name root; log_name root]
  ++ match sel_checkpoint root with Some s => [SnapshotDescriptor.name s] | None => [] end.

(** [verify_snapshot]. *)
Definition verify_snapshot (root : Selected) : method World StreamError unit :=
  do f <- persist (open_read (manifest_name root));
  do reader <- from_selection f root MAX_PAYLOAD;
  fun w =>
    let '(r, (reader, w)) := snapshot_body (reader, w) in
    (let? _ := r in Ok tt, drop_reader reader w).

(** The part of [verify] that uses the reader. *)
Definition verify_reader (root : Selected) (end_ : option Position) (required : bool) :
    method (LogicalReader * World) StreamError unit :=
  (match sel_checkpoint root with
   | Some s =>
       do present <- on_snd (persist (contains (SnapshotDescriptor.name s)));
       if present : bool then snapshot_body ;; ret tt
       else fail_if required (StreamError.Protocol "required snapshot missing")
   | None => ret tt
   end) ;;
  let snapshot := SnapshotDescriptor.boundary <$> sel_checkpoint root in
  let boundary_seen := bool_decide (is_Some (sel_rotation root))
                       || match snapshot with None => true | Some p => bool_decide (p = base root) end in
  do self <- get;
  do seen <- drain (drain_fuel self) (fun p seen => if bool_decide (snapshot = Some p) then true else seen) boundary_seen;
  do self <- get;
  fail_if (incomplete_tail self || negb (default false seen)
           || match end_ with Some p => negb (bool_decide (p = position self)) | None => false end)
    (StreamError.Protocol "incomplete or mismatched required WAL boundary").

(** [verify]. *)
Definition verify (root : Selected) (end_ : option Position) (required : bool) : method World StreamError unit :=
  do log_present <- persist (contains (log_name root));
  if negb log_present then
    fail_if required (StreamError.Protocol "required WAL missing") ;;
    match sel_checkpoint root with
    | Some s =>
        do present <- persist (contains (SnapshotDescriptor.name s));
        if present : bool then verify_snapshot root else ret tt
    | None => ret tt
    end
  else
    do f <- persist (open_read (log_name root));
    (match end_ with
     | Some p =>
         do m <- stream_io (fstat f);
         fail_if (negb (em_len m =? Position.offset p)) (StreamError.Protocol "sealed WAL length")
     | None => ret tt
     end) ;;
    do reader <- from_selection f root MAX_PAYLOAD;
    fun w =>
      let '(r, (reader, w)) := verify_reader root end_ required (reader, w) in
      (r, drop_reader reader w).
End Verify.

(** ** Rotation *)

Section Rotate.
Context `{Machine} `{Blake3} `{Zstd} `{HashHex} `{LogicalCodecs} `{UuidText}.

(** [publish_rotation]. *)
Definition publish_rotation (prev : Selected) (body : bytes) (c : SnapshotContext) :
    method World StreamError (Handle * Selected) :=
  persist (entries_bounded (MAX_ARTIFACTS - 8)) ;;
  do current <- persist (select_in (em_identity (sel_metadata prev)));
  fail_if (negb (bool_decide (sel_selector current = sel_selector prev)) || bool_decide (sel_checkpoint prev = None))
    (StreamError.Persist (PControl Stale)) ;;
  verify prev (Some (boundary c)) true ;;
  do generation <- of_result (map_err StreamError.Persist (ManifestGeneration.next (em_generation (sel_metadata prev))));
  do snapshot <- publish_snapshot generation body c;
  do old_file <- persist (open_read (log_name prev));
  do m <- stream_io (fstat old_file);
  fail_if (negb (em_len m =? Position.offset (boundary c)))
    (StreamError.Protocol "sealed end differs from synchronized boundary") ;;
  stream_io (sync_all old_file) ;;
  do segment <- fresh_segment;
  let p := boundary c in
  let b := {| Position.store := Position.store p; Position.epoch := Position.epoch p; Position.segment := segment;
              Position.sequence := Position.sequence p; Position.offset := 0; Position.digest := segment |} in
  let m := {| rm_metadata := successor (sel_metadata prev) generation (cs_digest (sel_selector prev));
              rm_snapshot := snapshot;
              rm_rotation := {| rot_base := b; rot_snapshot_base := base prev;
                                rot_previous := {| pr_selector := sel_selector prev; pr_end := p |} |} |} in
  do bytes <- of_result (map_err StreamError.Persist (Codec.encode m (ascii_bytes "SLRM")));
  of_result (map_err StreamError.Persist (rotating_decode bytes)) ;;
  let s := from_manifest (rm_metadata m) (blake3 bytes) in
  do selected <- of_result (map_err StreamError.Persist (rotating_select bytes s (em_identity (sel_metadata prev))));
  do f <- persist (create_new (log_name selected));
  stream_io (sync_all f) ;;
  persist sync ;;
  persist (publish_bytes bytes (sel_selector selected) false) ;;
  ret (f, selected).

(** [CheckpointInfo]. *)
Record CheckpointInfo := {
  ci_generation : Z;
  ci_name : string;
  ci_bytes : Z;
  ci_digest : bytes;
  ci_boundary : Position;
  ci_publication : Z
}.

(** [LogicalWal::checkpoint_info]. *)
Definition checkpoint_info (self : LogicalWal) : option CheckpointInfo :=
  s ← sel_checkpoint (wal_selected self);
  Some {| ci_generation := em_generation (sel_metadata (wal_selected self));
          ci_name := SnapshotDescriptor.name s; ci_bytes := SnapshotDescriptor.bytes s;
          ci_digest := SnapshotDescriptor.digest s; ci_boundary := SnapshotDescriptor.boundary s;
          ci_publication := SnapshotDescriptor.publication s |}.

Definition set_selected (s : Selected) (self : LogicalWal) : LogicalWal := {|
  wal_file := wal_file self; wal_progress := wal_progress self; wal_fenced := wal_fenced self; wal_selected := s |}.

(** [LogicalWal::checkpoint]; [None] when [expect] panics, which cannot happen
    after a successful publication. *)
Definition checkpoint (body : bytes) (publication : Z) : method (LogicalWal * World) StreamError (option CheckpointInfo) :=
  do self <- get;
  let progress := wal_progress self in
  fail_if (wal_fenced self || negb (bool_decide (written progress = synchronized progress))
           || (negb (Position.sequence (synchronized progress) =? 0)
               && negb (bool_decide (published progress = Some (synchronized progress)))))
    (StreamError.Protocol "checkpoint requires an established live boundary") ;;
  on_snd (persist epoch_acquire) ;;
  put (Stream.set_fenced true) ;;
  let c := {| boundary := synchronized progress; publication := publication |} in
  do selected <-
    (if bool_decide (is_Some (sel_checkpoint (wal_selected self))) then
       do r <- on_snd (publish_rotation (wal_selected self) body c);
       put (set_wal_file (fst r)) ;;
       let b := base (snd r) in
       put (set_progress (fun x => {| written := b; synchronized := b; published := Some b;
                                      acknowledged := acknowledged x |})) ;;
       ret (snd r)
     else on_snd (publish_checkpoint (wal_selected self) body c));
  put (set_selected selected) ;;
  put (Stream.set_fenced false) ;;
  do self <- get;
  ret (checkpoint_info self).
End Rotate.

(** ** Pruning *)

Inductive RetentionReason := RSelected | RHistory | RReader | RCoordination | RDeferred.

#[global] Instance RetentionReason_eq_dec : EqDecision RetentionReason.
Proof. solve_decision. Defined.

Record ArtifactBytes := {
  ab_name : string;
  ab_bytes : Z
}.

Record PruneReport := {
  pr_removed : list ArtifactBytes;
  pr_retained : list (ArtifactBytes * RetentionReason);
  pr_cleanup_error : option StreamError
}.

Record Root := {
  root_name : string;
  root_selected : option Selected;
  root_leased : bool
}.

(** The closure [rank] of [retain]. *)
Definition rank (r : RetentionReason) : nat :=
  match r with RSelected => 0 | RHistory => 1 | RReader => 2 | RCoordination => 3 | RDeferred => 4 end.

(** [retain]. *)
Definition retain (name : string) (reason : RetentionReason) (kept : gmap string RetentionReason) :
    gmap string RetentionReason :=
  match kept !! name with
  | Some old => if (rank reason <? rank old)%nat then <[name := reason]> kept else kept
  | None => <[name := reason]> kept
  end.

(** [BTreeMap::insert] on an association list ordered by key. *)
Fixpoint btree_insert (name : string) (n : Z) (m : list (string * Z)) : list (string * Z) :=
  match m with
  | [] => [(name, n)]
  | (k, v) :: rest =>
      match String.compare name k with
      | Lt => (name, n) :: m
      | Eq => (name, n) :: rest
      | Gt => (k, v) :: btree_insert name n rest
      end
  end.

Section Prune.
Context `{Machine} `{Blake3} `{Zstd} `{HashHex} `{LogicalCodecs} `{UuidText}.

(** The metadata of any control manifest, and whether it is an empty one. *)
Definition inspect_bytes (b : bytes) : result PersistError (EmptyManifest * bool) :=
  if starts_with b (ascii_bytes "SLEM") then (let? m := manifest_decode b in Ok (m, true))
  else if starts_with b (ascii_bytes "SLDM") then (let? m := data_decode b in Ok (dm_metadata m, false))
  else if starts_with b (ascii_bytes "SLRM") then (let? m := rotating_decode b in Ok (rm_metadata m, false))
  else let? m := logical_decode b in Ok (lm_metadata m, false).

(** [inspect]. *)
Definition inspect (name : string) (current : Selected) : method World StreamError Root :=
  do b <- persist (read_bounded name);
  do r <- of_result (map_err StreamError.Persist (inspect_bytes b));
  let m := fst r in
  let cm := sel_metadata current in
  fail_if (negb (bool_decide (em_store_id m = em_store_id cm)) || negb (em_epoch m =? em_epoch cm)
           || negb (bool_decide (em_identity m = em_identity cm))
           || negb (bool_decide (ManifestGeneration.name (em_generation m) = name)))
    (StreamError.Persist (PControl Lineage)) ;;
  let s := from_manifest m (blake3 b) in
  do probe <- persist (open_write name);
  do free <- stream_io (try_lock probe);
  do selected <- (if snd r : bool then ret None
                  else do x <- persist (select_root s (em_identity cm)); ret (Some x));
  ret {| root_name := name; root_selected := selected; root_leased := negb free |}.

(** One iteration of the inventory loop of [prune]. *)
Definition inventory_entry (current : Selected) (name : string) :
    method ((list (string * Z) * list Root) * World) StreamError unit :=
  match to_str name with
  | None => throw (StreamError.Persist (PControl (MixedArtifacts name)))
  | Some text =>
      do m <- on_snd (persist (regular_metadata name));
      do m <- of_result (ok_or m (StreamError.Persist (PControl Lineage)));
      put (fun '(inventory, roots) => (btree_insert text (em_len m) inventory, roots)) ;;
      if is_manifest_name text then
        do root <- on_snd (inspect text current);
        put (fun '(inventory, roots) => (inventory, roots ++ [root]))
      else ret tt
  end.

(** The previous completed checkpoint that [prune] keeps as history. *)
Definition find_history (current : Selected) (roots : list Root) : method World StreamError (option Selected) :=
  match sel_rotation current with
  | Some r =>
      do prev <- persist (select_root (pr_selector (rot_previous r)) (em_identity (sel_metadata current)));
      fail_if (negb (bool_decide (base prev = rot_snapshot_base r))) (StreamError.Persist (PControl Lineage)) ;;
      verify prev (Some (pr_end (rot_previous r))) true ;;
      ret (Some prev)
  | None =>
      match sel_checkpoint current, em_parent (sel_metadata current) with
      | Some _, Some parent =>
          ret (List.find (fun r => (em_generation (sel_metadata r) =? parent_generation parent)
                                   && bool_decide (cs_digest (sel_selector r) = parent_digest parent)
                                   && bool_decide (is_Some (sel_checkpoint r)))
                 (omap root_selected roots))
      | _, _ => ret None
      end
  end.

(** The reason to keep a root. *)
Definition root_reason (current : Selected) (history : option Selected) (root : Root) : option RetentionReason :=
  if bool_decide (root_name root = manifest_name current) then Some RSelected
  else if match history with Some p => bool_decide (root_name root = manifest_name p) | None => false end
  then Some RHistory
  else if root_leased root then Some RReader
  else None.

(** One iteration of the planning loop of [prune]; the state carries [kept] and [candidates]. *)
Definition plan_root (current : Selected) (history : option Selected) (root : Root) :
    method ((gmap string RetentionReason * gset string) * World) StreamError unit :=
  let reason := root_reason current history root in
  match root_selected root with
  | Some s =>
      on_snd (verify s None (bool_decide (is_Some reason))) ;;
      put (fun '(kept, candidates) =>
        match reason with
        | Some r => (fold_left (fun k n => retain n r k) (dependencies s) kept, candidates)
        | None => (kept, list_to_set (dependencies s) ∪ candidates)
        end)
  | None =>
      put (fun '(kept, candidates) =>
        match reason with
        | Some r => (retain (root_name root) r kept, candidates)
        | None => (kept, {[root_name root]} ∪ candidates)
        end)
  end.

(** The entries [prune] always keeps. *)
Definition retain_fixed (kept : gmap string RetentionReason) : gmap string RetentionReason :=
  retain MANIFEST_LOCK_FILE_NAME RCoordination
    (retain STORE_LOCK_FILE_NAME RCoordination (retain CURRENT_FILE_NAME RSelected kept)).

(** Sorting the inventory into pending removals and retained artifacts. *)
Definition classify (kept : gmap string RetentionReason) (candidates : gset string) (inventory : list (string * Z)) :
    list ArtifactBytes * list (ArtifactBytes * RetentionReason) :=
  fold_left (fun '(pending, retained) '(name, n) =>
    let artifact := {| ab_name := name; ab_bytes := n |} in
    match kept !! name with
    | Some reason => (pending, retained ++ [(artifact, reason)])
    | None => if bool_decide (name ∈ candidates) then (pending ++ [artifact], retained)
              else (pending, retained ++ [(artifact, RDeferred)])
    end) inventory ([], []).

(** [pending.sort_by_key(|a| is_manifest_name(&a.name))], a stable sort. *)
Definition manifests_last (pending : list ArtifactBytes) : list ArtifactBytes :=
  List.filter (fun a => negb (is_manifest_name (ab_name a))) pending
  ++ List.filter (fun a => is_manifest_name (ab_name a)) pending.

(** One iteration of the removal loop of [prune]; the state carries the report. *)
Definition remove_artifact (artifact : ArtifactBytes) : method (PruneReport * World) StreamError unit :=
  do report <- get;
  let deferred report error := {| pr_removed := pr_removed report;
    pr_retained := pr_retained report ++ [(artifact, RDeferred)]; pr_cleanup_error := error |} in
  match pr_cleanup_error report with
  | Some e => put (fun report => deferred report (Some e))
  | None =>
      do r <- on_snd (attempt (persist (remove (ab_name artifact)) ;; persist sync));
      match r with
      | Ok _ => put (fun report => {| pr_removed := pr_removed report ++ [artifact];
                                      pr_retained := pr_retained report; pr_cleanup_error := None |})
      | Err e => put (fun report => deferred report (Some e))
      end
  end.

(** [prune]. *)
Definition prune (expected : Selected) : method World StreamError PruneReport :=
  do l <- persist (entries_bounded MAX_ARTIFACTS);
  do current <- persist (select_in (em_identity (sel_metadata expected)));
  fail_if (negb (bool_decide (sel_selector current = sel_selector expected))) (StreamError.Persist (PControl Stale)) ;;
  do r <- (fun w => let '(r, (found, w)) := for_each (inventory_entry current) l (([], []), w) in (let? _ := r in Ok found, w));
  let '(inventory, roots) := r in
  do history <- find_history current roots;
  verify current None true ;;
  do plan <- (fun w => let '(r, (plan, w)) := for_each (plan_root current history) roots ((∅, ∅), w) in (let? _ := r in Ok plan, w));
  let '(kept, candidates) := plan in
  let kept := retain_fixed kept in
  for_each (fun name => do h <- persist (open_read name); stream_io (sync_all h))
    (dependencies current ++ [CURRENT_FILE_NAME]) ;;
  persist sync ;;
  let '(pending, retained) := classify kept candidates inventory in
  fun w =>
    let start := {| pr_removed := []; pr_retained := retained; pr_cleanup_error := None |} in
    let '(r, (report, w)) := for_each remove_artifact (manifests_last pending) (start, w) in
    (let? _ := r in Ok report, w).

(** [LogicalWal::prune]. *)
Definition wal_prune : method (LogicalWal * World) StreamError PruneReport :=
  do self <- get;
  fail_if (wal_fenced self) (StreamError.Persist (PControl RequiresReopen)) ;;
  on_snd (persist epoch_acquire) ;;
  on_snd (prune (wal_selected self)).
End Prune.
