(* ===== verification/PruneProps.v ===== *)
(** Safety of pruning (control/logical/prune.rs).

    Whatever I/O errors occur, [prune] removes no entry that the selected root
    or the root of a live reader depends on, and never CURRENT or the locks, and
    it changes the content of no file.  Everything before the first removal only
    reads, synchronizes, and takes and releases leases ([Calm]). *)

From S2P Require Import Prelude Errors Externals Identity Frame Wire Snapshot Disk StoreDirectory Control Selection Names Publication SelectProps Reader Stream Maintenance.

(** ** Calm code *)

(** Every file is still there with its content. *)
Definition same_data (w w' : World) : Prop :=
  forall i n, inodes w !! i = Some n ->
    exists n', inodes w' !! i = Some n' /\ data n' = data n /\ (dirty n = false -> dirty n' = false).

(** The directory is unchanged, and at most synchronized. *)
Definition calm (w w' : World) : Prop :=
  names w' = names w /\ (history w' = history w \/ history w' = [names w]) /\ same_data w w'.

Lemma same_data_trans w1 w2 w3 : same_data w1 w2 -> same_data w2 w3 -> same_data w1 w3.
Proof.
  intros H1 H2 i n Hn. destruct (H1 i n Hn) as (n' & Hn' & Hd & Hc). destruct (H2 i n' Hn') as (n'' & Hn'' & Hd' & Hc').
  exists n''. split; [done|]. split; [congruence|auto].
Qed.

#[export] Instance calm_trans : Transitive calm.
Proof.
  intros w1 w2 w3 (Hn & Hh & Hd) (Hn' & Hh' & Hd'). split; [congruence|]. split; [|by eapply same_data_trans].
  rewrite Hn in Hh'. destruct Hh' as [-> | ->]; auto.
Qed.

#[export] Instance calm_same : subrelation same_disk calm.
Proof.
  intros w w' (Hi & Hn & Hh & _). split; [done|]. split; [by left|]. intros i n Hin. exists n. by rewrite Hi.
Qed.

#[export] Instance calm_refl : Reflexive calm.
Proof. intros w. by apply calm_same. Qed.

Lemma same_data_modify i f w :
  (forall n, data (f n) = data n /\ (dirty n = false -> dirty (f n) = false)) -> same_data w (modify i f w).
Proof.
  intros Hf j n Hn. cbn. destruct (decide (i = j)) as [->|Hne].
  - rewrite lookup_alter_eq, Hn. exists (f n). by destruct (Hf n).
  - rewrite lookup_alter_ne by done. by exists n.
Qed.

Lemma calm_modify i f w :
  (forall n, data (f n) = data n /\ (dirty n = false -> dirty (f n) = false)) -> calm w (modify i f w).
Proof. intros Hf. split; [done|]. split; [by left|]. by apply same_data_modify. Qed.

Section Calm.
Context `{Machine}.

(** Methods on the world, and methods of an object. *)
Class Calm {E A} (m : method World E A) : Prop := calmly : forall w, wp m (fun _ w' => calm w w') w.
Class ObjectCalm {O E A} (m : method (O * World) E A) : Prop :=
  object_calmly : forall o w, wp m (fun _ s => calm w (snd s)) (o, w).

#[export] Instance calm_quiet {E A} (m : method World E A) : Quiet m -> Calm m | 10.
Proof. intros Hm w. eapply wp_mono; [apply Hm|]. intros r w' Hs. by apply calm_same. Qed.
#[export] Instance calm_bind {E A B} (m : method World E A) (k : A -> method World E B) :
  Calm m -> (forall a, Calm (k a)) -> Calm (bind m k).
Proof.
  intros Hm Hk w. apply wp_bind. eapply wp_mono; [apply Hm|]. intros [a|e] w' Hw; [|done].
  eapply wp_mono; [apply Hk|]. intros r w'' Hw'. by etrans.
Qed.
#[export] Instance calm_map_error {E E' A} (f : E -> E') (m : method World E A) : Calm m -> Calm (map_error f m).
Proof. intros Hm w. apply wp_map_error. eapply wp_mono; [apply Hm|done]. Qed.
#[export] Instance calm_attempt {E E' A} (m : method World E A) : Calm m -> Calm (E := E') (attempt m).
Proof. intros Hm w. apply wp_attempt. eapply wp_mono; [apply Hm|done]. Qed.
#[export] Instance calm_if {E A} (b : bool) (m m' : method World E A) : Calm m -> Calm m' -> Calm (if b then m else m').
Proof. by destruct b. Qed.
#[export] Instance calm_for_each {E A} (f : A -> method World E unit) l : (forall x, Calm (f x)) -> Calm (for_each f l).
Proof. intros Hf. induction l as [|x l IH]; cbn [for_each]; apply _. Qed.

#[export] Instance calm_sync_all h : Calm (sync_all h).
Proof. intros w. apply wp_call; [intros; by apply calm_same|]. apply (calm_modify (inode h) sync_inode (tick w)). done. Qed.
#[export] Instance calm_lock_shared h : Calm (lock_shared h).
Proof. intros w. apply wp_call; [intros; by apply calm_same|]. apply (calm_modify (inode h) lease_inode (tick w)). done. Qed.
#[export] Instance calm_sync : Calm sync.
Proof.
  unfold sync, io. apply calm_map_error. intros w. apply wp_call; [intros; by apply calm_same|].
  split; [done|]. split; [by right|]. intros i n Hn. by exists n.
Qed.

Lemma calm_drop h w : calm w (drop_shared h w).
Proof. by apply calm_modify. Qed.

#[export] Instance object_bind {O E A B} (m : method (O * World) E A) (k : A -> method (O * World) E B) :
  ObjectCalm m -> (forall a, ObjectCalm (k a)) -> ObjectCalm (bind m k).
Proof.
  intros Hm Hk o w. apply wp_bind. eapply wp_mono; [apply Hm|]. intros [a|e] [o' w'] Hw; [|done].
  eapply wp_mono; [apply Hk|]. intros r s Hw'. by etrans.
Qed.
#[export] Instance object_ret {O E A} (a : A) : ObjectCalm (O := O) (E := E) (ret a).
Proof. intros o w. by apply wp_ret. Qed.
#[export] Instance object_throw {O E A} (e : E) : ObjectCalm (O := O) (A := A) (throw e).
Proof. intros o w. by apply wp_throw. Qed.
#[export] Instance object_of_result {O E A} (r : result E A) : ObjectCalm (O := O) (of_result r).
Proof. intros o w. by apply wp_of_result. Qed.
#[export] Instance object_fail_if {O E} c (e : E) : ObjectCalm (O := O) (fail_if c e).
Proof. intros o w. by apply wp_fail_if. Qed.
#[export] Instance object_get {O E} : ObjectCalm (O := O) (E := E) get.
Proof. intros o w. by apply wp_get. Qed.
#[export] Instance object_put {O E} (f : O -> O) : ObjectCalm (E := E) (put f).
Proof. intros o w. by apply wp_put. Qed.
#[export] Instance object_on_snd {O E A} (m : method World E A) : Calm m -> ObjectCalm (O := O) (on_snd m).
Proof. intros Hm o w. apply wp_on_snd. eapply wp_mono; [apply Hm|done]. Qed.
#[export] Instance object_map_error {O E E' A} (f : E -> E') (m : method (O * World) E A) : ObjectCalm m -> ObjectCalm (map_error f m).
Proof. intros Hm o w. apply wp_map_error. eapply wp_mono; [apply Hm|done]. Qed.
#[export] Instance object_attempt {O E E' A} (m : method (O * World) E A) : ObjectCalm m -> ObjectCalm (E := E') (attempt m).
Proof. intros Hm o w. apply wp_attempt. eapply wp_mono; [apply Hm|done]. Qed.
#[export] Instance object_if {O E A} (b : bool) (m m' : method (O * World) E A) :
  ObjectCalm m -> ObjectCalm m' -> ObjectCalm (if b then m else m').
Proof. by destruct b. Qed.
#[export] Instance object_for_each {O E A} (f : A -> method (O * World) E unit) l :
  (forall x, ObjectCalm (f x)) -> ObjectCalm (for_each f l).
Proof. intros Hf. induction l as [|x l IH]; cbn [for_each]; apply _. Qed.
End Calm.

(** ** Reading and verifying roots is calm *)

Section Verifying.
Context `{Machine} `{Blake3} `{Zstd} `{HashHex} `{LogicalCodecs} `{UuidText}.

#[export] Instance calm_from_selection f s n : Calm (from_selection f s n).
Proof.
  unfold from_selection, at_artifact, persist, stream_io, io. apply calm_bind; [apply _|]. intros l. apply calm_bind; [apply _|].
  intros _. apply calm_bind; [apply _|]. intros [m|e]; [apply _|]. intros w. unfold wp. apply calm_drop.
Qed.
#[export] Instance object_read_file n : ObjectCalm (read_file n).
Proof. unfold read_file, stream_io. apply _. Qed.
#[export] Instance object_read_loop fuel b : ObjectCalm (read_loop fuel b).
Proof.
  revert b. induction fuel as [|fuel IH]; intros b; cbn [read_loop]; [apply _|].
  apply object_bind; [apply _|]. intros self. apply object_bind; [apply _|]. intros [body digest consumed|needed]; apply _.
Qed.
#[export] Instance object_next_body : ObjectCalm next_body.
Proof.
  unfold next_body, read_next, at_artifact. apply object_bind; [apply _|]. intros self. apply object_bind; [apply _|].
  intros _. apply object_bind; [|apply _]. apply object_attempt, object_bind; [apply _|]. intros r.
  apply object_if; [apply _|]. apply object_bind; [apply _|]. intros _. apply object_bind; [apply _|]. intros b.
  apply object_if; [apply _|]. apply object_bind; [apply _|]. intros [x|]; apply _.
Qed.
#[export] Instance object_drain {A} fuel (visit : Position -> A -> A) acc : ObjectCalm (drain fuel visit acc).
Proof.
  revert acc. induction fuel as [|fuel IH]; intros acc; cbn [drain]; [apply _|].
  apply object_bind; [apply _|]. intros [b|]; apply _.
Qed.
#[export] Instance quiet_read_snapshot r : Quiet (read_snapshot r).
Proof. unfold read_snapshot, persist, stream_io. apply _. Qed.
#[export] Instance object_snapshot_body : ObjectCalm snapshot_body.
Proof. unfold snapshot_body. apply _. Qed.
#[export] Instance object_verify_reader s e b : ObjectCalm (verify_reader s e b).
Proof.
  unfold verify_reader, persist. apply object_bind; [|apply _]. destruct (sel_checkpoint s); apply _.
Qed.

(** A method of a fresh reader, which is dropped at the end. *)
Lemma calm_with_reader {A B} (m : method (LogicalReader * World) StreamError A) (f : result StreamError A -> result StreamError B) r w :
  ObjectCalm m -> wp (fun w => let '(res, (r, w)) := m (r, w) in (f res, drop_reader r w)) (fun _ w' => calm w w') w.
Proof.
  intros Hm. unfold wp. pose proof (Hm r w) as Hc. unfold wp in Hc. destruct (m (r, w)) as [res [r' w']].
  etrans; [exact Hc|]. apply calm_drop.
Qed.

#[export] Instance calm_verify s e b : Calm (verify s e b).
Proof.
  unfold verify, verify_snapshot, persist, stream_io. apply calm_bind; [apply _|]. intros present. apply calm_if.
  - apply calm_bind; [apply _|]. intros _. destruct (sel_checkpoint s); [|apply _]. apply calm_bind; [apply _|]. intros [|]; [|apply _].
    apply calm_bind; [apply _|]. intros f. apply calm_bind; [apply _|]. intros r w.
    apply (calm_with_reader snapshot_body (fun r => let? _ := r in Ok tt)); apply _.
  - apply calm_bind; [apply _|]. intros f. apply calm_bind; [destruct e; apply _|]. intros _. apply calm_bind; [apply _|].
    intros r w. apply (calm_with_reader (verify_reader s e b) (fun r => r)); apply _.
Qed.

#[export] Instance calm_find_history s roots : Calm (find_history s roots).
Proof.
  unfold find_history, persist. destruct (sel_rotation s); [apply _|]. destruct (sel_checkpoint s), (em_parent (sel_metadata s)); apply _.
Qed.
#[export] Instance object_plan_root s h r : ObjectCalm (plan_root s h r).
Proof. unfold plan_root. destruct (root_selected r); apply _. Qed.
End Verifying.

(** ** The inventory *)

Section Inventory.
Context `{MachineLaws} `{Blake3} `{Zstd} `{HashHex} `{LogicalCodecsLaws} `{UuidText}.

(** What [inspect] finds about the manifest [x]. *)
Definition root_at (w : World) (current : Selected) (x : string) (r : Root) : Prop :=
  root_name r = x /\
  (exists n, lookup w x = Some n /\ root_leased r = negb (negb (locked n) && (leases n =? 0)%nat)) /\
  exists b m empty, content w x = Some b /\ inspect_bytes b = Ok (m, empty) /\ ManifestGeneration.name (em_generation m) = x /\
    if empty : bool then root_selected r = None
    else exists s, root_selected r = Some s /\ selects w (from_manifest m (blake3 b)) (em_identity (sel_metadata current)) s.

Lemma root_at_same w w' current x r : same_disk w w' -> root_at w' current x r -> root_at w current x r.
Proof. intros (Hi & Hn & _). unfold root_at, selects, content, lookup. by rewrite Hi, Hn. Qed.

Lemma wp_inspect x current w :
  wp (inspect x current) (fun res w' => same_disk w w' /\ forall r, res = Ok r -> root_at w current x r) w.
Proof.
  unfold inspect, persist, stream_io. do 2 wp_step. apply wp_read_bounded. intros [b|e] w1 Hs1 Hb; cbn [map_err]; [|done].
  destruct Hb as [Hb _]. wp_step. wp_step. destruct (inspect_bytes b) as [[m empty]|e] eqn:Hi; cbn [map_err fst snd]; [|done].
  wp_step. wp_step; [done|]. do 2 wp_step. unfold open_write. apply wp_open_read.
  intros [h|e] w2 Hs2 Hh; cbn [map_err]; [|split; [by etrans|done]]. destruct Hh as [Hn _].
  assert (Hs : same_disk w w2) by (by etrans). clear Hs2. do 2 wp_step.
  apply wp_call; [intros k _; split; [exact Hs|done]|]. unfold wp at 1. cbn [inodes tick].
  destruct (inodes w2 !! inode h) as [n|] eqn:En; cbn beta iota delta [map_err]; [|split; [exact Hs|done]]. wp_step.
  assert (Hl : lookup w x = Some n).
  { unfold lookup. destruct Hs as (Hi2 & _), Hs1 as (_ & Hn1 & _). rewrite <- Hi2, <- Hn1, Hn. cbn. done. }
  assert (Hname : ManifestGeneration.name (em_generation m) = x).
  { match goal with Hc : _ || _ = false |- _ => apply orb_false_iff in Hc as [_ Hc] end. by bool_inv. }
  destruct empty; [do 2 wp_step|do 2 wp_step; eapply wp_mono; [apply wp_select_root|]; intros [s|e] w3 [Hs3 Hsel]; cbn [map_err];
    [do 2 wp_step|split; [etrans; [exact Hs|]; etrans; [|exact Hs3]; by repeat split|done]]].
  - split; [exact Hs|]. intros r [= <-]. split; [done|]. split; [by exists n|]. by exists b, m, true.
  - split; [etrans; [exact Hs|]; etrans; [|exact Hs3]; by repeat split|]. intros r [= <-]. split; [done|]. split; [by exists n|].
    exists b, m, false. split_and!; [done..|]. exists s. split; [done|].
    destruct (Hsel s eq_refl) as (b' & Hb' & Hl' & Hx'). exists b'. split; [|done]. rewrite <- Hb'. by apply content_proper.
Qed.

(** The manifests among [l] not in [rest] have been inspected. *)
Definition inspected (w : World) (current : Selected) (l rest : list string) (roots : list Root) : Prop :=
  (forall x, x ∈ l -> x ∈ rest \/ (is_manifest_name x = true -> exists r, r ∈ roots /\ root_at w current x r)) /\
  (forall r, r ∈ roots -> exists x, root_at w current x r).

Lemma to_str_Some x text : to_str x = Some text -> text = x.
Proof. unfold to_str. destruct (utf8_valid _); [|done]. by intros [= ->]. Qed.

Lemma inspected_skip w current l x rest roots :
  inspected w current l (x :: rest) roots -> (is_manifest_name x = true -> exists r, r ∈ roots /\ root_at w current x r) ->
  inspected w current l rest roots.
Proof. intros [HI HR] Hx. split; [|done]. intros y Hy. destruct (HI y Hy) as [[->|Hr]%elem_of_cons|Hd]; auto. Qed.

Lemma inspected_more w current l rest roots x r :
  inspected w current l rest roots -> root_at w current x r -> inspected w current l rest (roots ++ [r]).
Proof.
  intros [HI HR] Hx. split.
  - intros y Hy. destruct (HI y Hy) as [Hr|Hd]; [by left|]. right. intros Hm. destruct (Hd Hm) as (r' & Hr' & Hat).
    exists r'. split; [apply elem_of_app; by left|done].
  - intros r' [Hr'| ->%list_elem_of_singleton]%elem_of_app; [by apply HR|by exists x].
Qed.

Lemma wp_inventory w current l :
  wp (for_each (inventory_entry current) l) (fun res s => same_disk w (snd s) /\
    (res = Ok tt -> inspected w current l [] (snd (fst s)))) (([], []), w).
Proof.
  apply (wp_for_each _ (fun rest s => same_disk w (snd s) /\ inspected w current l rest (snd (fst s)))).
  - split; [done|]. split; [intros x Hx; by left|]. intros r []%elem_of_nil.
  - intros x rest [[inv roots] w1] [Hs HI]. cbn [fst snd] in *. unfold inventory_entry, persist.
    destruct (to_str x) as [text|] eqn:Ht; [apply to_str_Some in Ht as ->|by wp_step].
    wp_step. wp_step. wp_step. apply wp_quiet; [apply _|].
    intros [m|e] w2 Hs2; cbn [map_err]; assert (Hs' : same_disk w w2) by (by etrans); [|done]. do 2 wp_step.
    destruct m as [m|]; cbn [ok_or]; [|done]. do 2 wp_step. destruct (is_manifest_name x) eqn:Hm.
    + wp_step. wp_step. eapply wp_mono; [apply wp_inspect|]. intros [r|e] w3 [Hs3 Hr]; [|split; [by etrans|done]].
      wp_step. cbn [fst snd]. assert (Hat : root_at w current x r) by (eapply root_at_same; [exact Hs'|by apply Hr]).
      split; [by etrans|]. eapply inspected_skip; [by eapply inspected_more|]. intros _.
      exists r. split; [apply elem_of_app; right; by left|done].
    + wp_step. cbn [fst snd]. split; [done|]. eapply inspected_skip; [exact HI|]. congruence.
  - intros [[inv roots] w1] [Hs HI]. done.
Qed.

(** A selection is what inspecting its manifest finds. *)
Lemma from_manifest_eq m s d : selector_validate s = Ok tt -> names_other m s = false -> d = cs_digest s -> from_manifest m d = s.
Proof.
  unfold selector_validate, names_other. intros Hv Hn ->. ok_step. bool_inv. unfold from_manifest. destruct s; cbn in *. by subst.
Qed.

Lemma starts_with_true b m : length m = 4%nat -> starts_with b m = true -> take 4 b = m.
Proof. unfold starts_with. intros ->. by intros ?%bool_decide_eq_true. Qed.
Lemma starts_with_take b m m' : take 4 b = m -> length m' = 4%nat -> starts_with b m' = bool_decide (m = m').
Proof. intros <- Hm'. unfold starts_with. by rewrite Hm'. Qed.

Lemma select_bytes_inspect b s id x :
  selector_validate s = Ok tt -> select_bytes b s id = Ok x ->
  exists m, inspect_bytes b = Ok (m, false) /\ from_manifest m (blake3 b) = s.
Proof.
  intros Hv. unfold select_bytes, inspect_bytes. intros E. ok_step. bool_inv.
  destruct (starts_with b (ascii_bytes "SLDM")) eqn:HD; [|destruct (starts_with b (ascii_bytes "SLRM")) eqn:HR].
  - apply starts_with_true in HD; [|done]. rewrite (starts_with_take _ _ (ascii_bytes "SLEM") HD) by done.
    unfold data_select in E. ok_step. ok_step. rewrite bool_decide_false by done. exists (dm_metadata a). split; [done|]. by apply from_manifest_eq.
  - apply starts_with_true in HR; [|done]. rewrite (starts_with_take _ _ (ascii_bytes "SLEM") HR) by done.
    unfold rotating_select in E. ok_step. ok_step. rewrite bool_decide_false by done. exists (rm_metadata a). split; [done|]. by apply from_manifest_eq.
  - ok_step. ok_step. apply orb_false_iff in Hif0 as [Hn _].
    assert (Ht : take 4 b = ascii_bytes "SLLM") by (unfold logical_decode in Hok; ok_step; exact (Codec.decode_magic _ _ _ Hok0)).
    rewrite (starts_with_take _ _ (ascii_bytes "SLEM") Ht) by done. rewrite bool_decide_false by done. exists (lm_metadata a).
    split; [done|]. by apply from_manifest_eq.
Qed.

Lemma root_unique w current s x r :
  selector_validate s = Ok tt -> selects w s (em_identity (sel_metadata current)) x ->
  root_at w current (cs_manifest_name s) r -> root_selected r = Some x.
Proof.
  intros Hv (b & Hb & Hl & Hx) (_ & _ & b' & m & em & Hb' & Hi & _ & Hsel). rewrite Hb in Hb'. injection Hb' as <-.
  destruct (select_bytes_inspect _ _ _ _ Hv Hx) as (m' & Hi' & Hs). rewrite Hi in Hi'. injection Hi' as -> ->.
  destruct Hsel as (y & -> & b' & Hb' & _ & Hy). rewrite Hs in *. rewrite Hb in Hb'. injection Hb' as <-. congruence.
Qed.
End Inventory.

(** ** The plan *)

Section Plan.
Context `{Machine} `{Blake3} `{Zstd} `{HashHex} `{LogicalCodecs} `{UuidText}.

Lemma retain_self name reason kept : is_Some (retain name reason kept !! name).
Proof. unfold retain. destruct (kept !! name) eqn:E; [destruct (_ <? _)%nat|]; rewrite ?lookup_insert_eq, ?E; eauto. Qed.

Lemma retain_mono name reason kept x : is_Some (kept !! x) -> is_Some (retain name reason kept !! x).
Proof.
  intros Hx. unfold retain. destruct (decide (name = x)) as [->|Hne].
  - destruct (kept !! x) eqn:E; [destruct (_ <? _)%nat|]; rewrite ?lookup_insert_eq, ?E; eauto.
  - destruct (kept !! name); [destruct (_ <? _)%nat|]; rewrite ?lookup_insert_ne by done; done.
Qed.

Lemma retain_all_mono names reason kept x :
  is_Some (kept !! x) -> is_Some (fold_left (fun k n => retain n reason k) names kept !! x).
Proof. revert kept. induction names as [|n names IH]; intros kept Hx; cbn; [done|]. by apply IH, retain_mono. Qed.

Lemma retain_all names reason kept x :
  x ∈ names -> is_Some (fold_left (fun k n => retain n reason k) names kept !! x).
Proof.
  revert kept. induction names as [|n names IH]; intros kept Hx; [by apply elem_of_nil in Hx|].
  apply elem_of_cons in Hx as [->|Hx]; cbn; [apply retain_all_mono, retain_self|by apply IH].
Qed.

(** The dependencies of a root that has a reason are kept. *)
Definition planned current history (root : Root) (kept : gmap string RetentionReason) : Prop :=
  forall s x, root_selected root = Some s -> is_Some (root_reason current history root) -> x ∈ dependencies s -> is_Some (kept !! x).

Lemma wp_plan current history roots w :
  wp (for_each (plan_root current history) roots) (fun res s => calm w (snd s) /\
    (res = Ok tt -> forall r, r ∈ roots -> planned current history r (fst (fst s)))) ((∅, ∅), w).
Proof.
  apply (wp_for_each _ (fun rest s => calm w (snd s) /\ forall r, r ∈ roots -> r ∈ rest \/ planned current history r (fst (fst s)))).
  - split; [done|]. auto.
  - intros r rest [[kept candidates] w1] [Hc HI]. cbn [fst snd] in *. unfold plan_root.
    destruct (root_selected r) as [s|] eqn:Er.
    + wp_step. wp_step. eapply wp_mono; [apply calmly|]. intros [[]|e] w2 Hc2; [|split; [by etrans|done]].
      wp_step. cbn [snd]. split; [by etrans|]. intros y Hy. destruct (HI y Hy) as [[->|Hr]%elem_of_cons|Hp]; [right|by left|right].
      * intros s' x E HR Hx. rewrite Er in E. injection E as <-. destruct (root_reason current history r); [|by destruct HR].
        by apply retain_all.
      * intros s' x E HR Hx. destruct (root_reason current history r); cbn [fst]; [apply retain_all_mono|]; by eapply Hp.
    + wp_step. cbn [snd]. split; [done|]. intros y Hy. destruct (HI y Hy) as [[->|Hr]%elem_of_cons|Hp]; [right; by intros s x E; rewrite Er in E|by left|right].
      intros s' x E HR Hx. destruct (root_reason current history r); cbn [fst]; [apply retain_mono|]; by eapply Hp.
  - intros [[kept candidates] w1] [Hc HI]. split; [done|]. intros _ r Hr. destruct (HI r Hr) as [[]%elem_of_nil|Hp]. done.
Qed.

(** Only names that are not kept are pending. *)
Lemma classify_pending kept candidates inventory a :
  a ∈ fst (classify kept candidates inventory) -> kept !! ab_name a = None.
Proof.
  unfold classify. assert (HI : forall l p r, (forall a, a ∈ p -> kept !! ab_name a = None) ->
    forall a, a ∈ fst (fold_left (fun '(pending, retained) '(name, n) =>
      match kept !! name with
      | Some reason => (pending, retained ++ [({| ab_name := name; ab_bytes := n |}, reason)])
      | None => if bool_decide (name ∈ candidates) then (pending ++ [{| ab_name := name; ab_bytes := n |}], retained)
                else (pending, retained ++ [({| ab_name := name; ab_bytes := n |}, RDeferred)])
      end) l (p, r)) -> kept !! ab_name a = None).
  { induction l as [|[name n] l IH]; intros p r Hp a'; cbn [fold_left]; [apply Hp|].
    destruct (kept !! name) eqn:E; [by apply IH|]. destruct (bool_decide _); apply IH; [|done].
    intros b [Hb|[->|[]%elem_of_nil]%elem_of_cons]%elem_of_app; [by apply Hp|done]. }
  apply HI. intros b []%elem_of_nil.
Qed.

Lemma manifests_last_elem pending a : a ∈ manifests_last pending -> a ∈ pending.
Proof. unfold manifests_last. rewrite elem_of_app, !list_elem_of_In, !List.filter_In. tauto. Qed.
End Plan.

(** ** The removals *)

(** [x] names what it named before, now and after any crash. *)
Definition keeps_entry (x : string) (w w' : World) : Prop :=
  names w' !! x = names w !! x /\ forall d, d ∈ history w' -> d ∈ history w \/ d !! x = names w !! x.

(** No file changes, and the names in [P] keep theirs. *)
Definition prunes (P : string -> Prop) (w w' : World) : Prop :=
  same_data w w' /\ forall x, P x -> keeps_entry x w w'.

#[export] Instance prunes_trans P : Transitive (prunes P).
Proof.
  intros w1 w2 w3 [Hd1 H1] [Hd2 H2]. split; [by eapply same_data_trans|]. intros x Hx.
  destruct (H1 x Hx) as [Hn1 Hh1], (H2 x Hx) as [Hn2 Hh2]. split; [congruence|]. intros d Hd.
  destruct (Hh2 d Hd) as [Hd'| ->]; [by apply Hh1|by right].
Qed.

Lemma calm_prunes P w w' : calm w w' -> prunes P w w'.
Proof.
  intros (Hn & Hh & Hd). split; [done|]. intros x _. split; [by rewrite Hn|]. intros d Hd'.
  destruct Hh as [Hh|Hh]; rewrite Hh in Hd'; [by left|]. apply list_elem_of_singleton in Hd' as ->. by right.
Qed.

Lemma deleted_prunes (P : string -> Prop) name w : ~ P name -> prunes P w (with_names (delete name) w).
Proof.
  intros HP. split; [intros i n Hn; by exists n|]. intros x Hx.
  assert (E : delete name (names w) !! x = names w !! x) by (apply lookup_delete_ne; by intros ->).
  split; [exact E|]. intros d [->|Hd]%elem_of_cons; [by right|by left].
Qed.

Section Removal.
Context `{Machine}.

Lemma wp_remove_prunes (P : string -> Prop) name w : ~ P name -> wp (remove name) (fun _ w' => prunes P w w') w.
Proof.
  intros HP. unfold remove. wp_step. wp_step. destruct (validate_mutable_name name) as [[]|e]; [|by apply calm_prunes].
  wp_step. apply wp_quiet; [apply _|]. intros [m|e] w1 Hs1; [|by apply calm_prunes, calm_same]. wp_step.
  wp_step; [by apply calm_prunes, calm_same|]. unfold io. wp_step.
  assert (Hp : prunes P w (tick w1)) by (apply calm_prunes, calm_same; by etrans).
  apply wp_unlinkat; [by intros..|]. intros r _ _. etrans; [exact Hp|]. by apply deleted_prunes.
Qed.

Lemma wp_removals (P : string -> Prop) l report w :
  (forall a, a ∈ l -> ~ P (ab_name a)) -> wp (for_each remove_artifact l) (fun _ s => prunes P w (snd s)) (report, w).
Proof.
  intros Hl. apply (wp_for_each _ (fun rest s => (forall a, a ∈ rest -> ~ P (ab_name a)) /\ prunes P w (snd s))).
  - split; [done|]. by apply calm_prunes.
  - intros a rest [rp w1] [Hr Hp]. unfold remove_artifact. do 2 wp_step.
    assert (Hrest : forall a, a ∈ rest -> ~ P (ab_name a)) by (intros b Hb; apply Hr; by right).
    destruct (pr_cleanup_error rp); [by wp_step|]. do 4 wp_step. unfold persist. wp_step.
    eapply wp_mono; [apply (wp_remove_prunes P); apply Hr; by left|]. intros [[]|e] w2 Hp2; cbn [map_err].
    + wp_step. eapply wp_mono; [apply calm_sync|]. intros [[]|e] w3 Hc3; cbn [map_err]; wp_step;
        (split; [done|]; etrans; [exact Hp|]; etrans; [exact Hp2|]; by apply calm_prunes).
    + wp_step. split; [done|]. by etrans.
  - by intros [rp w1] [_ Hp].
Qed.
End Removal.

(** ** What [prune] protects *)

Section Protection.
Context `{MachineLaws} `{Blake3} `{Zstd} `{HashHex} `{LogicalCodecsLaws} `{UuidText}.

(** A well-formed selector, its generation a [u64], selects [p]. *)
Definition root_of (w : World) (id : CompatibilityIdentity) (s : CurrentSelector) (p : Selected) : Prop :=
  selector_validate s = Ok tt /\ 0 <= cs_generation s <= u64_max /\ selects w s id p.

(** The completed root that preceded the selection [s]: the one a rotation
    names, or the parent of a checkpoint when it has a snapshot of its own. *)
Inductive history_of (w : World) (id : CompatibilityIdentity) (s p : Selected) : Prop :=
| history_rotation r :
    sel_rotation s = Some r -> root_of w id (pr_selector (rot_previous r)) p -> history_of w id s p
| history_parent parent sel :
    sel_rotation s = None -> is_Some (sel_checkpoint s) -> em_parent (sel_metadata s) = Some parent ->
    cs_generation sel = parent_generation parent -> cs_digest sel = parent_digest parent ->
    is_Some (sel_checkpoint p) -> root_of w id sel p -> history_of w id s p.

(** A root that must survive: the selected one, its history, and one a reader leases. *)
Inductive live (w : World) (id : CompatibilityIdentity) (p : Selected) : Prop :=
| live_selected : opens w id p -> 0 <= cs_generation (sel_selector p) <= u64_max -> live w id p
| live_history s : opens w id s -> history_of w id s p -> live w id p
| live_leased sel n :
    root_of w id sel p -> lookup w (cs_manifest_name sel) = Some n -> leases n <> 0%nat -> live w id p.

Definition protected (w : World) (id : CompatibilityIdentity) (x : string) : Prop :=
  x ∈ [CURRENT_FILE_NAME; STORE_LOCK_FILE_NAME; MANIFEST_LOCK_FILE_NAME] \/ exists p, live w id p /\ x ∈ dependencies p.

Lemma select_bytes_inv b s id x :
  select_bytes b s id = Ok x ->
  sel_selector x = s /\ em_identity (sel_metadata x) = id /\ em_generation (sel_metadata x) = cs_generation s.
Proof.
  unfold select_bytes, data_select, rotating_select, names_other. intros E. ok_step.
  destruct (starts_with b (ascii_bytes "SLDM")); [|destruct (starts_with b (ascii_bytes "SLRM"))];
    do 3 ok_step; bool_inv; injection E as <-; cbn; repeat split; by subst.
Qed.

Lemma valid_name s : selector_validate s = Ok tt ->
  cs_manifest_name s = ManifestGeneration.name (cs_generation s) /\ cs_generation s <> 0.
Proof. unfold selector_validate. intros E. ok_step. bool_inv. done. Qed.

Lemma opens_root w id p : opens w id p -> 0 <= cs_generation (sel_selector p) <= u64_max -> root_of w id (sel_selector p) p.
Proof.
  intros (cur & s & _ & _ & Hs & Hp) Hg. unfold selector_decode in Hs. ok_step. ok_step.
  assert (sel_selector p = s) as E by (destruct Hp as (b & _ & _ & Hb); by apply select_bytes_inv in Hb as [? _]).
  injection Hs as <-. rewrite E in *. by destruct a0.
Qed.

Lemma opens_identity w id p : opens w id p -> em_identity (sel_metadata p) = id.
Proof. intros (cur & s & _ & _ & _ & b & _ & _ & Hb). by apply select_bytes_inv in Hb as (_ & ? & _). Qed.

(** The roots the inventory found, and the history [prune] derives from them. *)
Section Found.
Variables (w : World) (current : Selected) (l : list string) (roots : list Root).
Hypothesis Hl : forall x, x ∈ l <-> is_Some (names w !! x).
Hypothesis Hroots : inspected w current l [] roots.
Abbreviation id := (em_identity (sel_metadata current)).

Lemma root_found s p : root_of w id s p ->
  exists r, r ∈ roots /\ root_at w current (cs_manifest_name s) r /\ root_selected r = Some p.
Proof.
  intros (Hv & Hg & Hp). destruct (valid_name s Hv) as [Hn Hz].
  assert (Hin : cs_manifest_name s ∈ l).
  { apply Hl. destruct Hp as (b & Hb & _). unfold content, lookup in Hb. destruct (names w !! cs_manifest_name s); [by eexists|done]. }
  destruct (proj1 Hroots _ Hin) as [[]%elem_of_nil|Hr]. destruct Hr as (r & Hr & Hat).
  { rewrite Hn. apply is_manifest_name_name. lia. }
  exists r. split; [done|]. split; [done|]. by eapply root_unique.
Qed.

Lemma root_named r p : r ∈ roots -> root_selected r = Some p ->
  manifest_name p = ManifestGeneration.name (em_generation (sel_metadata p)).
Proof.
  intros Hr Hp. destruct (proj2 Hroots r Hr) as (x & _ & _ & b & m & em & _ & _ & _ & Hsel).
  destruct em; [congruence|]. destruct Hsel as (p' & Hp' & b' & _ & _ & Hb). assert (p' = p) as -> by congruence.
  destruct (select_bytes_inv _ _ _ _ Hb) as (E & _ & Hg). unfold manifest_name. by rewrite E, Hg.
Qed.

Lemma find_parent parent s p :
  cs_generation s = parent_generation parent -> cs_digest s = parent_digest parent ->
  is_Some (sel_checkpoint p) -> root_of w id s p ->
  exists p', List.find (fun r => (em_generation (sel_metadata r) =? parent_generation parent)
                                   && bool_decide (cs_digest (sel_selector r) = parent_digest parent)
                                   && bool_decide (is_Some (sel_checkpoint r)))
                 (omap root_selected roots) = Some p' /\ manifest_name p' = manifest_name p.
Proof.
  intros Hg Hd Hc Hroot. destruct (root_found _ _ Hroot) as (r & Hr & _ & Hsel). destruct Hroot as (_ & _ & b & _ & _ & Hb).
  destruct (select_bytes_inv _ _ _ _ Hb) as (E & _ & Hg'). assert (Hin : p ∈ omap root_selected roots) by (apply list_elem_of_omap; eauto).
  destruct (List.find _ _) as [p'|] eqn:Hf.
  - exists p'. split; [done|]. apply List.find_some in Hf as [Hf ?]. apply list_elem_of_In, list_elem_of_omap in Hf as (r' & Hr' & Hp').
    bool_inv. rewrite (root_named _ _ Hr' Hp'), (root_named _ _ Hr Hsel). f_equal. lia.
  - apply (List.find_none _ _ ) with (x := p) in Hf; [|by apply list_elem_of_In]. exfalso. rewrite E, Hg', Hg in Hf.
    rewrite Z.eqb_refl, !bool_decide_true in Hf; done.
Qed.

Lemma find_history_ok w1 :
  same_disk w w1 ->
  wp (find_history current roots) (fun res w' => calm w1 w' /\ forall h p, res = Ok h -> history_of w id current p ->
    exists p', h = Some p' /\ manifest_name p' = manifest_name p) w1.
Proof.
  intros Hs. unfold find_history, persist. destruct (sel_rotation current) as [r|] eqn:Er.
  - do 2 wp_step. eapply wp_mono; [apply wp_select_root|]. intros [q|e] w2 [Hs2 Hq]; cbn [map_err]; [|split; [by apply calm_same|done]].
    wp_step. wp_step; [split; [by apply calm_same|done]|]. wp_step. eapply wp_mono; [apply calmly|].
    intros [[]|e] w3 Hc3; [wp_step|]; (split; [etrans; [by apply calm_same|exact Hc3]|]; [..]); [|done].
    intros h p [= <-] Hh. exists q. split; [done|]. destruct (Hq q eq_refl) as (b & Hb & _ & Hx).
    destruct Hh as [r' Hr' (_ & _ & b' & Hb' & _ & Hx')|? ? Hn]; [|congruence].
    assert (r' = r) as -> by congruence. unfold manifest_name.
    by rewrite (proj1 (select_bytes_inv _ _ _ _ Hx)), (proj1 (select_bytes_inv _ _ _ _ Hx')).
  - destruct (sel_checkpoint current) as [c|] eqn:Ec; [destruct (em_parent (sel_metadata current)) as [parent|] eqn:Ep|];
      wp_step; (split; [by apply calm_same|]; intros h p [= <-] Hh); (destruct Hh as [? Hr|parent' s _ Hc Hp Hg Hd Hcp Hroot]; [congruence|]).
    + assert (parent' = parent) as -> by congruence. by eapply find_parent.
    + congruence.
    + rewrite Ec in Hc. by destruct Hc.
Qed.

(** A live root is found, and there is a reason to keep it. *)
Lemma live_reason history p :
  opens w id current -> (forall p, history_of w id current p -> exists p', history = Some p' /\ manifest_name p' = manifest_name p) ->
  live w id p -> exists r, r ∈ roots /\ root_selected r = Some p /\ is_Some (root_reason current history r).
Proof.
  intros Hc Hh Hp.
  assert (Hr : exists s r, root_of w id s p /\ r ∈ roots /\ root_at w current (cs_manifest_name s) r /\ root_selected r = Some p /\
    (s = sel_selector current \/ history_of w id current p \/ root_leased r = true)).
  { destruct Hp as [Ho Hg|s Ho Hhp|s n Hroot Hn Hlz].
    - assert (p = current) as -> by (by eapply opens_functional). pose proof (opens_root _ _ _ Ho Hg) as Hroot.
      destruct (root_found _ _ Hroot) as (r & Hr & Hat & Hsel). exists (sel_selector current), r. by eauto 6.
    - assert (s = current) as -> by (by eapply opens_functional).
      assert (exists s, root_of w id s p) as [s Hroot] by (destruct Hhp; eauto).
      destruct (root_found _ _ Hroot) as (r & Hr & Hat & Hsel). exists s, r. by eauto 7.
    - destruct (root_found _ _ Hroot) as (r & Hr & Hat & Hsel). exists s, r. split_and!; [done..|]. right. right.
      destruct Hat as (_ & (n' & Hn' & ->) & _). assert (n' = n) as -> by congruence.
      assert (((leases n =? 0)%nat) = false) as -> by (by apply Nat.eqb_neq). by rewrite andb_false_r. }
  destruct Hr as (s & r & Hroot & Hr & Hat & Hsel & Hwhy). exists r. split; [done|]. split; [done|]. unfold root_reason.
  destruct Hat as (-> & _). destruct (bool_decide (_ = manifest_name current)) eqn:Hcur; [by eexists|].
  destruct Hwhy as [->|[Hhp| ->]]; [by apply bool_decide_eq_false in Hcur| |destruct (match history with Some _ => _ | None => _ end); by eexists].
  destruct (Hh p Hhp) as (p' & -> & Hm). rewrite Hm. destruct Hroot as (_ & _ & b & _ & _ & Hb).
  unfold manifest_name. rewrite (proj1 (select_bytes_inv _ _ _ _ Hb)). rewrite bool_decide_true by done. by eexists.
Qed.

(** What is protected is kept. *)
Lemma protected_kept history kept x :
  opens w id current -> (forall p, history_of w id current p -> exists p', history = Some p' /\ manifest_name p' = manifest_name p) ->
  (forall r, r ∈ roots -> planned current history r kept) -> protected w id x -> is_Some (retain_fixed kept !! x).
Proof.
  intros Hc Hh Hk [Hx|(p & Hp & Hx)]; unfold retain_fixed.
  - set_unfold in Hx. destruct Hx as [->|[->|[->|[]]]]; eauto using retain_self, retain_mono.
  - do 3 apply retain_mono. destruct (live_reason history p Hc Hh Hp) as (r & Hr & Hsel & Hreason). by eapply Hk.
Qed.
End Found.

Lemma wp_entries_bounded limit w :
  wp (entries_bounded limit) (fun res w' => same_disk w w' /\ forall l, res = Ok l -> forall x, x ∈ l <-> is_Some (names w !! x)) w.
Proof.
  unfold entries_bounded, io. do 2 wp_step. apply wp_call; [done|]. unfold wp at 1. cbn beta iota delta [map_err].
  wp_step. wp_step; [done|]. wp_step. split; [done|]. intros l [= <-] x. apply readdir_all.
Qed.

Lemma opens_same w w' id p : same_disk w w' -> opens w' id p -> opens w id p.
Proof. intros Hs. unfold opens, selects. by setoid_rewrite (content_proper _ _ Hs _ _ eq_refl). Qed.

Lemma inspected_same w w' current l rest roots : same_disk w w' -> inspected w' current l rest roots -> inspected w current l rest roots.
Proof.
  intros Hs [HI HR]. split.
  - intros x Hx. destruct (HI x Hx) as [?|Hr]; [by left|]. right. intros Hm. destruct (Hr Hm) as (r & ? & ?). eauto using root_at_same.
  - intros r Hr. destruct (HR r Hr) as [x Hx]. eauto using root_at_same.
Qed.

(** A loop whose accumulator is the result. *)
Lemma wp_collect {O A} (f : A -> method (O * World) StreamError unit) l o (Q : result StreamError O -> World -> Prop) w :
  wp (for_each f l) (fun r s => Q (let? _ := r in Ok (fst s)) (snd s)) (o, w) ->
  wp (fun w => let '(r, (o', w)) := for_each f l (o, w) in (let? _ := r in Ok o', w)) Q w.
Proof. unfold wp. by destruct (for_each f l (o, w)) as [r [o' w']]. Qed.

(** C3: pruning, with any failures, changes no file and never removes CURRENT, a
    lock, or a manifest, log or snapshot that the selected root, its completed
    predecessor or a root leased by a reader depends on: each of these names keeps
    what it named, both at once and after a crash. *)
Theorem prune_safe expected w :
  wp (prune expected) (fun _ w' => prunes (protected w (em_identity (sel_metadata expected))) w w') w.
Proof.
  unfold prune, persist, stream_io. set (P := protected w (em_identity (sel_metadata expected))).
  wp_step. wp_step. eapply wp_mono; [apply wp_entries_bounded|]. intros [l|e] w1 [Hs1 Hl]; cbn [map_err]; [|by apply calm_prunes, calm_same].
  specialize (Hl l eq_refl). wp_step. wp_step. eapply wp_mono; [apply wp_select_in|]. intros [current|e] w2 [Hs2 Hc]; cbn [map_err];
    assert (Hs : same_disk w w2) by (by etrans); [|by apply calm_prunes, calm_same].
  pose proof (opens_same w w1 _ _ Hs1 (Hc _ eq_refl)) as Ho. pose proof (opens_identity _ _ _ Ho) as Hid. clear Hc Hs1 Hs2.
  wp_step. wp_step; [by apply calm_prunes, calm_same|]. wp_step. apply wp_collect. eapply wp_mono; [apply wp_inventory|].
  intros res [[inv roots] w3] [Hs3 HI]; cbn [fst snd] in *. assert (Hs' : same_disk w w3) by (by etrans).
  destruct res as [[]|e]; [|by apply calm_prunes, calm_same]. pose proof (inspected_same _ _ _ _ _ _ Hs (HI eq_refl)) as Hroots.
  wp_step. eapply wp_mono; [by eapply find_history_ok|]. rewrite Hid. intros [h|e] w4 [Hc4 Hh]; [|apply calm_prunes; etrans; [by apply calm_same|exact Hc4]].
  specialize (fun p => Hh h p eq_refl).
  assert (Hc : calm w w4) by (etrans; [by apply calm_same|exact Hc4]). clear Hc4 Hs' Hs3.
  wp_step. eapply wp_mono; [apply calmly|]. intros [[]|e] w5 Hc5; [|apply calm_prunes; by etrans]. assert (Hc' : calm w w5) by (by etrans). clear Hc Hc5.
  wp_step. apply wp_collect. eapply wp_mono; [apply wp_plan|]. intros res [[kept candidates] w6] [Hc6 HK]; cbn [fst snd] in *.
  assert (Hc : calm w w6) by (by etrans). clear Hc' Hc6. destruct res as [[]|e]; [|by apply calm_prunes].
  wp_step. eapply wp_mono; [apply calmly|]. intros [[]|e] w7 Hc7; [|apply calm_prunes; by etrans].
  do 2 wp_step. eapply wp_mono; [apply calmly|]. intros [[]|e] w8 Hc8; cbn [map_err]; [|apply calm_prunes; etrans; [|exact Hc8]; by etrans].
  destruct (classify _ _ _) as [pending retained] eqn:Hcl. apply wp_collect. eapply wp_mono; [apply (wp_removals P)|].
  - intros a Ha Hp. apply manifests_last_elem in Ha. replace pending with (fst (classify (retain_fixed kept) candidates inv)) in Ha by (by rewrite Hcl).
    apply classify_pending in Ha. unfold P in Hp. rewrite <- Hid in Hp, Ho, Hh.
    eapply (protected_kept w current l roots) in Hp; eauto. rewrite Ha in Hp. by destruct Hp.
  - intros res [rp w9] Hp9; cbn [snd] in *. etrans; [apply calm_prunes; exact Hc|]. etrans; [apply calm_prunes; exact Hc7|].
    etrans; [apply calm_prunes; exact Hc8|]. exact Hp9.
Qed.
End Protection.
