(* ===== verification/Recovery.v ===== *)
(** Recovery and reopening (logical_stream/recovery.rs, logical_stream/reopen.rs). *)

From S2P Require Import Prelude Errors Externals Identity Frame Wire Snapshot Disk StoreDirectory Control Selection Reader Stream.
From coqutil Require Import Byte.

(** ** [RecoveryReader] *)

Record RecoveryReader := {
  reader : LogicalReader;
  boundary_seen : bool;
  complete : bool;
  rec_failed : bool;
  snapshot_read : bool;
  prefix_records : Z;
  suffix_records : Z
}.

Definition set_reader (x : LogicalReader) (r : RecoveryReader) : RecoveryReader := {|
  reader := x; boundary_seen := boundary_seen r; complete := complete r; rec_failed := rec_failed r;
  snapshot_read := snapshot_read r; prefix_records := prefix_records r; suffix_records := suffix_records r |}.
Definition set_seen (r : RecoveryReader) : RecoveryReader := {|
  reader := reader r; boundary_seen := true; complete := complete r; rec_failed := rec_failed r;
  snapshot_read := snapshot_read r; prefix_records := prefix_records r; suffix_records := suffix_records r |}.
Definition set_complete (r : RecoveryReader) : RecoveryReader := {|
  reader := reader r; boundary_seen := boundary_seen r; complete := true; rec_failed := rec_failed r;
  snapshot_read := snapshot_read r; prefix_records := prefix_records r; suffix_records := suffix_records r |}.
Definition set_rec_failed (r : RecoveryReader) : RecoveryReader := {|
  reader := reader r; boundary_seen := boundary_seen r; complete := complete r; rec_failed := true;
  snapshot_read := snapshot_read r; prefix_records := prefix_records r; suffix_records := suffix_records r |}.
Definition set_snapshot_read (r : RecoveryReader) : RecoveryReader := {|
  reader := reader r; boundary_seen := boundary_seen r; complete := complete r; rec_failed := rec_failed r;
  snapshot_read := true; prefix_records := prefix_records r; suffix_records := suffix_records r |}.
Definition count_prefix (r : RecoveryReader) : RecoveryReader := {|
  reader := reader r; boundary_seen := boundary_seen r; complete := complete r; rec_failed := rec_failed r;
  snapshot_read := snapshot_read r; prefix_records := prefix_records r + 1; suffix_records := suffix_records r |}.
Definition count_suffix (r : RecoveryReader) : RecoveryReader := {|
  reader := reader r; boundary_seen := boundary_seen r; complete := complete r; rec_failed := rec_failed r;
  snapshot_read := snapshot_read r; prefix_records := prefix_records r; suffix_records := suffix_records r + 1 |}.

(** A method of the inner reader. *)
Definition on_reader {A} (m : method (LogicalReader * World) StreamError A) :
    method (RecoveryReader * World) StreamError A := fun '(r, w) =>
  let '(a, (x, w)) := m (reader r, w) in (a, (set_reader x r, w)).

Section Recovery.
Context `{Machine} `{Blake3} `{Zstd} `{HashHex} `{LogicalCodecs} `{UuidText}.

(** An entry that is not coordination state, in a directory without CURRENT. *)
Definition check_mixed (name : string) : method World StreamError unit :=
  if bool_decide (name = STORE_LOCK_FILE_NAME) || bool_decide (name = MANIFEST_LOCK_FILE_NAME) then ret tt
  else at_artifact name None None (throw (StreamError.Persist (PControl (MixedArtifacts name)))).

(** A coordination entry must be present. *)
Definition check_lock (name : string) : method World StreamError unit :=
  do present <- at_artifact name None None (persist (contains name));
  if present : bool then ret tt
  else at_artifact name None None (throw (StreamError.Persist (PControl NotInitialized))).

(** [RecoveryReader::check_initialized]. *)
Definition check_initialized : method World StreamError unit :=
  persist LegacyProbe.reject ;;
  do present <- at_artifact CURRENT_FILE_NAME None None (persist (contains CURRENT_FILE_NAME));
  if negb present then
    do l <- persist entries;
    for_each check_mixed l ;;
    at_artifact CURRENT_FILE_NAME None None (throw (StreamError.Persist (PControl NotInitialized)))
  else for_each check_lock [STORE_LOCK_FILE_NAME; MANIFEST_LOCK_FILE_NAME].

(** [RecoveryReader::from_reader]; a reader without snapshot is dropped. *)
Definition from_reader (r : LogicalReader) : method World StreamError RecoveryReader :=
  match sel_checkpoint (selected r) with
  | None => fun w => (Err (StreamError.at_ StreamError.MissingSnapshot (manifest_name (selected r)) None None), drop_reader r w)
  | Some s =>
      ret {| reader := r;
             boundary_seen := bool_decide (SnapshotDescriptor.boundary s = position r)
                              || bool_decide (is_Some (sel_rotation (selected r)));
             complete := false; rec_failed := false; snapshot_read := false;
             prefix_records := 0; suffix_records := 0 |}
  end.

(** [RecoveryReader::open]. *)
Definition recovery_open (expected : CompatibilityIdentity) (limit : Z) : method World StreamError RecoveryReader :=
  check_initialized ;;
  do r <- reader_open expected limit;
  from_reader r.

(** [RecoveryReader::snapshot_body]. *)
Definition recovery_snapshot_body : method (RecoveryReader * World) StreamError bytes :=
  do self <- get;
  fail_if (rec_failed self) StreamError.Terminated ;;
  do r <- attempt (on_reader Reader.snapshot_body);
  (if is_err r then put set_rec_failed else put set_snapshot_read) ;;
  of_result r.

Definition wal_name (self : RecoveryReader) : string := log_name (selected (reader self)).

(** [Err(StreamError::from(e).at(self.wal_name(), Some(offset), expected))]. *)
Definition refuse_at {A} (self : RecoveryReader) (e : StreamError) (offset : Z) (expected : option Z) :
    method (RecoveryReader * World) StreamError A :=
  throw (StreamError.at_ e (wal_name self) (Some offset) expected).

Definition boundary_error : StreamError := StreamError.Frame FrameError.SnapshotBoundary.

(** The loop of [next_checked]: the outer [None] when the fuel runs out, then the
    body it returns, or [None] when the reader has no more. *)
Fixpoint checked_loop (fuel : nat) (boundary : Position) :
    method (RecoveryReader * World) StreamError (option (option bytes)) :=
  match fuel with
  | O => ret None
  | S fuel =>
      do r <- on_reader next_body;
      match r with
      | None => ret (Some None)
      | Some body =>
          do self <- get;
          let p := position (reader self) in
          if Position.sequence p <=? Position.sequence boundary then
            put count_prefix ;;
            (if Position.sequence p =? Position.sequence boundary then
               (if bool_decide (p = boundary) then put set_seen
                else refuse_at self boundary_error (Position.offset p) (Some (Position.sequence boundary)))
             else ret tt) ;;
            checked_loop fuel boundary
          else if negb (boundary_seen self) then
            refuse_at self boundary_error (Position.offset p) (Some (Position.sequence boundary))
          else
            put count_suffix ;;
            ret (Some (Some body))
      end
  end.

(** What [next_checked] concludes when the reader has no more bodies. *)
Definition checked_end (boundary : Position) : method (RecoveryReader * World) StreamError (option bytes) :=
  do self <- get;
  let p := position (reader self) in
  if incomplete_tail (reader self) then
    refuse_at self (if boundary_seen self then StreamError.IncompleteTail
                    else StreamError.Frame FrameError.CorruptIncomplete)
      (Position.offset p) (checked_add (Position.sequence p) 1)
  else if negb (boundary_seen self) then
    refuse_at self (StreamError.Frame
        (if (Position.sequence p <? Position.sequence boundary) && (Position.offset p <? Position.offset boundary)
         then FrameError.CorruptIncomplete else FrameError.SnapshotBoundary))
      (Position.offset p) (checked_add (Position.sequence p) 1)
  else
    put set_complete ;;
    ret None.

(** [next_checked].  [snapshot_context] expects the checkpoint that [from_reader]
    has required; its panic cannot be reached. *)
Definition next_checked : method (RecoveryReader * World) StreamError (option bytes) :=
  do self <- get;
  if complete self then ret None
  else
    match snapshot_context (selected (reader self)) with
    | None => throw StreamError.Panicked
    | Some c =>
        do r <- checked_loop (drain_fuel (reader self)) (boundary c);
        match r with
        | Some (Some body) => ret (Some body)
        | Some None => checked_end (boundary c)
        | None => throw (StreamError.Protocol "decoder made no progress")
        end
    end.

(** [RecoveryReader::next_body]. *)
Definition recovery_next_body : method (RecoveryReader * World) StreamError (option bytes) :=
  do self <- get;
  fail_if (rec_failed self) StreamError.Terminated ;;
  do r <- attempt next_checked;
  (if is_err r then put set_rec_failed else ret tt) ;;
  of_result r.

(** [RecoveryReader::finish]. *)
Definition recovery_finish (self : RecoveryReader) : result StreamError unit :=
  refuse rec_failed self || negb (complete self) || negb (snapshot_read self)
    with StreamError.Protocol "reopen consumption incomplete";
  Ok tt.

(** ** [ReopeningWal]: a recovery reader under the writer lock *)

(** [ReopeningWal::open]. *)
Definition reopening_open (expected : CompatibilityIdentity) (limit : Z) : method World StreamError RecoveryReader :=
  check_initialized ;;
  at_artifact STORE_LOCK_FILE_NAME None None (persist writer_acquire_existing) ;;
  recovery_open expected limit.

(** The closure of [ReopeningWal::finish] that reopens the log for writing. *)
Definition reopen_file (name : string) (p : Position) : method World StreamError Handle :=
  do f <- persist (open_write name);
  do m <- stream_io (fstat f);
  fail_if (negb (em_len m =? Position.offset p)) (StreamError.Protocol "WAL changed during reopen") ;;
  do f <- stream_io (seek f (Z.to_nat (Position.offset p)));
  stream_io (sync_all f) ;;
  ret f.

(** [ReopeningWal::finish]; the recovery reader is dropped on every path. *)
Definition reopening_finish (self : RecoveryReader) : method World StreamError LogicalWal := fun w =>
  let r := reader self in
  let p := position r in
  let '(result, w) :=
    (of_result (recovery_finish self) ;;
     do f <- at_artifact (log_name (selected r)) (Some (Position.offset p)) (Some (Position.sequence p))
               (reopen_file (log_name (selected r)) p);
     ret {| wal_file := f;
            wal_progress := {| written := p; synchronized := p; published := Some p; acknowledged := None |};
            wal_fenced := false; wal_selected := selected r |}) w in
  (result, drop_reader r w).
End Recovery.
