(* ===== verification/RecoveryProps.v ===== *)
(** Correctness of recovery.

    A recovery reader verifies the records up to the boundary of the selected
    snapshot and returns the records after it.  The theorems are stated for a
    machine without I/O errors; with errors, the reader stops with one. *)

From S2P Require Import Prelude Errors Externals Identity Frame Snapshot Disk StoreDirectory Control Selection Reader Stream Log Commit Reading Recovery.
From coqutil Require Import Byte.

(** The recovery reader as it stands, over the inner reader [r]. *)
Record recovery_at (rr : RecoveryReader) (w : World) (c : Context) (off : Z) (suffix : bytes) : Prop := {
  rv_reader : reader_at (reader rr) w c off suffix;
  rv_failed : rec_failed rr = false;
  rv_complete : complete rr = false
}.

(** Everything but the inner cursor is unchanged. *)
Definition same_counts (rr rr' : RecoveryReader) (prefix suffix : Z) : Prop :=
  prefix_records rr' = prefix_records rr + prefix /\ suffix_records rr' = suffix_records rr + suffix /\
  snapshot_read rr' = snapshot_read rr /\ same_reader (reader rr) (reader rr').

Section Recovery.
Context `{M : Machine} `{Blake3Laws} `{ZstdLaws} `{HashHex} (HM : reliable M).

(** One record. *)
Lemma wp_checked_step fuel b rr w c off body fr tail (Q : result StreamError (option (option bytes)) -> RecoveryReader * World -> Prop) :
  context_wf c -> frame (limit (reader rr)) c body fr -> sequence c < u64_max -> 0 <= off -> off + zlen fr <= u64_max ->
  recovery_at rr w c off (fr ++ tail) ->
  (forall rr' w', same_disk w w' -> recovery_at rr' w' (next_context c fr) (off + zlen fr) tail ->
     same_counts rr rr' 0 0 -> boundary_seen rr' = boundary_seen rr ->
     let p := at_context (next_context c fr) (off + zlen fr) in
     wp (if Position.sequence p <=? Position.sequence b then
           put count_prefix ;;
           (if Position.sequence p =? Position.sequence b then
              (if bool_decide (p = b) then put set_seen
               else refuse_at rr' boundary_error (Position.offset p) (Some (Position.sequence b)))
            else ret tt) ;;
           checked_loop fuel b
         else if negb (boundary_seen rr') then
           refuse_at rr' boundary_error (Position.offset p) (Some (Position.sequence b))
         else put count_suffix ;; ret (Some (Some body))) Q (rr', w')) ->
  wp (checked_loop (S fuel) b) Q (rr, w).
Proof.
  intros W F Hs Ho Hoff [HR Hf Hc] HQ. cbn [checked_loop]. wp_step.
  pose proof (next_body_frame _ _ _ _ _ _ _ W F Hs Ho Hoff HR) as HN.
  unfold wp at 1. unfold wp in HN. unfold on_reader. destruct (next_body (reader rr, w)) as [res [r' w']].
  cbn [fst snd] in HN. destruct HN as [Hd HN]. destruct res as [[bd|]|e].
  - destruct HN as [-> (HR' & Hsame & _)]. wp_step. wp_step. cbn [reader set_reader].
    rewrite (ra_position _ _ _ _ _ HR'). apply HQ; try done. unfold same_counts. cbn. repeat split; try lia; apply Hsame.
  - done.
  - destruct HN as [Hfa _]. by destruct (reliable_not_faulty M HM).
Qed.

Lemma same_counts_trans a b c p q p' q' : same_counts a b p q -> same_counts b c p' q' -> same_counts a c (p + p') (q + q').
Proof. unfold same_counts, same_reader. intuition (lia || congruence). Qed.

(** The records up to the boundary. *)
Lemma wp_checked_prefix fuel b rr w c bodies log cb off tail Q :
  chain (limit (reader rr)) c bodies log cb -> context_wf c -> sequence cb <= u64_max ->
  0 <= off -> off + zlen log <= u64_max -> b = at_context cb (off + zlen log) ->
  recovery_at rr w c off (log ++ tail) ->
  (forall rr' w', same_disk w w' -> recovery_at rr' w' cb (off + zlen log) tail -> context_wf cb ->
     same_counts rr rr' (Z.of_nat (length bodies)) 0 ->
     boundary_seen rr' = boundary_seen rr || negb (bool_decide (bodies = [])) ->
     wp (checked_loop fuel b) Q (rr', w')) ->
  wp (checked_loop (length bodies + fuel) b) Q (rr, w).
Proof.
  intros C. remember (limit (reader rr)) as lim eqn:Hlim. revert rr w off Hlim.
  induction C as [c|c body fr bodies log cb F C IH]; intros rr w off Hlim W Hs Ho Hoff Hb HR HQ.
  - cbn [length Nat.add]. apply HQ; try done.
    + by rewrite Z.add_0_r.
    + unfold same_counts, same_reader. cbn. repeat split; lia || done.
    + by rewrite orb_false_r.
  - pose proof (chain_sequence _ _ _ _ _ C) as Hcs. cbn [sequence next_context] in Hcs. subst lim.
    rewrite zlen_app in *. pose proof (zlen_nonneg log). pose proof (zlen_nonneg fr). cbn [length Nat.add].
    rewrite <- app_assoc in HR. eapply (wp_checked_step _ _ _ _ _ off); [done|exact F|lia|done|lia|exact HR|].
    intros rr' w' Hd HR' Hc Hseen p. subst p. cbn [Position.sequence Position.offset at_context sequence next_context].
    assert (Hbs : Position.sequence b = sequence cb - 1) by by subst b.
    rewrite (proj2 (Z.leb_le _ _)) by lia. do 3 wp_step.
    set (p := at_context (next_context c fr) (off + zlen fr)).
    assert (HK : forall rr2, recovery_at rr2 w' (next_context c fr) (off + zlen fr) (log ++ tail) -> same_counts rr' rr2 1 0 ->
      boundary_seen rr2 = boundary_seen rr' || bool_decide (bodies = []) -> wp (checked_loop (length bodies + fuel) b) Q (rr2, w')).
    { intros rr2 HR2 Hc2 Hs2. pose proof (same_counts_trans _ _ _ _ _ _ _ Hc Hc2) as Hc3.
      apply (IH rr2 w' (off + zlen fr)); try done; try lia.
      - symmetry. apply Hc3.
      - eapply next_context_wf; [done|exact F|lia].
      - rewrite Hb. f_equal. lia.
      - intros rr3 w3 Hd3 HR3 W3 Hc4 Hs3. apply HQ; try done.
        + by etrans.
        + by rewrite Z.add_assoc.
        + pose proof (same_counts_trans _ _ _ _ _ _ _ Hc3 Hc4) as Hc5. cbn in Hc5.
          replace (Z.of_nat (length (body :: bodies))) with (0 + 1 + Z.of_nat (length bodies)) by (cbn [length]; lia). exact Hc5.
        + rewrite Hs3, Hs2, Hseen. destruct bodies; cbn; by rewrite ?orb_true_r, ?orb_false_r, ?orb_assoc. }
    destruct (Z.eqb_spec (sequence c + 1 - 1) (Position.sequence b)) as [Heq|Hne].
    + assert (bodies = []) as -> by (destruct bodies; [done|cbn in Hcs; lia]). inversion C; subst.
      cbn [app] in *. rewrite bool_decide_eq_true_2 by (subst p; change (zlen []) with 0; by rewrite Z.add_0_r).
      wp_step. apply HK; [by destruct HR'|unfold same_counts, same_reader; cbn; repeat split; lia || done|].
      cbn. by rewrite orb_true_r.
    + wp_step. apply HK; [by destruct HR'|unfold same_counts, same_reader; cbn; repeat split; lia || done|].
      cbn. rewrite bool_decide_eq_false_2; [by rewrite orb_false_r|]. intros ->. cbn in Hcs. lia.
Qed.

Lemma chain_length lim c bodies log c' :
  chain lim c bodies log c' -> context_wf c -> sequence c' <= u64_max -> (length bodies <= length log)%nat.
Proof.
  induction 1 as [|c body fr bodies log c' F C IH]; intros W Hs; [done|]. rewrite length_app. cbn [length].
  pose proof (frame_length _ _ _ _ W F). pose proof (chain_sequence _ _ _ _ _ C) as E. cbn in E.
  assert (context_wf (next_context c fr)) by (eapply next_context_wf; [done|exact F|lia]). specialize (IH ltac:(done) Hs). lia.
Qed.

(** The fuel of the loop covers a chain of records and one more round. *)
Lemma drain_fuel_chain rr w c off bodies log c' tail :
  chain (limit (reader rr)) c bodies log c' -> context_wf c -> sequence c' <= u64_max ->
  recovery_at rr w c off (log ++ tail) -> exists fuel, drain_fuel (reader rr) = (length bodies + S fuel)%nat.
Proof.
  intros C W Hs HR. pose proof (chain_length _ _ _ _ _ C W Hs).
  destruct (rv_reader _ _ _ _ _ HR) as [_ _ _ _ _ (f & _ & _ & Hr)].
  exists (drain_fuel (reader rr) - S (length bodies))%nat. unfold drain_fuel. rewrite Hr. unfold zlen. rewrite length_app. lia.
Qed.

(** The boundary a recovery reader looks for. *)
Definition boundary_of (rr : RecoveryReader) : option Position :=
  boundary <$> snapshot_context (selected (reader rr)).

(** [recovery_next_body] in terms of its loop. *)
Lemma wp_recovery_next rr w b (Q : result StreamError (option bytes) -> RecoveryReader * World -> Prop) :
  rec_failed rr = false -> complete rr = false -> boundary_of rr = Some b ->
  let die res s := match res with Ok x => Q (Ok x) s | Err e => Q (Err e) (set_rec_failed (fst s), snd s) end in
  wp (checked_loop (drain_fuel (reader rr)) b) (fun res s => match res with
    | Ok (Some (Some body)) => Q (Ok (Some body)) s
    | Ok (Some None) => wp (checked_end b) die s
    | Ok None => die (Err no_progress) s
    | Err e => die (Err e) s end) (rr, w) ->
  wp recovery_next_body Q (rr, w).
Proof.
  intros Hf Hc Hb die Hloop. unfold recovery_next_body. do 3 wp_step. wp_step; [congruence|]. do 2 wp_step.
  unfold next_checked. do 2 wp_step. rewrite Hc. unfold boundary_of in Hb.
  destruct (snapshot_context (selected (reader rr))) as [sc|]; [|done]. cbn in Hb. injection Hb as Hb. rewrite Hb.
  assert (HD : forall res s, die res s -> wp ((if is_err res then put set_rec_failed else ret tt) ;; of_result res) Q s).
  { intros [x|e] [rr' w'] HQ; cbn [is_err]; do 2 wp_step; wp_step; exact HQ. }
  wp_step. eapply wp_mono; [exact Hloop|]. intros [[[body|]|]|e] s HQ.
  - wp_step. by apply HD.
  - eapply wp_mono; [exact HQ|]. auto.
  - wp_step. by apply HD.
  - by apply HD.
Qed.

(** The state after [body] was returned: [n] more prefix records and one more
    suffix record than [rr]. *)
Definition returned (rr : RecoveryReader) (c : Context) (off : Z) (tail : bytes) (n : Z) (s : RecoveryReader * World) : Prop :=
  recovery_at (fst s) (snd s) c off tail /\ context_wf c /\ boundary_seen (fst s) = true /\ same_counts rr (fst s) n 1.

Lemma wp_checked_suffix fuel b rr w c off body fr tail (Q : result StreamError (option (option bytes)) -> RecoveryReader * World -> Prop) :
  frame (limit (reader rr)) c body fr -> context_wf c -> sequence c < u64_max -> 0 <= off -> off + zlen fr <= u64_max ->
  recovery_at rr w c off (fr ++ tail) -> boundary_seen rr = true -> Position.sequence b < sequence c ->
  (forall s, returned rr (next_context c fr) (off + zlen fr) tail 0 s -> Q (Ok (Some (Some body))) s) ->
  wp (checked_loop (S fuel) b) Q (rr, w).
Proof.
  intros F W Hs Ho Hoff HR Hseen Hlt HQ. eapply (wp_checked_step _ _ _ _ _ off); [done|exact F|lia|lia|lia|exact HR|].
  intros rr2 w2 Hd HR2 Hc2 Hs2 p. subst p. cbn [Position.sequence at_context sequence next_context].
  rewrite (proj2 (Z.leb_gt _ _)) by lia. rewrite Hs2, Hseen. cbn [negb]. do 3 wp_step. apply HQ.
  split; [by destruct HR2|]. split; [eapply next_context_wf; [done|exact F|lia]|]. split; [cbn; congruence|].
  destruct Hc2 as (E1 & E2 & E3). unfold same_counts. cbn. split; [lia|]. split; [lia|done].
Qed.

(** A record after the boundary is returned. *)
Lemma recovery_next_record rr w c off pre log cb body fr tail b :
  chain (limit (reader rr)) c pre log cb -> frame (limit (reader rr)) cb body fr ->
  context_wf c -> sequence cb < u64_max -> 0 <= off -> off + zlen log + zlen fr <= u64_max ->
  boundary_of rr = Some b -> recovery_at rr w c off (log ++ fr ++ tail) ->
  (pre <> [] -> b = at_context cb (off + zlen log)) ->
  (pre = [] -> boundary_seen rr = true /\ Position.sequence b < sequence c) ->
  wp recovery_next_body (fun res s => res = Ok (Some body) /\
    returned rr (next_context cb fr) (off + zlen log + zlen fr) tail (Z.of_nat (length pre)) s) (rr, w).
Proof.
  intros C F W Hs Ho Hoff Hb HR Hpre Hnil. pose proof (zlen_nonneg fr). pose proof (zlen_nonneg log).
  eapply wp_recovery_next; [apply HR|apply HR|exact Hb|]. cbv zeta.
  destruct (drain_fuel_chain _ _ _ _ _ _ _ _ C W ltac:(lia) HR) as [fuel ->]. destruct pre as [|b0 pre].
  - destruct (Hnil eq_refl) as [Hseen Hlt]. inversion C; subst. change (zlen []) with 0 in *. rewrite Z.add_0_r in *.
    eapply (wp_checked_suffix _ _ _ _ _ off); [exact F|done|lia|lia|lia|exact HR|done|done|]. intros s Hret. done.
  - eapply wp_checked_prefix; [exact C|done|lia|exact Ho|lia|by apply Hpre|exact HR|].
    intros rr1 w1 Hd HR1 W1 Hc1 Hs1. rewrite orb_true_r in Hs1.
    assert (F1 : frame (limit (reader rr1)) cb body fr) by (destruct Hc1 as (_ & _ & _ & -> & _); done).
    eapply (wp_checked_suffix _ _ _ _ _ (off + zlen log)); [exact F1|done|lia|lia|lia|exact HR1|done| |].
    + rewrite Hpre by done. cbn. lia.
    + intros s (Hr & Wn & Hsn & Hcn). split; [done|]. repeat split; try apply Hr; try done; try apply Wn.
      all: pose proof (same_counts_trans _ _ _ _ _ _ _ Hc1 Hcn) as Hc; rewrite Z.add_0_r in Hc; apply Hc.
Qed.

(** At the end of the log the loop hands over to [checked_end]. *)
Lemma wp_checked_stop fuel b rr w c off (Q : result StreamError (option (option bytes)) -> RecoveryReader * World -> Prop) :
  recovery_at rr w c off [] ->
  (forall rr' w', same_disk w w' -> position (reader rr') = at_context c off -> incomplete_flag (reader rr') = false ->
     rec_failed rr' = false -> boundary_seen rr' = boundary_seen rr -> same_counts rr rr' 0 0 -> Q (Ok (Some None)) (rr', w')) ->
  wp (checked_loop (S fuel) b) Q (rr, w).
Proof.
  intros [HR Hf Hc] HQ. cbn [checked_loop]. wp_step. pose proof (next_body_end _ _ _ _ HR) as HN.
  unfold wp at 1. unfold wp in HN. unfold on_reader. destruct (next_body (reader rr, w)) as [res [r' w']].
  cbn [fst snd] in HN. destruct HN as (Hd & Hsame & HN). destruct res as [[bd|]|e].
  - done.
  - destruct HN as (_ & _ & Hi & Hp). wp_step. apply HQ; try done. unfold same_counts. cbn. repeat split; try lia; apply Hsame.
  - destruct HN as [Hfa _]. by destruct (reliable_not_faulty M HM).
Qed.

(** The recovery is complete at [c], with [n] more prefix records than [rr]. *)
Definition completed (rr : RecoveryReader) (c : Context) (off n : Z) (res : result StreamError (option bytes))
    (s : RecoveryReader * World) : Prop :=
  res = Ok None /\ complete (fst s) = true /\ rec_failed (fst s) = false /\
  position (reader (fst s)) = at_context c off /\ same_counts rr (fst s) n 0.

(** At the end of a log behind the boundary the recovery is complete. *)
Lemma recovery_next_end rr w c off pre log cb b :
  chain (limit (reader rr)) c pre log cb -> context_wf c -> sequence cb <= u64_max -> 0 <= off -> off + zlen log <= u64_max ->
  boundary_of rr = Some b -> recovery_at rr w c off log ->
  (pre <> [] -> b = at_context cb (off + zlen log)) -> (pre = [] -> boundary_seen rr = true) ->
  wp recovery_next_body (completed rr cb (off + zlen log) (Z.of_nat (length pre))) (rr, w).
Proof.
  intros C W Hs Ho Hoff Hb HR Hpre Hnil. pose proof (zlen_nonneg log).
  eapply wp_recovery_next; [apply HR|apply HR|exact Hb|]. cbv zeta. rewrite <- (app_nil_r log) in HR.
  destruct (drain_fuel_chain _ _ _ _ _ _ _ _ C W ltac:(lia) HR) as [fuel ->].
  assert (Hgo : forall rr1 w1, recovery_at rr1 w1 cb (off + zlen log) [] -> boundary_seen rr1 = true ->
    same_counts rr rr1 (Z.of_nat (length pre)) 0 ->
    wp (checked_loop (S fuel) b) (fun res s => res = Ok (Some None) /\
      wp (checked_end b) (completed rr cb (off + zlen log) (Z.of_nat (length pre))) s) (rr1, w1)).
  { intros rr1 w1 HR1 Hs1 Hc1. eapply wp_checked_stop; [exact HR1|]. intros rr2 w2 Hd Hp Hi Hf Hs2 Hc2. split; [done|].
    unfold checked_end. do 2 wp_step. unfold incomplete_tail. rewrite Hi, Hs2, Hs1. cbn [negb]. do 3 wp_step. split; [done|].
    cbn. repeat split; try done; pose proof (same_counts_trans _ _ _ _ _ _ _ Hc1 Hc2) as Hc; rewrite Z.add_0_r in Hc; apply Hc. }
  assert (Hfin : wp (checked_loop (length pre + S fuel) b) (fun res s => res = Ok (Some None) /\
    wp (checked_end b) (completed rr cb (off + zlen log) (Z.of_nat (length pre))) s) (rr, w)).
  { destruct pre as [|b0 pre].
    - inversion C; subst. cbn [length Nat.add]. change (zlen []) with 0 in *. rewrite Z.add_0_r in *. apply Hgo; [done|by apply Hnil|].
      unfold same_counts, same_reader. cbn. repeat split; lia || done.
    - eapply wp_checked_prefix; [exact C|done|lia|exact Ho|lia|by apply Hpre|exact HR|].
      intros rr1 w1 Hd HR1 W1 Hc1 Hs1. rewrite orb_true_r in Hs1. by apply Hgo. }
  eapply wp_mono; [exact Hfin|]. intros res s [-> Hend]. eapply wp_mono; [exact Hend|]. by intros res' s' [-> ?].
Qed.

(** *** Reading everything *)

(** A client that calls [next_body] until it returns no body, as [read_all]. *)
Fixpoint recover_all (fuel : nat) (s : RecoveryReader * World) :
    list bytes * option (result StreamError unit) * (RecoveryReader * World) :=
  match fuel with
  | O => ([], None, s)
  | S fuel =>
      let '(r, s) := recovery_next_body s in
      match r with
      | Ok (Some body) => let '(got, e, s) := recover_all fuel s in (body :: got, e, s)
      | Ok None => ([], Some (Ok tt), s)
      | Err e => ([], Some (Err e), s)
      end
  end.

Lemma recover_chain rr w c off pre log cb suf log' c' b :
  chain (limit (reader rr)) c pre log cb -> chain (limit (reader rr)) cb suf log' c' ->
  context_wf c -> sequence c' <= u64_max -> 0 <= off -> off + zlen log + zlen log' <= u64_max ->
  boundary_of rr = Some b -> recovery_at rr w c off (log ++ log') ->
  (pre <> [] -> b = at_context cb (off + zlen log)) ->
  (pre = [] -> boundary_seen rr = true /\ Position.sequence b < sequence c) ->
  exists rr' w', recover_all (S (length suf)) (rr, w) = (suf, Some (Ok tt), (rr', w')) /\
    complete rr' = true /\ rec_failed rr' = false /\ position (reader rr') = at_context c' (off + zlen log + zlen log') /\
    same_counts rr rr' (Z.of_nat (length pre)) (Z.of_nat (length suf)).
Proof.
  intros C C'. revert rr w c off pre log C C'. induction suf as [|body suf IH] in cb, log' |- *;
    intros rr w c off pre log C C' W Hs Ho Hoff Hb HR Hpre Hnil; inversion C'; subst.
  - change (zlen []) with 0 in *. rewrite Z.add_0_r in *. rewrite app_nil_r in HR.
    assert (wp recovery_next_body (completed rr c' (off + zlen log) (Z.of_nat (length pre))) (rr, w)) as HN.
    { eapply recovery_next_end; try done. by intros [? _]%Hnil. }
    unfold wp in HN. cbn [length recover_all]. destruct (recovery_next_body (rr, w)) as [res [rr' w']].
    destruct HN as (-> & Hc & Hf & Hp & Hk). exists rr', w'. done.
  - pose proof (zlen_nonneg log). pose proof (zlen_nonneg log0). pose proof (zlen_nonneg fr). rewrite zlen_app in Hoff.
    match goal with H : chain _ (next_context _ _) _ _ _ |- _ => rename H into C1; pose proof (chain_sequence _ _ _ _ _ C1) as Hcs end.
    pose proof (chain_sequence _ _ _ _ _ C) as Hcs0. cbn [sequence next_context] in Hcs.
    assert (HN : wp recovery_next_body (fun res s => res = Ok (Some body) /\
      returned rr (next_context cb fr) (off + zlen log + zlen fr) log0 (Z.of_nat (length pre)) s) (rr, w)).
    { eapply recovery_next_record; try done; lia. }
    unfold wp in HN. cbn [length recover_all]. destruct (recovery_next_body (rr, w)) as [res [rr1 w1]].
    destruct HN as (-> & HR1 & W1 & Hs1 & Hc1). cbn [fst snd] in *.
    pose proof Hc1 as (_ & _ & _ & Hl1 & Hsel1 & _).
    destruct (IH (next_context cb fr) log0 rr1 w1 (next_context cb fr) (off + zlen log + zlen fr) [] []) as (rr' & w' & E & Hc & Hf & Hp & Hk);
      try done; try (change (zlen []) with 0); try lia; [rewrite Hl1; constructor|by rewrite Hl1|by unfold boundary_of; rewrite Hsel1| |].
    { intros _. split; [done|]. destruct pre; [destruct (Hnil eq_refl) as [_ ?]; cbn in *; lia|]. rewrite Hpre by done. cbn. lia. }
    exists rr', w'. cbn [recover_all] in E. rewrite E. change (zlen []) with 0 in Hp. rewrite zlen_app.
    split; [done|]. split; [done|]. split; [done|]. split; [rewrite Hp; f_equal; lia|].
    apply (same_counts_trans _ _ _ _ _ _ _ Hc1) in Hk. cbn [length] in *. rewrite Z.add_0_r in Hk.
    by replace (Z.of_nat (S (length suf))) with (1 + Z.of_nat (length suf)) by lia.
Qed.

(** *** Logs that end before the boundary *)

(** Records before the boundary are only counted. *)
Lemma wp_checked_below fuel b rr w c bodies log c' off tail Q :
  chain (limit (reader rr)) c bodies log c' -> context_wf c -> sequence c' <= Position.sequence b -> sequence c' <= u64_max ->
  0 <= off -> off + zlen log <= u64_max -> recovery_at rr w c off (log ++ tail) ->
  (forall rr' w', same_disk w w' -> recovery_at rr' w' c' (off + zlen log) tail -> context_wf c' ->
     same_counts rr rr' (Z.of_nat (length bodies)) 0 -> boundary_seen rr' = boundary_seen rr ->
     wp (checked_loop fuel b) Q (rr', w')) ->
  wp (checked_loop (length bodies + fuel) b) Q (rr, w).
Proof.
  intros C. remember (limit (reader rr)) as lim eqn:Hlim. revert rr w off Hlim.
  induction C as [c|c body fr bodies log c' F C IH]; intros rr w off Hlim W Hb Hs Ho Hoff HR HQ.
  - cbn [length Nat.add]. apply HQ; try done; [by rewrite Z.add_0_r|].
    unfold same_counts, same_reader. cbn. repeat split; lia || done.
  - pose proof (chain_sequence _ _ _ _ _ C) as Hcs. cbn [sequence next_context] in Hcs. subst lim.
    rewrite zlen_app in *. pose proof (zlen_nonneg log). pose proof (zlen_nonneg fr). cbn [length Nat.add].
    rewrite <- app_assoc in HR. eapply (wp_checked_step _ _ _ _ _ off); [done|exact F|lia|done|lia|exact HR|].
    intros rr' w' Hd HR' Hc Hseen p. subst p. cbn [Position.sequence Position.offset at_context sequence next_context].
    rewrite (proj2 (Z.leb_le _ _)), (proj2 (Z.eqb_neq _ _)) by lia. do 4 wp_step.
    assert (Hc1 : same_counts rr (count_prefix rr') 1 0).
    { destruct Hc as (E1 & E2 & E3). unfold same_counts. cbn. split; [lia|]. split; [lia|done]. }
    apply (IH (count_prefix rr') w' (off + zlen fr)); try done; try lia.
    + symmetry. apply Hc1.
    + eapply next_context_wf; [done|exact F|lia].
    + by destruct HR'.
    + intros rr3 w3 Hd3 HR3 W3 Hc4 Hs3. apply HQ; try done; [by etrans|by rewrite Z.add_assoc| |cbn in Hs3; congruence].
      pose proof (same_counts_trans _ _ _ _ _ _ _ Hc1 Hc4) as Hc5.
      replace (Z.of_nat (length (body :: bodies))) with (1 + Z.of_nat (length bodies)) by (cbn [length]; lia). exact Hc5.
Qed.

(** A torn record ends the loop with an incomplete tail. *)
Lemma wp_checked_torn fuel b rr w c off body fr k (Q : result StreamError (option (option bytes)) -> RecoveryReader * World -> Prop) :
  context_wf c -> frame (limit (reader rr)) c body fr -> (0 < k < length fr)%nat -> recovery_at rr w c off (take k fr) ->
  (forall rr' w', same_disk w w' -> position (reader rr') = at_context c off -> incomplete_flag (reader rr') = true ->
     rec_failed rr' = false -> boundary_seen rr' = boundary_seen rr -> same_counts rr rr' 0 0 -> Q (Ok (Some None)) (rr', w')) ->
  wp (checked_loop (S fuel) b) Q (rr, w).
Proof.
  intros W F Hk [HR Hf Hc] HQ. cbn [checked_loop]. wp_step. pose proof (next_body_torn _ _ _ _ _ _ _ W F Hk HR) as HN.
  unfold wp at 1. unfold wp in HN. unfold on_reader. destruct (next_body (reader rr, w)) as [res [r' w']].
  cbn [fst snd] in HN. destruct HN as (Hd & Hsame & HN). destruct res as [[bd|]|e].
  - done.
  - destruct HN as (_ & _ & Hi & Hp). wp_step. apply HQ; try done. unfold same_counts. cbn. repeat split; try lia; apply Hsame.
  - destruct HN as [Hfa _]. by destruct (reliable_not_faulty M HM).
Qed.

(** The error of a log that ends before the boundary. *)
Definition short_error (rr : RecoveryReader) (c : Context) (off : Z) : StreamError :=
  StreamError.at_ (StreamError.Frame FrameError.CorruptIncomplete) (wal_name rr) (Some off)
    (checked_add (sequence c - 1) 1).

Lemma recover_short rr w c off bodies log c' torn b :
  chain (limit (reader rr)) c bodies log c' -> context_wf c -> sequence c' <= Position.sequence b -> sequence c' <= u64_max ->
  0 <= off -> off + zlen log <= u64_max -> off + zlen log < Position.offset b ->
  boundary_of rr = Some b -> boundary_seen rr = false -> recovery_at rr w c off (log ++ torn) ->
  (torn = [] \/ exists body fr k, frame (limit (reader rr)) c' body fr /\ (0 < k < length fr)%nat /\ torn = take k fr) ->
  wp recovery_next_body (fun res s => res = Err (short_error rr c' (off + zlen log)) /\ rec_failed (fst s) = true) (rr, w).
Proof.
  intros C W Hbs Hs Ho Hoff Hbo Hb Hseen HR Ht. eapply wp_recovery_next; [apply HR|apply HR|exact Hb|]. cbv zeta.
  destruct (drain_fuel_chain _ _ _ _ _ _ _ _ C W ltac:(lia) HR) as [fuel ->].
  eapply wp_checked_below; [exact C|done|done|done|exact Ho|lia|exact HR|]. intros rr1 w1 Hd HR1 W1 Hc1 Hs1.
  assert (Hend : forall rr2 w2, position (reader rr2) = at_context c' (off + zlen log) ->
    boundary_seen rr2 = boundary_seen rr1 -> same_counts rr1 rr2 0 0 ->
    wp (checked_end b) (fun res s => res = Err (short_error rr c' (off + zlen log))) (rr2, w2)).
  { intros rr2 w2 Hp Hs2 Hc2. pose proof (same_counts_trans _ _ _ _ _ _ _ Hc1 Hc2) as (_ & _ & _ & _ & Hsel & _).
    unfold checked_end, refuse_at, wal_name. do 2 wp_step. rewrite Hs2, Hs1, Hseen, Hp. cbn [negb Position.offset Position.sequence at_context].
    rewrite Hsel, (proj2 (Z.ltb_lt _ _)), (proj2 (Z.ltb_lt _ _)) by lia. cbn [andb].
    destruct (incomplete_tail (reader rr2)); by wp_step. }
  assert (Hfin : forall rr2 w2, position (reader rr2) = at_context c' (off + zlen log) ->
    boundary_seen rr2 = boundary_seen rr1 -> same_counts rr1 rr2 0 0 ->
    wp (checked_end b) (fun res s => match res with
      | Ok x => Ok x = Err (short_error rr c' (off + zlen log)) /\ rec_failed (fst s) = true
      | Err e => Err (A := option bytes) e = Err (short_error rr c' (off + zlen log)) /\ rec_failed (fst (set_rec_failed (fst s), snd s)) = true end) (rr2, w2)).
  { intros. eapply wp_mono; [by apply Hend|]. by intros res s ->. }
  destruct Ht as [->|(body & fr & k & F & Hk & ->)].
  - eapply wp_checked_stop; [exact HR1|]. intros. by apply Hfin.
  - destruct Hc1 as (? & ? & ? & Hl1 & ?). rewrite <- Hl1 in F.
    eapply wp_checked_torn; [done|exact F|exact Hk|exact HR1|]. intros. by apply Hfin.
Qed.
End Recovery.

(** ** Reopening *)

Section Reopen.
Context `{Machine}.

Lemma log_synced_release i j log w : log_synced i log w -> log_synced i log (modify j release_inode w).
Proof.
  intros (n & [Hn Hlt] & Hd & Hi & Hs). destruct (decide (i = j)) as [->|Hne].
  - exists (release_inode n). repeat split; try done. cbn. by rewrite lookup_alter_eq, Hn.
  - exists n. repeat split; try done. cbn. by rewrite lookup_alter_ne by done.
Qed.

Lemma wp_reopen_file name p w i n :
  names w !! name = Some i -> file_at i n w ->
  wp (reopen_file name p) (fun res w' => match res with
    | Ok h => h = {| inode := i; cursor := Z.to_nat (Position.offset p) |} /\ log_synced i (data n) w' /\
              zlen (data n) = Position.offset p
    | Err _ => True end) w.
Proof.
  intros Hn [Hf Hlt]. unfold reopen_file, persist, stream_io, open_write. wp_step. wp_step.
  apply (wp_open_existing _ i); [done|]. intros [h|e] w1 (Hi1 & Hn1 & _ & Hx1) Hh; cbn [map_err]; [|done]. subst h.
  do 2 wp_step. apply wp_call; [done|]. unfold wp at 1. cbn [inodes tick inode]. rewrite Hi1, Hf. cbn beta iota delta [map_err].
  wp_step. wp_step; [done|]. do 2 wp_step. apply wp_call; [done|]. unfold wp at 1. cbn beta iota delta [map_err ret]. do 2 wp_step.
  apply wp_call; [done|]. unfold wp at 1. cbn beta iota delta [map_err]. wp_step. bool_inv. split; [done|]. split; [|done].
  exists (sync_inode n). split; [|done]. split; cbn; [by rewrite Hi1, lookup_alter_eq, Hf|lia].
Qed.

(** A complete recovery yields a ready writer over the whole segment. *)
Lemma reopening_ready `{Blake3} `{Zstd} `{HashHex} lim rr w i n bodies c' :
  names w !! log_name (selected (reader rr)) = Some i -> file_at i n w ->
  chain lim (sel_context (selected (reader rr))) bodies (data n) c' ->
  position (reader rr) = at_context c' (zlen (data n)) ->
  wp (reopening_finish rr) (fun res w' => match res with
    | Ok s => wal_ready lim s bodies w' /\ wal_selected s = selected (reader rr) /\
              published (wal_progress s) = Some (position (reader rr)) /\ acknowledged (wal_progress s) = None
    | Err _ => True end) w.
Proof.
  intros Hn Hf C Hp. unfold reopening_finish, at_artifact, wp, bind, of_result, map_error, ret.
  destruct (recovery_finish rr) as [[]|e]; [|done].
  pose proof (wp_reopen_file _ (position (reader rr)) w i n Hn Hf) as HR. unfold wp in HR.
  destruct (reopen_file _ _ w) as [[h|e] w1]; cbn [map_err]; [|done]. destruct HR as (-> & Hl & Hz).
  split; [|done]. exists (data n), c'. cbn. split; [done|]. split; [by apply log_synced_release|].
  rewrite Hp. cbn. unfold zlen. rewrite Nat2Z.id. done.
Qed.
End Reopen.
