(* ===== verification/Durability.v ===== *)
(** End to end: commits, crashes, reading, recovery and reopening together. *)

From S2P Require Import Prelude Errors Externals Identity Frame Snapshot Disk StoreDirectory Control Selection Names Publication SelectProps Reader Stream Log Commit Reading Recovery RecoveryProps.
From coqutil Require Import Byte.

(** A fresh handle on the log file of a writer. *)
Definition log_handle (s : LogicalWal) : Handle := {| inode := inode (wal_file s); cursor := 0 |}.

(** What a reader of the log returns after a commit with outcome [r]: [old] the
    records before the commit, [new] those of its group. *)
Definition reader_finds (old new : list bytes) (r : result CommitFailure Position)
    (got : list bytes) (e : option (result StreamError unit)) (rd : LogicalReader) : Prop :=
  let exactly l := got = l /\ e = Some (Ok tt) /\ incomplete_tail rd = false in
  match r with
  | Ok p => exactly (old ++ new) /\ position rd = p
  | Err f =>
      match cf_durability f with
      | Committed => exactly (old ++ new)
      | Canceled => exactly old
      | Uncertain => old `prefix_of` got
      end
  end.

Section EndToEnd.
Context {M2 : Machine} `{Blake3Laws} `{ZstdLaws} `{HashHex} (HM : reliable M2).

(** A reader over an open log file is set up. *)
Lemma from_selection_ok h sel lim f w :
  file_at (inode h) f w -> cursor h = 0%nat -> openable (manifest_name sel) w ->
  exists rd w', from_selection h sel lim w = (Ok rd, w') /\
    reader_at rd w' (sel_context sel) 0 (data f) /\ limit rd = lim /\ selected rd = sel.
Proof.
  intros Hf Hc (Hv & i & n & Hx & Hn & Hr & Hl).
  assert (HO : wp (from_selection h sel lim) (fun res _ => exists rd, res = Ok rd) w).
  { unfold from_selection, at_artifact, persist, io, stream_io, open_read. do 3 wp_step.
    eapply wp_mono; [by eapply (yields_open HM)|]. intros res w1 [-> Hs]. cbn [map_err]. do 4 wp_step.
    apply (wp_reliable HM). unfold wp at 1. cbn beta iota delta [map_err]. do 4 wp_step. apply (wp_reliable HM).
    unfold wp at 1. cbn [inodes tick]. destruct Hf as [Hf _], Hs as (Hi & _).
    destruct (inodes (modify _ lease_inode _) !! inode h) as [f'|] eqn:Ef; cbn beta iota delta [map_err]; [wp_step; eauto|].
    cbn in Ef. rewrite Hi in Ef. by rewrite lookup_alter_None, Hf in Ef. }
  pose proof (wp_conj _ _ _ _ HO (wp_from_selection h sel lim f w Hf Hc)) as HW. unfold wp in HW.
  destruct (from_selection h sel lim w) as [res w']. destruct HW as [[rd ->] HR]. exists rd, w'. by split; [|apply HR].
Qed.

(** Reading a synchronized log after a crash. *)
Lemma read_after_crash lim sel i w w' bodies log c' :
  log_synced i log w -> crash w w' -> chain lim (sel_context sel) bodies log c' -> openable (manifest_name sel) w' ->
  context_wf (sel_context sel) -> sequence c' <= u64_max -> zlen log <= u64_max ->
  exists rd w3, from_selection {| inode := i; cursor := 0 |} sel lim w' = (Ok rd, w3) /\
    forall fuel, (length bodies < fuel)%nat ->
    exists rd' w4, read_all fuel (rd, w3) = (bodies, Some (Ok tt), (rd', w4)) /\
      incomplete_tail rd' = false /\ position rd' = at_context c' (zlen log).
Proof.
  intros Hl HC C HO W Hs Hz. destruct (log_synced_crash _ _ _ _ Hl HC) as (n & Hf & Hd).
  destruct (from_selection_ok {| inode := i; cursor := 0 |} sel lim n w' Hf eq_refl HO) as (rd & w3 & E & HA & Hlim & Hsel).
  exists rd, w3. split; [done|]. intros fuel Hfuel. rewrite Hd in HA. rewrite <- Hlim in C.
  destruct (read_all_exact rd w3 _ bodies log c' (fuel - S (length bodies)) HA C W Hs Hz)
    as [Hfa|(rd' & w4 & ER & Hp & Hi & _)]; [by destruct (reliable_not_faulty M2 HM)|].
  replace (length bodies + S (fuel - S (length bodies)))%nat with fuel in ER by lia. by exists rd', w4.
Qed.

(** Reading a log with a synchronized prefix after a crash. *)
Lemma read_prefix_after_crash lim sel i w w' bodies log c' :
  log_prefix i log w -> crash w w' -> chain lim (sel_context sel) bodies log c' -> openable (manifest_name sel) w' ->
  context_wf (sel_context sel) -> sequence c' <= u64_max -> zlen log <= u64_max ->
  exists rd w3, from_selection {| inode := i; cursor := 0 |} sel lim w' = (Ok rd, w3) /\
    forall fuel, (length bodies < fuel)%nat ->
    exists got e s, read_all fuel (rd, w3) = (got, e, s) /\ bodies `prefix_of` got.
Proof.
  intros Hl HC C HO W Hs Hz. destruct (log_prefix_crash _ _ _ _ Hl HC) as (n & tail & Hf & Hd).
  destruct (from_selection_ok {| inode := i; cursor := 0 |} sel lim n w' Hf eq_refl HO) as (rd & w3 & E & HA & Hlim & Hsel).
  exists rd, w3. split; [done|]. intros fuel Hfuel. rewrite Hd in HA. rewrite <- Hlim in C.
  destruct (read_all_prefix rd w3 _ bodies log c' tail (fuel - length bodies) HA C W Hs Hz)
    as (got & e & s & ER & [Hp|(Hfa & _)]); [|by destruct (reliable_not_faulty M2 HM)].
  replace (length bodies + (fuel - length bodies))%nat with fuel in ER by lia. by exists got, e, s.
Qed.
End EndToEnd.

(** Without faults a complete recovery reopens the log. *)
Lemma reopening_returns {M : Machine} (HM : reliable M) `{HashHex} rr w i n :
  names w !! log_name (selected (reader rr)) = Some i -> file_at i n w ->
  openable (log_name (selected (reader rr))) w -> recovery_finish rr = Ok tt ->
  Position.offset (position (reader rr)) = zlen (data n) ->
  exists s w', reopening_finish rr w = (Ok s, w').
Proof.
  intros Hi [Hf _] (Hv & j & m & Hj & Hm & Hr & Hl) HF Hz. rewrite Hi in Hj. injection Hj as <-. rewrite Hf in Hm. injection Hm as <-.
  assert (HR : wp (reopen_file (log_name (selected (reader rr))) (position (reader rr))) (fun res _ => exists h, res = Ok h) w).
  { unfold reopen_file, persist, stream_io, open_write. do 2 wp_step. eapply wp_mono; [by eapply (yields_open HM)|].
    intros res w1 [-> (Hi1 & _)]. cbn [map_err]. do 2 wp_step. apply (wp_reliable HM). unfold wp at 1. cbn [inodes tick inode].
    rewrite Hi1, Hf. cbn beta iota delta [map_err]. wp_step. wp_step.
    { cbn in *. rewrite Hz, Z.eqb_refl in *. done. }
    do 2 wp_step. apply (wp_reliable HM). unfold wp at 1. cbn beta iota delta [map_err ret]. do 2 wp_step.
    apply (wp_reliable HM). unfold wp at 1. cbn beta iota delta [map_err]. wp_step. eauto. }
  unfold reopening_finish, at_artifact, wp, bind, of_result, map_error, ret in *. rewrite HF.
  destruct (reopen_file _ _ w) as [res w1]. destruct HR as [h ->]. cbn [map_err]. eauto.
Qed.

(** ** Properties *)

(** C1: a commit tells the truth about every later crash.  Take any commit on a
    ready writer, with any I/O errors, cancellations and panics, and any crash
    after it.  Opening a reader on the log then, without further I/O errors,
    succeeds, and the reader returns
    exactly the records the outcome promises: the old and the new ones after
    a success or a [Committed] failure, the old ones alone after a [Canceled]
    one, and at least the old ones, first and in order, after an [Uncertain]
    one.  The sequence numbers stay below [u64::MAX]; [last_sequence_unreadable] is
    what happens there. *)
Theorem commit_then_crash `{M1 : Machine} (M2 : Machine) `{Blake3Laws} `{ZstdLaws} `{HashHex}
    limit limit' s bodies w bodies' comp group canceled publish r s' w' w'' :
  reliable M2 -> wal_ready limit s bodies w -> limit' <= limit -> limit <= MAX_PAYLOAD ->
  prepare s bodies' comp limit' = Ok group ->
  @commit M1 group canceled publish (s, w) = Some (r, (s', w')) -> crash w' w'' ->
  context_wf (sel_context (wal_selected s)) ->
  sequence (sel_context (wal_selected s)) + Z.of_nat (length (bodies ++ bodies')) <= u64_max ->
  openable (manifest_name (wal_selected s)) w'' ->
  exists rd w3, @from_selection M2 _ (log_handle s) (wal_selected s) limit w'' = (Ok rd, w3) /\
    forall fuel, (length (bodies ++ bodies') < fuel)%nat ->
    exists got e rd' w4, @read_all M2 _ _ _ fuel (rd, w3) = (got, e, (rd', w4)) /\ reader_finds bodies bodies' r got e rd'.
Proof.
  intros HM HR Hle Hmax P E HC W Hseq HO.
  destruct (commit_total (H := M1) _ _ _ _ _ _ _ _ canceled publish HR Hle Hmax P)
    as (r1 & s1 & w1 & log & log' & [c c'] & candidate & E' & O & C & C' & Hp & Hl & Hl').
  rewrite E in E'. injection E' as <- <- <-. cbn [fst snd] in *.
  pose proof (chain_sequence _ _ _ _ _ C). pose proof (chain_sequence _ _ _ _ _ C'). rewrite length_app in *.
  assert (HE : forall l lg cc, log_synced (inode (wal_file s)) lg w' -> chain limit (sel_context (wal_selected s)) l lg cc ->
    (length l <= length bodies + length bodies')%nat -> sequence cc <= u64_max -> zlen lg <= u64_max ->
    reader_finds bodies bodies' r = (fun got e rd => got = l /\ e = Some (Ok tt) /\ incomplete_tail rd = false) \/
    (reader_finds bodies bodies' r = (fun got e rd => (got = l /\ e = Some (Ok tt) /\ incomplete_tail rd = false) /\
       position rd = at_context cc (zlen lg))) ->
    exists rd w3, @from_selection M2 _ (log_handle s) (wal_selected s) limit w'' = (Ok rd, w3) /\
      forall fuel, (length bodies + length bodies' < fuel)%nat ->
      exists got e rd' w4, @read_all M2 _ _ _ fuel (rd, w3) = (got, e, (rd', w4)) /\ reader_finds bodies bodies' r got e rd').
  { intros l lg cc Hlog Cl Hll Hsl Hzl HF. destruct (read_after_crash HM _ _ _ _ _ _ _ _ Hlog HC Cl HO W Hsl Hzl) as (rd & w3 & ES & HRd).
    exists rd, w3. split; [done|]. intros fuel Hfuel. destruct (HRd fuel ltac:(lia)) as (rd' & w4 & ER & Hi & Hpos).
    exists l, (Some (Ok tt)), rd', w4. split; [done|]. by destruct HF as [-> | ->]. }
  destruct O as [a w' (Hs & Hf & Hpub & Hack)|w' ? Hg|s' w' ph ? ? Hg ? Hsel Hi|s' w' ph ? ? ? Hg ? Hsel Hi|a w' ph ? Hs];
    try (destruct Hs as (? & Hsel & Hfile & Hwr & Hsy & Hg)).
  - apply (HE _ _ _ Hg C'); [by rewrite length_app|lia|lia|right; by rewrite Hp].
  - apply (HE _ _ _ Hg C); [lia|lia|lia|by left].
  - apply (HE _ _ _ Hg C); [lia|lia|lia|by left].
  - destruct (read_prefix_after_crash HM _ _ _ _ _ _ _ _ Hg HC C HO W ltac:(lia) ltac:(lia)) as (rd & w3 & ES & HRd).
    exists rd, w3. split; [done|]. intros fuel Hfuel. destruct (HRd fuel ltac:(lia)) as (got & e & [rd' w4] & ER & Hpre).
    by exists got, e, rd', w4.
  - apply (HE _ _ _ Hg C'); [by rewrite length_app|lia|lia|by left].
Qed.

(** C40: the last sequence number is written but never read.  A record that is
    committed when all sequence numbers before [u64::MAX] are used gets that number
    and is acknowledged; after any crash, and without any I/O error, a reader of the
    log returns the records before it and then fails with "sequence exhausted".  The
    record is durable and lost to recovery. *)
Theorem last_sequence_unreadable `{M1 : Machine} (M2 : Machine) `{Blake3Laws} `{ZstdLaws} `{HashHex}
    limit limit' s bodies w body comp group canceled publish p s' w' w'' :
  reliable M2 -> wal_ready limit s bodies w -> limit' <= limit -> limit <= MAX_PAYLOAD ->
  prepare s [body] comp limit' = Ok group ->
  @commit M1 group canceled publish (s, w) = Some (Ok p, (s', w')) -> crash w' w'' ->
  context_wf (sel_context (wal_selected s)) ->
  sequence (sel_context (wal_selected s)) + Z.of_nat (length bodies) = u64_max ->
  openable (manifest_name (wal_selected s)) w'' ->
  Position.sequence p = u64_max /\
  exists rd w3, @from_selection M2 _ (log_handle s) (wal_selected s) limit w'' = (Ok rd, w3) /\
    forall fuel, (length bodies < fuel)%nat ->
    exists off s4, @read_all M2 _ _ _ fuel (rd, w3) =
      (bodies, Some (Err (StreamError.at_ (StreamError.Protocol "sequence exhausted") (log_name (wal_selected s)) (Some off) (Some u64_max))), s4).
Proof.
  intros HM HR Hle Hmax P E HC W Hseq HO.
  destruct (commit_total (H := M1) _ _ _ _ _ _ _ _ canceled publish HR Hle Hmax P)
    as (r1 & s1 & w1 & log & log' & [c c'] & candidate & E' & O & _ & C' & Hp & Hl & _).
  rewrite E in E'. injection E' as <- <- <-. cbn [fst snd] in *. pose proof (chain_sequence _ _ _ _ _ C') as Hcs. rewrite length_app in Hcs. cbn in Hcs.
  inversion O as [a w0 (Hs & _)| | | |]; subst. destruct Hs as (_ & _ & _ & _ & _ & Hg). split; [cbn; lia|].
  destruct (chain_snoc_inv _ _ _ _ _ _ C') as (log1 & c1 & fr & C1 & F & ->). pose proof (chain_sequence _ _ _ _ _ C1) as Hc1.
  destruct (log_synced_crash _ _ _ _ Hg HC) as (n & Hf & Hd).
  destruct (from_selection_ok HM (log_handle s) (wal_selected s) limit n w'' Hf eq_refl HO) as (rd & w3 & ES & HA & Hlim & Hsel).
  exists rd, w3. split; [done|]. intros fuel Hfuel. rewrite Hd, <- (app_nil_r fr) in HA. rewrite <- Hlim in C1, F.
  rewrite zlen_app in Hl. pose proof (zlen_nonneg fr).
  destruct (read_all_last rd w3 _ bodies log1 c1 body fr [] (fuel - S (length bodies)) HA C1 F W ltac:(lia) ltac:(lia)) as [Hfa|[s4 ER]];
    [by destruct (reliable_not_faulty M2 HM)|].
  replace (length bodies + S (fuel - S (length bodies)))%nat with fuel in ER by lia. rewrite Hsel in ER. by exists (zlen log1), s4.
Qed.

(** The snapshot descriptor of a selection covers the first records of its log:
    the records [pre] of a log that starts in context [c] and continues in [cb]
    after [log], or none of a rotated segment. *)
Definition covers (sel : Selected) (d : SnapshotDescriptor) (c : Context) (pre : list bytes) (log : bytes) (cb : Context) : Prop :=
  (sel_rotation sel = None /\ SnapshotDescriptor.boundary d = at_context cb (zlen log)) \/
  (is_Some (sel_rotation sel) /\ pre = [] /\ Position.sequence (SnapshotDescriptor.boundary d) = sequence c - 1).

(** C8: recovery replays exactly what the snapshot does not cover.  For a log
    whose records up to the snapshot boundary are [pre] and after it [suf], a
    recovery reader without I/O errors returns [suf], in order, then ends
    complete at the last record, having counted the records of [pre] and
    [suf]; with the snapshot read, [finish] accepts. *)
Theorem recovery_returns_suffix `{M : Machine} `{Blake3Laws} `{ZstdLaws} `{HashHex} r w rr w1 d c pre log cb suf log' c' :
  reliable M -> reader_at r w c 0 (log ++ log') -> sel_checkpoint (selected r) = Some d -> covers (selected r) d c pre log cb ->
  chain (limit r) c pre log cb -> chain (limit r) cb suf log' c' -> context_wf c ->
  sequence c' <= u64_max -> zlen (log ++ log') <= u64_max -> from_reader r w = (Ok rr, w1) ->
  exists rr' w', recover_all (S (length suf)) (rr, w1) = (suf, Some (Ok tt), (rr', w')) /\
    prefix_records rr' = Z.of_nat (length pre) /\ suffix_records rr' = Z.of_nat (length suf) /\
    position (reader rr') = at_context c' (zlen (log ++ log')) /\
    recovery_finish (set_snapshot_read rr') = Ok tt.
Proof.
  intros HM HR Hd HV C C' W Hs Hz E. unfold from_reader in E. rewrite Hd in E. injection E as <- <-. rewrite zlen_app in *.
  match goal with |- context [recover_all _ (?rr, _)] => set (rr0 := rr) end.
  destruct (recover_chain HM rr0 w c 0 pre log cb suf log' c' (SnapshotDescriptor.boundary d))
    as (rr' & w' & ER & Hc & Hf & Hp & Hk & Hk' & _); try done; try lia.
  - change (boundary_of rr0) with (boundary <$> snapshot_context (selected r)). unfold snapshot_context. by rewrite Hd.
  - intros Hne. by destruct HV as [[_ ->]|(_ & -> & _)].
  - intros ->. subst rr0. cbn. rewrite (ra_position _ _ _ _ _ HR). inversion C; subst. destruct HV as [[_ Hb]|(Hrot & _ & Hb)].
    + rewrite Hb. rewrite bool_decide_eq_true_2 by done. cbn. split; [done|lia].
    + rewrite (bool_decide_eq_true_2 _ Hrot), orb_true_r. split; [done|lia].
  - exists rr', w'. split; [exact ER|]. split; [done|]. split; [done|]. split; [exact Hp|].
    unfold recovery_finish. cbn. by rewrite Hc, Hf.
Qed.

(** C19: a log that has lost covered records is refused.  When the log ends,
    cleanly or inside a record, before the boundary of the selected snapshot,
    recovery returns no record at all: it fails with [CorruptIncomplete] at the
    end of the last complete record, and every later call fails. *)
Theorem recovery_rejects_short `{M : Machine} `{Blake3Laws} `{ZstdLaws} `{HashHex} r w rr w1 d c bodies log c' torn :
  reliable M -> reader_at r w c 0 (log ++ torn) -> sel_checkpoint (selected r) = Some d -> sel_rotation (selected r) = None ->
  chain (limit r) c bodies log c' -> context_wf c -> sequence c' <= u64_max -> zlen log <= u64_max ->
  sequence c' <= Position.sequence (SnapshotDescriptor.boundary d) -> zlen log < Position.offset (SnapshotDescriptor.boundary d) ->
  (torn = [] \/ exists body fr k, frame (limit r) c' body fr /\ (0 < k < length fr)%nat /\ torn = take k fr) ->
  from_reader r w = (Ok rr, w1) ->
  exists s s', recovery_next_body (rr, w1) = (Err (short_error rr c' (zlen log)), s) /\
    recovery_next_body s = (Err StreamError.Terminated, s').
Proof.
  intros HM HR Hd Hrot C W Hs Hz Hbs Hbo Ht E. unfold from_reader in E. rewrite Hd, Hrot in E. injection E as <- <-.
  match goal with |- context [recovery_next_body (?rr, _)] => set (rr0 := rr) end.
  assert (HN : wp recovery_next_body (fun res s => res = Err (short_error rr0 c' (0 + zlen log)) /\ rec_failed (fst s) = true) (rr0, w)).
  { eapply (recover_short HM rr0 w c 0 bodies log c' torn (SnapshotDescriptor.boundary d)); try done.
    - change (boundary_of rr0) with (boundary <$> snapshot_context (selected r)). unfold snapshot_context. by rewrite Hd.
    - subst rr0. cbn. rewrite (ra_position _ _ _ _ _ HR), bool_decide_eq_false_2; [done|]. intros Hb. rewrite Hb in Hbo. cbn in Hbo.
      pose proof (zlen_nonneg log). lia. }
  unfold wp in HN. destruct (recovery_next_body (rr0, w)) as [res [rr' w']]. destruct HN as [-> Hf].
  exists (rr', w'), (rr', w'). split; [done|]. unfold recovery_next_body, bind, get. cbn in *. by rewrite Hf.
Qed.

(** C20: reopening restores the writer.  After a complete recovery of a log of
    [bodies], [ReopeningWal::finish] either fails or returns a writer that is
    ready with exactly these records, synchronized and published at the
    recovered position, with nothing acknowledged.  Without I/O errors it
    returns one. *)
Theorem reopen_ready `{Machine} `{Blake3} `{Zstd} `{HashHex} lim rr w i n bodies c' :
  names w !! log_name (selected (reader rr)) = Some i -> file_at i n w ->
  chain lim (sel_context (selected (reader rr))) bodies (data n) c' ->
  position (reader rr) = at_context c' (zlen (data n)) ->
  wp (reopening_finish rr) (fun res w' => match res with
    | Ok s => wal_ready lim s bodies w' /\ wal_selected s = selected (reader rr) /\
              published (wal_progress s) = Some (position (reader rr)) /\ acknowledged (wal_progress s) = None
    | Err _ => True end) w /\
  (reliable H -> openable (log_name (selected (reader rr))) w -> recovery_finish rr = Ok tt ->
   exists s w', reopening_finish rr w = (Ok s, w')).
Proof.
  intros Hn Hf C Hp. split; [by eapply reopening_ready|]. intros HM HO HF. eapply (reopening_returns HM); [done..|].
  by rewrite Hp.
Qed.
