(* ===== verification/Scenario.v ===== *)
(** A concrete store, on which the theorems of the development apply.

    Concrete codecs, machines, a selection with its control files, and a log.
    The lemmas at the end apply each theorem that has hypotheses to this store. *)

From Stdlib Require Import Ascii.
From S2P Require Import Prelude Errors Externals Identity Frame Wire Snapshot Disk StoreDirectory Control Selection Names Publication SelectProps Reader Stream Log Commit Reading Maintenance PruneProps Recovery RecoveryProps Durability.
From coqutil Require Import Byte.

(** ** Codecs *)

Module ToyCodec.

(** Values of a finite table, written as their index. *)
Definition table_codec {A} `{EqDecision A} (l : list A) : Postcard A := {|
  to_stdvec a := match list_find (a =.) l with
                 | Some (i, _) => if (i <? 256)%nat then Some [byte.of_Z (Z.of_nat i)] else None
                 | None => None
                 end;
  take_from_bytes b := match b with
                       | [] => None
                       | x :: rest => match l !! Z.to_nat (u8 x) with Some a => Some (a, rest) | None => None end
                       end
|}.

Lemma table_codec_laws {A} `{EqDecision A} (l : list A) : @PostcardLaws A (table_codec l).
Proof.
  intros a b rest. unfold to_stdvec, take_from_bytes, table_codec.
  destruct (list_find _ l) as [[i a']|] eqn:E; [|done]. destruct (i <? 256)%nat eqn:Hi; [|done].
  apply Nat.ltb_lt in Hi. intros [= <-]. apply list_find_Some in E as (Hl & <- & _). cbn [app].
  replace (Z.to_nat (u8 (byte.of_Z (Z.of_nat i)))) with i; [by rewrite Hl|].
  unfold u8. rewrite byte.unsigned_of_Z. unfold byte.wrap. rewrite Z.mod_small by lia. by rewrite Nat2Z.id.
Qed.

(** Envelopes: the magic, the version, the body with its length, the digest. *)
Definition envelope_toy : Postcard Codec.Envelope := {|
  to_stdvec e :=
    if (length (Codec.magic e) =? 4)%nat && (0 <=? Codec.version e) && (Codec.version e <? 65536)
       && (zlen (Codec.body e) <? 65536) && (length (Codec.digest e) =? 32)%nat
    then Some (Codec.magic e ++ to_le 2 (Codec.version e) ++ to_le 2 (zlen (Codec.body e)) ++ Codec.digest e ++ Codec.body e)
    else None;
  take_from_bytes b :=
    let n := Z.to_nat (of_le (slice 6 8 b)) in
    if (40 + n <=? length b)%nat then
      Some ({| Codec.magic := slice 0 4 b; Codec.version := of_le (slice 4 6 b); Codec.body := slice 40 (40 + n) b;
               Codec.digest := slice 8 40 b |}, drop (40 + n) b)
    else None
|}.

Lemma envelope_toy_laws : @Codec.EnvelopeLaws envelope_toy.
Proof.
  split.
  - intros [m v body dg] b rest. unfold to_stdvec, take_from_bytes, envelope_toy.
    cbn [Codec.magic Codec.version Codec.body Codec.digest].
    destruct ((length m =? 4)%nat && _ && _ && _ && _) eqn:E; [|done]. rewrite !andb_true_iff, !Nat.eqb_eq in E.
    destruct E as ((((Hm & Hv0) & Hv) & Hb) & Hd). apply Z.leb_le in Hv0. apply Z.ltb_lt in Hv, Hb. intros E%(inj Some). subst b.
    pose proof (zlen_nonneg body). rewrite <- !app_assoc.
    assert (Hn : Z.to_nat (of_le (slice 6 8 (m ++ to_le 2 v ++ to_le 2 (zlen body) ++ dg ++ body ++ rest))) = length body).
    { rewrite (slice_skip _ _ 4), (slice_skip _ _ 2), slice_here' by (rewrite ?length_to_le; auto; lia).
      rewrite of_to_le by (cbn; lia). unfold zlen. lia. }
    cbv zeta. rewrite Hn. rewrite !length_app, !length_to_le, Hm, Hd. rewrite (proj2 (Nat.leb_le _ _)) by lia. do 2 f_equal.
    + set (l := m ++ _).
      assert (H1 : slice 0 4 l = m) by (by apply slice_here).
      assert (H2 : of_le (slice 4 6 l) = v).
      { unfold l. rewrite (slice_skip _ _ 4), slice_here' by (rewrite ?length_to_le; auto; lia). apply of_to_le. cbn. lia. }
      assert (H3 : slice 8 40 l = dg).
      { unfold l. rewrite (slice_skip _ _ 4), (slice_skip _ _ 2), (slice_skip _ _ 2) by (rewrite ?length_to_le; auto; lia).
        by apply slice_here'. }
      assert (H4 : slice 40 (40 + length body) l = body).
      { unfold l. rewrite (slice_skip _ _ 4), (slice_skip _ _ 2), (slice_skip _ _ 2), (slice_skip _ _ 32)
          by (rewrite ?length_to_le; auto; lia). apply slice_here'. lia. }
      by rewrite H1, H2, H3, H4.
    + rewrite !app_assoc. apply drop_app_length'. rewrite !length_app, !length_to_le. lia.
  - intros [m v body dg] b Hm. unfold to_stdvec, envelope_toy. cbn [Codec.magic] in *.
    destruct (_ && _); [|done]. intros [= <-]. rewrite take_app_le by lia. apply take_ge. lia.
  - intros b e rest. unfold take_from_bytes, envelope_toy. destruct (_ <=? _)%nat; [|done]. intros [= <- _]. cbn [Codec.magic].
    by rewrite slice_take.
Qed.

(** Hexadecimal texts. *)
Definition hex_digit (n : Z) : ascii := ascii_of_N (Z.to_N (if n <? 10 then 48 + n else 87 + n)).
Definition hex_byte (b : byte) : list ascii := [hex_digit (u8 b / 16); hex_digit (u8 b mod 16)].
Definition hex_toy : HashHex := fun b => String.string_of_list_ascii (concat (map hex_byte b)).

Lemma hex_byte_chars b : Forall (fun c => is_hex_char c = true) (hex_byte b).
Proof. destruct b; repeat constructor. Qed.

Definition unhex (c d : ascii) : Z :=
  let n c := let k := Z.of_nat (nat_of_ascii c) in if k <? 58 then k - 48 else k - 87 in 16 * n c + n d.

Lemma unhex_hex b : exists c d, hex_byte b = [c; d] /\ byte.of_Z (unhex c d) = b.
Proof. do 2 eexists. split; [reflexivity|]. destruct b; vm_compute; reflexivity. Qed.

Lemma hex_byte_inj a b : hex_byte a = hex_byte b -> a = b.
Proof.
  destruct (unhex_hex a) as (c & d & Ha & <-), (unhex_hex b) as (c' & d' & Hb & <-). rewrite Ha, Hb. by intros [= -> ->].
Qed.

Lemma hex_concat_inj a b : concat (map hex_byte a) = concat (map hex_byte b) -> a = b.
Proof.
  revert b. induction a as [|x a IH]; intros [|y b] E; try done. cbn [map concat] in E.
  apply app_inj_1 in E as [E1 E2]; [|done]. f_equal; [by apply hex_byte_inj|by apply IH].
Qed.

Lemma hex_length l : String.length (String.string_of_list_ascii (concat (map hex_byte l))) = (2 * length l)%nat.
Proof. induction l as [|x l IH]; [done|]. cbn [map concat hex_byte app String.string_of_list_ascii String.length length]. lia. Qed.

Lemma hex_chars l : Forall (fun c => is_hex_char c = true) (concat (map hex_byte l)).
Proof. induction l as [|x l IH]; [constructor|]. cbn [map concat]. apply Forall_app. split; [apply hex_byte_chars|done]. Qed.

Lemma hex_toy_laws : @HashHexLaws hex_toy.
Proof.
  split; unfold to_hex, hex_toy.
  - intros a b _ _ E. apply hex_concat_inj. apply (f_equal String.list_ascii_of_string) in E.
    by rewrite !String.list_ascii_of_string_of_list_ascii in E.
  - intros a Ha. by rewrite hex_length, Ha.
  - intros a _. rewrite String.list_ascii_of_string_of_list_ascii. apply hex_chars.
Qed.

Definition uuid_toy : UuidText := {|
  uuid_display := hex_toy;
  uuid_parse_ok s := (String.length s =? 32)%nat && LegacyProbe.all_chars is_hex_char s
|}.

Lemma uuid_toy_laws : @UuidLaws uuid_toy.
Proof.
  assert (HC : forall u, Forall (fun c => is_hex_char c = true) (String.list_ascii_of_string (hex_toy u))).
  { intros u. unfold hex_toy. rewrite String.list_ascii_of_string_of_list_ascii. apply hex_chars. }
  split; unfold uuid_display, uuid_parse_ok, uuid_toy; intros u Hu.
  - apply andb_true_iff. split; [|by apply all_chars_Forall]. unfold hex_toy. by rewrite hex_length, Hu.
  - eapply Forall_impl; [apply HC|]. by left.
Qed.
End ToyCodec.

(** ** Machines *)

Module ToyMachine.

(** Random numbers count the calls; a listing is in the order of the map. *)
Definition machine (outcome : nat -> option nat) : Machine := {|
  Disk.outcome := outcome;
  new_v4 n := to_le 16 (Z.of_nat n);
  readdir d := (map_to_list d).*1
|}.

Lemma machine_laws outcome : @MachineLaws (machine outcome).
Proof.
  split.
  - intros d name. cbn. rewrite list_elem_of_fmap. split.
    + intros ([x i] & -> & Hx%elem_of_map_to_list). by eexists.
    + intros [i Hi]. exists (name, i). by rewrite elem_of_map_to_list.
  - intros n. apply length_to_le.
Qed.

(** No faults; and one fault, in call [k], after its effect. *)
Definition good : Machine := machine (fun _ => None).
Definition fault_at (k : nat) : Machine := machine (fun n => if (n =? k)%nat then Some 1%nat else None).

Lemma good_reliable : reliable good.
Proof. done. Qed.
End ToyMachine.

(** ** A store *)

Module Store.
Import FrameExample.
#[export] Instance hex_instance : HashHex := ToyCodec.hex_toy.
#[export] Instance uuid_instance : UuidText := ToyCodec.uuid_toy.
#[export] Instance uuid_laws : UuidLaws := ToyCodec.uuid_toy_laws.
#[export] Instance hex_laws : HashHexLaws := ToyCodec.hex_toy_laws.
#[local] Instance envelope_instance : Postcard Codec.Envelope := ToyCodec.envelope_toy.
#[local] Instance LogicalManifest_eq_dec : EqDecision LogicalManifest.
Proof. solve_decision. Defined.
#[local] Instance DataManifest_eq_dec : EqDecision DataManifest.
Proof. solve_decision. Defined.
#[local] Instance RotatingManifest_eq_dec : EqDecision RotatingManifest.
Proof. solve_decision. Defined.

Definition identity : CompatibilityIdentity := {|
  profile := ascii_bytes "core"; profile_version := 1; profile_hash := replicate 32 x01;
  unicode_version := [15; 1; 0]; collation := ascii_bytes "root"; collation_version := 1 |}.

Definition metadata (generation : Z) (parent : bytes) : EmptyManifest := {|
  em_store_id := Frame.store c; em_epoch := 1; em_generation := generation; em_format := [2; 0];
  em_identity := identity; em_parent := Some {| parent_generation := generation - 1; parent_digest := parent |} |}.

Definition ok_bytes (r : result PersistError bytes) : bytes := match r with Ok b => b | Err _ => [] end.

(** The first selection: an empty log. *)
Definition manifest_old : LogicalManifest := {|
  lm_metadata := metadata 2 (replicate 32 x07); lm_segment := replicate 32 x0a |}.
Definition bytes_old : bytes :=
  Eval vm_compute in
  ok_bytes (Codec.encode (H1 := ToyCodec.table_codec [manifest_old]) manifest_old (ascii_bytes "SLLM")).
Definition old : CurrentSelector := Eval vm_compute in from_manifest (lm_metadata manifest_old) (blake3 bytes_old).

(** A manifest of an interrupted publication, which nothing selects. *)
Definition manifest_abandoned : LogicalManifest := {|
  lm_metadata := metadata 4 (replicate 32 x08); lm_segment := replicate 32 x0a |}.
Definition bytes_abandoned : bytes :=
  Eval vm_compute in
  ok_bytes (Codec.encode (H1 := ToyCodec.table_codec [manifest_old; manifest_abandoned]) manifest_abandoned (ascii_bytes "SLLM")).

(** The second one: a checkpoint before the first record. *)
Definition manifest_new : DataManifest := {|
  dm_metadata := metadata 3 (cs_digest old); dm_segment := replicate 32 x0a; dm_origin := cs_digest old;
  dm_snapshot := {|
    SnapshotDescriptor.name := snapshot_name 3; SnapshotDescriptor.bytes := 300; SnapshotDescriptor.digest := replicate 32 x05;
    SnapshotDescriptor.boundary := {|
      Position.store := Frame.store c; Position.epoch := 1; Position.segment := replicate 32 x0a;
      Position.sequence := 0; Position.offset := 0; Position.digest := cs_digest old |};
    SnapshotDescriptor.publication := 1 |} |}.
Definition bytes_new : bytes :=
  Eval vm_compute in
  ok_bytes (Codec.encode (H1 := ToyCodec.table_codec [manifest_new]) manifest_new (ascii_bytes "SLDM")).
Definition new : CurrentSelector := Eval vm_compute in from_manifest (dm_metadata manifest_new) (blake3 bytes_new).

(** A rotation when all sequence numbers but the last are used. *)
Definition rotated_at : Position := {|
  Position.store := Frame.store c; Position.epoch := 1; Position.segment := replicate 32 x0a;
  Position.sequence := u64_max - 1; Position.offset := 4096; Position.digest := replicate 32 x0c |}.
Definition manifest_last : RotatingManifest := {|
  rm_metadata := metadata 3 (cs_digest old);
  rm_snapshot := {|
    SnapshotDescriptor.name := snapshot_name 3; SnapshotDescriptor.bytes := 300; SnapshotDescriptor.digest := replicate 32 x05;
    SnapshotDescriptor.boundary := rotated_at; SnapshotDescriptor.publication := 1 |};
  rm_rotation := {|
    rot_base := {|
      Position.store := Frame.store c; Position.epoch := 1; Position.segment := replicate 32 x0d;
      Position.sequence := u64_max - 1; Position.offset := 0; Position.digest := replicate 32 x0d |};
    rot_snapshot_base := {|
      Position.store := Frame.store c; Position.epoch := 1; Position.segment := replicate 32 x0a;
      Position.sequence := 0; Position.offset := 0; Position.digest := cs_digest old |};
    rot_previous := {| pr_selector := old; pr_end := rotated_at |} |} |}.
Definition bytes_last : bytes :=
  Eval vm_compute in
  ok_bytes (Codec.encode (H1 := ToyCodec.table_codec [manifest_last]) manifest_last (ascii_bytes "SLRM")).
Definition last_root : CurrentSelector := Eval vm_compute in from_manifest (rm_metadata manifest_last) (blake3 bytes_last).

#[export] Instance control_codecs_toy : ControlCodecs := {|
  envelope_codec := ToyCodec.envelope_toy;
  manifest_codec := ToyCodec.table_codec [];
  selector_codec := ToyCodec.table_codec [old; new; last_root] |}.
#[export] Instance codecs : LogicalCodecs := {|
  control_codecs := control_codecs_toy;
  logical_codec := ToyCodec.table_codec [manifest_old; manifest_abandoned];
  data_codec := ToyCodec.table_codec [manifest_new];
  rotating_codec := ToyCodec.table_codec [manifest_last] |}.
#[export] Instance codecs_laws : LogicalCodecsLaws.
Proof.
  split; [split|..]; try apply ToyCodec.table_codec_laws. apply ToyCodec.envelope_toy_laws.
Qed.

Definition current_old : bytes := Eval vm_compute in ok_bytes (selector_encode old).
Definition current_new : bytes := Eval vm_compute in ok_bytes (selector_encode new).
Definition current_last : bytes := Eval vm_compute in ok_bytes (selector_encode last_root).

(** The selections that opening the store derives from them. *)
Definition selected_old : Selected := {|
  sel_metadata := lm_metadata manifest_old; sel_selector := old; sel_context := context_of manifest_old old;
  sel_checkpoint := None; sel_rotation := None |}.
Definition selected_new : Selected := {|
  sel_metadata := dm_metadata manifest_new; sel_selector := new; sel_context := context_of manifest_old old;
  sel_checkpoint := Some (dm_snapshot manifest_new); sel_rotation := None |}.

Definition clean (b : bytes) : Inode := {|
  data := b; intact := length b; dirty := false; regular := true; single_link := true; leases := 0; locked := false |}.

(** The files of the first selection, all synchronized, with the log [log]. *)
Definition directory : Directory :=
  <[CURRENT_FILE_NAME := 0%nat]> (<[cs_manifest_name old := 1%nat]> (<[LOG_NAME := 2%nat]>
    (<[STORE_LOCK_FILE_NAME := 3%nat]> (<[MANIFEST_LOCK_FILE_NAME := 4%nat]> ∅)))).

Definition disk (log : bytes) : World := {|
  inodes := <[0%nat := clean current_old]> (<[1%nat := clean bytes_old]> (<[2%nat := clean log]>
              (<[3%nat := clean []]> (<[4%nat := clean []]> ∅))));
  names := directory; history := [directory]; next_inode := 5; clock := 0 |}.

Lemma disk_ok log : world_ok (disk log).
Proof.
  split; [by left|]. intros d x i Hd Hx. apply list_elem_of_singleton in Hd as ->. cbn [disk inodes next_inode]. unfold directory in Hx. 
  repeat (apply lookup_insert_Some in Hx as [[<- <-]|[_ Hx]];
    [split; [lia|split; [|eexists; split; [reflexivity|done]]]|]); [..|done].
  2: { change (cs_manifest_name old) with (ManifestGeneration.name 2). apply manifest_recognised. unfold u64_max. lia. }
  all: apply fixed_recognised; by repeat first [left; reflexivity | right].
Qed.

Lemma disk_entry log x i n :
  directory !! x = Some i -> inodes (disk log) !! i = Some n -> dirty n = false -> entry (eq (Some (data n))) x (disk log).
Proof. intros Hx Hn Hc d ->%list_elem_of_singleton. rewrite Hx. by exists n. Qed.

(** A crash may leave the disk as it is. *)
Lemma crash_refl w : bool_decide (names w ∈ history w) = true -> crash w w.
Proof.
  intros Hn%bool_decide_eq_true. split; [by exists (names w)|]. split; [|by split; [intros i n ->|]].
  intros i n Hi. exists n. split; [done|]. by split.
Qed.
End Store.

Import FrameExample Store.

(** ** Witnesses *)

Lemma store_names_recognised_witness :
  Forall recognised
    [CURRENT_FILE_NAME; LOG_NAME; STORE_LOCK_FILE_NAME; MANIFEST_LOCK_FILE_NAME;
     ManifestGeneration.name 7; snapshot_name 7; rotated_log_name (replicate 32 x0a);
     ".control." +:+ uuid_display (replicate 16 xab) +:+ ".tmp"; ".snapshot." +:+ uuid_display (replicate 16 xab) +:+ ".tmp"].
Proof. apply (store_names_recognised 7 (replicate 32 x0a) (replicate 16 xab)); [unfold u64_max; lia|done..]. Defined.

(** Call 16 renames CURRENT: it takes effect but reports an error. *)
Definition torn_run : result PersistError unit * World :=
  publish_bytes (H := ToyMachine.fault_at 16) bytes_new new false (disk []).

Lemma torn_result : fst torn_run = Err (PControl (PublicationUncertain (PIo IoOther))).
Proof. vm_compute. reflexivity. Qed.
Lemma torn_crash : crash (snd torn_run) (snd torn_run).
Proof. apply crash_refl. vm_compute. reflexivity. Qed.
Lemma torn_listing : (Z.of_nat (length (readdir (Machine := ToyMachine.good) (names (snd torn_run)))) <=? u64_max) = true.
Proof. vm_compute. reflexivity. Qed.

Lemma publish_then_crash_witness :
  exists sel w3, select_in (H := ToyMachine.good) identity (snd torn_run) = (Ok sel, w3) /\
    match fst torn_run with
    | Ok _ => sel = selected_new
    | Err (PControl (PublicationUncertain _)) => sel = selected_old \/ sel = selected_new
    | Err _ => sel = selected_old
    end.
Proof.
  apply (publish_then_crash (M1 := ToyMachine.fault_at 16) (M2 := ToyMachine.good)
    (MachineLaws0 := ToyMachine.machine_laws _) (MachineLaws1 := ToyMachine.machine_laws _)
    identity old current_old bytes_old selected_old new current_new bytes_new selected_new false (disk [])
    (fst torn_run) (snd torn_run) (snd torn_run) ToyMachine.good_reliable (disk_ok [])).
  - reflexivity.
  - vm_compute; reflexivity.
  - vm_compute; reflexivity.
  - vm_compute; congruence.
  - by apply (disk_entry [] _ 0%nat (clean current_old)).
  - by apply (disk_entry [] _ 1%nat (clean bytes_old)).
  - vm_compute; reflexivity.
  - vm_compute; reflexivity.
  - vm_compute; congruence.
  - cbn; lia.
  - cbn; unfold u64_max; lia.
  - apply surjective_pairing.
  - exact torn_crash.
  - apply Z.leb_le. exact torn_listing.
Defined.

(** *** Selecting and pruning *)

Lemma opens_old log : opens (disk log) identity selected_old.
Proof.
  exists current_old, old. split; [reflexivity|]. split; [vm_compute; congruence|]. split; [vm_compute; reflexivity|].
  exists bytes_old. split; [reflexivity|]. split; [vm_compute; congruence|vm_compute; reflexivity].
Qed.

Lemma disk_tidy : tidy (disk []).
Proof. apply (tidy_crash (disk [])); [apply disk_ok|]. apply crash_refl. vm_compute. reflexivity. Qed.

Lemma identity_texts : label_text (profile identity) /\ label_text (collation identity).
Proof. split; apply label_text_spec; vm_compute; reflexivity. Qed.

Lemma select_in_refines_witness :
  (forall r w', select_in (H := ToyMachine.fault_at 3) identity (disk []) = (r, w') ->
     same_disk (disk []) w' /\ forall x, r = Ok x -> stands_at (disk []) identity x) /\
  exists w', select_in (H := ToyMachine.good) identity (disk []) = (Ok selected_old, w') /\ same_disk (disk []) w'.
Proof.
  split.
  - apply (select_in_refines (M := ToyMachine.fault_at 3) (H := ToyMachine.machine_laws _) identity (disk []));
      [exact disk_tidy|vm_compute; congruence|apply identity_texts|apply identity_texts].
  - apply (select_in_refines (M := ToyMachine.good) (H := ToyMachine.machine_laws _) identity (disk []));
      [exact disk_tidy|vm_compute; congruence|apply identity_texts|apply identity_texts|exact ToyMachine.good_reliable|apply opens_stands, opens_old].
Defined.

(** The store with the abandoned manifest. *)
Definition cluttered : World := {|
  inodes := <[5%nat := clean bytes_abandoned]> (inodes (disk []));
  names := <[ManifestGeneration.name 4 := 5%nat]> directory; history := [<[ManifestGeneration.name 4 := 5%nat]> directory];
  next_inode := 6; clock := 0 |}.

(** Pruning removes exactly that manifest. *)
Lemma pruned_report :
  match fst (prune (H := ToyMachine.good) selected_old cluttered) with
  | Ok r => bool_decide (map ab_name (pr_removed r) = [ManifestGeneration.name 4])
  | Err _ => false
  end = true.
Proof. vm_compute. reflexivity. Qed.

Lemma prune_safe_witness :
  keeps_entry LOG_NAME cluttered (snd (prune (H := ToyMachine.good) selected_old cluttered)).
Proof.
  pose proof (prune_safe (H := ToyMachine.good) (H0 := ToyMachine.machine_laws _) selected_old cluttered) as HP.
  unfold wp in HP. destruct (prune _ _) as [r w']. apply HP. right. exists selected_old. split; [|by right; left].
  apply live_selected; [|cbn; unfold u64_max; lia].
  exists current_old, old. split; [reflexivity|]. split; [vm_compute; congruence|]. split; [vm_compute; reflexivity|].
  exists bytes_old. split; [reflexivity|]. split; [vm_compute; congruence|vm_compute; reflexivity].
Defined.

(** *** Commits *)

(** A writer over an empty log, and a group of two records. *)
Definition writer : LogicalWal := {|
  wal_file := {| inode := 2; cursor := 0 |};
  wal_progress := {| written := base selected_old; synchronized := base selected_old; published := None; acknowledged := None |};
  wal_fenced := false; wal_selected := selected_old |}.

Definition bodies : list bytes := [ascii_bytes "graph delta"; ascii_bytes "another"].
Definition group : PreparedGroup :=
  match prepare writer bodies Raw MAX_PAYLOAD with Ok g => g | Err _ => {| pg_base := base selected_old; pg_frames := [] |} end.
Definition publishing : PublishCall := {| marks := true; publish_end := Returns (Ok tt) |}.

Lemma writer_ready : wal_ready MAX_PAYLOAD writer [] (disk []).
Proof.
  exists [], (sel_context selected_old). split; [constructor|]. split.
  - exists (clean []). split; [|done]. split; [reflexivity|cbn; lia].
  - done.
Qed.

Lemma writer_context : context_wf (sel_context (wal_selected writer)).
Proof. by split. Qed.
Lemma writer_sequence :
  Frame.sequence (sel_context (wal_selected writer)) + Z.of_nat (length ([] ++ bodies)) <= u64_max.
Proof. vm_compute. congruence. Qed.

Lemma prepared : prepare writer bodies Raw MAX_PAYLOAD = Ok group.
Proof. vm_compute. reflexivity. Qed.

(** Call 5 writes the first record; it fails after one byte and is rolled back. *)
Abbreviation failed_commit := (commit (H := ToyMachine.fault_at 5) group (fun _ => Returns false) publishing (writer, disk [])).
Abbreviation good_commit := (commit (H := ToyMachine.good) group (fun _ => Returns false) publishing (writer, disk [])).

Lemma commit_durability_witness :
  exists r s' w', failed_commit = Some (r, (s', w')) /\
    wal_selected s' = wal_selected writer /\
    match r with
    | Ok p => wal_ready MAX_PAYLOAD s' ([] ++ bodies) w' /\ p = synchronized (wal_progress s')
    | Err f =>
        (wal_fenced s' = true \/ cf_durability f = Canceled /\ wal_ready MAX_PAYLOAD s' [] w') /\
        match cf_durability f with
        | Committed => durable MAX_PAYLOAD s' ([] ++ bodies) w'
        | Canceled => durable MAX_PAYLOAD s' [] w'
        | Uncertain => durable_prefix MAX_PAYLOAD s' [] w'
        end
    end.
Proof.
  exact (commit_durability (H := ToyMachine.fault_at 5) MAX_PAYLOAD MAX_PAYLOAD writer [] (disk []) bodies Raw group
    (fun _ => Returns false) publishing writer_ready (Z.le_refl _) (Z.le_refl _) prepared).
Defined.

Lemma failed_is_err : match failed_commit with Some (Err _, _) => true | _ => false end = true.
Proof. vm_compute. reflexivity. Qed.
Lemma good_is_ok : match good_commit with Some (Ok _, _) => true | _ => false end = true.
Proof. vm_compute. reflexivity. Qed.

Lemma commit_phases_witness :
  match failed_commit with
  | Some (Err f, (s', w')) =>
      cf_progress f = wal_progress s' /\
      acknowledged (wal_progress s') = acknowledged (wal_progress writer) /\
      (published (wal_progress s') <> published (wal_progress writer) -> cf_phase f = Acknowledge) /\
      (cf_durability f = Committed <-> cf_phase f = Publish \/ cf_phase f = Acknowledge) /\
      (cf_durability f = Uncertain <-> is_Some (cf_cleanup f)) /\
      (cf_phase f = Prepare -> s' = writer /\ cf_durability f = Canceled) /\
      (cf_phase f <> Prepare -> wal_fenced s' = true)
  | _ => False
  end.
Proof.
  pose proof failed_is_err as HE. destruct failed_commit as [[[p|f] [s' w']]|] eqn:E; [discriminate HE| |discriminate HE].
  exact (commit_phases (H := ToyMachine.fault_at 5) MAX_PAYLOAD MAX_PAYLOAD writer [] (disk []) bodies Raw group
    (fun _ => Returns false) publishing f s' w' writer_ready (Z.le_refl _) (Z.le_refl _) prepared E).
Defined.

(** The successful commit, a crash, and a reader. *)
Definition world_of {A B} (o : option (A * (B * World))) : World := match o with Some (_, (_, w)) => w | None => disk [] end.
Definition crashed : World := world_of good_commit.

Lemma crashed_crash : crash crashed crashed.
Proof. apply crash_refl. vm_compute. reflexivity. Qed.

Lemma crashed_openable : openable (manifest_name (wal_selected writer)) crashed.
Proof.
  split; [vm_compute; reflexivity|]. exists 1%nat, (clean bytes_old). split; [vm_compute; reflexivity|]. split; [vm_compute; reflexivity|done].
Qed.

Lemma commit_then_crash_witness :
  match good_commit with
  | Some (r, (s', w')) =>
      exists rd w3, from_selection (H := ToyMachine.good) (log_handle writer) (wal_selected writer) MAX_PAYLOAD w' = (Ok rd, w3) /\
        forall fuel, (length ([] ++ bodies) < fuel)%nat ->
        exists got e rd' w4, read_all (H := ToyMachine.good) fuel (rd, w3) = (got, e, (rd', w4)) /\
          reader_finds [] bodies r got e rd'
  | None => False
  end.
Proof.
  pose proof good_is_ok as HE. destruct good_commit as [[r [s' w']]|] eqn:E; [|discriminate HE].
  assert (w' = crashed) as -> by (unfold crashed; by rewrite E).
  apply (commit_then_crash (M1 := ToyMachine.good) ToyMachine.good MAX_PAYLOAD MAX_PAYLOAD writer [] (disk []) bodies Raw group
    (fun _ => Returns false) publishing r s' crashed crashed ToyMachine.good_reliable writer_ready (Z.le_refl _) (Z.le_refl _)
    prepared E crashed_crash);
    [exact writer_context|exact writer_sequence|exact crashed_openable].
Defined.

(** *** Reading *)

(** The two records as frames, and the contexts between them. *)
Definition ok_frame (r : result FrameError bytes) : bytes := match r with Ok b => b | Err _ => [] end.
Definition c1 : Context := sel_context selected_old.
Definition frame1 : bytes := Eval vm_compute in ok_frame (encode (ascii_bytes "graph delta") c1 Raw MAX_PAYLOAD).
Definition c2 : Context := next_context c1 frame1.
Definition frame2 : bytes := Eval vm_compute in ok_frame (encode (ascii_bytes "another") c2 Raw MAX_PAYLOAD).
Definition c3 : Context := next_context c2 frame2.

Lemma c1_wf : context_wf c1.
Proof. exact writer_context. Qed.

Lemma chain1 : chain MAX_PAYLOAD c1 [ascii_bytes "graph delta"] (frame1 ++ []) c2.
Proof. apply chain_cons; [|constructor]. exists Raw. vm_compute. reflexivity. Qed.
Lemma chain2 : chain MAX_PAYLOAD c2 [ascii_bytes "another"] (frame2 ++ []) c3.
Proof. apply chain_cons; [|constructor]. exists Raw. vm_compute. reflexivity. Qed.

(** A reader of the log [log] under the selection [s]. *)
Definition reader_of (s : Selected) (log : bytes) : LogicalReader := {|
  file := {| inode := 2; cursor := 0 |}; rest := zlen log; context := sel_context s; limit := MAX_PAYLOAD;
  ended := false; failed := false; incomplete_flag := false; position := base s; selected := s;
  lease := {| inode := 1; cursor := 0 |}; captured_bytes := zlen log; last_record_offset := 0 |}.

Lemma reader_of_at s log : reader_at (reader_of s log) (disk log) (sel_context s) 0 log.
Proof.
  split; try reflexivity. exists (clean log). split; [reflexivity|]. split; [|reflexivity]. cbn.
  unfold zlen. rewrite Nat2Z.id, drop_0. by apply take_ge.
Qed.

Definition log12 : bytes := (frame1 ++ []) ++ frame2 ++ [].

(** A machine where call 3 fails. *)
Lemma read_committed_witness :
  exists got e s, read_all (H := ToyMachine.fault_at 3) (1 + 5) (reader_of selected_old log12, disk log12) = (got, e, s) /\
    ([ascii_bytes "graph delta"] `prefix_of` got \/
     faulty (H := ToyMachine.fault_at 3) /\ got `prefix_of` [ascii_bytes "graph delta"] /\ exists err, e = Some (Err err)).
Proof.
  apply (read_committed (H := ToyMachine.fault_at 3) (reader_of selected_old log12) (disk log12) c1 [ascii_bytes "graph delta"]
    (frame1 ++ []) c2 (frame2 ++ []) 5 (reader_of_at selected_old log12) chain1 c1_wf); vm_compute; congruence.
Defined.

(** The second record is cut after 20 bytes. *)
Definition torn_log : bytes := (frame1 ++ []) ++ take 20 (frame2 ++ []).

Lemma read_torn_witness :
  faulty (H := ToyMachine.good) \/
  exists j log1 c' r' w', chain MAX_PAYLOAD c2 (take j [ascii_bytes "another"]) log1 c' /\
    log1 `prefix_of` take 20 (frame2 ++ []) /\
    read_all (H := ToyMachine.good) 4 (reader_of selected_old torn_log, disk torn_log)
      = ([ascii_bytes "graph delta"] ++ take j [ascii_bytes "another"], Some (Ok tt), (r', w')) /\
    incomplete_tail r' = negb (bool_decide (log1 = take 20 (frame2 ++ []))) /\
    position r' = at_context c' (zlen ((frame1 ++ []) ++ log1)).
Proof.
  apply (read_torn (H := ToyMachine.good) (reader_of selected_old torn_log) (disk torn_log) c1 [ascii_bytes "graph delta"]
    (frame1 ++ []) c2 [ascii_bytes "another"] (frame2 ++ []) c3 20 4 (reader_of_at selected_old torn_log) chain1 chain2 c1_wf);
    [vm_compute; congruence..|cbn; lia].
Defined.

Lemma reading_terminates_witness :
  wp (next_body (H := ToyMachine.good)) (fun res _ => forall n o e, res <> Err (StreamError.at_ no_progress n o e))
    (reader_of selected_old log12, disk log12) /\
  forall A (visit : Position -> A -> A) acc,
    wp (drain (H := ToyMachine.good) (drain_fuel (reader_of selected_old log12)) visit acc) (fun res _ => res <> Ok None)
      (reader_of selected_old log12, disk log12).
Proof. exact (reading_terminates (H := ToyMachine.good) _ _ log12 (ra_sees _ _ _ _ _ (reader_of_at selected_old log12))). Defined.

(** *** Recovery *)

(** A checkpoint that covers the first record. *)
Definition descriptor : SnapshotDescriptor := {|
  SnapshotDescriptor.name := snapshot_name 3; SnapshotDescriptor.bytes := 300; SnapshotDescriptor.digest := replicate 32 x05;
  SnapshotDescriptor.boundary := at_context c2 (zlen (frame1 ++ [])); SnapshotDescriptor.publication := 1 |}.
Definition checkpointed : Selected := {|
  sel_metadata := lm_metadata manifest_old; sel_selector := old; sel_context := c1;
  sel_checkpoint := Some descriptor; sel_rotation := None |}.
Definition recovering (log : bytes) : RecoveryReader := {|
  reader := reader_of checkpointed log; boundary_seen := false; complete := false; rec_failed := false;
  snapshot_read := false; prefix_records := 0; suffix_records := 0 |}.

Lemma recovering_from log :
  from_reader (reader_of checkpointed log) (disk log) = (Ok (recovering log), disk log).
Proof. reflexivity. Qed.

Lemma recovery_returns_suffix_witness :
  exists rr' w', recover_all (M := ToyMachine.good) 2 (recovering log12, disk log12) = ([ascii_bytes "another"], Some (Ok tt), (rr', w')) /\
    prefix_records rr' = 1 /\ suffix_records rr' = 1 /\
    position (reader rr') = at_context c3 (zlen ((frame1 ++ []) ++ frame2 ++ [])) /\
    recovery_finish (set_snapshot_read rr') = Ok tt.
Proof.
  apply (recovery_returns_suffix (M := ToyMachine.good) (reader_of checkpointed log12) (disk log12) (recovering log12) (disk log12)
    descriptor c1 [ascii_bytes "graph delta"] (frame1 ++ []) c2 [ascii_bytes "another"] (frame2 ++ []) c3
    ToyMachine.good_reliable (reader_of_at checkpointed log12) eq_refl); [by left|exact chain1|exact chain2|exact c1_wf|..|reflexivity];
    vm_compute; congruence.
Defined.

(** The log ends inside the covered record. *)
Definition short_log : bytes := [] ++ take 100 frame1.

Lemma recovery_rejects_short_witness :
  exists s s', recovery_next_body (H := ToyMachine.good) (recovering short_log, disk short_log)
      = (Err (short_error (recovering short_log) c1 (zlen ([] : bytes))), s) /\
    recovery_next_body (H := ToyMachine.good) s = (Err StreamError.Terminated, s').
Proof.
  apply (recovery_rejects_short (M := ToyMachine.good) (reader_of checkpointed short_log) (disk short_log) (recovering short_log)
    (disk short_log) descriptor c1 [] [] c1 (take 100 frame1) ToyMachine.good_reliable (reader_of_at checkpointed short_log));
    [reflexivity|reflexivity|constructor|exact c1_wf|vm_compute; congruence..| |reflexivity].
  right. exists (ascii_bytes "graph delta"), frame1, 100%nat. split; [exists Raw; vm_compute; reflexivity|]. split; [vm_compute; lia|reflexivity].
Defined.

Definition recovered : RecoveryReader := {|
  reader := set_position (at_context c3 (zlen log12)) (reader_of checkpointed log12); boundary_seen := true; complete := true;
  rec_failed := false; snapshot_read := true; prefix_records := 1; suffix_records := 1 |}.

Lemma reopen_ready_witness :
  wp (reopening_finish (H := ToyMachine.good) recovered) (fun res w' => match res with
    | Ok s => wal_ready MAX_PAYLOAD s ([ascii_bytes "graph delta"] ++ [ascii_bytes "another"]) w' /\
              wal_selected s = selected (reader recovered) /\
              published (wal_progress s) = Some (position (reader recovered)) /\ acknowledged (wal_progress s) = None
    | Err _ => True end) (disk log12) /\
  exists s w', reopening_finish (H := ToyMachine.good) recovered (disk log12) = (Ok s, w').
Proof.
  destruct (reopen_ready (H := ToyMachine.good) MAX_PAYLOAD recovered (disk log12) 2 (clean log12)
    ([ascii_bytes "graph delta"] ++ [ascii_bytes "another"]) c3) as [HW HL];
    [reflexivity|split; [reflexivity|cbn; lia]|exact (chain_app _ _ _ _ _ _ _ _ chain1 chain2)|reflexivity|].
  split; [exact HW|]. apply HL; [exact ToyMachine.good_reliable| |reflexivity].
  split; [vm_compute; reflexivity|]. exists 2%nat, (clean log12). repeat split.
Defined.

(** *** The last sequence number *)

(** A rotated store whose log continues at the last sequence number. *)
Definition last_selected : Selected := {|
  sel_metadata := rm_metadata manifest_last; sel_selector := last_root;
  sel_context := {| store := Frame.store c; epoch := 1; segment := replicate 32 x0d; sequence := u64_max; previous := replicate 32 x0d |};
  sel_checkpoint := Some (rm_snapshot manifest_last); sel_rotation := Some (rm_rotation manifest_last) |}.
Definition last_directory : Directory :=
  <[CURRENT_FILE_NAME := 0%nat]> (<[cs_manifest_name last_root := 1%nat]> (<[log_name last_selected := 2%nat]>
    (<[STORE_LOCK_FILE_NAME := 3%nat]> (<[MANIFEST_LOCK_FILE_NAME := 4%nat]> ∅)))).
Definition last_disk : World := {|
  inodes := <[0%nat := clean current_last]> (<[1%nat := clean bytes_last]> (inodes (disk [])));
  names := last_directory; history := [last_directory]; next_inode := 5; clock := 0 |}.
Definition last_writer : LogicalWal := {|
  wal_file := {| inode := 2; cursor := 0 |};
  wal_progress := {| written := base last_selected; synchronized := base last_selected; published := None; acknowledged := None |};
  wal_fenced := false; wal_selected := last_selected |}.

(** Selecting on this store gives that selection. *)
Lemma last_select : fst (select_in (H := ToyMachine.good) identity last_disk) = Ok last_selected.
Proof. vm_compute. reflexivity. Qed.

Definition last_group : PreparedGroup :=
  match prepare last_writer [ascii_bytes "last"] Raw MAX_PAYLOAD with Ok g => g | Err _ => {| pg_base := base last_selected; pg_frames := [] |} end.
Abbreviation last_commit := (commit (H := ToyMachine.good) last_group (fun _ => Returns false) publishing (last_writer, last_disk)).
Definition last_crashed : World := world_of last_commit.

Lemma last_ready : wal_ready MAX_PAYLOAD last_writer [] last_disk.
Proof.
  exists [], (sel_context last_selected). split; [constructor|]. split; [|done].
  exists (clean []). split; [|done]. split; [reflexivity|cbn; lia].
Qed.
Lemma last_prepared : prepare last_writer [ascii_bytes "last"] Raw MAX_PAYLOAD = Ok last_group.
Proof. vm_compute. reflexivity. Qed.
Lemma last_context : context_wf (sel_context (wal_selected last_writer)).
Proof. by split. Qed.
Lemma last_number : Frame.sequence (sel_context (wal_selected last_writer)) + Z.of_nat (length ([] : list bytes)) = u64_max.
Proof. vm_compute. reflexivity. Qed.
Lemma last_is_ok : match last_commit with Some (Ok _, _) => true | _ => false end = true.
Proof. vm_compute. reflexivity. Qed.
Lemma last_crash : crash last_crashed last_crashed.
Proof. apply crash_refl. vm_compute. reflexivity. Qed.
Lemma last_openable : openable (manifest_name (wal_selected last_writer)) last_crashed.
Proof.
  split; [vm_compute; reflexivity|]. exists 1%nat, (clean bytes_last). split; [vm_compute; reflexivity|]. split; [vm_compute; reflexivity|done].
Qed.

Lemma last_sequence_unreadable_witness :
  match last_commit with
  | Some (Ok p, (s', w')) =>
      Position.sequence p = u64_max /\
      exists rd w3, from_selection (H := ToyMachine.good) (log_handle last_writer) (wal_selected last_writer) MAX_PAYLOAD w' = (Ok rd, w3) /\
        forall fuel, (length ([] : list bytes) < fuel)%nat -> exists off s4, read_all (H := ToyMachine.good) fuel (rd, w3) =
          ([], Some (Err (StreamError.at_ (StreamError.Protocol "sequence exhausted") (log_name (wal_selected last_writer)) (Some off) (Some u64_max))), s4)
  | _ => False
  end.
Proof.
  pose proof last_is_ok as HE. destruct last_commit as [[[p|f] [s' w']]|] eqn:E; [|discriminate HE..].
  assert (w' = last_crashed) as -> by (unfold last_crashed; by rewrite E).
  apply (last_sequence_unreadable (M1 := ToyMachine.good) ToyMachine.good MAX_PAYLOAD MAX_PAYLOAD last_writer [] last_disk (ascii_bytes "last") Raw last_group
    (fun _ => Returns false) publishing p s' last_crashed last_crashed ToyMachine.good_reliable last_ready (Z.le_refl _) (Z.le_refl _)
    last_prepared E last_crash last_context last_number last_openable).
Defined.
