(* ===== verification/Ordered.v ===== *)
(** Ordered strings and slices.

    The order of [DbString] (lexicographic on UTF-8 bytes), and what the code
    uses of the slices of the standard library: [windows], [binary_search_by]
    with the probes it makes, stable sorting and removal of repeated elements.
    [Section Keyed] relates them on slices with strictly ascending keys. *)

From Stdlib Require Import Sorting.Sorted.
From S2P Require Import Prelude.
From coqutil Require Import Byte.

#[export] Instance byte_countable : Countable byte := inj_countable Stdlib.Strings.Byte.to_nat Stdlib.Strings.Byte.of_nat Stdlib.Strings.Byte.of_to_nat.

(** ** The order of strings *)

(** [str::cmp]. *)
Fixpoint bytes_compare (a b : bytes) : comparison :=
  match a, b with
  | [], [] => Eq
  | [], _ :: _ => Lt
  | _ :: _, [] => Gt
  | x :: a, y :: b => match u8 x ?= u8 y with Eq => bytes_compare a b | c => c end
  end.

Definition bytes_ltb (a b : bytes) : bool := match bytes_compare a b with Lt => true | _ => false end.
Definition bytes_leb (a b : bytes) : bool := match bytes_compare a b with Gt => false | _ => true end.
Definition bytes_lt (a b : bytes) : Prop := bytes_compare a b = Lt.

Lemma bytes_compare_refl a : bytes_compare a a = Eq.
Proof. induction a as [|x a IH]; cbn; [done|]. by rewrite Z.compare_refl. Qed.

Lemma bytes_compare_eq a b : bytes_compare a b = Eq <-> a = b.
Proof.
  split; [|intros ->; apply bytes_compare_refl]. revert b. induction a as [|x a IH]; intros [|y b]; cbn; try done.
  destruct (Z.compare_spec (u8 x) (u8 y)) as [E| |]; try done. intros Hab%IH. subst b. f_equal. by apply u8_inj.
Qed.

Lemma bytes_compare_opp a b : bytes_compare b a = CompOpp (bytes_compare a b).
Proof.
  revert b. induction a as [|x a IH]; intros [|y b]; cbn; try done.
  rewrite Z.compare_antisym. by destruct (u8 x ?= u8 y); cbn.
Qed.

#[export] Instance bytes_lt_trans : Transitive bytes_lt.
Proof.
  intros a. unfold bytes_lt. induction a as [|x a IH]; intros [|y b] [|z c]; cbn; try done.
  destruct (Z.compare_spec (u8 x) (u8 y)) as [E1|E1|], (Z.compare_spec (u8 y) (u8 z)) as [E2|E2|]; try done;
    destruct (Z.compare_spec (u8 x) (u8 z)); try (done || lia). apply IH.
Qed.
#[export] Instance bytes_lt_irrefl : Irreflexive bytes_lt.
Proof. intros a. unfold complement, bytes_lt. by rewrite bytes_compare_refl. Qed.
#[export] Instance bytes_lt_dec a b : Decision (bytes_lt a b).
Proof. unfold bytes_lt. apply _. Defined.

Lemma bytes_ltb_lt a b : bytes_ltb a b = true <-> bytes_lt a b.
Proof. unfold bytes_ltb, bytes_lt. by destruct (bytes_compare a b). Qed.

Lemma bytes_leb_lt a b : bytes_leb a b = negb (bytes_ltb b a).
Proof. unfold bytes_leb, bytes_ltb. rewrite bytes_compare_opp. by destruct (bytes_compare b a). Qed.

Lemma bytes_lt_neq a b : bytes_lt a b -> a <> b.
Proof. intros Hl ->. by apply bytes_lt_irrefl in Hl. Qed.

Lemma bytes_not_lt a b : ~ bytes_lt a b -> ~ bytes_lt b a -> a = b.
Proof.
  unfold bytes_lt. rewrite (bytes_compare_opp a b). intros H1 H2. apply bytes_compare_eq. by destruct (bytes_compare a b).
Qed.

Lemma bytes_compare_Gt a b : bytes_compare a b = Gt <-> bytes_lt b a.
Proof. unfold bytes_lt. rewrite (bytes_compare_opp a b). by destruct (bytes_compare a b). Qed.

(** ** Vectors *)

(** [Vec::insert] and [Vec::remove] at an index in range. *)
Definition insert_at {A} (i : nat) (x : A) (l : list A) : list A := take i l ++ x :: drop i l.
Definition remove_at {A} (i : nat) (l : list A) : list A := take i l ++ drop (S i) l.

Lemma insert_at_middle {A} (x : A) l1 l2 : insert_at (length l1) x (l1 ++ l2) = l1 ++ x :: l2.
Proof. unfold insert_at. by rewrite take_app_length, drop_app_length. Qed.
Lemma remove_at_middle {A} (x : A) l1 l2 : remove_at (length l1) (l1 ++ x :: l2) = l1 ++ l2.
Proof. unfold remove_at. rewrite take_app_length. f_equal. induction l1; cbn; [apply drop_0|done]. Qed.

Lemma insert_middle {A} (x y : A) l1 l2 : <[length l1 := y]> (l1 ++ x :: l2) = l1 ++ y :: l2.
Proof. by rewrite insert_app_r_alt, Nat.sub_diag. Qed.

(** ** Searching *)

(** [slice::binary_search_by]; [probe] compares an element with the key.  The loop
    halves the size, so the length of the slice is enough fuel. *)
Section Search.
Context {A : Type} (probe : A -> comparison) (l : list A).

Fixpoint search_loop (fuel base size : nat) : nat :=
  match fuel with
  | O => base
  | S fuel =>
      if (size <=? 1)%nat then base else
      let half := (size / 2)%nat in
      let mid := (base + half)%nat in
      let base := match probe <$> l !! mid with Some Gt => base | _ => mid end in
      search_loop fuel base (size - half)
  end.

(** [Ok] is the index of an equal element, [Err] the index to insert at. *)
Definition binary_search_by : result nat nat :=
  match l with
  | [] => Err 0%nat
  | _ =>
      let base := search_loop (length l) 0 (length l) in
      match probe <$> l !! base with
      | Some Eq => Ok base
      | Some Lt => Err (S base)
      | _ => Err base
      end
  end.

(** The probes of an ascending slice: less, then at most one equal, then greater. *)
Definition probes_ascend : Prop :=
  forall i j x y, (i < j)%nat -> l !! i = Some x -> l !! j = Some y -> probe y <> Gt -> probe x = Lt.

Hypothesis Hasc : probes_ascend.

Definition bracket (base size : nat) : Prop :=
  (1 <= size)%nat /\ (base + size <= length l)%nat /\
  (forall j x, (base + size <= j)%nat -> l !! j = Some x -> probe x = Gt) /\
  (forall x, l !! base = Some x -> base = 0%nat \/ probe x <> Gt).

Lemma search_loop_bracket fuel base size :
  (size <= fuel)%nat -> bracket base size -> bracket (search_loop fuel base size) 1.
Proof.
  revert base size. induction fuel as [|fuel IH]; intros base size Hf HB; cbn [search_loop].
  { destruct HB. lia. }
  destruct (Nat.leb_spec size 1) as [H1|H1]; [by replace 1%nat with size by (destruct HB; lia)|].
  assert (Hh : (1 <= size / 2 /\ 2 * (size / 2) <= size)%nat).
  { pose proof (Nat.Div0.mul_div_le size 2). split; [|done]. by apply (Nat.Div0.div_le_mono 2 size 2). }
  apply IH; [lia|]. revert Hh. generalize (size / 2)%nat as half. intros half Hh.
  destruct HB as (_ & Hb & Hr & H0). destruct (l !! (base + half)%nat) as [x|] eqn:Hx; cbn;
    [|apply lookup_ge_None in Hx; lia].
  destruct (probe x) eqn:Hp.
  - split; [lia|]. split; [lia|]. split; [intros j y Hj; apply Hr; lia|]. intros y Hy. right. congruence.
  - split; [lia|]. split; [lia|]. split; [intros j y Hj; apply Hr; lia|]. intros y Hy. right. congruence.
  - split; [lia|]. split; [lia|]. split; [|done]. intros j y Hj Hy.
    destruct (decide (j = (base + half)%nat)) as [->|]; [congruence|].
    destruct (probe y) eqn:Hq; [..|done]; exfalso;
      (rewrite (Hasc (base + half)%nat j x y ltac:(lia) Hx Hy) in Hp by congruence; done).
Qed.

Lemma binary_search_spec :
  match binary_search_by with
  | Ok i => exists x, l !! i = Some x /\ probe x = Eq
  | Err i => (i <= length l)%nat /\ (forall j x, (j < i)%nat -> l !! j = Some x -> probe x = Lt) /\
             (forall j x, (i <= j)%nat -> l !! j = Some x -> probe x = Gt)
  end.
Proof.
  unfold binary_search_by. destruct l as [|a l'] eqn:El.
  { split; [done|]. by split; intros j x _; rewrite lookup_nil. }
  rewrite <- El in *.
  assert (HB : bracket (search_loop (length l) 0 (length l)) 1).
  { apply search_loop_bracket; [done|]. split; [rewrite El; cbn; lia|]. split; [lia|]. split; [|auto].
    intros j x Hj Hx. apply lookup_lt_Some in Hx. lia. }
  revert HB. generalize (search_loop (length l) 0 (length l)) as base. intros base (_ & Hb & Hr & H0).
  destruct (l !! base) as [x|] eqn:Hx; cbn; [|apply lookup_ge_None in Hx; lia].
  destruct (probe x) eqn:Hp.
  - by exists x.
  - split; [lia|]. split; [|intros j y Hj; apply Hr; lia]. intros j y Hj Hy.
    destruct (decide (j = base)) as [->|]; [congruence|]. apply (Hasc j base y x); [lia|done..|congruence].
  - split; [lia|]. destruct (H0 x eq_refl) as [->|?]; [|done]. split; [lia|]. intros j y Hj Hy.
    destruct (decide (j = 0%nat)) as [->|]; [congruence|]. apply (Hr j y); [lia|done].
Qed.
End Search.

(** ** Slices with ascending keys *)

Section Keyed.
Context {A : Type} (key : A -> bytes).

(** [l.windows(2).all(|p| p[0] < p[1])] on the keys. *)
Fixpoint ascending (l : list A) : bool :=
  match l with
  | x :: ((y :: _) as t) => bytes_ltb (key x) (key y) && ascending t
  | _ => true
  end.

Definition sorted (l : list A) : Prop := StronglySorted bytes_lt (map key l).

Lemma Forall_keys (P : bytes -> Prop) l : Forall P (map key l) <-> Forall (fun x => P (key x)) l.
Proof. induction l as [|x l IH]; cbn; [by split; constructor|]. by rewrite !Forall_cons, IH. Qed.

Lemma sorted_nil : sorted [].
Proof. constructor. Qed.

Lemma sorted_cons x l : sorted (x :: l) <-> Forall (fun y => bytes_lt (key x) (key y)) l /\ sorted l.
Proof.
  unfold sorted. cbn. split.
  - intros [H1 H2]%StronglySorted_inv. split; [by rewrite Forall_keys in H2|done].
  - intros [H1 H2]. constructor; [done|]. by apply Forall_keys.
Qed.

Lemma sorted_app l1 l2 :
  sorted (l1 ++ l2) <-> sorted l1 /\ sorted l2 /\ forall x y, x ∈ l1 -> y ∈ l2 -> bytes_lt (key x) (key y).
Proof.
  induction l1 as [|a l1 IH]; cbn.
  - split; [|tauto]. intros Hs. split; [apply sorted_nil|]. split; [done|]. intros x y []%elem_of_nil.
  - rewrite !sorted_cons, IH, Forall_app, !Forall_forall. split.
    + intros ([H1 H2] & H3 & H4 & H5). split; [done|]. split; [done|]. intros x y [->|Hx]%elem_of_cons Hy; auto.
    + intros ([H1 H2] & H3 & H4). split; [|split; [done|split; [done|]]].
      * split; [done|]. intros y Hy. apply H4; [by left|done].
      * intros x y Hx Hy. apply H4; [by right|done].
Qed.

Lemma ascending_sorted l : ascending l = true <-> sorted l.
Proof.
  induction l as [|x l IH]; [split; [constructor|done]|]. rewrite sorted_cons, <- IH. destruct l as [|y l]; cbn [ascending].
  - by split; [intros _; split; [constructor|]|].
  - rewrite andb_true_iff, bytes_ltb_lt. split; [|intros [H1 H2]; split; [by inversion H1|done]].
    intros [H1 H2]. split; [|done]. apply IH in H2. apply sorted_cons in H2 as [H2 _]. constructor; [done|].
    eapply Forall_impl; [exact H2|]. intros z Hz. cbn in *. by etrans.
Qed.

Lemma sorted_NoDup l : sorted l -> NoDup (map key l).
Proof.
  induction l as [|x l IH]; [constructor|]. intros [H1 H2]%sorted_cons. cbn. constructor; [|by apply IH].
  intros (y & E & Hy)%list_elem_of_fmap. rewrite Forall_forall in H1. apply H1 in Hy. rewrite E in Hy. by apply bytes_lt_irrefl in Hy.
Qed.

(** [l.binary_search_by(|x| key(x).cmp(k))]. *)
Definition search (k : bytes) (l : list A) : result nat nat :=
  binary_search_by (fun x => bytes_compare (key x) k) l.

Lemma sorted_probes k l : sorted l -> probes_ascend (fun x => bytes_compare (key x) k) l.
Proof.
  intros Hs i j x y Hij Hx Hy Hg. assert (Hxy : bytes_lt (key x) (key y)).
  { rewrite <- (take_drop_middle _ _ _ Hx) in Hs, Hy. apply sorted_app in Hs as (_ & [Hs _]%sorted_cons & _).
    rewrite lookup_app_r, length_take_le in Hy by (apply lookup_lt_Some in Hx; rewrite ?length_take; lia).
    destruct (j - i)%nat as [|m] eqn:Em; [lia|]. cbn in Hy. rewrite Forall_forall in Hs. apply Hs. by eapply list_elem_of_lookup_2. }
  destruct (bytes_compare (key y) k) eqn:E; [|exact (bytes_lt_trans _ _ _ Hxy E)|done]. apply bytes_compare_eq in E as <-. exact Hxy.
Qed.

(** A search splits the slice at the key. *)
Lemma search_split k l :
  sorted l ->
  match search k l with
  | Ok i => exists l1 x l2, l = l1 ++ x :: l2 /\ length l1 = i /\ key x = k
  | Err i => exists l1 l2, l = l1 ++ l2 /\ length l1 = i /\ Forall (fun x => bytes_lt (key x) k) l1 /\ Forall (fun x => bytes_lt k (key x)) l2
  end.
Proof.
  intros Hs. pose proof (binary_search_spec _ l (sorted_probes k l Hs)) as HB. unfold search. destruct (binary_search_by _ l) as [i|i].
  - destruct HB as (x & Hx & E). apply bytes_compare_eq in E. exists (take i l), x, (drop (S i) l).
    split; [symmetry; by apply take_drop_middle|]. split; [|done]. apply length_take_le. apply lookup_lt_Some in Hx. lia.
  - destruct HB as (Hi & H1 & H2). exists (take i l), (drop i l). split; [symmetry; apply take_drop|].
    split; [by apply length_take_le|]. split; apply Forall_lookup; intros j x Hx.
    + apply lookup_take_Some in Hx as [Hx Hj]. by apply (H1 j x Hj).
    + rewrite lookup_drop in Hx. apply bytes_compare_Gt. apply (H2 (i + j)%nat x); [lia|done].
Qed.

Lemma search_found k l : sorted l -> (exists i, search k l = Ok i) <-> k ∈ map key l.
Proof.
  intros Hs. pose proof (search_split k l Hs) as HS. destruct (search k l) as [i|i].
  - split; [|eauto]. intros _. destruct HS as (l1 & x & l2 & -> & _ & <-). rewrite map_app. apply elem_of_app. right. by left.
  - split; [by intros [? [=]]|]. destruct HS as (l1 & l2 & -> & _ & H1 & H2). intros (x & E & Hx)%list_elem_of_fmap.
    rewrite Forall_forall in H1, H2. apply elem_of_app in Hx as [Hx|Hx]; [apply H1 in Hx|apply H2 in Hx];
      rewrite E in Hx; by apply bytes_lt_irrefl in Hx.
Qed.

(** *** Stable sorting *)

Fixpoint insert_by (x : A) (l : list A) : list A :=
  match l with
  | [] => [x]
  | y :: t => if bytes_leb (key x) (key y) then x :: l else y :: insert_by x t
  end.

(** [l.sort_by(|a, b| key(a).cmp(key(b)))]: the stable order. *)
Definition sort_by : list A -> list A := foldr insert_by [].

Definition weakly_sorted (l : list A) : Prop := StronglySorted (fun x y => ~ bytes_lt y x) (map key l).

Lemma insert_by_perm x l : insert_by x l ≡ₚ x :: l.
Proof. induction l as [|y l IH]; cbn; [done|]. destruct (bytes_leb _ _); [done|]. rewrite IH. apply Permutation_swap. Qed.

Lemma sort_by_perm l : sort_by l ≡ₚ l.
Proof. induction l as [|x l IH]; cbn; [done|]. by rewrite insert_by_perm, IH. Qed.

Lemma not_lt_trans a b c : ~ bytes_lt b a -> ~ bytes_lt c b -> ~ bytes_lt c a.
Proof.
  intros Hab Hbc Hca. destruct (bytes_compare a b) eqn:Eab.
  - apply bytes_compare_eq in Eab as ->. done.
  - apply Hbc. exact (bytes_lt_trans _ _ _ Hca Eab).
  - by apply bytes_compare_Gt in Eab.
Qed.

Lemma sort_by_sorted l : weakly_sorted (sort_by l).
Proof.
  unfold weakly_sorted. induction l as [|x l IH]; cbn; [constructor|]. revert IH. generalize (sort_by l) as t. clear l.
  induction t as [|y t IH]; intros Hs; cbn; [by repeat constructor|]. rewrite bytes_leb_lt.
  destruct (bytes_ltb (key y) (key x)) eqn:E; cbn.
  - apply StronglySorted_inv in Hs as [H1 H2]. constructor; [by apply IH|]. apply bytes_ltb_lt in E.
    apply Forall_keys. eapply Permutation.Permutation_Forall; [symmetry; apply insert_by_perm|]. rewrite Forall_keys in H2.
    constructor; [|done]. intros Hc. assert (bytes_lt (key x) (key x)) as Hx by (by etrans). by apply bytes_lt_irrefl in Hx.
  - constructor; [done|]. assert (~ bytes_lt (key y) (key x)) as Hxy by (intros Hc%bytes_ltb_lt; congruence).
    constructor; [done|]. apply StronglySorted_inv in Hs as [H1 H2]. eapply Forall_impl; [exact H2|]. intros k Hk. cbn in *.
    by eapply not_lt_trans.
Qed.

(** Elements with equal keys keep their order. *)
Lemma sort_by_stable k l : filter (fun x => key x = k) (sort_by l) = filter (fun x => key x = k) l.
Proof.
  induction l as [|x l IH]; cbn [sort_by foldr]; [done|]. rewrite !filter_cons, <- IH. fold (sort_by l).
  pose proof (sort_by_sorted l) as Hs. revert Hs. generalize (sort_by l) as t. clear IH l. induction t as [|y t IHt]; intros Hs; cbn [insert_by].
  { by rewrite filter_cons. }
  rewrite bytes_leb_lt. destruct (bytes_ltb (key y) (key x)) eqn:E; cbn [negb]; [|by rewrite filter_cons].
  apply bytes_ltb_lt in E. rewrite !(filter_cons _ y), IHt by (by apply StronglySorted_inv in Hs as [? _]).
  destruct (decide (key y = k)) as [Hy|], (decide (key x = k)) as [Hx|]; try done. exfalso. rewrite Hx, Hy in E.
  by apply bytes_lt_irrefl in E.
Qed.

Lemma sorted_weakly l : sorted l -> weakly_sorted l.
Proof.
  unfold sorted, weakly_sorted. intros Hs. induction Hs as [|x t Hs IH Hf]; constructor; [done|].
  eapply Forall_impl; [exact Hf|]. intros y Hxy Hyx. assert (bytes_lt x x) as Hc by (by etrans). by apply bytes_lt_irrefl in Hc.
Qed.
End Keyed.
