(* ===== verification/LabelSet.v ===== *)
(** Label sets (selene-core, label_set.rs), and their refinement of finite sets.

    A [LabelSet] is the sorted vector of the source.  [step] runs one method of
    it and [spec_step] is the same method of a mathematical set; the two give
    the same answers on every sequence of calls. *)

From S2P Require Import Prelude Ordered.
From coqutil Require Import Byte.

(** [slice::dedup]: of consecutive equal elements the first stays. *)
Fixpoint dedup (l : list bytes) : list bytes :=
  match l with
  | x :: ((y :: _) as t) => if bool_decide (x = y) then dedup t else x :: dedup t
  | l => l
  end.

Abbreviation sorted_names := (sorted (fun x : bytes => x)).
Abbreviation ascending_names := (ascending (fun x : bytes => x)).

Module LabelSet.

Definition t := list bytes.

(** [LabelSet::new], [LabelSet::single] and [LabelSet::edge]. *)
Definition new : t := [].
Definition single (label : bytes) : t := [label].
Definition edge (label : bytes) : t := single label.

(** [FromIterator::from_iter]. *)
Definition from_iter (labels : list bytes) : t :=
  if (length labels <=? 1)%nat || ascending_names labels then labels
  else dedup (sort_by (fun x => x) labels).

(** [LabelSet::insert]. *)
Definition insert (label : bytes) (self : t) : bool * t :=
  match search (fun x => x) label self with
  | Ok _ => (false, self)
  | Err idx => (true, insert_at idx label self)
  end.

(** [LabelSet::remove]. *)
Definition remove (label : bytes) (self : t) : bool * t :=
  match search (fun x => x) label self with
  | Ok idx => (true, remove_at idx self)
  | Err _ => (false, self)
  end.

(** [LabelSet::contains], [LabelSet::len] and [LabelSet::is_empty]. *)
Definition contains (label : bytes) (self : t) : bool := negb (is_err (search (fun x => x) label self)).
Definition len (self : t) : Z := zlen self.
Definition is_empty (self : t) : bool := match self with [] => true | _ => false end.

(** [Deserialize for LabelSet], after the vector itself. *)
Definition deserialize (raw : list bytes) : option t := if ascending_names raw then Some raw else None.

(** ** Calls *)

Inductive Call :=
| Insert (label : bytes)
| Remove (label : bytes)
| Contains (label : bytes)
| Len
| IsEmpty.

Inductive Answer := Flag (b : bool) | Count (n : Z).

Definition step (call : Call) (self : t) : Answer * t :=
  match call with
  | Insert l => let '(b, self) := insert l self in (Flag b, self)
  | Remove l => let '(b, self) := remove l self in (Flag b, self)
  | Contains l => (Flag (contains l self), self)
  | Len => (Count (len self), self)
  | IsEmpty => (Flag (is_empty self), self)
  end.

(** The same call of a finite set. *)
Definition spec_step (call : Call) (X : gset bytes) : Answer * gset bytes :=
  match call with
  | Insert l => (Flag (bool_decide (l ∉ X)), {[l]} ∪ X)
  | Remove l => (Flag (bool_decide (l ∈ X)), X ∖ {[l]})
  | Contains l => (Flag (bool_decide (l ∈ X)), X)
  | Len => (Count (Z.of_nat (size X)), X)
  | IsEmpty => (Flag (bool_decide (X = ∅)), X)
  end.

Fixpoint run {S} (f : Call -> S -> Answer * S) (calls : list Call) (s : S) : list Answer * S :=
  match calls with
  | [] => ([], s)
  | call :: calls =>
      let '(a, s) := f call s in
      let '(l, s) := run f calls s in
      (a :: l, s)
  end.

(** The vector is sorted and has the elements of [X]. *)
Definition repr (self : t) (X : gset bytes) : Prop := sorted_names self /\ list_to_set self = X.

(** ** The simulation *)

Lemma map_id_names (l : list bytes) : map (fun x => x) l = l.
Proof. apply map_id. Qed.

Lemma repr_elem self X l : repr self X -> l ∈ X <-> l ∈ self.
Proof. intros [_ <-]. by rewrite elem_of_list_to_set. Qed.

Lemma search_elem self X l : repr self X -> (exists i, search (fun x => x) l self = Ok i) <-> l ∈ X.
Proof. intros HR. rewrite (repr_elem _ _ _ HR). destruct HR as [Hs _]. rewrite search_found by done. by rewrite map_id_names. Qed.

Lemma insert_repr self X l : repr self X -> fst (insert l self) = bool_decide (l ∉ X) /\ repr (snd (insert l self)) ({[l]} ∪ X).
Proof.
  intros HR. pose proof (search_elem _ _ l HR) as HE. unfold insert. pose proof (search_split _ l self (proj1 HR)) as HS.
  destruct (search _ l self) as [i|i]; cbn [fst snd].
  - assert (l ∈ X) as Hin by (apply HE; eauto). rewrite bool_decide_false by (by intros []). split; [done|].
    replace ({[l]} ∪ X) with X by set_solver. done.
  - assert (l ∉ X) as Hout by (intros [j [=]]%HE). rewrite bool_decide_true by done. split; [done|].
    destruct HS as (l1 & l2 & -> & <- & H1 & H2), HR as [Hs <-]. rewrite insert_at_middle. split.
    + apply sorted_app in Hs as (S1 & S2 & S3). apply sorted_app. split; [done|]. split; [by apply sorted_cons|].
      rewrite Forall_forall in H1, H2. intros x y Hx [->|Hy]%elem_of_cons; [by apply H1|by apply S3].
    + rewrite !list_to_set_app_L. cbn. set_solver.
Qed.

Lemma remove_repr self X l : repr self X -> fst (remove l self) = bool_decide (l ∈ X) /\ repr (snd (remove l self)) (X ∖ {[l]}).
Proof.
  intros HR. pose proof (search_elem _ _ l HR) as HE. unfold remove. pose proof (search_split _ l self (proj1 HR)) as HS.
  destruct (search _ l self) as [i|i]; cbn [fst snd].
  - assert (l ∈ X) as Hin by (apply HE; eauto). rewrite bool_decide_true by done. split; [done|].
    destruct HS as (l1 & x & l2 & -> & <- & ->), HR as [Hs <-]. rewrite remove_at_middle.
    pose proof (sorted_NoDup _ _ Hs) as Hn. rewrite map_id_names in Hn. split.
    + apply sorted_app in Hs as (S1 & [_ S2]%sorted_cons & S3). apply sorted_app. split; [done|]. split; [done|].
      intros x y Hx Hy. apply S3; [done|by right].
    + rewrite !list_to_set_app_L. cbn. apply NoDup_app in Hn as (_ & Hn & [Hn' _]%NoDup_cons).
      assert (l ∉ l1) by (intros Hl; apply (Hn l Hl); by left). set_solver.
  - assert (l ∉ X) as Hout by (intros [j [=]]%HE). rewrite bool_decide_false by done. split; [done|].
    by replace (X ∖ {[l]}) with X by set_solver.
Qed.

Lemma step_repr call self X : repr self X ->
  fst (step call self) = fst (spec_step call X) /\ repr (snd (step call self)) (snd (spec_step call X)).
Proof.
  intros HR. destruct call as [l|l|l| |]; cbn.
  - destruct (insert l self) eqn:E. pose proof (insert_repr self X l HR) as [HA HB]. rewrite E in *. cbn in *. by rewrite HA.
  - destruct (remove l self) eqn:E. pose proof (remove_repr self X l HR) as [HA HB]. rewrite E in *. cbn in *. by rewrite HA.
  - split; [|done]. f_equal. pose proof (search_elem _ _ l HR) as HE. unfold contains.
    destruct (search _ l self); cbn; symmetry; [apply bool_decide_true, HE; eauto|apply bool_decide_false; by intros [? [=]]%HE].
  - split; [|done]. f_equal. unfold len, zlen. f_equal. destruct HR as [Hs <-]. pose proof (sorted_NoDup _ _ Hs) as Hn.
    rewrite map_id_names in Hn. by rewrite size_list_to_set.
  - split; [|done]. f_equal. destruct HR as [_ <-]. destruct self; cbn; [by rewrite bool_decide_true|].
    rewrite bool_decide_false; [done|]. set_solver.
Qed.

Lemma dedup_sorted l : weakly_sorted (fun x => x) l -> sorted_names (dedup l) /\ forall x, x ∈ dedup l <-> x ∈ l.
Proof.
  induction l as [|x l IH]; [split; [apply sorted_nil|done]|]. intros Hs. apply Sorted.StronglySorted_inv in Hs as [Hs Hx].
  destruct (IH Hs) as [IS IE]. destruct l as [|y l]; cbn [dedup]; [split; [apply sorted_cons; split; [constructor|apply sorted_nil]|done]|].
  case_bool_decide as E; [subst y; split; [done|]; intros z; rewrite IE, !elem_of_cons; tauto|].
  split; [|intros z; rewrite elem_of_cons, IE, !elem_of_cons; tauto]. apply sorted_cons. split; [|done].
  apply Forall_forall. intros z Hz%IE. rewrite map_id_names, Forall_forall in Hx. pose proof Hx as Hx'. specialize (Hx z Hz).
  destruct (bytes_compare x z) eqn:C; [|done|by apply bytes_compare_Gt in C]. apply bytes_compare_eq in C as <-.
  apply elem_of_cons in Hz as [->|Hz]; [done|]. rewrite map_id_names in Hs. apply Sorted.StronglySorted_inv in Hs as [_ Hy].
  rewrite Forall_forall in Hy. exfalso. apply E, bytes_not_lt; [by apply Hy|]. apply Hx'. by left.
Qed.

(** Equal sets have equal vectors. *)
Lemma repr_unique self self' X : repr self X -> repr self' X -> self = self'.
Proof.
  intros [Hs <-] [Hs' He]. assert (HE : forall x, x ∈ self <-> x ∈ self') by (intros x; rewrite <- !(elem_of_list_to_set (C := gset bytes)), He; done).
  clear He. revert self' Hs' HE. induction self as [|x l IH]; intros [|x' l'] Hs' HE; [done|..].
  - exfalso. apply (not_elem_of_nil x'), HE. by left.
  - exfalso. apply (not_elem_of_nil x), HE. by left.
  - apply sorted_cons in Hs as [Hx Hs]. apply sorted_cons in Hs' as [Hx' Hs']. rewrite Forall_forall in Hx, Hx'.
    assert (x = x') as ->.
    { pose proof (proj1 (HE x) ltac:(by left)) as [->|H1]%elem_of_cons; [done|].
      pose proof (proj2 (HE x') ltac:(by left)) as [->|H2]%elem_of_cons; [done|].
      assert (bytes_lt x x) as Hc by (transitivity x'; auto). by apply bytes_lt_irrefl in Hc. }
    f_equal. apply IH; [done|done|]. intros z. specialize (HE z). rewrite !elem_of_cons in HE.
    split; intros Hz; [apply Hx in Hz as Hl|apply Hx' in Hz as Hl]; (destruct HE as [H1 H2]);
      [destruct H1 as [->|]|destruct H2 as [->|]]; auto; by apply bytes_lt_irrefl in Hl.
Qed.

Lemma from_iter_repr labels : repr (from_iter labels) (list_to_set labels).
Proof.
  unfold from_iter. destruct ((length labels <=? 1)%nat || ascending_names labels) eqn:E.
  - split; [|done]. apply orb_true_iff in E as [E|E]; [|by apply ascending_sorted].
    destruct labels as [|x [|y l]]; [apply sorted_nil|apply sorted_cons; split; [constructor|apply sorted_nil]|done].
  - destruct (dedup_sorted _ (sort_by_sorted _ labels)) as [Hs He]. split; [done|]. apply set_eq. intros x.
    rewrite !elem_of_list_to_set, He. by rewrite (sort_by_perm (fun x => x) labels).
Qed.

Lemma run_repr calls self X : repr self X ->
  fst (run step calls self) = fst (run spec_step calls X) /\ repr (snd (run step calls self)) (snd (run spec_step calls X)).
Proof.
  revert self X. induction calls as [|call calls IH]; intros self X HR; [done|]. cbn [run].
  destruct (step_repr call self X HR) as [HA HB]. destruct (step call self) as [a self1], (spec_step call X) as [a' X1]. cbn in *.
  destruct (IH _ _ HB) as [HC HD]. destruct (run step calls self1), (run spec_step calls X1). cbn in *. by subst.
Qed.

(** C39: a label set is a finite set.  From any labels, in any order and with
    repetitions, every sequence of calls answers as the mathematical set does, and
    the labels stay strictly ascending, so equal sets have equal vectors. *)
Theorem label_set_refines labels calls :
  let '(answers, self) := run step calls (from_iter labels) in
  let '(answers', X) := run spec_step calls (list_to_set labels) in
  answers = answers' /\ repr self X /\ deserialize self = Some self /\ forall self', repr self' X -> self' = self.
Proof.
  pose proof (run_repr calls _ _ (from_iter_repr labels)) as [HA HB].
  destruct (run step calls _) as [answers self], (run spec_step calls _) as [answers' X]. cbn in *. split; [done|]. split; [done|].
  split; [|intros self' HR; by apply (repr_unique self' self X)].
  unfold deserialize. destruct HB as [Hs _]. apply ascending_sorted in Hs. by rewrite Hs.
Qed.
End LabelSet.
