(* ===== verification/PropertyMap.v ===== *)
(** Property maps and diffs (selene-core, property_map.rs and changeset/diff.rs).

    [PropertyMap] has the two representations of the source, a sorted vector of
    pairs and a fixed key set with positional slots.  [abs] forgets the
    representation; every call agrees with the same call of a finite map. *)

From S2P Require Import Prelude Wire Value Ordered LabelSet.
From coqutil Require Import Byte.

(** ** Errors and limits *)

(** The variants of [CoreError] these operations return. *)
Inductive CoreError :=
| StoredValue (e : StoredValueError)
| ConstructedValueTooLarge (got max : Z)
| CompactKeyValueLengthMismatch (keys values : Z)
| OverlappingDiff (kind : string) (key : bytes).

Definition MAX_PROPERTY_COUNT : Z := u32_max.

(** [ensure_within_cap]. *)
Definition ensure_within_cap (count : Z) : result CoreError unit :=
  refuse MAX_PROPERTY_COUNT <? count with ConstructedValueTooLarge count u32_max;
  Ok tt.

(** The loop that keeps the last of consecutive equal keys; [acc] is [deduped],
    its last element first. *)
Fixpoint collapse {V} (acc l : list (bytes * V)) : list (bytes * V) :=
  match l with
  | [] => rev acc
  | (key, value) :: l =>
      match acc with
      | (last_key, _) :: acc' => if bool_decide (last_key = key) then collapse ((last_key, value) :: acc') l
                                 else collapse ((key, value) :: acc) l
      | [] => collapse [(key, value)] l
      end
  end.

Section Properties.
Context `{Leaves}.

(** [for value in values { StoredValue::validate(value)? }]. *)
Fixpoint validate_all (values : list Value) : result CoreError unit :=
  match values with
  | [] => Ok tt
  | v :: values => let? _ := map_err StoredValue (validate v) in validate_all values
  end.

(** ** Maps *)

Inductive PropertyMap :=
| Standard (entries : list (bytes * Value))
| Compact (keys : list bytes) (values : list (option Value)).

Definition pm_new : PropertyMap := Standard [].

(** [PropertyMap::from_pairs]. *)
Definition from_pairs (entries : list (bytes * Value)) : result CoreError PropertyMap :=
  let? _ := validate_all (map snd entries) in
  if (length entries <=? 1)%nat then Ok (Standard entries) else
  if ascending fst entries then
    (let? _ := ensure_within_cap (zlen entries) in Ok (Standard entries))
  else
    let deduped := collapse [] (sort_by fst entries) in
    let? _ := ensure_within_cap (zlen deduped) in
    Ok (Standard deduped).

(** [PropertyMap::compact]. *)
Definition compact (keys : list bytes) (values : list (option Value)) : result CoreError PropertyMap :=
  let? _ := validate_all (omap (fun v => v) values) in
  refuse negb (zlen keys =? zlen values) with CompactKeyValueLengthMismatch (zlen keys) (zlen values);
  let? _ := ensure_within_cap (zlen keys) in
  if (length keys <=? 1)%nat || ascending_names keys then Ok (Compact keys values) else
  let deduped := collapse [] (sort_by fst (zip keys values)) in
  Ok (Compact (map fst deduped) (map snd deduped)).

(** [PropertyMap::get]. *)
Definition pm_get (key : bytes) (self : PropertyMap) : option Value :=
  match self with
  | Standard entries =>
      match search fst key entries with Ok idx => snd <$> entries !! idx | Err _ => None end
  | Compact keys values =>
      match search (fun x => x) key keys with Ok idx => mjoin (values !! idx) | Err _ => None end
  end.

(** [set_standard]. *)
Definition set_standard (entries : list (bytes * Value)) (key : bytes) (value : Value) :
    result CoreError (list (bytes * Value)) :=
  match search fst key entries with
  | Ok idx => Ok (alter (fun e => (fst e, value)) idx entries)
  | Err idx =>
      let? _ := ensure_within_cap (zlen entries + 1) in
      Ok (insert_at idx (key, value) entries)
  end.

(** [compact_to_standard]. *)
Definition compact_to_standard (keys : list bytes) (values : list (option Value)) : list (bytes * Value) :=
  omap (fun '(key, value) => pair key <$> value) (zip keys values).

(** [PropertyMap::set]; the map is unchanged when it fails. *)
Definition pm_set (key : bytes) (value : Value) (self : PropertyMap) : result CoreError PropertyMap :=
  let? _ := map_err StoredValue (validate value) in
  match self with
  | Standard entries => let? entries := set_standard entries key value in Ok (Standard entries)
  | Compact keys values =>
      match search (fun x => x) key keys with
      | Ok idx => Ok (Compact keys (<[idx := Some value]> values))
      | Err _ =>
          let? entries := set_standard (compact_to_standard keys values) key value in
          Ok (Standard entries)
      end
  end.

(** [PropertyMap::remove]. *)
Definition pm_remove (key : bytes) (self : PropertyMap) : option Value * PropertyMap :=
  match self with
  | Standard entries =>
      match search fst key entries with
      | Ok idx => (snd <$> entries !! idx, Standard (remove_at idx entries))
      | Err _ => (None, self)
      end
  | Compact keys values =>
      match search (fun x => x) key keys with
      | Ok idx => (mjoin (values !! idx), Compact keys (<[idx := None]> values))
      | Err _ => (None, self)
      end
  end.

(** [PropertyMap::len], [is_empty] and [contains_key]. *)
Definition pm_len (self : PropertyMap) : Z :=
  match self with
  | Standard entries => zlen entries
  | Compact _ values => zlen (filter is_Some values)
  end.
Definition pm_is_empty (self : PropertyMap) : bool := pm_len self =? 0.
Definition contains_key (key : bytes) (self : PropertyMap) : bool := bool_decide (is_Some (pm_get key self)).

(** The [Compact] arm of [PropertyMapIter::next], until it returns [None]. *)
Fixpoint compact_iter (keys : list bytes) (values : list (option Value)) : list (bytes * Value) :=
  match values, keys with
  | value :: values, key :: keys =>
      match value with Some value => (key, value) :: compact_iter keys values | None => compact_iter keys values end
  | _, _ => []
  end.

(** [PropertyMap::iter], [keys] and [values]. *)
Definition pm_iter (self : PropertyMap) : list (bytes * Value) :=
  match self with
  | Standard entries => entries
  | Compact keys values => compact_iter keys values
  end.
Definition pm_keys (self : PropertyMap) : list bytes := map fst (pm_iter self).
Definition pm_values (self : PropertyMap) : list Value := map snd (pm_iter self).

(** [PropertyMap::validate_stored_values]. *)
Definition pm_validate (self : PropertyMap) : result CoreError unit :=
  match self with
  | Standard entries => validate_all (map snd entries)
  | Compact _ values => validate_all (omap (fun v => v) values)
  end.

(** ** Diffs *)

Record LabelDiff := { ld_added : list bytes; ld_removed : list bytes }.
Record PropertyDiff := { pd_set : list (bytes * Value); pd_removed : list bytes }.

(** [sorted_deduped]. *)
Definition sorted_deduped (values : list bytes) : list bytes :=
  if (1 <? length values)%nat && negb (ascending_names values) then dedup (sort_by (fun x => x) values) else values.

(** [first_overlap] and [first_property_overlap]: a merge of two ascending
    slices; every round advances one of them. *)
Fixpoint first_overlap_loop {A} (key : A -> bytes) (fuel : nat) (left : list A) (right : list bytes) : option bytes :=
  match fuel with
  | O => None
  | S fuel =>
      match left, right with
      | x :: left', y :: right' =>
          match bytes_compare (key x) y with
          | Lt => first_overlap_loop key fuel left' right
          | Gt => first_overlap_loop key fuel left right'
          | Eq => Some (key x)
          end
      | _, _ => None
      end
  end.
Definition first_overlap {A} (key : A -> bytes) (left : list A) (right : list bytes) : option bytes :=
  first_overlap_loop key (length left + length right) left right.

(** [LabelDiff::new]. *)
Definition label_diff_new (added removed : list bytes) : result CoreError LabelDiff :=
  let added := sorted_deduped added in
  let removed := sorted_deduped removed in
  match first_overlap (fun x => x) added removed with
  | Some label => Err (OverlappingDiff "label" label)
  | None => Ok {| ld_added := added; ld_removed := removed |}
  end.

(** [PropertyDiff::new]. *)
Definition property_diff_new (set : list (bytes * Value)) (removed : list bytes) : result CoreError PropertyDiff :=
  let? _ := validate_all (map snd set) in
  let set := if (1 <? length set)%nat && negb (ascending fst set) then collapse [] (sort_by fst set) else set in
  let removed := sorted_deduped removed in
  match first_overlap fst set removed with
  | Some key => Err (OverlappingDiff "property" key)
  | None => Ok {| pd_set := set; pd_removed := removed |}
  end.
End Properties.
