(* ===== verification/PropertyProps.v ===== *)
(** Property maps refine finite maps, and diffs are disjoint.

    [abs] is the finite map of a [PropertyMap]; [spec_make] and [spec_step] are
    its constructors and methods on finite maps, errors included. *)

From S2P Require Import Prelude Wire Value Ordered LabelSet PropertyMap.
From coqutil Require Import Byte.

(** ** Association lists with ascending keys *)

Section Assoc.
Context {V : Type}.
Implicit Types l : list (bytes * V).

Definition map_of l : gmap bytes V := list_to_map l.
(** The map in which later pairs overwrite earlier ones. *)
Definition last_wins l : gmap bytes V := list_to_map (rev l).

Lemma sorted_keys l : sorted fst l -> NoDup l.*1.
Proof. apply sorted_NoDup. Qed.

Lemma map_of_app l1 l2 : map_of (l1 ++ l2) = map_of l1 ∪ map_of l2.
Proof. apply list_to_map_app. Qed.

Lemma map_of_cons k v l : map_of ((k, v) :: l) = <[k := v]> (map_of l).
Proof. done. Qed.

Lemma map_of_None k l : k ∉ l.*1 -> map_of l !! k = None.
Proof. apply not_elem_of_list_to_map. Qed.

Lemma below_None k l : Forall (fun x => bytes_lt (fst x) k) l -> map_of l !! k = None.
Proof.
  intros Hf. apply map_of_None. intros (x & -> & Hx)%list_elem_of_fmap. rewrite Forall_forall in Hf.
  apply Hf, bytes_lt_irrefl in Hx. done.
Qed.
Lemma above_None k l : Forall (fun x => bytes_lt k (fst x)) l -> map_of l !! k = None.
Proof.
  intros Hf. apply map_of_None. intros (x & -> & Hx)%list_elem_of_fmap. rewrite Forall_forall in Hf.
  apply Hf, bytes_lt_irrefl in Hx. done.
Qed.

(** The parts of a sorted list around a key. *)
Lemma sorted_around l1 k v l2 : sorted fst (l1 ++ (k, v) :: l2) -> map_of l1 !! k = None /\ map_of l2 !! k = None.
Proof.
  intros (_ & [H2 _]%sorted_cons & H1)%sorted_app. split; [apply below_None|by apply above_None].
  apply Forall_forall. intros x Hx. apply (H1 x (k, v) Hx). by left.
Qed.

Lemma map_of_middle l1 k v l2 : map_of l1 !! k = None -> map_of (l1 ++ (k, v) :: l2) = <[k := v]> (map_of (l1 ++ l2)).
Proof. intros Hk. rewrite !map_of_app, map_of_cons. by rewrite insert_union_r. Qed.

Lemma sorted_middle l1 k v v' l2 : sorted fst (l1 ++ (k, v) :: l2) -> sorted fst (l1 ++ (k, v') :: l2).
Proof.
  rewrite !sorted_app, !sorted_cons. intros (H1 & [H2 H3] & H4). split_and!; [done..|].
  intros x y Hx [->|Hy]%elem_of_cons; [apply (H4 x (k, v) Hx); by left|apply H4; [done|by right]].
Qed.

Lemma sorted_without l1 x l2 : sorted fst (l1 ++ x :: l2) -> sorted fst (l1 ++ l2).
Proof.
  rewrite !sorted_app, !sorted_cons. intros (H1 & [H2 H3] & H4). split_and!; [done..|]. intros y z Hy Hz. apply H4; [done|by right].
Qed.

Lemma sorted_between l1 k v l2 :
  sorted fst (l1 ++ l2) -> Forall (fun x => bytes_lt (fst x) k) l1 -> Forall (fun x => bytes_lt k (fst x)) l2 ->
  sorted fst (l1 ++ (k, v) :: l2).
Proof.
  rewrite !sorted_app, !sorted_cons, !Forall_forall. intros (H1 & H2 & H3) Ha Hb. split_and!; [done..|].
  intros x y Hx [->|Hy]%elem_of_cons; auto.
Qed.

(** *** Sorting and collapsing *)

Lemma last_wins_lookup l k : last_wins l !! k = last (snd <$> filter (fun x => fst x = k) l).
Proof.
  unfold last_wins. induction l as [|[k' v] l IH] using rev_ind; [done|]. rewrite rev_app_distr, filter_app, fmap_app. cbn [rev app].
  rewrite list_to_map_cons, filter_cons, filter_nil. destruct (decide (k' = k)) as [->|Hne]; cbn [fst].
  - rewrite lookup_insert_eq, decide_True by done. cbn. by rewrite last_snoc.
  - rewrite lookup_insert_ne, decide_False by done. cbn. by rewrite app_nil_r.
Qed.

Lemma last_wins_sort l : last_wins (sort_by fst l) = last_wins l.
Proof. apply map_eq. intros k. by rewrite !last_wins_lookup, sort_by_stable. Qed.

Lemma last_wins_sorted l : sorted fst l -> last_wins l = map_of l.
Proof.
  intros Hs. unfold last_wins, map_of. assert (Hp : rev l ≡ₚ l) by (symmetry; apply Permutation_rev).
  apply list_to_map_proper; [|done]. rewrite Hp. by apply sorted_keys.
Qed.

Lemma collapse_last_wins acc l : last_wins (collapse acc l) = last_wins (rev acc ++ l).
Proof.
  revert acc. induction l as [|[k v] l IH]; intros acc; cbn [collapse]; [by rewrite app_nil_r|].
  destruct acc as [|[k' v'] acc]; [by rewrite IH|]. case_bool_decide as E; rewrite IH; cbn [rev].
  - subst k'. rewrite <- !app_assoc. unfold last_wins. rewrite !rev_app_distr. cbn [rev app]. rewrite <- !app_assoc. cbn [app].
    rewrite !list_to_map_app. f_equal. cbn. by rewrite insert_insert_eq.
  - by rewrite <- !app_assoc.
Qed.

Lemma collapse_length acc l : (length (collapse acc l) <= length acc + length l)%nat.
Proof.
  revert acc. induction l as [|[k v] l IH]; intros acc; cbn [collapse]; [rewrite length_rev; lia|].
  destruct acc as [|[k' v'] acc]; [|case_bool_decide]; (etrans; [apply IH|]; cbn; lia).
Qed.

Lemma collapse_sorted acc l :
  sorted fst (rev acc) -> weakly_sorted fst l -> (forall x y, x ∈ acc -> y ∈ l -> ~ bytes_lt (fst y) (fst x)) ->
  sorted fst (collapse acc l).
Proof.
  intros Hs Hw Hle. revert acc Hs Hle. induction l as [|[k v] l IH]; intros acc Hs Hle; cbn [collapse]; [done|].
  unfold weakly_sorted in Hw. cbn [map] in Hw. apply Sorted.StronglySorted_inv in Hw as [Hw Hk].
  rewrite Forall_keys, Forall_forall in Hk. specialize (IH Hw).
  destruct acc as [|[k' v'] acc].
  - apply IH; [by apply sorted_cons; split; [constructor|constructor]|]. intros x y ->%list_elem_of_singleton Hy. by apply Hk.
  - case_bool_decide as E.
    + subst k'. apply IH; [cbn in *; by eapply sorted_middle|]. intros x y [->|Hx]%elem_of_cons Hy; [by apply Hk|].
      apply Hle; by right.
    + cbn [rev] in *. apply IH.
      * cbn [rev]. apply sorted_app. split; [done|]. split; [by apply sorted_cons; split; constructor|].
        intros x y Hx ->%list_elem_of_singleton. cbn [fst].
        assert (Hx' : ~ bytes_lt k (fst x)) by (apply (Hle x (k, v)); [|by left]; apply elem_of_app in Hx as [Hx|Hx];
          [right; by apply list_elem_of_In, List.in_rev, list_elem_of_In|apply list_elem_of_singleton in Hx as ->; by left]).
        destruct (decide (bytes_lt (fst x) k)) as [|Hn]; [done|]. exfalso. apply E.
        assert (fst x = k) as Hxk by (by apply bytes_not_lt).
        apply elem_of_app in Hx as [Hx|Hx]; [|apply list_elem_of_singleton in Hx as ->; done].
        apply sorted_app in Hs as (_ & _ & Hs). specialize (Hs x (k', v') Hx ltac:(by left)). cbn in Hs. rewrite Hxk in Hs.
        exfalso. apply (Hle (k', v') (k, v)); [by left..|done].
      * intros x y [->|Hx]%elem_of_cons Hy; [by apply Hk|]. apply Hle; [done|by right].
Qed.
End Assoc.

(** ** Representations *)

Section Maps.
Context `{Leaves}.

Definition valid (v : Value) : Prop := validate v = Ok tt.

Definition pm_wf (self : PropertyMap) : Prop :=
  match self with
  | Standard entries => sorted fst entries /\ zlen entries <= MAX_PROPERTY_COUNT
  | Compact keys values => sorted_names keys /\ length keys = length values /\ zlen keys <= MAX_PROPERTY_COUNT
  end.

Definition abs (self : PropertyMap) : gmap bytes Value := map_of (pm_iter self).

Lemma compact_iter_eq keys values : compact_iter keys values = compact_to_standard keys values.
Proof.
  unfold compact_to_standard. revert values. induction keys as [|k keys IH]; intros [|[v|] values]; cbn; try done; by rewrite IH.
Qed.

Lemma compact_app k1 v1 k2 v2 :
  length k1 = length v1 -> compact_to_standard (k1 ++ k2) (v1 ++ v2) = compact_to_standard k1 v1 ++ compact_to_standard k2 v2.
Proof. intros Hl. unfold compact_to_standard. by rewrite zip_with_app, omap_app. Qed.

Lemma compact_keys k keys values : k ∈ (compact_to_standard keys values).*1 -> k ∈ keys.
Proof.
  intros ([k' v] & -> & Hx)%list_elem_of_fmap. apply list_elem_of_omap in Hx as ([k0 [v0|]] & Hz & [= -> ->]).
  by apply elem_of_zip_l in Hz.
Qed.

Lemma compact_sorted keys values : sorted_names keys -> sorted fst (compact_to_standard keys values).
Proof.
  revert values. induction keys as [|k keys IH]; intros values Hs; [destruct values; apply sorted_nil|].
  destruct values as [|v values]; [apply sorted_nil|]. apply sorted_cons in Hs as [Hk Hs].
  change (compact_to_standard (k :: keys) (v :: values)) with
    (match pair k <$> v with Some e => e :: compact_to_standard keys values | None => compact_to_standard keys values end).
  destruct v as [v|]; cbn; [|by apply IH]. apply sorted_cons. split; [|by apply IH].
  rewrite Forall_forall in Hk. apply Forall_forall. intros x Hx. apply Hk. eapply compact_keys. apply list_elem_of_fmap. by exists x.
Qed.

Lemma iter_sorted self : pm_wf self -> sorted fst (pm_iter self).
Proof. destruct self; cbn; [by intros [? _]|]. intros [Hs _]. rewrite compact_iter_eq. by apply compact_sorted. Qed.

(** The slots around a key of a compact map. *)
Lemma compact_split (k1 : list bytes) k k2 (values : list (option Value)) :
  length (k1 ++ k :: k2) = length values ->
  exists v1 v v2, values = v1 ++ v :: v2 /\ length k1 = length v1 /\ values !! length k1 = Some v.
Proof.
  rewrite length_app. cbn. intros Hl. destruct (lookup_lt_is_Some_2 values (length k1) ltac:(lia)) as [v Hv].
  exists (take (length k1) values), v, (drop (S (length k1)) values). split; [symmetry; by apply take_drop_middle|].
  split; [|done]. symmetry. apply length_take_le. lia.
Qed.

Lemma compact_slot k1 k k2 v1 v v2 :
  length k1 = length v1 ->
  compact_to_standard (k1 ++ k :: k2) (v1 ++ v :: v2)
  = compact_to_standard k1 v1 ++ match v with Some v => (k, v) :: compact_to_standard k2 v2 | None => compact_to_standard k2 v2 end.
Proof. intros Hl. rewrite compact_app by done. f_equal. by destruct v. Qed.

(** Slots with other values have the same keys around. *)
Lemma slot_None k1 k k2 v1 v2 :
  length k1 = length v1 -> sorted_names (k1 ++ k :: k2) ->
  map_of (compact_to_standard k1 v1) !! k = None /\ map_of (compact_to_standard k2 v2) !! k = None.
Proof.
  intros Hl Hs. apply (sorted_around (compact_to_standard k1 v1) k (Value.Null) (compact_to_standard k2 v2)).
  pose proof (compact_sorted _ (v1 ++ Some Value.Null :: v2) Hs) as HS. by rewrite compact_slot in HS.
Qed.

Lemma pm_get_abs self key : pm_wf self -> pm_get key self = abs self !! key.
Proof.
  unfold abs. destruct self as [entries|keys values]; cbn [pm_wf pm_get pm_iter].
  - intros [Hs _]. pose proof (search_split _ key entries Hs) as HS. destruct (search fst key entries) as [i|i].
    + destruct HS as (l1 & [k v] & l2 & -> & <- & E). cbn in E. subst k. rewrite list_lookup_middle by done.
      rewrite map_of_middle by (by destruct (sorted_around _ _ _ _ Hs)). by rewrite lookup_insert_eq.
    + destruct HS as (l1 & l2 & -> & _ & H1 & H2). rewrite map_of_app. symmetry. apply lookup_union_None.
      split; [by apply below_None|by apply above_None].
  - intros (Hs & Hl & _). rewrite compact_iter_eq. pose proof (search_split _ key keys Hs) as HS. destruct (search _ key keys) as [i|i].
    + destruct HS as (k1 & k & k2 & -> & <- & E). subst k. destruct (compact_split _ _ _ _ Hl) as (v1 & v & v2 & -> & Hl1 & Hv).
      rewrite Hv, compact_slot by done. destruct (slot_None k1 key k2 v1 v2 Hl1 Hs) as [N1 N2].
      rewrite map_of_app. destruct v as [v|]; cbn [mjoin option_join].
      * rewrite map_of_cons. by rewrite lookup_union_r, lookup_insert_eq.
      * by rewrite lookup_union_r, N2.
    + symmetry. apply map_of_None. intros Hk%compact_keys. destruct HS as (l1 & l2 & -> & _ & H1 & H2).
      rewrite Forall_forall in H1, H2. apply elem_of_app in Hk as [Hk|Hk]; [apply H1 in Hk|apply H2 in Hk]; by apply bytes_lt_irrefl in Hk.
Qed.

Lemma pm_len_abs self : pm_wf self -> pm_len self = Z.of_nat (size (abs self)).
Proof.
  intros Hw. unfold abs, map_of. rewrite map_size_list_to_map by (by apply sorted_keys, iter_sorted).
  destruct self as [entries|keys values]; [done|]. destruct Hw as (_ & Hl & _). cbn. unfold zlen. f_equal.
  revert values Hl. induction keys as [|k keys IH]; intros [|[v|] values] Hl; try done; rewrite filter_cons; cbn in *.
  - rewrite decide_True by done. cbn. f_equal. apply IH. lia.
  - rewrite decide_False by (by intros [? ?]). apply IH. lia.
Qed.

Lemma set_standard_abs entries key value :
  sorted fst entries -> zlen entries <= MAX_PROPERTY_COUNT ->
  match set_standard entries key value with
  | Ok entries' => (sorted fst entries' /\ zlen entries' <= MAX_PROPERTY_COUNT) /\ map_of entries' = <[key := value]> (map_of entries) /\
      (map_of entries !! key = None -> zlen entries + 1 <= MAX_PROPERTY_COUNT)
  | Err e => map_of entries !! key = None /\ MAX_PROPERTY_COUNT < zlen entries + 1 /\ e = ConstructedValueTooLarge (zlen entries + 1) u32_max
  end.
Proof.
  intros Hs Hc. unfold set_standard. pose proof (search_split _ key entries Hs) as HS. destruct (search fst key entries) as [i|i].
  - destruct HS as (l1 & [k v] & l2 & -> & <- & E). cbn in E. subst k. rewrite alter_app_r_alt, Nat.sub_diag by done. cbn [alter list_alter fst].
    destruct (sorted_around _ _ _ _ Hs) as [N1 N2]. split.
    { split; [by eapply sorted_middle|]. unfold zlen in *. rewrite length_app in *. exact Hc. }
    rewrite !map_of_middle by done. split; [by rewrite insert_insert_eq|]. by rewrite lookup_insert_eq.
  - destruct HS as (l1 & l2 & -> & <- & H1 & H2). assert (Hn : map_of (l1 ++ l2) !! key = None).
    { rewrite map_of_app. apply lookup_union_None. split; [by apply below_None|by apply above_None]. }
    unfold ensure_within_cap. destruct (Z.ltb_spec MAX_PROPERTY_COUNT (zlen (l1 ++ l2) + 1)) as [Hlt|Hle]; [done|].
    rewrite insert_at_middle. split; [|split; [apply map_of_middle; by apply below_None|done]].
    split; [by apply sorted_between|]. unfold zlen in *. rewrite length_app in *. cbn. lia.
Qed.

Lemma pm_set_abs self key value :
  pm_wf self -> valid value ->
  match pm_set key value self with
  | Ok self' => pm_wf self' /\ abs self' = <[key := value]> (abs self) /\
      (abs self !! key = None -> Z.of_nat (size (abs self)) + 1 <= MAX_PROPERTY_COUNT)
  | Err e => abs self !! key = None /\ MAX_PROPERTY_COUNT < Z.of_nat (size (abs self)) + 1 /\
      e = ConstructedValueTooLarge (Z.of_nat (size (abs self)) + 1) u32_max
  end.
Proof.
  intros Hw Hv. rewrite <- (pm_len_abs self Hw). unfold pm_set. rewrite Hv. cbn [map_err].
  destruct self as [entries|keys values]; cbn [pm_wf] in Hw.
  - destruct Hw as [Hs Hc]. pose proof (set_standard_abs entries key value Hs Hc) as HS. by destruct (set_standard entries key value).
  - destruct Hw as (Hs & Hl & Hc). pose proof (search_split _ key keys Hs) as HS. destruct (search _ key keys) as [i|i].
    + destruct HS as (k1 & k & k2 & -> & <- & E). subst k. destruct (compact_split _ _ _ _ Hl) as (v1 & v & v2 & -> & Hl1 & Hv').
      unfold abs. cbn [pm_iter pm_len]. rewrite !compact_iter_eq, Hl1, insert_middle, !compact_slot by done.
      destruct (slot_None k1 key k2 v1 v2 Hl1 Hs) as [N1 N2]. split; [|split].
      * split; [done|]. split; [|done]. rewrite !length_app in *. exact Hl.
      * rewrite map_of_middle by done. destruct v as [v|]; [rewrite map_of_middle by done; by rewrite insert_insert_eq|done].
      * rewrite !map_of_app. destruct v as [v|]; [rewrite map_of_cons, lookup_union_r, lookup_insert_eq by done; done|].
        intros _. rewrite filter_app, filter_cons, decide_False by (by intros [? ?]).
        pose proof (length_filter is_Some v1). pose proof (length_filter is_Some v2).
        unfold zlen in *. rewrite !length_app in *. cbn in *. lia.
    + assert (Hstd : zlen (compact_to_standard keys values) = pm_len (Compact keys values)).
      { rewrite pm_len_abs by done. unfold abs, map_of. rewrite map_size_list_to_map by (by apply sorted_keys, iter_sorted).
        cbn. by rewrite compact_iter_eq. }
      rewrite <- Hstd. pose proof (set_standard_abs (compact_to_standard keys values) key value (compact_sorted _ _ Hs)) as HA.
      unfold abs. cbn [pm_iter]. rewrite compact_iter_eq. destruct (set_standard _ key value); apply HA; rewrite Hstd; cbn [pm_len];
        pose proof (length_filter is_Some values); unfold zlen in *; lia.
Qed.

Lemma pm_remove_abs self key :
  pm_wf self -> fst (pm_remove key self) = abs self !! key /\ pm_wf (snd (pm_remove key self)) /\
    abs (snd (pm_remove key self)) = delete key (abs self).
Proof.
  intros Hw. rewrite <- (pm_get_abs self key Hw). destruct self as [entries|keys values]; cbn [pm_wf] in Hw; cbn [pm_remove pm_get].
  - destruct Hw as [Hs Hc]. pose proof (search_split _ key entries Hs) as HS. destruct (search fst key entries) as [i|i].
    + destruct HS as (l1 & [k v] & l2 & -> & <- & E). cbn in E. subst k. destruct (sorted_around _ _ _ _ Hs) as [N1 N2].
      cbn [fst snd]. split; [done|]. rewrite remove_at_middle. split.
      * split; [by eapply sorted_without|]. unfold zlen in *. rewrite length_app in *. cbn in *. lia.
      * unfold abs. cbn [pm_iter]. rewrite map_of_middle by done. rewrite delete_insert_id; [done|]. rewrite map_of_app. by apply lookup_union_None.
    + split; [done|]. split; [done|]. destruct HS as (l1 & l2 & -> & _ & H1 & H2). unfold abs. cbn [pm_iter].
      rewrite delete_id; [done|]. rewrite map_of_app. apply lookup_union_None. split; [by apply below_None|by apply above_None].
  - destruct Hw as (Hs & Hl & Hc). pose proof (search_split _ key keys Hs) as HS. destruct (search _ key keys) as [i|i].
    + destruct HS as (k1 & k & k2 & -> & <- & E). subst k. destruct (compact_split _ _ _ _ Hl) as (v1 & v & v2 & -> & Hl1 & Hv).
      cbn [fst snd]. split; [done|]. unfold abs. cbn [pm_iter]. rewrite !compact_iter_eq, Hl1, insert_middle, !compact_slot by done.
      destruct (slot_None k1 key k2 v1 v2 Hl1 Hs) as [N1 N2]. split.
      * split; [done|]. split; [|done]. rewrite !length_app in *. exact Hl.
      * assert (map_of (compact_to_standard k1 v1 ++ compact_to_standard k2 v2) !! key = None)
          by (rewrite map_of_app; by apply lookup_union_None).
        destruct v as [v|]; [rewrite map_of_middle by done; by rewrite delete_insert_id|by rewrite delete_id].
    + split; [done|]. split; [done|]. cbn [snd]. rewrite delete_id; [done|]. apply map_of_None. cbn [pm_iter]. rewrite compact_iter_eq.
      intros Hk%compact_keys. destruct HS as (l1 & l2 & -> & _ & H1 & H2). rewrite Forall_forall in H1, H2.
      apply elem_of_app in Hk as [Hk|Hk]; [apply H1 in Hk|apply H2 in Hk]; by apply bytes_lt_irrefl in Hk.
Qed.

(** *** Constructors *)

(** How a map is made. *)
Inductive Make :=
| FromPairs (entries : list (bytes * Value))
| CompactOf (keys : list bytes) (values : list (option Value)).

Definition make (m : Make) : result CoreError PropertyMap :=
  match m with FromPairs entries => from_pairs entries | CompactOf keys values => compact keys values end.

(** The map that is meant: later pairs and later slots win. *)
Definition spec_make (m : Make) : result CoreError (gmap bytes Value) :=
  match m with
  | FromPairs entries =>
      let? _ := validate_all (map snd entries) in
      let M := last_wins entries in
      let? _ := ensure_within_cap (Z.of_nat (size M)) in
      Ok M
  | CompactOf keys values =>
      let? _ := validate_all (omap (fun v => v) values) in
      refuse negb (zlen keys =? zlen values) with CompactKeyValueLengthMismatch (zlen keys) (zlen values);
      let? _ := ensure_within_cap (zlen keys) in
      Ok (omap (fun v => v) (last_wins (zip keys values)))
  end.

(** A concrete map represents an abstract one. *)
Definition pm_repr (self : PropertyMap) (M : gmap bytes Value) : Prop := pm_wf self /\ abs self = M.

Lemma short_sorted {A} (key : A -> bytes) l : (length l <=? 1)%nat = true -> sorted key l.
Proof.
  destruct l as [|x [|y l]]; [intros _; apply sorted_nil| |done]. intros _. apply sorted_cons. split; [constructor|apply sorted_nil].
Qed.

Lemma collapse_sort {V} (l : list (bytes * V)) :
  sorted fst (collapse [] (sort_by fst l)) /\ map_of (collapse [] (sort_by fst l)) = last_wins l.
Proof.
  assert (Hs : sorted fst (collapse [] (sort_by fst l))).
  { apply collapse_sorted; [apply sorted_nil|apply sort_by_sorted|]. intros x y []%elem_of_nil. }
  split; [done|]. rewrite <- last_wins_sorted by done. rewrite collapse_last_wins. apply last_wins_sort.
Qed.

Lemma from_pairs_repr entries :
  match from_pairs entries, spec_make (FromPairs entries) with
  | Ok self, Ok M => pm_repr self M
  | Err e, Err e' => e = e'
  | _, _ => False
  end.
Proof.
  unfold from_pairs. cbn [spec_make]. destruct (validate_all _) as [[]|e]; [|done].
  assert (Hstd : forall l, sorted fst l -> map_of l = last_wins entries ->
    match (let? _ := ensure_within_cap (zlen l) in Ok (Standard l)),
          (let? _ := ensure_within_cap (Z.of_nat (size (last_wins entries))) in Ok (last_wins entries)) with
    | Ok self, Ok M => pm_repr self M | Err e, Err e' => e = e' | _, _ => False end).
  { intros l Hs <-. assert (size (map_of l) = length l) as -> by (by apply map_size_list_to_map, sorted_keys).
    unfold ensure_within_cap, zlen. destruct (Z.ltb_spec MAX_PROPERTY_COUNT (Z.of_nat (length l))); [done|]. by repeat split. }
  destruct (length entries <=? 1)%nat eqn:E1.
  - pose proof (short_sorted fst entries E1) as Hs. specialize (Hstd entries Hs (eq_sym (last_wins_sorted _ Hs))).
    unfold ensure_within_cap at 1 in Hstd. apply Nat.leb_le in E1.
    rewrite (proj2 (Z.ltb_ge MAX_PROPERTY_COUNT (zlen entries))) in Hstd by (unfold zlen, MAX_PROPERTY_COUNT, u32_max; lia). exact Hstd.
  - destruct (ascending fst entries) eqn:E2.
    + apply ascending_sorted in E2. apply Hstd; [done|]. symmetry. by apply last_wins_sorted.
    + destruct (collapse_sort entries) as [Hs Hm]. by apply Hstd.
Qed.

Lemma compact_map (l : list (bytes * option Value)) :
  sorted fst l -> map_of (compact_to_standard (map fst l) (map snd l)) = omap (fun v => v) (map_of l).
Proof.
  intros Hs. induction l as [|[k v] l IH]; [symmetry; apply omap_empty|]. pose proof Hs as [Hk Hs']%sorted_cons.
  assert (Hn : map_of l !! k = None) by (by apply above_None). specialize (IH Hs'). rewrite map_of_cons.
  destruct v as [v|].
  - rewrite (omap_insert_Some _ _ _ _ v) by done. by rewrite <- IH.
  - rewrite omap_insert_None by done. etrans; [exact IH|]. symmetry. apply delete_id. rewrite lookup_omap. by rewrite Hn.
Qed.

Lemma compact_repr keys values :
  match compact keys values, spec_make (CompactOf keys values) with
  | Ok self, Ok M => pm_repr self M
  | Err e, Err e' => e = e'
  | _, _ => False
  end.
Proof.
  unfold compact. cbn [spec_make]. destruct (validate_all _) as [[]|e]; [|done].
  destruct (Z.eqb_spec (zlen keys) (zlen values)) as [Hl|]; cbn [negb]; [|done].
  unfold ensure_within_cap. destruct (Z.ltb_spec MAX_PROPERTY_COUNT (zlen keys)) as [|Hc]; [done|].
  assert (Hz : map fst (zip keys values) = keys /\ map snd (zip keys values) = values).
  { split; [apply fst_zip|apply snd_zip]; unfold zlen in Hl; lia. }
  destruct ((length keys <=? 1)%nat || ascending_names keys) eqn:E.
  - assert (Hs : sorted_names keys) by (apply orb_true_iff in E as [E|E]; [by apply short_sorted|by apply ascending_sorted]).
    assert (Hs' : sorted fst (zip keys values)) by (unfold sorted in *; rewrite (proj1 Hz); by rewrite map_id in Hs).
    split; [split; [done|]; split; [unfold zlen in *; lia|done]|]. unfold abs. cbn [pm_iter]. rewrite compact_iter_eq.
    rewrite last_wins_sorted by done. rewrite <- compact_map by done. by destruct Hz as [-> ->].
  - destruct (collapse_sort (zip keys values)) as [Hs Hm]. rewrite <- Hm. split.
    + split; [unfold sorted in *; by rewrite map_id|]. rewrite !length_map. split; [done|].
      unfold zlen. rewrite length_map.
      assert (Hle : (length (collapse [] (sort_by fst (zip keys values))) <= length (zip keys values))%nat).
      { etrans; [apply collapse_length|]. by rewrite (sort_by_perm fst). }
      rewrite length_zip in Hle. unfold zlen in Hc. lia.
    + unfold abs. cbn [pm_iter]. rewrite compact_iter_eq. by apply compact_map.
Qed.

(** *** Calls *)

Inductive Call :=
| Get (key : bytes)
| Set_ (key : bytes) (value : Value)
| Remove (key : bytes)
| ContainsKey (key : bytes)
| Len
| IsEmpty.

Inductive Answer :=
| Found (v : option Value)
| Done (r : result CoreError unit)
| Flag (b : bool)
| Count (n : Z).

Definition pm_step (call : Call) (self : PropertyMap) : Answer * PropertyMap :=
  match call with
  | Get key => (Found (pm_get key self), self)
  | Set_ key value => match pm_set key value self with Ok self => (Done (Ok tt), self) | Err e => (Done (Err e), self) end
  | Remove key => let '(v, self) := pm_remove key self in (Found v, self)
  | ContainsKey key => (Flag (contains_key key self), self)
  | Len => (Count (pm_len self), self)
  | IsEmpty => (Flag (pm_is_empty self), self)
  end.

(** The same call of a finite map. *)
Definition spec_step (call : Call) (M : gmap bytes Value) : Answer * gmap bytes Value :=
  let count := Z.of_nat (size M) in
  match call with
  | Get key => (Found (M !! key), M)
  | Set_ key value =>
      match validate value with
      | Err e => (Done (Err (StoredValue e)), M)
      | Ok _ =>
          if bool_decide (M !! key = None) && (MAX_PROPERTY_COUNT <? count + 1)
          then (Done (Err (ConstructedValueTooLarge (count + 1) u32_max)), M)
          else (Done (Ok tt), <[key := value]> M)
      end
  | Remove key => (Found (M !! key), delete key M)
  | ContainsKey key => (Flag (bool_decide (is_Some (M !! key))), M)
  | Len => (Count count, M)
  | IsEmpty => (Flag (count =? 0), M)
  end.

Fixpoint run {S} (f : Call -> S -> Answer * S) (calls : list Call) (s : S) : list Answer * S :=
  match calls with
  | [] => ([], s)
  | call :: calls =>
      let '(a, s) := f call s in
      let '(l, s) := run f calls s in
      (a :: l, s)
  end.

Lemma pm_step_repr call self M : pm_repr self M ->
  fst (pm_step call self) = fst (spec_step call M) /\ pm_repr (snd (pm_step call self)) (snd (spec_step call M)).
Proof.
  intros HR. pose proof HR as [Hw HA]. destruct call as [key|key value|key|key| |]; cbn [pm_step spec_step fst snd].
  - split; [|done]. by rewrite pm_get_abs, HA.
  - destruct (validate value) as [[]|e] eqn:Hv.
    + pose proof (pm_set_abs self key value Hw Hv) as HS. rewrite HA in HS. destruct (pm_set key value self) as [self'|e]; cbn [fst snd].
      * destruct HS as (Hw' & Habs & Hc). destruct (bool_decide_reflect (M !! key = None)) as [Hn|]; [|done].
        rewrite (proj2 (Z.ltb_ge MAX_PROPERTY_COUNT _)) by auto. done.
      * destruct HS as (Hn & Hlt & ->). rewrite bool_decide_true by done. rewrite (proj2 (Z.ltb_lt MAX_PROPERTY_COUNT _)) by done. done.
    + unfold pm_set. rewrite Hv. done.
  - pose proof (pm_remove_abs self key Hw) as (H1 & H2 & H3). destruct (pm_remove key self) as [v self']. cbn [fst snd] in *.
    rewrite HA in *. split; [by f_equal|]. done.
  - split; [|done]. unfold contains_key. by rewrite pm_get_abs, HA.
  - split; [|done]. by rewrite pm_len_abs, HA.
  - split; [|done]. unfold pm_is_empty. by rewrite pm_len_abs, HA.
Qed.

Lemma pm_run_repr calls self M : pm_repr self M ->
  fst (run pm_step calls self) = fst (run spec_step calls M) /\ pm_repr (snd (run pm_step calls self)) (snd (run spec_step calls M)).
Proof.
  revert self M. induction calls as [|call calls IH]; intros self M HR; [done|]. cbn [run].
  destruct (pm_step_repr call self M HR) as [HA HB]. destruct (pm_step call self) as [a self1], (spec_step call M) as [a' M1]. cbn in *.
  destruct (IH _ _ HB) as [HC HD]. destruct (run pm_step calls self1), (run spec_step calls M1). cbn in *. by subst.
Qed.

Lemma make_repr m :
  match make m, spec_make m with
  | Ok self, Ok M => pm_repr self M
  | Err e, Err e' => e = e'
  | _, _ => False
  end.
Proof. destruct m as [entries|keys values]; [apply from_pairs_repr|apply compact_repr]. Qed.
End Maps.

(** C38: a property map is a finite map.  However it is made, from pairs or as a
    compact map, it is made exactly when the finite map is, with the same error
    otherwise; and every sequence of calls then gives the answers of the finite
    map, errors included, whichever representation it passes through.  Iterating
    yields the pairs of the finite map in ascending order of keys. *)
Theorem property_map_refines `{Leaves} m calls :
  match make m, spec_make m with
  | Ok self, Ok M =>
      let '(answers, self) := run pm_step calls self in
      let '(answers', M) := run spec_step calls M in
      answers = answers' /\ sorted fst (pm_iter self) /\ forall k v, (k, v) ∈ pm_iter self <-> M !! k = Some v
  | Err e, Err e' => e = e'
  | _, _ => False
  end.
Proof.
  pose proof (make_repr m) as HM. destruct (make m) as [self|e], (spec_make m) as [M|e']; try done.
  pose proof (pm_run_repr calls self M HM) as [HA [Hw HB]]. destruct (run pm_step calls self) as [answers self'],
    (run spec_step calls M) as [answers' M']. cbn [fst snd] in *. split; [done|]. pose proof (iter_sorted _ Hw) as Hs. split; [done|].
  intros k v. rewrite <- HB. unfold abs, map_of. by apply elem_of_list_to_map, sorted_keys.
Qed.

(** ** Diffs *)

Section Diffs.
Context `{Leaves}.

Lemma first_overlap_spec {A} (key : A -> bytes) fuel left right :
  (length left + length right <= fuel)%nat -> sorted key left -> sorted_names right ->
  match first_overlap_loop key fuel left right with
  | Some k => k ∈ map key left /\ k ∈ right /\ forall k', k' ∈ map key left -> k' ∈ right -> ~ bytes_lt k' k
  | None => forall k, k ∈ map key left -> k ∉ right
  end.
Proof.
  revert left right. induction fuel as [|fuel IH]; intros left right Hf Hl Hr; cbn [first_overlap_loop].
  { destruct left, right; cbn in *; try lia. intros k []%elem_of_nil. }
  destruct left as [|x left]; [intros k []%elem_of_nil|]. destruct right as [|y right]; [intros k _ []%elem_of_nil|].
  pose proof Hl as [Hx Hl']%sorted_cons. pose proof Hr as [Hy Hr']%sorted_cons. rewrite Forall_forall in Hx. rewrite Forall_forall in Hy. cbn [map].
  assert (Hxs : forall k, k ∈ map key left -> bytes_lt (key x) k) by (intros k (z & -> & Hz)%list_elem_of_fmap; by apply Hx).
  destruct (bytes_compare (key x) y) eqn:C.
  - apply bytes_compare_eq in C as <-. split; [by left|]. split; [by left|]. intros k [->|Hk]%elem_of_cons _ Hlt; [by apply bytes_lt_irrefl in Hlt|].
    apply Hxs in Hk. apply (bytes_lt_irrefl k). by etrans.
  - specialize (IH left (y :: right) ltac:(cbn in *; lia) Hl' Hr). assert (Hno : key x ∉ y :: right).
    { intros [Exy|Hin]%elem_of_cons; [rewrite Exy, bytes_compare_refl in C; done|]. apply Hy in Hin.
      apply (bytes_lt_irrefl (key x)). by transitivity y. }
    destruct (first_overlap_loop key fuel left (y :: right)) as [k|].
    + destruct IH as (H1 & H2 & H3). split; [by right|]. split; [done|]. intros k' [->|Hk']%elem_of_cons; [done|by apply H3].
    + intros k [->|Hk]%elem_of_cons; [done|by apply IH].
  - specialize (IH (x :: left) right ltac:(cbn in *; lia) Hl Hr'). apply bytes_compare_Gt in C. assert (Hno : y ∉ key x :: map key left).
    { intros [Exy|Hin]%elem_of_cons; [rewrite Exy in C; by apply bytes_lt_irrefl in C|]. apply Hxs in Hin.
      apply (bytes_lt_irrefl y). by transitivity (key x). }
    destruct (first_overlap_loop key fuel (x :: left) right) as [k|].
    + destruct IH as (H1 & H2 & H3). split; [done|]. split; [by right|]. intros k' Hk' [->|Hr2]%elem_of_cons; [done|by apply H3].
    + intros k Hk [->|Hr2]%elem_of_cons; [done|]. by apply (IH k).
Qed.

Lemma sorted_deduped_spec l : sorted_names (sorted_deduped l) /\ forall x, x ∈ sorted_deduped l <-> x ∈ l.
Proof.
  unfold sorted_deduped. destruct (1 <? length l)%nat eqn:E1; cbn [andb].
  - destruct (ascending_names l) eqn:E2; cbn [negb]; [by rewrite <- ascending_sorted|].
    destruct (LabelSet.dedup_sorted _ (sort_by_sorted (fun x => x) l)) as [Hs He]. split; [done|]. intros x.
    by rewrite He, (sort_by_perm (fun x => x) l).
  - split; [|done]. apply short_sorted. apply Nat.ltb_ge in E1. by apply Nat.leb_le.
Qed.
End Diffs.

(** Diffs are canonical and never contradict themselves.  A label diff that
    is built has both lists strictly ascending with the elements given, and no
    label in both; it is refused exactly when some label is given twice, and the
    error names the least such label. *)
Theorem label_diff_canonical added removed :
  match label_diff_new added removed with
  | Ok d => (sorted_names (ld_added d) /\ forall x, x ∈ ld_added d <-> x ∈ added) /\
      (sorted_names (ld_removed d) /\ forall x, x ∈ ld_removed d <-> x ∈ removed) /\ forall x, x ∈ added -> x ∉ removed
  | Err (OverlappingDiff kind key) => kind = "label" /\ key ∈ added /\ key ∈ removed /\
      forall x, x ∈ added -> x ∈ removed -> ~ bytes_lt x key
  | Err _ => False
  end.
Proof.
  unfold label_diff_new. destruct (sorted_deduped_spec added) as [Sa Ea], (sorted_deduped_spec removed) as [Sr Er].
  pose proof (first_overlap_spec (fun x => x) _ _ _ (le_n _) Sa Sr) as HO. unfold first_overlap.
  destruct (first_overlap_loop _ _ _ _) as [k|]; rewrite map_id in HO.
  - destruct HO as (H1 & H2 & H3). rewrite Ea in H1. rewrite Er in H2. split_and!; [done..|]. intros x Hx Hr. apply H3; [by apply Ea|by apply Er].
  - split; [done|]. split; [done|]. intros x Hx Hr. apply (HO x); [by apply Ea|by apply Er].
Qed.
