(* ===== verification/Schema.v ===== *)
(** Graph definitions and their codec (selene-core: schema.rs, the type
    descriptors, logical/tags.rs and logical/schema.rs).

    The data types are those of the source.  [std::mem::size_of::<T>()] is a fact
    of the compiler: the class [Sizes] has one number per type.  The decoders of
    recursive types recurse as the source does; the depth check of the budget
    bounds the recursion, and [fuel_for] is the number of levels it leaves
    ([value_type_unfold] and [structure_unfold] of SchemaProps.v). *)

From S2P Require Import Prelude Errors Wire Value ValueCodec Ordered LabelSet PropertyMap.
From coqutil Require Import Byte.

(** ** Leaf types *)

Module PropertyValueType.
Inductive t :=
| Bool | Int | Uint | Int128 | Uint128 | Float | Float32 | Decimal | String | Bytes | List | Record | RecordTyped
| Path | NodeRef | EdgeRef | GraphRef | TableRef | ZonedDateTime | LocalDateTime | Date | ZonedTime | LocalTime
| Duration | DurationYearToMonth | DurationDayToSecond | Null | Uuid | Vector | Json.
End PropertyValueType.
Abbreviation PropertyValueType := PropertyValueType.t.

Module PredefinedValueType.
Inductive t :=
| Bool | Int | Int8 | Int16 | Int32 | Int64 | Int128 | Uint | Uint8 | Uint16 | Uint32 | Uint64 | Uint128
| Float | Float32 | Float64 | Decimal | String | Bytes | Date | LocalTime | ZonedTime | LocalDateTime | ZonedDateTime
| Duration | DurationYearToMonth | DurationDayToSecond | NodeRef | EdgeRef | GraphRef | TableRef | Path | Uuid
| Extended (id : Z) | Vector | Json.
End PredefinedValueType.
Abbreviation PredefinedValueType := PredefinedValueType.t.

Inductive ValueTypeCardinality := ExactlyOne | ZeroOrOne.
Inductive ValidationMode := Strict | Warn.

(** [DecimalType], [CharacterStringType] and [ByteStringType] with their
    checking constructors. *)
Record DecimalType := { dt_precision : Z; dt_scale : Z }.
Definition MAX_DECIMAL_PRECISION : Z := 29.
Definition MAX_DECIMAL_SCALE : Z := 28.
Definition decimal_type_new (precision scale : Z) : option DecimalType :=
  if (precision =? 0) || (MAX_DECIMAL_PRECISION <? precision) || (precision <? scale) || (MAX_DECIMAL_SCALE <? scale)
  then None else Some {| dt_precision := precision; dt_scale := scale |}.

Record CharacterStringType := { cs_min_len : Z; cs_max_len : Z }.
Definition MAX_CHARACTER_STRING_TYPE_LENGTH : Z := 2 ^ 20.
Definition character_string_type_new (min_len max_len : Z) : option CharacterStringType :=
  if (max_len =? 0) || (max_len <? min_len) || (MAX_CHARACTER_STRING_TYPE_LENGTH <? max_len)
  then None else Some {| cs_min_len := min_len; cs_max_len := max_len |}.

Record ByteStringType := { bs_min_len : Z; bs_max_len : Z }.
Definition MAX_BYTE_STRING_TYPE_LENGTH : Z := 2 ^ 20.
Definition byte_string_type_new (min_len max_len : Z) : option ByteStringType :=
  if (max_len =? 0) || (max_len <? min_len) || (MAX_BYTE_STRING_TYPE_LENGTH <? max_len)
  then None else Some {| bs_min_len := min_len; bs_max_len := max_len |}.

(** *** Structural types *)

Inductive DurationTypeQualifier := YearToMonth | DayToSecond.

Module ScalarType.
Inductive t :=
| Boolean | Int8 | Int16 | Int32 | Int64 | Int128 | Uint8 | Uint16 | Uint32 | Uint64 | Uint128 | Float | Float32 | Float64
| Decimal (bounds : option DecimalType) | String (bounds : option CharacterStringType) | Bytes (bounds : option ByteStringType)
| Uuid | Json | Vector | Date | LocalDateTime | ZonedDateTime | LocalTime | ZonedTime
| Duration (qualifier : option DurationTypeQualifier).
End ScalarType.

Module TypeKind.
Inductive t :=
| Dynamic | Property | Scalar (s : ScalarType.t)
| List (element : structural) (max_len : option Z)
| Record (fields : option (list (bytes * structural)))
| Union (members : list structural)
| NodeRef | EdgeRef | Path | GraphRef
| TableRef (fields : option (list (bytes * structural)))
| Null | Empty
with structural := Structural (kind : t) (nullable : bool).
End TypeKind.
Abbreviation StructuralType := TypeKind.structural.

(** [PropertyValueType::structural_type].  [StructuralType::new] and its variants
    return these descriptors as they are: none has bounds, fields or members. *)
Definition structural_type (v : PropertyValueType) : StructuralType :=
  let scalar s := TypeKind.Structural (TypeKind.Scalar s) true in
  match v with
  | PropertyValueType.List => TypeKind.Structural (TypeKind.List (TypeKind.Structural TypeKind.Property true) None) true
  | PropertyValueType.Record | PropertyValueType.RecordTyped => TypeKind.Structural (TypeKind.Record None) true
  | PropertyValueType.NodeRef => TypeKind.Structural TypeKind.NodeRef true
  | PropertyValueType.EdgeRef => TypeKind.Structural TypeKind.EdgeRef true
  | PropertyValueType.Path => TypeKind.Structural TypeKind.Path true
  | PropertyValueType.GraphRef => TypeKind.Structural TypeKind.GraphRef true
  | PropertyValueType.TableRef => TypeKind.Structural (TypeKind.TableRef None) true
  | PropertyValueType.Null => TypeKind.Structural TypeKind.Null true
  | PropertyValueType.Bool => scalar ScalarType.Boolean
  | PropertyValueType.Int => scalar ScalarType.Int64
  | PropertyValueType.Uint => scalar ScalarType.Uint64
  | PropertyValueType.Int128 => scalar ScalarType.Int128
  | PropertyValueType.Uint128 => scalar ScalarType.Uint128
  | PropertyValueType.Float => scalar ScalarType.Float64
  | PropertyValueType.Float32 => scalar ScalarType.Float32
  | PropertyValueType.Decimal => scalar (ScalarType.Decimal None)
  | PropertyValueType.String => scalar (ScalarType.String None)
  | PropertyValueType.Bytes => scalar (ScalarType.Bytes None)
  | PropertyValueType.ZonedDateTime => scalar ScalarType.ZonedDateTime
  | PropertyValueType.LocalDateTime => scalar ScalarType.LocalDateTime
  | PropertyValueType.Date => scalar ScalarType.Date
  | PropertyValueType.ZonedTime => scalar ScalarType.ZonedTime
  | PropertyValueType.LocalTime => scalar ScalarType.LocalTime
  | PropertyValueType.Duration => scalar (ScalarType.Duration None)
  | PropertyValueType.DurationYearToMonth => scalar (ScalarType.Duration (Some YearToMonth))
  | PropertyValueType.DurationDayToSecond => scalar (ScalarType.Duration (Some DayToSecond))
  | PropertyValueType.Uuid => scalar ScalarType.Uuid
  | PropertyValueType.Json => scalar ScalarType.Json
  | PropertyValueType.Vector => scalar ScalarType.Vector
  end.

(** [StructuralType::is_storable_descriptor]. *)
Fixpoint is_storable_descriptor (ty : StructuralType) : bool :=
  let '(TypeKind.Structural kind _) := ty in
  match kind with
  | TypeKind.Scalar _ | TypeKind.Property | TypeKind.Null | TypeKind.Record None => true
  | TypeKind.List element _ => is_storable_descriptor element
  | TypeKind.Union members => forallb is_storable_descriptor members
  | TypeKind.Record (Some fields) => forallb (fun '(_, ty) => is_storable_descriptor ty) fields
  | TypeKind.Dynamic | TypeKind.Empty | TypeKind.NodeRef | TypeKind.EdgeRef | TypeKind.Path | TypeKind.GraphRef
  | TypeKind.TableRef _ => false
  end.

(** ** Definitions *)

(** [RecordFieldStructure], [RecordFieldStructureDef] and [RecordFieldStructureType]. *)
Module Fields.
Inductive structure :=
| Open
| Closed (fields : list def)
with def := Def (name : bytes) (field_type : type) (required : bool)
with type :=
| Scalar (v : PropertyValueType)
| CharacterString (v : CharacterStringType)
| Decimal (v : DecimalType)
| ByteString (v : ByteStringType)
| List (v : type)
| Record (v : structure)
| NotNull (v : type).
End Fields.

(** [ValueType]. *)
Inductive ValueType := VT {
  vt_predefined : option PredefinedValueType;
  vt_decimal_type : option DecimalType;
  vt_character_string_type : option CharacterStringType;
  vt_byte_string_type : option ByteStringType;
  vt_union : option (list ValueType);
  vt_list_of : option ValueType;
  vt_record : option Z;
  vt_not_null : bool;
  vt_cardinality : ValueTypeCardinality
}.

(** [EdgeEndpointDef]; a [NodeTypeRef] is the name it wraps. *)
Inductive EdgeEndpointDef :=
| Any
| NodeType (name : bytes)
| OneOf (names : list bytes).

Section Definitions.
Context `{Leaves}.

Record PropertyDef := {
  prop_name : bytes;
  prop_value_type : ValueType;
  prop_nullable : bool;
  prop_default : option Value;
  prop_immutable : bool;
  prop_unique : bool;
  prop_record_fields : option Fields.structure
}.

Record NodeTypeDef := {
  node_labels : LabelSet.t;
  node_properties : list PropertyDef;
  node_key : option (list bytes);
  node_validation_mode : ValidationMode
}.

Record EdgeTypeDef := {
  edge_label : bytes;
  edge_source_node_type : EdgeEndpointDef;
  edge_target_node_type : EdgeEndpointDef;
  edge_properties : list PropertyDef;
  edge_validation_mode : ValidationMode
}.

Record GraphDefinition := {
  def_name : bytes;
  def_nodes : list (bytes * NodeTypeDef);
  def_edges : list (bytes * EdgeTypeDef)
}.
End Definitions.

(** [size_of] of the types the codec counts. *)
Class Sizes := {
  size_node_entry : Z;       (** [(DbString, NodeTypeDef)] *)
  size_edge_entry : Z;       (** [(DbString, EdgeTypeDef)] *)
  size_property_def : Z;
  size_value_type : Z;
  size_record_structure : Z;
  size_field_type : Z;
  size_change : Z
}.

(** ** Tags (logical/tags.rs) *)

Module IndexKind.
Inductive t :=
| Bool | I64 | U64 | I128 | U128 | Decimal | F32 | F64 | String | Date | LocalDateTime | ZonedDateTime
| LocalTime | ZonedTime | Duration | Uuid.
End IndexKind.

Module VectorKind.
Inductive t :=
| Flat | HnswSquaredEuclidean | HnswCosine | HnswNegativeInnerProduct
| IvfSquaredEuclidean | IvfCosine | IvfNegativeInnerProduct | TurboQuantCosine.
End VectorKind.

(** The tables of the [tags!] macro: [$tag => $variant]. *)
Definition index_kind_tags : list (Z * IndexKind.t) := [
  (1, IndexKind.Bool); (2, IndexKind.I64); (3, IndexKind.U64); (4, IndexKind.I128); (5, IndexKind.U128); (6, IndexKind.Decimal);
  (7, IndexKind.F32); (8, IndexKind.F64); (9, IndexKind.String); (10, IndexKind.Date); (11, IndexKind.LocalDateTime);
  (12, IndexKind.ZonedDateTime); (13, IndexKind.LocalTime); (14, IndexKind.ZonedTime); (15, IndexKind.Duration); (16, IndexKind.Uuid)].
Definition vector_kind_tags : list (Z * VectorKind.t) := [
  (1, VectorKind.Flat); (2, VectorKind.HnswSquaredEuclidean); (3, VectorKind.HnswCosine); (4, VectorKind.HnswNegativeInnerProduct);
  (5, VectorKind.IvfSquaredEuclidean); (6, VectorKind.IvfCosine); (7, VectorKind.IvfNegativeInnerProduct); (8, VectorKind.TurboQuantCosine)].
Definition property_kind_tags : list (Z * PropertyValueType) :=
  let P := fun t v => (t, v) in [
  P 0 PropertyValueType.Null; P 1 PropertyValueType.Bool; P 2 PropertyValueType.Int; P 3 PropertyValueType.Uint;
  P 4 PropertyValueType.Int128; P 5 PropertyValueType.Uint128; P 6 PropertyValueType.Float; P 7 PropertyValueType.Float32;
  P 8 PropertyValueType.Decimal; P 9 PropertyValueType.String; P 10 PropertyValueType.Bytes; P 11 PropertyValueType.List;
  P 12 PropertyValueType.Record; P 13 PropertyValueType.RecordTyped; P 14 PropertyValueType.Uuid; P 15 PropertyValueType.Vector;
  P 16 PropertyValueType.Json; P 17 PropertyValueType.Date; P 18 PropertyValueType.LocalTime; P 19 PropertyValueType.ZonedTime;
  P 20 PropertyValueType.LocalDateTime; P 21 PropertyValueType.ZonedDateTime; P 22 PropertyValueType.Duration;
  P 23 PropertyValueType.DurationYearToMonth; P 24 PropertyValueType.DurationDayToSecond; P 240 PropertyValueType.Path;
  P 241 PropertyValueType.NodeRef; P 242 PropertyValueType.EdgeRef; P 243 PropertyValueType.GraphRef; P 244 PropertyValueType.TableRef].

(** The predefined types that have a tag; the others are refused. *)
Definition predefined_tags : list (Z * PredefinedValueType) :=
  let P := fun t v => (t, v) in [
  P 1 PredefinedValueType.Bool; P 2 PredefinedValueType.Int; P 3 PredefinedValueType.Int8; P 4 PredefinedValueType.Int16;
  P 5 PredefinedValueType.Int32; P 6 PredefinedValueType.Int64; P 7 PredefinedValueType.Int128; P 8 PredefinedValueType.Uint;
  P 9 PredefinedValueType.Uint8; P 10 PredefinedValueType.Uint16; P 11 PredefinedValueType.Uint32; P 12 PredefinedValueType.Uint64;
  P 13 PredefinedValueType.Uint128; P 14 PredefinedValueType.Float; P 15 PredefinedValueType.Float32; P 16 PredefinedValueType.Float64;
  P 17 PredefinedValueType.Decimal; P 18 PredefinedValueType.String; P 19 PredefinedValueType.Bytes; P 20 PredefinedValueType.Date;
  P 21 PredefinedValueType.LocalTime; P 22 PredefinedValueType.ZonedTime; P 23 PredefinedValueType.LocalDateTime;
  P 24 PredefinedValueType.ZonedDateTime; P 25 PredefinedValueType.Duration; P 26 PredefinedValueType.DurationYearToMonth;
  P 27 PredefinedValueType.DurationDayToSecond; P 28 PredefinedValueType.Uuid; P 29 PredefinedValueType.Vector; P 30 PredefinedValueType.Json].

#[export] Instance index_kind_eq : EqDecision IndexKind.t.
Proof. solve_decision. Defined.
#[export] Instance vector_kind_eq : EqDecision VectorKind.t.
Proof. solve_decision. Defined.
#[export] Instance property_value_type_eq : EqDecision PropertyValueType.
Proof. solve_decision. Defined.
#[export] Instance predefined_value_type_eq : EqDecision PredefinedValueType.
Proof. solve_decision. Defined.

Section Tags.
Context {T : Type} `{EqDecision T} (tags : list (Z * T)).

(** [match value { $variant => $tag }] and [match tag { $tag => $variant }]. *)
Definition tag_of (value : T) : option Z := fst <$> List.find (fun p => bool_decide (snd p = value)) tags.
Definition variant_of (tag : Z) : option T := snd <$> List.find (fun p => fst p =? tag) tags.

(** The methods the macro defines; [missing] is the error of a variant without a tag. *)
Definition encode_tag (missing : CodecError) (value : T) : Encoder.M unit :=
  do tag <- of_result (ok_or (tag_of value) missing);
  Encoder.u8 tag.
Definition decode_tag (what : string) : Decoder.M T :=
  do tag <- Decoder.u8;
  of_result (ok_or (variant_of tag) (E_Invalid what)).
End Tags.

Definition encode_index_kind := encode_tag index_kind_tags E_Semantic.
Definition decode_index_kind := decode_tag index_kind_tags "index_kind".
Definition encode_vector_kind := encode_tag vector_kind_tags E_Semantic.
Definition decode_vector_kind := decode_tag vector_kind_tags "vector_kind".
Definition encode_property_kind := encode_tag property_kind_tags E_Semantic.
Definition decode_property_kind := decode_tag property_kind_tags "property_kind".
Definition encode_predefined := encode_tag predefined_tags E_Semantic.
Definition decode_predefined := decode_tag predefined_tags "predefined type".

(** ** Encoding (logical/schema.rs) *)

(** [self.boolean(o.is_some())?; if let Some(x) = o { f(x)? }]. *)
Definition encode_option {A} (f : A -> Encoder.M unit) (o : option A) : Encoder.M unit :=
  Encoder.boolean (bool_decide (is_Some o)) ;;
  match o with Some x => f x | None => ret tt end.

(** [if self.boolean()? { Some(d) } else { None }]. *)
Definition decode_option {A} (d : Decoder.M A) : Decoder.M (option A) :=
  do present <- Decoder.boolean;
  if present : bool then do x <- d; ret (Some x) else ret None.

(** [metadata::<U>]. *)
Definition metadata_charge (size : Z) : method Budget.t CodecError unit :=
  Budget.metadata 1 ;;
  Budget.charge 1 (Z.max (saturating_mul size 4) 128).

Definition encode_validation_mode (mode : ValidationMode) : Encoder.M unit :=
  Encoder.u8 (match mode with Strict => 0 | Warn => 1 end).

(** [Encoder::labels]. *)
Definition encode_labels (labels : LabelSet.t) : Encoder.M unit :=
  Encoder.count (LabelSet.len labels) ;;
  for_each Encoder.text labels.

(** [names.windows(2).any(|p| p[0] == p[1])]. *)
Fixpoint repeats (l : list bytes) : bool :=
  match l with
  | x :: ((y :: _) as t) => bool_decide (x = y) || repeats t
  | _ => false
  end.

(** [Encoder::endpoint]. *)
Definition encode_endpoint (endpoint : EdgeEndpointDef) : Encoder.M unit :=
  match endpoint with
  | Any => Encoder.u8 0
  | NodeType name => Encoder.u8 1 ;; Encoder.text name
  | OneOf names =>
      Encoder.u8 2 ;;
      Encoder.count (zlen names) ;;
      let names := sort_by (fun x => x) names in
      fail_if ((zlen names <? 2) || repeats names) E_Semantic ;;
      for_each Encoder.text names
  end.

Definition encode_decimal_bounds (bounds : DecimalType) : Encoder.M unit :=
  Encoder.u32 (dt_precision bounds) ;;
  Encoder.u32 (dt_scale bounds).
Definition encode_character_bounds (bounds : CharacterStringType) : Encoder.M unit :=
  Encoder.u64 (cs_min_len bounds) ;;
  Encoder.u64 (cs_max_len bounds).
Definition encode_byte_bounds (bounds : ByteStringType) : Encoder.M unit :=
  Encoder.u64 (bs_min_len bounds) ;;
  Encoder.u64 (bs_max_len bounds).
Definition encode_cardinality (c : ValueTypeCardinality) : Encoder.M unit :=
  Encoder.u8 (match c with ExactlyOne => 0 | ZeroOrOne => 1 end).

Section EncodeSchema.
Context `{Leaves} `{Sizes}.

(** [Encoder::value_type]. *)
Fixpoint encode_value_type (ty : ValueType) (depth : Z) : Encoder.M unit :=
  Encoder.on_budget (Budget.depth depth) ;;
  Encoder.on_budget (metadata_charge size_value_type) ;;
  match ty with
  | VT predefined decimal_type character_string_type byte_string_type union list_of record not_null cardinality =>
      fail_if (bool_decide (is_Some union) || bool_decide (is_Some record)) (E_Invalid "legacy type reference/union") ;;
      encode_option encode_predefined predefined ;;
      encode_option encode_decimal_bounds decimal_type ;;
      encode_option encode_character_bounds character_string_type ;;
      encode_option encode_byte_bounds byte_string_type ;;
      encode_option (fun inner => encode_value_type inner (depth + 1)) list_of ;;
      Encoder.boolean not_null ;;
      encode_cardinality cardinality
  end.

(** [Encoder::record_structure] and [Encoder::field_type]. *)
Fixpoint encode_structure (record : Fields.structure) (depth : Z) : Encoder.M unit :=
  Encoder.on_budget (Budget.depth depth) ;;
  Encoder.on_budget (metadata_charge size_record_structure) ;;
  match record with
  | Fields.Open => Encoder.u8 0
  | Fields.Closed fields =>
      Encoder.u8 1 ;;
      Encoder.count (zlen fields) ;;
      for_each (fun '(Fields.Def name field_type required) =>
        Encoder.text name ;;
        encode_field_type field_type (depth + 1) ;;
        Encoder.boolean required) fields
  end
with encode_field_type (ty : Fields.type) (depth : Z) : Encoder.M unit :=
  Encoder.on_budget (Budget.depth depth) ;;
  Encoder.on_budget (metadata_charge size_field_type) ;;
  match ty with
  | Fields.Scalar v =>
      fail_if (negb (is_storable_descriptor (structural_type v))) E_Semantic ;;
      Encoder.u8 0 ;;
      encode_property_kind v
  | Fields.CharacterString v => Encoder.u8 1 ;; encode_character_bounds v
  | Fields.Decimal v => Encoder.u8 2 ;; encode_decimal_bounds v
  | Fields.ByteString v => Encoder.u8 3 ;; encode_byte_bounds v
  | Fields.List v => Encoder.u8 4 ;; encode_field_type v (depth + 1)
  | Fields.Record v => Encoder.u8 5 ;; encode_structure v (depth + 1)
  | Fields.NotNull v => Encoder.u8 6 ;; encode_field_type v (depth + 1)
  end.

(** One property of [Encoder::properties_definition]. *)
Definition encode_property_def (property : PropertyDef) : Encoder.M unit :=
  Encoder.on_budget (Budget.metadata 1) ;;
  Encoder.text (prop_name property) ;;
  encode_value_type (prop_value_type property) 1 ;;
  Encoder.boolean (prop_nullable property) ;;
  encode_option (fun v => encode_value_at v 1) (prop_default property) ;;
  Encoder.boolean (prop_immutable property) ;;
  Encoder.boolean (prop_unique property) ;;
  encode_option (fun r => encode_structure r 1) (prop_record_fields property).

Definition encode_properties_definition (properties : list PropertyDef) : Encoder.M unit :=
  Encoder.count_for size_property_def (zlen properties) ;;
  for_each encode_property_def properties.

(** The node and edge loops of [Encoder::graph_definition]. *)
Definition encode_node_type (entry : bytes * NodeTypeDef) : Encoder.M unit :=
  let '(name, node) := entry in
  Encoder.on_budget (Budget.metadata 1) ;;
  fail_if (bool_decide (is_Some (node_key node))) (E_Invalid "legacy node key") ;;
  Encoder.text name ;;
  encode_labels (node_labels node) ;;
  encode_properties_definition (node_properties node) ;;
  encode_validation_mode (node_validation_mode node).

Definition encode_edge_type (entry : bytes * EdgeTypeDef) : Encoder.M unit :=
  let '(name, edge) := entry in
  Encoder.on_budget (Budget.metadata 1) ;;
  Encoder.text name ;;
  Encoder.text (edge_label edge) ;;
  encode_endpoint (edge_source_node_type edge) ;;
  encode_endpoint (edge_target_node_type edge) ;;
  encode_properties_definition (edge_properties edge) ;;
  encode_validation_mode (edge_validation_mode edge).

(** [Encoder::graph_definition]. *)
Definition encode_graph_definition (def : GraphDefinition) : Encoder.M unit :=
  Encoder.on_budget (Budget.metadata 1) ;;
  Encoder.text (def_name def) ;;
  Encoder.count_for size_node_entry (zlen (def_nodes def)) ;;
  for_each encode_node_type (def_nodes def) ;;
  Encoder.count_for size_edge_entry (zlen (def_edges def)) ;;
  for_each encode_edge_type (def_edges def).
End EncodeSchema.

(** ** Decoding *)

Definition decode_validation_mode : Decoder.M ValidationMode :=
  do tag <- Decoder.u8;
  match tag with
  | 0 => ret Strict
  | 1 => ret Warn
  | _ => throw (E_Invalid "validation mode")
  end.

(** [previous.as_ref().is_some_and(|p| p >= &name)]. *)
Definition not_after (previous : option bytes) (name : bytes) : bool :=
  match previous with Some p => bytes_leb name p | None => false end.

(** The loop of [Decoder::labels]. *)
Fixpoint labels_loop (count : nat) (previous : option bytes) (labels : LabelSet.t) : Decoder.M LabelSet.t :=
  match count with
  | O => ret labels
  | S count =>
      do name <- decode_name;
      fail_if (not_after previous name) (E_Invalid "label order") ;;
      labels_loop count (Some name) (snd (LabelSet.insert name labels))
  end.

(** [Decoder::labels]. *)
Definition decode_labels : Decoder.M LabelSet.t :=
  do count <- Decoder.count;
  labels_loop (Z.to_nat count) None LabelSet.new.

(** A loop that reads names into a vector and compares each with the last one. *)
Fixpoint names_loop (what : string) (count : nat) (names : list bytes) : Decoder.M (list bytes) :=
  match count with
  | O => ret names
  | S count =>
      do name <- decode_name;
      fail_if (not_after (last names) name) (E_Invalid what) ;;
      names_loop what count (names ++ [name])
  end.

(** [Decoder::endpoint]. *)
Definition decode_endpoint : Decoder.M EdgeEndpointDef :=
  do tag <- Decoder.u8;
  match tag with
  | 0 => ret Any
  | 1 => do name <- decode_name; ret (NodeType name)
  | 2 =>
      do count <- Decoder.count;
      fail_if (count <? 2) (E_Invalid "endpoint arity") ;;
      do refs <- names_loop "endpoint order" (Z.to_nat count) [];
      ret (OneOf refs)
  | _ => throw (E_Invalid "endpoint tag")
  end.

(** [u16::try_from]. *)
Definition try_u16 (n : Z) : Decoder.M Z := of_result (if n <=? u16_max then Ok n else Err E_Semantic).

Definition decode_decimal_bounds : Decoder.M DecimalType :=
  do p <- Decoder.u32;
  do precision <- try_u16 p;
  do s <- Decoder.u32;
  do scale <- try_u16 s;
  of_result (ok_or (decimal_type_new precision scale) E_Semantic).
Definition decode_character_bounds : Decoder.M CharacterStringType :=
  do min_len <- Decoder.u64;
  do max_len <- Decoder.u64;
  of_result (ok_or (character_string_type_new min_len max_len) E_Semantic).
Definition decode_byte_bounds : Decoder.M ByteStringType :=
  do min_len <- Decoder.u64;
  do max_len <- Decoder.u64;
  of_result (ok_or (byte_string_type_new min_len max_len) E_Semantic).
Definition decode_cardinality : Decoder.M ValueTypeCardinality :=
  do tag <- Decoder.u8;
  match tag with
  | 0 => ret ExactlyOne
  | 1 => ret ZeroOrOne
  | _ => throw (E_Invalid "cardinality")
  end.

(** The levels that the depth limit leaves below [depth]. *)
Definition fuel_for (self : Decoder.t) (depth : Z) : nat := Z.to_nat (Limits.depth (Budget.limits (Decoder.budget self)) - depth + 1).

Section DecodeSchema.
Context `{Leaves} `{Sizes}.

(** [Decoder::value_type]; the depth check fails before the fuel is used up. *)
Fixpoint value_type_rec (fuel : nat) (depth : Z) : Decoder.M ValueType :=
  Decoder.on_budget (Budget.depth depth) ;;
  match fuel with
  | O => throw E_Limit
  | S fuel =>
      Decoder.on_budget (metadata_charge size_value_type) ;;
      do predefined <- decode_option decode_predefined;
      do decimal_type <- decode_option decode_decimal_bounds;
      do character_string_type <- decode_option decode_character_bounds;
      do byte_string_type <- decode_option decode_byte_bounds;
      do list_of <- decode_option (value_type_rec fuel (depth + 1));
      do not_null <- Decoder.boolean;
      do cardinality <- decode_cardinality;
      ret (VT predefined decimal_type character_string_type byte_string_type None list_of None not_null cardinality)
  end.
Definition decode_value_type (depth : Z) : Decoder.M ValueType := fun self => value_type_rec (fuel_for self depth) depth self.

(** [Decoder::record_structure] and [Decoder::field_type]. *)
Fixpoint structure_rec (fuel : nat) (depth : Z) : Decoder.M Fields.structure :=
  Decoder.on_budget (Budget.depth depth) ;;
  match fuel with
  | O => throw E_Limit
  | S fuel =>
      Decoder.on_budget (metadata_charge size_record_structure) ;;
      do tag <- Decoder.u8;
      match tag with
      | 0 => ret Fields.Open
      | 1 =>
          do count <- Decoder.count;
          do fields <- repeat_m (Z.to_nat count)
            (do name <- decode_name;
             do field_type <- field_type_rec fuel (depth + 1);
             do required <- Decoder.boolean;
             ret (Fields.Def name field_type required));
          ret (Fields.Closed fields)
      | _ => throw (E_Invalid "record structure tag")
      end
  end
with field_type_rec (fuel : nat) (depth : Z) : Decoder.M Fields.type :=
  Decoder.on_budget (Budget.depth depth) ;;
  match fuel with
  | O => throw E_Limit
  | S fuel =>
      Decoder.on_budget (metadata_charge size_field_type) ;;
      do tag <- Decoder.u8;
      match tag with
      | 0 =>
          do kind <- decode_property_kind;
          fail_if (negb (is_storable_descriptor (structural_type kind))) E_Semantic ;;
          ret (Fields.Scalar kind)
      | 1 => do v <- decode_character_bounds; ret (Fields.CharacterString v)
      | 2 => do v <- decode_decimal_bounds; ret (Fields.Decimal v)
      | 3 => do v <- decode_byte_bounds; ret (Fields.ByteString v)
      | 4 => do v <- field_type_rec fuel (depth + 1); ret (Fields.List v)
      | 5 => do v <- structure_rec fuel (depth + 1); ret (Fields.Record v)
      | 6 => do v <- field_type_rec fuel (depth + 1); ret (Fields.NotNull v)
      | _ => throw (E_Invalid "record field type tag")
      end
  end.
Definition decode_structure (depth : Z) : Decoder.M Fields.structure := fun self => structure_rec (fuel_for self depth) depth self.

(** One property of [Decoder::properties_definition]. *)
Definition decode_property_def : Decoder.M PropertyDef :=
  Decoder.on_budget (Budget.metadata 1) ;;
  do name <- decode_name;
  do value_type <- decode_value_type 1;
  do nullable <- Decoder.boolean;
  do default <- decode_option (decode_value_at 1);
  do immutable <- Decoder.boolean;
  do unique <- Decoder.boolean;
  do record_fields <- decode_option (decode_structure 1);
  ret {| prop_name := name; prop_value_type := value_type; prop_nullable := nullable; prop_default := default;
         prop_immutable := immutable; prop_unique := unique; prop_record_fields := record_fields |}.

Definition decode_properties_definition : Decoder.M (list PropertyDef) :=
  do count <- Decoder.count_for size_property_def;
  repeat_m (Z.to_nat count) decode_property_def.

(** The node and edge loops of [Decoder::graph_definition]. *)
Definition decode_node_type : Decoder.M (bytes * NodeTypeDef) :=
  Decoder.on_budget (Budget.metadata 1) ;;
  do name <- decode_name;
  do labels <- decode_labels;
  do properties <- decode_properties_definition;
  do validation_mode <- decode_validation_mode;
  ret (name, {| node_labels := labels; node_properties := properties; node_key := None; node_validation_mode := validation_mode |}).

Definition decode_edge_type : Decoder.M (bytes * EdgeTypeDef) :=
  Decoder.on_budget (Budget.metadata 1) ;;
  do name <- decode_name;
  do label <- decode_name;
  do source <- decode_endpoint;
  do target <- decode_endpoint;
  do properties <- decode_properties_definition;
  do validation_mode <- decode_validation_mode;
  ret (name, {| edge_label := label; edge_source_node_type := source; edge_target_node_type := target;
                edge_properties := properties; edge_validation_mode := validation_mode |}).

(** [Decoder::graph_definition]. *)
Definition decode_graph_definition : Decoder.M GraphDefinition :=
  Decoder.on_budget (Budget.metadata 1) ;;
  do name <- decode_name;
  do count <- Decoder.count_for size_node_entry;
  do nodes <- repeat_m (Z.to_nat count) decode_node_type;
  do count <- Decoder.count_for size_edge_entry;
  do edges <- repeat_m (Z.to_nat count) decode_edge_type;
  ret {| def_name := name; def_nodes := nodes; def_edges := edges |}.
End DecodeSchema.
