(* ===== verification/GraphDelta.v ===== *)
(** Graph deltas and their codec (selene-core: changeset.rs, edge.rs and
    logical/graph.rs).

    Node, edge and graph identifiers are the [u64] they wrap.  The payload of
    a legacy schema event, which the codec refuses, is the type [SchemaChange]
    of the class [LegacyEvents]. *)

From S2P Require Import Prelude Errors Wire Value ValueCodec Ordered LabelSet PropertyMap Schema.
From coqutil Require Import Byte.

Module EdgeDirectionality.
Inductive t := Directed | Undirected.
(** [EdgeDirectionality::canonical_endpoints]. *)
Definition canonical_endpoints (self : t) (first second : Z) : Z * Z :=
  match self with
  | Undirected => if second <? first then (second, first) else (first, second)
  | Directed => (first, second)
  end.
End EdgeDirectionality.
Abbreviation EdgeDirectionality := EdgeDirectionality.t.

Class LegacyEvents := { SchemaChange : Type }.

Section Changes.
Context `{Leaves} `{LegacyEvents}.

(** [Change]. *)
Inductive Change :=
| NodeCreated (id : Z) (labels : LabelSet.t) (properties : PropertyMap)
| NodeUpdated (id : Z) (labels_diff : LabelDiff) (properties_diff : PropertyDiff)
| NodeDeleted (id : Z)
| EdgeCreated (id : Z) (directionality : EdgeDirectionality) (label : bytes) (source target : Z) (properties : PropertyMap)
| EdgeUpdated (id : Z) (properties_diff : PropertyDiff)
| EdgeDeleted (id : Z)
| SchemaChanged (graph : Z) (change : SchemaChange)
| NodePropertyRemoved (id : Z) (property : bytes)
| EdgePropertyRemoved (id : Z) (property : bytes)
| NodeLabelRemoved (id : Z) (label : bytes)
| NodesOfTypeTruncated (label : bytes)
| EdgesOfTypeTruncated (label : bytes)
| GraphReset.

(** [GraphDelta]. *)
Record GraphDelta := {
  gd_id : Z;
  gd_previous : option Z;
  gd_generation : Z;
  gd_next_node_id : Z;
  gd_next_edge_id : Z;
  gd_definition : option GraphDefinition;
  gd_backing_indexes : list Z;
  gd_changes : list Change
}.
End Changes.

(** ** Encoding *)

(** [ids.windows(2).any(|p| p[0] >= p[1])], negated. *)
Fixpoint ids_ascending (ids : list Z) : bool :=
  match ids with
  | x :: ((y :: _) as t) => (x <? y) && ids_ascending t
  | _ => true
  end.

(** [slice.binary_search(key).is_ok()]. *)
Definition found_in (names : list bytes) (key : bytes) : bool := negb (is_err (search (fun x => x) key names)).

Section Encode.
Context `{Leaves} `{LegacyEvents} `{Sizes}.

(** The pairs of a property map or of the [set] part of a diff. *)
Definition encode_entry (entry : bytes * Value) : Encoder.M unit :=
  Encoder.text (fst entry) ;;
  encode_value_at (snd entry) 1.

(** [Encoder::properties]. *)
Definition encode_properties (properties : PropertyMap) : Encoder.M unit :=
  Encoder.count (pm_len properties) ;;
  for_each encode_entry (pm_iter properties).

(** [Encoder::names]. *)
Definition encode_names (names : list bytes) : Encoder.M unit :=
  fail_if (negb (ascending_names names)) (E_Invalid "name order") ;;
  Encoder.count (zlen names) ;;
  for_each Encoder.text names.

(** [Encoder::property_diff]. *)
Definition encode_property_diff (diff : PropertyDiff) : Encoder.M unit :=
  fail_if (negb (ascending fst (pd_set diff)) || existsb (fun e => found_in (pd_removed diff) (fst e)) (pd_set diff))
    (E_Invalid "property diff order/overlap") ;;
  Encoder.count (zlen (pd_set diff)) ;;
  for_each encode_entry (pd_set diff) ;;
  encode_names (pd_removed diff).

(** [Encoder::graph_change]. *)
Definition encode_graph_change (change : Change) : Encoder.M unit :=
  match change with
  | NodeCreated id labels properties =>
      Encoder.u8 1 ;;
      Encoder.u64 id ;;
      encode_labels labels ;;
      encode_properties properties
  | NodeUpdated id labels_diff properties_diff =>
      Encoder.u8 2 ;;
      Encoder.u64 id ;;
      fail_if (existsb (found_in (ld_removed labels_diff)) (ld_added labels_diff)) (E_Invalid "label overlap") ;;
      encode_names (ld_added labels_diff) ;;
      encode_names (ld_removed labels_diff) ;;
      encode_property_diff properties_diff
  | NodeDeleted id => Encoder.u8 3 ;; Encoder.u64 id
  | EdgeCreated id directionality label source target properties =>
      fail_if (negb (bool_decide (EdgeDirectionality.canonical_endpoints directionality source target = (source, target))))
        (E_Invalid "undirected endpoints") ;;
      Encoder.u8 4 ;;
      Encoder.u64 id ;;
      Encoder.u8 (match directionality with EdgeDirectionality.Directed => 1 | EdgeDirectionality.Undirected => 2 end) ;;
      Encoder.text label ;;
      Encoder.u64 source ;;
      Encoder.u64 target ;;
      encode_properties properties
  | EdgeUpdated id properties_diff =>
      Encoder.u8 5 ;;
      Encoder.u64 id ;;
      encode_property_diff properties_diff
  | EdgeDeleted id => Encoder.u8 6 ;; Encoder.u64 id
  | NodePropertyRemoved id property => Encoder.u8 7 ;; Encoder.u64 id ;; Encoder.text property
  | EdgePropertyRemoved id property => Encoder.u8 8 ;; Encoder.u64 id ;; Encoder.text property
  | NodeLabelRemoved id label => Encoder.u8 9 ;; Encoder.u64 id ;; Encoder.text label
  | NodesOfTypeTruncated label => Encoder.u8 10 ;; Encoder.text label
  | EdgesOfTypeTruncated label => Encoder.u8 11 ;; Encoder.text label
  | GraphReset => Encoder.u8 12
  | SchemaChanged _ _ => throw (E_Invalid "schema event requires logical metadata adapter")
  end.

(** One backing index of [GraphDelta::encode]. *)
Definition encode_index (id : Z) : Encoder.M unit :=
  fail_if (id =? 0) E_Semantic ;;
  Encoder.u64 id.

(** [GraphDelta::encode]. *)
Definition delta_encode (self : GraphDelta) : Encoder.M unit :=
  Encoder.u64 (gd_id self) ;;
  encode_option Encoder.u64 (gd_previous self) ;;
  Encoder.u64 (gd_generation self) ;;
  Encoder.u64 (gd_next_node_id self) ;;
  Encoder.u64 (gd_next_edge_id self) ;;
  encode_option encode_graph_definition (gd_definition self) ;;
  fail_if (negb (ids_ascending (gd_backing_indexes self))) (E_Invalid "backing identity order") ;;
  Encoder.count (zlen (gd_backing_indexes self)) ;;
  for_each encode_index (gd_backing_indexes self) ;;
  Encoder.count_for size_change (zlen (gd_changes self)) ;;
  for_each encode_graph_change (gd_changes self).
End Encode.

(** ** Decoding *)

Section Decode.
Context `{Leaves} `{LegacyEvents} `{Sizes}.

(** [Decoder::nonzero], [Decoder::node_id] and [Decoder::edge_id]. *)
Definition decode_nonzero : Decoder.M Z :=
  do id <- Decoder.u64;
  fail_if (id =? 0) E_Semantic ;;
  ret id.
Definition decode_node_id : Decoder.M Z := decode_nonzero.
Definition decode_edge_id : Decoder.M Z := decode_nonzero.

(** [Decoder::names]. *)
Definition decode_names : Decoder.M (list bytes) :=
  do count <- Decoder.count;
  names_loop "name order" (Z.to_nat count) [].

(** The loop of [Decoder::properties]. *)
Fixpoint properties_loop (count : nat) (previous : option bytes) (map : PropertyMap) : Decoder.M PropertyMap :=
  match count with
  | O => ret map
  | S count =>
      do key <- decode_name;
      fail_if (not_after previous key) (E_Invalid "property order") ;;
      do value <- decode_value_at 1;
      do map <- of_result (map_err (fun _ => E_Semantic) (pm_set key value map));
      properties_loop count (Some key) map
  end.

(** [Decoder::properties]. *)
Definition decode_properties : Decoder.M PropertyMap :=
  do count <- Decoder.count;
  properties_loop (Z.to_nat count) None pm_new.

(** [Decoder::property_diff]. *)
Definition decode_property_diff : Decoder.M PropertyDiff :=
  do map <- decode_properties;
  do removed <- decode_names;
  of_result (map_err (fun _ => E_Semantic) (property_diff_new (pm_iter map) removed)).

(** The directionality tag. *)
Definition decode_directionality : Decoder.M EdgeDirectionality :=
  do tag <- Decoder.u8;
  match tag with
  | 1 => ret EdgeDirectionality.Directed
  | 2 => ret EdgeDirectionality.Undirected
  | _ => throw (E_Invalid "directionality")
  end.

(** The [EdgeCreated] arm of [Decoder::graph_change]. *)
Definition decode_edge_created : Decoder.M Change :=
  do id <- decode_edge_id;
  do directionality <- decode_directionality;
  do label <- decode_name;
  do source <- decode_node_id;
  do target <- decode_node_id;
  fail_if (negb (bool_decide (EdgeDirectionality.canonical_endpoints directionality source target = (source, target))))
    (E_Invalid "undirected endpoints") ;;
  do properties <- decode_properties;
  ret (EdgeCreated id directionality label source target properties).

(** [Decoder::graph_change]. *)
Definition decode_graph_change : Decoder.M Change :=
  do tag <- Decoder.u8;
  match tag with
  | 1 =>
      do id <- decode_node_id;
      do labels <- decode_labels;
      do properties <- decode_properties;
      ret (NodeCreated id labels properties)
  | 2 =>
      do id <- decode_node_id;
      do added <- decode_names;
      do removed <- decode_names;
      do labels_diff <- of_result (map_err (fun _ => E_Semantic) (label_diff_new added removed));
      do properties_diff <- decode_property_diff;
      ret (NodeUpdated id labels_diff properties_diff)
  | 3 => do id <- decode_node_id; ret (NodeDeleted id)
  | 4 => decode_edge_created
  | 5 =>
      do id <- decode_edge_id;
      do properties_diff <- decode_property_diff;
      ret (EdgeUpdated id properties_diff)
  | 6 => do id <- decode_edge_id; ret (EdgeDeleted id)
  | 7 => do id <- decode_node_id; do property <- decode_name; ret (NodePropertyRemoved id property)
  | 8 => do id <- decode_edge_id; do property <- decode_name; ret (EdgePropertyRemoved id property)
  | 9 => do id <- decode_node_id; do label <- decode_name; ret (NodeLabelRemoved id label)
  | 10 => do label <- decode_name; ret (NodesOfTypeTruncated label)
  | 11 => do label <- decode_name; ret (EdgesOfTypeTruncated label)
  | 12 => ret GraphReset
  | _ => throw (E_Unsupported "graph operation tag")
  end.

(** The backing index loop of [GraphDelta::decode]. *)
Fixpoint indexes_loop (count : nat) (indexes : list Z) : Decoder.M (list Z) :=
  match count with
  | O => ret indexes
  | S count =>
      do id <- Decoder.u64;
      fail_if ((id =? 0) || match last indexes with Some previous => id <=? previous | None => false end)
        (E_Invalid "backing identity order") ;;
      indexes_loop count (indexes ++ [id])
  end.

(** [GraphDelta::decode]. *)
Definition delta_decode : Decoder.M GraphDelta :=
  do id <- decode_nonzero;
  do previous <- decode_option Decoder.u64;
  do generation <- Decoder.u64;
  do next_node_id <- Decoder.u64;
  do next_edge_id <- Decoder.u64;
  fail_if ((next_node_id =? 0) || (next_edge_id =? 0)) (E_Invalid "element high water") ;;
  do definition <- decode_option decode_graph_definition;
  do count <- Decoder.count;
  do backing_indexes <- indexes_loop (Z.to_nat count) [];
  do count <- Decoder.count_for size_change;
  do changes <- repeat_m (Z.to_nat count) decode_graph_change;
  ret {| gd_id := id; gd_previous := previous; gd_generation := generation; gd_next_node_id := next_node_id;
         gd_next_edge_id := next_edge_id; gd_definition := definition; gd_backing_indexes := backing_indexes; gd_changes := changes |}.
End Decode.
