(* ===== verification/WireProps.v ===== *)
(** Combinators of the wire codec.

    [Hungry] decoders need at least one byte, [LimitsKept] decoders do not change
    the limits of the budget.  With them the contract [mirrors] extends to
    options, tag tables, counted sequences and ascending names.  [writes] is the
    contract [canonical] for one run, which composes along the run of a decoder. *)

From S2P Require Import Prelude Errors Wire Value ValueCodec ValueLoop ValueRoundtrip ValueCanonical Ordered LabelSet Schema.
From coqutil Require Import Byte.

Create HintDb codec.

(** ** Decoders that need input *)

Class Hungry {A} (d : Decoder.M A) : Prop :=
  hungry : forall b, exists e t', d (Decoder.mk [] b) = (Err e, t').

#[export] Instance hungry_bind {A B} (d : Decoder.M A) (k : A -> Decoder.M B) : Hungry d -> Hungry (bind d k).
Proof. intros Hd b. destruct (Hd b) as (e & t' & E). exists e, t'. unfold bind. by rewrite E. Qed.
#[export] Instance hungry_budget {B} m (k : unit -> Decoder.M B) : (forall u, Hungry (k u)) -> Hungry (bind (Decoder.on_budget m) k) | 5.
Proof.
  intros Hk b. unfold bind, Decoder.on_budget. cbn. destruct (m b) as [[u|e] b']; [|eauto]. apply Hk.
Qed.
#[export] Instance hungry_u8 : Hungry Decoder.u8.
Proof. intros b. by eexists _, _. Qed.
#[export] Instance hungry_u32 : Hungry Decoder.u32.
Proof. intros b. by eexists _, _. Qed.
#[export] Instance hungry_u64 : Hungry Decoder.u64.
Proof. intros b. by eexists _, _. Qed.
#[export] Instance hungry_boolean : Hungry Decoder.boolean.
Proof. unfold Decoder.boolean. apply _. Qed.
#[export] Instance hungry_name : Hungry decode_name.
Proof. unfold decode_name, Decoder.text, Decoder.blob. apply _. Qed.

(** What an encoding method writes for such a decoder is not empty. *)
Lemma emits_hungry {A} e (d : Decoder.M A) a : mirrors e d a -> Hungry d -> emits 1 e.
Proof.
  intros M Hd s s' E. destruct (M _ _ E) as (out & b & -> & _ & _ & D). cbn. destruct out as [|x out]; [|rewrite zlen_cons; pose proof (zlen_nonneg out); lia].
  specialize (D []). destruct (Hd (Encoder.budget s)) as (err & t' & E'). cbn in D. rewrite E' in D. done.
Qed.

(** ** Decoders and the limits *)

Abbreviation limits_of t := (Budget.limits (Decoder.budget t)).

Class LimitsKept {A} (d : Decoder.M A) : Prop := limits_kept : forall t, limits_of (snd (d t)) = limits_of t.

#[export] Instance kept_bind {A B} (d : Decoder.M A) (k : A -> Decoder.M B) :
  LimitsKept d -> (forall a, LimitsKept (k a)) -> LimitsKept (bind d k).
Proof. intros H1 H2 t. unfold bind. specialize (H1 t). destruct (d t) as [[a|e] t1]; cbn in *; [|done]. by rewrite (H2 a). Qed.
Lemma kept_budget m : keeps_limits m -> LimitsKept (Decoder.on_budget m).
Proof. intros Hm t. unfold Decoder.on_budget. specialize (Hm (Decoder.budget t)). by destruct (m (Decoder.budget t)). Qed.
#[export] Instance kept_take n : LimitsKept (Decoder.take n).
Proof. intros t. unfold Decoder.take. by case_match. Qed.
#[export] Instance kept_ret {A} (a : A) : LimitsKept (ret a).
Proof. done. Qed.
#[export] Instance kept_throw {A} err : LimitsKept (throw (A := A) err).
Proof. done. Qed.
#[export] Instance kept_remaining : LimitsKept Decoder.remaining.
Proof. done. Qed.
#[export] Instance kept_of_result {A} (r : result CodecError A) : LimitsKept (of_result r).
Proof. intros t. by destruct r. Qed.
#[export] Instance kept_fail_if c err : LimitsKept (fail_if c err).
Proof. intros t. by destruct c. Qed.
#[export] Instance kept_if {A} (c : bool) (d1 d2 : Decoder.M A) : LimitsKept d1 -> LimitsKept d2 -> LimitsKept (if c then d1 else d2).
Proof. by destruct c. Qed.
#[export] Instance kept_u8 : LimitsKept Decoder.u8.
Proof. unfold Decoder.u8. apply _. Qed.
#[export] Instance kept_u32 : LimitsKept Decoder.u32.
Proof. unfold Decoder.u32. apply _. Qed.
#[export] Instance kept_u64 : LimitsKept Decoder.u64.
Proof. unfold Decoder.u64. apply _. Qed.
#[export] Instance kept_boolean : LimitsKept Decoder.boolean.
Proof. unfold Decoder.boolean. apply _. Qed.
#[export] Instance kept_charge n alloc : LimitsKept (Decoder.on_budget (Budget.charge n alloc)).
Proof. apply kept_budget, charge_keeps. Qed.
#[export] Instance kept_count_for size : LimitsKept (Decoder.count_for size).
Proof. unfold Decoder.count_for. apply _. Qed.
#[export] Instance kept_name : LimitsKept decode_name.
Proof. unfold decode_name, Decoder.text, Decoder.blob. apply _. Qed.
#[export] Instance kept_option {A} (d : Decoder.M A) : LimitsKept d -> LimitsKept (decode_option d).
Proof. intros Hd. unfold decode_option. apply _. Qed.
#[export] Instance kept_tag {A} (tags : list (Z * A)) what : LimitsKept (decode_tag tags what).
Proof. unfold decode_tag. apply _. Qed.

Lemma metadata_charge_keeps n : keeps_limits (metadata_charge n).
Proof.
  intros b. unfold metadata_charge, bind. pose proof (metadata_keeps 1 b) as K. destruct (Budget.metadata 1 b) as [[u|e] b']; [|done].
  by rewrite charge_keeps.
Qed.
#[export] Hint Resolve charge_keeps metadata_keeps depth_keeps metadata_charge_keeps : codec.

(** Decoders that agree under the limits [L]. *)
Definition agree (L : Limits.t) {A} (d d' : Decoder.M A) : Prop := forall t, limits_of t = L -> d t = d' t.

Lemma agree_refl L {A} (d : Decoder.M A) : agree L d d.
Proof. done. Qed.
Lemma agree_bind L {A B} (d d' : Decoder.M A) (k k' : A -> Decoder.M B) :
  agree L d d' -> LimitsKept d -> (forall a, agree L (k a) (k' a)) -> agree L (bind d k) (bind d' k').
Proof.
  intros Hd Hl Hk t Ht. unfold bind. rewrite <- (Hd t Ht). specialize (Hl t). destruct (d t) as [[a|e] t1]; [|done].
  apply Hk. cbn in Hl. congruence.
Qed.
Lemma agree_option L {A} (d d' : Decoder.M A) : agree L d d' -> LimitsKept d -> agree L (decode_option d) (decode_option d').
Proof.
  intros Hd Hl. apply agree_bind; [done|apply _|]. intros [|]; [|done]. by apply agree_bind.
Qed.
Lemma agree_repeat L {A} (d d' : Decoder.M A) n : agree L d d' -> LimitsKept d -> agree L (repeat_m n d) (repeat_m n d').
Proof.
  intros Hd Hl. induction n as [|n IH]; [done|]. cbn [repeat_m]. apply agree_bind; [done|done|]. intros a.
  intros t Ht. unfold bind. by rewrite IH.
Qed.

(** ** Round trips *)

Lemma mirrors_map {A B} e (d : Decoder.M A) (f : A -> B) a : mirrors e d a -> mirrors e (do x <- d; ret (f x)) (f a).
Proof. intros M. eapply mirrors_then; [exact M|done]. Qed.

Section Mirrors.
Context {A B : Type}.

Lemma mirrors_check e (d : Decoder.M A) (c : A -> bool) err a :
  mirrors e d a -> c a = false -> mirrors e (do x <- d; fail_if (c x) err ;; ret x) a.
Proof. intros M Hc. eapply mirrors_then; [exact M|]. intros t. by rewrite Hc. Qed.

Lemma mirrors_throw err (d : Decoder.M A) a : mirrors (throw err) d a.
Proof. done. Qed.

Lemma mirrors_option (f : A -> Encoder.M unit) (g : A -> B) d o :
  (forall x, o = Some x -> mirrors (f x) d (g x)) -> mirrors (encode_option f o) (decode_option d) (g <$> o).
Proof.
  intros M. unfold encode_option, decode_option. destruct o as [x|]; cbn [bool_decide].
  - eapply mirrors_bind; [apply mirrors_boolean|]. rewrite bool_decide_true by done. cbn. apply mirrors_map. by apply M.
  - eapply mirrors_bind; [apply mirrors_boolean|]. rewrite bool_decide_false by (by intros [? ?]). cbn. apply mirrors_ret.
Qed.

Lemma mirrors_each (f : A -> Encoder.M unit) (g : A -> B) d l :
  Forall (fun x => mirrors (f x) d (g x)) l -> mirrors (for_each f l) (repeat_m (length l) d) (map g l).
Proof.
  induction 1 as [|x l Hx _ IH]; cbn [for_each repeat_m length map]; [apply mirrors_ret|].
  eapply mirrors_bind; [done|]. eapply mirrors_then; [exact IH|done].
Qed.

Lemma emits_each (f : A -> Encoder.M unit) (g : A -> B) d l :
  Hungry d -> Forall (fun x => mirrors (f x) d (g x)) l -> emits (zlen l) (for_each f l).
Proof. intros Hd Hf. apply emits_for_each. eapply Forall_impl; [exact Hf|]. intros x M. exact (emits_hungry _ _ _ M Hd). Qed.

(** A counted sequence, followed by more fields. *)
Lemma mirrors_counted {C} size (f : A -> Encoder.M unit) (g : A -> B) d l rest (k : list B -> Decoder.M C) c :
  Hungry d -> Forall (fun x => mirrors (f x) d (g x)) l -> mirrors rest (k (map g l)) c ->
  mirrors (Encoder.count_for size (zlen l) ;; for_each f l ;; rest)
    (do n <- Decoder.count_for size; do x <- repeat_m (Z.to_nat n) d; k x) c.
Proof.
  intros Hd Hf Hr. pose proof (mirrors_each f g d l Hf) as Hl. apply mirrors_count_for; [apply zlen_nonneg| |].
  - apply emits_bind_l; [by eapply emits_each|by eapply emits_of_mirrors].
  - unfold zlen. rewrite Nat2Z.id. by eapply mirrors_bind.
Qed.

Lemma mirrors_counted_last {C} size (f : A -> Encoder.M unit) (g : A -> B) d l (h : list B -> C) :
  Hungry d -> Forall (fun x => mirrors (f x) d (g x)) l ->
  mirrors (Encoder.count_for size (zlen l) ;; for_each f l)
    (do n <- Decoder.count_for size; do x <- repeat_m (Z.to_nat n) d; ret (h x)) (h (map g l)).
Proof.
  intros Hd Hf. pose proof (mirrors_each f g d l Hf) as Hl. apply mirrors_count_for; [apply zlen_nonneg| |].
  - by eapply emits_each.
  - unfold zlen. rewrite Nat2Z.id. by apply mirrors_map.
Qed.

End Mirrors.

Lemma mirrors_string n : string_ok n -> mirrors (Encoder.text n) decode_name n.
Proof. intros [U L]. by apply mirrors_name. Qed.
#[export] Hint Resolve mirrors_string mirrors_u8 mirrors_u32 mirrors_u64 mirrors_boolean mirrors_ret : codec.
#[export] Hint Extern 2 (mirrors (Encoder.on_budget _) _ _) => apply mirrors_budget; auto with codec : codec.

(** One field of a sequence. *)
Ltac field := eapply mirrors_bind; [solve [eauto with codec]|].

(** ** Canonical runs *)

(** Run from [t] to [t'], a decoder reads exactly what [e] writes. *)
Definition writes (e : Encoder.M unit) (t t' : Decoder.t) : Prop :=
  exists out, Decoder.bytes t = out ++ Decoder.bytes t' /\
    Budget.limits (Decoder.budget t') = Budget.limits (Decoder.budget t) /\
    forall s, Encoder.budget s = Decoder.budget t -> 0 <= Encoder.length s ->
      Encoder.length s + zlen out <= byte_limit (Decoder.budget t) ->
      byte_limit (Decoder.budget t) <= u64_max ->
      e s = (Ok tt, after s out (Decoder.budget t')).

Lemma canonical_writes {A} (d : Decoder.M A) e : canonical d e <-> forall t t' a, d t = (Ok a, t') -> writes (e a) t t'.
Proof. done. Qed.

Lemma writes_bind e1 e2 t t1 t' : writes e1 t t1 -> writes e2 t1 t' -> writes (e1 ;; e2) t t'.
Proof.
  intros (o1 & B1 & L1 & F1) (o2 & B2 & L2 & F2). exists (o1 ++ o2). rewrite B1, B2, app_assoc. split; [done|]. split; [congruence|].
  intros s Hs H0 Hl Hu. rewrite zlen_app in Hl. pose proof (zlen_nonneg o1). pose proof (zlen_nonneg o2).
  rewrite (bind_step _ _ _ _ _ (F1 s Hs H0 ltac:(lia) Hu)), F2, after_after; [done|done|cbn; lia| |].
  - rewrite L1. cbn. lia.
  - by rewrite L1.
Qed.

Lemma writes_ret t : writes (ret tt) t t.
Proof. exists []. split; [done|]. split; [done|]. intros s Hs _ _ _. unfold ret. by rewrite <- Hs, after_nil. Qed.

Lemma writes_ext e e' t t' : (forall s, e' s = e s) -> writes e t t' -> writes e' t t'.
Proof. intros X (out & Hb & Hl & F). exists out. split; [done|]. split; [done|]. intros. rewrite X. by apply F. Qed.

Lemma writes_fail_if c err e t t' : c = false -> writes e t t' -> writes (fail_if c err ;; e) t t'.
Proof. intros -> W. eapply writes_ext; [|exact W]. done. Qed.

Lemma writes_of_result {X} (r : result CodecError X) x e t t' : r = Ok x -> writes (e x) t t' -> writes (bind (of_result r) e) t t'.
Proof. intros -> W. eapply writes_ext; [|exact W]. done. Qed.

Lemma writes_budget m t t' : keeps_limits m -> Decoder.on_budget m t = (Ok tt, t') -> writes (Encoder.on_budget m) t t'.
Proof. intros K. by apply (canonical_budget m K). Qed.

Section Writes.
Context {A B : Type}.

Lemma canonical_option (d : Decoder.M A) f : canonical d f -> canonical (decode_option d) (encode_option f).
Proof.
  intros C t t' o D. unfold decode_option in D. run_inv. eapply writes_bind.
  - eapply canonical_boolean. rewrite Hrun. do 3 f_equal. destruct a; run_inv; [by rewrite bool_decide_true|by rewrite bool_decide_false by (by intros [? ?])].
  - destruct a; run_inv; [by eapply C|apply writes_ret].
Qed.

Lemma canonical_counted size n (d : Decoder.M A) f t t1 t' l :
  Decoder.count_for size t = (Ok n, t1) -> repeat_m (Z.to_nat n) d t1 = (Ok l, t') -> canonical d f ->
  writes (Encoder.count_for size (zlen l)) t t1 /\ writes (for_each f l) t1 t'.
Proof.
  intros E1 E2 C. split; [|by eapply canonical_repeat].
  assert (0 <= n) by (unfold Decoder.count_for in E1; wire_inv; by apply dec_u32_Ok in Hrun as (_ & _ & ? & _)).
  apply repeat_m_length in E2. replace (zlen l) with n by (unfold zlen; lia). by eapply canonical_count_for.
Qed.

End Writes.

(** The fields of a run. *)
Lemma writes_u8 t v t' : Decoder.u8 t = (Ok v, t') -> writes (Encoder.u8 v) t t'.
Proof. apply canonical_u8. Qed.
Lemma writes_u32 t v t' : Decoder.u32 t = (Ok v, t') -> writes (Encoder.u32 v) t t'.
Proof. apply canonical_u32. Qed.
Lemma writes_u64 t v t' : Decoder.u64 t = (Ok v, t') -> writes (Encoder.u64 v) t t'.
Proof. apply canonical_u64. Qed.
Lemma writes_boolean t v t' : Decoder.boolean t = (Ok v, t') -> writes (Encoder.boolean v) t t'.
Proof. apply canonical_boolean. Qed.
Lemma writes_name t v t' : decode_name t = (Ok v, t') -> writes (Encoder.text v) t t'.
Proof. apply canonical_name. Qed.
Lemma writes_run {A} (d : Decoder.M A) e t v t' : canonical d e -> d t = (Ok v, t') -> writes (e v) t t'.
Proof. intros C. apply C. Qed.
#[export] Hint Resolve writes_u8 writes_u32 writes_u64 writes_boolean writes_name writes_ret : codec.
#[export] Hint Extern 2 (writes (Encoder.on_budget _) _ _) => apply writes_budget; [solve [auto with codec]|eassumption] : codec.

(** One field of a run. *)
Ltac written := eapply writes_bind; [solve [eauto with codec]|].
Ltac all_written := repeat match goal with u : unit |- _ => destruct u end; repeat written; eauto with codec.

(** ** Tag tables *)

Section Tables.
Context {T : Type} `{EqDecision T} (tags : list (Z * T)).

(** The entries have different one-byte tags and different variants. *)
Definition table_ok : bool :=
  forallb (fun '(t, v) => (0 <=? t) && (t <? 256) && bool_decide (tag_of tags v = Some t) && bool_decide (variant_of tags t = Some v)) tags.

Hypothesis Hok : table_ok = true.

Lemma table_entry t v : (t, v) ∈ tags -> 0 <= t < 256 /\ tag_of tags v = Some t /\ variant_of tags t = Some v.
Proof.
  intros Hin%list_elem_of_In. unfold table_ok in Hok. rewrite forallb_forall in Hok. specialize (Hok _ Hin). cbn in Hok. 
  apply andb_true_iff in Hok as [[[H1 H2]%andb_true_iff H3%bool_decide_eq_true]%andb_true_iff H4%bool_decide_eq_true]. bool_inv. auto with lia.
Qed.

Lemma mirrors_tag missing what v : mirrors (encode_tag tags missing v) (decode_tag tags what) v.
Proof.
  unfold encode_tag, decode_tag. apply mirrors_of_result. intros t Ht%ok_or_Ok. unfold tag_of in Ht.
  destruct (List.find _ tags) as [[t' v']|] eqn:E; [|done]. cbn in Ht. injection Ht as ->.
  apply find_some in E as [Hin%list_elem_of_In Hv%bool_decide_eq_true]. cbn in Hv. subst v'. destruct (table_entry _ _ Hin) as (Hr & _ & Hv).
  eapply mirrors_then; [by apply mirrors_u8|]. intros s. unfold of_result. by rewrite Hv.
Qed.

Lemma canonical_tag missing what : canonical (decode_tag tags what) (encode_tag tags missing).
Proof.
  intros t t' v D. unfold decode_tag in D. run_inv. apply ok_or_Ok in D. unfold variant_of in D.
  destruct (List.find _ tags) as [[t0 v']|] eqn:E; [|done]. cbn in D. injection D as ->.
  apply find_some in E as [Hin%list_elem_of_In Hv%Z.eqb_eq]. cbn in Hv. subst t0. destruct (table_entry _ _ Hin) as (_ & Hv & _).
  eapply writes_of_result; [by rewrite Hv|]. by eapply canonical_u8.
Qed.
End Tables.
