(* ===== verification/SchemaProps.v ===== *)
(** The codec of graph definitions: what is encoded is read back, and a decoded
    definition is written as the bytes it was read from.

    The decoders of recursive types are unfolded by [value_type_unfold],
    [structure_unfold] and [field_type_unfold]: the fuel that the depth limit
    gives is always enough, so that they satisfy the recursion of the source. *)

From S2P Require Import Prelude Errors Wire Value ValueCodec ValueLoop ValueRoundtrip ValueCanonical Ordered LabelSet PropertyMap Schema WireProps.
From coqutil Require Import Byte.

(** ** Names in order *)

Lemma sorted_last (l : list bytes) x : sorted_names (l ++ [x]) <-> sorted_names l /\ not_after (last l) x = false.
Proof.
  induction l as [|y l _] using rev_ind; cbn.
  - split; [intros _; split; [apply sorted_nil|done]|intros _; by repeat constructor].
  - rewrite last_snoc. cbn. rewrite bytes_leb_lt, negb_false_iff, bytes_ltb_lt. rewrite sorted_app. split.
    + intros (S1 & _ & S3). split; [done|]. apply S3; [apply elem_of_app; right|]; by left.
    + intros [S1 Hxy]. split; [done|]. split; [by repeat constructor|]. intros a b Ha ->%list_elem_of_singleton.
      apply elem_of_app in Ha as [Ha| ->%list_elem_of_singleton]; [|done].
      apply sorted_app in S1 as (_ & _ & S3). etrans; [|exact Hxy]. apply S3; [done|by left].
Qed.

Lemma sorted_prefix (l1 l2 : list bytes) : sorted_names (l1 ++ l2) -> sorted_names l1.
Proof. by intros (? & _)%sorted_app. Qed.

Lemma mirrors_names_loop what l acc :
  Forall string_ok l -> sorted_names (acc ++ l) -> mirrors (for_each Encoder.text l) (names_loop what (length l) acc) (acc ++ l).
Proof.
  intros Hl. revert acc. induction Hl as [|x l Hx _ IH]; intros acc Hs; cbn [for_each names_loop length].
  { rewrite app_nil_r. apply mirrors_ret. }
  replace (acc ++ x :: l) with ((acc ++ [x]) ++ l) in * by (by rewrite <- app_assoc). field.
  apply mirrors_pure with (a := tt); [|by apply IH]. intros t. apply sorted_prefix, sorted_last in Hs as [_ Hn]. by rewrite Hn.
Qed.

Lemma names_loop_inv what n acc t r t' : names_loop what n acc t = (Ok r, t') ->
  exists l, r = acc ++ l /\ length l = n /\ (sorted_names acc -> sorted_names r) /\ writes (for_each Encoder.text l) t t'.
Proof.
  revert acc t. induction n as [|n IH]; intros acc t D; cbn [names_loop] in D.
  { run_inv. exists []. rewrite app_nil_r. split; [done|]. split; [done|]. split; [done|]. apply writes_ret. }
  run_inv. apply IH in D as (l & -> & Hl & Hs & W). exists (a :: l). split; [by rewrite <- app_assoc|]. split; [by cbn; f_equal|].
  split; [intros Ha; apply Hs, sorted_last; by split|]. cbn [for_each]. eapply writes_bind; [by eapply canonical_name|exact W].
Qed.

(** In order, [LabelSet::insert] appends. *)
Lemma insert_last l x : sorted_names (l ++ [x]) -> snd (LabelSet.insert x l) = l ++ [x].
Proof.
  intros Hs. apply sorted_app in Hs as (S1 & _ & S3). unfold LabelSet.insert. pose proof (search_split _ x l S1) as HS.
  assert (HL : forall a, a ∈ l -> bytes_lt a x) by (intros a Ha; apply S3; [done|by left]).
  destruct (search _ x l) as [i|i].
  - destruct HS as (l1 & y & l2 & -> & _ & ->). exfalso. eapply bytes_lt_irrefl, HL. apply elem_of_app. right. by left.
  - destruct HS as (l1 & l2 & -> & <- & _ & H2). destruct l2 as [|b l2]; cbn [snd].
    + by rewrite insert_at_middle, app_nil_r.
    + exfalso. apply Forall_cons in H2 as [H2 _]. eapply bytes_lt_irrefl. etrans; [exact H2|]. apply HL, elem_of_app. right. by left.
Qed.

Lemma labels_loop_names n acc t : sorted_names acc -> labels_loop n (last acc) acc t = names_loop "label order" n acc t.
Proof.
  revert acc t. induction n as [|n IH]; intros acc t Hs; [done|]. cbn [labels_loop names_loop].
  apply bind_ext. intros x t1. unfold bind, fail_if. destruct (not_after (last acc) x) eqn:E; [done|]. cbn.
  assert (sorted_names (acc ++ [x])) by (by apply sorted_last). rewrite insert_last by done. rewrite <- IH by done. by rewrite last_snoc.
Qed.

(** A counted sequence of names. *)
Lemma mirrors_named what l :
  Forall string_ok l -> sorted_names l ->
  mirrors (Encoder.count (zlen l) ;; for_each Encoder.text l) (do n <- Decoder.count; names_loop what (Z.to_nat n) []) l.
Proof.
  intros Hl Hs. apply mirrors_count_for; [apply zlen_nonneg| |].
  - eapply (emits_each _ (fun x => x) decode_name); [apply _|]. eapply Forall_impl; [exact Hl|]. apply mirrors_string.
  - unfold zlen. rewrite Nat2Z.id. by apply (mirrors_names_loop what l []).
Qed.

Lemma count_length {A} size t n t1 (l : list A) : Decoder.count_for size t = (Ok n, t1) -> length l = Z.to_nat n -> zlen l = n.
Proof. intros D%count_for_nonneg Hl. unfold zlen. lia. Qed.

Lemma named_inv what t l t' :
  (do n <- Decoder.count; names_loop what (Z.to_nat n) []) t = (Ok l, t') ->
  sorted_names l /\ writes (Encoder.count (zlen l) ;; for_each Encoder.text l) t t'.
Proof.
  intros D. run_inv. apply names_loop_inv in D as (l' & -> & Hl & Hs & W). split; [apply Hs, sorted_nil|].
  eapply writes_bind; [|exact W]. cbn [app]. rewrite (count_length _ _ _ _ _ Hrun Hl). by eapply canonical_count_for.
Qed.

Definition labels_ok (l : LabelSet.t) : Prop := Forall string_ok l /\ sorted_names l.

Lemma decode_labels_names t : decode_labels t = (do n <- Decoder.count; names_loop "label order" (Z.to_nat n) []) t.
Proof. apply bind_ext. intros n t1. apply (labels_loop_names _ []), sorted_nil. Qed.

Lemma mirrors_labels l : labels_ok l -> mirrors (encode_labels l) decode_labels l.
Proof.
  intros [Hl Hs] s s' E. destruct (mirrors_named "label order" l Hl Hs s s' E) as (o & b & Ho & L & F & D).
  exists o, b. do 3 (split; [done|]). intros rest. by rewrite decode_labels_names.
Qed.

Lemma canonical_labels : canonical decode_labels encode_labels.
Proof. intros t t' l D. rewrite decode_labels_names in D. by apply named_inv in D as [_ W]. Qed.

(** ** Endpoints *)

Lemma mirrors_guard {A} (e1 e2 : Encoder.M unit) c err (d : Decoder.M A) a :
  (c = false -> mirrors (e1 ;; e2) d a) -> mirrors (e1 ;; fail_if c err ;; e2) d a.
Proof. intros M s s' E. run_inv. destruct a0. apply M; [done|]. by rewrite (bind_step _ _ _ _ _ Hrun). Qed.

(** The names of a [OneOf] are written in order. *)
Definition normal_endpoint (e : EdgeEndpointDef) : EdgeEndpointDef :=
  match e with OneOf names => OneOf (sort_by (fun x => x) names) | e => e end.

Definition endpoint_ok (e : EdgeEndpointDef) : Prop :=
  match e with Any => True | NodeType name => string_ok name | OneOf names => Forall string_ok names end.

Lemma weakly_sorted_strict l : weakly_sorted (fun x : bytes => x) l -> repeats l = false <-> sorted_names l.
Proof.
  unfold weakly_sorted. rewrite LabelSet.map_id_names. intros Hw. rewrite <- ascending_sorted.
  induction Hw as [|x l Hw IH Hf]; [done|]. destruct l as [|y l]; [done|]. cbn [repeats ascending].
  rewrite orb_false_iff, andb_true_iff, IH. apply Forall_cons in Hf as [Hxy _].
  rewrite bytes_ltb_lt, bool_decide_eq_false. split; intros [H1 H2]; (split; [|done]).
  - destruct (bytes_ltb x y) eqn:E; [by apply bytes_ltb_lt|]. destruct H1. apply bytes_not_lt; [|done]. rewrite <- bytes_ltb_lt. by rewrite E.
  - by apply bytes_lt_neq.
Qed.

Lemma sort_by_sorted_id l : sorted_names l -> sort_by (fun x : bytes => x) l = l.
Proof.
  induction l as [|x l IH]; [done|]. intros [Hx Hl]%sorted_cons. cbn. fold (sort_by (fun x : bytes => x) l). rewrite IH by done.
  destruct l as [|y l]; [done|]. cbn. apply Forall_cons in Hx as [Hx _]. unfold bytes_leb. by rewrite Hx.
Qed.

Lemma zlen_sort l : zlen (sort_by (fun x : bytes => x) l) = zlen l.
Proof. unfold zlen. by rewrite sort_by_perm. Qed.

#[export] Instance hungry_endpoint : Hungry decode_endpoint.
Proof. unfold decode_endpoint. apply _. Qed.

Lemma mirrors_endpoint e : endpoint_ok e -> mirrors (encode_endpoint e) decode_endpoint (normal_endpoint e).
Proof.
  intros Ho. destruct e as [|name|names]; cbn [encode_endpoint normal_endpoint endpoint_ok] in *; unfold decode_endpoint.
  - eapply mirrors_then; [apply mirrors_u8; lia|done].
  - eapply mirrors_bind; [apply mirrors_u8; lia|]. cbv beta iota. eapply mirrors_then; [by apply mirrors_string|done].
  - eapply mirrors_bind; [apply mirrors_u8; lia|]. cbv beta iota zeta. set (l := sort_by _ names).
    assert (Hl : Forall string_ok l) by (unfold l; by rewrite sort_by_perm). rewrite <- zlen_sort. fold l.
    apply mirrors_guard. intros [Hn Hr]%orb_false_iff. apply (weakly_sorted_strict _ (sort_by_sorted _ names)) in Hr. fold l in Hr. 
    apply mirrors_count_for; [apply zlen_nonneg| |].
    + eapply (emits_each _ (fun x => x) decode_name); [apply _|]. eapply Forall_impl; [exact Hl|]. apply mirrors_string.
    + apply mirrors_pure with (a := tt); [intros t; by rewrite Hn|]. unfold zlen. rewrite Nat2Z.id. apply mirrors_map.
      by apply (mirrors_names_loop _ l []).
Qed.

Lemma canonical_endpoint : canonical decode_endpoint encode_endpoint.
Proof.
  apply canonical_writes. intros t t' e D. unfold decode_endpoint in D. run_inv.
  repeat case_match; subst; try done; run_inv; cbn [encode_endpoint]; [by eauto with codec| |written; by eauto with codec].
  written. assert (N : (do n <- Decoder.count; names_loop "endpoint order" (Z.to_nat n) []) s = (Ok a1, s2)) by (by rewrite (bind_step _ _ _ _ _ Hrun0)).
  apply named_inv in N as [Hs (out & Hb & Hl & W)]. exists out. split; [done|]. split; [done|]. intros s' Hs' H0 Ho Hu.
  rewrite <- (W s' Hs' H0 Ho Hu). apply bind_ext. intros [] s1. rewrite sort_by_sorted_id by done.
  assert (zlen a1 = a) as -> by (apply names_loop_inv in Hrun2 as (l & -> & Hl' & _); by eapply count_length).
  apply (weakly_sorted_strict _ (sorted_weakly _ _ Hs)) in Hs as ->. by rewrite Hrun1.
Qed.

(** ** Tags and bounds *)

Lemma mirrors_predefined v : mirrors (encode_predefined v) decode_predefined v.
Proof. by apply mirrors_tag. Qed.
Lemma canonical_predefined : canonical decode_predefined encode_predefined.
Proof. by apply canonical_tag. Qed.
Lemma mirrors_property_kind v : mirrors (encode_property_kind v) decode_property_kind v.
Proof. by apply mirrors_tag. Qed.
Lemma canonical_property_kind : canonical decode_property_kind encode_property_kind.
Proof. by apply canonical_tag. Qed.
Lemma mirrors_index_kind v : mirrors (encode_index_kind v) decode_index_kind v.
Proof. by apply mirrors_tag. Qed.
Lemma canonical_index_kind : canonical decode_index_kind encode_index_kind.
Proof. by apply canonical_tag. Qed.
Lemma mirrors_vector_kind v : mirrors (encode_vector_kind v) decode_vector_kind v.
Proof. by apply mirrors_tag. Qed.
Lemma canonical_vector_kind : canonical decode_vector_kind encode_vector_kind.
Proof. by apply canonical_tag. Qed.

(** The bounds that the constructors accept, at the widths of the source. *)
Definition decimal_ok (b : DecimalType) : Prop := decimal_type_new (dt_precision b) (dt_scale b) = Some b /\ 0 <= dt_precision b /\ 0 <= dt_scale b.
Definition character_ok (b : CharacterStringType) : Prop := character_string_type_new (cs_min_len b) (cs_max_len b) = Some b /\ 0 <= cs_min_len b.
Definition byte_ok (b : ByteStringType) : Prop := byte_string_type_new (bs_min_len b) (bs_max_len b) = Some b /\ 0 <= bs_min_len b.

Lemma mirrors_decimal_bounds b : decimal_ok b -> mirrors (encode_decimal_bounds b) decode_decimal_bounds b.
Proof.
  intros (Hb & Hp & Hs). pose proof Hb as Hr. unfold decimal_type_new, MAX_DECIMAL_PRECISION, MAX_DECIMAL_SCALE in Hr.
  case_match; [done|]. bool_inv. unfold encode_decimal_bounds, decode_decimal_bounds, try_u16.
  eapply mirrors_bind; [apply mirrors_u32; unfold is_u32, u32_max; lia|]. cbv beta.
  apply mirrors_pure with (a := dt_precision b); [intros t; unfold of_result; rewrite (proj2 (Z.leb_le _ _)); [done|unfold u16_max; lia]|].
  eapply mirrors_then; [apply mirrors_u32; unfold is_u32, u32_max; lia|]. intros t. unfold bind, of_result.
  rewrite (proj2 (Z.leb_le _ _)) by (unfold u16_max; lia). cbn. by rewrite Hb.
Qed.

Lemma mirrors_character_bounds b : character_ok b -> mirrors (encode_character_bounds b) decode_character_bounds b.
Proof.
  intros (Hb & Hs). pose proof Hb as Hr. unfold character_string_type_new, MAX_CHARACTER_STRING_TYPE_LENGTH in Hr.
  case_match; [done|]. bool_inv. unfold encode_character_bounds, decode_character_bounds.
  eapply mirrors_bind; [apply mirrors_u64; unfold is_u64, u64_max; lia|]. cbv beta.
  eapply mirrors_then; [apply mirrors_u64; unfold is_u64, u64_max; lia|]. intros t. unfold of_result. by rewrite Hb.
Qed.

Lemma mirrors_byte_bounds b : byte_ok b -> mirrors (encode_byte_bounds b) decode_byte_bounds b.
Proof.
  intros (Hb & Hs). pose proof Hb as Hr. unfold byte_string_type_new, MAX_BYTE_STRING_TYPE_LENGTH in Hr.
  case_match; [done|]. bool_inv. unfold encode_byte_bounds, decode_byte_bounds.
  eapply mirrors_bind; [apply mirrors_u64; unfold is_u64, u64_max; lia|]. cbv beta.
  eapply mirrors_then; [apply mirrors_u64; unfold is_u64, u64_max; lia|]. intros t. unfold of_result. by rewrite Hb.
Qed.

Lemma canonical_decimal_bounds : canonical decode_decimal_bounds encode_decimal_bounds.
Proof.
  apply canonical_writes. intros t t' b D. unfold decode_decimal_bounds, try_u16, encode_decimal_bounds in *. run_inv.
  unfold decimal_type_new in *. repeat case_match; simplify_eq/=. eapply writes_bind; eauto with codec.
Qed.

Lemma canonical_character_bounds : canonical decode_character_bounds encode_character_bounds.
Proof.
  apply canonical_writes. intros t t' b D. unfold decode_character_bounds, encode_character_bounds in *. run_inv.
  unfold character_string_type_new in *. repeat case_match; simplify_eq/=. eapply writes_bind; eauto with codec.
Qed.

Lemma canonical_byte_bounds : canonical decode_byte_bounds encode_byte_bounds.
Proof.
  apply canonical_writes. intros t t' b D. unfold decode_byte_bounds, encode_byte_bounds in *. run_inv.
  unfold byte_string_type_new in *. repeat case_match; simplify_eq/=. eapply writes_bind; eauto with codec.
Qed.

Lemma mirrors_cardinality c : mirrors (encode_cardinality c) decode_cardinality c.
Proof. destruct c; (eapply mirrors_then; [apply mirrors_u8; lia|done]). Qed.
Lemma canonical_cardinality : canonical decode_cardinality encode_cardinality.
Proof.
  apply canonical_writes. intros t t' c D. unfold decode_cardinality in D. run_inv. repeat case_match; subst; try done; run_inv; by apply writes_u8.
Qed.
Lemma mirrors_validation_mode m : mirrors (encode_validation_mode m) decode_validation_mode m.
Proof. destruct m; (eapply mirrors_then; [apply mirrors_u8; lia|done]). Qed.
Lemma canonical_validation_mode : canonical decode_validation_mode encode_validation_mode.
Proof.
  apply canonical_writes. intros t t' c D. unfold decode_validation_mode in D. run_inv. repeat case_match; subst; try done; run_inv; by apply writes_u8.
Qed.

#[export] Hint Resolve mirrors_labels mirrors_endpoint mirrors_predefined mirrors_property_kind mirrors_decimal_bounds
  mirrors_character_bounds mirrors_byte_bounds mirrors_cardinality mirrors_validation_mode : codec.

Lemma writes_option {A} (d : Decoder.M A) f t o t' : canonical d f -> decode_option d t = (Ok o, t') -> writes (encode_option f o) t t'.
Proof. intros C. by apply canonical_option. Qed.
#[export] Hint Resolve canonical_labels canonical_endpoint canonical_predefined canonical_property_kind canonical_decimal_bounds
  canonical_character_bounds canonical_byte_bounds canonical_cardinality canonical_validation_mode : codec.

(** A field read by a decoder with a canonical encoding. *)
#[export] Hint Extern 5 (writes (encode_option _ _) _ _) => eapply writes_option; [|eassumption] : codec.
#[export] Hint Extern 6 (writes _ _ _) => eapply writes_run; [solve [eauto 2 with codec]|eassumption] : codec.

(** ** Value types *)

Section ValueTypes.
Context `{Leaves} `{Sizes}.

Definition value_type_body (rec : Decoder.M ValueType) (depth : Z) : Decoder.M ValueType :=
  Decoder.on_budget (Budget.depth depth) ;;
  Decoder.on_budget (metadata_charge size_value_type) ;;
  do predefined <- decode_option decode_predefined;
  do decimal_type <- decode_option decode_decimal_bounds;
  do character_string_type <- decode_option decode_character_bounds;
  do byte_string_type <- decode_option decode_byte_bounds;
  do list_of <- decode_option rec;
  do not_null <- Decoder.boolean;
  do cardinality <- decode_cardinality;
  ret (VT predefined decimal_type character_string_type byte_string_type None list_of None not_null cardinality).

#[export] Instance kept_depth depth : LimitsKept (Decoder.on_budget (Budget.depth depth)).
Proof. apply kept_budget, depth_keeps. Qed.
#[export] Instance kept_metadata n : LimitsKept (Decoder.on_budget (metadata_charge n)).
Proof. apply kept_budget, metadata_charge_keeps. Qed.
#[export] Instance kept_decimal_bounds : LimitsKept decode_decimal_bounds.
Proof. unfold decode_decimal_bounds, try_u16. apply _. Qed.
#[export] Instance kept_character_bounds : LimitsKept decode_character_bounds.
Proof. unfold decode_character_bounds. apply _. Qed.
#[export] Instance kept_byte_bounds : LimitsKept decode_byte_bounds.
Proof. unfold decode_byte_bounds. apply _. Qed.
#[export] Instance kept_predefined : LimitsKept decode_predefined.
Proof. unfold decode_predefined. apply _. Qed.
#[export] Instance kept_property_kind : LimitsKept decode_property_kind.
Proof. unfold decode_property_kind. apply _. Qed.
#[export] Instance kept_cardinality : LimitsKept decode_cardinality.
Proof. apply kept_bind; [apply _|]. intros a. repeat case_match; apply _. Qed.

Lemma kept_value_type_rec fuel depth : LimitsKept (value_type_rec fuel depth).
Proof.
  revert depth. induction fuel as [|fuel IH]; intros depth; cbn [value_type_rec]; [apply _|].
  pose proof (IH (depth + 1)). apply _.
Qed.

Lemma value_type_body_agree L rec rec' depth :
  agree L rec rec' -> LimitsKept rec -> agree L (value_type_body rec depth) (value_type_body rec' depth).
Proof.
  intros Hr Hk. unfold value_type_body. do 6 (apply agree_bind; [apply agree_refl|apply _|]; intros ?).
  apply agree_bind; [by apply agree_option|apply _|]. intros ?. apply agree_refl.
Qed.

(** Beyond the depth limit every decoder that starts with the check fails alike. *)
Lemma depth_exceeded {A} depth (k k' : unit -> Decoder.M A) t : Limits.depth (limits_of t) < depth ->
  bind (Decoder.on_budget (Budget.depth depth)) k t = bind (Decoder.on_budget (Budget.depth depth)) k' t.
Proof. intros Hd. unfold bind, Decoder.on_budget, Budget.depth. by rewrite (proj2 (Z.ltb_lt _ _) Hd). Qed.

Lemma fuel_for_step t depth : depth <= Limits.depth (limits_of t) -> fuel_for t depth = S (fuel_for t (depth + 1)).
Proof. unfold fuel_for. lia. Qed.

Lemma fuel_for_limits t t' depth : limits_of t' = limits_of t -> fuel_for t' depth = fuel_for t depth.
Proof. unfold fuel_for. by intros ->. Qed.

(** [Decoder::value_type] satisfies the recursion of the source. *)
Lemma value_type_unfold depth t : decode_value_type depth t = value_type_body (decode_value_type (depth + 1)) depth t.
Proof.
  unfold decode_value_type at 1. destruct (Z.le_gt_cases depth (Limits.depth (limits_of t))) as [Hd|Hd].
  - rewrite (fuel_for_step _ _ Hd). apply (value_type_body_agree (limits_of t)); [|apply kept_value_type_rec|done].
    intros t1 Ht. unfold decode_value_type. by rewrite (fuel_for_limits _ _ _ Ht).
  - destruct (fuel_for t depth); cbn [value_type_rec]; by apply depth_exceeded.
Qed.

Fixpoint value_type_ok (ty : ValueType) : Prop :=
  match ty with
  | VT _ decimal_type character_string_type byte_string_type _ list_of _ _ _ =>
      match decimal_type with Some b => decimal_ok b | None => True end /\
      match character_string_type with Some b => character_ok b | None => True end /\
      match byte_string_type with Some b => byte_ok b | None => True end /\
      match list_of with Some inner => value_type_ok inner | None => True end
  end.

Lemma mirrors_option_id {A} (f : A -> Encoder.M unit) d o :
  match o with Some x => mirrors (f x) d x | None => True end -> mirrors (encode_option f o) (decode_option d) o.
Proof.
  intros M. pose proof (mirrors_option f (fun x => x) d o) as HM. rewrite option_fmap_id in HM. apply HM. intros x ->. exact M.
Qed.

Lemma mirrors_ext {A} e (d d' : Decoder.M A) a : (forall t, d t = d' t) -> mirrors e d' a -> mirrors e d a.
Proof.
  intros X M s s' E. destruct (M s s' E) as (o & b & Ho & L & F & D). exists o, b. do 3 (split; [done|]). intros rest. by rewrite X.
Qed.

Lemma mirrors_value_type ty depth : value_type_ok ty -> mirrors (encode_value_type ty depth) (decode_value_type depth) ty.
Proof.
  revert ty depth. fix IH 1. intros [pre dec chr byt un ls rc nn card] depth (Hd & Hc & Hb & Hl).
  eapply mirrors_ext; [apply value_type_unfold|]. cbn [encode_value_type]. unfold value_type_body.
  do 2 field. apply mirrors_fail_if. intros [Hu Hr]%orb_false_iff. apply bool_decide_eq_false, eq_None_not_Some in Hu, Hr. subst un rc.
  eapply mirrors_bind; [apply mirrors_option_id; destruct pre; auto with codec|].
  eapply mirrors_bind; [apply mirrors_option_id; destruct dec; auto with codec|].
  eapply mirrors_bind; [apply mirrors_option_id; destruct chr; auto with codec|].
  eapply mirrors_bind; [apply mirrors_option_id; destruct byt; auto with codec|].
  eapply mirrors_bind; [apply mirrors_option_id; destruct ls as [inner|]; [exact (IH inner (depth + 1) Hl)|done]|].
  field. eapply mirrors_then; [apply mirrors_cardinality|done].
Qed.

Lemma canonical_value_type_rec fuel depth : canonical (value_type_rec fuel depth) (fun ty => encode_value_type ty depth).
Proof.
  revert depth. induction fuel as [|fuel IH]; intros depth; apply canonical_writes; intros t t' ty D; cbn [value_type_rec] in D.
  - by run_inv.
  - run_inv. repeat match goal with u : unit |- _ => destruct u end. cbn [encode_value_type].
    do 2 written. apply writes_fail_if; [done|]. do 4 written.
    eapply writes_bind; [eapply writes_option; [apply (IH (depth + 1))|eassumption]|].
    eapply writes_bind; eauto with codec.
Qed.

Lemma canonical_value_type depth : canonical (decode_value_type depth) (fun ty => encode_value_type ty depth).
Proof. intros t t' ty D. by eapply canonical_value_type_rec. Qed.
End ValueTypes.

(** ** Record structures *)

Section FieldsInd.
Variables (P : Fields.structure -> Prop) (Q : Fields.type -> Prop).
Hypothesis Hopen : P Fields.Open.
Hypothesis Hclosed : forall fields, Forall (fun '(Fields.Def _ ty _) => Q ty) fields -> P (Fields.Closed fields).
Hypothesis Hscalar : forall v, Q (Fields.Scalar v).
Hypothesis Hcharacter : forall v, Q (Fields.CharacterString v).
Hypothesis Hdecimal : forall v, Q (Fields.Decimal v).
Hypothesis Hbyte : forall v, Q (Fields.ByteString v).
Hypothesis Hlist : forall v, Q v -> Q (Fields.List v).
Hypothesis Hrecord : forall v, P v -> Q (Fields.Record v).
Hypothesis Hnotnull : forall v, Q v -> Q (Fields.NotNull v).

Fixpoint structure_rect (r : Fields.structure) : P r :=
  match r with
  | Fields.Open => Hopen
  | Fields.Closed fields => Hclosed fields
      ((fix go l : Forall (fun '(Fields.Def _ ty _) => Q ty) l :=
          match l with
          | [] => Forall_nil_2 _
          | Fields.Def name ty required :: l => Forall_cons_2 _ (Fields.Def name ty required) l (field_rect ty) (go l)
          end) fields)
  end
with field_rect (ty : Fields.type) : Q ty :=
  match ty with
  | Fields.Scalar v => Hscalar v
  | Fields.CharacterString v => Hcharacter v
  | Fields.Decimal v => Hdecimal v
  | Fields.ByteString v => Hbyte v
  | Fields.List v => Hlist v (field_rect v)
  | Fields.Record v => Hrecord v (structure_rect v)
  | Fields.NotNull v => Hnotnull v (field_rect v)
  end.
End FieldsInd.

Section Structures.
Context `{Leaves} `{Sizes}.

Definition field_def (rec : Decoder.M Fields.type) : Decoder.M Fields.def :=
  do name <- decode_name;
  do field_type <- rec;
  do required <- Decoder.boolean;
  ret (Fields.Def name field_type required).

Definition structure_body (rec : Decoder.M Fields.type) (depth : Z) : Decoder.M Fields.structure :=
  Decoder.on_budget (Budget.depth depth) ;;
  Decoder.on_budget (metadata_charge size_record_structure) ;;
  do tag <- Decoder.u8;
  match tag with
  | 0 => ret Fields.Open
  | 1 =>
      do count <- Decoder.count;
      do fields <- repeat_m (Z.to_nat count) (field_def rec);
      ret (Fields.Closed fields)
  | _ => throw (E_Invalid "record structure tag")
  end.

Definition field_type_body (rec : Decoder.M Fields.type) (structure : Decoder.M Fields.structure) (depth : Z) : Decoder.M Fields.type :=
  Decoder.on_budget (Budget.depth depth) ;;
  Decoder.on_budget (metadata_charge size_field_type) ;;
  do tag <- Decoder.u8;
  match tag with
  | 0 =>
      do kind <- decode_property_kind;
      fail_if (negb (is_storable_descriptor (structural_type kind))) E_Semantic ;;
      ret (Fields.Scalar kind)
  | 1 => do v <- decode_character_bounds; ret (Fields.CharacterString v)
  | 2 => do v <- decode_decimal_bounds; ret (Fields.Decimal v)
  | 3 => do v <- decode_byte_bounds; ret (Fields.ByteString v)
  | 4 => do v <- rec; ret (Fields.List v)
  | 5 => do v <- structure; ret (Fields.Record v)
  | 6 => do v <- rec; ret (Fields.NotNull v)
  | _ => throw (E_Invalid "record field type tag")
  end.

#[export] Instance kept_repeat {A} n (d : Decoder.M A) : LimitsKept d -> LimitsKept (repeat_m n d).
Proof. intros Hd. induction n as [|n IH]; cbn [repeat_m]; apply _. Qed.
#[export] Instance kept_structure_body rec depth : LimitsKept rec -> LimitsKept (structure_body rec depth).
Proof.
  intros Hr. unfold structure_body, field_def. do 3 (apply kept_bind; [apply _|]; intros ?). repeat case_match; apply _.
Qed.
#[export] Instance kept_field_type_body rec structure depth : LimitsKept rec -> LimitsKept structure -> LimitsKept (field_type_body rec structure depth).
Proof.
  intros Hr Hs. unfold field_type_body. do 3 (apply kept_bind; [apply _|]; intros ?). repeat case_match; apply _.
Qed.

Lemma kept_structure_rec fuel depth : LimitsKept (structure_rec fuel depth) /\ LimitsKept (field_type_rec fuel depth).
Proof.
  revert depth. induction fuel as [|fuel IH]; intros depth; [by split; cbn; apply _|]. destruct (IH (depth + 1)) as [H1 H2]. split.
  - by apply kept_structure_body.
  - by apply kept_field_type_body.
Qed.

Lemma structure_body_agree L rec rec' depth :
  agree L rec rec' -> LimitsKept rec -> agree L (structure_body rec depth) (structure_body rec' depth).
Proof.
  intros Hr Hk. unfold structure_body. do 3 (apply agree_bind; [apply agree_refl|apply _|]; intros ?).
  repeat case_match; try apply agree_refl. unfold field_def. apply agree_bind; [apply agree_refl|apply _|]. intros n.
  apply agree_bind; [|apply _|intros; apply agree_refl]. apply agree_repeat; [|apply _].
  apply agree_bind; [apply agree_refl|apply _|]. intros ?. apply agree_bind; [done|done|]. intros ?. apply agree_refl.
Qed.

Lemma field_type_body_agree L rec rec' str str' depth :
  agree L rec rec' -> LimitsKept rec -> agree L str str' -> LimitsKept str ->
  agree L (field_type_body rec str depth) (field_type_body rec' str' depth).
Proof.
  intros Hr Hk Hs Hsk. unfold field_type_body. do 3 (apply agree_bind; [apply agree_refl|apply _|]; intros ?).
  repeat case_match; try apply agree_refl; (apply agree_bind; [done|done|]; intros ?; apply agree_refl).
Qed.

Definition decode_field_type (depth : Z) : Decoder.M Fields.type := fun self => field_type_rec (fuel_for self depth) depth self.

(** [Decoder::record_structure] and [Decoder::field_type] satisfy the recursion of the source. *)
Lemma structure_unfold depth t : decode_structure depth t = structure_body (decode_field_type (depth + 1)) depth t.
Proof.
  unfold decode_structure. destruct (Z.le_gt_cases depth (Limits.depth (limits_of t))) as [Hd|Hd].
  - rewrite (fuel_for_step _ _ Hd). apply (structure_body_agree (limits_of t)); [|apply kept_structure_rec|done].
    intros t1 Ht. unfold decode_field_type. by rewrite (fuel_for_limits _ _ _ Ht).
  - destruct (fuel_for t depth); cbn [structure_rec]; by apply depth_exceeded.
Qed.

Lemma field_type_unfold depth t :
  decode_field_type depth t = field_type_body (decode_field_type (depth + 1)) (decode_structure (depth + 1)) depth t.
Proof.
  unfold decode_field_type at 1. destruct (Z.le_gt_cases depth (Limits.depth (limits_of t))) as [Hd|Hd].
  - rewrite (fuel_for_step _ _ Hd). apply (field_type_body_agree (limits_of t)); try apply kept_structure_rec; try done.
    + intros t1 Ht. unfold decode_field_type. by rewrite (fuel_for_limits _ _ _ Ht).
    + intros t1 Ht. unfold decode_structure. by rewrite (fuel_for_limits _ _ _ Ht).
  - destruct (fuel_for t depth); cbn [field_type_rec]; by apply depth_exceeded.
Qed.

Fixpoint structure_ok (r : Fields.structure) : Prop :=
  match r with
  | Fields.Open => True
  | Fields.Closed fields => all_of (fun '(Fields.Def name ty _) => string_ok name /\ field_type_ok ty) fields
  end
with field_type_ok (ty : Fields.type) : Prop :=
  match ty with
  | Fields.Scalar _ => True
  | Fields.CharacterString v => character_ok v
  | Fields.Decimal v => decimal_ok v
  | Fields.ByteString v => byte_ok v
  | Fields.List v | Fields.NotNull v => field_type_ok v
  | Fields.Record v => structure_ok v
  end.

#[export] Instance hungry_field_def rec : Hungry (field_def rec).
Proof. unfold field_def. apply _. Qed.

Definition structure_mirrors (r : Fields.structure) : Prop :=
  structure_ok r -> forall depth, mirrors (encode_structure r depth) (decode_structure depth) r.
Definition field_type_mirrors (ty : Fields.type) : Prop :=
  field_type_ok ty -> forall depth, mirrors (encode_field_type ty depth) (decode_field_type depth) ty.

Lemma mirrors_closed fields :
  Forall (fun '(Fields.Def _ ty _) => field_type_mirrors ty) fields -> structure_mirrors (Fields.Closed fields).
Proof.
  intros Hf Ho depth. eapply mirrors_ext; [apply structure_unfold|]. cbn [encode_structure]. unfold structure_body.
  do 2 field. eapply mirrors_bind; [apply mirrors_u8; lia|]. cbv beta iota.
  pose proof (mirrors_counted_last 64 (fun '(Fields.Def name field_type required) =>
    Encoder.text name ;; encode_field_type field_type (depth + 1) ;; Encoder.boolean required)
    (fun x => x) (field_def (decode_field_type (depth + 1))) fields Fields.Closed) as HM.
  rewrite map_id in HM. apply HM; [apply _|]. clear HM. cbn [structure_ok] in Ho. apply all_of_Forall in Ho.
  eapply Forall_impl; [apply Forall_and; split; [exact Hf|exact Ho]|]. intros [name ty req] [Hty [Hn Hto]].
  unfold field_def. field. eapply mirrors_bind; [by apply Hty|]. eapply mirrors_then; [apply mirrors_boolean|done].
Qed.

Ltac field_arm := intros Ho depth; eapply mirrors_ext; [apply field_type_unfold|]; cbn [encode_field_type field_type_ok] in *; unfold field_type_body;
  do 2 field; eapply mirrors_bind; [apply mirrors_u8; lia|]; cbv beta iota; apply mirrors_map; auto with codec.

Lemma mirrors_scalar v : field_type_mirrors (Fields.Scalar v).
Proof.
  intros Ho depth. eapply mirrors_ext; [apply field_type_unfold|]. cbn [encode_field_type]. unfold field_type_body.
  do 2 field. apply mirrors_fail_if. intros Hs. eapply mirrors_bind; [apply mirrors_u8; lia|]. cbv beta iota.
  eapply mirrors_then; [apply mirrors_property_kind|]. intros t. by rewrite Hs.
Qed.

Lemma mirrors_structure_both : (forall r, structure_mirrors r) /\ (forall ty, field_type_mirrors ty).
Proof.
  assert (Hopen : structure_mirrors Fields.Open).
  { intros _ depth. eapply mirrors_ext; [apply structure_unfold|]. cbn [encode_structure]. unfold structure_body.
    do 2 field. eapply mirrors_then; [apply mirrors_u8; lia|done]. }
  split; [apply (structure_rect _ field_type_mirrors)|apply (field_rect structure_mirrors)];
    try exact Hopen; try exact mirrors_closed; try exact mirrors_scalar; unfold field_type_mirrors, structure_mirrors; intros v; try intros IH; field_arm.
Qed.

Lemma mirrors_structure r depth : structure_ok r -> mirrors (encode_structure r depth) (decode_structure depth) r.
Proof. intros Ho. by apply mirrors_structure_both. Qed.

Lemma canonical_structure_body rec depth :
  canonical rec (fun ty => encode_field_type ty (depth + 1)) -> canonical (structure_body rec depth) (fun r => encode_structure r depth).
Proof.
  intros CT. apply canonical_writes. intros t t' r D. unfold structure_body in D. run_inv.
  repeat case_match; subst; try done; run_inv; cbn [encode_structure]; all_written.
  eapply canonical_counted in Hrun3 as [W1 W2]; [eapply writes_bind; [exact W1|exact W2]|exact Hrun2|].
  apply canonical_writes. clear -CT. intros t t' d D. unfold field_def in D. run_inv. written.
  eapply writes_bind; [by apply CT|]. eauto with codec.
Qed.

Lemma canonical_field_type_body rec str depth :
  canonical rec (fun ty => encode_field_type ty (depth + 1)) -> canonical str (fun r => encode_structure r (depth + 1)) ->
  canonical (field_type_body rec str depth) (fun ty => encode_field_type ty depth).
Proof.
  intros CT CS. apply canonical_writes. intros t t' r D. unfold field_type_body in D. run_inv.
  repeat case_match; subst; try done; run_inv; cbn [encode_field_type]; all_written; try (by apply CT); try (by apply CS).
  apply writes_fail_if; [done|]. all_written.
Qed.

Lemma canonical_structure_rec fuel depth :
  canonical (structure_rec fuel depth) (fun r => encode_structure r depth) /\
  canonical (field_type_rec fuel depth) (fun ty => encode_field_type ty depth).
Proof.
  revert depth. induction fuel as [|fuel IH]; intros depth; [by split; intros t t' ty D; cbn in D; run_inv|].
  destruct (IH (depth + 1)) as [CS CT]. split; [by apply canonical_structure_body|by apply canonical_field_type_body].
Qed.

Lemma canonical_structure depth : canonical (decode_structure depth) (fun r => encode_structure r depth).
Proof. intros t t' r D. by eapply canonical_structure_rec. Qed.
End Structures.

(** ** Graph definitions *)

Section Definitions.
Context `{Leaves} `{!DecimalLaws} `{!SpanLaws} `{Sizes}.

Definition property_def_ok (p : PropertyDef) : Prop :=
  string_ok (prop_name p) /\ value_type_ok (prop_value_type p) /\
  match prop_default p with Some v => value_ok v | None => True end /\
  match prop_record_fields p with Some r => structure_ok r | None => True end.

Definition node_type_ok (entry : bytes * NodeTypeDef) : Prop :=
  string_ok (fst entry) /\ labels_ok (node_labels (snd entry)) /\ Forall property_def_ok (node_properties (snd entry)).

Definition edge_type_ok (entry : bytes * EdgeTypeDef) : Prop :=
  string_ok (fst entry) /\ string_ok (edge_label (snd entry)) /\ endpoint_ok (edge_source_node_type (snd entry)) /\
  endpoint_ok (edge_target_node_type (snd entry)) /\ Forall property_def_ok (edge_properties (snd entry)).

Definition definition_ok (def : GraphDefinition) : Prop :=
  string_ok (def_name def) /\ Forall node_type_ok (def_nodes def) /\ Forall edge_type_ok (def_edges def).

(** What is read back: the endpoints are in order. *)
Definition normal_edge_type (entry : bytes * EdgeTypeDef) : bytes * EdgeTypeDef :=
  let edge := snd entry in
  (fst entry, {| edge_label := edge_label edge; edge_source_node_type := normal_endpoint (edge_source_node_type edge);
                 edge_target_node_type := normal_endpoint (edge_target_node_type edge);
                 edge_properties := edge_properties edge; edge_validation_mode := edge_validation_mode edge |}).
Definition normal_definition (def : GraphDefinition) : GraphDefinition :=
  {| def_name := def_name def; def_nodes := def_nodes def; def_edges := map normal_edge_type (def_edges def) |}.

#[export] Instance hungry_property_def : Hungry decode_property_def.
Proof. unfold decode_property_def. apply _. Qed.
#[export] Instance hungry_node_type : Hungry decode_node_type.
Proof. unfold decode_node_type. apply _. Qed.
#[export] Instance hungry_edge_type : Hungry decode_edge_type.
Proof. unfold decode_edge_type. apply _. Qed.

Lemma mirrors_property_def p : property_def_ok p -> mirrors (encode_property_def p) decode_property_def p.
Proof.
  intros (Hn & Ht & Hv & Hr). destruct p as [name vt nullable default immutable unique fields]. cbn in *.
  unfold encode_property_def, decode_property_def. cbn. do 2 field. eapply mirrors_bind; [by apply mirrors_value_type|]. field.
  eapply mirrors_bind; [apply mirrors_option_id; destruct default; [by apply mirrors_value|done]|]. do 2 field.
  eapply mirrors_then; [apply mirrors_option_id; destruct fields; [by apply mirrors_structure|done]|done].
Qed.

Lemma mirrors_properties_definition l :
  Forall property_def_ok l -> mirrors (encode_properties_definition l) decode_properties_definition l.
Proof.
  intros Hl. unfold encode_properties_definition, decode_properties_definition. apply mirrors_count_for; [apply zlen_nonneg| |].
  - eapply (emits_each _ (fun x => x) decode_property_def); [apply _|]. eapply Forall_impl; [exact Hl|]. apply mirrors_property_def.
  - unfold zlen. rewrite Nat2Z.id. apply mirrors_for_each. eapply Forall_impl; [exact Hl|]. apply mirrors_property_def.
Qed.
#[local] Hint Resolve mirrors_properties_definition : codec.

Lemma mirrors_node_type e : node_type_ok e -> mirrors (encode_node_type e) decode_node_type e.
Proof.
  intros (Hn & Hl & Hp). destruct e as [name [labels props key mode]]. cbn in *. unfold encode_node_type, decode_node_type. cbn.
  field. apply mirrors_fail_if. intros Hk%bool_decide_eq_false. apply eq_None_not_Some in Hk. subst key.
  do 3 field. eapply mirrors_then; [apply mirrors_validation_mode|done].
Qed.

Lemma mirrors_edge_type e : edge_type_ok e -> mirrors (encode_edge_type e) decode_edge_type (normal_edge_type e).
Proof.
  intros (Hn & Hl & Hs & Ht & Hp). destruct e as [name [label src tgt props mode]]. cbn in *. unfold encode_edge_type, decode_edge_type, normal_edge_type. cbn.
  do 6 field. eapply mirrors_then; [apply mirrors_validation_mode|done].
Qed.

Lemma mirrors_definition def : definition_ok def -> mirrors (encode_graph_definition def) decode_graph_definition (normal_definition def).
Proof.
  intros (Hn & Hns & Hes). unfold encode_graph_definition, decode_graph_definition. do 2 field.
  eapply (mirrors_counted _ _ (fun x => x) decode_node_type); [apply _|eapply Forall_impl; [exact Hns|apply mirrors_node_type]|].
  rewrite map_id. apply (mirrors_counted_last _ _ normal_edge_type decode_edge_type _
    (fun edges => {| def_name := def_name def; def_nodes := def_nodes def; def_edges := edges |})); [apply _|].
  eapply Forall_impl; [exact Hes|apply mirrors_edge_type].
Qed.

Lemma canonical_property_def : canonical decode_property_def encode_property_def.
Proof.
  apply canonical_writes. intros t t' p D. unfold decode_property_def in D. run_inv. unfold encode_property_def. cbn. all_written.
  eapply writes_bind; [by apply canonical_value_type|]. written.
  eapply writes_bind; [eapply writes_option; [apply (canonical_value 1)|eassumption]|]. all_written.
  eapply writes_option; [apply (canonical_structure 1)|eassumption].
Qed.

Lemma canonical_properties_definition : canonical decode_properties_definition encode_properties_definition.
Proof.
  apply canonical_writes. intros t t' l D. unfold decode_properties_definition in D. run_inv.
  eapply canonical_counted in D as [W1 W2]; [eapply writes_bind; [exact W1|exact W2]|exact Hrun|apply canonical_property_def].
Qed.
#[local] Hint Resolve canonical_properties_definition : codec.

Lemma canonical_node_type : canonical decode_node_type encode_node_type.
Proof.
  apply canonical_writes. intros t t' e D. unfold decode_node_type in D. run_inv. unfold encode_node_type. cbn. all_written.
Qed.

Lemma canonical_edge_type : canonical decode_edge_type encode_edge_type.
Proof.
  apply canonical_writes. intros t t' e D. unfold decode_edge_type in D. run_inv. unfold encode_edge_type. cbn. all_written.
Qed.

Lemma canonical_definition : canonical decode_graph_definition encode_graph_definition.
Proof.
  apply canonical_writes. intros t t' def D. unfold decode_graph_definition in D. run_inv. unfold encode_graph_definition. cbn. all_written.
  eapply canonical_counted in Hrun2 as [W1 W2]; [|exact Hrun1|apply canonical_node_type].
  eapply canonical_counted in Hrun4 as [W3 W4]; [|exact Hrun3|apply canonical_edge_type].
  by repeat (eapply writes_bind; [eassumption|]).
Qed.
End Definitions.
