(* ===== verification/DeltaProps.v ===== *)
(** The codec of graph deltas: what is encoded is read back, and a decoded delta
    is written as the bytes it was read from. *)

From S2P Require Import Prelude Errors Wire Value ValueCodec ValueLoop ValueRoundtrip ValueCanonical ValueProps Ordered LabelSet PropertyMap PropertyProps Schema GraphDelta WireProps SchemaProps.
From coqutil Require Import Byte.

(** ** Names *)

Lemma mirrors_names l : Forall string_ok l -> mirrors (encode_names l) decode_names l.
Proof. intros Hl. apply mirrors_fail_if. intros Ha%negb_false_iff. apply ascending_sorted in Ha. by apply mirrors_named. Qed.

Lemma names_inv t l t' : decode_names t = (Ok l, t') -> sorted_names l /\ writes (encode_names l) t t'.
Proof.
  intros D. apply named_inv in D as [Hs W]. split; [done|]. apply writes_fail_if; [|done]. apply negb_false_iff. by apply ascending_sorted.
Qed.

(** ** Properties *)

Section Properties.
Context `{Leaves} `{!DecimalLaws} `{!SpanLaws}.

Definition entry_ok (e : bytes * Value) : Prop := string_ok (fst e) /\ value_ok (snd e) /\ valid (snd e).

Lemma sorted_entries (l : list (bytes * Value)) : sorted fst l <-> sorted_names (map fst l).
Proof. unfold sorted. by rewrite LabelSet.map_id_names. Qed.

Lemma entries_last (l : list (bytes * Value)) k v :
  sorted fst (l ++ [(k, v)]) <-> sorted fst l /\ not_after (last (map fst l)) k = false.
Proof. rewrite !sorted_entries, map_app. apply sorted_last. Qed.

Lemma last_key (l : list (bytes * Value)) k v : last (map fst (l ++ [(k, v)])) = Some k.
Proof. rewrite map_app. apply last_snoc. Qed.

(** In order, [PropertyMap::set] appends. *)
Lemma set_last l k v : sorted fst (l ++ [(k, v)]) -> valid v ->
  pm_set k v (Standard l) = let? _ := ensure_within_cap (zlen l + 1) in Ok (Standard (l ++ [(k, v)])).
Proof.
  intros Hs Hv. apply sorted_app in Hs as (S1 & _ & S3). unfold pm_set, set_standard. rewrite Hv. cbn [map_err].
  pose proof (search_split _ k l S1) as HS. assert (HL : forall a, a ∈ l -> bytes_lt (fst a) k) by (intros a Ha; apply (S3 a (k, v)); [done|by left]).
  destruct (search _ k l) as [i|i].
  - destruct HS as (l1 & y & l2 & -> & _ & <-). exfalso. eapply bytes_lt_irrefl, HL. apply elem_of_app. right. by left.
  - destruct HS as (l1 & l2 & -> & <- & _ & H2). destruct l2 as [|b l2].
    + rewrite insert_at_middle, app_nil_r. by destruct (ensure_within_cap _).
    + exfalso. apply Forall_cons in H2 as [H2 _]. eapply bytes_lt_irrefl. etrans; [exact H2|]. apply HL, elem_of_app. right. by left.
Qed.

Lemma mirrors_entries l acc :
  Forall entry_ok l -> sorted fst (acc ++ l) -> zlen (acc ++ l) <= MAX_PROPERTY_COUNT ->
  mirrors (for_each encode_entry l) (properties_loop (length l) (last (map fst acc)) (Standard acc)) (Standard (acc ++ l)).
Proof.
  intros Hl. revert acc. induction Hl as [|[k v] l (Hk & Hv & Hd) _ IH]; intros acc Hs Hc; cbn [for_each properties_loop length].
  { rewrite app_nil_r. apply mirrors_ret. }
  replace (acc ++ (k, v) :: l) with ((acc ++ [(k, v)]) ++ l) in * by (by rewrite <- app_assoc).
  assert (Hs' : sorted fst (acc ++ [(k, v)])) by (by apply sorted_app in Hs as (? & _)).
  unfold encode_entry. cbn [fst snd] in *. eapply mirrors_impl; [intros s s' E; rewrite bind_assoc in E; exact E|].
  field. apply mirrors_pure with (a := tt); [intros t; by rewrite (proj2 (proj1 (entries_last _ _ _) Hs'))|].
  eapply mirrors_bind; [by apply mirrors_value|]. cbv beta. apply mirrors_pure with (a := Standard (acc ++ [(k, v)])).
  - intros t. rewrite set_last by done. unfold ensure_within_cap, of_result. rewrite !zlen_app in Hc. pose proof (zlen_nonneg l).
    unfold zlen at 2 in Hc. cbn in Hc. rewrite (proj2 (Z.ltb_ge _ _)) by lia. done.
  - rewrite <- (last_key acc k v). by apply IH.
Qed.

Lemma properties_loop_inv n acc t r t' : properties_loop n (last (map fst acc)) (Standard acc) t = (Ok r, t') -> sorted fst acc ->
  exists l, r = Standard (acc ++ l) /\ length l = n /\ sorted fst (acc ++ l) /\ Forall (fun e => valid (snd e)) l /\
    writes (for_each encode_entry l) t t'.
Proof.
  revert acc t. induction n as [|n IH]; intros acc t D Hs; cbn [properties_loop] in D.
  { run_inv. exists []. rewrite app_nil_r. split_and!; try done. apply writes_ret. }
  run_inv. assert (Hs' : sorted fst (acc ++ [(a, a1)])) by (by apply entries_last).
  assert (Hv : valid a1 /\ a2 = Standard (acc ++ [(a, a1)])).
  { destruct (pm_set a a1 (Standard acc)) as [m|] eqn:E; [|done]. cbn in Hrun2.
    assert (Hv : valid a1) by (unfold pm_set, valid in *; by destruct (validate a1) as [[]|]). split; [done|].
    rewrite set_last in E by done. destruct (ensure_within_cap _); simplify_eq/=. done. }
  destruct Hv as [Hv ->]. rewrite <- (last_key acc a a1) in D.
  apply IH in D as (l & -> & Hl & Hs2 & Hf & W); [|done]. exists ((a, a1) :: l). rewrite <- app_assoc in *. split_and!; try done.
  - by cbn; f_equal.
  - by constructor.
  - cbn [for_each]. eapply writes_bind; [|exact W]. unfold encode_entry. written. by apply (canonical_value 1).
Qed.

Lemma mirrors_bounded {A} size n (body : Encoder.M unit) (d : Decoder.M A) a :
  (n <= u32_max -> mirrors (Encoder.count_for size n ;; body) d a) -> mirrors (Encoder.count_for size n ;; body) d a.
Proof.
  intros M s s' E. apply M; [|done]. apply bind_Ok in E as (u & s1 & E & _). unfold Encoder.count_for in E. run_inv.
  unfold Encoder.try_u32 in *. run_inv. repeat case_match; simplify_eq. bool_inv. lia.
Qed.

Lemma emits_entry e : entry_ok e -> emits 1 (encode_entry e).
Proof.
  intros (Hk & Hv & _). unfold encode_entry. apply emits_bind_l; [eapply emits_hungry; [by apply mirrors_string|apply _]|].
  eapply emits_of_mirrors. by apply (mirrors_value _ 1).
Qed.

Lemma mirrors_entries_counted l : Forall entry_ok l -> sorted fst l ->
  mirrors (Encoder.count (zlen l) ;; for_each encode_entry l) decode_properties (Standard l).
Proof.
  intros Hl Hs. apply mirrors_bounded. intros Hc. apply mirrors_count_for; [apply zlen_nonneg| |].
  - apply emits_for_each. eapply Forall_impl; [exact Hl|]. apply emits_entry.
  - unfold zlen. rewrite Nat2Z.id. by apply (mirrors_entries l []).
Qed.

Definition properties_ok (m : PropertyMap) : Prop := pm_wf m /\ Forall entry_ok (pm_iter m).

Lemma pm_len_iter m : pm_wf m -> pm_len m = zlen (pm_iter m).
Proof. intros Hw. rewrite pm_len_abs by done. unfold abs, map_of. by rewrite map_size_list_to_map by (by apply sorted_keys, iter_sorted). Qed.

Lemma mirrors_properties m : properties_ok m -> mirrors (encode_properties m) decode_properties (Standard (pm_iter m)).
Proof.
  intros [Hw Hf]. unfold encode_properties. rewrite pm_len_iter by done. apply mirrors_entries_counted; [done|by apply iter_sorted].
Qed.

Lemma properties_inv t m t' : decode_properties t = (Ok m, t') ->
  exists l, m = Standard l /\ sorted fst l /\ Forall (fun e => valid (snd e)) l /\
    writes (Encoder.count (zlen l) ;; for_each encode_entry l) t t'.
Proof.
  intros D. unfold decode_properties in D. run_inv. apply (properties_loop_inv _ []) in D as (l & -> & Hl & Hs & Hf & W); [|apply sorted_nil].
  exists l. split_and!; try done. eapply writes_bind; [|exact W]. rewrite (count_length _ _ _ _ _ Hrun Hl). by eapply canonical_count_for.
Qed.

(** ** Diffs *)

Lemma found_in_spec l k : sorted_names l -> found_in l k = true <-> k ∈ l.
Proof.
  intros Hs. rewrite <- (LabelSet.map_id_names l) at 2. rewrite <- (search_found (fun x => x) k l Hs). unfold found_in.
  destruct (search _ k l) as [i|i]; cbn; [split; eauto|]. by split; [|intros [? [=]]].
Qed.

Lemma first_overlap_None {A} (key : A -> bytes) l r : sorted key l -> sorted_names r ->
  existsb (fun x => found_in r (key x)) l = false <-> first_overlap key l r = None.
Proof.
  intros Hl Hr. pose proof (first_overlap_spec key _ l r (le_n _) Hl Hr) as HO. unfold first_overlap.
  destruct (first_overlap_loop _ _ _ _) as [k|].
  - destruct HO as (HL1 & HL2 & _). split; [|done]. intros HE. apply list_elem_of_fmap in HL1 as (x & -> & Hx).
    assert (existsb (fun x => found_in r (key x)) l = true) as HT; [|congruence]. apply existsb_exists. exists x.
    split; [by apply list_elem_of_In|]. by apply found_in_spec.
  - split; [done|]. intros _. apply not_true_is_false. intros (x & Hx & Hf)%existsb_exists. apply found_in_spec in Hf; [|done].
    apply (HO (key x)); [|done]. apply list_elem_of_fmap. exists x. split; [done|by apply list_elem_of_In].
Qed.

Lemma sorted_deduped_id l : sorted_names l -> sorted_deduped l = l.
Proof. intros Hs%ascending_sorted. unfold sorted_deduped. by rewrite Hs, andb_false_r. Qed.

Lemma validate_all_ok l : validate_all (map snd l) = Ok tt <-> Forall (fun e : bytes * Value => valid (snd e)) l.
Proof.
  induction l as [|[k v] l IH]; cbn; [by split; [constructor|]|]. rewrite Forall_cons, <- IH. unfold valid. cbn.
  destruct (validate v) as [[]|e]; cbn; [by split; [|intros [_ ?]]|]. by split; [|intros [[=] _]].
Qed.

Lemma property_diff_new_sorted l r : sorted fst l -> sorted_names r -> Forall (fun e => valid (snd e)) l ->
  property_diff_new l r = match first_overlap fst l r with
                          | Some key => Err (OverlappingDiff "property" key)
                          | None => Ok {| pd_set := l; pd_removed := r |} end.
Proof.
  intros Hl Hr Hv%validate_all_ok. unfold property_diff_new. rewrite Hv. apply ascending_sorted in Hl. rewrite Hl, andb_false_r.
  by rewrite sorted_deduped_id.
Qed.

Definition property_diff_ok (d : PropertyDiff) : Prop := Forall entry_ok (pd_set d) /\ Forall string_ok (pd_removed d).

Lemma mirrors_property_diff d : property_diff_ok d -> mirrors (encode_property_diff d) decode_property_diff d.
Proof.
  intros [Hs Hr]. destruct d as [set removed]. cbn in *. apply mirrors_fail_if. intros [Ha%negb_false_iff Ho]%orb_false_iff.
  apply ascending_sorted in Ha. cbn. eapply mirrors_impl; [intros s s' E; rewrite <- bind_assoc in E; exact E|].
  eapply mirrors_bind; [by apply mirrors_entries_counted|]. cbv beta. cbn [pm_iter].
  apply mirrors_fail_if. intros Hb%negb_false_iff. apply ascending_sorted in Hb. eapply mirrors_then; [by apply mirrors_named|].
  intros t. unfold of_result. apply first_overlap_None in Ho; [|done|done]. cbn [pd_set pd_removed] in Ho.
  rewrite property_diff_new_sorted, Ho; [done|done|done|]. eapply Forall_impl; [exact Hs|]. by intros x (_ & _ & ?).
Qed.

Lemma canonical_property_diff : canonical decode_property_diff encode_property_diff.
Proof.
  apply canonical_writes. intros t t' d D. unfold decode_property_diff in D. run_inv.
  apply properties_inv in Hrun as (l & -> & Hs & Hv & W1). apply names_inv in Hrun0 as [Hr W2]. cbn [pm_iter] in D.
  rewrite property_diff_new_sorted in D by done. destruct (first_overlap _ _ _) eqn:E; [done|]. cbn in D. injection D as <-.
  unfold encode_property_diff. cbn [pd_set pd_removed]. apply first_overlap_None in E; [|done..]. apply writes_fail_if.
  - rewrite E, orb_false_r. by apply negb_false_iff, ascending_sorted.
  - eapply writes_ext; [|eapply writes_bind; [exact W1|exact W2]]. intros s1. symmetry. apply bind_assoc.
Qed.
End Properties.

(** ** Changes *)

Section Changes.
Context `{Leaves} `{!DecimalLaws} `{!SpanLaws} `{LegacyEvents} `{Sizes}.

(** What [NodeId], [EdgeId] and [NonZeroU64] guarantee. *)
Definition is_id (id : Z) : Prop := 0 < id <= u64_max.

Definition change_ok (c : Change) : Prop :=
  match c with
  | NodeCreated id labels properties => is_id id /\ labels_ok labels /\ properties_ok properties
  | NodeUpdated id ld pd => is_id id /\ Forall string_ok (ld_added ld) /\ Forall string_ok (ld_removed ld) /\ property_diff_ok pd
  | NodeDeleted id | EdgeDeleted id => is_id id
  | EdgeCreated id _ label source target properties => is_id id /\ string_ok label /\ is_id source /\ is_id target /\ properties_ok properties
  | EdgeUpdated id pd => is_id id /\ property_diff_ok pd
  | SchemaChanged _ _ => True
  | NodePropertyRemoved id n | EdgePropertyRemoved id n | NodeLabelRemoved id n => is_id id /\ string_ok n
  | NodesOfTypeTruncated n | EdgesOfTypeTruncated n => string_ok n
  | GraphReset => True
  end.

(** Property maps are read back as sorted pairs. *)
Definition normal_change (c : Change) : Change :=
  match c with
  | NodeCreated id labels properties => NodeCreated id labels (Standard (pm_iter properties))
  | EdgeCreated id d label source target properties => EdgeCreated id d label source target (Standard (pm_iter properties))
  | c => c
  end.

Lemma mirrors_nonzero id : is_id id -> mirrors (Encoder.u64 id) decode_nonzero id.
Proof.
  intros Hi. unfold is_id in Hi. eapply mirrors_then; [apply mirrors_u64; unfold is_u64; lia|]. intros t.
  by rewrite (proj2 (Z.eqb_neq _ _)) by lia.
Qed.
Lemma writes_nonzero t id t' : decode_nonzero t = (Ok id, t') -> writes (Encoder.u64 id) t t'.
Proof. intros D. unfold decode_nonzero in D. run_inv. by apply writes_u64. Qed.
Lemma mirrors_directionality d :
  mirrors (Encoder.u8 (match d with EdgeDirectionality.Directed => 1 | EdgeDirectionality.Undirected => 2 end)) decode_directionality d.
Proof. destruct d; (eapply mirrors_then; [apply mirrors_u8; lia|done]). Qed.
Lemma writes_directionality t d t' : decode_directionality t = (Ok d, t') ->
  writes (Encoder.u8 (match d with EdgeDirectionality.Directed => 1 | EdgeDirectionality.Undirected => 2 end)) t t'.
Proof. intros D. unfold decode_directionality in D. run_inv. repeat case_match; subst; try done; run_inv; by apply writes_u8. Qed.
#[local] Hint Resolve mirrors_nonzero mirrors_names mirrors_properties mirrors_property_diff mirrors_directionality
  writes_nonzero writes_directionality canonical_property_diff : codec.

#[export] Instance hungry_graph_change : Hungry decode_graph_change.
Proof. unfold decode_graph_change. apply _. Qed.

Lemma names_guard {A} l (e : Encoder.M unit) (d : Decoder.M A) a :
  (sorted_names l -> mirrors (encode_names l ;; e) d a) -> mirrors (encode_names l ;; e) d a.
Proof.
  intros M s s' E. apply M; [|done]. apply bind_Ok in E as (u & s1 & E & _). unfold encode_names in E. run_inv.
  by apply ascending_sorted, negb_false_iff.
Qed.

Lemma label_diff_new_sorted l r : sorted_names l -> sorted_names r ->
  label_diff_new l r = match first_overlap (fun x => x) l r with
                       | Some label => Err (OverlappingDiff "label" label)
                       | None => Ok {| ld_added := l; ld_removed := r |} end.
Proof. intros Hl Hr. unfold label_diff_new. by rewrite !sorted_deduped_id. Qed.

Lemma mirrors_node_updated id ld pd :
  change_ok (NodeUpdated id ld pd) -> mirrors (encode_graph_change (NodeUpdated id ld pd)) decode_graph_change (NodeUpdated id ld pd).
Proof.
  intros (Hi & Ha & Hr & Hp). destruct ld as [added removed]. unfold decode_graph_change, decode_node_id. cbn [encode_graph_change ld_added ld_removed] in *.
  eapply mirrors_bind; [apply mirrors_u8; lia|]. field. apply mirrors_fail_if. intros Ho.
  apply names_guard. intros Sa. field. apply names_guard. intros Sr. field.
  apply (first_overlap_None (fun x => x)) in Ho; [|done|done].
  apply mirrors_pure with (a := {| ld_added := added; ld_removed := removed |}).
  - intros t. by rewrite label_diff_new_sorted, Ho.
  - apply mirrors_map. by apply mirrors_property_diff.
Qed.

Lemma mirrors_edge_created id dir label source target props : change_ok (EdgeCreated id dir label source target props) ->
  mirrors (encode_graph_change (EdgeCreated id dir label source target props)) decode_graph_change
    (normal_change (EdgeCreated id dir label source target props)).
Proof.
  intros (Hi & Hl & Hs & Ht & Hp). cbn [encode_graph_change normal_change]. apply mirrors_fail_if. intros Hc.
  unfold decode_graph_change, decode_edge_created, decode_edge_id, decode_node_id. eapply mirrors_bind; [apply mirrors_u8; lia|]. cbv beta iota.
  do 5 field. apply mirrors_pure with (a := tt); [intros t; by rewrite Hc|]. apply mirrors_map. by apply mirrors_properties.
Qed.

Lemma mirrors_change c : change_ok c -> mirrors (encode_graph_change c) decode_graph_change (normal_change c).
Proof.
  intros Ho. destruct c; try (by apply mirrors_throw); try (by apply mirrors_node_updated); try (by apply mirrors_edge_created);
    cbn [change_ok encode_graph_change normal_change] in *; unfold decode_graph_change, decode_edge_id, decode_node_id; destruct_and?;
    try (eapply mirrors_bind; [apply mirrors_u8; lia|]; cbv beta iota; repeat field; apply mirrors_map; by eauto with codec).
  eapply mirrors_then; [apply mirrors_u8; lia|done].
Qed.

Lemma writes_properties t m t' : decode_properties t = (Ok m, t') -> writes (encode_properties m) t t'.
Proof. by intros (l & -> & _ & _ & W)%properties_inv. Qed.
Lemma writes_names t l t' : decode_names t = (Ok l, t') -> writes (encode_names l) t t'.
Proof. by intros [_ W]%names_inv. Qed.
#[local] Hint Resolve writes_properties writes_names : codec.

Lemma canonical_change : canonical decode_graph_change encode_graph_change.
Proof.
  apply canonical_writes. intros t t' c D. unfold decode_graph_change, decode_node_id, decode_edge_id in D. run_inv.
  repeat case_match; subst; try done; unfold decode_edge_created, decode_node_id, decode_edge_id in *; run_inv; cbn [encode_graph_change]; all_written.
  - apply writes_fail_if; [done|]. all_written.
  - destruct (names_inv _ _ _ Hrun1) as [Sa _], (names_inv _ _ _ Hrun2) as [Sr _]. rewrite label_diff_new_sorted in Hrun3 by done.
    destruct (first_overlap _ _ _) eqn:E; [done|]. cbn in Hrun3. injection Hrun3 as <-. cbn [ld_added ld_removed].
    apply writes_fail_if; [by apply (first_overlap_None (fun x => x))|]. all_written.
Qed.

(** ** Backing indexes *)

Lemma ids_ascending_last ids id : ids_ascending (ids ++ [id]) = true <->
  ids_ascending ids = true /\ match last ids with Some previous => id <=? previous | None => false end = false.
Proof.
  induction ids as [|x ids IH]; [done|]. destruct ids as [|y ids].
  - cbn. rewrite andb_true_r, Z.ltb_lt, Z.leb_gt. by split; [|intros [_ ?]].
  - change ((x :: y :: ids) ++ [id]) with (x :: y :: (ids ++ [id])). cbn [ids_ascending]. change (y :: ids ++ [id]) with ((y :: ids) ++ [id]).
    rewrite !andb_true_iff, IH. change (last (x :: y :: ids)) with (last (y :: ids)). tauto.
Qed.

Lemma ids_ascending_prefix l1 l2 : ids_ascending (l1 ++ l2) = true -> ids_ascending l1 = true.
Proof.
  induction l2 as [|x l2 IH] using rev_ind; [by rewrite app_nil_r|]. rewrite app_assoc. intros [Ha _]%ids_ascending_last. by apply IH.
Qed.

Lemma mirrors_indexes l acc : Forall is_u64 l -> ids_ascending (acc ++ l) = true ->
  mirrors (for_each encode_index l) (indexes_loop (length l) acc) (acc ++ l).
Proof.
  intros Hl. revert acc. induction Hl as [|x l Hx _ IH]; intros acc Ha; cbn [for_each indexes_loop length].
  { rewrite app_nil_r. apply mirrors_ret. }
  replace (acc ++ x :: l) with ((acc ++ [x]) ++ l) in * by (by rewrite <- app_assoc).
  unfold encode_index. eapply mirrors_impl; [intros s s' E; rewrite bind_assoc in E; exact E|].
  apply mirrors_fail_if. intros Hz. field. apply mirrors_pure with (a := tt); [|by apply IH].
  intros t. apply ids_ascending_prefix, ids_ascending_last in Ha as [_ Hlt]. by rewrite Hz, Hlt.
Qed.

Lemma indexes_inv n acc t r t' : indexes_loop n acc t = (Ok r, t') -> ids_ascending acc = true ->
  exists l, r = acc ++ l /\ length l = n /\ ids_ascending r = true /\ writes (for_each encode_index l) t t'.
Proof.
  revert acc t. induction n as [|n IH]; intros acc t D Ha; cbn [indexes_loop] in D.
  { run_inv. exists []. rewrite app_nil_r. split_and!; try done. apply writes_ret. }
  run_inv. apply orb_false_iff in Hrun0 as [Hz Hlt]. apply IH in D as (l & -> & Hl & Hs & W); [|by apply ids_ascending_last].
  exists (a :: l). split; [by rewrite <- app_assoc|]. split; [by cbn; f_equal|]. split; [done|].
  cbn [for_each]. eapply writes_bind; [|exact W]. apply writes_fail_if; [done|]. eauto with codec.
Qed.

(** ** Deltas *)

Definition delta_ok (delta : GraphDelta) : Prop :=
  is_id (gd_id delta) /\ match gd_previous delta with Some id => is_u64 id | None => True end /\ is_u64 (gd_generation delta) /\
  is_id (gd_next_node_id delta) /\ is_id (gd_next_edge_id delta) /\
  match gd_definition delta with Some def => definition_ok def | None => True end /\
  Forall is_u64 (gd_backing_indexes delta) /\ Forall change_ok (gd_changes delta).

Definition normal_delta (delta : GraphDelta) : GraphDelta :=
  {| gd_id := gd_id delta; gd_previous := gd_previous delta; gd_generation := gd_generation delta;
     gd_next_node_id := gd_next_node_id delta; gd_next_edge_id := gd_next_edge_id delta;
     gd_definition := normal_definition <$> gd_definition delta; gd_backing_indexes := gd_backing_indexes delta;
     gd_changes := map normal_change (gd_changes delta) |}.

Lemma emits_index id : is_u64 id -> emits 1 (encode_index id).
Proof. intros Hi. apply emits_fail_if. eapply emits_hungry; [by apply mirrors_u64|apply _]. Qed.

Lemma mirrors_delta delta : delta_ok delta -> mirrors (delta_encode delta) delta_decode (normal_delta delta).
Proof.
  intros (Hid & Hp & Hg & Hn & He & Hd & Hi & Hc). unfold delta_encode, delta_decode. field.
  eapply mirrors_bind; [apply mirrors_option_id; destruct (gd_previous delta); auto with codec|]. field.
  do 2 (eapply mirrors_bind; [apply mirrors_u64; unfold is_id, is_u64 in *; lia|]).
  apply mirrors_pure with (a := tt); [intros t; unfold is_id in *; by rewrite !(proj2 (Z.eqb_neq _ _)) by lia|].
  eapply mirrors_bind; [apply mirrors_option; intros def E; rewrite E in Hd; by apply mirrors_definition|].
  apply mirrors_fail_if. intros Ha%negb_false_iff.
  assert (HM : mirrors (Encoder.count_for size_change (zlen (gd_changes delta)) ;; for_each encode_graph_change (gd_changes delta))
    (do count <- Decoder.count_for size_change;
     do changes <- repeat_m (Z.to_nat count) decode_graph_change;
     ret {| gd_id := gd_id delta; gd_previous := gd_previous delta; gd_generation := gd_generation delta; gd_next_node_id := gd_next_node_id delta;
         gd_next_edge_id := gd_next_edge_id delta; gd_definition := normal_definition <$> gd_definition delta;
         gd_backing_indexes := gd_backing_indexes delta; gd_changes := changes |}) (normal_delta delta)).
  { eapply mirrors_counted_last; [apply _|]. eapply Forall_impl; [exact Hc|apply mirrors_change]. }
  apply mirrors_count_for; [apply zlen_nonneg| |].
  - apply emits_bind_l; [apply emits_for_each; eapply Forall_impl; [exact Hi|apply emits_index]|by eapply emits_of_mirrors].
  - replace (Z.to_nat (zlen (gd_backing_indexes delta))) with (length (gd_backing_indexes delta)) by (unfold zlen; lia).
    eapply mirrors_bind; [by apply (mirrors_indexes _ [])|]. exact HM.
Qed.

Lemma canonical_delta : canonical delta_decode delta_encode.
Proof.
  apply canonical_writes. intros t t' delta D. unfold delta_decode in D. run_inv. unfold delta_encode. cbn.
  eapply indexes_inv in Hrun7 as (l & -> & Hl & Ha & W1); [|done]. cbn [app] in *. written.
  eapply writes_bind; [eapply writes_option; [apply canonical_u64|eassumption]|]. do 3 written.
  eapply writes_bind; [eapply writes_option; [apply canonical_definition|eassumption]|].
  apply writes_fail_if; [by rewrite Ha|]. rewrite (count_length _ _ _ _ _ Hrun6 Hl).
  eapply writes_bind; [by eapply canonical_count_for|]. eapply writes_bind; [exact W1|].
  eapply canonical_counted in Hrun9 as [W3 W4]; [|exact Hrun8|apply canonical_change]. by eapply writes_bind.
Qed.
End Changes.

(** What [GraphDelta::encode] writes, [GraphDelta::decode] reads back.  When
    the encoder accepts a delta whose parts satisfy the invariants of their Rust
    types, it appends bytes that the decoder, started with the same budget and
    whatever follows them, reads as the same delta: property maps come back as
    sorted pairs and the names of an endpoint in order, the rest unchanged.  The
    decoder stops after exactly these bytes with the budget of the encoder. *)
Theorem delta_roundtrip `{Leaves} `{!DecimalLaws} `{!SpanLaws} `{LegacyEvents} `{Sizes} delta s s' :
  delta_ok delta -> delta_encode delta s = (Ok tt, s') ->
  exists out, s' = after s out (Encoder.budget s') /\
    forall rest, delta_decode (Decoder.mk (out ++ rest) (Encoder.budget s)) = (Ok (normal_delta delta), Decoder.mk rest (Encoder.budget s')).
Proof. intros Ho E. destruct (mirrors_delta delta Ho _ _ E) as (out & b & -> & _ & _ & D). by exists out. Qed.

(** A decoded delta has one encoding.  The bytes that [GraphDelta::decode]
    consumes are exactly those that [GraphDelta::encode] writes for the delta it
    returns, from any encoder with the same budget and room for them. *)
Theorem delta_canonical `{Leaves} `{!DecimalLaws} `{!SpanLaws} `{LegacyEvents} `{Sizes} t delta t' :
  delta_decode t = (Ok delta, t') -> byte_limit (Decoder.budget t) <= u64_max ->
  exists out, Decoder.bytes t = out ++ Decoder.bytes t' /\
    forall s, Encoder.budget s = Decoder.budget t -> 0 <= Encoder.length s ->
      Encoder.length s + zlen out <= byte_limit (Decoder.budget t) ->
      delta_encode delta s = (Ok tt, after s out (Decoder.budget t')).
Proof. intros D Hu. destruct (canonical_delta _ _ _ D) as (out & Hb & _ & F). exists out. split; [done|]. intros s Hs H0' Hl. by apply F. Qed.

(** ** Witnesses *)

Module DeltaExample.
Import ValueExample.

#[export] Instance legacy : LegacyEvents := {| SchemaChange := unit |}.
#[export] Instance sizes : Sizes := {|
  size_node_entry := 88; size_edge_entry := 152; size_property_def := 288; size_value_type := 120;
  size_record_structure := 24; size_field_type := 32; size_change := 160 |}.

Definition name (s : string) : bytes := ascii_bytes s.
Definition int_type : ValueType := VT (Some PredefinedValueType.Decimal) (Some {| dt_precision := 9; dt_scale := 2 |}) None None None None None true ExactlyOne.
Definition list_type : ValueType := VT None None None None None (Some int_type) None false ZeroOrOne.
Definition record : Fields.structure := Fields.Closed
  [Fields.Def (name "x") (Fields.NotNull (Fields.List (Fields.Scalar PropertyValueType.Int))) true;
   Fields.Def (name "y") (Fields.Record Fields.Open) false].
Definition property : PropertyDef := {|
  prop_name := name "p"; prop_value_type := list_type; prop_nullable := true; prop_default := Some (Value.List [Value.Int 7]);
  prop_immutable := false; prop_unique := false; prop_record_fields := Some record |}.
Definition definition : GraphDefinition := {|
  def_name := name "g";
  def_nodes := [(name "Person", {| node_labels := [name "A"; name "B"]; node_properties := [property]; node_key := None; node_validation_mode := Strict |})];
  def_edges := [(name "Knows", {| edge_label := name "KNOWS"; edge_source_node_type := OneOf [name "Q"; name "P"]; edge_target_node_type := Any;
                                  edge_properties := []; edge_validation_mode := Warn |})] |}.
Definition delta : GraphDelta := {|
  gd_id := 3; gd_previous := Some 8; gd_generation := 9; gd_next_node_id := 12; gd_next_edge_id := 4;
  gd_definition := Some definition; gd_backing_indexes := [2; 5];
  gd_changes := [NodeCreated 10 [name "A"] (Compact [name "a"; name "b"; name "c"] [Some (Value.Int 1); None; Some (Value.Bool true)]);
                 NodeUpdated 11 {| ld_added := [name "B"]; ld_removed := [name "A"; name "C"] |}
                   {| pd_set := [(name "k", Value.String (name "v"))]; pd_removed := [name "l"] |};
                 EdgeCreated 2 EdgeDirectionality.Undirected (name "KNOWS") 10 11 pm_new;
                 NodePropertyRemoved 10 (name "c"); GraphReset] |}.

Definition limits : Limits.t := Limits.default.
Definition encoder : Encoder.t := match Encoder.new limits with Ok e => e | Err _ => Encoder.mk [] 0 true (Budget.mk limits 0 0 0) end.
Definition encoded : result CodecError unit * Encoder.t := delta_encode delta encoder.
Definition decoder : Decoder.t := Decoder.mk (Encoder.bytes (snd encoded)) (Encoder.budget encoder).

Lemma encoded_ok : delta_encode delta encoder = (Ok tt, snd encoded).
Proof. vm_compute. reflexivity. Qed.

Lemma ok_sorted {A} (key : A -> bytes) l : ascending key l = true -> sorted key l.
Proof. apply ascending_sorted. Qed.

(** Side conditions of closed data, leaf by leaf. *)
Ltac concrete :=
  repeat lazymatch goal with
  | |- _ = _ => vm_compute; reflexivity
  | |- (_ <= _)%Z => vm_compute; congruence
  | |- (_ < _)%Z => vm_compute; reflexivity
  | |- sorted _ _ => apply ok_sorted
  | |- Forall _ _ => constructor
  | |- _ /\ _ => split
  | |- True => exact I
  | |- _ => progress hnf
  end.

Lemma delta_is_ok : delta_ok delta.
Proof. concrete. Qed.

Lemma decoder_runs : delta_decode decoder = (Ok (normal_delta delta), Decoder.mk [] (Encoder.budget (snd encoded))).
Proof.
  destruct (mirrors_delta delta delta_is_ok _ _ encoded_ok) as (out & b & E & _ & _ & D). specialize (D []). rewrite app_nil_r in D.
  assert (Encoder.bytes (snd encoded) = out) as Hb by (apply (f_equal Encoder.bytes) in E; exact E).
  assert (Encoder.budget (snd encoded) = b) as -> by (apply (f_equal Encoder.budget) in E; exact E). unfold decoder. by rewrite Hb.
Qed.
End DeltaExample.

Import ValueExample DeltaExample.

Lemma delta_roundtrip_witness :
  exists out, Encoder.bytes (snd encoded) = out /\
    forall rest, delta_decode (Decoder.mk (out ++ rest) (Encoder.budget encoder)) =
      (Ok (normal_delta delta), Decoder.mk rest (Encoder.budget (snd encoded))).
Proof.
  destruct (delta_roundtrip delta encoder (snd encoded) delta_is_ok encoded_ok) as (out & E & D).
  exists out. split; [|exact D]. apply (f_equal Encoder.bytes) in E. exact E.
Defined.

Lemma delta_canonical_witness :
  exists out, Decoder.bytes decoder = out ++ [] /\
    delta_encode (normal_delta delta) encoder = (Ok tt, after encoder out (Encoder.budget (snd encoded))).
Proof.
  destruct (delta_canonical decoder (normal_delta delta) (Decoder.mk [] (Encoder.budget (snd encoded)))) as (out & E & F).
  - exact decoder_runs.
  - vm_compute. congruence.
  - exists out. split; [exact E|]. apply F; [reflexivity|vm_compute; congruence|]. cbn [Decoder.bytes] in E. rewrite app_nil_r in E. rewrite <- E.
    vm_compute. congruence.
Defined.
