(* ===== verification/Catalog.v ===== *)
(** Catalog objects (selene-catalog): identities, names, declarations and
    descriptors with their validation.

    An identity type of the source wraps a [NonZeroU64]; here it is the number,
    which [id_new] checks not to be zero.  Rust strings are their UTF-8
    bytes.  The Unicode tables and the normalisation are third-party code, the
    class [Unicode]. *)

From S2P Require Import Prelude Wire Value ValueCodec Ordered Schema.
From coqutil Require Import Byte.

(** ** Identities (identity.rs) *)

Module Kind.
Inductive t := Catalog | Directory | Schema | Graph | GraphType | BindingTable | Procedure | Index | Constraint.
#[global] Instance eq_dec : EqDecision t.
Proof. solve_decision. Defined.
End Kind.
Abbreviation CatalogObjectKind := Kind.t.

(** [CatalogObjectId]. *)
Module Id.
Inductive t :=
| Catalog (id : Z) | Directory (id : Z) | Schema (id : Z) | Graph (id : Z) | GraphType (id : Z) | BindingTable (id : Z)
| Procedure (id : Z) | Index (id : Z) | Constraint (id : Z).
#[global] Instance eq_dec : EqDecision t.
Proof. solve_decision. Defined.

(** [CatalogObjectId::get] and [CatalogObjectId::kind]. *)
Definition get (self : t) : Z :=
  match self with
  | Catalog id | Directory id | Schema id | Graph id | GraphType id | BindingTable id | Procedure id | Index id | Constraint id => id
  end.
Definition kind (self : t) : CatalogObjectKind :=
  match self with
  | Catalog _ => Kind.Catalog
  | Directory _ => Kind.Directory
  | Schema _ => Kind.Schema
  | Graph _ => Kind.Graph
  | GraphType _ => Kind.GraphType
  | BindingTable _ => Kind.BindingTable
  | Procedure _ => Kind.Procedure
  | Index _ => Kind.Index
  | Constraint _ => Kind.Constraint
  end.

(** The position of the variant, which [derive(Ord)] compares first. *)
Definition position (self : t) : Z :=
  match self with
  | Catalog _ => 0 | Directory _ => 1 | Schema _ => 2 | Graph _ => 3 | GraphType _ => 4 | BindingTable _ => 5
  | Procedure _ => 6 | Index _ => 7 | Constraint _ => 8
  end.
Definition of_position (p : Z * Z) : t :=
  let '(p, id) := p in
  if p =? 0 then Catalog id else if p =? 1 then Directory id else if p =? 2 then Schema id else if p =? 3 then Graph id else
  if p =? 4 then GraphType id else if p =? 5 then BindingTable id else if p =? 6 then Procedure id else
  if p =? 7 then Index id else Constraint id.
#[global] Instance countable : Countable t.
Proof. apply (inj_countable' (fun i => (position i, get i)) of_position). by intros []. Defined.

(** [a <= b] and [a < b]. *)
Definition leb (a b : t) : bool := (position a <? position b) || ((position a =? position b) && (get a <=? get b)).
Definition ltb (a b : t) : bool := negb (leb b a).
End Id.
Abbreviation CatalogObjectId := Id.t.

(** ** Errors (error.rs) *)

Inductive CatalogError :=
| InvalidDeclaration (reason : string)
| InvalidDependency (object target : CatalogObjectId) (reason : string)
| ZeroIdentifier (kind : CatalogObjectKind)
| ZeroGeneration
| GenerationOverflow (current : Z)
| EmptyIdentifier
| PrivateUseCharacter (character : Z)
| InvalidRegularIdentifierStart (character : Z)
| InvalidRegularIdentifierContinue (index : Z) (character : Z)
| InvalidSerializedName
| DescriptorKindMismatch (declared identifier payload : CatalogObjectKind)
| InvalidParentKind (object : CatalogObjectKind) (parent : string)
| UserNameRequired (kind : CatalogObjectKind)
| SyntheticRootNameRequired
| CreationGenerationAfterDescriptor (creation descriptor : Z)
| DuplicateIdentifier (id : CatalogObjectId)
| DuplicateCanonicalName (existing incoming : CatalogObjectId) (canonical : bytes)
| MissingParent (object parent : CatalogObjectId)
| MissingPayloadReference (object target : CatalogObjectId)
| CrossSchemaPayloadReference (object target : CatalogObjectId)
| DescriptorGenerationAfterSnapshot (object : CatalogObjectId) (descriptor snapshot : Z)
| InvalidRootCardinality (catalogs directories : Z)
| InvalidSyntheticRoot
| UnsupportedDirectoryDepth (maximum_depth : Z).
Abbreviation CatalogResult := (result CatalogError).

(** The constructor of an identity type ([catalog_id!]). *)
Definition id_new (kind : CatalogObjectKind) (raw : Z) : CatalogResult Z :=
  if raw =? 0 then Err (ZeroIdentifier kind) else Ok raw.

(** [CatalogGeneration::new] and [CatalogGeneration::next]. *)
Definition generation_new (raw : Z) : CatalogResult Z := if raw =? 0 then Err ZeroGeneration else Ok raw.
Definition generation_next (self : Z) : CatalogResult Z :=
  match checked_add self 1 with
  | Some raw => generation_new raw
  | None => Err (GenerationOverflow self)
  end.

(** ** Names (name.rs) *)

Class Unicode := {
  nfc : bytes -> bytes;
  is_xid_start : Z -> bool;
  is_xid_continue : Z -> bool
}.

Inductive NameForm := Regular | Delimited | SyntheticRoot.
#[export] Instance name_form_eq : EqDecision NameForm.
Proof. solve_decision. Defined.

Record CatalogName := { name_display : bytes; name_canonical : bytes; name_form : NameForm }.
#[export] Instance catalog_name_eq : EqDecision CatalogName.
Proof. solve_decision. Defined.

(** [str::chars]: the scalar values of a UTF-8 string. *)
Fixpoint chars (b : bytes) : list Z :=
  match b with
  | [] => []
  | b0 :: t0 =>
      if u8 b0 <? 0x80 then u8 b0 :: chars t0 else
      match t0 with
      | [] => []
      | b1 :: t1 =>
          let c1 := Z.land (u8 b1) 0x3f in
          if u8 b0 <? 0xe0 then (Z.shiftl (Z.land (u8 b0) 0x1f) 6 + c1) :: chars t1 else
          match t1 with
          | [] => []
          | b2 :: t2 =>
              let c2 := Z.land (u8 b2) 0x3f in
              if u8 b0 <? 0xf0 then (Z.shiftl (Z.land (u8 b0) 0x0f) 12 + Z.shiftl c1 6 + c2) :: chars t2 else
              match t2 with
              | [] => []
              | b3 :: t3 =>
                  (Z.shiftl (Z.land (u8 b0) 0x07) 18 + Z.shiftl c1 12 + Z.shiftl c2 6 + Z.land (u8 b3) 0x3f) :: chars t3
              end
          end
      end
  end.

(** [Iterator::cmp] of two sequences of scalar values. *)
Fixpoint chars_leb (a b : list Z) : bool :=
  match a, b with
  | [], _ => true
  | _ :: _, [] => false
  | x :: a, y :: b => if x =? y then chars_leb a b else x <? y
  end.

(** [CatalogName::cmp]. *)
Definition name_leb (a b : CatalogName) : bool := chars_leb (chars (name_canonical a)) (chars (name_canonical b)).

Definition LOW_LINE : Z := 0x5f.

(** [reject_private_use]. *)
Definition is_private_use (c : Z) : bool :=
  ((0xE000 <=? c) && (c <=? 0xF8FF)) || ((0xF0000 <=? c) && (c <=? 0xFFFFD)) || ((0x100000 <=? c) && (c <=? 0x10FFFD)).
Definition reject_private_use (display : bytes) : CatalogResult unit :=
  match List.find is_private_use (chars display) with
  | Some character => Err (PrivateUseCharacter character)
  | None => Ok tt
  end.

Section Names.
Context `{Unicode}.

(** [validate_regular]; a name without scalars does not reach it. *)
Fixpoint validate_continue (index : Z) (l : list Z) : CatalogResult unit :=
  match l with
  | [] => Ok tt
  | character :: l =>
      refuse negb (character =? LOW_LINE) && negb (is_xid_continue character) with InvalidRegularIdentifierContinue index character;
      validate_continue (index + 1) l
  end.
Definition validate_regular (display : bytes) : CatalogResult unit :=
  match chars display with
  | [] => Ok tt
  | first :: rest =>
      refuse negb (first =? LOW_LINE) && negb (is_xid_start first) with InvalidRegularIdentifierStart first;
      validate_continue 1 rest
  end.

(** [CatalogName::user], [regular], [delimited] and [synthetic_root]. *)
Definition name_user (display : bytes) (form : NameForm) : CatalogResult CatalogName :=
  refuse zlen display =? 0 with EmptyIdentifier;
  let? _ := reject_private_use display in
  let? _ := if decide (form = Regular) then validate_regular display else Ok tt in
  Ok {| name_display := display; name_canonical := nfc display; name_form := form |}.
Definition name_regular (display : bytes) : CatalogResult CatalogName := name_user display Regular.
Definition name_delimited (display : bytes) : CatalogResult CatalogName := name_user display Delimited.
End Names.

Definition synthetic_root : CatalogName := {| name_display := []; name_canonical := []; name_form := SyntheticRoot |}.
Definition is_synthetic_root (self : CatalogName) : bool := match name_form self with SyntheticRoot => true | _ => false end.

(** ** Declarations (declaration.rs, index.rs, constraint.rs, native.rs) *)

Inductive DeclarationState := Inactive | Building | Ready | Failed.
Record DeclarationProfile := { profile_id : bytes; profile_hash : bytes; profile_semantics : Z }.
Record DeclarationDependency := { dep_id : CatalogObjectId; dep_generation : Z }.
Record DeclarationMetadata := {
  meta_state : DeclarationState;
  meta_profile : DeclarationProfile;
  meta_dependencies : list DeclarationDependency
}.

(** [selene_profile::PROFILE_ID] and [PROFILE_HASH]. *)
Definition PROFILE_ID : bytes := ascii_bytes "selene-gql-core-2.0".
Definition PROFILE_HASH : bytes := ascii_bytes "04fbecdb1dcaa6795a65654cb1dcb1ea18ba35d3e8249b5f9b47e8407b6fda60".
(** [DeclarationProfile::current]. *)
Definition profile_current : DeclarationProfile := {| profile_id := PROFILE_ID; profile_hash := PROFILE_HASH; profile_semantics := 1 |}.

#[export] Instance declaration_state_eq : EqDecision DeclarationState.
Proof. solve_decision. Defined.
#[export] Instance declaration_profile_eq : EqDecision DeclarationProfile.
Proof. solve_decision. Defined.
#[export] Instance declaration_dependency_eq : EqDecision DeclarationDependency.
Proof. solve_decision. Defined.
#[export] Instance declaration_metadata_eq : EqDecision DeclarationMetadata.
Proof. solve_decision. Defined.

(** [DeclarationMetadata::new]. *)
Definition metadata_new (state : DeclarationState) : DeclarationMetadata :=
  {| meta_state := state; meta_profile := profile_current; meta_dependencies := [] |}.

(** [items.any(|x| !set.insert(x))]. *)
Fixpoint any_repeated {A} `{EqDecision A} (seen : list A) (l : list A) : bool :=
  match l with
  | [] => false
  | x :: l => bool_decide (x ∈ seen) || any_repeated (x :: seen) l
  end.

(** [DeclarationMetadata::validate]. *)
Definition metadata_validate (self : DeclarationMetadata) : CatalogResult unit :=
  refuse negb (bool_decide (meta_profile self = profile_current)) with InvalidDeclaration "incompatible_profile";
  refuse 256 <? zlen (meta_dependencies self) with InvalidDeclaration "dependency_limit";
  refuse any_repeated [] (map dep_id (meta_dependencies self)) with InvalidDeclaration "duplicate_dependency";
  Ok tt.

Inductive ElementKind := Node | Edge.
Record PropertyTarget := { target_element : ElementKind; target_label : bytes; target_properties : list bytes }.
#[export] Instance element_kind_eq : EqDecision ElementKind.
Proof. solve_decision. Defined.
#[export] Instance property_target_eq : EqDecision PropertyTarget.
Proof. solve_decision. Defined.

(** [PropertyTarget::validate]. *)
Definition bad_key (key : bytes) : bool := (zlen key =? 0) || (MAX_DB_STRING_BYTES <? zlen key).
Definition target_validate (self : PropertyTarget) : CatalogResult unit :=
  refuse bad_key (target_label self) || (zlen (target_properties self) =? 0) || existsb bad_key (target_properties self)
    with InvalidDeclaration "invalid_property_target";
  refuse any_repeated [] (target_properties self) with InvalidDeclaration "duplicate_target_property";
  Ok tt.

(** *** Scalar index expressions (scalar_index_expression.rs) *)

Inductive ScalarIndexSelector := Key (key : bytes) | Index (index : Z).
Inductive ScalarIndexOperation :=
| Lower
| Upper
| JsonScalarPath (path : list ScalarIndexSelector)
| JsonTextPath (path : list ScalarIndexSelector).
Record ScalarIndexExpression := { expr_semantics : Z; expr_property : bytes; expr_operations : list ScalarIndexOperation }.
#[export] Instance scalar_index_selector_eq : EqDecision ScalarIndexSelector.
Proof. solve_decision. Defined.
#[export] Instance scalar_index_operation_eq : EqDecision ScalarIndexOperation.
Proof. solve_decision. Defined.
#[export] Instance scalar_index_expression_eq : EqDecision ScalarIndexExpression.
Proof. solve_decision. Defined.

(** [ScalarIndexExpression::is_valid]. *)
Definition is_db_string (s : bytes) : bool := bool_decide (is_Some (db_string s)).
Definition valid_path (path : list ScalarIndexSelector) : bool :=
  (1 <=? zlen path) && (zlen path <=? 64) && forallb (fun s => match s with Key key => is_db_string key | Index _ => true end) path.
Definition valid_operation (operation : ScalarIndexOperation) : bool :=
  match operation with
  | Lower | Upper => true
  | JsonScalarPath path | JsonTextPath path => valid_path path
  end.
Definition is_valid (self : ScalarIndexExpression) : bool :=
  (expr_semantics self =? 1) && negb (zlen (expr_property self) =? 0) && is_db_string (expr_property self) &&
  (zlen (expr_operations self) <=? 16) && forallb valid_operation (expr_operations self).

(** *** Index declarations *)

Record HnswIndexConfig := { max_neighbors : Z; ef_construction : Z }.
Record IvfIndexConfig := { target_centroids : Z }.
Definition MAX_NEIGHBORS : Z := 512.
Definition MAX_EF_CONSTRUCTION : Z := 4096.
Definition MAX_TARGET_CENTROIDS : Z := 1024.

Module IndexConfiguration.
Inductive t :=
| Property (kinds : list IndexKind.t)
| Vector (kind : VectorKind.t) (dimension : Z) (hnsw : option HnswIndexConfig) (ivf : option IvfIndexConfig)
| Text
| Constraint (declaring_type : bytes)
| Expression (expression : ScalarIndexExpression) (kind : IndexKind.t).
End IndexConfiguration.
Record IndexDeclaration := {
  index_metadata : DeclarationMetadata;
  index_target : PropertyTarget;
  index_configuration : IndexConfiguration.t
}.
#[export] Instance hnsw_eq : EqDecision HnswIndexConfig.
Proof. solve_decision. Defined.
#[export] Instance ivf_eq : EqDecision IvfIndexConfig.
Proof. solve_decision. Defined.
#[export] Instance index_configuration_eq : EqDecision IndexConfiguration.t.
Proof. solve_decision. Defined.
#[export] Instance index_declaration_eq : EqDecision IndexDeclaration.
Proof. solve_decision. Defined.

Definition is_hnsw (kind : VectorKind.t) : bool :=
  match kind with
  | VectorKind.HnswSquaredEuclidean | VectorKind.HnswCosine | VectorKind.HnswNegativeInnerProduct => true
  | _ => false
  end.
Definition is_ivf (kind : VectorKind.t) : bool :=
  match kind with
  | VectorKind.IvfSquaredEuclidean | VectorKind.IvfCosine | VectorKind.IvfNegativeInnerProduct => true
  | _ => false
  end.
Definition valid_hnsw (config : HnswIndexConfig) : bool :=
  (1 <=? max_neighbors config) && (max_neighbors config <=? MAX_NEIGHBORS) &&
  (max_neighbors config <=? ef_construction config) && (ef_construction config <=? MAX_EF_CONSTRUCTION).
Definition valid_ivf (config : IvfIndexConfig) : bool :=
  (1 <=? target_centroids config) && (target_centroids config <=? MAX_TARGET_CENTROIDS).

(** [IndexDeclaration::validate]: the match over the configuration, then the method. *)
Definition valid_configuration (target : PropertyTarget) (configuration : IndexConfiguration.t) : bool :=
  let arity := zlen (target_properties target) in
  let on_node := bool_decide (target_element target = Node) in
  match configuration with
  | IndexConfiguration.Expression expression _ =>
      is_valid expression && on_node && bool_decide (target_properties target = [expr_property expression])
  | IndexConfiguration.Constraint declaring_type => negb (bad_key declaring_type)
  | IndexConfiguration.Property kinds => (zlen kinds =? arity) && ((arity =? 1) || on_node)
  | IndexConfiguration.Text => (arity =? 1) && on_node
  | IndexConfiguration.Vector kind dimension hnsw ivf =>
      (arity =? 1) && on_node && ((1 <=? dimension) && (dimension <=? u16_max)) &&
      Bool.eqb (is_hnsw kind) (bool_decide (is_Some hnsw)) && (bool_decide (ivf = None) || is_ivf kind) &&
      match hnsw with Some config => valid_hnsw config | None => true end &&
      match ivf with Some config => valid_ivf config | None => true end
  end.
Definition index_validate (self : IndexDeclaration) : CatalogResult unit :=
  let? _ := metadata_validate (index_metadata self) in
  let? _ := target_validate (index_target self) in
  refuse negb (valid_configuration (index_target self) (index_configuration self)) with InvalidDeclaration "incompatible_index_configuration";
  Ok tt.

(** *** Constraint declarations *)

Inductive ConstraintKind := Unique | CompositeUnique | KeyConstraint.
Record ConstraintDeclaration := {
  constraint_metadata : DeclarationMetadata;
  constraint_target : PropertyTarget;
  constraint_declaring_type : bytes;
  constraint_kind : ConstraintKind;
  constraint_backing_index : option Z
}.
#[export] Instance constraint_kind_eq : EqDecision ConstraintKind.
Proof. solve_decision. Defined.
#[export] Instance constraint_declaration_eq : EqDecision ConstraintDeclaration.
Proof. solve_decision. Defined.

(** [ConstraintDeclaration::validate]. *)
Definition constraint_validate (self : ConstraintDeclaration) : CatalogResult unit :=
  let? _ := metadata_validate (constraint_metadata self) in
  let? _ := target_validate (constraint_target self) in
  refuse bad_key (constraint_declaring_type self) with InvalidDeclaration "invalid_declaring_type";
  let legacy_inline := bool_decide (constraint_kind self = Unique) && (zlen (target_properties (constraint_target self)) =? 1) in
  refuse bool_decide (meta_state (constraint_metadata self) = Ready) && bool_decide (constraint_backing_index self = None) && negb legacy_inline
    with InvalidDeclaration "unsupported_constraint_activation";
  Ok tt.

(** *** Native declarations *)

Module NativeType.
Inductive t :=
| Any | AnyProperty | Boolean | Integer | Int64 | Uint64 | Float | Float64 | String | Vector | Json
| NodeRef | EdgeRef | GraphRef | OpenRecord
| List (element : t).
End NativeType.
Module NativeDefault.
Inductive t := Null | Boolean (v : bool) | Integer (v : Z) | String (v : bytes).
End NativeDefault.
Record NativeField := { field_name : bytes; field_ty : NativeType.t; field_nullable : bool; field_description : bytes }.
Record NativeParameter := { param_field : NativeField; param_default : option NativeDefault.t; param_default_doc : option bytes }.
Inductive NativeEffect := GraphRead | SchemaWrite | MaintenanceWrite.
Record NativeProcedure := {
  proc_binding : list bytes;
  proc_description : bytes;
  proc_since_version : bytes;
  proc_parameters : list NativeParameter;
  proc_outputs : list NativeField;
  proc_effect : NativeEffect
}.
Record NativeCandidateState := {
  required_label : option bytes;
  require_outgoing : list bytes;
  require_incoming : list bytes;
  exclude_outgoing : list bytes;
  exclude_incoming : list bytes
}.
Record NativeProjection := { proj_node_labels : list bytes; proj_edge_labels : list bytes; proj_weight_property : option bytes }.
Module NativeBinding.
Inductive t := Procedure (p : NativeProcedure) | CandidateState (s : NativeCandidateState) | Projection (p : NativeProjection).
End NativeBinding.
Record NativeDeclaration := { native_metadata : DeclarationMetadata; native_binding : NativeBinding.t }.
#[export] Instance native_type_eq : EqDecision NativeType.t.
Proof. solve_decision. Defined.
#[export] Instance native_default_eq : EqDecision NativeDefault.t.
Proof. solve_decision. Defined.
#[export] Instance native_field_eq : EqDecision NativeField.
Proof. solve_decision. Defined.
#[export] Instance native_parameter_eq : EqDecision NativeParameter.
Proof. solve_decision. Defined.
#[export] Instance native_effect_eq : EqDecision NativeEffect.
Proof. solve_decision. Defined.
#[export] Instance native_procedure_eq : EqDecision NativeProcedure.
Proof. solve_decision. Defined.
#[export] Instance native_candidate_state_eq : EqDecision NativeCandidateState.
Proof. solve_decision. Defined.
#[export] Instance native_projection_eq : EqDecision NativeProjection.
Proof. solve_decision. Defined.
#[export] Instance native_binding_eq : EqDecision NativeBinding.t.
Proof. solve_decision. Defined.
#[export] Instance native_declaration_eq : EqDecision NativeDeclaration.
Proof. solve_decision. Defined.

Definition MAX_NATIVE_TYPE_DEPTH : Z := 64.

(** [validate_field]: the loop over the list wrappers, then the name. *)
Fixpoint type_depth_exceeded (depth : Z) (ty : NativeType.t) : bool :=
  match ty with
  | NativeType.List element => (MAX_NATIVE_TYPE_DEPTH <? depth + 1) || type_depth_exceeded (depth + 1) element
  | _ => false
  end.
Definition validate_field (field : NativeField) : CatalogResult unit :=
  refuse type_depth_exceeded 0 (field_ty field) with InvalidDeclaration "native_type_depth";
  refuse (zlen (field_name field) =? 0) || (65535 <? zlen (field_name field)) with InvalidDeclaration "native_field_name";
  Ok tt.

(** The match over a parameter's default. *)
Definition valid_default (field : NativeField) (default : NativeDefault.t) : bool :=
  match default, field_ty field with
  | NativeDefault.Null, _ => field_nullable field
  | NativeDefault.Boolean _, (NativeType.Boolean | NativeType.Any | NativeType.AnyProperty) => true
  | NativeDefault.Integer _, (NativeType.Integer | NativeType.Int64 | NativeType.Float | NativeType.Float64 | NativeType.Any | NativeType.AnyProperty) => true
  | NativeDefault.String _, (NativeType.String | NativeType.Any | NativeType.AnyProperty) => true
  | _, _ => false
  end.

Definition invalid_signature : CatalogError := InvalidDeclaration "invalid_native_signature".

(** The loops over the parameters and over the outputs. *)
Fixpoint validate_parameters (optional : bool) (names : list bytes) (parameters : list NativeParameter) : CatalogResult unit :=
  match parameters with
  | [] => Ok tt
  | parameter :: parameters =>
      let? _ := validate_field (param_field parameter) in
      let has_default := bool_decide (is_Some (param_default parameter)) in
      let name := field_name (param_field parameter) in
      refuse bool_decide (name ∈ names) || (optional && negb has_default) with invalid_signature;
      refuse match param_default parameter with Some default => negb (valid_default (param_field parameter) default) | None => false end
        with invalid_signature;
      validate_parameters (optional || has_default) (name :: names) parameters
  end.
Fixpoint validate_outputs (names : list bytes) (outputs : list NativeField) : CatalogResult unit :=
  match outputs with
  | [] => Ok tt
  | field :: outputs =>
      let? _ := validate_field field in
      refuse bool_decide (field_name field ∈ names) with invalid_signature;
      validate_outputs (field_name field :: names) outputs
  end.

(** The labels of a candidate state, in the order of the chained iterators. *)
Definition candidate_labels (state : NativeCandidateState) : list bytes :=
  match required_label state with Some l => [l] | None => [] end ++ require_outgoing state ++ require_incoming state ++
  exclude_outgoing state ++ exclude_incoming state.

(** [NativeDeclaration::validate]. *)
Definition native_validate (self : NativeDeclaration) : CatalogResult unit :=
  let? _ := metadata_validate (native_metadata self) in
  match native_binding self with
  | NativeBinding.Procedure procedure =>
      refuse (zlen (proc_binding procedure) =? 0) || (8 <? zlen (proc_binding procedure)) ||
        existsb (fun name => (zlen name =? 0) || (65535 <? zlen name)) (proc_binding procedure) ||
        (256 <? zlen (proc_parameters procedure)) || (256 <? zlen (proc_outputs procedure)) || (zlen (proc_since_version procedure) =? 0)
        with invalid_signature;
      let? _ := validate_parameters false [] (proc_parameters procedure) in
      validate_outputs [] (proc_outputs procedure)
  | NativeBinding.CandidateState state =>
      if decide (meta_state (native_metadata self) = Ready) then
        refuse existsb (fun label => (zlen label =? 0) || negb (is_db_string label)) (candidate_labels state)
          with InvalidDeclaration "invalid_candidate_state_label";
        Ok tt
      else Ok tt
  | NativeBinding.Projection _ =>
      refuse bool_decide (meta_state (native_metadata self) = Ready) with InvalidDeclaration "unsupported_native_activation";
      Ok tt
  end.

(** ** Descriptors (descriptor.rs) *)

Record CreationMetadata := { creation_generation : Z; creation_principal : option bytes }.

Module Parent.
Inductive t := None | Catalog (id : Z) | Directory (id : Z) | Schema (id : Z) | Graph (id : Z) | GraphType (id : Z).
(** [CatalogParent::name]. *)
Definition name (self : t) : string :=
  match self with
  | None => "no"
  | Catalog _ => "catalog"
  | Directory _ => "directory"
  | Schema _ => "schema"
  | Graph _ => "graph"
  | GraphType _ => "graph_type"
  end.
End Parent.
Abbreviation CatalogParent := Parent.t.

Module Payload.
Inductive t :=
| Catalog
| RootDirectory
| Schema
| Graph (graph_type : option Z)
| GraphType
| BindingTable
| Procedure (native : NativeDeclaration)
| Index (index : IndexDeclaration)
| Constraint (constraint : ConstraintDeclaration).

(** [CatalogPayload::declaration_metadata] and [CatalogPayload::kind]. *)
Definition declaration_metadata (self : t) : option DeclarationMetadata :=
  match self with
  | Index index => Some (index_metadata index)
  | Constraint constraint => Some (constraint_metadata constraint)
  | Procedure native => Some (native_metadata native)
  | _ => None
  end.
Definition kind (self : t) : CatalogObjectKind :=
  match self with
  | Catalog => Kind.Catalog
  | RootDirectory => Kind.Directory
  | Schema => Kind.Schema
  | Graph _ => Kind.Graph
  | GraphType => Kind.GraphType
  | BindingTable => Kind.BindingTable
  | Procedure _ => Kind.Procedure
  | Index _ => Kind.Index
  | Constraint _ => Kind.Constraint
  end.
End Payload.
Abbreviation CatalogPayload := Payload.t.

(** [CatalogDescriptor]; its [PartialEq] compares every field, the display
    spelling of the name included, which is equality here. *)
Record CatalogDescriptor := {
  d_id : CatalogObjectId;
  d_kind : CatalogObjectKind;
  d_name : CatalogName;
  d_parent : CatalogParent;
  d_generation : Z;
  d_creation : CreationMetadata;
  d_payload : CatalogPayload
}.
#[export] Instance creation_metadata_eq : EqDecision CreationMetadata.
Proof. solve_decision. Defined.
#[export] Instance parent_eq : EqDecision CatalogParent.
Proof. solve_decision. Defined.
#[export] Instance payload_eq : EqDecision CatalogPayload.
Proof. solve_decision. Defined.
#[export] Instance descriptor_eq : EqDecision CatalogDescriptor.
Proof. solve_decision. Defined.

(** The [matches!] of [CatalogDescriptor::validate]. *)
Definition valid_parent (kind : CatalogObjectKind) (parent : CatalogParent) : bool :=
  match kind, parent with
  | Kind.Catalog, Parent.None => true
  | Kind.Directory, Parent.Catalog _ => true
  | Kind.Schema, Parent.Directory _ => true
  | (Kind.Graph | Kind.GraphType | Kind.BindingTable | Kind.Procedure), Parent.Schema _ => true
  | (Kind.Index | Kind.Constraint), (Parent.Graph _ | Parent.GraphType _) => true
  | Kind.Procedure, (Parent.Catalog _ | Parent.Graph _ | Parent.GraphType _) => true
  | _, _ => false
  end.

(** [CatalogDescriptor::validate]. *)
Definition d_validate (self : CatalogDescriptor) : CatalogResult unit :=
  refuse negb (bool_decide (d_kind self = Id.kind (d_id self))) || negb (bool_decide (d_kind self = Payload.kind (d_payload self)))
    with DescriptorKindMismatch (d_kind self) (Id.kind (d_id self)) (Payload.kind (d_payload self));
  refuse negb (valid_parent (d_kind self) (d_parent self)) with InvalidParentKind (d_kind self) (Parent.name (d_parent self));
  let? _ :=
    (if decide (d_kind self = Kind.Directory) then
       refuse negb (is_synthetic_root (d_name self)) with SyntheticRootNameRequired;
       Ok tt
     else
       refuse is_synthetic_root (d_name self) with UserNameRequired (d_kind self);
       Ok tt) in
  refuse d_generation self <? creation_generation (d_creation self)
    with CreationGenerationAfterDescriptor (creation_generation (d_creation self)) (d_generation self);
  match d_payload self with
  | Payload.Index index => index_validate index
  | Payload.Constraint constraint => constraint_validate constraint
  | Payload.Procedure native => native_validate native
  | _ => Ok tt
  end.

(** [CatalogDescriptor::new]. *)
Definition d_new (id : CatalogObjectId) (kind : CatalogObjectKind) (name : CatalogName) (parent : CatalogParent)
    (generation : Z) (creation : CreationMetadata) (payload : CatalogPayload) : CatalogResult CatalogDescriptor :=
  let descriptor := {| d_id := id; d_kind := kind; d_name := name; d_parent := parent; d_generation := generation;
                       d_creation := creation; d_payload := payload |} in
  let? _ := d_validate descriptor in
  Ok descriptor.

(** The constructors of each kind. *)
Definition d_catalog (id : Z) (name : CatalogName) (generation : Z) (creation : CreationMetadata) : CatalogResult CatalogDescriptor :=
  d_new (Id.Catalog id) Kind.Catalog name Parent.None generation creation Payload.Catalog.
Definition d_root_directory (id catalog : Z) (generation : Z) (creation : CreationMetadata) : CatalogResult CatalogDescriptor :=
  d_new (Id.Directory id) Kind.Directory synthetic_root (Parent.Catalog catalog) generation creation Payload.RootDirectory.
Definition d_schema (id : Z) (name : CatalogName) (root : Z) (generation : Z) (creation : CreationMetadata) : CatalogResult CatalogDescriptor :=
  d_new (Id.Schema id) Kind.Schema name (Parent.Directory root) generation creation Payload.Schema.
Definition d_graph (id : Z) (name : CatalogName) (schema : Z) (generation : Z) (creation : CreationMetadata) (graph_type : option Z) :
    CatalogResult CatalogDescriptor :=
  d_new (Id.Graph id) Kind.Graph name (Parent.Schema schema) generation creation (Payload.Graph graph_type).
Definition d_graph_type (id : Z) (name : CatalogName) (schema : Z) (generation : Z) (creation : CreationMetadata) : CatalogResult CatalogDescriptor :=
  d_new (Id.GraphType id) Kind.GraphType name (Parent.Schema schema) generation creation Payload.GraphType.
Definition d_schema_object (id : CatalogObjectId) (name : CatalogName) (schema : Z) (generation : Z) (creation : CreationMetadata) (payload : CatalogPayload) :
    CatalogResult CatalogDescriptor :=
  d_new id (Id.kind id) name (Parent.Schema schema) generation creation payload.
Definition d_binding_table (id : Z) (name : CatalogName) (schema : Z) (generation : Z) (creation : CreationMetadata) : CatalogResult CatalogDescriptor :=
  d_schema_object (Id.BindingTable id) name schema generation creation Payload.BindingTable.
Definition d_procedure (id : Z) (name : CatalogName) (owner : CatalogParent) (generation : Z) (creation : CreationMetadata) (declaration : NativeDeclaration) :
    CatalogResult CatalogDescriptor :=
  d_new (Id.Procedure id) Kind.Procedure name owner generation creation (Payload.Procedure declaration).
Definition d_index (id : Z) (name : CatalogName) (owner : CatalogParent) (generation : Z) (creation : CreationMetadata) (declaration : IndexDeclaration) :
    CatalogResult CatalogDescriptor :=
  d_new (Id.Index id) Kind.Index name owner generation creation (Payload.Index declaration).
Definition d_constraint (id : Z) (name : CatalogName) (owner : CatalogParent) (generation : Z) (creation : CreationMetadata)
    (declaration : ConstraintDeclaration) : CatalogResult CatalogDescriptor :=
  d_new (Id.Constraint id) Kind.Constraint name owner generation creation (Payload.Constraint declaration).
