(* ===== verification/IndexName.v ===== *)
(** The generated names of indexes (selene-catalog: index.rs).

    Every part of a name is preceded by its length, so that two declarations of
    the same generated name have the same family, label and properties. *)

From S2P Require Import Prelude Wire Value ValueCodec Ordered Schema Catalog.
From coqutil Require Import Byte.

(** ** Names *)

Module IndexFamily.
Inductive t := Property | Vector | Text | Constraint | Expression.
#[global] Instance eq_dec : EqDecision t.
Proof. solve_decision. Defined.
End IndexFamily.

(** [IndexConfiguration::family]. *)
Definition family (self : IndexConfiguration.t) : IndexFamily.t :=
  match self with
  | IndexConfiguration.Property _ => IndexFamily.Property
  | IndexConfiguration.Vector _ _ _ _ => IndexFamily.Vector
  | IndexConfiguration.Text => IndexFamily.Text
  | IndexConfiguration.Constraint _ => IndexFamily.Constraint
  | IndexConfiguration.Expression _ _ => IndexFamily.Expression
  end.

(** [ReservedIndexExpression] and [IndexDeclaration::for_expression]. *)
Inductive ReservedIndexExpression :=
| ReservedProperty (property : bytes)
| ReservedJsonScalarPath (property : bytes) (selectors : list ScalarIndexSelector) (result : IndexKind.t).
Definition for_expression (expression : ReservedIndexExpression) : CatalogResult IndexDeclaration :=
  Err (InvalidDeclaration "unsupported_expression_target").

(** [usize] in decimal; 20 digits are enough for 64 bits. *)
Definition digit (n : Z) : byte := byte.of_Z (48 + n).
Fixpoint decimal_rec (fuel : nat) (n : Z) : bytes :=
  match fuel with
  | O => []
  | S fuel => if n <? 10 then [digit n] else decimal_rec fuel (n / 10) ++ [digit (n mod 10)]
  end.
Definition decimal (n : Z) : bytes := decimal_rec 20 n.

Definition colon : byte := byte.of_Z 58.
Definition letter_c : byte := byte.of_Z 99.

(** [":{len}:{part}"]. *)
Definition part (s : bytes) : bytes := colon :: decimal (zlen s) ++ colon :: s.
Definition family_prefix (family : IndexFamily.t) : bytes :=
  match family with
  | IndexFamily.Property => ascii_bytes "idx"
  | IndexFamily.Vector => ascii_bytes "vidx"
  | IndexFamily.Text => ascii_bytes "tidx"
  | IndexFamily.Constraint => ascii_bytes "cidx"
  | IndexFamily.Expression => ascii_bytes "eidx"
  end.

(** [generated_index_name] and [generated_composite_index_name]. *)
Definition generated_index_name (family : IndexFamily.t) (label : bytes) (properties : list bytes) : bytes :=
  family_prefix family ++ part label ++
  (if 1 <? zlen properties then colon :: letter_c :: decimal (zlen properties) else []) ++
  concat (map part properties).
Definition generated_composite_index_name (label : bytes) (properties : list bytes) : bytes :=
  ascii_bytes "idx" ++ part label ++ (colon :: letter_c :: decimal (zlen properties)) ++ concat (map part properties).

(** ** Decimals *)

Fixpoint undecimal (acc : Z) (b : bytes) : Z :=
  match b with
  | [] => acc
  | x :: b => undecimal (acc * 10 + (u8 x - 48)) b
  end.

Lemma undecimal_app acc a b : undecimal acc (a ++ b) = undecimal (undecimal acc a) b.
Proof. revert acc. induction a as [|x a IH]; intros acc; cbn; [done|apply IH]. Qed.

Lemma u8_digit n : 0 <= n < 10 -> u8 (digit n) = 48 + n.
Proof. intros Hn. unfold digit. apply u8_of_Z. lia. Qed.

Lemma undecimal_decimal fuel n : 0 <= n < 10 ^ Z.of_nat fuel -> undecimal 0 (decimal_rec fuel n) = n.
Proof.
  revert n. induction fuel as [|fuel IH]; intros n Hn; [cbn in *; lia|]. cbn [decimal_rec].
  destruct (Z.ltb_spec n 10) as [Hl|Hl]; [cbn; rewrite u8_digit by lia; lia|].
  rewrite undecimal_app, IH.
  - cbn. rewrite u8_digit by (apply Z.mod_pos_bound; lia). pose proof (Z.div_mod n 10). lia.
  - rewrite Nat2Z.inj_succ, Z.pow_succ_r in Hn by lia. split; [apply Z.div_pos; lia|]. apply Z.div_lt_upper_bound; lia.
Qed.

Lemma decimal_inj m n : is_u64 m -> is_u64 n -> decimal m = decimal n -> m = n.
Proof.
  unfold is_u64, u64_max. intros Hm Hn E. rewrite <- (undecimal_decimal 20 m), <- (undecimal_decimal 20 n) by (cbn; lia). unfold decimal in E. by rewrite E.
Qed.

Definition is_digit (b : byte) : Prop := 48 <= u8 b <= 57.
Lemma decimal_digits n : 0 <= n -> Forall is_digit (decimal n).
Proof.
  unfold decimal. generalize 20%nat as fuel. intros fuel. revert n. induction fuel as [|fuel IH]; intros n Hn; cbn; [constructor|].
  destruct (Z.ltb_spec n 10).
  - constructor; [|constructor]. unfold is_digit. rewrite u8_digit; lia.
  - apply Forall_app. split; [apply IH, Z.div_pos; lia|]. constructor; [|constructor]. pose proof (Z.mod_pos_bound n 10). unfold is_digit. rewrite u8_digit; lia.
Qed.

(** Digits up to the first other byte. *)
Lemma digits_split a b x y r s : Forall is_digit a -> Forall is_digit b -> ~ is_digit x -> ~ is_digit y ->
  a ++ x :: r = b ++ y :: s -> a = b /\ x = y /\ r = s.
Proof.
  intros Ha. revert b. induction Ha as [|d a Hd _ IH]; intros b Hb Hx Hy E; destruct b as [|e b]; cbn in E; injection E as E1 E2.
  - by subst.
  - apply Forall_cons in Hb as [? _]. by subst.
  - by subst.
  - apply Forall_cons in Hb as [? Hb]. destruct (IH b Hb Hx Hy E2) as (-> & -> & ->). by subst.
Qed.

Lemma colon_not_digit : ~ is_digit colon.
Proof. unfold is_digit. change (u8 colon) with 58. lia. Qed.

(** ** The parts of a name *)

Definition size_ok (s : bytes) : Prop := zlen s <= u64_max.

Lemma part_inj s t r q : size_ok s -> size_ok t -> part s ++ r = part t ++ q -> s = t /\ r = q.
Proof.
  unfold size_ok, part. intros Hs Ht E. cbn in E. injection E as E. rewrite <- !app_assoc in E. cbn in E.
  pose proof (zlen_nonneg s). pose proof (zlen_nonneg t).
  apply digits_split in E as (E1 & _ & E2); try apply decimal_digits; try apply colon_not_digit; try lia.
  apply decimal_inj in E1; [|unfold is_u64; lia..]. apply app_inj_1 in E2; [done|]. unfold zlen in E1. lia.
Qed.

Lemma parts_inj l l' : Forall size_ok l -> Forall size_ok l' -> concat (map part l) = concat (map part l') -> l = l'.
Proof.
  intros Hl. revert l'. induction Hl as [|s l Hs _ IH]; intros l' Hl' E; destruct l' as [|t l']; try done.
  cbn [map concat] in E. apply Forall_cons in Hl' as [Ht Hl']. apply part_inj in E as [-> E]; [|done..]. f_equal. by apply IH.
Qed.

Lemma decimal_nonempty fuel n : decimal_rec (S fuel) n <> [].
Proof. cbn [decimal_rec]. destruct (n <? 10); [done|]. by destruct (decimal_rec fuel (n / 10)). Qed.
Lemma decimal_first n : 0 <= n -> exists d b, decimal n = d :: b /\ is_digit d.
Proof.
  intros Hn. pose proof (decimal_digits n Hn) as Hd. destruct (decimal n) as [|d b] eqn:E.
  - by destruct (decimal_nonempty 19 n).
  - exists d, b. split; [done|]. by apply Forall_cons in Hd as [? _].
Qed.

(** The count of a composite name is not the length of a part. *)
Lemma composite_not_parts n r l : colon :: letter_c :: decimal n ++ r <> concat (map part l).
Proof.
  destruct l as [|s l]; [done|]. cbn [map concat]. unfold part. destruct (decimal_first (zlen s) (zlen_nonneg s)) as (d & b & -> & Hd). intros E.
  cbn [app] in E. injection E as E _. subst d. unfold is_digit in Hd. change (u8 letter_c) with 99 in Hd. lia.
Qed.

Lemma parts_start l : l <> [] -> exists r, concat (map part l) = colon :: r.
Proof. destruct l as [|s l]; [done|]. intros _. cbn. eauto. Qed.

Lemma family_prefix_inj f g r q : family_prefix f ++ r = family_prefix g ++ q -> f = g /\ r = q.
Proof. destruct f, g; cbn; intros E; try (by injection E); try discriminate E; by simplify_eq. Qed.

Lemma generated_index_name_inj f g label label' properties properties' :
  size_ok label -> size_ok label' -> Forall size_ok properties -> Forall size_ok properties' ->
  zlen properties <= u64_max -> zlen properties' <= u64_max ->
  generated_index_name f label properties = generated_index_name g label' properties' -> f = g /\ label = label' /\ properties = properties'.
Proof.
  intros Hl Hl' Hp Hp' Hn Hn' E. unfold generated_index_name in E. apply family_prefix_inj in E as [-> E]. apply part_inj in E as [-> E]; [|done..].
  split; [done|]. split; [done|]. pose proof (zlen_nonneg properties). pose proof (zlen_nonneg properties').
  destruct (Z.ltb_spec 1 (zlen properties)) as [L|L], (Z.ltb_spec 1 (zlen properties')) as [L'|L'].
  - cbn in E. injection E as E. destruct (parts_start properties) as [r Er]; [by intros ->|]. destruct (parts_start properties') as [r' Er']; [by intros ->|].
    rewrite Er, Er' in E. apply digits_split in E as (_ & _ & E); try apply decimal_digits; try apply colon_not_digit; try lia.
    apply parts_inj; [done..|]. by rewrite Er, Er', E.
  - exfalso. by apply (composite_not_parts (zlen properties) (concat (map part properties)) properties').
  - exfalso. symmetry in E. by apply (composite_not_parts (zlen properties') (concat (map part properties')) properties).
  - by apply parts_inj.
Qed.
