(* ===== verification/CatalogSnapshot.v ===== *)
(** Catalog snapshots, transactions and logical records (selene-catalog:
    snapshot.rs, dependencies.rs, transaction.rs, logical.rs, codec.rs).

    A [BTreeMap] is a finite map; where the source iterates over one, [entries]
    is the list in ascending order of the keys.  The dictionaries of names are
    keyed by the canonical spelling, which is what the equality and the order of
    [CatalogName] compare.  A macro or an operation that may panic
    ([unreachable!], a subtraction that underflows) gives the error [Panic] of
    [Prelude]. *)

From S2P Require Import Prelude Errors Wire Value ValueCodec Ordered Schema Catalog.
From coqutil Require Import Byte.

(** ** Ordered maps *)

Section Sorting.
Context {A : Type} (leb : A -> A -> bool).
Fixpoint insert_sorted (x : A) (l : list A) : list A :=
  match l with
  | [] => [x]
  | y :: t => if leb x y then x :: l else y :: insert_sorted x t
  end.
(** A stable sort. *)
Definition sort_with : list A -> list A := foldr insert_sorted [].
End Sorting.

Abbreviation IdMap := (gmap CatalogObjectId).

(** The entries, keys and values of a [BTreeMap] in order. *)
Definition entries {V} (m : IdMap V) : list (CatalogObjectId * V) := sort_with (fun x y => Id.leb (fst x) (fst y)) (map_to_list m).
Definition keys {V} (m : IdMap V) : list CatalogObjectId := map fst (entries m).
Definition values {V} (m : IdMap V) : list V := map snd (entries m).

(** A dictionary of names. *)
Abbreviation NameMap := (gmap bytes).
Definition name_values {V} (m : NameMap V) : list V :=
  map snd (sort_with (fun x y => chars_leb (chars (fst x)) (chars (fst y))) (map_to_list m)).

Abbreviation Descriptors := (IdMap CatalogDescriptor).

(** ** Dependencies (dependencies.rs) *)

Section Dependencies.
Variable descriptors : Descriptors.

(** One turn of the loop over [metadata.dependencies]. *)
Definition check_dependency (descriptor : CatalogDescriptor) (metadata : DeclarationMetadata) (dependency : DeclarationDependency) :
    CatalogResult unit :=
  let fail reason := InvalidDependency (d_id descriptor) (dep_id dependency) reason in
  let? target := ok_or (descriptors !! dep_id dependency) (fail "missing_dependency") in
  refuse negb (d_generation target =? dep_generation dependency) with fail "stale_dependency";
  match Payload.declaration_metadata (d_payload target) with
  | Some required =>
      refuse negb (bool_decide (meta_profile metadata = meta_profile required)) with fail "incompatible_profile";
      refuse bool_decide (meta_state metadata = Ready) && negb (bool_decide (meta_state required = Ready)) with fail "dependency_not_ready";
      Ok tt
  | None => Ok tt
  end.

Fixpoint scan_dependencies (descriptor : CatalogDescriptor) (metadata : DeclarationMetadata) (dependencies : list DeclarationDependency)
    (dependants : IdMap (list CatalogObjectId)) : CatalogResult (IdMap (list CatalogObjectId)) :=
  match dependencies with
  | [] => Ok dependants
  | dependency :: dependencies =>
      let? _ := check_dependency descriptor metadata dependency in
      let known := default [] (dependants !! dep_id dependency) in
      scan_dependencies descriptor metadata dependencies (<[dep_id dependency := known ++ [d_id descriptor]]> dependants)
  end.

(** The checks of a constraint's backing index. *)
Definition check_backing (descriptor : CatalogDescriptor) (metadata : DeclarationMetadata) : CatalogResult unit :=
  match d_payload descriptor with
  | Payload.Constraint constraint =>
      match constraint_backing_index constraint with
      | Some index_id =>
          let id := Id.Index index_id in
          let fail reason := InvalidDependency (d_id descriptor) id reason in
          refuse negb (existsb (fun dependency => bool_decide (dep_id dependency = id)) (meta_dependencies metadata))
            with fail "undeclared_backing_dependency";
          let? target := ok_or (descriptors !! id) (fail "missing_backing_index") in
          match d_payload target with
          | Payload.Index index =>
              refuse negb (bool_decide (d_parent target = d_parent descriptor)) || negb (bool_decide (index_target index = constraint_target constraint))
                with fail "wrong_backing_owner_or_target";
              refuse match index_configuration index with
                     | IndexConfiguration.Constraint declaring_type => negb (bool_decide (declaring_type = constraint_declaring_type constraint))
                     | _ => true
                     end with fail "incomplete_backing_kind";
              Ok tt
          | _ => Err (fail "wrong_backing_kind")
          end
      | None => Ok tt
      end
  | _ => Ok tt
  end.

(** The loop over the descriptors: [incoming] and [dependants]. *)
Fixpoint scan (l : list CatalogDescriptor) (incoming : IdMap Z) (dependants : IdMap (list CatalogObjectId)) :
    CatalogResult (IdMap Z * IdMap (list CatalogObjectId)) :=
  match l with
  | [] => Ok (incoming, dependants)
  | descriptor :: l =>
      match Payload.declaration_metadata (d_payload descriptor) with
      | None => scan l incoming dependants
      | Some metadata =>
          let incoming := <[d_id descriptor := zlen (meta_dependencies metadata)]> incoming in
          let? dependants := scan_dependencies descriptor metadata (meta_dependencies metadata) dependants in
          let? _ := check_backing descriptor metadata in
          scan l incoming dependants
      end
  end.

(** The [for] loop over the dependants of a root that was taken. *)
Fixpoint release_dependants (l : list CatalogObjectId) (roots : gset CatalogObjectId) (incoming : IdMap Z) :
    outcome CatalogError (gset CatalogObjectId * IdMap Z) :=
  match l with
  | [] => Ok (roots, incoming)
  | dependant :: l =>
      match incoming !! dependant with
      | Some count =>
          refuse count =? 0 with Panic "attempt to subtract with overflow";
          release_dependants l (if count - 1 =? 0 then {[dependant]} ∪ roots else roots) (<[dependant := count - 1]> incoming)
      | None => release_dependants l roots incoming
      end
  end.

(** [BTreeSet::pop_first]. *)
Definition pop_first (s : gset CatalogObjectId) : option (CatalogObjectId * gset CatalogObjectId) :=
  match sort_with Id.leb (elements s) with
  | [] => None
  | id :: _ => Some (id, s ∖ {[id]})
  end.

(** [while let Some(id) = roots.pop_first()]; every descriptor is taken at most
    once, so their number is fuel enough. *)
Fixpoint drain (dependants : IdMap (list CatalogObjectId)) (fuel : nat) (roots : gset CatalogObjectId) (incoming : IdMap Z) :
    outcome CatalogError (IdMap Z) :=
  match pop_first roots with
  | None => Ok incoming
  | Some (id, roots) =>
      match fuel with
      | O => Err (Panic "fuel")
      | S fuel =>
          let? state := release_dependants (default [] (dependants !! id)) roots (delete id incoming) in
          drain dependants fuel (fst state) (snd state)
      end
  end.

(** [dependencies::validate]. *)
Definition dependencies_validate : outcome CatalogError unit :=
  let? state := lift (scan (values descriptors) ∅ ∅) in
  let '(incoming, dependants) := state in
  let roots := list_to_set (List.filter (fun id => default 0 (incoming !! id) =? 0) (keys descriptors)) in
  let? incoming := drain dependants (size descriptors) roots incoming in
  match keys incoming with
  | id :: _ => Err (Fails (InvalidDependency id id "dependency_cycle"))
  | [] => Ok tt
  end.
End Dependencies.

(** ** The builder (snapshot.rs) *)

Record CatalogSnapshotBuilder := {
  b_generation : Z;
  b_catalog_id : Z;
  b_root_id : Z;
  b_descriptors : Descriptors
}.

(** [CatalogSnapshotBuilder::insert]. *)
Definition builder_insert (descriptor : CatalogDescriptor) (self : CatalogSnapshotBuilder) : CatalogResult CatalogSnapshotBuilder :=
  let? _ := d_validate descriptor in
  let id := d_id descriptor in
  match b_descriptors self !! id with
  | None => Ok {| b_generation := b_generation self; b_catalog_id := b_catalog_id self; b_root_id := b_root_id self;
                  b_descriptors := <[id := descriptor]> (b_descriptors self) |}
  | Some _ => Err (DuplicateIdentifier id)
  end.

(** [CatalogSnapshotBuilder::new]. *)
Definition builder_new (generation : Z) (catalog root : CatalogDescriptor) : CatalogResult CatalogSnapshotBuilder :=
  let? _ := d_validate catalog in
  let? _ := d_validate root in
  match d_id catalog, d_id root with
  | Id.Catalog catalog_id, Id.Directory root_id =>
      refuse negb (bool_decide (d_parent root = Parent.Catalog catalog_id)) with InvalidSyntheticRoot;
      let builder := {| b_generation := generation; b_catalog_id := catalog_id; b_root_id := root_id; b_descriptors := ∅ |} in
      let? builder := builder_insert catalog builder in
      builder_insert root builder
  | _, _ => Err InvalidSyntheticRoot
  end.

(** [CatalogSnapshotBuilder::insert_child_directory]. *)
Definition insert_child_directory (id parent : Z) (name : CatalogName) (creation : CreationMetadata) (self : CatalogSnapshotBuilder) :
    CatalogResult CatalogSnapshotBuilder :=
  Err (UnsupportedDirectoryDepth 0).

(** [CatalogState]. *)
Record CatalogSnapshot := {
  s_generation : Z;
  s_catalog_id : Z;
  s_root_id : Z;
  s_descriptors : Descriptors;
  s_schema_names : NameMap Z;
  s_object_names : gmap Z (NameMap CatalogObjectId);
  s_declaration_names : IdMap (NameMap CatalogObjectId)
}.

(** The three dictionaries while they are built. *)
Record Names := {
  schema_names : NameMap Z;
  object_names : gmap Z (NameMap CatalogObjectId);
  declaration_names : IdMap (NameMap CatalogObjectId)
}.

(** [index_declaration_name]. *)
Definition index_declaration_name (descriptors : Descriptors) (names : Names) (owner : CatalogObjectId) (descriptor : CatalogDescriptor) :
    CatalogResult Names :=
  refuse negb (bool_decide (is_Some (descriptors !! owner))) with MissingParent (d_id descriptor) owner;
  let known := default ∅ (declaration_names names !! owner) in
  let canonical := name_canonical (d_name descriptor) in
  match known !! canonical with
  | Some existing => Err (DuplicateCanonicalName existing (d_id descriptor) canonical)
  | None => Ok {| schema_names := schema_names names; object_names := object_names names;
                  declaration_names := <[owner := <[canonical := d_id descriptor]> known]> (declaration_names names) |}
  end.

(** The arms of the [match] in [validate_and_index]. *)
Definition index_schema (root_id : Z) (names : Names) (parent : Z) (descriptor : CatalogDescriptor) : outcome CatalogError Names :=
  refuse negb (parent =? root_id) with Fails (MissingParent (d_id descriptor) (Id.Directory parent));
  match d_id descriptor with
  | Id.Schema schema_id =>
      let canonical := name_canonical (d_name descriptor) in
      match schema_names names !! canonical with
      | Some existing => Err (Fails (DuplicateCanonicalName (Id.Schema existing) (d_id descriptor) canonical))
      | None => Ok {| schema_names := <[canonical := schema_id]> (schema_names names);
                      object_names := <[schema_id := default ∅ (object_names names !! schema_id)]> (object_names names);
                      declaration_names := declaration_names names |}
      end
  | _ => Err (Panic "descriptor kind validation ran")
  end.
Definition index_object (descriptors : Descriptors) (names : Names) (schema_id : Z) (descriptor : CatalogDescriptor) : CatalogResult Names :=
  let parent := Id.Schema schema_id in
  refuse negb (bool_decide (is_Some (descriptors !! parent))) with MissingParent (d_id descriptor) parent;
  let known := default ∅ (object_names names !! schema_id) in
  let canonical := name_canonical (d_name descriptor) in
  match known !! canonical with
  | Some existing => Err (DuplicateCanonicalName existing (d_id descriptor) canonical)
  | None => Ok {| schema_names := schema_names names; object_names := <[schema_id := <[canonical := d_id descriptor]> known]> (object_names names);
                  declaration_names := declaration_names names |}
  end.

(** The body of the first loop of [validate_and_index]. *)
Definition index_descriptor (self : CatalogSnapshotBuilder) (names : Names) (descriptor : CatalogDescriptor) : outcome CatalogError Names :=
  refuse b_generation self <? d_generation descriptor
    with Fails (DescriptorGenerationAfterSnapshot (d_id descriptor) (d_generation descriptor) (b_generation self));
  match d_kind descriptor, d_parent descriptor with
  | Kind.Catalog, Parent.None | Kind.Directory, Parent.Catalog _ => Ok names
  | Kind.Schema, Parent.Directory parent => index_schema (b_root_id self) names parent descriptor
  | _, Parent.Schema schema_id => lift (index_object (b_descriptors self) names schema_id descriptor)
  | _, Parent.Graph id => lift (index_declaration_name (b_descriptors self) names (Id.Graph id) descriptor)
  | Kind.Procedure, Parent.Catalog id => lift (index_declaration_name (b_descriptors self) names (Id.Catalog id) descriptor)
  | _, Parent.GraphType id => lift (index_declaration_name (b_descriptors self) names (Id.GraphType id) descriptor)
  | _, _ => Err (Panic "descriptor parent validation ran")
  end.
Fixpoint index_all (self : CatalogSnapshotBuilder) (l : list CatalogDescriptor) (names : Names) : outcome CatalogError Names :=
  match l with
  | [] => Ok names
  | descriptor :: l =>
      let? names := index_descriptor self names descriptor in
      index_all self l names
  end.

(** [validate_graph_type_reference] and the loop that calls it. *)
Definition validate_graph_type_reference (descriptors : Descriptors) (graph : CatalogDescriptor) (graph_type : Z) : CatalogResult unit :=
  let target := Id.GraphType graph_type in
  let? descriptor := ok_or (descriptors !! target) (MissingPayloadReference (d_id graph) target) in
  refuse negb (bool_decide (d_parent graph = d_parent descriptor)) with CrossSchemaPayloadReference (d_id graph) target;
  Ok tt.
Fixpoint validate_references (descriptors : Descriptors) (l : list CatalogDescriptor) : CatalogResult unit :=
  match l with
  | [] => Ok tt
  | descriptor :: l =>
      let? _ := match d_payload descriptor with
                | Payload.Graph (Some graph_type) => validate_graph_type_reference descriptors descriptor graph_type
                | _ => Ok tt
                end in
      validate_references descriptors l
  end.

(** [self.descriptors.values().filter(|d| d.kind() == kind).count()]. *)
Definition count_kind (kind : CatalogObjectKind) (descriptors : Descriptors) : Z :=
  zlen (List.filter (fun d => bool_decide (d_kind d = kind)) (values descriptors)).

(** The checks of the root in [validate_and_index]. *)
Definition validate_roots (self : CatalogSnapshotBuilder) : CatalogResult unit :=
  let catalogs := count_kind Kind.Catalog (b_descriptors self) in
  let directories := count_kind Kind.Directory (b_descriptors self) in
  refuse negb (catalogs =? 1) || negb (directories =? 1) with InvalidRootCardinality catalogs directories;
  let? catalog := ok_or (b_descriptors self !! Id.Catalog (b_catalog_id self)) InvalidSyntheticRoot in
  let? root := ok_or (b_descriptors self !! Id.Directory (b_root_id self)) InvalidSyntheticRoot in
  refuse negb (bool_decide (d_parent catalog = Parent.None)) || negb (bool_decide (d_parent root = Parent.Catalog (b_catalog_id self)))
    || negb (is_synthetic_root (d_name root)) with InvalidSyntheticRoot;
  Ok tt.

(** [CatalogSnapshotBuilder::build] with [validate_and_index]. *)
Definition build (self : CatalogSnapshotBuilder) : outcome CatalogError CatalogSnapshot :=
  let? _ := lift (validate_roots self) in
  let all := values (b_descriptors self) in
  let? names := index_all self all {| schema_names := ∅; object_names := ∅; declaration_names := ∅ |} in
  let? _ := lift (validate_references (b_descriptors self) all) in
  let? _ := dependencies_validate (b_descriptors self) in
  Ok {| s_generation := b_generation self; s_catalog_id := b_catalog_id self; s_root_id := b_root_id self;
        s_descriptors := b_descriptors self; s_schema_names := schema_names names; s_object_names := object_names names;
        s_declaration_names := declaration_names names |}.

(** ** Snapshots *)

Section Snapshot.
Variable self : CatalogSnapshot.

Definition s_descriptor (id : CatalogObjectId) : option CatalogDescriptor := s_descriptors self !! id.
Definition s_schema (name : CatalogName) : option CatalogDescriptor :=
  id ← s_schema_names self !! name_canonical name;
  s_descriptor (Id.Schema id).
Definition s_schema_object (schema : Z) (name : CatalogName) : option CatalogDescriptor :=
  names ← s_object_names self !! schema;
  id ← names !! name_canonical name;
  s_descriptor id.
Definition s_declaration (owner : CatalogObjectId) (name : CatalogName) : option CatalogDescriptor :=
  names ← s_declaration_names self !! owner;
  id ← names !! name_canonical name;
  s_descriptor id.
Definition s_all : list CatalogDescriptor := values (s_descriptors self).
Definition s_schemas : list CatalogDescriptor := omap (fun id => s_descriptor (Id.Schema id)) (name_values (s_schema_names self)).
Definition s_schema_objects (schema : Z) : option (list CatalogDescriptor) :=
  (fun names => omap s_descriptor (name_values names)) <$> s_object_names self !! schema.
Definition s_declarations (owner : CatalogObjectId) : list CatalogDescriptor :=
  match s_declaration_names self !! owner with Some names => omap s_descriptor (name_values names) | None => [] end.
End Snapshot.

(** ** Transactions (transaction.rs) *)

Record CatalogTransaction := {
  t_generation : Z;
  t_catalog_id : Z;
  t_root_id : Z;
  t_descriptors : Descriptors
}.
Definition with_descriptors (self : CatalogTransaction) (m : Descriptors) : CatalogTransaction :=
  {| t_generation := t_generation self; t_catalog_id := t_catalog_id self; t_root_id := t_root_id self; t_descriptors := m |}.

(** [descriptors().map(|d| (d.id(), d.clone())).collect()]. *)
Definition collect (l : list CatalogDescriptor) : Descriptors := foldl (fun m d => <[d_id d := d]> m) ∅ l.

(** [CatalogTransaction::new], [insert], [remove] and [remove_owner]. *)
Definition transaction_new (base : CatalogSnapshot) : CatalogResult CatalogTransaction :=
  let? generation := generation_next (s_generation base) in
  Ok {| t_generation := generation; t_catalog_id := s_catalog_id base; t_root_id := s_root_id base; t_descriptors := collect (s_all base) |}.
Definition transaction_insert (descriptor : CatalogDescriptor) : method CatalogTransaction CatalogError unit := fun self =>
  match t_descriptors self !! d_id descriptor with
  | None => (Ok tt, with_descriptors self (<[d_id descriptor := descriptor]> (t_descriptors self)))
  | Some _ => (Err (DuplicateIdentifier (d_id descriptor)), self)
  end.
Definition transaction_remove (id : CatalogObjectId) (self : CatalogTransaction) : option CatalogDescriptor * CatalogTransaction :=
  (t_descriptors self !! id, with_descriptors self (delete id (t_descriptors self))).
Definition owned_by (id : CatalogObjectId) (descriptor : CatalogDescriptor) : bool :=
  match d_parent descriptor with
  | Parent.Graph owner => bool_decide (id = Id.Graph owner)
  | Parent.GraphType owner => bool_decide (id = Id.GraphType owner)
  | _ => false
  end.
Definition remove_owner (id : CatalogObjectId) (self : CatalogTransaction) : CatalogTransaction :=
  with_descriptors self (filter (fun '(key, descriptor) => key <> id /\ owned_by id descriptor = false) (t_descriptors self)).

Fixpoint insert_all (l : list CatalogDescriptor) (builder : CatalogSnapshotBuilder) : CatalogResult CatalogSnapshotBuilder :=
  match l with
  | [] => Ok builder
  | descriptor :: l => let? builder := builder_insert descriptor builder in insert_all l builder
  end.

(** [CatalogTransaction::build]. *)
Definition transaction_build (self : CatalogTransaction) : outcome CatalogError CatalogSnapshot :=
  let? catalog := lift (ok_or (t_descriptors self !! Id.Catalog (t_catalog_id self)) InvalidSyntheticRoot) in
  let rest := delete (Id.Catalog (t_catalog_id self)) (t_descriptors self) in
  let? root := lift (ok_or (rest !! Id.Directory (t_root_id self)) InvalidSyntheticRoot) in
  let rest := delete (Id.Directory (t_root_id self)) rest in
  let? builder := lift (builder_new (t_generation self) catalog root) in
  let? builder := lift (insert_all (values rest) builder) in
  build builder.

(** ** Logical records (logical.rs) *)

#[export] Instance kind_countable : Countable CatalogObjectKind.
Proof.
  apply (inj_countable' (fun k => match k with Kind.Catalog => 0 | Kind.Directory => 1 | Kind.Schema => 2 | Kind.Graph => 3 | Kind.GraphType => 4
    | Kind.BindingTable => 5 | Kind.Procedure => 6 | Kind.Index => 7 | Kind.Constraint => 8 end)
    (fun n => Id.kind (Id.of_position (n, 0)))). by intros [].
Defined.

Record CatalogLogicalRecords := {
  r_generation : Z;
  r_high_water : gmap CatalogObjectKind Z;
  r_descriptors : list CatalogDescriptor
}.

(** [high_water.get(&kind).copied().unwrap_or(0)]. *)
Definition water (high_water : gmap CatalogObjectKind Z) (kind : CatalogObjectKind) : Z := default 0 (high_water !! kind).

(** [descriptors.windows(2).any(|pair| pair[0].id() == pair[1].id())]. *)
Fixpoint adjacent_ids (l : list CatalogDescriptor) : bool :=
  match l with
  | x :: ((y :: _) as t) => bool_decide (d_id x = d_id y) || adjacent_ids t
  | _ => false
  end.

(** [CatalogLogicalRecords::reconstruct]. *)
Definition reconstruct (self : CatalogLogicalRecords) : outcome CatalogError CatalogSnapshot :=
  refuse existsb (fun d => water (r_high_water self) (d_kind d) <? Id.get (d_id d)) (r_descriptors self)
    with Fails (InvalidDeclaration "invalid_high_water");
  let? catalog := lift (ok_or (List.find (fun d => bool_decide (d_kind d = Kind.Catalog)) (r_descriptors self)) InvalidSyntheticRoot) in
  let? root := lift (ok_or (List.find (fun d => bool_decide (d_kind d = Kind.Directory)) (r_descriptors self)) InvalidSyntheticRoot) in
  let? builder := lift (builder_new (r_generation self) catalog root) in
  let? builder := lift (insert_all (List.filter (fun d => negb (bool_decide (d_id d = d_id catalog)) && negb (bool_decide (d_id d = d_id root)))
                                      (r_descriptors self)) builder) in
  refuse adjacent_ids (r_descriptors self) with Fails (InvalidDeclaration "duplicate_logical_identity");
  build builder.

(** [CatalogLogicalRecords::new]. *)
Definition records_new (generation : Z) (high_water : gmap CatalogObjectKind Z) (descriptors : list CatalogDescriptor) :
    outcome CatalogError CatalogLogicalRecords :=
  let records := {| r_generation := generation; r_high_water := high_water;
                    r_descriptors := sort_with (fun a b => Id.leb (d_id a) (d_id b)) descriptors |} in
  let? _ := reconstruct records in
  Ok records.

(** [CatalogLogicalChange]. *)
Inductive CatalogLogicalChange :=
| Created (descriptor : CatalogDescriptor)
| Replaced (previous : Z) (descriptor : CatalogDescriptor)
| Dropped (id : CatalogObjectId) (generation : Z).

(** [CatalogSnapshot::logical_changes_from]: the two loops. *)
Definition dropped_since (self : CatalogSnapshot) (old : CatalogDescriptor) : option CatalogLogicalChange :=
  match s_descriptor self (d_id old) with
  | None => Some (Dropped (d_id old) (d_generation old))
  | Some _ => None
  end.
Definition changed_since (previous : CatalogSnapshot) (descriptor : CatalogDescriptor) : option CatalogLogicalChange :=
  match s_descriptor previous (d_id descriptor) with
  | None => Some (Created descriptor)
  | Some old => if decide (old = descriptor) then None else Some (Replaced (d_generation old) descriptor)
  end.
Definition logical_changes_from (self previous : CatalogSnapshot) : list CatalogLogicalChange :=
  omap (dropped_since self) (s_all previous) ++ omap (changed_since previous) (s_all self).

(** ** Deltas (codec.rs) *)

Definition DOMAINS : list CatalogObjectKind :=
  [Kind.Catalog; Kind.Directory; Kind.Schema; Kind.Graph; Kind.GraphType; Kind.BindingTable; Kind.Procedure; Kind.Index; Kind.Constraint].

Record CatalogDelta := {
  c_previous : Z;
  c_generation : Z;
  c_high_water : list Z;
  c_changes : list CatalogLogicalChange
}.

(** [change_id] and [change_map]. *)
Definition change_id (change : CatalogLogicalChange) : CatalogObjectId :=
  match change with
  | Created d | Replaced _ d => d_id d
  | Dropped id _ => id
  end.
Definition change_map (change : CatalogLogicalChange) (state : Descriptors) : Descriptors :=
  match change with
  | Created d | Replaced _ d => <[d_id d := d]> state
  | Dropped id _ => delete id state
  end.

(** [requirements]. *)
Definition parent_id (parent : CatalogParent) : option CatalogObjectId :=
  match parent with
  | Parent.None => None
  | Parent.Catalog id => Some (Id.Catalog id)
  | Parent.Directory id => Some (Id.Directory id)
  | Parent.Schema id => Some (Id.Schema id)
  | Parent.Graph id => Some (Id.Graph id)
  | Parent.GraphType id => Some (Id.GraphType id)
  end.
Definition requirements (d : CatalogDescriptor) : list (CatalogObjectId * option Z) :=
  match parent_id (d_parent d) with Some id => [(id, None)] | None => [] end ++
  match d_payload d with Payload.Graph (Some id) => [(Id.GraphType id, None)] | _ => [] end ++
  match Payload.declaration_metadata (d_payload d) with
  | Some metadata => map (fun dep => (dep_id dep, Some (dep_generation dep))) (meta_dependencies metadata)
  | None => []
  end.

(** [order_ready]. *)
Definition satisfied (state : Descriptors) (requirement : CatalogObjectId * option Z) : bool :=
  match state !! fst requirement with
  | Some target => match snd requirement with Some g => g =? d_generation target | None => true end
  | None => false
  end.
Definition requires (id : CatalogObjectId) (d : CatalogDescriptor) : bool := existsb (fun r => bool_decide (fst r = id)) (requirements d).
Definition order_ready (change : CatalogLogicalChange) (state : Descriptors) : bool :=
  match change with
  | Created d | Replaced _ d => forallb (satisfied state) (requirements d)
  | Dropped id _ => forallb (fun d => negb (requires id d)) (values state)
  end.

(** [position] of the first element with [f], and [remove] of it. *)
Fixpoint pick {A} (f : A -> bool) (l : list A) : option (A * list A) :=
  match l with
  | [] => None
  | x :: l => if f x then Some (x, l) else match pick f l with Some (y, t) => Some (y, x :: t) | None => None end
  end.

(** [while !pending.is_empty()]; every turn takes one change. *)
Fixpoint arrange (fuel : nat) (pending : list CatalogLogicalChange) (state : Descriptors) (changes : list CatalogLogicalChange) :
    outcome CodecError (list CatalogLogicalChange) :=
  match pending with
  | [] => Ok changes
  | _ =>
      match fuel with
      | O => Err (Panic "fuel")
      | S fuel =>
          match pick (fun change => order_ready change state) pending with
          | None => Err (Fails (E_Invalid "catalog dependency order"))
          | Some (change, pending) => arrange fuel pending (change_map change state) (changes ++ [change])
          end
      end
  end.

(** [CatalogDelta::between]. *)
Definition between (previous : CatalogSnapshot) (next : CatalogLogicalRecords) : outcome CodecError CatalogDelta :=
  let? snapshot := fails_as E_Semantic (reconstruct next) in
  let high_water := map (water (r_high_water next)) DOMAINS in
  let pending := logical_changes_from snapshot previous in
  let? changes := arrange (length pending) pending (collect (s_all previous)) [] in
  Ok {| c_previous := s_generation previous; c_generation := s_generation snapshot; c_high_water := high_water; c_changes := changes |}.

(** The checks of one change in [CatalogDelta::apply]. *)
Definition accept_change (self : CatalogDelta) (original : CatalogLogicalRecords) (state : Descriptors) (change : CatalogLogicalChange) :
    result CodecError unit :=
  let id := change_id change in
  match change with
  | Created d =>
      refuse bool_decide (is_Some (state !! id)) || (Id.get id <=? water (r_high_water original) (Id.kind id)) ||
        (c_generation self <? d_generation d) || (creation_generation (d_creation d) <=? c_previous self)
        with E_Invalid "catalog creation identity";
      Ok tt
  | Replaced previous d =>
      let? old := ok_or (state !! id) (E_Invalid "missing replaced identity") in
      refuse negb (d_generation old =? previous) || (d_generation d <=? previous) || (c_generation self <? d_generation d) ||
        negb (bool_decide (d_creation old = d_creation d)) || negb (bool_decide (d_parent old = d_parent d))
        with E_Invalid "catalog replacement revision";
      Ok tt
  | Dropped _ generation =>
      refuse match state !! id with Some d => negb (d_generation d =? generation) | None => true end with E_Invalid "catalog drop revision";
      Ok tt
  end.

(** The loop over the changes. *)
Fixpoint apply_changes (self : CatalogDelta) (original : CatalogLogicalRecords) (changes : list CatalogLogicalChange)
    (seen : gset CatalogObjectId) (state : Descriptors) : result CodecError Descriptors :=
  match changes with
  | [] => Ok state
  | change :: changes =>
      let id := change_id change in
      refuse bool_decide (id ∈ seen) || negb (order_ready change state) with E_Invalid "catalog dependency order";
      let? _ := accept_change self original state change in
      apply_changes self original changes ({[id]} ∪ seen) (change_map change state)
  end.

(** [CatalogDelta::apply]. *)
Definition delta_apply (self : CatalogDelta) (original : CatalogLogicalRecords) : outcome CodecError CatalogLogicalRecords :=
  let? snapshot := fails_as E_Semantic (reconstruct original) in
  refuse negb (s_generation snapshot =? c_previous self) || (c_generation self <? c_previous self) ||
    (negb (zlen (c_changes self) =? 0) && (c_generation self =? c_previous self)) with Fails (E_Invalid "catalog generation");
  refuse existsb (fun '(kind, w) => w <? water (r_high_water original) kind) (zip DOMAINS (c_high_water self))
    with Fails (E_Invalid "catalog high water");
  let? state := lift (apply_changes self original (c_changes self) ∅ (collect (s_all snapshot))) in
  fails_as E_Semantic (records_new (c_generation self) (list_to_map (zip DOMAINS (c_high_water self))) (values state)).
