(* ===== verification/CatalogOrder.v ===== *)
(** Ordered maps of identities, and the dependency check of the catalog.

    The loops of [dependencies::validate] take away one descriptor after the
    other whose dependencies are gone.  [dependencies_validate_spec] shows that
    they never panic, that they end within their fuel, and that they accept
    exactly the snapshots whose declarations pass their checks and whose
    dependency relation has no cycle. *)

From stdpp Require Import relations sorting.
From S2P Require Import Prelude Errors Wire Value ValueCodec Ordered Schema Catalog CatalogSnapshot.
From coqutil Require Import Byte.

(** ** Sorting *)

Section SortWith.
Context {A : Type} (leb : A -> A -> bool).

Lemma insert_sorted_perm x l : insert_sorted leb x l ≡ₚ x :: l.
Proof. induction l as [|y l IH]; cbn; [done|]. destruct (leb x y); [done|]. rewrite IH. apply Permutation_swap. Qed.

Lemma sort_with_perm l : sort_with leb l ≡ₚ l.
Proof. induction l as [|x l IH]; cbn; [done|]. by rewrite insert_sorted_perm, IH. Qed.

Definition ordered (l : list A) : Prop := StronglySorted (fun x y => leb x y = true) l.

Hypothesis leb_total : forall x y, leb x y = false -> leb y x = true.
Hypothesis leb_trans : forall x y z, leb x y = true -> leb y z = true -> leb x z = true.

Lemma sort_with_ordered l : ordered (sort_with leb l).
Proof.
  unfold ordered. induction l as [|x l IH]; cbn; [constructor|]. revert IH. generalize (sort_with leb l) as t. clear l.
  induction t as [|y t IH]; intros Hs; cbn; [by repeat constructor|]. apply StronglySorted_inv in Hs as [Hs Hf].
  destruct (leb x y) eqn:E.
  - constructor; [by constructor|]. constructor; [done|]. eapply Forall_impl; [exact Hf|]. intros z Hz. by eapply leb_trans.
  - constructor; [by apply IH|]. rewrite insert_sorted_perm. constructor; [by apply leb_total|done].
Qed.

Lemma sort_with_id l : ordered l -> sort_with leb l = l.
Proof.
  unfold ordered. induction l as [|x l IH]; [done|]. intros [Hs Hf]%StronglySorted_inv. cbn. fold (sort_with leb l). rewrite IH by done.
  destruct l as [|y l]; [done|]. cbn. apply Forall_cons in Hf as [-> _]. done.
Qed.
End SortWith.

(** ** The order of identities *)

Lemma id_leb_total a b : Id.leb a b = false -> Id.leb b a = true.
Proof. unfold Id.leb. intros. repeat (rewrite ?orb_false_iff, ?andb_false_iff, ?orb_true_iff, ?andb_true_iff in *). rewrite !Z.ltb_ge, !Z.ltb_lt, !Z.eqb_neq, !Z.eqb_eq, !Z.leb_gt, !Z.leb_le in *. lia. Qed.
Lemma id_leb_trans a b c : Id.leb a b = true -> Id.leb b c = true -> Id.leb a c = true.
Proof. unfold Id.leb. rewrite !orb_true_iff, !andb_true_iff, !Z.ltb_lt, !Z.eqb_eq, !Z.leb_le. lia. Qed.
Lemma id_position_inj a b : Id.position a = Id.position b -> Id.get a = Id.get b -> a = b.
Proof. destruct a, b; cbn; intros; try lia; by subst. Qed.
Lemma id_leb_antisym a b : Id.leb a b = true -> Id.leb b a = true -> a = b.
Proof.
  unfold Id.leb. rewrite !orb_true_iff, !andb_true_iff, !Z.ltb_lt, !Z.eqb_eq, !Z.leb_le. intros. apply id_position_inj; lia.
Qed.
Lemma id_ltb_spec a b : Id.ltb a b = true <-> Id.leb a b = true /\ a <> b.
Proof.
  unfold Id.ltb. rewrite negb_true_iff. split.
  - intros E. split; [by apply id_leb_total|]. intros ->. by rewrite (id_leb_total b b E) in E.
  - intros [E N]. apply not_true_is_false. intros E'. by apply N, id_leb_antisym.
Qed.

Definition ascending_ids (l : list CatalogObjectId) : Prop := StronglySorted (fun a b => Id.ltb a b = true) l.

Lemma ordered_NoDup_ids l : ordered Id.leb l -> NoDup l -> ascending_ids l.
Proof.
  induction 1 as [|x l Hs IH Hf]; intros Hn; [constructor|]. apply NoDup_cons in Hn as [Hx Hn]. constructor; [by apply IH|].
  rewrite Forall_forall in *. intros y Hy. apply id_ltb_spec. split; [by apply Hf|]. by intros ->.
Qed.
Lemma ascending_ids_NoDup l : ascending_ids l -> NoDup l.
Proof.
  induction 1 as [|x l Hs IH Hf]; [constructor|]. constructor; [|done]. intros Hx. rewrite Forall_forall in Hf. apply Hf, id_ltb_spec in Hx. by destruct Hx.
Qed.
Lemma ordered_key_ascending {A} (key : A -> CatalogObjectId) l :
  ordered (fun a b => Id.leb (key a) (key b)) l -> NoDup (map key l) -> ascending_ids (map key l).
Proof.
  intros Hs Hn. apply ordered_NoDup_ids; [|done]. unfold ordered in *. clear Hn.
  induction Hs as [|x l Hs IH Hf]; cbn; constructor; [done|]. by apply Forall_fmap.
Qed.
Lemma ascending_key_ordered {A} (key : A -> CatalogObjectId) l : ascending_ids (map key l) -> ordered (fun a b => Id.leb (key a) (key b)) l.
Proof.
  unfold ordered. induction l as [|x l IH]; [constructor|]. cbn. intros [Hs Hf]%StronglySorted_inv. constructor; [by apply IH|].
  apply Forall_fmap in Hf. eapply Forall_impl; [exact Hf|]. intros y [? _]%id_ltb_spec. done.
Qed.
Lemma ascending_ids_unique l1 l2 : ascending_ids l1 -> ascending_ids l2 -> l1 ≡ₚ l2 -> l1 = l2.
Proof.
  assert (HS : forall l, ascending_ids l -> StronglySorted (fun a b => Id.leb a b = true) l).
  { induction 1 as [|x l Hs IH Hf]; constructor; [done|]. eapply Forall_impl; [exact Hf|]. intros y [? _]%id_ltb_spec. done. }
  assert (HA : AntiSymm (=) (fun a b => Id.leb a b = true)) by (intros a b; apply id_leb_antisym).
  intros H1 H2. apply (StronglySorted_unique (fun a b => Id.leb a b = true)); auto.
Qed.

(** ** Ordered maps *)

Section Maps.
Context {V : Type}.
Implicit Types m : IdMap V.

Lemma entries_perm m : entries m ≡ₚ map_to_list m.
Proof. apply sort_with_perm. Qed.

Lemma elem_of_entries m id v : (id, v) ∈ entries m <-> m !! id = Some v.
Proof. rewrite entries_perm. apply elem_of_map_to_list. Qed.

Lemma elem_of_keys m id : id ∈ keys m <-> is_Some (m !! id).
Proof.
  unfold keys. rewrite list_elem_of_fmap. split.
  - intros ([i v] & -> & Hi%elem_of_entries). eauto.
  - intros [v Hv]. exists (id, v). by rewrite elem_of_entries.
Qed.

Lemma elem_of_values m v : v ∈ values m <-> exists id, m !! id = Some v.
Proof.
  unfold values. rewrite list_elem_of_fmap. split.
  - intros ([i w] & -> & Hi%elem_of_entries). eauto.
  - intros [i Hi]. exists (i, v). by rewrite elem_of_entries.
Qed.

Lemma keys_ascending m : ascending_ids (keys m).
Proof.
  apply ordered_NoDup_ids.
  - unfold keys, entries. pose proof (sort_with_ordered (fun x y : CatalogObjectId * V => Id.leb (fst x) (fst y))
      (fun x y => id_leb_total (fst x) (fst y)) (fun x y z => id_leb_trans (fst x) (fst y) (fst z)) (map_to_list m)) as HS.
    unfold ordered in *. induction HS as [|x l Hs IH Hf]; cbn; constructor; [done|]. apply Forall_fmap. exact Hf.
  - unfold keys. change (map fst (entries m)) with ((entries m).*1). rewrite entries_perm. apply NoDup_fst_map_to_list.
Qed.

Lemma length_values m : length (values m) = size m.
Proof. unfold values. rewrite length_map, entries_perm. apply length_map_to_list. Qed.

Lemma keys_nil m : keys m = [] <-> m = ∅.
Proof.
  split; [|by intros ->]. intros E. apply map_eq. intros i. rewrite lookup_empty. apply eq_None_not_Some. intros Hi. apply elem_of_keys in Hi.
  rewrite E in Hi. by apply elem_of_nil in Hi.
Qed.
End Maps.

(** ** Maps of descriptors *)

Definition keyed (m : Descriptors) : Prop := map_Forall (fun id d => d_id d = id) m.
Definition valid_all (m : Descriptors) : Prop := map_Forall (fun _ d => d_validate d = Ok tt) m.

Lemma keyed_values m : keyed m -> map d_id (values m) = keys m.
Proof.
  intros Hk. unfold values, keys. rewrite map_map. apply map_ext_in. intros [id d] Hin%list_elem_of_In%elem_of_entries. by apply Hk in Hin.
Qed.
Lemma keyed_elem m d : keyed m -> d ∈ values m <-> m !! d_id d = Some d.
Proof. intros Hk. rewrite elem_of_values. split; [|eauto]. intros [i Hi]. pose proof (Hk _ _ Hi) as E. cbn in E. by rewrite E. Qed.

Lemma collect_Some l id d : NoDup (map d_id l) -> collect l !! id = Some d <-> d ∈ l /\ d_id d = id.
Proof.
  unfold collect. enough (HG : forall m : Descriptors, NoDup (map d_id l) -> (forall x, x ∈ l -> m !! d_id x = None) ->
    foldl (fun m d => <[d_id d := d]> m) m l !! id = Some d <-> (d ∈ l /\ d_id d = id) \/ m !! id = Some d).
  { intros Hn. rewrite HG by done. rewrite lookup_empty. naive_solver. }
  induction l as [|x l IH]; intros m Hn Hm; cbn.
  { split; [by right|]. intros [[Hd _]|?]; [by apply elem_of_nil in Hd|done]. }
  cbn in Hn. apply NoDup_cons in Hn as [Hx Hn]. rewrite IH; [|done|].
  - destruct (decide (d_id x = id)) as [<-|N].
    + rewrite lookup_insert_eq. split.
      * intros [[Hd He]|[= ->]]; [left; split; [by right|done]|left; split; [by left|done]].
      * intros [[[->|Hd]%elem_of_cons He]|E]; [by right|left; by split|]. rewrite Hm in E; [done|by left].
    + rewrite lookup_insert_ne by done. split.
      * intros [[Hd He]|E]; [left; split; [by right|done]|by right].
      * intros [[[->|Hd]%elem_of_cons He]|E]; [done|left; by split|by right].
  - intros y Hy. rewrite lookup_insert_ne; [apply Hm; by right|]. intros E. apply Hx. rewrite E. by apply list_elem_of_fmap_2.
Qed.

Lemma collect_values m : keyed m -> collect (values m) = m.
Proof.
  intros Hk. assert (Hn : NoDup (map d_id (values m))) by (rewrite keyed_values by done; apply ascending_ids_NoDup, keys_ascending).
  apply map_eq. intros id. apply option_eq. intros d. rewrite collect_Some, keyed_elem by done. split; [by intros [? <-]|].
  intros E. pose proof (Hk _ _ E) as Hd. cbn in Hd. by rewrite Hd.
Qed.

Lemma collect_keyed l : NoDup (map d_id l) -> keyed (collect l).
Proof. intros Hn id d E. by apply collect_Some in E as [_ ?]. Qed.

(** Two lists with the same elements and the same ascending identities are equal. *)
Lemma ascending_descriptors l1 l2 : ascending_ids (map d_id l1) -> ascending_ids (map d_id l2) -> (forall d, d ∈ l1 <-> d ∈ l2) -> l1 = l2.
Proof.
  intros H1 H2 He. assert (HP : l1 ≡ₚ l2).
  { apply NoDup_Permutation; [eapply NoDup_fmap_1, ascending_ids_NoDup, H1|eapply NoDup_fmap_1, ascending_ids_NoDup, H2|done]. }
  assert (HI : map d_id l1 = map d_id l2) by (apply ascending_ids_unique; [done|done|]; by apply fmap_Permutation).
  apply ascending_ids_NoDup in H2. apply list_eq. intros i. pose proof (f_equal (fun l => l !! i) HI) as Ei. cbn in Ei.
  change (map d_id l1) with (d_id <$> l1) in Ei. change (map d_id l2) with (d_id <$> l2) in Ei. rewrite !list_lookup_fmap in Ei.
  destruct (l1 !! i) as [x|] eqn:E1, (l2 !! i) as [y|] eqn:E2; try done. cbn in Ei. injection Ei as Ei.
  apply list_elem_of_lookup_2, He, list_elem_of_lookup in E1 as [j Ej].
  assert (i = j) as <-; [|congruence]. eapply NoDup_lookup; [exact H2|apply list_lookup_fmap_Some_2; eauto|].
  rewrite <- Ei. by apply list_lookup_fmap_Some_2.
Qed.

(** ** Dependencies *)

Lemma any_repeated_NoDup {A} `{EqDecision A} (seen l : list A) :
  any_repeated seen l = false <-> NoDup l /\ forall x, x ∈ l -> x ∉ seen.
Proof.
  revert seen. induction l as [|x l IH]; intros seen; cbn.
  { split; [|done]. intros _. split; [constructor|]. intros x Hx. by apply elem_of_nil in Hx. }
  rewrite orb_false_iff, bool_decide_eq_false, IH, NoDup_cons. split.
  - intros (Hx & Hn & Hs). split; [split; [|done]|].
    + intros Hin. apply Hs in Hin. by apply Hin; left.
    + intros y [->|Hy]%elem_of_cons; [done|]. intros Hin. apply (Hs y Hy). by right.
  - intros ((Hx & Hn) & Hs). split; [by apply Hs; left|]. split; [done|]. intros y Hy [->|Hin]%elem_of_cons; [done|]. apply (Hs y); [by right|done].
Qed.

Lemma validate_metadata d m : d_validate d = Ok tt -> Payload.declaration_metadata (d_payload d) = Some m -> metadata_validate m = Ok tt.
Proof.
  intros Hv Hm. unfold d_validate in Hv. destruct (d_payload d); cbn in Hm; try done; injection Hm as <-;
    unfold index_validate, constraint_validate, native_validate in Hv; destruct (metadata_validate _) as [[]|]; try done; by repeat case_match.
Qed.

Lemma validate_deps_NoDup d m : d_validate d = Ok tt -> Payload.declaration_metadata (d_payload d) = Some m -> NoDup (map dep_id (meta_dependencies m)).
Proof.
  intros Hv Hm. pose proof (validate_metadata d m Hv Hm) as HV. unfold metadata_validate in HV. repeat case_match; try done.
  by apply any_repeated_NoDup in H1 as [? _].
Qed.

Lemma sn_irrefl {A} (R : relation A) x : sn R x -> ~ tc R x x.
Proof.
  induction 1 as [x _ IH]. intros Ht. inversion Ht as [? ? Hs|? y ? Hs Ht']; subst; [by apply (IH x)|].
  apply (IH y); [done|]. by eapply tc_r.
Qed.

Section Check.
Variable ds : Descriptors.

Definition metadata_of (id : CatalogObjectId) : option DeclarationMetadata := d ← ds !! id; Payload.declaration_metadata (d_payload d).
(** The identities that a descriptor depends on. *)
Definition deps_of (id : CatalogObjectId) : list CatalogObjectId :=
  match metadata_of id with Some m => map dep_id (meta_dependencies m) | None => [] end.
Definition depends (a b : CatalogObjectId) : Prop := b ∈ deps_of a.

(** A dependency is met: its target exists at the generation it was declared with,
    and a target that is itself a declaration has the same profile, and is ready when
    the dependent one is. *)
Definition dependency_met (m : DeclarationMetadata) (dep : DeclarationDependency) : Prop :=
  exists target, ds !! dep_id dep = Some target /\ d_generation target = dep_generation dep /\
    forall required, Payload.declaration_metadata (d_payload target) = Some required ->
      meta_profile m = meta_profile required /\ (meta_state m = Ready -> meta_state required = Ready).
(** The backing index of a constraint is one of its dependencies, has the same owner
    and target, and is configured for the type that declares the constraint. *)
Definition backing_met (d : CatalogDescriptor) (m : DeclarationMetadata) : Prop :=
  forall constraint index_id, d_payload d = Payload.Constraint constraint -> constraint_backing_index constraint = Some index_id ->
    Id.Index index_id ∈ map dep_id (meta_dependencies m) /\
    exists target index, ds !! Id.Index index_id = Some target /\ d_payload target = Payload.Index index /\ d_parent target = d_parent d /\
      index_target index = constraint_target constraint /\ index_configuration index = IndexConfiguration.Constraint (constraint_declaring_type constraint).
(** What one declaration has to satisfy. *)
Definition declaration_ok (d : CatalogDescriptor) : Prop :=
  forall m, Payload.declaration_metadata (d_payload d) = Some m -> Forall (dependency_met m) (meta_dependencies m) /\ backing_met d m.
Definition acyclic : Prop := forall id, ~ tc depends id id.

(** The checks decide this. *)
Lemma check_dependency_met d m dep : check_dependency ds d m dep = Ok tt <-> dependency_met m dep.
Proof.
  unfold check_dependency, dependency_met. destruct (ds !! dep_id dep) as [target|]; cbn [ok_or]; [|split; [done|by intros (? & ? & _)]].
  destruct (Z.eqb_spec (d_generation target) (dep_generation dep)) as [E|N]; cbn [negb]; [|split; [done|]; intros (? & [= <-] & ? & _); done].
  destruct (Payload.declaration_metadata (d_payload target)) as [required|] eqn:Er; [|split; [|done]; intros _; exists target; split_and!; [done..|congruence]].
  case_bool_decide as Hp; cbn [negb]; [|split; [done|]; intros (? & [= <-] & _ & HR); by destruct (HR _ Er)].
  case_bool_decide as Hm; case_bool_decide as Hr; cbn [negb andb]; (split; [intros Hok|intros (? & [= <-] & _ & HR)]); try done.
  2: { destruct (HR _ Er) as [_ HR']. by destruct (Hr (HR' Hm)). }
  all: exists target; split_and!; [done..|]; intros x Hx; rewrite Er in Hx; by injection Hx as <-.
Qed.
Lemma check_backing_met d m : check_backing ds d m = Ok tt <-> backing_met d m.
Proof.
  unfold check_backing, backing_met. destruct (d_payload d) as [| | | | | | | |c]; try (split; [by intros|done]).
  destruct (constraint_backing_index c) as [i|] eqn:Ei; [|split; [|done]; intros _ x j [= <-]; congruence].
  assert (HE : existsb (fun dependency => bool_decide (dep_id dependency = Id.Index i)) (meta_dependencies m) = true <-> Id.Index i ∈ map dep_id (meta_dependencies m)).
  { rewrite existsb_exists, list_elem_of_fmap. setoid_rewrite bool_decide_eq_true. setoid_rewrite list_elem_of_In. naive_solver. }
  transitivity (Id.Index i ∈ map dep_id (meta_dependencies m) /\ exists target index, ds !! Id.Index i = Some target /\ d_payload target = Payload.Index index /\ d_parent target = d_parent d /\
    index_target index = constraint_target c /\ index_configuration index = IndexConfiguration.Constraint (constraint_declaring_type c)).
  2: { split; [by intros HA x j [= <-] Hj; simplify_eq|]. intros HA. by apply HA. }
  destruct (existsb _ _); cbn [negb]; [|split; [done|]; intros [Hin _]; by apply HE in Hin].
  assert (Hin : Id.Index i ∈ map dep_id (meta_dependencies m)) by (by apply HE). clear HE.
  destruct (ds !! Id.Index i) as [target|]; cbn [ok_or]; [|split; [done|by intros (_ & ? & ? & ? & _)]].
  destruct (d_payload target) as [| | | | | | |index|] eqn:Et; try (split; [done|]; intros (_ & ? & ? & [= <-] & ? & _); congruence).
  case_bool_decide as Hp; case_bool_decide as Ht; cbn [negb orb]; try (split; [done|]; intros (_ & ? & x & [= <-] & Hx & HP & HT & _); rewrite Et in Hx; by injection Hx as <-).
  destruct (index_configuration index) as [| | | |declaring] eqn:Ec; try case_bool_decide as Hd; cbn [negb];
    try (split; [done|]; intros (_ & ? & x & [= <-] & Hx & _ & _ & HC); rewrite Et in Hx; injection Hx as <-; congruence).
  split; [|done]. intros _. split; [done|]. exists target, index. split_and!; congruence.
Qed.

Hypothesis Hkeyed : keyed ds.
Hypothesis Hvalid : valid_all ds.

Lemma deps_of_NoDup id : NoDup (deps_of id).
Proof.
  unfold deps_of, metadata_of. destruct (ds !! id) as [d|] eqn:E; cbn; [|constructor].
  destruct (Payload.declaration_metadata (d_payload d)) as [m|] eqn:Em; [|constructor]. eapply validate_deps_NoDup; [|exact Em]. by apply (Hvalid _ _ E).
Qed.

(** *** The first loop *)

Lemma scan_dependencies_spec d m deps dependants :
  match scan_dependencies ds d m deps dependants with
  | Ok dependants' => Forall (dependency_met m) deps /\
      (NoDup (map dep_id deps) -> forall x, default [] (dependants' !! x) =
        default [] (dependants !! x) ++ (if decide (x ∈ map dep_id deps) then [d_id d] else []))
  | Err _ => ~ Forall (dependency_met m) deps
  end.
Proof.
  revert dependants. induction deps as [|dep deps IH]; intros dependants; cbn [scan_dependencies].
  { split; [constructor|]. intros _ x. rewrite decide_False by (by intros []%elem_of_nil). by rewrite app_nil_r. }
  pose proof (check_dependency_met d m dep) as HC.
  destruct (check_dependency ds d m dep) as [[]|e]; [|intros HF; apply Forall_cons in HF as [HF _]; by apply HC in HF].
  specialize (IH (<[dep_id dep := default [] (dependants !! dep_id dep) ++ [d_id d]]> dependants)).
  destruct (scan_dependencies _ _ _ _ _) as [dependants'|e'].
  - destruct IH as [HF Hx]. split; [constructor; [by apply HC|done]|]. cbn. intros [Hni Hn]%NoDup_cons x. rewrite Hx by done.
    destruct (decide (x = dep_id dep)) as [->|N].
    + rewrite lookup_insert_eq. cbn. rewrite decide_False by done. rewrite decide_True by (by left). by rewrite app_nil_r.
    + rewrite lookup_insert_ne by done. do 2 f_equal. apply decide_ext. rewrite elem_of_cons. naive_solver.
  - intros HF. apply Forall_cons in HF as [_ HF]. by apply IH.
Qed.

(** The tables after the descriptors [l]. *)
Definition scanned (l : list CatalogDescriptor) (incoming : IdMap Z) (dependants : IdMap (list CatalogObjectId)) : Prop :=
  (forall id, incoming !! id = if decide (id ∈ map d_id l) then (fun m => zlen (meta_dependencies m)) <$> metadata_of id else None) /\
  (forall x, NoDup (default [] (dependants !! x))) /\
  (forall x y, y ∈ default [] (dependants !! x) <-> y ∈ map d_id l /\ x ∈ deps_of y).

Lemma ids_snoc dn d y : y ∈ map d_id (dn ++ [d]) <-> y ∈ map d_id dn \/ y = d_id d.
Proof. rewrite map_app. cbn. by rewrite elem_of_app, list_elem_of_singleton. Qed.

Lemma scanned_other dn d incoming dependants :
  metadata_of (d_id d) = None -> scanned dn incoming dependants -> scanned (dn ++ [d]) incoming dependants.
Proof.
  intros Hm (HI & HN & HD). split; [|split; [done|]].
  - intros id. rewrite HI. destruct (decide (id = d_id d)) as [->|N].
    + rewrite Hm. by repeat case_decide.
    + apply decide_ext. rewrite ids_snoc. naive_solver.
  - intros x y. rewrite HD, ids_snoc. split; [naive_solver|].
    intros [[Hy| ->] Hx]; [done|]. unfold deps_of in Hx. rewrite Hm in Hx. by apply elem_of_nil in Hx.
Qed.

Lemma scanned_declaration dn d m incoming dependants dependants' :
  metadata_of (d_id d) = Some m -> d_id d ∉ map d_id dn -> scanned dn incoming dependants ->
  (forall x, default [] (dependants' !! x) = default [] (dependants !! x) ++ (if decide (x ∈ map dep_id (meta_dependencies m)) then [d_id d] else [])) ->
  scanned (dn ++ [d]) (<[d_id d := zlen (meta_dependencies m)]> incoming) dependants'.
Proof.
  intros Hm Hf (HI & HN & HD) HX. assert (Hdeps : deps_of (d_id d) = map dep_id (meta_dependencies m)) by (unfold deps_of; by rewrite Hm).
  split; [|split].
  - intros id. destruct (decide (id = d_id d)) as [->|N].
    + rewrite lookup_insert_eq, decide_True, Hm; [done|]. apply ids_snoc. by right.
    + rewrite lookup_insert_ne, HI by done. apply decide_ext. rewrite ids_snoc. naive_solver.
  - intros x. rewrite HX. case_decide; [|by rewrite app_nil_r]. apply NoDup_app. split; [done|]. split; [|apply NoDup_singleton].
    intros y Hy ->%list_elem_of_singleton. by apply HD in Hy as [? _].
  - intros x y. rewrite HX, elem_of_app, HD, ids_snoc. case_decide as Hc.
    + rewrite list_elem_of_singleton. split; [intros [[? ?]| ->]; [tauto|]|intros [[?| ->] ?]; tauto]. split; [by right|]. by rewrite Hdeps.
    + split; [intros [[? ?]|[]%elem_of_nil]; tauto|]. intros [[?| ->] Hx]; [tauto|]. by rewrite Hdeps in Hx.
Qed.

Lemma scan_spec l dn incoming dependants :
  (forall d, d ∈ l -> ds !! d_id d = Some d) -> NoDup (map d_id (dn ++ l)) -> scanned dn incoming dependants ->
  match scan ds l incoming dependants with
  | Ok (incoming', dependants') => Forall declaration_ok l /\ scanned (dn ++ l) incoming' dependants'
  | Err _ => ~ Forall declaration_ok l
  end.
Proof.
  revert dn incoming dependants. induction l as [|d l IH]; intros dn incoming dependants Hl Hn Hs; cbn [scan].
  { split; [constructor|]. by rewrite app_nil_r. }
  assert (Hd : ds !! d_id d = Some d) by (apply Hl; by left). rewrite (cons_middle d dn l), app_assoc in *.
  assert (Hfresh : d_id d ∉ map d_id dn).
  { rewrite !map_app in Hn. cbn in Hn. apply NoDup_app in Hn as (Hn & _). apply NoDup_app in Hn as (_ & Hn & _). intros Hin. apply (Hn _ Hin). by left. }
  assert (Hl' : forall x, x ∈ l -> ds !! d_id x = Some x) by (intros x Hx; apply Hl; by right).
  assert (Hmd : metadata_of (d_id d) = Payload.declaration_metadata (d_payload d)) by (unfold metadata_of; by rewrite Hd).
  destruct (Payload.declaration_metadata (d_payload d)) as [m|] eqn:Em.
  - pose proof (scan_dependencies_spec d m (meta_dependencies m) dependants) as HSD.
    destruct (scan_dependencies _ _ _ _ _) as [dependants'|e].
    + destruct HSD as [HF HX]. specialize (HX (validate_deps_NoDup d m (Hvalid _ _ Hd) Em)).
      pose proof (check_backing_met d m) as HC. destruct (check_backing ds d m) as [[]|e].
      * specialize (IH _ _ _ Hl' Hn (scanned_declaration _ _ _ _ _ _ Hmd Hfresh Hs HX)).
        destruct (scan _ _ _ _) as [[i' p']|e].
        -- destruct IH as [HA HB]. split; [|done]. constructor; [|done]. intros m' Hm'. rewrite Em in Hm'. injection Hm' as <-. by split; [|apply HC].
        -- intros HA. apply Forall_cons in HA as [_ HA]. by apply IH.
      * intros HA. apply Forall_cons in HA as [HA _]. by destruct (HA m Em) as [_ HB%HC].
    + intros HA. apply Forall_cons in HA as [HA _]. by destruct (HA m Em).
  - specialize (IH _ _ _ Hl' Hn (scanned_other _ _ _ _ Hmd Hs)). destruct (scan _ _ _ _) as [[i' p']|e].
    + destruct IH as [HA HB]. split; [|done]. constructor; [|done]. intros m Hm. congruence.
    + intros HA. apply Forall_cons in HA as [_ HA]. by apply IH.
Qed.

(** *** The second loop *)

Lemma release_spec l roots incoming :
  NoDup l -> (forall y n, y ∈ l -> incoming !! y = Some n -> 0 < n) ->
  exists roots' incoming', release_dependants l roots incoming = Ok (roots', incoming') /\
    (forall y, incoming' !! y = if decide (y ∈ l) then Z.pred <$> incoming !! y else incoming !! y) /\
    (forall y, y ∈ roots' <-> y ∈ roots \/ (y ∈ l /\ incoming !! y = Some 1)).
Proof.
  revert roots incoming. induction l as [|x l IH]; intros roots incoming Hn Hp; cbn [release_dependants].
  { exists roots, incoming. split; [done|]. split; [done|]. intros y. split; [by left|]. intros [?|[Hy _]]; [done|]. by apply elem_of_nil in Hy. }
  apply NoDup_cons in Hn as [Hx Hn]. destruct (incoming !! x) as [n|] eqn:E.
  - assert (0 < n) by (eapply Hp; [by left|done]). rewrite (proj2 (Z.eqb_neq n 0)) by lia.
    edestruct (IH (if n - 1 =? 0 then {[x]} ∪ roots else roots) (<[x := n - 1]> incoming) Hn) as (r' & i' & Er & Hi & Hr).
    { intros y k Hy. rewrite lookup_insert_ne by (by intros ->). apply Hp. by right. }
    exists r', i'. split; [exact Er|]. split.
    + intros y. rewrite Hi. destruct (decide (y = x)) as [->|N].
      * rewrite decide_False by done. rewrite decide_True by (by left). by rewrite lookup_insert_eq, E.
      * rewrite lookup_insert_ne by done. assert (Heq : y ∈ l <-> y ∈ x :: l) by (rewrite elem_of_cons; naive_solver).
        by rewrite (decide_ext _ _ _ _ Heq).
    + intros y. rewrite Hr. destruct (decide (y = x)) as [->|N].
      * rewrite E. assert (Hxr : x ∈ (if n - 1 =? 0 then {[x]} ∪ roots else roots) <-> x ∈ roots \/ n = 1).
        { destruct (Z.eqb_spec (n - 1) 0); [|split; [by left|intros [?|?]; [done|lia]]]. split; [|set_solver]. right. lia. }
        rewrite Hxr. split; [intros [[?| ->]|[? _]]; [by left|right; split; [by left|done]|done]|].
        intros [?|[_ [= ->]]]; left; [by left|by right].
      * rewrite lookup_insert_ne by done. rewrite elem_of_cons.
        assert (Hyr : y ∈ (if n - 1 =? 0 then {[x]} ∪ roots else roots) <-> y ∈ roots) by (destruct (_ =? 0); set_solver).
        rewrite Hyr. naive_solver.
  - edestruct (IH roots incoming Hn) as (r' & i' & Er & Hi & Hr); [intros y k Hy; apply Hp; by right|].
    exists r', i'. split; [exact Er|]. split.
    + intros y. rewrite Hi. destruct (decide (y = x)) as [->|N].
      * rewrite decide_False by done. rewrite decide_True by (by left). by rewrite E.
      * assert (Heq : y ∈ l <-> y ∈ x :: l) by (rewrite elem_of_cons; naive_solver). by rewrite (decide_ext _ _ _ _ Heq).
    + intros y. rewrite Hr, elem_of_cons. naive_solver congruence.
Qed.

Lemma pop_first_spec s :
  match pop_first s with
  | None => s = ∅
  | Some (id, s') => id ∈ s /\ s' = s ∖ {[id]}
  end.
Proof.
  unfold pop_first. pose proof (sort_with_perm Id.leb (elements s)) as HP. destruct (sort_with _ _) as [|id l].
  - apply Permutation_nil_l in HP. symmetry in HP. by apply elements_empty_iff, leibniz_equiv_iff in HP.
  - split; [|done]. apply elem_of_elements. rewrite <- HP. by left.
Qed.

Lemma filter_same {A} (Q Q' : A -> Prop) `{!forall x, Decision (Q x), !forall x, Decision (Q' x)} (l : list A) :
  (forall x, x ∈ l -> Q x <-> Q' x) -> filter Q l = filter Q' l.
Proof.
  induction l as [|x l IH]; [done|]. intros HQ. rewrite !filter_cons, IH by (intros y Hy; apply HQ; by right).
  assert (Q x <-> Q' x) by (apply HQ; by left). repeat case_decide; tauto.
Qed.

(** What is left of the dependencies of [y] when [P] is taken. *)
Definition left_deps (P : gset CatalogObjectId) (y : CatalogObjectId) : list CatalogObjectId := filter (fun x => x ∉ P) (deps_of y).

Lemma left_deps_nil P y : left_deps P y = [] <-> forall x, x ∈ deps_of y -> x ∈ P.
Proof.
  split.
  - intros E x Hx. destruct (decide (x ∈ P)) as [|N]; [done|]. assert (Hin : x ∈ left_deps P y) by (by apply list_elem_of_filter).
    rewrite E in Hin. by apply elem_of_nil in Hin.
  - intros HP. destruct (left_deps P y) as [|x l] eqn:E; [done|]. assert (x ∈ left_deps P y) as [N Hx]%list_elem_of_filter by (rewrite E; by left).
    by destruct N; apply HP.
Qed.

Lemma left_deps_other P x y : x ∉ deps_of y -> left_deps ({[x]} ∪ P) y = left_deps P y.
Proof.
  intros Hx. unfold left_deps. apply filter_same. intros z Hz. set_solver.
Qed.

Lemma left_deps_taken P x y : x ∉ P -> x ∈ deps_of y -> length (left_deps P y) = S (length (left_deps ({[x]} ∪ P) y)).
Proof.
  intros HP Hx. unfold left_deps. pose proof (deps_of_NoDup y) as Hn. apply list_elem_of_split in Hx as (l1 & l2 & E). rewrite E in *.
  apply NoDup_app in Hn as (_ & Hd & Hn). apply NoDup_cons in Hn as [Hx2 _]. assert (Hx1 : x ∉ l1) by (intros Hin; apply (Hd _ Hin); by left).
  rewrite !filter_app, !filter_cons_True by done. rewrite (filter_cons_False _ x l2) by set_solver.
  assert (HE : forall l : list CatalogObjectId, x ∉ l -> filter (fun z => z ∉ {[x]} ∪ P) l = filter (fun z => z ∉ P) l).
  { intros l Hl. apply filter_same. intros z Hz. set_solver. }
  rewrite !HE by done. rewrite !length_app. cbn. lia.
Qed.

Record drained (P roots : gset CatalogObjectId) (incoming : IdMap Z) : Prop := {
  dr_known : forall y, y ∈ P -> is_Some (ds !! y);
  dr_incoming : forall y, incoming !! y = if decide (y ∈ P) then None else (fun _ => zlen (left_deps P y)) <$> metadata_of y;
  dr_roots : forall y, y ∈ roots <-> is_Some (ds !! y) /\ y ∉ P /\ forall x, x ∈ deps_of y -> x ∈ P;
  dr_acc : forall y, y ∈ P -> sn depends y
}.

Lemma deps_of_known y x : x ∈ deps_of y -> is_Some (metadata_of y) /\ is_Some (ds !! y).
Proof.
  unfold deps_of, metadata_of. destruct (ds !! y) as [d|]; cbn; [|by intros []%elem_of_nil].
  destruct (Payload.declaration_metadata _); [eauto|by intros []%elem_of_nil].
Qed.

Lemma release_drained incoming0 dependants P roots incoming x :
  scanned (values ds) incoming0 dependants -> drained P roots incoming -> x ∈ roots ->
  exists roots' incoming', release_dependants (default [] (dependants !! x)) (roots ∖ {[x]}) (delete x incoming) = Ok (roots', incoming') /\
    drained ({[x]} ∪ P) roots' incoming'.
Proof.
  intros (_ & HN & HD) [DK DI DR DA] Hx. apply DR in Hx as (Hk & HxP & Hdx).
  assert (HL : forall y, y ∈ default [] (dependants !! x) <-> x ∈ deps_of y).
  { intros y. rewrite HD, (keyed_values ds Hkeyed), elem_of_keys. split; [by intros [_ ?]|]. intros Hy. split; [|done]. by apply (deps_of_known y x). }
  assert (Hself : x ∉ deps_of x) by (intros Hin; by apply HxP, Hdx).
  destruct (release_spec (default [] (dependants !! x)) (roots ∖ {[x]}) (delete x incoming) (HN x)) as (r' & i' & E & Hi & Hr).
  { intros y n Hy%HL En. assert (y <> x) by (by intros ->). rewrite lookup_delete_ne, DI in En by done. case_decide as HyP; [done|].
    destruct (metadata_of y); [|done]. injection En as <-. unfold zlen. rewrite (left_deps_taken P x y HxP Hy). lia. }
  exists r', i'. split; [exact E|]. split.
  - intros y [->%elem_of_singleton|Hy]%elem_of_union; [done|by apply DK].
  - intros y. rewrite Hi. destruct (decide (y = x)) as [->|N].
    { rewrite decide_False by (by rewrite HL). rewrite lookup_delete_eq, decide_True; [done|set_solver]. }
    rewrite lookup_delete_ne, DI by done. rewrite (decide_ext (y ∈ {[x]} ∪ P) (y ∈ P)) by set_solver.
    rewrite (decide_ext _ (x ∈ deps_of y) _ _ (HL y)). case_decide as H1; case_decide as H2; try done; destruct (metadata_of y); cbn; try done; f_equal.
    + unfold zlen. rewrite (left_deps_taken P x y HxP H1). lia.
    + by rewrite left_deps_other.
  - intros y. rewrite Hr, HL. split.
    + intros [[(Hy & HyP & Hdy)%DR N]%elem_of_difference|[Hy En]].
      * split; [done|]. split; [set_solver|]. intros z Hz. apply elem_of_union. right. by apply Hdy.
      * assert (N : y <> x) by (by intros ->). rewrite lookup_delete_ne, DI in En by done. case_decide as HyP; [done|].
        split; [by apply (deps_of_known y x)|]. split; [set_solver|]. apply left_deps_nil. destruct (metadata_of y); [|done].
        injection En as En. unfold zlen in En. rewrite (left_deps_taken P x y HxP Hy) in En. apply length_zero_iff_nil. lia.
    + intros (Hk' & HyP & Hdy). assert (N : y <> x) by set_solver. destruct (decide (x ∈ deps_of y)) as [Hy|Hy].
      * right. split; [done|]. rewrite lookup_delete_ne, DI by done. rewrite decide_False by set_solver.
        apply deps_of_known in Hy as Hm. destruct Hm as [[m ->] _]. cbn. unfold zlen. rewrite (left_deps_taken P x y HxP Hy).
        apply left_deps_nil in Hdy. by rewrite Hdy.
      * left. apply elem_of_difference. split; [|set_solver]. apply DR. split; [done|]. split; [set_solver|]. intros z Hz. pose proof (Hdy z Hz). set_solver.
  - intros y [->%elem_of_singleton|Hy]%elem_of_union; [|by apply DA]. constructor. intros z Hz. apply DA, Hdx, Hz.
Qed.

Lemma drain_spec incoming0 dependants fuel P roots incoming :
  scanned (values ds) incoming0 dependants -> drained P roots incoming -> (size (dom ds ∖ P) <= fuel)%nat ->
  exists P' incoming', drain dependants fuel roots incoming = Ok incoming' /\ drained P' ∅ incoming'.
Proof.
  intros Hs. revert P roots incoming. induction fuel as [|fuel IH]; intros P roots incoming HD Hf; cbn [drain];
    pose proof (pop_first_spec roots) as HP; destruct (pop_first roots) as [[x roots']|].
  - destruct HP as [Hx _]. apply (dr_roots _ _ _ HD) in Hx as (Hk & HxP & _). assert (Hin : x ∈ dom ds ∖ P) by (apply elem_of_difference; split; [by apply elem_of_dom|done]).
    assert (dom ds ∖ P = ∅) as He by (apply leibniz_equiv, size_empty_inv; lia). rewrite He in Hin. set_solver.
  - subst roots. by exists P, incoming.
  - destruct HP as [Hx ->]. destruct (release_drained _ _ _ _ _ _ Hs HD Hx) as (r' & i' & -> & HD'). cbn [fst snd].
    apply (IH _ _ _ HD'). apply (dr_roots _ _ _ HD) in Hx as (Hk & HxP & _).
    assert (size (dom ds ∖ ({[x]} ∪ P)) < size (dom ds ∖ P))%nat; [|lia]. apply subset_size. split; [set_solver|].
    intros HH. assert (Hin : x ∈ dom ds ∖ P) by (apply elem_of_difference; split; [by apply elem_of_dom|done]). apply HH in Hin. set_solver.
  - subst roots. by exists P, incoming.
Qed.

(** *** The whole check *)

Lemma acyclic_sn : acyclic <-> forall id, sn depends id.
Proof.
  split.
  - intros HA id. apply tc_finite_sn; [exact HA|]. exists (concat (map deps_of (elements (dom ds)))). intros y Hy.
    assert (exists x, depends x y) as [x Hx] by (induction Hy; eauto).
    apply list_elem_of_In, in_concat. exists (deps_of x). split; [|by apply list_elem_of_In]. apply in_map, list_elem_of_In, elem_of_elements, elem_of_dom.
    by apply (deps_of_known x y).
  - intros HS id. by apply sn_irrefl.
Qed.

Lemma drained_start incoming dependants :
  scanned (values ds) incoming dependants ->
  drained ∅ (list_to_set (List.filter (fun id => default 0 (incoming !! id) =? 0) (keys ds))) incoming.
Proof.
  intros (HI & _ & _). rewrite (keyed_values ds Hkeyed) in HI.
  assert (HL : forall y, left_deps ∅ y = deps_of y) by (intros y; unfold left_deps; induction (deps_of y) as [|x l IH]; [done|]; rewrite filter_cons_True by set_solver; by rewrite IH).
  assert (HI' : forall id, incoming !! id = (fun _ => zlen (deps_of id)) <$> metadata_of id).
  { intros id. rewrite HI. case_decide as Hk.
    - unfold deps_of. destruct (metadata_of id) as [m|]; [|done]. cbn. unfold zlen. by rewrite length_map.
    - unfold metadata_of. destruct (ds !! id) eqn:E; [|done]. destruct Hk. apply elem_of_keys. eauto. }
  split; try set_solver.
  - intros y. rewrite HL, decide_False by set_solver. apply HI'.
  - intros y. rewrite elem_of_list_to_set, list_elem_of_In, filter_In, <- list_elem_of_In, elem_of_keys, HI', Z.eqb_eq. split.
    + intros [Hk He]. split; [done|]. split; [set_solver|]. intros x Hx. apply deps_of_known in Hx as Hm. destruct Hm as [[m Hm] _].
      rewrite Hm in He. cbn in He. destruct (deps_of y); [|cbn in He; unfold zlen in He; cbn in He; lia]. by apply elem_of_nil in Hx.
    + intros (Hk & _ & Hd). split; [done|]. destruct (metadata_of y); [|done]. cbn. destruct (deps_of y) as [|x l]; [done|].
      exfalso. specialize (Hd x ltac:(by left)). set_solver.
Qed.

(** At the end, what is left is what does not come to rest. *)
Lemma drained_end P incoming : drained P ∅ incoming -> (forall id x, x ∈ deps_of id -> is_Some (ds !! x)) ->
  forall id, match incoming !! id with Some _ => ~ sn depends id | None => sn depends id end.
Proof.
  intros [DK DI DR DA] Hex. assert (HR : forall id, is_Some (incoming !! id) <-> is_Some (metadata_of id) /\ id ∉ P).
  { intros id. rewrite DI. case_decide as Hc; [split; [by intros [? ?]|by intros [_ ?]]|]. rewrite fmap_is_Some. tauto. }
  assert (HP : forall id, is_Some (ds !! id) -> id ∈ P \/ is_Some (incoming !! id)).
  { intros id Hk. destruct (decide (id ∈ P)) as [|N]; [by left|right]. apply HR. split; [|done]. destruct (metadata_of id) as [m|] eqn:Em; [eauto|].
    exfalso. assert (id ∈ (∅ : gset CatalogObjectId)); [|set_solver]. apply DR. split; [done|]. split; [done|]. unfold deps_of. rewrite Em. set_solver. }
  intros id. destruct (incoming !! id) as [n|] eqn:En.
  - assert (Hi : is_Some (incoming !! id)) by eauto. clear n En. intros Hs. induction Hs as [id _ IH].
    pose proof (proj1 (HR id) Hi) as [[m Hm] HN].
    assert (Hlive : exists x, x ∈ deps_of id /\ x ∉ P).
    { destruct (left_deps P id) as [|x l] eqn:E.
      - exfalso. assert (id ∈ (∅ : gset CatalogObjectId)); [|set_solver]. apply DR. split; [|by split; [|apply left_deps_nil]].
        unfold metadata_of in Hm. destruct (ds !! id); [eauto|done].
      - exists x. assert (Hin : x ∈ left_deps P id) by (rewrite E; by left). apply list_elem_of_filter in Hin. tauto. }
    destruct Hlive as (x & Hx & HxP). destruct (HP x (Hex _ _ Hx)) as [|Hix]; [done|]. by apply (IH x Hx).
  - destruct (decide (id ∈ P)) as [Hin|N]; [by apply DA|]. constructor. intros y Hy. exfalso.
    destruct (deps_of_known id y Hy) as [Hm _]. assert (is_Some (incoming !! id)) as [n Hn] by (by apply HR). congruence.
Qed.

Lemma declaration_deps_known id x : (forall i d, ds !! i = Some d -> declaration_ok d) -> x ∈ deps_of id -> is_Some (ds !! x).
Proof.
  intros HO Hx. unfold deps_of, metadata_of in Hx. destruct (ds !! id) as [d|] eqn:E; [|by apply elem_of_nil in Hx]. cbn in Hx.
  pose proof (HO _ _ E) as Hd. unfold declaration_ok in Hd. destruct (Payload.declaration_metadata _) as [m|]; [|by apply elem_of_nil in Hx].
  destruct (Hd m eq_refl) as [Hf _]. apply list_elem_of_fmap in Hx as (dep & -> & Hdep). rewrite Forall_forall in Hf. destruct (Hf _ Hdep) as (target & -> & _). eauto.
Qed.

Lemma dependencies_validate_spec :
  match dependencies_validate ds with
  | Ok _ => (forall id d, ds !! id = Some d -> declaration_ok d) /\ acyclic
  | Err (Fails _) => ~ ((forall id d, ds !! id = Some d -> declaration_ok d) /\ acyclic)
  | Err (Panic _) => False
  end.
Proof.
  assert (HF : Forall declaration_ok (values ds) <-> forall id d, ds !! id = Some d -> declaration_ok d).
  { rewrite Forall_forall. split; [intros HA id d E; apply HA, elem_of_values; eauto|]. intros HA d [id E]%elem_of_values. by eapply HA. }
  unfold dependencies_validate. pose proof (scan_spec (values ds) [] ∅ ∅) as HS.
  assert (Hs0 : scanned [] ∅ ∅).
  { split; [|split]; [intros id; by rewrite lookup_empty, decide_False by (by intros []%elem_of_nil)|intros x; rewrite lookup_empty; constructor|].
    intros x y. rewrite lookup_empty. split; [by intros []%elem_of_nil|]. by intros [[]%elem_of_nil _]. }
  specialize (HS (fun d Hd => proj1 (keyed_elem ds d Hkeyed) Hd) ltac:(cbn; rewrite (keyed_values ds Hkeyed); apply ascending_ids_NoDup, keys_ascending) Hs0).
  destruct (scan _ _ _ _) as [[incoming dependants]|e]; cbn [lift map_err]; [|by rewrite <- HF; intros [? _]].
  destruct HS as [HO Hs]. rewrite HF in HO.
  destruct (drain_spec incoming dependants (size ds) _ _ _ Hs (drained_start _ _ Hs)) as (P' & i' & -> & HD).
  { rewrite <- size_dom. apply subseteq_size. set_solver. }
  pose proof (drained_end _ _ HD (fun id x => declaration_deps_known id x HO)) as HE. cbn [bind].
  destruct (keys i') as [|id l] eqn:Ek.
  - split; [done|]. apply acyclic_sn. intros id. specialize (HE id). apply keys_nil in Ek. by rewrite Ek, lookup_empty in HE.
  - rewrite acyclic_sn. intros [_ Hs']. assert (is_Some (i' !! id)) as [n En] by (apply elem_of_keys; rewrite Ek; by left).
    specialize (HE id). rewrite En in HE. by apply HE.
Qed.
End Check.
