(* ===== verification/CatalogBuild.v ===== *)
(** The catalog snapshot that a builder, a transaction and the logical records give.

    [well_formed] says what a catalog is, without the loops and the
    dictionaries of snapshot.rs: one catalog and one root directory, owners that
    exist, names that are unique under their owner, references within a schema,
    declarations that pass their checks and do not depend on themselves.
    [build_spec] shows that [CatalogSnapshotBuilder::build] decides it without a
    panic, and that the dictionaries of the snapshot find exactly the
    descriptors of a name. *)

From stdpp Require Import relations sorting.
From S2P Require Import Prelude Errors Wire Value ValueCodec Ordered Schema Catalog CatalogSnapshot CatalogOrder.
From coqutil Require Import Byte.

(** ** Name spaces *)

(** The dictionary that holds the name of a descriptor. *)
Inductive space := Schemas | Objects (schema : Z) | Declarations (owner : CatalogObjectId).
#[export] Instance space_eq : EqDecision space.
Proof. solve_decision. Defined.

Definition space_of (d : CatalogDescriptor) : option space :=
  match d_kind d, d_parent d with
  | Kind.Schema, Parent.Directory _ => Some Schemas
  | _, Parent.Schema schema => Some (Objects schema)
  | Kind.Directory, Parent.Catalog _ => None
  | _, Parent.Catalog id => Some (Declarations (Id.Catalog id))
  | _, Parent.Graph id => Some (Declarations (Id.Graph id))
  | _, Parent.GraphType id => Some (Declarations (Id.GraphType id))
  | _, _ => None
  end.

Definition find_name (names : Names) (sp : space) (canonical : bytes) : option CatalogObjectId :=
  match sp with
  | Schemas => Id.Schema <$> schema_names names !! canonical
  | Objects schema => m ← object_names names !! schema; m !! canonical
  | Declarations owner => m ← declaration_names names !! owner; m !! canonical
  end.

(** [d] is the descriptor of a name. *)
Definition named (sp : space) (canonical : bytes) (d : CatalogDescriptor) : Prop :=
  space_of d = Some sp /\ name_canonical (d_name d) = canonical.

(** ** What a catalog is *)

Section WellFormed.
Variable generation catalog_id root_id : Z.
Variable ds : Descriptors.

Definition parent_present (d : CatalogDescriptor) : Prop :=
  match parent_id (d_parent d) with Some owner => is_Some (ds !! owner) | None => True end.
Definition references_ok (d : CatalogDescriptor) : Prop :=
  match d_payload d with
  | Payload.Graph (Some graph_type) => exists target, ds !! Id.GraphType graph_type = Some target /\ d_parent target = d_parent d
  | _ => True
  end.

Record well_formed : Prop := {
  wf_catalog : is_Some (ds !! Id.Catalog catalog_id);
  wf_root : is_Some (ds !! Id.Directory root_id);
  wf_one_catalog : forall id d, ds !! id = Some d -> d_kind d = Kind.Catalog -> id = Id.Catalog catalog_id;
  wf_one_root : forall id d, ds !! id = Some d -> d_kind d = Kind.Directory -> id = Id.Directory root_id;
  wf_generation : forall id d, ds !! id = Some d -> d_generation d <= generation;
  wf_parent : forall id d, ds !! id = Some d -> parent_present d;
  wf_names : forall id1 id2 d1 d2 sp canonical, ds !! id1 = Some d1 -> ds !! id2 = Some d2 ->
    named sp canonical d1 -> named sp canonical d2 -> id1 = id2;
  wf_references : forall id d, ds !! id = Some d -> references_ok d;
  wf_declarations : forall id d, ds !! id = Some d -> declaration_ok ds d;
  wf_acyclic : acyclic ds
}.
End WellFormed.

(** ** Indexing *)

Section Nested.
Context {K V : Type} `{Countable K}.
Implicit Types m : gmap K (NameMap V).

Lemma nested_lookup m k c : default ∅ (m !! k) !! c = (x ← m !! k; x !! c).
Proof. destruct (m !! k); cbn; [done|apply lookup_empty]. Qed.

Lemma nested_insert m k c v k' c' :
  (x ← <[k := <[c := v]> (default ∅ (m !! k))]> m !! k'; x !! c') =
  if decide (k' = k /\ c' = c) then Some v else (x ← m !! k'; x !! c').
Proof.
  destruct (decide (k' = k)) as [->|N].
  - rewrite lookup_insert_eq. cbn. destruct (decide (c' = c)) as [->|N].
    + by rewrite lookup_insert_eq, decide_True.
    + rewrite lookup_insert_ne, nested_lookup by done. by rewrite decide_False by naive_solver.
  - rewrite lookup_insert_ne by done. by rewrite decide_False by naive_solver.
Qed.
End Nested.

Section Index.
Variable self : CatalogSnapshotBuilder.
Let ds := b_descriptors self.

(** The checks of one turn of the loop, besides the name. *)
Definition placed (d : CatalogDescriptor) : Prop :=
  d_generation d <= b_generation self /\
  match d_kind d with
  | Kind.Catalog | Kind.Directory => True
  | Kind.Schema => d_parent d = Parent.Directory (b_root_id self)
  | _ => parent_present ds d
  end.
Definition name_free (names : Names) (d : CatalogDescriptor) : Prop :=
  match space_of d with Some sp => find_name names sp (name_canonical (d_name d)) = None | None => True end.
#[export] Instance named_decision sp canonical d : Decision (named sp canonical d).
Proof. unfold named. apply _. Defined.
Definition name_added (names names' : Names) (d : CatalogDescriptor) : Prop :=
  forall sp canonical, find_name names' sp canonical =
    if decide (named sp canonical d) then Some (d_id d) else find_name names sp canonical.
(** The schemas with a dictionary of objects. *)
Definition opened (d : CatalogDescriptor) (schema : Z) : Prop := d_id d = Id.Schema schema \/ d_parent d = Parent.Schema schema.
Definition objects_added (names names' : Names) (d : CatalogDescriptor) : Prop :=
  forall schema, is_Some (object_names names' !! schema) <-> is_Some (object_names names !! schema) \/ opened d schema.

(** What a turn does when it accepts exactly the descriptors with [P] and a free name. *)
Definition indexes (P : Prop) (names : Names) (d : CatalogDescriptor) (r : outcome CatalogError Names) : Prop :=
  match r with
  | Ok names' => (P /\ name_free names d) /\ name_added names names' d /\ objects_added names names' d
  | Err (Fails _) => ~ (P /\ name_free names d)
  | Err (Panic _) => False
  end.
Lemma indexes_iff P Q names d r : (P <-> Q) -> indexes P names d r -> indexes Q names d r.
Proof. destruct r as [?|[?|?]]; cbn; tauto. Qed.

Ltac not_named := rewrite decide_False by (unfold named; naive_solver).

Lemma index_declaration_spec names owner d :
  space_of d = Some (Declarations owner) -> (forall schema, ~ opened d schema) ->
  indexes (is_Some (ds !! owner)) names d (lift (index_declaration_name ds names owner d)).
Proof.
  intros Hsp Ho. unfold index_declaration_name, indexes, name_free. rewrite Hsp. cbn [find_name]. case_bool_decide as Hp; cbn; [|tauto].
  rewrite nested_lookup. destruct (_ ≫= _) eqn:E; cbn; [naive_solver|]. split; [done|]. split.
  - intros sp c. destruct sp as [| |owner']; cbn; [by not_named..|]. rewrite nested_insert.
    apply decide_ext. unfold named. rewrite Hsp. naive_solver.
  - intros schema. cbn. specialize (Ho schema). tauto.
Qed.

Lemma index_object_spec names schema d :
  d_parent d = Parent.Schema schema -> space_of d = Some (Objects schema) -> (forall schema', d_id d <> Id.Schema schema') ->
  indexes (is_Some (ds !! Id.Schema schema)) names d (lift (index_object ds names schema d)).
Proof.
  intros Hpar Hsp Hid. unfold index_object, indexes, name_free. rewrite Hsp. cbn [find_name]. case_bool_decide as Hp; cbn; [|tauto].
  rewrite nested_lookup. destruct (_ ≫= _) eqn:E; cbn; [naive_solver|]. split; [done|]. split.
  - intros sp c. destruct sp as [|schema'|]; cbn; [by not_named| |by not_named]. rewrite nested_insert.
    apply decide_ext. unfold named. rewrite Hsp. naive_solver.
  - intros schema'. cbn. unfold opened. rewrite Hpar, lookup_insert_is_Some. specialize (Hid schema').
    destruct (decide (schema = schema')); naive_solver.
Qed.

Lemma index_schema_spec names parent schema d :
  d_id d = Id.Schema schema -> d_parent d = Parent.Directory parent -> space_of d = Some Schemas ->
  indexes (parent = b_root_id self) names d (index_schema (b_root_id self) names parent d).
Proof.
  intros Hid Hpar Hsp. unfold index_schema, indexes, name_free. rewrite Hsp, Hid. cbn [find_name]. destruct (Z.eqb_spec parent (b_root_id self)) as [->|N]; cbn; [|tauto].
  destruct (schema_names names !! _) eqn:E; cbn; [intros [_ ?]; done|]. split; [done|]. split.
  - intros sp c. destruct sp as [|schema'|]; cbn.
    + destruct (decide (c = name_canonical (d_name d))) as [->|N]; [rewrite lookup_insert_eq, decide_True by done; cbn; by rewrite Hid|].
      rewrite lookup_insert_ne by done. by not_named.
    + not_named. destruct (decide (schema = schema')) as [->|N]; [|by rewrite lookup_insert_ne].
      rewrite lookup_insert_eq. cbn. apply nested_lookup.
    + by not_named.
  - intros schema'. cbn. unfold opened. rewrite Hpar, Hid, lookup_insert_is_Some. destruct (decide (schema = schema')); naive_solver.
Qed.

Lemma validate_kinds d : d_validate d = Ok tt ->
  d_kind d = Id.kind (d_id d) /\ d_kind d = Payload.kind (d_payload d) /\ valid_parent (d_kind d) (d_parent d) = true.
Proof.
  unfold d_validate. intros Hv. destruct (_ || _) eqn:E1; [done|]. destruct (negb (valid_parent _ _)) eqn:E2; [done|].
  apply orb_false_iff in E1 as [E1 E3]. apply negb_false_iff in E1, E2, E3. apply bool_decide_eq_true in E1, E3. done.
Qed.

Lemma index_descriptor_spec names d : d_validate d = Ok tt -> indexes (placed d) names d (index_descriptor self names d).
Proof.
  intros (Hk & _ & Hp)%validate_kinds. unfold index_descriptor. destruct (Z.ltb_spec (b_generation self) (d_generation d)) as [Hg|Hg].
  { cbn. unfold placed. lia. }
  assert (Hkeep : space_of d = None -> (forall schema, ~ opened d schema) -> indexes True names d (Ok names)).
  { intros Hsp Ho. unfold indexes, name_free. rewrite Hsp. split; [done|]. split; [intros sp c; by not_named|]. intros schema. specialize (Ho schema). tauto. }
  unfold placed. destruct (d_kind d) eqn:Ek; destruct (d_parent d) eqn:Ep; try discriminate Hp.
  1, 2: apply (indexes_iff True); [done|]; apply Hkeep; [unfold space_of; by rewrite Ek, Ep|]; unfold opened; rewrite Ep; intros ? [E|?]; [by rewrite E in Hk|done].
  1: { destruct (d_id d) as [| |schema| | | | | |] eqn:Ei; try discriminate Hk.
    eapply indexes_iff, (index_schema_spec names id schema d Ei Ep); [naive_solver|]. unfold space_of. by rewrite Ek, Ep. }
  all: unfold parent_present; rewrite Ep; cbn [parent_id];
    first [apply (indexes_iff (is_Some (ds !! Id.Schema id))); [tauto|]; apply index_object_spec
          |eapply indexes_iff; [|apply index_declaration_spec]; [tauto|..]];
    unfold space_of, opened; rewrite ?Ek, ?Ep; try done; try (intros ? E; by rewrite E in Hk); try (intros ? [E|E]; [by rewrite E in Hk|done]).
Qed.

(** The dictionaries after the descriptors [l]. *)
Definition unique (l : list CatalogDescriptor) : Prop :=
  forall d1 d2 sp c, d1 ∈ l -> d2 ∈ l -> named sp c d1 -> named sp c d2 -> d1 = d2.
Record indexed (l : list CatalogDescriptor) (names : Names) : Prop := {
  ix_find : forall sp c, match find_name names sp c with
    | Some id => exists d, d ∈ l /\ named sp c d /\ d_id d = id
    | None => forall d, d ∈ l -> ~ named sp c d
    end;
  ix_objects : forall schema, is_Some (object_names names !! schema) <-> exists d, d ∈ l /\ opened d schema;
  ix_unique : unique l
}.

Lemma indexed_start : indexed [] {| schema_names := ∅; object_names := ∅; declaration_names := ∅ |}.
Proof.
  split.
  - intros [|schema|owner] c; cbn; rewrite lookup_empty; cbn; by intros d []%elem_of_nil.
  - intros schema. cbn. rewrite lookup_empty. split; [by intros []%is_Some_None|]. by intros (d & []%elem_of_nil & _).
  - by intros d1 d2 sp c []%elem_of_nil.
Qed.

Lemma indexed_step dn d names names' : indexed dn names -> name_free names d -> name_added names names' d -> objects_added names names' d ->
  indexed (dn ++ [d]) names'.
Proof.
  intros [IF IO IU] Hf Ha Ho. unfold objects_added in Ho.
  assert (Hfree : forall sp c x, named sp c d -> x ∈ dn -> ~ named sp c x).
  { intros sp c x [Hsp Hc] Hx Hn. unfold name_free in Hf. rewrite Hsp, Hc in Hf. specialize (IF sp c). rewrite Hf in IF. by apply (IF x). }
  split.
  - intros sp c. rewrite Ha. case_decide as Hn; [exists d; split; [apply elem_of_app; right; by left|done]|]. specialize (IF sp c).
    destruct (find_name names sp c).
    + destruct IF as (x & Hx & ?). exists x. split; [apply elem_of_app; by left|done].
    + intros x [Hx| ->%list_elem_of_singleton]%elem_of_app; [by apply IF|done].
  - intros schema. rewrite Ho, IO. split.
    + intros [(x & Hx & ?)|?]; [exists x|exists d]; (split; [apply elem_of_app|done]); [by left|right; by left].
    + intros (x & [Hx| ->%list_elem_of_singleton]%elem_of_app & ?); [left; eauto|by right].
  - intros d1 d2 sp c [H1| ->%list_elem_of_singleton]%elem_of_app [H2| ->%list_elem_of_singleton]%elem_of_app N1 N2; [by eapply IU| | |done].
    + by destruct (Hfree sp c d1 N2 H1).
    + by destruct (Hfree sp c d2 N1 H2).
Qed.

Lemma index_all_spec l dn names : Forall (fun d => d_validate d = Ok tt) l -> NoDup (dn ++ l) -> indexed dn names ->
  match index_all self l names with
  | Ok names' => Forall placed l /\ indexed (dn ++ l) names'
  | Err (Fails _) => ~ (Forall placed l /\ unique (dn ++ l))
  | Err (Panic _) => False
  end.
Proof.
  revert dn names. induction l as [|d l IH]; intros dn names Hv Hn Hi; cbn [index_all].
  { split; [constructor|]. by rewrite app_nil_r. }
  apply Forall_cons in Hv as [Hd Hv]. pose proof (index_descriptor_spec names d Hd) as HD. rewrite (cons_middle d dn l), app_assoc in *.
  destruct (index_descriptor self names d) as [names'|[?|e]]; cbn in HD |- *; [|done|].
  - destruct HD as ((Hp & Hf) & Ha & Ho). specialize (IH _ _ Hv Hn (indexed_step _ _ _ _ Hi Hf Ha Ho)).
    destruct (index_all self l names') as [?|[?|?]]; [|done|].
    + destruct IH. split; [by constructor|done].
    + intros [[_ HF]%Forall_cons ?]. by apply IH.
  - intros [[Hp _]%Forall_cons HU]. apply HD. split; [done|]. unfold name_free. destruct (space_of d) as [sp|] eqn:Esp; [|done].
    pose proof (ix_find _ _ Hi sp (name_canonical (d_name d))) as HF. destruct (find_name names sp _) as [id|]; [|done].
    destruct HF as (x & Hx & Hnx & _). apply NoDup_app in Hn as (Hn & _). apply NoDup_app in Hn as (_ & Hn & _). destruct (Hn x Hx).
    apply list_elem_of_singleton. apply (HU x d sp (name_canonical (d_name d))); rewrite ?elem_of_app, ?list_elem_of_singleton; auto. by split.
Qed.
End Index.

(** ** The root *)

Lemma keyed_valid_kind ds id d : keyed ds -> valid_all ds -> ds !! id = Some d -> d_id d = id /\ d_kind d = Id.kind id /\ valid_parent (d_kind d) (d_parent d) = true.
Proof. intros Hk Hv E. pose proof (Hk _ _ E) as Hi. cbn in Hi. destruct (validate_kinds d (Hv _ _ E)) as (? & _ & ?). subst id. done. Qed.

Lemma values_NoDup ds : keyed ds -> NoDup (values ds).
Proof. intros Hk. eapply NoDup_fmap_1. change (d_id <$> values ds) with (map d_id (values ds)). rewrite keyed_values by done. apply ascending_ids_NoDup, keys_ascending. Qed.

Lemma count_kind_one ds id x : keyed ds -> ds !! id = Some x ->
  count_kind (d_kind x) ds = 1 <-> forall id' d, ds !! id' = Some d -> d_kind d = d_kind x -> id' = id.
Proof.
  intros Hk Hx. unfold count_kind. set (F := List.filter _ _).
  assert (HF : forall d, d ∈ F <-> ds !! d_id d = Some d /\ d_kind d = d_kind x).
  { intros d. unfold F. by rewrite list_elem_of_In, filter_In, <- list_elem_of_In, keyed_elem, bool_decide_eq_true. }
  assert (HN : NoDup F) by (unfold F; apply NoDup_ListNoDup, List.NoDup_filter, NoDup_ListNoDup, values_NoDup, Hk).
  pose proof (Hk _ _ Hx) as Hi. cbn in Hi. assert (Hin : x ∈ F) by (apply HF; by rewrite Hi). unfold zlen. split.
  - intros Hl id' d Hd Hkd. pose proof (Hk _ _ Hd) as Hi'. cbn in Hi'. assert (Hd' : d ∈ F) by (apply HF; by rewrite Hi').
    destruct F as [|a [|b F]]; cbn in Hl; try lia. apply list_elem_of_singleton in Hin, Hd'. by subst.
  - intros HA. destruct F as [|a [|b F]]; [by apply elem_of_nil in Hin|done|]. exfalso.
    assert (Hall : forall d, d ∈ a :: b :: F -> d = x).
    { intros d [Hd Hkd]%HF. pose proof (HA _ _ Hd Hkd) as E. rewrite E in Hd. congruence. }
    apply NoDup_cons in HN as [HN _]. apply HN. rewrite (Hall a) by (by left). rewrite <- (Hall b) by (right; by left). by left.
Qed.

Record roots_ok (catalog_id root_id : Z) (ds : Descriptors) : Prop := {
  ro_catalog : is_Some (ds !! Id.Catalog catalog_id);
  ro_root : exists root, ds !! Id.Directory root_id = Some root /\ d_parent root = Parent.Catalog catalog_id;
  ro_one_catalog : forall id d, ds !! id = Some d -> d_kind d = Kind.Catalog -> id = Id.Catalog catalog_id;
  ro_one_root : forall id d, ds !! id = Some d -> d_kind d = Kind.Directory -> id = Id.Directory root_id
}.

Lemma validate_synthetic d : d_validate d = Ok tt -> d_kind d = Kind.Directory -> is_synthetic_root (d_name d) = true.
Proof.
  unfold d_validate. intros Hv Hk. destruct (_ || _); [done|]. destruct (negb _); [done|]. rewrite decide_True in Hv by done.
  destruct (is_synthetic_root _); [done|]. done.
Qed.

Lemma validate_roots_spec self : keyed (b_descriptors self) -> valid_all (b_descriptors self) ->
  match validate_roots self with
  | Ok _ => roots_ok (b_catalog_id self) (b_root_id self) (b_descriptors self)
  | Err _ => ~ roots_ok (b_catalog_id self) (b_root_id self) (b_descriptors self)
  end.
Proof.
  destruct self as [g c r ds]. unfold validate_roots. cbn [b_descriptors b_catalog_id b_root_id]. intros Hk Hv.
  assert (HC : forall x, ds !! Id.Catalog c = Some x -> count_kind Kind.Catalog ds = 1 <-> forall id d, ds !! id = Some d -> d_kind d = Kind.Catalog -> id = Id.Catalog c).
  { intros x Hx. destruct (keyed_valid_kind _ _ _ Hk Hv Hx) as (_ & Ek & _). cbn in Ek. rewrite <- Ek. by apply count_kind_one. }
  assert (HR : forall x, ds !! Id.Directory r = Some x -> count_kind Kind.Directory ds = 1 <-> forall id d, ds !! id = Some d -> d_kind d = Kind.Directory -> id = Id.Directory r).
  { intros x Hx. destruct (keyed_valid_kind _ _ _ Hk Hv Hx) as (_ & Ek & _). cbn in Ek. rewrite <- Ek. by apply count_kind_one. }
  destruct (negb (_ =? 1) || negb (_ =? 1)) eqn:E1.
  { intros [[x Hx] (y & Hy & _) H1 H2]. apply (HC _ Hx) in H1. apply (HR _ Hy) in H2. by rewrite H1, H2 in E1. }
  apply orb_false_iff in E1 as [E1 E2]. apply negb_false_iff, Z.eqb_eq in E1, E2.
  destruct (ds !! Id.Catalog c) as [x|] eqn:Hx; cbn [ok_or bind]; [|by intros [[? ?] _ _ _]; congruence].
  destruct (ds !! Id.Directory r) as [y|] eqn:Hy; cbn [ok_or bind]; [|by intros [_ (? & ? & _) _ _]; congruence].
  destruct (keyed_valid_kind _ _ _ Hk Hv Hx) as (_ & Kx & Px). destruct (keyed_valid_kind _ _ _ Hk Hv Hy) as (_ & Ky & _). cbn in Kx, Ky.
  rewrite (validate_synthetic y (Hv _ _ Hy) Ky). rewrite Kx in Px. destruct (d_parent x) eqn:Ep; try done.
  rewrite bool_decide_eq_true_2 by done. cbn [negb orb]. rewrite orb_false_r. case_bool_decide as Hp; cbn [negb].
  - split; [eauto|eauto|by apply (HC x)|by apply (HR y)].
  - intros [_ (z & Hz & ?) _ _]. congruence.
Qed.

Lemma validate_references_spec ds l :
  match validate_references ds l with Ok _ => Forall (references_ok ds) l | Err _ => ~ Forall (references_ok ds) l end.
Proof.
  induction l as [|d l IH]; cbn [validate_references]; [constructor|].
  assert (HD : match (match d_payload d with Payload.Graph (Some graph_type) => validate_graph_type_reference ds d graph_type | _ => Ok tt end) with
    | Ok _ => references_ok ds d | Err _ => ~ references_ok ds d end).
  { unfold references_ok, validate_graph_type_reference. destruct (d_payload d) as [| | |[t|]| | | | |]; try done.
    destruct (ds !! Id.GraphType t) as [x|]; cbn; [|naive_solver]. case_bool_decide as E; cbn; [exists x; naive_solver|]. naive_solver. }
  destruct (match d_payload d with Payload.Graph (Some _) => _ | _ => _ end); cbn [bind].
  - destruct (validate_references ds l); [by constructor|]. intros [_ ?]%Forall_cons. done.
  - intros [? _]%Forall_cons. done.
Qed.

(** ** The snapshot *)

Definition s_names (s : CatalogSnapshot) : Names :=
  {| schema_names := s_schema_names s; object_names := s_object_names s; declaration_names := s_declaration_names s |}.

(** What a snapshot of the descriptors [ds] answers. *)
Record snapshot_of (generation catalog_id root_id : Z) (ds : Descriptors) (s : CatalogSnapshot) : Prop := {
  so_generation : s_generation s = generation;
  so_catalog_id : s_catalog_id s = catalog_id;
  so_root_id : s_root_id s = root_id;
  so_descriptors : s_descriptors s = ds;
  so_schema : forall name d, s_schema s name = Some d <-> ds !! d_id d = Some d /\ named Schemas (name_canonical name) d;
  so_schema_object : forall schema name d, s_schema_object s schema name = Some d <-> ds !! d_id d = Some d /\ named (Objects schema) (name_canonical name) d;
  so_declaration : forall owner name d, s_declaration s owner name = Some d <-> ds !! d_id d = Some d /\ named (Declarations owner) (name_canonical name) d;
  so_schemas : forall d, d ∈ s_schemas s <-> ds !! d_id d = Some d /\ space_of d = Some Schemas;
  so_schema_objects : forall schema, match s_schema_objects s schema with
    | Some l => is_Some (ds !! Id.Schema schema) /\ forall d, d ∈ l <-> ds !! d_id d = Some d /\ space_of d = Some (Objects schema)
    | None => ds !! Id.Schema schema = None
    end;
  so_declarations : forall owner d, d ∈ s_declarations s owner <-> ds !! d_id d = Some d /\ space_of d = Some (Declarations owner)
}.

Lemma elem_of_name_values {V} (m : NameMap V) v : v ∈ name_values m <-> exists c, m !! c = Some v.
Proof.
  unfold name_values. rewrite list_elem_of_fmap. setoid_rewrite sort_with_perm. split.
  - intros ([c w] & -> & Hc%elem_of_map_to_list). eauto.
  - intros [c Hc%elem_of_map_to_list]. by exists (c, v).
Qed.

Section Found.
Variable ds : Descriptors.
Hypothesis Hk : keyed ds.
Variable names : Names.
Hypothesis Hi : indexed (values ds) names.

Lemma found sp c d : (id ← find_name names sp c; ds !! id) = Some d <-> ds !! d_id d = Some d /\ named sp c d.
Proof.
  pose proof (ix_find _ _ Hi sp c) as HF. destruct (find_name names sp c) as [id|]; cbn.
  - destruct HF as (x & Hx & Hn & <-). assert (Hx' := Hx). apply keyed_elem in Hx'; [|done]. rewrite Hx'. split; [by intros [= <-]|].
    intros [Hd Hnd]. f_equal. apply (ix_unique _ _ Hi x d sp c); try done. by apply keyed_elem.
  - split; [done|]. intros [Hd Hn]. destruct (HF d); [by apply keyed_elem|done].
Qed.

Lemma found_all sp d : (exists c, (id ← find_name names sp c; ds !! id) = Some d) <-> ds !! d_id d = Some d /\ space_of d = Some sp.
Proof.
  setoid_rewrite found. split; [by intros (c & ? & ? & _)|]. intros [? ?]. by exists (name_canonical (d_name d)).
Qed.

Lemma elem_of_listed (m : NameMap CatalogObjectId) d : d ∈ omap (fun id => ds !! id) (name_values m) <-> exists c, (id ← m !! c; ds !! id) = Some d.
Proof.
  rewrite list_elem_of_omap. setoid_rewrite elem_of_name_values. split.
  - intros (id & [c Hc] & Hd). exists c. by rewrite Hc.
  - intros (c & (id & Hc & Hd)%bind_Some). eauto.
Qed.

Lemma snapshot_of_indexed generation catalog_id root_id : valid_all ds -> (forall id d, ds !! id = Some d -> parent_present ds d) ->
  snapshot_of generation catalog_id root_id ds
    {| s_generation := generation; s_catalog_id := catalog_id; s_root_id := root_id; s_descriptors := ds; s_schema_names := schema_names names;
       s_object_names := object_names names; s_declaration_names := declaration_names names |}.
Proof.
  intros Hv Hp. split; try done; unfold s_schema, s_schema_object, s_declaration, s_schemas, s_schema_objects, s_declarations, s_descriptor; cbn.
  - intros name d. rewrite <- found. cbn. by destruct (schema_names names !! _).
  - intros schema name d. rewrite <- found. cbn. by destruct (object_names names !! _).
  - intros owner name d. rewrite <- found. cbn. by destruct (declaration_names names !! _).
  - intros d. rewrite <- found_all. cbn. rewrite list_elem_of_omap. setoid_rewrite elem_of_name_values. split.
    + intros (id & [c Hc] & Hd). exists c. by rewrite Hc.
    + intros (c & Hc). destruct (schema_names names !! c) as [id|] eqn:E; [|done]. eauto.
  - intros schema. pose proof (ix_objects _ _ Hi schema) as HO. destruct (object_names names !! schema) as [m|] eqn:Em; cbn.
    + split.
      * destruct (proj1 HO ltac:(eauto)) as (d & Hd & Hop). apply keyed_elem in Hd; [|done]. destruct Hop as [E|E]; [rewrite <- E; eauto|].
        specialize (Hp _ _ Hd). unfold parent_present in Hp. by rewrite E in Hp.
      * intros d. rewrite <- found_all, elem_of_listed. cbn. by rewrite Em.
    + apply eq_None_not_Some. intros [d Hd]. apply (is_Some_None (A := NameMap CatalogObjectId)), HO. exists d. pose proof (Hk _ _ Hd) as E. cbn in E.
      split; [apply keyed_elem; [done|by rewrite E]|by left].
  - intros owner d. rewrite <- found_all. cbn. destruct (declaration_names names !! owner) as [m|]; cbn; [apply elem_of_listed|].
    split; [by intros []%elem_of_nil|by intros [? ?]].
Qed.
End Found.

(** ** Building *)

Lemma well_formed_split generation catalog_id root_id ds : keyed ds -> valid_all ds ->
  well_formed generation catalog_id root_id ds <->
  roots_ok catalog_id root_id ds /\
  (Forall (placed {| b_generation := generation; b_catalog_id := catalog_id; b_root_id := root_id; b_descriptors := ds |}) (values ds) /\ unique (values ds)) /\
  Forall (references_ok ds) (values ds) /\ (forall id d, ds !! id = Some d -> declaration_ok ds d) /\ acyclic ds.
Proof.
  intros Hk Hv. assert (HF : forall P : CatalogDescriptor -> Prop, Forall P (values ds) <-> forall id d, ds !! id = Some d -> P d).
  { intros P. rewrite Forall_forall. setoid_rewrite elem_of_values. naive_solver. }
  rewrite !HF. split.
  - intros [W1 W2 W3 W4 W5 W6 W7 W8 W9 W10]. split; [|split; [split|done]].
    + split; try done. destruct W2 as [root Hr]. exists root. split; [done|]. pose proof (W6 _ _ Hr) as Hp. destruct (keyed_valid_kind _ _ _ Hk Hv Hr) as (_ & Ek & Hvp).
      cbn in Ek. rewrite Ek in Hvp. unfold parent_present in Hp. destruct (d_parent root); try done. destruct Hp as [x Hx]. cbn in Hx.
      destruct (keyed_valid_kind _ _ _ Hk Hv Hx) as (_ & Ekx & _). pose proof (W3 _ _ Hx Ekx). naive_solver.
    + intros id d Hd. split; [by eapply W5|]. pose proof (W6 _ _ Hd) as Hp. destruct (keyed_valid_kind _ _ _ Hk Hv Hd) as (_ & _ & Hvp).
      destruct (d_kind d); try done. unfold parent_present in Hp. destruct (d_parent d); try done. destruct Hp as [x Hx]. cbn in Hx.
      destruct (keyed_valid_kind _ _ _ Hk Hv Hx) as (_ & Ekx & _). pose proof (W4 _ _ Hx Ekx). naive_solver.
    + intros d1 d2 sp c H1%keyed_elem H2%keyed_elem N1 N2; [|done..]. pose proof (W7 _ _ _ _ _ _ H1 H2 N1 N2) as E. rewrite E in H1. congruence.
  - intros ([R1 (root & R2 & R2') R3 R4] & [HP HU] & H8 & H9 & H10). split; try done; [intros id d Hd; exact (proj1 (HP _ _ Hd))| |].
    + intros id d Hd. destruct (HP _ _ Hd) as [_ Hpl]. destruct (keyed_valid_kind _ _ _ Hk Hv Hd) as (_ & _ & Hvp). unfold parent_present in *.
      destruct (d_kind d) eqn:Ek; try done.
      * by destruct (d_parent d).
      * pose proof (R4 _ _ Hd Ek) as ->. replace d with root by congruence. by rewrite R2'.
      * rewrite Hpl. cbn. eauto.
    + intros id1 id2 d1 d2 sp c H1 H2 N1 N2. pose proof (Hk _ _ H1) as <-. pose proof (Hk _ _ H2) as <-. f_equal. cbn in *.
      apply (HU d1 d2 sp c); try done; apply elem_of_values; eauto.
Qed.

Lemma build_spec self : keyed (b_descriptors self) -> valid_all (b_descriptors self) ->
  match build self with
  | Ok s => well_formed (b_generation self) (b_catalog_id self) (b_root_id self) (b_descriptors self) /\
            snapshot_of (b_generation self) (b_catalog_id self) (b_root_id self) (b_descriptors self) s
  | Err (Fails _) => ~ well_formed (b_generation self) (b_catalog_id self) (b_root_id self) (b_descriptors self)
  | Err (Panic _) => False
  end.
Proof.
  intros Hk Hv. pose proof (well_formed_split (b_generation self) (b_catalog_id self) (b_root_id self) _ Hk Hv) as HW. unfold build. pose proof (validate_roots_spec self Hk Hv) as H1.
  destruct (validate_roots self); cbn [lift map_err bind]; [|tauto].
  pose proof (index_all_spec self (values (b_descriptors self)) [] {| schema_names := ∅; object_names := ∅; declaration_names := ∅ |}) as H2.
  specialize (H2 ltac:(apply Forall_forall; intros d [id Hd]%elem_of_values; by apply (Hv id)) (values_NoDup _ Hk) indexed_start).
  destruct self as [g c r ds]. cbn [b_generation b_catalog_id b_root_id b_descriptors] in *.
  destruct (index_all _ _ _) as [names|[?|?]]; cbn [bind]; [|done|tauto].
  pose proof (validate_references_spec ds (values ds)) as H3. destruct (validate_references _ _); cbn [lift map_err bind]; [|tauto].
  pose proof (dependencies_validate_spec ds Hk Hv) as H4. destruct (dependencies_validate ds) as [[]|[?|?]]; cbn [bind]; [|done|tauto].
  destruct H2 as [HP HI]. assert (HU := ix_unique _ _ HI). assert (W : well_formed g c r ds) by (apply HW; tauto). split; [exact W|].
  apply snapshot_of_indexed; try done. intros id d. apply (wf_parent _ _ _ _ W).
Qed.

(** ** From a list of descriptors *)

Definition valid_list : list CatalogDescriptor -> Prop := Forall (fun d => d_validate d = Ok tt).
Definition insert_each (m : Descriptors) (l : list CatalogDescriptor) : Descriptors := foldl (fun m d => <[d_id d := d]> m) m l.
Definition fresh_in (m : Descriptors) (l : list CatalogDescriptor) : Prop := NoDup (map d_id l) /\ forall d, d ∈ l -> m !! d_id d = None.

Lemma fresh_in_cons m d l : fresh_in m (d :: l) <-> m !! d_id d = None /\ fresh_in (<[d_id d := d]> m) l.
Proof.
  unfold fresh_in. cbn [map]. rewrite NoDup_cons. split.
  - intros [[Hd Hn] Hf]. split; [apply Hf; by left|]. split; [done|]. intros x Hx. rewrite lookup_insert_ne; [apply Hf; by right|].
    intros E. apply Hd. rewrite E. by apply list_elem_of_fmap_2.
  - intros (Hd & Hn & Hf). assert (HN : d_id d ∉ map d_id l).
    { intros (x & E & Hx)%list_elem_of_fmap. specialize (Hf x Hx). by rewrite <- E, lookup_insert_eq in Hf. }
    split; [done|]. intros x [->|Hx]%elem_of_cons; [done|]. specialize (Hf x Hx). rewrite lookup_insert_ne in Hf; [done|].
    intros E. apply HN. rewrite E. by apply list_elem_of_fmap_2.
Qed.

Lemma builder_insert_spec d self :
  match builder_insert d self with
  | Ok self' => (d_validate d = Ok tt /\ b_descriptors self !! d_id d = None) /\
      self' = {| b_generation := b_generation self; b_catalog_id := b_catalog_id self; b_root_id := b_root_id self;
                 b_descriptors := <[d_id d := d]> (b_descriptors self) |}
  | Err _ => ~ (d_validate d = Ok tt /\ b_descriptors self !! d_id d = None)
  end.
Proof. unfold builder_insert. destruct (d_validate d) as [[]|]; cbn; [|naive_solver]. by destruct (b_descriptors self !! d_id d); [intros [? ?]|]. Qed.

Lemma insert_all_spec l self :
  match insert_all l self with
  | Ok self' => (valid_list l /\ fresh_in (b_descriptors self) l) /\
      self' = {| b_generation := b_generation self; b_catalog_id := b_catalog_id self; b_root_id := b_root_id self;
                 b_descriptors := insert_each (b_descriptors self) l |}
  | Err _ => ~ (valid_list l /\ fresh_in (b_descriptors self) l)
  end.
Proof.
  revert self. induction l as [|d l IH]; intros self; cbn [insert_all].
  { split; [|by destruct self]. split; [constructor|]. split; [constructor|]. by intros d []%elem_of_nil. }
  assert (HV : valid_list (d :: l) <-> d_validate d = Ok tt /\ valid_list l) by (unfold valid_list; by rewrite Forall_cons).
  pose proof (fresh_in_cons (b_descriptors self) d l) as HF. pose proof (builder_insert_spec d self) as HB.
  destruct (builder_insert d self) as [self'|]; cbn [bind]; [|tauto]. destruct HB as [HB ->]. specialize (IH {| b_generation := b_generation self;
    b_catalog_id := b_catalog_id self; b_root_id := b_root_id self; b_descriptors := <[d_id d := d]> (b_descriptors self) |}). cbn in IH.
  destruct (insert_all l _); [|tauto]. destruct IH as [? ->]. split; [tauto|done].
Qed.

Lemma insert_each_collect l : insert_each ∅ l = collect l.
Proof. done. Qed.

Lemma valid_collect l : NoDup (map d_id l) -> valid_list l <-> valid_all (collect l).
Proof.
  intros Hn. unfold valid_list. rewrite Forall_forall. split.
  - intros HF id d [Hd _]%collect_Some; [|done]. by apply HF.
  - intros HA d Hd. apply (HA (d_id d)). by apply collect_Some.
Qed.

Lemma builder_new_spec generation catalog root :
  match builder_new generation catalog root with
  | Ok self => exists c r, d_id catalog = Id.Catalog c /\ d_id root = Id.Directory r /\ valid_list [catalog; root] /\ d_parent root = Parent.Catalog c /\
      self = {| b_generation := generation; b_catalog_id := c; b_root_id := r; b_descriptors := insert_each ∅ [catalog; root] |}
  | Err _ => ~ exists c r, d_id catalog = Id.Catalog c /\ d_id root = Id.Directory r /\ valid_list [catalog; root] /\ d_parent root = Parent.Catalog c
  end.
Proof.
  unfold builder_new, builder_insert. assert (HV : valid_list [catalog; root] <-> d_validate catalog = Ok tt /\ d_validate root = Ok tt).
  { unfold valid_list. rewrite !Forall_cons, Forall_nil. tauto. }
  destruct (d_validate catalog) as [[]|]; cbn; [|naive_solver]. destruct (d_validate root) as [[]|]; cbn; [|naive_solver].
  destruct (d_id catalog) as [c| | | | | | | |] eqn:Ec; try naive_solver. destruct (d_id root) as [|r| | | | | | |] eqn:Er; try naive_solver.
  case_bool_decide as Hp; cbn; [|naive_solver]. rewrite lookup_empty. cbn. rewrite lookup_insert_ne, lookup_empty by done.
  exists c, r. rewrite ?Ec, ?Er. naive_solver.
Qed.

Definition assembles (generation c r : Z) (l : list CatalogDescriptor) : Prop :=
  NoDup (map d_id l) /\ valid_list l /\ well_formed generation c r (collect l).

Lemma assembles_root generation c r catalog root l : assembles generation c r (catalog :: root :: l) -> d_id root = Id.Directory r ->
  d_parent root = Parent.Catalog c.
Proof.
  intros (Hn & Hv & Hw) Hid. apply well_formed_split in Hw as [[_ (x & Hx & Hp) _ _] _]; [|by apply collect_keyed|by apply valid_collect].
  apply collect_Some in Hx as [Hx Hix]; [|done]. assert (x = root) as ->; [|done]. rewrite <- Hid in Hix.
  assert (E1 : collect (catalog :: root :: l) !! d_id root = Some x) by (by apply collect_Some).
  assert (E2 : collect (catalog :: root :: l) !! d_id root = Some root) by (apply collect_Some; [done|split; [right; by left|done]]). congruence.
Qed.

(** The steps that a transaction and the logical records share. *)
Definition assemble (generation : Z) (catalog root : CatalogDescriptor) (l : list CatalogDescriptor) : outcome CatalogError CatalogSnapshot :=
  let? builder := lift (builder_new generation catalog root) in
  let? builder := lift (insert_all l builder) in
  build builder.

Lemma assemble_spec generation catalog root l :
  match assemble generation catalog root l with
  | Ok s => exists c r, (d_id catalog = Id.Catalog c /\ d_id root = Id.Directory r /\ assembles generation c r (catalog :: root :: l)) /\
      snapshot_of generation c r (collect (catalog :: root :: l)) s
  | Err (Fails _) => forall c r, d_id catalog = Id.Catalog c -> d_id root = Id.Directory r -> ~ assembles generation c r (catalog :: root :: l)
  | Err (Panic _) => False
  end.
Proof.
  unfold assemble. set (L := catalog :: root :: l).
  assert (HV : valid_list L <-> valid_list [catalog; root] /\ valid_list l) by (unfold valid_list, L; rewrite !Forall_cons, Forall_nil; tauto).
  pose proof (builder_new_spec generation catalog root) as HB. destruct (builder_new _ _ _) as [b|e]; cbn [lift map_err bind].
  2: { intros c r Hc Hr HA. apply HB. exists c, r. pose proof (assembles_root _ _ _ _ _ _ HA Hr). destruct HA as (_ & ? & _). tauto. }
  destruct HB as (c & r & Hc & Hr & HV2 & Hp & ->). pose proof (insert_all_spec l {| b_generation := generation; b_catalog_id := c; b_root_id := r;
    b_descriptors := insert_each ∅ [catalog; root] |}) as HI. cbn [b_generation b_catalog_id b_root_id b_descriptors] in HI.
  assert (HF : fresh_in (insert_each ∅ [catalog; root]) l <-> NoDup (map d_id L)).
  { transitivity (fresh_in ∅ L).
    - unfold L. rewrite !fresh_in_cons, lookup_empty. cbn. rewrite lookup_insert_ne, lookup_empty by (rewrite Hc, Hr; done). tauto.
    - unfold fresh_in. split; [tauto|]. intros Hn. split; [done|]. intros d _. apply lookup_empty. }
  destruct (insert_all l _) as [b|e]; cbn [lift map_err bind].
  2: { intros c' r' _ _ (Hn & Hv & _). tauto. }
  destruct HI as [[HVl HFl] ->]. apply HF in HFl. assert (HVL : valid_list L) by tauto.
  change (insert_each (insert_each ∅ [catalog; root]) l) with (collect L).
  pose proof (build_spec {| b_generation := generation; b_catalog_id := c; b_root_id := r; b_descriptors := collect L |}) as HS.
  cbn [b_generation b_catalog_id b_root_id b_descriptors] in HS. specialize (HS (collect_keyed _ HFl) (proj1 (valid_collect _ HFl) HVL)).
  destruct (build _) as [s|[?|?]]; [|done|].
  - destruct HS as [HW HS]. exists c, r. split; [|done]. split; [done|]. split; [done|]. by split.
  - intros c' r' Hc' Hr' (_ & _ & HW). rewrite Hc in Hc'. rewrite Hr in Hr'. injection Hc' as <-. injection Hr' as <-. done.
Qed.
