(* ===== verification/CatalogRecords.v ===== *)
(** Transactions and logical records of the catalog (transaction.rs, logical.rs).

    A transaction builds exactly the descriptors of its draft, and does so
    exactly when they make a catalog.  The logical records of a catalog
    reconstruct it under the same condition, with every identity below the high
    water mark of its kind. *)

From stdpp Require Import relations sorting.
From S2P Require Import Prelude Errors Wire Value ValueCodec Ordered Schema Catalog CatalogSnapshot CatalogOrder CatalogBuild.
From coqutil Require Import Byte.

(** ** Transactions *)

Lemma collect_ext l m : keyed m -> NoDup (map d_id l) -> (forall d, d ∈ l <-> m !! d_id d = Some d) -> collect l = m.
Proof.
  intros Hk Hn HE. apply map_eq. intros id. apply option_eq. intros d. rewrite collect_Some by done. rewrite HE. split; [by intros [? <-]|].
  intros E. pose proof (Hk _ _ E) as Hd. cbn in Hd. by rewrite Hd.
Qed.

Lemma keyed_delete m id : keyed m -> keyed (delete id m).
Proof. intros Hk i d E. apply lookup_delete_Some in E as [_ E]. by apply Hk. Qed.
Lemma keyed_insert m d : keyed m -> keyed (<[d_id d := d]> m).
Proof. intros Hk i x E. apply lookup_insert_Some in E as [[<- <-]|[_ E]]; [done|by apply Hk]. Qed.

Lemma without_roots m catalog root ic ir : keyed m -> ic <> ir -> m !! ic = Some catalog -> m !! ir = Some root ->
  let l := catalog :: root :: values (delete ir (delete ic m)) in NoDup (map d_id l) /\ collect l = m.
Proof.
  intros Hk Hne Hc Hr. cbn zeta. set (rest := delete ir (delete ic m)). assert (Hkr : keyed rest) by (by do 2 apply keyed_delete).
  pose proof (Hk _ _ Hc) as Ec. pose proof (Hk _ _ Hr) as Er. cbn in Ec, Er.
  assert (Hn : NoDup (map d_id (catalog :: root :: values rest))).
  { cbn. rewrite keyed_values by done. rewrite Ec, Er, !NoDup_cons, elem_of_cons, !elem_of_keys. unfold rest.
    rewrite lookup_delete_eq, lookup_delete_ne, lookup_delete_eq by done. split; [intros [?|[]%is_Some_None]; done|].
    split; [by intros []%is_Some_None|]. apply ascending_ids_NoDup, keys_ascending. }
  split; [done|]. apply collect_ext; [done..|]. intros d. rewrite !elem_of_cons, keyed_elem by done. unfold rest. rewrite !lookup_delete_Some. split.
  - intros [->|[->|(_ & _ & ?)]]; [by rewrite Ec|by rewrite Er|done].
  - intros Hd. destruct (decide (d_id d = ic)) as [E|N1]; [left; rewrite E in Hd; congruence|].
    destruct (decide (d_id d = ir)) as [E|N2]; [right; left; rewrite E in Hd; congruence|]. right. right. auto using not_eq_sym.
Qed.

Lemma transaction_build_spec self : keyed (t_descriptors self) ->
  match transaction_build self with
  | Ok s => (valid_all (t_descriptors self) /\ well_formed (t_generation self) (t_catalog_id self) (t_root_id self) (t_descriptors self)) /\
      snapshot_of (t_generation self) (t_catalog_id self) (t_root_id self) (t_descriptors self) s
  | Err (Fails _) => ~ (valid_all (t_descriptors self) /\ well_formed (t_generation self) (t_catalog_id self) (t_root_id self) (t_descriptors self))
  | Err (Panic _) => False
  end.
Proof.
  destruct self as [g c r m]. unfold transaction_build. cbn [t_generation t_catalog_id t_root_id t_descriptors]. intros Hk.
  destruct (m !! Id.Catalog c) as [catalog|] eqn:Ec; cbn [ok_or lift map_err bind]; [|intros [_ [[? ?] _ _ _ _ _ _ _ _ _]]; congruence].
  rewrite lookup_delete_ne by done.
  destruct (m !! Id.Directory r) as [root|] eqn:Er; cbn [ok_or lift map_err bind]; [|intros [_ [_ [? ?] _ _ _ _ _ _ _ _]]; congruence].
  destruct (without_roots m catalog root (Id.Catalog c) (Id.Directory r) Hk ltac:(done) Ec Er) as [Hn HE]. pose proof (Hk _ _ Ec) as Ic. pose proof (Hk _ _ Er) as Ir. cbn in Ic, Ir.
  pose proof (assemble_spec g catalog root (values (delete (Id.Directory r) (delete (Id.Catalog c) m)))) as HA. unfold assemble in HA.
  destruct (let? _ := _ in _) as [s|[?|?]]; [|done|].
  - destruct HA as (c' & r' & (Hc & Hr & (_ & HV & HW)) & HS). rewrite Ic in Hc. rewrite Ir in Hr. injection Hc as <-. injection Hr as <-.
    rewrite HE in *. apply valid_collect in HV; [|done]. by rewrite HE in HV.
  - intros [HV HW]. apply (HA c r Ic Ir). split; [done|]. rewrite HE. split; [|done]. apply valid_collect; [done|]. by rewrite HE.
Qed.

(** A transaction keeps its draft keyed by identity. *)
Lemma transaction_new_spec base t : keyed (s_descriptors base) -> transaction_new base = Ok t ->
  t_generation t = s_generation base + 1 /\ t_catalog_id t = s_catalog_id base /\ t_root_id t = s_root_id base /\ t_descriptors t = s_descriptors base.
Proof.
  intros Hk E. unfold transaction_new in E. destruct (generation_next (s_generation base)) as [g|] eqn:Eg; [|done]. cbn in E. injection E as <-. cbn.
  split; [|split; [done|split; [done|by apply collect_values]]]. unfold generation_next, generation_new, checked_add in Eg. repeat case_match; congruence.
Qed.

(** The operations on a draft between its creation and its build. *)
Inductive draft_op := D_insert (d : CatalogDescriptor) | D_remove (id : CatalogObjectId) | D_remove_owner (id : CatalogObjectId).
Definition draft_step (self : CatalogTransaction) (op : draft_op) : CatalogTransaction :=
  match op with
  | D_insert d => snd (transaction_insert d self)
  | D_remove id => snd (transaction_remove id self)
  | D_remove_owner id => remove_owner id self
  end.

Lemma draft_step_keyed self op : keyed (t_descriptors self) -> keyed (t_descriptors (draft_step self op)).
Proof.
  intros Hk. destruct op as [d|id|id]; cbn.
  - unfold transaction_insert. destruct (t_descriptors self !! d_id d); cbn; [done|by apply keyed_insert].
  - by apply keyed_delete.
  - intros i d [E _]%map_lookup_filter_Some. by apply Hk.
Qed.
Lemma draft_step_fields self op : t_generation (draft_step self op) = t_generation self /\
  t_catalog_id (draft_step self op) = t_catalog_id self /\ t_root_id (draft_step self op) = t_root_id self.
Proof. destruct op as [d|id|id]; cbn; [|done..]. unfold transaction_insert. by destruct (t_descriptors self !! d_id d). Qed.

Lemma draft_keyed self ops : keyed (t_descriptors self) -> keyed (t_descriptors (foldl draft_step self ops)).
Proof. revert self. induction ops as [|op ops IH]; intros self Hk; [done|]. by apply IH, draft_step_keyed. Qed.
Lemma draft_fields self ops : t_generation (foldl draft_step self ops) = t_generation self /\
  t_catalog_id (foldl draft_step self ops) = t_catalog_id self /\ t_root_id (foldl draft_step self ops) = t_root_id self.
Proof.
  revert self. induction ops as [|op ops IH]; intros self; [done|]. cbn. destruct (IH (draft_step self op)) as (-> & -> & ->). apply draft_step_fields.
Qed.

(** ** Logical records *)

Definition sorted_records (l : list CatalogDescriptor) : Prop := ordered (fun a b => Id.leb (d_id a) (d_id b)) l.

Lemma adjacent_ids_spec l : sorted_records l -> adjacent_ids l = false <-> NoDup (map d_id l).
Proof.
  unfold sorted_records, ordered. induction 1 as [|x l Hs IH Hf]; [split; [constructor|done]|]. destruct l as [|y l].
  { split; [repeat constructor; apply not_elem_of_nil|done]. }
  change (adjacent_ids (x :: y :: l)) with (bool_decide (d_id x = d_id y) || adjacent_ids (y :: l)).
  rewrite orb_false_iff, bool_decide_eq_false, IH. cbn [map]. rewrite (NoDup_cons (d_id x)). split; [|intros [Hx Hn]; split; [intros E; apply Hx; rewrite E; by left|done]].
  intros [N Hn]. split; [|done]. intros Hin. change (d_id y :: map d_id l) with (map d_id (y :: l)) in Hin. apply list_elem_of_fmap in Hin as (z & E & Hz).
  apply elem_of_cons in Hz as [->|Hz]; [done|]. apply Forall_cons in Hf as [Hxy _]. apply N, id_leb_antisym; [done|].
  apply StronglySorted_inv in Hs as [_ Hs]. rewrite Forall_forall in Hs. rewrite E. by apply Hs.
Qed.

Definition below_water (high_water : gmap CatalogObjectKind Z) (d : CatalogDescriptor) : Prop := Id.get (d_id d) <= water high_water (d_kind d).

(** The records describe a catalog. *)
Definition records_ok (self : CatalogLogicalRecords) (c r : Z) : Prop :=
  Forall (below_water (r_high_water self)) (r_descriptors self) /\ assembles (r_generation self) c r (r_descriptors self).

Lemma find_kind_in kind l d : List.find (fun d => bool_decide (d_kind d = kind)) l = Some d -> d ∈ l /\ d_kind d = kind.
Proof. intros [? ?%bool_decide_eq_true]%find_some. split; [by apply list_elem_of_In|done]. Qed.

Lemma assembles_found g c r l kind id : assembles g c r l -> (id = Id.Catalog c \/ id = Id.Directory r) -> Id.kind id = kind ->
  exists d, List.find (fun d => bool_decide (d_kind d = kind)) l = Some d /\ d_id d = id.
Proof.
  intros (Hn & Hv & HW) Hid Hkind. pose proof (collect_keyed l Hn) as Hk. apply valid_collect in Hv; [|done].
  assert (exists x, collect l !! id = Some x) as [x Hx] by (destruct Hid as [->| ->]; [apply (wf_catalog _ _ _ _ HW)|apply (wf_root _ _ _ _ HW)]).
  destruct (List.find _ l) as [d|] eqn:E.
  - exists d. split; [done|]. apply find_kind_in in E as [Hd Hdk]. assert (Hd' : collect l !! d_id d = Some d) by (by apply collect_Some).
    destruct Hid as [->| ->]; cbn in Hkind; subst kind; [by apply (wf_one_catalog _ _ _ _ HW) in Hd'|by apply (wf_one_root _ _ _ _ HW) in Hd'].
  - exfalso. destruct (keyed_valid_kind _ _ _ Hk Hv Hx) as (_ & Ek & _). apply collect_Some in Hx as [Hx _]; [|done].
    apply list_elem_of_In, (find_none _ _ E) in Hx. rewrite bool_decide_eq_true_2 in Hx; [done|congruence].
Qed.

Lemma collect_perm l1 l2 : l1 ≡ₚ l2 -> NoDup (map d_id l1) -> collect l1 = collect l2.
Proof.
  intros HP H1. assert (H2 : NoDup (map d_id l2)) by (eapply NoDup_Permutation_proper; [symmetry; apply fmap_Permutation, HP|done]).
  apply collect_ext; [by apply collect_keyed|done|]. intros d. rewrite collect_Some, HP by done. tauto.
Qed.
Lemma assembles_perm g c r l1 l2 : l1 ≡ₚ l2 -> assembles g c r l1 -> assembles g c r l2.
Proof.
  intros HP (Hn & Hv & HW). assert (H2 : NoDup (map d_id l2)) by (eapply NoDup_Permutation_proper; [symmetry; apply fmap_Permutation, HP|done]).
  split; [done|]. split; [unfold valid_list in *; by rewrite <- HP|]. by rewrite <- (collect_perm l1 l2).
Qed.

Lemma roots_first l x y : NoDup (map d_id l) -> x ∈ l -> y ∈ l -> d_id x <> d_id y ->
  x :: y :: List.filter (fun d => negb (bool_decide (d_id d = d_id x)) && negb (bool_decide (d_id d = d_id y))) l ≡ₚ l.
Proof.
  intros Hn Hx Hy Hne. assert (HI : forall a b, a ∈ l -> b ∈ l -> d_id a = d_id b -> a = b).
  { intros a b Ha Hb E. apply (collect_Some l (d_id a) a) in Hn as Hc. pose proof (proj2 Hc (conj Ha eq_refl)) as E1.
    pose proof (proj2 (collect_Some l (d_id a) b Hn) (conj Hb (eq_sym E))) as E2. congruence. }
  set (f := fun d => _). assert (HF : forall d, d ∈ List.filter f l <-> d ∈ l /\ d_id d <> d_id x /\ d_id d <> d_id y).
  { intros d. rewrite list_elem_of_In, filter_In, <- list_elem_of_In. unfold f. by rewrite andb_true_iff, !negb_true_iff, !bool_decide_eq_false. }
  apply NoDup_Permutation.
  - rewrite !NoDup_cons, elem_of_cons, !HF. split; [naive_solver|]. split; [naive_solver|].
    apply NoDup_ListNoDup, List.NoDup_filter, NoDup_ListNoDup. by eapply NoDup_fmap_1.
  - by eapply NoDup_fmap_1.
  - intros d. rewrite !elem_of_cons, HF. split; [naive_solver|]. intros Hd. destruct (decide (d_id d = d_id x)) as [E|]; [left; by apply HI|].
    destruct (decide (d_id d = d_id y)) as [E|]; [right; left; by apply HI|]. auto.
Qed.

Lemma reconstruct_spec self : sorted_records (r_descriptors self) ->
  match reconstruct self with
  | Ok s => exists c r, records_ok self c r /\ snapshot_of (r_generation self) c r (collect (r_descriptors self)) s
  | Err (Fails _) => forall c r, ~ records_ok self c r
  | Err (Panic _) => False
  end.
Proof.
  destruct self as [g hw l]. cbn [r_generation r_descriptors]. intros Hs. unfold reconstruct, records_ok. cbn [r_generation r_high_water r_descriptors].
  destruct (existsb _ _) eqn:Ew.
  { intros c r [HF _]. apply existsb_exists in Ew as (d & Hd%list_elem_of_In & Hlt%Z.ltb_lt). rewrite Forall_forall in HF. specialize (HF d Hd). unfold below_water in HF. lia. }
  assert (HB : Forall (below_water hw) l).
  { apply Forall_forall. intros d Hd. unfold below_water. destruct (Z.leb_spec (Id.get (d_id d)) (water hw (d_kind d))) as [|Hlt]; [done|].
    assert (Hin : existsb (fun d => water hw (d_kind d) <? Id.get (d_id d)) l = true); [|congruence]. apply existsb_exists. exists d.
    split; [by apply list_elem_of_In|]. by apply Z.ltb_lt. }
  destruct (List.find (fun d => bool_decide (d_kind d = Kind.Catalog)) l) as [x|] eqn:Ex; cbn [ok_or lift map_err bind].
  2: { intros c r [_ HA]. destruct (assembles_found _ _ _ _ Kind.Catalog _ HA (or_introl eq_refl) eq_refl) as (d & E & _). congruence. }
  destruct (List.find (fun d => bool_decide (d_kind d = Kind.Directory)) l) as [y|] eqn:Ey; cbn [ok_or lift map_err bind].
  2: { intros c r [_ HA]. destruct (assembles_found _ _ _ _ Kind.Directory _ HA (or_intror eq_refl) eq_refl) as (d & E & _). congruence. }
  set (rest := List.filter _ l). pose proof (assemble_spec g x y rest) as HA. unfold assemble in HA.
  pose proof (adjacent_ids_spec l Hs) as Had. destruct (find_kind_in _ _ _ Ex) as [Hx _]. destruct (find_kind_in _ _ _ Ey) as [Hy _].
  destruct (adjacent_ids l).
  { assert (HN : forall c r, ~ (Forall (below_water hw) l /\ assembles g c r l)) by (intros c r (_ & Hn & _); by apply Had in Hn).
    destruct (builder_new g x y) as [b|]; cbn [lift map_err bind]; [|done]. by destruct (insert_all rest b). }
  assert (Hn := proj1 Had eq_refl). destruct (let? _ := _ in _) as [s|[?|?]]; [|done|].
  - destruct HA as (c & r & (Hc & Hr & HA) & HS). assert (HP : x :: y :: rest ≡ₚ l) by (apply roots_first; [done..|]; by rewrite Hc, Hr).
    exists c, r. split; [split; [done|by eapply assembles_perm]|]. rewrite <- (collect_perm _ _ HP); [done|]. by destruct HA.
  - intros c r [_ HAs]. destruct (assembles_found _ _ _ _ Kind.Catalog _ HAs (or_introl eq_refl) eq_refl) as (d & E1 & Hc).
    destruct (assembles_found _ _ _ _ Kind.Directory _ HAs (or_intror eq_refl) eq_refl) as (d' & E2 & Hr).
    assert (d = x) as -> by congruence. assert (d' = y) as -> by congruence. apply (HA c r Hc Hr). eapply assembles_perm; [|done].
    symmetry. apply roots_first; [done..|]. by rewrite Hc, Hr.
Qed.
