(* ===== verification/CatalogChange.v ===== *)
(** Catalog deltas: the changes from one revision to the next (codec.rs).

    [CatalogDelta::between] orders the changes greedily; between two catalogs it
    never gets stuck, because the requirements of a catalog have no cycle.
    [CatalogDelta::apply] accepts what it orders, when the new records evolve
    from the old ones, and accepts nothing that does not evolve from them. *)

From stdpp Require Import relations sorting.
From S2P Require Import Prelude Errors Wire Value ValueCodec Ordered Schema Catalog CatalogSnapshot CatalogOrder CatalogBuild CatalogRecords.
From coqutil Require Import Byte.

(** ** Requirements *)

Section Needs.
Variable ds : Descriptors.

(** [a] requires [b] to exist. *)
Definition needs (a b : CatalogObjectId) : Prop := exists d, ds !! a = Some d /\ b ∈ map fst (requirements d).

Definition is_declaration (kind : CatalogObjectKind) : bool :=
  match kind with Kind.Procedure | Kind.Index | Kind.Constraint => true | _ => false end.
(** Objects rest on objects of a smaller rank. *)
Definition rank (kind : CatalogObjectKind) : nat :=
  match kind with
  | Kind.Catalog => 0
  | Kind.Directory => 1
  | Kind.Schema => 2
  | Kind.GraphType | Kind.BindingTable => 3
  | Kind.Graph => 4
  | _ => 5
  end.

Context {generation c r : Z}.
Hypothesis Hkeyed : keyed ds.
Hypothesis Hvalid : valid_all ds.
Hypothesis Hwf : well_formed generation c r ds.


(** The requirements of a descriptor are met. *)
Lemma requirements_met id d t g : ds !! id = Some d -> (t, g) ∈ requirements d ->
  exists target, ds !! t = Some target /\ match g with Some g => g = d_generation target | None => True end.
Proof.
  intros Hd. unfold requirements. rewrite !elem_of_app. intros [Hin|[Hin|Hin]].
  - pose proof (wf_parent _ _ _ _ Hwf _ _ Hd) as Hp. unfold parent_present in Hp. destruct (parent_id _) as [p|]; [|by apply elem_of_nil in Hin].
    apply list_elem_of_singleton in Hin as [= -> ->]. destruct Hp as [x Hx]. eauto.
  - pose proof (wf_references _ _ _ _ Hwf _ _ Hd) as Hp. unfold references_ok in Hp. destruct (d_payload d) as [| | |[x|]| | | | |]; try by apply elem_of_nil in Hin.
    apply list_elem_of_singleton in Hin as [= -> ->]. destruct Hp as (y & Hy & _). eauto.
  - pose proof (wf_declarations _ _ _ _ Hwf _ _ Hd) as Hp. unfold declaration_ok in Hp. destruct (Payload.declaration_metadata _) as [m|]; [|by apply elem_of_nil in Hin].
    apply list_elem_of_fmap in Hin as (dep & [= -> ->] & Hdep). destruct (Hp m eq_refl) as [Hf _]. rewrite Forall_forall in Hf.
    destruct (Hf _ Hdep) as (x & Hx & Hg & _). eauto.
Qed.

Lemma needs_rank a b : is_declaration (Id.kind a) = false -> needs a b -> (rank (Id.kind b) < rank (Id.kind a))%nat.
Proof.
  intros Ha (d & Hd & Hb). destruct (keyed_valid_kind _ _ _ Hkeyed Hvalid Hd) as (_ & Hk & Hp). destruct (validate_kinds d (Hvalid _ _ Hd)) as (_ & Hpk & _).
  rewrite <- Hk in *. apply list_elem_of_fmap in Hb as ([b' g] & -> & Hb). cbn. unfold requirements in Hb. rewrite !elem_of_app in Hb. destruct Hb as [Hb|[Hb|Hb]].
  - destruct (d_kind d), (d_parent d); cbn in Hp, Ha, Hb; try discriminate; try (by apply elem_of_nil in Hb);
      apply list_elem_of_singleton in Hb as [= -> ->]; cbn; lia.
  - destruct (d_payload d) as [| | |[x|]| | | | |]; try by apply elem_of_nil in Hb. apply list_elem_of_singleton in Hb as [= -> ->]. rewrite Hpk. cbn. lia.
  - exfalso. destruct (d_payload d); cbn in Hb; try (by apply elem_of_nil in Hb); rewrite Hpk in Ha; discriminate.
Qed.

Lemma objects_sn id : is_declaration (Id.kind id) = false -> sn needs id.
Proof.
  remember (rank (Id.kind id)) as n eqn:En. revert id En. induction n as [n IH] using lt_wf_ind. intros id -> Hd. constructor. intros b Hb.
  pose proof (needs_rank id b Hd Hb) as Hlt. apply (IH _ Hlt); [done|]. destruct (Id.kind id), (Id.kind b); cbn in *; try done; lia.
Qed.

Lemma needs_cases a b : needs a b -> is_declaration (Id.kind b) = false \/ depends ds a b.
Proof.
  intros (d & Hd & Hb). destruct (keyed_valid_kind _ _ _ Hkeyed Hvalid Hd) as (_ & _ & Hp).
  apply list_elem_of_fmap in Hb as ([b' g] & -> & Hb). cbn. unfold requirements in Hb. rewrite !elem_of_app in Hb. destruct Hb as [Hb|[Hb|Hb]].
  - left. destruct (d_parent d); cbn in Hb; try (by apply elem_of_nil in Hb); by apply list_elem_of_singleton in Hb as [= -> ->].
  - left. destruct (d_payload d) as [| | |[x|]| | | | |]; try by apply elem_of_nil in Hb. by apply list_elem_of_singleton in Hb as [= -> ->].
  - right. unfold depends, deps_of, metadata_of. rewrite Hd. cbn. destruct (Payload.declaration_metadata _) as [m|]; [|by apply elem_of_nil in Hb].
    apply list_elem_of_fmap in Hb as (dep & [= -> _] & Hdep). by apply list_elem_of_fmap_2.
Qed.

(** No chain of requirements goes on for ever. *)
Lemma needs_sn id : sn needs id.
Proof.
  pose proof (proj1 (acyclic_sn ds) (wf_acyclic _ _ _ _ Hwf) id) as Hs. induction Hs as [id _ IH]. constructor. intros b Hb.
  destruct (needs_cases id b Hb) as [?|?]; [by apply objects_sn|by apply IH].
Qed.

(** Nor does a chain of objects that require the one before. *)
Lemma needed_sn id : sn (flip needs) id.
Proof.
  apply tc_finite_sn.
  - intros x Ht. clear id. assert (HT : forall x y, tc (flip needs) x y -> tc needs y x).
    { clear Ht x. induction 1 as [x y Hxy|x y z Hxy _ IH']; [by constructor|]. eapply tc_r; [exact IH'|exact Hxy]. }
    apply HT in Ht. by apply (sn_irrefl needs x (needs_sn x)).
  - exists (elements (dom ds)). intros y Hy. apply elem_of_elements, elem_of_dom. assert (exists x, needs y x) as (x & d & Hd & _); [|eauto].
    induction Hy; eauto.
Qed.
End Needs.

(** ** The changes between two revisions *)

Section Diff.
Variables ds0 ds1 : Descriptors.

(** [change] takes its identity from [ds0] to [ds1]. *)
Definition change_between (change : CatalogLogicalChange) : Prop :=
  match change with
  | Created d => ds0 !! d_id d = None /\ ds1 !! d_id d = Some d
  | Replaced previous d => exists old, ds0 !! d_id d = Some old /\ ds1 !! d_id d = Some d /\ old <> d /\ previous = d_generation old
  | Dropped id generation => exists old, ds0 !! id = Some old /\ ds1 !! id = None /\ generation = d_generation old
  end.

(** The state after every change but the [pending] ones. *)
Record pending_state (pending : list CatalogLogicalChange) (state : Descriptors) : Prop := {
  ps_changes : Forall change_between pending;
  ps_once : NoDup (map change_id pending);
  ps_state : forall id, state !! id = if decide (id ∈ map change_id pending) then ds0 !! id else ds1 !! id
}.

Lemma change_map_step state change : change_between change ->
  forall id, change_map change state !! id = if decide (id = change_id change) then ds1 !! id else state !! id.
Proof.
  intros Hc id. destruct change as [d|g d|i g]; cbn in *.
  - destruct Hc as [_ Hc]. case_decide as E; [subst; by rewrite lookup_insert_eq|by rewrite lookup_insert_ne].
  - destruct Hc as (old & _ & Hc & _). case_decide as E; [subst; by rewrite lookup_insert_eq|by rewrite lookup_insert_ne].
  - destruct Hc as (old & _ & Hc & _). case_decide as E; [subst; by rewrite lookup_delete_eq|by rewrite lookup_delete_ne].
Qed.

Lemma pick_spec {A} (f : A -> bool) l :
  match pick f l with
  | Some (x, t) => f x = true /\ l ≡ₚ x :: t
  | None => forall x, x ∈ l -> f x = false
  end.
Proof.
  induction l as [|y l IH]; cbn; [by intros x []%elem_of_nil|]. destruct (f y) eqn:Ey; [done|]. destruct (pick f l) as [[x t]|].
  - destruct IH as [Hx HP]. split; [done|]. rewrite HP. apply Permutation_swap.
  - intros x [->|Hx]%elem_of_cons; auto.
Qed.

Lemma pending_step pending state change rest : pending_state pending state -> pending ≡ₚ change :: rest -> pending_state rest (change_map change state).
Proof.
  intros [HC HO HS] HP. assert (HO' : NoDup (map change_id (change :: rest))) by (eapply NoDup_Permutation_proper; [symmetry; apply fmap_Permutation, HP|done]).
  rewrite HP in HC. apply Forall_cons in HC as [Hc HC]. cbn in HO'. apply NoDup_cons in HO' as [Hn HO']. split; [done|done|].
  intros id. rewrite change_map_step by done. case_decide as E.
  - subst id. by rewrite decide_False.
  - rewrite HS. apply decide_ext. assert (HE : id ∈ map change_id pending <-> id ∈ map change_id (change :: rest)) by (apply elem_of_Permutation_proper, fmap_Permutation, HP).
    rewrite HE. cbn. rewrite elem_of_cons. tauto.
Qed.

(** *** Some change is ready *)

Context {g0 g1 c0 c1 r0 r1 : Z}.
Hypotheses (Hk0 : keyed ds0) (Hv0 : valid_all ds0) (Hw0 : well_formed g0 c0 r0 ds0).
Hypotheses (Hk1 : keyed ds1) (Hv1 : valid_all ds1) (Hw1 : well_formed g1 c1 r1 ds1).

Definition stores (change : CatalogLogicalChange) : bool := match change with Dropped _ _ => false | _ => true end.

Lemma stores_new change : change_between change -> stores change = true ->
  exists d, ds1 !! change_id change = Some d /\ d_id d = change_id change /\
    forall state, order_ready change state = forallb (satisfied state) (requirements d).
Proof. destruct change as [d|g d|id g]; cbn; [intros [_ ?]; eauto|intros (? & _ & ? & _); eauto|done]. Qed.

Lemma pending_elem pending state change : pending_state pending state -> change ∈ pending -> change_between change /\ state !! change_id change = ds0 !! change_id change.
Proof.
  intros [HC _ HS] Hin. rewrite Forall_forall in HC. split; [by apply HC|]. rewrite HS, decide_True; [done|]. by apply list_elem_of_fmap_2.
Qed.

(** Among the changes that store a descriptor, one with its requirements met. *)
Lemma store_ready pending state change : pending_state pending state -> change ∈ pending -> stores change = true ->
  exists change', change' ∈ pending /\ order_ready change' state = true.
Proof.
  intros HP. remember (change_id change) as id eqn:Eid. revert change Eid. pose proof (needs_sn ds1 Hk1 Hv1 Hw1 id) as Hs.
  induction Hs as [id _ IH]. intros change -> Hin Hst. destruct (pending_elem _ _ _ HP Hin) as [Hc _].
  destruct (stores_new _ Hc Hst) as (d & Hd & _ & Hr). destruct (forallb (satisfied state) (requirements d)) eqn:E; [exists change; by rewrite Hr|].
  assert (exists t g, (t, g) ∈ requirements d /\ satisfied state (t, g) = false) as (t & g & Ht & Hf).
  { clear -E. induction (requirements d) as [|[t g] l IHl]; cbn in E; [done|]. apply andb_false_iff in E as [E|E]; [exists t, g; split; [by left|done]|].
    destruct (IHl E) as (t' & g' & ? & ?). exists t', g'. split; [by right|done]. }
  destruct (requirements_met ds1 Hw1 _ _ _ _ Hd Ht) as (target & Htarget & Hg).
  destruct (decide (t ∈ map change_id pending)) as [Hp|Hp].
  - apply list_elem_of_fmap in Hp as (change' & -> & Hin'). apply (IH (change_id change')) with change'; [|done|done|].
    + exists d. split; [done|]. by apply (list_elem_of_fmap_2 fst _ _ Ht).
    + destruct (pending_elem _ _ _ HP Hin') as [Hc' _]. destruct change'; [done|done|]. cbn in Hc', Htarget. destruct Hc' as (? & _ & ? & _). congruence.
  - exfalso. unfold satisfied in Hf. cbn in Hf. rewrite (ps_state _ _ HP), decide_False, Htarget in Hf by done. destruct g; [|done].
    subst. by rewrite Z.eqb_refl in Hf.
Qed.

(** When only removals are left, one of an object that nothing requires. *)
Lemma drop_ready pending state change : pending_state pending state -> Forall (fun c => stores c = false) pending -> change ∈ pending ->
  exists change', change' ∈ pending /\ order_ready change' state = true.
Proof.
  intros HP HD. remember (change_id change) as id eqn:Eid. revert change Eid. pose proof (needed_sn ds0 Hk0 Hv0 Hw0 id) as Hs.
  induction Hs as [id _ IH]. intros change -> Hin. destruct (pending_elem _ _ _ HP Hin) as [Hc _]. rewrite Forall_forall in HD.
  pose proof (HD _ Hin) as Hst. destruct change as [| |i g]; try done. cbn in Hc. destruct Hc as (old & Hold & Hgone & _).
  destruct (order_ready (Dropped i g) state) eqn:E; [eauto|]. cbn in E.
  assert (exists x d, state !! x = Some d /\ requires i d = true) as (x & d & Hx & Hr).
  { apply not_true_iff_false in E. rewrite forallb_forall in E. apply dec_stable. intros N. apply E. intros d [x Hx]%list_elem_of_In%elem_of_values.
    destruct (requires i d) eqn:Er; [|done]. destruct N. eauto. }
  assert (Hn : i ∈ map fst (requirements d)).
  { apply existsb_exists in Hr as ([t gt] & Hin'%list_elem_of_In & Ht%bool_decide_eq_true). cbn in Ht. subst. by apply (list_elem_of_fmap_2 fst _ _ Hin'). }
  rewrite (ps_state _ _ HP) in Hx. case_decide as Hp.
  - apply list_elem_of_fmap in Hp as (change' & -> & Hin'). apply (IH (change_id change')) with change'; [|done|done]. by exists d.
  - exfalso. apply list_elem_of_fmap in Hn as ([t gt] & Et & Hin'). cbn in Et. subst t.
    destruct (requirements_met ds1 Hw1 _ _ _ _ Hx Hin') as (target & ? & _). congruence.
Qed.

Lemma some_ready pending state : pending_state pending state -> pending <> [] -> exists change, change ∈ pending /\ order_ready change state = true.
Proof.
  intros HP Hne. destruct (decide (Exists (fun c => stores c = true) pending)) as [He|He].
  - apply Exists_exists in He as (change & Hin & Hst). by eapply store_ready.
  - destruct pending as [|change pending]; [done|]. apply (drop_ready _ _ change HP); [|by left]. apply not_Exists_Forall in He; [|apply _].
    eapply Forall_impl; [exact He|]. intros c Hc. by apply not_true_is_false.
Qed.

(** *** The order that [between] finds *)

Fixpoint ready_run (changes : list CatalogLogicalChange) (state : Descriptors) : Prop :=
  match changes with
  | [] => True
  | change :: changes => order_ready change state = true /\ ready_run changes (change_map change state)
  end.

Lemma arrange_spec fuel pending state changes : pending_state pending state -> (length pending <= fuel)%nat ->
  exists found, arrange fuel pending state changes = Ok (changes ++ found) /\ found ≡ₚ pending /\ ready_run found state.
Proof.
  revert pending state changes. induction fuel as [|fuel IH]; intros pending state changes HP Hf; cbn [arrange]; destruct pending as [|x l].
  1, 3: exists []; by rewrite app_nil_r.
  { cbn in Hf. lia. }
  pose proof (pick_spec (fun change => order_ready change state) (x :: l)) as Hpick. destruct (pick _ _) as [[change rest]|].
  - destruct Hpick as [Hr Hperm]. destruct (IH rest (change_map change state) (changes ++ [change])) as (found & -> & Hfound & Hrun).
    + by eapply pending_step.
    + apply Permutation_length in Hperm. cbn in Hperm, Hf. lia.
    + exists (change :: found). rewrite <- app_assoc. split; [done|]. split; [by rewrite Hperm, Hfound|done].
  - destruct (some_ready _ _ HP ltac:(done)) as (change & Hin & Hr). rewrite (Hpick _ Hin) in Hr. done.
Qed.
End Diff.

(** ** The list of changes *)

Lemma omap_ids {A} (f : A -> option CatalogLogicalChange) (key : A -> CatalogObjectId) l :
  (forall x c, f x = Some c -> change_id c = key x) -> NoDup (map key l) ->
  NoDup (map change_id (omap f l)).
Proof.
  intros Hf. induction l as [|x l IH]; cbn; [constructor|]. intros [Hx Hn]%NoDup_cons. destruct (f x) as [c|] eqn:E; [|by apply IH].
  cbn. apply NoDup_cons. split; [|by apply IH]. intros (c' & E1 & (y & Hy & E2)%list_elem_of_omap)%list_elem_of_fmap.
  apply Hx. rewrite <- (Hf _ _ E), E1, (Hf _ _ E2). by apply list_elem_of_fmap_2.
Qed.

Lemma logical_changes_spec s0 s1 : keyed (s_descriptors s0) -> keyed (s_descriptors s1) ->
  pending_state (s_descriptors s0) (s_descriptors s1) (logical_changes_from s1 s0) (s_descriptors s0).
Proof.
  intros Hk0 Hk1. unfold logical_changes_from, s_all.
  assert (HD : forall c, c ∈ omap (dropped_since s1) (values (s_descriptors s0)) <->
    exists old, s_descriptors s0 !! d_id old = Some old /\ s_descriptors s1 !! d_id old = None /\ c = Dropped (d_id old) (d_generation old)).
  { intros c. rewrite list_elem_of_omap. unfold dropped_since, s_descriptor. setoid_rewrite keyed_elem; [|done]. split.
    - intros (old & Ho & E). exists old. destruct (s_descriptors s1 !! d_id old); [done|]. by injection E as <-.
    - intros (old & Ho & E & ->). exists old. by rewrite E. }
  assert (HC : forall c, c ∈ omap (changed_since s0) (values (s_descriptors s1)) <->
    exists d, s_descriptors s1 !! d_id d = Some d /\ match s_descriptors s0 !! d_id d with
      | None => c = Created d | Some old => old <> d /\ c = Replaced (d_generation old) d end).
  { intros c. rewrite list_elem_of_omap. unfold changed_since, s_descriptor. setoid_rewrite keyed_elem; [|done].
    split; intros (d & Hd & E); exists d; (split; [done|]); destruct (s_descriptors s0 !! d_id d) as [old|]; try case_decide; naive_solver. }
  split.
  - apply Forall_forall. intros c [(old & Ho & Hn & ->)%HD|(d & Hd & E)%HC]%elem_of_app; [exists old; done|].
    destruct (s_descriptors s0 !! d_id d) as [old|] eqn:E0; [destruct E as [? ->]|subst c]; cbn; [exists old|]; done.
  - rewrite map_app. apply NoDup_app. split; [|split].
    + eapply (omap_ids _ d_id); [|rewrite keyed_values by done; apply ascending_ids_NoDup, keys_ascending].
      intros x c. unfold dropped_since. destruct (s_descriptor s1 (d_id x)); [done|]. by intros [= <-].
    + intros id (c & -> & (old & _ & Hn & ->)%HD)%list_elem_of_fmap (c' & E & (d & Hd & Hc)%HC)%list_elem_of_fmap. cbn in E.
      assert (E' : d_id old = d_id d) by (destruct (s_descriptors s0 !! d_id d); destruct_and?; subst; done). congruence.
    + eapply (omap_ids _ d_id); [|rewrite keyed_values by done; apply ascending_ids_NoDup, keys_ascending].
      intros x c. unfold changed_since. destruct (s_descriptor s0 (d_id x)); [case_decide; [done|]|]; by intros [= <-].
  - intros id. case_decide as Hin; [done|]. rewrite map_app, elem_of_app in Hin. apply Decidable.not_or in Hin as [N1 N2].
    destruct (s_descriptors s0 !! id) as [old|] eqn:E0, (s_descriptors s1 !! id) as [d|] eqn:E1; [|..|done].
    + destruct (decide (old = d)) as [->|N]; [done|]. destruct N2. pose proof (Hk1 _ _ E1) as Hi. cbn in Hi. apply list_elem_of_fmap.
      exists (Replaced (d_generation old) d). split; [done|]. apply HC. exists d. by rewrite Hi, E0.
    + destruct N1. pose proof (Hk0 _ _ E0) as Hi. cbn in Hi. apply list_elem_of_fmap. exists (Dropped (d_id old) (d_generation old)).
      split; [done|]. apply HD. exists old. by rewrite Hi.
    + destruct N2. pose proof (Hk1 _ _ E1) as Hi. cbn in Hi. apply list_elem_of_fmap. exists (Created d). split; [done|]. apply HC. exists d. by rewrite Hi, E0.
Qed.

(** ** Evolution *)

(** What a later revision may change: identities are never used again, the
    generation of a descriptor that changes grows, and what it is the creation
    of, and where, stays. *)
Record evolves (original next : CatalogLogicalRecords) : Prop := {
  ev_generation : r_generation original <= r_generation next;
  ev_advance : collect (r_descriptors original) <> collect (r_descriptors next) -> r_generation original < r_generation next;
  ev_water : forall kind, water (r_high_water original) kind <= water (r_high_water next) kind;
  ev_created : forall id d, collect (r_descriptors original) !! id = None -> collect (r_descriptors next) !! id = Some d ->
    water (r_high_water original) (Id.kind id) < Id.get id /\ r_generation original < creation_generation (d_creation d);
  ev_replaced : forall id old d, collect (r_descriptors original) !! id = Some old -> collect (r_descriptors next) !! id = Some d -> old <> d ->
    d_generation old < d_generation d /\ d_creation old = d_creation d /\ d_parent old = d_parent d
}.

(** The records of a catalog. *)
Definition catalog_records (self : CatalogLogicalRecords) : Prop :=
  sorted_records (r_descriptors self) /\ exists c r, records_ok self c r.

Lemma records_ascending l : sorted_records l -> NoDup (map d_id l) -> ascending_ids (map d_id l).
Proof. apply ordered_key_ascending. Qed.
Lemma records_values l : sorted_records l -> NoDup (map d_id l) -> values (collect l) = l.
Proof.
  intros Hs Hn. apply ascending_descriptors; [rewrite keyed_values by (by apply collect_keyed); apply keys_ascending|by apply records_ascending|].
  intros d. rewrite keyed_elem by (by apply collect_keyed). rewrite collect_Some by done. tauto.
Qed.
Lemma values_sorted m : keyed m -> sorted_records (values m).
Proof. intros Hk. apply ascending_key_ordered. rewrite keyed_values by done. apply keys_ascending. Qed.

Lemma catalog_records_reconstruct self : catalog_records self ->
  exists s c r, reconstruct self = Ok s /\ assembles (r_generation self) c r (r_descriptors self) /\
    s_generation s = r_generation self /\ s_descriptors s = collect (r_descriptors self).
Proof.
  intros [Hs (c & r & HO)]. pose proof (reconstruct_spec self Hs) as HR. destruct (reconstruct self) as [s|[?|?]]; [|done|by destruct (HR c r)].
  destruct HR as (c' & r' & [_ HA] & [? _ _ ? _ _ _ _ _ _]). by exists s, c', r'.
Qed.

Lemma domains_all kind : kind ∈ DOMAINS.
Proof. destruct kind; unfold DOMAINS; repeat (by left) || right. Qed.

Lemma water_domains (f : CatalogObjectKind -> Z) kind : water (list_to_map (zip DOMAINS (map f DOMAINS))) kind = f kind.
Proof. unfold water. destruct kind; reflexivity. Qed.

Section Apply.
Variables (self : CatalogDelta) (original next : CatalogLogicalRecords).
Let ds0 := collect (r_descriptors original).
Let ds1 := collect (r_descriptors next).
Hypothesis Hprevious : c_previous self = r_generation original.
Hypothesis Hgeneration : c_generation self = r_generation next.

Lemma accept_change_ok state change : evolves original next -> (forall id d, ds1 !! id = Some d -> d_generation d <= r_generation next) ->
  change_between ds0 ds1 change -> state !! change_id change = ds0 !! change_id change -> accept_change self original state change = Ok tt.
Proof.
  intros HE Hg Hc Hst. unfold accept_change. rewrite Hst, Hprevious, Hgeneration. destruct change as [d|g d|id g]; cbn in *.
  - destruct Hc as [H0 H1]. rewrite H0. destruct (ev_created _ _ HE _ _ H0 H1). pose proof (Hg _ _ H1).
    rewrite bool_decide_eq_false_2 by (by intros []%is_Some_None). cbn.
    rewrite (proj2 (Z.leb_gt _ _)), (proj2 (Z.ltb_ge _ _)), (proj2 (Z.leb_gt _ _)) by lia. done.
  - destruct Hc as (old & H0 & H1 & N & ->). rewrite H0. cbn. destruct (ev_replaced _ _ HE _ _ _ H0 H1 N) as (? & ? & ?). pose proof (Hg _ _ H1).
    rewrite Z.eqb_refl, (proj2 (Z.leb_gt _ _)), (proj2 (Z.ltb_ge _ _)), !bool_decide_eq_true_2 by (done || lia). done.
  - destruct Hc as (old & H0 & _ & ->). rewrite H0, Z.eqb_refl. done.
Qed.

Lemma apply_changes_ok changes seen state : evolves original next -> (forall id d, ds1 !! id = Some d -> d_generation d <= r_generation next) ->
  pending_state ds0 ds1 changes state -> ready_run changes state -> (forall id, id ∈ seen -> id ∉ map change_id changes) ->
  apply_changes self original changes seen state = Ok ds1.
Proof.
  intros HE Hg. revert seen state. induction changes as [|change changes IH]; intros seen state HP Hr Hseen; cbn [apply_changes].
  { f_equal. apply map_eq. intros id. rewrite (ps_state _ _ _ _ HP). done. }
  destruct Hr as [Hr Hrun]. destruct (pending_elem _ _ _ _ change HP ltac:(by left)) as [Hc Hst].
  rewrite bool_decide_eq_false_2 by (intros Hin; apply (Hseen _ Hin); by left). rewrite Hr. cbn [negb orb].
  rewrite (accept_change_ok _ _ HE Hg Hc Hst). cbn [bind]. apply IH; [by eapply pending_step|done|].
  intros id [->%elem_of_singleton|Hin]%elem_of_union; [|intros Hin'; apply (Hseen _ Hin); by right].
  pose proof (ps_once _ _ _ _ HP) as Hn. cbn in Hn. by apply NoDup_cons in Hn as [? _].
Qed.
End Apply.

Lemma sort_values m : keyed m -> sort_with (fun a b => Id.leb (d_id a) (d_id b)) (values m) = values m.
Proof. intros Hk. apply sort_with_id, values_sorted, Hk. Qed.

(** [CatalogLogicalRecords::new] of the values of a map. *)
Lemma records_new_values g hw m : keyed m ->
  records_new g hw (values m) = (let? _ := reconstruct {| r_generation := g; r_high_water := hw; r_descriptors := values m |} in
    Ok {| r_generation := g; r_high_water := hw; r_descriptors := values m |}).
Proof. intros Hk. unfold records_new. by rewrite sort_values. Qed.

Lemma between_spec original previous next : catalog_records original -> catalog_records next -> reconstruct original = Ok previous ->
  exists changes, between previous next = Ok {| c_previous := r_generation original; c_generation := r_generation next;
      c_high_water := map (water (r_high_water next)) DOMAINS; c_changes := changes |} /\
    pending_state (collect (r_descriptors original)) (collect (r_descriptors next)) changes (collect (r_descriptors original)) /\
    ready_run changes (collect (r_descriptors original)).
Proof.
  intros HO HN HR. destruct (catalog_records_reconstruct _ HO) as (s0 & c0 & r0 & E0 & (Hn0 & Hv0 & Hw0) & Hg0 & Hd0).
  destruct (catalog_records_reconstruct _ HN) as (s1 & c1 & r1 & E1 & (Hn1 & Hv1 & Hw1) & Hg1 & Hd1). rewrite E0 in HR. injection HR as <-.
  unfold between. rewrite E1. cbn [fails_as map_err bind]. pose proof (collect_keyed _ Hn0) as Hk0. pose proof (collect_keyed _ Hn1) as Hk1.
  pose proof (logical_changes_spec s0 s1) as HP. unfold s_all. rewrite Hd0, Hd1 in HP. rewrite Hd0. specialize (HP Hk0 Hk1).
  apply valid_collect in Hv0, Hv1; [|done..].
  rewrite collect_values by done.
  destruct (arrange_spec _ _ Hk0 Hv0 Hw0 Hk1 Hv1 Hw1 _ _ _ [] HP (le_n _)) as (found & -> & Hperm & Hrun).
  exists found. cbn. rewrite Hg0, Hg1. split; [done|]. split; [|done]. destruct HP as [HC HO' HS]. split.
  - by rewrite Hperm.
  - eapply NoDup_Permutation_proper; [apply fmap_Permutation, Hperm|done].
  - intros id. rewrite HS at 1. apply decide_ext. apply elem_of_Permutation_proper, fmap_Permutation. done.
Qed.

Lemma changes_advance original next changes : evolves original next ->
  pending_state (collect (r_descriptors original)) (collect (r_descriptors next)) changes (collect (r_descriptors original)) ->
  negb (zlen changes =? 0) && (r_generation next =? r_generation original) = false.
Proof.
  intros HE [HC _ _]. destruct changes as [|change changes]; [done|]. apply Forall_cons in HC as [Hc _]. apply andb_false_iff. right.
  apply Z.eqb_neq. enough (r_generation original < r_generation next) by lia. apply (ev_advance _ _ HE). intros E. rewrite E in Hc.
  destruct change; cbn in Hc; [destruct Hc|destruct Hc as (? & ? & ? & ? & ?)|destruct Hc as (? & ? & ? & ?)]; congruence.
Qed.

Lemma water_grows original next : evolves original next ->
  existsb (fun '(kind, w) => w <? water (r_high_water original) kind) (zip DOMAINS (map (water (r_high_water next)) DOMAINS)) = false.
Proof.
  intros HE. apply not_true_is_false. intros ([kind w] & Hin & Hlt)%existsb_exists. apply Z.ltb_lt in Hlt.
  pose proof (ev_water _ _ HE kind). assert (w = water (r_high_water next) kind); [|lia].
  clear -Hin. induction DOMAINS as [|k l IH]; [done|]. cbn in Hin. destruct Hin as [[= <- <-]|?]; auto.
Qed.

(** [apply] accepts the delta that [between] finds. *)
Lemma between_apply_spec original previous next : catalog_records original -> catalog_records next -> evolves original next ->
  reconstruct original = Ok previous ->
  exists delta result, between previous next = Ok delta /\ delta_apply delta original = Ok result /\
    r_generation result = r_generation next /\ r_descriptors result = r_descriptors next /\
    forall kind, water (r_high_water result) kind = water (r_high_water next) kind.
Proof.
  intros HO HN HE HR. destruct (between_spec _ _ _ HO HN HR) as (changes & -> & HP & Hrun). set (delta := {| c_changes := changes |}).
  destruct (catalog_records_reconstruct _ HO) as (s0 & c0 & r0 & E0 & (Hn0 & Hv0 & Hw0) & Hg0 & Hd0). 
  destruct HN as [Hs1 (c1 & r1 & HB & (Hn1 & Hv1 & Hw1))]. set (hw := list_to_map (zip DOMAINS (map (water (r_high_water next)) DOMAINS)) : gmap CatalogObjectKind Z).
  assert (Hhw : forall kind, water hw kind = water (r_high_water next) kind) by (intros kind; apply (water_domains (water (r_high_water next)))).
  exists delta, {| r_generation := r_generation next; r_high_water := hw; r_descriptors := r_descriptors next |}.
  split; [done|]. split; [|done]. unfold delta_apply. rewrite E0. cbn [fails_as map_err bind]. rewrite Hg0.
  change (c_previous delta) with (r_generation original). change (c_generation delta) with (r_generation next). change (c_changes delta) with changes.
  change (c_high_water delta) with (map (water (r_high_water next)) DOMAINS).
  rewrite Z.eqb_refl, (proj2 (Z.ltb_ge _ _)) by apply (ev_generation _ _ HE). cbn [negb orb].
  rewrite (changes_advance _ _ _ HE HP). fold hw. rewrite (water_grows _ _ HE).
  unfold s_all. rewrite Hd0, collect_values by (by apply collect_keyed).
  rewrite (apply_changes_ok delta original next eq_refl eq_refl changes ∅ _ HE); [|apply (wf_generation _ _ _ _ Hw1)|done|done|set_solver].
  cbn [lift map_err bind]. rewrite records_new_values by (by apply collect_keyed). rewrite records_values by done.
  assert (HC : catalog_records {| r_generation := r_generation next; r_high_water := hw; r_descriptors := r_descriptors next |}).
  { split; [done|]. exists c1, r1. split; [|done]. cbn. eapply Forall_impl; [exact HB|]. intros d. unfold below_water. by rewrite Hhw. }
  destruct (catalog_records_reconstruct _ HC) as (s1 & _ & _ & -> & _). done.
Qed.

(** ** Only evolutions are accepted *)

(** What a delta may do to one identity. *)
Definition may_become (self : CatalogDelta) (original : CatalogLogicalRecords) (id : CatalogObjectId) (before after : option CatalogDescriptor) : Prop :=
  match before, after with
  | None, Some d => water (r_high_water original) (Id.kind id) < Id.get id /\ c_previous self < creation_generation (d_creation d)
  | Some old, Some d => old = d \/ (d_generation old < d_generation d /\ d_creation old = d_creation d /\ d_parent old = d_parent d)
  | _, None => True
  end.

Lemma change_map_lookup change state id :
  change_map change state !! id = if decide (id = change_id change) then change_map change state !! change_id change else state !! id.
Proof.
  case_decide as E; [by subst|]. destruct change; cbn in *; by rewrite ?lookup_insert_ne, ?lookup_delete_ne by done.
Qed.

Lemma accept_change_sound self original state change : accept_change self original state change = Ok tt ->
  may_become self original (change_id change) (state !! change_id change) (change_map change state !! change_id change).
Proof.
  unfold accept_change. destruct change as [d|g d|id g]; cbn.
  - rewrite lookup_insert_eq. destruct (state !! d_id d); cbn; [done|].
    destruct (Z.leb_spec (Id.get (d_id d)) (water (r_high_water original) (Id.kind (d_id d)))); [done|]. cbn. destruct (_ <? _); [done|]. cbn.
    destruct (Z.leb_spec (creation_generation (d_creation d)) (c_previous self)); [done|]. intros _. lia.
  - rewrite lookup_insert_eq. destruct (state !! d_id d) as [old|]; cbn; [|done]. destruct (Z.eqb_spec (d_generation old) g) as [->|]; [|done]. cbn.
    destruct (Z.leb_spec (d_generation d) g); [done|]. cbn. destruct (_ <? _); [done|]. cbn. case_bool_decide; [|done]. case_bool_decide; [|done].
    intros _. right. split; [lia|done].
  - rewrite lookup_delete_eq. by destruct (state !! id).
Qed.

Lemma change_map_keyed change state : keyed state -> keyed (change_map change state).
Proof. intros Hk. destruct change; cbn; [by apply keyed_insert|by apply keyed_insert|by apply keyed_delete]. Qed.

Lemma apply_changes_sound self original changes seen state state' : apply_changes self original changes seen state = Ok state' -> keyed state ->
  keyed state' /\ forall id, if decide (id ∈ seen) then state' !! id = state !! id else may_become self original id (state !! id) (state' !! id).
Proof.
  revert seen state. induction changes as [|change changes IH]; intros seen state Ha Hk; cbn [apply_changes] in Ha.
  { injection Ha as <-. split; [done|]. intros id. case_decide; [done|]. unfold may_become. destruct (state !! id); [by left|done]. }
  destruct (bool_decide (change_id change ∈ seen)) eqn:Es; cbn in Ha; [done|]. apply bool_decide_eq_false in Es.
  destruct (order_ready change state); cbn in Ha; [|done]. destruct (accept_change self original state change) as [[]|] eqn:Eacc; cbn in Ha; [|done].
  destruct (IH _ _ Ha (change_map_keyed _ _ Hk)) as [Hk' HI]. split; [done|]. intros id. specialize (HI id). rewrite change_map_lookup in HI.
  destruct (decide (id = change_id change)) as [->|N].
  - rewrite decide_True in HI by set_solver. rewrite decide_False by done. rewrite HI. by apply accept_change_sound.
  - destruct (decide (id ∈ seen)) as [Hs|Hs]; [by rewrite decide_True in HI by set_solver|]. by rewrite decide_False in HI by set_solver.
Qed.

Lemma high_water_sound original (high_water : list Z) : length high_water = 9%nat ->
  existsb (fun '(kind, w) => w <? water (r_high_water original) kind) (zip DOMAINS high_water) = false ->
  forall kind, water (r_high_water original) kind <= water (list_to_map (zip DOMAINS high_water)) kind.
Proof.
  intros Hl HE kind. destruct high_water as [|w1 [|w2 [|w3 [|w4 [|w5 [|w6 [|w7 [|w8 [|w9 [|]]]]]]]]]]; try done.
  cbn [DOMAINS zip zip_with existsb] in HE. repeat (apply orb_false_iff in HE as [?%Z.ltb_ge HE]).
  destruct kind; unfold water at 2; cbn [DOMAINS zip zip_with]; lazymatch goal with |- context [list_to_map ?l !! ?k] =>
    let v := eval vm_compute in (list_to_map (M := gmap CatalogObjectKind Z) l !! k) in replace (list_to_map (M := gmap CatalogObjectKind Z) l !! k) with v by reflexivity end; done.
Qed.

(** Whatever the delta, an accepted one gives the records of a catalog that evolves from the original. *)
Lemma delta_apply_sound_spec self original result : sorted_records (r_descriptors original) -> length (c_high_water self) = 9%nat ->
  delta_apply self original = Ok result -> catalog_records result /\ evolves original result.
Proof.
  intros Hs0 Hl Ha. unfold delta_apply in Ha. pose proof (reconstruct_spec original Hs0) as HR.
  destruct (reconstruct original) as [s0|[?|?]]; cbn [fails_as map_err bind] in Ha; [|done..].
  destruct HR as (c0 & r0 & [_ (Hn0 & Hv0 & Hw0)] & [Hg0 _ _ Hd0 _ _ _ _ _ _]). rewrite Hg0 in Ha.
  destruct (_ || _) eqn:Eg in Ha; [done|]. destruct (existsb _ _) eqn:Ew in Ha; [done|]. unfold s_all in Ha.
  rewrite Hd0, collect_values in Ha by (by apply collect_keyed).
  destruct (apply_changes _ _ _ _ _) as [ds1|] eqn:Eap; cbn [lift map_err bind] in Ha; [|done].
  destruct (apply_changes_sound _ _ _ _ _ _ Eap (collect_keyed _ Hn0)) as [Hk1 HM].
  rewrite records_new_values in Ha by done. set (next := {| r_generation := c_generation self |}) in Ha.
  pose proof (reconstruct_spec next (values_sorted _ Hk1)) as HN. destruct (reconstruct next) as [s1|[?|?]]; cbn in Ha; [|done..]. injection Ha as <-.
  destruct HN as (c1 & r1 & HO1 & _). split; [split; [by apply values_sorted|eauto]|].
  assert (E1 : collect (r_descriptors next) = ds1) by (by apply collect_values).
  apply orb_false_iff in Eg as [Eg Ee]. apply orb_false_iff in Eg as [Eg El]. apply negb_false_iff, Z.eqb_eq in Eg. apply Z.ltb_ge in El.
  split; rewrite ?E1; change (r_generation next) with (c_generation self).
  - lia.
  - intros N. destruct (c_changes self) as [|x l] eqn:Ec; [cbn in Eap; congruence|]. apply andb_false_iff in Ee as [Ee|Ee%Z.eqb_neq]; [|lia].
    by apply negb_false_iff, Z.eqb_eq in Ee.
  - by apply high_water_sound.
  - intros id d H0 H1. specialize (HM id). rewrite decide_False, H0, H1 in HM by set_solver. cbn in HM. lia.
  - intros id old d H0 H1 N. specialize (HM id). rewrite decide_False, H0, H1 in HM by set_solver. cbn in HM. tauto.
Qed.

(** ** Histories *)

(** Replay applies one delta after the other. *)
Fixpoint apply_all (deltas : list CatalogDelta) (records : CatalogLogicalRecords) : outcome CodecError CatalogLogicalRecords :=
  match deltas with
  | [] => Ok records
  | delta :: deltas =>
      let? records := delta_apply delta records in
      apply_all deltas records
  end.

Lemma records_kinds self id d : catalog_records self -> collect (r_descriptors self) !! id = Some d ->
  d_kind d = Id.kind id /\ Id.get id <= water (r_high_water self) (Id.kind id).
Proof.
  intros [_ (c & r & HB & Hn & Hv & _)] Hd. apply valid_collect in Hv; [|done].
  destruct (keyed_valid_kind _ _ _ (collect_keyed _ Hn) Hv Hd) as (Hid & Hk & _). split; [done|]. apply collect_Some in Hd as [Hin _]; [|done].
  rewrite Forall_forall in HB. specialize (HB d Hin). unfold below_water in HB. by rewrite Hid, Hk in HB.
Qed.

(** An identity that is gone does not come back. *)
Lemma evolves_gone original mid next id : catalog_records original -> evolves original mid -> evolves mid next ->
  is_Some (collect (r_descriptors original) !! id) -> collect (r_descriptors mid) !! id = None -> collect (r_descriptors next) !! id = None.
Proof.
  intros HO E1 E2 [d0 H0] H1. destruct (collect (r_descriptors next) !! id) as [d|] eqn:H2; [|done].
  destruct (records_kinds _ _ _ HO H0) as [_ Hw]. destruct (ev_created _ _ E2 _ _ H1 H2) as [Hf _]. pose proof (ev_water _ _ E1 (Id.kind id)). lia.
Qed.

Lemma evolves_refl self : evolves self self.
Proof. split; [lia|done|done|intros; congruence|intros; congruence]. Qed.

Lemma evolves_trans original mid next : catalog_records original -> evolves original mid -> evolves mid next -> evolves original next.
Proof.
  intros HO E1 E2. pose proof (fun id => evolves_gone original mid next id HO E1 E2) as HG.
  destruct E1 as [G1 A1 W1 C1 R1], E2 as [G2 A2 W2 C2 R2]. split.
  - lia.
  - intros N. destruct (decide (collect (r_descriptors original) = collect (r_descriptors mid))) as [E|N1].
    + rewrite E in N. specialize (A2 N). lia.
    + specialize (A1 N1). lia.
  - intros kind. specialize (W1 kind). specialize (W2 kind). lia.
  - intros id d H0 H2. destruct (collect (r_descriptors mid) !! id) as [d1|] eqn:H1.
    + destruct (C1 _ _ H0 H1) as [? Hc]. split; [done|]. destruct (decide (d1 = d)) as [->|N]; [done|]. by destruct (R2 _ _ _ H1 H2 N) as (_ & <- & _).
    + destruct (C2 _ _ H1 H2). specialize (W1 (Id.kind id)). lia.
  - intros id old d H0 H2 N. destruct (collect (r_descriptors mid) !! id) as [d1|] eqn:H1.
    + destruct (decide (old = d1)) as [->|N1]; [by apply (R2 id)|]. destruct (R1 _ _ _ H0 H1 N1) as (? & ? & ?).
      destruct (decide (d1 = d)) as [->|N2]; [done|]. destruct (R2 _ _ _ H1 H2 N2) as (? & ? & ?). split; [lia|]. split; congruence.
    + rewrite (HG id) in H2; [done|eauto|done].
Qed.

Lemma apply_all_evolves deltas original final : catalog_records original -> Forall (fun d => length (c_high_water d) = 9%nat) deltas ->
  apply_all deltas original = Ok final -> catalog_records final /\ evolves original final.
Proof.
  intros HO HL. revert original HO. induction HL as [|delta deltas Hl _ IH]; intros original HO Ha; cbn in Ha.
  { injection Ha as <-. split; [done|apply evolves_refl]. }
  destruct (delta_apply delta original) as [mid|] eqn:E; [|done]. cbn in Ha.
  destruct (delta_apply_sound_spec _ _ _ (proj1 HO) Hl E) as [HM HE]. destruct (IH mid HM Ha) as [HF HE']. split; [done|]. by eapply evolves_trans.
Qed.
