(* ===== verification/CatalogCodec.v ===== *)
(** The format-2 codec of the catalog (selene-catalog: codec.rs and codec/*.rs).

    The encoders and decoders of identities, declarations, descriptors, deltas
    and complete records, over the wire format of [Wire].  [CatalogSizes] are the
    sizes of the Rust types that the budget is charged with. *)

From S2P Require Import Prelude Errors Wire Value ValueCodec Ordered Schema Catalog CatalogSnapshot.
From coqutil Require Import Byte.

(** [size_of::<T>()] of the counted types. *)
Class CatalogSizes := {
  size_native_parameter : Z;
  size_native_field : Z;
  size_catalog_change : Z;
  size_catalog_descriptor : Z
}.

(** [map_err(|_| E::Semantic)]. *)
Definition semantic {E A} (r : result E A) : result CodecError A := map_err (fun _ => E_Semantic) r.

(** ** Identities (codec/descriptor.rs) *)

Definition kind_tag (kind : CatalogObjectKind) : Z :=
  match kind with
  | Kind.Catalog => 1
  | Kind.Directory => 2
  | Kind.Schema => 3
  | Kind.Graph => 4
  | Kind.GraphType => 5
  | Kind.BindingTable => 6
  | Kind.Procedure => 7
  | Kind.Index => 8
  | Kind.Constraint => 9
  end.
(** [id_encode] and [id_decode]. *)
Definition id_encode (id : CatalogObjectId) : Encoder.M unit :=
  Encoder.u8 (kind_tag (Id.kind id)) ;;
  Encoder.u64 (Id.get id).
Definition id_decode : Decoder.M CatalogObjectId :=
  do tag <- Decoder.u8;
  do raw <- Decoder.u64;
  of_result
    (match tag with
     | 1 => let? id := semantic (id_new Kind.Catalog raw) in Ok (Id.Catalog id)
     | 2 => let? id := semantic (id_new Kind.Directory raw) in Ok (Id.Directory id)
     | 3 => let? id := semantic (id_new Kind.Schema raw) in Ok (Id.Schema id)
     | 4 => let? id := semantic (id_new Kind.Graph raw) in Ok (Id.Graph id)
     | 5 => let? id := semantic (id_new Kind.GraphType raw) in Ok (Id.GraphType id)
     | 6 => let? id := semantic (id_new Kind.BindingTable raw) in Ok (Id.BindingTable id)
     | 7 => let? id := semantic (id_new Kind.Procedure raw) in Ok (Id.Procedure id)
     | 8 => let? id := semantic (id_new Kind.Index raw) in Ok (Id.Index id)
     | 9 => let? id := semantic (id_new Kind.Constraint raw) in Ok (Id.Constraint id)
     | _ => Err (E_Invalid "catalog identity kind")
     end).

(** [generation] of codec.rs. *)
Definition decode_generation : Decoder.M Z :=
  do raw <- Decoder.u64;
  of_result (semantic (generation_new raw)).

(** An identity of a known kind: [XId::new(d.u64()?)]. *)
Definition decode_id_of (kind : CatalogObjectKind) : Decoder.M Z :=
  do raw <- Decoder.u64;
  of_result (semantic (id_new kind raw)).

(** [optional_text_encode] and [optional_text_decode]. *)
Definition optional_text_encode (value : option bytes) : Encoder.M unit := encode_option Encoder.text value.
Definition optional_text_decode : Decoder.M (option bytes) := decode_option Decoder.text.

(** ** Declarations (codec/declaration.rs) *)

(** [deps.sort_by_key(|dep| dep.id)]. *)
Definition sort_dependencies : list DeclarationDependency -> list DeclarationDependency := sort_with (fun a b => Id.leb (dep_id a) (dep_id b)).

Definition dependency_encode (dep : DeclarationDependency) : Encoder.M unit :=
  id_encode (dep_id dep) ;;
  Encoder.u64 (dep_generation dep).
(** [metadata_encode]. *)
Definition metadata_encode (m : DeclarationMetadata) : Encoder.M unit :=
  Encoder.on_budget (Budget.metadata 1) ;;
  Encoder.u8 (match meta_state m with Inactive => 0 | Building => 1 | Ready => 2 | Failed => 3 end) ;;
  Encoder.text (profile_id (meta_profile m)) ;;
  Encoder.text (profile_hash (meta_profile m)) ;;
  Encoder.u32 (profile_semantics (meta_profile m)) ;;
  Encoder.count (zlen (meta_dependencies m)) ;;
  for_each dependency_encode (sort_dependencies (meta_dependencies m)).

(** The loop of [metadata_decode]. *)
Fixpoint dependencies_loop (n : nat) (dependencies : list DeclarationDependency) : Decoder.M (list DeclarationDependency) :=
  match n with
  | O => ret dependencies
  | S n =>
      do id <- id_decode;
      fail_if (match last dependencies with Some dep => Id.leb id (dep_id dep) | None => false end) (E_Invalid "dependency order") ;;
      do generation <- decode_generation;
      dependencies_loop n (dependencies ++ [{| dep_id := id; dep_generation := generation |}])
  end.
Definition state_decode : Decoder.M DeclarationState :=
  do tag <- Decoder.u8;
  match tag with
  | 0 => ret Inactive
  | 1 => ret Building
  | 2 => ret Ready
  | 3 => ret Failed
  | _ => throw (E_Invalid "declaration state")
  end.
(** [metadata_decode]. *)
Definition metadata_decode : Decoder.M DeclarationMetadata :=
  Decoder.on_budget (Budget.metadata 1) ;;
  do state <- state_decode;
  do id <- Decoder.text;
  do hash <- Decoder.text;
  do semantics <- Decoder.u32;
  do count <- Decoder.count;
  fail_if (256 <? count) E_Limit ;;
  do dependencies <- dependencies_loop (Z.to_nat count) [];
  ret {| meta_state := state; meta_profile := {| profile_id := id; profile_hash := hash; profile_semantics := semantics |};
         meta_dependencies := dependencies |}.

(** [strings_encode] and [strings_decode]. *)
Definition strings_encode (values : list bytes) : Encoder.M unit :=
  Encoder.count (zlen values) ;;
  for_each Encoder.text values.
Definition strings_decode : Decoder.M (list bytes) :=
  do count <- Decoder.count;
  repeat_m (Z.to_nat count) Decoder.text.

(** [target_encode] and [target_decode]. *)
Definition target_encode (target : PropertyTarget) : Encoder.M unit :=
  Encoder.u8 (match target_element target with Node => 1 | Edge => 2 end) ;;
  Encoder.text (target_label target) ;;
  strings_encode (target_properties target).
Definition element_decode : Decoder.M ElementKind :=
  do tag <- Decoder.u8;
  match tag with
  | 1 => ret Node
  | 2 => ret Edge
  | _ => throw (E_Invalid "element kind")
  end.
Definition target_decode : Decoder.M PropertyTarget :=
  do element <- element_decode;
  do label <- Decoder.text;
  do properties <- strings_decode;
  ret {| target_element := element; target_label := label; target_properties := properties |}.

(** *** Expressions (codec/expression.rs) *)

Definition selector_encode (selector : ScalarIndexSelector) : Encoder.M unit :=
  match selector with
  | Key key => Encoder.u8 1 ;; Encoder.text key
  | Index index => Encoder.u8 2 ;; Encoder.u64 (of_signed 64 index)
  end.
Definition path_encode (path : list ScalarIndexSelector) : Encoder.M unit :=
  Encoder.count (zlen path) ;;
  for_each selector_encode path.
Definition operation_encode (operation : ScalarIndexOperation) : Encoder.M unit :=
  match operation with
  | Lower => Encoder.u8 1
  | Upper => Encoder.u8 2
  | JsonScalarPath path => Encoder.u8 3 ;; path_encode path
  | JsonTextPath path => Encoder.u8 4 ;; path_encode path
  end.
(** [expression::encode]. *)
Definition expression_encode (expression : ScalarIndexExpression) : Encoder.M unit :=
  fail_if (negb (is_valid expression)) E_Semantic ;;
  Encoder.u32 (expr_semantics expression) ;;
  Encoder.text (expr_property expression) ;;
  Encoder.count (zlen (expr_operations expression)) ;;
  for_each operation_encode (expr_operations expression).

Definition selector_decode : Decoder.M ScalarIndexSelector :=
  do tag <- Decoder.u8;
  match tag with
  | 1 => do key <- Decoder.text; ret (Key key)
  | 2 => do index <- Decoder.u64; ret (Index (to_signed 64 index))
  | _ => throw (E_Invalid "expression selector")
  end.
Definition path_decode : Decoder.M (list ScalarIndexSelector) :=
  do count <- Decoder.count;
  fail_if (negb ((1 <=? count) && (count <=? 64))) E_Limit ;;
  repeat_m (Z.to_nat count) selector_decode.
Definition operation_decode : Decoder.M ScalarIndexOperation :=
  do tag <- Decoder.u8;
  match tag with
  | 1 => ret Lower
  | 2 => ret Upper
  | 3 => do selectors <- path_decode; ret (JsonScalarPath selectors)
  | 4 => do selectors <- path_decode; ret (JsonTextPath selectors)
  | _ => throw (E_Invalid "expression operation")
  end.
(** [expression::decode]. *)
Definition expression_decode : Decoder.M ScalarIndexExpression :=
  do semantics <- Decoder.u32;
  do property <- Decoder.text;
  do count <- Decoder.count;
  fail_if (16 <? count) E_Limit ;;
  do operations <- repeat_m (Z.to_nat count) operation_decode;
  let expression := {| expr_semantics := semantics; expr_property := property; expr_operations := operations |} in
  fail_if (negb (is_valid expression)) E_Semantic ;;
  ret expression.

(** *** Indexes and constraints *)

Definition hnsw_encode (v : HnswIndexConfig) : Encoder.M unit :=
  Encoder.u32 (max_neighbors v) ;;
  Encoder.u32 (ef_construction v).
Definition ivf_encode (v : IvfIndexConfig) : Encoder.M unit := Encoder.u32 (target_centroids v).
(** The [match] over the configuration in [index_encode]. *)
Definition configuration_encode (configuration : IndexConfiguration.t) : Encoder.M unit :=
  match configuration with
  | IndexConfiguration.Property kinds =>
      Encoder.u8 1 ;;
      Encoder.count (zlen kinds) ;;
      for_each encode_index_kind kinds
  | IndexConfiguration.Vector kind dimension hnsw ivf =>
      Encoder.u8 2 ;;
      encode_vector_kind kind ;;
      Encoder.u32 dimension ;;
      encode_option hnsw_encode hnsw ;;
      encode_option ivf_encode ivf
  | IndexConfiguration.Text => Encoder.u8 3
  | IndexConfiguration.Constraint declaring_type => Encoder.u8 4 ;; Encoder.text declaring_type
  | IndexConfiguration.Expression target kind =>
      Encoder.u8 5 ;;
      expression_encode target ;;
      encode_index_kind kind
  end.
(** [index_encode]. *)
Definition index_encode (v : IndexDeclaration) : Encoder.M unit :=
  metadata_encode (index_metadata v) ;;
  target_encode (index_target v) ;;
  configuration_encode (index_configuration v).

(** [d.u32()?.try_into().map_err(|_| E::Limit)?] into a [u16]. *)
Definition decode_u16 : Decoder.M Z :=
  do v <- Decoder.u32;
  fail_if (u16_max <? v) E_Limit ;;
  ret v.
Definition hnsw_decode : Decoder.M HnswIndexConfig :=
  do max_neighbors <- decode_u16;
  do ef_construction <- decode_u16;
  ret {| max_neighbors := max_neighbors; ef_construction := ef_construction |}.
Definition ivf_decode : Decoder.M IvfIndexConfig :=
  do target_centroids <- decode_u16;
  ret {| target_centroids := target_centroids |}.
Definition configuration_decode : Decoder.M IndexConfiguration.t :=
  do tag <- Decoder.u8;
  match tag with
  | 1 =>
      do count <- Decoder.count;
      do kinds <- repeat_m (Z.to_nat count) decode_index_kind;
      ret (IndexConfiguration.Property kinds)
  | 2 =>
      do kind <- decode_vector_kind;
      do dimension <- Decoder.u32;
      do hnsw <- decode_option hnsw_decode;
      do ivf <- decode_option ivf_decode;
      ret (IndexConfiguration.Vector kind dimension hnsw ivf)
  | 3 => ret IndexConfiguration.Text
  | 4 => do declaring_type <- Decoder.text; ret (IndexConfiguration.Constraint declaring_type)
  | 5 =>
      do expression <- expression_decode;
      do kind <- decode_index_kind;
      ret (IndexConfiguration.Expression expression kind)
  | _ => throw (E_Invalid "index configuration")
  end.
(** [index_decode]. *)
Definition index_decode : Decoder.M IndexDeclaration :=
  do metadata <- metadata_decode;
  do target <- target_decode;
  do configuration <- configuration_decode;
  ret {| index_metadata := metadata; index_target := target; index_configuration := configuration |}.

(** [constraint_encode] and [constraint_decode]. *)
Definition constraint_encode (v : ConstraintDeclaration) : Encoder.M unit :=
  metadata_encode (constraint_metadata v) ;;
  target_encode (constraint_target v) ;;
  Encoder.text (constraint_declaring_type v) ;;
  Encoder.u8 (match constraint_kind v with Unique => 1 | CompositeUnique => 2 | KeyConstraint => 3 end) ;;
  encode_option Encoder.u64 (constraint_backing_index v).
Definition constraint_kind_decode : Decoder.M ConstraintKind :=
  do tag <- Decoder.u8;
  match tag with
  | 1 => ret Unique
  | 2 => ret CompositeUnique
  | 3 => ret KeyConstraint
  | _ => throw (E_Invalid "constraint kind")
  end.
Definition constraint_decode : Decoder.M ConstraintDeclaration :=
  do metadata <- metadata_decode;
  do target <- target_decode;
  do declaring_type <- Decoder.text;
  do kind <- constraint_kind_decode;
  do backing_index <- decode_option (decode_id_of Kind.Index);
  ret {| constraint_metadata := metadata; constraint_target := target; constraint_declaring_type := declaring_type;
         constraint_kind := kind; constraint_backing_index := backing_index |}.

(** ** Native declarations (codec/native.rs) *)

(** [ty_encode] and [ty_decode]; the [depth > 65] check ends the recursion, so
    that [type_fuel] levels are enough. *)
Definition type_leaf_tags : list (Z * NativeType.t) := [
  (0, NativeType.Any); (1, NativeType.AnyProperty); (2, NativeType.Boolean); (3, NativeType.Integer); (4, NativeType.Int64);
  (5, NativeType.Uint64); (6, NativeType.Float); (7, NativeType.Float64); (8, NativeType.String); (9, NativeType.Vector);
  (10, NativeType.Json); (11, NativeType.NodeRef); (12, NativeType.EdgeRef); (13, NativeType.GraphRef); (14, NativeType.OpenRecord)].
Fixpoint ty_encode (ty : NativeType.t) (depth : Z) : Encoder.M unit :=
  Encoder.on_budget (Budget.depth depth) ;;
  Encoder.on_budget (Budget.charge 1 64) ;;
  fail_if (65 <? depth) E_Limit ;;
  match ty with
  | NativeType.List inner => Encoder.u8 15 ;; ty_encode inner (depth + 1)
  | ty => encode_tag type_leaf_tags E_Limit ty
  end.
Fixpoint ty_decode_rec (fuel : nat) (depth : Z) : Decoder.M NativeType.t :=
  Decoder.on_budget (Budget.depth depth) ;;
  Decoder.on_budget (Budget.charge 1 64) ;;
  fail_if (65 <? depth) E_Limit ;;
  do tag <- Decoder.u8;
  if tag =? 15 then
    match fuel with
    | O => throw E_Limit
    | S fuel => do inner <- ty_decode_rec fuel (depth + 1); ret (NativeType.List inner)
    end
  else of_result (ok_or (variant_of type_leaf_tags tag) (E_Invalid "native type")).
Definition type_fuel : nat := 65.
Definition ty_decode : Decoder.M NativeType.t := ty_decode_rec type_fuel 1.

(** [field_encode] and [field_decode]. *)
Definition field_encode (f : NativeField) : Encoder.M unit :=
  Encoder.on_budget (Budget.metadata 1) ;;
  Encoder.text (field_name f) ;;
  ty_encode (field_ty f) 1 ;;
  Encoder.boolean (field_nullable f) ;;
  Encoder.text (field_description f).
Definition field_decode : Decoder.M NativeField :=
  Decoder.on_budget (Budget.metadata 1) ;;
  do name <- Decoder.text;
  do ty <- ty_decode;
  do nullable <- Decoder.boolean;
  do description <- Decoder.text;
  ret {| field_name := name; field_ty := ty; field_nullable := nullable; field_description := description |}.

(** The [match] over the default of a parameter. *)
Definition default_encode (default : option NativeDefault.t) : Encoder.M unit :=
  match default with
  | None => Encoder.u8 0
  | Some NativeDefault.Null => Encoder.u8 1
  | Some (NativeDefault.Boolean v) => Encoder.u8 2 ;; Encoder.boolean v
  | Some (NativeDefault.Integer v) => Encoder.u8 3 ;; Encoder.fixed (to_le 8 (of_signed 64 v))
  | Some (NativeDefault.String v) => Encoder.u8 4 ;; Encoder.text v
  end.
Definition default_decode : Decoder.M (option NativeDefault.t) :=
  do tag <- Decoder.u8;
  match tag with
  | 0 => ret None
  | 1 => ret (Some NativeDefault.Null)
  | 2 => do v <- Decoder.boolean; ret (Some (NativeDefault.Boolean v))
  | 3 => do v <- Decoder.u64; ret (Some (NativeDefault.Integer (to_signed 64 v)))
  | 4 => do v <- Decoder.text; ret (Some (NativeDefault.String v))
  | _ => throw (E_Invalid "native default")
  end.
Definition parameter_encode (parameter : NativeParameter) : Encoder.M unit :=
  field_encode (param_field parameter) ;;
  default_encode (param_default parameter) ;;
  optional_text_encode (param_default_doc parameter).
Definition parameter_decode : Decoder.M NativeParameter :=
  do field <- field_decode;
  do default <- default_decode;
  do default_doc <- optional_text_decode;
  ret {| param_field := field; param_default := default; param_default_doc := default_doc |}.

Definition effect_decode : Decoder.M NativeEffect :=
  do tag <- Decoder.u8;
  match tag with
  | 1 => ret GraphRead
  | 2 => ret SchemaWrite
  | 3 => ret MaintenanceWrite
  | _ => throw (E_Invalid "native effect")
  end.

Section Sized.
Context `{CatalogSizes}.

Definition procedure_encode (p : NativeProcedure) : Encoder.M unit :=
  strings_encode (proc_binding p) ;;
  Encoder.text (proc_description p) ;;
  Encoder.text (proc_since_version p) ;;
  Encoder.count_for size_native_parameter (zlen (proc_parameters p)) ;;
  for_each parameter_encode (proc_parameters p) ;;
  Encoder.count_for size_native_field (zlen (proc_outputs p)) ;;
  for_each field_encode (proc_outputs p) ;;
  Encoder.u8 (match proc_effect p with GraphRead => 1 | SchemaWrite => 2 | MaintenanceWrite => 3 end).
Definition procedure_decode : Decoder.M NativeProcedure :=
  do binding <- strings_decode;
  do description <- Decoder.text;
  do since_version <- Decoder.text;
  do count <- Decoder.count_for size_native_parameter;
  fail_if (256 <? count) E_Limit ;;
  do parameters <- repeat_m (Z.to_nat count) parameter_decode;
  do count <- Decoder.count_for size_native_field;
  fail_if (256 <? count) E_Limit ;;
  do outputs <- repeat_m (Z.to_nat count) field_decode;
  do effect <- effect_decode;
  ret {| proc_binding := binding; proc_description := description; proc_since_version := since_version;
         proc_parameters := parameters; proc_outputs := outputs; proc_effect := effect |}.

Definition candidate_encode (v : NativeCandidateState) : Encoder.M unit :=
  optional_text_encode (required_label v) ;;
  strings_encode (require_outgoing v) ;;
  strings_encode (require_incoming v) ;;
  strings_encode (exclude_outgoing v) ;;
  strings_encode (exclude_incoming v).
Definition candidate_decode : Decoder.M NativeCandidateState :=
  do required_label <- optional_text_decode;
  do require_outgoing <- strings_decode;
  do require_incoming <- strings_decode;
  do exclude_outgoing <- strings_decode;
  do exclude_incoming <- strings_decode;
  ret {| required_label := required_label; require_outgoing := require_outgoing; require_incoming := require_incoming;
         exclude_outgoing := exclude_outgoing; exclude_incoming := exclude_incoming |}.
Definition projection_encode (v : NativeProjection) : Encoder.M unit :=
  strings_encode (proj_node_labels v) ;;
  strings_encode (proj_edge_labels v) ;;
  optional_text_encode (proj_weight_property v).
Definition projection_decode : Decoder.M NativeProjection :=
  do node_labels <- strings_decode;
  do edge_labels <- strings_decode;
  do weight_property <- optional_text_decode;
  ret {| proj_node_labels := node_labels; proj_edge_labels := edge_labels; proj_weight_property := weight_property |}.

(** [native::encode] and [native::decode]. *)
Definition binding_encode (binding : NativeBinding.t) : Encoder.M unit :=
  match binding with
  | NativeBinding.Procedure p => Encoder.u8 1 ;; procedure_encode p
  | NativeBinding.CandidateState v => Encoder.u8 2 ;; candidate_encode v
  | NativeBinding.Projection v => Encoder.u8 3 ;; projection_encode v
  end.
Definition native_encode (v : NativeDeclaration) : Encoder.M unit :=
  metadata_encode (native_metadata v) ;;
  binding_encode (native_binding v).
Definition binding_decode : Decoder.M NativeBinding.t :=
  do tag <- Decoder.u8;
  match tag with
  | 1 => do p <- procedure_decode; ret (NativeBinding.Procedure p)
  | 2 => do v <- candidate_decode; ret (NativeBinding.CandidateState v)
  | 3 => do v <- projection_decode; ret (NativeBinding.Projection v)
  | _ => throw (E_Invalid "native binding kind")
  end.
Definition native_decode : Decoder.M NativeDeclaration :=
  do metadata <- metadata_decode;
  do binding <- binding_decode;
  ret {| native_metadata := metadata; native_binding := binding |}.

(** ** Descriptors (codec/descriptor.rs) *)

Definition parent_encode (parent : CatalogParent) : Encoder.M unit :=
  match parent with
  | Parent.None => Encoder.u8 0
  | Parent.Catalog id => id_encode (Id.Catalog id)
  | Parent.Directory id => id_encode (Id.Directory id)
  | Parent.Schema id => id_encode (Id.Schema id)
  | Parent.Graph id => id_encode (Id.Graph id)
  | Parent.GraphType id => id_encode (Id.GraphType id)
  end.
Definition payload_encode (payload : CatalogPayload) : Encoder.M unit :=
  match payload with
  | Payload.Catalog => Encoder.u8 1
  | Payload.RootDirectory => Encoder.u8 2
  | Payload.Schema => Encoder.u8 3
  | Payload.Graph graph_type => Encoder.u8 4 ;; encode_option Encoder.u64 graph_type
  | Payload.GraphType => Encoder.u8 5
  | Payload.BindingTable => Encoder.u8 6
  | Payload.Procedure v => Encoder.u8 7 ;; native_encode v
  | Payload.Index v => Encoder.u8 8 ;; index_encode v
  | Payload.Constraint v => Encoder.u8 9 ;; constraint_encode v
  end.
(** [descriptor::encode]. *)
Definition descriptor_encode (d : CatalogDescriptor) : Encoder.M unit :=
  do _ <- of_result (semantic (d_validate d));
  id_encode (d_id d) ;;
  Encoder.u8 (match name_form (d_name d) with SyntheticRoot => 0 | Regular => 1 | Delimited => 2 end) ;;
  Encoder.text (name_display (d_name d)) ;;
  parent_encode (d_parent d) ;;
  Encoder.u64 (d_generation d) ;;
  Encoder.u64 (creation_generation (d_creation d)) ;;
  optional_text_encode (creation_principal (d_creation d)) ;;
  payload_encode (d_payload d).

Context `{Unicode}.

Definition name_decode : Decoder.M CatalogName :=
  do form <- Decoder.u8;
  do text <- Decoder.text;
  of_result
    (match form with
     | 0 => if zlen text =? 0 then Ok synthetic_root else Err (E_Invalid "catalog name form")
     | 1 => semantic (name_regular text)
     | 2 => semantic (name_delimited text)
     | _ => Err (E_Invalid "catalog name form")
     end).
Definition parent_decode : Decoder.M CatalogParent :=
  do tag <- Decoder.u8;
  match tag with
  | 0 => ret Parent.None
  | 1 => do id <- decode_id_of Kind.Catalog; ret (Parent.Catalog id)
  | 2 => do id <- decode_id_of Kind.Directory; ret (Parent.Directory id)
  | 3 => do id <- decode_id_of Kind.Schema; ret (Parent.Schema id)
  | 4 => do id <- decode_id_of Kind.Graph; ret (Parent.Graph id)
  | 5 => do id <- decode_id_of Kind.GraphType; ret (Parent.GraphType id)
  | _ => throw (E_Invalid "catalog parent kind")
  end.
Definition payload_decode : Decoder.M CatalogPayload :=
  do tag <- Decoder.u8;
  match tag with
  | 1 => ret Payload.Catalog
  | 2 => ret Payload.RootDirectory
  | 3 => ret Payload.Schema
  | 4 => do graph_type <- decode_option (decode_id_of Kind.GraphType); ret (Payload.Graph graph_type)
  | 5 => ret Payload.GraphType
  | 6 => ret Payload.BindingTable
  | 7 => do v <- native_decode; ret (Payload.Procedure v)
  | 8 => do v <- index_decode; ret (Payload.Index v)
  | 9 => do v <- constraint_decode; ret (Payload.Constraint v)
  | _ => throw (E_Unsupported "catalog payload tag")
  end.
(** [descriptor::decode]. *)
Definition descriptor_decode : Decoder.M CatalogDescriptor :=
  do id <- id_decode;
  do name <- name_decode;
  do parent <- parent_decode;
  do revision <- decode_generation;
  do creation <- decode_generation;
  do principal <- optional_text_decode;
  do payload <- payload_decode;
  of_result (semantic (d_new id (Id.kind id) name parent revision {| creation_generation := creation; creation_principal := principal |} payload)).

(** ** Deltas (codec.rs) *)

(** One turn of the loop of [CatalogDelta::encode] after the test for a repeated identity. *)
Definition change_encode (change : CatalogLogicalChange) : Encoder.M unit :=
  Encoder.on_budget (Budget.metadata 1) ;;
  match change with
  | Created d => Encoder.u8 1 ;; descriptor_encode d
  | Replaced previous d => Encoder.u8 2 ;; Encoder.u64 previous ;; descriptor_encode d
  | Dropped id generation => Encoder.u8 3 ;; id_encode id ;; Encoder.u64 generation
  end.
Fixpoint changes_encode (seen : gset CatalogObjectId) (changes : list CatalogLogicalChange) : Encoder.M unit :=
  match changes with
  | [] => ret tt
  | change :: changes =>
      fail_if (bool_decide (change_id change ∈ seen)) (E_Invalid "duplicate catalog change") ;;
      change_encode change ;;
      changes_encode ({[change_id change]} ∪ seen) changes
  end.
(** [CatalogDelta::encode]. *)
Definition catalog_delta_encode (self : CatalogDelta) : Encoder.M unit :=
  Encoder.u64 (c_previous self) ;;
  Encoder.u64 (c_generation self) ;;
  for_each Encoder.u64 (c_high_water self) ;;
  Encoder.count_for size_catalog_change (zlen (c_changes self)) ;;
  changes_encode ∅ (c_changes self).

Definition change_decode : Decoder.M CatalogLogicalChange :=
  Decoder.on_budget (Budget.metadata 1) ;;
  do tag <- Decoder.u8;
  match tag with
  | 1 => do d <- descriptor_decode; ret (Created d)
  | 2 => do previous <- decode_generation; do d <- descriptor_decode; ret (Replaced previous d)
  | 3 => do id <- id_decode; do generation <- decode_generation; ret (Dropped id generation)
  | _ => throw (E_Unsupported "catalog operation tag")
  end.
Fixpoint changes_decode (n : nat) (seen : gset CatalogObjectId) (changes : list CatalogLogicalChange) : Decoder.M (list CatalogLogicalChange) :=
  match n with
  | O => ret changes
  | S n =>
      do change <- change_decode;
      fail_if (bool_decide (change_id change ∈ seen)) (E_Invalid "duplicate catalog change") ;;
      changes_decode n ({[change_id change]} ∪ seen) (changes ++ [change])
  end.
(** [CatalogDelta::decode]. *)
Definition catalog_delta_decode : Decoder.M CatalogDelta :=
  do previous <- decode_generation;
  do generation <- decode_generation;
  do high_water <- repeat_m 9 Decoder.u64;
  do count <- Decoder.count_for size_catalog_change;
  do changes <- changes_decode (Z.to_nat count) ∅ [];
  ret {| c_previous := previous; c_generation := generation; c_high_water := high_water; c_changes := changes |}.

(** ** Complete records (codec/checkpoint.rs) *)

(** A method that does not panic, among methods that may. *)
Definition lifted {S A} (m : method S CodecError A) : method S (fault CodecError) A := fun self =>
  let '(r, self) := m self in (lift r, self).

(** The fields after the snapshot is reconstructed. *)
Definition records_body (generation : Z) (self : CatalogLogicalRecords) : Encoder.M unit :=
  Encoder.u64 generation ;;
  for_each (fun kind => Encoder.u64 (water (r_high_water self) kind)) DOMAINS ;;
  Encoder.count_for size_catalog_descriptor (zlen (r_descriptors self)) ;;
  Encoder.on_budget (Budget.metadata (zlen (r_descriptors self))) ;;
  for_each descriptor_encode (r_descriptors self).
(** [encode_records]. *)
Definition encode_records (records : CatalogLogicalRecords) : method Encoder.t (fault CodecError) unit :=
  do snapshot <- of_result (fails_as E_Semantic (reconstruct records));
  lifted (records_body (s_generation snapshot) records).

Fixpoint descriptors_decode (n : nat) (descriptors : list CatalogDescriptor) : Decoder.M (list CatalogDescriptor) :=
  match n with
  | O => ret descriptors
  | S n =>
      do record <- descriptor_decode;
      fail_if (match last descriptors with Some last => Id.leb (d_id record) (d_id last) | None => false end) (E_Invalid "catalog image identity order") ;;
      descriptors_decode n (descriptors ++ [record])
  end.
Definition records_fields : Decoder.M (Z * list Z * list CatalogDescriptor) :=
  do generation <- decode_generation;
  do high_water <- repeat_m (length DOMAINS) Decoder.u64;
  do count <- Decoder.count_for size_catalog_descriptor;
  Decoder.on_budget (Budget.metadata count) ;;
  do descriptors <- descriptors_decode (Z.to_nat count) [];
  ret (generation, high_water, descriptors).
(** [decode_records]. *)
Definition decode_records : method Decoder.t (fault CodecError) CatalogLogicalRecords :=
  do fields <- lifted records_fields;
  let '(generation, high_water, descriptors) := fields in
  of_result (fails_as E_Semantic (records_new generation (list_to_map (zip DOMAINS high_water)) descriptors)).

(** [account_records]: the budget of a counting encoder; an error leaves the budget of the caller. *)
Definition account_records (records : CatalogLogicalRecords) : method Budget.t CodecError unit := fun budget =>
  let body :=
    Encoder.count_for size_catalog_descriptor (zlen (r_descriptors records)) ;;
    Encoder.on_budget (Budget.metadata (zlen (r_descriptors records))) ;;
    for_each descriptor_encode (r_descriptors records) in
  match body (Encoder.counting budget) with
  | (Ok _, e) => (Ok tt, Encoder.budget e)
  | (Err err, _) => (Err err, budget)
  end.
End Sized.
