(* ===== verification/CatalogCodecProps.v ===== *)
(** The codec of the catalog: what is encoded is read back, and decoded records
    are written as the bytes they were read from.

    A decoded declaration lists its dependencies in the order of their
    identities; [normal] sorts them. *)

From stdpp Require Import relations sorting.
From S2P Require Import Prelude Errors Wire Value ValueCodec ValueLoop ValueRoundtrip ValueCanonical Ordered LabelSet PropertyMap Schema WireProps SchemaProps Catalog CatalogSnapshot CatalogOrder CatalogBuild CatalogRecords CatalogCodec.
From coqutil Require Import Byte.

(** What the Rust types guarantee: [NonZeroU64] and [String]. *)
Definition nonzero_u64 (z : Z) : Prop := 0 < z <= u64_max.
Definition text_ok (s : bytes) : Prop := utf8_valid s = true.

Lemma mirrors_str s : text_ok s -> mirrors (Encoder.text s) Decoder.text s.
Proof. apply mirrors_text. Qed.
Lemma writes_text t v t' : Decoder.text t = (Ok v, t') -> writes (Encoder.text v) t t'.
Proof. apply canonical_text. Qed.
#[export] Hint Resolve mirrors_str writes_text : codec.
#[export] Instance hungry_text : Hungry Decoder.text.
Proof. unfold Decoder.text, Decoder.blob. apply _. Qed.

(** ** Identities *)

Definition id_ok (id : CatalogObjectId) : Prop := nonzero_u64 (Id.get id).

Lemma nonzero_is_u64 z : nonzero_u64 z -> is_u64 z.
Proof. unfold nonzero_u64, is_u64. lia. Qed.
#[export] Hint Resolve nonzero_is_u64 : codec.

Lemma nonzero_new kind z : nonzero_u64 z -> semantic (id_new kind z) = Ok z.
Proof. intros [? _]. unfold semantic, id_new. by rewrite (proj2 (Z.eqb_neq z 0)) by lia. Qed.
Lemma nonzero_generation z : nonzero_u64 z -> semantic (generation_new z) = Ok z.
Proof. intros [? _]. unfold semantic, generation_new. by rewrite (proj2 (Z.eqb_neq z 0)) by lia. Qed.

Lemma mirrors_id id : id_ok id -> mirrors (id_encode id) id_decode id.
Proof.
  intros Hid. eapply mirrors_bind; [apply mirrors_u8; by destruct id|]. eapply mirrors_then; [by apply mirrors_u64, nonzero_is_u64|].
  intros t. unfold id_ok in Hid. destruct id; cbn in *; by rewrite nonzero_new.
Qed.
Lemma mirrors_generation z : nonzero_u64 z -> mirrors (Encoder.u64 z) decode_generation z.
Proof. intros Hz. eapply mirrors_then; [by apply mirrors_u64, nonzero_is_u64|]. intros t. by rewrite nonzero_generation. Qed.
Lemma mirrors_id_of kind z : nonzero_u64 z -> mirrors (Encoder.u64 z) (decode_id_of kind) z.
Proof. intros Hz. eapply mirrors_then; [by apply mirrors_u64, nonzero_is_u64|]. intros t. by rewrite nonzero_new. Qed.
#[export] Hint Resolve mirrors_id mirrors_generation mirrors_id_of : codec.


Lemma id_new_inv kind raw id : semantic (id_new kind raw) = Ok id -> id = raw /\ raw <> 0.
Proof. unfold semantic, id_new. destruct (Z.eqb_spec raw 0); [done|]. cbn. intros [= <-]. done. Qed.
Lemma generation_new_inv raw g : semantic (generation_new raw) = Ok g -> g = raw /\ raw <> 0.
Proof. unfold semantic, generation_new. destruct (Z.eqb_spec raw 0); [done|]. cbn. intros [= <-]. done. Qed.

Lemma canonical_id : canonical id_decode id_encode.
Proof.
  apply canonical_writes. intros t t' id D. unfold id_decode in D. run_inv.
  assert (a = kind_tag (Id.kind id) /\ a0 = Id.get id) as [-> ->].
  { repeat case_match; try done; injection D as <-; match goal with E : semantic _ = Ok _ |- _ => apply id_new_inv in E as [-> _] end; done. }
  all_written.
Qed.
Lemma canonical_generation : canonical decode_generation Encoder.u64.
Proof. apply canonical_writes. intros t t' g D. unfold decode_generation in D. run_inv. apply generation_new_inv in D as [-> _]. eauto with codec. Qed.
Lemma canonical_id_of kind : canonical (decode_id_of kind) Encoder.u64.
Proof. apply canonical_writes. intros t t' g D. unfold decode_id_of in D. run_inv. apply id_new_inv in D as [-> _]. eauto with codec. Qed.
Lemma writes_id t v t' : id_decode t = (Ok v, t') -> writes (id_encode v) t t'.
Proof. apply canonical_id. Qed.
Lemma writes_generation t v t' : decode_generation t = (Ok v, t') -> writes (Encoder.u64 v) t t'.
Proof. apply canonical_generation. Qed.
#[export] Hint Resolve writes_id writes_generation : codec.
#[export] Instance hungry_id : Hungry id_decode.
Proof. unfold id_decode. apply _. Qed.

(** Optional strings and lists of strings. *)
Lemma mirrors_optional o : (forall s, o = Some s -> text_ok s) -> mirrors (optional_text_encode o) optional_text_decode o.
Proof.
  intros Ho. unfold optional_text_encode, optional_text_decode. replace o with ((fun x => x) <$> o) at 2 by (by destruct o).
  apply mirrors_option. intros x Hx. apply mirrors_str, Ho, Hx.
Qed.
Lemma writes_optional t o t' : optional_text_decode t = (Ok o, t') -> writes (optional_text_encode o) t t'.
Proof. apply (canonical_option _ _ canonical_text). Qed.
Lemma mirrors_strings l : Forall text_ok l -> mirrors (strings_encode l) strings_decode l.
Proof.
  intros Hl. unfold strings_encode, strings_decode. pose proof (Forall_impl _ _ _ Hl mirrors_str) as HM. apply mirrors_count_for; [apply zlen_nonneg| |].
  - by eapply (emits_each _ (fun x => x) Decoder.text); [apply _|].
  - unfold zlen. rewrite Nat2Z.id. pose proof (mirrors_each _ (fun x => x) Decoder.text l HM) as HE. by rewrite map_id in HE.
Qed.
Lemma writes_strings t l t' : strings_decode t = (Ok l, t') -> writes (strings_encode l) t t'.
Proof.
  intros D. unfold strings_decode in D. run_inv. destruct (canonical_counted _ _ _ _ _ _ _ _ Hrun D canonical_text) as [W1 W2].
  by eapply writes_bind.
Qed.
#[export] Hint Resolve mirrors_optional writes_optional mirrors_strings writes_strings : codec.

(** ** Sequences in the order of identities *)

Lemma id_ltb_trans a b c : Id.ltb a b = true -> Id.ltb b c = true -> Id.ltb a c = true.
Proof.
  rewrite !id_ltb_spec. intros [H1 N1] [H2 N2]. split; [by eapply id_leb_trans|]. intros ->. by apply N1, id_leb_antisym.
Qed.

Lemma ascending_ids_app l1 l2 : ascending_ids (l1 ++ l2) <->
  ascending_ids l1 /\ ascending_ids l2 /\ forall a b, a ∈ l1 -> b ∈ l2 -> Id.ltb a b = true.
Proof.
  unfold ascending_ids. induction l1 as [|x l1 IH]; cbn.
  { split; [intros; split; [constructor|split; [done|by intros a b []%elem_of_nil]]|by intros (_ & ? & _)]. }
  split.
  - intros [Hs Hf]%StronglySorted_inv. apply IH in Hs as (H1 & H2 & H3). apply Forall_app in Hf as [Hf1 Hf2]. split; [by constructor|]. split; [done|].
    intros a b [->|Ha]%elem_of_cons Hb; [by rewrite Forall_forall in Hf2; apply Hf2|by apply H3].
  - intros ([H1 Hf]%StronglySorted_inv & H2 & H3). constructor.
    + apply IH. split; [done|]. split; [done|]. intros a b Ha Hb. apply H3; [by right|done].
    + apply Forall_app. split; [done|]. apply Forall_forall. intros b Hb. apply H3; [by left|done].
Qed.

Section Ascending.
Context {A : Type} (key : A -> CatalogObjectId).

(** The test of the decoding loops. *)
Definition not_above (acc : list A) (id : CatalogObjectId) : bool :=
  match last acc with Some x => Id.leb id (key x) | None => false end.

Lemma ascending_snoc acc x : ascending_ids (map key (acc ++ [x])) <-> ascending_ids (map key acc) /\ not_above acc (key x) = false.
Proof.
  rewrite map_app, ascending_ids_app. cbn. unfold not_above. destruct (last acc) as [y|] eqn:E.
  - apply last_Some in E as (l & ->). split.
    + intros (H1 & _ & H3). split; [done|]. apply negb_true_iff. apply (H3 (key y) (key x)); [rewrite map_app; apply elem_of_app; right|]; by left.
    + intros [H1 H2]. split; [done|]. split; [by repeat constructor|]. intros a b Ha ->%list_elem_of_singleton.
      assert (Hyx : Id.ltb (key y) (key x) = true) by (unfold Id.ltb; by rewrite H2).
      rewrite map_app in Ha. cbn in Ha. apply elem_of_app in Ha as [Ha| ->%list_elem_of_singleton]; [|done].
      rewrite map_app in H1. apply ascending_ids_app in H1 as (_ & _ & H3). eapply id_ltb_trans; [|exact Hyx]. apply H3; [done|by left].
  - apply last_None in E as ->. cbn. split; [intros (H1 & _ & _); done|]. intros _. split; [constructor|]. split; [by repeat constructor|].
    by intros a b []%elem_of_nil.
Qed.

Lemma ascending_prefix l1 l2 : ascending_ids (map key (l1 ++ l2)) -> ascending_ids (map key l1).
Proof. rewrite map_app. by intros (? & _)%ascending_ids_app. Qed.
End Ascending.

(** ** Metadata *)

(** Nested sequences of fields. *)
Lemma mirrors_assoc {A} (e1 e2 e3 : Encoder.M unit) (d : Decoder.M A) a : mirrors (e1 ;; e2 ;; e3) d a -> mirrors ((e1 ;; e2) ;; e3) d a.
Proof. intros M s s' E. rewrite bind_assoc in E. by apply M. Qed.

Definition dependency_ok (dep : DeclarationDependency) : Prop := id_ok (dep_id dep) /\ nonzero_u64 (dep_generation dep).

Lemma mirrors_dependencies l acc : Forall dependency_ok l -> ascending_ids (map dep_id (acc ++ l)) ->
  mirrors (for_each dependency_encode l) (dependencies_loop (length l) acc) (acc ++ l).
Proof.
  intros Hl. revert acc. induction Hl as [|[id g] l [Hi Hg] _ IH]; intros acc Hs; cbn [for_each dependencies_loop length].
  { rewrite app_nil_r. apply mirrors_ret. }
  rewrite (cons_middle _ acc l), app_assoc in *. unfold dependency_encode. cbn [dep_id dep_generation] in *.
  apply mirrors_assoc. field.
  apply mirrors_pure with (a := tt); [|field; by apply IH].
  intros t. apply ascending_prefix, ascending_snoc in Hs as [_ Hn]. unfold not_above in Hn. cbn in Hn. by rewrite Hn.
Qed.

Lemma dependencies_inv n acc t r t' : dependencies_loop n acc t = (Ok r, t') ->
  exists l, r = acc ++ l /\ length l = n /\ (ascending_ids (map dep_id acc) -> ascending_ids (map dep_id r)) /\ writes (for_each dependency_encode l) t t'.
Proof.
  revert acc t. induction n as [|n IH]; intros acc t D; cbn [dependencies_loop] in D.
  { run_inv. exists []. rewrite app_nil_r. split; [done|]. split; [done|]. split; [done|]. apply writes_ret. }
  run_inv. apply IH in D as (l & -> & Hl & Hs & W). exists ({| dep_id := a; dep_generation := a1 |} :: l).
  split; [by rewrite <- app_assoc|]. split; [by cbn; f_equal|]. split; [intros Ha; apply Hs, ascending_snoc; by split|].
  cbn [for_each]. eapply writes_bind; [|exact W]. all_written.
Qed.

Definition normal_metadata (m : DeclarationMetadata) : DeclarationMetadata :=
  {| meta_state := meta_state m; meta_profile := meta_profile m; meta_dependencies := sort_dependencies (meta_dependencies m) |}.
Definition metadata_ok (m : DeclarationMetadata) : Prop :=
  text_ok (profile_id (meta_profile m)) /\ text_ok (profile_hash (meta_profile m)) /\ is_u32 (profile_semantics (meta_profile m)) /\
  Forall dependency_ok (meta_dependencies m).

Lemma sort_dependencies_perm l : sort_dependencies l ≡ₚ l.
Proof. apply sort_with_perm. Qed.
Lemma sort_dependencies_ascending l : NoDup (map dep_id l) -> ascending_ids (map dep_id (sort_dependencies l)).
Proof.
  intros Hn. apply ordered_key_ascending.
  - apply sort_with_ordered; [intros x y; apply id_leb_total|intros x y z; apply id_leb_trans].
  - eapply NoDup_Permutation_proper; [apply fmap_Permutation, sort_dependencies_perm|done].
Qed.
Lemma sort_dependencies_id l : ascending_ids (map dep_id l) -> sort_dependencies l = l.
Proof. intros Hs. by apply sort_with_id, ascending_key_ordered. Qed.

Lemma metadata_validate_inv m : metadata_validate m = Ok tt ->
  meta_profile m = profile_current /\ zlen (meta_dependencies m) <= 256 /\ NoDup (map dep_id (meta_dependencies m)).
Proof.
  unfold metadata_validate. intros Hv. case_bool_decide as Hp; cbn in Hv; [|done]. destruct (Z.ltb_spec 256 (zlen (meta_dependencies m))); [done|].
  destruct (any_repeated _ _) eqn:E; [done|]. by apply any_repeated_NoDup in E as [? _].
Qed.
Lemma metadata_validate_intro m : meta_profile m = profile_current -> zlen (meta_dependencies m) <= 256 -> NoDup (map dep_id (meta_dependencies m)) ->
  metadata_validate m = Ok tt.
Proof.
  intros Hp Hl Hn. unfold metadata_validate. rewrite bool_decide_eq_true_2 by done. cbn. rewrite (proj2 (Z.ltb_ge _ _)) by done.
  rewrite (proj2 (any_repeated_NoDup [] _)); [done|]. split; [done|]. by intros x _ []%elem_of_nil.
Qed.
Lemma normal_metadata_validate m : metadata_validate m = Ok tt -> metadata_validate (normal_metadata m) = Ok tt.
Proof.
  intros (Hp & Hl & Hn)%metadata_validate_inv. apply metadata_validate_intro; cbn; [done| |].
  - unfold zlen in *. by rewrite sort_dependencies_perm.
  - eapply NoDup_Permutation_proper; [apply fmap_Permutation, sort_dependencies_perm|done].
Qed.

(** Tags of variants without fields. *)
Ltac tag_mirrors x := eapply mirrors_then; [by apply mirrors_u8; destruct x|]; intros t; by destruct x.
Ltac tag_writes D d := unfold d in D; run_inv; repeat case_match; subst; try done; run_inv; by apply writes_u8.

Lemma mirrors_state state : mirrors (Encoder.u8 (match state with Inactive => 0 | Building => 1 | Ready => 2 | Failed => 3 end)) state_decode state.
Proof. tag_mirrors state. Qed.
Lemma writes_state t state t' : state_decode t = (Ok state, t') ->
  writes (Encoder.u8 (match state with Inactive => 0 | Building => 1 | Ready => 2 | Failed => 3 end)) t t'.
Proof. intros D. tag_writes D state_decode. Qed.
Lemma mirrors_element element : mirrors (Encoder.u8 (match element with Node => 1 | Edge => 2 end)) element_decode element.
Proof. tag_mirrors element. Qed.
Lemma writes_element t element t' : element_decode t = (Ok element, t') -> writes (Encoder.u8 (match element with Node => 1 | Edge => 2 end)) t t'.
Proof. intros D. tag_writes D element_decode. Qed.
Lemma mirrors_constraint_kind kind :
  mirrors (Encoder.u8 (match kind with Unique => 1 | CompositeUnique => 2 | KeyConstraint => 3 end)) constraint_kind_decode kind.
Proof. tag_mirrors kind. Qed.
Lemma writes_constraint_kind t kind t' : constraint_kind_decode t = (Ok kind, t') ->
  writes (Encoder.u8 (match kind with Unique => 1 | CompositeUnique => 2 | KeyConstraint => 3 end)) t t'.
Proof. intros D. tag_writes D constraint_kind_decode. Qed.
Lemma mirrors_effect effect :
  mirrors (Encoder.u8 (match effect with GraphRead => 1 | SchemaWrite => 2 | MaintenanceWrite => 3 end)) effect_decode effect.
Proof. tag_mirrors effect. Qed.
Lemma writes_effect t effect t' : effect_decode t = (Ok effect, t') ->
  writes (Encoder.u8 (match effect with GraphRead => 1 | SchemaWrite => 2 | MaintenanceWrite => 3 end)) t t'.
Proof. intros D. tag_writes D effect_decode. Qed.
#[export] Hint Resolve mirrors_state writes_state mirrors_element writes_element mirrors_constraint_kind writes_constraint_kind mirrors_effect writes_effect : codec.

(** A counted sequence with a bound on the count. *)
Lemma mirrors_limited {A B C} size (f : A -> Encoder.M unit) (g : A -> B) d l over err rest (k : list B -> Decoder.M C) c :
  over (zlen l) = false -> Hungry d -> Forall (fun x => mirrors (f x) d (g x)) l -> mirrors rest (k (map g l)) c ->
  mirrors (Encoder.count_for size (zlen l) ;; for_each f l ;; rest)
    (do n <- Decoder.count_for size; fail_if (over n) err ;; do x <- repeat_m (Z.to_nat n) d; k x) c.
Proof.
  intros Ho Hd Hf Hr. pose proof (mirrors_each f g d l Hf) as Hl. apply mirrors_count_for; [apply zlen_nonneg| |].
  - apply emits_bind_l; [by eapply emits_each|by eapply emits_of_mirrors].
  - apply mirrors_pure with (a := tt); [intros t; by rewrite Ho|]. unfold zlen. rewrite Nat2Z.id. by eapply mirrors_bind.
Qed.

Lemma mirrors_limited_last {A B C} size (f : A -> Encoder.M unit) (g : A -> B) d l over err (k : list B -> Decoder.M C) c :
  over (zlen l) = false -> Hungry d -> Forall (fun x => mirrors (f x) d (g x)) l -> (forall t, k (map g l) t = (Ok c, t)) ->
  mirrors (Encoder.count_for size (zlen l) ;; for_each f l)
    (do n <- Decoder.count_for size; fail_if (over n) err ;; do x <- repeat_m (Z.to_nat n) d; k x) c.
Proof.
  intros Ho Hd Hf Hr. pose proof (mirrors_each f g d l Hf) as Hl. apply mirrors_count_for; [apply zlen_nonneg| |].
  - by eapply emits_each.
  - apply mirrors_pure with (a := tt); [intros t; by rewrite Ho|]. unfold zlen. rewrite Nat2Z.id. by eapply mirrors_then.
Qed.

Lemma mirrors_metadata m : metadata_ok m -> metadata_validate m = Ok tt -> mirrors (metadata_encode m) metadata_decode (normal_metadata m).
Proof.
  intros (Hi & Hh & Hs & Hd) (_ & Hl & Hn)%metadata_validate_inv. unfold metadata_encode, metadata_decode. do 5 field.
  pose proof (Permutation_length (sort_dependencies_perm (meta_dependencies m))) as HL.
  assert (Hd' : Forall dependency_ok (sort_dependencies (meta_dependencies m))) by (by rewrite sort_dependencies_perm).
  assert (HM := mirrors_dependencies _ [] Hd' (sort_dependencies_ascending _ Hn)).
  apply mirrors_count_for; [apply zlen_nonneg| |].
  - replace (zlen (meta_dependencies m)) with (zlen (sort_dependencies (meta_dependencies m))) by (unfold zlen; by rewrite HL).
    apply emits_for_each. eapply Forall_impl; [exact Hd'|]. intros dep [Hid Hg].
    apply emits_bind_l; [by eapply emits_hungry; [apply mirrors_id|apply _]|by eapply emits_of_mirrors, mirrors_generation].
  - apply mirrors_pure with (a := tt); [intros t; by rewrite (proj2 (Z.ltb_ge _ _))|]. unfold zlen. rewrite Nat2Z.id, <- HL.
    eapply mirrors_then; [exact HM|]. intros t. by destruct m as [? [? ? ?] ?].
Qed.

Lemma metadata_inv t m t' : metadata_decode t = (Ok m, t') -> ascending_ids (map dep_id (meta_dependencies m)) /\ writes (metadata_encode m) t t'.
Proof.
  intros D. unfold metadata_decode in D. run_inv. match goal with E : dependencies_loop _ _ _ = _ |- _ => apply dependencies_inv in E as (l & -> & Hl & Hs & W) end.
  match goal with E : Decoder.count _ = _ |- _ => rename E into EC end. cbn [app] in *.
  specialize (Hs (SSorted_nil _)). split; [done|]. unfold metadata_encode. cbn [meta_state meta_profile meta_dependencies profile_id profile_hash profile_semantics].
  rewrite sort_dependencies_id by done. all_written. eapply writes_bind; [|exact W].
  rewrite (count_length _ _ _ _ _ EC Hl). by eapply canonical_count_for.
Qed.

(** ** Targets and expressions *)

Definition target_ok (target : PropertyTarget) : Prop := text_ok (target_label target) /\ Forall text_ok (target_properties target).
Lemma mirrors_target target : target_ok target -> mirrors (target_encode target) target_decode target.
Proof.
  destruct target as [e l p]. intros [Hl Hp]. unfold target_encode, target_decode. cbn in *. do 2 field. by eapply mirrors_then; [apply mirrors_strings|].
Qed.
Lemma writes_target t target t' : target_decode t = (Ok target, t') -> writes (target_encode target) t t'.
Proof. intros D. unfold target_decode in D. run_inv. unfold target_encode. cbn. all_written. Qed.

Definition selector_ok (selector : ScalarIndexSelector) : Prop :=
  match selector with Key key => text_ok key | Index index => is_signed 64 index end.
Definition operation_ok (operation : ScalarIndexOperation) : Prop :=
  match operation with JsonScalarPath path | JsonTextPath path => Forall selector_ok path | _ => True end.
Definition expression_ok (expression : ScalarIndexExpression) : Prop :=
  text_ok (expr_property expression) /\ Forall operation_ok (expr_operations expression).

Lemma mirrors_i64 z : is_signed 64 z -> mirrors (Encoder.u64 (of_signed 64 z)) (do v <- Decoder.u64; ret (to_signed 64 v)) z.
Proof. intros Hz. eapply mirrors_then; [by apply mirrors_u64, signed_u64|]. intros t. by rewrite to_of_signed. Qed.

Lemma mirrors_selector selector : selector_ok selector -> mirrors (selector_encode selector) selector_decode selector.
Proof.
  intros Hs. unfold selector_encode, selector_decode. destruct selector as [key|index]; cbn in Hs; (eapply mirrors_bind; [by apply mirrors_u8|]); cbv beta iota.
  - by apply mirrors_map, mirrors_str.
  - eapply mirrors_then; [by apply mirrors_u64, signed_u64|]. intros t. by rewrite to_of_signed.
Qed.
Lemma canonical_selector : canonical selector_decode selector_encode.
Proof.
  apply canonical_writes. intros t t' selector D. unfold selector_decode in D. run_inv. repeat case_match; subst; try done; run_inv; cbn [selector_encode]; all_written.
  rewrite of_to_signed; [eauto with codec|done|]. apply dec_u64_Ok in Hrun0 as (_ & _ & Hu). unfold is_u64, u64_max in Hu. lia.
Qed.
#[export] Instance hungry_selector : Hungry selector_decode.
Proof. unfold selector_decode. apply _. Qed.

Lemma mirrors_path path : Forall selector_ok path -> 1 <= zlen path <= 64 -> mirrors (path_encode path) path_decode path.
Proof.
  intros Hp Hl. unfold path_encode, path_decode. pose proof (Forall_impl _ _ _ Hp mirrors_selector) as HM. apply mirrors_count_for; [lia| |].
  - by eapply (emits_each _ (fun x => x) selector_decode); [apply _|].
  - apply mirrors_pure with (a := tt); [intros t; by rewrite !(proj2 (Z.leb_le _ _)) by lia|]. unfold zlen. rewrite Nat2Z.id.
    pose proof (mirrors_each _ (fun x => x) selector_decode path HM) as HE. by rewrite map_id in HE.
Qed.
Lemma writes_path t path t' : path_decode t = (Ok path, t') -> writes (path_encode path) t t'.
Proof.
  intros D. unfold path_decode in D. run_inv. destruct (canonical_counted _ _ _ _ _ _ _ _ Hrun D canonical_selector) as [W1 W2]. by eapply writes_bind.
Qed.
#[export] Hint Resolve writes_path writes_target mirrors_target : codec.

Lemma mirrors_operation operation : operation_ok operation -> valid_operation operation = true -> mirrors (operation_encode operation) operation_decode operation.
Proof.
  assert (HP : forall path, valid_path path = true -> 1 <= zlen path <= 64).
  { intros path Hv. unfold valid_path in Hv. bool_inv. lia. }
  intros Ho Hv. unfold operation_encode, operation_decode. destruct operation as [| |path|path]; cbn in Ho, Hv;
    try (by eapply mirrors_then; [by apply mirrors_u8|]); (eapply mirrors_bind; [by apply mirrors_u8|]); by apply mirrors_map, mirrors_path; [|apply HP].
Qed.
Lemma canonical_operation : canonical operation_decode operation_encode.
Proof.
  apply canonical_writes. intros t t' operation D. unfold operation_decode in D. run_inv. repeat case_match; subst; try done; run_inv;
    cbn [operation_encode]; all_written.
Qed.
#[export] Instance hungry_operation : Hungry operation_decode.
Proof. unfold operation_decode. apply _. Qed.

Lemma mirrors_expression expression : expression_ok expression -> mirrors (expression_encode expression) expression_decode expression.
Proof.
  destruct expression as [sem prop ops]. intros [Hp Ho]. apply mirrors_fail_if. intros Hv%negb_false_iff. cbn [expr_semantics expr_property expr_operations] in *.
  assert (Hv' := Hv). unfold is_valid in Hv'. cbn in Hv'. bool_inv. subst sem. unfold expression_decode.
  eapply mirrors_bind; [by apply mirrors_u32|]. field.
  eapply (mirrors_limited_last _ _ (fun x => x) operation_decode ops (fun n => 16 <? n)); [by apply Z.ltb_ge|apply _| |].
  - rewrite Forall_forall in Ho |- *. intros op Hop. apply mirrors_operation; [by apply Ho|]. match goal with E : forallb _ _ = true |- _ => rewrite forallb_forall in E; by apply E, list_elem_of_In end.
  - intros t. cbv beta zeta. rewrite map_id, Hv. done.
Qed.
Lemma writes_expression t expression t' : expression_decode t = (Ok expression, t') -> writes (expression_encode expression) t t'.
Proof.
  intros D. unfold expression_decode in D. cbv zeta in D. run_inv. unfold expression_encode.
  match goal with E : negb (is_valid _) = false |- _ => rewrite E end. cbn [expr_semantics expr_property expr_operations].
  match goal with E : repeat_m _ operation_decode _ = _, EC : Decoder.count _ = _ |- _ => destruct (canonical_counted _ _ _ _ _ _ _ _ EC E canonical_operation) end.
  apply writes_fail_if; [done|]. all_written.
Qed.
#[export] Hint Resolve mirrors_expression writes_expression : codec.

(** ** Indexes and constraints *)


Definition is_u16 (z : Z) : Prop := 0 <= z <= u16_max.
Lemma mirrors_u16 v : is_u16 v -> mirrors (Encoder.u32 v) decode_u16 v.
Proof.
  intros Hv. eapply mirrors_then; [apply mirrors_u32; unfold is_u16, is_u32, u16_max, u32_max in *; lia|]. intros t.
  rewrite (proj2 (Z.ltb_ge u16_max v)) by apply Hv. done.
Qed.
Lemma writes_u16 t v t' : decode_u16 t = (Ok v, t') -> writes (Encoder.u32 v) t t'.
Proof. intros D. unfold decode_u16 in D. run_inv. eauto with codec. Qed.
#[export] Hint Resolve mirrors_u16 writes_u16 mirrors_index_kind mirrors_vector_kind : codec.
Lemma writes_index_kind t v t' : decode_index_kind t = (Ok v, t') -> writes (encode_index_kind v) t t'.
Proof. apply canonical_index_kind. Qed.
Lemma writes_vector_kind t v t' : decode_vector_kind t = (Ok v, t') -> writes (encode_vector_kind v) t t'.
Proof. apply canonical_vector_kind. Qed.
#[export] Hint Resolve writes_index_kind writes_vector_kind : codec.
#[export] Instance hungry_index_kind : Hungry decode_index_kind.
Proof. unfold decode_index_kind, decode_tag. apply _. Qed.

Definition hnsw_ok (v : HnswIndexConfig) : Prop := is_u16 (max_neighbors v) /\ is_u16 (ef_construction v).
Definition ivf_ok (v : IvfIndexConfig) : Prop := is_u16 (target_centroids v).
Lemma mirrors_hnsw v : hnsw_ok v -> mirrors (hnsw_encode v) hnsw_decode v.
Proof. destruct v. intros [? ?]. unfold hnsw_encode, hnsw_decode. cbn in *. field. by apply mirrors_map with (f := fun e => {| max_neighbors := _; ef_construction := e |}), mirrors_u16. Qed.
Lemma mirrors_ivf v : ivf_ok v -> mirrors (ivf_encode v) ivf_decode v.
Proof. destruct v. intros ?. by apply mirrors_map with (f := fun e => {| target_centroids := e |}), mirrors_u16. Qed.
Lemma canonical_hnsw : canonical hnsw_decode hnsw_encode.
Proof. apply canonical_writes. intros t t' v D. unfold hnsw_decode in D. run_inv. unfold hnsw_encode. cbn. all_written. Qed.
Lemma canonical_ivf : canonical ivf_decode ivf_encode.
Proof. apply canonical_writes. intros t t' v D. unfold ivf_decode in D. run_inv. unfold ivf_encode. cbn. all_written. Qed.

(** An option that is read back as it is. *)
Lemma mirrors_some {A} (f : A -> Encoder.M unit) d o : (forall x, o = Some x -> mirrors (f x) d x) -> mirrors (encode_option f o) (decode_option d) o.
Proof. intros HM. replace o with ((fun x => x) <$> o) at 2 by (by destruct o). by apply mirrors_option. Qed.

Definition configuration_ok (configuration : IndexConfiguration.t) : Prop :=
  match configuration with
  | IndexConfiguration.Property _ | IndexConfiguration.Text => True
  | IndexConfiguration.Vector _ dimension hnsw ivf =>
      is_u32 dimension /\ (forall v, hnsw = Some v -> hnsw_ok v) /\ (forall v, ivf = Some v -> ivf_ok v)
  | IndexConfiguration.Constraint declaring_type => text_ok declaring_type
  | IndexConfiguration.Expression expression _ => expression_ok expression
  end.
Lemma mirrors_configuration configuration : configuration_ok configuration -> mirrors (configuration_encode configuration) configuration_decode configuration.
Proof.
  intros Ho. unfold configuration_encode, configuration_decode. destruct configuration as [kinds|kind dimension hnsw ivf| |declaring|expression kind]; cbn in Ho;
    try (by eapply mirrors_then; [by apply mirrors_u8|]); (eapply mirrors_bind; [by apply mirrors_u8|]); cbv beta iota.
  - pose proof (mirrors_counted_last 64 encode_index_kind (fun x => x) decode_index_kind kinds IndexConfiguration.Property _) as HM. rewrite map_id in HM. apply HM.
    apply Forall_true. apply mirrors_index_kind.
  - destruct Ho as (Hd & Hh & Hi). do 2 field. eapply mirrors_bind; [apply mirrors_some; intros v Hv; by apply mirrors_hnsw, Hh|].
    apply mirrors_map, mirrors_some. intros v Hv. by apply mirrors_ivf, Hi.
  - by apply mirrors_map, mirrors_str.
  - field. apply mirrors_map, mirrors_index_kind.
Qed.
Lemma writes_some {A} (f : A -> Encoder.M unit) d t o t' : canonical d f -> decode_option d t = (Ok o, t') -> writes (encode_option f o) t t'.
Proof. intros C. apply (canonical_option d f C). Qed.
#[export] Hint Resolve writes_some canonical_hnsw canonical_ivf canonical_id_of : codec.

Lemma writes_configuration t configuration t' : configuration_decode t = (Ok configuration, t') -> writes (configuration_encode configuration) t t'.
Proof.
  intros D. unfold configuration_decode in D. run_inv. repeat case_match; subst; try done; run_inv; cbn [configuration_encode];
    try match goal with E : repeat_m _ decode_index_kind _ = _, EC : Decoder.count _ = _ |- _ =>
      destruct (canonical_counted _ _ _ _ _ _ _ _ EC E canonical_index_kind) end; all_written.
Qed.
#[export] Hint Resolve writes_configuration mirrors_configuration : codec.

Definition index_ok (v : IndexDeclaration) : Prop :=
  metadata_ok (index_metadata v) /\ target_ok (index_target v) /\ configuration_ok (index_configuration v).
Definition normal_index (v : IndexDeclaration) : IndexDeclaration :=
  {| index_metadata := normal_metadata (index_metadata v); index_target := index_target v; index_configuration := index_configuration v |}.
Lemma mirrors_index v : index_ok v -> index_validate v = Ok tt -> mirrors (index_encode v) index_decode (normal_index v).
Proof.
  intros (Hm & Ht & Hc) Hv. unfold index_validate in Hv. destruct (metadata_validate _) as [[]|] eqn:Em; [|done].
  eapply mirrors_bind; [by apply mirrors_metadata|]. cbv beta. field. by eapply mirrors_then; [apply mirrors_configuration|].
Qed.
Lemma index_inv t v t' : index_decode t = (Ok v, t') -> normal_index v = v /\ writes (index_encode v) t t'.
Proof.
  intros D. unfold index_decode in D. run_inv. match goal with E : metadata_decode _ = _ |- _ => apply metadata_inv in E as [Hs W] end.
  split; [unfold normal_index, normal_metadata; cbn; rewrite sort_dependencies_id by done; by destruct a|]. unfold index_encode. cbn. all_written.
Qed.

Definition constraint_ok (v : ConstraintDeclaration) : Prop :=
  metadata_ok (constraint_metadata v) /\ target_ok (constraint_target v) /\ text_ok (constraint_declaring_type v) /\
  (forall id, constraint_backing_index v = Some id -> nonzero_u64 id).
Definition normal_constraint (v : ConstraintDeclaration) : ConstraintDeclaration :=
  {| constraint_metadata := normal_metadata (constraint_metadata v); constraint_target := constraint_target v;
     constraint_declaring_type := constraint_declaring_type v; constraint_kind := constraint_kind v; constraint_backing_index := constraint_backing_index v |}.
Lemma mirrors_constraint v : constraint_ok v -> constraint_validate v = Ok tt -> mirrors (constraint_encode v) constraint_decode (normal_constraint v).
Proof.
  intros (Hm & Ht & Hd & Hb) Hv. unfold constraint_validate in Hv. destruct (metadata_validate _) as [[]|] eqn:Em; [|done].
  eapply mirrors_bind; [by apply mirrors_metadata|]. cbv beta. do 3 field. eapply mirrors_then; [|done]. apply mirrors_some. intros id Hid. by apply mirrors_id_of, Hb.
Qed.
Lemma constraint_inv t v t' : constraint_decode t = (Ok v, t') -> normal_constraint v = v /\ writes (constraint_encode v) t t'.
Proof.
  intros D. unfold constraint_decode in D. run_inv. match goal with E : metadata_decode _ = _ |- _ => apply metadata_inv in E as [Hs W] end.
  split; [unfold normal_constraint, normal_metadata; cbn; rewrite sort_dependencies_id by done; by destruct a|]. unfold constraint_encode. cbn. all_written.
Qed.

(** ** Native declarations *)

Lemma mirrors_leaf ty : (forall inner, ty <> NativeType.List inner) ->
  exists tag, 0 <= tag < 15 /\ encode_tag type_leaf_tags E_Limit ty = (do t <- of_result (Ok tag); Encoder.u8 t) /\ variant_of type_leaf_tags tag = Some ty.
Proof. intros Hl. destruct ty; try (by destruct (Hl ty)); eexists; (split; [|split; [reflexivity|reflexivity]]); vm_compute; by split. Qed.

Lemma mirrors_ty_rec ty fuel depth : 66 <= depth + Z.of_nat fuel -> mirrors (ty_encode ty depth) (ty_decode_rec fuel depth) ty.
Proof.
  revert fuel depth. induction ty as [| | | | | | | | | | | | | | |inner IH] using NativeType.t_ind; intros fuel depth Hf.
  16: { destruct fuel as [|fuel]; cbn [ty_encode ty_decode_rec]; do 2 field; apply mirrors_fail_if; intros Hd%Z.ltb_ge; [lia|].
    apply mirrors_pure with (a := tt); [intros t; by rewrite (proj2 (Z.ltb_ge _ _))|]. eapply mirrors_bind; [by apply mirrors_u8|]. cbv beta.
    rewrite Z.eqb_refl. apply mirrors_map, IH. lia. }
  all: destruct fuel as [|fuel]; cbn [ty_encode ty_decode_rec]; do 2 field; apply mirrors_fail_if; intros Hd%Z.ltb_ge;
    (apply mirrors_pure with (a := tt); [intros t; by rewrite (proj2 (Z.ltb_ge _ _))|]);
    match goal with |- mirrors (encode_tag _ _ ?ty) _ _ => destruct (mirrors_leaf ty) as (tag & Ht & -> & Hv); [done|] end;
    (eapply mirrors_then; [by apply mirrors_u8; lia|]); intros t; rewrite (proj2 (Z.eqb_neq tag 15)) by lia; by rewrite Hv.
Qed.

Lemma mirrors_ty ty : mirrors (ty_encode ty 1) ty_decode ty.
Proof. by apply mirrors_ty_rec. Qed.

Lemma type_table : table_ok type_leaf_tags = true.
Proof. vm_compute. reflexivity. Qed.
Lemma leaf_tag a ty : variant_of type_leaf_tags a = Some ty -> tag_of type_leaf_tags ty = Some a.
Proof.
  unfold variant_of. destruct (List.find _ _) as [[t v]|] eqn:E; [|done]. intros [= <-]. apply find_some in E as [Hin%list_elem_of_In Ha%Z.eqb_eq].
  cbn in Ha. subst t. by apply (table_entry type_leaf_tags type_table) in Hin as (_ & ? & _).
Qed.
Lemma ty_encode_leaf depth a ty : tag_of type_leaf_tags ty = Some a ->
  ty_encode ty depth = (Encoder.on_budget (Budget.depth depth) ;; Encoder.on_budget (Budget.charge 1 64) ;; fail_if (65 <? depth) E_Limit ;;
    encode_tag type_leaf_tags E_Limit ty).
Proof. by destruct ty. Qed.

Lemma canonical_ty_rec fuel depth : canonical (ty_decode_rec fuel depth) (fun ty => ty_encode ty depth).
Proof.
  revert depth. induction fuel as [|fuel IH]; intros depth; apply canonical_writes; intros t t' ty D; cbn [ty_decode_rec] in D; run_inv;
    destruct (Z.eqb_spec a2 15) as [->|N]; run_inv; destruct a, a0.
  2: { cbn [ty_encode]. do 2 written. apply writes_fail_if; [done|]. written. by apply IH. }
  all: apply ok_or_Ok, leaf_tag in D; rewrite (ty_encode_leaf _ _ _ D); do 2 written; (apply writes_fail_if; [done|]);
    (eapply writes_of_result; [by rewrite D|]); eauto with codec.
Qed.
Lemma writes_ty t ty t' : ty_decode t = (Ok ty, t') -> writes (ty_encode ty 1) t t'.
Proof. apply canonical_ty_rec. Qed.
#[export] Hint Resolve mirrors_ty writes_ty : codec.

Definition field_ok (f : NativeField) : Prop := text_ok (field_name f) /\ text_ok (field_description f).
Lemma mirrors_field f : field_ok f -> mirrors (field_encode f) field_decode f.
Proof. destruct f. intros [Hn Hd]. unfold field_encode, field_decode. cbn in *. do 4 field. by eapply mirrors_then; [apply mirrors_str|]. Qed.
Lemma canonical_field : canonical field_decode field_encode.
Proof. apply canonical_writes. intros t t' f D. unfold field_decode in D. run_inv. unfold field_encode. cbn. all_written. Qed.
#[export] Instance hungry_field : Hungry field_decode.
Proof. unfold field_decode. apply _. Qed.
Lemma writes_field t f t' : field_decode t = (Ok f, t') -> writes (field_encode f) t t'.
Proof. apply canonical_field. Qed.
#[export] Hint Resolve mirrors_field writes_field : codec.

Definition default_ok (default : option NativeDefault.t) : Prop :=
  match default with Some (NativeDefault.Integer v) => is_signed 64 v | Some (NativeDefault.String v) => text_ok v | _ => True end.
Lemma mirrors_default default : default_ok default -> mirrors (default_encode default) default_decode default.
Proof.
  intros Ho. unfold default_encode, default_decode. destruct default as [[|v|v|v]|]; cbn in Ho; try (by eapply mirrors_then; [by apply mirrors_u8|]);
    (eapply mirrors_bind; [by apply mirrors_u8|]); cbv beta iota.
  - by eapply mirrors_then; [apply mirrors_boolean|].
  - eapply mirrors_then; [by apply (mirrors_u64 (of_signed 64 v)), signed_u64|]. intros t. by rewrite to_of_signed.
  - by eapply mirrors_then; [apply mirrors_str|].
Qed.
Lemma writes_default t default t' : default_decode t = (Ok default, t') -> writes (default_encode default) t t'.
Proof.
  intros D. unfold default_decode in D. run_inv. repeat case_match; subst; try done; run_inv; cbn [default_encode]; all_written.
  assert (Hu := Hrun0). apply dec_u64_Ok in Hu as (_ & _ & Hu). rewrite of_to_signed; [by apply writes_u64|done|]. unfold is_u64, u64_max in Hu. lia.
Qed.
#[export] Hint Resolve mirrors_default writes_default : codec.

Definition parameter_ok (p : NativeParameter) : Prop :=
  field_ok (param_field p) /\ default_ok (param_default p) /\ forall s, param_default_doc p = Some s -> text_ok s.
Lemma mirrors_parameter p : parameter_ok p -> mirrors (parameter_encode p) parameter_decode p.
Proof. destruct p. intros (Hf & Hd & Hs). unfold parameter_encode, parameter_decode. cbn in *. do 2 field. by eapply mirrors_then; [apply mirrors_optional|]. Qed.
Lemma canonical_parameter : canonical parameter_decode parameter_encode.
Proof. apply canonical_writes. intros t t' p D. unfold parameter_decode in D. run_inv. unfold parameter_encode. cbn. all_written. Qed.
#[export] Instance hungry_parameter : Hungry parameter_decode.
Proof. unfold parameter_decode. apply _. Qed.

Section Sized.
Context `{CatalogSizes}.

Definition procedure_ok (p : NativeProcedure) : Prop :=
  Forall text_ok (proc_binding p) /\ text_ok (proc_description p) /\ text_ok (proc_since_version p) /\
  Forall parameter_ok (proc_parameters p) /\ Forall field_ok (proc_outputs p).
Lemma mirrors_procedure p : procedure_ok p -> zlen (proc_parameters p) <= 256 -> zlen (proc_outputs p) <= 256 ->
  mirrors (procedure_encode p) procedure_decode p.
Proof.
  destruct p as [binding description since parameters outputs effect]. intros (Hb & Hd & Hs & Hp & Ho) Lp Lo. unfold procedure_encode, procedure_decode.
  cbn in *. do 3 field. eapply (mirrors_limited _ _ (fun x => x) parameter_decode _ (fun n => 256 <? n)); [by apply Z.ltb_ge|apply _| |].
  { eapply Forall_impl; [exact Hp|]. apply mirrors_parameter. }
  rewrite map_id. eapply (mirrors_limited _ _ (fun x => x) field_decode _ (fun n => 256 <? n)); [by apply Z.ltb_ge|apply _| |].
  { eapply Forall_impl; [exact Ho|]. apply mirrors_field. }
  rewrite map_id. by eapply mirrors_then; [apply mirrors_effect|].
Qed.
Lemma writes_procedure t p t' : procedure_decode t = (Ok p, t') -> writes (procedure_encode p) t t'.
Proof.
  intros D. unfold procedure_decode in D. run_inv. unfold procedure_encode. cbn.
  match goal with E : repeat_m _ parameter_decode _ = _, EC : Decoder.count_for size_native_parameter _ = _ |- _ =>
    destruct (canonical_counted _ _ _ _ _ _ _ _ EC E canonical_parameter) end.
  match goal with E : repeat_m _ field_decode _ = _, EC : Decoder.count_for size_native_field _ = _ |- _ =>
    destruct (canonical_counted _ _ _ _ _ _ _ _ EC E canonical_field) end.
  all_written.
Qed.

Definition candidate_ok (v : NativeCandidateState) : Prop :=
  (forall s, required_label v = Some s -> text_ok s) /\ Forall text_ok (require_outgoing v) /\ Forall text_ok (require_incoming v) /\
  Forall text_ok (exclude_outgoing v) /\ Forall text_ok (exclude_incoming v).
Lemma mirrors_candidate v : candidate_ok v -> mirrors (candidate_encode v) candidate_decode v.
Proof.
  destruct v. intros (Hl & H1 & H2 & H3 & H4). unfold candidate_encode, candidate_decode. cbn in *. do 4 field. by eapply mirrors_then; [apply mirrors_strings|].
Qed.
Lemma writes_candidate t v t' : candidate_decode t = (Ok v, t') -> writes (candidate_encode v) t t'.
Proof. intros D. unfold candidate_decode in D. run_inv. unfold candidate_encode. cbn. all_written. Qed.
Definition projection_ok (v : NativeProjection) : Prop :=
  Forall text_ok (proj_node_labels v) /\ Forall text_ok (proj_edge_labels v) /\ forall s, proj_weight_property v = Some s -> text_ok s.
Lemma mirrors_projection v : projection_ok v -> mirrors (projection_encode v) projection_decode v.
Proof.
  destruct v. intros (H1 & H2 & Hl). unfold projection_encode, projection_decode. cbn in *. do 2 field. by eapply mirrors_then; [apply mirrors_optional|].
Qed.
Lemma writes_projection t v t' : projection_decode t = (Ok v, t') -> writes (projection_encode v) t t'.
Proof. intros D. unfold projection_decode in D. run_inv. unfold projection_encode. cbn. all_written. Qed.
#[local] Hint Resolve writes_procedure writes_candidate writes_projection : codec.

Definition binding_ok (binding : NativeBinding.t) : Prop :=
  match binding with
  | NativeBinding.Procedure p => procedure_ok p
  | NativeBinding.CandidateState v => candidate_ok v
  | NativeBinding.Projection v => projection_ok v
  end.
Definition native_ok (v : NativeDeclaration) : Prop := metadata_ok (native_metadata v) /\ binding_ok (native_binding v).
Definition normal_native (v : NativeDeclaration) : NativeDeclaration :=
  {| native_metadata := normal_metadata (native_metadata v); native_binding := native_binding v |}.
Lemma mirrors_native v : native_ok v -> native_validate v = Ok tt -> mirrors (native_encode v) native_decode (normal_native v).
Proof.
  intros [Hm Hb] Hv. unfold native_validate in Hv. destruct (metadata_validate _) as [[]|] eqn:Em; [|done]. cbn in Hv.
  eapply mirrors_bind; [by apply mirrors_metadata|]. cbv beta. unfold normal_native. eapply mirrors_then; [|done].
  unfold binding_encode, binding_decode. destruct (native_binding v) as [p|c|p]; cbn in Hb, Hv; (eapply mirrors_bind; [by apply mirrors_u8|]); cbv beta iota.
  - destruct (_ || _) eqn:E in Hv; [done|]. bool_inv. by apply mirrors_map, mirrors_procedure.
  - by apply mirrors_map, mirrors_candidate.
  - by apply mirrors_map, mirrors_projection.
Qed.
Lemma writes_binding t b t' : binding_decode t = (Ok b, t') -> writes (binding_encode b) t t'.
Proof.
  intros D. unfold binding_decode in D. run_inv. repeat case_match; subst; try done; run_inv; cbn [binding_encode]; all_written.
Qed.
#[local] Hint Resolve writes_binding : codec.
Lemma native_inv t v t' : native_decode t = (Ok v, t') -> normal_native v = v /\ writes (native_encode v) t t'.
Proof.
  intros D. unfold native_decode in D. run_inv. match goal with E : metadata_decode _ = _ |- _ => apply metadata_inv in E as [Hs W] end.
  split; [unfold normal_native, normal_metadata; cbn; rewrite sort_dependencies_id by done; by destruct a|].
  unfold native_encode. cbn [native_metadata native_binding]. all_written.
Qed.
End Sized.
