(* ===== verification/CatalogImage.v ===== *)
(** The codec of descriptors, deltas and complete catalog records.

    [mirrors_descriptor] and [canonical_descriptor] compose the codecs of the
    parts; deltas and records are sequences of descriptors.  A decoded delta has
    one change per identity, and decoded records are those of a catalog. *)

From stdpp Require Import relations sorting.
From S2P Require Import Prelude Errors Wire Value ValueCodec ValueLoop ValueRoundtrip ValueCanonical Ordered LabelSet PropertyMap Schema WireProps SchemaProps Catalog CatalogSnapshot CatalogOrder CatalogBuild CatalogRecords CatalogChange CatalogCodec CatalogCodecProps.
From coqutil Require Import Byte.

(** ** Normal descriptors *)

Definition normal_payload (payload : CatalogPayload) : CatalogPayload :=
  match payload with
  | Payload.Procedure v => Payload.Procedure (normal_native v)
  | Payload.Index v => Payload.Index (normal_index v)
  | Payload.Constraint v => Payload.Constraint (normal_constraint v)
  | payload => payload
  end.
Definition normal (d : CatalogDescriptor) : CatalogDescriptor :=
  {| d_id := d_id d; d_kind := d_kind d; d_name := d_name d; d_parent := d_parent d; d_generation := d_generation d;
     d_creation := d_creation d; d_payload := normal_payload (d_payload d) |}.

Lemma normal_validate d : d_validate d = Ok tt -> d_validate (normal d) = Ok tt.
Proof.
  intros Hv. assert (HM := fun m => validate_metadata d m Hv). unfold d_validate in *. cbn [normal d_id d_kind d_name d_parent d_generation d_creation d_payload].
  assert (Hk : Payload.kind (normal_payload (d_payload d)) = Payload.kind (d_payload d)) by (by destruct (d_payload d)). rewrite Hk.
  destruct (_ || _); [done|]. destruct (negb _); [done|]. destruct (if decide (d_kind d = Kind.Directory) then _ else _); [|done]. cbn in Hv |- *.
  destruct (_ <? _); [done|]. destruct (d_payload d) as [| | | | | |v|v|v]; cbn [normal_payload]; try done; cbn in HM; specialize (HM _ eq_refl);
    unfold native_validate, index_validate, constraint_validate in *; cbn [normal_native normal_index normal_constraint native_metadata native_binding
      index_metadata index_target index_configuration constraint_metadata constraint_target constraint_declaring_type constraint_kind constraint_backing_index normal_metadata meta_state] in *;
    rewrite (normal_metadata_validate _ HM); rewrite HM in Hv; exact Hv.
Qed.

(** Sorting the dependencies does not change what a catalog is. *)
Lemma normal_declaration_metadata payload : Payload.declaration_metadata (normal_payload payload) = normal_metadata <$> Payload.declaration_metadata payload.
Proof. by destruct payload. Qed.

Section Normal.
Variable ds : Descriptors.
Let ds' : Descriptors := normal <$> ds.

Lemma normal_lookup id d' : ds' !! id = Some d' <-> exists d, ds !! id = Some d /\ d' = normal d.
Proof. unfold ds'. rewrite lookup_fmap, fmap_Some. naive_solver. Qed.
Lemma normal_is_Some id : is_Some (ds' !! id) <-> is_Some (ds !! id).
Proof. unfold ds'. by rewrite lookup_fmap, fmap_is_Some. Qed.

Lemma normal_check_dependency d m dep : check_dependency ds d m dep = Ok tt -> check_dependency ds' (normal d) (normal_metadata m) dep = Ok tt.
Proof.
  unfold check_dependency, ds'. rewrite lookup_fmap. destruct (ds !! dep_id dep) as [target|]; cbn; [|done]. destruct (negb _); [done|].
  rewrite normal_declaration_metadata. by destruct (Payload.declaration_metadata (d_payload target)).
Qed.

Lemma normal_check_backing d m : check_backing ds d m = Ok tt -> check_backing ds' (normal d) (normal_metadata m) = Ok tt.
Proof.
  unfold check_backing. cbn [normal d_payload d_id d_parent]. destruct (d_payload d) as [| | | | | |v|v|c]; try done. cbn [normal_payload normal_constraint constraint_backing_index].
  destruct (constraint_backing_index c) as [index|]; [|done]. cbn [normal_metadata meta_dependencies].
  assert (HE : forall f, existsb f (sort_dependencies (meta_dependencies m)) = existsb f (meta_dependencies m)).
  { intros f. apply Bool.eq_iff_eq_true. rewrite !existsb_exists. setoid_rewrite <- list_elem_of_In. by setoid_rewrite sort_dependencies_perm. }
  rewrite HE. destruct (negb _); [done|]. unfold ds'. rewrite lookup_fmap. destruct (ds !! Id.Index index) as [target|]; cbn; [|done].
  by destruct (d_payload target).
Qed.

Lemma normal_depends a b : depends ds' a b <-> depends ds a b.
Proof.
  unfold depends, deps_of, metadata_of, ds'. rewrite lookup_fmap. destruct (ds !! a) as [d|]; [|done]. cbn. rewrite normal_declaration_metadata.
  destruct (Payload.declaration_metadata (d_payload d)) as [m|]; [|done]. cbn. apply elem_of_Permutation_proper, fmap_Permutation, sort_dependencies_perm.
Qed.

Lemma normal_named sp c d : named sp c (normal d) <-> named sp c d.
Proof. done. Qed.

Lemma well_formed_normal g c r : well_formed g c r ds -> well_formed g c r ds'.
Proof.
  intros [W1 W2 W3 W4 W5 W6 W7 W8 W9 W10]. split.
  - by apply normal_is_Some.
  - by apply normal_is_Some.
  - intros id d' (d & Hd & ->)%normal_lookup. by apply (W3 id d).
  - intros id d' (d & Hd & ->)%normal_lookup. by apply (W4 id d).
  - intros id d' (d & Hd & ->)%normal_lookup. by apply (W5 id d).
  - intros id d' (d & Hd & ->)%normal_lookup. specialize (W6 id d Hd). unfold parent_present in *. cbn. destruct (parent_id (d_parent d)); [by apply normal_is_Some|done].
  - intros id1 id2 d1' d2' sp cn (d1 & H1 & ->)%normal_lookup (d2 & H2 & ->)%normal_lookup N1 N2. by apply (W7 id1 id2 d1 d2 sp cn).
  - intros id d' (d & Hd & ->)%normal_lookup. specialize (W8 id d Hd). unfold references_ok in *. cbn. destruct (d_payload d) as [| | |[t|]| | | | |]; try done.
    destruct W8 as (target & Ht & Hp). exists (normal target). split; [apply normal_lookup; eauto|done].
  - intros id d' (d & Hd & ->)%normal_lookup. specialize (W9 id d Hd). unfold declaration_ok in *. cbn [normal d_payload]. rewrite normal_declaration_metadata.
    intros m' (m & Hm & ->)%fmap_Some. destruct (W9 m Hm) as [HF HB]. split; [|by apply check_backing_met, normal_check_backing, check_backing_met].
    cbn [normal_metadata meta_dependencies]. rewrite sort_dependencies_perm. eapply Forall_impl; [exact HF|]. intros dep Hdep.
    by apply (check_dependency_met _ (normal d)), normal_check_dependency, check_dependency_met.
  - assert (HT : forall x y, tc (depends ds') x y -> tc (depends ds) x y).
    { induction 1 as [x y Hxy|x y z Hxy _ IH]; [apply tc_once; exact (proj1 (normal_depends x y) Hxy)|].
      apply tc_l with y; [exact (proj1 (normal_depends x y) Hxy)|done]. }
    intros id Ht. by apply (W10 id), HT.
Qed.
End Normal.

Definition normal_records (self : CatalogLogicalRecords) : CatalogLogicalRecords :=
  {| r_generation := r_generation self; r_high_water := list_to_map (zip DOMAINS (map (water (r_high_water self)) DOMAINS));
     r_descriptors := map normal (r_descriptors self) |}.

Lemma normal_ids l : map d_id (map normal l) = map d_id l.
Proof. rewrite map_map. by apply map_ext. Qed.
Lemma collect_normal l : NoDup (map d_id l) -> collect (map normal l) = normal <$> collect l.
Proof.
  intros Hn. apply collect_ext.
  - intros id d' (d & Hd & ->)%normal_lookup. cbn. by apply (collect_keyed l Hn).
  - by rewrite normal_ids.
  - intros d'. rewrite normal_lookup, list_elem_of_fmap. split.
    + intros (d & -> & Hd). exists d. split; [|done]. by apply collect_Some.
    + intros (d & Hd & E). exists d. split; [done|]. by apply collect_Some in Hd as [? _].
Qed.

Lemma normal_catalog_records self : catalog_records self -> catalog_records (normal_records self).
Proof.
  intros (Hs & c & r & HB & Hn & Hv & HW). split.
  - apply ascending_key_ordered. cbn. rewrite normal_ids. by apply records_ascending.
  - exists c, r. split; [|split; [|split]]; cbn [normal_records r_generation r_high_water r_descriptors].
    + apply Forall_fmap. eapply Forall_impl; [exact HB|]. intros d. unfold compose, below_water. cbn [normal d_id d_kind]. by rewrite water_domains.
    + by rewrite normal_ids.
    + apply Forall_fmap. eapply Forall_impl; [exact Hv|]. intros d. apply normal_validate.
    + rewrite collect_normal by done. by apply well_formed_normal.
Qed.

(** ** What the Rust types guarantee of a descriptor *)

Section Sized.
Context `{CatalogSizes} `{Unicode}.

Definition name_ok (name : CatalogName) : Prop :=
  text_ok (name_display name) /\
  match name_form name with SyntheticRoot => name = synthetic_root | form => name_user (name_display name) form = Ok name end.
Definition parent_ok (parent : CatalogParent) : Prop := forall id, parent_id parent = Some id -> id_ok id.
Definition payload_ok (payload : CatalogPayload) : Prop :=
  match payload with
  | Payload.Graph graph_type => forall id, graph_type = Some id -> nonzero_u64 id
  | Payload.Procedure v => native_ok v
  | Payload.Index v => index_ok v
  | Payload.Constraint v => constraint_ok v
  | _ => True
  end.
Record descriptor_ok (d : CatalogDescriptor) : Prop := {
  ok_id : id_ok (d_id d);
  ok_name : name_ok (d_name d);
  ok_parent : parent_ok (d_parent d);
  ok_generation : nonzero_u64 (d_generation d);
  ok_creation : nonzero_u64 (creation_generation (d_creation d));
  ok_principal : forall s, creation_principal (d_creation d) = Some s -> text_ok s;
  ok_payload : payload_ok (d_payload d)
}.

Lemma mirrors_catalog_name name : name_ok name -> forall {A} (k : CatalogName -> Decoder.M A) rest a, mirrors rest (k name) a ->
  mirrors (Encoder.u8 (match name_form name with SyntheticRoot => 0 | Regular => 1 | Delimited => 2 end) ;; Encoder.text (name_display name) ;; rest)
    (bind name_decode k) a.
Proof.
  intros [Ht Hn] A k rest a Hr. eapply mirrors_ext; [intros t; apply bind_assoc|].
  eapply mirrors_bind; [by apply mirrors_u8; destruct (name_form name)|]. eapply mirrors_ext; [intros t; apply bind_assoc|]. field.
  apply mirrors_pure with (a := name); [|done]. intros t. destruct name as [display canonical form]. cbn in *.
  destruct form; [..|by injection Hn as -> ->]; unfold name_regular, name_delimited; by rewrite Hn.
Qed.

Lemma mirrors_parent parent : parent_ok parent -> mirrors (parent_encode parent) parent_decode parent.
Proof.
  intros Hp. unfold parent_encode, parent_decode, id_encode. destruct parent as [|id|id|id|id|id]; [by eapply mirrors_then; [apply mirrors_u8|]|..];
    (eapply mirrors_bind; [by apply mirrors_u8|]); cbv beta iota; apply mirrors_map, mirrors_id_of; by apply (Hp _ eq_refl).
Qed.
Lemma writes_parent t parent t' : parent_decode t = (Ok parent, t') -> writes (parent_encode parent) t t'.
Proof.
  intros D. unfold parent_decode in D. run_inv. repeat case_match; subst; try done; run_inv; cbn [parent_encode]; unfold id_encode; cbn [Id.kind Id.get kind_tag];
    all_written; by eapply canonical_id_of.
Qed.

Definition payload_valid (payload : CatalogPayload) : Prop :=
  match payload with
  | Payload.Index v => index_validate v = Ok tt
  | Payload.Constraint v => constraint_validate v = Ok tt
  | Payload.Procedure v => native_validate v = Ok tt
  | _ => True
  end.
Lemma validate_payload d : d_validate d = Ok tt -> payload_valid (d_payload d).
Proof.
  unfold d_validate. intros Hv. destruct (_ || _); [done|]. destruct (negb _); [done|]. destruct (if decide (d_kind d = Kind.Directory) then _ else _); [|done].
  cbn in Hv. destruct (_ <? _); [done|]. by destruct (d_payload d).
Qed.

Lemma mirrors_payload payload : payload_ok payload -> payload_valid payload -> mirrors (payload_encode payload) payload_decode (normal_payload payload).
Proof.
  intros Ho Hv. unfold payload_encode, payload_decode. destruct payload as [| | |o| | |v|v|v]; cbn [payload_ok payload_valid normal_payload] in *;
    try (by eapply mirrors_then; [by apply mirrors_u8|]); (eapply mirrors_bind; [by apply mirrors_u8|]); cbv beta iota; apply mirrors_map.
  - apply mirrors_some. intros id Hid. by apply mirrors_id_of, Ho.
  - by apply mirrors_native.
  - by apply mirrors_index.
  - by apply mirrors_constraint.
Qed.
Lemma payload_inv t payload t' : payload_decode t = (Ok payload, t') -> normal_payload payload = payload /\ writes (payload_encode payload) t t'.
Proof.
  intros D. unfold payload_decode in D. run_inv. repeat case_match; subst; try done; run_inv; cbn [payload_encode normal_payload];
    try match goal with
    | E : native_decode _ = _ |- _ => apply native_inv in E as [-> ?]
    | E : index_decode _ = _ |- _ => apply index_inv in E as [-> ?]
    | E : constraint_decode _ = _ |- _ => apply constraint_inv in E as [-> ?]
    end; (split; [done|]); all_written.
Qed.

(** ** Descriptors *)

Lemma mirrors_descriptor d : descriptor_ok d -> mirrors (descriptor_encode d) descriptor_decode (normal d).
Proof.
  intros [Hi Hn Hp Hg Hc Hpr Hpl]. unfold descriptor_encode. apply mirrors_of_result. intros [] Hv.
  assert (Hv' : d_validate d = Ok tt) by (unfold semantic in Hv; by destruct (d_validate d) as [[]|]).
  unfold descriptor_decode. field. apply (mirrors_catalog_name _ Hn). eapply mirrors_bind; [by apply mirrors_parent|]. cbv beta. do 3 field.
  eapply mirrors_then; [apply mirrors_payload; [done|by apply validate_payload]|]. intros t.
  destruct (validate_kinds d Hv') as (Hk & _ & _). apply normal_validate in Hv'. unfold d_new. rewrite <- Hk.
  replace {| creation_generation := _; creation_principal := _ |} with (d_creation d) by (by destruct (d_creation d)).
  change ({| d_id := d_id d; d_kind := d_kind d |}) with (normal d). by rewrite Hv'.
Qed.
#[local] Hint Resolve mirrors_descriptor mirrors_parent writes_parent : codec.

Lemma name_inv t name t' : name_decode t = (Ok name, t') ->
  writes (Encoder.u8 (match name_form name with SyntheticRoot => 0 | Regular => 1 | Delimited => 2 end) ;; Encoder.text (name_display name)) t t'.
Proof.
  intros D. unfold name_decode in D. run_inv.
  assert (a = (match name_form name with SyntheticRoot => 0 | Regular => 1 | Delimited => 2 end) /\ a0 = name_display name) as [-> ->]; [|all_written].
  assert (HU : forall form, semantic (name_user a0 form) = Ok name -> form = name_form name /\ a0 = name_display name).
  { intros form Hu. unfold semantic, name_user in Hu. repeat case_match; simplify_eq/=; done. }
  destruct a as [|[[]|[]|]|]; try done.
  - destruct (zlen a0 =? 0) eqn:E; [|done]. injection D as <-. apply Z.eqb_eq in E. by destruct a0.
  - by apply HU in D as [<- ?].
  - by apply HU in D as [<- ?].
Qed.

Lemma canonical_descriptor : canonical descriptor_decode descriptor_encode.
Proof.
  apply canonical_writes. intros t t' d D. unfold descriptor_decode in D. run_inv. unfold semantic, d_new in D.
  destruct (d_validate _) as [[]|] eqn:Ev; [|done]. cbn in D. injection D as <-. unfold descriptor_encode. cbn [d_id d_name d_parent d_generation d_creation d_payload creation_generation creation_principal].
  eapply writes_of_result; [unfold semantic; by rewrite Ev|].
  match goal with E : payload_decode _ = _ |- _ => apply payload_inv in E as [_ W] end.
  match goal with E : name_decode _ = _ |- _ => apply name_inv in E as W' end. written.
  eapply writes_ext; [intros s'; symmetry; apply bind_assoc|]. all_written.
Qed.
Lemma writes_descriptor t d t' : descriptor_decode t = (Ok d, t') -> writes (descriptor_encode d) t t'.
Proof. apply canonical_descriptor. Qed.
#[local] Hint Resolve writes_descriptor : codec.
#[export] Instance hungry_descriptor : Hungry descriptor_decode.
Proof. unfold descriptor_decode. apply _. Qed.

(** ** Deltas *)

Definition normal_change (change : CatalogLogicalChange) : CatalogLogicalChange :=
  match change with
  | Created d => Created (normal d)
  | Replaced previous d => Replaced previous (normal d)
  | Dropped id generation => Dropped id generation
  end.
Definition change_ok (change : CatalogLogicalChange) : Prop :=
  match change with
  | Created d => descriptor_ok d
  | Replaced previous d => nonzero_u64 previous /\ descriptor_ok d
  | Dropped id generation => id_ok id /\ nonzero_u64 generation
  end.
Lemma normal_change_id change : change_id (normal_change change) = change_id change.
Proof. by destruct change. Qed.

Lemma mirrors_catalog_change change : change_ok change -> mirrors (change_encode change) change_decode (normal_change change).
Proof.
  intros Ho. unfold change_encode, change_decode. field. destruct change as [d|previous d|id generation]; cbn [change_ok normal_change] in *;
    (eapply mirrors_bind; [by apply mirrors_u8|]); cbv beta iota.
  - by apply mirrors_map, mirrors_descriptor.
  - destruct Ho as [Hp Hd]. field. by apply mirrors_map, mirrors_descriptor.
  - destruct Ho as [Hi Hg]. field. by apply mirrors_map, mirrors_generation.
Qed.
Lemma writes_change t change t' : change_decode t = (Ok change, t') -> writes (change_encode change) t t'.
Proof.
  intros D. unfold change_decode in D. run_inv. repeat case_match; subst; try done; run_inv; unfold change_encode; all_written.
Qed.
#[export] Instance hungry_change : Hungry change_decode.
Proof. unfold change_decode. apply _. Qed.

Lemma mirrors_changes changes seen acc : Forall change_ok changes ->
  mirrors (changes_encode seen changes) (changes_decode (length changes) seen acc) (acc ++ map normal_change changes).
Proof.
  intros Ho. revert seen acc. induction Ho as [|change changes Hc _ IH]; intros seen acc; cbn [changes_encode changes_decode length map].
  { rewrite app_nil_r. apply mirrors_ret. }
  apply mirrors_fail_if. intros Hs. eapply mirrors_bind; [by apply mirrors_catalog_change|]. cbv beta. rewrite normal_change_id.
  apply mirrors_pure with (a := tt); [intros t; by rewrite Hs|]. replace (acc ++ normal_change change :: map normal_change changes) with ((acc ++ [normal_change change]) ++ map normal_change changes) by (by rewrite <- app_assoc).
  apply IH.
Qed.
Lemma emits_changes changes seen : Forall change_ok changes -> emits (zlen changes) (changes_encode seen changes).
Proof.
  intros Ho. revert seen. induction Ho as [|change changes Hc _ IH]; intros seen; cbn [changes_encode].
  { exact (emits_of_mirrors _ _ _ (mirrors_ret tt)). }
  apply emits_fail_if. rewrite zlen_cons. replace (zlen changes + 1) with (1 + zlen changes) by lia. apply emits_bind; [|apply IH].
  by eapply emits_hungry; [apply mirrors_catalog_change|apply _].
Qed.

Definition normal_delta (self : CatalogDelta) : CatalogDelta :=
  {| c_previous := c_previous self; c_generation := c_generation self; c_high_water := c_high_water self; c_changes := map normal_change (c_changes self) |}.
Record catalog_delta_ok (self : CatalogDelta) : Prop := {
  cd_previous : nonzero_u64 (c_previous self);
  cd_generation : nonzero_u64 (c_generation self);
  cd_high_water : length (c_high_water self) = 9%nat /\ Forall is_u64 (c_high_water self);
  cd_changes : Forall change_ok (c_changes self)
}.

Lemma mirrors_waters l : Forall is_u64 l -> mirrors (for_each Encoder.u64 l) (repeat_m (length l) Decoder.u64) l.
Proof.
  intros Hl. pose proof (mirrors_each Encoder.u64 (fun x => x) Decoder.u64 l) as HM. rewrite map_id in HM. apply HM.
  eapply Forall_impl; [exact Hl|]. apply mirrors_u64.
Qed.

Lemma mirrors_catalog_delta self : catalog_delta_ok self -> mirrors (catalog_delta_encode self) catalog_delta_decode (normal_delta self).
Proof.
  intros [Hp Hg [Hl Hw] Hc]. unfold catalog_delta_encode, catalog_delta_decode. do 2 field. rewrite <- Hl. eapply mirrors_bind; [by apply mirrors_waters|].
  apply mirrors_count_for; [apply zlen_nonneg|by apply emits_changes|]. unfold zlen. rewrite Nat2Z.id.
  by eapply mirrors_then; [apply (mirrors_changes _ ∅ [])|].
Qed.

Lemma changes_inv n seen acc t r t' : changes_decode n seen acc t = (Ok r, t') ->
  exists l, r = acc ++ l /\ length l = n /\ NoDup (map change_id l) /\ (forall id, id ∈ map change_id l -> id ∉ seen) /\ writes (changes_encode seen l) t t'.
Proof.
  revert seen acc t. induction n as [|n IH]; intros seen acc t D; cbn [changes_decode] in D.
  { run_inv. exists []. rewrite app_nil_r. split; [done|]. split; [done|]. split; [constructor|]. split; [by intros id []%elem_of_nil|]. apply writes_ret. }
  run_inv. match goal with E : bool_decide _ = false |- _ => rename E into Hs end. apply bool_decide_eq_false in Hs as Hs'.
  apply IH in D as (l & -> & Hl & Hn & Hf & W). exists (a :: l). split; [by rewrite <- app_assoc|]. split; [by cbn; f_equal|]. cbn [map]. split; [|split].
  - apply NoDup_cons. split; [|done]. intros Hin. apply (Hf _ Hin). set_solver.
  - intros id [->|Hin]%elem_of_cons; [done|]. apply Hf in Hin. set_solver.
  - cbn [changes_encode]. apply writes_fail_if; [done|]. eapply writes_bind; [by apply writes_change|exact W].
Qed.

Lemma catalog_delta_inv t self t' : catalog_delta_decode t = (Ok self, t') ->
  (length (c_high_water self) = 9%nat /\ NoDup (map change_id (c_changes self))) /\ writes (catalog_delta_encode self) t t'.
Proof.
  intros D. unfold catalog_delta_decode in D. run_inv.
  match goal with E : changes_decode _ _ _ _ = _ |- _ => apply changes_inv in E as (l & -> & Hl & Hn & _ & W) end. cbn [app] in *.
  match goal with E : repeat_m 9 _ _ = _ |- _ => pose proof (repeat_m_length _ _ _ _ _ E) as Hw; apply (canonical_repeat 9 _ _ canonical_u64) in E end.
  match goal with E : Decoder.count_for _ _ = _ |- _ => rename E into EC end.
  split; [done|]. unfold catalog_delta_encode. cbn [c_previous c_generation c_high_water c_changes]. all_written.
  eapply writes_bind; [|exact W]. rewrite (count_length _ _ _ _ _ EC Hl). by eapply canonical_count_for.
Qed.

(** ** Complete records *)

Lemma mirrors_descriptors l acc : Forall descriptor_ok l -> ascending_ids (map d_id (acc ++ l)) ->
  mirrors (for_each descriptor_encode l) (descriptors_decode (length l) acc) (acc ++ map normal l).
Proof.
  intros Hl. revert acc. induction Hl as [|d l Hd _ IH]; intros acc Hs; cbn [for_each descriptors_decode length map].
  { rewrite app_nil_r. apply mirrors_ret. }
  eapply mirrors_bind; [by apply mirrors_descriptor|]. cbv beta.
  replace (acc ++ d :: l) with ((acc ++ [d]) ++ l) in Hs by (by rewrite <- app_assoc).
  apply mirrors_pure with (a := tt).
  - intros t. apply ascending_prefix, ascending_snoc in Hs as [_ Hn]. unfold not_above in Hn. cbn. by rewrite Hn.
  - replace (acc ++ normal d :: map normal l) with ((acc ++ [normal d]) ++ map normal l) by (by rewrite <- app_assoc). apply IH.
    rewrite !map_app in *. exact Hs.
Qed.

Lemma descriptors_inv n acc t r t' : descriptors_decode n acc t = (Ok r, t') ->
  exists l, r = acc ++ l /\ length l = n /\ (ascending_ids (map d_id acc) -> ascending_ids (map d_id r)) /\ writes (for_each descriptor_encode l) t t'.
Proof.
  revert acc t. induction n as [|n IH]; intros acc t D; cbn [descriptors_decode] in D.
  { run_inv. exists []. rewrite app_nil_r. split; [done|]. split; [done|]. split; [done|]. apply writes_ret. }
  run_inv. apply IH in D as (l & -> & Hl & Hs & W). exists (a :: l).
  split; [by rewrite <- app_assoc|]. split; [by cbn; f_equal|]. split; [intros Ha; apply Hs, ascending_snoc; by split|].
  cbn [for_each]. eapply writes_bind; [by apply writes_descriptor|exact W].
Qed.

Record records_typed (self : CatalogLogicalRecords) : Prop := {
  rt_generation : nonzero_u64 (r_generation self);
  rt_high_water : forall kind, is_u64 (water (r_high_water self) kind);
  rt_descriptors : Forall descriptor_ok (r_descriptors self)
}.

Lemma for_each_map {A B} (f : B -> Encoder.M unit) (g : A -> B) l s : for_each f (map g l) s = for_each (fun x => f (g x)) l s.
Proof. revert s. induction l as [|x l IH]; intros s; [done|]. cbn [for_each map]. apply bind_ext. intros [] s1. apply IH. Qed.

Lemma mirrors_records self : records_typed self -> ascending_ids (map d_id (r_descriptors self)) ->
  mirrors (records_body (r_generation self) self) records_fields
    (r_generation self, map (water (r_high_water self)) DOMAINS, map normal (r_descriptors self)).
Proof.
  intros [Hg Hw Hd] Hs. unfold records_body, records_fields. field.
  assert (HW : mirrors (for_each (fun kind => Encoder.u64 (water (r_high_water self) kind)) DOMAINS) (repeat_m (length DOMAINS) Decoder.u64)
    (map (water (r_high_water self)) DOMAINS)).
  { apply mirrors_each. apply Forall_true. intros kind. apply mirrors_u64, Hw. }
  eapply mirrors_bind; [exact HW|]. cbv beta.
  assert (HD := mirrors_descriptors _ [] Hd Hs).
  apply mirrors_count_for; [apply zlen_nonneg| |].
  - apply emits_bind_r; [apply emits_budget|]. eapply (emits_each _ normal descriptor_decode); [apply _|].
    eapply Forall_impl; [exact Hd|]. apply mirrors_descriptor.
  - field. unfold zlen. rewrite Nat2Z.id. by eapply mirrors_then; [exact HD|].
Qed.

Lemma encode_records_spec self s s' : encode_records self s = (Ok tt, s') -> sorted_records (r_descriptors self) ->
  catalog_records self /\ records_body (r_generation self) self s = (Ok tt, s').
Proof.
  intros E Hs. unfold encode_records in E. pose proof (reconstruct_spec self Hs) as HR. destruct (reconstruct self) as [snapshot|[?|?]]; cbn in E; [|done..].
  destruct HR as (c & r & HO & [Hg _ _ _ _ _ _ _ _ _]). rewrite Hg in E. split; [split; [done|eauto]|]. unfold lifted in E.
  destruct (records_body _ _ s) as [[[]|?] s1]; cbn in E; [congruence|done].
Qed.

Lemma waters_id (hw : list Z) : length hw = 9%nat -> map (water (list_to_map (zip DOMAINS hw))) DOMAINS = hw.
Proof. intros Hl. destruct hw as [|w1 [|w2 [|w3 [|w4 [|w5 [|w6 [|w7 [|w8 [|w9 [|]]]]]]]]]]; try done. Qed.

Lemma records_inv t g hw l t' : records_fields t = (Ok (g, hw, l), t') ->
  ascending_ids (map d_id l) /\
  writes (records_body g {| r_generation := g; r_high_water := list_to_map (zip DOMAINS hw); r_descriptors := l |}) t t'.
Proof.
  intros D. unfold records_fields in D. run_inv.
  match goal with E : descriptors_decode _ _ _ = _ |- _ => apply descriptors_inv in E as (l' & -> & Hl & Hs & W) end. cbn [app] in *.
  match goal with E : repeat_m (length DOMAINS) _ _ = _ |- _ => pose proof (repeat_m_length _ _ _ _ _ E) as Hw; apply (canonical_repeat _ _ _ canonical_u64) in E; rename E into WH end.
  match goal with E : Decoder.count_for _ _ = _ |- _ => rename E into EC end.
  simplify_eq. split; [apply Hs; constructor|]. unfold records_body. cbn [r_generation r_high_water r_descriptors]. written.
  eapply writes_bind.
  { eapply writes_ext; [|exact WH]. intros s'. rewrite <- for_each_map. by rewrite waters_id. }
  pose proof (count_length _ _ _ _ _ EC Hl) as HL. rewrite HL. eapply writes_bind; [by eapply canonical_count_for|]. all_written.
Qed.
End Sized.
