(* ===== verification/CatalogProps.v ===== *)
(** The main properties of the catalog, with a concrete catalog for each. *)

From stdpp Require Import relations sorting.
From S2P Require Import Prelude Errors Wire Value ValueCodec ValueLoop ValueRoundtrip ValueCanonical Ordered LabelSet PropertyMap Schema WireProps SchemaProps Catalog CatalogSnapshot CatalogOrder CatalogBuild CatalogRecords CatalogChange CatalogCodec CatalogCodecProps CatalogImage.
From coqutil Require Import Byte.

(** ** Lemmas *)

Section Replay.
Context `{CatalogSizes} `{Unicode}.

(** The dependencies of every descriptor are in order. *)
Definition in_normal_form (self : CatalogLogicalRecords) : Prop := Forall (fun d => normal d = d) (r_descriptors self).

Lemma collect_typed self id d : NoDup (map d_id (r_descriptors self)) -> records_typed self -> collect (r_descriptors self) !! id = Some d -> descriptor_ok d.
Proof. intros Hn [_ _ Hd] E. apply collect_Some in E as [Hin _]; [|done]. rewrite Forall_forall in Hd. by apply Hd. Qed.

Lemma changes_typed original next changes state : NoDup (map d_id (r_descriptors original)) -> NoDup (map d_id (r_descriptors next)) ->
  records_typed original -> records_typed next ->
  pending_state (collect (r_descriptors original)) (collect (r_descriptors next)) changes state -> Forall change_ok changes.
Proof.
  intros Hn0 Hn1 T0 T1 [HC _ _]. eapply Forall_impl; [exact HC|]. intros [d|g d|id g]; cbn.
  - intros [_ Hd]. by eapply (collect_typed next).
  - intros (old & Ho & Hd & _ & ->). split; [|by eapply (collect_typed next)]. by apply (collect_typed original) in Ho as [_ _ _ ? _ _ _].
  - intros (old & Ho & _ & ->). pose proof (collect_keyed _ Hn0 _ _ Ho) as <-. by apply (collect_typed original) in Ho as [? _ _ ? _ _ _].
Qed.

Lemma changes_normal original next changes state : NoDup (map d_id (r_descriptors next)) -> in_normal_form next ->
  pending_state (collect (r_descriptors original)) (collect (r_descriptors next)) changes state -> map normal_change changes = changes.
Proof.
  intros Hn HN [HC _ _]. assert (Hd : forall id d, collect (r_descriptors next) !! id = Some d -> normal d = d).
  { intros id d [Hin _]%collect_Some; [|done]. unfold in_normal_form in HN. rewrite Forall_forall in HN. by apply HN. }
  induction HC as [|c l Hc _ IH]; [done|]. cbn. rewrite IH. f_equal. destruct c as [d|g d|id g]; cbn in *; [|..|done].
  - destruct Hc as [_ Hc]. by rewrite (Hd _ _ Hc).
  - destruct Hc as (old & _ & Hc & _). by rewrite (Hd _ _ Hc).
Qed.

Lemma between_typed original previous next delta : catalog_records original -> catalog_records next -> records_typed original -> records_typed next ->
  in_normal_form next -> reconstruct original = Ok previous -> between previous next = Ok delta -> catalog_delta_ok delta /\ normal_delta delta = delta.
Proof.
  intros HO HN T0 T1 HF HR HB. destruct (between_spec _ _ _ HO HN HR) as (changes & E & HP & _). rewrite E in HB. injection HB as <-.
  destruct HO as [_ (? & ? & _ & Hn0 & _)], HN as [_ (? & ? & _ & Hn1 & _)]. split.
  - split; cbn [c_previous c_generation c_high_water c_changes]; [apply T0|apply T1| |exact (changes_typed _ _ _ _ Hn0 Hn1 T0 T1 HP)].
    split; [done|]. repeat (constructor; [apply (rt_high_water _ T1)|]). constructor.
  - unfold normal_delta. cbn. f_equal. exact (changes_normal _ _ _ _ Hn1 HF HP).
Qed.
End Replay.

(** ** Properties *)

(** C29: a catalog transaction commits exactly the catalogs.  Whatever
    operations are made on the draft of a new transaction, building it never
    panics; it succeeds exactly when every descriptor of the draft is valid and
    together they are a catalog: one catalog and one root directory, owners that
    exist, unique names, references within a schema, declarations that pass
    their checks and do not depend on themselves.  The snapshot then has the
    next generation and the descriptors of the draft, and its lookups and
    listings by name find exactly the descriptors with that name. *)
Theorem transaction_build_correct base t ops :
  keyed (s_descriptors base) -> transaction_new base = Ok t ->
  let draft := foldl draft_step t ops in
  let catalog := valid_all (t_descriptors draft) /\
    well_formed (s_generation base + 1) (s_catalog_id base) (s_root_id base) (t_descriptors draft) in
  match transaction_build draft with
  | Ok s => catalog /\ snapshot_of (s_generation base + 1) (s_catalog_id base) (s_root_id base) (t_descriptors draft) s
  | Err (Fails _) => ~ catalog
  | Err (Panic _) => False
  end.
Proof.
  intros Hk Ht. cbv zeta. destruct (transaction_new_spec base t Hk Ht) as (Hg & Hc & Hr & Hd).
  destruct (draft_fields t ops) as (Fg & Fc & Fr). rewrite <- Hg, <- Hc, <- Hr, <- Fg, <- Fc, <- Fr.
  apply transaction_build_spec, draft_keyed. by rewrite Hd.
Qed.

(** C28: the dependency check of a catalog ends without a panic (no counter
    underflows), and accepts exactly the descriptors whose declarations have
    their dependencies present at the right generation, profile and state, with
    a proper backing index, and whose dependency relation has no cycle. *)
Theorem dependencies_validate_correct ds : keyed ds -> valid_all ds ->
  let good := (forall id d, ds !! id = Some d -> declaration_ok ds d) /\ acyclic ds in
  match dependencies_validate ds with
  | Ok _ => good
  | Err (Fails _) => ~ good
  | Err (Panic _) => False
  end.
Proof. intros Hk Hv. exact (dependencies_validate_spec ds Hk Hv). Qed.


(** C27: replay only evolves a catalog.  After any sequence of accepted deltas,
    decoded or not, the records are those of a catalog and evolve from the
    original ones: generations and high water marks do not decrease, a new
    identity is above the high water mark of its kind, a changed descriptor has
    a larger generation and keeps its creation and its parent, and an identity
    that is gone does not come back. *)
Theorem replay_evolves original mid final deltas1 deltas2 :
  catalog_records original -> Forall (fun d => length (c_high_water d) = 9%nat) (deltas1 ++ deltas2) ->
  apply_all deltas1 original = Ok mid -> apply_all deltas2 mid = Ok final ->
  catalog_records final /\ evolves original final /\
  forall id, is_Some (collect (r_descriptors original) !! id) -> collect (r_descriptors mid) !! id = None ->
    collect (r_descriptors final) !! id = None.
Proof.
  intros HO [HL1 HL2]%Forall_app A1 A2. destruct (apply_all_evolves _ _ _ HO HL1 A1) as [HM E1]. destruct (apply_all_evolves _ _ _ HM HL2 A2) as [HF E2].
  split; [done|]. split; [by eapply evolves_trans|]. intros id. by apply evolves_gone.
Qed.

(** A complete catalog image is read back as the catalog that was written,
    with its dependencies in order, whatever follows it. *)
Theorem catalog_image_roundtrip `{CatalogSizes} `{Unicode} self s s' :
  sorted_records (r_descriptors self) -> records_typed self -> encode_records self s = (Ok tt, s') ->
  exists out b, s' = after s out b /\
    forall rest, decode_records (Decoder.mk (out ++ rest) (Encoder.budget s)) = (Ok (normal_records self), Decoder.mk rest b).
Proof.
  intros Hs HT E. destruct (encode_records_spec _ _ _ E Hs) as [HC EB]. assert (Hn : NoDup (map d_id (r_descriptors self))) by (by destruct HC as (_ & ? & ? & _ & ? & _)).
  destruct (mirrors_records self HT (records_ascending _ Hs Hn) _ _ EB) as (out & b & -> & _ & _ & D).
  exists out, b. split; [done|]. intros rest. unfold decode_records, lifted. unfold bind at 1. rewrite D. cbn [lift map_err].
  unfold of_result, records_new. rewrite (sort_with_id _ (map normal (r_descriptors self)) (proj1 (normal_catalog_records _ HC))).
  destruct (catalog_records_reconstruct _ (normal_catalog_records _ HC)) as (snapshot & _ & _ & ER & _).
  unfold normal_records in ER. rewrite ER. done.
Qed.

(** Whatever bytes are read as a catalog image, the result is a catalog,
    with one descriptor per identity in ascending order, and the bytes read are
    exactly those that it is encoded as. *)
Theorem catalog_image_canonical `{CatalogSizes} `{Unicode} t self t' :
  decode_records t = (Ok self, t') -> byte_limit (Decoder.budget t) <= u64_max ->
  catalog_records self /\ exists out, Decoder.bytes t = out ++ Decoder.bytes t' /\
    forall s, Encoder.budget s = Decoder.budget t -> 0 <= Encoder.length s -> Encoder.length s + zlen out <= byte_limit (Decoder.budget t) ->
      encode_records self s = (Ok tt, after s out (Decoder.budget t')).
Proof.
  intros D Hu. unfold decode_records in D. run_inv. destruct a as [[g hw] l]. unfold lifted in Hrun.
  destruct (records_fields t) as [[x|e] t1] eqn:E; cbn in Hrun; [|done]. injection Hrun as -> <-. apply records_inv in E as [Hs (out & Hb & HL & F)].
  assert (Hsort : sorted_records l) by (by apply ascending_key_ordered). unfold of_result, records_new in D. rewrite (sort_with_id _ l Hsort) in D.
  set (records := {| r_generation := g; r_high_water := _; r_descriptors := l |}) in *.
  pose proof (reconstruct_spec records Hsort) as HR. destruct (reconstruct records) as [snapshot|[?|?]] eqn:ER; cbn in D; [|done..].
  injection D as <- <-. destruct HR as (c & r & HO & [Hg _ _ _ _ _ _ _ _ _]). split; [split; [done|eauto]|]. exists out. split; [done|].
  intros s Es Hpos Hl. unfold encode_records. rewrite ER. cbn. unfold of_result, bind, lifted. cbn. rewrite Hg. by rewrite F.
Qed.

(** ** A concrete catalog *)

Module CatalogExample.
#[export] Instance sizes : CatalogSizes :=
  {| size_native_parameter := 120; size_native_field := 64; size_catalog_change := 400; size_catalog_descriptor := 384 |}.
(** ASCII letters, without normalisation. *)
Definition letter (c : Z) : bool := ((65 <=? c) && (c <=? 90)) || ((97 <=? c) && (c <=? 122)).
#[export] Instance unicode : Unicode := {| nfc := fun s => s; is_xid_start := letter; is_xid_continue := letter |}.

Definition name (s : string) : CatalogName :=
  match name_regular (ascii_bytes s) with Ok n => n | Err _ => synthetic_root end.
Definition descriptor (id : CatalogObjectId) (name : CatalogName) (parent : CatalogParent) (generation creation : Z) (payload : CatalogPayload) : CatalogDescriptor :=
  {| d_id := id; d_kind := Id.kind id; d_name := name; d_parent := parent; d_generation := generation;
     d_creation := {| creation_generation := creation; creation_principal := Some (ascii_bytes "admin") |}; d_payload := payload |}.

Definition catalog : CatalogDescriptor := descriptor (Id.Catalog 1) (name "main") Parent.None 1 1 Payload.Catalog.
Definition root : CatalogDescriptor := descriptor (Id.Directory 1) synthetic_root (Parent.Catalog 1) 1 1 Payload.RootDirectory.
Definition schema : CatalogDescriptor := descriptor (Id.Schema 1) (name "s") (Parent.Directory 1) 1 1 Payload.Schema.
Definition graph : CatalogDescriptor := descriptor (Id.Graph 1) (name "g") (Parent.Schema 1) 1 1 (Payload.Graph (Some 1)).
Definition graph_type (generation : Z) : CatalogDescriptor := descriptor (Id.GraphType 1) (name "t") (Parent.Schema 1) generation 1 Payload.GraphType.
Definition table : CatalogDescriptor := descriptor (Id.BindingTable 1) (name "b") (Parent.Schema 1) 1 1 Payload.BindingTable.
(** An index that depends on the graph type and on another index. *)
Definition metadata (deps : list (CatalogObjectId * Z)) : DeclarationMetadata :=
  {| meta_state := Ready; meta_profile := profile_current; meta_dependencies := map (fun '(id, g) => {| dep_id := id; dep_generation := g |}) deps |}.
Definition index (n : Z) (label : string) (generation creation : Z) (deps : list (CatalogObjectId * Z)) : CatalogDescriptor :=
  descriptor (Id.Index n) (name label) (Parent.Graph 1) generation creation
    (Payload.Index {| index_metadata := metadata deps;
       index_target := {| target_element := Node; target_label := ascii_bytes "L"; target_properties := [ascii_bytes "p"] |};
       index_configuration := IndexConfiguration.Property [IndexKind.I64] |}).

Definition waters (schema index : Z) : gmap CatalogObjectKind Z :=
  list_to_map [(Kind.Catalog, 1); (Kind.Directory, 1); (Kind.Schema, schema); (Kind.Graph, 1); (Kind.GraphType, 1); (Kind.BindingTable, 1); (Kind.Index, index)].
Definition original : CatalogLogicalRecords :=
  {| r_generation := 1; r_high_water := waters 1 1;
     r_descriptors := [catalog; root; schema; graph; graph_type 1; table; index 1 "i" 1 1 [(Id.GraphType 1, 1)]] |}.
(** The binding table is gone, the graph type is new, the index follows it, and another index comes. *)
Definition next : CatalogLogicalRecords :=
  {| r_generation := 2; r_high_water := waters 1 2;
     r_descriptors := [catalog; root; schema; graph; graph_type 2; index 1 "i" 2 1 [(Id.GraphType 1, 2)];
                       index 2 "j" 2 2 [(Id.GraphType 1, 2); (Id.Index 1, 2)]] |}.

Definition snapshot_or (r : outcome CatalogError CatalogSnapshot) : CatalogSnapshot :=
  match r with
  | Ok s => s
  | Err _ => {| s_generation := 1; s_catalog_id := 1; s_root_id := 1; s_descriptors := ∅; s_schema_names := ∅; s_object_names := ∅; s_declaration_names := ∅ |}
  end.
Lemma snapshot_or_ok r : is_err r = false -> r = Ok (snapshot_or r).
Proof. by destruct r. Qed.
Lemma same_ok {E A} (x y : A) : @Ok E A x = Ok y -> x = y.
Proof. by intros [= ->]. Qed.
Definition previous : CatalogSnapshot := snapshot_or (reconstruct original).
Lemma previous_ok : reconstruct original = Ok previous.
Proof. apply snapshot_or_ok. vm_compute. reflexivity. Qed.

Lemma sorted_check l : StronglySorted (fun a b => Id.leb (d_id a) (d_id b) = true) l -> sorted_records l.
Proof. done. Qed.
Lemma original_sorted : sorted_records (r_descriptors original).
Proof. apply sorted_check. repeat (constructor; [|repeat constructor]). constructor. Qed.
Lemma next_sorted : sorted_records (r_descriptors next).
Proof. apply sorted_check. repeat (constructor; [|repeat constructor]). constructor. Qed.
Lemma records_by_computation self s : sorted_records (r_descriptors self) -> reconstruct self = Ok s -> catalog_records self.
Proof. intros Hs E. pose proof (reconstruct_spec self Hs) as HR. rewrite E in HR. destruct HR as (c & r & HO & _). split; [done|eauto]. Qed.
Lemma original_records : catalog_records original.
Proof. exact (records_by_computation _ _ original_sorted previous_ok). Qed.
Lemma next_records : catalog_records next.
Proof. eapply (records_by_computation next (snapshot_or (reconstruct next))); [exact next_sorted|]. apply snapshot_or_ok. vm_compute. reflexivity. Qed.

Lemma nodup_ids self : catalog_records self -> NoDup (map d_id (r_descriptors self)).
Proof. by intros (_ & c & r & _ & ? & _). Qed.

(** The cases of a lookup in concrete records. *)
Ltac each_descriptor H :=
  repeat (apply elem_of_cons in H as [->|H]); [..|by apply elem_of_nil in H].

Lemma next_evolves : evolves original next.
Proof.
  split.
  - done.
  - done.
  - intros []; vm_compute; congruence.
  - intros id d H0 H1. apply collect_Some in H1 as [Hin <-]; [|exact (nodup_ids _ next_records)]. unfold next in Hin. cbn [r_descriptors] in Hin.
    each_descriptor Hin; vm_compute in H0; try discriminate H0; vm_compute; done.
  - intros id old d H0 H1 N. apply collect_Some in H1 as [Hin <-]; [|exact (nodup_ids _ next_records)]. unfold next in Hin. cbn [r_descriptors] in Hin.
    each_descriptor Hin; vm_compute in H0; try discriminate H0; injection H0 as <-; try (by destruct N); vm_compute; done.
Qed.

(** Side conditions of closed data, leaf by leaf. *)
Ltac leaves :=
  repeat lazymatch goal with
  | |- _ = _ => vm_compute; reflexivity
  | |- (_ <= _)%Z => vm_compute; congruence
  | |- (_ < _)%Z => vm_compute; reflexivity
  | |- Forall _ _ => constructor
  | |- _ /\ _ => split
  | |- True => exact I
  | |- forall _, _ -> _ => let E := fresh in intros ? E; vm_compute in E; try discriminate E; injection E as <-
  | |- _ => progress hnf
  end.

Lemma original_typed : records_typed original.
Proof. split; [leaves|intros []; leaves|]. repeat (constructor; [split; leaves|]). constructor. Qed.
Lemma next_typed : records_typed next.
Proof. split; [leaves|intros []; leaves|]. repeat (constructor; [split; leaves|]). constructor. Qed.
Lemma next_normal : in_normal_form next.
Proof. repeat (constructor; [vm_compute; reflexivity|]). constructor. Qed.
End CatalogExample.

Import CatalogExample.

Lemma previous_keyed : keyed (s_descriptors previous).
Proof.
  destruct (catalog_records_reconstruct _ original_records) as (s & c & r & E & (Hn & _) & _ & Hd). rewrite previous_ok in E. apply same_ok in E as <-.
  rewrite Hd. by apply collect_keyed.
Qed.

(** The concrete results, checked by evaluation. *)
Lemma not_err {E A} (r : result E A) : is_err r = false -> exists a, r = Ok a.
Proof. destruct r; [eauto|done]. Qed.
Lemma run_ok {S E A} (r : result E A * S) : is_err (fst r) = false -> exists a s, r = (Ok a, s).
Proof. destruct r as [[a|] s]; [eauto|done]. Qed.
Definition after_ops (ops : list draft_op) : outcome CatalogError CatalogSnapshot :=
  match transaction_new previous with Ok t => transaction_build (foldl draft_step t ops) | Err e => Err (Fails e) end.
Definition delta : CatalogDelta :=
  match between previous next with Ok d => d | Err _ => {| c_previous := 1; c_generation := 1; c_high_water := []; c_changes := [] |} end.
Definition encoder : Encoder.t :=
  match Encoder.new Limits.default with Ok e => e | Err _ => Encoder.mk [] 0 true (Budget.mk Limits.default 0 0 0) end.
(** Two indexes that depend on each other. *)
Definition cyclic_list : list CatalogDescriptor := [index 1 "i" 1 1 [(Id.Index 2, 1)]; index 2 "j" 1 1 [(Id.Index 1, 1)]].
Definition cyclic : Descriptors := collect cyclic_list.

Lemma new_ok : exists t, transaction_new previous = Ok t.
Proof. apply not_err. vm_compute. reflexivity. Qed.
Lemma remove_table_ok : is_err (after_ops [D_remove (Id.BindingTable 1)]) = false.
Proof. vm_compute. reflexivity. Qed.
Lemma remove_type_err : is_err (after_ops [D_remove_owner (Id.GraphType 1)]) = true.
Proof. vm_compute. reflexivity. Qed.
Lemma between_ok : between previous next = Ok delta.
Proof. unfold delta. assert (is_err (between previous next) = false) by (vm_compute; reflexivity). by destruct (between previous next). Qed.
Lemma delta_changes : length (c_changes delta) = 4%nat.
Proof. vm_compute. reflexivity. Qed.
Lemma delta_encodes : exists s', catalog_delta_encode delta encoder = (Ok tt, s').
Proof. destruct (run_ok (catalog_delta_encode delta encoder)) as ([] & s' & E); [vm_compute; reflexivity|eauto]. Qed.
Lemma image_encodes : exists s', encode_records next encoder = (Ok tt, s').
Proof. destruct (run_ok (encode_records next encoder)) as ([] & s' & E); [vm_compute; reflexivity|eauto]. Qed.
Lemma cyclic_ids : NoDup (map d_id cyclic_list).
Proof. repeat constructor; vm_compute; intros Hin; inversion Hin as [|? ? ? Hin']; inversion Hin'. Qed.
Lemma cyclic_keyed : keyed cyclic.
Proof. apply collect_keyed, cyclic_ids. Qed.
Lemma cyclic_valid : valid_all cyclic.
Proof. apply valid_collect; [apply cyclic_ids|]. repeat (constructor; [vm_compute; reflexivity|]). constructor. Qed.
Lemma cyclic_err : is_err (dependencies_validate cyclic) = true.
Proof. vm_compute. reflexivity. Qed.
Lemma previous_valid : valid_all (s_descriptors previous).
Proof.
  destruct (catalog_records_reconstruct _ original_records) as (s & c & r & E & (Hn & Hv & _) & _ & Hd). rewrite previous_ok in E. apply same_ok in E as <-.
  rewrite Hd. by apply valid_collect.
Qed.
Lemma previous_validates : is_err (dependencies_validate (s_descriptors previous)) = false.
Proof. vm_compute. reflexivity. Qed.

(** A transaction that removes the binding table commits; one that removes the
    graph type, to which the graph refers, does not. *)
Lemma transaction_build_correct_witness :
  exists t s e, transaction_new previous = Ok t /\
    transaction_build (foldl draft_step t [D_remove (Id.BindingTable 1)]) = Ok s /\
    well_formed (s_generation previous + 1) (s_catalog_id previous) (s_root_id previous) (t_descriptors (foldl draft_step t [D_remove (Id.BindingTable 1)])) /\
    transaction_build (foldl draft_step t [D_remove_owner (Id.GraphType 1)]) = Err (Fails e).
Proof.
  destruct new_ok as [t Et]. pose proof remove_table_ok as E1. pose proof remove_type_err as E2. unfold after_ops in E1, E2. rewrite Et in E1, E2.
  pose proof (transaction_build_correct previous t [D_remove (Id.BindingTable 1)] previous_keyed Et) as H1.
  pose proof (transaction_build_correct previous t [D_remove_owner (Id.GraphType 1)] previous_keyed Et) as H2. cbv zeta in H1, H2.
  destruct (transaction_build (foldl draft_step t [D_remove (Id.BindingTable 1)])) as [s|] eqn:B1; [|discriminate E1].
  destruct (transaction_build (foldl draft_step t [D_remove_owner (Id.GraphType 1)])) as [|[?|e]] eqn:B2; [discriminate E2|destruct H2|].
  exists t, s, e. split; [exact Et|]. split; [exact B1|]. split; [|exact B2]. exact (proj2 (proj1 H1)).
Defined.

Lemma dependencies_validate_correct_witness :
  acyclic (s_descriptors previous) /\ exists e, dependencies_validate cyclic = Err (Fails e) /\
    ~ ((forall id d, cyclic !! id = Some d -> declaration_ok cyclic d) /\ acyclic cyclic).
Proof.
  split.
  - pose proof (dependencies_validate_correct (s_descriptors previous) previous_keyed previous_valid) as HD. cbv zeta in HD.
    pose proof previous_validates as E. destruct (dependencies_validate (s_descriptors previous)); [exact (proj2 HD)|discriminate E].
  - pose proof (dependencies_validate_correct cyclic cyclic_keyed cyclic_valid) as HD. cbv zeta in HD. pose proof cyclic_err as E.
    destruct (dependencies_validate cyclic) as [|[?|e]]; [discriminate E|destruct HD|]. exists e. split; [reflexivity|exact HD].
Defined.


(** The binding table is dropped, and stays away when the new index is dropped too. *)
Definition later : CatalogDelta :=
  {| c_previous := 2; c_generation := 3; c_high_water := map (water (r_high_water next)) DOMAINS; c_changes := [Dropped (Id.Index 2) 2] |}.
Definition records_or (r : outcome CodecError CatalogLogicalRecords) : CatalogLogicalRecords := match r with Ok x => x | Err _ => original end.
Definition middle : CatalogLogicalRecords := records_or (apply_all [delta] original).
Definition final : CatalogLogicalRecords := records_or (apply_all [later] middle).
Lemma records_or_ok r : is_err r = false -> r = Ok (records_or r).
Proof. by destruct r. Qed.
Lemma middle_ok : apply_all [delta] original = Ok middle.
Proof. apply records_or_ok. vm_compute. reflexivity. Qed.
Lemma final_ok : apply_all [later] middle = Ok final.
Proof. apply records_or_ok. vm_compute. reflexivity. Qed.
Lemma delta_waters : Forall (fun d => length (c_high_water d) = 9%nat) ([delta] ++ [later]).
Proof. repeat (constructor; [vm_compute; reflexivity|]). constructor. Qed.

Lemma replay_evolves_witness :
  catalog_records final /\ evolves original final /\ length (r_descriptors final) = 6%nat /\ collect (r_descriptors final) !! Id.BindingTable 1 = None.
Proof.
  destruct (replay_evolves original middle final [delta] [later] original_records delta_waters middle_ok final_ok) as (HC & HE & HG).
  split; [exact HC|]. split; [exact HE|]. split; [vm_compute; reflexivity|]. apply HG; [|vm_compute; reflexivity].
  exists table. vm_compute. reflexivity.
Defined.

Lemma catalog_image_roundtrip_witness :
  exists s' out b, encode_records next encoder = (Ok tt, s') /\ s' = after encoder out b /\
    decode_records (Decoder.mk (out ++ []) (Encoder.budget encoder)) = (Ok (normal_records next), Decoder.mk [] b).
Proof.
  destruct image_encodes as [s' E]. destruct (catalog_image_roundtrip next encoder s' next_sorted next_typed E) as (out & b & Hs & D).
  exists s', out, b. split; [exact E|]. split; [exact Hs|]. exact (D []).
Defined.

(** The bytes of an image. *)
Definition image : bytes := Encoder.bytes (snd (encode_records next encoder)).
Definition decoded : result (fault CodecError) CatalogLogicalRecords * Decoder.t := decode_records (Decoder.mk image (Encoder.budget encoder)).
Lemma decoded_ok : is_err (fst decoded) = false.
Proof. vm_compute. reflexivity. Qed.
Lemma decoded_rest : Decoder.bytes (snd decoded) = [].
Proof. vm_compute. reflexivity. Qed.

Lemma catalog_image_canonical_witness :
  exists self, decode_records (Decoder.mk image (Encoder.budget encoder)) = (Ok self, snd decoded) /\ catalog_records self /\
    encode_records self encoder = (Ok tt, after encoder image (Decoder.budget (snd decoded))).
Proof.
  destruct (run_ok decoded decoded_ok) as (self & t' & E). pose proof decoded_rest as R. rewrite E in *. cbn [snd] in *. unfold decoded in E.
  destruct (catalog_image_canonical (Decoder.mk image (Encoder.budget encoder)) self t' E) as (HC & out & Hb & F); [vm_compute; congruence|].
  cbn [Decoder.bytes] in Hb. rewrite R, app_nil_r in Hb. subst out. exists self. split; [exact E|]. split; [exact HC|].
  apply F; [reflexivity|vm_compute; congruence|]. vm_compute. congruence.
Defined.
