(* ===== verification/Transaction.v ===== *)
(** Complete logical transactions (selene-graph, logical_transaction.rs): the
    body of a log record, which joins a catalog delta, the named graph types and
    the graph deltas of one atomic unit. *)

From S2P Require Import Prelude Errors Wire Value ValueCodec Ordered LabelSet PropertyMap Schema GraphDelta Catalog CatalogSnapshot CatalogCodec.
From coqutil Require Import Byte.

(** [TypeDelta]. *)
Record TypeDelta `{Leaves} := { td_id : Z; td_definition : option GraphDefinition }.

(** [LogicalTransaction]. *)
Record LogicalTransaction `{Leaves} `{LegacyEvents} := {
  lt_catalog : CatalogDelta;
  lt_graph_types : list TypeDelta;
  lt_graphs : list GraphDelta
}.

Section Transactions.
Context `{Leaves} `{LegacyEvents} `{Sizes} `{CatalogSizes} `{Unicode}.

(** One named type of [LogicalTransaction::encode]. *)
Definition type_encode (ty : TypeDelta) : Encoder.M unit :=
  Encoder.u64 (td_id ty) ;;
  encode_option encode_graph_definition (td_definition ty).

(** The fields of [LogicalTransaction::encode]. *)
Definition transaction_fields (self : LogicalTransaction) : Encoder.M unit :=
  Encoder.u32 1 ;;
  catalog_delta_encode (lt_catalog self) ;;
  Encoder.count (zlen (lt_graph_types self)) ;;
  fail_if (negb (ids_ascending (map td_id (lt_graph_types self)))) (E_Invalid "type identity order") ;;
  for_each type_encode (lt_graph_types self) ;;
  fail_if (negb (ids_ascending (map gd_id (lt_graphs self)))) (E_Invalid "graph identity order") ;;
  Encoder.count (zlen (lt_graphs self)) ;;
  for_each delta_encode (lt_graphs self).

(** [LogicalTransaction::encode]. *)
Definition transaction_encode (self : LogicalTransaction) (limits : Limits.t) : result CodecError bytes :=
  let? e := Encoder.new limits in
  let '(r, e) := transaction_fields self e in
  let? _ := r in
  Ok (Encoder.finish e).

(** [last().is_some_and(|p| p.id >= id)]. *)
Definition not_above_last {A} (key : A -> Z) (l : list A) (id : Z) : bool :=
  match last l with Some p => id <=? key p | None => false end.

(** The loop over the named types. *)
Fixpoint types_decode (n : nat) (graph_types : list TypeDelta) : Decoder.M (list TypeDelta) :=
  match n with
  | O => ret graph_types
  | S n =>
      do id <- decode_id_of Kind.GraphType;
      fail_if (not_above_last td_id graph_types id) (E_Invalid "type identity order") ;;
      do definition <- decode_option decode_graph_definition;
      types_decode n (graph_types ++ [{| td_id := id; td_definition := definition |}])
  end.

(** The loop over the graphs. *)
Fixpoint graphs_decode (n : nat) (graphs : list GraphDelta) : Decoder.M (list GraphDelta) :=
  match n with
  | O => ret graphs
  | S n =>
      do delta <- delta_decode;
      fail_if (not_above_last gd_id graphs (gd_id delta)) (E_Invalid "graph identity order") ;;
      graphs_decode n (graphs ++ [delta])
  end.

(** The fields of [decode_budget]. *)
Definition transaction_body : Decoder.M LogicalTransaction :=
  do version <- Decoder.u32;
  fail_if (negb (version =? 1)) (E_Unsupported "logical body version") ;;
  do catalog <- catalog_delta_decode;
  do count <- Decoder.count;
  do graph_types <- types_decode (Z.to_nat count) [];
  do count <- Decoder.count;
  do graphs <- graphs_decode (Z.to_nat count) [];
  ret {| lt_catalog := catalog; lt_graph_types := graph_types; lt_graphs := graphs |}.

(** [LogicalTransaction::decode_budget]. *)
Definition decode_budget (b : bytes) : method Budget.t CodecError LogicalTransaction := fun budget =>
  match Decoder.new b budget with
  | Err err => (Err err, budget)
  | Ok d =>
      let '(r, d) := transaction_body d in
      (let? transaction := r in
       let? _ := Decoder.finish d in
       Ok transaction, Decoder.budget d)
  end.

(** [LogicalTransaction::decode]. *)
Definition transaction_decode (b : bytes) (limits : Limits.t) : result CodecError LogicalTransaction :=
  let? budget := Budget.new limits in
  fst (decode_budget b budget).

(** [LogicalTransaction::decode_accounted], with [Budget::allocation_charge] and
    [Budget::item_charge]. *)
Definition decode_accounted (b : bytes) (limits : Limits.t) : result CodecError (LogicalTransaction * Z * Z) :=
  let? budget := Budget.new limits in
  let '(r, budget) := decode_budget b budget in
  let? transaction := r in
  Ok (transaction, Budget.allocation budget, Budget.items budget).
End Transactions.
