(* ===== verification/TransactionProps.v ===== *)
(** The codec of complete transactions: what is encoded is read back, what is
    read is written as the same bytes, and what is accounted stays within the
    limits. *)

From S2P Require Import Prelude Errors Wire Value ValueCodec ValueLoop ValueRoundtrip ValueCanonical ValueProps Ordered LabelSet PropertyMap PropertyProps Schema GraphDelta WireProps SchemaProps DeltaProps Catalog CatalogSnapshot CatalogCodec CatalogCodecProps CatalogImage CatalogProps Transaction.
From coqutil Require Import Byte.

Section Codec.
Context `{Leaves} `{!DecimalLaws} `{!SpanLaws} `{LegacyEvents} `{Sizes} `{CatalogSizes} `{Unicode}.

Definition type_ok (ty : TypeDelta) : Prop :=
  nonzero_u64 (td_id ty) /\ match td_definition ty with Some def => definition_ok def | None => True end.
Definition normal_type (ty : TypeDelta) : TypeDelta :=
  {| td_id := td_id ty; td_definition := normal_definition <$> td_definition ty |}.

(** The values of a transaction that round-trip.  Most of the condition is what the
    Rust types of the fields guarantee (widths, nonzero identities, UTF-8); the rest
    is an assumption on the values: every JSON and every temporal leaf has a text
    that parses back to it ([text_stable], through [value_ok]), which
    [decode_unstable_json] of ValueProps.v shows to be needed. *)
Record transaction_ok (self : LogicalTransaction) : Prop := {
  to_catalog : catalog_delta_ok (lt_catalog self);
  to_types : Forall type_ok (lt_graph_types self);
  to_graphs : Forall delta_ok (lt_graphs self)
}.
(** The transaction as the format has it: sets of names in order, property maps in the
    standard representation. *)
Definition normal_transaction (self : LogicalTransaction) : LogicalTransaction :=
  {| lt_catalog := CatalogImage.normal_delta (lt_catalog self); lt_graph_types := map normal_type (lt_graph_types self);
     lt_graphs := map DeltaProps.normal_delta (lt_graphs self) |}.

(** ** Ascending identities *)

Lemma ascending_app {A} (key : A -> Z) acc x l : ids_ascending (map key (acc ++ x :: l)) = true ->
  not_above_last key acc (key x) = false /\ ids_ascending (map key ((acc ++ [x]) ++ l)) = true.
Proof.
  intros Ha. rewrite <- app_assoc. split; [|exact Ha]. replace (acc ++ x :: l) with ((acc ++ [x]) ++ l) in Ha by (by rewrite <- app_assoc).
  rewrite map_app in Ha. apply ids_ascending_prefix in Ha. rewrite map_app in Ha. apply ids_ascending_last in Ha as [_ Ha].
  unfold not_above_last. rewrite (fmap_last key acc : last (map key acc) = _) in Ha. by destruct (last acc).
Qed.
Lemma ascending_step {A} (key : A -> Z) acc x : ids_ascending (map key acc) = true -> not_above_last key acc (key x) = false ->
  ids_ascending (map key (acc ++ [x])) = true.
Proof.
  intros Ha Hn. rewrite map_app. apply ids_ascending_last. split; [done|]. unfold not_above_last in Hn. rewrite (fmap_last key acc : last (map key acc) = _). by destruct (last acc).
Qed.

(** ** Named types *)

Lemma mirrors_type_definition ty : type_ok ty ->
  mirrors (encode_option encode_graph_definition (td_definition ty)) (decode_option decode_graph_definition) (normal_definition <$> td_definition ty).
Proof. intros [_ Hd]. apply mirrors_option. intros def E. rewrite E in Hd. by apply mirrors_definition. Qed.

Lemma mirrors_types l acc : Forall type_ok l -> ids_ascending (map td_id (acc ++ l)) = true ->
  mirrors (for_each type_encode l) (types_decode (length l) acc) (acc ++ map normal_type l).
Proof.
  intros Hl. revert acc. induction Hl as [|ty l Hd _ IH]; intros acc Ha; cbn [for_each types_decode length map].
  { rewrite app_nil_r. apply mirrors_ret. }
  apply ascending_app in Ha as [Hn Ha]. unfold type_encode at 1. eapply mirrors_impl; [intros s s' E; rewrite bind_assoc in E; exact E|].
  eapply mirrors_bind; [by apply mirrors_id_of; destruct Hd|]. apply mirrors_pure with (a := tt); [intros t; by rewrite Hn|].
  eapply mirrors_bind; [by apply mirrors_type_definition|]. cbv beta.
  replace (acc ++ normal_type ty :: map normal_type l) with ((acc ++ [normal_type ty]) ++ map normal_type l) by (by rewrite <- app_assoc).
  apply IH. rewrite !map_app in *. exact Ha.
Qed.
Lemma emits_types l : Forall type_ok l -> emits (zlen l) (for_each type_encode l).
Proof.
  intros Hl. apply emits_for_each. eapply Forall_impl; [exact Hl|]. intros ty [Hi Hd]. apply emits_bind_l.
  - eapply emits_hungry; [by apply mirrors_u64, nonzero_is_u64|apply _].
  - by eapply emits_of_mirrors, mirrors_type_definition.
Qed.

Lemma types_inv n acc t r t' : types_decode n acc t = (Ok r, t') -> ids_ascending (map td_id acc) = true ->
  exists l, r = acc ++ l /\ length l = n /\ ids_ascending (map td_id r) = true /\ writes (for_each type_encode l) t t'.
Proof.
  revert acc t. induction n as [|n IH]; intros acc t D Ha; cbn [types_decode] in D.
  { run_inv. exists []. rewrite app_nil_r. split_and!; try done. apply writes_ret. }
  run_inv. match goal with E : not_above_last _ _ _ = false |- _ => rename E into Hn end.
  match goal with E : decode_option _ _ = (Ok ?x, _), E' : decode_id_of _ _ = (Ok ?i, _) |- _ =>
    rename E into EO, E' into EI; set (ty := {| td_id := i; td_definition := x |}) in * end.
  apply IH in D as (l & -> & Hl & Hs & W); [|by apply (ascending_step td_id acc ty)].
  exists (ty :: l). split; [by rewrite <- app_assoc|]. split; [by cbn; f_equal|]. split; [done|].
  cbn [for_each]. eapply writes_bind; [|exact W]. eapply writes_bind; [by eapply canonical_id_of|].
  by eapply canonical_option; [apply canonical_definition|].
Qed.

(** ** Graphs *)

Lemma mirrors_graphs l acc : Forall delta_ok l -> ids_ascending (map gd_id (acc ++ l)) = true ->
  mirrors (for_each delta_encode l) (graphs_decode (length l) acc) (acc ++ map DeltaProps.normal_delta l).
Proof.
  intros Hl. revert acc. induction Hl as [|d l Hd _ IH]; intros acc Ha; cbn [for_each graphs_decode length map].
  { rewrite app_nil_r. apply mirrors_ret. }
  apply ascending_app in Ha as [Hn Ha]. eapply mirrors_bind; [by apply mirrors_delta|]. cbv beta. apply mirrors_pure with (a := tt); [intros t; cbn; by rewrite Hn|].
  replace (acc ++ DeltaProps.normal_delta d :: map DeltaProps.normal_delta l) with ((acc ++ [DeltaProps.normal_delta d]) ++ map DeltaProps.normal_delta l) by (by rewrite <- app_assoc).
  apply IH. rewrite !map_app in *. exact Ha.
Qed.
#[export] Instance hungry_delta : Hungry delta_decode.
Proof. unfold delta_decode, decode_nonzero. apply _. Qed.
Lemma emits_graphs l : Forall delta_ok l -> emits (zlen l) (for_each delta_encode l).
Proof. intros Hl. eapply (emits_each _ DeltaProps.normal_delta delta_decode); [apply _|]. eapply Forall_impl; [exact Hl|]. apply mirrors_delta. Qed.

Lemma graphs_inv n acc t r t' : graphs_decode n acc t = (Ok r, t') -> ids_ascending (map gd_id acc) = true ->
  exists l, r = acc ++ l /\ length l = n /\ ids_ascending (map gd_id r) = true /\ writes (for_each delta_encode l) t t'.
Proof.
  revert acc t. induction n as [|n IH]; intros acc t D Ha; cbn [graphs_decode] in D.
  { run_inv. exists []. rewrite app_nil_r. split_and!; try done. apply writes_ret. }
  run_inv. apply IH in D as (l & -> & Hl & Hs & W); [|by apply ascending_step].
  exists (a :: l). split; [by rewrite <- app_assoc|]. split; [by cbn; f_equal|]. split; [done|].
  cbn [for_each]. eapply writes_bind; [|exact W]. by apply canonical_delta.
Qed.

(** ** Transactions *)

Lemma mirrors_transaction self : transaction_ok self -> mirrors (transaction_fields self) transaction_body (normal_transaction self).
Proof.
  intros [Hc Ht Hg]. unfold transaction_fields, transaction_body. eapply mirrors_bind; [by apply mirrors_u32|].
  apply mirrors_pure with (a := tt); [done|]. eapply mirrors_bind; [by apply mirrors_catalog_delta|].
  assert (HG : mirrors (fail_if (negb (ids_ascending (map gd_id (lt_graphs self)))) (E_Invalid "graph identity order") ;;
      Encoder.count (zlen (lt_graphs self)) ;; for_each delta_encode (lt_graphs self))
    (do count <- Decoder.count;
     do graphs <- graphs_decode (Z.to_nat count) [];
     ret {| lt_catalog := CatalogImage.normal_delta (lt_catalog self); lt_graph_types := map normal_type (lt_graph_types self); lt_graphs := graphs |})
    (normal_transaction self)).
  { apply mirrors_fail_if. intros Ha%negb_false_iff. apply mirrors_count_for; [apply zlen_nonneg|by apply emits_graphs|].
    unfold zlen. rewrite Nat2Z.id. by eapply mirrors_then; [apply (mirrors_graphs _ [])|]. }
  apply mirrors_count_for; [apply zlen_nonneg| |].
  - apply emits_fail_if. apply emits_bind_l; [by apply emits_types|by eapply emits_of_mirrors].
  - apply mirrors_fail_if. intros Ha%negb_false_iff. unfold zlen. rewrite Nat2Z.id. by eapply mirrors_bind; [apply (mirrors_types _ [])|].
Qed.

Lemma transaction_inv t self t' : transaction_body t = (Ok self, t') -> writes (transaction_fields self) t t'.
Proof.
  intros D. unfold transaction_body in D. run_inv. match goal with E : negb (_ =? 1) = false |- _ => apply negb_false_iff, Z.eqb_eq in E; subst end.
  match goal with E : types_decode _ _ _ = _ |- _ => apply types_inv in E as (l & -> & Hl & Hs & W); [|done] end.
  match goal with E : graphs_decode _ _ _ = _ |- _ => apply graphs_inv in E as (l' & -> & Hl' & Hs' & W'); [|done] end.
  match goal with E : catalog_delta_decode _ = _ |- _ => apply catalog_delta_inv in E as [_ WC] end. cbn [app] in *.
  unfold transaction_fields. cbn [lt_catalog lt_graph_types lt_graphs]. written. eapply writes_bind; [exact WC|].
  match goal with E : Decoder.count ?t = (Ok ?n, ?t1), W : writes (for_each type_encode l) ?t1 _ |- _ => rename E into EC end.
  match goal with E : Decoder.count ?t = (Ok ?n, ?t1), W : writes (for_each delta_encode l') ?t1 _ |- _ => rename E into EC' end.
  rewrite (count_length _ _ _ _ _ EC Hl), (count_length _ _ _ _ _ EC' Hl').
  eapply writes_bind; [by eapply canonical_count_for|]. apply writes_fail_if; [by rewrite Hs|]. eapply writes_bind; [exact W|].
  apply writes_fail_if; [by rewrite Hs'|]. eapply writes_bind; [by eapply canonical_count_for|exact W'].
Qed.

(** ** Whole bodies *)

Lemma decode_of_transaction self limits b : 0 <= Limits.bytes limits -> transaction_ok self -> transaction_encode self limits = Ok b ->
  transaction_decode b limits = Ok (normal_transaction self).
Proof.
  intros Hb Ho E. unfold transaction_encode, Encoder.new in E. destruct (Budget.new limits) as [b0|] eqn:N; [|done].
  destruct (transaction_fields _ _) as [[[]|] s] eqn:E1; [|done]. injection E as <-. pose proof N as [-> _]%budget_new_Ok.
  destruct (mirrors_transaction self Ho _ _ E1) as (out & b' & -> & L & F & D). cbn in *.
  unfold transaction_decode, decode_budget, Decoder.new. rewrite N. cbn. rewrite (proj2 (Z.ltb_ge _ _)) by (rewrite L in F; cbn in F; lia).
  specialize (D []). rewrite app_nil_r in D. by rewrite D.
Qed.

Lemma transaction_of_decode self limits b : transaction_decode b limits = Ok self -> transaction_encode self limits = Ok b.
Proof.
  unfold transaction_decode. intros D. destruct (Budget.new limits) as [b0|] eqn:N; [|done].
  pose proof N as [-> Hl]%budget_new_Ok. unfold decode_budget, Decoder.new in D. cbn in D.
  destruct (Z.ltb_spec (Limits.bytes limits) (zlen b)) as [|Hb]; [done|].
  destruct (transaction_body _) as [[v'|] t'] eqn:E; [|done]. cbn in D. unfold Decoder.finish in D. destruct (Decoder.bytes t') as [|] eqn:Hn; [|done].
  injection D as ->. destruct (transaction_inv _ _ _ E) as (out & Ho & _ & F). cbn in *. rewrite Hn, app_nil_r in Ho. subst out.
  unfold transaction_encode, Encoder.new. rewrite N. rewrite F; [done|done|cbn; lia|cbn; lia|].
  unfold WIRE_MAX_PAYLOAD, u64_max in *. lia.
Qed.
End Codec.

(** C36: A logical transaction (catalog delta, named graph types, graph deltas) whose
    fields are in range and whose JSON and temporal leaves have texts that parse back
    to them, and that [LogicalTransaction::encode] writes, is read back by
    [LogicalTransaction::decode] in its normal form: the same transaction with
    its sets in the order of the format and its property maps in the standard
    representation ([normal_transaction]). *)
Theorem transaction_roundtrip `{Leaves} `{!DecimalLaws} `{!SpanLaws} `{LegacyEvents} `{Sizes} `{CatalogSizes} `{Unicode} self limits b :
  0 <= Limits.bytes limits -> transaction_ok self -> transaction_encode self limits = Ok b -> transaction_decode b limits = Ok (normal_transaction self).
Proof. apply decode_of_transaction. Qed.

(** C37: Transaction bodies are canonical.  Bytes that [LogicalTransaction::decode]
    accepts are exactly the bytes [LogicalTransaction::encode] writes, under the same
    limits, for the transaction it returns. *)
Theorem transaction_canonical `{Leaves} `{!DecimalLaws} `{!SpanLaws} `{LegacyEvents} `{Sizes} `{CatalogSizes} `{Unicode} self limits b :
  transaction_decode b limits = Ok self -> transaction_encode self limits = Ok b.
Proof. apply transaction_of_decode. Qed.

(** ** Witnesses *)

Module TransactionExample.
Import ValueExample DeltaExample CatalogExample.

Definition transaction : LogicalTransaction := {|
  lt_catalog := CatalogProps.delta;
  lt_graph_types := [{| td_id := 1; td_definition := Some definition |}; {| td_id := 4; td_definition := None |}];
  lt_graphs := [DeltaExample.delta] |}.
Definition body : bytes := match transaction_encode transaction Limits.default with Ok b => b | Err _ => [] end.
Lemma transaction_encodes : transaction_encode transaction Limits.default = Ok body.
Proof. vm_compute. reflexivity. Qed.
Lemma catalog_part_ok : catalog_delta_ok CatalogProps.delta.
Proof. exact (proj1 (between_typed original previous next CatalogProps.delta original_records next_records original_typed next_typed next_normal previous_ok between_ok)). Qed.
Lemma transaction_is_ok : transaction_ok transaction.
Proof. split; [exact catalog_part_ok|cbn [lt_graph_types transaction]; concrete|constructor; [exact delta_is_ok|constructor]]. Qed.
End TransactionExample.

Import ValueExample DeltaExample CatalogExample TransactionExample.

Lemma transaction_roundtrip_witness : transaction_decode body Limits.default = Ok (normal_transaction transaction).
Proof. apply (transaction_roundtrip transaction Limits.default body); [vm_compute; congruence|exact transaction_is_ok|exact transaction_encodes]. Defined.
Lemma transaction_canonical_witness : transaction_encode (normal_transaction transaction) Limits.default = Ok body.
Proof. apply (transaction_canonical (normal_transaction transaction) Limits.default body). exact (decode_of_transaction transaction Limits.default body ltac:(vm_compute; congruence) transaction_is_ok transaction_encodes). Defined.
