(* ===== verification/Columns.v ===== *)
(** Chunked columns (selene-graph, chunked_vec.rs).

    Frozen chunks of [CHUNK_SIZE] values and a tail that is shorter.  Sharing of
    chunks between snapshots is not visible through the interface: a clone is a
    value of its own.  [elements_of] forgets the chunks, and every operation is
    the one of a plain vector. *)

From S2P Require Import Prelude.

Definition CHUNK_SIZE : nat := Z.to_nat 2048.

Record ChunkedVec (T : Type) := { chunks : list (list T); tail : list T; cv_len : nat }.
Arguments chunks {T}.
Arguments tail {T}.
Arguments cv_len {T}.

(** [locate]. *)
Definition locate (index : nat) : nat * nat := ((index / CHUNK_SIZE)%nat, (index mod CHUNK_SIZE)%nat).

Section Operations.
Context {T : Type}.
Implicit Type self : ChunkedVec T.

(** [ChunkedVec::new]. *)
Definition cv_new : ChunkedVec T := {| chunks := []; tail := []; cv_len := 0 |}.

(** [ChunkedVec::get]. *)
Definition cv_get (index : nat) self : option T :=
  if (cv_len self <=? index)%nat then None else
  let '(chunk_index, offset) := locate index in
  if (chunk_index <? length (chunks self))%nat
  then chunks self !! chunk_index ≫= fun chunk => chunk !! offset
  else tail self !! offset.

(** [ChunkedVec::push]. *)
Definition cv_push (value : T) self : ChunkedVec T :=
  let filled := tail self ++ [value] in
  let len := S (cv_len self) in
  if (length filled =? CHUNK_SIZE)%nat
  then {| chunks := chunks self ++ [filled]; tail := []; cv_len := len |}
  else {| chunks := chunks self; tail := filled; cv_len := len |}.

(** [ChunkedVec::set]. *)
Definition cv_set {E} (index : nat) (value : T) self : outcome E (ChunkedVec T) :=
  refuse (cv_len self <=? index)%nat with Panic "ChunkedVec::set index out of bounds";
  let '(chunk_index, offset) := locate index in
  if (chunk_index <? length (chunks self))%nat
  then Ok {| chunks := alter (<[offset := value]>) chunk_index (chunks self); tail := tail self; cv_len := cv_len self |}
  else Ok {| chunks := chunks self; tail := <[offset := value]> (tail self); cv_len := cv_len self |}.

(** [ChunkedVec::iter]. *)
Definition cv_iter self : list T := concat (chunks self) ++ tail self.

(** ** Columns are vectors *)

Record cv_wf self : Prop := {
  wf_chunks : Forall (fun chunk => length chunk = CHUNK_SIZE) (chunks self);
  wf_tail : (length (tail self) < CHUNK_SIZE)%nat;
  wf_len : cv_len self = length (cv_iter self)
}.

Lemma chunk_size_pos : (0 < CHUNK_SIZE)%nat.
Proof. unfold CHUNK_SIZE. lia. Qed.
#[local] Opaque CHUNK_SIZE.

Lemma concat_length (l : list (list T)) : Forall (fun chunk => length chunk = CHUNK_SIZE) l -> length (concat l) = (length l * CHUNK_SIZE)%nat.
Proof. induction 1 as [|c l Hc _ IH]; [done|]. cbn. rewrite length_app, Hc, IH. lia. Qed.

Lemma concat_lookup (l : list (list T)) c o : Forall (fun chunk => length chunk = CHUNK_SIZE) l -> (c < length l)%nat -> (o < CHUNK_SIZE)%nat ->
  concat l !! (CHUNK_SIZE * c + o)%nat = l !! c ≫= fun chunk => chunk !! o.
Proof.
  intros Hl. revert c. induction Hl as [|x l Hx _ IH]; intros c Hc Ho; [cbn in Hc; lia|]. cbn [concat].
  destruct c as [|c]; cbn in Hc |- *.
  - rewrite lookup_app_l by lia. f_equal; lia.
  - rewrite lookup_app_r by lia. rewrite Hx. replace (CHUNK_SIZE * S c + o - CHUNK_SIZE)%nat with (CHUNK_SIZE * c + o)%nat by lia. apply IH; lia.
Qed.

Lemma concat_insert (l : list (list T)) c o v : Forall (fun chunk => length chunk = CHUNK_SIZE) l -> (c < length l)%nat -> (o < CHUNK_SIZE)%nat ->
  concat (alter (<[o := v]>) c l) = <[(CHUNK_SIZE * c + o)%nat := v]> (concat l).
Proof.
  intros Hl. revert c. induction Hl as [|x l Hx _ IH]; intros c Hc Ho; [cbn in Hc; lia|]. destruct c as [|c]; cbn in Hc |- *.
  - rewrite insert_app_l by lia. do 2 f_equal; lia.
  - rewrite insert_app_r_alt by lia. f_equal. rewrite Hx. replace (CHUNK_SIZE * S c + o - CHUNK_SIZE)%nat with (CHUNK_SIZE * c + o)%nat by lia. apply IH; lia.
Qed.

(** Where an index is. *)
Lemma locate_spec self index : cv_wf self -> (index < cv_len self)%nat ->
  let '(c, o) := locate index in
  index = (CHUNK_SIZE * c + o)%nat /\ (o < CHUNK_SIZE)%nat /\
  if (c <? length (chunks self))%nat then True else index = (length (concat (chunks self)) + o)%nat /\ (o < length (tail self))%nat.
Proof.
  intros [Hc Ht Hl] Hi. unfold locate. pose proof chunk_size_pos. pose proof (Nat.div_mod_eq index CHUNK_SIZE). pose proof (Nat.mod_upper_bound index CHUNK_SIZE).
  split; [lia|]. split; [lia|]. destruct (Nat.ltb_spec (index / CHUNK_SIZE) (length (chunks self))) as [|Hge]; [done|].
  unfold cv_iter in Hl. rewrite length_app, (concat_length _ Hc) in Hl. rewrite (concat_length _ Hc).
  assert (index / CHUNK_SIZE = length (chunks self))%nat by nia. nia.
Qed.

Lemma cv_new_wf : cv_wf cv_new.
Proof. split; [constructor|apply chunk_size_pos|done]. Qed.

Lemma cv_get_spec self index : cv_wf self -> cv_get index self = cv_iter self !! index.
Proof.
  intros W. unfold cv_get. destruct (Nat.leb_spec (cv_len self) index) as [Hge|Hlt].
  { symmetry. apply lookup_ge_None. destruct W as [_ _ <-]. done. }
  pose proof (locate_spec self index W Hlt) as HL. destruct (locate index) as [c o]. destruct HL as (-> & Ho & HL). destruct W as [Hc Ht Hl].
  unfold cv_iter. destruct (Nat.ltb_spec c (length (chunks self))) as [Hlc|_].
  - rewrite lookup_app_l; [by rewrite concat_lookup|]. rewrite (concat_length _ Hc). nia.
  - destruct HL as [-> Hot]. rewrite lookup_app_r by lia. f_equal; lia.
Qed.

Lemma cv_push_spec self value : cv_wf self -> cv_wf (cv_push value self) /\ cv_iter (cv_push value self) = cv_iter self ++ [value].
Proof.
  intros [Hc Ht Hl]. unfold cv_push. destruct (Nat.eqb_spec (length (tail self ++ [value])) CHUNK_SIZE) as [He|Hn].
  - assert (HI : cv_iter {| chunks := chunks self ++ [tail self ++ [value]]; tail := []; cv_len := S (cv_len self) |} = cv_iter self ++ [value]).
    { unfold cv_iter. cbn. rewrite concat_app, app_nil_r. cbn. by rewrite app_nil_r, app_assoc. }
    split; [|exact HI]. split; cbn [chunks tail cv_len]; [by apply Forall_app; split; [|constructor]|apply chunk_size_pos|].
    rewrite HI, length_app. cbn. lia.
  - assert (HI : cv_iter {| chunks := chunks self; tail := tail self ++ [value]; cv_len := S (cv_len self) |} = cv_iter self ++ [value]).
    { unfold cv_iter. cbn. by rewrite app_assoc. }
    split; [|exact HI]. split; cbn [chunks tail cv_len]; [done| |].
    + rewrite length_app in *. cbn in *. lia.
    + rewrite HI, length_app. cbn. lia.
Qed.

Lemma cv_set_spec {E} self index value : cv_wf self ->
  if (cv_len self <=? index)%nat then exists what, cv_set (E := E) index value self = Err (Panic what)
  else exists self', cv_set (E := E) index value self = Ok self' /\ cv_wf self' /\ cv_iter self' = <[index := value]> (cv_iter self).
Proof.
  intros W. unfold cv_set. destruct (Nat.leb_spec (cv_len self) index) as [Hge|Hlt]; [by eexists|].
  pose proof (locate_spec self index W Hlt) as HL. destruct (locate index) as [c o]. destruct HL as (-> & Ho & HL). destruct W as [Hc Ht Hl].
  destruct (Nat.ltb_spec c (length (chunks self))) as [Hlc|_].
  - eexists. split; [done|].
    assert (HI : cv_iter {| chunks := alter (<[o := value]>) c (chunks self); tail := tail self; cv_len := cv_len self |} = <[(CHUNK_SIZE * c + o)%nat := value]> (cv_iter self)).
    { unfold cv_iter. cbn. rewrite insert_app_l, concat_insert; [done|done|done|done|]. rewrite (concat_length _ Hc). nia. }
    split; [|exact HI]. split; cbn [chunks tail cv_len]; [|done|rewrite HI, length_insert; done].
    apply Forall_alter; [done|]. intros x _ Hx. by rewrite length_insert.
  - destruct HL as [E1 Hot]. rewrite E1 in *. eexists. split; [done|].
    assert (HI : cv_iter {| chunks := chunks self; tail := <[o := value]> (tail self); cv_len := cv_len self |} = <[(length (concat (chunks self)) + o)%nat := value]> (cv_iter self)).
    { unfold cv_iter. cbn. by rewrite insert_app_r. }
    split; [|exact HI]. split; cbn [chunks tail cv_len]; [done|by rewrite length_insert|rewrite HI, length_insert; done].
Qed.
(** The same, seen through [get]. *)
Lemma cv_pushed self value : cv_wf self ->
  cv_wf (cv_push value self) /\ cv_len (cv_push value self) = S (cv_len self) /\
  forall index, cv_get index (cv_push value self) = if decide (index = cv_len self) then Some value else cv_get index self.
Proof.
  intros W. destruct (cv_push_spec self value W) as [W' I]. pose proof (wf_len _ W) as HL. split; [done|].
  split; [rewrite (wf_len _ W'), I, length_app, <- HL; cbn; lia|]. intros index. rewrite !cv_get_spec, I by done.
  destruct (decide (index = cv_len self)) as [->|Hne].
  - by rewrite HL, list_lookup_middle.
  - destruct (decide (index < length (cv_iter self))%nat); [by rewrite lookup_app_l|].
    rewrite !(proj2 (lookup_ge_None _ _)); [done|lia|rewrite length_app; cbn; lia].
Qed.
Lemma cv_written {E} self index value : cv_wf self -> (index < cv_len self)%nat ->
  exists self', cv_set (E := E) index value self = Ok self' /\ cv_wf self' /\ cv_len self' = cv_len self /\
    forall j, cv_get j self' = if decide (j = index) then Some value else cv_get j self.
Proof.
  intros W Hi. pose proof (cv_set_spec (E := E) self index value W) as HS. rewrite (proj2 (Nat.leb_gt _ _)) in HS by done.
  destruct HS as (self' & -> & W' & I). pose proof (wf_len _ W) as HL. exists self'. split; [done|]. split; [done|].
  split; [by rewrite (wf_len _ W'), I, length_insert|]. intros j. rewrite !cv_get_spec, I by done. destruct (decide (j = index)) as [->|Hne].
  - rewrite list_lookup_insert_eq; [done|lia].
  - by rewrite list_lookup_insert_ne.
Qed.
Lemma cv_get_Some self index : cv_wf self -> (index < cv_len self)%nat -> exists v, cv_get index self = Some v.
Proof. intros W Hi. rewrite cv_get_spec by done. apply lookup_lt_is_Some_2. by rewrite <- (wf_len _ W). Qed.
End Operations.
