(* ===== verification/GraphTypes.v ===== *)
(** Closed graph types (selene-graph: graph_types.rs, graph_types/endpoint.rs, and
    the parts of mutator.rs and mutator/assignment.rs that consult them).

    A property declaration keeps its name and flags; the value type, length and
    precision bounds, element descriptors and the default are its [pt_detail], and
    what the code computes from them is the class [TypeOps].  The texts of errors
    are abbreviated. *)

From stdpp Require Import sorting.
From S2P Require Import Prelude Wire Value Ordered LabelSet PropertyMap GraphDelta.

(** The parts of the engine that are kept abstract: the details of a property
    declaration, the value, composite, vector, text and expression indexes, and the
    variants of [GraphError] only they produce. *)
Class GraphEnv := {
  PropertyDetail : Type;
  #[global] property_detail_eq :: EqDecision PropertyDetail;
  GraphErrorRest : Type;
  Indexes : Type;
  new_indexes : Indexes
}.

(** ** Endpoints (endpoint.rs) *)

Inductive EdgeEndpointDef :=
| AnyNode
| NodeType (index : Z)
| OneOf (indices : list Z).
#[export] Instance EdgeEndpointDef_eq_dec : EqDecision EdgeEndpointDef.
Proof. solve_decision. Defined.

(** ** Errors (type_validator.rs, error.rs) *)

Inductive EntityId := EntityNode (id : Z) | EntityEdge (id : Z).
#[export] Instance EntityId_eq_dec : EqDecision EntityId.
Proof. solve_decision. Defined.
#[export] Instance EntityId_countable : Countable EntityId.
Proof.
  apply (inj_countable' (fun e => match e with EntityNode id => inl id | EntityEdge id => inr id end)
    (fun x => match x with inl id => EntityNode id | inr id => EntityEdge id end)). by intros [].
Defined.

(** [ValueComparisonError] (selene-core, value_comparison.rs). *)
Inductive ValueComparisonError := NotComparable | TooDeep.
#[export] Instance ValueComparisonError_eq_dec : EqDecision ValueComparisonError.
Proof. solve_decision. Defined.

Inductive TypeViolation `{GraphEnv} :=
| UnknownNodeLabel (id : Z) (labels : LabelSet.t)
| UnknownEdgeLabel (id : Z) (label : bytes)
| EdgeEndpointTypeMismatch (id : Z) (label : bytes) (expected_source_type : EdgeEndpointDef) (observed_source_type : Z)
    (expected_target_type : EdgeEndpointDef) (observed_target_type : Z)
| MissingRequiredProperty (entity_id : EntityId) (property declared_in : bytes)
| PropertyTypeMismatch (entity_id : EntityId) (property : bytes) (expected : PropertyDetail) (observed : string)
| ExtensionValueRejected (entity_id : EntityId) (property : bytes)
| UndeclaredProperty (entity_id : EntityId) (property : bytes)
| ImmutablePropertyUpdate (entity_id : EntityId) (property declared_in : bytes)
| UniquePropertyDuplicate (entity_id conflicting_entity_id : EntityId) (property declared_in : bytes)
| UniquePropertyComparison (entity_id : EntityId) (property declared_in : bytes) (source : ValueComparisonError).
#[export] Instance TypeViolation_eq_dec `{GraphEnv} : EqDecision TypeViolation.
Proof. solve_decision. Defined.

Inductive GraphError `{GraphEnv} :=
| Core (e : CoreError)
| CounterExhausted (kind : string)
| RowSpaceExhausted (kind : string) (rows max_rows : Z)
| NodeNotFound (id : Z)
| NodeNotAlive (id : Z)
| EdgeNotFound (id : Z)
| EdgeNotAlive (id : Z)
| TypeViolated (violation : TypeViolation)
| Inconsistent (reason : string)
| Cancelled
| Rest (e : GraphErrorRest).

(** ** Sets of endpoints *)

Definition search_index (index : Z) (indices : list Z) : result nat nat := binary_search_by (fun i => Z.compare i index) indices.

Fixpoint sorted_slices_intersect (lhs : list Z) : list Z -> bool :=
  fix inner rhs :=
    match lhs, rhs with
    | x :: lhs', y :: rhs' =>
        match Z.compare x y with
        | Lt => sorted_slices_intersect lhs' rhs
        | Gt => inner rhs'
        | Eq => true
        end
    | _, _ => false
    end.

(** [slice::dedup]. *)
Fixpoint dedup_indices (l : list Z) : list Z :=
  match l with
  | x :: ((y :: _) as t) => if x =? y then dedup_indices t else x :: dedup_indices t
  | l => l
  end.

(** [EdgeEndpointDef::one_of]; it panics on the empty set. *)
Definition one_of (indices : list Z) : outcome string EdgeEndpointDef :=
  match dedup_indices (merge_sort Z.le indices) with
  | [] => Err (Panic "EdgeEndpointDef::one_of called with empty index set")
  | [index] => Ok (NodeType index)
  | buf => Ok (OneOf buf)
  end.

Definition matches_node_type (node_type : Z) (self : EdgeEndpointDef) : bool :=
  match self with
  | AnyNode => true
  | NodeType expected => expected =? node_type
  | OneOf indices => negb (is_err (search_index node_type indices))
  end.

Definition overlaps (self other : EdgeEndpointDef) : bool :=
  match self, other with
  | AnyNode, _ | _, AnyNode => true
  | NodeType lhs, NodeType rhs => lhs =? rhs
  | NodeType index, OneOf indices | OneOf indices, NodeType index => negb (is_err (search_index index indices))
  | OneOf lhs, OneOf rhs => sorted_slices_intersect lhs rhs
  end.

(** ** Types (graph_types.rs) *)

Section Types.
Context `{Leaves} `{GraphEnv}.

Record PropertyTypeDef := { pt_name : bytes; pt_required : bool; pt_immutable : bool; pt_unique : bool; pt_detail : PropertyDetail }.
Inductive ValidationMode := Strict | Warn.
Record NodeTypeDef := { nt_name : bytes; nt_key_labels : LabelSet.t; nt_properties : list PropertyTypeDef; nt_validation_mode : ValidationMode }.
Record EdgeTypeDef := {
  et_name : bytes;
  et_label : bytes;
  et_source : EdgeEndpointDef;
  et_target : EdgeEndpointDef;
  et_properties : list PropertyTypeDef;
  et_validation_mode : ValidationMode
}.
Record GraphTypeDef := { gt_name : bytes; gt_node_types : list NodeTypeDef; gt_edge_types : list EdgeTypeDef }.
#[export] Instance PropertyTypeDef_eq_dec : EqDecision PropertyTypeDef.
Proof. solve_decision. Defined.
#[export] Instance ValidationMode_eq_dec : EqDecision ValidationMode.
Proof. solve_decision. Defined.
#[export] Instance NodeTypeDef_eq_dec : EqDecision NodeTypeDef.
Proof. solve_decision. Defined.
#[export] Instance EdgeTypeDef_eq_dec : EqDecision EdgeTypeDef.
Proof. solve_decision. Defined.
#[export] Instance GraphTypeDef_eq_dec : EqDecision GraphTypeDef.
Proof. solve_decision. Defined.

Definition u32_of (index : nat) : option Z := if Z.of_nat index <=? u32_max then Some (Z.of_nat index) else None.

(** [find_node_type] and [find_node_type_index]. *)
Definition find_node_type (labels : LabelSet.t) (self : GraphTypeDef) : option NodeTypeDef :=
  snd <$> list_find (fun node_type => nt_key_labels node_type = labels) (gt_node_types self).
Definition find_node_type_index (labels : LabelSet.t) (self : GraphTypeDef) : option Z :=
  (fst <$> list_find (fun node_type => nt_key_labels node_type = labels) (gt_node_types self)) ≫= u32_of.

Definition edge_type_matches (label : bytes) (source target : Z) (edge_type : EdgeTypeDef) : bool :=
  bool_decide (et_label edge_type = label) && matches_node_type source (et_source edge_type) && matches_node_type target (et_target edge_type).
(** [find_edge_type]. *)
Definition find_edge_type (label : bytes) (source target : Z) (self : GraphTypeDef) : option EdgeTypeDef :=
  snd <$> list_find (fun edge_type => edge_type_matches label source target edge_type = true) (gt_edge_types self).
(** [find_mixed_edge_type]. *)
Definition find_mixed_edge_type (label : bytes) (first second : Z) (directionality : EdgeDirectionality) (self : GraphTypeDef) : option EdgeTypeDef :=
  match directionality with
  | EdgeDirectionality.Directed => find_edge_type label first second self
  | EdgeDirectionality.Undirected =>
      match filter (fun edge => bool_decide (et_label edge = label) &&
                      ((matches_node_type first (et_source edge) && matches_node_type second (et_target edge)) ||
                       (matches_node_type second (et_source edge) && matches_node_type first (et_target edge))) = true) (gt_edge_types self) with
      | [matched] => Some matched
      | _ => None
      end
  end.

(** ** Validation *)

(** [ensure_unique_names]. *)
Fixpoint ensure_unique_names (kind : string) (seen : gset bytes) (names : list bytes) : result GraphError unit :=
  match names with
  | [] => Ok tt
  | name :: names => refuse bool_decide (name ∈ seen) with Inconsistent "duplicate name"; ensure_unique_names kind ({[name]} ∪ seen) names
  end.
Definition ensure_node_type_index (count : nat) (index : Z) : result GraphError unit :=
  refuse negb (index <? Z.of_nat count) with Inconsistent "node type index out of range";
  Ok tt.
Fixpoint each_node_type_index (count : nat) (indices : list Z) : result GraphError unit :=
  match indices with
  | [] => Ok tt
  | index :: indices => let? _ := ensure_node_type_index count index in each_node_type_index count indices
  end.
(** [indices.windows(2)] are ascending. *)
Fixpoint ascending_indices (l : list Z) : bool :=
  match l with
  | x :: ((y :: _) as t) => (x <? y) && ascending_indices t
  | _ => true
  end.
Definition ensure_endpoint_index (count : nat) (endpoint : EdgeEndpointDef) : result GraphError unit :=
  match endpoint with
  | AnyNode => Ok tt
  | NodeType index => ensure_node_type_index count index
  | OneOf indices =>
      refuse (length indices <? 2)%nat with Inconsistent "OneOf endpoint with fewer than two indices";
      refuse negb (ascending_indices indices) with Inconsistent "OneOf endpoint is not sorted and deduplicated";
      each_node_type_index count indices
  end.
End Types.

(** What the code computes from the details of a declaration. *)
Class TypeOps `{Leaves} `{GraphEnv} := {
  validate_property_element_types : bytes -> list PropertyTypeDef -> result GraphError unit;
  default_value : PropertyTypeDef -> option (result GraphError Value);
  declaration_may_coerce : PropertyTypeDef -> bool;
  coerce_property_value : PropertyTypeDef -> Value -> result GraphError Value;
  property_value_matches : PropertyTypeDef -> Value -> bool;
  observed_name : Value -> string
}.

Section Validation.
Context `{TypeOps}.

Fixpoint validate_node_types (seen : gset LabelSet.t) (node_types : list NodeTypeDef) : result GraphError unit :=
  match node_types with
  | [] => Ok tt
  | node_type :: node_types =>
      refuse LabelSet.is_empty (nt_key_labels node_type) with Inconsistent "node type has an empty label set";
      refuse bool_decide (nt_key_labels node_type ∈ seen) with Inconsistent "node type duplicates the key_labels of an earlier node type";
      let? _ := ensure_unique_names "node property" ∅ (map pt_name (nt_properties node_type)) in
      let? _ := validate_property_element_types (nt_name node_type) (nt_properties node_type) in
      validate_node_types ({[nt_key_labels node_type]} ∪ seen) node_types
  end.
Fixpoint validate_edge_types (count : nat) (previous edge_types : list EdgeTypeDef) : result GraphError unit :=
  match edge_types with
  | [] => Ok tt
  | edge_type :: edge_types =>
      let? _ := ensure_endpoint_index count (et_source edge_type) in
      let? _ := ensure_endpoint_index count (et_target edge_type) in
      let? _ := ensure_unique_names "edge property" ∅ (map pt_name (et_properties edge_type)) in
      let? _ := validate_property_element_types (et_name edge_type) (et_properties edge_type) in
      refuse existsb (fun p => bool_decide (et_label p = et_label edge_type) && overlaps (et_source p) (et_source edge_type) &&
                               overlaps (et_target p) (et_target edge_type)) previous
        with Inconsistent "ambiguous edge type endpoints";
      validate_edge_types count (previous ++ [edge_type]) edge_types
  end.
(** [GraphTypeDef::validate_ref]. *)
Definition validate_ref (self : GraphTypeDef) : result GraphError unit :=
  let? _ := ensure_unique_names "node type" ∅ (map nt_name (gt_node_types self)) in
  let? _ := ensure_unique_names "edge type" ∅ (map et_name (gt_edge_types self)) in
  let? _ := validate_node_types ∅ (gt_node_types self) in
  validate_edge_types (length (gt_node_types self)) [] (gt_edge_types self).

(** ** Defaults, coercion and immutability (mutator.rs, assignment.rs) *)

(** [fill_property_defaults]. *)
Fixpoint fill_property_defaults (declarations : list PropertyTypeDef) (props : PropertyMap) : result GraphError PropertyMap :=
  match declarations with
  | [] => Ok props
  | declaration :: declarations =>
      if bool_decide (is_Some (pm_get (pt_name declaration) props)) then fill_property_defaults declarations props else
      match default_value declaration with
      | None => fill_property_defaults declarations props
      | Some value =>
          let? value := value in
          let? props := map_err Core (pm_set (pt_name declaration) value props) in
          fill_property_defaults declarations props
      end
  end.
(** [coerce_property_map] and [coerce_property_diff]. *)
Fixpoint coerce_property_map (declarations : list PropertyTypeDef) (props : PropertyMap) : result GraphError PropertyMap :=
  match declarations with
  | [] => Ok props
  | declaration :: declarations =>
      if negb (declaration_may_coerce declaration) then coerce_property_map declarations props else
      let '(value, removed) := pm_remove (pt_name declaration) props in
      match value with
      | None => coerce_property_map declarations removed
      | Some value =>
          let? value := coerce_property_value declaration value in
          let? props := map_err Core (pm_set (pt_name declaration) value removed) in
          coerce_property_map declarations props
      end
  end.
Fixpoint coerce_entries (declarations : list PropertyTypeDef) (entries : list (bytes * Value)) : result GraphError (list (bytes * Value)) :=
  match entries with
  | [] => Ok []
  | (key, value) :: entries =>
      let? value :=
        match snd <$> list_find (fun declaration => pt_name declaration = key) declarations with
        | Some declaration => if declaration_may_coerce declaration then coerce_property_value declaration value else Ok value
        | None => Ok value
        end in
      let? entries := coerce_entries declarations entries in
      Ok ((key, value) :: entries)
  end.
Definition coerce_property_diff (declarations : list PropertyTypeDef) (diff : PropertyDiff) : result GraphError PropertyDiff :=
  let? entries := coerce_entries declarations (pd_set diff) in
  Ok {| pd_set := entries; pd_removed := pd_removed diff |}.

(** [reject_if_immutable] and [reject_immutable_property_update], in the type validator and in the mutator. *)
Definition reject_if_immutable (entity_id : EntityId) (declared_in : bytes) (declarations : list PropertyTypeDef) (property : bytes) : result TypeViolation unit :=
  refuse existsb (fun declaration => bool_decide (pt_name declaration = property) && pt_immutable declaration) declarations
    with ImmutablePropertyUpdate entity_id property declared_in;
  Ok tt.
Fixpoint reject_immutable (entity_id : EntityId) (declared_in : bytes) (declarations : list PropertyTypeDef) (keys : list bytes) : result TypeViolation unit :=
  match keys with
  | [] => Ok tt
  | property :: keys => let? _ := reject_if_immutable entity_id declared_in declarations property in reject_immutable entity_id declared_in declarations keys
  end.
Definition reject_immutable_property_update (entity_id : EntityId) (declared_in : bytes) (declarations : list PropertyTypeDef) (diff : PropertyDiff) : result TypeViolation unit :=
  let? _ := reject_immutable entity_id declared_in declarations (map fst (pd_set diff)) in
  reject_immutable entity_id declared_in declarations (pd_removed diff).
End Validation.
