(* ===== verification/Store.v ===== *)
(** The in-memory graph (selene-graph: store.rs, adjacency.rs, graph.rs).

    Nodes and edges are rows of columns; an identity is bound to its row by a map
    and a bitmap tells which rows are alive.  The persistent maps and bitmaps of
    third-party crates are finite maps and sets.  The value, composite, vector, text
    and expression indexes are the type [Indexes] of the class [GraphEnv]; the
    identity tokens of a snapshot layout are not modelled. *)

From stdpp Require Import sorting.
From S2P Require Import Prelude Wire Value Ordered LabelSet PropertyMap GraphDelta Columns GraphTypes.

(** [NodeId::TOMBSTONE] and [EdgeId::TOMBSTONE]. *)
Definition TOMBSTONE : Z := 0.

(** A row as a position of a column. *)
Abbreviation index_of row := (Z.to_nat row).

(** The rows of a bitmap in ascending order. *)
Definition rows_of (bitmap : gset Z) : list Z := merge_sort Z.le (elements bitmap).

(** ** Adjacency (adjacency.rs) *)

Record AdjacencyEdge := { ae_label : bytes; ae_neighbor : Z; ae_edge_id : Z }.
#[export] Instance adjacency_edge_eq : EqDecision AdjacencyEdge.
Proof. solve_decision. Defined.

(** [AdjacencyEntry]: edges sorted by [adjacency_key]. *)
Abbreviation AdjacencyEntry := (list AdjacencyEdge).

(** The order of [(DbString, NodeId, EdgeId)]. *)
Definition key_compare (a b : AdjacencyEdge) : comparison :=
  match bytes_compare (ae_label a) (ae_label b) with
  | Eq => match Z.compare (ae_neighbor a) (ae_neighbor b) with
          | Eq => Z.compare (ae_edge_id a) (ae_edge_id b)
          | c => c
          end
  | c => c
  end.

(** [AdjacencyEntry::add]. *)
Definition adjacency_add (edge : AdjacencyEdge) (self : AdjacencyEntry) : AdjacencyEntry :=
  let index := match binary_search_by (fun e => key_compare e edge) self with Ok index => index | Err index => index end in
  insert_at index edge self.

(** [AdjacencyEntry::remove]. *)
Definition adjacency_remove (edge_id : Z) (self : AdjacencyEntry) : AdjacencyEntry :=
  match list_find (fun edge => ae_edge_id edge = edge_id) self with
  | Some (index, _) => remove_at index self
  | None => self
  end.

(** ** Stores (store.rs) *)

Section Stores.
Context `{Leaves} `{GraphEnv}.

Record NodeStore := {
  ns_labels : ChunkedVec LabelSet.t;
  ns_properties : ChunkedVec PropertyMap;
  ns_row_to_id : ChunkedVec Z;
  ns_alive : gset Z
}.
Definition ns_new : NodeStore := {| ns_labels := cv_new; ns_properties := cv_new; ns_row_to_id := cv_new; ns_alive := ∅ |}.
Definition ns_len (self : NodeStore) : nat := cv_len (ns_labels self).
Definition ns_is_alive_row (row : Z) (self : NodeStore) : bool := bool_decide (row ∈ ns_alive self).

Record EdgeStore := {
  es_directionality : ChunkedVec EdgeDirectionality;
  es_label : ChunkedVec bytes;
  es_source : ChunkedVec Z;
  es_target : ChunkedVec Z;
  es_properties : ChunkedVec PropertyMap;
  es_row_to_id : ChunkedVec Z;
  es_alive : gset Z
}.
Definition es_new : EdgeStore :=
  {| es_directionality := cv_new; es_label := cv_new; es_source := cv_new; es_target := cv_new; es_properties := cv_new;
     es_row_to_id := cv_new; es_alive := ∅ |}.
Definition es_len (self : EdgeStore) : nat := cv_len (es_label self).
Definition es_is_alive_row (row : Z) (self : EdgeStore) : bool := bool_decide (row ∈ es_alive self).

(** ** Snapshots (graph.rs) *)

Record GraphMeta := {
  m_graph_id : Z;
  m_generation : Z;
  m_next_node_id : Z;
  m_next_edge_id : Z;
  m_bound_type : option GraphTypeDef
}.

Record SeleneGraph := {
  meta : GraphMeta;
  node_store : NodeStore;
  edge_store : EdgeStore;
  adjacency_out : gmap Z AdjacencyEntry;
  adjacency_in : gmap Z AdjacencyEntry;
  adjacency_undirected : gmap Z AdjacencyEntry;
  idx_label : gmap bytes (gset Z);
  idx_edge_label : gmap bytes (gset Z);
  node_rows : gmap Z Z;
  edge_rows : gmap Z Z;
  indexes : Indexes
}.

(** [SeleneGraph::new]. *)
Definition graph_new (graph_id : Z) : SeleneGraph := {|
  meta := {| m_graph_id := graph_id; m_generation := 0; m_next_node_id := 1; m_next_edge_id := 1; m_bound_type := None |};
  node_store := ns_new; edge_store := es_new; adjacency_out := ∅; adjacency_in := ∅; adjacency_undirected := ∅;
  idx_label := ∅; idx_edge_label := ∅; node_rows := ∅; edge_rows := ∅; indexes := new_indexes |}.

Definition node_count (self : SeleneGraph) : Z := Z.of_nat (size (ns_alive (node_store self))).
Definition edge_count (self : SeleneGraph) : Z := Z.of_nat (size (es_alive (edge_store self))).
Definition node_row_for_id (id : Z) (self : SeleneGraph) : option Z := node_rows self !! id.
Definition edge_row_for_id (id : Z) (self : SeleneGraph) : option Z := edge_rows self !! id.

(** [filter(|id| *id != TOMBSTONE)]. *)
Definition not_tombstone (id : option Z) : option Z := id ≫= fun id => if id =? TOMBSTONE then None else Some id.
Definition node_id_for_node_row (row : Z) (self : SeleneGraph) : option Z :=
  not_tombstone (cv_get (index_of row) (ns_row_to_id (node_store self))).
Definition edge_id_for_edge_row (row : Z) (self : SeleneGraph) : option Z :=
  not_tombstone (cv_get (index_of row) (es_row_to_id (edge_store self))).

(** [live_node_row] and [live_edge_row]. *)
Definition live_node_row (id : Z) (self : SeleneGraph) : option nat :=
  node_row_for_id id self ≫= fun row =>
  if (index_of row <? ns_len (node_store self))%nat && ns_is_alive_row row (node_store self) then Some (index_of row) else None.
Definition live_edge_row (id : Z) (self : SeleneGraph) : option nat :=
  edge_row_for_id id self ≫= fun row =>
  if (index_of row <? es_len (edge_store self))%nat && es_is_alive_row row (edge_store self) then Some (index_of row) else None.

Definition is_node_alive (id : Z) (self : SeleneGraph) : bool := bool_decide (is_Some (live_node_row id self)).
Definition is_edge_alive (id : Z) (self : SeleneGraph) : bool := bool_decide (is_Some (live_edge_row id self)).
Definition node_labels (id : Z) (self : SeleneGraph) : option LabelSet.t :=
  live_node_row id self ≫= fun row => cv_get row (ns_labels (node_store self)).
Definition node_properties (id : Z) (self : SeleneGraph) : option PropertyMap :=
  live_node_row id self ≫= fun row => cv_get row (ns_properties (node_store self)).
Definition edge_label (id : Z) (self : SeleneGraph) : option bytes :=
  live_edge_row id self ≫= fun row => cv_get row (es_label (edge_store self)).
Definition edge_endpoints (id : Z) (self : SeleneGraph) : option (Z * Z) :=
  live_edge_row id self ≫= fun row =>
  cv_get row (es_source (edge_store self)) ≫= fun source =>
  cv_get row (es_target (edge_store self)) ≫= fun target => Some (source, target).
Definition edge_properties (id : Z) (self : SeleneGraph) : option PropertyMap :=
  live_edge_row id self ≫= fun row => cv_get row (es_properties (edge_store self)).
Definition edge_directionality (id : Z) (self : SeleneGraph) : option EdgeDirectionality :=
  live_edge_row id self ≫= fun row => cv_get row (es_directionality (edge_store self)).

(** [EdgeRecordV1] (selene-core, edge.rs). *)
Record EdgeRecord := {
  er_id : Z;
  er_label : bytes;
  er_directionality : EdgeDirectionality;
  er_first : Z;
  er_second : Z;
  er_properties : PropertyMap
}.
Definition edge_record (id : Z) (self : SeleneGraph) : option EdgeRecord :=
  edge_endpoints id self ≫= fun '(first, second) =>
  edge_label id self ≫= fun label =>
  edge_directionality id self ≫= fun directionality =>
  edge_properties id self ≫= fun properties =>
  Some {| er_id := id; er_label := label; er_directionality := directionality; er_first := first; er_second := second; er_properties := properties |}.

(** ** Field updates *)

Definition set_meta (m : GraphMeta) (g : SeleneGraph) : SeleneGraph :=
  {| meta := m; node_store := node_store g; edge_store := edge_store g; adjacency_out := adjacency_out g; adjacency_in := adjacency_in g;
     adjacency_undirected := adjacency_undirected g; idx_label := idx_label g; idx_edge_label := idx_edge_label g;
     node_rows := node_rows g; edge_rows := edge_rows g; indexes := indexes g |}.
Definition set_nodes (s : NodeStore) (rows : gmap Z Z) (g : SeleneGraph) : SeleneGraph :=
  {| meta := meta g; node_store := s; edge_store := edge_store g; adjacency_out := adjacency_out g; adjacency_in := adjacency_in g;
     adjacency_undirected := adjacency_undirected g; idx_label := idx_label g; idx_edge_label := idx_edge_label g;
     node_rows := rows; edge_rows := edge_rows g; indexes := indexes g |}.
Definition set_edges (s : EdgeStore) (rows : gmap Z Z) (g : SeleneGraph) : SeleneGraph :=
  {| meta := meta g; node_store := node_store g; edge_store := s; adjacency_out := adjacency_out g; adjacency_in := adjacency_in g;
     adjacency_undirected := adjacency_undirected g; idx_label := idx_label g; idx_edge_label := idx_edge_label g;
     node_rows := node_rows g; edge_rows := rows; indexes := indexes g |}.
Definition set_labels (nodes edges : gmap bytes (gset Z)) (g : SeleneGraph) : SeleneGraph :=
  {| meta := meta g; node_store := node_store g; edge_store := edge_store g; adjacency_out := adjacency_out g; adjacency_in := adjacency_in g;
     adjacency_undirected := adjacency_undirected g; idx_label := nodes; idx_edge_label := edges;
     node_rows := node_rows g; edge_rows := edge_rows g; indexes := indexes g |}.
Definition set_adjacency (out in_ undirected : gmap Z AdjacencyEntry) (g : SeleneGraph) : SeleneGraph :=
  {| meta := meta g; node_store := node_store g; edge_store := edge_store g; adjacency_out := out; adjacency_in := in_;
     adjacency_undirected := undirected; idx_label := idx_label g; idx_edge_label := idx_edge_label g;
     node_rows := node_rows g; edge_rows := edge_rows g; indexes := indexes g |}.
Definition set_indexes (i : Indexes) (g : SeleneGraph) : SeleneGraph :=
  {| meta := meta g; node_store := node_store g; edge_store := edge_store g; adjacency_out := adjacency_out g; adjacency_in := adjacency_in g;
     adjacency_undirected := adjacency_undirected g; idx_label := idx_label g; idx_edge_label := idx_edge_label g;
     node_rows := node_rows g; edge_rows := edge_rows g; indexes := i |}.
End Stores.
