(* ===== verification/Derived.v ===== *)
(** Derived state of a graph: label bitmaps and adjacency lists (selene-graph:
    mutator.rs, mutator/delete.rs, adjacency.rs), and when they hold exactly
    what they are derived from. *)

From stdpp Require Import sorting.
From S2P Require Import Prelude Wire Value Ordered LabelSet PropertyMap GraphDelta Columns GraphTypes Store.

(** ** Label bitmaps *)

(** [insert_index_row] and [remove_index_row]. *)
Definition insert_index_row (label : bytes) (row : Z) (index : gmap bytes (gset Z)) : gmap bytes (gset Z) :=
  <[label := {[row]} ∪ default ∅ (index !! label)]> index.
Definition remove_index_row (label : bytes) (row : Z) (index : gmap bytes (gset Z)) : gmap bytes (gset Z) :=
  match index !! label with
  | Some bitmap =>
      let bitmap := bitmap ∖ {[row]} in
      if bool_decide (bitmap = ∅) then delete label index else <[label := bitmap]> index
  | None => index
  end.
(** [insert_node_labels] and [remove_node_labels]. *)
Definition insert_node_labels (row : Z) (labels : LabelSet.t) (index : gmap bytes (gset Z)) : gmap bytes (gset Z) :=
  foldl (fun index label => insert_index_row label row index) index labels.
Definition remove_node_labels (row : Z) (labels : LabelSet.t) (index : gmap bytes (gset Z)) : gmap bytes (gset Z) :=
  foldl (fun index label => remove_index_row label row index) index labels.

(** The bitmap of a label has exactly the rows of [P], and no bitmap is empty. *)
Definition bitmaps (index : gmap bytes (gset Z)) (P : bytes -> Z -> Prop) : Prop :=
  forall label, match index !! label with
                | Some rows => rows <> ∅ /\ forall row, row ∈ rows <-> P label row
                | None => forall row, ~ P label row
                end.

Implicit Types index : gmap bytes (gset Z).

Lemma bitmaps_ext index P Q : (forall label row, P label row <-> Q label row) -> bitmaps index P -> bitmaps index Q.
Proof.
  intros HPQ HB label. specialize (HB label). destruct (index !! label) as [rows|].
  - destruct HB as [Hne Hin]. split; [done|]. intros row. by rewrite Hin.
  - intros row. by rewrite <- HPQ.
Qed.

Lemma bitmaps_empty P : (forall label row, ~ P label row) -> bitmaps ∅ P.
Proof. intros HP label. rewrite lookup_empty. apply HP. Qed.

Lemma bitmaps_at index P label : bitmaps index P ->
  forall row, row ∈ default ∅ (index !! label) <-> P label row.
Proof.
  intros HB row. specialize (HB label). destruct (index !! label) as [rows|]; cbn; [by apply HB|]. specialize (HB row). set_solver.
Qed.

(** A set of rows per label determines the index. *)
Lemma bitmaps_unique index (index' : gmap bytes (gset Z)) P : bitmaps index P -> bitmaps index' P -> index = index'.
Proof.
  intros HB HB'. apply map_eq. intros label. specialize (HB label). specialize (HB' label). destruct (index !! label) as [x|], (index' !! label) as [y|].
  - f_equal. apply set_eq. intros row. by rewrite (proj2 HB row), (proj2 HB' row).
  - destruct HB as [Hne Hx]. destruct Hne. apply set_eq. intros row. rewrite Hx. specialize (HB' row). set_solver.
  - destruct HB' as [Hne Hx]. destruct Hne. apply set_eq. intros row. rewrite Hx. specialize (HB row). set_solver.
  - done.
Qed.

(** One label changes. *)
Lemma bitmaps_update index (index' : gmap bytes (gset Z)) (P Q : bytes -> Z -> Prop) label :
  bitmaps index P -> (forall l, l <> label -> index' !! l = index !! l) -> (forall l row, l <> label -> P l row <-> Q l row) ->
  match index' !! label with Some rows => rows <> ∅ /\ forall row, row ∈ rows <-> Q label row | None => forall row, ~ Q label row end ->
  bitmaps index' Q.
Proof.
  intros HB Hi HPQ Hl l. destruct (decide (l = label)) as [->|Hne]; [done|]. rewrite Hi by done. specialize (HB l). destruct (index !! l) as [rows|].
  - destruct HB as [Hn Hin]. split; [done|]. intros row. by rewrite <- HPQ, Hin.
  - intros row. by rewrite <- HPQ.
Qed.

Lemma bitmaps_insert index P label row : bitmaps index P ->
  bitmaps (insert_index_row label row index) (fun l r => P l r \/ (l = label /\ r = row)).
Proof.
  intros HB. apply (bitmaps_update index _ P _ label); [done| |naive_solver|]; unfold insert_index_row.
  - intros l Hne. by rewrite lookup_insert_ne.
  - rewrite lookup_insert_eq. split; [set_solver|]. intros r. rewrite elem_of_union, elem_of_singleton, (bitmaps_at _ _ _ HB). naive_solver.
Qed.

Lemma bitmaps_remove index P label row : bitmaps index P ->
  bitmaps (remove_index_row label row index) (fun l r => P l r /\ ~ (l = label /\ r = row)).
Proof.
  intros HB. pose proof (bitmaps_at _ _ label HB) as Hat. unfold remove_index_row. destruct (index !! label) as [rows|] eqn:E; cbn in Hat.
  - apply (bitmaps_update index _ P _ label); [done| |naive_solver|].
    + intros l Hne. case_bool_decide; [by rewrite lookup_delete_ne|by rewrite lookup_insert_ne].
    + case_bool_decide as Hb.
      * rewrite lookup_delete_eq. intros r [HP Hne]. apply Hat in HP. assert (r ∈ rows ∖ {[row]}) as Hin by set_solver. rewrite Hb in Hin. set_solver.
      * rewrite lookup_insert_eq. split; [done|]. intros r. rewrite elem_of_difference, elem_of_singleton, Hat. naive_solver.
  - eapply bitmaps_ext; [|exact HB]. intros l r. split; [|naive_solver]. intros HP. split; [done|]. intros [-> ->]. apply Hat in HP. set_solver.
Qed.

Lemma bitmaps_insert_all index P row labels : bitmaps index P ->
  bitmaps (insert_node_labels row labels index) (fun l r => P l r \/ (l ∈ labels /\ r = row)).
Proof.
  revert index P. induction labels as [|label labels IH]; intros index P HB; cbn.
  - eapply bitmaps_ext; [|exact HB]. set_solver.
  - eapply bitmaps_ext; [|apply IH, bitmaps_insert, HB]. set_solver.
Qed.
Lemma bitmaps_remove_all index P row labels : bitmaps index P ->
  bitmaps (remove_node_labels row labels index) (fun l r => P l r /\ ~ (l ∈ labels /\ r = row)).
Proof.
  revert index P. induction labels as [|label labels IH]; intros index P HB; cbn.
  - eapply bitmaps_ext; [|exact HB]. set_solver.
  - eapply bitmaps_ext; [|apply IH, bitmaps_remove, HB]. set_solver.
Qed.

(** ** Adjacency lists *)

(** [get_or_insert_default(map, node).add(edge)]. *)
Definition adjacency_insert (node : Z) (edge : AdjacencyEdge) (map : gmap Z AdjacencyEntry) : gmap Z AdjacencyEntry :=
  <[node := adjacency_add edge (default [] (map !! node))]> map.

(** [remove_edge_from_adjacency]. *)
Definition remove_edge_from_adjacency (node edge_id : Z) (map : gmap Z AdjacencyEntry) : gmap Z AdjacencyEntry :=
  match map !! node with
  | None => map
  | Some entry =>
      if (length entry =? 1)%nat then
        match entry with
        | edge :: _ => if ae_edge_id edge =? edge_id then delete node map else map
        | [] => map
        end
      else <[node := adjacency_remove edge_id entry]> map
  end.

(** One step of the loop of [remove_edges_from_adjacency_map], on the nodes whose
    entry is exhausted and the map. *)
Definition remove_grouped (removals : gmap Z (list Z)) (s : list Z * gmap Z AdjacencyEntry) (node : Z) : list Z * gmap Z AdjacencyEntry :=
  let '(empty_nodes, map) := s in
  let edge_ids := default [] (removals !! node) in
  match map !! node with
  | None => s
  | Some entry =>
      if (length entry =? length edge_ids)%nat then (empty_nodes ++ [node], map) else
      let entry := foldl (fun entry edge_id => adjacency_remove edge_id entry) entry edge_ids in
      (match entry with [] => empty_nodes ++ [node] | _ => empty_nodes end, <[node := entry]> map)
  end.
(** [remove_edges_from_adjacency_map]; the removals come in the order of the nodes. *)
Definition remove_edges_from_adjacency_map (map : gmap Z AdjacencyEntry) (removals : gmap Z (list Z)) : gmap Z AdjacencyEntry :=
  let '(empty_nodes, map) := foldl (remove_grouped removals) ([], map) (rows_of (dom removals)) in
  foldl (fun map node => delete node map) map empty_nodes.

(** *** The order of entries *)

Definition edge_lt (a b : AdjacencyEdge) : Prop := key_compare a b = Lt.

Lemma key_compare_eq a b : key_compare a b = Eq <-> a = b.
Proof.
  unfold key_compare. split; [|intros ->; by rewrite bytes_compare_refl, !Z.compare_refl].
  destruct (bytes_compare (ae_label a) (ae_label b)) eqn:E1; [|done..]. apply bytes_compare_eq in E1.
  destruct (Z.compare_spec (ae_neighbor a) (ae_neighbor b)); [|done..]. destruct (Z.compare_spec (ae_edge_id a) (ae_edge_id b)); [|done..].
  intros _. destruct a, b. cbn in *. by subst.
Qed.
Lemma key_compare_opp a b : key_compare b a = CompOpp (key_compare a b).
Proof.
  unfold key_compare. rewrite (bytes_compare_opp (ae_label a)). destruct (bytes_compare (ae_label a) (ae_label b)); [cbn|done..].
  rewrite (Z.compare_antisym (ae_neighbor a)). destruct (ae_neighbor a ?= ae_neighbor b); [cbn|done..]. apply Z.compare_antisym.
Qed.
#[export] Instance edge_lt_trans : Transitive edge_lt.
Proof.
  intros a b c. unfold edge_lt, key_compare.
  destruct (bytes_compare (ae_label a) (ae_label b)) eqn:E1; [apply bytes_compare_eq in E1 as ->| |done].
  - destruct (bytes_compare (ae_label b) (ae_label c)); [|done..].
    destruct (Z.compare_spec (ae_neighbor a) (ae_neighbor b)) as [->|L1|]; [| |done].
    + destruct (Z.compare_spec (ae_neighbor b) (ae_neighbor c)); [|done..]. rewrite !Z.compare_lt_iff. lia.
    + destruct (Z.compare_spec (ae_neighbor b) (ae_neighbor c)) as [<-|L2|]; [by destruct (Z.compare_spec (ae_neighbor a) (ae_neighbor b)); try lia| |done].
      by destruct (Z.compare_spec (ae_neighbor a) (ae_neighbor c)); try lia.
  - destruct (bytes_compare (ae_label b) (ae_label c)) eqn:E2; [apply bytes_compare_eq in E2 as <-; by rewrite E1| |done].
    by rewrite (bytes_lt_trans _ _ _ E1 E2).
Qed.
Lemma edge_lt_irrefl a : ~ edge_lt a a.
Proof. unfold edge_lt. by rewrite (proj2 (key_compare_eq a a) eq_refl). Qed.

Abbreviation sorted_edges := (StronglySorted edge_lt).

Lemma sorted_edges_app l1 l2 : sorted_edges (l1 ++ l2) <-> sorted_edges l1 /\ sorted_edges l2 /\ forall a b, a ∈ l1 -> b ∈ l2 -> edge_lt a b.
Proof.
  induction l1 as [|x l1 IH]; cbn.
  - split; [|tauto]. intros Hs. split; [constructor|]. split; [done|]. intros a b []%elem_of_nil.
  - split.
    + intros [Hs Hf]%StronglySorted_inv. apply IH in Hs as (H1 & H2 & H3). apply Forall_app in Hf as [F1 F2]. rewrite Forall_forall in F2.
      split; [by constructor|]. split; [done|]. intros a b [->|Ha]%elem_of_cons Hb; auto.
    + intros ([H1 F1]%StronglySorted_inv & H2 & H3). constructor.
      * apply IH. split; [done|]. split; [done|]. intros a b Ha. apply H3. by right.
      * apply Forall_app. split; [done|]. apply Forall_forall. intros b Hb. apply H3; [by left|done].
Qed.

Lemma sorted_edges_probes edge l : sorted_edges l -> probes_ascend (fun e => key_compare e edge) l.
Proof.
  intros Hs i j x y Hij Hx Hy Hg. assert (Hxy : edge_lt x y).
  { rewrite <- (take_drop_middle _ _ _ Hx) in Hs, Hy. apply sorted_edges_app in Hs as (_ & [_ Hs]%StronglySorted_inv & _).
    rewrite lookup_app_r, length_take_le in Hy by (apply lookup_lt_Some in Hx; rewrite ?length_take; lia).
    destruct (j - i)%nat as [|m] eqn:Em; [lia|]. cbn in Hy. rewrite Forall_forall in Hs. apply Hs. by eapply list_elem_of_lookup_2. }
  destruct (key_compare y edge) eqn:E; [apply key_compare_eq in E as <-; exact Hxy|exact (edge_lt_trans _ _ _ Hxy E)|done].
Qed.

Lemma adjacency_add_spec edge l : sorted_edges l -> edge ∉ l ->
  sorted_edges (adjacency_add edge l) /\ forall a, a ∈ adjacency_add edge l <-> a = edge \/ a ∈ l.
Proof.
  intros Hs Hn. unfold adjacency_add. pose proof (binary_search_spec _ l (sorted_edges_probes edge l Hs)) as HB.
  destruct (binary_search_by _ l) as [i|i].
  { destruct HB as (x & Hx & ->%key_compare_eq). by apply list_elem_of_lookup_2 in Hx. }
  destruct HB as (Hi & H1 & H2). unfold insert_at. rewrite <- (take_drop i l) in Hs. apply sorted_edges_app in Hs as (S1 & S2 & S3).
  assert (F1 : forall a, a ∈ take i l -> edge_lt a edge).
  { intros a (j & [Hj Hlt]%lookup_take_Some)%list_elem_of_lookup_1. by apply (H1 j). }
  assert (F2 : forall b, b ∈ drop i l -> edge_lt edge b).
  { intros b (j & Hj)%list_elem_of_lookup_1. rewrite lookup_drop in Hj. unfold edge_lt. rewrite (key_compare_opp b), (H2 (i + j)%nat b); [done|lia|done]. }
  split.
  - apply sorted_edges_app. split; [done|]. split; [constructor; [done|by apply Forall_forall]|].
    intros a b Ha [->|Hb]%elem_of_cons; [by apply F1|by apply S3].
  - intros a. rewrite elem_of_app, elem_of_cons. rewrite <- (take_drop i l) at 3. rewrite elem_of_app. tauto.
Qed.

(** An entry names an edge at most once. *)
Definition distinct_ids (l : AdjacencyEntry) : Prop := NoDup (map ae_edge_id l).

Lemma adjacency_remove_spec id l : sorted_edges l -> distinct_ids l ->
  sorted_edges (adjacency_remove id l) /\ distinct_ids (adjacency_remove id l) /\
  (forall a, a ∈ adjacency_remove id l <-> a ∈ l /\ ae_edge_id a <> id) /\
  (id ∈ map ae_edge_id l -> length l = S (length (adjacency_remove id l))) /\ (id ∉ map ae_edge_id l -> adjacency_remove id l = l).
Proof.
  intros Hs Hd. unfold adjacency_remove. destruct (list_find _ l) as [[i x]|] eqn:E.
  - apply list_find_Some in E as (Hx & Hid & _). apply list_elem_of_split_length in Hx as (l1 & l2 & -> & ->). rewrite remove_at_middle.
    unfold distinct_ids in *. rewrite !map_app in *. cbn [map] in Hd.
    apply NoDup_app in Hd as (D1 & D2 & [D3 D4]%NoDup_cons). apply sorted_edges_app in Hs as (S1 & [S2 S3]%StronglySorted_inv & S4).
    rewrite Hid in *. split; [|split; [|split; [|split]]].
    + apply sorted_edges_app. split; [done|]. split; [done|]. intros a b Ha Hb. apply S4; [done|by right].
    + apply NoDup_app. split; [done|]. split; [|done]. intros y Hy Hy'. apply (D2 y Hy). by right.
    + intros a. rewrite !elem_of_app, elem_of_cons. split.
      * intros [Ha|Ha]; (split; [tauto|]); intros Ea; apply (list_elem_of_fmap_2 ae_edge_id) in Ha; rewrite Ea in Ha; [|done].
        apply (D2 id Ha). by left.
      * intros [[Ha|[->|Ha]] Hne]; [by left|done|by right].
    + intros _. rewrite !length_app. cbn. lia.
    + intros Hn. exfalso. apply Hn. rewrite elem_of_app. right. cbn. rewrite Hid. by left.
  - apply list_find_None in E. rewrite Forall_forall in E. split; [done|]. split; [done|]. split; [|split; [|done]].
    + intros a. split; [|tauto]. intros Ha. split; [done|]. by apply E.
    + intros (a & -> & Ha)%list_elem_of_fmap. by apply E in Ha.
Qed.

Lemma adjacency_remove_all ids l : sorted_edges l -> distinct_ids l -> NoDup ids -> (forall id, id ∈ ids -> id ∈ map ae_edge_id l) ->
  let l' := foldl (fun entry edge_id => adjacency_remove edge_id entry) l ids in
  sorted_edges l' /\ distinct_ids l' /\ (forall a, a ∈ l' <-> a ∈ l /\ ae_edge_id a ∉ ids) /\ length l = (length ids + length l')%nat.
Proof.
  revert l. induction ids as [|id ids IH]; intros l Hs Hd Hn Hin; cbn.
  - split; [done|]. split; [done|]. split; [set_solver|done].
  - apply NoDup_cons in Hn as [Hid Hn]. destruct (adjacency_remove_spec id l Hs Hd) as (Hs' & Hd' & Ha & Hlen & _).
    destruct (IH (adjacency_remove id l) Hs' Hd' Hn) as (Hs2 & Hd2 & Ha2 & Hlen2).
    + intros id' Hid'. destruct (proj1 (list_elem_of_fmap _ _ _) (Hin id' ltac:(by right))) as (a & -> & Hal).
      apply list_elem_of_fmap_2, Ha. split; [done|]. by intros <-.
    + split; [done|]. split; [done|]. split; [|rewrite (Hlen (Hin id ltac:(by left))); cbn; lia].
      intros a. rewrite Ha2, Ha, not_elem_of_cons. tauto.
Qed.

(** *** The edges of a node *)

(** The entry of a node lists exactly the edges of [P], sorted, and no entry is empty. *)
Definition listing (map : gmap Z AdjacencyEntry) (P : Z -> AdjacencyEdge -> Prop) : Prop :=
  forall node, match map !! node with
               | Some l => l <> [] /\ sorted_edges l /\ forall a, a ∈ l <-> P node a
               | None => forall a, ~ P node a
               end.
(** An edge is listed at a node in one way. *)
Definition one_way (P : Z -> AdjacencyEdge -> Prop) : Prop :=
  forall node a b, P node a -> P node b -> ae_edge_id a = ae_edge_id b -> a = b.

Implicit Types m : gmap Z AdjacencyEntry.

Lemma listing_ext m P Q : (forall node a, P node a <-> Q node a) -> listing m P -> listing m Q.
Proof.
  intros HPQ HL node. specialize (HL node). destruct (m !! node) as [l|].
  - destruct HL as (Hn & Hs & Hin). split; [done|]. split; [done|]. intros a. by rewrite Hin.
  - intros a. by rewrite <- HPQ.
Qed.
Lemma listing_empty P : (forall node a, ~ P node a) -> listing ∅ P.
Proof. intros HP node. rewrite lookup_empty. apply HP. Qed.
Lemma listing_at m P node : listing m P -> sorted_edges (default [] (m !! node)) /\ forall a, a ∈ default [] (m !! node) <-> P node a.
Proof.
  intros HL. specialize (HL node). destruct (m !! node) as [l|]; cbn.
  - split; [apply HL|]. apply HL.
  - split; [constructor|]. intros a. specialize (HL a). split; [by intros ?%elem_of_nil|done].
Qed.
Lemma sorted_edges_unique l1 l2 : sorted_edges l1 -> sorted_edges l2 -> (forall a, a ∈ l1 <-> a ∈ l2) -> l1 = l2.
Proof.
  intros Hs1. revert l2. induction Hs1 as [|x l1 Hs1 IH Hf1]; intros l2 Hs2 Hin.
  - destruct l2 as [|y l2]; [done|]. by destruct (proj1 (elem_of_nil y) (proj2 (Hin y) ltac:(by left))).
  - destruct Hs2 as [|y l2 Hs2 Hf2]; [by destruct (proj1 (elem_of_nil x) (proj1 (Hin x) ltac:(by left)))|]. rewrite Forall_forall in Hf1, Hf2.
    assert (x = y) as <-.
    { destruct (proj1 (elem_of_cons _ _ _) (proj1 (Hin x) ltac:(by left))) as [|Hx]; [done|]. destruct (proj1 (elem_of_cons _ _ _) (proj2 (Hin y) ltac:(by left))) as [|Hy]; [done|].
      destruct (edge_lt_irrefl x). apply (edge_lt_trans _ y); [by apply Hf1|by apply Hf2]. }
    f_equal. apply IH; [done|]. intros a. specialize (Hin a). rewrite !elem_of_cons in Hin. split; intros Ha.
    + destruct (proj1 Hin (or_intror Ha)) as [->|]; [|done]. by destruct (edge_lt_irrefl x (Hf1 x Ha)).
    + destruct (proj2 Hin (or_intror Ha)) as [->|]; [|done]. by destruct (edge_lt_irrefl x (Hf2 x Ha)).
Qed.
Lemma listing_unique m (m' : gmap Z AdjacencyEntry) P : listing m P -> listing m' P -> m = m'.
Proof.
  intros HL HL'. apply map_eq. intros n. destruct (listing_at m P n HL) as [Hs Hin], (listing_at m' P n HL') as [Hs' Hin']. specialize (HL n). specialize (HL' n).
  assert (E : default [] (m !! n) = default [] (m' !! n)) by (apply sorted_edges_unique; [done..|]; intros a; by rewrite Hin, Hin').
  destruct (m !! n) as [x|], (m' !! n) as [y|]; cbn in E; [by subst|subst x; by destruct HL|subst y; by destruct HL'|done].
Qed.
Lemma listing_distinct m P node : listing m P -> one_way P -> distinct_ids (default [] (m !! node)).
Proof.
  intros HL HP. destruct (listing_at m P node HL) as [Hs Hin]. revert Hs Hin. generalize (default [] (m !! node)) as l. intros l Hs Hin. unfold distinct_ids.
  assert (Hinj : forall a b, a ∈ l -> b ∈ l -> ae_edge_id a = ae_edge_id b -> a = b) by (intros a b Ha Hb; apply (HP node); by apply Hin).
  clear Hin. induction Hs as [|x l Hs IH Hf]; cbn; [constructor|]. constructor.
  - intros (y & E & Hy)%list_elem_of_fmap. rewrite Forall_forall in Hf. apply (edge_lt_irrefl x).
    rewrite (Hinj x y) at 2; [by apply Hf|by left|by right|done].
  - apply IH. intros a b Ha Hb. apply Hinj; by right.
Qed.

Lemma listing_update m (m' : gmap Z AdjacencyEntry) (P Q : Z -> AdjacencyEdge -> Prop) node :
  listing m P -> (forall n, n <> node -> m' !! n = m !! n) -> (forall n a, n <> node -> P n a <-> Q n a) ->
  match m' !! node with Some l => l <> [] /\ sorted_edges l /\ forall a, a ∈ l <-> Q node a | None => forall a, ~ Q node a end -> listing m' Q.
Proof.
  intros HL Hm HPQ Hn n. destruct (decide (n = node)) as [->|Hne]; [done|]. rewrite Hm by done. specialize (HL n). destruct (m !! n) as [l|].
  - destruct HL as (H1 & Hs & Hin). split; [done|]. split; [done|]. intros a. by rewrite <- HPQ, Hin.
  - intros a. by rewrite <- HPQ.
Qed.

Lemma listing_insert m P node edge : listing m P -> ~ P node edge ->
  listing (adjacency_insert node edge m) (fun n a => P n a \/ (n = node /\ a = edge)).
Proof.
  intros HL Hn. apply (listing_update m _ P _ node); [done| |naive_solver|]; unfold adjacency_insert.
  - intros n Hne. by rewrite lookup_insert_ne.
  - rewrite lookup_insert_eq. destruct (listing_at m P node HL) as [Hs Hin]. destruct (adjacency_add_spec edge _ Hs) as [Hs' Hin']; [by rewrite Hin|].
    split; [|split; [done|]].
    + intros E. apply (not_elem_of_nil edge). rewrite <- E. apply Hin'. by left.
    + intros a. rewrite Hin', Hin. naive_solver.
Qed.

Lemma listing_delete m P node : listing m P -> listing (delete node m) (fun n a => P n a /\ n <> node).
Proof.
  intros HL. apply (listing_update m _ P _ node); [done| |naive_solver|].
  - intros n Hne. by rewrite lookup_delete_ne.
  - rewrite lookup_delete_eq. by intros a [_ []].
Qed.

Lemma listing_remove m P node id : listing m P -> one_way P ->
  listing (remove_edge_from_adjacency node id m) (fun n a => P n a /\ ~ (n = node /\ ae_edge_id a = id)).
Proof.
  intros HL HP. pose proof (listing_at m P node HL) as [Hs Hin]. pose proof (listing_distinct m P node HL HP) as Hd. pose proof (HL node) as Hnode.
  unfold remove_edge_from_adjacency. destruct (m !! node) as [l|] eqn:E; cbn in *.
  - destruct (adjacency_remove_spec id l Hs Hd) as (Hs' & _ & Ha & Hlen & Hsame).
    assert (Hskip : id ∉ map ae_edge_id l -> listing m (fun n a => P n a /\ ~ (n = node /\ ae_edge_id a = id))).
    { intros Hn. eapply listing_ext; [|exact HL]. intros n a. split; [|tauto]. intros Hp. split; [done|]. intros [-> <-]. apply Hn.
      apply list_elem_of_fmap_2. by apply Hin. }
    destruct (Nat.eqb_spec (length l) 1) as [H1|H1].
    + destruct l as [|x [|]]; [done| |done]. destruct (Z.eqb_spec (ae_edge_id x) id) as [Hx|Hx]; [|apply Hskip; by intros [E1|[]%elem_of_nil]%elem_of_cons].
      eapply listing_ext; [|apply listing_delete, HL]. intros n a. split; intros [Hp Hne]; (split; [done|]); [by intros [-> _]|].
      intros ->. apply Hne. split; [done|]. apply Hin in Hp as [->|[]%elem_of_nil]%elem_of_cons. done.
    + apply (listing_update m _ P _ node); [done| |naive_solver|].
      * intros n Hne. by rewrite lookup_insert_ne.
      * rewrite lookup_insert_eq. split; [|split; [done|]].
        -- destruct (decide (id ∈ map ae_edge_id l)) as [Hid|Hid]; [|by rewrite Hsame; [apply Hnode|]].
           apply Hlen in Hid. intros E0. rewrite E0 in Hid. cbn in Hid. lia.
        -- intros a. rewrite Ha, Hin. naive_solver.
  - eapply listing_ext; [|exact HL]. intros n a. split; [|tauto]. intros Hp. split; [done|]. intros [-> _]. by apply Hnode in Hp.
Qed.

(** *** Grouped removal *)

Abbreviation without ids entry := (foldl (fun entry edge_id => adjacency_remove edge_id entry) entry ids).

Lemma lookup_delete_all m nodes n : foldl (fun map node => delete node map) m nodes !! n = if decide (n ∈ nodes) then None else m !! n.
Proof.
  revert m. induction nodes as [|x nodes IH]; intros m; cbn; [by rewrite decide_False by set_solver|]. rewrite IH.
  destruct (decide (n ∈ nodes)) as [Hin|Hout]; [by rewrite decide_True by set_solver|]. destruct (decide (n = x)) as [->|Hne].
  - by rewrite lookup_delete_eq, decide_True by set_solver.
  - by rewrite lookup_delete_ne, decide_False by set_solver.
Qed.

(** What the loop does to one node. *)
Lemma remove_grouped_loop removals nodes : NoDup nodes -> forall empty m n,
  let '(empty', m') := foldl (remove_grouped removals) (empty, m) nodes in
  let ids := default [] (removals !! n) in
  if decide (n ∈ nodes) then
    match m !! n with
    | Some entry => (length entry = length ids /\ n ∈ empty') \/
                    (length entry <> length ids /\ m' !! n = Some (without ids entry) /\ (n ∈ empty' <-> n ∈ empty \/ without ids entry = []))
    | None => m' !! n = None
    end
  else m' !! n = m !! n /\ (n ∈ empty' <-> n ∈ empty).
Proof.
  induction nodes as [|x nodes IH]; intros Hn empty m n; cbn [foldl].
  { by rewrite decide_False by set_solver. }
  apply NoDup_cons in Hn as [Hx Hn]. destruct (remove_grouped removals (empty, m) x) as [e1 m1] eqn:E1. specialize (IH Hn e1 m1 n).
  destruct (foldl (remove_grouped removals) (e1, m1) nodes) as [e2 m2]. cbn in E1. destruct (decide (n = x)) as [->|Hne].
  - rewrite decide_False in IH by done. rewrite decide_True by set_solver. destruct IH as [IH1 IH2]. destruct (m !! x) as [entry|] eqn:Em; [|by simplify_eq; rewrite IH1].
    destruct (Nat.eqb_spec (length entry) (length (default [] (removals !! x)))) as [Hl|Hl]; simplify_eq.
    + left. split; [done|]. apply IH2. set_solver.
    + right. split; [done|]. rewrite IH1, lookup_insert_eq. split; [done|]. rewrite IH2. destruct (without _ entry); set_solver.
  - assert (Hm : m1 !! n = m !! n /\ (n ∈ e1 <-> n ∈ empty)).
    { destruct (m !! x) as [entry|]; [|by simplify_eq]. destruct (_ =? _)%nat; simplify_eq; [set_solver|]. rewrite lookup_insert_ne by done.
      split; [done|]. destruct (without _ entry); set_solver. }
    destruct Hm as [Hm He]. rewrite Hm in IH. destruct (decide (n ∈ nodes)) as [Hin|Hout].
    + rewrite decide_True by set_solver. destruct (m !! n); [|done]. destruct IH as [IH|(IH1 & IH2 & IH3)]; [by left|right].
      split; [done|]. split; [done|]. by rewrite IH3, He.
    + rewrite decide_False by set_solver. by rewrite <- He.
Qed.

Lemma rows_of_spec (X : gset Z) : NoDup (rows_of X) /\ forall x, x ∈ rows_of X <-> x ∈ X.
Proof.
  unfold rows_of. split; [rewrite merge_sort_Permutation; apply NoDup_elements|]. intros x. by rewrite merge_sort_Permutation, elem_of_elements.
Qed.

Lemma listing_remove_many m P removals : listing m P -> one_way P ->
  (forall n ids, removals !! n = Some ids -> NoDup ids) ->
  (forall n ids id, removals !! n = Some ids -> id ∈ ids -> is_Some (m !! n) -> exists a, P n a /\ ae_edge_id a = id) ->
  listing (remove_edges_from_adjacency_map m removals) (fun n a => P n a /\ ~ ae_edge_id a ∈ default [] (removals !! n)).
Proof.
  intros HL HP Hnd Hin n. unfold remove_edges_from_adjacency_map. destruct (rows_of_spec (dom removals)) as [Hd Hrows].
  pose proof (remove_grouped_loop removals (rows_of (dom removals)) Hd [] m n) as HG.
  destruct (foldl (remove_grouped removals) ([], m) (rows_of (dom removals))) as [e' m']. rewrite lookup_delete_all.
  destruct (listing_at m P n HL) as [Hs Ha]. pose proof (listing_distinct m P n HL HP) as Hdi. specialize (HL n).
  destruct (decide (n ∈ rows_of (dom removals))) as [Hr|Hr].
  - apply Hrows, elem_of_dom in Hr as [ids Eids]. rewrite Eids in *. cbn in *. destruct (m !! n) as [l|] eqn:Em; cbn in *.
    + destruct (adjacency_remove_all ids l Hs Hdi (Hnd _ _ Eids)) as (Hs' & _ & Ha' & Hlen).
      { intros id Hid. destruct (Hin _ _ _ Eids Hid) as (a & Hpa & <-); [by rewrite Em|]. apply list_elem_of_fmap_2. by apply Ha. }
      destruct HG as [[Hl He]|(Hl & Em' & He)].
      * rewrite decide_True by done. intros a [Hpa Hna]. assert (without ids l = []) as E0 by (apply nil_length_inv; lia).
        apply (not_elem_of_nil a). rewrite <- E0. apply Ha'. by rewrite Ha.
      * assert (without ids l <> []) as Hne by (intros E0; rewrite E0 in Hlen; cbn in Hlen; lia).
        rewrite decide_False by (rewrite He; set_solver). rewrite Em'. split; [done|]. split; [done|]. intros a. by rewrite Ha', Ha.
    + destruct (decide (n ∈ e')); rewrite ?HG; intros a [Hpa _]; by apply HL in Hpa.
  - destruct HG as [-> He]. rewrite decide_False by set_solver. rewrite Hrows, not_elem_of_dom in Hr. rewrite Hr. cbn. destruct (m !! n) as [l|].
    + destruct HL as (H1 & H2 & H3). split; [done|]. split; [done|]. intros a. rewrite H3. set_solver.
    + intros a [Hpa _]. by apply HL in Hpa.
Qed.
