(* ===== verification/Candidates.v ===== *)
(** Candidate sets (selene-graph: candidate_set.rs and the producers of
    candidate_state_shared.rs): sorted identities with the rows they were resolved
    to, bound to one snapshot.

    The tokens of a layout are the identities of their allocations. *)

From stdpp Require Import sorting.
From S2P Require Import Prelude Wire Value Ordered LabelSet PropertyMap GraphDelta Columns GraphTypes Store.

Inductive CandidateKind := NodeKind | EdgeKind.

Inductive CandidateSetError :=
| GraphMismatch (expected actual : Z)
| GenerationMismatch (expected actual : Z)
| LayoutMismatch
| StaleEntry.

Record CandidateSet (K : CandidateKind) := {
  cs_graph_id : Z;
  cs_generation : Z;
  cs_physical_layout : Z;
  cs_workspace_binding : Z;
  cs_entries : list (Z * Z)
}.
Arguments cs_graph_id {K} _.
Arguments cs_generation {K} _.
Arguments cs_physical_layout {K} _.
Arguments cs_workspace_binding {K} _.
Arguments cs_entries {K} _.

(** ** Entries *)

(** [canonicalize_ids] and [canonicalize_entries]. *)
Fixpoint strictly_ascending (l : list Z) : bool :=
  match l with
  | x :: ((y :: _) as t) => (x <? y) && strictly_ascending t
  | _ => true
  end.
Definition canonicalize_ids (ids : list Z) : list Z :=
  if negb (strictly_ascending ids) then dedup_indices (merge_sort Z.le ids) else ids.
Fixpoint dedup_entries (l : list (Z * Z)) : list (Z * Z) :=
  match l with
  | [] => []
  | e :: l =>
      match dedup_entries l with
      | e' :: l' => if fst e =? fst e' then e :: l' else e :: e' :: l'
      | [] => [e]
      end
  end.
Definition entry_le (a b : Z * Z) : Prop := fst a <= fst b.
#[export] Instance entry_le_dec a b : Decision (entry_le a b).
Proof. unfold entry_le. apply _. Defined.
Definition canonicalize_entries (entries : list (Z * Z)) : list (Z * Z) :=
  if negb (strictly_ascending (map fst entries)) then dedup_entries (merge_sort entry_le entries) else entries.

(** [merge_entries]: what it emits. *)
Fixpoint merge_entries (lhs : list (Z * Z)) : list (Z * Z) -> list (option (Z * Z) * option (Z * Z)) :=
  fix inner rhs :=
    match lhs, rhs with
    | l :: lhs', r :: rhs' =>
        if fst l <? fst r then (Some l, None) :: merge_entries lhs' rhs
        else if fst r <? fst l then (None, Some r) :: inner rhs'
        else (Some l, Some r) :: merge_entries lhs' rhs'
    | l :: lhs', [] => (Some l, None) :: merge_entries lhs' []
    | [], r :: rhs' => (None, Some r) :: inner rhs'
    | [], [] => []
    end.
(** What [union], [intersection] and [difference] keep of a pair. *)
Definition keep_either (p : option (Z * Z) * option (Z * Z)) : option (Z * Z) :=
  match p with
  | (Some entry, None) | (None, Some entry) | (Some entry, Some _) => Some entry
  | (None, None) => None
  end.
Definition keep_both (p : option (Z * Z) * option (Z * Z)) : option (Z * Z) := match p with (Some entry, Some _) => Some entry | _ => None end.
Definition keep_left (p : option (Z * Z) * option (Z * Z)) : option (Z * Z) := match p with (Some entry, None) => Some entry | _ => None end.
Definition union_entries (lhs rhs : list (Z * Z)) : list (Z * Z) := omap keep_either (merge_entries lhs rhs).
Definition intersection_entries (lhs rhs : list (Z * Z)) : list (Z * Z) := omap keep_both (merge_entries lhs rhs).
Definition difference_entries (lhs rhs : list (Z * Z)) : list (Z * Z) := omap keep_left (merge_entries lhs rhs).

Section Candidates.
Context `{Leaves} `{GraphEnv}.

Record Snapshot := { snap_graph : SeleneGraph; snap_physical : Z; snap_workspace_binding : Z }.

Definition with_entries {K} (entries : list (Z * Z)) (self : CandidateSet K) : CandidateSet K := {|
  cs_graph_id := cs_graph_id self; cs_generation := cs_generation self; cs_physical_layout := cs_physical_layout self;
  cs_workspace_binding := cs_workspace_binding self; cs_entries := entries |}.
(** [CandidateSet::iter], [CandidateSet::len] and [CandidateSet::contains]. *)
Definition cs_iter {K} (self : CandidateSet K) : list Z := map fst (cs_entries self).
Definition cs_len {K} (self : CandidateSet K) : Z := zlen (cs_entries self).
Definition cs_contains {K} (id : Z) (self : CandidateSet K) : bool :=
  negb (is_err (binary_search_by (fun entry => Z.compare (fst entry) id) (cs_entries self))).

(** [from_node_rows], [from_edge_rows] and [from_sorted_entries]. *)
Definition from_rows {K} (snapshot : Snapshot) (entries : list (Z * Z)) : CandidateSet K := {|
  cs_graph_id := m_graph_id (meta (snap_graph snapshot)); cs_generation := m_generation (meta (snap_graph snapshot));
  cs_physical_layout := snap_physical snapshot; cs_workspace_binding := snap_workspace_binding snapshot;
  cs_entries := canonicalize_entries entries |}.

(** ** Validation *)

(** [node_entry_is_current] and [edge_entry_is_current]. *)
Definition entry_is_current (K : CandidateKind) (graph : SeleneGraph) (entry : Z * Z) : bool :=
  let '(id, row) := entry in
  match K with
  | NodeKind => bool_decide (node_row_for_id id graph = Some row) && bool_decide (node_id_for_node_row row graph = Some id) &&
                ns_is_alive_row row (node_store graph)
  | EdgeKind => bool_decide (edge_row_for_id id graph = Some row) && bool_decide (edge_id_for_edge_row row graph = Some id) &&
                es_is_alive_row row (edge_store graph)
  end.
Definition validate_identity_for {K} (snapshot : Snapshot) (self : CandidateSet K) : result CandidateSetError unit :=
  let graph := snap_graph snapshot in
  refuse negb (cs_graph_id self =? m_graph_id (meta graph)) with GraphMismatch (m_graph_id (meta graph)) (cs_graph_id self);
  refuse negb (cs_generation self =? m_generation (meta graph)) with GenerationMismatch (m_generation (meta graph)) (cs_generation self);
  refuse negb ((snap_physical snapshot =? cs_physical_layout self) && (snap_workspace_binding snapshot =? cs_workspace_binding self)) with LayoutMismatch;
  Ok tt.
Definition validate_for {K} (snapshot : Snapshot) (self : CandidateSet K) : result CandidateSetError unit :=
  let? _ := validate_identity_for snapshot self in
  refuse negb (forallb (entry_is_current K (snap_graph snapshot)) (cs_entries self)) with StaleEntry;
  Ok tt.

(** [union_candidates], [intersect_candidates] and [difference_candidates]. *)
Definition union_candidates {K} (snapshot : Snapshot) (lhs rhs : CandidateSet K) : result CandidateSetError (CandidateSet K) :=
  let? _ := validate_for snapshot lhs in
  let? _ := validate_for snapshot rhs in
  Ok (with_entries (union_entries (cs_entries lhs) (cs_entries rhs)) lhs).
Definition intersect_candidates {K} (snapshot : Snapshot) (lhs rhs : CandidateSet K) : result CandidateSetError (CandidateSet K) :=
  let? _ := validate_for snapshot lhs in
  let? _ := validate_for snapshot rhs in
  Ok (with_entries (intersection_entries (cs_entries lhs) (cs_entries rhs)) lhs).
Definition difference_candidates {K} (snapshot : Snapshot) (lhs rhs : CandidateSet K) : result CandidateSetError (CandidateSet K) :=
  let? _ := validate_for snapshot lhs in
  let? _ := validate_for snapshot rhs in
  Ok (with_entries (difference_entries (cs_entries lhs) (cs_entries rhs)) lhs).

(** ** Producers *)

(** [ensure_live_node_pair] and [ensure_live_edge_pair]. *)
Definition ensure_live_node_pair (id row : Z) (graph : SeleneGraph) : result GraphError unit :=
  refuse negb (bool_decide (node_id_for_node_row row graph = Some id)) with Inconsistent "live node row has a different reverse id";
  match node_row_for_id id graph with
  | Some forward => if forward =? row then Ok tt else Err (Inconsistent "live node row disagrees with its forward row")
  | None => Err (Inconsistent "live node row has no forward mapping")
  end.
Definition ensure_live_edge_pair (id row : Z) (graph : SeleneGraph) : result GraphError unit :=
  refuse negb (bool_decide (edge_id_for_edge_row row graph = Some id)) with Inconsistent "live edge row has a different reverse id";
  match edge_row_for_id id graph with
  | Some forward => if forward =? row then Ok tt else Err (Inconsistent "live edge row disagrees with its forward row")
  | None => Err (Inconsistent "live edge row has no forward mapping")
  end.

(** [node_candidates_from_rows] and [edge_candidates_from_rows]. *)
Fixpoint node_entries (graph : SeleneGraph) (rows : list Z) : result GraphError (list (Z * Z)) :=
  match rows with
  | [] => Ok []
  | row :: rows =>
      if negb (ns_is_alive_row row (node_store graph)) then node_entries graph rows else
      let? id := ok_or (node_id_for_node_row row graph) (Inconsistent "live node row has no stable id") in
      let? _ := ensure_live_node_pair id row graph in
      let? entries := node_entries graph rows in
      Ok ((id, row) :: entries)
  end.
Fixpoint edge_entries (graph : SeleneGraph) (rows : list Z) : result GraphError (list (Z * Z)) :=
  match rows with
  | [] => Ok []
  | row :: rows =>
      if negb (es_is_alive_row row (edge_store graph)) then edge_entries graph rows else
      let? id := ok_or (edge_id_for_edge_row row graph) (Inconsistent "live edge row has no stable id") in
      let? _ := ensure_live_edge_pair id row graph in
      let? entries := edge_entries graph rows in
      Ok ((id, row) :: entries)
  end.
Definition node_candidates_from_rows (snapshot : Snapshot) (rows : gset Z) : result GraphError (CandidateSet NodeKind) :=
  let? entries := node_entries (snap_graph snapshot) (rows_of rows) in Ok (from_rows snapshot entries).
Definition edge_candidates_from_rows (snapshot : Snapshot) (rows : gset Z) : result GraphError (CandidateSet EdgeKind) :=
  let? entries := edge_entries (snap_graph snapshot) (rows_of rows) in Ok (from_rows snapshot entries).

Definition live_node_candidates (snapshot : Snapshot) : result GraphError (CandidateSet NodeKind) :=
  node_candidates_from_rows snapshot (ns_alive (node_store (snap_graph snapshot))).
Definition live_edge_candidates (snapshot : Snapshot) : result GraphError (CandidateSet EdgeKind) :=
  edge_candidates_from_rows snapshot (es_alive (edge_store (snap_graph snapshot))).
Definition node_candidates_with_label (snapshot : Snapshot) (label : bytes) : result GraphError (CandidateSet NodeKind) :=
  match idx_label (snap_graph snapshot) !! label with
  | Some rows => node_candidates_from_rows snapshot rows
  | None => Ok (from_rows snapshot [])
  end.
Definition edge_candidates_with_label (snapshot : Snapshot) (label : bytes) : result GraphError (CandidateSet EdgeKind) :=
  match idx_edge_label (snap_graph snapshot) !! label with
  | Some rows => edge_candidates_from_rows snapshot rows
  | None => Ok (from_rows snapshot [])
  end.

(** [bind_node_candidates] and [bind_edge_candidates]. *)
Fixpoint bound_nodes (graph : SeleneGraph) (ids : list Z) : result GraphError (list (Z * Z)) :=
  match ids with
  | [] => Ok []
  | id :: ids =>
      if id =? TOMBSTONE then bound_nodes graph ids else
      match node_row_for_id id graph with
      | None => bound_nodes graph ids
      | Some row =>
          if negb (ns_is_alive_row row (node_store graph)) then bound_nodes graph ids else
          let? _ := ensure_live_node_pair id row graph in
          let? entries := bound_nodes graph ids in
          Ok ((id, row) :: entries)
      end
  end.
Fixpoint bound_edges (graph : SeleneGraph) (ids : list Z) : result GraphError (list (Z * Z)) :=
  match ids with
  | [] => Ok []
  | id :: ids =>
      if id =? TOMBSTONE then bound_edges graph ids else
      match edge_row_for_id id graph with
      | None => bound_edges graph ids
      | Some row =>
          if negb (es_is_alive_row row (edge_store graph)) then bound_edges graph ids else
          let? _ := ensure_live_edge_pair id row graph in
          let? entries := bound_edges graph ids in
          Ok ((id, row) :: entries)
      end
  end.
Definition bind_node_candidates (snapshot : Snapshot) (ids : list Z) : result GraphError (CandidateSet NodeKind) :=
  let? entries := bound_nodes (snap_graph snapshot) (canonicalize_ids ids) in Ok (from_rows snapshot entries).
Definition bind_edge_candidates (snapshot : Snapshot) (ids : list Z) : result GraphError (CandidateSet EdgeKind) :=
  let? entries := bound_edges (snap_graph snapshot) (canonicalize_ids ids) in Ok (from_rows snapshot entries).
End Candidates.
