(* ===== verification/TypeValidator.v ===== *)
(** Validation of elements against a closed graph type (selene-graph,
    type_validator.rs): of one change of a transaction, and of all live elements.

    Whether a value has the declared structural type is the operation
    [property_value_matches] of [TypeOps]. *)

From stdpp Require Import sorting.
From S2P Require Import Prelude Wire Value Ordered LabelSet PropertyMap GraphDelta Columns GraphTypes Store Candidates.

Section TypeValidator.
Context `{L : Leaves} {GE : GraphEnv} {TO : TypeOps} {LE : LegacyEvents}.

(** [TypeWarning]. *)
Abbreviation warnings := (list TypeViolation).

(** [validate_properties]: the entries of the map, then the required declarations. *)
Definition find_declaration (key : bytes) (declarations : list PropertyTypeDef) : option PropertyTypeDef :=
  snd <$> list_find (fun declaration => pt_name declaration = key) declarations.
Fixpoint validate_entries (entity_id : EntityId) (declared_in : bytes) (validation_mode : ValidationMode) (declarations : list PropertyTypeDef)
    (entries : list (bytes * Value)) : result TypeViolation warnings :=
  match entries with
  | [] => Ok []
  | (key, value) :: entries =>
      match find_declaration key declarations with
      | None =>
          match validation_mode with
          | Warn =>
              let? rest := validate_entries entity_id declared_in validation_mode declarations entries in
              Ok (UndeclaredProperty entity_id key :: rest)
          | Strict => Err (UndeclaredProperty entity_id key)
          end
      | Some declaration =>
          match value with
          | Value.Extended _ _ => Err (ExtensionValueRejected entity_id key)
          | Value.Null =>
              refuse pt_required declaration with MissingRequiredProperty entity_id key declared_in;
              validate_entries entity_id declared_in validation_mode declarations entries
          | _ =>
              refuse negb (property_value_matches declaration value)
                with PropertyTypeMismatch entity_id key (pt_detail declaration) (observed_name value);
              validate_entries entity_id declared_in validation_mode declarations entries
          end
      end
  end.
Fixpoint validate_required (entity_id : EntityId) (declared_in : bytes) (declarations : list PropertyTypeDef) (properties : PropertyMap) :
    result TypeViolation unit :=
  match declarations with
  | [] => Ok tt
  | declaration :: declarations =>
      refuse pt_required declaration && match pm_get (pt_name declaration) properties with None | Some Value.Null => true | _ => false end
        with MissingRequiredProperty entity_id (pt_name declaration) declared_in;
      validate_required entity_id declared_in declarations properties
  end.
Definition validate_properties (entity_id : EntityId) (declared_in : bytes) (validation_mode : ValidationMode) (declarations : list PropertyTypeDef)
    (properties : PropertyMap) : result TypeViolation warnings :=
  let? w := validate_entries entity_id declared_in validation_mode declarations (pm_iter properties) in
  let? _ := validate_required entity_id declared_in declarations properties in
  Ok w.

(** [validate_node_state]; the index of a declared type is in range. *)
Definition validate_node_state (id : Z) (graph : SeleneGraph) (type_def : GraphTypeDef) : outcome TypeViolation (Z * warnings) :=
  let labels := default LabelSet.new (node_labels id graph) in
  let? node_type_index := lift (ok_or (find_node_type_index labels type_def) (UnknownNodeLabel id labels)) in
  let? node_type := ok_or (gt_node_types type_def !! Z.to_nat node_type_index) (Panic "index out of bounds") in
  let properties := default pm_new (node_properties id graph) in
  let? w := lift (validate_properties (EntityNode id) (nt_name node_type) (nt_validation_mode node_type) (nt_properties node_type) properties) in
  Ok (node_type_index, w).

(** [first_edge_type_with_label] (graph_types.rs). *)
Definition first_edge_type_with_label (label : bytes) (self : GraphTypeDef) : option EdgeTypeDef :=
  snd <$> list_find (fun edge_type => et_label edge_type = label) (gt_edge_types self).
Definition validate_edge_endpoints (id : Z) (label : bytes) (endpoints : Z * Z) (directionality : EdgeDirectionality) (graph : SeleneGraph)
    (type_def : GraphTypeDef) : outcome TypeViolation (EdgeTypeDef * warnings) :=
  let '(source, target) := endpoints in
  let? s := validate_node_state source graph type_def in
  let? t := validate_node_state target graph type_def in
  match find_mixed_edge_type label (fst s) (fst t) directionality type_def with
  | None =>
      match first_edge_type_with_label label type_def with
      | None => Err (Fails (UnknownEdgeLabel id label))
      | Some expected => Err (Fails (EdgeEndpointTypeMismatch id label (et_source expected) (fst s) (et_target expected) (fst t)))
      end
  | Some edge_type => Ok (edge_type, snd s ++ snd t)
  end.
Definition validate_edge_state (id : Z) (graph : SeleneGraph) (type_def : GraphTypeDef) : outcome TypeViolation (EdgeTypeDef * warnings) :=
  let? label := lift (ok_or (edge_label id graph) (UnknownEdgeLabel id (ascii_bytes "__selene_missing_edge_label"))) in
  let? endpoints := lift (ok_or (edge_endpoints id graph) (UnknownEdgeLabel id label)) in
  let? directionality := lift (ok_or (edge_directionality id graph) (UnknownEdgeLabel id label)) in
  let? checked := validate_edge_endpoints id label endpoints directionality graph type_def in
  let '(edge_type, w) := checked in
  let properties := default pm_new (edge_properties id graph) in
  let? w' := lift (validate_properties (EntityEdge id) (et_name edge_type) (et_validation_mode edge_type) (et_properties edge_type) properties) in
  Ok (edge_type, w ++ w').

(** [revalidate_incident_edges]. *)
Fixpoint validate_edges (graph : SeleneGraph) (type_def : GraphTypeDef) (ids : list Z) : outcome TypeViolation warnings :=
  match ids with
  | [] => Ok []
  | id :: ids =>
      let? s := validate_edge_state id graph type_def in
      let? rest := validate_edges graph type_def ids in
      Ok (snd s ++ rest)
  end.
Definition entry_edges (map : gmap Z AdjacencyEntry) (node : Z) : list Z := ae_edge_id <$> default [] (map !! node).
Definition revalidate_incident_edges (node : Z) (graph : SeleneGraph) (type_def : GraphTypeDef) : outcome TypeViolation warnings :=
  let alive := filter (fun id => is_edge_alive id graph = true) in
  let? out := validate_edges graph type_def (alive (entry_edges (adjacency_out graph) node)) in
  let? into := validate_edges graph type_def (alive (entry_edges (adjacency_in graph) node)) in
  let? undirected := validate_edges graph type_def (entry_edges (adjacency_undirected graph) node) in
  Ok (out ++ into ++ undirected).

(** [LabelDiff::is_empty] (selene-core, changeset/diff.rs). *)
Definition label_diff_is_empty (self : LabelDiff) : bool := bool_decide (ld_added self = []) && bool_decide (ld_removed self = []).

(** [validate_change]. *)
Definition node_type_at (index : Z) (type_def : GraphTypeDef) : outcome TypeViolation NodeTypeDef :=
  ok_or (gt_node_types type_def !! Z.to_nat index) (Panic "index out of bounds").
Definition validate_change (change : Change) (graph : SeleneGraph) (type_def : GraphTypeDef) : outcome TypeViolation warnings :=
  match change with
  | NodeCreated id _ _ =>
      if negb (is_node_alive id graph) then Ok [] else
      let? s := validate_node_state id graph type_def in Ok (snd s)
  | NodeUpdated id labels_diff properties_diff =>
      if negb (is_node_alive id graph) then Ok [] else
      let? s := validate_node_state id graph type_def in
      let? node_type := node_type_at (fst s) type_def in
      let? _ := lift (reject_immutable_property_update (EntityNode id) (nt_name node_type) (nt_properties node_type) properties_diff) in
      if negb (label_diff_is_empty labels_diff) then
        let? w := revalidate_incident_edges id graph type_def in Ok (snd s ++ w)
      else Ok (snd s)
  | EdgeCreated id _ _ _ _ _ =>
      if negb (is_edge_alive id graph) then Ok [] else
      let? s := validate_edge_state id graph type_def in Ok (snd s)
  | EdgeUpdated id properties_diff =>
      if negb (is_edge_alive id graph) then Ok [] else
      let? s := validate_edge_state id graph type_def in
      let? _ := lift (reject_immutable_property_update (EntityEdge id) (et_name (fst s)) (et_properties (fst s)) properties_diff) in
      Ok (snd s)
  | NodePropertyRemoved id property =>
      if negb (is_node_alive id graph) then Ok [] else
      let? s := validate_node_state id graph type_def in
      let? node_type := node_type_at (fst s) type_def in
      let? _ := lift (reject_if_immutable (EntityNode id) (nt_name node_type) (nt_properties node_type) property) in
      Ok (snd s)
  | EdgePropertyRemoved id property =>
      if negb (is_edge_alive id graph) then Ok [] else
      let? s := validate_edge_state id graph type_def in
      let? _ := lift (reject_if_immutable (EntityEdge id) (et_name (fst s)) (et_properties (fst s)) property) in
      Ok (snd s)
  | NodeLabelRemoved id _ =>
      if negb (is_node_alive id graph) then Ok [] else
      let? s := validate_node_state id graph type_def in
      let? w := revalidate_incident_edges id graph type_def in
      Ok (snd s ++ w)
  | NodeDeleted _ | EdgeDeleted _ | NodesOfTypeTruncated _ | EdgesOfTypeTruncated _ | GraphReset | SchemaChanged _ _ => Ok []
  end.

(** [validate_entity_shape]. *)
Fixpoint validate_nodes (graph : SeleneGraph) (type_def : GraphTypeDef) (ids : list Z) : outcome TypeViolation warnings :=
  match ids with
  | [] => Ok []
  | id :: ids =>
      let? s := validate_node_state id graph type_def in
      let? rest := validate_nodes graph type_def ids in
      Ok (snd s ++ rest)
  end.
Definition validate_entity_shape (graph : Snapshot) (type_def : GraphTypeDef) : outcome TypeViolation warnings :=
  let? nodes := map_err (fun _ => Panic "alive nodes have consistent typed stable-ID mappings") (live_node_candidates graph) in
  let? w := validate_nodes (snap_graph graph) type_def (cs_iter nodes) in
  let? edges := map_err (fun _ => Panic "alive edges have consistent typed stable-ID mappings") (live_edge_candidates graph) in
  let? w' := validate_edges (snap_graph graph) type_def (cs_iter edges) in
  Ok (w ++ w').

(** ** Validation does not panic *)

Lemma find_node_type_index_at labels type_def index : find_node_type_index labels type_def = Some index ->
  exists t, gt_node_types type_def !! Z.to_nat index = Some t /\ find_node_type labels type_def = Some t /\ nt_key_labels t = labels.
Proof.
  unfold find_node_type_index, find_node_type. intros E. destruct (list_find _ (gt_node_types type_def)) as [[i t]|] eqn:EL; [|done]. cbn in *.
  apply list_find_Some in EL as (Hi & Hl & _). unfold u32_of in E. destruct (_ <=? _); [|done]. injection E as <-. exists t. by rewrite Nat2Z.id.
Qed.
Lemma validate_node_state_safe id graph type_def what : validate_node_state id graph type_def <> Err (Panic what).
Proof.
  unfold validate_node_state. destruct (find_node_type_index _ type_def) as [index|] eqn:E; [|done]. cbn.
  destruct (find_node_type_index_at _ _ _ E) as (t & -> & _). cbn. by destruct (validate_properties _ _ _ _ _).
Qed.
Lemma validate_edge_endpoints_safe id label endpoints d graph type_def what : validate_edge_endpoints id label endpoints d graph type_def <> Err (Panic what).
Proof.
  unfold validate_edge_endpoints. destruct endpoints as [source target]. pose proof (validate_node_state_safe source graph type_def) as HS.
  destruct (validate_node_state source graph type_def) as [s|[w|]]; [|by destruct (HS w)|done]. cbn. pose proof (validate_node_state_safe target graph type_def) as HT.
  destruct (validate_node_state target graph type_def) as [t|[w|]]; [|by destruct (HT w)|done]. cbn.
  destruct (find_mixed_edge_type _ _ _ _ _); [done|]. by destruct (first_edge_type_with_label label type_def).
Qed.
End TypeValidator.
