(* ===== verification/Fanout.v ===== *)
(** The view of a log that index providers are given (selene-graph,
    write_txn/pipeline.rs): a declarative change is replaced by the tombstones that
    were staged for it. *)

From stdpp Require Import sorting.
From S2P Require Import Prelude Wire Value Ordered LabelSet PropertyMap GraphDelta.

Section Fanout.
Context `{L : Leaves} {LE : LegacyEvents}.

Definition declarative (change : Change) : bool :=
  match change with NodesOfTypeTruncated _ | EdgesOfTypeTruncated _ | GraphReset => true | _ => false end.
(** The loop of [expand_truncates_for_fanout], from an index. *)
Fixpoint fanout_view (index : nat) (changes : list Change) (expansions : list (nat * list Change)) : list Change :=
  match changes with
  | [] => []
  | change :: changes =>
      (if declarative change then
         match list_find (fun staged => fst staged = index) expansions with Some (_, (_, expansion)) => expansion | None => [] end
       else [change]) ++ fanout_view (S index) changes expansions
  end.
Definition expand_truncates_for_fanout (changes : list Change) (expansions : list (nat * list Change)) : option (list Change) :=
  match expansions with
  | [] => None
  | _ => Some (fanout_view 0 changes expansions)
  end.

(** ** Views of parts of a log *)

(** The expansions are staged for changes of the range, and hold no declarative change. *)
Definition plain (changes : list Change) : Prop := Forall (fun c => declarative c = false) changes.
Definition staged (first last : nat) (expansions : list (nat * list Change)) : Prop :=
  Forall (fun e => (first <= fst e < last)%nat /\ plain (snd e)) expansions.

(** Every declarative change, from an index on, has an expansion. *)
Definition covered (k : nat) (cs : list Change) (es : list (nat * list Change)) : Prop :=
  forall i c, cs !! i = Some c -> declarative c = true -> exists x, ((k + i)%nat, x) ∈ es.
Lemma covered_app k cs cs' es es' : covered k cs es -> covered (k + length cs) cs' es' -> covered k (cs ++ cs') (es ++ es').
Proof.
  intros H1 H2 i c [Hi|[Hl Hi]]%lookup_app_Some Hd.
  - destruct (H1 i c Hi Hd) as [x Hx]. exists x. apply elem_of_app. by left.
  - destruct (H2 _ c Hi Hd) as [x Hx]. exists x. apply elem_of_app. right. by replace (k + i)%nat with (k + length cs + (i - length cs))%nat by lia.
Qed.
Lemma covered_plain k cs : covered k cs [] -> plain cs.
Proof. intros HC. apply Forall_lookup. intros i c Hi. destruct (declarative c) eqn:Hd; [|done]. by destruct (HC i c Hi Hd) as [x ?%elem_of_nil]. Qed.

Lemma find_staged (k : nat) (es es' : list (nat * list Change)) : Forall (fun e => fst e <> k) es' ->
  list_find (fun s => fst s = k) (es ++ es') = list_find (fun s => fst s = k) es.
Proof.
  intros HN. induction es as [|e es IH]; cbn; [by apply list_find_None|]. case_decide; [done|]. by rewrite IH.
Qed.
Lemma find_later (k : nat) (es es' : list (nat * list Change)) : Forall (fun e => fst e <> k) es ->
  snd <$> list_find (fun s => fst s = k) (es ++ es') = snd <$> list_find (fun s => fst s = k) es'.
Proof.
  induction 1 as [|e es He HN IH]; cbn [app list_find]; [done|]. rewrite decide_False by done. rewrite <- IH. by destruct (list_find _ (es ++ es')) as [[]|].
Qed.
Lemma fanout_before k cs es es' : Forall (fun e => (k + length cs <= fst e)%nat) es' -> fanout_view k cs (es ++ es') = fanout_view k cs es.
Proof.
  revert k. induction cs as [|c cs IH]; intros k HF; [done|]. cbn [fanout_view length] in *. rewrite IH by (eapply Forall_impl; [exact HF|cbn; intros; lia]).
  rewrite find_staged; [done|]. eapply Forall_impl; [exact HF|]. cbn. intros. lia.
Qed.
Lemma fanout_after k cs es es' : Forall (fun e => (fst e < k)%nat) es -> fanout_view k cs (es ++ es') = fanout_view k cs es'.
Proof.
  revert k. induction cs as [|c cs IH]; intros k HF; [done|]. cbn [fanout_view]. rewrite IH by (eapply Forall_impl; [exact HF|cbn; intros; lia]). f_equal. destruct (declarative c); [|done].
  pose proof (find_later k es es' ltac:(eapply Forall_impl; [exact HF|cbn; intros; lia])) as HL.
  destruct (list_find _ (es ++ es')) as [[i [? ?]]|], (list_find _ es') as [[j [? ?]]|]; cbn in HL; by simplify_eq.
Qed.
Lemma fanout_concat k cs cs' es : fanout_view k (cs ++ cs') es = fanout_view k cs es ++ fanout_view (k + length cs) cs' es.
Proof.
  revert k. induction cs as [|c cs IH]; intros k; cbn [fanout_view app length]; [by rewrite Nat.add_0_r|]. rewrite IH, <- app_assoc. do 3 f_equal. lia.
Qed.
Lemma fanout_app k cs cs' es es' last : staged k (k + length cs) es -> staged (k + length cs) last es' ->
  fanout_view k (cs ++ cs') (es ++ es') = fanout_view k cs es ++ fanout_view (k + length cs) cs' es'.
Proof.
  intros H1 H2. rewrite fanout_concat, fanout_before, fanout_after; [done| |].
  - eapply Forall_impl; [exact H1|]. cbn. lia.
  - eapply Forall_impl; [exact H2|]. cbn. lia.
Qed.
Lemma fanout_view_plain first last k cs es : staged first last es -> plain (fanout_view k cs es).
Proof.
  intros HS. revert k. induction cs as [|c cs IH]; intros k; cbn [fanout_view]; [constructor|]. apply Forall_app. split; [|apply IH]. destruct (declarative c) eqn:Hc; [|by apply Forall_singleton].
  destruct (list_find _ es) as [[i [j x]]|] eqn:E; [|constructor]. apply list_find_Some in E as (Hi & _). by destruct (Forall_lookup_1 _ _ _ _ HS Hi).
Qed.
Lemma fanout_plain k cs es : plain cs -> fanout_view k cs es = cs.
Proof. intros HF. revert k. induction HF as [|c cs Hc HF IH]; intros k; cbn; [done|]. by rewrite Hc, IH. Qed.
End Fanout.
