(* ===== verification/Unique.v ===== *)
(** Constraint indexes (selene-graph: type_validator/unique.rs and
    type_validator/unique/domain.rs): the tuples of the elements of each UNIQUE and
    KEY rule, and the comparison domains of their components.

    The structural type of a leaf, when two of them compare, and the equality key of
    a value (unique/key.rs) are the class [Comparison].  A count is a natural number. *)

From stdpp Require Import sorting.
From S2P Require Import Prelude Errors Wire Value Ordered LabelSet PropertyMap GraphDelta Catalog Columns GraphTypes Store Candidates TypeValidator.

(** ** Domains (unique/domain.rs) *)

Inductive Step := Component (index : nat) | Position (index : nat) | Field (name : bytes).
#[export] Instance Step_eq_dec : EqDecision Step.
Proof. solve_decision. Defined.
#[export] Instance Step_countable : Countable Step.
Proof.
  apply (inj_countable' (fun s => match s with Component i => inl (inl i) | Position i => inl (inr i) | Field n => inr n end)
    (fun x => match x with inl (inl i) => Component i | inl (inr i) => Position i | inr n => Field n end)). by intros [].
Defined.

Class Comparison `{Leaves} := {
  StructuralType : Type;
  #[global] structural_type_eq :: EqDecision StructuralType;
  comparison_leaf_type : Value -> result ValueComparisonError StructuralType;
  comparable_with : StructuralType -> StructuralType -> bool;
  key_write : Value -> result ValueComparisonError bytes
}.
Definition MAX_STRUCTURAL_TYPE_DEPTH : Z := 256.

(** [Vec::swap_remove] of a position in range. *)
Definition swap_remove {A} (i : nat) (l : list A) : list A :=
  match last l with
  | Some x => take (length l - 1) (<[i := x]> l)
  | None => l
  end.

Section Domains.
Context `{L : Leaves} {CO : Comparison}.

Inductive Shape := LeafShape (ty : StructuralType) | ListShape | RecordShape (names : list bytes).
#[export] Instance Shape_eq_dec : EqDecision Shape.
Proof. solve_decision. Defined.
Definition compatible (self other : Shape) : bool :=
  match self, other with
  | LeafShape a, LeafShape b => comparable_with a b
  | _, _ => bool_decide (self = other)
  end.

Abbreviation Domains := (gmap (list Step) (list (Shape * nat))).

(** [names.windows(2).any(|p| p[0] == p[1])]. *)
Fixpoint repeats (names : list bytes) : bool :=
  match names with
  | x :: ((y :: _) as t) => bool_decide (x = y) || repeats t
  | _ => false
  end.
(** The shape of a value that is not null. *)
Definition shape_of (value : Value) : result ValueComparisonError Shape :=
  match value with
  | Value.List _ => Ok ListShape
  | Value.Record_ fields =>
      let names := sort_by (fun name => name) (map fst fields) in
      refuse repeats names with NotComparable;
      Ok (RecordShape names)
  | _ => let? ty := comparison_leaf_type value in Ok (LeafShape ty)
  end.
(** The counts of a path after a shape is added or removed. *)
Definition count_up (shape : Shape) (counts : list (Shape * nat)) : list (Shape * nat) :=
  match list_find (fun c => fst c = shape) counts with
  | Some (i, (_, n)) => <[i := (shape, S n)]> counts
  | None => counts ++ [(shape, 1%nat)]
  end.
Definition count_down (shape : Shape) (counts : list (Shape * nat)) : outcome ValueComparisonError (list (Shape * nat)) :=
  match list_find (fun c => fst c = shape) counts with
  | Some (i, (_, n)) => Ok (if (n =? 1)%nat then swap_remove i counts else <[i := (shape, (n - 1)%nat)]> counts)
  | None => Err (Panic "complete constraint domain contains the removed value")
  end.
Definition change_count (insert : bool) (path : list Step) (shape : Shape) (self : Domains) : outcome ValueComparisonError Domains :=
  refuse negb (compatible shape shape) with Fails NotComparable;
  let counts := default [] (self !! path) in
  let? counts :=
    if insert then
      refuse existsb (fun c => negb (compatible (fst c) shape)) counts with Fails NotComparable;
      Ok (count_up shape counts)
    else count_down shape counts in
  Ok (match counts with [] => delete path self | _ => <[path := counts]> self end).

(** [Domains::visit]. *)
Fixpoint visit (insert : bool) (value : Value) (path : list Step) (depth : Z) (self : Domains) : outcome ValueComparisonError Domains :=
  refuse MAX_STRUCTURAL_TYPE_DEPTH <? depth with Fails TooDeep;
  match value with
  | Value.Null => Ok self
  | _ =>
      let? shape := lift (shape_of value) in
      let? self := change_count insert path shape self in
      match value with
      | Value.List values =>
          (fix positions (position : nat) (values : list Value) (self : Domains) : outcome ValueComparisonError Domains :=
             match values with
             | [] => Ok self
             | value :: values =>
                 let? self := visit insert value (path ++ [Position position]) (depth + 1) self in
                 positions (S position) values self
             end) 0%nat values self
      | Value.Record_ fields =>
          (fix named (fields : list (bytes * Value)) (self : Domains) : outcome ValueComparisonError Domains :=
             match fields with
             | [] => Ok self
             | (name, value) :: fields =>
                 let? self := visit insert value (path ++ [Field name]) (depth + 1) self in
                 named fields self
             end) fields self
      | _ => Ok self
      end
  end.
(** [Domains::change], from a component. *)
Fixpoint domains_change (insert : bool) (component : nat) (values : list Value) (self : Domains) : outcome ValueComparisonError Domains :=
  match values with
  | [] => Ok self
  | value :: values =>
      let? self := visit insert value [Component component] 1 self in
      domains_change insert (S component) values self
  end.
End Domains.

(** ** Indexes (unique.rs) *)

Section Unique.
Context `{L : Leaves} {GE : GraphEnv} {TO : TypeOps} {CO : Comparison} {LE : LegacyEvents}.

Record RuleIndex := {
  ri_rule : ConstraintDeclaration;
  ri_properties : list bytes;
  ri_entries : gmap (list bytes) EntityId;
  ri_domains : gmap (list Step) (list (Shape * nat))
}.

(** The values of a rule's properties; [None] when one is absent or null. *)
Fixpoint rule_values (rule : ConstraintDeclaration) (id : EntityId) (declared_in : bytes) (keys : list bytes) (properties : PropertyMap) :
    result TypeViolation (option (list Value)) :=
  match keys with
  | [] => Ok (Some [])
  | property :: keys =>
      match pm_get property properties with
      | None | Some Value.Null =>
          refuse bool_decide (constraint_kind rule = KeyConstraint) with MissingRequiredProperty id property declared_in;
          Ok None
      | Some value =>
          let? values := rule_values rule id declared_in keys properties in
          Ok (match values with Some values => Some (value :: values) | None => None end)
      end
  end.
Fixpoint tuple_of (values : list Value) : result ValueComparisonError (list bytes) :=
  match values with
  | [] => Ok []
  | value :: values => let? key := key_write value in let? keys := tuple_of values in Ok (key :: keys)
  end.
(** [RuleIndex::change]. *)
Definition first_property (self : RuleIndex) : outcome TypeViolation bytes :=
  ok_or (head (ri_properties self)) (Panic "index out of bounds").
Definition compares {A} (self : RuleIndex) (id : EntityId) (declared_in : bytes) (r : outcome ValueComparisonError A) : outcome TypeViolation A :=
  match r with
  | Ok a => Ok a
  | Err (Panic what) => Err (Panic what)
  | Err (Fails source) => let? property := first_property self in Err (Fails (UniquePropertyComparison id property declared_in source))
  end.
Definition rule_change (properties : PropertyMap) (id : EntityId) (declared_in : bytes) (insert : bool) (self : RuleIndex) : outcome TypeViolation RuleIndex :=
  let? values := lift (rule_values (ri_rule self) id declared_in (ri_properties self) properties) in
  match values with
  | None => Ok self
  | Some values =>
      let? tuple := compares self id declared_in (lift (tuple_of values)) in
      let? domains := compares self id declared_in (domains_change insert 0 values (ri_domains self)) in
      if insert then
        match ri_entries self !! tuple with
        | Some conflicting =>
            let? property := first_property self in
            Err (Fails (UniquePropertyDuplicate id conflicting property declared_in))
        | None => Ok {| ri_rule := ri_rule self; ri_properties := ri_properties self; ri_entries := <[tuple := id]> (ri_entries self); ri_domains := domains |}
        end
      else Ok {| ri_rule := ri_rule self; ri_properties := ri_properties self; ri_entries := delete tuple (ri_entries self); ri_domains := domains |}
  end.

(** [ConstraintIndexes::change]. *)
Fixpoint change_rules (element : ElementKind) (declared_in : bytes) (properties : PropertyMap) (id : EntityId) (insert : bool) (indexes : list RuleIndex) :
    outcome TypeViolation (list RuleIndex) :=
  match indexes with
  | [] => Ok []
  | index :: indexes =>
      let? index :=
        if negb (bool_decide (target_element (constraint_target (ri_rule index)) = element)) ||
           negb (bool_decide (constraint_declaring_type (ri_rule index) = declared_in))
        then Ok index else rule_change properties id declared_in insert index in
      let? indexes := change_rules element declared_in properties id insert indexes in
      Ok (index :: indexes)
  end.
Definition constraints_change (graph : SeleneGraph) (id : EntityId) (insert : bool) (self : list RuleIndex) : outcome TypeViolation (list RuleIndex) :=
  match m_bound_type (meta graph) with
  | None => Ok self
  | Some type_def =>
      match id with
      | EntityNode node =>
          if is_node_alive node graph then
            let? s := validate_node_state node graph type_def in
            let? node_type := node_type_at (fst s) type_def in
            change_rules Catalog.Node (nt_name node_type) (default pm_new (node_properties node graph)) id insert self
          else Ok self
      | EntityEdge edge =>
          if is_edge_alive edge graph then
            let? s := validate_edge_state edge graph type_def in
            change_rules Catalog.Edge (et_name (fst s)) (default pm_new (edge_properties edge graph)) id insert self
          else Ok self
      end
  end.
Fixpoint change_each (graph : SeleneGraph) (insert : bool) (ids : list EntityId) (self : list RuleIndex) : outcome TypeViolation (list RuleIndex) :=
  match ids with
  | [] => Ok self
  | id :: ids => let? self := constraints_change graph id insert self in change_each graph insert ids self
  end.

(** [ConstraintIndexes::build]. *)
Definition new_index (rule : ConstraintDeclaration) : RuleIndex :=
  {| ri_rule := rule; ri_properties := target_properties (constraint_target rule); ri_entries := ∅; ri_domains := ∅ |}.
Definition constraints_build (snapshot : Snapshot) (rules : list ConstraintDeclaration) : outcome TypeViolation (list RuleIndex) :=
  let self := map new_index rules in
  match self with
  | [] => Ok []
  | _ =>
      let? nodes := map_err (fun _ => Panic "validated node mappings") (live_node_candidates snapshot) in
      let? self := change_each (snap_graph snapshot) true (map EntityNode (cs_iter nodes)) self in
      let? edges := map_err (fun _ => Panic "validated edge mappings") (live_edge_candidates snapshot) in
      change_each (snap_graph snapshot) true (map EntityEdge (cs_iter edges)) self
  end.

(** [ConstraintIndexes::apply]: the elements a log affects. *)
Definition changed_element (change : Change) : option EntityId :=
  match change with
  | NodeCreated id _ _ | NodeUpdated id _ _ | NodeDeleted id | NodePropertyRemoved id _ | NodeLabelRemoved id _ => Some (EntityNode id)
  | EdgeCreated id _ _ _ _ _ | EdgeUpdated id _ | EdgeDeleted id | EdgePropertyRemoved id _ => Some (EntityEdge id)
  | NodesOfTypeTruncated _ | EdgesOfTypeTruncated _ | GraphReset | SchemaChanged _ _ => None
  end.
Definition relabelled_node (change : Change) : option Z :=
  match change with
  | NodeUpdated id labels_diff _ => if negb (label_diff_is_empty labels_diff) then Some id else None
  | NodeLabelRemoved id _ => Some id
  | _ => None
  end.
Definition incident_elements (graph : SeleneGraph) (node : Z) : list EntityId :=
  map EntityEdge (entry_edges (adjacency_out graph) node ++ entry_edges (adjacency_in graph) node ++ entry_edges (adjacency_undirected graph) node).
Definition affected (changes : list Change) (before after : SeleneGraph) : gset EntityId :=
  list_to_set (omap changed_element changes) ∪
  list_to_set (concat (map (fun node => incident_elements before node ++ incident_elements after node) (omap relabelled_node changes))).
(** In the order of [EntityId]. *)
Definition node_of (id : EntityId) : option Z := match id with EntityNode n => Some n | _ => None end.
Definition edge_of (id : EntityId) : option Z := match id with EntityEdge e => Some e | _ => None end.
Definition entities (X : gset EntityId) : list EntityId :=
  map EntityNode (merge_sort Z.le (omap node_of (elements X))) ++ map EntityEdge (merge_sort Z.le (omap edge_of (elements X))).
Definition constraints_apply (changes : list Change) (before after : SeleneGraph) (self : list RuleIndex) : outcome TypeViolation (list RuleIndex) :=
  match self with
  | [] => Ok []
  | _ =>
      let ids := entities (affected changes before after) in
      let? self := change_each before false ids self in
      change_each after true ids self
  end.
End Unique.
