(* ===== verification/UniqueProps.v ===== *)
(** A constraint index holds the tuples of its elements and counts the shapes of
    their values, and every change keeps it so. *)

From stdpp Require Import sorting.
From S2P Require Import Prelude Errors Wire Value Ordered LabelSet PropertyMap GraphDelta Catalog Columns GraphTypes Store Candidates TypeValidator Unique.

(** ** Sums *)

Lemma sum_of_perm {A} (f : A -> nat) l l' : l ≡ₚ l' -> sum_of f l = sum_of f l'.
Proof. induction 1; rewrite ?sum_of_cons; lia. Qed.
Lemma sum_of_insert {A} (f : A -> nat) l i x y : l !! i = Some x -> (sum_of f (<[i := y]> l) + f x = sum_of f l + f y)%nat.
Proof.
  revert i. induction l as [|z l IH]; intros [|i] E; [done|done| |].
  - injection E as ->. change (<[0%nat := y]> (x :: l)) with (y :: l). rewrite !sum_of_cons. lia.
  - change (<[S i := y]> (z :: l)) with (z :: <[i := y]> l). change (l !! i = Some x) in E. rewrite !sum_of_cons. specialize (IH i E). lia.
Qed.
Lemma swap_remove_perm {A} (l : list A) i x : l !! i = Some x -> l ≡ₚ x :: swap_remove i l.
Proof.
  intros E. unfold swap_remove. destruct (last l) as [y|] eqn:El; [|apply last_None in El; by subst l].
  apply last_Some in El as [l' ->]. rewrite length_app. cbn. replace (length l' + 1 - 1)%nat with (length l') by lia.
  pose proof (lookup_lt_Some _ _ _ E) as Hi. rewrite length_app in Hi. cbn in Hi. destruct (decide (i = length l')) as [->|Hne].
  - rewrite list_lookup_middle in E by done. injection E as <-. rewrite insert_app_r_alt, Nat.sub_diag by lia. cbn. rewrite take_app_length. by rewrite Permutation_app_comm.
  - rewrite lookup_app_l in E by lia. rewrite insert_app_l, take_app_le by (rewrite ?length_insert; lia). rewrite take_ge by (rewrite length_insert; lia).
    rewrite (Permutation_app_comm l' [y]). cbn. rewrite <- (take_drop_middle _ _ _ E) at 1. rewrite insert_take_drop by lia. rewrite <- !Permutation_middle. apply Permutation_swap.
Qed.

Section Counts.
Context `{L : Leaves} {CO : Comparison}.
Abbreviation Domains := (gmap (list Step) (list (Shape * nat))).

(** The number of values of a shape at a path. *)
Definition get_count (counts : list (Shape * nat)) (shape : Shape) : nat := sum_of (fun c => if decide (fst c = shape) then snd c else 0%nat) counts.
Definition total (self : Domains) (path : list Step) (shape : Shape) : nat := get_count (default [] (self !! path)) shape.
Definition positive (counts : list (Shape * nat)) : Prop := Forall (fun c => (0 < snd c)%nat) counts.
Definition wf_domains (self : Domains) : Prop := forall path counts, self !! path = Some counts -> positive counts.

Lemma found_count shape counts : (0 < get_count counts shape)%nat -> exists i n, list_find (fun c => fst c = shape) counts = Some (i, (shape, n)) /\ counts !! i = Some (shape, n).
Proof.
  intros Hc. destruct (list_find (fun c => fst c = shape) counts) as [[i [s n]]|] eqn:E.
  - apply list_find_Some in E as (Hi & Hs & _). cbn in Hs. subst s. by exists i, n.
  - apply list_find_None in E. exfalso. induction E as [|c l Hne HF IH]; unfold get_count in *; [cbn in Hc; lia|]. rewrite sum_of_cons, decide_False in Hc by done. by apply IH.
Qed.
Lemma count_up_spec shape counts : positive counts -> positive (count_up shape counts) /\
  forall t, get_count (count_up shape counts) t = (get_count counts t + if decide (shape = t) then 1 else 0)%nat.
Proof.
  intros HP. unfold count_up. destruct (list_find (fun c => fst c = shape) counts) as [[i [s n]]|] eqn:E.
  - apply list_find_Some in E as (Hi & Hs & _). cbn in Hs. subst s. split; [apply Forall_insert; [done|cbn; lia]|]. intros t. unfold get_count.
    pose proof (sum_of_insert (fun c => if decide (fst c = t) then snd c else 0%nat) counts i (shape, n) (shape, S n) Hi) as HS. cbn in HS. destruct (decide (shape = t)); lia.
  - split; [apply Forall_app; split; [done|by repeat constructor]|]. intros t. unfold get_count. rewrite sum_of_app, sum_of_cons. cbn. destruct (decide (shape = t)); cbn; lia.
Qed.
Lemma count_down_spec shape counts : positive counts -> (0 < get_count counts shape)%nat -> exists counts', count_down shape counts = Ok counts' /\ positive counts' /\
  forall t, (get_count counts' t + if decide (shape = t) then 1 else 0)%nat = get_count counts t.
Proof.
  intros HP Hc. destruct (found_count shape counts Hc) as (i & n & Ef & Hi). unfold count_down. rewrite Ef. eexists. split; [done|].
  assert (Hn : (0 < n)%nat) by (exact (Forall_lookup_1 _ _ _ _ HP Hi)). destruct (Nat.eqb_spec n 1) as [->|H1].
  - pose proof (swap_remove_perm counts i _ Hi) as HX. split.
    + unfold positive in *. rewrite HX in HP. by inversion HP.
    + intros t. unfold get_count. rewrite (sum_of_perm _ _ _ HX), sum_of_cons. cbn. destruct (decide (shape = t)); lia.
  - split; [apply Forall_insert; [done|cbn; lia]|]. intros t. unfold get_count.
    pose proof (sum_of_insert (fun c => if decide (fst c = t) then snd c else 0%nat) counts i (shape, n) (shape, (n - 1)%nat) Hi) as HS. cbn in HS. destruct (decide (shape = t)); lia.
Qed.

(** One value of a shape at a path. *)
Definition one_at (path q : list Step) (shape t : Shape) : nat := if decide ((path, shape) = (q, t)) then 1%nat else 0%nat.
Definition store_counts (path : list Step) (counts : list (Shape * nat)) (self : Domains) : Domains :=
  match counts with [] => delete path self | _ => <[path := counts]> self end.
Lemma store_counts_spec path counts self : wf_domains self -> positive counts -> wf_domains (store_counts path counts self) /\
  forall q t, total (store_counts path counts self) q t = if decide (path = q) then get_count counts t else total self q t.
Proof.
  intros HW HP. assert (EL : forall q, default [] (store_counts path counts self !! q) = if decide (path = q) then counts else default [] (self !! q)).
  { intros q. unfold store_counts. destruct counts as [|c counts].
    - destruct (decide (path = q)) as [->|]; [by rewrite lookup_delete_eq|by rewrite lookup_delete_ne].
    - destruct (decide (path = q)) as [->|]; [by rewrite lookup_insert_eq|by rewrite lookup_insert_ne]. }
  split.
  - intros q x Ex. specialize (EL q). rewrite Ex in EL. cbn in EL. destruct (decide (path = q)) as [->|]; [by subst x|]. destruct (self !! q) as [y|] eqn:Ey; cbn in EL; subst x; [by apply (HW q)|constructor].
  - intros q t. unfold total. rewrite EL. by destruct (decide (path = q)).
Qed.
Lemma change_count_up path shape self self' : wf_domains self -> change_count true path shape self = Ok self' ->
  wf_domains self' /\ forall q t, total self' q t = (total self q t + one_at path q shape t)%nat.
Proof.
  unfold change_count. intros HW E. destruct (negb (compatible shape shape)); [done|]. destruct (existsb _ _); [done|].
  change (Ok (store_counts path (count_up shape (default [] (self !! path))) self) = Ok self' :> outcome ValueComparisonError Domains) in E. injection E as <-.
  assert (HP : positive (default [] (self !! path))) by (destruct (self !! path) as [x|] eqn:Ex; [by apply (HW path)|constructor]).
  destruct (count_up_spec shape _ HP) as [HP' HC]. destruct (store_counts_spec path _ self HW HP') as [HW' HT]. split; [done|]. intros q t. rewrite HT. unfold one_at.
  destruct (decide (path = q)) as [->|Hne]; [rewrite HC|rewrite decide_False by congruence; lia]. unfold total. destruct (decide (shape = t)) as [->|]; [by rewrite decide_True|by rewrite decide_False by congruence].
Qed.
Lemma change_count_down path shape self : wf_domains self -> compatible shape shape = true -> (0 < total self path shape)%nat ->
  exists self', change_count false path shape self = Ok self' /\ wf_domains self' /\ forall q t, (total self' q t + one_at path q shape t)%nat = total self q t.
Proof.
  intros HW Hc Ht. unfold change_count. rewrite Hc. cbn [negb].
  assert (HP : positive (default [] (self !! path))) by (destruct (self !! path) as [x|] eqn:Ex; [by apply (HW path)|constructor]).
  destruct (count_down_spec shape _ HP Ht) as (counts' & -> & HP' & HC). destruct (store_counts_spec path _ self HW HP') as [HW' HT]. exists (store_counts path counts' self). split; [done|]. split; [done|].
  intros q t. rewrite HT. unfold one_at. destruct (decide (path = q)) as [->|Hne]; [|rewrite decide_False by congruence; lia]. unfold total. rewrite <- HC.
  destruct (decide (shape = t)) as [->|]; [by rewrite decide_True|by rewrite decide_False by congruence].
Qed.
(** Shapes that are counted at one path compare. *)
Definition agree (self : Domains) : Prop := forall p s t, (0 < total self p s)%nat -> (0 < total self p t)%nat -> compatible s t = true.
Lemma counted counts c : positive counts -> c ∈ counts -> (0 < get_count counts (fst c))%nat.
Proof.
  intros HP Hc. apply list_elem_of_split in Hc as (l1 & l2 & ->). apply Forall_app in HP as [_ HP]. inversion HP as [|? ? Hp _]; subst. unfold get_count. rewrite sum_of_app, sum_of_cons, decide_True by done. lia.
Qed.
Lemma change_count_accepts path shape self : wf_domains self -> compatible shape shape = true -> (forall t, (0 < total self path t)%nat -> compatible t shape = true) ->
  exists self', change_count true path shape self = Ok self'.
Proof.
  intros HW Hs Ht. unfold change_count. rewrite Hs. cbn [negb]. destruct (existsb _ _) eqn:E; [|by eexists]. exfalso. apply existsb_exists in E as (c & Hc%list_elem_of_In & Hn%negb_true_iff).
  rewrite Ht in Hn; [done|]. unfold total. destruct (self !! path) as [counts|] eqn:Ep; [|by apply elem_of_nil in Hc]. by apply counted; [apply (HW path)|].
Qed.
Lemma change_count_agrees path shape self self' : (forall s t, compatible s t = compatible t s) -> wf_domains self -> agree self -> change_count true path shape self = Ok self' -> agree self'.
Proof.
  intros Hsym HW HA E. destruct (change_count_up _ _ _ _ HW E) as [_ HT]. unfold change_count in E. destruct (compatible shape shape) eqn:Hs; [|done]. cbn [negb] in E.
  destruct (existsb _ _) eqn:Ee; [done|]. assert (Hnew : forall t, (0 < total self path t)%nat -> compatible t shape = true).
  { intros t Ht. destruct (found_count t _ Ht) as (i & n & _ & Hi). destruct (compatible t shape) eqn:Ec; [done|]. rewrite <- Ee. apply existsb_exists. exists (t, n).
    split; [by apply list_elem_of_In, (list_elem_of_lookup_2 _ i)|]. cbn. by rewrite Ec. }
  intros p s t Hps Hpt. rewrite HT in Hps, Hpt. unfold one_at in *. destruct (decide ((path, shape) = (p, s))) as [E1|], (decide ((path, shape) = (p, t))) as [E2|]; simplify_eq; [done| | |].
  - rewrite Hsym. apply Hnew. lia.
  - apply Hnew. lia.
  - apply (HA p); lia.
Qed.
Lemma change_count_safe path shape self what : change_count true path shape self <> Err (Panic what).
Proof. unfold change_count. destruct (negb _); [done|]. by destruct (existsb _ _). Qed.

(** ** The shapes a value adds *)

Fixpoint run_counts (insert : bool) (l : list (list Step * Shape)) (self : Domains) : outcome ValueComparisonError Domains :=
  match l with
  | [] => Ok self
  | (path, shape) :: l => let? self := change_count insert path shape self in run_counts insert l self
  end.
Definition emission (f : bool -> Domains -> outcome ValueComparisonError Domains) (l : list (list Step * Shape)) : Prop :=
  (forall insert self, f insert self = run_counts insert l self) /\ Forall (fun x => compatible (snd x) (snd x) = true) l.
Definition occurrences (l : list (list Step * Shape)) (q : list Step) (t : Shape) : nat := sum_of (fun x => one_at (fst x) q (snd x) t) l.

Lemma run_counts_app insert l k self : run_counts insert (l ++ k) self = (let? self := run_counts insert l self in run_counts insert k self).
Proof. revert self. induction l as [|[p s] l IH]; intros self; [done|]. cbn. destruct (change_count insert p s self); [apply IH|done]. Qed.
Lemma emission_nil : emission (fun _ self => Ok self) [].
Proof. by split; [|constructor]. Qed.
Lemma emission_cons path shape f l : compatible shape shape = true -> emission f l ->
  emission (fun insert self => let? self := change_count insert path shape self in f insert self) ((path, shape) :: l).
Proof. intros Hc [Hf HF]. split; [|by constructor]. intros insert self. cbn. destruct (change_count insert path shape self); [apply Hf|done]. Qed.
Lemma emission_bind f l g k : emission f l -> emission g k -> emission (fun insert self => let? self := f insert self in g insert self) (l ++ k).
Proof. intros [Hf HF] [Hg HG]. split; [|by apply Forall_app]. intros insert self. rewrite Hf, run_counts_app. destruct (run_counts insert l self); [apply Hg|done]. Qed.
Lemma emission_ext f g l : (forall insert self, f insert self = g insert self) -> emission f l -> emission g l.
Proof. intros E [Hf HF]. split; [|done]. intros insert self. by rewrite <- E. Qed.

(** The values inside a value. *)
Definition children (value : Value) : list (Step * Value) :=
  match value with
  | Value.List values => imap (fun i v => (Position i, v)) values
  | Value.Record_ fields => map (fun f => (Field (fst f), snd f)) fields
  | _ => []
  end.
Fixpoint visit_all (insert : bool) (l : list (Step * Value)) (path : list Step) (depth : Z) (self : Domains) : outcome ValueComparisonError Domains :=
  match l with
  | [] => Ok self
  | (step, value) :: l => let? self := visit insert value (path ++ [step]) (depth + 1) self in visit_all insert l path depth self
  end.
Lemma visit_eq insert value path depth self : visit insert value path depth self =
  if MAX_STRUCTURAL_TYPE_DEPTH <? depth then Err (Fails TooDeep) else
  match value with Value.Null => Ok self | _ =>
    let? shape := lift (shape_of value) in let? self := change_count insert path shape self in visit_all insert (children value) path depth self end.
Proof.
  destruct value; cbn [visit children]; destruct (MAX_STRUCTURAL_TYPE_DEPTH <? depth); try done.
  - destruct (lift (shape_of (Value.List values))); [|done]. cbv beta iota. destruct (change_count insert path _ self) as [self'|]; [|done]. cbv beta iota.
    replace (imap (fun i v => (Position i, v)) values) with (imap (fun i v => (Position (0 + i), v)) values) by done. generalize 0%nat as k. revert self'.
    induction values as [|v values IH]; intros self' k; [done|]. rewrite imap_cons. cbn [visit_all]. rewrite Nat.add_0_r. destruct (visit insert v _ _ self') as [s|]; [|done]. cbv beta iota.
    rewrite (imap_ext _ (fun i v => (Position (S k + i), v))); [apply IH|]. intros i x _. cbn. by rewrite Nat.add_succ_r.
  - destruct (lift (shape_of (Value.Record_ fields))); [|done]. cbv beta iota. destruct (change_count insert path _ self) as [self'|]; [|done]. cbv beta iota. revert self'.
    induction fields as [|[n v] fields IH]; intros self'; [done|]. cbn [map fst snd visit_all]. destruct (visit insert v _ _ self') as [s|]; [|done]. apply IH.
Qed.

Lemma children_smaller value step v : (step, v) ∈ children value -> (value_size v < value_size value)%nat.
Proof.
  intros Hin. destruct value; cbn in Hin; try by apply elem_of_nil in Hin.
  - apply elem_of_lookup_imap in Hin as (i & y & E & Hy). injection E as -> ->. cbn. apply list_elem_of_lookup_2, list_elem_of_split in Hy as (l1 & l2 & ->). rewrite sum_of_app, sum_of_cons. lia.
  - apply list_elem_of_fmap in Hin as ([n w] & E & Hy). cbn in E. injection E as -> ->. cbn. apply list_elem_of_split in Hy as (l1 & l2 & ->). rewrite sum_of_app, sum_of_cons. cbn. lia.
Qed.
Lemma change_count_compatible insert path shape self self' : change_count insert path shape self = Ok self' -> compatible shape shape = true.
Proof. unfold change_count. by destruct (compatible shape shape). Qed.

(** The shapes of a value, at their paths. *)
Fixpoint shapes (value : Value) (path : list Step) : list (list Step * Shape) :=
  match value with
  | Value.Null => []
  | _ =>
      match shape_of value with
      | Err _ => []
      | Ok shape =>
          (path, shape) ::
          match value with
          | Value.List values =>
              (fix positions (position : nat) (values : list Value) :=
                 match values with [] => [] | value :: values => shapes value (path ++ [Position position]) ++ positions (S position) values end) 0%nat values
          | Value.Record_ fields =>
              (fix named (fields : list (bytes * Value)) :=
                 match fields with [] => [] | (name, value) :: fields => shapes value (path ++ [Field name]) ++ named fields end) fields
          | _ => []
          end
      end
  end.
Fixpoint all_shapes (l : list (Step * Value)) (path : list Step) : list (list Step * Shape) :=
  match l with [] => [] | (step, value) :: l => shapes value (path ++ [step]) ++ all_shapes l path end.
Lemma shapes_eq value path shape : value <> Value.Null -> shape_of value = Ok shape -> shapes value path = (path, shape) :: all_shapes (children value) path.
Proof.
  intros Hn Hs. destruct value; cbn [shapes children]; rewrite ?Hs; try done.
  - f_equal. replace (imap (fun i v => (Position i, v)) values) with (imap (fun i v => (Position (0 + i), v)) values) by done. generalize 0%nat as k. clear Hn Hs.
    induction values as [|v values IH]; intros k; [done|]. rewrite imap_cons. cbn [all_shapes]. rewrite Nat.add_0_r. f_equal.
    rewrite (imap_ext _ (fun i v => (Position (S k + i), v))); [apply IH|]. intros i x _. cbn. by rewrite Nat.add_succ_r.
  - f_equal. clear Hn Hs. induction fields as [|[n v] fields IH]; [done|]. cbn [map fst snd all_shapes]. by f_equal.
Qed.
Lemma visit_all_emission l path depth self self' :
  (forall step v, (step, v) ∈ l -> forall path depth self self', visit true v path depth self = Ok self' -> emission (fun insert => visit insert v path depth) (shapes v path)) ->
  visit_all true l path depth self = Ok self' -> emission (fun insert => visit_all insert l path depth) (all_shapes l path).
Proof.
  revert self. induction l as [|[step v] l IH]; intros self Hv E; [apply emission_nil|]. cbn in E. destruct (visit true v _ _ self) as [s1|] eqn:E1; [|done].
  apply emission_bind; [exact (Hv step v ltac:(by left) _ _ _ _ E1)|]. apply (IH s1); [|done]. intros st w Hw. apply (Hv st w). by right.
Qed.
Lemma visit_emission value path depth self self' : visit true value path depth self = Ok self' -> emission (fun insert => visit insert value path depth) (shapes value path).
Proof.
  remember (value_size value) as n eqn:En. revert value En path depth self self'. induction n as [n IH] using lt_wf_ind. intros value -> path depth self self' E.
  rewrite visit_eq in E. destruct (MAX_STRUCTURAL_TYPE_DEPTH <? depth) eqn:Ed; [done|].
  assert (Hv : value = Value.Null \/ exists shape self1, shape_of value = Ok shape /\ change_count true path shape self = Ok self1 /\ visit_all true (children value) path depth self1 = Ok self' /\ value <> Value.Null).
  { destruct (shape_of value) as [shape|] eqn:Es; cbn in E; [|destruct value; try done; by left].
    destruct (change_count true path shape self) as [self1|] eqn:E1; [|destruct value; try done; by left].
    destruct value; solve [by left|right; exists shape, self1; done]. }
  destruct Hv as [->|(shape & self1 & Es & E1 & E2 & Hne)].
  - split; [|constructor]. intros insert s. by rewrite visit_eq, Ed.
  - pose proof (visit_all_emission _ _ _ _ _ (fun step v Hin => IH (value_size v) (children_smaller value step v Hin) v eq_refl) E2) as Hk.
    rewrite (shapes_eq value path shape Hne Es). eapply emission_ext; [|apply emission_cons; [exact (change_count_compatible _ _ _ _ _ E1)|exact Hk]].
    intros insert s. cbv beta. rewrite visit_eq, Ed, Es. by destruct value.
Qed.
(** The shapes of a tuple of values. *)
Fixpoint values_shapes (component : nat) (values : list Value) : list (list Step * Shape) :=
  match values with [] => [] | value :: values => shapes value [Component component] ++ values_shapes (S component) values end.
Lemma domains_emission c values self self' : domains_change true c values self = Ok self' -> emission (fun insert => domains_change insert c values) (values_shapes c values).
Proof.
  revert c self. induction values as [|v values IH]; intros c self E; [apply emission_nil|]. cbn in E. destruct (visit true v _ _ self) as [s1|] eqn:E1; [|done].
  apply emission_bind; [exact (visit_emission _ _ _ _ _ E1)|exact (IH _ _ E)].
Qed.

Lemma occurs l p s : (0 < occurrences l p s)%nat <-> (p, s) ∈ l.
Proof.
  unfold occurrences, one_at. induction l as [|[q t] l IH]; [split; [cbn; lia|by intros ?%elem_of_nil]|]. rewrite sum_of_cons, elem_of_cons, <- IH. cbn.
  destruct (decide ((q, t) = (p, s))) as [->|Hne]; [split; [by left|lia]|]. cbn. split; [by right|]. intros [E|?]; [by destruct Hne|done].
Qed.
Lemma occurrences_cons p s l q t : occurrences ((p, s) :: l) q t = (one_at p q s t + occurrences l q t)%nat.
Proof. done. Qed.
Lemma run_counts_agrees l self self' : (forall s t, compatible s t = compatible t s) -> wf_domains self -> agree self -> run_counts true l self = Ok self' -> agree self'.
Proof.
  intros Hsym. revert self. induction l as [|[p s] l IH]; intros self HW HA E; cbn in E; [by injection E as <-|]. destruct (change_count true p s self) as [s1|] eqn:E1; [|done].
  apply (IH s1); [by apply (change_count_up _ _ _ _ HW E1)|by eapply change_count_agrees|done].
Qed.
Lemma run_counts_accepts l self : wf_domains self -> Forall (fun x => compatible (snd x) (snd x) = true) l ->
  (forall p s t, (p, s) ∈ l -> (p, t) ∈ l -> compatible t s = true) -> (forall p s t, (p, s) ∈ l -> (0 < total self p t)%nat -> compatible t s = true) ->
  exists self', run_counts true l self = Ok self'.
Proof.
  intros HW HF. revert self HW. induction HF as [|[p s] l Hc HF IH]; intros self HW Hl Ht; cbn [run_counts]; [by eexists|]. cbn [snd] in Hc.
  destruct (change_count_accepts p s self HW Hc) as [s1 E1]. { intros t. apply Ht. by left. }
  rewrite E1. cbv beta iota. destruct (change_count_up _ _ _ _ HW E1) as [HW1 HT1]. apply IH; [done| |].
  - intros q t u H1 H2. apply (Hl q); by right.
  - intros q t u H1 H2. rewrite HT1 in H2. unfold one_at in H2. destruct (decide ((p, s) = (q, u))) as [[= <- <-]|]; [apply (Hl p); [by right|by left]|]. apply (Ht q); [by right|lia].
Qed.
Lemma run_counts_up l self self' : wf_domains self -> run_counts true l self = Ok self' ->
  wf_domains self' /\ forall q t, total self' q t = (total self q t + occurrences l q t)%nat.
Proof.
  revert self. induction l as [|[p s] l IH]; intros self HW E; cbn in E.
  - injection E as <-. split; [done|]. intros q t. cbn. lia.
  - destruct (change_count true p s self) as [s1|] eqn:E1; [|done]. destruct (change_count_up _ _ _ _ HW E1) as [HW1 HT1]. destruct (IH _ HW1 E) as [HW' HT']. split; [done|].
    intros q t. rewrite HT', HT1. unfold occurrences. rewrite sum_of_cons. cbn. lia.
Qed.
Lemma run_counts_down l self : Forall (fun x => compatible (snd x) (snd x) = true) l -> wf_domains self -> (forall q t, (occurrences l q t <= total self q t)%nat) ->
  exists self', run_counts false l self = Ok self' /\ wf_domains self' /\ forall q t, (total self' q t + occurrences l q t)%nat = total self q t.
Proof.
  intros HF. revert self. induction HF as [|[p s] l Hc HF IH]; intros self HW HO; cbn [run_counts].
  - cbn. exists self. split; [done|]. split; [done|]. intros q t. lia.
  - setoid_rewrite occurrences_cons in HO. setoid_rewrite occurrences_cons. cbn [snd] in Hc.
    destruct (change_count_down p s self HW Hc) as (s1 & -> & HW1 & HT1). { specialize (HO p s). unfold one_at in HO at 1. rewrite decide_True in HO by done. lia. }
    destruct (IH s1 HW1) as (s2 & -> & HW2 & HT2). { intros q t. specialize (HO q t). specialize (HT1 q t). lia. }
    exists s2. split; [done|]. split; [done|]. intros q t. specialize (HT1 q t). specialize (HT2 q t). lia.
Qed.
Lemma visit_safe value path depth self what : visit true value path depth self <> Err (Panic what).
Proof.
  remember (value_size value) as n eqn:En. revert value En path depth self. induction n as [n IH] using lt_wf_ind. intros value -> path depth self E.
  rewrite visit_eq in E. destruct (MAX_STRUCTURAL_TYPE_DEPTH <? depth); [done|].
  assert (Hc : forall l self, (forall step v, (step, v) ∈ l -> (value_size v < value_size value)%nat) -> visit_all true l path depth self <> Err (Panic what)).
  { induction l as [|[step v] l IHl]; intros self1 Hl El; [done|]. cbn in El. destruct (visit true v _ _ self1) as [s|f] eqn:E1.
    - by apply (IHl s) in El; [|intros st w Hw; apply (Hl st w); right].
    - injection El as ->. by apply (IH (value_size v) (Hl step v ltac:(by left)) v eq_refl) in E1. }
  destruct (shape_of value) as [shape|] eqn:Es; cbn in E; [|by destruct value].
  destruct (change_count true path shape self) as [s1|f] eqn:E1.
  - specialize (Hc (children value) s1 (children_smaller value)). by destruct value.
  - assert (f <> Panic what) by (intros ->; by apply change_count_safe in E1). destruct value; naive_solver.
Qed.
Lemma domains_safe c values self what : domains_change true c values self <> Err (Panic what).
Proof.
  revert c self. induction values as [|v values IH]; intros c self E; [done|]. cbn in E. destruct (visit true v _ _ self) as [s1|f] eqn:E1; [by apply IH in E|]. injection E as ->. by apply visit_safe in E1.
Qed.
End Counts.

(** ** One rule *)

Section Rules.
Context `{L : Leaves} {GE : GraphEnv} {TO : TypeOps} {CO : Comparison} {LE : LegacyEvents}.

(** The elements an index holds, with their values. *)
Abbreviation Members := (gmap EntityId (list Value)).
Definition observable (values : list Value) : Prop := emission (fun insert => domains_change insert 0 values) (values_shapes 0 values).
Record rule_inv (r : RuleIndex) (M : Members) : Prop := {
  ri_wf : wf_domains (ri_domains r);
  ri_agree : (forall s t, compatible s t = compatible t s) -> agree (ri_domains r);
  ri_counts : forall q t, total (ri_domains r) q t = sum_of (fun x => occurrences (values_shapes 0 (snd x)) q t) (map_to_list M);
  ri_members : forall e vs, M !! e = Some vs -> observable vs /\ exists t, tuple_of vs = Ok t /\ ri_entries r !! t = Some e;
  ri_owners : forall t e, ri_entries r !! t = Some e -> exists vs, M !! e = Some vs /\ tuple_of vs = Ok t
}.
Definition same_rule (r r' : RuleIndex) : Prop := ri_rule r' = ri_rule r /\ ri_properties r' = ri_properties r.

Lemma new_index_inv rule : rule_inv (new_index rule) ∅.
Proof. split; [intros q x; cbn; by rewrite lookup_empty|intros _ p s t Hs; exfalso; clear -Hs; unfold total in Hs; cbn [new_index ri_domains] in Hs; rewrite lookup_empty in Hs; cbn in Hs; lia|done|done|]. intros t e. cbn. by rewrite lookup_empty. Qed.
(** A shape is counted when a member has it. *)
Lemma counted_member r M p s : rule_inv r M -> (0 < total (ri_domains r) p s)%nat <-> exists e vs, M !! e = Some vs /\ (p, s) ∈ values_shapes 0 vs.
Proof.
  intros [_ _ HC _ _]. rewrite HC. split.
  - intros Hs. assert (HX : exists x, x ∈ map_to_list M /\ (p, s) ∈ values_shapes 0 (snd x)).
    { clear HC. induction (map_to_list M) as [|x l IH]; [cbn in Hs; lia|]. rewrite sum_of_cons in Hs. cbv beta in Hs. destruct (decide (0 < occurrences (values_shapes 0 (snd x)) p s)%nat) as [Hx%occurs|Hx]; [exists x; split; [by left|done]|].
      destruct IH as (y & Hy & ?); [lia|]. exists y. split; [by right|done]. }
    destruct HX as ([e vs] & Hx%elem_of_map_to_list & ?). by exists e, vs.
  - intros (e & vs & He%elem_of_map_to_list & Hin%occurs). apply list_elem_of_split in He as (l1 & l2 & ->). rewrite sum_of_app, sum_of_cons. cbn [snd]. lia.
Qed.
Lemma compares_safe {A} r e d (x : outcome ValueComparisonError A) : ri_properties r <> [] -> (forall what, x <> Err (Panic what)) ->
  match compares r e d x with Ok a => x = Ok a | Err (Panic _) => False | Err (Fails _) => True end.
Proof. intros Hp Hx. unfold compares, first_property. destruct x as [a|[what|src]]; [done|by destruct (Hx what)|]. by destruct (ri_properties r). Qed.

Lemma rule_insert r M e d props : rule_inv r M -> M !! e = None -> ri_properties r <> [] ->
  match rule_change props e d true r with
  | Ok r' => exists M', rule_inv r' M' /\ rule_values (ri_rule r) e d (ri_properties r) props = Ok (M' !! e) /\ (forall e', e' <> e -> M' !! e' = M !! e') /\ same_rule r r'
  | Err (Panic _) => False
  | Err (Fails _) => True
  end.
Proof.
  intros [HW HA HC HM HO] He Hp. unfold rule_change. destruct (rule_values (ri_rule r) e d (ri_properties r) props) as [[vs|]|v]; cbn [lift map_err]; [|by exists M; rewrite He|done].
  pose proof (compares_safe r e d (lift (tuple_of vs)) Hp ltac:(by destruct (tuple_of vs))) as Ht. destruct (compares r e d (lift (tuple_of vs))) as [t|[]]; [|done|done].
  pose proof (compares_safe r e d (domains_change true 0 vs (ri_domains r)) Hp (fun what => domains_safe 0 vs _ what)) as Hd.
  destruct (compares r e d (domains_change true 0 vs (ri_domains r))) as [D|[]]; [|done|done]. cbv beta iota.
  assert (Et : tuple_of vs = Ok t) by (by destruct (tuple_of vs); cbn in Ht; congruence). destruct (ri_entries r !! t) as [c|] eqn:Ec.
  { unfold first_property. by destruct (ri_properties r). }
  pose proof (domains_emission _ _ _ _ Hd) as Hl. pose proof Hd as Hd'. rewrite (proj1 Hl true) in Hd'. destruct (run_counts_up _ _ _ HW Hd') as [HW' HT'].
  exists (<[e := vs]> M). split; [|split; [by rewrite lookup_insert_eq|split; [intros e' Hne; by rewrite lookup_insert_ne|done]]]. split; cbn [ri_domains ri_entries].
  - done.
  - intros Hsym. exact (run_counts_agrees _ _ _ Hsym HW (HA Hsym) Hd').
  - intros q s. rewrite HT', HC, (sum_of_perm _ _ _ (map_to_list_insert M e vs He)), sum_of_cons. cbn [snd]. lia.
  - intros e' vs' [[<- <-]|[Hne E]]%lookup_insert_Some.
    + split; [done|]. exists t. by rewrite lookup_insert_eq.
    + destruct (HM _ _ E) as [He' (t' & Ht' & Hr')]. split; [done|]. exists t'. split; [done|]. rewrite lookup_insert_ne by congruence. done.
  - intros t' e' [[<- <-]|[Hne E]]%lookup_insert_Some; [exists vs; by rewrite lookup_insert_eq|]. destruct (HO _ _ E) as (vs' & HM' & Ht'). exists vs'. rewrite lookup_insert_ne by congruence. done.
Qed.
(** A tuple is accepted when it is new and its shapes compare with those counted. *)
Lemma rule_insert_accepts r M e d props vs t : rule_inv r M -> rule_values (ri_rule r) e d (ri_properties r) props = Ok (Some vs) ->
  observable vs -> tuple_of vs = Ok t -> (forall e' vs', M !! e' = Some vs' -> tuple_of vs' <> Ok t) ->
  (forall p s u, (p, s) ∈ values_shapes 0 vs -> (p, u) ∈ values_shapes 0 vs -> compatible u s = true) ->
  (forall e' vs' p s u, M !! e' = Some vs' -> (p, s) ∈ values_shapes 0 vs -> (p, u) ∈ values_shapes 0 vs' -> compatible u s = true) ->
  exists r', rule_change props e d true r = Ok r'.
Proof.
  intros HR Ev [Ho HF] Ht Hnew Hself Hother. unfold rule_change. rewrite Ev. cbn [lift map_err]. rewrite Ht. cbn [lift map_err compares]. rewrite Ho.
  destruct (run_counts_accepts (values_shapes 0 vs) (ri_domains r) (ri_wf _ _ HR) HF Hself) as [D ->].
  { intros p s u Hp (e' & vs' & He' & Hu)%(counted_member r M p u HR). by apply (Hother e' vs' p). }
  cbn [compares]. destruct (ri_entries r !! t) as [c|] eqn:Ec; [|by eexists]. destruct (ri_owners _ _ HR t c Ec) as (vs' & HM' & Ht'). by destruct (Hnew c vs').
Qed.
Lemma rule_remove r M e d props : rule_inv r M -> rule_values (ri_rule r) e d (ri_properties r) props = Ok (M !! e) ->
  exists r', rule_change props e d false r = Ok r' /\ rule_inv r' (delete e M) /\ same_rule r r'.
Proof.
  intros HR Ev. pose proof HR as [HW HA HC HM HO]. unfold rule_change. rewrite Ev. destruct (M !! e) as [vs|] eqn:Em; cbn [lift map_err].
  2:{ exists r. rewrite delete_id by done. done. }
  destruct (HM _ _ Em) as [Hl (t & Ht & Et)]. rewrite Ht. cbn [lift map_err compares].
  pose proof (map_to_list_delete M e vs Em) as HP. symmetry in HP.
  destruct (run_counts_down (values_shapes 0 vs) (ri_domains r) (proj2 Hl) HW) as (D & ED & HW' & HT'). { intros q s. rewrite HC, (sum_of_perm _ _ _ HP), sum_of_cons. cbn [snd]. lia. }
  rewrite (proj1 Hl false), ED. cbn [compares]. eexists. split; [done|]. split; [|done]. split; cbn [ri_domains ri_entries].
  - done.
  - intros Hsym p s u Hs Hu. apply (HA Hsym p); [specialize (HT' p s)|specialize (HT' p u)]; lia.
  - intros q s. specialize (HT' q s). rewrite HC, (sum_of_perm _ _ _ HP), sum_of_cons in HT'. cbn [snd] in HT'. lia.
  - intros e' vs' [Hne E]%lookup_delete_Some. destruct (HM _ _ E) as [He' (t' & Ht' & Hr')]. split; [done|]. exists t'. split; [done|]. rewrite lookup_delete_ne by congruence. done.
  - intros t' e' [Hne E]%lookup_delete_Some. destruct (HO _ _ E) as (vs' & HM' & Ht'). exists vs'. rewrite lookup_delete_ne; [done|]. intros ->. congruence.
Qed.
End Rules.
