(* ===== verification/GraphApply.v ===== *)
(** Replay of logical changes on a graph (selene-graph,
    logical_transaction/graph_apply/changes.rs), and what it means: [apply]
    works on the columns of a graph, [spec_apply] on finite maps from identities
    to nodes and edges. *)

From stdpp Require Import sorting.
From S2P Require Import Prelude Errors Wire Value Ordered LabelSet PropertyMap GraphDelta Columns GraphTypes Store.

Abbreviation E_Admission := CodecError.Admission.

(** [SchemaChange::validate_stored_values], of a payload that is refused in any case. *)
Class LegacyChecks `{Leaves} `{LegacyEvents} := {
  schema_change_validate : SchemaChange -> result CoreError unit
}.

Section Apply.
Context `{LegacyChecks} `{GraphEnv}.

(** [Change::validate_stored_values] (selene-core, changeset/stored.rs). *)
Definition change_validate (change : Change) : result CoreError unit :=
  match change with
  | NodeCreated _ _ properties | EdgeCreated _ _ _ _ _ properties => pm_validate properties
  | NodeUpdated _ _ diff | EdgeUpdated _ diff => validate_all (map snd (pd_set diff))
  | SchemaChanged _ change => schema_change_validate change
  | _ => Ok tt
  end.

(** [row_number]. *)
Definition row_number (index : nat) : result CodecError Z :=
  refuse negb (Z.of_nat index <? u32_max) with E_Limit;
  Ok (Z.of_nat index).

(** [node] and [edge]. *)
Definition node (graph : SeleneGraph) (id : Z) : result CodecError Z :=
  ok_or (node_rows graph !! id ≫= fun row => if ns_is_alive_row row (node_store graph) then Some row else None) E_Semantic.
Definition edge (graph : SeleneGraph) (id : Z) : result CodecError Z :=
  ok_or (edge_rows graph !! id ≫= fun row => if es_is_alive_row row (edge_store graph) then Some row else None) E_Semantic.

(** [NodeStore] with other label and property columns. *)
Definition write_node {E} (row : Z) (labels : LabelSet.t) (properties : PropertyMap) (graph : SeleneGraph) : outcome E SeleneGraph :=
  let s := node_store graph in
  let? l := cv_set (index_of row) labels (ns_labels s) in
  let? p := cv_set (index_of row) properties (ns_properties s) in
  Ok (set_nodes {| ns_labels := l; ns_properties := p; ns_row_to_id := ns_row_to_id s; ns_alive := ns_alive s |} (node_rows graph) graph).
Definition write_edge_properties {E} (row : Z) (properties : PropertyMap) (graph : SeleneGraph) : outcome E SeleneGraph :=
  let s := edge_store graph in
  let? p := cv_set (index_of row) properties (es_properties s) in
  Ok (set_edges {| es_directionality := es_directionality s; es_label := es_label s; es_source := es_source s; es_target := es_target s;
                   es_properties := p; es_row_to_id := es_row_to_id s; es_alive := es_alive s |} (edge_rows graph) graph).

(** [clear_node] and [clear_edge]. *)
Definition clear_node {E} (graph : SeleneGraph) (row : Z) : outcome E SeleneGraph :=
  let s := node_store graph in
  write_node row LabelSet.new pm_new
    (set_nodes {| ns_labels := ns_labels s; ns_properties := ns_properties s; ns_row_to_id := ns_row_to_id s; ns_alive := ns_alive s ∖ {[row]} |}
       (node_rows graph) graph).
Definition clear_edge {E} (graph : SeleneGraph) (row : Z) : outcome E SeleneGraph :=
  let s := edge_store graph in
  let? l := cv_set (index_of row) [] (es_label s) in
  let? a := cv_set (index_of row) TOMBSTONE (es_source s) in
  let? b := cv_set (index_of row) TOMBSTONE (es_target s) in
  let? p := cv_set (index_of row) pm_new (es_properties s) in
  Ok (set_edges {| es_directionality := es_directionality s; es_label := l; es_source := a; es_target := b;
                   es_properties := p; es_row_to_id := es_row_to_id s; es_alive := es_alive s ∖ {[row]} |} (edge_rows graph) graph).

(** [for (name, value) in &diff.set { properties.set(..)? }]. *)
Fixpoint set_all (entries : list (bytes * Value)) (properties : PropertyMap) : result CoreError PropertyMap :=
  match entries with
  | [] => Ok properties
  | (name, value) :: entries => let? properties := pm_set name value properties in set_all entries properties
  end.
Definition remove_all (names : list bytes) (properties : PropertyMap) : PropertyMap :=
  foldl (fun properties name => snd (pm_remove name properties)) properties names.
(** [patch]. *)
Definition patch (properties : option PropertyMap) (diff : PropertyDiff) : result CodecError PropertyMap :=
  let? properties := ok_or properties E_Semantic in
  let? properties := map_err (fun _ => E_Semantic) (set_all (pd_set diff) properties) in
  Ok (remove_all (pd_removed diff) properties).
(** The labels after a diff. *)
Definition patch_labels (labels : LabelSet.t) (diff : LabelDiff) : LabelSet.t :=
  foldl (fun labels label => snd (LabelSet.remove label labels))
    (foldl (fun labels label => snd (LabelSet.insert label labels)) labels (ld_added diff)) (ld_removed diff).

(** A [for] loop over row indexes. *)
Fixpoint each_index {E S} (body : nat -> S -> outcome E S) (indexes : list nat) (s : S) : outcome E S :=
  match indexes with
  | [] => Ok s
  | index :: indexes => let? s := body index s in each_index body indexes s
  end.

(** The bodies of the loops of [NodesOfTypeTruncated], [EdgesOfTypeTruncated] and [GraphReset]. *)
Definition truncate_node (label : bytes) (index : nat) (s : gset Z * SeleneGraph) : outcome CodecError (gset Z * SeleneGraph) :=
  let '(truncated, graph) := s in
  let? row := lift (row_number index) in
  if ns_is_alive_row row (node_store graph) &&
     match cv_get index (ns_labels (node_store graph)) with Some labels => LabelSet.contains label labels | None => false end
  then
    let? id := lift (ok_or (cv_get index (ns_row_to_id (node_store graph))) E_Semantic) in
    let? graph := clear_node graph row in
    Ok ({[id]} ∪ truncated, graph)
  else Ok (truncated, graph).
Definition truncate_incident (truncated : gset Z) (index : nat) (graph : SeleneGraph) : outcome CodecError SeleneGraph :=
  let? row := lift (row_number index) in
  if es_is_alive_row row (edge_store graph) then
    let? source := lift (ok_or (cv_get index (es_source (edge_store graph))) E_Semantic) in
    let? target := lift (ok_or (cv_get index (es_target (edge_store graph))) E_Semantic) in
    if bool_decide (source ∈ truncated) || bool_decide (target ∈ truncated) then clear_edge graph row else Ok graph
  else Ok graph.
Definition truncate_edge (label : bytes) (index : nat) (graph : SeleneGraph) : outcome CodecError SeleneGraph :=
  let? row := lift (row_number index) in
  if es_is_alive_row row (edge_store graph) && bool_decide (cv_get index (es_label (edge_store graph)) = Some label)
  then clear_edge graph row else Ok graph.
Definition reset_node (index : nat) (graph : SeleneGraph) : outcome CodecError SeleneGraph :=
  let? row := lift (row_number index) in clear_node graph row.
Definition reset_edge (index : nat) (graph : SeleneGraph) : outcome CodecError SeleneGraph :=
  let? row := lift (row_number index) in clear_edge graph row.

(** [apply]. *)
Definition apply (graph : SeleneGraph) (change : Change) : outcome CodecError SeleneGraph :=
  let? _ := lift (map_err (fun _ => E_Semantic) (change_validate change)) in
  match change with
  | NodeCreated id labels properties =>
      refuse (id =? TOMBSTONE) || bool_decide (is_Some (node_rows graph !! id)) with Fails (E_Admission "reused node identity");
      let s := node_store graph in
      let? row := lift (row_number (ns_len s)) in
      Ok (set_nodes {| ns_labels := cv_push labels (ns_labels s); ns_properties := cv_push properties (ns_properties s);
                       ns_row_to_id := cv_push id (ns_row_to_id s); ns_alive := {[row]} ∪ ns_alive s |}
            (<[id := row]> (node_rows graph)) graph)
  | EdgeCreated id directionality label source target properties =>
      let? _ := lift (node graph source) in
      let? _ := lift (node graph target) in
      refuse (id =? TOMBSTONE) || bool_decide (is_Some (edge_rows graph !! id)) ||
        negb (bool_decide (EdgeDirectionality.canonical_endpoints directionality source target = (source, target)))
        with Fails (E_Admission "edge identity or endpoints");
      let s := edge_store graph in
      let? row := lift (row_number (es_len s)) in
      Ok (set_edges {| es_directionality := cv_push directionality (es_directionality s); es_label := cv_push label (es_label s);
                       es_source := cv_push source (es_source s); es_target := cv_push target (es_target s);
                       es_properties := cv_push properties (es_properties s); es_row_to_id := cv_push id (es_row_to_id s);
                       es_alive := {[row]} ∪ es_alive s |} (<[id := row]> (edge_rows graph)) graph)
  | NodeUpdated id labels_diff properties_diff =>
      let? row := lift (node graph id) in
      let? labels := lift (ok_or (cv_get (index_of row) (ns_labels (node_store graph))) E_Semantic) in
      let labels := patch_labels labels labels_diff in
      let? properties := lift (patch (cv_get (index_of row) (ns_properties (node_store graph))) properties_diff) in
      write_node row labels properties graph
  | EdgeUpdated id properties_diff =>
      let? row := lift (edge graph id) in
      let? properties := lift (patch (cv_get (index_of row) (es_properties (edge_store graph))) properties_diff) in
      write_edge_properties row properties graph
  | NodeDeleted id => let? row := lift (node graph id) in clear_node graph row
  | EdgeDeleted id => let? row := lift (edge graph id) in clear_edge graph row
  | NodePropertyRemoved id property =>
      let? row := lift (node graph id) in
      let? properties := lift (ok_or (cv_get (index_of row) (ns_properties (node_store graph))) E_Semantic) in
      let s := node_store graph in
      let? p := cv_set (index_of row) (snd (pm_remove property properties)) (ns_properties s) in
      Ok (set_nodes {| ns_labels := ns_labels s; ns_properties := p; ns_row_to_id := ns_row_to_id s; ns_alive := ns_alive s |} (node_rows graph) graph)
  | EdgePropertyRemoved id property =>
      let? row := lift (edge graph id) in
      let? properties := lift (ok_or (cv_get (index_of row) (es_properties (edge_store graph))) E_Semantic) in
      write_edge_properties row (snd (pm_remove property properties)) graph
  | NodeLabelRemoved id label =>
      let? row := lift (node graph id) in
      let? labels := lift (ok_or (cv_get (index_of row) (ns_labels (node_store graph))) E_Semantic) in
      let s := node_store graph in
      let? l := cv_set (index_of row) (snd (LabelSet.remove label labels)) (ns_labels s) in
      Ok (set_nodes {| ns_labels := l; ns_properties := ns_properties s; ns_row_to_id := ns_row_to_id s; ns_alive := ns_alive s |} (node_rows graph) graph)
  | NodesOfTypeTruncated label =>
      let? state := each_index (truncate_node label) (seq 0 (ns_len (node_store graph))) (∅, graph) in
      let '(truncated, graph) := state in
      each_index (truncate_incident truncated) (seq 0 (es_len (edge_store graph))) graph
  | EdgesOfTypeTruncated label => each_index (truncate_edge label) (seq 0 (es_len (edge_store graph))) graph
  | GraphReset =>
      let? graph := each_index reset_node (seq 0 (ns_len (node_store graph))) graph in
      each_index reset_edge (seq 0 (es_len (edge_store graph))) graph
  | SchemaChanged _ _ => Err (Fails (E_Invalid "legacy schema event"))
  end.

(** ** Logical graphs *)

Record Node := { n_labels : LabelSet.t; n_properties : PropertyMap }.
Record Edge := {
  e_directionality : EdgeDirectionality;
  e_label : bytes;
  e_source : Z;
  e_target : Z;
  e_properties : PropertyMap
}.
(** The nodes and edges by identity, and the identities that were ever bound. *)
Record LogicalGraph := { lg_nodes : gmap Z Node; lg_edges : gmap Z Edge; lg_node_ids : gset Z; lg_edge_ids : gset Z }.

Definition with_nodes (nodes : gmap Z Node) (g : LogicalGraph) : LogicalGraph :=
  {| lg_nodes := nodes; lg_edges := lg_edges g; lg_node_ids := lg_node_ids g; lg_edge_ids := lg_edge_ids g |}.
Definition with_edges (edges : gmap Z Edge) (g : LogicalGraph) : LogicalGraph :=
  {| lg_nodes := lg_nodes g; lg_edges := edges; lg_node_ids := lg_node_ids g; lg_edge_ids := lg_edge_ids g |}.
Definition with_edge_properties (properties : PropertyMap) (e : Edge) : Edge :=
  {| e_directionality := e_directionality e; e_label := e_label e; e_source := e_source e; e_target := e_target e; e_properties := properties |}.
Definition has_label (label : bytes) (n : Node) : bool := LabelSet.contains label (n_labels n).

(** The meaning of a change. *)
Definition spec_apply (g : LogicalGraph) (change : Change) : result CodecError LogicalGraph :=
  let? _ := map_err (fun _ => E_Semantic) (change_validate change) in
  match change with
  | NodeCreated id labels properties =>
      refuse (id =? TOMBSTONE) || bool_decide (id ∈ lg_node_ids g) with E_Admission "reused node identity";
      let? _ := row_number (size (lg_node_ids g)) in
      Ok {| lg_nodes := <[id := {| n_labels := labels; n_properties := properties |}]> (lg_nodes g); lg_edges := lg_edges g;
            lg_node_ids := {[id]} ∪ lg_node_ids g; lg_edge_ids := lg_edge_ids g |}
  | EdgeCreated id directionality label source target properties =>
      refuse negb (bool_decide (is_Some (lg_nodes g !! source)) && bool_decide (is_Some (lg_nodes g !! target))) with E_Semantic;
      refuse (id =? TOMBSTONE) || bool_decide (id ∈ lg_edge_ids g) ||
        negb (bool_decide (EdgeDirectionality.canonical_endpoints directionality source target = (source, target)))
        with E_Admission "edge identity or endpoints";
      let? _ := row_number (size (lg_edge_ids g)) in
      Ok {| lg_nodes := lg_nodes g; lg_node_ids := lg_node_ids g; lg_edge_ids := {[id]} ∪ lg_edge_ids g;
            lg_edges := <[id := {| e_directionality := directionality; e_label := label; e_source := source; e_target := target;
                                   e_properties := properties |}]> (lg_edges g) |}
  | NodeUpdated id labels_diff properties_diff =>
      let? n := ok_or (lg_nodes g !! id) E_Semantic in
      let? properties := patch (Some (n_properties n)) properties_diff in
      Ok (with_nodes (<[id := {| n_labels := patch_labels (n_labels n) labels_diff; n_properties := properties |}]> (lg_nodes g)) g)
  | EdgeUpdated id properties_diff =>
      let? e := ok_or (lg_edges g !! id) E_Semantic in
      let? properties := patch (Some (e_properties e)) properties_diff in
      Ok (with_edges (<[id := with_edge_properties properties e]> (lg_edges g)) g)
  | NodeDeleted id => let? _ := ok_or (lg_nodes g !! id) E_Semantic in Ok (with_nodes (delete id (lg_nodes g)) g)
  | EdgeDeleted id => let? _ := ok_or (lg_edges g !! id) E_Semantic in Ok (with_edges (delete id (lg_edges g)) g)
  | NodePropertyRemoved id property =>
      let? n := ok_or (lg_nodes g !! id) E_Semantic in
      Ok (with_nodes (<[id := {| n_labels := n_labels n; n_properties := snd (pm_remove property (n_properties n)) |}]> (lg_nodes g)) g)
  | EdgePropertyRemoved id property =>
      let? e := ok_or (lg_edges g !! id) E_Semantic in
      Ok (with_edges (<[id := with_edge_properties (snd (pm_remove property (e_properties e))) e]> (lg_edges g)) g)
  | NodeLabelRemoved id label =>
      let? n := ok_or (lg_nodes g !! id) E_Semantic in
      Ok (with_nodes (<[id := {| n_labels := snd (LabelSet.remove label (n_labels n)); n_properties := n_properties n |}]> (lg_nodes g)) g)
  | NodesOfTypeTruncated label =>
      let truncated id := match lg_nodes g !! id with Some n => has_label label n | None => false end in
      Ok {| lg_nodes := filter (fun '(_, n) => has_label label n = false) (lg_nodes g);
            lg_edges := filter (fun '(_, e) => truncated (e_source e) || truncated (e_target e) = false) (lg_edges g);
            lg_node_ids := lg_node_ids g; lg_edge_ids := lg_edge_ids g |}
  | EdgesOfTypeTruncated label => Ok (with_edges (filter (fun '(_, e) => e_label e <> label) (lg_edges g)) g)
  | GraphReset => Ok {| lg_nodes := ∅; lg_edges := ∅; lg_node_ids := lg_node_ids g; lg_edge_ids := lg_edge_ids g |}
  | SchemaChanged _ _ => Err (E_Invalid "legacy schema event")
  end.
Fixpoint spec_apply_all (g : LogicalGraph) (changes : list Change) : result CodecError LogicalGraph :=
  match changes with
  | [] => Ok g
  | change :: changes => let? g := spec_apply g change in spec_apply_all g changes
  end.

(** The logical graph of a snapshot. *)
Definition node_at (s : NodeStore) (row : Z) : option Node :=
  if ns_is_alive_row row s then
    cv_get (index_of row) (ns_labels s) ≫= fun labels =>
    cv_get (index_of row) (ns_properties s) ≫= fun properties => Some {| n_labels := labels; n_properties := properties |}
  else None.
Definition edge_at (s : EdgeStore) (row : Z) : option Edge :=
  if es_is_alive_row row s then
    cv_get (index_of row) (es_directionality s) ≫= fun directionality =>
    cv_get (index_of row) (es_label s) ≫= fun label =>
    cv_get (index_of row) (es_source s) ≫= fun source =>
    cv_get (index_of row) (es_target s) ≫= fun target =>
    cv_get (index_of row) (es_properties s) ≫= fun properties =>
    Some {| e_directionality := directionality; e_label := label; e_source := source; e_target := target; e_properties := properties |}
  else None.
Definition logical (g : SeleneGraph) : LogicalGraph := {|
  lg_nodes := omap (node_at (node_store g)) (node_rows g);
  lg_edges := omap (edge_at (edge_store g)) (edge_rows g);
  lg_node_ids := dom (node_rows g);
  lg_edge_ids := dom (edge_rows g)
|}.
End Apply.
