(* ===== verification/GraphApplyProps.v ===== *)
(** Replay on columns implements the meaning of changes on finite maps. *)

From stdpp Require Import sorting.
From S2P Require Import Prelude Errors Wire Value Ordered LabelSet PropertyMap GraphDelta Columns GraphTypes Store GraphApply.

(** ** Maps through rows *)

Lemma omap_write {A} (f f' : Z -> option A) (rows : gmap Z Z) id row v :
  rows !! id = Some row -> (forall id', rows !! id' = Some row -> id' = id) -> (forall r, f' r = if decide (r = row) then v else f r) ->
  omap f' rows = partial_alter (fun _ => v) id (omap f rows).
Proof.
  intros Hr Hinj Hf. apply map_eq. intros i. rewrite lookup_omap. destruct (decide (i = id)) as [->|Hne].
  - rewrite lookup_partial_alter_eq, Hr. cbn. rewrite Hf. by rewrite decide_True.
  - rewrite lookup_partial_alter_ne, lookup_omap by done. destruct (rows !! i) as [r|] eqn:E; [|done]. cbn. rewrite Hf.
    rewrite decide_False; [done|]. intros ->. apply Hne. by apply Hinj.
Qed.

Lemma omap_insert_fresh {A} (f f' : Z -> option A) (rows : gmap Z Z) id row v :
  (forall id' r, rows !! id' = Some r -> f' r = f r) -> f' row = Some v -> omap f' (<[id := row]> rows) = <[id := v]> (omap f rows).
Proof.
  intros Hf Hr. apply map_eq. intros i. rewrite lookup_omap. destruct (decide (i = id)) as [->|Hne].
  - by rewrite !lookup_insert_eq.
  - rewrite !lookup_insert_ne, lookup_omap by done. destruct (rows !! i) as [r|] eqn:E; [|done]. cbn. by eapply Hf.
Qed.

Section Refinement.
Context `{LegacyChecks} `{GraphEnv}.

(** ** Well-formed columns *)

(** Every identity is bound to its row and back, and only existing rows are alive. *)
Record bound_rows (len : nat) (ids : ChunkedVec Z) (alive : gset Z) (rows : gmap Z Z) : Prop := {
  br_wf : cv_wf ids;
  br_len : cv_len ids = len;
  br_limit : Z.of_nat len <= u32_max;
  br_rows : forall id row, rows !! id = Some row <-> 0 <= row /\ cv_iter ids !! index_of row = Some id;
  br_alive : forall row, row ∈ alive -> 0 <= row < Z.of_nat len;
  br_nonzero : forall id, is_Some (rows !! id) -> id <> TOMBSTONE;
  br_size : size rows = len
}.
Record nodes_ok (s : NodeStore) (rows : gmap Z Z) : Prop := {
  no_labels : cv_wf (ns_labels s);
  no_properties : cv_wf (ns_properties s) /\ cv_len (ns_properties s) = ns_len s;
  no_rows : bound_rows (ns_len s) (ns_row_to_id s) (ns_alive s) rows
}.
Record edges_ok (s : EdgeStore) (rows : gmap Z Z) : Prop := {
  eo_directionality : cv_wf (es_directionality s) /\ cv_len (es_directionality s) = es_len s;
  eo_label : cv_wf (es_label s);
  eo_source : cv_wf (es_source s) /\ cv_len (es_source s) = es_len s;
  eo_target : cv_wf (es_target s) /\ cv_len (es_target s) = es_len s;
  eo_properties : cv_wf (es_properties s) /\ cv_len (es_properties s) = es_len s;
  eo_rows : bound_rows (es_len s) (es_row_to_id s) (es_alive s) rows
}.
Definition columns_ok (g : SeleneGraph) : Prop := nodes_ok (node_store g) (node_rows g) /\ edges_ok (edge_store g) (edge_rows g).

Section Rows.
Context {len ids alive rows} (B : bound_rows len ids alive rows).

Lemma row_range id row : rows !! id = Some row -> 0 <= row < Z.of_nat len.
Proof.
  intros [Hr Hl]%(br_rows _ _ _ _ B). apply lookup_lt_Some in Hl. pose proof (wf_len _ (br_wf _ _ _ _ B)). rewrite (br_len _ _ _ _ B) in *. lia.
Qed.
Lemma row_inj id id' row : rows !! id = Some row -> rows !! id' = Some row -> id' = id.
Proof. intros [_ HA]%(br_rows _ _ _ _ B) [_ HB]%(br_rows _ _ _ _ B). congruence. Qed.
Lemma row_id row : 0 <= row < Z.of_nat len -> exists id, cv_get (index_of row) ids = Some id /\ rows !! id = Some row.
Proof.
  intros Hr. rewrite (cv_get_spec _ _ (br_wf _ _ _ _ B)). destruct (lookup_lt_is_Some_2 (cv_iter ids) (index_of row)) as [id Hid].
  { pose proof (wf_len _ (br_wf _ _ _ _ B)). rewrite (br_len _ _ _ _ B) in *. lia. }
  exists id. split; [done|]. apply (br_rows _ _ _ _ B). split; [lia|done].
Qed.
Lemma row_number_spec (row : Z) : 0 <= row < Z.of_nat len -> row_number (index_of row) = Ok row.
Proof. intros Hr. unfold row_number. pose proof (br_limit _ _ _ _ B). rewrite (proj2 (Z.ltb_lt _ _)) by lia. cbn. f_equal. lia. Qed.

(** Binding a new identity to the next row. *)
Lemma bind_row id : id <> TOMBSTONE -> rows !! id = None -> Z.of_nat len < u32_max ->
  bound_rows (S len) (cv_push id ids) ({[Z.of_nat len]} ∪ alive) (<[id := Z.of_nat len]> rows).
Proof.
  intros Hz Hn Hlt. destruct B as [W L M R A N S]. destruct (cv_push_spec ids id W) as [W' I]. pose proof (wf_len _ W) as WL.
  split; [done| | | | | |].
  - rewrite (wf_len _ W'), I, length_app, <- WL, L. cbn. lia.
  - lia.
  - intros i row. rewrite I. destruct (decide (i = id)) as [->|Hne].
    + rewrite lookup_insert_eq. split.
      * intros [= <-]. split; [lia|]. rewrite Nat2Z.id, lookup_app_r by lia. by replace (len - length (cv_iter ids))%nat with 0%nat by lia.
      * intros [Hr Hl]. destruct (decide (index_of row < length (cv_iter ids))%nat) as [Hlt'|Hge].
        -- rewrite lookup_app_l in Hl by done. assert (HS : rows !! id = Some row) by (apply R; done). congruence.
        -- rewrite lookup_app_r in Hl by lia. apply lookup_lt_Some in Hl as Hl'. cbn in Hl'. f_equal. lia.
    + rewrite lookup_insert_ne, R by done. split; intros [Hr Hl]; (split; [done|]).
      * by apply lookup_app_l_Some.
      * destruct (decide (index_of row < length (cv_iter ids))%nat) as [Hlt'|Hge]; [by rewrite lookup_app_l in Hl|].
        rewrite lookup_app_r in Hl by lia. apply list_lookup_singleton_Some in Hl as [_ ->]. done.
  - intros row [->%elem_of_singleton|Hin%A]%elem_of_union; lia.
  - intros i. destruct (decide (i = id)) as [->|Hne]; [done|]. rewrite lookup_insert_ne by done. apply N.
  - by rewrite map_size_insert_None, S.
Qed.
End Rows.

(** Making rows dead. *)
Lemma kill_rows len ids alive rows dead : bound_rows len ids alive rows -> bound_rows len ids (alive ∖ dead) rows.
Proof. intros [? ? ? ? A ? ?]. split; try done. intros row [Hin _]%elem_of_difference. by apply A. Qed.
(** ** Nodes *)

Lemma alive_spec row (s : NodeStore) : ns_is_alive_row row s = true <-> row ∈ ns_alive s.
Proof. apply bool_decide_eq_true. Qed.
Lemma edge_alive_spec row (s : EdgeStore) : es_is_alive_row row s = true <-> row ∈ es_alive s.
Proof. apply bool_decide_eq_true. Qed.

Section Nodes.
Context (s : NodeStore) (rows : gmap Z Z) (N : nodes_ok s rows).

Lemma node_range row : row ∈ ns_alive s -> 0 <= row < Z.of_nat (ns_len s).
Proof. apply (br_alive _ _ _ _ (no_rows _ _ N)). Qed.

Lemma node_at_alive row : row ∈ ns_alive s -> exists labels properties, cv_get (index_of row) (ns_labels s) = Some labels /\
  cv_get (index_of row) (ns_properties s) = Some properties /\ node_at s row = Some {| n_labels := labels; n_properties := properties |}.
Proof.
  intros Hr. pose proof (node_range row Hr). destruct N as [WL [WP HP] _]. unfold ns_len in *.
  destruct (cv_get_Some (ns_labels s) (index_of row) WL ltac:(lia)) as [l El].
  destruct (cv_get_Some (ns_properties s) (index_of row) WP ltac:(lia)) as [p Ep].
  exists l, p. split; [done|]. split; [done|]. unfold node_at. by rewrite (proj2 (alive_spec _ _) Hr), El, Ep.
Qed.

Lemma node_at_dead row : row ∉ ns_alive s -> node_at s row = None.
Proof. intros Hr. unfold node_at. destruct (ns_is_alive_row row s) eqn:E; [|done]. by apply alive_spec in E. Qed.

Lemma write_node_spec {E} row l p : 0 <= row < Z.of_nat (ns_len s) ->
  exists cl cp, cv_set (E := E) (index_of row) l (ns_labels s) = Ok cl /\ cv_set (E := E) (index_of row) p (ns_properties s) = Ok cp /\
    let s' := {| ns_labels := cl; ns_properties := cp; ns_row_to_id := ns_row_to_id s; ns_alive := ns_alive s |} in
    nodes_ok s' rows /\ ns_len s' = ns_len s /\
    forall r, node_at s' r = if decide (r = row) then (if ns_is_alive_row row s then Some {| n_labels := l; n_properties := p |} else None) else node_at s r.
Proof.
  intros Hr. pose proof N as [WL [WP HP] B]. pose proof node_range as HR. unfold ns_len in *.
  destruct (cv_written (E := E) (ns_labels s) (index_of row) l WL ltac:(lia)) as (cl & -> & WL' & LL & GL).
  destruct (cv_written (E := E) (ns_properties s) (index_of row) p WP ltac:(lia)) as (cp & -> & WP' & LP & GP).
  exists cl, cp. split; [done|]. split; [done|]. cbn. split; [|split; [done|]].
  - split; cbn; [done|unfold ns_len; cbn; split; [done|congruence]|]. unfold ns_len. cbn. by rewrite LL.
  - intros r. unfold node_at, ns_is_alive_row. cbn. destruct (bool_decide_reflect (r ∈ ns_alive s)) as [Hin|Hout].
    + apply HR in Hin as Hr'. rewrite GL, GP. destruct (decide (r = row)) as [->|Hne].
      * by rewrite !decide_True, bool_decide_true.
      * by rewrite !decide_False by lia.
    + destruct (decide (r = row)) as [->|Hne]; [|done]. by rewrite bool_decide_false.
Qed.

Lemma push_node_spec id l p : id <> TOMBSTONE -> rows !! id = None -> Z.of_nat (ns_len s) < u32_max ->
  let row := Z.of_nat (ns_len s) in
  let s' := {| ns_labels := cv_push l (ns_labels s); ns_properties := cv_push p (ns_properties s); ns_row_to_id := cv_push id (ns_row_to_id s);
               ns_alive := {[row]} ∪ ns_alive s |} in
  nodes_ok s' (<[id := row]> rows) /\
  (forall r, node_at s' r = if decide (r = row) then Some {| n_labels := l; n_properties := p |} else node_at s r) /\
  omap (node_at s') (<[id := row]> rows) = <[id := {| n_labels := l; n_properties := p |}]> (omap (node_at s) rows).
Proof.
  intros Hz Hn Hlt row s'. pose proof N as [WL [WP HP] B]. destruct (cv_pushed (ns_labels s) l WL) as (WL' & LL & GL). destruct (cv_pushed (ns_properties s) p WP) as (WP' & LP & GP).
  assert (HLen : ns_len s' = S (ns_len s)) by done.
  assert (HA : forall r, ns_is_alive_row r s' = bool_decide (r = row) || ns_is_alive_row r s).
  { intros r. unfold ns_is_alive_row. cbn. repeat case_bool_decide; set_solver. }
  assert (Hat : forall r, node_at s' r = if decide (r = row) then Some {| n_labels := l; n_properties := p |} else node_at s r).
  { intros r. unfold node_at. rewrite HA. destruct (decide (r = row)) as [->|Hne].
    - rewrite bool_decide_true by done. cbn. rewrite GL, GP, HP. unfold row. rewrite Nat2Z.id. unfold ns_len. by rewrite !decide_True.
    - rewrite bool_decide_false by done. cbn. destruct (ns_is_alive_row r s) eqn:Ea; [|done]. apply alive_spec, node_range in Ea.
      rewrite GL, GP, HP. unfold ns_len in *. rewrite !decide_False by (unfold row in Hne; lia). done. }
  split; [|split; [done|]].
  - split; cbn; [done|by rewrite HLen, LP, HP|]. rewrite HLen. by apply bind_row.
  - apply omap_insert_fresh; [|by rewrite Hat, decide_True].
    intros id' r E. apply (row_range B) in E. rewrite Hat, decide_False; [done|unfold row; lia].
Qed.
(** One column of a live row. *)
Lemma write_labels_spec {E} row n l : row ∈ ns_alive s -> node_at s row = Some n ->
  exists cl, cv_set (E := E) (index_of row) l (ns_labels s) = Ok cl /\
    let s' := {| ns_labels := cl; ns_properties := ns_properties s; ns_row_to_id := ns_row_to_id s; ns_alive := ns_alive s |} in
    nodes_ok s' rows /\ forall r, node_at s' r = if decide (r = row) then Some {| n_labels := l; n_properties := n_properties n |} else node_at s r.
Proof.
  intros Ha Hn. pose proof (node_range row Ha) as Hr. pose proof N as [WL [WP HP] B]. destruct (node_at_alive row Ha) as (l0 & p0 & El & Ep & E0). rewrite Hn in E0. injection E0 as ->.
  destruct (cv_written (E := E) (ns_labels s) (index_of row) l WL ltac:(unfold ns_len in Hr; lia)) as (cl & -> & WL' & LL & GL). exists cl. split; [done|]. cbn. split.
  - split; cbn; unfold ns_len in *; cbn; [done|by rewrite LL|by rewrite LL].
  - intros r. unfold node_at, ns_is_alive_row. cbn. destruct (bool_decide_reflect (r ∈ ns_alive s)) as [Hin|Hout].
    + apply node_range in Hin as Hr'. rewrite GL. destruct (decide (r = row)) as [->|Hne]; [rewrite decide_True by done; by rewrite Ep|by rewrite decide_False by lia].
    + by destruct (decide (r = row)) as [->|Hne].
Qed.
Lemma write_properties_spec {E} row n p : row ∈ ns_alive s -> node_at s row = Some n ->
  exists cp, cv_set (E := E) (index_of row) p (ns_properties s) = Ok cp /\
    let s' := {| ns_labels := ns_labels s; ns_properties := cp; ns_row_to_id := ns_row_to_id s; ns_alive := ns_alive s |} in
    nodes_ok s' rows /\ forall r, node_at s' r = if decide (r = row) then Some {| n_labels := n_labels n; n_properties := p |} else node_at s r.
Proof.
  intros Ha Hn. pose proof (node_range row Ha) as Hr. pose proof N as [WL [WP HP] B]. destruct (node_at_alive row Ha) as (l0 & p0 & El & Ep & E0). rewrite Hn in E0. injection E0 as ->.
  destruct (cv_written (E := E) (ns_properties s) (index_of row) p WP ltac:(lia)) as (cp & -> & WP' & LP & GP). exists cp. split; [done|]. cbn. split.
  - split; cbn; unfold ns_len in *; cbn; [done|split; [done|congruence]|done].
  - intros r. unfold node_at, ns_is_alive_row. cbn. destruct (bool_decide_reflect (r ∈ ns_alive s)) as [Hin|Hout].
    + apply node_range in Hin as Hr'. rewrite GP. destruct (decide (r = row)) as [->|Hne]; [rewrite decide_True by done; by rewrite El|by rewrite decide_False by lia].
    + by destruct (decide (r = row)) as [->|Hne].
Qed.
End Nodes.

(** ** Edges *)

Section Edges.
Context (s : EdgeStore) (rows : gmap Z Z) (N : edges_ok s rows).

Lemma edge_range row : row ∈ es_alive s -> 0 <= row < Z.of_nat (es_len s).
Proof. apply (br_alive _ _ _ _ (eo_rows _ _ N)). Qed.

(** The columns of an edge row. *)
Definition edge_columns (row : Z) (e : Edge) : Prop :=
  cv_get (index_of row) (es_directionality s) = Some (e_directionality e) /\ cv_get (index_of row) (es_label s) = Some (e_label e) /\
  cv_get (index_of row) (es_source s) = Some (e_source e) /\ cv_get (index_of row) (es_target s) = Some (e_target e) /\
  cv_get (index_of row) (es_properties s) = Some (e_properties e).

Lemma edge_columns_at row e : edge_columns row e -> edge_at s row = if es_is_alive_row row s then Some e else None.
Proof. intros (E1 & E2 & E3 & E4 & E5). unfold edge_at. rewrite E1, E2, E3, E4, E5. by destruct e. Qed.

Lemma edge_row row : 0 <= row < Z.of_nat (es_len s) -> exists e, edge_columns row e.
Proof.
  intros Hr. destruct N as [[W1 L1] W2 [W3 L3] [W4 L4] [W5 L5] _].
  destruct (cv_get_Some _ (index_of row) W1 ltac:(lia)) as [d E1].
  destruct (cv_get_Some _ (index_of row) W2 ltac:(unfold es_len in *; lia)) as [l E2].
  destruct (cv_get_Some _ (index_of row) W3 ltac:(lia)) as [a E3].
  destruct (cv_get_Some _ (index_of row) W4 ltac:(lia)) as [b E4].
  destruct (cv_get_Some _ (index_of row) W5 ltac:(lia)) as [p E5].
  by exists {| e_directionality := d; e_label := l; e_source := a; e_target := b; e_properties := p |}.
Qed.

Lemma edge_at_alive row : row ∈ es_alive s -> exists e, edge_columns row e /\ edge_at s row = Some e.
Proof.
  intros Hr. destruct (edge_row row (edge_range row Hr)) as [e He]. exists e. split; [done|].
  rewrite (edge_columns_at _ _ He). by rewrite (proj2 (edge_alive_spec _ _) Hr).
Qed.
Lemma edge_at_dead row : row ∉ es_alive s -> edge_at s row = None.
Proof. intros Hr. unfold edge_at. destruct (es_is_alive_row row s) eqn:E; [|done]. by apply edge_alive_spec in E. Qed.

Lemma write_edge_spec {E} row p : 0 <= row < Z.of_nat (es_len s) ->
  exists cp, cv_set (E := E) (index_of row) p (es_properties s) = Ok cp /\
    let s' := {| es_directionality := es_directionality s; es_label := es_label s; es_source := es_source s; es_target := es_target s;
                 es_properties := cp; es_row_to_id := es_row_to_id s; es_alive := es_alive s |} in
    edges_ok s' rows /\ es_len s' = es_len s /\
    forall r, edge_at s' r = if decide (r = row) then with_edge_properties p <$> edge_at s row else edge_at s r.
Proof.
  intros Hr. pose proof N as [[W1 L1] W2 [W3 L3] [W4 L4] [W5 L5] B]. pose proof edge_range as HR.
  destruct (cv_written (E := E) (es_properties s) (index_of row) p W5 ltac:(lia)) as (cp & -> & W5' & L5' & G5).
  exists cp. split; [done|]. cbn. split; [|split; [done|]].
  - split; cbn; unfold es_len in *; cbn; try done. split; [done|congruence].
  - intros r. unfold edge_at, es_is_alive_row. cbn. destruct (bool_decide_reflect (r ∈ es_alive s)) as [Hin|Hout].
    + apply HR in Hin as Hr'. rewrite G5. destruct (decide (r = row)) as [->|Hne].
      * rewrite decide_True, bool_decide_true by done. destruct (edge_row row Hr) as (e & E1 & E2 & E3 & E4 & E5). by rewrite E1, E2, E3, E4, E5.
      * rewrite decide_False by lia. done.
    + destruct (decide (r = row)) as [->|Hne]; [|done]. by rewrite bool_decide_false.
Qed.

Lemma clear_edge_spec {E} row : 0 <= row < Z.of_nat (es_len s) ->
  exists cl ca cb cp, cv_set (E := E) (index_of row) [] (es_label s) = Ok cl /\
    cv_set (E := E) (index_of row) TOMBSTONE (es_source s) = Ok ca /\
    cv_set (E := E) (index_of row) TOMBSTONE (es_target s) = Ok cb /\
    cv_set (E := E) (index_of row) pm_new (es_properties s) = Ok cp /\
    let s' := {| es_directionality := es_directionality s; es_label := cl; es_source := ca; es_target := cb;
                 es_properties := cp; es_row_to_id := es_row_to_id s; es_alive := es_alive s ∖ {[row]} |} in
    edges_ok s' rows /\ es_len s' = es_len s /\ forall r, edge_at s' r = if decide (r = row) then None else edge_at s r.
Proof.
  intros Hr. pose proof N as [[W1 L1] W2 [W3 L3] [W4 L4] [W5 L5] B]. pose proof edge_range as HR.
  destruct (cv_written (E := E) (es_label s) (index_of row) [] W2 ltac:(unfold es_len in *; lia)) as (cl & -> & W2' & L2' & G2).
  destruct (cv_written (E := E) (es_source s) (index_of row) TOMBSTONE W3 ltac:(lia)) as (ca & -> & W3' & L3' & G3).
  destruct (cv_written (E := E) (es_target s) (index_of row) TOMBSTONE W4 ltac:(lia)) as (cb & -> & W4' & L4' & G4).
  destruct (cv_written (E := E) (es_properties s) (index_of row) pm_new W5 ltac:(lia)) as (cp & -> & W5' & L5' & G5).
  exists cl, ca, cb, cp. do 4 (split; [done|]). cbn. split; [|split; [done|]].
  - split; cbn; unfold es_len in *; cbn; try (rewrite L2'); try done; try (split; [done|congruence]). by apply kill_rows.
  - intros r. unfold edge_at, es_is_alive_row. cbn. destruct (decide (r = row)) as [->|Hne]; [by rewrite bool_decide_false by set_solver|].
    destruct (bool_decide_reflect (r ∈ es_alive s)) as [Hin|Hout].
    + apply HR in Hin as Hr'. rewrite bool_decide_true by set_solver. rewrite G2, G3, G4, G5. by rewrite !decide_False by lia.
    + by rewrite bool_decide_false by set_solver.
Qed.

Lemma push_edge_spec id e : id <> TOMBSTONE -> rows !! id = None -> Z.of_nat (es_len s) < u32_max ->
  let row := Z.of_nat (es_len s) in
  let s' := {| es_directionality := cv_push (e_directionality e) (es_directionality s); es_label := cv_push (e_label e) (es_label s);
               es_source := cv_push (e_source e) (es_source s); es_target := cv_push (e_target e) (es_target s);
               es_properties := cv_push (e_properties e) (es_properties s); es_row_to_id := cv_push id (es_row_to_id s); es_alive := {[row]} ∪ es_alive s |} in
  edges_ok s' (<[id := row]> rows) /\ (forall r, edge_at s' r = if decide (r = row) then Some e else edge_at s r) /\
  omap (edge_at s') (<[id := row]> rows) = <[id := e]> (omap (edge_at s) rows).
Proof.
  intros Hz Hn Hlt row s'. pose proof N as [[W1 L1] W2 [W3 L3] [W4 L4] [W5 L5] B].
  destruct (cv_pushed _ (e_directionality e) W1) as (W1' & L1' & G1). destruct (cv_pushed _ (e_label e) W2) as (W2' & L2' & G2).
  destruct (cv_pushed _ (e_source e) W3) as (W3' & L3' & G3). destruct (cv_pushed _ (e_target e) W4) as (W4' & L4' & G4).
  destruct (cv_pushed _ (e_properties e) W5) as (W5' & L5' & G5).
  assert (HLen : es_len s' = S (es_len s)) by done.
  assert (HA : forall r, es_is_alive_row r s' = bool_decide (r = row) || es_is_alive_row r s).
  { intros r. unfold es_is_alive_row. cbn. repeat case_bool_decide; set_solver. }
  assert (Hat : forall r, edge_at s' r = if decide (r = row) then Some e else edge_at s r).
  { intros r. unfold edge_at. rewrite HA. destruct (decide (r = row)) as [->|Hne].
    - rewrite bool_decide_true by done. cbn. rewrite G1, G2, G3, G4, G5, L1, L3, L4, L5. unfold row. rewrite Nat2Z.id.
      rewrite !decide_True by done. by destruct e.
    - rewrite bool_decide_false by done. cbn. destruct (es_is_alive_row r s) eqn:Ea; [|done]. apply edge_alive_spec, edge_range in Ea.
      rewrite G1, G2, G3, G4, G5, L1, L3, L4, L5. rewrite !decide_False by (unfold row, es_len in *; lia). done. }
  split; [|split; [done|]].
  - split; cbn; rewrite ?HLen; try done; try (split; [done|congruence]). by apply bind_row.
  - apply omap_insert_fresh; [|by rewrite Hat, decide_True].
    intros id' r E. apply (row_range B) in E. rewrite Hat, decide_False; [done|unfold row; lia].
Qed.
End Edges.

(** ** Loops *)

Lemma clear_node_ok {E} g row : nodes_ok (node_store g) (node_rows g) -> 0 <= row < Z.of_nat (ns_len (node_store g)) ->
  exists s', clear_node (E := E) g row = Ok (set_nodes s' (node_rows g) g) /\ nodes_ok s' (node_rows g) /\ ns_len s' = ns_len (node_store g) /\
    forall r, node_at s' r = if decide (r = row) then None else node_at (node_store g) r.
Proof.
  intros N Hr. set (s := node_store g) in *.
  set (s0 := {| ns_labels := ns_labels s; ns_properties := ns_properties s; ns_row_to_id := ns_row_to_id s; ns_alive := ns_alive s ∖ {[row]} |}).
  assert (N0 : nodes_ok s0 (node_rows g)).
  { destruct N as [WL WP B]. split; cbn; [done|done|]. by apply kill_rows. }
  destruct (write_node_spec (E := E) s0 (node_rows g) N0 row LabelSet.new pm_new Hr) as (cl & cp & El & Ep & N' & HL & HA).
  eexists. split; [|split; [exact N'|split; [exact HL|]]].
  - unfold clear_node, write_node. cbn. fold s. cbn in El, Ep. rewrite El, Ep. done.
  - intros r. rewrite HA. unfold ns_is_alive_row. cbn. rewrite bool_decide_false by set_solver. destruct (decide (r = row)) as [|Hne]; [done|].
    unfold node_at, ns_is_alive_row. cbn. repeat case_bool_decide; try done; set_solver.
Qed.

Lemma clear_edge_ok {E} g row : edges_ok (edge_store g) (edge_rows g) -> 0 <= row < Z.of_nat (es_len (edge_store g)) ->
  exists s', clear_edge (E := E) g row = Ok (set_edges s' (edge_rows g) g) /\ edges_ok s' (edge_rows g) /\ es_len s' = es_len (edge_store g) /\
    forall r, edge_at s' r = if decide (r = row) then None else edge_at (edge_store g) r.
Proof.
  intros N Hr. destruct (clear_edge_spec (E := E) _ _ N row Hr) as (cl & ca & cb & cp & El & Ea & Eb & Ep & N' & HL & HA).
  eexists. split; [|split; [exact N'|split; [exact HL|exact HA]]]. unfold clear_edge. by rewrite El, Ea, Eb, Ep.
Qed.

(** Rows cleared on a condition. *)
Lemma clear_edges_loop (cond : option Edge -> bool) body l : NoDup l -> cond None = false \/ (forall e, cond e = true) ->
  (forall i g, edges_ok (edge_store g) (edge_rows g) -> (i < es_len (edge_store g))%nat ->
    body i g = if cond (edge_at (edge_store g) (Z.of_nat i)) then clear_edge g (Z.of_nat i) else Ok g) ->
  forall g, edges_ok (edge_store g) (edge_rows g) -> Forall (fun i => i < es_len (edge_store g))%nat l ->
  exists s', each_index (E := CodecError) body l g = Ok (set_edges s' (edge_rows g) g) /\ edges_ok s' (edge_rows g) /\ es_len s' = es_len (edge_store g) /\
    forall r, edge_at s' r = if bool_decide (index_of r ∈ l) && cond (edge_at (edge_store g) r) then None else edge_at (edge_store g) r.
Proof.
  intros Hl Hc Hb. induction l as [|i l IH]; intros g N HF; cbn [each_index].
  { exists (edge_store g). split; [by destruct g|]. split; [done|]. split; [done|]. intros r. by rewrite bool_decide_false by set_solver. }
  apply NoDup_cons in Hl as [Hi Hl]. apply Forall_cons in HF as [Hlt HF]. specialize (IH Hl). rewrite (Hb i g N Hlt).
  assert (Hat : forall r, bool_decide (index_of r ∈ i :: l) = bool_decide (index_of r = i) || bool_decide (index_of r ∈ l)).
  { intros r. repeat case_bool_decide; set_solver. }
  assert (Hneg : forall r, index_of r = i -> r <> Z.of_nat i -> edge_at (edge_store g) r = None).
  { intros r E1 E2. apply edge_at_dead. intros Hin%(edge_range _ _ N). lia. }
  destruct (cond (edge_at (edge_store g) (Z.of_nat i))) eqn:Ec.
  - destruct (clear_edge_ok (E := CodecError) g (Z.of_nat i) N ltac:(lia)) as (s1 & -> & N1 & L1 & A1). cbn.
    destruct (IH (set_edges s1 (edge_rows g) g) N1) as (s' & -> & N' & L' & A'). { cbn. by rewrite L1. }
    exists s'. split; [done|]. split; [done|]. split; [cbn in L'; congruence|]. intros r. rewrite A'. cbn. rewrite A1, Hat.
    destruct (decide (r = Z.of_nat i)) as [->|Hne].
    + rewrite Nat2Z.id, (bool_decide_true (i = i)) by done. cbn. rewrite Ec. by destruct (_ && _).
    + destruct (bool_decide_reflect (index_of r = i)) as [E|]; [|done]. rewrite (Hneg r E Hne). cbn. by destruct (_ && _), (cond None).
  - cbn. destruct (IH g N HF) as (s' & -> & N' & L' & A'). exists s'. split; [done|]. split; [done|]. split; [done|]. intros r. rewrite A', Hat.
    destruct (bool_decide_reflect (index_of r = i)) as [E|]; [|done]. cbn. destruct (decide (r = Z.of_nat i)) as [->|Hne].
    + rewrite Ec, andb_false_r. done.
    + rewrite (Hneg r E Hne). by destruct (_ && _), (cond None).
Qed.

Lemma reset_nodes_loop l : NoDup l -> forall g, nodes_ok (node_store g) (node_rows g) -> Forall (fun i => i < ns_len (node_store g))%nat l ->
  exists s', each_index (E := CodecError) reset_node l g = Ok (set_nodes s' (node_rows g) g) /\ nodes_ok s' (node_rows g) /\ ns_len s' = ns_len (node_store g) /\
    forall r, node_at s' r = if decide (index_of r ∈ l) then None else node_at (node_store g) r.
Proof.
  intros Hl. induction l as [|i l IH]; intros g N HF; cbn [each_index].
  { exists (node_store g). split; [by destruct g|]. split; [done|]. split; [done|]. intros r. by rewrite decide_False by set_solver. }
  apply NoDup_cons in Hl as [Hi Hl]. apply Forall_cons in HF as [Hlt HF]. specialize (IH Hl).
  unfold reset_node at 1. pose proof (row_number_spec (no_rows _ _ N) (Z.of_nat i) ltac:(lia)) as Hn. rewrite Nat2Z.id in Hn. rewrite Hn. cbn.
  destruct (clear_node_ok (E := CodecError) g (Z.of_nat i) N ltac:(lia)) as (s1 & -> & N1 & L1 & A1). cbn.
  destruct (IH (set_nodes s1 (node_rows g) g) N1) as (s' & -> & N' & L' & A'). { cbn. by rewrite L1. }
  exists s'. split; [done|]. split; [done|]. split; [cbn in L'; congruence|]. intros r. rewrite A'. cbn. rewrite A1.
  destruct (decide (index_of r ∈ l)) as [Hin|Hout]; [by rewrite decide_True by set_solver|].
  destruct (decide (r = Z.of_nat i)) as [->|Hne]; [by rewrite Nat2Z.id, decide_True by set_solver|].
  destruct (decide (index_of r ∈ i :: l)) as [[E|]%elem_of_cons|]; [|done..]. apply (node_at_dead _). intros Hin%(node_range _ _ N). lia.
Qed.

(** A labelled node. *)
Definition labelled (label : bytes) (n : option Node) : bool := match n with Some n => has_label label n | None => false end.

Lemma truncate_node_step label T g i : nodes_ok (node_store g) (node_rows g) -> (i < ns_len (node_store g))%nat ->
  exists id, node_rows g !! id = Some (Z.of_nat i) /\ truncate_node label i (T, g) =
    if labelled label (node_at (node_store g) (Z.of_nat i)) then (let? g' := clear_node g (Z.of_nat i) in Ok ({[id]} ∪ T, g')) else Ok (T, g).
Proof.
  intros N Hlt. destruct (row_id (no_rows _ _ N) (Z.of_nat i) ltac:(lia)) as (id & Hid & Hrow). rewrite Nat2Z.id in Hid.
  exists id. split; [done|]. unfold truncate_node. pose proof (row_number_spec (no_rows _ _ N) (Z.of_nat i) ltac:(lia)) as Hn. rewrite Nat2Z.id in Hn. rewrite Hn. cbn.
  destruct (ns_is_alive_row (Z.of_nat i) (node_store g)) eqn:Ea.
  - apply alive_spec in Ea. destruct (node_at_alive _ _ N _ Ea) as (l & p & El & _ & ->). rewrite Nat2Z.id in El. rewrite El. cbn. by rewrite Hid.
  - unfold node_at. by rewrite Ea.
Qed.

Lemma truncate_nodes_loop label l : NoDup l -> forall T g, nodes_ok (node_store g) (node_rows g) -> Forall (fun i => i < ns_len (node_store g))%nat l ->
  exists T' s', each_index (E := CodecError) (truncate_node label) l (T, g) = Ok (T', set_nodes s' (node_rows g) g) /\ nodes_ok s' (node_rows g) /\ ns_len s' = ns_len (node_store g) /\
    (forall r, node_at s' r = if decide (index_of r ∈ l) then (if labelled label (node_at (node_store g) r) then None else node_at (node_store g) r) else node_at (node_store g) r) /\
    (forall id, id ∈ T' <-> id ∈ T \/ exists row, node_rows g !! id = Some row /\ index_of row ∈ l /\ labelled label (node_at (node_store g) row) = true).
Proof.
  intros Hl. induction l as [|i l IH]; intros T g N HF; cbn [each_index].
  { exists T, (node_store g). split; [by destruct g|]. split; [done|]. split; [done|]. split; [intros r; by rewrite decide_False by set_solver|].
    intros id. split; [by left|]. intros [|(row & _ & []%elem_of_nil & _)]; done. }
  apply NoDup_cons in Hl as [Hi Hl]. apply Forall_cons in HF as [Hlt HF]. specialize (IH Hl).
  destruct (truncate_node_step label T g i N Hlt) as (id & Hid & ->).
  assert (Hneg : forall r, index_of r = i -> r <> Z.of_nat i -> node_at (node_store g) r = None).
  { intros r E1 E2. apply node_at_dead. intros Hin%(node_range _ _ N). lia. }
  assert (Hrow : forall id' r, node_rows g !! id' = Some r -> index_of r = i -> r = Z.of_nat i).
  { intros id' r E%(row_range (no_rows _ _ N)) E'. lia. }
  destruct (labelled label (node_at (node_store g) (Z.of_nat i))) eqn:Ec.
  - destruct (clear_node_ok (E := CodecError) g (Z.of_nat i) N ltac:(lia)) as (s1 & -> & N1 & L1 & A1). cbn.
    destruct (IH ({[id]} ∪ T) (set_nodes s1 (node_rows g) g) N1) as (T' & s' & -> & N' & L' & A' & HT). { cbn. by rewrite L1. }
    exists T', s'. split; [done|]. split; [done|]. split; [cbn in L'; congruence|]. split.
    + intros r. rewrite A'. cbn. rewrite A1. destruct (decide (r = Z.of_nat i)) as [->|Hne].
      * rewrite Nat2Z.id, decide_False by done. rewrite decide_True by set_solver. by rewrite Ec.
      * destruct (decide (index_of r ∈ l)); [by rewrite decide_True by set_solver|].
        destruct (decide (index_of r ∈ i :: l)) as [[E|]%elem_of_cons|]; [|done..]. by rewrite (Hneg r E Hne).
    + intros id'. rewrite HT. cbn. setoid_rewrite A1. split.
      * intros [[->%elem_of_singleton|]%elem_of_union|(row & E & Hin & Hb)]; [right|by left|right].
        -- exists (Z.of_nat i). split; [done|]. rewrite Nat2Z.id. split; [set_solver|done].
        -- exists row. split; [done|]. split; [set_solver|]. by destruct (decide (row = Z.of_nat i)).
      * intros [|(row & E & [Ei|Hin]%elem_of_cons & Hb)]; [set_solver| |].
        -- left. rewrite (Hrow _ _ E Ei) in E. pose proof (row_inj (no_rows _ _ N) _ _ _ Hid E) as ->. set_solver.
        -- right. exists row. split; [done|]. split; [done|]. rewrite decide_False; [done|]. intros ->. by rewrite Nat2Z.id in Hin.
  - cbn. destruct (IH T g N HF) as (T' & s' & -> & N' & L' & A' & HT). exists T', s'. split; [done|]. split; [done|]. split; [done|]. split.
    + intros r. rewrite A'. destruct (decide (index_of r ∈ l)); [by rewrite decide_True by set_solver|].
      destruct (decide (index_of r ∈ i :: l)) as [[E|]%elem_of_cons|]; [|done..]. destruct (decide (r = Z.of_nat i)) as [->|Hne]; [by rewrite Ec|].
      by rewrite (Hneg r E Hne).
    + intros id'. rewrite HT. split; intros [|(row & E & Hin & Hb)]; [by left| |by left|]; right; exists row; (split; [done|]).
      * split; [set_solver|done].
      * split; [|done]. apply elem_of_cons in Hin as [Ei|]; [|done]. exfalso. rewrite (Hrow _ _ E Ei) in Hb. congruence.
Qed.

(** ** One change *)

(** Replay gives the graph of the specification, or its error; it does not panic. *)
Definition refines (g : SeleneGraph) (r : outcome CodecError SeleneGraph) (spec : result CodecError LogicalGraph) : Prop :=
  match r with
  | Ok g' => columns_ok g' /\ meta g' = meta g /\ indexes g' = indexes g /\ spec = Ok (logical g')
  | Err (Fails e) => spec = Err e
  | Err (Panic _) => False
  end.

Lemma node_spec g id : nodes_ok (node_store g) (node_rows g) ->
  (exists row n, node g id = Ok row /\ node_rows g !! id = Some row /\ row ∈ ns_alive (node_store g) /\ node_at (node_store g) row = Some n /\
     lg_nodes (logical g) !! id = Some n /\ cv_get (index_of row) (ns_labels (node_store g)) = Some (n_labels n) /\
     cv_get (index_of row) (ns_properties (node_store g)) = Some (n_properties n)) \/
  (node g id = Err E_Semantic /\ lg_nodes (logical g) !! id = None).
Proof.
  intros N. unfold node. cbn [logical lg_nodes]. rewrite lookup_omap. destruct (node_rows g !! id) as [row|] eqn:E; [|by right]. cbn.
  destruct (ns_is_alive_row row (node_store g)) eqn:Ea; [left|right].
  - apply alive_spec in Ea. destruct (node_at_alive _ _ N _ Ea) as (l & p & El & Ep & Eat). exists row, {| n_labels := l; n_properties := p |}. done.
  - split; [done|]. apply node_at_dead. intros Hin%alive_spec. congruence.
Qed.
Lemma edge_spec g id : edges_ok (edge_store g) (edge_rows g) ->
  (exists row e, edge g id = Ok row /\ edge_rows g !! id = Some row /\ row ∈ es_alive (edge_store g) /\ edge_at (edge_store g) row = Some e /\
     lg_edges (logical g) !! id = Some e /\ edge_columns (edge_store g) row e) \/
  (edge g id = Err E_Semantic /\ lg_edges (logical g) !! id = None).
Proof.
  intros N. unfold edge. cbn [logical lg_edges]. rewrite lookup_omap. destruct (edge_rows g !! id) as [row|] eqn:E; [|by right]. cbn.
  destruct (es_is_alive_row row (edge_store g)) eqn:Ea; [left|right].
  - apply edge_alive_spec in Ea. destruct (edge_at_alive _ _ N _ Ea) as (e & Ec & Eat). exists row, e. done.
  - split; [done|]. apply edge_at_dead. intros Hin%edge_alive_spec. congruence.
Qed.

(** Writing a row that an identity is bound to. *)
Lemma logical_node_write g s' id row v : nodes_ok (node_store g) (node_rows g) -> node_rows g !! id = Some row ->
  (forall r, node_at s' r = if decide (r = row) then v else node_at (node_store g) r) ->
  logical (set_nodes s' (node_rows g) g) = with_nodes (partial_alter (fun _ => v) id (lg_nodes (logical g))) (logical g).
Proof.
  intros N Hrow HA. unfold logical, with_nodes. cbn. f_equal. eapply omap_write; [done| |exact HA]. intros id' E. by eapply (row_inj (no_rows _ _ N)).
Qed.
Lemma logical_edge_write g s' id row v : edges_ok (edge_store g) (edge_rows g) -> edge_rows g !! id = Some row ->
  (forall r, edge_at s' r = if decide (r = row) then v else edge_at (edge_store g) r) ->
  logical (set_edges s' (edge_rows g) g) = with_edges (partial_alter (fun _ => v) id (lg_edges (logical g))) (logical g).
Proof.
  intros N Hrow HA. unfold logical, with_edges. cbn. f_equal. eapply omap_write; [done| |exact HA]. intros id' E. by eapply (row_inj (eo_rows _ _ N)).
Qed.

Lemma refines_node_write g s' id row v spec : columns_ok g -> nodes_ok s' (node_rows g) -> node_rows g !! id = Some row ->
  (forall r, node_at s' r = if decide (r = row) then v else node_at (node_store g) r) ->
  spec = Ok (with_nodes (partial_alter (fun _ => v) id (lg_nodes (logical g))) (logical g)) ->
  refines g (Ok (set_nodes s' (node_rows g) g)) spec.
Proof. intros [N M] N' Hrow HA ->. split; [by split|]. split; [done|]. split; [done|]. f_equal. symmetry. by eapply logical_node_write. Qed.
Lemma refines_edge_write g s' id row v spec : columns_ok g -> edges_ok s' (edge_rows g) -> edge_rows g !! id = Some row ->
  (forall r, edge_at s' r = if decide (r = row) then v else edge_at (edge_store g) r) ->
  spec = Ok (with_edges (partial_alter (fun _ => v) id (lg_edges (logical g))) (logical g)) ->
  refines g (Ok (set_edges s' (edge_rows g) g)) spec.
Proof. intros [N M] N' Hrow HA ->. split; [by split|]. split; [done|]. split; [done|]. f_equal. symmetry. by eapply logical_edge_write. Qed.

Lemma row_number_or n : (exists e, row_number n = Err e /\ ~ Z.of_nat n < u32_max) \/ (row_number n = Ok (Z.of_nat n) /\ Z.of_nat n < u32_max).
Proof. unfold row_number. destruct (Z.ltb_spec (Z.of_nat n) u32_max); cbn; [by right|left]. eexists. split; [done|lia]. Qed.

Lemma refines_node_created g id labels properties : columns_ok g -> pm_validate properties = Ok tt ->
  refines g (apply g (NodeCreated id labels properties)) (spec_apply (logical g) (NodeCreated id labels properties)).
Proof.
  intros [N M] Hv. unfold apply, spec_apply. cbn [change_validate]. rewrite Hv. cbn [lift map_err]. destruct (Z.eqb_spec id TOMBSTONE) as [|Hz]; [done|]. cbn [orb].
  cbn [logical lg_node_ids]. rewrite (bool_decide_ext (id ∈ dom (node_rows g)) (is_Some (node_rows g !! id))) by apply elem_of_dom.
  case_bool_decide as Hb; [done|]. apply eq_None_not_Some in Hb. rewrite size_dom, (br_size _ _ _ _ (no_rows _ _ N)).
  destruct (row_number_or (ns_len (node_store g))) as [(e & -> & _)|[-> Hlt]]; [done|]. cbn.
  destruct (push_node_spec _ _ N id labels properties Hz Hb Hlt) as (N' & _ & EL). cbn in EL, N'. split; [by split|]. split; [done|]. split; [done|].
  unfold logical. cbn. rewrite EL. f_equal. f_equal. by rewrite dom_insert_L.
Qed.

Lemma live_bool g id : nodes_ok (node_store g) (node_rows g) ->
  (exists row, node g id = Ok row /\ bool_decide (is_Some (lg_nodes (logical g) !! id)) = true) \/
  (node g id = Err E_Semantic /\ bool_decide (is_Some (lg_nodes (logical g) !! id)) = false).
Proof.
  intros N. destruct (node_spec g id N) as [(row & n & E & _ & _ & _ & E' & _)|[E E']]; [left|right]; rewrite E'.
  - exists row. split; [done|]. by rewrite bool_decide_true.
  - split; [done|]. rewrite bool_decide_false; [done|]. by intros [? ?].
Qed.

Lemma refines_edge_created g id d label a b properties : columns_ok g -> pm_validate properties = Ok tt ->
  refines g (apply g (EdgeCreated id d label a b properties)) (spec_apply (logical g) (EdgeCreated id d label a b properties)).
Proof.
  intros [N M] Hv. unfold apply, spec_apply. cbn [change_validate]. rewrite Hv. cbn [lift map_err].
  destruct (live_bool g a N) as [(? & -> & ->)|[-> ->]]; [|done]. destruct (live_bool g b N) as [(? & -> & ->)|[-> ->]]; [|done]. cbn [lift map_err andb negb].
  destruct (Z.eqb_spec id TOMBSTONE) as [|Hz]; [done|]. cbn [orb]. cbn [logical lg_edge_ids].
  rewrite (bool_decide_ext (id ∈ dom (edge_rows g)) (is_Some (edge_rows g !! id))) by apply elem_of_dom.
  case_bool_decide as Hb; [done|]. apply eq_None_not_Some in Hb. rewrite size_dom, (br_size _ _ _ _ (eo_rows _ _ M)). cbn [orb].
  destruct (negb _); [done|]. destruct (row_number_or (es_len (edge_store g))) as [(e & -> & _)|[-> Hlt]]; [done|]. cbn.
  destruct (push_edge_spec _ _ M id {| e_directionality := d; e_label := label; e_source := a; e_target := b; e_properties := properties |} Hz Hb Hlt) as (M' & _ & EL).
  cbn in EL, M'. split; [by split|]. split; [done|]. split; [done|]. unfold logical. cbn. rewrite EL. f_equal. f_equal. by rewrite dom_insert_L.
Qed.

Lemma refines_node_updated g id ld pd : columns_ok g -> validate_all (map snd (pd_set pd)) = Ok tt ->
  refines g (apply g (NodeUpdated id ld pd)) (spec_apply (logical g) (NodeUpdated id ld pd)).
Proof.
  intros C Hv. pose proof C as [N M]. unfold apply, spec_apply. cbn [change_validate]. rewrite Hv. cbn [lift map_err].
  destruct (node_spec g id N) as [(row & n & -> & Hrow & Ha & Hat & -> & EL & EP)|[-> ->]]; [|done]. cbn [lift map_err ok_or]. rewrite EL, EP. cbn [lift map_err ok_or].
  destruct (patch (Some (n_properties n)) pd) as [p|e]; [|done]. cbn [lift map_err]. pose proof (node_range _ _ N row Ha) as Hr.
  destruct (write_node_spec (E := CodecError) _ _ N row (patch_labels (n_labels n) ld) p Hr) as (cl & cp & El & Ep & N' & _ & HA).
  unfold write_node. rewrite El, Ep. rewrite (proj2 (alive_spec _ _) Ha) in HA. by eapply refines_node_write.
Qed.

Lemma refines_node_label_removed g id label : columns_ok g ->
  refines g (apply g (NodeLabelRemoved id label)) (spec_apply (logical g) (NodeLabelRemoved id label)).
Proof.
  intros C. pose proof C as [N M]. unfold apply, spec_apply. cbn [change_validate lift map_err].
  destruct (node_spec g id N) as [(row & n & -> & Hrow & Ha & Hat & -> & EL & EP)|[-> ->]]; [|done]. cbn [lift map_err ok_or]. rewrite EL. cbn [lift map_err ok_or].
  destruct (write_labels_spec (E := CodecError) _ _ N row n (snd (LabelSet.remove label (n_labels n))) Ha Hat) as (cl & -> & N' & HA). by eapply refines_node_write.
Qed.

Lemma refines_node_property_removed g id property : columns_ok g ->
  refines g (apply g (NodePropertyRemoved id property)) (spec_apply (logical g) (NodePropertyRemoved id property)).
Proof.
  intros C. pose proof C as [N M]. unfold apply, spec_apply. cbn [change_validate lift map_err].
  destruct (node_spec g id N) as [(row & n & -> & Hrow & Ha & Hat & -> & EL & EP)|[-> ->]]; [|done]. cbn [lift map_err ok_or]. rewrite EP. cbn [lift map_err ok_or].
  destruct (write_properties_spec (E := CodecError) _ _ N row n (snd (pm_remove property (n_properties n))) Ha Hat) as (cp & -> & N' & HA). by eapply refines_node_write.
Qed.

Lemma refines_edge_properties g id row e p spec : columns_ok g -> edge_rows g !! id = Some row -> row ∈ es_alive (edge_store g) ->
  edge_at (edge_store g) row = Some e ->
  spec = Ok (with_edges (<[id := with_edge_properties p e]> (lg_edges (logical g))) (logical g)) -> refines g (write_edge_properties row p g) spec.
Proof.
  intros C Hrow Ha Hat ->. pose proof C as [N M]. destruct (write_edge_spec (E := CodecError) _ _ M row p (edge_range _ _ M row Ha)) as (cp & Ep & M' & _ & HA).
  unfold write_edge_properties. rewrite Ep. rewrite Hat in HA. by eapply refines_edge_write.
Qed.

Lemma refines_edge_updated g id pd : columns_ok g -> validate_all (map snd (pd_set pd)) = Ok tt ->
  refines g (apply g (EdgeUpdated id pd)) (spec_apply (logical g) (EdgeUpdated id pd)).
Proof.
  intros C Hv. pose proof C as [N M]. unfold apply, spec_apply. cbn [change_validate]. rewrite Hv. cbn [lift map_err].
  destruct (edge_spec g id M) as [(row & e & -> & Hrow & Ha & Hat & -> & (_ & _ & _ & _ & EP))|[-> ->]]; [|done]. cbn [lift map_err ok_or]. rewrite EP. cbn [lift map_err ok_or].
  destruct (patch (Some (e_properties e)) pd) as [p|err]; [|done]. cbn [lift map_err]. by eapply refines_edge_properties.
Qed.

Lemma refines_edge_property_removed g id property : columns_ok g ->
  refines g (apply g (EdgePropertyRemoved id property)) (spec_apply (logical g) (EdgePropertyRemoved id property)).
Proof.
  intros C. pose proof C as [N M]. unfold apply, spec_apply. cbn [change_validate lift map_err].
  destruct (edge_spec g id M) as [(row & e & -> & Hrow & Ha & Hat & -> & (_ & _ & _ & _ & EP))|[-> ->]]; [|done]. cbn [lift map_err ok_or]. rewrite EP. cbn [lift map_err ok_or].
  by eapply refines_edge_properties.
Qed.

Lemma refines_node_deleted g id : columns_ok g -> refines g (apply g (NodeDeleted id)) (spec_apply (logical g) (NodeDeleted id)).
Proof.
  intros C. pose proof C as [N M]. unfold apply, spec_apply. cbn [change_validate lift map_err].
  destruct (node_spec g id N) as [(row & n & -> & Hrow & Ha & Hat & -> & _)|[-> ->]]; [|done]. cbn [lift map_err ok_or].
  destruct (clear_node_ok (E := CodecError) g row N (node_range _ _ N row Ha)) as (s' & -> & N' & _ & HA). by eapply refines_node_write.
Qed.
Lemma refines_edge_deleted g id : columns_ok g -> refines g (apply g (EdgeDeleted id)) (spec_apply (logical g) (EdgeDeleted id)).
Proof.
  intros C. pose proof C as [N M]. unfold apply, spec_apply. cbn [change_validate lift map_err].
  destruct (edge_spec g id M) as [(row & n & -> & Hrow & Ha & Hat & -> & _)|[-> ->]]; [|done]. cbn [lift map_err ok_or].
  destruct (clear_edge_ok (E := CodecError) g row M (edge_range _ _ M row Ha)) as (s' & -> & M' & _ & HA). by eapply refines_edge_write.
Qed.

Lemma seq_below n : Forall (fun i => i < n)%nat (seq 0 n).
Proof. apply Forall_forall. intros i Hi%elem_of_seq. lia. Qed.
Lemma in_seq r n : 0 <= r < Z.of_nat n -> index_of r ∈ seq 0 n.
Proof. intros Hr. apply elem_of_seq. lia. Qed.

Lemma truncate_edge_cond label i g : edges_ok (edge_store g) (edge_rows g) -> (i < es_len (edge_store g))%nat ->
  truncate_edge label i g = if (match edge_at (edge_store g) (Z.of_nat i) with Some e => bool_decide (e_label e = label) | None => false end)
    then clear_edge g (Z.of_nat i) else Ok g.
Proof.
  intros N Hi. unfold truncate_edge. pose proof (row_number_spec (eo_rows _ _ N) (Z.of_nat i) ltac:(lia)) as Hn. rewrite Nat2Z.id in Hn. rewrite Hn. cbn.
  destruct (edge_row _ _ N (Z.of_nat i) ltac:(lia)) as [e He]. rewrite (edge_columns_at _ _ _ He). destruct He as (_ & El & _). rewrite Nat2Z.id in El. rewrite El.
  destruct (es_is_alive_row _ _); [|done]. cbn. rewrite (bool_decide_ext (Some (e_label e) = Some label) (e_label e = label)) by naive_solver. done.
Qed.
Lemma truncate_incident_cond T i g : edges_ok (edge_store g) (edge_rows g) -> (i < es_len (edge_store g))%nat ->
  truncate_incident T i g = if (match edge_at (edge_store g) (Z.of_nat i) with Some e => bool_decide (e_source e ∈ T) || bool_decide (e_target e ∈ T) | None => false end)
    then clear_edge g (Z.of_nat i) else Ok g.
Proof.
  intros N Hi. unfold truncate_incident. pose proof (row_number_spec (eo_rows _ _ N) (Z.of_nat i) ltac:(lia)) as Hn. rewrite Nat2Z.id in Hn. rewrite Hn. cbn.
  destruct (edge_row _ _ N (Z.of_nat i) ltac:(lia)) as [e He]. rewrite (edge_columns_at _ _ _ He). destruct He as (_ & _ & Ea & Eb & _). rewrite Nat2Z.id in Ea, Eb. rewrite Ea, Eb.
  by destruct (es_is_alive_row _ _).
Qed.
Lemma reset_edge_cond i g : edges_ok (edge_store g) (edge_rows g) -> (i < es_len (edge_store g))%nat -> reset_edge i g = clear_edge g (Z.of_nat i).
Proof.
  intros N Hi. unfold reset_edge. pose proof (row_number_spec (eo_rows _ _ N) (Z.of_nat i) ltac:(lia)) as Hn. rewrite Nat2Z.id in Hn. by rewrite Hn.
Qed.

(** The edges kept by a loop over all rows. *)
Lemma omap_filter_rows {A} (f f' : Z -> option A) (rows : gmap Z Z) (keep : A -> bool) (P : Z * A -> Prop) `{forall x, Decision (P x)} :
  (forall id row, rows !! id = Some row -> f' row = match f row with Some x => if keep x then Some x else None | None => None end) ->
  (forall i x, P (i, x) <-> keep x = true) -> omap f' rows = filter P (omap f rows).
Proof.
  intros Hf HP. apply map_eq. intros i. rewrite lookup_omap. apply option_eq. intros x. rewrite map_lookup_filter_Some, HP, lookup_omap.
  destruct (rows !! i) as [row|] eqn:E; cbn; [|split; [done|by intros [? _]]]. rewrite (Hf _ _ E). destruct (f row) as [y|]; cbn; [|split; [done|by intros [? _]]].
  destruct (keep y) eqn:Ek; split; [by intros [= ->]|by intros [[= ->] _]|done|intros [[= ->] ?]; congruence].
Qed.

Lemma refines_edges_truncated g label : columns_ok g ->
  refines g (apply g (EdgesOfTypeTruncated label)) (spec_apply (logical g) (EdgesOfTypeTruncated label)).
Proof.
  intros [N M]. unfold apply, spec_apply. cbn [change_validate lift map_err].
  set (cond := fun e => match e with Some e => bool_decide (e_label e = label) | None => false end).
  destruct (clear_edges_loop cond (truncate_edge label) _ (NoDup_seq 0 _) (or_introl eq_refl) (truncate_edge_cond label) g M (seq_below _)) as (s' & -> & M' & _ & HA).
  split; [by split|]. split; [done|]. split; [done|]. f_equal. unfold with_edges, logical. cbn. f_equal. symmetry.
  apply omap_filter_rows with (keep := fun e => negb (bool_decide (e_label e = label))).
  - intros id row E%(row_range (eo_rows _ _ M)). rewrite HA, bool_decide_true by (by apply in_seq). cbn. destruct (edge_at _ row) as [e|]; [|done]. cbn. by case_bool_decide.
  - intros i e. cbn. case_bool_decide; naive_solver.
Qed.

Lemma refines_graph_reset g : columns_ok g -> refines g (apply g GraphReset) (spec_apply (logical g) GraphReset).
Proof.
  intros [N M]. unfold apply, spec_apply. cbn [change_validate lift map_err].
  destruct (reset_nodes_loop _ (NoDup_seq 0 _) g N (seq_below _)) as (s & -> & N' & _ & HA).
  destruct (clear_edges_loop (fun _ => true) reset_edge _ (NoDup_seq 0 _) (or_intror (fun _ => eq_refl)) reset_edge_cond (set_nodes s (node_rows g) g) M (seq_below _)) as (s' & -> & M' & _ & HB).
  split; [by split|]. split; [done|]. split; [done|]. f_equal. unfold logical. cbn. f_equal; symmetry; apply map_eq; intros i; rewrite lookup_empty, lookup_omap.
  - destruct (node_rows g !! i) as [row|] eqn:E; [|done]. cbn. apply (row_range (no_rows _ _ N)) in E. by rewrite HA, decide_True by (by apply in_seq).
  - destruct (edge_rows g !! i) as [row|] eqn:E; [|done]. cbn. apply (row_range (eo_rows _ _ M)) in E. by rewrite HB, bool_decide_true by (by apply in_seq).
Qed.

Lemma refines_nodes_truncated g label : columns_ok g ->
  refines g (apply g (NodesOfTypeTruncated label)) (spec_apply (logical g) (NodesOfTypeTruncated label)).
Proof.
  intros [N M]. unfold apply, spec_apply. cbn [change_validate lift map_err].
  destruct (truncate_nodes_loop label _ (NoDup_seq 0 _) ∅ g N (seq_below _)) as (T & s & -> & N' & _ & HA & HT). cbn beta iota.
  set (cond := fun e => match e with Some e => bool_decide (e_source e ∈ T) || bool_decide (e_target e ∈ T) | None => false end).
  destruct (clear_edges_loop cond (truncate_incident T) _ (NoDup_seq 0 _) (or_introl eq_refl) (truncate_incident_cond T) (set_nodes s (node_rows g) g) M (seq_below _)) as (s' & -> & M' & _ & HB).
  split; [by split|]. split; [done|]. split; [done|]. f_equal.
  assert (HT' : forall id, bool_decide (id ∈ T) = labelled label (lg_nodes (logical g) !! id)).
  { intros id. cbn [logical lg_nodes]. rewrite lookup_omap. case_bool_decide as Hin; rewrite HT in Hin.
    - destruct Hin as [[]%not_elem_of_empty|(row & -> & _ & E)]. done.
    - symmetry. destruct (node_rows g !! id) as [row|] eqn:E; [|done]. cbn. apply not_true_iff_false. intros Hl. apply Hin. right. exists row. split; [done|].
      split; [|done]. apply in_seq. by eapply (row_range (no_rows _ _ N)). }
  cbn [logical lg_node_ids lg_edge_ids]. unfold logical. cbn. f_equal; symmetry.
  - apply omap_filter_rows with (keep := fun n => negb (has_label label n)).
    + intros id row E%(row_range (no_rows _ _ N)). rewrite HA, decide_True by (by apply in_seq). destruct (node_at _ row) as [n|]; [|done]. cbn. by destruct (has_label label n).
    + intros i n. by destruct (has_label label n).
  - apply omap_filter_rows with (keep := fun e => negb (bool_decide (e_source e ∈ T) || bool_decide (e_target e ∈ T))).
    + intros id row E%(row_range (eo_rows _ _ M)). rewrite HB, bool_decide_true by (by apply in_seq). cbn. destruct (edge_at _ row) as [e|]; [|done]. cbn. by destruct (_ || _).
    + intros i e. rewrite !HT'. unfold labelled. cbn. by destruct (_ || _).
Qed.

Lemma each_change_refines g change : columns_ok g -> refines g (apply g change) (spec_apply (logical g) change).
Proof.
  intros C. destruct (change_validate change) as [[]|e] eqn:Hv; [|unfold apply, spec_apply; rewrite Hv; done].
  destruct change.
  - by apply refines_node_created.
  - by apply refines_node_updated.
  - by apply refines_node_deleted.
  - by apply refines_edge_created.
  - by apply refines_edge_updated.
  - by apply refines_edge_deleted.
  - unfold apply, spec_apply. by rewrite Hv.
  - by apply refines_node_property_removed.
  - by apply refines_edge_property_removed.
  - by apply refines_node_label_removed.
  - by apply refines_nodes_truncated.
  - by apply refines_edges_truncated.
  - by apply refines_graph_reset.
Qed.
End Refinement.
