(* ===== verification/Mutator.v ===== *)
(** The mutation funnel of a write transaction (selene-graph: mutator.rs,
    mutator/delete.rs, mutator/delete_set.rs, mutator/remove.rs,
    mutator/factory_reset.rs, id_allocator.rs).

    A call works on the transaction: its graph, the allocator of identities, the
    log of changes and the staged expansions of truncations.  A call that fails
    leaves what it has done so far.  The updates of the value, composite, vector,
    text and expression indexes of a node or an edge are the two operations of the
    class [Engine]; the schema calls are not modelled. *)

From stdpp Require Import sorting.
From S2P Require Import Prelude Errors Wire Value Ordered LabelSet PropertyMap GraphDelta Columns GraphTypes Store Derived Candidates TypeValidator GraphApply.

Section Calls.
Context `{TypeOps} `{LegacyEvents}.

(** ** Identities (id_allocator.rs) *)

Record IdAllocator := { next_node_id : Z; next_edge_id : Z }.
Definition allocator_new : IdAllocator := {| next_node_id := 1; next_edge_id := 1 |}.
(** [IdAllocator::raise_to] and [IdAllocator::from_meta_with_floors]. *)
Definition raise_to (floor self : IdAllocator) : IdAllocator :=
  {| next_node_id := Z.max (next_node_id self) (next_node_id floor); next_edge_id := Z.max (next_edge_id self) (next_edge_id floor) |}.
Definition from_meta_with_floors (m : GraphMeta) (node_floor edge_floor : Z) : IdAllocator :=
  {| next_node_id := Z.max (Z.max (m_next_node_id m) node_floor) 1; next_edge_id := Z.max (Z.max (m_next_edge_id m) edge_floor) 1 |}.

(** ** Transactions *)

Record WriteTxn := {
  txn_graph : SeleneGraph;
  allocator : IdAllocator;
  changes : list Change;
  truncate_expansions : list (nat * list Change)
}.
Abbreviation M A := (method WriteTxn (fault GraphError) A).

Definition set_graph (g : SeleneGraph) (s : WriteTxn) : WriteTxn :=
  {| txn_graph := g; allocator := allocator s; changes := changes s; truncate_expansions := truncate_expansions s |}.

(** [self.txn.read()], [?] on a result, and a write to the working graph. *)
Definition read : M SeleneGraph := fun s => (Ok (txn_graph s), s).
Definition check {A} (r : result GraphError A) : M A := of_result (lift r).
(** [map_err(GraphError::TypeViolation)?] on a validation. *)
Definition violates {A} (r : outcome TypeViolation A) : M unit :=
  of_result (let? _ := map_err (fun f => match f with Panic what => Panic what | Fails v => Fails (TypeViolated v) end) r in Ok tt).
Definition write (f : SeleneGraph -> outcome GraphError SeleneGraph) : M unit :=
  fun s => match f (txn_graph s) with Ok g => (Ok tt, set_graph g s) | Err e => (Err e, s) end.
Definition push_change (change : Change) : M unit :=
  fun s => (Ok tt, {| txn_graph := txn_graph s; allocator := allocator s; changes := changes s ++ [change];
                      truncate_expansions := truncate_expansions s |}).
(** One declarative change with its staged expansion. *)
Definition push_declarative (change : Change) (expansion : list Change) : M unit :=
  fun s => (Ok tt, {| txn_graph := txn_graph s; allocator := allocator s; changes := changes s ++ [change];
                      truncate_expansions := truncate_expansions s ++ [(length (changes s), expansion)] |}).

(** A loop that carries a value. *)
Fixpoint fold_m {S E A B} (f : B -> A -> method S E B) (b : B) (l : list A) : method S E B :=
  match l with
  | [] => ret b
  | x :: l => do b <- f b x; fold_m f b l
  end.

(** [IdAllocator::allocate_node] and [IdAllocator::allocate_edge]. *)
Definition allocate_node : M Z :=
  fun s => let id := next_node_id (allocator s) in
  if id + 1 <=? u64_max then
    (Ok id, {| txn_graph := txn_graph s; allocator := {| next_node_id := id + 1; next_edge_id := next_edge_id (allocator s) |};
               changes := changes s; truncate_expansions := truncate_expansions s |})
  else (Err (Fails (CounterExhausted "node identity")), s).
Definition allocate_edge : M Z :=
  fun s => let id := next_edge_id (allocator s) in
  if id + 1 <=? u64_max then
    (Ok id, {| txn_graph := txn_graph s; allocator := {| next_node_id := next_node_id (allocator s); next_edge_id := id + 1 |};
               changes := changes s; truncate_expansions := truncate_expansions s |})
  else (Err (Fails (CounterExhausted "edge identity")), s).

(** ** Closed types of a graph *)

Definition node_type (g : SeleneGraph) (labels : LabelSet.t) : option NodeTypeDef := m_bound_type (meta g) ≫= find_node_type labels.
Definition node_type_index_for_node (g : SeleneGraph) (graph_type : GraphTypeDef) (node : Z) : option Z :=
  node_labels node g ≫= fun labels => find_node_type_index labels graph_type.
(** [edge_type] (assignment.rs). *)
Definition edge_type (g : SeleneGraph) (label : bytes) (source target : Z) (directionality : EdgeDirectionality) : option EdgeTypeDef :=
  m_bound_type (meta g) ≫= fun graph_type =>
  node_type_index_for_node g graph_type source ≫= fun source_type =>
  node_type_index_for_node g graph_type target ≫= fun target_type =>
  find_mixed_edge_type label source_type target_type directionality graph_type.

Definition fill_node_defaults (g : SeleneGraph) (labels : LabelSet.t) (props : PropertyMap) : result GraphError PropertyMap :=
  match node_type g labels with Some t => fill_property_defaults (nt_properties t) props | None => Ok props end.
Definition coerce_node_properties (g : SeleneGraph) (labels : LabelSet.t) (props : PropertyMap) : result GraphError PropertyMap :=
  match node_type g labels with Some t => coerce_property_map (nt_properties t) props | None => Ok props end.
Definition fill_edge_defaults (g : SeleneGraph) (label : bytes) (source target : Z) (directionality : EdgeDirectionality) (props : PropertyMap) :
    result GraphError PropertyMap :=
  match edge_type g label source target directionality with Some t => fill_property_defaults (et_properties t) props | None => Ok props end.
Definition coerce_edge_properties (g : SeleneGraph) (label : bytes) (source target : Z) (directionality : EdgeDirectionality) (props : PropertyMap) :
    result GraphError PropertyMap :=
  match edge_type g label source target directionality with Some t => coerce_property_map (et_properties t) props | None => Ok props end.
Definition coerce_node_property_diff (g : SeleneGraph) (labels : LabelSet.t) (diff : PropertyDiff) : result GraphError PropertyDiff :=
  match node_type g labels with Some t => coerce_property_diff (nt_properties t) diff | None => Ok diff end.
Definition reject_immutable_node_update (g : SeleneGraph) (id : Z) (labels : LabelSet.t) (diff : PropertyDiff) : result GraphError unit :=
  match node_type g labels with Some t => map_err TypeViolated (reject_immutable_property_update (EntityNode id) (nt_name t) (nt_properties t) diff) | None => Ok tt end.

(** [coerce_edge_property_diff] (assignment.rs) and [reject_immutable_edge_update]. *)
Definition coerce_edge_property_diff (g : SeleneGraph) (id : Z) (diff : PropertyDiff) : result GraphError PropertyDiff :=
  match edge_label id g, edge_endpoints id g with
  | Some label, Some (source, target) =>
      let? directionality := ok_or (edge_directionality id g) (EdgeNotFound id) in
      match edge_type g label source target directionality with
      | Some t => coerce_property_diff (et_properties t) diff
      | None => Ok diff
      end
  | _, _ => Ok diff
  end.
Definition reject_immutable_edge_update (g : SeleneGraph) (id : Z) (diff : PropertyDiff) : result GraphError unit :=
  match m_bound_type (meta g), edge_label id g, edge_endpoints id g with
  | Some graph_type, Some label, Some (source, target) =>
      match node_type_index_for_node g graph_type source, node_type_index_for_node g graph_type target with
      | Some source_type, Some target_type =>
          let? directionality := ok_or (edge_directionality id g) (EdgeNotFound id) in
          match find_mixed_edge_type label source_type target_type directionality graph_type with
          | Some t => map_err TypeViolated (reject_immutable_property_update (EntityEdge id) (et_name t) (et_properties t) diff)
          | None => Ok tt
          end
      | _, _ => Ok tt
      end
  | _, _, _ => Ok tt
  end.

(** [require_live_node] and [require_live_edge]. *)
Definition require_live_node (id : Z) (g : SeleneGraph) : result GraphError Z :=
  let? row := ok_or (node_row_for_id id g) (NodeNotFound id) in
  refuse negb (index_of row <? ns_len (node_store g))%nat with NodeNotFound id;
  refuse negb (ns_is_alive_row row (node_store g)) with NodeNotAlive id;
  Ok row.
Definition require_live_edge (id : Z) (g : SeleneGraph) : result GraphError Z :=
  let? row := ok_or (edge_row_for_id id g) (EdgeNotFound id) in
  refuse negb (index_of row <? es_len (edge_store g))%nat with EdgeNotFound id;
  refuse negb (es_is_alive_row row (edge_store g)) with EdgeNotAlive id;
  Ok row.
(** The next row of a column; [u32::MAX] is reserved. *)
Definition dense_row (kind : string) (len : nat) : result GraphError Z :=
  refuse negb (Z.of_nat len <? u32_max) with RowSpaceExhausted kind (Z.of_nat len) u32_max;
  Ok (Z.of_nat len).

(** [apply_property_diff]. *)
Definition apply_property_diff (props : PropertyMap) (diff : PropertyDiff) : result GraphError PropertyMap :=
  let? props := map_err Core (set_all (pd_set diff) props) in
  Ok (remove_all (pd_removed diff) props).

Definition labels_at (row : Z) (g : SeleneGraph) : LabelSet.t := default LabelSet.new (cv_get (index_of row) (ns_labels (node_store g))).
Definition properties_at (row : Z) (g : SeleneGraph) : PropertyMap := default pm_new (cv_get (index_of row) (ns_properties (node_store g))).
Definition edge_properties_at (row : Z) (g : SeleneGraph) : PropertyMap := default pm_new (cv_get (index_of row) (es_properties (edge_store g))).
End Calls.

(** The updates of the other indexes: of a node from its old labels and properties to its new ones, and
    of an edge from its old properties to its new ones. *)
Class Engine `{TypeOps} := {
  index_node : option (LabelSet.t * PropertyMap) -> option (LabelSet.t * PropertyMap) -> Z -> Z -> method Indexes GraphError unit;
  index_edge : bytes -> option PropertyMap -> option PropertyMap -> Z -> method Indexes GraphError unit
}.

Section Mutator.
Context `{Engine} `{LegacyEvents}.
Abbreviation M A := (method WriteTxn (fault GraphError) A).

Definition on_indexes (m : method Indexes GraphError unit) : M unit :=
  fun s => let '(r, i) := m (indexes (txn_graph s)) in (lift r, set_graph (set_indexes i (txn_graph s)) s).

(** ** Creation (mutator.rs) *)

(** [create_node]. *)
Definition push_node (id row : Z) (labels : LabelSet.t) (props : PropertyMap) (g : SeleneGraph) : SeleneGraph :=
  let s := node_store g in
  set_labels (insert_node_labels row labels (idx_label g)) (idx_edge_label g)
    (set_nodes {| ns_labels := cv_push labels (ns_labels s); ns_properties := cv_push props (ns_properties s);
                  ns_row_to_id := cv_push id (ns_row_to_id s); ns_alive := {[row]} ∪ ns_alive s |} (<[id := row]> (node_rows g)) g).
Definition create_node (labels : LabelSet.t) (props : PropertyMap) : M Z :=
  check (map_err Core (pm_validate props)) ;;
  do g <- read;
  do props <- check (fill_node_defaults g labels props);
  do props <- check (coerce_node_properties g labels props);
  check (map_err Core (pm_validate props)) ;;
  do id <- allocate_node;
  do row <- check (dense_row "node" (ns_len (node_store g)));
  on_indexes (index_node None (Some (labels, props)) row id) ;;
  write (fun g => Ok (push_node id row labels props g)) ;;
  push_change (NodeCreated id labels props) ;;
  ret id.

(** [create_mixed_edge] and [create_edge]. *)
Definition link (id : Z) (label : bytes) (source target : Z) (directionality : EdgeDirectionality) (g : SeleneGraph) : SeleneGraph :=
  let edge neighbor := {| ae_label := label; ae_neighbor := neighbor; ae_edge_id := id |} in
  match directionality with
  | EdgeDirectionality.Directed =>
      set_adjacency (adjacency_insert source (edge target) (adjacency_out g)) (adjacency_insert target (edge source) (adjacency_in g))
        (adjacency_undirected g) g
  | EdgeDirectionality.Undirected =>
      let undirected := adjacency_insert source (edge target) (adjacency_undirected g) in
      set_adjacency (adjacency_out g) (adjacency_in g)
        (if negb (source =? target) then adjacency_insert target (edge source) undirected else undirected) g
  end.
Definition push_edge (id row : Z) (label : bytes) (source target : Z) (directionality : EdgeDirectionality) (props : PropertyMap) (g : SeleneGraph) :
    SeleneGraph :=
  let s := edge_store g in
  link id label source target directionality
    (set_labels (idx_label g) (insert_index_row label row (idx_edge_label g))
      (set_edges {| es_directionality := cv_push directionality (es_directionality s); es_label := cv_push label (es_label s);
                    es_source := cv_push source (es_source s); es_target := cv_push target (es_target s);
                    es_properties := cv_push props (es_properties s); es_row_to_id := cv_push id (es_row_to_id s);
                    es_alive := {[row]} ∪ es_alive s |} (<[id := row]> (edge_rows g)) g)).
(** Undirected endpoints are validated before the edge is stored. *)
Definition validate_undirected (id : Z) (label : bytes) (source target : Z) (directionality : EdgeDirectionality) (g : SeleneGraph) : M unit :=
  match directionality, m_bound_type (meta g) with
  | EdgeDirectionality.Undirected, Some type_def => violates (validate_edge_endpoints id label (source, target) directionality g type_def)
  | _, _ => ret tt
  end.
Definition create_mixed_edge (label : bytes) (first second : Z) (directionality : EdgeDirectionality) (props : PropertyMap) : M Z :=
  let '(source, target) := EdgeDirectionality.canonical_endpoints directionality first second in
  check (map_err Core (pm_validate props)) ;;
  do g <- read;
  check (require_live_node source g) ;;
  check (require_live_node target g) ;;
  do props <- check (fill_edge_defaults g label source target directionality props);
  do props <- check (coerce_edge_properties g label source target directionality props);
  do id <- allocate_edge;
  check (map_err Core (pm_validate props)) ;;
  validate_undirected id label source target directionality g ;;
  do row <- check (dense_row "edge" (es_len (edge_store g)));
  on_indexes (index_edge label None (Some props) row) ;;
  write (fun g => Ok (push_edge id row label source target directionality props g)) ;;
  push_change (EdgeCreated id directionality label source target props) ;;
  ret id.
Definition create_edge (label : bytes) (source target : Z) (props : PropertyMap) : M Z :=
  create_mixed_edge label source target EdgeDirectionality.Directed props.

(** ** Updates (mutator.rs, remove.rs) *)

(** [update_node]. *)
Definition relabel (row : Z) (diff : LabelDiff) (g : SeleneGraph) : SeleneGraph :=
  set_labels (remove_node_labels row (ld_removed diff) (insert_node_labels row (ld_added diff) (idx_label g))) (idx_edge_label g) g.
Definition update_node (id : Z) (labels_diff : LabelDiff) (props_diff : PropertyDiff) : M unit :=
  check (map_err Core (validate_all (map snd (pd_set props_diff)))) ;;
  do g <- read;
  do row <- check (require_live_node id g);
  let old_labels := labels_at row g in
  let labels := patch_labels old_labels labels_diff in
  check (reject_immutable_node_update g id old_labels props_diff) ;;
  check (reject_immutable_node_update g id labels props_diff) ;;
  do props_diff <- check (coerce_node_property_diff g labels props_diff);
  let old_props := properties_at row g in
  do props <- check (apply_property_diff old_props props_diff);
  on_indexes (index_node (Some (old_labels, old_props)) (Some (labels, props)) row id) ;;
  write (fun g => let? g := write_node row labels props g in Ok (relabel row labels_diff g)) ;;
  push_change (NodeUpdated id labels_diff props_diff).

(** [update_edge]. *)
Definition update_edge (id : Z) (props_diff : PropertyDiff) : M unit :=
  check (map_err Core (validate_all (map snd (pd_set props_diff)))) ;;
  do g <- read;
  do row <- check (require_live_edge id g);
  check (reject_immutable_edge_update g id props_diff) ;;
  do props_diff <- check (coerce_edge_property_diff g id props_diff);
  do label <- check (ok_or (cv_get (index_of row) (es_label (edge_store g))) (EdgeNotFound id));
  let old_props := edge_properties_at row g in
  do props <- check (apply_property_diff old_props props_diff);
  write (write_edge_properties row props) ;;
  on_indexes (index_edge label (Some old_props) (Some props) row) ;;
  push_change (EdgeUpdated id props_diff).

(** [remove_node_property], [remove_edge_property] and [remove_node_label]. *)
Definition remove_node_property (id : Z) (property : bytes) : M unit :=
  do g <- read;
  do row <- check (require_live_node id g);
  let labels := labels_at row g in
  let old_props := properties_at row g in
  if negb (bool_decide (is_Some (pm_get property old_props))) then ret tt else
  do diff <- check (map_err Core (property_diff_new [] [property]));
  check (reject_immutable_node_update g id labels diff) ;;
  let new_props := snd (pm_remove property old_props) in
  write (fun g => let s := node_store g in
    let? p := cv_set (index_of row) new_props (ns_properties s) in
    Ok (set_nodes {| ns_labels := ns_labels s; ns_properties := p; ns_row_to_id := ns_row_to_id s; ns_alive := ns_alive s |} (node_rows g) g)) ;;
  on_indexes (index_node (Some (labels, old_props)) (Some (labels, new_props)) row id) ;;
  push_change (NodePropertyRemoved id property).
Definition remove_edge_property (id : Z) (property : bytes) : M unit :=
  do g <- read;
  do row <- check (require_live_edge id g);
  do label <- check (ok_or (cv_get (index_of row) (es_label (edge_store g))) (EdgeNotFound id));
  let old_props := edge_properties_at row g in
  if negb (bool_decide (is_Some (pm_get property old_props))) then ret tt else
  do diff <- check (map_err Core (property_diff_new [] [property]));
  check (reject_immutable_edge_update g id diff) ;;
  let new_props := snd (pm_remove property old_props) in
  write (write_edge_properties row new_props) ;;
  on_indexes (index_edge label (Some old_props) (Some new_props) row) ;;
  push_change (EdgePropertyRemoved id property).
Definition remove_node_label (id : Z) (label : bytes) : M unit :=
  do g <- read;
  do row <- check (require_live_node id g);
  let old_labels := labels_at row g in
  if negb (LabelSet.contains label old_labels) then ret tt else
  let props := properties_at row g in
  let new_labels := snd (LabelSet.remove label old_labels) in
  write (fun g => let s := node_store g in
    let? l := cv_set (index_of row) new_labels (ns_labels s) in
    Ok (set_labels (remove_index_row label row (idx_label g)) (idx_edge_label g)
          (set_nodes {| ns_labels := l; ns_properties := ns_properties s; ns_row_to_id := ns_row_to_id s; ns_alive := ns_alive s |} (node_rows g) g))) ;;
  on_indexes (index_node (Some (old_labels, props)) (Some (new_labels, props)) row id) ;;
  push_change (NodeLabelRemoved id label).

(** ** Deletion (delete.rs) *)

(** The identities of a node's incident edges, in ascending order. *)
Definition entry_ids (map : gmap Z AdjacencyEntry) (id : Z) : list Z := ae_edge_id <$> default [] (map !! id).
Definition incident_edges (id : Z) (g : SeleneGraph) : list Z :=
  let incident := entry_ids (adjacency_out g) id ++ entry_ids (adjacency_in g) id ++ entry_ids (adjacency_undirected g) id in
  if (1 <? length incident)%nat then dedup_indices (merge_sort Z.le incident) else incident.

(** [remove_node_row]. *)
Definition detach (id : Z) (g : SeleneGraph) : SeleneGraph :=
  set_adjacency (delete id (adjacency_out g)) (delete id (adjacency_in g)) (delete id (adjacency_undirected g)) g.
Definition remove_node_row (id row : Z) : M (list Z) :=
  do g <- read;
  let labels := labels_at row g in
  let props := properties_at row g in
  let incident := incident_edges id g in
  write (fun g => Ok (set_labels (remove_node_labels row labels (idx_label g)) (idx_edge_label g) g)) ;;
  on_indexes (index_node (Some (labels, props)) None row id) ;;
  write (fun g => let? g := clear_node g row in Ok (detach id g)) ;;
  ret incident.

(** [remove_edge_row_inner] and [remove_edge_row]. *)
Definition unlink (id source target : Z) (g : SeleneGraph) : SeleneGraph :=
  let undirected := remove_edge_from_adjacency source id (adjacency_undirected g) in
  set_adjacency (remove_edge_from_adjacency source id (adjacency_out g)) (remove_edge_from_adjacency target id (adjacency_in g))
    (if negb (source =? target) then remove_edge_from_adjacency target id undirected else undirected) g.
Definition remove_edge_row_inner (id row : Z) (remove_adjacency : bool) : M unit :=
  do g <- read;
  do label <- check (ok_or (cv_get (index_of row) (es_label (edge_store g))) (EdgeNotFound id));
  do source <- check (ok_or (cv_get (index_of row) (es_source (edge_store g))) (EdgeNotFound id));
  do target <- check (ok_or (cv_get (index_of row) (es_target (edge_store g))) (EdgeNotFound id));
  on_indexes (index_edge label (Some (edge_properties_at row g)) None row) ;;
  write (fun g =>
    let g := set_labels (idx_label g) (remove_index_row label row (idx_edge_label g)) g in
    clear_edge (if remove_adjacency then unlink id source target g else g) row).
Definition remove_edge_row (id row : Z) : M unit := remove_edge_row_inner id row true.

(** [delete_edge_inner] and [delete_edge]. *)
Definition delete_edge_inner (id : Z) (record_change remove_adjacency : bool) : M unit :=
  do g <- read;
  do row <- check (require_live_edge id g);
  remove_edge_row_inner id row remove_adjacency ;;
  if record_change then push_change (EdgeDeleted id) else ret tt.
Definition delete_edge (id : Z) : M unit := delete_edge_inner id true true.

(** [remove_edges_from_adjacency]: the edges by node and direction, then one update of each map. *)
Definition group (node id : Z) (m : gmap Z (list Z)) : gmap Z (list Z) := <[node := default [] (m !! node) ++ [id]]> m.
Record Groups := { outgoing : gmap Z (list Z); incoming : gmap Z (list Z); undirected : gmap Z (list Z) }.
Definition group_edge (s : Groups) (edge_id : Z) : M Groups :=
  do g <- read;
  do row <- check (require_live_edge edge_id g);
  do source <- check (ok_or (cv_get (index_of row) (es_source (edge_store g))) (EdgeNotFound edge_id));
  do target <- check (ok_or (cv_get (index_of row) (es_target (edge_store g))) (EdgeNotFound edge_id));
  ret (if (match edge_directionality edge_id g with Some EdgeDirectionality.Undirected => true | _ => false end)
       then let u := group source edge_id (undirected s) in
            {| outgoing := outgoing s; incoming := incoming s; undirected := if negb (source =? target) then group target edge_id u else u |}
       else {| outgoing := group source edge_id (outgoing s); incoming := group target edge_id (incoming s); undirected := undirected s |}).
Definition remove_edges_from_adjacency (edge_ids : list Z) : M unit :=
  do s <- fold_m group_edge {| outgoing := ∅; incoming := ∅; undirected := ∅ |} edge_ids;
  write (fun g => Ok (set_adjacency (remove_edges_from_adjacency_map (adjacency_out g) (outgoing s))
                        (remove_edges_from_adjacency_map (adjacency_in g) (incoming s))
                        (remove_edges_from_adjacency_map (adjacency_undirected g) (undirected s)) g)).

(** [delete_node]. *)
Definition delete_node (id : Z) : M unit :=
  do g <- read;
  do row <- check (require_live_node id g);
  do incident <- remove_node_row id row;
  remove_edges_from_adjacency incident ;;
  push_change (NodeDeleted id) ;;
  for_each (fun edge_id => delete_edge_inner edge_id true false) incident.

(** [truncate_node_type]: the matched rows, then their incident edges. *)
Definition truncate_matched (s : list Change * gset Z) (row : Z) : M (list Change * gset Z) :=
  let '(tombstones, incident) := s in
  do g <- read;
  if negb (ns_is_alive_row row (node_store g)) then ret s else
  match node_id_for_node_row row g with
  | None => ret s
  | Some id =>
      do edges <- remove_node_row id row;
      ret (tombstones ++ [NodeDeleted id], list_to_set edges ∪ incident)
  end.
Definition truncate_cascade (expansion : list Change) (edge_id : Z) : M (list Change) :=
  do g <- read;
  do row <- check (ok_or (edge_row_for_id edge_id g) (EdgeNotFound edge_id));
  if es_is_alive_row row (edge_store g) then
    remove_edge_row_inner edge_id row false ;; ret (expansion ++ [EdgeDeleted edge_id])
  else ret expansion.
Definition truncate_node_type (label : bytes) : M unit :=
  do g <- read;
  match idx_label g !! label with
  | None => ret tt
  | Some bitmap =>
      let matched_rows := rows_of bitmap in
      if bool_decide (matched_rows = []) then ret tt else
      do matched <- fold_m truncate_matched ([], ∅) matched_rows;
      let '(tombstones, incident) := matched in
      if bool_decide (length tombstones = 0%nat) then ret tt else
      let edges := rows_of incident in
      remove_edges_from_adjacency edges ;;
      do expansion <- fold_m truncate_cascade tombstones edges;
      push_declarative (NodesOfTypeTruncated label) expansion
  end.

(** [truncate_edge_type]. *)
Definition truncate_edge_row (expansion : list Change) (row : Z) : M (list Change) :=
  do g <- read;
  if negb (es_is_alive_row row (edge_store g)) then ret expansion else
  match edge_id_for_edge_row row g with
  | None => ret expansion
  | Some id => remove_edge_row id row ;; ret (expansion ++ [EdgeDeleted id])
  end.
Definition truncate_edge_type (label : bytes) : M unit :=
  do g <- read;
  match idx_edge_label g !! label with
  | None => ret tt
  | Some bitmap =>
      let matched_rows := rows_of bitmap in
      if bool_decide (matched_rows = []) then ret tt else
      do expansion <- fold_m truncate_edge_row [] matched_rows;
      if bool_decide (length expansion = 0%nat) then ret tt else
      push_declarative (EdgesOfTypeTruncated label) expansion
  end.

(** [delete_elements] (delete_set.rs), with its validation of the whole set. *)
Definition node_can_be_deleted (id : Z) (g : SeleneGraph) : result GraphError bool :=
  let? row := ok_or (node_row_for_id id g) (NodeNotFound id) in
  refuse negb (index_of row <? ns_len (node_store g))%nat with NodeNotFound id;
  Ok (ns_is_alive_row row (node_store g)).
Definition edge_can_be_deleted (id : Z) (g : SeleneGraph) : result GraphError bool :=
  let? row := ok_or (edge_row_for_id id g) (EdgeNotFound id) in
  refuse negb (index_of row <? es_len (edge_store g))%nat with EdgeNotFound id;
  Ok (es_is_alive_row row (edge_store g)).
Definition delete_elements (nodes edges : gset Z) : M unit :=
  for_each (fun id => do g <- read; check (node_can_be_deleted id g) ;; ret tt) (rows_of nodes) ;;
  for_each (fun id => do g <- read; check (edge_can_be_deleted id g) ;; ret tt) (rows_of edges) ;;
  for_each (fun id => do g <- read; do can <- check (node_can_be_deleted id g); if can then delete_node id else ret tt) (rows_of nodes) ;;
  for_each (fun id => do g <- read; do can <- check (edge_can_be_deleted id g); if can then delete_edge id else ret tt) (rows_of edges).

(** [factory_reset] (factory_reset.rs). *)
Definition reset_node_row (expansion : list Change) (row : Z) : M (list Change) :=
  do g <- read;
  match node_id_for_node_row row g with
  | None => ret expansion
  | Some id => remove_node_row id row ;; ret (expansion ++ [NodeDeleted id])
  end.
Definition factory_reset : M unit :=
  do g <- read;
  let node_rows := rows_of (ns_alive (node_store g)) in
  let edge_rows := rows_of (es_alive (edge_store g)) in
  do expansion <- fold_m reset_node_row [] node_rows;
  do expansion <- fold_m truncate_edge_row expansion edge_rows;
  write (fun g => Ok (set_meta {| m_graph_id := m_graph_id (meta g); m_generation := m_generation (meta g); m_next_node_id := m_next_node_id (meta g);
                                  m_next_edge_id := m_next_edge_id (meta g); m_bound_type := None |} g)) ;;
  push_declarative GraphReset expansion.

(** ** Calls in sequence *)

Inductive Call :=
| CreateNode (labels : LabelSet.t) (props : PropertyMap)
| CreateMixedEdge (label : bytes) (first second : Z) (directionality : EdgeDirectionality) (props : PropertyMap)
| UpdateNode (id : Z) (labels_diff : LabelDiff) (props_diff : PropertyDiff)
| UpdateEdge (id : Z) (props_diff : PropertyDiff)
| RemoveNodeProperty (id : Z) (property : bytes)
| RemoveEdgeProperty (id : Z) (property : bytes)
| RemoveNodeLabel (id : Z) (label : bytes)
| DeleteNode (id : Z)
| DeleteEdge (id : Z)
| DeleteElements (nodes edges : gset Z)
| TruncateNodeType (label : bytes)
| TruncateEdgeType (label : bytes)
| FactoryReset.

Definition call (c : Call) : M unit :=
  match c with
  | CreateNode labels props => create_node labels props ;; ret tt
  | CreateMixedEdge label first second directionality props => create_mixed_edge label first second directionality props ;; ret tt
  | UpdateNode id labels_diff props_diff => update_node id labels_diff props_diff
  | UpdateEdge id props_diff => update_edge id props_diff
  | RemoveNodeProperty id property => remove_node_property id property
  | RemoveEdgeProperty id property => remove_edge_property id property
  | RemoveNodeLabel id label => remove_node_label id label
  | DeleteNode id => delete_node id
  | DeleteEdge id => delete_edge id
  | DeleteElements nodes edges => delete_elements nodes edges
  | TruncateNodeType label => truncate_node_type label
  | TruncateEdgeType label => truncate_edge_type label
  | FactoryReset => factory_reset
  end.
Definition run (calls : list Call) : M unit := for_each call calls.
End Mutator.
