(* ===== verification/Seal.v ===== *)
(** Commit of a write transaction (selene-graph: write_txn.rs, write_txn/pipeline.rs,
    graph/constraint_declarations.rs): the rules of a graph, its constraint indexes,
    preparation under the write lock, and publication.

    The constraint indexes, the admitted named type and the catalog declarations of a
    graph are kept beside it ([Published]); its layout tokens are in the [Snapshot]. *)

From stdpp Require Import sorting.
From S2P Require Import Prelude Errors Wire Value Ordered LabelSet PropertyMap GraphDelta Catalog Columns GraphTypes Store Candidates TypeValidator Fanout Unique GraphApply Mutator.

Section Seal.
Context `{L : Leaves} {GE : GraphEnv} {TO : TypeOps} {CO : Comparison} {EN : Engine} {LE : LegacyEvents} {LC : LegacyChecks}.

(** ** The rules of a graph (graph/constraint_declarations.rs) *)

(** [unique_declarations]. *)
Definition unique_rule (element : ElementKind) (label declaring_type property : bytes) : ConstraintDeclaration := {|
  constraint_metadata := metadata_new Ready;
  constraint_target := {| target_element := element; target_label := label; target_properties := [property] |};
  constraint_declaring_type := declaring_type; constraint_kind := Unique; constraint_backing_index := None |}.
Definition unique_properties (properties : list PropertyTypeDef) : list PropertyTypeDef := filter (fun p => pt_unique p = true) properties.
Definition unique_declarations (bound_type : option GraphTypeDef) : list ConstraintDeclaration :=
  match bound_type with
  | None => []
  | Some definition =>
      concat (map (fun ty => concat (map (fun p => map (fun label => unique_rule Catalog.Node label (nt_name ty) (pt_name p)) (nt_key_labels ty))
                                         (unique_properties (nt_properties ty)))) (gt_node_types definition)) ++
      concat (map (fun ty => map (fun p => unique_rule Catalog.Edge (et_label ty) (et_name ty) (pt_name p)) (unique_properties (et_properties ty)))
                  (gt_edge_types definition))
  end.
Definition same_rule (a b : ConstraintDeclaration) : bool :=
  bool_decide (constraint_target a = constraint_target b) && bool_decide (constraint_declaring_type a = constraint_declaring_type b) &&
  bool_decide (constraint_kind a = constraint_kind b).
(** [validate_constraint_target]. *)
Definition target_declarations (definition : GraphTypeDef) (rule : ConstraintDeclaration) : option (list PropertyTypeDef) :=
  match target_element (constraint_target rule) with
  | Catalog.Node =>
      nt_properties ∘ snd <$> list_find (fun ty => nt_name ty = constraint_declaring_type rule /\ target_label (constraint_target rule) ∈ nt_key_labels ty) (gt_node_types definition)
  | Catalog.Edge =>
      et_properties ∘ snd <$> list_find (fun ty => et_name ty = constraint_declaring_type rule /\ et_label ty = target_label (constraint_target rule)) (gt_edge_types definition)
  end.
Definition validate_constraint_target (bound_type : option GraphTypeDef) (rule : ConstraintDeclaration) : result CatalogError unit :=
  let invalid := InvalidDeclaration "invalid_constraint_target" in
  let? definition := ok_or bound_type invalid in
  let? properties := ok_or (target_declarations definition rule) invalid in
  refuse bool_decide (target_properties (constraint_target rule) = []) ||
         existsb (fun key => negb (existsb (fun p => bool_decide (pt_name p = key)) properties)) (target_properties (constraint_target rule)) with invalid;
  Ok tt.
(** [constraint_rules]: a ready declaration replaces the first rule it equals. *)
Definition add_rule (bound_type : option GraphTypeDef) (rules : list ConstraintDeclaration) (descriptor : CatalogDescriptor) : list ConstraintDeclaration :=
  match d_payload descriptor with
  | Payload.Constraint rule =>
      if negb (bool_decide (meta_state (constraint_metadata rule) = Ready)) then rules else
      match list_find (fun existing => same_rule existing rule = true) rules with
      | Some (i, _) => <[i := rule]> rules
      | None => if negb (bool_decide (constraint_kind rule = Unique)) && negb (is_err (validate_constraint_target bound_type rule)) then rules ++ [rule] else rules
      end
  | _ => rules
  end.
Definition constraint_rules (bound_type : option GraphTypeDef) (declarations : list CatalogDescriptor) : list ConstraintDeclaration :=
  let rules := unique_declarations bound_type in
  match bound_type with
  | None => rules
  | Some _ => foldl (add_rule bound_type) rules declarations
  end.

(** ** Admission *)

(** A graph with its indexes, as it is published. *)
Record Published := {
  pub_snapshot : Snapshot;
  pub_constraints : list RuleIndex;
  pub_named : option (GraphTypeDef * list RuleIndex);
  pub_declarations : list CatalogDescriptor
}.
Definition pub_graph (p : Published) : SeleneGraph := snap_graph (pub_snapshot p).
Definition with_graph (g : SeleneGraph) (s : Snapshot) : Snapshot :=
  {| snap_graph := g; snap_physical := snap_physical s; snap_workspace_binding := snap_workspace_binding s |}.
Definition bind_type (ty : GraphTypeDef) (g : SeleneGraph) : SeleneGraph :=
  set_meta {| m_graph_id := m_graph_id (meta g); m_generation := m_generation (meta g); m_next_node_id := m_next_node_id (meta g);
              m_next_edge_id := m_next_edge_id (meta g); m_bound_type := Some ty |} g.
(** [From<TypeViolation> for GraphError]. *)
Definition violation {A} (r : outcome TypeViolation A) : outcome GraphError A :=
  map_err (fun f => match f with Panic what => Panic what | Fails v => Fails (TypeViolated v) end) r.

(** [rebuild_constraints]. *)
Fixpoint validate_targets (bound_type : option GraphTypeDef) (rules : list ConstraintDeclaration) : result GraphError unit :=
  match rules with
  | [] => Ok tt
  | rule :: rules =>
      let? _ := map_err (fun _ => Inconsistent "invalid declaration: invalid_constraint_target") (validate_constraint_target bound_type rule) in
      validate_targets bound_type rules
  end.
Definition rebuild_constraints (graph : Snapshot) (declarations : list CatalogDescriptor) : outcome GraphError (list RuleIndex) :=
  let bound_type := m_bound_type (meta (snap_graph graph)) in
  let rules := constraint_rules bound_type declarations in
  let? _ := lift (validate_targets bound_type rules) in
  violation (constraints_build graph rules).
(** [validate_unique_property_state] and [validate_entity_state] (type_validator.rs). *)
Definition validate_unique_property_state (graph : Snapshot) (declarations : list CatalogDescriptor) (type_def : GraphTypeDef) : outcome TypeViolation unit :=
  let? _ := constraints_build (with_graph (bind_type type_def (snap_graph graph)) graph) (constraint_rules (Some type_def) declarations) in
  Ok tt.
Definition validate_entity_state (graph : Snapshot) (declarations : list CatalogDescriptor) (type_def : GraphTypeDef) : outcome TypeViolation (list TypeViolation) :=
  let? warnings := validate_entity_shape graph type_def in
  let? _ := validate_unique_property_state graph declarations type_def in
  Ok warnings.
Fixpoint validate_changes (graph : SeleneGraph) (type_def : GraphTypeDef) (changes : list Change) : outcome TypeViolation (list TypeViolation) :=
  match changes with
  | [] => Ok []
  | change :: changes =>
      let? w := validate_change change graph type_def in
      let? rest := validate_changes graph type_def changes in
      Ok (w ++ rest)
  end.
(** [admit_named_constraints]. *)
Definition rebuilds (change : Change) : bool :=
  match change with SchemaChanged _ _ | NodesOfTypeTruncated _ | EdgesOfTypeTruncated _ | GraphReset => true | _ => false end.
Definition admit_named_constraints (self : Snapshot) (before : option Published) (named : GraphTypeDef) (changes : list Change) : outcome TypeViolation (GraphTypeDef * list RuleIndex) :=
  let prior :=
    before ≫= fun before => pub_named before ≫= fun p => if bool_decide (fst p = named) then Some (before, snd p) else None in
  let rebuild := match prior with None => true | Some _ => bool_decide (changes = []) || existsb rebuilds changes end in
  let? _ := if rebuild then validate_entity_shape self named else Ok [] in
  let? _ := validate_changes (snap_graph self) named changes in
  let after_view := with_graph (bind_type named (snap_graph self)) self in
  let? indexes :=
    match prior with
    | Some (before, indexes) =>
        if rebuild then constraints_build after_view (unique_declarations (Some named))
        else constraints_apply changes (bind_type named (pub_graph before)) (snap_graph after_view) indexes
    | None => constraints_build after_view (unique_declarations (Some named))
    end in
  Ok (named, indexes).

(** ** Preparation (write_txn.rs) *)

(** A transaction with its rollback snapshot and the layout of its graph. *)
Record Txn := {
  tx_work : WriteTxn;
  tx_layout : Snapshot;
  tx_before : Published;
  tx_warnings : list TypeViolation
}.
(** [WriteTxn::new]. *)
Definition begin_txn (guard : Published) (allocator : IdAllocator) : Txn := {|
  tx_work := {| txn_graph := pub_graph guard; allocator := allocator; changes := []; truncate_expansions := [] |};
  tx_layout := pub_snapshot guard; tx_before := guard; tx_warnings := [] |}.
(** A transaction after its calls to the mutator. *)
Definition after_run (w : WriteTxn) (t : Txn) : Txn := {| tx_work := w; tx_layout := tx_layout t; tx_before := tx_before t; tx_warnings := tx_warnings t |}.
Record PreparedGraphCommit := {
  next_snapshot : Published;
  prepared_changes : list Change;
  principal : option bytes;
  schema_changed : bool;
  prepared_generation : Z;
  prepared_next_node_id : Z;
  prepared_next_edge_id : Z;
  prepared_warnings : list TypeViolation
}.

Fixpoint validate_stored (changes : list Change) : result GraphError unit :=
  match changes with
  | [] => Ok tt
  | change :: changes => let? _ := map_err Core (change_validate change) in validate_stored changes
  end.
Definition is_schema_change (change : Change) : bool := match change with SchemaChanged _ _ => true | _ => false end.
(** [has_schema_changes]. *)
Definition has_schema_changes (self : WriteTxn) : bool := existsb is_schema_change (changes self).
Definition bump (generation next_node_id next_edge_id : Z) (g : SeleneGraph) : SeleneGraph :=
  set_meta {| m_graph_id := m_graph_id (meta g); m_generation := generation; m_next_node_id := next_node_id; m_next_edge_id := next_edge_id;
              m_bound_type := m_bound_type (meta g) |} g.
Definition push_warning (warnings : list TypeViolation) (warning : TypeViolation) : list TypeViolation :=
  if bool_decide (warning ∈ warnings) then warnings else warnings ++ [warning].

(** [prepare_commit_parts]. *)
Definition prepare_commit_parts (principal : option bytes) (cancel : option bool) (self : Txn) : outcome GraphError (PreparedGraphCommit * option (list Change)) :=
  let work := tx_work self in
  let before := tx_before self in
  let? _ := lift (validate_stored (changes work)) in
  let schema_changed := has_schema_changes work in
  let next_node := next_node_id (allocator work) in
  let next_edge := next_edge_id (allocator work) in
  let? generation := lift (ok_or (checked_add (m_generation (meta (txn_graph work))) 1) (CounterExhausted "graph generation")) in
  let graph := bump generation next_node next_edge (txn_graph work) in
  let view := with_graph graph (tx_layout self) in
  let? warnings :=
    match m_bound_type (meta graph) with
    | None => Ok []
    | Some type_def =>
        let? w := violation (validate_changes graph type_def (changes work)) in
        let? w' := if schema_changed then violation (validate_entity_state view (pub_declarations before) type_def) else Ok [] in
        Ok (w ++ w')
    end in
  let? constraints :=
    if schema_changed || bool_decide (m_bound_type (meta graph) = None) then rebuild_constraints view (pub_declarations before)
    else
      let expanded := expand_truncates_for_fanout (changes work) (truncate_expansions work) in
      violation (constraints_apply (default (changes work) expanded) (pub_graph before) graph (pub_constraints before)) in
  let? named :=
    match pub_named before with
    | Some (named, _) => let? admitted := violation (admit_named_constraints view (Some before) named (changes work)) in Ok (Some admitted)
    | None => Ok None
    end in
  let warnings := foldl push_warning (tx_warnings self) warnings in
  refuse bool_decide (cancel = Some true) with Fails Cancelled;
  Ok ({| next_snapshot := {| pub_snapshot := view; pub_constraints := constraints; pub_named := named; pub_declarations := pub_declarations before |};
         prepared_changes := changes work; principal := principal; schema_changed := schema_changed; prepared_generation := generation;
         prepared_next_node_id := next_node; prepared_next_edge_id := next_edge; prepared_warnings := warnings |},
      expand_truncates_for_fanout (changes work) (truncate_expansions work)).

(** [prepare_unpublished] and [seal], with the graph under the lock afterwards: [Drop]
    restores the one before the transaction, unless [seal] has disarmed it. *)
Definition prepare_unpublished (principal : option bytes) (cancel : option bool) (self : Txn) : outcome GraphError PreparedGraphCommit * Published :=
  (let? parts := prepare_commit_parts principal cancel self in Ok (fst parts), tx_before self).
Record SealedCommit := { seal_seq : Z; sealed : PreparedGraphCommit; fanout_changes : option (list Change) }.
Definition seal (principal : option bytes) (cancel : option bool) (next_seal_seq : Z) (self : Txn) : outcome GraphError SealedCommit * Published :=
  match prepare_commit_parts principal cancel self with
  | Ok (prepared, fanout) => (Ok {| seal_seq := next_seal_seq; sealed := prepared; fanout_changes := fanout |}, next_snapshot prepared)
  | Err err => (Err err, tx_before self)
  end.
(** [rollback]. *)
Definition rollback (self : Txn) : Published := tx_before self.

(** ** Publication (write_txn/pipeline.rs) *)

Record CommitOutcome := {
  out_generation : Z;
  out_changes : list Change;
  out_principal : option bytes;
  out_next_node_id : Z;
  out_next_edge_id : Z;
  out_warnings : list TypeViolation
}.
(** What readers and index providers have seen. *)
Record Memory := { mem_snapshot : Published; schema_version : Z; notified : list (Z * list Change) }.
(** [publish_sealed]. *)
Definition publish_sealed (s : SealedCommit) (m : Memory) : CommitOutcome * Memory :=
  let c := sealed s in
  ({| out_generation := prepared_generation c; out_changes := prepared_changes c; out_principal := principal c;
      out_next_node_id := prepared_next_node_id c; out_next_edge_id := prepared_next_edge_id c; out_warnings := prepared_warnings c |},
   {| mem_snapshot := next_snapshot c;
      schema_version := if schema_changed c then (schema_version m + 1) mod 2 ^ 64 else schema_version m;
      notified := notified m ++ [(prepared_generation c, default (prepared_changes c) (fanout_changes s))] |}).
End Seal.
