(* ===== verification/Consistent.v ===== *)
(** Consistent graphs: the columns are well formed, the label bitmaps and adjacency
    lists hold exactly what the rows say, and no edge dangles.  The lemmas are about
    the writes that the mutation funnel is made of. *)

From stdpp Require Import sorting.
From S2P Require Import Prelude Errors Wire Value Ordered LabelSet PropertyMap GraphDelta Columns GraphTypes Store Derived GraphApply GraphApplyProps Mutator.

Section Consistent.
Context `{L : Leaves} {LE : LegacyEvents} {LC : LegacyChecks} {GE : GraphEnv}.

(** ** Definitions *)

Definition node_label (s : NodeStore) (label : bytes) (row : Z) : Prop := exists n, node_at s row = Some n /\ label ∈ n_labels n.
Definition edge_label_at (s : EdgeStore) (label : bytes) (row : Z) : Prop := exists e, edge_at s row = Some e /\ e_label e = label.

(** The edges out of, into and beside a node. *)
Definition out_of (edges : gmap Z Edge) (n : Z) (a : AdjacencyEdge) : Prop :=
  exists e, edges !! ae_edge_id a = Some e /\ e_directionality e = EdgeDirectionality.Directed /\ e_source e = n /\
    ae_neighbor a = e_target e /\ ae_label a = e_label e.
Definition into (edges : gmap Z Edge) (n : Z) (a : AdjacencyEdge) : Prop :=
  exists e, edges !! ae_edge_id a = Some e /\ e_directionality e = EdgeDirectionality.Directed /\ e_target e = n /\
    ae_neighbor a = e_source e /\ ae_label a = e_label e.
Definition beside (edges : gmap Z Edge) (n : Z) (a : AdjacencyEdge) : Prop :=
  exists e, edges !! ae_edge_id a = Some e /\ e_directionality e = EdgeDirectionality.Undirected /\
    ((e_source e = n /\ ae_neighbor a = e_target e) \/ (e_target e = n /\ ae_neighbor a = e_source e)) /\ ae_label a = e_label e.

(** The adjacency maps list the edges, of a node and an edge that are kept. *)
Record adjacent (g : SeleneGraph) (edges : gmap Z Edge) (keep : Z -> Z -> Prop) : Prop := {
  adj_out : listing (adjacency_out g) (fun n a => out_of edges n a /\ keep n (ae_edge_id a));
  adj_in : listing (adjacency_in g) (fun n a => into edges n a /\ keep n (ae_edge_id a));
  adj_undirected : listing (adjacency_undirected g) (fun n a => beside edges n a /\ keep n (ae_edge_id a))
}.

(** Columns, label bitmaps and label sets. *)
Record shape (g : SeleneGraph) : Prop := {
  sh_columns : columns_ok g;
  sh_labels : bitmaps (idx_label g) (node_label (node_store g));
  sh_edge_labels : bitmaps (idx_edge_label g) (edge_label_at (edge_store g));
  sh_sorted : forall row n, node_at (node_store g) row = Some n -> sorted_names (n_labels n)
}.

(** What a rebuild demands of the contents: every live edge joins two live nodes, and
    the endpoints of a live undirected edge are in canonical order, the smaller
    identity first (rebuild.rs checks both). *)
Definition closed (lg : LogicalGraph) : Prop :=
  forall id e, lg_edges lg !! id = Some e -> is_Some (lg_nodes lg !! e_source e) /\ is_Some (lg_nodes lg !! e_target e) /\
    EdgeDirectionality.canonical_endpoints (e_directionality e) (e_source e) (e_target e) = (e_source e, e_target e).

Definition everything (_ _ : Z) : Prop := True.
Record consistent (g : SeleneGraph) : Prop := {
  con_shape : shape g;
  con_adjacent : adjacent g (lg_edges (logical g)) everything;
  con_closed : closed (logical g)
}.

(** ** Adjacency *)

Lemma out_of_one_way edges keep : one_way (fun n a => out_of edges n a /\ keep n (ae_edge_id a)).
Proof.
  intros n [l1 n1 i1] [l2 n2 i2] [(e & E & _ & _ & N1 & L1) _] [(e' & E' & _ & _ & N2 & L2) _]. cbn in *. intros ->. rewrite E in E'. simplify_eq. done.
Qed.
Lemma into_one_way edges keep : one_way (fun n a => into edges n a /\ keep n (ae_edge_id a)).
Proof.
  intros n [l1 n1 i1] [l2 n2 i2] [(e & E & _ & _ & N1 & L1) _] [(e' & E' & _ & _ & N2 & L2) _]. cbn in *. intros ->. rewrite E in E'. simplify_eq. done.
Qed.
Lemma beside_one_way edges keep : one_way (fun n a => beside edges n a /\ keep n (ae_edge_id a)).
Proof.
  intros n [l1 n1 i1] [l2 n2 i2] [(e & E & _ & C1 & L1) _] [(e' & E' & _ & C2 & L2) _]. cbn in *. intros ->. rewrite E in E'. simplify_eq.
  f_equal. destruct C1 as [[? ?]|[? ?]], C2 as [[? ?]|[? ?]]; congruence.
Qed.

Lemma adjacent_same g g' edges keep : adjacency_out g' = adjacency_out g -> adjacency_in g' = adjacency_in g ->
  adjacency_undirected g' = adjacency_undirected g -> adjacent g edges keep -> adjacent g' edges keep.
Proof. intros E1 E2 E3 [A B C]. split; by rewrite ?E1, ?E2, ?E3. Qed.

Lemma adjacent_ext g edges (keep keep' : Z -> Z -> Prop) :
  (forall n id e, edges !! id = Some e -> n = e_source e \/ n = e_target e -> keep n id <-> keep' n id) ->
  adjacent g edges keep -> adjacent g edges keep'.
Proof.
  intros Hk [A B C]. split; (eapply listing_ext; [|eassumption]); intros n a; cbn; split; intros [(e & E & D & S & X) K];
    (split; [by exists e|]); apply (Hk n _ e E); auto; destruct S as [[? _]|[? _]]; auto.
Qed.

(** The edges that are left. *)
Lemma adjacent_restrict g (edges edges' : gmap Z Edge) (keep : Z -> Z -> Prop) :
  (forall id e, edges' !! id = Some e -> edges !! id = Some e) ->
  (forall n id e, edges !! id = Some e -> n = e_source e \/ n = e_target e -> keep n id <-> is_Some (edges' !! id)) ->
  adjacent g edges keep -> adjacent g edges' everything.
Proof.
  intros Hs Hk [A B C].
  assert (Hget : forall id e, edges !! id = Some e -> is_Some (edges' !! id) -> edges' !! id = Some e).
  { intros id e E [e' E']. rewrite E'. apply Hs in E'. congruence. }
  split; (eapply listing_ext; [|eassumption]); intros n a; cbn; (split; [intros [(e & E & D & S & X) K]|intros [(e & E & D & S & X) _]]).
  - split; [|done]. exists e. split; [|done]. apply Hget; [done|]. apply (Hk n _ e E); [auto|done].
  - split; [exists e; split; [by apply Hs|done]|]. apply (Hk n _ e); [by apply Hs|auto|]. by exists e.
  - split; [|done]. exists e. split; [|done]. apply Hget; [done|]. apply (Hk n _ e E); [auto|done].
  - split; [exists e; split; [by apply Hs|done]|]. apply (Hk n _ e); [by apply Hs|auto|]. by exists e.
  - split; [|done]. exists e. split; [|done]. apply Hget; [done|]. apply (Hk n _ e E); [destruct S as [[? _]|[? _]]; auto|done].
  - split; [exists e; split; [by apply Hs|done]|]. apply (Hk n _ e); [by apply Hs|destruct S as [[? _]|[? _]]; auto|]. by exists e.
Qed.

(** Properties do not take part. *)
Lemma adjacent_properties g (edges edges' : gmap Z Edge) keep :
  (forall id, (fun e => (e_directionality e, e_label e, e_source e, e_target e)) <$> edges !! id =
              (fun e => (e_directionality e, e_label e, e_source e, e_target e)) <$> edges' !! id) ->
  adjacent g edges keep -> adjacent g edges' keep.
Proof.
  intros He [A B C]. split; (eapply listing_ext; [|eassumption]); intros n a; cbn; pose proof (He (ae_edge_id a)) as Ha; unfold out_of, into, beside;
    (destruct (edges !! ae_edge_id a) as [e|], (edges' !! ae_edge_id a) as [e'|]; [|done|done|]); cbn in Ha;
    try (injection Ha as D0 L0 S0 T0); split; (intros [(x & E & R) K]; split; [|done]); simplify_eq; eexists; (split; [done|]);
    rewrite ?D0, ?L0, ?S0, ?T0 in *; rewrite <- ?D0, <- ?L0, <- ?S0, <- ?T0 in *; done.
Qed.

Lemma adjacent_detach g edges keep id : adjacent g edges keep -> adjacent (detach id g) edges (fun n i => keep n i /\ n <> id).
Proof.
  intros [A B C]. split; (eapply listing_ext; [|apply listing_delete; eassumption]); intros n a; cbn; tauto.
Qed.

Lemma adjacent_unlink g edges keep id e : edges !! id = Some e -> adjacent g edges keep ->
  adjacent (unlink id (e_source e) (e_target e) g) edges (fun n i => keep n i /\ i <> id).
Proof.
  intros E [A B C]. split; cbn.
  - eapply listing_ext; [|apply listing_remove; [exact A|apply out_of_one_way]]. intros n a. cbn. split.
    + intros [[O K] Hn]. split; [done|]. split; [done|]. intros Hi. apply Hn. destruct O as (e' & E' & _ & S & _). rewrite Hi, E in E'. by simplify_eq.
    + intros [O [K Hi]]. split; [done|]. by intros [_ ?].
  - eapply listing_ext; [|apply listing_remove; [exact B|apply into_one_way]]. intros n a. cbn. split.
    + intros [[O K] Hn]. split; [done|]. split; [done|]. intros Hi. apply Hn. destruct O as (e' & E' & _ & S & _). rewrite Hi, E in E'. by simplify_eq.
    + intros [O [K Hi]]. split; [done|]. by intros [_ ?].
  - pose proof (listing_remove _ _ (e_source e) id C (beside_one_way _ _)) as C1. destruct (Z.eqb_spec (e_source e) (e_target e)) as [Est|Est]; cbn.
    + eapply listing_ext; [|exact C1]. intros n a. cbn. split.
      * intros [[O K] Hn]. split; [done|]. split; [done|]. intros Hi. apply Hn. destruct O as (e' & E' & _ & S & _). rewrite Hi, E in E'. simplify_eq.
        split; [|done]. destruct S as [[? _]|[? _]]; congruence.
      * intros [O [K Hi]]. split; [done|]. by intros [_ ?].
    + eapply listing_ext; [|apply listing_remove; [exact C1|]].
      * intros n a. cbn. split.
        -- intros [[[O K] Hn] Hm]. split; [done|]. split; [done|]. intros Hi. destruct O as (e' & E' & _ & S & _). rewrite Hi, E in E'. simplify_eq.
           destruct S as [[? _]|[? _]]; [by apply Hn|by apply Hm].
        -- intros [O [K Hi]]. split; [|by intros [_ ?]]. split; [done|]. by intros [_ ?].
      * intros n a b [Ha _] [Hb _]. by apply (beside_one_way edges keep n a b).
Qed.

(** A new edge. *)
Lemma out_of_insert (edges : gmap Z Edge) id e n a : edges !! id = None -> out_of (<[id := e]> edges) n a <-> out_of edges n a \/
  (e_directionality e = EdgeDirectionality.Directed /\ n = e_source e /\ a = {| ae_label := e_label e; ae_neighbor := e_target e; ae_edge_id := id |}).
Proof.
  intros E. destruct a as [l m i]. unfold out_of. cbn. destruct (decide (i = id)) as [->|Hne].
  - rewrite lookup_insert_eq, E. split; [intros (x & [= <-] & D & S & N & X); right; by subst|].
    intros [(x & Hx & _)|(D & -> & [= -> ->])]; [done|]. by exists e.
  - rewrite lookup_insert_ne by done. split; [tauto|]. intros [?|(_ & _ & [=])]; [done|congruence].
Qed.
Lemma into_insert (edges : gmap Z Edge) id e n a : edges !! id = None -> into (<[id := e]> edges) n a <-> into edges n a \/
  (e_directionality e = EdgeDirectionality.Directed /\ n = e_target e /\ a = {| ae_label := e_label e; ae_neighbor := e_source e; ae_edge_id := id |}).
Proof.
  intros E. destruct a as [l m i]. unfold into. cbn. destruct (decide (i = id)) as [->|Hne].
  - rewrite lookup_insert_eq, E. split; [intros (x & [= <-] & D & S & N & X); right; by subst|].
    intros [(x & Hx & _)|(D & -> & [= -> ->])]; [done|]. by exists e.
  - rewrite lookup_insert_ne by done. split; [tauto|]. intros [?|(_ & _ & [=])]; [done|congruence].
Qed.
Lemma beside_insert (edges : gmap Z Edge) id e n a : edges !! id = None -> beside (<[id := e]> edges) n a <-> beside edges n a \/
  (e_directionality e = EdgeDirectionality.Undirected /\
    ((n = e_source e /\ a = {| ae_label := e_label e; ae_neighbor := e_target e; ae_edge_id := id |}) \/
     (n = e_target e /\ a = {| ae_label := e_label e; ae_neighbor := e_source e; ae_edge_id := id |}))).
Proof.
  intros E. destruct a as [l m i]. unfold beside. cbn. destruct (decide (i = id)) as [->|Hne].
  - rewrite lookup_insert_eq, E. split.
    + intros (x & [= <-] & D & S & X). right. split; [done|]. destruct S as [[? ?]|[? ?]]; [left|right]; by subst.
    + intros [(x & Hx & _)|(D & [(-> & [= -> ->])|(-> & [= -> ->])])]; [done| |]; exists e; tauto.
  - rewrite lookup_insert_ne by done. split; [tauto|]. intros [?|(_ & [(_ & [=])|(_ & [=])])]; [done|congruence..].
Qed.

Lemma adjacent_link g edges id e : edges !! id = None -> adjacent g edges everything ->
  adjacent (link id (e_label e) (e_source e) (e_target e) (e_directionality e) g) (<[id := e]> edges) everything.
Proof.
  intros E [A B C]. unfold link. destruct (e_directionality e) eqn:D; split; cbn; try (eapply listing_ext; [|eassumption]); cbn.
  - eapply listing_ext; [|apply listing_insert; [exact A|]]; cbn.
    + intros n a. rewrite out_of_insert by done. naive_solver.
    + intros [(x & Hx & _) _]. cbn in Hx. congruence.
  - eapply listing_ext; [|apply listing_insert; [exact B|]]; cbn.
    + intros n a. rewrite into_insert by done. naive_solver.
    + intros [(x & Hx & _) _]. cbn in Hx. congruence.
  - intros n a. rewrite beside_insert by done. rewrite D. naive_solver.
  - intros n a. rewrite out_of_insert by done. rewrite D. naive_solver.
  - intros n a. rewrite into_insert by done. rewrite D. naive_solver.
  - set (ed := fun neighbor => {| ae_label := e_label e; ae_neighbor := neighbor; ae_edge_id := id |}).
    assert (C1 : listing (adjacency_insert (e_source e) (ed (e_target e)) (adjacency_undirected g))
      (fun n a => (beside edges n a /\ everything n (ae_edge_id a)) \/ (n = e_source e /\ a = ed (e_target e)))).
    { apply listing_insert; [exact C|]. intros [(x & Hx & _) _]. cbn in Hx. congruence. }
    destruct (Z.eqb_spec (e_source e) (e_target e)) as [Est|Est]; cbn.
    + eapply listing_ext; [|exact C1]. intros n a. cbn. rewrite beside_insert by done. rewrite D, Est. unfold ed, everything. intuition.
    + eapply listing_ext; [|apply listing_insert; [exact C1|]]; cbn.
      * intros n a. rewrite beside_insert by done. rewrite D. unfold ed, everything. intuition.
      * intros [[(x & Hx & _) _]|[Hs _]]; [cbn in Hx; congruence|congruence].
Qed.

(** ** Writes *)

Lemma node_dead s rows row : nodes_ok s rows -> ~ 0 <= row < Z.of_nat (ns_len s) -> node_at s row = None.
Proof. intros N Hr. apply node_at_dead. by intros ?%(node_range _ _ N). Qed.
Lemma edge_dead s rows row : edges_ok s rows -> ~ 0 <= row < Z.of_nat (es_len s) -> edge_at s row = None.
Proof. intros N Hr. apply edge_at_dead. by intros ?%(edge_range _ _ N). Qed.

Lemma live_row_node g id n : nodes_ok (node_store g) (node_rows g) -> lg_nodes (logical g) !! id = Some n ->
  exists row, node_rows g !! id = Some row /\ row ∈ ns_alive (node_store g) /\ node_at (node_store g) row = Some n.
Proof.
  intros N E. destruct (node_spec g id N) as [(row & n' & _ & Hr & Ha & Hat & E' & _)|[_ E']]; [|congruence]. exists row. rewrite E in E'. injection E' as <-. done.
Qed.
Lemma live_row_edge g id e : edges_ok (edge_store g) (edge_rows g) -> lg_edges (logical g) !! id = Some e ->
  exists row, edge_rows g !! id = Some row /\ row ∈ es_alive (edge_store g) /\ edge_at (edge_store g) row = Some e /\ edge_columns (edge_store g) row e.
Proof.
  intros N E. destruct (edge_spec g id N) as [(row & e' & _ & Hr & Ha & Hat & E' & Hc)|[_ E']]; [|congruence]. exists row. rewrite E in E'. injection E' as <-. done.
Qed.
Lemma node_at_logical g id row n : node_rows g !! id = Some row -> node_at (node_store g) row = Some n -> lg_nodes (logical g) !! id = Some n.
Proof. intros E Hat. cbn. by rewrite lookup_omap, E. Qed.
Lemma edge_at_logical g id row e : edge_rows g !! id = Some row -> edge_at (edge_store g) row = Some e -> lg_edges (logical g) !! id = Some e.
Proof. intros E Hat. cbn. by rewrite lookup_omap, E. Qed.

(** [create_node]. *)
Lemma push_node_consistent g id row labels props :
  row = Z.of_nat (ns_len (node_store g)) -> consistent g -> id <> TOMBSTONE -> node_rows g !! id = None -> Z.of_nat (ns_len (node_store g)) < u32_max -> sorted_names labels ->
  let g' := push_node id row labels props g in
  consistent g' /\ logical g' = {| lg_nodes := <[id := {| n_labels := labels; n_properties := props |}]> (lg_nodes (logical g)); lg_edges := lg_edges (logical g);
                                   lg_node_ids := {[id]} ∪ lg_node_ids (logical g); lg_edge_ids := lg_edge_ids (logical g) |}.
Proof.
  intros -> [[[N M] SL SE SS] CA CC] Hz Hn Hlt Hs g'. destruct (push_node_spec _ _ N id labels props Hz Hn Hlt) as (N' & Hat & EL).
  assert (HL : logical g' = {| lg_nodes := <[id := {| n_labels := labels; n_properties := props |}]> (lg_nodes (logical g)); lg_edges := lg_edges (logical g);
                                   lg_node_ids := {[id]} ∪ lg_node_ids (logical g); lg_edge_ids := lg_edge_ids (logical g) |}).
  { unfold logical. cbn. cbn in EL. rewrite EL. f_equal. by rewrite dom_insert_L. }
  pose proof (node_dead _ _ (Z.of_nat (ns_len (node_store g))) N ltac:(lia)) as Hdead.
  split; [|done]. split; [|rewrite HL; by apply (adjacent_same g)|rewrite HL].
  - split; [by split| |done|].
    + eapply bitmaps_ext; [|apply bitmaps_insert_all; exact SL]. intros l r. unfold node_label. cbn [node_store push_node set_labels set_nodes] in *. rewrite Hat.
      destruct (decide (r = _)) as [->|Hne]; [rewrite Hdead|]; naive_solver.
    + intros r n. cbn [node_store push_node set_labels set_nodes]. rewrite Hat. destruct (decide (r = _)) as [->|]; [by intros [= <-]|apply SS].
  - intros i e He. destruct (CC i e He) as (H1 & H2 & H3). cbn. split; [|split; [|done]]; apply lookup_insert_is_Some'; by right.
Qed.

(** [create_mixed_edge]. *)
Lemma push_edge_consistent g id row e :
  row = Z.of_nat (es_len (edge_store g)) -> consistent g -> id <> TOMBSTONE -> edge_rows g !! id = None -> Z.of_nat (es_len (edge_store g)) < u32_max ->
  is_Some (lg_nodes (logical g) !! e_source e) -> is_Some (lg_nodes (logical g) !! e_target e) ->
  EdgeDirectionality.canonical_endpoints (e_directionality e) (e_source e) (e_target e) = (e_source e, e_target e) ->
  let g' := push_edge id row (e_label e) (e_source e) (e_target e) (e_directionality e) (e_properties e) g in
  consistent g' /\ logical g' = {| lg_nodes := lg_nodes (logical g); lg_edges := <[id := e]> (lg_edges (logical g));
                                   lg_node_ids := lg_node_ids (logical g); lg_edge_ids := {[id]} ∪ lg_edge_ids (logical g) |}.
Proof.
  intros -> [[[N M] SL SE SS] CA CC] Hz Hn Hlt Hs Ht Hc g'. destruct (push_edge_spec _ _ M id e Hz Hn Hlt) as (M' & Hat & EL).
  assert (Hst : node_store g' = node_store g /\ node_rows g' = node_rows g /\ idx_label g' = idx_label g) by (unfold g', push_edge, link; by destruct (e_directionality e)).
  assert (Hes : exists s', edge_store g' = s' /\ edge_rows g' = <[id := Z.of_nat (es_len (edge_store g))]> (edge_rows g) /\
     idx_edge_label g' = insert_index_row (e_label e) (Z.of_nat (es_len (edge_store g))) (idx_edge_label g) /\
     edges_ok s' (<[id := Z.of_nat (es_len (edge_store g))]> (edge_rows g)) /\
     (forall r, edge_at s' r = if decide (r = Z.of_nat (es_len (edge_store g))) then Some e else edge_at (edge_store g) r) /\
     omap (edge_at s') (<[id := Z.of_nat (es_len (edge_store g))]> (edge_rows g)) = <[id := e]> (omap (edge_at (edge_store g)) (edge_rows g))).
  { eexists. split; [done|]. unfold g', push_edge, link. by destruct (e_directionality e). }
  clear M' Hat EL. destruct Hst as (Es & Er & Ei), Hes as (s' & Ee & Erow & Eidx & M' & Hat & EL).
  assert (HL : logical g' = {| lg_nodes := lg_nodes (logical g); lg_edges := <[id := e]> (lg_edges (logical g));
                                   lg_node_ids := lg_node_ids (logical g); lg_edge_ids := {[id]} ∪ lg_edge_ids (logical g) |}).
  { unfold logical. rewrite Es, Er, Ee, Erow. cbn. rewrite EL. f_equal. by rewrite dom_insert_L. }
  pose proof (edge_dead _ _ (Z.of_nat (es_len (edge_store g))) M ltac:(lia)) as Hdead.
  split; [|done]. split; [|rewrite HL|rewrite HL].
  - split; [split; rewrite ?Es, ?Er, ?Ee, ?Erow; done|by rewrite Es, Ei| |by rewrite Es].
    rewrite Ee, Eidx. eapply bitmaps_ext; [|apply bitmaps_insert; exact SE]. intros l r. unfold edge_label_at. cbn. rewrite Hat.
    destruct (decide (r = _)) as [->|Hne]; [rewrite Hdead|]; naive_solver.
  - cbn [lg_edges]. apply (adjacent_link _ (lg_edges (logical g)) id e); [cbn; by rewrite lookup_omap, Hn|by apply (adjacent_same g)].
  - intros i e' He. cbn in He |- *. destruct (decide (i = id)) as [->|Hne]; [rewrite lookup_insert_eq in He; by simplify_eq|].
    rewrite lookup_insert_ne in He by done. by apply CC in He.
Qed.

(** Indexes do not take part. *)
Lemma shape_indexes i g : shape g -> shape (set_indexes i g).
Proof. intros [C A B D]. by split. Qed.
Lemma consistent_indexes i g : consistent g -> consistent (set_indexes i g).
Proof. intros [A B C]. split; [by apply shape_indexes|by apply (adjacent_same g)|done]. Qed.
Lemma consistent_meta m g : consistent g -> consistent (set_meta m g).
Proof. intros [[C A B D] F G]. split; [by split|by apply (adjacent_same g)|done]. Qed.

(** A write to a live node. *)
Lemma node_write_consistent g s' idx id row n n' :
  consistent g -> node_rows g !! id = Some row -> node_at (node_store g) row = Some n -> nodes_ok s' (node_rows g) ->
  (forall r, node_at s' r = if decide (r = row) then Some n' else node_at (node_store g) r) -> sorted_names (n_labels n') -> bitmaps idx (node_label s') ->
  let g' := set_labels idx (idx_edge_label g) (set_nodes s' (node_rows g) g) in
  consistent g' /\ logical g' = with_nodes (<[id := n']> (lg_nodes (logical g))) (logical g).
Proof.
  intros [[[N M] SL SE SS] CA CC] Hrow Hn N' Hat Hs HB g'.
  assert (HL : logical g' = with_nodes (<[id := n']> (lg_nodes (logical g))) (logical g)).
  { change (logical g') with (logical (set_nodes s' (node_rows g) g)). by apply (logical_node_write g s' id row (Some n')). }
  split; [|done]. split; [|rewrite HL; by apply (adjacent_same g)|rewrite HL].
  - split; [by split|done|done|]. intros r x. cbn. rewrite Hat. destruct (decide (r = row)); [by intros [= <-]|apply SS].
  - intros i e He. destruct (CC i e He) as (H1 & H2 & H3). cbn. split; [|split; [|done]]; apply lookup_insert_is_Some'; by right.
Qed.

(** A write to the properties of a live edge. *)
Lemma edge_write_consistent g s' id row e p :
  consistent g -> edge_rows g !! id = Some row -> edge_at (edge_store g) row = Some e -> edges_ok s' (edge_rows g) ->
  (forall r, edge_at s' r = if decide (r = row) then Some (with_edge_properties p e) else edge_at (edge_store g) r) ->
  let g' := set_edges s' (edge_rows g) g in
  consistent g' /\ logical g' = with_edges (<[id := with_edge_properties p e]> (lg_edges (logical g))) (logical g).
Proof.
  intros [[[N M] SL SE SS] CA CC] Hrow He M' Hat g'. pose proof (edge_at_logical g id row e Hrow He) as HLe.
  assert (HL : logical g' = with_edges (<[id := with_edge_properties p e]> (lg_edges (logical g))) (logical g)).
  { by apply (logical_edge_write g s' id row (Some (with_edge_properties p e))). }
  split; [|done]. split; [|rewrite HL|rewrite HL].
  - split; [by split|done| |done]. eapply bitmaps_ext; [|exact SE]. intros l r. unfold edge_label_at. cbn. rewrite Hat.
    destruct (decide (r = row)) as [->|]; [|done]. rewrite He. naive_solver.
  - apply (adjacent_same g); [done..|]. eapply adjacent_properties; [|exact CA]. intros i. cbn [lg_edges with_edges].
    destruct (decide (i = id)) as [->|Hne]; [by rewrite lookup_insert_eq, HLe|by rewrite lookup_insert_ne].
  - intros i x. cbn [lg_edges with_edges lg_nodes]. destruct (decide (i = id)) as [->|Hne]; [|rewrite lookup_insert_ne by done; apply CC].
    rewrite lookup_insert_eq. intros [= <-]. apply (CC id e HLe).
Qed.

(** The identities keep their rows, and the metadata stay. *)
Definition same_rows (g g' : SeleneGraph) : Prop := node_rows g' = node_rows g /\ edge_rows g' = edge_rows g /\ meta g' = meta g.

Lemma same_rows_trans g1 g2 g3 : same_rows g1 g2 -> same_rows g2 g3 -> same_rows g1 g3.
Proof. intros (A & B & C) (D & E & F). split_and!; congruence. Qed.
Lemma bound_id len ids alive rows id row : bound_rows len ids alive rows -> rows !! id = Some row -> not_tombstone (cv_get (index_of row) ids) = Some id.
Proof.
  intros B Hr. destruct (row_id B row (row_range B id row Hr)) as (id' & -> & Hid'). rewrite (row_inj B id' id row Hid' Hr). cbn.
  pose proof (br_nonzero _ _ _ _ B id' ltac:(by eexists)). by rewrite (proj2 (Z.eqb_neq _ _)).
Qed.

(** The row of a node is cleared. *)
Lemma clear_node_shape {E} g i id row n : shape g -> node_rows g !! id = Some row -> node_at (node_store g) row = Some n ->
  exists g', clear_node (E := E) (set_indexes i (set_labels (remove_node_labels row (n_labels n) (idx_label g)) (idx_edge_label g) g)) row = Ok g' /\
    shape g' /\ logical g' = with_nodes (delete id (lg_nodes (logical g))) (logical g) /\ same_rows g g' /\
    adjacency_out g' = adjacency_out g /\ adjacency_in g' = adjacency_in g /\ adjacency_undirected g' = adjacency_undirected g.
Proof.
  intros [[N M] SL SE SS] Hrow Hn. set (g0 := set_indexes i _).
  destruct (clear_node_ok (E := E) g0 row N (row_range (no_rows _ _ N) id row Hrow)) as (s' & -> & N' & _ & HA). exists (set_nodes s' (node_rows g0) g0). split; [done|].
  split; [|split; [by apply (logical_node_write g s' id row None)|done]].
  split; [by split| |done|].
  - eapply bitmaps_ext; [|apply bitmaps_remove_all; exact SL]. intros l r. unfold node_label. cbn [node_store set_nodes]. rewrite HA.
    change (node_store g0) with (node_store g). destruct (decide (r = row)) as [->|Hne]; [rewrite Hn|]; naive_solver.
  - intros r x. cbn [node_store set_nodes]. rewrite HA. destruct (decide (r = row)); [done|apply SS].
Qed.

(** The row of an edge is cleared. *)
Lemma clear_edge_shape {E} g g0 id row e : shape g -> edge_rows g !! id = Some row -> edge_at (edge_store g) row = Some e ->
  node_store g0 = node_store g -> node_rows g0 = node_rows g -> edge_store g0 = edge_store g -> edge_rows g0 = edge_rows g -> meta g0 = meta g -> idx_label g0 = idx_label g ->
  idx_edge_label g0 = remove_index_row (e_label e) row (idx_edge_label g) ->
  exists g', clear_edge (E := E) g0 row = Ok g' /\ shape g' /\ logical g' = with_edges (delete id (lg_edges (logical g))) (logical g) /\ same_rows g g' /\
    adjacency_out g' = adjacency_out g0 /\ adjacency_in g' = adjacency_in g0 /\ adjacency_undirected g' = adjacency_undirected g0.
Proof.
  intros [[N M] SL SE SS] Hrow He E1 E2 E3 E4 Em E5 E6.
  destruct (clear_edge_ok (E := E) g0 row) as (s' & -> & M' & _ & HA).
  { by rewrite E3, E4. } { rewrite E3. by apply (row_range (eo_rows _ _ M) id row). }
  rewrite E4 in *. rewrite E3 in HA. eexists. split; [done|]. split; [|split; [|done]].
  - split; [split; cbn; by rewrite ?E1, ?E2|cbn; by rewrite E5, E1| |cbn; by rewrite E1].
    cbn. rewrite E6. eapply bitmaps_ext; [|apply bitmaps_remove; exact SE]. intros l r. unfold edge_label_at. cbn. rewrite HA.
    destruct (decide (r = row)) as [->|Hne]; [rewrite He|]; naive_solver.
  - etrans; [|exact (logical_edge_write g s' id row None M Hrow HA)]. unfold logical. cbn. by rewrite E1, E2.
Qed.
End Consistent.
