(* ===== verification/CandidateProps.v ===== *)
(** Candidate sets are sets: the algebra of two sets of one snapshot is the algebra
    of their identities, and the producers hold the elements they name. *)

From stdpp Require Import sorting.
From S2P Require Import Prelude Errors Wire Value Ordered LabelSet PropertyMap GraphDelta Columns GraphTypes Store Derived Candidates GraphApply GraphApplyProps Mutator Consistent.

(** ** Sorted entries *)

Definition entry_lt (a b : Z * Z) : Prop := fst a < fst b.
Abbreviation ascending := (StronglySorted entry_lt).

Lemma strictly_ascending_spec l : strictly_ascending l = true -> StronglySorted Z.lt l.
Proof.
  intros Ha. apply Sorted_StronglySorted; [exact Z.lt_trans|]. induction l as [|x [|y t] IH]; [constructor|by repeat constructor|].
  cbn [strictly_ascending] in Ha. apply andb_true_iff in Ha as [Hx Ht]. constructor; [by apply IH|constructor; lia].
Qed.
Lemma ascending_ids l : StronglySorted Z.lt (map fst l) <-> ascending l.
Proof.
  unfold entry_lt. induction l as [|e l IH]; [split; constructor|]. cbn [map]. split; intros [Hs Hf]%StronglySorted_inv; rewrite Forall_forall in Hf; (constructor; [by apply IH|]); apply Forall_forall.
  - intros x Hx. apply Hf. by apply list_elem_of_fmap_2.
  - intros x (y & -> & Hy)%list_elem_of_fmap. by apply Hf.
Qed.
Lemma ascending_unique l a b : ascending l -> a ∈ l -> b ∈ l -> fst a = fst b -> a = b.
Proof.
  induction 1 as [|e l Hs IH Hf]; [by intros ?%elem_of_nil|]. rewrite Forall_forall in Hf. intros [->|Ha]%elem_of_cons [->|Hb]%elem_of_cons E; [done|..].
  - apply Hf in Hb. unfold entry_lt in Hb. lia.
  - apply Hf in Ha. unfold entry_lt in Ha. lia.
  - auto.
Qed.

Lemma dedup_indices_elem l x : x ∈ dedup_indices l <-> x ∈ l.
Proof.
  induction l as [|y [|z l] IH]; [done|done|]. cbn [dedup_indices]. destruct (Z.eqb_spec y z) as [->|]; [rewrite IH, !elem_of_cons; tauto|].
  by rewrite elem_of_cons, IH, (elem_of_cons (z :: l)).
Qed.
Lemma dedup_entries_spec l : StronglySorted entry_le l -> (forall a b, a ∈ l -> b ∈ l -> fst a = fst b -> a = b) ->
  ascending (dedup_entries l) /\ (forall e, e ∈ dedup_entries l <-> e ∈ l).
Proof.
  intros Hs Hu. induction Hs as [|e l Hs IH Hf]; [split; [constructor|done]|]. destruct IH as [IH1 IH2]; [intros a b Ha Hb; apply Hu; by right|].
  rewrite Forall_forall in Hf. cbn [dedup_entries]. destruct (dedup_entries l) as [|e' l'] eqn:E.
  - split; [by repeat constructor|]. intros x. rewrite (elem_of_cons l), <- (IH2 x). set_solver.
  - assert (He' : e' ∈ l) by (apply IH2; by left). pose proof (Hf e' He') as Hle. unfold entry_le in Hle. apply StronglySorted_inv in IH1 as [IH1 Hf'].
    rewrite Forall_forall in Hf'. destruct (Z.eqb_spec (fst e) (fst e')) as [Heq|Hne].
    + assert (e = e') as <- by (apply Hu; [by left|by right|done]). split; [constructor; [done|by apply Forall_forall]|]. intros x. rewrite (IH2 x), elem_of_cons. naive_solver.
    + split.
      * constructor; [constructor; [done|by apply Forall_forall]|]. apply Forall_forall. intros x [->|Hx]%elem_of_cons; unfold entry_lt; [lia|]. apply Hf' in Hx. unfold entry_lt in Hx. lia.
      * intros x. by rewrite (elem_of_cons l), (elem_of_cons (e' :: l')), (IH2 x).
Qed.

Lemma canonicalize_entries_spec l : (forall a b, a ∈ l -> b ∈ l -> fst a = fst b -> a = b) ->
  ascending (canonicalize_entries l) /\ (forall e, e ∈ canonicalize_entries l <-> e ∈ l).
Proof.
  intros Hu. unfold canonicalize_entries. destruct (strictly_ascending (map fst l)) eqn:E; cbn [negb].
  - split; [|done]. by apply ascending_ids, strictly_ascending_spec.
  - pose proof (merge_sort_Permutation entry_le l) as HP. destruct (dedup_entries_spec (merge_sort entry_le l)) as [Ha Hin].
    + apply Sorted_StronglySorted; [intros a b c; unfold entry_le; lia|]. apply Sorted_merge_sort. intros a b. unfold entry_le. lia.
    + intros a b. rewrite HP. apply Hu.
    + split; [done|]. intros e. by rewrite Hin, HP.
Qed.

(** ** Algebra *)

Definition merge_key (p : option (Z * Z) * option (Z * Z)) : Z :=
  match p with (Some e, _) | (None, Some e) => fst e | _ => 0 end.
Definition merged (lhs rhs : list (Z * Z)) (p : option (Z * Z) * option (Z * Z)) : Prop :=
  match p with
  | (Some l, None) => l ∈ lhs /\ forall r, r ∈ rhs -> fst r <> fst l
  | (None, Some r) => r ∈ rhs /\ forall l, l ∈ lhs -> fst l <> fst r
  | (Some l, Some r) => l ∈ lhs /\ r ∈ rhs /\ fst l = fst r
  | (None, None) => False
  end.

Lemma merged_above lhs rhs p x : merged lhs rhs p -> (forall e, e ∈ lhs -> x < fst e) -> (forall e, e ∈ rhs -> x < fst e) -> x < merge_key p.
Proof. destruct p as [[l|] [r|]]; cbn; naive_solver. Qed.

Lemma merged_left l lhs rhs p : (forall e, e ∈ lhs -> fst l < fst e) -> (forall e, e ∈ rhs -> fst l < fst e) ->
  p = (Some l, None) \/ merged lhs rhs p <-> merged (l :: lhs) rhs p.
Proof.
  intros Hl Hr. destruct p as [[a|] [b|]]; cbn; try setoid_rewrite elem_of_cons.
  - split; [naive_solver|]. intros ([->|Ha] & Hb & E); [apply Hr in Hb; lia|naive_solver].
  - split; [|naive_solver]. intros [[= ->]|[Ha Hn]]; [|naive_solver]. split; [by left|]. intros r Hb%Hr. lia.
  - split; [intros [[=]|[Hb Hn]]|naive_solver]. split; [done|]. intros e [->|He]; [apply Hr in Hb; lia|auto].
  - naive_solver.
Qed.
Lemma merged_right r lhs rhs p : (forall e, e ∈ lhs -> fst r < fst e) -> (forall e, e ∈ rhs -> fst r < fst e) ->
  p = (None, Some r) \/ merged lhs rhs p <-> merged lhs (r :: rhs) p.
Proof.
  intros Hl Hr. destruct p as [[a|] [b|]]; cbn; try setoid_rewrite elem_of_cons.
  - split; [naive_solver|]. intros (Ha & [->|Hb] & E); [apply Hl in Ha; lia|naive_solver].
  - split; [intros [[=]|[Ha Hn]]|naive_solver]. split; [done|]. intros e [->|He]; [apply Hl in Ha; lia|auto].
  - split; [|naive_solver]. intros [[= ->]|[Hb Hn]]; [|naive_solver]. split; [by left|]. intros e He%Hl. lia.
  - naive_solver.
Qed.
Lemma merged_both l r lhs rhs p : fst l = fst r -> (forall e, e ∈ lhs -> fst l < fst e) -> (forall e, e ∈ rhs -> fst r < fst e) ->
  p = (Some l, Some r) \/ merged lhs rhs p <-> merged (l :: lhs) (r :: rhs) p.
Proof.
  intros Elr Hl Hr. destruct p as [[a|] [b|]]; cbn; try setoid_rewrite elem_of_cons.
  - split; [naive_solver|]. intros ([->|Ha] & [->|Hb] & E); [by left|apply Hr in Hb; lia|apply Hl in Ha; lia|auto].
  - split; [intros [[=]|[Ha Hn]]|].
    + split; [by right|]. intros e [->|He]; [apply Hl in Ha; lia|auto].
    + intros [[->|Ha] Hn]; [by destruct (Hn r (or_introl eq_refl))|]. right. split; [done|]. intros e He. apply Hn. by right.
  - split; [intros [[=]|[Hb Hn]]|].
    + split; [by right|]. intros e [->|He]; [apply Hr in Hb; lia|auto].
    + intros [[->|Hb] Hn]; [by destruct (Hn l (or_introl eq_refl))|]. right. split; [done|]. intros e He. apply Hn. by right.
  - naive_solver.
Qed.

Lemma merge_entries_spec lhs rhs : ascending lhs -> ascending rhs ->
  StronglySorted (fun p q => merge_key p < merge_key q) (merge_entries lhs rhs) /\ forall p, p ∈ merge_entries lhs rhs <-> merged lhs rhs p.
Proof.
  revert rhs. induction lhs as [|l lhs IHl]; intros rhs Hl Hr.
  - induction Hr as [|r rhs Hr IHr Hf]; cbn [merge_entries].
    + split; [constructor|]. intros [[a|] [b|]]; cbn; set_solver.
    + destruct IHr as [IH1 IH2]. rewrite Forall_forall in Hf. split.
      * constructor; [done|]. apply Forall_forall. intros p Hp%IH2. apply (merged_above [] rhs p); [done|set_solver|exact Hf].
      * intros p. rewrite elem_of_cons. etrans; [apply or_iff_compat_l, IH2|]. apply merged_right; [set_solver|exact Hf].
  - pose proof Hl as [Hl' Hfl]%StronglySorted_inv. rewrite Forall_forall in Hfl. induction Hr as [|r rhs Hr IHr Hf].
    + cbn [merge_entries]. destruct (IHl [] Hl' ltac:(constructor)) as [IH1 IH2]. split.
      * constructor; [done|]. apply Forall_forall. intros p Hp%IH2. apply (merged_above lhs [] p); [done|exact Hfl|set_solver].
      * intros p. rewrite elem_of_cons, IH2. apply merged_left; [exact Hfl|set_solver].
    + pose proof Hf as Hfr. rewrite Forall_forall in Hfr. unfold entry_lt in Hfl, Hfr. cbn [merge_entries].
      destruct (Z.ltb_spec (fst l) (fst r)) as [Hlt|Hge]; [|destruct (Z.ltb_spec (fst r) (fst l)) as [Hgt|Hle]].
      * destruct (IHl (r :: rhs) Hl' ltac:(by constructor)) as [IH1 IH2].
        assert (Hno : forall e, e ∈ r :: rhs -> fst l < fst e) by (intros e [->|He%Hfr]%elem_of_cons; lia). split.
        -- constructor; [done|]. apply Forall_forall. intros p Hp%IH2. by apply (merged_above lhs (r :: rhs) p).
        -- intros p. rewrite elem_of_cons, IH2. by apply merged_left.
      * destruct IHr as [IH1 IH2]. assert (Hno : forall e, e ∈ l :: lhs -> fst r < fst e) by (intros e [->|He%Hfl]%elem_of_cons; lia). split.
        -- constructor; [done|]. apply Forall_forall. intros p Hp%IH2. by apply (merged_above (l :: lhs) rhs p).
        -- intros p. rewrite elem_of_cons. etrans; [apply or_iff_compat_l, IH2|]. by apply merged_right.
      * assert (E : fst l = fst r) by lia. destruct (IHl rhs Hl' Hr) as [IH1 IH2]. split.
        -- constructor; [done|]. apply Forall_forall. intros p Hp%IH2. apply (merged_above lhs rhs p); [done|exact Hfl|]. cbn. rewrite E. exact Hfr.
        -- intros p. rewrite elem_of_cons, IH2. by apply merged_both.
Qed.

(** Picking one entry of each pair. *)
Lemma omap_merge (f : option (Z * Z) * option (Z * Z) -> option (Z * Z)) lhs rhs : (forall p e, f p = Some e -> merged lhs rhs p -> merge_key p = fst e) ->
  ascending lhs -> ascending rhs ->
  ascending (omap f (merge_entries lhs rhs)) /\ forall e, e ∈ omap f (merge_entries lhs rhs) <-> exists p, merged lhs rhs p /\ f p = Some e.
Proof.
  intros Hk Hl Hr. destruct (merge_entries_spec lhs rhs Hl Hr) as [Hs Hin]. split.
  - assert (Hall : forall p, p ∈ merge_entries lhs rhs -> merged lhs rhs p) by (intros p; apply Hin). clear Hin. induction Hs as [|p l Hs IH Hf]; [constructor|].
    cbn. rewrite Forall_forall in Hf. destruct (f p) as [e|] eqn:E; [|apply IH; intros q Hq; apply Hall; by right].
    constructor; [apply IH; intros q Hq; apply Hall; by right|]. apply Forall_forall. intros e' (q & Hq & Eq)%list_elem_of_omap. unfold entry_lt.
    rewrite <- (Hk p e E (Hall p ltac:(by left))), <- (Hk q e' Eq (Hall q ltac:(by right))). by apply Hf.
  - intros e. rewrite list_elem_of_omap. naive_solver.
Qed.

Lemma union_entries_spec lhs rhs : ascending lhs -> ascending rhs -> ascending (union_entries lhs rhs) /\
  forall e, e ∈ union_entries lhs rhs <-> e ∈ lhs \/ e ∈ rhs /\ forall l, l ∈ lhs -> fst l <> fst e.
Proof.
  intros Hl Hr. unfold union_entries. destruct (omap_merge keep_either lhs rhs) as [Ha Hin]; [intros [[a|] [b|]] e; cbn; by intros [= <-] _|done..|]. split; [exact Ha|].
  intros e. rewrite Hin. split.
  - intros ([[a|] [b|]] & Hm & [= <-]); cbn in Hm; tauto.
  - intros [He|He]; [|exists (None, Some e); split; [|done]; cbn; naive_solver].
    destruct (decide (Exists (fun r => fst r = fst e) rhs)) as [Hx|Hx].
    + apply Exists_exists in Hx as (r & Hr' & E). exists (Some e, Some r). done.
    + exists (Some e, None). split; [|done]. split; [done|]. intros r Hr' E. apply Hx, Exists_exists. eauto.
Qed.
Lemma intersection_entries_spec lhs rhs : ascending lhs -> ascending rhs -> ascending (intersection_entries lhs rhs) /\
  forall e, e ∈ intersection_entries lhs rhs <-> e ∈ lhs /\ exists r, r ∈ rhs /\ fst r = fst e.
Proof.
  intros Hl Hr. unfold intersection_entries. destruct (omap_merge keep_both lhs rhs) as [Ha Hin]; [intros [[a|] [b|]] e; cbn; by intros [= <-] _|done..|]. split; [exact Ha|].
  intros e. rewrite Hin. split.
  - intros ([[a|] [b|]] & Hm & [= <-]); cbn in Hm. destruct Hm as (Ha' & Hb & E). split; [done|]. by exists b.
  - intros [He (r & Hr' & E)]. by exists (Some e, Some r).
Qed.
Lemma difference_entries_spec lhs rhs : ascending lhs -> ascending rhs -> ascending (difference_entries lhs rhs) /\
  forall e, e ∈ difference_entries lhs rhs <-> e ∈ lhs /\ forall r, r ∈ rhs -> fst r <> fst e.
Proof.
  intros Hl Hr. unfold difference_entries. destruct (omap_merge keep_left lhs rhs) as [Ha Hin]; [intros [[a|] [b|]] e; cbn; by intros [= <-] _|done..|]. split; [exact Ha|].
  intros e. rewrite Hin. split.
  - intros ([[a|] [b|]] & Hm & [= <-]); by cbn in Hm.
  - intros He. by exists (Some e, None).
Qed.

(** ** Producers *)

Section Producers.
Context `{L : Leaves} {GE : GraphEnv} {LE : LegacyEvents}.

(** A live element with its row. *)
Definition resolves (K : CandidateKind) (g : SeleneGraph) (e : Z * Z) : Prop :=
  match K with
  | NodeKind => node_rows g !! fst e = Some (snd e) /\ snd e ∈ ns_alive (node_store g)
  | EdgeKind => edge_rows g !! fst e = Some (snd e) /\ snd e ∈ es_alive (edge_store g)
  end.
Lemma resolves_unique K g a b : resolves K g a -> resolves K g b -> fst a = fst b -> a = b.
Proof. destruct K, a, b; cbn; intros [] [] ->; congruence. Qed.
Lemma resolves_current K g e : columns_ok g -> resolves K g e -> entry_is_current K g e = true.
Proof.
  intros [N M] HR. destruct e as [id row]. unfold entry_is_current, node_row_for_id, edge_row_for_id, node_id_for_node_row, edge_id_for_edge_row. destruct K; destruct HR as [Hr Ha]; cbn [fst snd] in *.
  - rewrite Hr, (bound_id _ _ _ _ id row (no_rows _ _ N) Hr), !bool_decide_true by done. by apply alive_spec.
  - rewrite Hr, (bound_id _ _ _ _ id row (eo_rows _ _ M) Hr), !bool_decide_true by done. by apply edge_alive_spec.
Qed.
Lemma ensure_node_pair_ok g id row : columns_ok g -> node_rows g !! id = Some row -> ensure_live_node_pair id row g = Ok tt.
Proof.
  intros [N _] Hr. unfold ensure_live_node_pair, node_id_for_node_row, node_row_for_id. rewrite (bound_id _ _ _ _ id row (no_rows _ _ N) Hr), Hr, bool_decide_true by done.
  cbn. by rewrite Z.eqb_refl.
Qed.
Lemma ensure_edge_pair_ok g id row : columns_ok g -> edge_rows g !! id = Some row -> ensure_live_edge_pair id row g = Ok tt.
Proof.
  intros [_ N] Hr. unfold ensure_live_edge_pair, edge_id_for_edge_row, edge_row_for_id. rewrite (bound_id _ _ _ _ id row (eo_rows _ _ N) Hr), Hr, bool_decide_true by done.
  cbn. by rewrite Z.eqb_refl.
Qed.

Lemma node_entries_spec g rows : columns_ok g -> exists entries, node_entries g rows = Ok entries /\ forall e, e ∈ entries <-> resolves NodeKind g e /\ snd e ∈ rows.
Proof.
  intros C. pose proof C as [N _]. induction rows as [|row rows (entries & E & IH)]; cbn [node_entries]; [exists []; split; [done|]; set_solver|].
  destruct (ns_is_alive_row row (node_store g)) eqn:Ea; cbn [negb].
  - apply alive_spec in Ea. destruct (row_id (no_rows _ _ N) row (node_range _ _ N row Ea)) as (id & _ & Hid).
    unfold node_id_for_node_row. rewrite (bound_id _ _ _ _ id row (no_rows _ _ N) Hid). cbn [ok_or]. rewrite (ensure_node_pair_ok g id row C Hid), E. eexists. split; [done|].
    intros [i r]. rewrite elem_of_cons, (IH (i, r)). cbn. rewrite elem_of_cons. split; [intros [[= -> ->]|[H1 H2]]; [by split; [|left]|tauto]|].
    intros [[H1 H2] [->|H3]]; [|tauto]. left. by rewrite (row_inj (no_rows _ _ N) id i row Hid H1).
  - exists entries. split; [done|]. intros e. rewrite (IH e), elem_of_cons. split; [tauto|]. intros [HR [Hr|Hr]]; [|tauto]. destruct HR as [_ Ha]. rewrite Hr in Ha. apply alive_spec in Ha. congruence.
Qed.
Lemma edge_entries_spec g rows : columns_ok g -> exists entries, edge_entries g rows = Ok entries /\ forall e, e ∈ entries <-> resolves EdgeKind g e /\ snd e ∈ rows.
Proof.
  intros C. pose proof C as [_ N]. induction rows as [|row rows (entries & E & IH)]; cbn [edge_entries]; [exists []; split; [done|]; set_solver|].
  destruct (es_is_alive_row row (edge_store g)) eqn:Ea; cbn [negb].
  - apply edge_alive_spec in Ea. destruct (row_id (eo_rows _ _ N) row (edge_range _ _ N row Ea)) as (id & _ & Hid).
    unfold edge_id_for_edge_row. rewrite (bound_id _ _ _ _ id row (eo_rows _ _ N) Hid). cbn [ok_or]. rewrite (ensure_edge_pair_ok g id row C Hid), E. eexists. split; [done|].
    intros [i r]. rewrite elem_of_cons, (IH (i, r)). cbn. rewrite elem_of_cons. split; [intros [[= -> ->]|[H1 H2]]; [by split; [|left]|tauto]|].
    intros [[H1 H2] [->|H3]]; [|tauto]. left. by rewrite (row_inj (eo_rows _ _ N) id i row Hid H1).
  - exists entries. split; [done|]. intros e. rewrite (IH e), elem_of_cons. split; [tauto|]. intros [HR [Hr|Hr]]; [|tauto]. destruct HR as [_ Ha]. rewrite Hr in Ha. apply edge_alive_spec in Ha. congruence.
Qed.
Lemma bound_nodes_spec g ids : columns_ok g -> exists entries, bound_nodes g ids = Ok entries /\ forall e, e ∈ entries <-> resolves NodeKind g e /\ fst e ∈ ids.
Proof.
  intros C. pose proof C as [N _]. induction ids as [|id ids (entries & E & IH)]; cbn [bound_nodes]; [exists []; split; [done|]; set_solver|].
  assert (Hskip : (forall row, ~ resolves NodeKind g (id, row)) -> forall e, e ∈ entries <-> resolves NodeKind g e /\ fst e ∈ id :: ids).
  { intros Hno [i r]. rewrite (IH (i, r)), elem_of_cons. cbn [fst]. split; [tauto|]. intros [HR [->|Hi]]; [by destruct (Hno r)|tauto]. }
  destruct (Z.eqb_spec id TOMBSTONE) as [->|Hz]; [exists entries; split; [done|]; apply Hskip; intros row [Hr _]; by apply (br_nonzero _ _ _ _ (no_rows _ _ N) TOMBSTONE)|].
  unfold node_row_for_id. destruct (node_rows g !! id) as [row|] eqn:Hr; [|exists entries; split; [done|]; apply Hskip; intros row [Hr' _]; cbn in Hr'; congruence].
  destruct (ns_is_alive_row row (node_store g)) eqn:Ea; cbn [negb].
  - apply alive_spec in Ea. rewrite (ensure_node_pair_ok g id row C Hr), E. eexists. split; [done|]. intros [i r]. rewrite elem_of_cons, (IH (i, r)). cbn. rewrite elem_of_cons.
    split; [intros [[= -> ->]|[H1 H2]]; [by split; [|left]|tauto]|]. intros [[H1 H2] [->|H3]]; [|tauto]. left. congruence.
  - exists entries. split; [done|]. apply Hskip. intros row' [Hr' Ha]. cbn in *. rewrite Hr in Hr'. injection Hr' as <-. apply alive_spec in Ha. congruence.
Qed.
Lemma bound_edges_spec g ids : columns_ok g -> exists entries, bound_edges g ids = Ok entries /\ forall e, e ∈ entries <-> resolves EdgeKind g e /\ fst e ∈ ids.
Proof.
  intros C. pose proof C as [_ N]. induction ids as [|id ids (entries & E & IH)]; cbn [bound_edges]; [exists []; split; [done|]; set_solver|].
  assert (Hskip : (forall row, ~ resolves EdgeKind g (id, row)) -> forall e, e ∈ entries <-> resolves EdgeKind g e /\ fst e ∈ id :: ids).
  { intros Hno [i r]. rewrite (IH (i, r)), elem_of_cons. cbn [fst]. split; [tauto|]. intros [HR [->|Hi]]; [by destruct (Hno r)|tauto]. }
  destruct (Z.eqb_spec id TOMBSTONE) as [->|Hz]; [exists entries; split; [done|]; apply Hskip; intros row [Hr _]; by apply (br_nonzero _ _ _ _ (eo_rows _ _ N) TOMBSTONE)|].
  unfold edge_row_for_id. destruct (edge_rows g !! id) as [row|] eqn:Hr; [|exists entries; split; [done|]; apply Hskip; intros row [Hr' _]; cbn in Hr'; congruence].
  destruct (es_is_alive_row row (edge_store g)) eqn:Ea; cbn [negb].
  - apply edge_alive_spec in Ea. rewrite (ensure_edge_pair_ok g id row C Hr), E. eexists. split; [done|]. intros [i r]. rewrite elem_of_cons, (IH (i, r)). cbn. rewrite elem_of_cons.
    split; [intros [[= -> ->]|[H1 H2]]; [by split; [|left]|tauto]|]. intros [[H1 H2] [->|H3]]; [|tauto]. left. congruence.
  - exists entries. split; [done|]. apply Hskip. intros row' [Hr' Ha]. cbn in *. rewrite Hr in Hr'. injection Hr' as <-. apply edge_alive_spec in Ha. congruence.
Qed.

(** A set of one snapshot that holds the identities [X]. *)
Record denotes {K} (snapshot : Snapshot) (self : CandidateSet K) (X : gset Z) : Prop := {
  de_valid : validate_for snapshot self = Ok tt;
  de_ascending : ascending (cs_entries self);
  de_ids : forall id, id ∈ cs_iter self <-> id ∈ X
}.
Lemma from_rows_denotes K snapshot entries X : columns_ok (snap_graph snapshot) -> (forall e, e ∈ entries -> resolves K (snap_graph snapshot) e) ->
  (forall id, id ∈ X <-> exists row, (id, row) ∈ entries) -> denotes snapshot (from_rows (K := K) snapshot entries) X.
Proof.
  intros C HR HX. destruct (canonicalize_entries_spec entries) as [Ha Hin]; [intros a b Hia Hib; by apply (resolves_unique K (snap_graph snapshot)); apply HR|].
  split; [|done|].
  - unfold validate_for, validate_identity_for. cbn. rewrite !Z.eqb_refl. cbn. rewrite (proj2 (forallb_forall _ _)); [done|].
    intros e He%list_elem_of_In%Hin%HR. by apply resolves_current.
  - intros id. rewrite (HX id). unfold cs_iter. cbn. rewrite list_elem_of_fmap. split.
    + intros ([i row] & -> & He%Hin). by exists row.
    + intros (row & He%Hin). by exists (id, row).
Qed.

(** The elements of a graph, and those with a label. *)
Definition live_ids (K : CandidateKind) (g : SeleneGraph) : gset Z :=
  match K with NodeKind => dom (lg_nodes (logical g)) | EdgeKind => dom (lg_edges (logical g)) end.
Definition labelled_ids (K : CandidateKind) (label : bytes) (g : SeleneGraph) : gset Z :=
  match K with
  | NodeKind => dom (filter (fun '(_, n) => label ∈ n_labels n) (lg_nodes (logical g)))
  | EdgeKind => dom (filter (fun '(_, e) => e_label e = label) (lg_edges (logical g)))
  end.
Lemma resolves_live K g id : columns_ok g -> id ∈ live_ids K g <-> exists row, resolves K g (id, row).
Proof.
  intros [N M]. destruct K; cbn [live_ids resolves fst snd]; rewrite elem_of_dom; split.
  - intros [n Hn]. destruct (live_row_node g id n N Hn) as (row & Hr & Ha & _). by exists row.
  - intros (row & Hr & Ha). destruct (node_at_alive _ _ N row Ha) as (l & p & _ & _ & E). eexists. by apply (node_at_logical g id row).
  - intros [e He]. destruct (live_row_edge g id e M He) as (row & Hr & Ha & _). by exists row.
  - intros (row & Hr & Ha). destruct (edge_at_alive _ _ M row Ha) as (e & _ & E). eexists. by apply (edge_at_logical g id row).
Qed.
Lemma resolves_labelled K g label id : shape g -> id ∈ labelled_ids K label g <->
  exists row, resolves K g (id, row) /\ row ∈ default ∅ ((match K with NodeKind => idx_label g | EdgeKind => idx_edge_label g end) !! label).
Proof.
  intros [[N M] SL SE _]. destruct K; cbn [labelled_ids resolves fst snd]; rewrite elem_of_dom.
  - setoid_rewrite (bitmaps_at _ _ label SL). split.
    + intros [n [Hn Hl]%map_lookup_filter_Some]. destruct (live_row_node g id n N Hn) as (row & Hr & Ha & Hat). exists row. split; [done|]. by exists n.
    + intros (row & [Hr Ha] & n & Hat & Hl). exists n. apply map_lookup_filter_Some. split; [by apply (node_at_logical g id row)|done].
  - setoid_rewrite (bitmaps_at _ _ label SE). split.
    + intros [n [Hn Hl]%map_lookup_filter_Some]. destruct (live_row_edge g id n M Hn) as (row & Hr & Ha & Hat & _). exists row. split; [done|]. by exists n.
    + intros (row & [Hr Ha] & n & Hat & Hl). exists n. apply map_lookup_filter_Some. split; [by apply (edge_at_logical g id row)|done].
Qed.

(** ** Queries *)

(** The calls of the interface, for nodes and for edges. *)
Inductive Query :=
| QLive
| QLabel (label : bytes)
| QBind (ids : list Z)
| QUnion (lhs rhs : Query)
| QIntersect (lhs rhs : Query)
| QDifference (lhs rhs : Query).

Definition live_candidates (K : CandidateKind) (snapshot : Snapshot) : result GraphError (CandidateSet K) :=
  match K with NodeKind => live_node_candidates snapshot | EdgeKind => live_edge_candidates snapshot end.
Definition candidates_with_label (K : CandidateKind) (snapshot : Snapshot) (label : bytes) : result GraphError (CandidateSet K) :=
  match K with NodeKind => node_candidates_with_label snapshot label | EdgeKind => edge_candidates_with_label snapshot label end.
Definition bind_candidates (K : CandidateKind) (snapshot : Snapshot) (ids : list Z) : result GraphError (CandidateSet K) :=
  match K with NodeKind => bind_node_candidates snapshot ids | EdgeKind => bind_edge_candidates snapshot ids end.
Fixpoint answer (K : CandidateKind) (snapshot : Snapshot) (q : Query) : result (GraphError + CandidateSetError) (CandidateSet K) :=
  let algebra f lhs rhs := let? lhs := answer K snapshot lhs in let? rhs := answer K snapshot rhs in map_err inr (f snapshot lhs rhs) in
  match q with
  | QLive => map_err inl (live_candidates K snapshot)
  | QLabel label => map_err inl (candidates_with_label K snapshot label)
  | QBind ids => map_err inl (bind_candidates K snapshot ids)
  | QUnion lhs rhs => algebra union_candidates lhs rhs
  | QIntersect lhs rhs => algebra intersect_candidates lhs rhs
  | QDifference lhs rhs => algebra difference_candidates lhs rhs
  end.
(** The set a query means. *)
Fixpoint meaning (K : CandidateKind) (g : SeleneGraph) (q : Query) : gset Z :=
  match q with
  | QLive => live_ids K g
  | QLabel label => labelled_ids K label g
  | QBind ids => list_to_set ids ∩ live_ids K g
  | QUnion lhs rhs => meaning K g lhs ∪ meaning K g rhs
  | QIntersect lhs rhs => meaning K g lhs ∩ meaning K g rhs
  | QDifference lhs rhs => meaning K g lhs ∖ meaning K g rhs
  end.

Lemma live_denotes K snapshot : columns_ok (snap_graph snapshot) ->
  exists self, live_candidates K snapshot = Ok self /\ denotes snapshot self (live_ids K (snap_graph snapshot)).
Proof.
  intros C. destruct K; cbn [live_candidates].
  - unfold live_node_candidates, node_candidates_from_rows. destruct (node_entries_spec (snap_graph snapshot) (rows_of (ns_alive (node_store (snap_graph snapshot)))) C) as (entries & -> & Hin).
    eexists. split; [done|]. apply from_rows_denotes; [done|by intros e [HR _]%Hin|]. intros id. rewrite (resolves_live NodeKind _ id C). setoid_rewrite Hin.
    split; intros (row & HR); exists row; [|by destruct HR]. split; [done|]. apply rows_of_spec, HR.
  - unfold live_edge_candidates, edge_candidates_from_rows. destruct (edge_entries_spec (snap_graph snapshot) (rows_of (es_alive (edge_store (snap_graph snapshot)))) C) as (entries & -> & Hin).
    eexists. split; [done|]. apply from_rows_denotes; [done|by intros e [HR _]%Hin|]. intros id. rewrite (resolves_live EdgeKind _ id C). setoid_rewrite Hin.
    split; intros (row & HR); exists row; [|by destruct HR]. split; [done|]. apply rows_of_spec, HR.
Qed.
Lemma from_none_denotes K snapshot (X : gset Z) : columns_ok (snap_graph snapshot) -> (forall id, id ∉ X) -> denotes snapshot (from_rows (K := K) snapshot []) X.
Proof.
  intros C HX. apply from_rows_denotes; [done|by intros e ?%elem_of_nil|]. intros id. split; [intros Hid; by destruct (HX id Hid)|intros (row & ?%elem_of_nil); done].
Qed.
Lemma label_denotes K snapshot label : shape (snap_graph snapshot) ->
  exists self, candidates_with_label K snapshot label = Ok self /\ denotes snapshot self (labelled_ids K label (snap_graph snapshot)).
Proof.
  intros Sh. pose proof (sh_columns _ Sh) as C. pose proof (fun id => resolves_labelled K (snap_graph snapshot) label id Sh) as HL. destruct K; cbn [candidates_with_label].
  - unfold node_candidates_with_label, node_candidates_from_rows. destruct (idx_label (snap_graph snapshot) !! label) as [rows|]; cbn [default] in HL.
    + destruct (node_entries_spec (snap_graph snapshot) (rows_of rows) C) as (entries & -> & Hin). eexists. split; [done|].
      apply from_rows_denotes; [done|by intros e [HR _]%Hin|]. intros id. rewrite (HL id). setoid_rewrite Hin. cbn [snd]. setoid_rewrite (proj2 (rows_of_spec rows)). done.
    + eexists. split; [done|]. apply from_none_denotes; [done|]. intros id (row & _ & []%elem_of_empty)%HL.
  - unfold edge_candidates_with_label, edge_candidates_from_rows. destruct (idx_edge_label (snap_graph snapshot) !! label) as [rows|]; cbn [default] in HL.
    + destruct (edge_entries_spec (snap_graph snapshot) (rows_of rows) C) as (entries & -> & Hin). eexists. split; [done|].
      apply from_rows_denotes; [done|by intros e [HR _]%Hin|]. intros id. rewrite (HL id). setoid_rewrite Hin. cbn [snd]. setoid_rewrite (proj2 (rows_of_spec rows)). done.
    + eexists. split; [done|]. apply from_none_denotes; [done|]. intros id (row & _ & []%elem_of_empty)%HL.
Qed.
Lemma canonicalize_ids_spec ids id : id ∈ canonicalize_ids ids <-> id ∈ ids.
Proof.
  unfold canonicalize_ids. destruct (strictly_ascending ids); cbn [negb]; [done|]. rewrite dedup_indices_elem, merge_sort_Permutation; done.
Qed.
Lemma bind_denotes K snapshot ids : columns_ok (snap_graph snapshot) ->
  exists self, bind_candidates K snapshot ids = Ok self /\ denotes snapshot self (list_to_set ids ∩ live_ids K (snap_graph snapshot)).
Proof.
  intros C. destruct K; cbn [bind_candidates].
  - unfold bind_node_candidates. destruct (bound_nodes_spec (snap_graph snapshot) (canonicalize_ids ids) C) as (entries & -> & Hin). eexists. split; [done|].
    apply from_rows_denotes; [done|by intros e [HR _]%Hin|]. intros id. rewrite elem_of_intersection, elem_of_list_to_set, (resolves_live NodeKind _ id C). setoid_rewrite Hin.
    cbn [fst]. setoid_rewrite canonicalize_ids_spec. naive_solver.
  - unfold bind_edge_candidates. destruct (bound_edges_spec (snap_graph snapshot) (canonicalize_ids ids) C) as (entries & -> & Hin). eexists. split; [done|].
    apply from_rows_denotes; [done|by intros e [HR _]%Hin|]. intros id. rewrite elem_of_intersection, elem_of_list_to_set, (resolves_live EdgeKind _ id C). setoid_rewrite Hin.
    cbn [fst]. setoid_rewrite canonicalize_ids_spec. naive_solver.
Qed.

(** An operation that keeps entries of its operands. *)
Lemma algebra_denotes K snapshot (lhs rhs : CandidateSet K) X Y f Z' : denotes snapshot lhs X -> denotes snapshot rhs Y ->
  ascending (f (cs_entries lhs) (cs_entries rhs)) -> (forall e, e ∈ f (cs_entries lhs) (cs_entries rhs) -> e ∈ cs_entries lhs \/ e ∈ cs_entries rhs) ->
  (forall id, id ∈ map fst (f (cs_entries lhs) (cs_entries rhs)) <-> id ∈ Z') -> denotes snapshot (with_entries (f (cs_entries lhs) (cs_entries rhs)) lhs) Z'.
Proof.
  intros [V1 A1 I1] [V2 A2 I2] Ha Hsub Hids. split; [|done|done]. unfold validate_for in *. change (validate_identity_for snapshot (with_entries _ lhs)) with (validate_identity_for snapshot lhs).
  destruct (validate_identity_for snapshot lhs); [|done]. destruct (validate_identity_for snapshot rhs); [|done]. cbn in *.
  destruct (forallb _ (cs_entries lhs)) eqn:F1; [|done]. destruct (forallb _ (cs_entries rhs)) eqn:F2; [|done]. rewrite forallb_forall in F1, F2.
  rewrite (proj2 (forallb_forall _ _)); [done|]. intros e [He|He]%list_elem_of_In%Hsub; [apply F1|apply F2]; by apply list_elem_of_In.
Qed.
Lemma iter_fst {K} (self : CandidateSet K) (X : gset Z) id : (forall id, id ∈ cs_iter self <-> id ∈ X) -> id ∈ X <-> exists e, e ∈ cs_entries self /\ fst e = id.
Proof. intros HX. rewrite <- HX. unfold cs_iter. rewrite list_elem_of_fmap. naive_solver. Qed.

Lemma union_denotes K snapshot (lhs rhs : CandidateSet K) X Y : denotes snapshot lhs X -> denotes snapshot rhs Y ->
  exists self, union_candidates snapshot lhs rhs = Ok self /\ denotes snapshot self (X ∪ Y).
Proof.
  intros D1 D2. unfold union_candidates. rewrite (de_valid _ _ _ D1), (de_valid _ _ _ D2). eexists. split; [done|].
  destruct (union_entries_spec _ _ (de_ascending _ _ _ D1) (de_ascending _ _ _ D2)) as [Ha Hin]. eapply (algebra_denotes K snapshot lhs rhs X Y union_entries); [done..|intros e He%Hin; tauto|].
  intros id. rewrite elem_of_union, (iter_fst lhs X id (de_ids _ _ _ D1)), (iter_fst rhs Y id (de_ids _ _ _ D2)), list_elem_of_fmap. setoid_rewrite Hin. split; [naive_solver|].
  intros [(e & He & <-)|(e & He & <-)]; [exists e; auto|]. destruct (decide (Exists (fun l => fst l = fst e) (cs_entries lhs))) as [Hx|Hx].
  - apply Exists_exists in Hx as (l & Hl & E). exists l. auto.
  - exists e. split; [done|]. right. split; [done|]. intros l Hl E. apply Hx, Exists_exists. eauto.
Qed.
Lemma intersect_denotes K snapshot (lhs rhs : CandidateSet K) X Y : denotes snapshot lhs X -> denotes snapshot rhs Y ->
  exists self, intersect_candidates snapshot lhs rhs = Ok self /\ denotes snapshot self (X ∩ Y).
Proof.
  intros D1 D2. unfold intersect_candidates. rewrite (de_valid _ _ _ D1), (de_valid _ _ _ D2). eexists. split; [done|].
  destruct (intersection_entries_spec _ _ (de_ascending _ _ _ D1) (de_ascending _ _ _ D2)) as [Ha Hin]. eapply (algebra_denotes K snapshot lhs rhs X Y intersection_entries); [done..|intros e He%Hin; tauto|].
  intros id. rewrite elem_of_intersection, (iter_fst lhs X id (de_ids _ _ _ D1)), (iter_fst rhs Y id (de_ids _ _ _ D2)), list_elem_of_fmap. setoid_rewrite Hin. naive_solver.
Qed.
Lemma difference_denotes K snapshot (lhs rhs : CandidateSet K) X Y : denotes snapshot lhs X -> denotes snapshot rhs Y ->
  exists self, difference_candidates snapshot lhs rhs = Ok self /\ denotes snapshot self (X ∖ Y).
Proof.
  intros D1 D2. unfold difference_candidates. rewrite (de_valid _ _ _ D1), (de_valid _ _ _ D2). eexists. split; [done|].
  destruct (difference_entries_spec _ _ (de_ascending _ _ _ D1) (de_ascending _ _ _ D2)) as [Ha Hin]. eapply (algebra_denotes K snapshot lhs rhs X Y difference_entries); [done..|intros e He%Hin; tauto|].
  intros id. rewrite elem_of_difference, (iter_fst lhs X id (de_ids _ _ _ D1)), (iter_fst rhs Y id (de_ids _ _ _ D2)), list_elem_of_fmap. setoid_rewrite Hin. naive_solver.
Qed.

(** C15: on a consistent graph every query over candidate sets, of nodes or of edges,
    succeeds: a set of all live elements, of those with a label or of given
    identities, and the unions, intersections and differences of such sets.  The
    answer is bound to the snapshot, is in ascending order, and holds exactly the
    live elements the query means. *)
Theorem candidate_queries_mean_sets (K : CandidateKind) (snapshot : Snapshot) (q : Query) : consistent (snap_graph snapshot) ->
  exists self, answer K snapshot q = Ok self /\ validate_for snapshot self = Ok tt /\ ascending (cs_entries self) /\
    forall id, id ∈ cs_iter self <-> id ∈ meaning K (snap_graph snapshot) q.
Proof.
  intros [Sh _ _]. pose proof (sh_columns _ Sh) as C. assert (HD : exists self, answer K snapshot q = Ok self /\ denotes snapshot self (meaning K (snap_graph snapshot) q)).
  { induction q as [|label|ids|lhs (a & EA & DA) rhs (b & EB & DB)|lhs (a & EA & DA) rhs (b & EB & DB)|lhs (a & EA & DA) rhs (b & EB & DB)]; cbn [answer meaning].
    - destruct (live_denotes K snapshot C) as (self & -> & D). by exists self.
    - destruct (label_denotes K snapshot label Sh) as (self & -> & D). by exists self.
    - destruct (bind_denotes K snapshot ids C) as (self & -> & D). by exists self.
    - rewrite EA, EB. destruct (union_denotes K snapshot a b _ _ DA DB) as (self & -> & D). by exists self.
    - rewrite EA, EB. destruct (intersect_denotes K snapshot a b _ _ DA DB) as (self & -> & D). by exists self.
    - rewrite EA, EB. destruct (difference_denotes K snapshot a b _ _ DA DB) as (self & -> & D). by exists self. }
  destruct HD as (self & E & [V A I]). by exists self.
Qed.
End Producers.
