(* ===== verification/Rebuild.v ===== *)
(** Rebuild of derived state (selene-graph, shared/rebuild.rs): label bitmaps, the
    maps from identities to rows, and adjacency, from the columns of a graph.

    A loop threads the part of the graph it writes. *)

From stdpp Require Import sorting.
From S2P Require Import Prelude Errors Wire Value Ordered LabelSet PropertyMap GraphDelta Columns GraphTypes Store Derived GraphApply GraphApplyProps Mutator Consistent.

Section Rebuild.
Context `{L : Leaves} {GE : GraphEnv} {TO : TypeOps} {LE : LegacyEvents}.

(** [u32::try_from] of a row index. *)
Definition checked_row (index : nat) : outcome GraphError Z :=
  refuse negb (Z.of_nat index <=? u32_max) with Fails (Inconsistent "store row index exceeds u32::MAX");
  Ok (Z.of_nat index).
(** [row as u32]. *)
Definition raw_row (index : nat) : Z := Z.of_nat index mod 2 ^ 32.

(** The loops over label columns. *)
Definition label_row (store : NodeStore) (index : nat) (idx : gmap bytes (gset Z)) : outcome GraphError (gmap bytes (gset Z)) :=
  let? row := checked_row index in
  if negb (ns_is_alive_row row store) then Ok idx else
  match cv_get index (ns_labels store) with
  | Some labels => Ok (insert_node_labels row labels idx)
  | None => Ok idx
  end.
Definition edge_label_row (store : EdgeStore) (index : nat) (idx : gmap bytes (gset Z)) : outcome GraphError (gmap bytes (gset Z)) :=
  let? row := checked_row index in
  if negb (es_is_alive_row row store) then Ok idx else
  match cv_get index (es_label store) with
  | Some label => Ok (insert_index_row label row idx)
  | None => Ok idx
  end.

(** [pad_row_to_id]. *)
Definition pad_row_to_id (target_len : nat) (column : ChunkedVec Z) : ChunkedVec Z :=
  Nat.iter (target_len - cv_len column) (cv_push TOMBSTONE) column.
(** The loops of [rebuild_id_maps]: the column of identities and the map. *)
Definition bind_row_to_id (is_alive : Z -> bool) (index : nat) (s : ChunkedVec Z * gmap Z Z) : outcome GraphError (ChunkedVec Z * gmap Z Z) :=
  let '(row_to_id, rows) := s in
  let raw := raw_row index in
  let id := default TOMBSTONE (cv_get index row_to_id) in
  if id =? TOMBSTONE then
    if negb (is_alive raw) then Ok (row_to_id, rows) else
    let id := raw + 1 in
    let? row_to_id := cv_set index id row_to_id in
    Ok (row_to_id, <[id := raw]> rows)
  else Ok (row_to_id, <[id := raw]> rows).
Definition rebuild_id_maps (graph : SeleneGraph) : outcome GraphError SeleneGraph :=
  let n := node_store graph in
  let e := edge_store graph in
  let? nodes := each_index (bind_row_to_id (fun row => ns_is_alive_row row n)) (seq 0 (ns_len n)) (pad_row_to_id (ns_len n) (ns_row_to_id n), ∅) in
  let? edges := each_index (bind_row_to_id (fun row => es_is_alive_row row e)) (seq 0 (es_len e)) (pad_row_to_id (es_len e) (es_row_to_id e), ∅) in
  let graph := set_nodes {| ns_labels := ns_labels n; ns_properties := ns_properties n; ns_row_to_id := fst nodes; ns_alive := ns_alive n |} (snd nodes) graph in
  Ok (set_edges {| es_directionality := es_directionality e; es_label := es_label e; es_source := es_source e; es_target := es_target e;
                   es_properties := es_properties e; es_row_to_id := fst edges; es_alive := es_alive e |} (snd edges) graph).

(** [edge_row_parts]. *)
Definition edge_row_parts (store : EdgeStore) (row_index : nat) : result GraphError (bytes * Z * Z) :=
  let? label := ok_or (cv_get row_index (es_label store)) (Inconsistent "edge label column missing row") in
  let? source := ok_or (cv_get row_index (es_source store)) (Inconsistent "edge source column missing row") in
  let? target := ok_or (cv_get row_index (es_target store)) (Inconsistent "edge target column missing row") in
  Ok (label, source, target).
(** [rebuild_adjacency]: the outgoing, incoming and undirected maps. *)
Abbreviation adjacency := (gmap Z AdjacencyEntry * gmap Z AdjacencyEntry * gmap Z AdjacencyEntry)%type.
Definition adjacency_row (graph : SeleneGraph) (index : nat) (maps : adjacency) : outcome GraphError adjacency :=
  let '(out, into, undirected) := maps in
  let? row := checked_row index in
  if negb (es_is_alive_row row (edge_store graph)) then Ok maps else
  let? parts := lift (edge_row_parts (edge_store graph) index) in
  let '(label, source, target) := parts in
  let? edge_id := lift (ok_or (edge_id_for_edge_row row graph) (Inconsistent "alive edge row has no mapped external id during rebuild")) in
  let? directionality := lift (ok_or (cv_get index (es_directionality (edge_store graph))) (Inconsistent "edge directionality column missing row")) in
  refuse negb (is_node_alive source graph) || negb (is_node_alive target graph) with Fails (Inconsistent "edge has an absent endpoint");
  let edge neighbor := {| ae_label := label; ae_neighbor := neighbor; ae_edge_id := edge_id |} in
  match directionality with
  | EdgeDirectionality.Undirected =>
      refuse target <? source with Fails (Inconsistent "edge has noncanonical undirected endpoints");
      let undirected := adjacency_insert source (edge target) undirected in
      Ok (out, into, if negb (source =? target) then adjacency_insert target (edge source) undirected else undirected)
  | EdgeDirectionality.Directed => Ok (adjacency_insert source (edge target) out, adjacency_insert target (edge source) into, undirected)
  end.
Definition rebuild_adjacency (graph : SeleneGraph) : outcome GraphError SeleneGraph :=
  let? maps := each_index (adjacency_row graph) (seq 0 (es_len (edge_store graph))) (adjacency_out graph, adjacency_in graph, adjacency_undirected graph) in
  let '(out, into, undirected) := maps in
  Ok (set_adjacency out into undirected graph).

(** [rebuild_derived_state]. *)
Definition rebuild_derived_state (graph : SeleneGraph) : outcome GraphError SeleneGraph :=
  let graph := set_adjacency ∅ ∅ ∅ (set_labels ∅ ∅ graph) in
  let? labels := each_index (label_row (node_store graph)) (seq 0 (cv_len (ns_labels (node_store graph)))) (idx_label graph) in
  let? edge_labels := each_index (edge_label_row (edge_store graph)) (seq 0 (cv_len (es_label (edge_store graph)))) (idx_edge_label graph) in
  let? graph := rebuild_id_maps (set_labels labels edge_labels graph) in
  rebuild_adjacency graph.
End Rebuild.
