(* ===== verification/Shared.v ===== *)
(** The shared graph (selene-graph, shared.rs) and its committer (committer.rs): the
    thread that publishes sealed work in the order of its sequence, whatever the order
    of arrival; the admission of a graph; the write lock with the allocator of
    identities, and transactions under the lock.

    A panic inside a publication is caught and fences the runtime; where it happens is
    decided by a function [faults], from the sequence to the number of steps that the
    publication completed. *)

From stdpp Require Import sorting.
From S2P Require Import Prelude Errors Wire Value Ordered LabelSet PropertyMap GraphDelta Catalog Columns GraphTypes Store Candidates TypeValidator Fanout Unique GraphApply Mutator Seal Rebuild.

Section Committer.
Context `{L : Leaves} {GE : GraphEnv} {TO : TypeOps} {CO : Comparison} {EN : Engine} {LE : LegacyEvents} {LC : LegacyChecks}.

(** [Work], without its reply channels. *)
Inductive Work :=
| WorkCommit (sealed : SealedCommit)
| WorkCompact (seal_seq : Z) (dense : Published)
| WorkVectorIndexRebuild (seal_seq : Z) (rebuilt : Published).
Definition work_seq (self : Work) : Z :=
  match self with WorkCommit sealed => seal_seq sealed | WorkCompact seq _ | WorkVectorIndexRebuild seq _ => seq end.

(** What the sender of a work is told. *)
Inductive Reply := Committed (outcome : CommitOutcome) | Replaced | IndeterminateOutcome.
Record CommitterState := {
  next_publish_seq : Z;
  reorder : gmap Z Work;
  poisoned : bool;
  memory : Memory;
  replies : list (Z * Reply)
}.
(** [CommitterThread::spawn]. *)
Definition spawn (m : Memory) : CommitterState := {| next_publish_seq := 0; reorder := ∅; poisoned := false; memory := m; replies := [] |}.

Definition store_snapshot (p : Published) (m : Memory) : Memory := {| mem_snapshot := p; schema_version := schema_version m; notified := notified m |}.
(** The steps of a publication, in order: the snapshot, the epoch, the providers. *)
Definition publish_steps (work : Work) : list (Memory -> Memory) :=
  match work with
  | WorkCommit s =>
      let c := sealed s in
      [store_snapshot (next_snapshot c);
       fun m => {| mem_snapshot := mem_snapshot m; schema_version := if schema_changed c then (schema_version m + 1) mod 2 ^ 64 else schema_version m; notified := notified m |};
       fun m => {| mem_snapshot := mem_snapshot m; schema_version := schema_version m;
                   notified := notified m ++ [(prepared_generation c, default (prepared_changes c) (fanout_changes s))] |}]
  | WorkCompact _ p | WorkVectorIndexRebuild _ p => [store_snapshot p]
  end.
Definition run_steps (steps : list (Memory -> Memory)) (m : Memory) : Memory := foldl (fun m f => f m) m steps.

Variable faults : Z -> option nat.

(** [run_protected] and [unwrap_protected]. *)
Definition publish_protected (work : Work) (m : Memory) : Reply * Memory * bool :=
  match faults (work_seq work) with
  | Some steps => (IndeterminateOutcome, run_steps (take steps (publish_steps work)) m, true)
  | None =>
      match work with
      | WorkCommit sealed => let '(outcome, m) := publish_sealed sealed m in (Committed outcome, m, false)
      | _ => (Replaced, run_steps (publish_steps work) m, false)
      end
  end.
(** The inner loop of [run_committer]; a round takes one work from the buffer, so the
    size of the buffer is enough fuel ([drain_fuel], [settled_idle]). *)
Fixpoint drain (fuel : nat) (self : CommitterState) : CommitterState :=
  match fuel with
  | O => self
  | S fuel =>
      match reorder self !! next_publish_seq self with
      | None => self
      | Some work =>
          let '(reply, m, failed) := publish_protected work (memory self) in
          let self := {| next_publish_seq := next_publish_seq self + 1; reorder := delete (next_publish_seq self) (reorder self);
                         poisoned := failed; memory := m; replies := replies self ++ [(work_seq work, reply)] |} in
          if failed then self else drain fuel self
      end
  end.
(** The outer loop: one work is received; after a failed publication the thread has
    returned. *)
Definition buffered (work : Work) (self : CommitterState) : CommitterState := {|
  next_publish_seq := next_publish_seq self; reorder := <[work_seq work := work]> (reorder self); poisoned := poisoned self;
  memory := memory self; replies := replies self |}.
Definition receive (self : CommitterState) (work : Work) : CommitterState :=
  if poisoned self then self else let self := buffered work self in drain (size (reorder self)) self.
Definition run_committer (m : Memory) (works : list Work) : CommitterState := foldl receive (spawn m) works.
(** [enqueue_commit]: whether a work is accepted by the channel. *)
Definition enqueue (self : CommitterState) (work : Work) : option CommitterState := if poisoned self then None else Some (receive self work).

(** ** The order of arrival does not matter *)

Lemma publish_sealed_steps s m : snd (publish_sealed s m) = run_steps (publish_steps (WorkCommit s)) m.
Proof. done. Qed.

(** What is left to do when nothing more arrives. *)
Definition settled (self : CommitterState) : CommitterState := if poisoned self then self else drain (size (reorder self)) self.
Definition observed (self : CommitterState) : Z * bool * Memory * list (Z * Reply) := (next_publish_seq self, poisoned self, memory self, replies self).

Lemma delete_smaller {A} (m : gmap Z A) k x : m !! k = Some x -> (size (delete k m) < size m)%nat.
Proof.
  intros E. pose proof (map_size_insert_None k x (delete k m) (lookup_delete_eq m k)) as Hs. rewrite insert_delete_id in Hs by done. lia.
Qed.
Lemma drain_fuel self fuel fuel' : (size (reorder self) <= fuel)%nat -> (size (reorder self) <= fuel')%nat -> drain fuel self = drain fuel' self.
Proof.
  revert self fuel'. induction fuel as [|fuel IH]; intros self fuel' H1 H2.
  - assert (E : reorder self = ∅) by (apply map_size_empty_iff; lia). destruct fuel' as [|fuel']; cbn; [done|]. by rewrite E, lookup_empty.
  - destruct fuel' as [|fuel']; [assert (E : reorder self = ∅) by (apply map_size_empty_iff; lia); cbn; by rewrite E, lookup_empty|]. cbn.
    destruct (reorder self !! next_publish_seq self) as [w|] eqn:Ew; [|done]. destruct (publish_protected w (memory self)) as [[r m] []]; [done|].
    pose proof (delete_smaller _ _ _ Ew). apply IH; cbn [reorder]; lia.
Qed.
(** One round of the drain. *)
Definition advanced (work : Work) (self : CommitterState) : CommitterState :=
  let '(reply, m, failed) := publish_protected work (memory self) in
  {| next_publish_seq := next_publish_seq self + 1; reorder := delete (next_publish_seq self) (reorder self);
     poisoned := failed; memory := m; replies := replies self ++ [(work_seq work, reply)] |}.
Lemma settled_step self : poisoned self = false ->
  settled self = match reorder self !! next_publish_seq self with Some work => settled (advanced work self) | None => self end.
Proof.
  intros Hp. unfold settled at 1. rewrite Hp. destruct (reorder self !! next_publish_seq self) as [w|] eqn:Ew.
  - pose proof (delete_smaller _ _ _ Ew) as Hs.
    destruct (size (reorder self)) as [|n] eqn:En; [lia|]. cbn [drain]. rewrite Ew. unfold advanced, settled. destruct (publish_protected w (memory self)) as [[r m] []]; cbn [poisoned]; [done|].
    apply drain_fuel; cbn [reorder]; lia.
  - destruct (size (reorder self)); cbn [drain]; [done|]. by rewrite Ew.
Qed.
Lemma settled_idle self : poisoned self = false -> reorder (settled self) !! next_publish_seq (settled self) = None \/ poisoned (settled self) = true.
Proof.
  remember (size (reorder self)) as n eqn:En. revert self En. induction n as [n IH] using lt_wf_ind. intros self -> Hp. rewrite settled_step by done.
  destruct (reorder self !! next_publish_seq self) as [w|] eqn:Ew; [|by left]. destruct (poisoned (advanced w self)) eqn:Ep; [right; unfold settled; by rewrite Ep|].
  pose proof (delete_smaller _ _ _ Ew).
  eapply IH; [|reflexivity|done]. unfold advanced. destruct (publish_protected w (memory self)) as [[r m] f]. cbn [reorder]. lia.
Qed.
(** Equal, but for what a fenced committer holds in its buffer. *)
Definition agree (s t : CommitterState) : Prop := s = t \/ (poisoned s = true /\ observed s = observed t).
Lemma agree_receive s t work : agree s t -> agree (receive s work) (receive t work).
Proof.
  intros [->|[Hp E]]; [by left|]. right. assert (Ht : poisoned t = true) by (injection E as _ <- _ _; done). unfold receive. by rewrite Hp, Ht.
Qed.
Lemma agree_trans s t u : agree s t -> agree t u -> agree s u.
Proof. intros [->|[Hp E]]; [done|]. intros [<-|[Hp' E']]; right; [done|]. split; [done|congruence]. Qed.
(** Draining before or after an arrival comes to the same. *)
Lemma settled_arrival work self : poisoned self = false -> reorder self !! work_seq work = None -> agree (receive (settled self) work) (settled (buffered work self)).
Proof.
  remember (size (reorder self)) as n eqn:En. revert self En. induction n as [n IH] using lt_wf_ind. intros self -> Hp Hn. rewrite settled_step by done.
  destruct (reorder self !! next_publish_seq self) as [w|] eqn:Ew.
  - assert (Hne : work_seq work <> next_publish_seq self) by congruence. rewrite (settled_step (buffered work self)) by done. cbn [buffered reorder next_publish_seq]. rewrite lookup_insert_ne, Ew by done.
    assert (Ea : advanced w (buffered work self) = buffered work (advanced w self)).
    { unfold advanced, buffered. cbn. destruct (publish_protected w (memory self)) as [[r m] f]. cbn. by rewrite delete_insert_ne by done. }
    rewrite Ea. destruct (poisoned (advanced w self)) eqn:Epo; [right; unfold receive, settled; cbn [buffered poisoned]; by rewrite !Epo|].
    pose proof (delete_smaller _ _ _ Ew). eapply IH; [|reflexivity|done|]; unfold advanced; destruct (publish_protected w (memory self)) as [[r m] f]; cbn [reorder]; [lia|]. by rewrite lookup_delete_ne.
  - left. unfold receive, settled. cbn [buffered poisoned]. by rewrite Hp.
Qed.
(** All the works of a run at once in the buffer. *)
Definition waiting (m : Memory) (works : list Work) : CommitterState := foldl (fun self work => buffered work self) (spawn m) works.
Lemma waiting_idle m works : poisoned (waiting m works) = false /\ next_publish_seq (waiting m works) = 0 /\ memory (waiting m works) = m /\ replies (waiting m works) = [].
Proof. unfold waiting. induction works as [|w works IH] using rev_ind; [done|]. by rewrite foldl_app. Qed.
Lemma waiting_lookup m works w seq : NoDup (map work_seq works) -> reorder (waiting m works) !! seq = Some w <-> w ∈ works /\ work_seq w = seq.
Proof.
  unfold waiting. revert w seq. induction works as [|x works IH] using rev_ind; intros w seq; cbn; [rewrite lookup_empty; set_solver|]. rewrite map_app, foldl_app. cbn.
  intros (Hnd & Hx & _)%NoDup_app. rewrite lookup_insert_Some, IH by done. rewrite elem_of_app, list_elem_of_singleton. split.
  - intros [[<- <-]|(Hne & Hw & <-)]; auto.
  - intros [[Hw| ->] <-]; [|by left]. right. split_and!; [|done|done]. intros E. apply (Hx (work_seq w)); [by apply list_elem_of_fmap_2|]. by rewrite <- E, list_elem_of_singleton.
Qed.
Lemma run_agrees m works : NoDup (map work_seq works) -> agree (run_committer m works) (settled (waiting m works)).
Proof.
  induction works as [|w works IH] using rev_ind; intros Hnd; [by left|]. pose proof Hnd as Hnd0. rewrite map_app in Hnd. apply NoDup_app in Hnd as (Hnd & Hw & _).
  unfold run_committer, waiting. rewrite !foldl_app. cbn [foldl]. eapply agree_trans; [apply agree_receive, IH; done|]. apply settled_arrival; [apply waiting_idle|].
  destruct (reorder (waiting m works) !! work_seq w) as [x|] eqn:Ex; [|done]. apply waiting_lookup in Ex as [Hx Es]; [|done].
  destruct (Hw (work_seq x)); [by apply list_elem_of_fmap_2|]. rewrite Es. left.
Qed.
(** What a committer is for: works published one after another, up to the first that
    fails. *)
Fixpoint in_sequence (works : list Work) (m : Memory) : Memory * bool * list (Z * Reply) :=
  match works with
  | [] => (m, false, [])
  | work :: works =>
      let '(reply, m, failed) := publish_protected work m in
      if failed then (m, true, [(work_seq work, reply)]) else
      let '(m, failed, rest) := in_sequence works m in (m, failed, (work_seq work, reply) :: rest)
  end.
(** The works before the first one that has not arrived. *)
Fixpoint ready (arrived : list Z) (works : list Work) : list Work :=
  match works with
  | [] => []
  | work :: works => if bool_decide (work_seq work ∈ arrived) then work :: ready arrived works else []
  end.
Lemma settled_in_sequence arrived works : forall self n, poisoned self = false -> next_publish_seq self = n ->
  (forall i w, works !! i = Some w -> work_seq w = n + Z.of_nat i) ->
  (forall seq w, n <= seq -> reorder self !! seq = Some w <-> w ∈ works /\ work_seq w = seq /\ seq ∈ arrived) ->
  let '(m, failed, rest) := in_sequence (ready arrived works) (memory self) in
  memory (settled self) = m /\ poisoned (settled self) = failed /\ replies (settled self) = replies self ++ rest.
Proof.
  induction works as [|w works IH]; intros self n Hp Hn Hseq Hr; rewrite (settled_step self Hp), Hn.
  - destruct (reorder self !! n) as [x|] eqn:Ex; [apply Hr in Ex as [Hx _]; [by apply elem_of_nil in Hx|lia]|]. cbn. by rewrite app_nil_r.
  - pose proof (Hseq 0%nat w eq_refl) as Hw. rewrite Z.add_0_r in Hw. cbn [ready]. rewrite Hw. case_bool_decide as Ha.
    2: { destruct (reorder self !! n) as [x|] eqn:Ex; [apply Hr in Ex as (_ & _ & ?); [done|lia]|]. cbn. by rewrite app_nil_r. }
    assert (Hx : reorder self !! n = Some w) by (apply Hr; [lia|]; split; [left|done]). rewrite Hx. cbn [in_sequence].
    destruct (publish_protected w (memory self)) as [[r m] failed] eqn:Epw.
    assert (Ea : advanced w self = {| next_publish_seq := n + 1; reorder := delete n (reorder self); poisoned := failed; memory := m; replies := replies self ++ [(work_seq w, r)] |})
      by (unfold advanced; by rewrite Epw, Hn).
    rewrite Ea. destruct failed; [unfold settled; cbn; done|]. specialize (IH (advanced w self) (n + 1)). rewrite Ea in IH. cbn [poisoned next_publish_seq memory reorder replies] in IH.
    specialize (IH eq_refl eq_refl). destruct (in_sequence (ready arrived works) m) as [[m' failed] rest]. rewrite <- app_assoc in IH. apply IH.
    + intros i x Hi. rewrite (Hseq (S i) x Hi). lia.
    + intros seq x Hle. rewrite lookup_delete_ne, Hr, elem_of_cons by lia. split; [|tauto]. intros ([->|?] & E & ?); [lia|done].
Qed.
End Committer.

(** The indexes on properties, texts and vectors, the candidate state of the catalog
    and the error of a repeated tag. *)
Class Admission `{TypeOps} := {
  rebuild_indexes : SeleneGraph -> result GraphError Indexes;
  candidate_provider : SeleneGraph -> result GraphError (option bytes);
  duplicate_tag : bytes -> GraphErrorRest
}.

Section Shared.
Context `{L : Leaves} {GE : GraphEnv} {TO : TypeOps} {CO : Comparison} {EN : Engine} {LE : LegacyEvents} {LC : LegacyChecks} {AD : Admission}.

(** ** Admission *)

Fixpoint validate_properties (columns : list PropertyMap) : result GraphError unit :=
  match columns with
  | [] => Ok tt
  | properties :: columns => let? _ := map_err Core (pm_validate properties) in validate_properties columns
  end.
(** [validate_unique_provider_tags]. *)
Fixpoint validate_unique_provider_tags (seen : gset bytes) (providers : list bytes) : result GraphError unit :=
  match providers with
  | [] => Ok tt
  | tag :: providers =>
      refuse bool_decide (tag ∈ seen) with Rest (duplicate_tag tag);
      validate_unique_provider_tags ({[tag]} ∪ seen) providers
  end.
(** [SharedGraph], with the works that have been sealed. *)
Record SharedGraph := {
  shared : Published;
  shared_allocator : IdAllocator;
  sealed_works : list SealedCommit;
  provider_tags : list bytes
}.
(** [from_validated_graph]; the committer starts from [opening_memory]. *)
Definition from_validated_graph (graph : Published) (providers : list bytes) : SharedGraph :=
  let node_floor := Z.min (Z.of_nat (ns_len (node_store (pub_graph graph))) + 1) (2 ^ 64 - 1) in
  let edge_floor := Z.min (Z.of_nat (es_len (edge_store (pub_graph graph))) + 1) (2 ^ 64 - 1) in
  {| shared := graph; shared_allocator := from_meta_with_floors (meta (pub_graph graph)) node_floor edge_floor; sealed_works := []; provider_tags := providers |}.
Definition opening_memory (self : SharedGraph) : Memory := {| mem_snapshot := shared self; schema_version := 0; notified := [] |}.
(** [from_graph_with_providers], with the identities of the new layout. *)
Definition from_graph_with_providers (physical workspace : Z) (graph : Published) (providers : list bytes) : outcome GraphError SharedGraph :=
  let g := pub_graph graph in
  let? _ := lift (validate_properties (cv_iter (ns_properties (node_store g)) ++ cv_iter (es_properties (edge_store g)))) in
  let? _ := lift (validate_unique_provider_tags ∅ providers) in
  let? g := rebuild_derived_state g in
  let? indexes := lift (rebuild_indexes g) in
  let g := set_indexes indexes g in
  let snapshot := {| snap_graph := g; snap_physical := physical; snap_workspace_binding := workspace |} in
  let? provider := lift (candidate_provider g) in
  let? providers :=
    match provider with
    | Some tag => let? _ := lift (validate_unique_provider_tags ∅ (providers ++ [tag])) in Ok (providers ++ [tag])
    | None => Ok providers
    end in
  let? _ :=
    match m_bound_type (meta g) with
    | Some type_def => let? _ := lift (validate_ref type_def) in violation (validate_entity_state snapshot (pub_declarations graph) type_def)
    | None => Ok []
    end in
  let? constraints := rebuild_constraints snapshot (pub_declarations graph) in
  let? named :=
    match pub_named graph with
    | Some (named, _) => let? admitted := violation (admit_named_constraints snapshot None named []) in Ok (Some admitted)
    | None => Ok None
    end in
  Ok (from_validated_graph {| pub_snapshot := snapshot; pub_constraints := constraints; pub_named := named; pub_declarations := pub_declarations graph |} providers).

(** ** Transactions *)

(** [begin_write]. *)
Definition begin_write (self : SharedGraph) : Txn := begin_txn (shared self) (shared_allocator self).
(** How a transaction ends: [commit_with_principal] up to the hand-over of its sealed
    work, with the token of a cancellable one, or [rollback]. *)
Inductive Ending := Commits (principal : option bytes) (cancel : option bool) | RollsBack.
Definition finish (ending : Ending) (t : Txn) (self : SharedGraph) : SharedGraph :=
  let allocator := allocator (tx_work t) in
  match ending with
  | Commits principal cancel =>
      let '(result, graph) := seal principal cancel (Z.of_nat (length (sealed_works self))) t in
      {| shared := graph; shared_allocator := allocator; provider_tags := provider_tags self;
         sealed_works := match result with Ok work => sealed_works self ++ [work] | Err _ => sealed_works self end |}
  | RollsBack => {| shared := rollback t; shared_allocator := allocator; sealed_works := sealed_works self; provider_tags := provider_tags self |}
  end.
(** A transaction, with what its calls return. *)
Definition transact (calls : list Call) (ending : Ending) (self : SharedGraph) : outcome GraphError unit * SharedGraph :=
  let t := begin_write self in
  let '(r, w) := run calls (tx_work t) in
  (r, finish ending (after_run w t) self).
End Shared.
