(* ===== verification/RebuildProps.v ===== *)
(** A rebuild of derived state succeeds exactly when no edge dangles, and makes the
    graph consistent; on a consistent graph it changes nothing. *)

From stdpp Require Import sorting.
From S2P Require Import Prelude Errors Wire Value Ordered LabelSet PropertyMap GraphDelta Columns GraphTypes Store Derived GraphApply GraphApplyProps Mutator Consistent Rebuild.

(** A loop over row indexes keeps an invariant, or fails in [X]. *)
Lemma each_index_inv {E S} (body : nat -> S -> outcome E S) (I : nat -> S -> Prop) (X : fault E -> Prop) n s :
  I 0%nat s -> (forall k s, (k < n)%nat -> I k s -> match body k s with Ok s' => I (Datatypes.S k) s' | Err e => X e end) ->
  match each_index body (seq 0 n) s with Ok s' => I n s' | Err e => X e end.
Proof.
  intros H0 Hb. assert (HG : forall m k s, (k + m = n)%nat -> I k s -> match each_index body (seq k m) s with Ok s' => I n s' | Err e => X e end).
  { clear s H0. induction m as [|m IH]; intros k s Hk HI; cbn [seq each_index]; [by replace n with k by lia|]. specialize (Hb k s ltac:(lia) HI).
    destruct (body k s) as [s'|e]; [|done]. apply IH; [lia|done]. }
  by apply HG.
Qed.
Lemma each_index_ok {E S} (body : nat -> S -> outcome E S) (I : nat -> S -> Prop) n s :
  I 0%nat s -> (forall k s, (k < n)%nat -> I k s -> exists s', body k s = Ok s' /\ I (Datatypes.S k) s') -> exists s', each_index body (seq 0 n) s = Ok s' /\ I n s'.
Proof.
  intros H0 Hb. pose proof (each_index_inv body I (fun _ => False) n s H0) as HI. destruct (each_index body (seq 0 n) s) as [s'|e]; [exists s'; split; [done|]|exfalso]; apply HI;
    intros k s1 Hk H1; by destruct (Hb k s1 Hk H1) as (s2 & -> & H2).
Qed.

Section RebuildProps.
Context `{L : Leaves} {GE : GraphEnv} {TO : TypeOps} {LE : LegacyEvents}.

Lemma checked_row_ok (index : nat) : Z.of_nat index <= u32_max -> checked_row index = Ok (Z.of_nat index).
Proof. intros Hi. unfold checked_row. by rewrite (proj2 (Z.leb_le _ _)). Qed.
Lemma raw_row_ok (index : nat) : Z.of_nat index <= u32_max -> raw_row index = Z.of_nat index.
Proof. intros Hi. unfold raw_row. apply Z.mod_small. unfold u32_max in Hi. lia. Qed.

(** ** Labels *)

Lemma node_label_row s rows l row : nodes_ok s rows -> node_label s l row -> 0 <= row < Z.of_nat (ns_len s).
Proof.
  intros N (n & E & _). unfold node_at in E. destruct (ns_is_alive_row row s) eqn:Ea; [|done]. apply alive_spec in Ea. apply (node_range _ _ N row Ea).
Qed.
Lemma edge_label_at_row s rows l row : edges_ok s rows -> edge_label_at s l row -> 0 <= row < Z.of_nat (es_len s).
Proof.
  intros N (n & E & _). unfold edge_at in E. destruct (es_is_alive_row row s) eqn:Ea; [|done]. apply edge_alive_spec in Ea. apply (edge_range _ _ N row Ea).
Qed.

Lemma labels_rebuilt s rows : nodes_ok s rows -> exists idx, each_index (label_row s) (seq 0 (cv_len (ns_labels s))) ∅ = Ok idx /\ bitmaps idx (node_label s).
Proof.
  intros N. pose proof (br_limit _ _ _ _ (no_rows _ _ N)) as Hlim.
  destruct (each_index_ok (label_row s) (fun k idx => bitmaps idx (fun l row => node_label s l row /\ row < Z.of_nat k)) (ns_len s) ∅) as (idx & E & HB).
  - apply bitmaps_empty. intros l row [Hl ?]. apply (node_label_row _ _ _ _ N) in Hl. lia.
  - intros k idx Hk HB. unfold label_row. rewrite checked_row_ok by lia. destruct (ns_is_alive_row (Z.of_nat k) s) eqn:Ea; cbn [negb].
    + apply alive_spec in Ea. destruct (node_at_alive _ _ N _ Ea) as (labels & p & El & _ & Hat). rewrite Nat2Z.id in El. rewrite El. eexists. split; [done|].
      eapply bitmaps_ext; [|apply bitmaps_insert_all, HB]. intros l r. cbn. split; [intros [[Hl Hr]|[Hl ->]]|intros [Hl Hr]].
      * split; [done|lia].
      * split; [by eexists|lia].
      * destruct (decide (r = Z.of_nat k)) as [->|]; [right|left; split; [done|lia]]. destruct Hl as (n & En & Hl). rewrite Hat in En. by injection En as <-.
    + exists idx. split; [done|]. eapply bitmaps_ext; [|exact HB]. intros l r. cbn. split; [intros [? ?]; split; [done|lia]|]. intros [Hl Hr]. split; [done|].
      destruct (decide (r = Z.of_nat k)) as [->|]; [|lia]. destruct Hl as (n & En & _). unfold node_at in En. by rewrite Ea in En.
  - exists idx. split; [exact E|]. eapply bitmaps_ext; [|exact HB]. intros l r. cbn. split; [tauto|]. intros Hl. split; [done|]. apply (node_label_row _ _ _ _ N) in Hl. lia.
Qed.
Lemma edge_labels_rebuilt s rows : edges_ok s rows -> exists idx, each_index (edge_label_row s) (seq 0 (cv_len (es_label s))) ∅ = Ok idx /\ bitmaps idx (edge_label_at s).
Proof.
  intros N. pose proof (br_limit _ _ _ _ (eo_rows _ _ N)) as Hlim.
  destruct (each_index_ok (edge_label_row s) (fun k idx => bitmaps idx (fun l row => edge_label_at s l row /\ row < Z.of_nat k)) (es_len s) ∅) as (idx & E & HB).
  - apply bitmaps_empty. intros l row [Hl ?]. apply (edge_label_at_row _ _ _ _ N) in Hl. lia.
  - intros k idx Hk HB. unfold edge_label_row. rewrite checked_row_ok by lia. destruct (es_is_alive_row (Z.of_nat k) s) eqn:Ea; cbn [negb].
    + apply edge_alive_spec in Ea. destruct (edge_at_alive _ _ N _ Ea) as (e & (_ & El & _) & Hat). rewrite Nat2Z.id in El. rewrite El. eexists. split; [done|].
      eapply bitmaps_ext; [|apply bitmaps_insert, HB]. intros l r. cbn. split; [intros [[Hl Hr]|[-> ->]]|intros [Hl Hr]].
      * split; [done|lia].
      * split; [by eexists|lia].
      * destruct (decide (r = Z.of_nat k)) as [->|]; [right|left; split; [done|lia]]. destruct Hl as (n & En & <-). rewrite Hat in En. by injection En as <-.
    + exists idx. split; [done|]. eapply bitmaps_ext; [|exact HB]. intros l r. cbn. split; [intros [? ?]; split; [done|lia]|]. intros [Hl Hr]. split; [done|].
      destruct (decide (r = Z.of_nat k)) as [->|]; [|lia]. destruct Hl as (n & En & _). unfold edge_at in En. by rewrite Ea in En.
  - exists idx. split; [exact E|]. eapply bitmaps_ext; [|exact HB]. intros l r. cbn. split; [tauto|]. intros Hl. split; [done|]. apply (edge_label_at_row _ _ _ _ N) in Hl. lia.
Qed.

(** ** Identities *)

Lemma id_map_rebuilt len ids alive rows is_alive : bound_rows len ids alive rows ->
  each_index (E := GraphError) (bind_row_to_id is_alive) (seq 0 len) (pad_row_to_id len ids, ∅) = Ok (ids, rows).
Proof.
  intros B. assert (Ep : pad_row_to_id len ids = ids) by (unfold pad_row_to_id; by rewrite (br_len _ _ _ _ B), Nat.sub_diag). rewrite Ep.
  destruct (each_index_ok (E := GraphError) (bind_row_to_id is_alive) (fun k p => fst p = ids /\ forall id row, snd p !! id = Some row <-> rows !! id = Some row /\ row < Z.of_nat k) len (ids, ∅))
    as ([ids' rows'] & -> & Ei & Hrows).
  - split; [done|]. intros id row. cbn. rewrite lookup_empty. split; [done|]. intros [Hr ?]. apply (row_range B) in Hr. lia.
  - intros k [ids' rows'] Hk [Ei Hrows]. cbn [fst snd] in *. subst ids'. unfold bind_row_to_id. pose proof (br_limit _ _ _ _ B) as Hlim. rewrite raw_row_ok by lia.
    destruct (row_id B (Z.of_nat k) ltac:(lia)) as (id & Hget & Hid). rewrite Nat2Z.id in Hget. rewrite Hget. cbn [default].
    rewrite (proj2 (Z.eqb_neq _ _)) by (by apply (br_nonzero _ _ _ _ B id)). eexists. split; [done|]. split; [done|]. cbn [snd]. intros id' row.
    destruct (decide (id' = id)) as [->|Hne].
    + rewrite lookup_insert_eq, Hid. split; [intros [= <-]; split; [done|lia]|intros [[= <-] _]; done].
    + rewrite lookup_insert_ne, Hrows by done. split; [intros [? ?]; split; [done|lia]|]. intros [Hr Hlt]. split; [done|].
      destruct (decide (row = Z.of_nat k)) as [->|]; [|lia]. by destruct (Hne (row_inj B id id' _ Hid Hr)).
  - cbn in Ei. subst ids'. f_equal. f_equal. apply map_eq. intros id. apply option_eq. intros row. cbn in Hrows. rewrite Hrows. split; [tauto|]. intros Hr. split; [done|]. apply (row_range B) in Hr. lia.
Qed.
Lemma id_maps_rebuilt g : columns_ok g -> rebuild_id_maps g = Ok g.
Proof.
  intros [N M]. unfold rebuild_id_maps. rewrite (id_map_rebuilt _ _ _ _ _ (no_rows _ _ N)), (id_map_rebuilt _ _ _ _ _ (eo_rows _ _ M)). cbn.
  f_equal. destruct g as [m [] [] o i u l el nr er x]. done.
Qed.

(** ** Adjacency *)

Lemma is_node_alive_spec g id : columns_ok g -> is_node_alive id g = bool_decide (is_Some (lg_nodes (logical g) !! id)).
Proof.
  intros [N _]. unfold is_node_alive, live_node_row, node_row_for_id. apply bool_decide_ext. destruct (node_spec g id N) as [(row & n & _ & Hr & Ha & Hat & E & _)|[E E']].
  - rewrite Hr, E. cbn [mbind option_bind]. pose proof (node_range _ _ N row Ha). rewrite (proj2 (Nat.ltb_lt _ _)), (proj2 (alive_spec _ _) Ha) by lia. cbn. split; by eexists.
  - rewrite E'. unfold node in E. destruct (node_rows g !! id) as [row|]; cbn in *; [|done]. destruct (ns_is_alive_row row (node_store g)); [done|]. by rewrite andb_false_r.
Qed.
Lemma is_edge_alive_spec g id : columns_ok g -> is_edge_alive id g = bool_decide (is_Some (lg_edges (logical g) !! id)).
Proof.
  intros [_ N]. unfold is_edge_alive, live_edge_row, edge_row_for_id. apply bool_decide_ext. destruct (edge_spec g id N) as [(row & n & _ & Hr & Ha & Hat & E & _)|[E E']].
  - rewrite Hr, E. cbn [mbind option_bind]. pose proof (edge_range _ _ N row Ha). rewrite (proj2 (Nat.ltb_lt _ _)), (proj2 (edge_alive_spec _ _) Ha) by lia. cbn. split; by eexists.
  - rewrite E'. unfold edge in E. destruct (edge_rows g !! id) as [row|]; cbn in *; [|done]. destruct (es_is_alive_row row (edge_store g)); [done|]. by rewrite andb_false_r.
Qed.

(** What [closed] says of one edge, decided. *)
Definition edge_closed (lg : LogicalGraph) (e : Edge) : Prop :=
  is_Some (lg_nodes lg !! e_source e) /\ is_Some (lg_nodes lg !! e_target e) /\
  EdgeDirectionality.canonical_endpoints (e_directionality e) (e_source e) (e_target e) = (e_source e, e_target e).

(** The row of an edge is linked, or the edge dangles. *)
Lemma adjacency_row_spec g k maps : columns_ok g -> (k < es_len (edge_store g))%nat ->
  match edge_at (edge_store g) (Z.of_nat k) with
  | None => adjacency_row g k maps = Ok maps
  | Some e => exists id, edge_rows g !! id = Some (Z.of_nat k) /\
      ((edge_closed (logical g) e /\ let '(out, into, undirected) := maps in
         let g' := link id (e_label e) (e_source e) (e_target e) (e_directionality e) (set_adjacency out into undirected g) in
         adjacency_row g k maps = Ok (adjacency_out g', adjacency_in g', adjacency_undirected g')) \/
       (~ edge_closed (logical g) e /\ exists err, adjacency_row g k maps = Err (Fails err)))
  end.
Proof.
  intros C Hk. pose proof C as [_ N]. pose proof (br_limit _ _ _ _ (eo_rows _ _ N)) as Hlim. destruct maps as [[out into] undirected]. unfold adjacency_row.
  rewrite checked_row_ok by lia. destruct (decide (Z.of_nat k ∈ es_alive (edge_store g))) as [Ha|Ha].
  2: { unfold edge_at. destruct (es_is_alive_row (Z.of_nat k) (edge_store g)) eqn:Ea; [by apply edge_alive_spec in Ea|done]. }
  rewrite (proj2 (edge_alive_spec _ _) Ha). cbn [negb]. destruct (edge_at_alive _ _ N _ Ha) as (e & (C1 & C2 & C3 & C4 & _) & ->). rewrite Nat2Z.id in C1, C2, C3, C4.
  destruct (row_id (eo_rows _ _ N) (Z.of_nat k) ltac:(lia)) as (id & _ & Hid). exists id. split; [done|].
  unfold edge_row_parts. rewrite C1, C2, C3, C4. cbn [ok_or lift map_err]. unfold edge_id_for_edge_row. rewrite (bound_id _ _ _ _ id _ (eo_rows _ _ N) Hid). cbn [ok_or lift map_err].
  rewrite !is_node_alive_spec by done. unfold edge_closed.
  case_bool_decide as Hs; cbn [negb orb]; [|right; split; [tauto|by eexists]]. case_bool_decide as Ht; cbn [negb orb]; [|right; split; [tauto|by eexists]].
  unfold link, EdgeDirectionality.canonical_endpoints. destruct (e_directionality e); [by left|]. destruct (Z.ltb_spec (e_target e) (e_source e)) as [Hlt|Hge].
  - right. split; [|by eexists]. intros (_ & _ & [= E1 E2]). lia.
  - by left.
Qed.

(** The edges of the rows below [k]. *)
Definition edges_below (g : SeleneGraph) (k : nat) : gmap Z Edge :=
  filter (fun '(id, _) => default 0 (edge_rows g !! id) < Z.of_nat k) (lg_edges (logical g)).
Lemma edges_below_next g k : columns_ok g -> (k < es_len (edge_store g))%nat ->
  match edge_at (edge_store g) (Z.of_nat k) with
  | None => edges_below g (S k) = edges_below g k
  | Some e => forall id, edge_rows g !! id = Some (Z.of_nat k) -> edges_below g (S k) = <[id := e]> (edges_below g k) /\ edges_below g k !! id = None
  end.
Proof.
  intros [_ N] Hk. assert (HE : forall id e row, lg_edges (logical g) !! id = Some e -> edge_rows g !! id = Some row -> edge_at (edge_store g) row = Some e).
  { intros id e row He Hr. destruct (live_row_edge g id e N He) as (row' & Hr' & _ & Hat & _). congruence. }
  assert (HR : forall id e, lg_edges (logical g) !! id = Some e -> exists row, edge_rows g !! id = Some row).
  { intros id e He. destruct (live_row_edge g id e N He) as (row' & Hr' & _). eauto. }
  destruct (edge_at (edge_store g) (Z.of_nat k)) as [e|] eqn:Hat.
  - intros id Hid. split.
    + apply map_eq. intros i. apply option_eq. intros x. unfold edges_below. destruct (decide (i = id)) as [->|Hne].
      * rewrite lookup_insert_eq, map_lookup_filter_Some, Hid. cbn [default]. rewrite (edge_at_logical g id _ e Hid Hat). split; [tauto|]. intros [= <-]. split; [done|cbn; lia].
      * rewrite lookup_insert_ne by done. rewrite !map_lookup_filter_Some. cbv beta iota. split; intros [He Hlt]; (split; [done|]); [|lia]. destruct (HR i x He) as [row Hr]. rewrite Hr in *. cbn in *.
        destruct (decide (row = Z.of_nat k)) as [->|]; [|lia]. by destruct (Hne (row_inj (eo_rows _ _ N) id i _ Hid Hr)).
    + apply map_lookup_filter_None. right. intros x He. rewrite Hid. cbn. lia.
  - apply map_filter_ext. intros i x He. destruct (HR i x He) as [row Hr]. rewrite Hr. cbn. split; [intros Hlt|lia].
    destruct (decide (row = Z.of_nat k)) as [->|]; [|lia]. rewrite (HE i x _ He Hr) in Hat. done.
Qed.

Lemma adjacency_rebuilt g : columns_ok g ->
  match each_index (adjacency_row g) (seq 0 (es_len (edge_store g))) (∅, ∅, ∅) with
  | Ok (out, into, undirected) => closed (logical g) /\ adjacent (set_adjacency out into undirected g) (lg_edges (logical g)) everything
  | Err (Fails _) => ~ closed (logical g)
  | Err (Panic _) => False
  end.
Proof.
  intros C. pose proof C as [_ N].
  pose proof (each_index_inv (adjacency_row g) (fun k maps => (forall id e, edges_below g k !! id = Some e -> edge_closed (logical g) e) /\
    let '(out, into, undirected) := maps in adjacent (set_adjacency out into undirected g) (edges_below g k) everything)
    (fun f => match f with Panic _ => False | Fails _ => ~ closed (logical g) end) (es_len (edge_store g)) (∅, ∅, ∅)) as HI.
  assert (Hfull : edges_below g (es_len (edge_store g)) = lg_edges (logical g)).
  { apply map_filter_id. intros id e He. destruct (live_row_edge g id e N He) as (row & Hr & _). rewrite Hr. cbn. apply (row_range (eo_rows _ _ N)) in Hr. lia. }
  assert (H0 : edges_below g 0 = ∅).
  { apply map_empty. intros id. apply map_lookup_filter_None. right. intros e He. destruct (live_row_edge g id e N He) as (row & Hr & _). rewrite Hr. cbn. apply (row_range (eo_rows _ _ N)) in Hr. lia. }
  destruct (each_index _ _ _) as [[[out into] undirected]|[w|err]]; [rewrite Hfull in HI; apply HI|apply HI|apply HI]; clear HI Hfull.
  all: try (rewrite H0; split; [intros id e E; by rewrite lookup_empty in E|]; split; cbn; apply listing_empty; intros n a [(e & E & _) _]; by rewrite lookup_empty in E).
  all: intros k [[o i] u] Hk [Hc HA]; pose proof (adjacency_row_spec g k (o, i, u) C Hk) as HR; pose proof (edges_below_next g k C Hk) as HB.
  all: destruct (edge_at (edge_store g) (Z.of_nat k)) as [e|] eqn:Hat; [|rewrite HR, HB; done].
  all: destruct HR as (id & Hid & [[He HR]|[He (err' & HR)]]); rewrite HR; [|intros HC; apply He, (HC id), (edge_at_logical g id _ e Hid Hat)].
  all: destruct (HB id Hid) as [-> HN]; split; [intros j x; destruct (decide (j = id)) as [->|]; [rewrite lookup_insert_eq; by intros [= <-]|rewrite lookup_insert_ne by done; apply Hc]|].
  all: eapply (adjacent_same (link id (e_label e) (e_source e) (e_target e) (e_directionality e) (set_adjacency o i u g))); [done..|by apply adjacent_link].
Qed.

(** ** The whole rebuild *)

Lemma rebuild_spec g : columns_ok g -> (forall row n, node_at (node_store g) row = Some n -> sorted_names (n_labels n)) ->
  match rebuild_derived_state g with
  | Ok g' => consistent g' /\ logical g' = logical g /\ meta g' = meta g /\ indexes g' = indexes g /\
      node_store g' = node_store g /\ edge_store g' = edge_store g /\ same_rows g g'
  | Err (Fails _) => ~ closed (logical g)
  | Err (Panic _) => False
  end.
Proof.
  intros C HS. pose proof C as [N M]. unfold rebuild_derived_state. cbn [node_store edge_store set_adjacency set_labels idx_label idx_edge_label].
  destruct (labels_rebuilt _ _ N) as (idx & -> & HB), (edge_labels_rebuilt _ _ M) as (idx' & -> & HB'). set (g1 := set_labels idx idx' _).
  assert (C1 : columns_ok g1) by done. rewrite (id_maps_rebuilt g1 C1). unfold rebuild_adjacency. change (adjacency_out g1) with (∅ : gmap Z AdjacencyEntry).
  change (adjacency_in g1) with (∅ : gmap Z AdjacencyEntry). change (adjacency_undirected g1) with (∅ : gmap Z AdjacencyEntry).
  pose proof (adjacency_rebuilt g1 C1) as HA. destruct (each_index (adjacency_row g1) _ _) as [[[out into] undirected]|[w|err]]; [|done..].
  destruct HA as [Hc HA]. split; [|by split_and!]. split; [by split|exact HA|exact Hc].
Qed.
Lemma rebuild_same g : consistent g -> rebuild_derived_state g = Ok g.
Proof.
  intros [[C SL SE SS] SA SC]. pose proof (rebuild_spec g C SS) as HR. destruct (rebuild_derived_state g) as [g'|[w|err]]; [|done|by destruct (HR SC)].
  destruct HR as ([[C' SL' SE' SS'] SA' SC'] & HL & Em & Ei & En & Ee & (Er1 & Er2 & _)). rewrite HL in SA'. destruct SA as [A1 A2 A3], SA' as [B1 B2 B3]. rewrite En in SL'. rewrite Ee in SE'.
  pose proof (bitmaps_unique _ _ _ SL SL') as E1. pose proof (bitmaps_unique _ _ _ SE SE') as E2. pose proof (listing_unique _ _ _ A1 B1) as E3.
  pose proof (listing_unique _ _ _ A2 B2) as E4. pose proof (listing_unique _ _ _ A3 B3) as E5. f_equal. clear - Em Ei En Ee Er1 Er2 E1 E2 E3 E4 E5. destruct g, g'. cbn in *. by subst.
Qed.
End RebuildProps.
