(* ===== verification/ValidatorProps.v ===== *)
(** Incremental validation: a graph that conforms to its closed type still conforms
    after a transaction whose changes are validated one by one. *)

From stdpp Require Import sorting.
From S2P Require Import Prelude Errors Wire Value Ordered LabelSet PropertyMap GraphDelta Columns GraphTypes Store Derived Candidates TypeValidator GraphApply GraphApplyProps Mutator Consistent CandidateProps Rebuild RebuildProps.

Definition is_ok {E A} (r : result E A) : Prop := exists a, r = Ok a.
Lemma is_ok_bind {E A B} (r : result E A) (k : A -> result E B) : is_ok (let? a := r in k a) <-> exists a, r = Ok a /\ is_ok (k a).
Proof. split; [destruct r as [a|]; [eauto|by intros [? ?]]|by intros (a & -> & ?)]. Qed.

(** The cases of a change that is applied. *)
Ltac spec_steps H :=
  unfold spec_apply in H;
  repeat match type of H with
    | context [match map_err ?f ?r with _ => _ end] => destruct (map_err f r) as [[]|]; [|discriminate H]
    | context [if ?b then Err _ else _] => destruct b; [discriminate H|]
    | context [match ok_or ?o ?e with _ => _ end] => destruct o as [?|] eqn:?; cbn [ok_or] in H; [|discriminate H]
    | context [match ?r with Ok _ => _ | Err _ => _ end] => destruct r as [?|]; [|discriminate H]
    end; first [discriminate H|injection H as H; subst].

Section ValidatorProps.
Context `{L : Leaves} {GE : GraphEnv} {TO : TypeOps} {LE : LegacyEvents} {LC : LegacyChecks}.

(** ** What validation reads *)

Lemma node_row_of g id n : columns_ok g -> lg_nodes (logical g) !! id = Some n -> node_labels id g = Some (n_labels n) /\ node_properties id g = Some (n_properties n).
Proof.
  intros [N _] Hn. unfold node_labels, node_properties, live_node_row, node_row_for_id. destruct (node_spec g id N) as [(row & n' & _ & Hr & Ha & Hat & E & EL & EP)|[_ E]]; [|congruence].
  rewrite Hn in E. injection E as <-. rewrite Hr. cbn [mbind option_bind]. pose proof (node_range _ _ N row Ha). by rewrite (proj2 (Nat.ltb_lt _ _)), (proj2 (alive_spec _ _) Ha) by lia.
Qed.
Lemma edge_row_of g id e : columns_ok g -> lg_edges (logical g) !! id = Some e ->
  edge_label id g = Some (e_label e) /\ edge_endpoints id g = Some (e_source e, e_target e) /\ edge_directionality id g = Some (e_directionality e) /\ edge_properties id g = Some (e_properties e).
Proof.
  intros [_ N] Hn. unfold edge_label, edge_endpoints, edge_directionality, edge_properties, live_edge_row, edge_row_for_id.
  destruct (edge_spec g id N) as [(row & n' & _ & Hr & Ha & Hat & E & C1 & C2 & C3 & C4 & C5)|[_ E]]; [|congruence].
  rewrite Hn in E. injection E as <-. rewrite Hr. cbn [mbind option_bind]. pose proof (edge_range _ _ N row Ha). rewrite (proj2 (Nat.ltb_lt _ _)), (proj2 (edge_alive_spec _ _) Ha) by lia.
  cbn. by rewrite C1, C2, C3, C4, C5.
Qed.

(** A node and an edge that conform to a type. *)
Definition node_conforms (td : GraphTypeDef) (id : Z) (n : Node) : Prop :=
  exists i t, find_node_type_index (n_labels n) td = Some i /\ gt_node_types td !! Z.to_nat i = Some t /\
    is_ok (validate_properties (EntityNode id) (nt_name t) (nt_validation_mode t) (nt_properties t) (n_properties n)).
Definition edge_conforms (td : GraphTypeDef) (nodes : gmap Z Node) (id : Z) (e : Edge) : Prop :=
  exists a b i j t, nodes !! e_source e = Some a /\ nodes !! e_target e = Some b /\ node_conforms td (e_source e) a /\ node_conforms td (e_target e) b /\
    find_node_type_index (n_labels a) td = Some i /\ find_node_type_index (n_labels b) td = Some j /\
    find_mixed_edge_type (e_label e) i j (e_directionality e) td = Some t /\
    is_ok (validate_properties (EntityEdge id) (et_name t) (et_validation_mode t) (et_properties t) (e_properties e)).

Lemma lift_is_ok {E A} (r : result E A) : is_ok (lift r) <-> is_ok r.
Proof. unfold is_ok, lift. destruct r; cbn; split; intros [? [=]]; eauto. Qed.
Lemma node_state_conforms g td id n : columns_ok g -> lg_nodes (logical g) !! id = Some n ->
  is_ok (validate_node_state id g td) <-> node_conforms td id n.
Proof.
  intros C Hn. destruct (node_row_of g id n C Hn) as [EL EP]. unfold validate_node_state, node_conforms. rewrite EL, EP. cbn.
  destruct (find_node_type_index (n_labels n) td) as [i|]; cbn; [|split; [by intros [? ?]|intros (? & ? & [=] & _)]].
  destruct (gt_node_types td !! Z.to_nat i) as [t|] eqn:Et; cbn; [|split; [by intros [? ?]|intros (? & ? & [= <-] & ? & _); congruence]].
  rewrite is_ok_bind. split.
  - intros (w & Hw & _). exists i, t. split; [done|]. split; [done|]. apply lift_is_ok. by exists w.
  - intros (i' & t' & [= <-] & Et' & Hp). rewrite Et in Et'. injection Et' as <-. apply lift_is_ok in Hp as [w Hw]. exists w. split; [done|by eexists].
Qed.
Lemma node_state_index g td id n r : columns_ok g -> lg_nodes (logical g) !! id = Some n -> validate_node_state id g td = Ok r ->
  find_node_type_index (n_labels n) td = Some (fst r).
Proof.
  intros C Hn. destruct (node_row_of g id n C Hn) as [EL EP]. unfold validate_node_state. rewrite EL, EP. cbn.
  destruct (find_node_type_index (n_labels n) td) as [i|]; cbn; [|done]. destruct (gt_node_types td !! Z.to_nat i) as [t|]; cbn; [|done].
  destruct (lift _) as [w|]; [|done]. by intros [= <-].
Qed.
Lemma edge_state_conforms g td id e : columns_ok g -> closed (logical g) -> lg_edges (logical g) !! id = Some e ->
  is_ok (validate_edge_state id g td) <-> edge_conforms td (lg_nodes (logical g)) id e.
Proof.
  intros C HC He. destruct (edge_row_of g id e C He) as (E1 & E2 & E3 & E4). destruct (HC id e He) as ([a Ha] & [b Hb] & _).
  pose proof (node_state_conforms g td _ a C Ha) as Sa. pose proof (node_state_conforms g td _ b C Hb) as Sb.
  pose proof (fun r => node_state_index g td _ a r C Ha) as Ia. pose proof (fun r => node_state_index g td _ b r C Hb) as Ib.
  unfold validate_edge_state. rewrite E1, E2, E3, E4. unfold validate_edge_endpoints. split.
  - intros Hok. cbn in Hok. destruct (validate_node_state (e_source e) g td) as [ra|] eqn:Era; [|by destruct Hok]. destruct (validate_node_state (e_target e) g td) as [rb|] eqn:Erb; [|by destruct Hok].
    cbn in Hok. destruct (find_mixed_edge_type _ _ _ _ td) as [t|] eqn:Et; [|by destruct (first_edge_type_with_label (e_label e) td), Hok]. cbn in Hok.
    exists a, b, (fst ra), (fst rb), t. split; [done|]. split; [done|]. split; [apply Sa; by eexists|]. split; [apply Sb; by eexists|]. split; [by apply Ia|]. split; [by apply Ib|].
    split; [done|]. apply is_ok_bind in Hok as (w & Hw & _). apply lift_is_ok. by eexists.
  - intros (a' & b' & i & j & t & Ha' & Hb' & Ca & Cb & Ei & Ej & Et & Hp). rewrite Ha in Ha'. injection Ha' as <-. rewrite Hb in Hb'. injection Hb' as <-.
    apply Sa in Ca as [ra Era]. apply Sb in Cb as [rb Erb]. cbn. rewrite Era, Erb. cbn. rewrite (Ia _ Era) in Ei. rewrite (Ib _ Erb) in Ej. injection Ei as <-. injection Ej as <-.
    rewrite Et. cbn. apply lift_is_ok in Hp as [w Hw]. rewrite Hw. by eexists.
Qed.

Lemma validate_nodes_ok g td ids : is_ok (validate_nodes g td ids) <-> forall id, id ∈ ids -> is_ok (validate_node_state id g td).
Proof.
  induction ids as [|id ids IH]; cbn; [split; [by intros _ id ?%elem_of_nil|by eexists]|]. split.
  - intros (r & Hr & (rest & Hrest & _)%is_ok_bind)%is_ok_bind i [->|Hi]%elem_of_cons; [by exists r|]. apply IH; [by exists rest|done].
  - intros Hall. destruct (Hall id ltac:(by left)) as [r Hr]. apply is_ok_bind. exists r. split; [done|]. apply is_ok_bind.
    destruct (proj2 IH) as [rest Hrest]; [intros i Hi; apply Hall; by right|]. exists rest. split; [done|by eexists].
Qed.
Lemma validate_edges_ok g td ids : is_ok (validate_edges g td ids) <-> forall id, id ∈ ids -> is_ok (validate_edge_state id g td).
Proof.
  induction ids as [|id ids IH]; cbn; [split; [by intros _ id ?%elem_of_nil|by eexists]|]. split.
  - intros (r & Hr & (rest & Hrest & _)%is_ok_bind)%is_ok_bind i [->|Hi]%elem_of_cons; [by exists r|]. apply IH; [by exists rest|done].
  - intros Hall. destruct (Hall id ltac:(by left)) as [r Hr]. apply is_ok_bind. exists r. split; [done|]. apply is_ok_bind.
    destruct (proj2 IH) as [rest Hrest]; [intros i Hi; apply Hall; by right|]. exists rest. split; [done|by eexists].
Qed.

(** A graph conforms when its live elements do. *)
Definition conforms (td : GraphTypeDef) (lg : LogicalGraph) : Prop :=
  (forall id n, lg_nodes lg !! id = Some n -> node_conforms td id n) /\ (forall id e, lg_edges lg !! id = Some e -> edge_conforms td (lg_nodes lg) id e).
Lemma entity_shape_conforms snapshot td : columns_ok (snap_graph snapshot) -> closed (logical (snap_graph snapshot)) ->
  is_ok (validate_entity_shape snapshot td) <-> conforms td (logical (snap_graph snapshot)).
Proof.
  intros C HC. destruct (live_denotes NodeKind snapshot C) as (nodes & EN & [_ _ DN]), (live_denotes EdgeKind snapshot C) as (edges & EE & [_ _ DE]). cbn [live_candidates live_ids] in *.
  unfold validate_entity_shape, conforms. rewrite EN, EE. cbn [map_err]. split.
  - intros (w & Hw & (w' & Hw' & _)%is_ok_bind)%is_ok_bind. split; intros id x Hx.
    + apply (node_state_conforms _ td id x C Hx). apply (proj1 (validate_nodes_ok _ td (cs_iter nodes))); [by exists w|]. apply DN, elem_of_dom. by eexists.
    + apply (edge_state_conforms _ td id x C HC Hx). apply (proj1 (validate_edges_ok _ td (cs_iter edges))); [by exists w'|]. apply DE, elem_of_dom. by eexists.
  - intros [HN HE]. destruct (proj2 (validate_nodes_ok (snap_graph snapshot) td (cs_iter nodes))) as [w Hw].
    { intros id [x Hx]%DN%elem_of_dom. apply (node_state_conforms _ td id x C Hx), HN, Hx. }
    destruct (proj2 (validate_edges_ok (snap_graph snapshot) td (cs_iter edges))) as [w' Hw'].
    { intros id [x Hx]%DE%elem_of_dom. apply (edge_state_conforms _ td id x C HC Hx), HE, Hx. }
    apply is_ok_bind. exists w. split; [done|]. apply is_ok_bind. exists w'. split; [done|by eexists].
Qed.

(** ** Where the elements of the final graph come from *)

Definition touches_node (c : Change) (id : Z) : Prop :=
  match c with NodeCreated i _ _ | NodeUpdated i _ _ | NodePropertyRemoved i _ | NodeLabelRemoved i _ => i = id | _ => False end.
Definition touches_edge (c : Change) (id : Z) : Prop :=
  match c with EdgeCreated i _ _ _ _ _ | EdgeUpdated i _ | EdgePropertyRemoved i _ => i = id | _ => False end.
Definition relabels (c : Change) (id : Z) : Prop :=
  match c with
  | NodeUpdated i diff _ => i = id /\ label_diff_is_empty diff = false
  | NodeLabelRemoved i _ => i = id
  | _ => False
  end.
Definition creates_node (c : Change) (id : Z) : Prop := match c with NodeCreated i _ _ => i = id | _ => False end.

Lemma patch_labels_nothing labels diff : label_diff_is_empty diff = true -> patch_labels labels diff = labels.
Proof. destruct diff as [[|] [|]]; by cbn. Qed.

Lemma node_step_back lg c lg' id n : spec_apply lg c = Ok lg' -> lg_nodes lg' !! id = Some n ->
  touches_node c id \/ lg_nodes lg !! id = Some n.
Proof.
  intros HS Hn. destruct c; cbn [touches_node]; spec_steps HS; cbn in Hn; try (by right).
  all: rewrite ?lookup_insert_Some, ?lookup_delete_Some, ?map_lookup_filter_Some in Hn; tauto.
Qed.
Lemma edge_step_back lg c lg' id e : spec_apply lg c = Ok lg' -> lg_edges lg' !! id = Some e -> touches_edge c id \/ lg_edges lg !! id = Some e.
Proof.
  intros HS Hn. destruct c; cbn [touches_edge]; spec_steps HS; cbn in Hn; try (by right).
  all: rewrite ?lookup_insert_Some, ?lookup_delete_Some, ?map_lookup_filter_Some in Hn; tauto.
Qed.
Lemma label_step_back lg c lg' id n : spec_apply lg c = Ok lg' -> lg_nodes lg' !! id = Some n ->
  creates_node c id \/ relabels c id \/ exists n0, lg_nodes lg !! id = Some n0 /\ n_labels n0 = n_labels n.
Proof.
  intros HS Hn. destruct c; cbn [creates_node relabels]; spec_steps HS; cbn in Hn; try (by right; right; exists n).
  all: rewrite ?lookup_insert_Some, ?lookup_delete_Some, ?map_lookup_filter_Some in Hn; try (right; right; exists n; tauto).
  - destruct Hn as [[-> _]|[_ Hn]]; [by left|right; right; by exists n].
  - destruct Hn as [[-> <-]|[_ Hn]]; [|right; right; by exists n]. destruct (label_diff_is_empty labels_diff) eqn:Ed; [|right; left; done]. right. right. eexists. split; [eassumption|].
    cbn. by rewrite patch_labels_nothing.
  - destruct Hn as [[-> <-]|[_ Hn]]; [|right; right; by exists n]. right. right. by eexists.
  - destruct Hn as [[-> _]|[_ Hn]]; [by right; left|right; right; by exists n].
Qed.
Lemma node_ids_step lg c lg' id : spec_apply lg c = Ok lg' -> (creates_node c id -> id ∉ lg_node_ids lg) /\ (id ∈ lg_node_ids lg -> id ∈ lg_node_ids lg').
Proof.
  intros HS. destruct c; cbn [creates_node]; try (split; [done|]; spec_steps HS; cbn; set_solver). unfold spec_apply in HS. destruct (map_err _ _); [|done].
  destruct ((id0 =? TOMBSTONE) || bool_decide (id0 ∈ lg_node_ids lg)) eqn:Eb; [done|]. apply orb_false_iff in Eb as [_ Eb%bool_decide_eq_false].
  destruct (row_number _); [|done]. injection HS as <-. cbn. split; [by intros ->|set_solver].
Qed.

Lemma steps_back lg cs lg' : spec_apply_all lg cs = Ok lg' ->
  (forall id n, lg_nodes lg' !! id = Some n -> Exists (fun c => touches_node c id) cs \/ lg_nodes lg !! id = Some n) /\
  (forall id e, lg_edges lg' !! id = Some e -> Exists (fun c => touches_edge c id) cs \/ lg_edges lg !! id = Some e) /\
  (forall id n, lg_nodes lg' !! id = Some n -> Exists (fun c => creates_node c id) cs \/ Exists (fun c => relabels c id) cs \/
     exists n0, lg_nodes lg !! id = Some n0 /\ n_labels n0 = n_labels n) /\
  (forall id, Exists (fun c => creates_node c id) cs -> id ∉ lg_node_ids lg).
Proof.
  revert lg. induction cs as [|c cs IH]; intros lg HS; cbn in HS; [injection HS as <-; split_and!; [by right..| |by intros id ?%Exists_nil]; intros id n Hn; right; right; by exists n|].
  destruct (spec_apply lg c) as [lg1|] eqn:E; [|done]. destruct (IH lg1 HS) as (I1 & I2 & I3 & I4). split_and!.
  - intros id n [Ht|Hn]%I1; [left; by right|]. destruct (node_step_back lg c lg1 id n E Hn) as [|]; [left; by left|by right].
  - intros id e [Ht|Hn]%I2; [left; by right|]. destruct (edge_step_back lg c lg1 id e E Hn) as [|]; [left; by left|by right].
  - intros id n [Ht|[Ht|(n0 & Hn & El)]]%I3; [left; by right|right; left; by right|]. destruct (label_step_back lg c lg1 id n0 E Hn) as [|[|(n1 & Hn1 & El1)]]; [left; by left|right; left; by left|].
    right. right. exists n1. split; [done|congruence].
  - intros id [Hc|Hc]%Exists_cons; [by apply (node_ids_step lg c lg1 id E)|]. intros Hid. apply (I4 id Hc). by apply (node_ids_step lg c lg1 id E).
Qed.

(** ** Changes that pass validation *)

Lemma validated_node c g td id : columns_ok g -> is_Some (lg_nodes (logical g) !! id) -> touches_node c id -> is_ok (validate_change c g td) -> is_ok (validate_node_state id g td).
Proof.
  intros C Hn Ht Hok. assert (Ha : is_node_alive id g = true) by (rewrite is_node_alive_spec by done; by apply bool_decide_true).
  destruct c; cbn in Ht; try done; subst id0; cbn in Hok; rewrite Ha in Hok; cbn in Hok; apply is_ok_bind in Hok as (r & Hr & _); by exists r.
Qed.
Lemma validated_edge c g td id : columns_ok g -> is_Some (lg_edges (logical g) !! id) -> touches_edge c id -> is_ok (validate_change c g td) -> is_ok (validate_edge_state id g td).
Proof.
  intros C Hn Ht Hok. assert (Ha : is_edge_alive id g = true) by (rewrite is_edge_alive_spec by done; by apply bool_decide_true).
  destruct c; cbn in Ht; try done; subst id0; cbn in Hok; rewrite Ha in Hok; cbn in Hok; apply is_ok_bind in Hok as (r & Hr & _); by exists r.
Qed.
Lemma validated_incident c g td node id e : consistent g -> is_Some (lg_nodes (logical g) !! node) -> lg_edges (logical g) !! id = Some e -> (e_source e = node \/ e_target e = node) ->
  relabels c node -> is_ok (validate_change c g td) -> is_ok (validate_edge_state id g td).
Proof.
  intros [[C _ _ _] [A B U] _] Hn He Hend Ht Hok. assert (Ha : is_node_alive node g = true) by (rewrite is_node_alive_spec by done; by apply bool_decide_true).
  assert (Hr : is_ok (revalidate_incident_edges node g td)).
  { destruct c; cbn in Ht; try done.
    - destruct Ht as [<- Hd]. cbn in Hok. rewrite Ha, Hd in Hok. cbn in Hok. apply is_ok_bind in Hok as (r & _ & (t & _ & (u & _ & (w & Hw & _)%is_ok_bind)%is_ok_bind)%is_ok_bind). by exists w.
    - subst id0. cbn in Hok. rewrite Ha in Hok. cbn in Hok. apply is_ok_bind in Hok as (r & _ & (w & Hw & _)%is_ok_bind). by exists w. }
  unfold revalidate_incident_edges in Hr. apply is_ok_bind in Hr as (w1 & H1 & (w2 & H2 & (w3 & H3 & _)%is_ok_bind)%is_ok_bind).
  assert (Hal : is_edge_alive id g = true) by (rewrite is_edge_alive_spec by done; apply bool_decide_true; by exists e).
  assert (Hget : forall m P a, listing m P -> P node a -> ae_edge_id a = id -> id ∈ entry_edges m node).
  { intros m P a HL HP <-. unfold entry_edges. apply list_elem_of_fmap_2. by apply (listing_at m P node HL). }
  destruct (e_directionality e) eqn:D.
  - destruct Hend as [Hs|Hs].
    + apply (proj1 (validate_edges_ok g td (filter (fun id => is_edge_alive id g = true) (entry_edges (adjacency_out g) node)))); [by exists w1|]. apply list_elem_of_filter. split; [done|].
      eapply (Hget _ _ {| ae_label := e_label e; ae_neighbor := e_target e; ae_edge_id := id |} A); [|done]. split; [by exists e|done].
    + apply (proj1 (validate_edges_ok g td (filter (fun id => is_edge_alive id g = true) (entry_edges (adjacency_in g) node)))); [by exists w2|]. apply list_elem_of_filter. split; [done|].
      eapply (Hget _ _ {| ae_label := e_label e; ae_neighbor := e_source e; ae_edge_id := id |} B); [|done]. split; [by exists e|done].
  - apply (proj1 (validate_edges_ok g td (entry_edges (adjacency_undirected g) node))); [by exists w3|]. destruct Hend as [Hs|Hs].
    + eapply (Hget _ _ {| ae_label := e_label e; ae_neighbor := e_target e; ae_edge_id := id |} U); [|done]. split; [exists e; tauto|done].
    + eapply (Hget _ _ {| ae_label := e_label e; ae_neighbor := e_source e; ae_edge_id := id |} U); [|done]. split; [exists e; tauto|done].
Qed.

(** ** Incremental validation *)

Section Incremental.
Variables (g0 g1 : SeleneGraph) (cs : list Change) (td : GraphTypeDef).
Hypothesis G0 : consistent g0.
Hypothesis G1 : consistent g1.
Hypothesis Hcs : spec_apply_all (logical g0) cs = Ok (logical g1).
Hypothesis Hconf : conforms td (logical g0).
Hypothesis Hval : Forall (fun c => is_ok (validate_change c g1 td)) cs.
Let C1 : columns_ok g1 := sh_columns _ (con_shape _ G1).

Lemma changed_ok (P : Change -> Prop) : Exists P cs -> exists c, P c /\ is_ok (validate_change c g1 td).
Proof using Hval. intros (c & Hc & HP)%Exists_exists. exists c. split; [done|]. rewrite Forall_forall in Hval. by apply Hval. Qed.
Lemma nodes_conform id n : lg_nodes (logical g1) !! id = Some n -> node_conforms td id n.
Proof using G1 Hcs Hconf Hval.
  intros Hn. destruct (steps_back _ _ _ Hcs) as (HB & _). destruct (HB id n Hn) as [(c & Ht & Hok)%changed_ok|Hn0]; [|by apply Hconf].
  apply (node_state_conforms g1 td id n C1 Hn). by apply (validated_node c); [|eexists|..].
Qed.
(** An endpoint of an old edge keeps its labels, or its edges are validated. *)
Lemma endpoint_labels id e node n : lg_edges (logical g0) !! id = Some e -> lg_edges (logical g1) !! id = Some e -> (e_source e = node \/ e_target e = node) ->
  lg_nodes (logical g1) !! node = Some n ->
  is_ok (validate_edge_state id g1 td) \/ exists n0, lg_nodes (logical g0) !! node = Some n0 /\ n_labels n0 = n_labels n.
Proof using G0 G1 Hcs Hval.
  intros He0 He Hend Hn. destruct (steps_back _ _ _ Hcs) as (_ & _ & HB & HI). destruct (HB node n Hn) as [Hc|[(c & Ht & Hok)%changed_ok|Hl]]; [|left|by right].
  - destruct (HI node Hc). destruct (con_closed _ G0 id e He0) as ([a Ha] & [b Hb] & _). assert (Hx : is_Some (lg_nodes (logical g0) !! node)) by (destruct Hend as [<-|<-]; by eexists).
    destruct Hx as [x Hx]. destruct (live_row_node g0 node x (proj1 (sh_columns _ (con_shape _ G0))) Hx) as (row & Hr & _). apply elem_of_dom. by eexists.
  - by apply (validated_incident c g1 td node id e G1); [eexists|..].
Qed.
Lemma edges_conform id e : lg_edges (logical g1) !! id = Some e -> edge_conforms td (lg_nodes (logical g1)) id e.
Proof using G0 G1 Hcs Hconf Hval.
  intros He. assert (HV : is_ok (validate_edge_state id g1 td) -> edge_conforms td (lg_nodes (logical g1)) id e) by (by apply edge_state_conforms; [|apply G1|]).
  destruct (steps_back _ _ _ Hcs) as (_ & HB & _). destruct (HB id e He) as [(c & Ht & Hok)%changed_ok|He0]; [apply HV; by apply (validated_edge c); [|eexists|..]|].
  destruct (con_closed _ G1 id e He) as ([a Ha] & [b Hb] & _). destruct (endpoint_labels id e (e_source e) a He0 He ltac:(by left) Ha) as [|(a0 & Ha0 & Ela)]; [by apply HV|].
  destruct (endpoint_labels id e (e_target e) b He0 He ltac:(by right) Hb) as [|(b0 & Hb0 & Elb)]; [by apply HV|].
  destruct (proj2 Hconf id e He0) as (a' & b' & i & j & t & Ha' & Hb' & _ & _ & Ei & Ej & Et & Hp). rewrite Ha0 in Ha'. injection Ha' as <-. rewrite Hb0 in Hb'. injection Hb' as <-.
  exists a, b, i, j, t. split_and!; [done|done|by apply nodes_conform|by apply nodes_conform|by rewrite <- Ela|by rewrite <- Elb|done|done].
Qed.
Lemma incremental_conforms : conforms td (logical g1).
Proof using G0 G1 Hcs Hconf Hval. split; [exact nodes_conform|exact edges_conform]. Qed.
End Incremental.
End ValidatorProps.
