(* ===== verification/MutatorProps.v ===== *)
(** The mutation funnel keeps a graph consistent, and its log of changes means what
    it did: the meaning of the changes takes the graph before a call to the graph
    after it. *)

From stdpp Require Import sorting.
From S2P Require Import Prelude Errors Wire Value Ordered LabelSet PropertyMap GraphDelta Columns GraphTypes Store Derived Candidates TypeValidator Fanout GraphApply GraphApplyProps Mutator Consistent.

(** ** Postconditions *)

(** A call ends in [Q], or fails in [X]; it does not panic. *)
Definition post {S E A} (m : method S (fault E) A) (s : S) (Q : A -> S -> Prop) (X : S -> Prop) : Prop :=
  match m s with
  | (Ok a, s') => Q a s'
  | (Err (Fails _), s') => X s'
  | (Err (Panic _), _) => False
  end.

Section Post.
Context {S E : Type}.

Lemma post_bind {A B} (m : method S (fault E) A) (k : A -> method S (fault E) B) s Q X :
  post m s (fun a s' => post (k a) s' Q X) X -> post (bind m k) s Q X.
Proof. unfold post, bind. destruct (m s) as [[a|[|]] s']; done. Qed.
Lemma post_ret {A} (a : A) (s : S) (Q : A -> S -> Prop) X : Q a s -> post (E := E) (ret a) s Q X.
Proof. done. Qed.
Lemma post_weaken {A} (m : method S (fault E) A) s (Q Q' : A -> S -> Prop) (X X' : S -> Prop) :
  (forall a s', Q a s' -> Q' a s') -> (forall s', X s' -> X' s') -> post m s Q X -> post m s Q' X'.
Proof. unfold post. intros HQ HX. destruct (m s) as [[a|[|]] s']; auto. Qed.

(** Loops: an invariant of the elements that are left. *)
Lemma post_for_each {A} (f : A -> method S (fault E) unit) (I : list A -> S -> Prop) X l s :
  I l s -> (forall x l s, I (x :: l) s -> post (f x) s (fun _ s' => I l s') X) -> post (for_each f l) s (fun _ s' => I [] s') X.
Proof.
  intros HI Hf. revert s HI. induction l as [|x l IH]; intros s HI; cbn; [done|]. apply post_bind. eapply post_weaken; [|done|by apply Hf].
  intros [] s' HI'. by apply IH.
Qed.
Lemma post_fold {A B} (f : B -> A -> method S (fault E) B) (I : list A -> B -> S -> Prop) X l b s :
  I l b s -> (forall x l b s, I (x :: l) b s -> post (f b x) s (fun b' s' => I l b' s') X) -> post (fold_m f b l) s (fun b' s' => I [] b' s') X.
Proof.
  intros HI Hf. revert b s HI. induction l as [|x l IH]; intros b s HI; cbn; [done|]. apply post_bind. eapply post_weaken; [|done|by apply Hf].
  intros b' s' HI'. by apply IH.
Qed.
End Post.

Section MutatorProps.
Context `{L : Leaves} {GE : GraphEnv} {TO : TypeOps} {EN : Engine} {LE : LegacyEvents} {LC : LegacyChecks}.
Abbreviation M A := (method WriteTxn (fault GraphError) A).

Lemma post_check {A B} (r : result GraphError A) (k : A -> M B) s Q X :
  (forall a, r = Ok a -> post (k a) s Q X) -> ((exists e, r = Err e) -> X s) -> post (bind (check r) k) s Q X.
Proof. intros HO HE. apply post_bind. unfold post, check, of_result. destruct r as [a|e]; cbn; [by apply HO|apply HE; eauto]. Qed.
Lemma post_read {B} (k : SeleneGraph -> M B) s Q X : post (k (txn_graph s)) s Q X -> post (bind read k) s Q X.
Proof. done. Qed.
Lemma post_violates {A B} (r : outcome TypeViolation A) (k : unit -> M B) s Q X :
  (forall what, r <> Err (Panic what)) -> post (k tt) s Q X -> X s -> post (bind (violates r) k) s Q X.
Proof. intros Hp HP HX. apply post_bind. unfold post, violates, of_result. destruct r as [a|[what|v]]; cbn; [done|by destruct (Hp what)|done]. Qed.
Lemma post_undirected {B} id label a b d g (k : unit -> M B) s Q X : post (k tt) s Q X -> X s -> post (bind (validate_undirected id label a b d g) k) s Q X.
Proof.
  intros HP HX. unfold validate_undirected. destruct d; [done|]. destruct (m_bound_type (meta g)); [|done]. apply post_violates; [|done..]. intros what. apply validate_edge_endpoints_safe.
Qed.
Lemma post_write {B} f g' (k : unit -> M B) s Q X :
  f (txn_graph s) = Ok g' -> post (k tt) (set_graph g' s) Q X -> post (bind (write f) k) s Q X.
Proof. intros E HP. apply post_bind. unfold post, write. by rewrite E. Qed.

(** Index maintenance that does not fail.  The code of an index may refuse a value (a
    vector index does, for one of another dimension), so what is said of a run that
    failed assumes this, and what is said of a run that succeeded does not. *)
Definition total_indexes : Prop :=
  (forall old new row id i, exists i', index_node old new row id i = (Ok tt, i')) /\ (forall label old new row i, exists i', index_edge label old new row i = (Ok tt, i')).

Lemma post_index_node {B} old new row id (k : unit -> M B) s Q (X : WriteTxn -> Prop) :
  (forall i, post (k tt) (set_graph (set_indexes i (txn_graph s)) s) Q (fun s' => total_indexes -> X s')) ->
  post (bind (on_indexes (index_node old new row id)) k) s Q (fun s' => total_indexes -> X s').
Proof.
  intros Hk. apply post_bind. unfold post at 1, on_indexes. destruct (index_node old new row id _) as [[[]|e] i] eqn:E; cbn; [apply Hk|].
  intros [T _]. destruct (T old new row id (indexes (txn_graph s))) as [i' E']. congruence.
Qed.
Lemma post_index_edge {B} label old new row (k : unit -> M B) s Q (X : WriteTxn -> Prop) :
  (forall i, post (k tt) (set_graph (set_indexes i (txn_graph s)) s) Q (fun s' => total_indexes -> X s')) ->
  post (bind (on_indexes (index_edge label old new row)) k) s Q (fun s' => total_indexes -> X s').
Proof.
  intros Hk. apply post_bind. unfold post at 1, on_indexes. destruct (index_edge label old new row _) as [[[]|e] i] eqn:E; cbn; [apply Hk|].
  intros [_ T]. destruct (T label old new row (indexes (txn_graph s))) as [i' E']. congruence.
Qed.

(** ** Transactions *)

(** The graph is consistent and the allocator is ahead of every identity. *)
Record txn_ok (s : WriteTxn) : Prop := {
  ok_graph : consistent (txn_graph s);
  ok_node_ids : forall id, id ∈ lg_node_ids (logical (txn_graph s)) -> id < next_node_id (allocator s);
  ok_edge_ids : forall id, id ∈ lg_edge_ids (logical (txn_graph s)) -> id < next_edge_id (allocator s);
  ok_next : 1 <= next_node_id (allocator s) /\ 1 <= next_edge_id (allocator s)
}.
Lemma txn_ok_intro s g lg : txn_graph s = g -> logical g = lg -> consistent g -> (forall id, id ∈ lg_node_ids lg -> id < next_node_id (allocator s)) ->
  (forall id, id ∈ lg_edge_ids lg -> id < next_edge_id (allocator s)) -> 1 <= next_node_id (allocator s) -> 1 <= next_edge_id (allocator s) -> txn_ok s.
Proof. intros <- <-. by split. Qed.
(** Nothing but the allocator and indexes has changed. *)
Definition kept (s0 s : WriteTxn) : Prop :=
  txn_ok s /\ changes s = changes s0 /\ truncate_expansions s = truncate_expansions s0 /\ logical (txn_graph s) = logical (txn_graph s0) /\ meta (txn_graph s) = meta (txn_graph s0).
(** The graph has the same identity and generation, and its type or none. *)
Definition bound_kept (g0 g : SeleneGraph) : Prop :=
  m_graph_id (meta g) = m_graph_id (meta g0) /\ m_generation (meta g) = m_generation (meta g0) /\
  (m_bound_type (meta g) = m_bound_type (meta g0) \/ m_bound_type (meta g) = None).
(** The changes logged since [s0] mean what has happened to the graph, and so does
    the view of them with their expansions. *)
Definition reaches (s0 s : WriteTxn) : Prop :=
  exists cs es, changes s = changes s0 ++ cs /\ truncate_expansions s = truncate_expansions s0 ++ es /\
    (staged (length (changes s0)) (length (changes s)) es /\ covered (length (changes s0)) cs es) /\ bound_kept (txn_graph s0) (txn_graph s) /\
    spec_apply_all (logical (txn_graph s0)) cs = Ok (logical (txn_graph s)) /\
    spec_apply_all (logical (txn_graph s0)) (fanout_view (length (changes s0)) cs es) = Ok (logical (txn_graph s)).
Definition simulates {A} (m : M A) : Prop :=
  forall s, txn_ok s -> post m s (fun _ s' => txn_ok s' /\ reaches s s') (fun s' => total_indexes -> kept s s').

Lemma kept_refl s : txn_ok s -> kept s s.
Proof. by split. Qed.
Lemma bound_kept_refl g g' : meta g' = meta g -> bound_kept g g'.
Proof. unfold bound_kept. intros ->. auto. Qed.
Lemma bound_kept_trans g1 g2 g3 : bound_kept g1 g2 -> bound_kept g2 g3 -> bound_kept g1 g3.
Proof. intros (A & B & C) (D & E & F). split; [congruence|]. split; [congruence|]. destruct F as [F|F]; [|by right]. rewrite F. done. Qed.
Lemma reaches_refl s : reaches s s.
Proof. exists [], []. rewrite !app_nil_r. split_and!; [done|done|constructor|by intros i c [=]|by apply bound_kept_refl|done|done]. Qed.

Lemma spec_apply_app lg cs cs' : spec_apply_all lg (cs ++ cs') = let? lg := spec_apply_all lg cs in spec_apply_all lg cs'.
Proof. revert lg. induction cs as [|c cs IH]; intros lg; cbn; [done|]. destruct (spec_apply lg c); [apply IH|done]. Qed.
Lemma reaches_trans s1 s2 s3 : reaches s1 s2 -> reaches s2 s3 -> reaches s1 s3.
Proof.
  intros (cs & es & Ec & Ee & [Hs Hcov] & Hb & H1 & H2) (cs' & es' & Ec' & Ee' & [Hs' Hcov'] & Hb' & H1' & H2'). exists (cs ++ cs'), (es ++ es').
  assert (El : length (changes s2) = (length (changes s1) + length cs)%nat) by (by rewrite Ec, length_app). rewrite El in *.
  split; [by rewrite Ec', Ec, app_assoc|]. split; [by rewrite Ee', Ee, app_assoc|]. split.
  { split; [|by apply covered_app]. apply Forall_app. split; (eapply Forall_impl; [eassumption|]); cbn; [|intros ? [? ?]; split; [lia|done]]. rewrite Ec', length_app, El. intros ? [? ?]. split; [lia|done]. }
  split; [by eapply bound_kept_trans|]. rewrite spec_apply_app, H1. split; [done|]. rewrite (fanout_app _ _ _ _ _ _ Hs Hs'), spec_apply_app, H2. done.
Qed.

(** A state with the graph [g] whose last change is [c]. *)
Definition logged (s0 s : WriteTxn) (g : SeleneGraph) (c : Change) : Prop :=
  txn_graph s = g /\ changes s = changes s0 ++ [c] /\ truncate_expansions s = truncate_expansions s0 /\ meta g = meta (txn_graph s0) /\ declarative c = false.
Lemma reaches_one s0 s g lg c : logged s0 s g c -> logical g = lg -> spec_apply (logical (txn_graph s0)) c = Ok lg -> reaches s0 s.
Proof.
  intros (Hg & Hc & He & Hm & Hd) <- HS. exists [c], []. rewrite Hc, He, app_nil_r. split_and!; [done|done|constructor|intros [|i] c' [= <-]; congruence|apply bound_kept_refl; by rewrite Hg|..].
  - cbn. by rewrite HS, Hg.
  - cbn. rewrite Hd. cbn. by rewrite HS, Hg.
Qed.
(** One declarative change and its expansion. *)
Lemma reaches_declared s0 s lg c x : changes s = changes s0 ++ [c] -> truncate_expansions s = truncate_expansions s0 ++ [(length (changes s0), x)] -> bound_kept (txn_graph s0) (txn_graph s) ->
  declarative c = true -> logical (txn_graph s) = lg -> spec_apply (logical (txn_graph s0)) c = Ok lg -> spec_apply_all (logical (txn_graph s0)) x = Ok lg -> plain x -> reaches s0 s.
Proof.
  intros Hc He Hb Hd <- HS HX HP. exists [c], [(length (changes s0), x)]. rewrite Hc, He. split_and!; [done|done| | |done|..].
  - apply Forall_singleton. cbn. rewrite length_app. cbn. split; [lia|done].
  - intros [|i] c' [= <-] _. exists x. rewrite Nat.add_0_r. by left.
  - cbn. by rewrite HS.
  - cbn. rewrite Hd, decide_True by done. by rewrite app_nil_r.
Qed.

(** The rows of a consistent graph as the calls see them. *)
Lemma live_node_spec g id : columns_ok g ->
  (exists row n, require_live_node id g = Ok row /\ node_rows g !! id = Some row /\ row ∈ ns_alive (node_store g) /\ node_at (node_store g) row = Some n /\
     lg_nodes (logical g) !! id = Some n /\ labels_at row g = n_labels n /\ properties_at row g = n_properties n) \/
  (exists e, require_live_node id g = Err e) /\ lg_nodes (logical g) !! id = None.
Proof.
  intros [N _]. unfold require_live_node, node_row_for_id, labels_at, properties_at.
  destruct (node_spec g id N) as [(row & n & _ & Hr & Ha & Hat & E & EL & EP)|[E E']].
  - left. exists row, n. rewrite Hr, EL, EP. cbn [ok_or default]. pose proof (node_range _ _ N row Ha) as Hrange. rewrite (proj2 (Nat.ltb_lt _ _)) by lia.
    by rewrite (proj2 (alive_spec _ _) Ha).
  - right. split; [|done]. unfold node in E. destruct (node_rows g !! id) as [row|]; cbn [ok_or]; [|eauto]. cbn in E. destruct (_ <? _)%nat; cbn [negb]; [|eauto].
    destruct (ns_is_alive_row row (node_store g)); [done|eauto].
Qed.
Lemma live_edge_spec g id : columns_ok g ->
  (exists row e, require_live_edge id g = Ok row /\ edge_rows g !! id = Some row /\ row ∈ es_alive (edge_store g) /\ edge_at (edge_store g) row = Some e /\
     lg_edges (logical g) !! id = Some e /\ edge_columns (edge_store g) row e /\ edge_properties_at row g = e_properties e) \/
  (exists e, require_live_edge id g = Err e) /\ lg_edges (logical g) !! id = None.
Proof.
  intros [_ N]. unfold require_live_edge, edge_row_for_id, edge_properties_at.
  destruct (edge_spec g id N) as [(row & e & _ & Hr & Ha & Hat & E & EC)|[E E']].
  - left. exists row, e. rewrite Hr. destruct EC as (C1 & C2 & C3 & C4 & C5) eqn:EC'. rewrite C5. cbn [ok_or default]. pose proof (edge_range _ _ N row Ha) as Hrange.
    rewrite (proj2 (Nat.ltb_lt _ _)) by lia. by rewrite (proj2 (edge_alive_spec _ _) Ha).
  - right. split; [|done]. unfold edge in E. destruct (edge_rows g !! id) as [row|]; cbn [ok_or]; [|eauto]. cbn in E. destruct (_ <? _)%nat; cbn [negb]; [|eauto].
    destruct (es_is_alive_row row (edge_store g)); [done|eauto].
Qed.

Lemma dense_row_spec kind n row : dense_row kind n = Ok row -> row = Z.of_nat n /\ Z.of_nat n < u32_max.
Proof. unfold dense_row. destruct (Z.ltb_spec (Z.of_nat n) u32_max); cbn; [|done]. by intros [= <-]. Qed.
Lemma node_ids_size g : columns_ok g -> size (lg_node_ids (logical g)) = ns_len (node_store g).
Proof. intros [N _]. cbn. by rewrite size_dom, (br_size _ _ _ _ (no_rows _ _ N)). Qed.
Lemma edge_ids_size g : columns_ok g -> size (lg_edge_ids (logical g)) = es_len (edge_store g).
Proof. intros [_ N]. cbn. by rewrite size_dom, (br_size _ _ _ _ (eo_rows _ _ N)). Qed.
Lemma row_number_Ok n : Z.of_nat n < u32_max -> row_number n = Ok (Z.of_nat n).
Proof. intros Hn. unfold row_number. by rewrite (proj2 (Z.ltb_lt _ _)). Qed.

(** ** Creation *)

(** The state after an allocation. *)
Definition with_allocator (a : IdAllocator) (s : WriteTxn) : WriteTxn :=
  {| txn_graph := txn_graph s; allocator := a; changes := changes s; truncate_expansions := truncate_expansions s |}.
Lemma txn_ok_allocator s n e : txn_ok s -> next_node_id (allocator s) <= n -> next_edge_id (allocator s) <= e ->
  txn_ok (with_allocator {| next_node_id := n; next_edge_id := e |} s).
Proof. intros [G A B [C D]] Hn He. split; cbn; [done|intros id Hid%A; lia|intros id Hid%B; lia|lia]. Qed.
Lemma kept_allocator s n e : txn_ok s -> next_node_id (allocator s) <= n -> next_edge_id (allocator s) <= e ->
  kept s (with_allocator {| next_node_id := n; next_edge_id := e |} s).
Proof. intros T Hn He. split; [by apply txn_ok_allocator|done]. Qed.

Lemma post_allocate_node {B} (k : Z -> M B) s Q X :
  post (k (next_node_id (allocator s))) (with_allocator {| next_node_id := next_node_id (allocator s) + 1; next_edge_id := next_edge_id (allocator s) |} s) Q X ->
  X s -> post (bind allocate_node k) s Q X.
Proof. intros HP HX. apply post_bind. unfold post, allocate_node. by destruct (_ <=? u64_max). Qed.
Lemma post_allocate_edge {B} (k : Z -> M B) s Q X :
  post (k (next_edge_id (allocator s))) (with_allocator {| next_node_id := next_node_id (allocator s); next_edge_id := next_edge_id (allocator s) + 1 |} s) Q X ->
  X s -> post (bind allocate_edge k) s Q X.
Proof. intros HP HX. apply post_bind. unfold post, allocate_edge. by destruct (_ <=? u64_max). Qed.

Ltac checked := apply post_check; [|by intros _ _; auto using kept_refl].

Lemma create_node_simulates labels props : sorted_names labels -> simulates (create_node labels props).
Proof.
  intros Hs s T. pose proof T as [G HN HE [H1 H2]]. pose proof (sh_columns _ (con_shape _ G)) as C. unfold create_node.
  checked. intros _ _. apply post_read. checked. intros p1 _. checked. intros p2 _. checked. intros [] Hv%map_err_Ok.
  apply post_allocate_node; [|by intros _; apply kept_refl]. set (id := next_node_id (allocator s)) in *. set (s1 := with_allocator _ s).
  assert (K : kept s s1) by (apply kept_allocator; [done|unfold id; lia|lia]).
  apply post_check; [|by intros _ _]. intros row [-> Hlt]%dense_row_spec. apply post_index_node. intros i. eapply post_write; [done|].
  assert (Hfresh : node_rows (txn_graph s) !! id = None).
  { apply not_elem_of_dom. intros Hin%HN. unfold id in Hin. lia. }
  destruct (push_node_consistent (set_indexes i (txn_graph s)) id (Z.of_nat (ns_len (node_store (txn_graph s)))) labels p2 eq_refl) as [G' HL]; [by apply consistent_indexes|unfold id, TOMBSTONE; lia|done..|].
  cbn [txn_graph set_graph s1 with_allocator] in *. split.
  - eapply txn_ok_intro; [reflexivity|exact HL|done| |by apply HE|cbn; unfold id; lia|cbn; lia].
    cbn [lg_node_ids lg_edge_ids]. intros x [->%elem_of_singleton|Hx]%elem_of_union; cbn; [lia|]. apply HN in Hx. unfold id. lia.
  - eapply reaches_one; [by split|exact HL|]. unfold spec_apply. cbn [change_validate]. rewrite Hv. cbn [map_err]. rewrite (proj2 (Z.eqb_neq id TOMBSTONE)) by (unfold id, TOMBSTONE; lia).
    rewrite bool_decide_false by (intros Hin%HN; unfold id in Hin; lia). cbn [orb]. rewrite node_ids_size, row_number_Ok by done. done.
Qed.

Lemma canonical_canonical d a b a' b' : EdgeDirectionality.canonical_endpoints d a b = (a', b') -> EdgeDirectionality.canonical_endpoints d a' b' = (a', b').
Proof. destruct d; cbn; [by intros [= <- <-]|]. destruct (Z.ltb_spec b a); intros [= <- <-]; by rewrite (proj2 (Z.ltb_ge _ _)) by lia. Qed.

Lemma push_edge_meta id row label a b d p g : meta (push_edge id row label a b d p g) = meta g.
Proof. by destruct d. Qed.

Lemma create_mixed_edge_simulates label first second d props : simulates (create_mixed_edge label first second d props).
Proof.
  intros s T. pose proof T as [G HN HE [H1 H2]]. pose proof (sh_columns _ (con_shape _ G)) as C. unfold create_mixed_edge.
  destruct (EdgeDirectionality.canonical_endpoints d first second) as [a b] eqn:Hab. apply canonical_canonical in Hab.
  checked. intros _ _. apply post_read. checked. intros ra Ha. checked. intros rb Hb. checked. intros p1 _. checked. intros p2 _.
  destruct (live_node_spec _ a C) as [(row_a & na & _ & _ & _ & _ & La & _)|[[? Er] _]]; [|congruence].
  destruct (live_node_spec _ b C) as [(row_b & nb & _ & _ & _ & _ & Lb & _)|[[? Er] _]]; [|congruence].
  apply post_allocate_edge; [|by intros _; apply kept_refl]. set (id := next_edge_id (allocator s)) in *. set (s1 := with_allocator _ s).
  assert (K : kept s s1) by (apply kept_allocator; [done|lia|unfold id; lia]).
  apply post_check; [|by intros _ _]. intros [] Hv%map_err_Ok. apply post_undirected; [|by intros _].
  apply post_check; [|by intros _ _]. intros row [-> Hlt]%dense_row_spec. apply post_index_edge. intros i. eapply post_write; [done|].
  set (e := {| e_directionality := d; e_label := label; e_source := a; e_target := b; e_properties := p2 |}).
  assert (Hfresh : edge_rows (txn_graph s) !! id = None).
  { apply not_elem_of_dom. intros Hin%HE. unfold id in Hin. lia. }
  destruct (push_edge_consistent (set_indexes i (txn_graph s)) id (Z.of_nat (es_len (edge_store (txn_graph s)))) e eq_refl) as [G' HL]; [by apply consistent_indexes|unfold id, TOMBSTONE; lia|done|done|by exists na|by exists nb|done|].
  cbn [txn_graph set_graph s1 with_allocator e e_directionality e_label e_source e_target e_properties] in *. split.
  - eapply txn_ok_intro; [reflexivity|exact HL|done|by apply HN| |cbn; lia|cbn; unfold id; lia].
    cbn [lg_node_ids lg_edge_ids]. intros x [->%elem_of_singleton|Hx]%elem_of_union; cbn; [lia|]. apply HE in Hx. unfold id. lia.
  - eapply reaches_one; [split_and!; [reflexivity|reflexivity|reflexivity|exact (push_edge_meta _ _ _ _ _ _ _ _)|reflexivity]|exact HL|]. unfold spec_apply. cbn [change_validate]. rewrite Hv. cbn [map_err]. rewrite La, Lb, !bool_decide_true by done.
    rewrite (proj2 (Z.eqb_neq id TOMBSTONE)) by (unfold id, TOMBSTONE; lia).
    rewrite bool_decide_false by (intros Hin%HE; unfold id in Hin; lia). rewrite (bool_decide_true _ Hab). cbn [orb andb negb]. rewrite edge_ids_size, row_number_Ok by done. done.
Qed.

(** ** Updates *)

Lemma patch_labels_spec labels d : sorted_names labels ->
  sorted_names (patch_labels labels d) /\ forall l, l ∈ patch_labels labels d <-> (l ∈ labels \/ l ∈ ld_added d) /\ l ∉ ld_removed d.
Proof.
  intros Hs. destruct d as [added removed]. unfold patch_labels. cbn.
  assert (HI : forall added labels X, LabelSet.repr labels X ->
    LabelSet.repr (foldl (fun labels label => snd (LabelSet.insert label labels)) labels added) (list_to_set added ∪ X)).
  { clear. induction added as [|a added IH]; intros labels X HR; cbn; [by rewrite (left_id_L ∅ (∪))|].
    replace ({[a]} ∪ list_to_set added ∪ X) with (list_to_set added ∪ ({[a]} ∪ X)) by set_solver. apply IH, LabelSet.insert_repr, HR. }
  assert (HD : forall removed labels X, LabelSet.repr labels X ->
    LabelSet.repr (foldl (fun labels label => snd (LabelSet.remove label labels)) labels removed) (X ∖ list_to_set removed)).
  { clear. induction removed as [|a removed IH]; intros labels X HR; cbn; [by rewrite difference_empty_L|].
    replace (X ∖ ({[a]} ∪ list_to_set removed)) with ((X ∖ {[a]}) ∖ list_to_set removed) by set_solver. apply IH, LabelSet.remove_repr, HR. }
  pose proof (HD removed _ _ (HI added labels (list_to_set labels) (conj Hs eq_refl))) as HR. split; [apply HR|].
  intros l. rewrite <- (LabelSet.repr_elem _ _ l HR). set_solver.
Qed.

Lemma set_all_valid entries props p : set_all entries props = Ok p -> validate_all (map snd entries) = Ok tt.
Proof.
  revert props. induction entries as [|[name value] entries IH]; intros props; cbn; [done|]. unfold pm_set. destruct (validate value) as [[]|]; cbn; [|done].
  destruct (match props with Standard _ => _ | Compact _ _ => _ end) as [props'|]; [|done]. apply IH.
Qed.
Lemma apply_diff_patch props d p : apply_property_diff props d = Ok p -> patch (Some props) d = Ok p /\ validate_all (map snd (pd_set d)) = Ok tt.
Proof.
  unfold apply_property_diff, patch. cbn. destruct (set_all (pd_set d) props) as [q|] eqn:E; cbn; [|done]. intros [= <-]. split; [done|]. by eapply set_all_valid.
Qed.

(** A call that writes one graph, keeps the identities and logs one change. *)
Lemma logged_ok s s' g' lg' c : txn_ok s -> consistent g' -> logical g' = lg' -> logged s s' g' c -> allocator s' = allocator s ->
  lg_node_ids lg' = lg_node_ids (logical (txn_graph s)) -> lg_edge_ids lg' = lg_edge_ids (logical (txn_graph s)) ->
  spec_apply (logical (txn_graph s)) c = Ok lg' -> txn_ok s' /\ reaches s s'.
Proof.
  intros [G HN HE [H1 H2]] G' HL Hlog Ha EN' EE HS. pose proof (proj1 Hlog) as Hg. split.
  - eapply txn_ok_intro; [exact Hg|exact HL|done|rewrite EN', Ha; done|rewrite EE, Ha; done|by rewrite Ha..].
  - by eapply reaches_one.
Qed.

Lemma update_node_simulates id ld pd : simulates (update_node id ld pd).
Proof.
  intros s T. pose proof T as [G _ _ _]. pose proof (con_shape _ G) as [C SL SE SS]. unfold update_node.
  checked. intros _ _. apply post_read. checked. intros row Hrow.
  destruct (live_node_spec _ id C) as [(row' & n & Er & Hr & Ha & Hat & Hn & EL & EP)|[[? Er] _]]; [|congruence]. rewrite Hrow in Er. injection Er as <-. rewrite EL, EP.
  checked. intros _ _. checked. intros _ _. checked. intros pd' _. checked. intros p [Hp Hv]%apply_diff_patch.
  apply post_index_node. intros i. set (g := txn_graph s) in *. destruct C as [N M].
  destruct (write_node_spec (E := GraphError) _ _ N row (patch_labels (n_labels n) ld) p (node_range _ _ N row Ha)) as (cl & cp & El & Ep & N' & _ & HA).
  eapply post_write; [cbn [txn_graph set_graph]; unfold write_node; cbn [node_store set_indexes]; rewrite El, Ep; reflexivity|].
  destruct (patch_labels_spec (n_labels n) ld (SS row n Hat)) as [Hs HM]. rewrite (proj2 (alive_spec _ _) Ha) in HA. unfold post, push_change.
  destruct (node_write_consistent (set_indexes i g) _ (remove_node_labels row (ld_removed ld) (insert_node_labels row (ld_added ld) (idx_label g))) id row n _
    (consistent_indexes i g G) Hr Hat N' HA Hs) as [G' HL].
  { eapply bitmaps_ext; [|apply bitmaps_remove_all, bitmaps_insert_all, SL]. intros l r. unfold node_label. rewrite HA.
    destruct (decide (r = row)) as [->|]; [|naive_solver]. rewrite Hat. split.
    - intros [[(x & [= <-] & Hx)|[Hx _]] Hn']; eexists; (split; [done|]); cbn; apply HM; naive_solver.
    - intros (x & [= <-] & [Hx Hx']%HM). naive_solver. }
  eapply logged_ok; [done|exact G'|exact HL|done..|]. unfold spec_apply. cbn [change_validate]. rewrite Hv. cbn [map_err]. fold g. rewrite Hn. cbn [ok_or]. by rewrite Hp.
Qed.

Lemma edge_properties_written {B} s id row e p (k : unit -> M B) Q X : txn_ok s -> edge_rows (txn_graph s) !! id = Some row -> row ∈ es_alive (edge_store (txn_graph s)) ->
  edge_at (edge_store (txn_graph s)) row = Some e ->
  (forall g', consistent g' -> logical g' = with_edges (<[id := with_edge_properties p e]> (lg_edges (logical (txn_graph s)))) (logical (txn_graph s)) ->
     meta g' = meta (txn_graph s) -> post (k tt) (set_graph g' s) Q X) ->
  post (bind (write (write_edge_properties row p)) k) s Q X.
Proof.
  intros [G _ _ _] Hr Ha Hat Hk. pose proof (sh_columns _ (con_shape _ G)) as [N M].
  destruct (write_edge_spec (E := GraphError) _ _ M row p (edge_range _ _ M row Ha)) as (cp & Ep & M' & _ & HA). rewrite Hat in HA.
  destruct (edge_write_consistent _ _ id row e p G Hr Hat M' HA) as [G' HL].
  eapply post_write; [unfold write_edge_properties; rewrite Ep; reflexivity|]. by apply Hk.
Qed.

Lemma update_edge_simulates id pd : simulates (update_edge id pd).
Proof.
  intros s T. pose proof (sh_columns _ (con_shape _ (ok_graph _ T))) as C. unfold update_edge.
  checked. intros _ _. apply post_read. checked. intros row Hrow.
  destruct (live_edge_spec _ id C) as [(row' & e & Er & Hr & Ha & Hat & Hn & EC & EP)|[[? Er] _]]; [|congruence]. rewrite Hrow in Er. injection Er as <-. rewrite EP.
  checked. intros _ _. checked. intros pd' _. checked. intros label _. checked. intros p [Hp Hv]%apply_diff_patch.
  eapply (edge_properties_written s id row e p); [done..|]. intros g' G' HL Hm. apply post_index_edge. intros i. unfold post, push_change.
  eapply logged_ok; [done|exact (consistent_indexes i g' G')|exact HL|done..|].
  unfold spec_apply. cbn [change_validate]. rewrite Hv. cbn [map_err]. rewrite Hn. cbn [ok_or]. by rewrite Hp.
Qed.

Lemma remove_edge_property_simulates id property : simulates (remove_edge_property id property).
Proof.
  intros s T. pose proof (sh_columns _ (con_shape _ (ok_graph _ T))) as C. unfold remove_edge_property.
  apply post_read. checked. intros row Hrow.
  destruct (live_edge_spec _ id C) as [(row' & e & Er & Hr & Ha & Hat & Hn & EC & EP)|[[? Er] _]]; [|congruence]. rewrite Hrow in Er. injection Er as <-. rewrite EP.
  checked. intros label _. destruct (negb _); [apply post_ret; split; [done|apply reaches_refl]|]. checked. intros d _. checked. intros _ _.
  eapply (edge_properties_written s id row e); [done..|]. intros g' G' HL Hm. apply post_index_edge. intros i. unfold post, push_change.
  eapply logged_ok; [done|exact (consistent_indexes i g' G')|exact HL|done..|]. unfold spec_apply. cbn [change_validate map_err]. by rewrite Hn.
Qed.

Lemma remove_node_property_simulates id property : simulates (remove_node_property id property).
Proof.
  intros s T. pose proof T as [G _ _ _]. pose proof (con_shape _ G) as [C SL SE SS]. unfold remove_node_property. apply post_read. checked. intros row Hrow.
  destruct (live_node_spec _ id C) as [(row' & n & Er & Hr & Ha & Hat & Hn & EL & EP)|[[? Er] _]]; [|congruence]. rewrite Hrow in Er. injection Er as <-. rewrite EL, EP.
  destruct (negb _); [apply post_ret; split; [done|apply reaches_refl]|]. checked. intros d _. checked. intros _ _.
  destruct (write_properties_spec (E := GraphError) _ _ (proj1 C) row n (snd (pm_remove property (n_properties n))) Ha Hat) as (cp & Ep & N' & HA).
  eapply post_write; [cbn; rewrite Ep; reflexivity|]. apply post_index_node. intros i. unfold post, push_change.
  destruct (node_write_consistent (txn_graph s) _ (idx_label (txn_graph s)) id row n _ G Hr Hat N' HA (SS row n Hat)) as [G' HL].
  { eapply bitmaps_ext; [|exact SL]. intros l r. unfold node_label. rewrite HA. destruct (decide (r = row)) as [->|]; [|done]. rewrite Hat. naive_solver. }
  eapply logged_ok; [done|exact (consistent_indexes i _ G')|exact HL|done..|]. unfold spec_apply. cbn [change_validate map_err]. by rewrite Hn.
Qed.

Lemma remove_node_label_simulates id label : simulates (remove_node_label id label).
Proof.
  intros s T. pose proof T as [G _ _ _]. pose proof (con_shape _ G) as [C SL SE SS]. unfold remove_node_label. apply post_read. checked. intros row Hrow.
  destruct (live_node_spec _ id C) as [(row' & n & Er & Hr & Ha & Hat & Hn & EL & EP)|[[? Er] _]]; [|congruence]. rewrite Hrow in Er. injection Er as <-. rewrite EL, EP.
  destruct (negb _); [apply post_ret; split; [done|apply reaches_refl]|].
  destruct (LabelSet.remove_repr (n_labels n) _ label (conj (SS row n Hat) eq_refl)) as [_ HR].
  destruct (write_labels_spec (E := GraphError) _ _ (proj1 C) row n (snd (LabelSet.remove label (n_labels n))) Ha Hat) as (cl & El & N' & HA).
  eapply post_write; [cbn; rewrite El; reflexivity|]. apply post_index_node. intros i. unfold post, push_change.
  destruct (node_write_consistent (txn_graph s) _ (remove_index_row label row (idx_label (txn_graph s))) id row n _ G Hr Hat N' HA (proj1 HR)) as [G' HL].
  { eapply bitmaps_ext; [|apply bitmaps_remove, SL]. intros l r. unfold node_label. rewrite HA. destruct (decide (r = row)) as [->|]; [|naive_solver]. rewrite Hat.
    split; [intros [(x & [= <-] & Hx) Hne]|intros (x & [= <-] & Hx)].
    - eexists. split; [done|]. cbn. apply (LabelSet.repr_elem _ _ l HR). set_solver.
    - cbn in Hx. apply (LabelSet.repr_elem _ _ l HR) in Hx. set_solver. }
  eapply logged_ok; [done|exact (consistent_indexes i _ G')|exact HL|done..|]. unfold spec_apply. cbn [change_validate map_err]. by rewrite Hn.
Qed.
End MutatorProps.
