(* ===== verification/DeleteProps.v ===== *)
(** Deletion: a node takes its incident edges with it, in every index, and one
    declarative change means what a truncation did. *)

From stdpp Require Import sorting.
From S2P Require Import Prelude Errors Wire Value Ordered LabelSet PropertyMap GraphDelta Columns GraphTypes Store Derived Candidates TypeValidator Fanout GraphApply GraphApplyProps Mutator Consistent MutatorProps.

(** ** Sorted identities *)

Lemma dedup_indices_spec l : Sorted Z.le l -> NoDup (dedup_indices l) /\ forall x, x ∈ dedup_indices l <-> x ∈ l.
Proof.
  intros Hs. apply Sorted_StronglySorted in Hs; [|exact Z.le_trans]. induction Hs as [|x l Hs IH Hf]; [by split; [constructor|]|].
  destruct l as [|y l]; [by split; [apply NoDup_singleton|]|]. cbn [dedup_indices]. destruct IH as [IH1 IH2]. destruct (Z.eqb_spec x y) as [->|Hne].
  - split; [done|]. intros z. rewrite IH2. set_solver.
  - split.
    + constructor; [|done]. rewrite IH2. intros Hin. rewrite Forall_forall in Hf. apply StronglySorted_inv in Hs as [_ Hy]. rewrite Forall_forall in Hy.
      apply elem_of_cons in Hin as [->|Hin]; [done|]. apply Hy in Hin. pose proof (Hf y ltac:(by left)). lia.
    + intros z. rewrite !elem_of_cons, IH2, elem_of_cons. tauto.
Qed.
Lemma incident_list_spec (l : list Z) (l' := if (1 <? length l)%nat then dedup_indices (merge_sort Z.le l) else l) : NoDup l' /\ forall x, x ∈ l' <-> x ∈ l.
Proof.
  subst l'. destruct (Nat.ltb_spec 1 (length l)) as [H1|H1].
  - destruct (dedup_indices_spec (merge_sort Z.le l)) as [Hn Hin]; [apply Sorted_merge_sort; intros x y; lia|]. split; [done|]. intros x. rewrite Hin. by rewrite merge_sort_Permutation.
  - split; [|done]. destruct l as [|x [|]]; cbn in H1; [constructor|apply NoDup_singleton|lia].
Qed.

Section DeleteProps.
Context `{L : Leaves} {GE : GraphEnv} {TO : TypeOps} {EN : Engine} {LE : LegacyEvents} {LC : LegacyChecks}.
Abbreviation M A := (method WriteTxn (fault GraphError) A).
Abbreviation never := (fun _ : WriteTxn => total_indexes -> False).

(** ** Rows *)

(** The edges that touch a node. *)
Definition touches (edges : gmap Z Edge) (node id : Z) : Prop := exists e, edges !! id = Some e /\ (e_source e = node \/ e_target e = node).

Lemma incident_edges_spec g edges (X : gset Z) id : adjacent g edges (fun n _ => n ∉ X) -> id ∉ X ->
  NoDup (incident_edges id g) /\ forall i, i ∈ incident_edges id g <-> touches edges id i.
Proof.
  intros [A B C] HX. unfold incident_edges. destruct (incident_list_spec (entry_ids (adjacency_out g) id ++ entry_ids (adjacency_in g) id ++ entry_ids (adjacency_undirected g) id)) as [Hn Hin].
  split; [done|]. intros i. rewrite Hin, !elem_of_app. unfold entry_ids.
  assert (HE : forall m P, listing m P -> i ∈ (ae_edge_id <$> default [] (m !! id)) <-> exists a, P id a /\ ae_edge_id a = i).
  { intros m P HL. destruct (listing_at m P id HL) as [_ Hat]. rewrite list_elem_of_fmap. setoid_rewrite Hat. naive_solver. }
  rewrite (HE _ _ A), (HE _ _ B), (HE _ _ C). unfold touches, out_of, into, beside. split.
  - intros [(a & [(e & E & D & S & _) _] & <-)|[(a & [(e & E & D & S & _) _] & <-)|(a & [(e & E & D & S & _) _] & <-)]]; exists e; (split; [done|]); [by left|by right|].
    destruct S as [[? _]|[? _]]; auto.
  - intros (e & E & S). destruct (e_directionality e) eqn:D.
    + destruct S as [S|S]; [left|right; left].
      * exists {| ae_label := e_label e; ae_neighbor := e_target e; ae_edge_id := i |}. split; [|done]. split; [by exists e|done].
      * exists {| ae_label := e_label e; ae_neighbor := e_source e; ae_edge_id := i |}. split; [|done]. split; [by exists e|done].
    + right. right. destruct S as [S|S].
      * exists {| ae_label := e_label e; ae_neighbor := e_target e; ae_edge_id := i |}. split; [|done]. split; [exists e; tauto|done].
      * exists {| ae_label := e_label e; ae_neighbor := e_source e; ae_edge_id := i |}. split; [|done]. split; [exists e; tauto|done].
Qed.

Lemma remove_node_row_post s id row n edges (X : gset Z) :
  shape (txn_graph s) -> node_rows (txn_graph s) !! id = Some row -> row ∈ ns_alive (node_store (txn_graph s)) -> node_at (node_store (txn_graph s)) row = Some n ->
  adjacent (txn_graph s) edges (fun n _ => n ∉ X) -> id ∉ X ->
  post (remove_node_row id row) s (fun incident s' => exists g', s' = set_graph g' s /\ shape g' /\ same_rows (txn_graph s) g' /\
      logical g' = with_nodes (delete id (lg_nodes (logical (txn_graph s)))) (logical (txn_graph s)) /\
      adjacent g' edges (fun n _ => n ∉ {[id]} ∪ X) /\ NoDup incident /\ forall i, i ∈ incident <-> touches edges id i) never.
Proof.
  intros Sh Hr Ha Hat HA HX. unfold remove_node_row. apply post_read.
  assert (EL : labels_at row (txn_graph s) = n_labels n).
  { unfold labels_at. destruct (node_at_alive _ _ (proj1 (sh_columns _ Sh)) row Ha) as (l & p & -> & _ & E). rewrite Hat in E. by simplify_eq. }
  rewrite EL. eapply post_write; [done|]. apply (post_index_node _ _ _ _ _ _ _ (fun _ => False)). intros i.
  destruct (clear_node_shape (E := GraphError) (txn_graph s) i id row n Sh Hr Hat) as (g' & Ec & Sh' & HL & Hm & E1 & E2 & E3).
  eapply post_write; [cbn [txn_graph set_graph]; rewrite Ec; reflexivity|]. apply post_ret. exists (detach id g'). split; [done|].
  destruct Sh' as [C' L' LE' S']. split; [by split|]. split; [done|]. split; [done|].
  destruct (incident_edges_spec _ _ _ _ HA HX) as [Hn Hin]. split; [|done].
  eapply adjacent_ext; [|apply adjacent_detach, (adjacent_same (txn_graph s) g'); [done..|exact HA]]. intros x i' e _ _. cbn. set_solver.
Qed.

Lemma remove_edge_row_post s id row e flag :
  shape (txn_graph s) -> edge_rows (txn_graph s) !! id = Some row -> row ∈ es_alive (edge_store (txn_graph s)) -> edge_at (edge_store (txn_graph s)) row = Some e ->
  post (remove_edge_row_inner id row flag) s (fun _ s' => exists g', s' = set_graph g' s /\ shape g' /\ same_rows (txn_graph s) g' /\
      logical g' = with_edges (delete id (lg_edges (logical (txn_graph s)))) (logical (txn_graph s)) /\
      let g0 := if flag then unlink id (e_source e) (e_target e) (txn_graph s) else txn_graph s in
      adjacency_out g' = adjacency_out g0 /\ adjacency_in g' = adjacency_in g0 /\ adjacency_undirected g' = adjacency_undirected g0) never.
Proof.
  intros Sh Hr Ha Hat. unfold remove_edge_row_inner. apply post_read.
  assert (HC : edge_columns (edge_store (txn_graph s)) row e).
  { destruct (edge_at_alive _ _ (proj2 (sh_columns _ Sh)) row Ha) as (e' & HC & E). rewrite Hat in E. by simplify_eq. }
  destruct HC as (_ & C2 & C3 & C4 & _). rewrite C2, C3, C4.
  apply post_check; [intros ? [= <-]|by intros [? [=]]]. apply post_check; [intros ? [= <-]|by intros [? [=]]]. apply post_check; [intros ? [= <-]|by intros [? [=]]].
  apply (post_index_edge _ _ _ _ _ _ _ (fun _ => False)). intros i. unfold post, write. cbn [txn_graph set_graph].
  set (g0 := if flag then _ else _).
  destruct (clear_edge_shape (E := GraphError) (txn_graph s) g0 id row e Sh Hr Hat) as (g' & -> & Sh' & HL & Hm & E1 & E2 & E3); [by subst g0; destruct flag..|].
  exists g'. split; [done|]. split; [done|]. split; [done|]. split; [done|]. rewrite E1, E2, E3. subst g0. by destruct flag.
Qed.

(** ** Grouped removal *)

Definition directed_at (edges : gmap Z Edge) (endpoint : Edge -> Z) (node id : Z) : bool :=
  match edges !! id with
  | Some e => match e_directionality e with EdgeDirectionality.Directed => endpoint e =? node | EdgeDirectionality.Undirected => false end
  | None => false
  end.
Definition undirected_at (edges : gmap Z Edge) (node id : Z) : bool :=
  match edges !! id with
  | Some e => match e_directionality e with EdgeDirectionality.Undirected => (e_source e =? node) || (e_target e =? node) | EdgeDirectionality.Directed => false end
  | None => false
  end.
(** The groups hold the edges [done]. *)
Record grouped (edges : gmap Z Edge) (done : list Z) (b : Groups) : Prop := {
  gr_out : forall n, default [] (outgoing b !! n) = filter (fun i => directed_at edges e_source n i = true) done;
  gr_in : forall n, default [] (incoming b !! n) = filter (fun i => directed_at edges e_target n i = true) done;
  gr_undirected : forall n, default [] (undirected b !! n) = filter (fun i => undirected_at edges n i = true) done
}.

Lemma group_lookup node id m n : default [] (group node id m !! n) = default [] (m !! n) ++ if node =? n then [id] else [].
Proof.
  unfold group. destruct (Z.eqb_spec node n) as [->|Hne]; [by rewrite lookup_insert_eq|]. by rewrite lookup_insert_ne, app_nil_r.
Qed.
Lemma filter_snoc (P : Z -> bool) l i : filter (fun i => P i = true) (l ++ [i]) = filter (fun i => P i = true) l ++ if P i then [i] else [].
Proof. rewrite filter_app. f_equal. rewrite filter_cons, filter_nil. by destruct (P i). Qed.

Lemma edge_directionality_spec g id e : columns_ok g -> lg_edges (logical g) !! id = Some e -> edge_directionality id g = Some (e_directionality e).
Proof.
  intros [N M] He. destruct (live_row_edge g id e M He) as (row & Hr & Ha & _ & (C1 & _)). unfold edge_directionality, live_edge_row, edge_row_for_id.
  rewrite Hr. cbn [mbind option_bind]. pose proof (edge_range _ _ M row Ha). rewrite (proj2 (Nat.ltb_lt _ _)), (proj2 (edge_alive_spec _ _) Ha) by lia. done.
Qed.

Lemma group_edge_post s edges done b id e : columns_ok (txn_graph s) -> lg_edges (logical (txn_graph s)) !! id = Some e -> edges !! id = Some e ->
  grouped edges done b -> post (group_edge b id) s (fun b' s' => s' = s /\ grouped edges (done ++ [id]) b') never.
Proof.
  intros C He He' [G1 G2 G3]. unfold group_edge. apply post_read. destruct (live_edge_spec _ id C) as [(row & e' & -> & _ & _ & _ & E & EC & _)|[_ E]]; [|congruence].
  rewrite He in E. injection E as <-. destruct EC as (_ & _ & C3 & C4 & _). apply post_check; [intros ? [= <-]|by intros [? [=]]]. rewrite C3, C4.
  apply post_check; [intros ? [= <-]|by intros [? [=]]]. apply post_check; [intros ? [= <-]|by intros [? [=]]].
  rewrite (edge_directionality_spec _ id e C He). apply post_ret. split; [done|].
  destruct (e_directionality e) eqn:D; split; intros n; cbn; rewrite filter_snoc; unfold directed_at, undirected_at; rewrite He', D; rewrite ?group_lookup, ?app_nil_r; auto.
  - rewrite G1. by destruct (e_source e =? n).
  - rewrite G2. by destruct (e_target e =? n).
  - destruct (Z.eqb_spec (e_source e) (e_target e)) as [Est|Est]; cbn.
    + rewrite group_lookup, G3. rewrite Est. by destruct (e_target e =? n).
    + rewrite !group_lookup, G3. destruct (Z.eqb_spec (e_source e) n), (Z.eqb_spec (e_target e) n); cbn; [congruence|by rewrite app_nil_r..].
Qed.

Lemma grouped_post s edges ids : columns_ok (txn_graph s) -> (forall i, i ∈ ids -> exists e, lg_edges (logical (txn_graph s)) !! i = Some e /\ edges !! i = Some e) ->
  post (fold_m group_edge {| outgoing := ∅; incoming := ∅; undirected := ∅ |} ids) s (fun b s' => s' = s /\ grouped edges ids b) never.
Proof.
  intros C Hids. eapply post_weaken; [|intros s' Hx; exact Hx|].
  2: { apply (post_fold group_edge (fun l b s' => exists done, ids = done ++ l /\ s' = s /\ grouped edges done b)).
    - exists []. split; [done|]. split; [done|]. by split; intros n; cbn; rewrite lookup_empty.
    - intros i l b s' (done & E & -> & Hg). destruct (Hids i) as (e & H1 & H2); [rewrite E; set_solver|].
      eapply post_weaken; [|intros ? Hx; exact Hx|by apply (group_edge_post s edges done b i e)]. intros b' s' [-> Hg']. exists (done ++ [i]).
      split; [by rewrite <- app_assoc|done]. }
  cbn. intros b s' (done & E & -> & Hg). rewrite app_nil_r in E. by subst done.
Qed.

Lemma removal_listing m (P : Z -> AdjacencyEdge -> Prop) (X : gset Z) (removals : gmap Z (list Z)) (at_node : Z -> Z -> bool) ids :
  listing m (fun n a => P n a /\ n ∉ X) -> one_way (fun n a => P n a /\ n ∉ X) -> NoDup ids ->
  (forall n, default [] (removals !! n) = filter (fun i => at_node n i = true) ids) ->
  (forall n i, i ∈ ids -> at_node n i = true -> exists a, P n a /\ ae_edge_id a = i) ->
  (forall n a, P n a -> at_node n (ae_edge_id a) = true) ->
  listing (remove_edges_from_adjacency_map m removals) (fun n a => P n a /\ (n ∉ X /\ ae_edge_id a ∉ ids)).
Proof.
  intros HL HO Hn Hr Hex Hat. eapply listing_ext; [|apply listing_remove_many; [exact HL|exact HO| |]]; cbn.
  - intros n a. rewrite Hr, list_elem_of_filter. split; [intros [[HP HX] Hni]|intros [HP [HX Hni]]]; (split; [done|]); [|tauto]. split; [done|]. intros Hin. apply Hni. auto.
  - intros n l E. pose proof (Hr n) as Hn'. rewrite E in Hn'. cbn in Hn'. subst l. by apply NoDup_filter.
  - intros n l i E Hi [entry Em]. pose proof (Hr n) as Hn'. rewrite E in Hn'. cbn in Hn'. subst l. apply list_elem_of_filter in Hi as [Hi1 Hi2].
    destruct (Hex n i Hi2 Hi1) as (a & HP & Ha). exists a. split; [|done]. split; [done|].
    pose proof (HL n) as Hn'. rewrite Em in Hn'. destruct Hn' as (Hne & _ & Hin). destruct entry as [|a0 entry]; [done|]. by destruct (proj1 (Hin a0) ltac:(by left)).
Qed.

Lemma adjacent_grouped g edges (X : gset Z) ids b : adjacent g edges (fun n _ => n ∉ X) -> NoDup ids -> (forall i, i ∈ ids -> is_Some (edges !! i)) -> grouped edges ids b ->
  adjacent (set_adjacency (remove_edges_from_adjacency_map (adjacency_out g) (outgoing b)) (remove_edges_from_adjacency_map (adjacency_in g) (incoming b))
              (remove_edges_from_adjacency_map (adjacency_undirected g) (undirected b)) g) edges (fun n i => n ∉ X /\ i ∉ ids).
Proof.
  intros [A B C] Hn Hids [G1 G2 G3]. split; cbn.
  - eapply (removal_listing _ (out_of edges) X _ (directed_at edges e_source)); [exact A|apply (out_of_one_way _ (fun n _ => n ∉ X))|done|done| |].
    + intros n i Hi Hd. unfold directed_at in Hd. destruct (Hids i Hi) as [e E]. rewrite E in Hd. destruct (e_directionality e) eqn:D; [|done]. apply Z.eqb_eq in Hd.
      exists {| ae_label := e_label e; ae_neighbor := e_target e; ae_edge_id := i |}. split; [by exists e|done].
    + intros n a (e & E & D & S & _). unfold directed_at. rewrite E, D. by apply Z.eqb_eq.
  - eapply (removal_listing _ (into edges) X _ (directed_at edges e_target)); [exact B|apply (into_one_way _ (fun n _ => n ∉ X))|done|done| |].
    + intros n i Hi Hd. unfold directed_at in Hd. destruct (Hids i Hi) as [e E]. rewrite E in Hd. destruct (e_directionality e) eqn:D; [|done]. apply Z.eqb_eq in Hd.
      exists {| ae_label := e_label e; ae_neighbor := e_source e; ae_edge_id := i |}. split; [by exists e|done].
    + intros n a (e & E & D & S & _). unfold directed_at. rewrite E, D. by apply Z.eqb_eq.
  - eapply (removal_listing _ (beside edges) X _ (undirected_at edges)); [exact C|apply (beside_one_way _ (fun n _ => n ∉ X))|done|done| |].
    + intros n i Hi Hd. unfold undirected_at in Hd. destruct (Hids i Hi) as [e E]. rewrite E in Hd. destruct (e_directionality e) eqn:D; [done|].
      apply orb_true_iff in Hd as [Hd%Z.eqb_eq|Hd%Z.eqb_eq].
      * exists {| ae_label := e_label e; ae_neighbor := e_target e; ae_edge_id := i |}. split; [exists e; tauto|done].
      * exists {| ae_label := e_label e; ae_neighbor := e_source e; ae_edge_id := i |}. split; [exists e; tauto|done].
    + intros n a (e & E & D & S & _). unfold undirected_at. rewrite E, D. apply orb_true_iff. rewrite !Z.eqb_eq. tauto.
Qed.

Lemma remove_edges_post s edges (X : gset Z) ids :
  shape (txn_graph s) -> adjacent (txn_graph s) edges (fun n _ => n ∉ X) -> NoDup ids ->
  (forall i, i ∈ ids -> exists e, lg_edges (logical (txn_graph s)) !! i = Some e /\ edges !! i = Some e) ->
  post (remove_edges_from_adjacency ids) s (fun _ s' => exists g', s' = set_graph g' s /\ shape g' /\ same_rows (txn_graph s) g' /\
      logical g' = logical (txn_graph s) /\ adjacent g' edges (fun n i => n ∉ X /\ i ∉ ids)) never.
Proof.
  intros Sh HA Hn Hids. unfold remove_edges_from_adjacency. apply post_bind. eapply post_weaken; [|intros ? Hx; exact Hx|apply (grouped_post s edges ids); [apply Sh|done]].
  intros b s' [-> Hg]. unfold post, write. eexists. split; [done|]. destruct Sh as [C L1 L2 S1]. split; [by split|]. split; [done|]. split; [done|].
  apply adjacent_grouped; [done|done| |done]. intros i Hi. destruct (Hids i Hi) as (e & _ & E). by exists e.
Qed.

(** ** Stages of a deletion *)

(** The entries that are left. *)
Definition without {A} (m : gmap Z A) (X : gset Z) : gmap Z A := filter (fun '(i, _) => i ∉ X) m.
Lemma without_Some {A} (m : gmap Z A) X i a : without m X !! i = Some a <-> m !! i = Some a /\ i ∉ X.
Proof. apply map_lookup_filter_Some. Qed.
Lemma without_nothing {A} (m : gmap Z A) : without m ∅ = m.
Proof. apply map_filter_id. set_solver. Qed.
Lemma without_more {A} (m : gmap Z A) X i : without m ({[i]} ∪ X) = delete i (without m X).
Proof. apply map_eq. intros j. apply option_eq. intros a. rewrite lookup_delete_Some, !without_Some. set_solver. Qed.

(** Since [s0], the nodes [NX] and the edges [EX] have lost their rows, and the adjacency
    has lost the entries of [NX] and the edges [FX]. *)
Record stage (s0 s : WriteTxn) (NX FX EX : gset Z) : Prop := {
  st_shape : shape (txn_graph s);
  st_rows : same_rows (txn_graph s0) (txn_graph s);
  st_logical : logical (txn_graph s) = {| lg_nodes := without (lg_nodes (logical (txn_graph s0))) NX; lg_edges := without (lg_edges (logical (txn_graph s0))) EX;
    lg_node_ids := lg_node_ids (logical (txn_graph s0)); lg_edge_ids := lg_edge_ids (logical (txn_graph s0)) |};
  st_adjacent : adjacent (txn_graph s) (lg_edges (logical (txn_graph s0))) (fun n i => n ∉ NX /\ i ∉ FX);
  st_allocator : allocator s = allocator s0
}.
(** The log is as it was. *)
Definition unlogged (s s' : WriteTxn) : Prop := changes s' = changes s /\ truncate_expansions s' = truncate_expansions s.

Lemma logical_eta lg : {| lg_nodes := lg_nodes lg; lg_edges := lg_edges lg; lg_node_ids := lg_node_ids lg; lg_edge_ids := lg_edge_ids lg |} = lg.
Proof. by destruct lg. Qed.
Lemma stage_start s : txn_ok s -> stage s s ∅ ∅ ∅.
Proof.
  intros [[Sh A _] _ _ _]. split; [done|done|by rewrite !without_nothing, logical_eta| |done]. eapply adjacent_ext; [|exact A]. unfold everything. set_solver.
Qed.

(** A stage where no edge is left dangling is consistent. *)
Lemma stage_ok s0 s NX EX : txn_ok s0 -> stage s0 s NX EX EX -> (forall n i, n ∈ NX -> touches (lg_edges (logical (txn_graph s0))) n i -> i ∈ EX) -> txn_ok s.
Proof.
  intros [[_ _ CC] HN HE [H1 H2]] [Sh _ HL HA Ha] Ht. eapply txn_ok_intro; [reflexivity|exact HL| |by rewrite Ha..].
  assert (Hend : forall id e n, lg_edges (logical (txn_graph s0)) !! id = Some e -> id ∉ EX -> n = e_source e \/ n = e_target e -> n ∉ NX).
  { intros id e n E Hid Hn Hx. apply Hid, (Ht n id Hx). exists e. split; [done|]. destruct Hn; auto. }
  split; [done| |].
  - rewrite HL. cbn [lg_edges]. eapply adjacent_restrict; [intros id e [E _]%without_Some; exact E| |exact HA]. intros n id e E Hn. cbn. split.
    + intros [_ Hid]. exists e. by apply without_Some.
    + intros [e' [E' Hid]%without_Some]. split; [|done]. by apply (Hend id e).
  - intros id e. rewrite HL. cbn. intros [E Hid]%without_Some. destruct (CC id e E) as ([ns Hs] & [nt Hn] & Hc). split; [exists ns|split; [exists nt|done]];
      apply without_Some; (split; [done|]); apply (Hend id e); auto.
Qed.

Lemma stage_node s0 s id n NX FX EX : stage s0 s NX FX EX -> lg_nodes (logical (txn_graph s0)) !! id = Some n -> id ∉ NX ->
  exists row, node_rows (txn_graph s) !! id = Some row /\ row ∈ ns_alive (node_store (txn_graph s)) /\ node_at (node_store (txn_graph s)) row = Some n.
Proof.
  intros [Sh R HL _ _] Hn Hid. apply (live_row_node (txn_graph s) id n (proj1 (sh_columns _ Sh))). rewrite HL. by apply without_Some.
Qed.
Lemma stage_edge s0 s id e NX FX EX : stage s0 s NX FX EX -> lg_edges (logical (txn_graph s0)) !! id = Some e -> id ∉ EX ->
  exists row, edge_rows (txn_graph s) !! id = Some row /\ row ∈ es_alive (edge_store (txn_graph s)) /\ edge_at (edge_store (txn_graph s)) row = Some e.
Proof.
  intros [Sh R HL _ _] Hn Hid. destruct (live_row_edge (txn_graph s) id e (proj2 (sh_columns _ Sh))) as (row & Hr & Hal & Hat & _); [|by exists row].
  rewrite HL. by apply without_Some.
Qed.

Lemma stage_remove_node s0 s id row n NX : stage s0 s NX ∅ ∅ -> node_rows (txn_graph s) !! id = Some row -> row ∈ ns_alive (node_store (txn_graph s)) ->
  node_at (node_store (txn_graph s)) row = Some n -> id ∉ NX ->
  post (remove_node_row id row) s (fun incident s' => stage s0 s' ({[id]} ∪ NX) ∅ ∅ /\ unlogged s s' /\
    spec_apply (logical (txn_graph s)) (NodeDeleted id) = Ok (logical (txn_graph s')) /\ NoDup incident /\
    forall i, i ∈ incident <-> touches (lg_edges (logical (txn_graph s0))) id i) never.
Proof.
  intros [Sh R HL HA Ha] Hr Hal Hat Hid. eapply post_weaken; [|intros ? Hx; exact Hx|eapply (remove_node_row_post s id row n _ NX); [done..|by eapply adjacent_ext; [|exact HA]; set_solver|done]].
  intros incident s' (g' & -> & Sh' & R' & HL' & HA' & Hn & Hin). split; [|split; [done|split; [|done]]].
  2: { unfold spec_apply. cbn [change_validate map_err]. rewrite (node_at_logical _ _ _ _ Hr Hat). cbn [ok_or txn_graph set_graph]. by rewrite HL'. }
  split; [done| | |eapply adjacent_ext; [|exact HA']; cbn; set_solver|done].
  - exact (same_rows_trans _ _ _ R R').
  - cbn. rewrite HL', HL. unfold with_nodes. cbn. by rewrite without_more.
Qed.
Lemma stage_remove_edge s0 s id row e NX FX EX (flag : bool) : stage s0 s NX FX EX -> edge_rows (txn_graph s) !! id = Some row -> row ∈ es_alive (edge_store (txn_graph s)) ->
  edge_at (edge_store (txn_graph s)) row = Some e ->
  post (remove_edge_row_inner id row flag) s (fun _ s' => stage s0 s' NX (if flag then {[id]} ∪ FX else FX) ({[id]} ∪ EX) /\ unlogged s s' /\
    spec_apply (logical (txn_graph s)) (EdgeDeleted id) = Ok (logical (txn_graph s'))) never.
Proof.
  intros [Sh R HL HA Ha] Hr Hal Hat. eapply post_weaken; [|intros ? Hx; exact Hx|by apply (remove_edge_row_post s id row e flag)].
  assert (He : lg_edges (logical (txn_graph s0)) !! id = Some e).
  { pose proof (edge_at_logical _ _ _ _ Hr Hat) as E. rewrite HL in E. cbn in E. by apply without_Some in E as [? _]. }
  cbn zeta. intros _ s' (g' & -> & Sh' & R' & HL' & E1 & E2 & E3). split; [|split; [done|]].
  2: { unfold spec_apply. cbn [change_validate map_err]. rewrite (edge_at_logical _ _ _ _ Hr Hat). cbn [ok_or txn_graph set_graph]. by rewrite HL'. }
  split; [done| | | |done].
  - exact (same_rows_trans _ _ _ R R').
  - cbn [txn_graph set_graph]. rewrite HL', HL. unfold with_edges. cbn. by rewrite without_more.
  - apply (adjacent_same (if flag then unlink id (e_source e) (e_target e) (txn_graph s) else txn_graph s)); [done..|]. destruct flag; [|done].
    eapply adjacent_ext; [|apply adjacent_unlink; [exact He|exact HA]]. intros n i e' _ _. cbn. set_solver.
Qed.
Lemma stage_remove_edges s0 s NX ids : stage s0 s NX ∅ ∅ -> NoDup ids -> (forall i, i ∈ ids -> is_Some (lg_edges (logical (txn_graph s0)) !! i)) ->
  post (remove_edges_from_adjacency ids) s (fun _ s' => stage s0 s' NX (list_to_set ids) ∅ /\ unlogged s s') never.
Proof.
  intros [Sh R HL HA Ha] Hn Hids. eapply post_weaken; [|intros ? Hx; exact Hx|eapply (remove_edges_post s _ NX ids); [done|by eapply adjacent_ext; [|exact HA]; set_solver|done|]].
  - intros _ s' (g' & -> & Sh' & R' & HL' & HA'). split; [|done]. split; [done| |cbn; by rewrite HL', HL| |done].
    + exact (same_rows_trans _ _ _ R R').
    + eapply adjacent_ext; [|exact HA']. intros n i e _ _. cbn. by rewrite elem_of_list_to_set.
  - intros i [e E]%Hids. exists e. split; [|done]. rewrite HL. by apply without_Some.
Qed.

(** ** Single elements *)

Lemma stage_log s0 s s' NX FX EX : stage s0 s NX FX EX -> txn_graph s' = txn_graph s -> allocator s' = allocator s -> stage s0 s' NX FX EX.
Proof. intros [A B C D E] Hg Ha. split; by rewrite ?Hg, ?Ha. Qed.
Lemma stage_meta s0 s NX FX EX : stage s0 s NX FX EX -> meta (txn_graph s) = meta (txn_graph s0).
Proof. intros St. apply (st_rows _ _ _ _ _ St). Qed.
Lemma reaches_log s0 s s' lg c : reaches s0 s -> logged s s' (txn_graph s') c -> spec_apply (logical (txn_graph s)) c = Ok lg -> logical (txn_graph s') = lg -> reaches s0 s'.
Proof. intros HR Hlog Hap HL. eapply reaches_trans; [exact HR|]. by eapply reaches_one. Qed.
Lemma stage_live_edge s0 s id e NX FX EX : stage s0 s NX FX EX -> lg_edges (logical (txn_graph s0)) !! id = Some e -> id ∉ EX ->
  exists row, require_live_edge id (txn_graph s) = Ok row /\ edge_rows (txn_graph s) !! id = Some row /\ row ∈ es_alive (edge_store (txn_graph s)) /\
    edge_at (edge_store (txn_graph s)) row = Some e.
Proof.
  intros St He Hid. destruct St as [Sh _ HL _ _]. assert (E : lg_edges (logical (txn_graph s)) !! id = Some e) by (rewrite HL; by apply without_Some).
  destruct (live_edge_spec _ id (sh_columns _ Sh)) as [(row & e' & H1 & H2 & H3 & H4 & H5 & _)|[_ ?]]; [|congruence]. exists row. rewrite E in H5. by injection H5 as <-.
Qed.

Lemma delete_one s0 s id e NX FX EX flag : stage s0 s NX FX EX -> reaches s0 s -> lg_edges (logical (txn_graph s0)) !! id = Some e -> id ∉ EX ->
  post (delete_edge_inner id true flag) s (fun _ s' => stage s0 s' NX (if flag then {[id]} ∪ FX else FX) ({[id]} ∪ EX) /\ reaches s0 s') never.
Proof.
  intros St HR He Hid. unfold delete_edge_inner. apply post_read. destruct (stage_live_edge s0 s id e NX FX EX St He Hid) as (row & -> & Hr & Hal & Hat).
  apply post_check; [intros ? [= <-]|by intros [? [=]]]. apply post_bind. eapply post_weaken; [|intros ? Hx; exact Hx|by apply (stage_remove_edge s0 s id row e NX FX EX flag)].
  intros [] s1 (St1 & [Hc Hx] & HS). unfold post, push_change. split; [by eapply stage_log|].
  eapply reaches_log; [exact HR|split_and!; [done|cbn; by rewrite Hc|exact Hx|cbn; by rewrite (stage_meta _ _ _ _ _ St1), (stage_meta _ _ _ _ _ St)|done]|exact HS|done].
Qed.

(** Every identity is kept, deleted or not. *)
Definition same_ids (s s' : WriteTxn) : Prop :=
  lg_node_ids (logical (txn_graph s')) = lg_node_ids (logical (txn_graph s)) /\ lg_edge_ids (logical (txn_graph s')) = lg_edge_ids (logical (txn_graph s)).
Lemma stage_ids s0 s NX FX EX : stage s0 s NX FX EX -> same_ids s0 s.
Proof. intros [_ _ HL _ _]. unfold same_ids. by rewrite HL. Qed.

Lemma delete_live_edge s id e : txn_ok s -> lg_edges (logical (txn_graph s)) !! id = Some e ->
  post (delete_edge id) s (fun _ s' => (txn_ok s' /\ reaches s s') /\ same_ids s s') never.
Proof.
  intros T He. unfold delete_edge. eapply post_weaken; [|intros ? Hx; exact Hx|apply (delete_one s s id e ∅ ∅ ∅ true); [by apply stage_start|apply reaches_refl|done|set_solver]].
  intros [] s' [St HR]. split; [|by eapply stage_ids]. split; [|done]. eapply stage_ok; [exact T|exact St|]. set_solver.
Qed.
Lemma delete_edge_simulates id : simulates (delete_edge id).
Proof.
  intros s T. destruct (live_edge_spec _ id (sh_columns _ (con_shape _ (ok_graph _ T)))) as [(row & e & _ & _ & _ & _ & He & _)|[[x Er] _]].
  - eapply post_weaken; [|by intros s' Hx T'; destruct (Hx T' : False)|by apply (delete_live_edge s id e)]. by intros _ s' [? _].
  - unfold delete_edge, delete_edge_inner. apply post_read. rewrite Er. apply post_check; [done|]. intros _ _. by apply kept_refl.
Qed.

Lemma cascade_post s0 s NX ids : stage s0 s NX (list_to_set ids) ∅ -> reaches s0 s -> NoDup ids -> (forall i, i ∈ ids -> is_Some (lg_edges (logical (txn_graph s0)) !! i)) ->
  post (for_each (fun i => delete_edge_inner i true false) ids) s (fun _ s' => stage s0 s' NX (list_to_set ids) (list_to_set ids) /\ reaches s0 s') never.
Proof.
  intros St HR Hn Hids. eapply post_weaken; [|intros ? Hx; exact Hx|].
  2: { apply (post_for_each _ (fun l s' => exists done, ids = done ++ l /\ stage s0 s' NX (list_to_set ids) (list_to_set done) /\ reaches s0 s')).
    - by exists [].
    - intros i l s' (done & E & St' & HR'). destruct (Hids i) as [e He]; [rewrite E; set_solver|].
      assert (Hi : i ∉ (list_to_set done : gset Z)).
      { rewrite elem_of_list_to_set. rewrite E in Hn. apply NoDup_app in Hn as (_ & Hd & _). intros Hi. apply (Hd i Hi). by left. }
      eapply post_weaken; [|intros ? Hx; exact Hx|by apply (delete_one s0 s' i e NX (list_to_set ids) (list_to_set done) false)]. intros _ s2 [St2 HR2]. exists (done ++ [i]).
      split; [by rewrite <- app_assoc|]. split; [|done]. rewrite list_to_set_app_L. cbn. by rewrite union_empty_r_L, (union_comm_L (list_to_set done)). }
  cbn. intros _ s' (done & E & St' & HR'). rewrite app_nil_r in E. by subst done.
Qed.

Lemma delete_live_node s id n : txn_ok s -> lg_nodes (logical (txn_graph s)) !! id = Some n ->
  post (delete_node id) s (fun _ s' => (txn_ok s' /\ reaches s s') /\ same_ids s s') never.
Proof.
  intros T Hn. pose proof (sh_columns _ (con_shape _ (ok_graph _ T))) as C. unfold delete_node. apply post_read.
  destruct (live_node_spec _ id C) as [(row & n' & -> & Hr & Ha & Hat & _)|[_ ?]]; [|congruence].
  apply post_check; [intros ? [= <-]|by intros [? [=]]].
  apply post_bind. eapply post_weaken; [|intros ? Hx; exact Hx|apply (stage_remove_node s s id row n' ∅); [by apply stage_start|done..|set_solver]].
  intros incident s1 (St1 & [Hc1 Hx1] & _ & Hnd & Hin). apply post_bind.
  assert (Hids : forall i, i ∈ incident -> is_Some (lg_edges (logical (txn_graph s)) !! i)) by (intros i (e & E & _)%Hin; by exists e).
  eapply post_weaken; [|intros ? Hx; exact Hx|by apply (stage_remove_edges s s1 ({[id]} ∪ ∅) incident)]. intros _ s2 [St2 [Hc2 Hx2]]. apply post_bind. unfold post at 1, push_change.
  eapply post_weaken; [|intros ? Hx; exact Hx|apply (cascade_post s _ ({[id]} ∪ ∅) incident); [by eapply stage_log|eapply reaches_one; [split_and!; [reflexivity|cbn; by rewrite Hc2, Hc1|cbn; by rewrite Hx2, Hx1|exact (stage_meta _ _ _ _ _ St2)|done]|exact (st_logical _ _ _ _ _ St2)|]|done..]].
  - intros _ s3 [St3 HR3]. split; [|by eapply stage_ids]. split; [|done]. eapply stage_ok; [exact T|exact St3|]. intros n2 i Hn2 Ht. rewrite union_empty_r_L in Hn2.
    apply elem_of_singleton in Hn2 as ->. apply elem_of_list_to_set. by apply Hin.
  - unfold spec_apply. cbn [change_validate map_err]. rewrite Hn. cbn [ok_or]. unfold with_nodes. cbn. by rewrite without_more, !without_nothing.
Qed.
Lemma delete_node_simulates id : simulates (delete_node id).
Proof.
  intros s T. destruct (live_node_spec _ id (sh_columns _ (con_shape _ (ok_graph _ T)))) as [(row & n & _ & _ & _ & _ & Hn & _)|[[x Er] _]].
  - eapply post_weaken; [|by intros s' Hx T'; destruct (Hx T' : False)|by apply (delete_live_node s id n)]. by intros _ s' [? _].
  - unfold delete_node. apply post_read. rewrite Er. apply post_check; [done|]. intros _ _. by apply kept_refl.
Qed.

(** ** Sets of elements *)

Lemma node_can_be_deleted_spec g id : columns_ok g ->
  (id ∈ lg_node_ids (logical g) /\ node_can_be_deleted id g = Ok (bool_decide (is_Some (lg_nodes (logical g) !! id)))) \/ exists e, node_can_be_deleted id g = Err e /\ id ∉ lg_node_ids (logical g).
Proof.
  intros [N _]. unfold node_can_be_deleted, node_row_for_id. cbn [logical lg_node_ids lg_nodes]. rewrite lookup_omap.
  destruct (node_rows g !! id) as [row|] eqn:Hr; cbn [ok_or]; [left|right; eexists; split; [done|by apply not_elem_of_dom]]. split; [by apply elem_of_dom|].
  pose proof (row_range (no_rows _ _ N) id row Hr). rewrite (proj2 (Nat.ltb_lt _ _)) by lia. cbn [negb mbind option_bind]. f_equal.
  destruct (decide (row ∈ ns_alive (node_store g))) as [Ha|Ha].
  - rewrite (proj2 (alive_spec _ _) Ha). destruct (node_at_alive _ _ N row Ha) as (l & p & _ & _ & ->). by rewrite bool_decide_true by (by eexists).
  - unfold node_at. destruct (ns_is_alive_row row (node_store g)) eqn:Eal; [by apply alive_spec in Eal|]. by rewrite bool_decide_false by apply is_Some_None.
Qed.
Lemma edge_can_be_deleted_spec g id : columns_ok g ->
  (id ∈ lg_edge_ids (logical g) /\ edge_can_be_deleted id g = Ok (bool_decide (is_Some (lg_edges (logical g) !! id)))) \/ exists e, edge_can_be_deleted id g = Err e /\ id ∉ lg_edge_ids (logical g).
Proof.
  intros [_ N]. unfold edge_can_be_deleted, edge_row_for_id. cbn [logical lg_edge_ids lg_edges]. rewrite lookup_omap.
  destruct (edge_rows g !! id) as [row|] eqn:Hr; cbn [ok_or]; [left|right; eexists; split; [done|by apply not_elem_of_dom]]. split; [by apply elem_of_dom|].
  pose proof (row_range (eo_rows _ _ N) id row Hr). rewrite (proj2 (Nat.ltb_lt _ _)) by lia. cbn [negb mbind option_bind]. f_equal.
  destruct (decide (row ∈ es_alive (edge_store g))) as [Ha|Ha].
  - rewrite (proj2 (edge_alive_spec _ _) Ha). destruct (edge_at_alive _ _ N row Ha) as (e & _ & ->). by rewrite bool_decide_true by (by eexists).
  - unfold edge_at. destruct (es_is_alive_row row (edge_store g)) eqn:Eal; [by apply edge_alive_spec in Eal|]. by rewrite bool_decide_false by apply is_Some_None.
Qed.

(** Validation writes nothing and admits identities that are bound. *)
Lemma validated_nodes s ids : txn_ok s -> post (for_each (fun id => bind read (fun g => bind (check (node_can_be_deleted id g)) (fun _ => ret tt))) ids) s
  (fun _ s' => s' = s /\ forall id, id ∈ ids -> id ∈ lg_node_ids (logical (txn_graph s))) (fun s' => s' = s).
Proof.
  intros T. eapply post_weaken; [|intros ? Hx; exact Hx|apply (post_for_each _ (fun l s' => s' = s /\ forall id, id ∈ ids -> id ∈ l \/ id ∈ lg_node_ids (logical (txn_graph s)))); [auto|]].
  - intros _ s' [-> HI]. split; [done|]. intros id [Hid|Hid]%HI; [by apply elem_of_nil in Hid|done].
  - intros id l s' [-> HI]. apply post_read. apply post_check; [|by intros _]. intros b Hb. apply post_ret. split; [done|]. intros i [[->|Hl]%elem_of_cons|Hi]%HI; [|by left|by right].
    right. destruct (node_can_be_deleted_spec (txn_graph s) id (sh_columns _ (con_shape _ (ok_graph _ T)))) as [[? _]|(? & ? & _)]; [done|congruence].
Qed.
Lemma validated_edges s ids : txn_ok s -> post (for_each (fun id => bind read (fun g => bind (check (edge_can_be_deleted id g)) (fun _ => ret tt))) ids) s
  (fun _ s' => s' = s /\ forall id, id ∈ ids -> id ∈ lg_edge_ids (logical (txn_graph s))) (fun s' => s' = s).
Proof.
  intros T. eapply post_weaken; [|intros ? Hx; exact Hx|apply (post_for_each _ (fun l s' => s' = s /\ forall id, id ∈ ids -> id ∈ l \/ id ∈ lg_edge_ids (logical (txn_graph s)))); [auto|]].
  - intros _ s' [-> HI]. split; [done|]. intros id [Hid|Hid]%HI; [by apply elem_of_nil in Hid|done].
  - intros id l s' [-> HI]. apply post_read. apply post_check; [|by intros _]. intros b Hb. apply post_ret. split; [done|]. intros i [[->|Hl]%elem_of_cons|Hi]%HI; [|by left|by right].
    right. destruct (edge_can_be_deleted_spec (txn_graph s) id (sh_columns _ (con_shape _ (ok_graph _ T)))) as [[? _]|(? & ? & _)]; [done|congruence].
Qed.

(** A loop of deletions that each succeed. *)
Lemma deletions s (f : Z -> M unit) ids : txn_ok s ->
  (forall id s', id ∈ ids -> txn_ok s' -> same_ids s s' -> post (f id) s' (fun _ s2 => (txn_ok s2 /\ reaches s' s2) /\ same_ids s' s2) never) ->
  post (for_each f ids) s (fun _ s' => (txn_ok s' /\ reaches s s') /\ same_ids s s') never.
Proof.
  intros T Hf. eapply post_weaken; [|intros ? Hx; exact Hx|apply (post_for_each _ (fun l s' => ((txn_ok s' /\ reaches s s') /\ same_ids s s') /\ forall id, id ∈ l -> id ∈ ids))]; [by intros _ s' [? _]| |].
  - split; [|done]. split; [split; [done|apply reaches_refl]|done].
  - intros id l s' [[[T' HR] HS] Hl]. eapply post_weaken; [|intros ? Hx; exact Hx|apply Hf; [apply Hl; by left|done..]]. cbn. intros _ s2 [[T2 HR2] [S1 S2]]. split.
    + split; [split; [done|by eapply reaches_trans]|]. destruct HS. split; congruence.
    + intros i Hi. apply Hl. by right.
Qed.

Lemma delete_elements_simulates nodes edges : simulates (delete_elements nodes edges).
Proof.
  intros s T. assert (K : forall s', s' = s -> total_indexes -> kept s s') by (intros s' -> _; by apply kept_refl). unfold delete_elements.
  apply post_bind. eapply post_weaken; [|exact K|by apply validated_nodes]. intros _ s1 [-> HN].
  apply post_bind. eapply post_weaken; [|exact K|by apply validated_edges]. intros _ s1 [-> HE].
  eapply post_weaken; [intros a s' Hs; exact Hs|by intros s' Hx T'; destruct (Hx T' : False)|]. apply post_bind.
  eapply post_weaken; [|intros ? Hx; exact Hx|apply deletions; [done|]].
  2: { intros id s' Hid T' [S1 _]. apply post_read. destruct (node_can_be_deleted_spec (txn_graph s') id (sh_columns _ (con_shape _ (ok_graph _ T')))) as [[_ ->]|(e & _ & Hx)].
    2: { rewrite S1 in Hx. by destruct (Hx (HN id Hid)). }
    apply post_check; [intros ? [= <-]|by intros [? [=]]]. case_bool_decide as Hb; [destruct Hb as [n Hn]; by apply (delete_live_node s' id n)|].
    apply post_ret. split; [split; [done|apply reaches_refl]|done]. }
  intros _ s1 [[T1 HR1] [_ S1]]. eapply post_weaken; [|intros ? Hx; exact Hx|apply deletions; [done|]].
  2: { intros id s' Hid T' [_ S2]. apply post_read. destruct (edge_can_be_deleted_spec (txn_graph s') id (sh_columns _ (con_shape _ (ok_graph _ T')))) as [[_ ->]|(e & _ & Hx)].
    2: { rewrite S2, S1 in Hx. by destruct (Hx (HE id Hid)). }
    apply post_check; [intros ? [= <-]|by intros [? [=]]]. case_bool_decide as Hb; [destruct Hb as [n Hn]; by apply (delete_live_edge s' id n)|].
    apply post_ret. split; [split; [done|apply reaches_refl]|done]. }
  intros _ s2 [[T2 HR2] _]. split; [done|by eapply reaches_trans].
Qed.
End DeleteProps.
