(* ===== verification/TruncateProps.v ===== *)
(** Truncation and factory reset: the rows of a label bitmap, or all of them, are
    removed one by one, and the single change in the log means the same. *)

From stdpp Require Import sorting.
From S2P Require Import Prelude Errors Wire Value Ordered LabelSet PropertyMap GraphDelta Columns GraphTypes Store Derived Candidates TypeValidator Fanout GraphApply GraphApplyProps Mutator Consistent MutatorProps DeleteProps.

Section TruncateProps.
Context `{L : Leaves} {GE : GraphEnv} {TO : TypeOps} {EN : Engine} {LE : LegacyEvents} {LC : LegacyChecks}.
Abbreviation M A := (method WriteTxn (fault GraphError) A).
Abbreviation never := (fun _ : WriteTxn => total_indexes -> False).

(** ** Rows and identities *)

Definition live_node_at (g : SeleneGraph) (row : Z) : Prop := exists id n, node_rows g !! id = Some row /\ lg_nodes (logical g) !! id = Some n.
Definition live_edge_at (g : SeleneGraph) (row : Z) : Prop := exists id e, edge_rows g !! id = Some row /\ lg_edges (logical g) !! id = Some e.
(** [X] holds the identities of the rows [l]. *)
Definition ids_at (rows : gmap Z Z) (l : list Z) (X : gset Z) : Prop := forall id, id ∈ X <-> exists row, row ∈ l /\ rows !! id = Some row.

Lemma alive_node_at g row : columns_ok g -> row ∈ ns_alive (node_store g) -> live_node_at g row.
Proof.
  intros [N _] Ha. pose proof (node_range _ _ N row Ha) as Hr. destruct (row_id (no_rows _ _ N) row Hr) as (id & _ & Hid). destruct (node_at_alive _ _ N row Ha) as (l & p & _ & _ & E).
  eexists id, _. split; [done|]. by eapply node_at_logical.
Qed.
Lemma alive_edge_at g row : columns_ok g -> row ∈ es_alive (edge_store g) -> live_edge_at g row.
Proof.
  intros [_ N] Ha. pose proof (edge_range _ _ N row Ha) as Hr. destruct (row_id (eo_rows _ _ N) row Hr) as (id & _ & Hid). destruct (edge_at_alive _ _ N row Ha) as (e & _ & E).
  exists id, e. split; [done|]. by eapply edge_at_logical.
Qed.
Lemma ids_at_snoc rows l row id X : (forall id' , rows !! id' = Some row -> id' = id) -> rows !! id = Some row -> ids_at rows l X -> ids_at rows (l ++ [row]) ({[id]} ∪ X).
Proof.
  intros Hinj Hid HX i. rewrite elem_of_union, elem_of_singleton, (HX i). setoid_rewrite elem_of_app. setoid_rewrite list_elem_of_singleton. split.
  - intros [->|(r & Hr & E)]; [by exists row; auto|]. exists r. auto.
  - intros (r & [Hr| ->] & E); [right; by exists r|left; auto].
Qed.

Lemma node_step s0 s NX done row : stage s0 s NX ∅ ∅ -> ids_at (node_rows (txn_graph s0)) done NX -> row ∉ done -> live_node_at (txn_graph s0) row ->
  exists id, ns_is_alive_row row (node_store (txn_graph s)) = true /\ node_id_for_node_row row (txn_graph s) = Some id /\
    post (remove_node_row id row) s (fun incident s' => stage s0 s' ({[id]} ∪ NX) ∅ ∅ /\ ids_at (node_rows (txn_graph s0)) (done ++ [row]) ({[id]} ∪ NX) /\ unlogged s s' /\
      spec_apply (logical (txn_graph s)) (NodeDeleted id) = Ok (logical (txn_graph s')) /\ NoDup incident /\ forall i, i ∈ incident <-> touches (lg_edges (logical (txn_graph s0))) id i) never.
Proof.
  intros St HX Hrow (id & n & Hid & Hn). pose proof (proj1 (sh_columns _ (st_shape _ _ _ _ _ St))) as N. pose proof (proj1 (st_rows _ _ _ _ _ St)) as R.
  assert (Hi : id ∉ NX) by (intros (r & Hr & E)%HX; congruence). destruct (stage_node s0 s id n NX ∅ ∅ St Hn Hi) as (row' & Hr' & Ha & Hat).
  rewrite R, Hid in Hr'. injection Hr' as <-. exists id. split; [by apply alive_spec|]. split; [eapply bound_id; [apply N|by rewrite R]|].
  eapply post_weaken; [|intros ? Hx; exact Hx|apply (stage_remove_node s0 s id row n NX); [done|by rewrite R|done..]].
  intros incident s' (St' & HU & HS & Hnd & Hin). split; [done|]. split; [|done]. apply ids_at_snoc; [|done..]. intros id' Hid'. rewrite <- R in Hid, Hid'. by apply (row_inj (no_rows _ _ N) id id' row).
Qed.
Lemma edge_step s0 s NX FX EX done row : stage s0 s NX FX EX -> ids_at (edge_rows (txn_graph s0)) done EX -> row ∉ done -> live_edge_at (txn_graph s0) row ->
  exists id, es_is_alive_row row (edge_store (txn_graph s)) = true /\ edge_id_for_edge_row row (txn_graph s) = Some id /\
    post (remove_edge_row id row) s (fun _ s' => stage s0 s' NX ({[id]} ∪ FX) ({[id]} ∪ EX) /\ ids_at (edge_rows (txn_graph s0)) (done ++ [row]) ({[id]} ∪ EX) /\ unlogged s s' /\
      spec_apply (logical (txn_graph s)) (EdgeDeleted id) = Ok (logical (txn_graph s'))) never.
Proof.
  intros St HX Hrow (id & e & Hid & He). pose proof (proj2 (sh_columns _ (st_shape _ _ _ _ _ St))) as N. pose proof (proj1 (proj2 (st_rows _ _ _ _ _ St))) as R.
  assert (Hi : id ∉ EX) by (intros (r & Hr & E)%HX; congruence). destruct (stage_edge s0 s id e NX FX EX St He Hi) as (row' & Hr' & Ha & Hat).
  rewrite R, Hid in Hr'. injection Hr' as <-. exists id. split; [by apply edge_alive_spec|]. split; [eapply bound_id; [apply N|by rewrite R]|].
  eapply post_weaken; [|intros ? Hx; exact Hx|apply (stage_remove_edge s0 s id row e NX FX EX true); [done|by rewrite R|done..]].
  intros _ s' (St' & HU & HS). split; [done|]. split; [|done]. apply ids_at_snoc; [|done..]. intros id' Hid'. rewrite <- R in Hid, Hid'. by apply (row_inj (eo_rows _ _ N) id id' row).
Qed.

(** ** Loops *)

Lemma unlogged_trans s1 s2 s3 : unlogged s1 s2 -> unlogged s2 s3 -> unlogged s1 s3.
Proof. intros [A B] [C D]. split; congruence. Qed.
Lemma not_before {A} (done l : list A) x : NoDup (done ++ x :: l) -> x ∉ done.
Proof. intros (_ & Hd & _)%NoDup_app Hx. apply (Hd x Hx). by left. Qed.
Lemma snoc_eq {A} (done l : list A) x rows : rows = done ++ x :: l -> rows = (done ++ [x]) ++ l.
Proof. intros ->. by rewrite <- app_assoc. Qed.

(** The tombstones so far mean what has happened. *)
Definition expands (s0 s : WriteTxn) (x : list Change) : Prop := spec_apply_all (logical (txn_graph s0)) x = Ok (logical (txn_graph s)) /\ plain x.
Lemma expands_start s : expands s s [].
Proof. by split; [|constructor]. Qed.
Lemma expands_snoc s0 s s' x c : expands s0 s x -> spec_apply (logical (txn_graph s)) c = Ok (logical (txn_graph s')) -> declarative c = false -> expands s0 s' (x ++ [c]).
Proof. unfold expands. intros [HX HP] HS Hc. split; [|by apply Forall_app; split; [|apply Forall_singleton]]. rewrite spec_apply_app, HX. cbn. by rewrite HS. Qed.

Lemma edge_rows_post s0 s NX rows expansion : stage s0 s NX ∅ ∅ -> expands s0 s expansion -> NoDup rows -> (forall row, row ∈ rows -> live_edge_at (txn_graph s0) row) ->
  post (fold_m truncate_edge_row expansion rows) s (fun expansion' s' => exists EX, stage s0 s' NX EX EX /\ ids_at (edge_rows (txn_graph s0)) rows EX /\ unlogged s s' /\
    expands s0 s' expansion' /\ length expansion' = (length expansion + length rows)%nat) never.
Proof.
  intros St HE0 Hn Hlive. eapply post_weaken; [|intros ? Hx; exact Hx|].
  2: { apply (post_fold _ (fun l x s' => exists done EX, rows = done ++ l /\ stage s0 s' NX EX EX /\ ids_at (edge_rows (txn_graph s0)) done EX /\ unlogged s s' /\
         expands s0 s' x /\ length x = (length expansion + length done)%nat)).
    - exists [], ∅. split; [done|]. split; [done|]. split; [intros id; set_solver|]. split; [done|]. split; [done|cbn; lia].
    - intros row l x s' (done & EX & E & St' & HX & HU & HE' & Hlen). unfold truncate_edge_row. apply post_read.
      destruct (edge_step s0 s' NX EX EX done row St' HX) as (id & -> & -> & HP); [by eapply not_before; rewrite <- E|apply Hlive; rewrite E; set_solver|].
      cbn [negb]. apply post_bind. eapply post_weaken; [|intros ? Hx; exact Hx|exact HP]. intros _ s2 (St2 & HX2 & HU2 & HS2). apply post_ret. exists (done ++ [row]), ({[id]} ∪ EX).
      split; [by apply snoc_eq|]. split; [done|]. split; [done|]. split; [by eapply unlogged_trans|]. split; [by eapply expands_snoc|]. rewrite !length_app. cbn. lia. }
  cbn. intros x s' (done & EX & E & St' & HX & HU & Hlen). rewrite app_nil_r in E. subst done. by exists EX.
Qed.

Lemma matched_post s0 s rows : stage s0 s ∅ ∅ ∅ -> expands s0 s [] -> NoDup rows -> (forall row, row ∈ rows -> live_node_at (txn_graph s0) row) ->
  post (fold_m truncate_matched ([], ∅) rows) s (fun p s' => exists NX, stage s0 s' NX ∅ ∅ /\ ids_at (node_rows (txn_graph s0)) rows NX /\ unlogged s s' /\
    expands s0 s' (fst p) /\ length (fst p) = length rows /\ forall i, i ∈ snd p <-> exists n, n ∈ NX /\ touches (lg_edges (logical (txn_graph s0))) n i) never.
Proof.
  intros St HE0 Hn Hlive. eapply post_weaken; [|intros ? Hx; exact Hx|].
  2: { apply (post_fold _ (fun l p s' => exists done NX, rows = done ++ l /\ stage s0 s' NX ∅ ∅ /\ ids_at (node_rows (txn_graph s0)) done NX /\ unlogged s s' /\
         expands s0 s' (fst p) /\ length (fst p) = length done /\ forall i, i ∈ snd p <-> exists n, n ∈ NX /\ touches (lg_edges (logical (txn_graph s0))) n i)).
    - exists [], ∅. split; [done|]. split; [done|]. split; [intros id; set_solver|]. split; [done|]. split; [done|]. split; [done|]. intros i. cbn. set_solver.
    - intros row l [x inc] s' (done & NX & E & St' & HX & HU & HE' & Hlen & Hinc). unfold truncate_matched. apply post_read.
      destruct (node_step s0 s' NX done row St' HX) as (id & -> & -> & HP); [by eapply not_before; rewrite <- E|apply Hlive; rewrite E; set_solver|].
      cbn [negb]. apply post_bind. eapply post_weaken; [|intros ? Hx; exact Hx|exact HP]. intros incident s2 (St2 & HX2 & HU2 & HS2 & Hnd & Hin). apply post_ret. exists (done ++ [row]), ({[id]} ∪ NX).
      split; [by apply snoc_eq|]. split; [done|]. split; [done|]. split; [by eapply unlogged_trans|]. cbn [fst snd] in *. split; [by eapply expands_snoc|]. split; [rewrite !length_app; cbn; lia|].
      intros i. rewrite elem_of_union, elem_of_list_to_set, Hin, Hinc. setoid_rewrite elem_of_union. setoid_rewrite elem_of_singleton. naive_solver. }
  cbn. intros p s' (done & NX & E & St' & HX & HU & Hlen). rewrite app_nil_r in E. subst done. by exists NX.
Qed.

Lemma reset_post s0 s rows : stage s0 s ∅ ∅ ∅ -> expands s0 s [] -> NoDup rows -> (forall row, row ∈ rows -> live_node_at (txn_graph s0) row) ->
  post (fold_m reset_node_row [] rows) s (fun x s' => exists NX, stage s0 s' NX ∅ ∅ /\ ids_at (node_rows (txn_graph s0)) rows NX /\ unlogged s s' /\ expands s0 s' x) never.
Proof.
  intros St HE0 Hn Hlive. eapply post_weaken; [|intros ? Hx; exact Hx|].
  2: { apply (post_fold _ (fun l x s' => exists done NX, rows = done ++ l /\ stage s0 s' NX ∅ ∅ /\ ids_at (node_rows (txn_graph s0)) done NX /\ unlogged s s' /\ expands s0 s' x)).
    - exists [], ∅. split; [done|]. split; [done|]. split; [intros id; set_solver|done].
    - intros row l x s' (done & NX & E & St' & HX & HU & HE'). unfold reset_node_row. apply post_read.
      destruct (node_step s0 s' NX done row St' HX) as (id & _ & -> & HP); [by eapply not_before; rewrite <- E|apply Hlive; rewrite E; set_solver|].
      apply post_bind. eapply post_weaken; [|intros ? Hx; exact Hx|exact HP]. intros incident s2 (St2 & HX2 & HU2 & HS2 & _). apply post_ret. exists (done ++ [row]), ({[id]} ∪ NX).
      split; [by apply snoc_eq|]. split; [done|]. split; [done|]. split; [by eapply unlogged_trans|]. by eapply expands_snoc. }
  cbn. intros x s' (done & NX & E & St' & HX & HU). rewrite app_nil_r in E. subst done. by exists NX.
Qed.

Lemma truncate_cascade_post s0 s NX ids expansion : stage s0 s NX (list_to_set ids) ∅ -> expands s0 s expansion -> NoDup ids -> (forall i, i ∈ ids -> is_Some (lg_edges (logical (txn_graph s0)) !! i)) ->
  post (fold_m truncate_cascade expansion ids) s (fun x s' => stage s0 s' NX (list_to_set ids) (list_to_set ids) /\ unlogged s s' /\ expands s0 s' x) never.
Proof.
  intros St HE0 Hn Hids. eapply post_weaken; [|intros ? Hx; exact Hx|].
  2: { apply (post_fold _ (fun l x s' => exists done, ids = done ++ l /\ stage s0 s' NX (list_to_set ids) (list_to_set done) /\ unlogged s s' /\ expands s0 s' x)).
    - by exists [].
    - intros i l x s' (done & E & St' & HU & HE'). destruct (Hids i) as [e He]; [rewrite E; set_solver|].
      assert (Hi : i ∉ (list_to_set done : gset Z)) by (rewrite elem_of_list_to_set; eapply not_before; by rewrite <- E).
      unfold truncate_cascade. apply post_read. destruct (stage_edge s0 s' i e NX (list_to_set ids) (list_to_set done) St' He Hi) as (row & Hr & Ha & Hat). unfold edge_row_for_id. rewrite Hr.
      apply post_check; [intros ? [= <-]|by intros [? [=]]]. rewrite (proj2 (edge_alive_spec _ _) Ha). apply post_bind.
      eapply post_weaken; [|intros ? Hx; exact Hx|by apply (stage_remove_edge s0 s' i row e NX (list_to_set ids) (list_to_set done) false)]. intros _ s2 (St2 & HU2 & HS2). apply post_ret.
      exists (done ++ [i]). split; [by apply snoc_eq|]. split; [|split; [by eapply unlogged_trans|by eapply expands_snoc]]. rewrite list_to_set_app_L. cbn. by rewrite union_empty_r_L, (union_comm_L (list_to_set done)). }
  cbn. intros x s' (done & E & St' & HU). rewrite app_nil_r in E. by subst done.
Qed.

(** ** Calls *)

Lemma has_label_elem label n : sorted_names (n_labels n) -> has_label label n = true <-> label ∈ n_labels n.
Proof.
  intros Hs. pose proof (LabelSet.search_elem (n_labels n) _ label (conj Hs eq_refl)) as HE. rewrite elem_of_list_to_set in HE. rewrite <- HE. unfold has_label, LabelSet.contains.
  destruct (search _ label (n_labels n)); cbn; naive_solver.
Qed.

(** The rows of a bitmap and the elements that carry its label. *)
Lemma node_label_at g label id n row : columns_ok g -> lg_nodes (logical g) !! id = Some n -> node_rows g !! id = Some row ->
  node_label (node_store g) label row <-> label ∈ n_labels n.
Proof.
  intros [N _] Hn Hr. destruct (live_row_node g id n N Hn) as (row' & Hr' & _ & Hat). rewrite Hr in Hr'. injection Hr' as <-. unfold node_label. rewrite Hat. naive_solver.
Qed.
Lemma edge_label_row g label id e row : columns_ok g -> lg_edges (logical g) !! id = Some e -> edge_rows g !! id = Some row ->
  edge_label_at (edge_store g) label row <-> e_label e = label.
Proof.
  intros [_ N] Hn Hr. destruct (live_row_edge g id e N Hn) as (row' & Hr' & _ & Hat & _). rewrite Hr in Hr'. injection Hr' as <-. unfold edge_label_at. rewrite Hat. naive_solver.
Qed.
Lemma node_label_alive s label row : node_label s label row -> row ∈ ns_alive s.
Proof. intros (n & E & _). unfold node_at in E. destruct (ns_is_alive_row row s) eqn:Ea; [by apply alive_spec|done]. Qed.
Lemma edge_label_alive s label row : edge_label_at s label row -> row ∈ es_alive s.
Proof. intros (n & E & _). unfold edge_at in E. destruct (es_is_alive_row row s) eqn:Ea; [by apply edge_alive_spec|done]. Qed.
Lemma ids_at_node g rows X id n : columns_ok g -> ids_at (node_rows g) rows X -> lg_nodes (logical g) !! id = Some n ->
  exists row, node_rows g !! id = Some row /\ row ∈ ns_alive (node_store g) /\ (id ∈ X <-> row ∈ rows).
Proof.
  intros [N _] HX Hn. destruct (live_row_node g id n N Hn) as (row & Hr & Ha & _). exists row. split; [done|]. split; [done|]. rewrite (HX id). naive_solver.
Qed.
Lemma ids_at_edge g rows X id e : columns_ok g -> ids_at (edge_rows g) rows X -> lg_edges (logical g) !! id = Some e ->
  exists row, edge_rows g !! id = Some row /\ row ∈ es_alive (edge_store g) /\ (id ∈ X <-> row ∈ rows).
Proof.
  intros [_ N] HX Hn. destruct (live_row_edge g id e N Hn) as (row & Hr & Ha & _). exists row. split; [done|]. split; [done|]. rewrite (HX id). naive_solver.
Qed.

(** A stage whose log gains one declarative change. *)
Lemma stage_logged s s1 s' NX EX c lg x m : txn_ok s -> stage s s1 NX EX EX -> unlogged s s1 -> expands s s1 x ->
  txn_graph s' = set_meta m (txn_graph s1) -> bound_kept (txn_graph s) (txn_graph s') -> allocator s' = allocator s1 ->
  changes s' = changes s1 ++ [c] -> truncate_expansions s' = truncate_expansions s1 ++ [(length (changes s1), x)] -> declarative c = true ->
  (forall n i, n ∈ NX -> touches (lg_edges (logical (txn_graph s))) n i -> i ∈ EX) -> spec_apply (logical (txn_graph s)) c = Ok lg ->
  without (lg_nodes (logical (txn_graph s))) NX = lg_nodes lg -> without (lg_edges (logical (txn_graph s))) EX = lg_edges lg ->
  lg_node_ids lg = lg_node_ids (logical (txn_graph s)) -> lg_edge_ids lg = lg_edge_ids (logical (txn_graph s)) -> txn_ok s' /\ reaches s s'.
Proof.
  intros T St [Hc Hx] [HX HP] Hg Hb Ha Hch Hex Hd Ht HS E1 E2 E3 E4. assert (T1 : txn_ok s1) by (by eapply stage_ok).
  assert (EL : logical (txn_graph s1) = lg) by (rewrite (st_logical _ _ _ _ _ St), E1, E2, <- E3, <- E4; apply logical_eta). split.
  - destruct T1 as [G1 N1 X1 [A1 B1]]. eapply (txn_ok_intro s' _ (logical (txn_graph s1))); [exact Hg|done|by apply consistent_meta|by rewrite Ha..].
  - rewrite Hc in Hex. eapply (reaches_declared s s' lg c x); [by rewrite Hch, Hc|by rewrite Hex, Hx|done|done|by rewrite Hg|done|by rewrite <- EL|done].
Qed.
Lemma set_meta_same g : g = set_meta (meta g) g.
Proof. by destruct g. Qed.
Lemma stage_bound s s1 s' NX FX EX : stage s s1 NX FX EX -> txn_graph s' = txn_graph s1 -> bound_kept (txn_graph s) (txn_graph s').
Proof. intros St Hg. apply bound_kept_refl. rewrite Hg. by apply (stage_meta _ _ _ _ _ St). Qed.

Lemma truncate_edge_type_simulates label : simulates (truncate_edge_type label).
Proof.
  intros s T. pose proof (con_shape _ (ok_graph _ T)) as Sh. pose proof (sh_columns _ Sh) as C. pose proof (bitmaps_at _ _ label (sh_edge_labels _ Sh)) as HB.
  unfold truncate_edge_type. apply post_read. destruct (idx_edge_label (txn_graph s) !! label) as [bitmap|]; [|apply post_ret; split; [done|apply reaches_refl]].
  cbn [default] in HB. destruct (rows_of_spec bitmap) as [Hnd Hrows]. case_bool_decide as Hb; [apply post_ret; split; [done|apply reaches_refl]|].
  eapply post_weaken; [intros a s' Hs; exact Hs|by intros s' Hx T'; destruct (Hx T' : False)|]. apply post_bind.
  eapply post_weaken; [|intros ? Hx; exact Hx|apply (edge_rows_post s s ∅ (rows_of bitmap) []); [by apply stage_start|apply expands_start|done|]].
  2: { intros row Hr%Hrows%HB. by apply alive_edge_at, (edge_label_alive _ label). }
  intros expansion s1 (EX & St & HX & HU & HE & Hlen). rewrite bool_decide_false by (rewrite Hlen; cbn; by destruct (rows_of bitmap)).
  unfold post, push_declarative. eapply (stage_logged s s1); [done|exact St|done|exact HE|apply set_meta_same|by eapply stage_bound|done|done|done|done|set_solver|reflexivity|by rewrite without_nothing| |done..].
  cbn [with_edges lg_edges]. apply map_filter_ext. intros id e He. cbn. destruct (ids_at_edge _ _ _ id e C HX He) as (row & Hr & _ & ->).
  by rewrite Hrows, HB, (edge_label_row _ label id e row C He Hr).
Qed.

Lemma truncate_node_type_simulates label : simulates (truncate_node_type label).
Proof.
  intros s T. pose proof (con_shape _ (ok_graph _ T)) as Sh. pose proof (sh_columns _ Sh) as C. pose proof (bitmaps_at _ _ label (sh_labels _ Sh)) as HB.
  unfold truncate_node_type. apply post_read. destruct (idx_label (txn_graph s) !! label) as [bitmap|]; [|apply post_ret; split; [done|apply reaches_refl]].
  cbn [default] in HB. destruct (rows_of_spec bitmap) as [Hnd Hrows]. case_bool_decide as Hb; [apply post_ret; split; [done|apply reaches_refl]|].
  eapply post_weaken; [intros a s' Hs; exact Hs|by intros s' Hx T'; destruct (Hx T' : False)|]. apply post_bind.
  eapply post_weaken; [|intros ? Hx; exact Hx|apply (matched_post s s (rows_of bitmap)); [by apply stage_start|apply expands_start|done|]].
  2: { intros row Hr%Hrows%HB. by apply alive_node_at, (node_label_alive _ label). }
  intros [tombstones incident] s1 (NX & St & HX & HU & HE1 & Hlen & Hinc). cbn [fst snd] in *.
  rewrite bool_decide_false by (rewrite Hlen; by destruct (rows_of bitmap)). destruct (rows_of_spec incident) as [Hnd' Hrows'].
  assert (Hids : forall i, i ∈ rows_of incident -> is_Some (lg_edges (logical (txn_graph s)) !! i)) by (intros i (n & _ & e & E & _)%Hrows'%Hinc; by exists e).
  apply post_bind. eapply post_weaken; [|intros ? Hx; exact Hx|by apply (stage_remove_edges s s1 NX (rows_of incident))]. intros _ s2 [St2 HU2]. apply post_bind.
  assert (HL2 : logical (txn_graph s1) = logical (txn_graph s2)) by (by rewrite (st_logical _ _ _ _ _ St), (st_logical _ _ _ _ _ St2)).
  eapply post_weaken; [|intros ? Hx; exact Hx|apply (truncate_cascade_post s s2 NX (rows_of incident) tombstones); [done|unfold expands in *; by rewrite <- HL2|done..]]. intros expansion s3 (St3 & HU3 & HE3).
  assert (HNX : forall id n, lg_nodes (logical (txn_graph s)) !! id = Some n -> id ∈ NX <-> has_label label n = true).
  { intros id n Hn. destruct (ids_at_node _ _ _ id n C HX Hn) as (row & Hr & _ & ->). rewrite Hrows, HB, (node_label_at _ label id n row C Hn Hr).
    symmetry. apply has_label_elem. destruct (live_row_node _ id n (proj1 C) Hn) as (r & _ & _ & Hat). by apply (sh_sorted _ Sh r). }
  unfold post, push_declarative. eapply (stage_logged s s3); [done|exact St3|exact (unlogged_trans _ _ _ HU (unlogged_trans _ _ _ HU2 HU3))|exact HE3|apply set_meta_same|by eapply stage_bound|done|done|done|done| |reflexivity| | |done..].
  - intros n i Hn Ht. apply elem_of_list_to_set, Hrows', Hinc. eauto.
  - cbn [lg_nodes]. apply map_filter_ext. intros id n Hn. cbn. by rewrite (HNX id n Hn), not_true_iff_false.
  - cbn [lg_edges]. apply map_filter_ext. intros id e He. cbv beta iota zeta. rewrite elem_of_list_to_set, Hrows', Hinc.
    destruct (con_closed _ (ok_graph _ T) id e He) as ([na Ha] & [nb Hb'] & _). rewrite Ha, Hb', orb_false_iff, <- !not_true_iff_false, <- (HNX _ na Ha), <- (HNX _ nb Hb').
    unfold touches. split; [intros Hno; split; intros Hx; apply Hno; eexists; (split; [exact Hx|]); exists e; auto|]. intros [H1 H2] (n & Hn & e' & E' & S). rewrite He in E'. injection E' as <-.
    destruct S; congruence.
Qed.

Lemma factory_reset_simulates : simulates factory_reset.
Proof.
  intros s T. pose proof (con_shape _ (ok_graph _ T)) as Sh. pose proof (sh_columns _ Sh) as C. unfold factory_reset. apply post_read.
  destruct (rows_of_spec (ns_alive (node_store (txn_graph s)))) as [Hnd Hrows]. destruct (rows_of_spec (es_alive (edge_store (txn_graph s)))) as [Hnd' Hrows'].
  eapply post_weaken; [intros a s' Hs; exact Hs|by intros s' Hx T'; destruct (Hx T' : False)|]. apply post_bind.
  eapply post_weaken; [|intros ? Hx; exact Hx|apply (reset_post s s _); [by apply stage_start|apply expands_start|done|intros row Hr%Hrows; by apply alive_node_at]].
  intros expansion s1 (NX & St & HX & HU & HE1). apply post_bind.
  eapply post_weaken; [|intros ? Hx; exact Hx|apply (edge_rows_post s s1 NX _ expansion); [done|done|exact Hnd'|intros row Hr%Hrows'; by apply alive_edge_at]].
  intros expansion' s2 (EX & St2 & HX2 & HU2 & HE2 & _). eapply post_write; [reflexivity|]. unfold post, push_declarative.
  assert (HN : forall id n, lg_nodes (logical (txn_graph s)) !! id = Some n -> id ∈ NX).
  { intros id n Hn. destruct (ids_at_node _ _ _ id n C HX Hn) as (row & _ & Ha & ->). by apply Hrows. }
  assert (HE : forall id e, lg_edges (logical (txn_graph s)) !! id = Some e -> id ∈ EX).
  { intros id e He. destruct (ids_at_edge _ _ _ id e C HX2 He) as (row & _ & Ha & ->). by apply Hrows'. }
  eapply (stage_logged s s2); [done|exact St2|exact (unlogged_trans _ _ _ HU HU2)|exact HE2|reflexivity| |done|done|done|done| |reflexivity| | |done..].
  - destruct (stage_bound s s2 s2 NX EX EX St2 eq_refl) as (B1 & B2 & _). split_and!; [done|done|by right].
  - intros n i _ (e & E & _). by eapply HE.
  - cbn. apply map_empty. intros i. apply eq_None_not_Some. intros [n [Hn Hi]%without_Some]. by destruct (Hi (HN _ _ Hn)).
  - cbn. apply map_empty. intros i. apply eq_None_not_Some. intros [e [He Hi]%without_Some]. by destruct (Hi (HE _ _ He)).
Qed.
End TruncateProps.
