(* ===== verification/Session.v ===== *)
(** Calls in sequence: a run of the mutation funnel keeps the graph consistent, and
    replay of its log on any graph with the same contents ends in the same contents. *)

From stdpp Require Import sorting.
From S2P Require Import Prelude Errors Wire Value Ordered LabelSet PropertyMap GraphDelta Columns GraphTypes Store Derived Candidates TypeValidator Fanout GraphApply GraphApplyProps Mutator Consistent MutatorProps DeleteProps TruncateProps.

Section Session.
Context `{L : Leaves} {GE : GraphEnv} {TO : TypeOps} {EN : Engine} {LE : LegacyEvents} {LC : LegacyChecks}.
Abbreviation M A := (method WriteTxn (fault GraphError) A).

(** The labels of a new node are a [LabelSet]. *)
Definition call_ok (c : Call) : Prop := match c with CreateNode labels _ => sorted_names labels | _ => True end.

Lemma simulates_unit {A} (m : M A) : simulates m -> simulates (bind m (fun _ => ret tt)).
Proof. intros HS s T. apply post_bind. by apply HS. Qed.
Lemma call_simulates c : call_ok c -> simulates (call c).
Proof.
  intros Hc. destruct c; cbn.
  - by apply simulates_unit, create_node_simulates.
  - by apply simulates_unit, create_mixed_edge_simulates.
  - apply update_node_simulates.
  - apply update_edge_simulates.
  - apply remove_node_property_simulates.
  - apply remove_edge_property_simulates.
  - apply remove_node_label_simulates.
  - apply delete_node_simulates.
  - apply delete_edge_simulates.
  - apply delete_elements_simulates.
  - apply truncate_node_type_simulates.
  - apply truncate_edge_type_simulates.
  - apply factory_reset_simulates.
Qed.

Lemma kept_reaches s0 s s' : reaches s0 s -> kept s s' -> txn_ok s' /\ reaches s0 s'.
Proof.
  intros HR (T & Ec & Ee & EL & Em). split; [done|]. eapply reaches_trans; [exact HR|]. exists [], []. rewrite Ec, Ee, !app_nil_r, EL.
  split_and!; [done|done|constructor|by intros i c [=]|by apply bound_kept_refl|done|done].
Qed.

Lemma run_post calls s : Forall call_ok calls -> txn_ok s ->
  post (run calls) s (fun _ s' => txn_ok s' /\ reaches s s') (fun s' => total_indexes -> txn_ok s' /\ reaches s s').
Proof.
  intros Hc T. eapply post_weaken; [|intros ? Hx; exact Hx|].
  2: { apply (post_for_each _ (fun l s' => Forall call_ok l /\ txn_ok s' /\ reaches s s')); [by split_and!; [..|apply reaches_refl]|].
    intros c l s1 (Hl & T1 & HR). apply Forall_cons in Hl as [Hok Hl]. eapply post_weaken; [| |by apply call_simulates]; cbn.
    - intros _ s2 [T2 HR2]. split; [done|]. split; [done|]. by eapply reaches_trans.
    - intros s2 HK TI. by apply (kept_reaches s s1), HK. }
  by intros _ s' [_ ?].
Qed.
Lemma run_reaches calls s r s' : run calls s = (r, s') -> r = Ok tt \/ total_indexes -> Forall call_ok calls -> txn_ok s -> txn_ok s' /\ reaches s s'.
Proof.
  intros E HI Hc T. pose proof (run_post calls s Hc T) as HP. unfold post in HP. rewrite E in HP. destruct r as [[]|[w|e]]; [done|done|]. destruct HI as [|TI]; [done|by apply HP].
Qed.

(** ** Replay *)

Fixpoint apply_all (g : SeleneGraph) (changes : list Change) : outcome CodecError SeleneGraph :=
  match changes with
  | [] => Ok g
  | c :: changes => let? g := apply g c in apply_all g changes
  end.
Lemma apply_all_refines changes g : columns_ok g -> refines g (apply_all g changes) (spec_apply_all (logical g) changes).
Proof.
  revert g. induction changes as [|c changes IH]; intros g C; cbn; [done|]. pose proof (each_change_refines g c C) as H1. unfold refines in H1.
  destruct (apply g c) as [g'|[|e]]; [|done|by rewrite H1]. destruct H1 as (C' & Em & Ei & ->). specialize (IH g' C'). unfold refines in *.
  destruct (apply_all g' changes) as [g2|[|e]]; [|done..]. destruct IH as (C2 & Em2 & Ei2 & HS). split; [done|]. split; [congruence|]. split; [congruence|done].
Qed.
End Session.
