(* ===== verification/ConstraintProps.v ===== *)
(** The constraint indexes of a graph: what they hold, and that changing them by a
    log gives what building them from the final graph gives. *)

From stdpp Require Import sorting.
From S2P Require Import Prelude Errors Wire Value Ordered LabelSet PropertyMap GraphDelta Catalog Columns GraphTypes Store Derived Candidates TypeValidator Fanout Unique UniqueProps GraphApply GraphApplyProps Mutator Consistent CandidateProps Rebuild RebuildProps ValidatorProps MutatorProps Session.

Section Constraints.
Context `{L : Leaves} {GE : GraphEnv} {TO : TypeOps} {CO : Comparison} {EN : Engine} {LE : LegacyEvents} {LC : LegacyChecks}.

(** ** What an element declares *)

(** The kind, declaring type and properties of a live element. *)
Definition declared (td : GraphTypeDef) (lg : LogicalGraph) (id : EntityId) : option (ElementKind * bytes * PropertyMap) :=
  match id with
  | EntityNode n =>
      lg_nodes lg !! n ≫= fun x => find_node_type_index (n_labels x) td ≫= fun i => gt_node_types td !! Z.to_nat i ≫= fun t =>
      Some (Catalog.Node, nt_name t, n_properties x)
  | EntityEdge e =>
      lg_edges lg !! e ≫= fun x => lg_nodes lg !! e_source x ≫= fun a => lg_nodes lg !! e_target x ≫= fun b =>
      find_node_type_index (n_labels a) td ≫= fun i => find_node_type_index (n_labels b) td ≫= fun j =>
      find_mixed_edge_type (e_label x) i j (e_directionality x) td ≫= fun t => Some (Catalog.Edge, et_name t, e_properties x)
  end.

Lemma edge_state_type g td id e a b r : columns_ok g -> lg_edges (logical g) !! id = Some e -> lg_nodes (logical g) !! e_source e = Some a -> lg_nodes (logical g) !! e_target e = Some b ->
  validate_edge_state id g td = Ok r ->
  exists i j, find_node_type_index (n_labels a) td = Some i /\ find_node_type_index (n_labels b) td = Some j /\ find_mixed_edge_type (e_label e) i j (e_directionality e) td = Some (fst r).
Proof.
  intros C He Ha Hb. destruct (edge_row_of g id e C He) as (E1 & E2 & E3 & E4). unfold validate_edge_state. rewrite E1, E2, E3, E4. unfold validate_edge_endpoints. cbn.
  destruct (validate_node_state (e_source e) g td) as [ra|] eqn:Era; [|done]. destruct (validate_node_state (e_target e) g td) as [rb|] eqn:Erb; [|done]. cbn.
  destruct (find_mixed_edge_type _ _ _ _ td) as [t|] eqn:Et; [|by destruct (first_edge_type_with_label (e_label e) td)]. cbn. destruct (lift _) as [w|]; [|done]. intros [= <-].
  exists (fst ra), (fst rb). split; [by apply (node_state_index g td (e_source e) a ra C)|]. split; [by apply (node_state_index g td (e_target e) b rb C)|done].
Qed.
Lemma constraints_change_declared g td id insert self : consistent g -> m_bound_type (meta g) = Some td -> conforms td (logical g) ->
  constraints_change g id insert self =
    match declared td (logical g) id with Some (k, d, p) => change_rules k d p id insert self | None => Ok self end.
Proof.
  intros G Hb [HN HE]. pose proof (sh_columns _ (con_shape _ G)) as C. unfold constraints_change. rewrite Hb. destruct id as [n|e]; cbn [declared].
  - rewrite is_node_alive_spec by done. destruct (lg_nodes (logical g) !! n) as [x|] eqn:Ex; [rewrite bool_decide_true by done|by rewrite bool_decide_false by (by intros [? ?])].
    destruct (proj2 (node_state_conforms g td n x C Ex) (HN n x Ex)) as [r Hr]. rewrite Hr. pose proof (node_state_index g td n x r C Ex Hr) as Ei.
    destruct (find_node_type_index_at _ _ _ Ei) as (t & Et & _). unfold node_type_at. cbn [mbind option_bind]. rewrite Ei. cbn [mbind option_bind]. rewrite Et. cbn [ok_or].
    by rewrite (proj2 (node_row_of g n x C Ex)).
  - rewrite is_edge_alive_spec by done. destruct (lg_edges (logical g) !! e) as [x|] eqn:Ex; [rewrite bool_decide_true by done|by rewrite bool_decide_false by (by intros [? ?])].
    destruct (HE e x Ex) as (a & b & _ & _ & _ & Ha & Hb' & _). destruct (proj2 (edge_state_conforms g td e x C (con_closed _ G) Ex) (HE e x Ex)) as [r Hr].
    destruct (edge_state_type g td e x a b r C Ex Ha Hb' Hr) as (i & j & Ei & Ej & Et). rewrite Hr. cbn [mbind option_bind]. rewrite Ha. cbn [mbind option_bind]. rewrite Hb'. cbn [mbind option_bind].
    rewrite Ei. cbn [mbind option_bind]. rewrite Ej. cbn [mbind option_bind]. rewrite Et. destruct (edge_row_of g e x C Ex) as (_ & _ & _ & ->). done.
Qed.

(** ** What a rule demands *)

Definition rule_properties (rule : ConstraintDeclaration) : list bytes := target_properties (constraint_target rule).
Definition governs (rule : ConstraintDeclaration) (k : ElementKind) (d : bytes) : bool :=
  bool_decide (target_element (constraint_target rule) = k) && bool_decide (constraint_declaring_type rule = d).
(** What an element contributes to the index of a rule. *)
Definition contributes (rule : ConstraintDeclaration) (x : option (ElementKind * bytes * PropertyMap)) (id : EntityId) (o : option (list Value)) : Prop :=
  match x with
  | Some (k, d, p) => if governs rule k d then rule_values rule id d (rule_properties rule) p = Ok o else o = None
  | None => o = None
  end.
(** The elements of the declaring type have values for the rule's properties (all of
    them, for a KEY), each tuple has a key and a domain of its own, the tuples of two
    elements differ and their components compare. *)
Record satisfied (td : GraphTypeDef) (lg : LogicalGraph) (rule : ConstraintDeclaration) : Prop := {
  sat_values : forall id, exists o, contributes rule (declared td lg id) id o;
  sat_alone : forall id vs, contributes rule (declared td lg id) id (Some vs) -> is_ok (tuple_of vs) /\ is_ok (domains_change true 0 vs ∅);
  sat_distinct : forall id id' vs vs', contributes rule (declared td lg id) id (Some vs) -> contributes rule (declared td lg id') id' (Some vs') ->
    tuple_of vs = tuple_of vs' -> id = id';
  sat_compare : forall id id' vs vs' p s u, contributes rule (declared td lg id) id (Some vs) -> contributes rule (declared td lg id') id' (Some vs') ->
    (p, s) ∈ values_shapes 0 vs -> (p, u) ∈ values_shapes 0 vs' -> compatible s u = true
}.

(** ** What an index holds *)

(** The index holds what the elements outside [X] contribute. *)
Definition holds (td : GraphTypeDef) (lg : LogicalGraph) (X : gset EntityId) (r : RuleIndex) : Prop :=
  ri_properties r = rule_properties (ri_rule r) /\ rule_properties (ri_rule r) <> [] /\
  exists M, rule_inv r M /\ forall id, if decide (id ∈ X) then M !! id = None else contributes (ri_rule r) (declared td lg id) id (M !! id).
Definition rule_step (k : ElementKind) (d : bytes) (p : PropertyMap) (id : EntityId) (insert : bool) (r : RuleIndex) : outcome TypeViolation RuleIndex :=
  if governs (ri_rule r) k d then rule_change p id d insert r else Ok r.
Definition element_step (x : option (ElementKind * bytes * PropertyMap)) (id : EntityId) (insert : bool) (r : RuleIndex) : outcome TypeViolation RuleIndex :=
  match x with Some (k, d, p) => rule_step k d p id insert r | None => Ok r end.

Lemma contributes_unique rule x id o o' : contributes rule x id o -> contributes rule x id o' -> o = o'.
Proof. destruct x as [[[k d] p]|]; cbn; [|congruence]. destruct (governs rule k d); congruence. Qed.
Lemma remove_holds td lg X r id : holds td lg X r -> id ∉ X ->
  exists r', element_step (declared td lg id) id false r = Ok r' /\ holds td lg ({[id]} ∪ X) r' /\ ri_rule r' = ri_rule r.
Proof.
  intros (Ep & Hp & M & HR & HM) Hid. pose proof (HM id) as Hc. rewrite decide_False in Hc by done.
  assert (HS : exists r', element_step (declared td lg id) id false r = Ok r' /\ rule_inv r' (delete id M) /\ same_rule r r').
  { assert (HN : M !! id = None -> exists r', Ok r = Ok r' :> outcome TypeViolation _ /\ rule_inv r' (delete id M) /\ same_rule r r') by (intros Hn; exists r; by rewrite delete_id).
    unfold element_step, rule_step. destruct (declared td lg id) as [[[k d] p]|]; cbn in Hc; [|by apply HN]. destruct (governs (ri_rule r) k d); [|by apply HN].
    rewrite <- Ep in Hc. by apply rule_remove. }
  destruct HS as (r' & E & HR' & Er & Epr). exists r'. split; [done|]. split; [|done]. unfold holds. rewrite Er, Epr. split; [done|]. split; [done|]. exists (delete id M). split; [done|].
  intros e. specialize (HM e). destruct (decide (e = id)) as [->|Hne]; [rewrite decide_True by set_solver; apply lookup_delete_eq|]. rewrite lookup_delete_ne by done.
  destruct (decide (e ∈ X)); [by rewrite decide_True by set_solver|by rewrite decide_False by set_solver].
Qed.
Lemma insert_holds td lg X r id : holds td lg X r -> id ∈ X ->
  match element_step (declared td lg id) id true r with
  | Ok r' => holds td lg (X ∖ {[id]}) r' /\ ri_rule r' = ri_rule r
  | Err (Panic _) => False
  | Err (Fails _) => True
  end.
Proof.
  intros (Ep & Hp & M & HR & HM) Hid. pose proof (HM id) as Hn. rewrite decide_True in Hn by done.
  assert (HH : forall r' M', rule_inv r' M' -> contributes (ri_rule r) (declared td lg id) id (M' !! id) -> (forall e, e <> id -> M' !! e = M !! e) -> same_rule r r' ->
    holds td lg (X ∖ {[id]}) r' /\ ri_rule r' = ri_rule r).
  { intros r' M' HR' Hc Ho [Er Epr]. split; [|done]. unfold holds. rewrite Er, Epr. split; [done|]. split; [done|]. exists M'. split; [done|]. intros e.
    destruct (decide (e = id)) as [->|Hne]; [by rewrite decide_False by set_solver|]. rewrite Ho by done. specialize (HM e).
    destruct (decide (e ∈ X)); [by rewrite decide_True by set_solver|by rewrite decide_False by set_solver]. }
  unfold element_step, rule_step. destruct (declared td lg id) as [[[k d] p]|] eqn:Ed; cbn in HH; [|by apply (HH r M)]. destruct (governs (ri_rule r) k d); [|by apply (HH r M)].
  pose proof (rule_insert r M id d p HR Hn ltac:(by rewrite Ep)) as HI. destruct (rule_change p id d true r) as [r'|[]]; [|done|done]. destruct HI as (M' & HR' & Ev & Ho & Hs). apply (HH r' M'); [done|by rewrite <- Ep|done|done].
Qed.
Lemma insert_accepts td lg X r id : holds td lg X r -> id ∈ X -> satisfied td lg (ri_rule r) -> exists r', element_step (declared td lg id) id true r = Ok r'.
Proof.
  intros (Ep & Hp & M & HR & HM) Hid [SV SA SD SC]. destruct (SV id) as [o Ho]. unfold element_step, rule_step. destruct (declared td lg id) as [[[k d] p]|] eqn:Ed; [|by eexists].
  pose proof Ho as Hc. cbn in Hc. destruct (governs (ri_rule r) k d) eqn:Eg; [|by eexists]. rewrite <- Ep in Hc. destruct o as [vs|]; [|unfold rule_change; rewrite Hc; by eexists].
  rewrite <- Ed in Ho. destruct (SA id vs Ho) as [[t Ht] [D HD]].
  assert (HO : forall e vs', M !! e = Some vs' -> contributes (ri_rule r) (declared td lg e) e (Some vs') /\ e <> id).
  { intros e vs' He. specialize (HM e). destruct (decide (e ∈ X)); [congruence|]. rewrite He in HM. split; [done|]. by intros ->. }
  apply (rule_insert_accepts r M id d p vs t HR Hc); [exact (domains_emission _ _ _ _ HD)|done|..].
  - intros e vs' [Hv Hne]%HO Et. destruct Hne. apply (SD e id vs' vs Hv Ho). congruence.
  - intros q s u Hs Hu. by apply (SC id id vs vs q u s).
  - intros e vs' q s u [Hv _]%HO Hs Hu. by apply (SC e id vs' vs q u s).
Qed.

(** An index that holds the elements of a graph shows that its rule is satisfied. *)
Lemma holds_satisfied td lg r : (forall s t, compatible s t = compatible t s) -> holds td lg ∅ r -> satisfied td lg (ri_rule r).
Proof.
  intros Hsym (Ep & Hp & M & HR & HM). pose proof HR as [HW HA HC HB HO]. specialize (HA Hsym).
  assert (HX : forall id, contributes (ri_rule r) (declared td lg id) id (M !! id)) by (intros id; specialize (HM id); by rewrite decide_False in HM by set_solver).
  assert (HI : forall id vs, contributes (ri_rule r) (declared td lg id) id (Some vs) -> M !! id = Some vs) by (intros id vs Hc; exact (contributes_unique _ _ _ _ _ (HX id) Hc)).
  assert (HS : forall id vs p s, M !! id = Some vs -> (p, s) ∈ values_shapes 0 vs -> (0 < total (ri_domains r) p s)%nat) by (intros id vs p s Hm Hs; apply (counted_member r M p s HR); by exists id, vs).
  split.
  - intros id. by exists (M !! id).
  - intros id vs Hm%HI. destruct (HB id vs Hm) as [[Ho HF] (t & Ht & _)]. split; [by exists t|]. unfold is_ok. rewrite Ho. apply run_counts_accepts; [intros q x; by rewrite lookup_empty|done| |].
    + intros p s u Hs Hu. apply (HA p); by eapply HS.
    + intros p s u _ Hu. exfalso. unfold total in Hu. rewrite lookup_empty in Hu. cbn in Hu. lia.
  - intros id id' vs vs' Hm%HI Hm'%HI Et. destruct (HB id vs Hm) as [_ (t & Ht & He)], (HB id' vs' Hm') as [_ (t' & Ht' & He')]. congruence.
  - intros id id' vs vs' p s u Hm%HI Hm'%HI Hs Hu. apply (HA p); [exact (HS id vs p s Hm Hs)|exact (HS id' vs' p u Hm' Hu)].
Qed.
Lemma new_index_holds td lg rule X : rule_properties rule <> [] -> (forall id, is_Some (declared td lg id) -> id ∈ X) -> holds td lg X (new_index rule).
Proof.
  intros Hp HX. split; [done|]. split; [done|]. exists ∅. split; [apply new_index_inv|]. intros id. destruct (decide (id ∈ X)) as [|Hn]; [done|].
  destruct (declared td lg id) eqn:E; [|done]. destruct Hn. apply HX. by rewrite E.
Qed.
Lemma holds_move td lg lg' X r : holds td lg X r -> (forall id, id ∉ X -> declared td lg' id = declared td lg id) -> holds td lg' X r.
Proof.
  intros (Ep & Hp & M & HR & HM) HD. split; [done|]. split; [done|]. exists M. split; [done|]. intros id. specialize (HM id). destruct (decide (id ∈ X)) as [|Hn]; [done|]. by rewrite HD.
Qed.

(** ** All the indexes *)

Lemma ascending_nodup l : StronglySorted entry_lt l -> NoDup (map fst l).
Proof.
  intros HS%ascending_ids. induction HS as [|x t HS IH HF]; constructor; [|done]. intros Hin. rewrite Forall_forall in HF. specialize (HF x Hin). lia.
Qed.

Definition elements_step (x : option (ElementKind * bytes * PropertyMap)) (id : EntityId) (insert : bool) (self : list RuleIndex) : outcome TypeViolation (list RuleIndex) :=
  match x with Some (k, d, p) => change_rules k d p id insert self | None => Ok self end.
Lemma elements_step_cons x id insert r self :
  elements_step x id insert (r :: self) = let? r := element_step x id insert r in let? self := elements_step x id insert self in Ok (r :: self).
Proof. destruct x as [[[k d] p]|]; [|done]. cbn. unfold rule_step, governs. do 2 (case_bool_decide; cbn; try done). Qed.
(** The indexes of the rules hold what the elements outside [X] contribute. *)
Definition hold (td : GraphTypeDef) (lg : LogicalGraph) (X : gset EntityId) (rules : list ConstraintDeclaration) (self : list RuleIndex) : Prop :=
  Forall (holds td lg X) self /\ map ri_rule self = rules.

Lemma hold_cons td lg X rules r self : hold td lg X rules (r :: self) <-> exists rules', rules = ri_rule r :: rules' /\ holds td lg X r /\ hold td lg X rules' self.
Proof.
  unfold hold. rewrite Forall_cons. cbn. split; [intros [[? ?] <-]; by eexists|]. intros (rules' & -> & ? & ? & <-). done.
Qed.
Lemma remove_hold td lg X rules self id : hold td lg X rules self -> id ∉ X ->
  exists self', elements_step (declared td lg id) id false self = Ok self' /\ hold td lg ({[id]} ∪ X) rules self'.
Proof.
  intros Hh Hid. revert rules Hh. induction self as [|r self IH]; intros rules Hh.
  - exists []. destruct Hh as [_ <-]. split; [by destruct (declared td lg id) as [[[k d] p]|]|by split].
  - apply hold_cons in Hh as (rules' & -> & Hr & Hh). destruct (remove_holds td lg X r id Hr Hid) as (r' & E1 & Hr' & Er). destruct (IH _ Hh) as (self' & E2 & Hs').
    exists (r' :: self'). rewrite elements_step_cons, E1, E2. split; [done|]. apply hold_cons. exists rules'. by rewrite Er.
Qed.
Lemma insert_hold td lg X rules self id : hold td lg X rules self -> id ∈ X ->
  match elements_step (declared td lg id) id true self with
  | Ok self' => hold td lg (X ∖ {[id]}) rules self'
  | Err (Panic _) => False
  | Err (Fails _) => ~ Forall (satisfied td lg) rules
  end.
Proof.
  intros Hh Hid. revert rules Hh. induction self as [|r self IH]; intros rules Hh.
  - destruct Hh as [_ <-]. by destruct (declared td lg id) as [[[k d] p]|].
  - apply hold_cons in Hh as (rules' & -> & Hr & Hh). specialize (IH _ Hh). rewrite elements_step_cons. pose proof (insert_holds td lg X r id Hr Hid) as HI.
    pose proof (insert_accepts td lg X r id Hr Hid) as HA. destruct (element_step (declared td lg id) id true r) as [r'|[|e]]; [|done|].
    + destruct HI as [Hr' Er]. destruct (elements_step (declared td lg id) id true self) as [self'|[|e]]; [apply hold_cons; exists rules'; by rewrite Er|done|]. by intros [_ HF]%Forall_cons.
    + intros [HS _]%Forall_cons. by destruct (HA HS).
Qed.

Section OneGraph.
Variables (g : SeleneGraph) (td : GraphTypeDef).
Hypothesis G : consistent g.
Hypothesis Hb : m_bound_type (meta g) = Some td.
Hypothesis Hconf : conforms td (logical g).

Lemma change_each_cons insert id ids self :
  change_each g insert (id :: ids) self = let? self := elements_step (declared td (logical g) id) id insert self in change_each g insert ids self.
Proof using G Hb Hconf. cbn. by rewrite (constraints_change_declared g td id insert self G Hb Hconf). Qed.
Lemma change_each_app insert ids ids' self :
  change_each g insert (ids ++ ids') self = let? self := change_each g insert ids self in change_each g insert ids' self.
Proof. revert self. induction ids as [|id ids IH]; intros self; cbn; [done|]. destruct (constraints_change g id insert self); [apply IH|done]. Qed.
Lemma remove_each ids X rules self : NoDup ids -> (forall id, id ∈ ids -> id ∉ X) -> hold td (logical g) X rules self ->
  exists self', change_each g false ids self = Ok self' /\ hold td (logical g) (list_to_set ids ∪ X) rules self'.
Proof using G Hb Hconf.
  revert X self. induction ids as [|id ids IH]; intros X self Hnd Hd Hh.
  - exists self. split; [done|]. cbn. by rewrite (left_id_L ∅ (∪)).
  - apply NoDup_cons in Hnd as [Hni Hnd]. destruct (remove_hold td (logical g) X rules self id Hh ltac:(apply Hd; by left)) as (self1 & E1 & H1). rewrite change_each_cons, E1.
    destruct (IH ({[id]} ∪ X) self1 Hnd) as (self' & E2 & H2); [set_solver|done|]. exists self'. split; [done|].
    replace (list_to_set (id :: ids) ∪ X) with (list_to_set ids ∪ ({[id]} ∪ X)) by (cbn; set_solver). done.
Qed.
Lemma insert_each ids X rules self : NoDup ids -> (forall id, id ∈ ids -> id ∈ X) -> hold td (logical g) X rules self ->
  match change_each g true ids self with
  | Ok self' => hold td (logical g) (X ∖ list_to_set ids) rules self'
  | Err (Panic _) => False
  | Err (Fails _) => ~ Forall (satisfied td (logical g)) rules
  end.
Proof using G Hb Hconf.
  revert X self. induction ids as [|id ids IH]; intros X self Hnd Hd Hh.
  - cbn. by rewrite difference_empty_L.
  - apply NoDup_cons in Hnd as [Hni Hnd]. rewrite change_each_cons. pose proof (insert_hold td (logical g) X rules self id Hh ltac:(apply Hd; by left)) as HI.
    destruct (elements_step _ id true self) as [self1|[|e]]; [|done|done]. specialize (IH (X ∖ {[id]}) self1 Hnd ltac:(set_solver) HI).
    replace (X ∖ list_to_set (id :: ids)) with (X ∖ {[id]} ∖ list_to_set ids) by (cbn; set_solver). done.
Qed.
Lemma hold_satisfied rules self : (forall s t, compatible s t = compatible t s) -> hold td (logical g) ∅ rules self -> Forall (satisfied td (logical g)) rules.
Proof. intros Hsym [HF <-]. apply Forall_map. eapply Forall_impl; [exact HF|]. intros r. by apply holds_satisfied. Qed.

(** Building succeeds exactly when the rules are satisfied. *)
Lemma constraints_build_spec rules snapshot : (forall s t, compatible s t = compatible t s) -> Forall (fun rule => rule_properties rule <> []) rules -> snap_graph snapshot = g ->
  match constraints_build snapshot rules with
  | Ok self => hold td (logical g) ∅ rules self /\ Forall (satisfied td (logical g)) rules
  | Err (Panic _) => False
  | Err (Fails _) => ~ Forall (satisfied td (logical g)) rules
  end.
Proof using G Hb Hconf.
  intros Hsym Hp Hs. unfold constraints_build. destruct rules as [|rule rules]; cbn [map]; [by repeat constructor|]. pose proof (sh_columns _ (con_shape _ G)) as C. rewrite <- Hs in C.
  destruct (live_denotes NodeKind snapshot C) as (nodes & EN' & DN), (live_denotes EdgeKind snapshot C) as (edges & EE & DE). cbn [live_candidates live_ids] in *.
  rewrite EN', EE. cbn [map_err]. rewrite Hs in *. rewrite <- change_each_app.
  set (ids := map EntityNode (cs_iter nodes) ++ map EntityEdge (cs_iter edges)).
  assert (Hids : forall id, id ∈ ids <-> match id with EntityNode n => is_Some (lg_nodes (logical g) !! n) | EntityEdge e => is_Some (lg_edges (logical g) !! e) end).
  { intros id. unfold ids. rewrite elem_of_app, !list_elem_of_fmap. destruct id as [n|e].
    - rewrite <- elem_of_dom, <- (de_ids _ _ _ DN). naive_solver.
    - rewrite <- elem_of_dom, <- (de_ids _ _ _ DE). naive_solver. }
  assert (Hnd : NoDup ids).
  { apply NoDup_app. split; [|split].
    - apply NoDup_fmap; [by intros ? ? [= ->]|exact (ascending_nodup _ (de_ascending _ _ _ DN))].
    - intros id (n & -> & _)%list_elem_of_fmap (e & [=] & _)%list_elem_of_fmap.
    - apply NoDup_fmap; [by intros ? ? [= ->]|exact (ascending_nodup _ (de_ascending _ _ _ DE))]. }
  assert (Hh : hold td (logical g) (list_to_set ids) (rule :: rules) (map new_index (rule :: rules))).
  { split; [|by rewrite map_map, map_id]. apply Forall_map. eapply Forall_impl; [exact Hp|]. intros r Hr. apply new_index_holds; [done|]. intros id [x Hx]. apply elem_of_list_to_set, Hids.
    destruct id as [n|e]; unfold declared in Hx; [destruct (lg_nodes (logical g) !! n)|destruct (lg_edges (logical g) !! e)]; solve [done|by eexists]. }
  pose proof (insert_each ids (list_to_set ids) _ _ Hnd ltac:(set_solver) Hh) as HI. cbn [map] in HI. destruct (change_each g true ids _) as [self|[|e]]; [|done|done].
  rewrite difference_diag_L in HI. split; [done|]. by eapply hold_satisfied.
Qed.
End OneGraph.

(** ** Elements a log does not affect *)

Lemma node_unchanged lg c lg' n : spec_apply lg c = Ok lg' -> declarative c = false -> changed_element c <> Some (EntityNode n) -> lg_nodes lg' !! n = lg_nodes lg !! n.
Proof.
  intros HS Hd Hc. destruct c; try done; cbn [changed_element] in Hc; spec_steps HS; cbn; try done.
  all: first [rewrite lookup_insert_ne by congruence|rewrite lookup_delete_ne by congruence]; done.
Qed.
Lemma edge_unchanged lg c lg' e : spec_apply lg c = Ok lg' -> declarative c = false -> changed_element c <> Some (EntityEdge e) -> lg_edges lg' !! e = lg_edges lg !! e.
Proof.
  intros HS Hd Hc. destruct c; try done; cbn [changed_element] in Hc; spec_steps HS; cbn; try done.
  all: first [rewrite lookup_insert_ne by congruence|rewrite lookup_delete_ne by congruence]; done.
Qed.
Lemma elements_unchanged lg cs lg' : spec_apply_all lg cs = Ok lg' -> plain cs ->
  (forall n, EntityNode n ∉ omap changed_element cs -> lg_nodes lg' !! n = lg_nodes lg !! n) /\ (forall e, EntityEdge e ∉ omap changed_element cs -> lg_edges lg' !! e = lg_edges lg !! e).
Proof.
  intros HS HP. revert lg HS. induction HP as [|c cs Hc HP IH]; intros lg HS; cbn in HS; [by injection HS as <-|]. destruct (spec_apply lg c) as [lg1|] eqn:E; [|done]. destruct (IH lg1 HS) as [I1 I2].
  assert (HX : forall x, x ∉ omap changed_element (c :: cs) -> changed_element c <> Some x /\ x ∉ omap changed_element cs).
  { intros x Hx. split; [intros Ex; apply Hx, list_elem_of_omap; exists c; split; [by left|done]|]. intros Hin. apply Hx. apply list_elem_of_omap in Hin as (c' & Hc' & E'). apply list_elem_of_omap. exists c'. split; [by right|done]. }
  split; intros x [H1 H2]%HX; [rewrite I1 by done; by eapply node_unchanged|rewrite I2 by done; by eapply edge_unchanged].
Qed.
Lemma incident_listed g node id e : consistent g -> lg_edges (logical g) !! id = Some e -> (e_source e = node \/ e_target e = node) -> EntityEdge id ∈ incident_elements g node.
Proof.
  intros [_ [A B U] _] He Hend. unfold incident_elements. apply list_elem_of_fmap. exists id. split; [done|]. rewrite !elem_of_app.
  assert (Hget : forall m P a, listing m P -> P node a -> ae_edge_id a = id -> id ∈ entry_edges m node).
  { intros m P a HL HP <-. unfold entry_edges. apply list_elem_of_fmap_2. by apply (listing_at m P node HL). }
  destruct (e_directionality e) eqn:D; [destruct Hend as [Hs|Hs]; [left|right; left]|right; right; destruct Hend as [Hs|Hs]].
  - eapply (Hget _ _ {| ae_label := e_label e; ae_neighbor := e_target e; ae_edge_id := id |} A); [|done]. split; [by exists e|done].
  - eapply (Hget _ _ {| ae_label := e_label e; ae_neighbor := e_source e; ae_edge_id := id |} B); [|done]. split; [by exists e|done].
  - eapply (Hget _ _ {| ae_label := e_label e; ae_neighbor := e_target e; ae_edge_id := id |} U); [|done]. split; [exists e; tauto|done].
  - eapply (Hget _ _ {| ae_label := e_label e; ae_neighbor := e_source e; ae_edge_id := id |} U); [|done]. split; [exists e; tauto|done].
Qed.
Lemma relabels_node c n : relabels c n -> relabelled_node c = Some n.
Proof. destruct c; cbn; try done; [by intros [-> ->]|by intros ->]. Qed.

Section TwoGraphs.
Variables (g0 g1 : SeleneGraph) (cs : list Change) (td : GraphTypeDef).
Hypothesis G0 : consistent g0.
Hypothesis G1 : consistent g1.
Hypothesis Hcs : spec_apply_all (logical g0) cs = Ok (logical g1).
Hypothesis Hplain : plain cs.

(** An endpoint of an edge that is not affected keeps its labels. *)
Lemma unaffected_labels id e node n : EntityEdge id ∉ affected cs g0 g1 -> lg_edges (logical g0) !! id = Some e -> (e_source e = node \/ e_target e = node) ->
  lg_nodes (logical g1) !! node = Some n -> exists n0, lg_nodes (logical g0) !! node = Some n0 /\ n_labels n0 = n_labels n.
Proof using G0 Hcs.
  intros Hid He Hend Hn. destruct (steps_back _ _ _ Hcs) as (_ & _ & HB & HI). destruct (HB node n Hn) as [Hc|[Hr|Hl]]; [| |done].
  - destruct (HI node Hc). destruct (con_closed _ G0 id e He) as ([a Ha] & [b Hb] & _). assert (Hx : is_Some (lg_nodes (logical g0) !! node)) by (destruct Hend as [<-|<-]; by eexists).
    destruct Hx as [x Hx]. destruct (live_row_node g0 node x (proj1 (sh_columns _ (con_shape _ G0))) Hx) as (row & Hr & _). apply elem_of_dom. by eexists.
  - destruct Hid. unfold affected. apply elem_of_union_r, elem_of_list_to_set, list_elem_of_In, in_concat. apply Exists_exists in Hr as (c & Hc & Hr). exists (incident_elements g0 node ++ incident_elements g1 node).
    split; [|apply list_elem_of_In, elem_of_app; left; by apply (incident_listed g0 node id e)]. apply list_elem_of_In, list_elem_of_fmap. exists node. split; [done|]. apply list_elem_of_omap. exists c. split; [done|by apply relabels_node].
Qed.
Lemma unaffected_declared id : id ∉ affected cs g0 g1 -> declared td (logical g1) id = declared td (logical g0) id.
Proof using G0 G1 Hcs Hplain.
  intros Hid. destruct (elements_unchanged _ _ _ Hcs Hplain) as [EN' EE]. assert (Hch : id ∉ omap changed_element cs) by (intros Hin; apply Hid; unfold affected; by apply elem_of_union_l, elem_of_list_to_set).
  destruct id as [n|e]; unfold declared; [by rewrite EN'|]. specialize (EE e Hch). rewrite EE. destruct (lg_edges (logical g0) !! e) as [x|] eqn:Ex; [|done]. cbn [mbind option_bind].
  destruct (con_closed _ G1 e x EE) as ([a Ha] & [b Hb] & _). destruct (unaffected_labels e x (e_source x) a Hid Ex ltac:(by left) Ha) as (a0 & Ha0 & Ela).
  destruct (unaffected_labels e x (e_target x) b Hid Ex ltac:(by right) Hb) as (b0 & Hb0 & Elb). rewrite Ha, Ha0. cbn [mbind option_bind]. rewrite Hb, Hb0. cbn [mbind option_bind]. by rewrite Ela, Elb.
Qed.

Lemma omap_nodup {A B} (f : A -> option B) (l : list A) : (forall x y b, f x = Some b -> f y = Some b -> x = y) -> NoDup l -> NoDup (omap f l).
Proof.
  intros Hf. induction 1 as [|x l Hx Hl IH]; cbn; [constructor|]. destruct (f x) as [b|] eqn:E; [|done]. constructor; [|done]. intros (y & Hy & Ey)%list_elem_of_omap. by rewrite (Hf x y b E Ey) in Hx.
Qed.
Lemma entities_spec X : NoDup (entities X) /\ forall id, id ∈ entities X <-> id ∈ X.
Proof.
  assert (HN : forall n, n ∈ merge_sort Z.le (omap node_of (elements X)) <-> EntityNode n ∈ X).
  { intros n. rewrite merge_sort_Permutation, list_elem_of_omap. split; [intros ([m|m] & Hm & [= <-]); set_solver|]. intros Hn. exists (EntityNode n). set_solver. }
  assert (HE : forall n, n ∈ merge_sort Z.le (omap edge_of (elements X)) <-> EntityEdge n ∈ X).
  { intros n. rewrite merge_sort_Permutation, list_elem_of_omap. split; [intros ([m|m] & Hm & [= <-]); set_solver|]. intros Hn. exists (EntityEdge n). set_solver. }
  split.
  - unfold entities. apply NoDup_app. split; [|split; [intros id (n & -> & _)%list_elem_of_fmap (e & [=] & _)%list_elem_of_fmap|]]; (apply NoDup_fmap; [by intros ? ? [= ->]|]); rewrite merge_sort_Permutation.
    + apply omap_nodup; [|apply NoDup_elements]. intros [m|m] [m'|m'] y Em Em'; cbn in *; congruence.
    + apply omap_nodup; [|apply NoDup_elements]. intros [m|m] [m'|m'] y Em Em'; cbn in *; congruence.
  - intros id. unfold entities. rewrite elem_of_app, !list_elem_of_fmap. destruct id as [n|e]; [rewrite <- HN|rewrite <- HE]; naive_solver.
Qed.

(** Changing the indexes by a log succeeds exactly when the rules are satisfied after
    it, and then they hold the elements of the final graph. *)
Lemma constraints_apply_spec rules self : (forall s t, compatible s t = compatible t s) -> m_bound_type (meta g0) = Some td -> m_bound_type (meta g1) = Some td ->
  conforms td (logical g0) -> conforms td (logical g1) -> hold td (logical g0) ∅ rules self ->
  match constraints_apply cs g0 g1 self with
  | Ok self' => hold td (logical g1) ∅ rules self' /\ Forall (satisfied td (logical g1)) rules
  | Err (Panic _) => False
  | Err (Fails _) => ~ Forall (satisfied td (logical g1)) rules
  end.
Proof using G0 G1 Hcs Hplain.
  intros Hsym B0 B1 C0 C1 Hh. unfold constraints_apply. destruct self as [|r self].
  { destruct Hh as [_ <-]. cbn. by split; [split|]. }
  set (X := affected cs g0 g1). destruct (entities_spec X) as [Hnd Hin]. cbv zeta.
  destruct (remove_each g0 td G0 B0 C0 (entities X) ∅ rules (r :: self) Hnd ltac:(set_solver) Hh) as (self1 & -> & H1). cbv beta iota.
  replace (list_to_set (entities X) ∪ ∅) with X in H1 by (apply set_eq; intros id; rewrite elem_of_union, elem_of_list_to_set, Hin; set_solver).
  assert (H2 : hold td (logical g1) X rules self1).
  { destruct H1 as [HF HR]. split; [|done]. eapply Forall_impl; [exact HF|]. intros r' Hr'. eapply holds_move; [exact Hr'|]. intros id Hid. by apply unaffected_declared. }
  pose proof (insert_each g1 td G1 B1 C1 (entities X) X rules self1 Hnd ltac:(intros id; apply Hin) H2) as HI. destruct (change_each g1 true (entities X) self1) as [self'|[|e]]; [|done|done].
  replace (X ∖ list_to_set (entities X)) with (∅ : gset EntityId) in HI by (apply set_eq; intros id; rewrite elem_of_difference, elem_of_list_to_set, Hin; set_solver). split; [done|]. by eapply hold_satisfied.
Qed.
End TwoGraphs.

Lemma compatible_sym : (forall a b, comparable_with a b = comparable_with b a) -> forall s t, compatible s t = compatible t s.
Proof. intros Hc s t. unfold compatible. destruct s, t; try apply Hc; apply bool_decide_ext; split; congruence. Qed.
End Constraints.
