(* ===== verification/CommitProps.v ===== *)
(** A commit publishes only graphs that are consistent, conform to their types and
    satisfy their constraints; a transaction that fails leaves no trace; admission
    establishes this, transactions under the lock keep it, and the committer publishes
    the states of a history in the order of the seals. *)

From stdpp Require Import sorting.
From S2P Require Import Prelude Errors Wire Value Ordered LabelSet PropertyMap GraphDelta Catalog Columns GraphTypes Store Derived Candidates TypeValidator Fanout Unique UniqueProps GraphApply GraphApplyProps Mutator Seal Consistent CandidateProps Rebuild Shared RebuildProps ValidatorProps MutatorProps Session ConstraintProps.

Section SealProps.
Context `{L : Leaves} {GE : GraphEnv} {TO : TypeOps} {CO : Comparison} {EN : Engine} {LE : LegacyEvents} {LC : LegacyChecks}.

(** ** Validation does not panic *)

Definition calm {E A} (r : outcome E A) : Prop := forall what, r <> Err (Panic what).
Lemma calm_bind {E A B} (r : outcome E A) (k : A -> outcome E B) : calm r -> (forall a, r = Ok a -> calm (k a)) -> calm (let? a := r in k a).
Proof. intros Hr Hk what. destruct r as [a|f]; [by apply Hk|]. intros [= ->]. by apply (Hr what). Qed.
Lemma calm_Ok {E A} (a : A) : calm (E := E) (Ok a).
Proof. done. Qed.
Lemma calm_lift {E A} (r : result E A) : calm (lift r).
Proof. by destruct r. Qed.
Lemma calm_violation {A} (r : outcome TypeViolation A) : calm r -> calm (violation r).
Proof. intros Hr what. destruct r as [a|[w|v]]; cbn; [done|by destruct (Hr w)|done]. Qed.
Lemma node_state_type g td id s : validate_node_state id g td = Ok s -> is_ok (node_type_at (fst s) td).
Proof.
  unfold validate_node_state. destruct (find_node_type_index _ td) as [i|] eqn:E; [|done]. cbn. destruct (find_node_type_index_at _ _ _ E) as (t & Et & _). rewrite Et. cbn.
  destruct (lift _) as [w|]; [|done]. intros [= <-]. exists t. unfold node_type_at. cbn. by rewrite Et.
Qed.
Lemma edge_state_calm g td id : calm (validate_edge_state id g td).
Proof.
  unfold validate_edge_state. apply calm_bind; [apply calm_lift|intros label _]. apply calm_bind; [apply calm_lift|intros ends _]. apply calm_bind; [apply calm_lift|intros d _].
  apply calm_bind; [intros what; apply validate_edge_endpoints_safe|intros [ty w] _]. apply calm_bind; [apply calm_lift|done].
Qed.
Lemma edges_calm g td ids : calm (validate_edges g td ids).
Proof. induction ids as [|id ids IH]; cbn; [done|]. apply calm_bind; [apply edge_state_calm|intros s _]. by apply calm_bind. Qed.
Lemma nodes_calm g td ids : calm (validate_nodes g td ids).
Proof. induction ids as [|id ids IH]; cbn; [done|]. apply calm_bind; [intros what; apply validate_node_state_safe|intros s _]. by apply calm_bind. Qed.
Lemma incident_calm g td node : calm (revalidate_incident_edges node g td).
Proof. unfold revalidate_incident_edges. do 3 (apply calm_bind; [apply edges_calm|intros ? _]). done. Qed.
Lemma change_calm g td c : calm (validate_change c g td).
Proof.
  assert (HN : forall id (k : Z * list TypeViolation -> outcome TypeViolation (list TypeViolation)), (forall s, is_ok (node_type_at (fst s) td) -> calm (k s)) -> calm (let? s := validate_node_state id g td in k s)).
  { intros id k Hk. apply calm_bind; [intros what; apply validate_node_state_safe|]. intros s Hs. apply Hk. by apply node_state_type in Hs. }
  destruct c; cbn; try done; (match goal with |- calm (if ?b then _ else _) => destruct b; [done|] end).
  1, 2, 5, 7: apply HN; intros s [t Ht]; rewrite ?Ht; try done.
  - apply calm_bind; [apply calm_lift|intros _ _]. destruct (negb _); [|done]. apply calm_bind; [apply incident_calm|done].
  - apply calm_bind; [apply calm_lift|done].
  - apply calm_bind; [apply incident_calm|done].
  - apply calm_bind; [apply edge_state_calm|done].
  - apply calm_bind; [apply edge_state_calm|intros s _]. apply calm_bind; [apply calm_lift|done].
  - apply calm_bind; [apply edge_state_calm|intros s _]. apply calm_bind; [apply calm_lift|done].
Qed.
Lemma changes_calm g td cs : calm (validate_changes g td cs).
Proof. induction cs as [|c cs IH]; cbn; [done|]. apply calm_bind; [apply change_calm|intros w _]. by apply calm_bind. Qed.
Lemma entity_shape_calm snapshot td : columns_ok (snap_graph snapshot) -> calm (validate_entity_shape snapshot td).
Proof.
  intros C. destruct (live_denotes NodeKind snapshot C) as (nodes & E1 & _), (live_denotes EdgeKind snapshot C) as (edges & E2 & _). cbn [live_candidates] in *. unfold validate_entity_shape. rewrite E1, E2. cbn [map_err].
  apply calm_bind; [apply nodes_calm|intros w _]. apply calm_bind; [apply edges_calm|done].
Qed.
Lemma validate_changes_ok g td cs : is_ok (validate_changes g td cs) -> Forall (fun c => is_ok (validate_change c g td)) cs.
Proof.
  induction cs as [|c cs IH]; cbn; [constructor|]. intros (w & Hw & (w' & Hw' & _)%is_ok_bind)%is_ok_bind. constructor; [by exists w|]. apply IH. by exists w'.
Qed.

(** ** Valid graphs *)

(** The live elements of a graph conform to a type and satisfy its rules, and the
    indexes of the rules hold them. *)
Definition admitted (td : GraphTypeDef) (g : SeleneGraph) (rules : list ConstraintDeclaration) (self : list RuleIndex) : Prop :=
  conforms td (logical g) /\ hold td (logical g) ∅ rules self /\ Forall (satisfied td (logical g)) rules.
(** A published graph is consistent; one with a type conforms to it and satisfies its
    UNIQUE properties and the constraints that are declared and ready; so it does for
    the type by name, with its UNIQUE properties. *)
Record valid (p : Published) : Prop := {
  va_graph : consistent (pub_graph p);
  va_bound : match m_bound_type (meta (pub_graph p)) with Some td => admitted td (pub_graph p) (constraint_rules (Some td) (pub_declarations p)) (pub_constraints p) | None => pub_constraints p = [] end;
  va_named : forall td self, pub_named p = Some (td, self) -> admitted td (pub_graph p) (unique_declarations (Some td)) self
}.

Lemma unique_declarations_properties ty : Forall (fun rule => rule_properties rule <> []) (unique_declarations ty).
Proof.
  destruct ty as [td|]; [|constructor]. apply Forall_app. split; apply Forall_concat, Forall_map, Forall_true; intros t.
  - apply Forall_concat, Forall_map, Forall_true. intros p. by apply Forall_map, Forall_true.
  - by apply Forall_map, Forall_true.
Qed.
Lemma constraint_rules_properties ty declarations : Forall (fun rule => rule_properties rule <> []) (constraint_rules ty declarations).
Proof.
  unfold constraint_rules. destruct ty as [td|]; [|constructor]. generalize (unique_declarations_properties (Some td)). generalize (unique_declarations (Some td)).
  induction declarations as [|d declarations IH]; intros rules Hr; cbn [foldl]; [done|]. apply IH. unfold add_rule. destruct (d_payload d); try done. destruct (negb _); [done|].
  destruct (list_find _ rules) as [[i old]|] eqn:Ef.
  - apply Forall_insert; [done|]. apply list_find_Some in Ef as (Hi & Hs & _). unfold same_rule in Hs. apply andb_true_iff in Hs as [Hs _]. apply andb_true_iff in Hs as [Hs%bool_decide_eq_true _].
    pose proof (Forall_lookup_1 _ _ _ _ Hr Hi) as Hp. unfold rule_properties in *. by rewrite <- Hs.
  - destruct (validate_constraint_target (Some td) _) as [[]|] eqn:Ev; [|by rewrite andb_false_r]. destruct (negb _ && _); [|done]. apply Forall_app. split; [done|]. constructor; [|done].
    unfold validate_constraint_target in Ev. cbn in Ev. destruct (target_declarations _ _); [|done]. cbn in Ev. destruct (bool_decide _) eqn:Eb; [done|]. by apply bool_decide_eq_false in Eb.
Qed.
Lemma bind_consistent td g : consistent g -> consistent (bind_type td g).
Proof. apply consistent_meta. Qed.

(** One admission: by building, or by changing the indexes of the graph before. *)
Lemma build_admits td g snapshot rules : (forall s t, compatible s t = compatible t s) -> consistent g -> m_bound_type (meta g) = Some td -> conforms td (logical g) ->
  Forall (fun rule => rule_properties rule <> []) rules -> snap_graph snapshot = g ->
  match constraints_build snapshot rules with Ok self => admitted td g rules self | Err (Panic _) => False | Err (Fails _) => True end.
Proof.
  intros Hsym G Hb Hc Hp Hs. pose proof (constraints_build_spec g td G Hb Hc rules snapshot Hsym Hp Hs) as HB. destruct (constraints_build snapshot rules) as [self|[]]; [|done|done].
  by split.
Qed.
Lemma apply_admits td g0 g1 cs rules self : (forall s t, compatible s t = compatible t s) -> consistent g0 -> consistent g1 -> spec_apply_all (logical g0) cs = Ok (logical g1) -> plain cs ->
  m_bound_type (meta g0) = Some td -> m_bound_type (meta g1) = Some td -> admitted td g0 rules self -> conforms td (logical g1) ->
  match constraints_apply cs g0 g1 self with Ok self' => admitted td g1 rules self' | Err (Panic _) => False | Err (Fails _) => True end.
Proof.
  intros Hsym G0 G1 Hcs Hp B0 B1 [C0 [Hh _]] C1. pose proof (constraints_apply_spec g0 g1 cs td G0 G1 Hcs Hp rules self Hsym B0 B1 C0 C1 Hh) as HA.
  destruct (constraints_apply cs g0 g1 self) as [self'|[]]; [|done|done]. by split.
Qed.
(** [admit_named_constraints] after a log. *)
Lemma named_admits p view named self cs g : (forall s t, compatible s t = compatible t s) -> consistent (pub_graph p) -> consistent g -> snap_graph view = g ->
  spec_apply_all (logical (pub_graph p)) cs = Ok (logical g) -> pub_named p = Some (named, self) -> admitted named (pub_graph p) (unique_declarations (Some named)) self ->
  match admit_named_constraints view (Some p) named cs with
  | Ok (ty, self') => ty = named /\ admitted named g (unique_declarations (Some named)) self'
  | Err (Panic _) => False
  | Err (Fails _) => True
  end.
Proof.
  intros Hsym G0 G1 Hv Hcs Hn [C0 HA]. pose proof (sh_columns _ (con_shape _ G1)) as HC1. unfold admit_named_constraints. cbn [mbind option_bind]. rewrite Hn. cbn [mbind option_bind fst snd].
  rewrite bool_decide_true by done. rewrite Hv. destruct (bool_decide (cs = []) || existsb rebuilds cs) eqn:Er; cbv iota.
  - pose proof (entity_shape_calm view named ltac:(by rewrite Hv)) as HS. destruct (validate_entity_shape view named) as [w|[w|]] eqn:Es; [|by destruct (HS w)|done].
    assert (Hc : conforms named (logical g)). { rewrite <- Hv. apply entity_shape_conforms; [by rewrite Hv|rewrite Hv; apply G1|by exists w]. }
    pose proof (changes_calm g named cs) as HV. destruct (validate_changes g named cs) as [w'|[w'|]]; [|by destruct (HV w')|done]. cbv zeta iota beta.
    pose proof (build_admits named (bind_type named g) (with_graph (bind_type named g) view) _ Hsym (bind_consistent named g G1) eq_refl Hc (unique_declarations_properties (Some named)) eq_refl) as HB.
    destruct (constraints_build _ _) as [self'|[]]; [|done|done]. by split.
  - apply orb_false_iff in Er as [_ Er]. pose proof (changes_calm g named cs) as HV. destruct (validate_changes g named cs) as [w'|[w'|]] eqn:Ew; [|by destruct (HV w')|done]. cbv zeta iota beta.
    assert (Hc : conforms named (logical g)) by (apply (incremental_conforms (pub_graph p) g cs named G0 G1 Hcs C0), validate_changes_ok; by exists w').
    assert (Hp : plain cs). { apply Forall_forall. intros c Hc'%list_elem_of_In. destruct (declarative c) eqn:Ed; [|done]. rewrite <- Er. symmetry. apply existsb_exists. exists c. split; [done|]. by destruct c. }
    pose proof (apply_admits named (bind_type named (pub_graph p)) (bind_type named g) cs _ self Hsym (bind_consistent _ _ G0) (bind_consistent _ _ G1) Hcs Hp eq_refl eq_refl (conj C0 HA) Hc) as HB.
    cbn [snap_graph with_graph] in *. destruct (constraints_apply _ _ _ _) as [self'|[]]; [|done|done]. by split.
Qed.

(** ** Preparation *)

Lemma no_schema_change lg cs lg' : spec_apply_all lg cs = Ok lg' -> existsb is_schema_change cs = false.
Proof.
  revert lg. induction cs as [|c cs IH]; intros lg HS; cbn in HS; [done|]. destruct (spec_apply lg c) as [lg1|] eqn:E; [|done]. cbn. rewrite (IH _ HS), orb_false_r.
  destruct c; try done. unfold spec_apply in E. by destruct (map_err _ _).
Qed.
(** What a run does to a transaction that was begun on a published graph. *)
Record runs_to (p : Published) (t : Txn) : Prop := {
  rt_before : tx_before t = p;
  rt_ok : txn_ok (tx_work t);
  rt_bound : bound_kept (pub_graph p) (txn_graph (tx_work t));
  rt_log : spec_apply_all (logical (pub_graph p)) (changes (tx_work t)) = Ok (logical (txn_graph (tx_work t)));
  rt_view : let view := default (changes (tx_work t)) (expand_truncates_for_fanout (changes (tx_work t)) (truncate_expansions (tx_work t))) in
    plain view /\ spec_apply_all (logical (pub_graph p)) view = Ok (logical (txn_graph (tx_work t)))
}.
(** The view of the log of a run, for indexes. *)
Lemma run_view calls s r s' : run calls s = (r, s') -> r = Ok tt \/ total_indexes -> Forall call_ok calls -> txn_ok s -> changes s = [] -> truncate_expansions s = [] ->
  let view := default (changes s') (expand_truncates_for_fanout (changes s') (truncate_expansions s')) in
  txn_ok s' /\ plain view /\ spec_apply_all (logical (txn_graph s)) view = Ok (logical (txn_graph s')).
Proof.
  intros E HI Hc T E0 X0. destruct (run_reaches calls _ r s' E HI Hc T) as [T' (cs & es & Ec & Ee & [Hs Hcov] & _ & HS & HV)]. rewrite E0 in *. rewrite X0 in Ee. cbn in Ec, Ee. subst cs es.
  split; [done|]. cbn [length] in *. unfold expand_truncates_for_fanout. destruct (truncate_expansions s') as [|x es] eqn:Ex; cbn [default]; [split; [by apply (covered_plain 0)|done]|].
  split; [|done]. by eapply fanout_view_plain.
Qed.
Lemma run_runs_to p a calls r w : run calls (tx_work (begin_txn p a)) = (r, w) -> r = Ok tt \/ total_indexes -> Forall call_ok calls -> txn_ok (tx_work (begin_txn p a)) ->
  runs_to p (after_run w (begin_txn p a)).
Proof.
  intros E HI Hc T. pose proof (run_view calls _ r w E HI Hc T eq_refl eq_refl) as (_ & HV). destruct (run_reaches calls _ r w E HI Hc T) as [T' (cs & es & Ec & _ & _ & Hb & HS & _)]. cbn in Ec. subst cs.
  by split.
Qed.
Definition prepared_ok (p : Published) (t : Txn) (cancel : option bool) (c : PreparedGraphCommit) (fanout : option (list Change)) : Prop :=
  valid (next_snapshot c) /\ logical (pub_graph (next_snapshot c)) = logical (txn_graph (tx_work t)) /\
  m_generation (meta (pub_graph (next_snapshot c))) = m_generation (meta (pub_graph p)) + 1 /\ prepared_generation c = m_generation (meta (pub_graph p)) + 1 /\
  prepared_changes c = changes (tx_work t) /\ schema_changed c = false /\ cancel <> Some true /\
  fanout = expand_truncates_for_fanout (changes (tx_work t)) (truncate_expansions (tx_work t)).

(** The indexes of the bound type. *)
Definition bound_constraints (t : Txn) (graph : SeleneGraph) : outcome GraphError (list RuleIndex) :=
  if bool_decide (m_bound_type (meta graph) = None) then rebuild_constraints (with_graph graph (tx_layout t)) (pub_declarations (tx_before t))
  else violation (constraints_apply (default (changes (tx_work t)) (expand_truncates_for_fanout (changes (tx_work t)) (truncate_expansions (tx_work t)))) (pub_graph (tx_before t)) graph (pub_constraints (tx_before t))).
Lemma bound_admits p t graph : (forall s u, compatible s u = compatible u s) -> valid p -> runs_to p t -> consistent graph -> logical graph = logical (txn_graph (tx_work t)) ->
  m_bound_type (meta graph) = m_bound_type (meta (txn_graph (tx_work t))) -> (forall td, m_bound_type (meta graph) = Some td -> conforms td (logical graph)) ->
  match bound_constraints t graph with
  | Ok self => match m_bound_type (meta graph) with Some td => admitted td graph (constraint_rules (Some td) (pub_declarations p)) self | None => self = [] end
  | Err (Panic _) => False
  | Err (Fails _) => True
  end.
Proof.
  intros Hsym [G0 VB _] [Eb T (_ & _ & Hbk) _ [Hpl HV]] G1 EL Em Hconf. unfold bound_constraints. rewrite Eb. destruct (m_bound_type (meta graph)) as [td|] eqn:Et.
  - rewrite bool_decide_false by done. rewrite <- Em in Hbk. destruct Hbk as [Hbk|]; [|done]. rewrite <- Hbk in VB. rewrite <- EL in HV.
    pose proof (apply_admits td (pub_graph p) graph _ _ (pub_constraints p) Hsym G0 G1 HV Hpl (eq_sym Hbk) Et VB (Hconf td eq_refl)) as HA. unfold violation.
    destruct (constraints_apply _ _ _ _) as [self|[]]; done.
  - rewrite bool_decide_true by done. unfold rebuild_constraints. cbn [snap_graph with_graph]. by rewrite Et.
Qed.
Lemma validated_conforms p t graph : valid p -> runs_to p t -> consistent graph -> logical graph = logical (txn_graph (tx_work t)) -> m_bound_type (meta graph) = m_bound_type (meta (txn_graph (tx_work t))) ->
  forall td, m_bound_type (meta graph) = Some td -> is_ok (validate_changes graph td (changes (tx_work t))) -> conforms td (logical graph).
Proof.
  intros [G0 VB _] [Eb T (_ & _ & Hbk) HS _] G1 EL Em td Et Hw. rewrite <- Em, Et in Hbk. destruct Hbk as [Hbk|]; [|done]. rewrite <- Hbk in VB. rewrite <- EL in HS.
  apply (incremental_conforms (pub_graph p) graph (changes (tx_work t)) td G0 G1 HS (proj1 VB)). by apply validate_changes_ok.
Qed.
Lemma prepare_spec p t principal cancel : (forall s u, compatible s u = compatible u s) -> valid p -> runs_to p t ->
  match prepare_commit_parts principal cancel t with
  | Ok (c, fanout) => prepared_ok p t cancel c fanout
  | Err (Panic _) => False
  | Err (Fails _) => True
  end.
Proof.
  intros Hsym V R. pose proof R as [Eb T Hbk HS HV]. unfold prepare_commit_parts. destruct (validate_stored (changes (tx_work t))) as [[]|]; cbn [lift map_err]; [|done].
  unfold has_schema_changes. rewrite (no_schema_change _ _ _ HS). destruct (checked_add _ 1) as [gen|] eqn:Eg; cbn [ok_or map_err lift]; [|done]. cbn [orb].
  set (graph := bump gen _ _ (txn_graph (tx_work t))). assert (G1 : consistent graph) by (apply consistent_meta, T).
  assert (Hw : match (match m_bound_type (meta graph) with None => Ok [] | Some td => let? w := violation (validate_changes graph td (changes (tx_work t))) in let? w' := Ok [] in Ok (w ++ w') end)
    with Ok _ => forall td, m_bound_type (meta graph) = Some td -> conforms td (logical graph) | Err (Panic _) => False | Err (Fails _) => True end).
  { destruct (m_bound_type (meta graph)) as [td|] eqn:Et; [|done]. pose proof (changes_calm graph td (changes (tx_work t))) as HC. destruct (validate_changes graph td _) as [w|[w|]] eqn:Ew; cbn; [|by destruct (HC w)|done].
    intros td' [= <-]. apply (validated_conforms p t graph V R G1 eq_refl eq_refl td Et). by exists w. }
  destruct (match m_bound_type (meta graph) with None => Ok [] | Some td => _ end) as [ws|[]]; [|done|done].
  pose proof (bound_admits p t graph Hsym V R G1 eq_refl eq_refl Hw) as HB. unfold bound_constraints in HB. destruct (if bool_decide (m_bound_type (meta graph) = None) then _ else _) as [cons|[]]; [|done|done].
  assert (HN : match (match pub_named (tx_before t) with Some (named, _) => let? a := violation (admit_named_constraints (with_graph graph (tx_layout t)) (Some (tx_before t)) named (changes (tx_work t))) in Ok (Some a) | None => Ok None end)
    with Ok named => forall td self, named = Some (td, self) -> admitted td graph (unique_declarations (Some td)) self | Err (Panic _) => False | Err (Fails _) => True end).
  { rewrite Eb. destruct (pub_named p) as [[named self]|] eqn:En; [|done]. pose proof (named_admits p (with_graph graph (tx_layout t)) named self (changes (tx_work t)) graph Hsym (va_graph _ V) G1 eq_refl HS En (va_named _ V _ _ En)) as HA.
    unfold violation. destruct (admit_named_constraints _ _ _ _) as [[ty self']|[]]; cbn; [|done|done]. destruct HA as [-> HA]. by intros td self0 [= <- <-]. }
  destruct (match pub_named (tx_before t) with Some _ => _ | None => _ end) as [named|[]]; [|done|done]. case_bool_decide as Hcan; [done|]. destruct Hbk as (_ & Hgen & _).
  assert (Egen : gen = m_generation (meta (pub_graph p)) + 1) by (unfold checked_add in Eg; rewrite Hgen in Eg; destruct (_ <=? _); [by injection Eg as <-|done]).
  unfold prepared_ok. cbn [next_snapshot pub_graph pub_snapshot snap_graph with_graph prepared_generation prepared_changes schema_changed]. rewrite Eb. by split_and!.
Qed.
End SealProps.

Section CommitProps.
Context `{L : Leaves} {GE : GraphEnv} {TO : TypeOps} {CO : Comparison} {EN : Engine} {LE : LegacyEvents} {LC : LegacyChecks} {AD : Admission}.

(** ** Identities *)

Lemma edge_ids_step lg c lg' : spec_apply lg c = Ok lg' -> lg_edge_ids lg ⊆ lg_edge_ids lg'.
Proof. intros HS. destruct c; spec_steps HS; cbn; set_solver. Qed.
Lemma ids_kept lg cs lg' : spec_apply_all lg cs = Ok lg' -> lg_node_ids lg ⊆ lg_node_ids lg' /\ lg_edge_ids lg ⊆ lg_edge_ids lg'.
Proof.
  revert lg. induction cs as [|c cs IH]; intros lg HS; cbn in HS; [by injection HS as <-|]. destruct (spec_apply lg c) as [lg1|] eqn:E; [|done]. destruct (IH lg1 HS) as [IN IE].
  split; [|etrans; [by eapply edge_ids_step|done]]. intros id Hid. by apply IN, (node_ids_step lg c lg1 id E).
Qed.

(** ** Open graphs *)

Lemma open_commits t principal cancel : is_ok (validate_stored (changes (tx_work t))) -> m_bound_type (meta (txn_graph (tx_work t))) = None -> pub_named (tx_before t) = None ->
  m_generation (meta (txn_graph (tx_work t))) < u64_max -> cancel <> Some true -> is_ok (prepare_commit_parts principal cancel t).
Proof.
  intros [[] Hv] Hb Hn Hg Hc. unfold prepare_commit_parts. rewrite Hv, (proj2 (checked_add_Some _ 1 _)) by (split; [done|lia]).
  cbn [ok_or lift map_err]. cbn [bump set_meta meta m_bound_type]. rewrite Hb, bool_decide_true, orb_true_r by done. unfold rebuild_constraints. cbn [with_graph snap_graph set_meta meta m_bound_type bump].
  rewrite Hb, Hn. cbn. rewrite bool_decide_false by done. by eexists.
Qed.

(** ** Admission *)

Definition opens (self : SharedGraph) : Prop := valid (shared self) /\ txn_ok (tx_work (begin_write self)).
(** The entities of a graph with its type. *)
Lemma entity_state_admits graph declarations td : (forall s u, compatible s u = compatible u s) -> consistent (snap_graph graph) ->
  match validate_entity_state graph declarations td with Ok _ => conforms td (logical (snap_graph graph)) | Err (Panic _) => False | Err (Fails _) => True end.
Proof.
  intros Hsym G. unfold validate_entity_state, validate_unique_property_state. pose proof (entity_shape_calm graph td (sh_columns _ (con_shape _ G))) as HS.
  destruct (validate_entity_shape graph td) as [w|[w|]] eqn:Es; [|by destruct (HS w)|done].
  assert (Hc : conforms td (logical (snap_graph graph))) by (apply entity_shape_conforms; [apply G|apply G|by exists w]).
  pose proof (build_admits td (bind_type td (snap_graph graph)) (with_graph (bind_type td (snap_graph graph)) graph) _ Hsym (bind_consistent td _ G) eq_refl Hc
    (constraint_rules_properties (Some td) declarations) eq_refl) as HB. by destruct (constraints_build _ _) as [self|[]].
Qed.
Lemma rebuilt_admits graph declarations : (forall s u, compatible s u = compatible u s) -> consistent (snap_graph graph) ->
  (forall td, m_bound_type (meta (snap_graph graph)) = Some td -> conforms td (logical (snap_graph graph))) ->
  match rebuild_constraints graph declarations with
  | Ok self => match m_bound_type (meta (snap_graph graph)) with Some td => admitted td (snap_graph graph) (constraint_rules (Some td) declarations) self | None => self = [] end
  | Err (Panic _) => False
  | Err (Fails _) => True
  end.
Proof.
  intros Hsym G Hc. unfold rebuild_constraints. destruct (m_bound_type (meta (snap_graph graph))) as [td|] eqn:Et; [|done]. destruct (validate_targets _ _) as [[]|]; cbn [lift map_err]; [|done].
  pose proof (build_admits td (snap_graph graph) graph _ Hsym G Et (Hc td eq_refl) (constraint_rules_properties (Some td) declarations) eq_refl) as HB. unfold violation.
  by destruct (constraints_build _ _) as [self|[]].
Qed.
Lemma named_fresh view named : (forall s u, compatible s u = compatible u s) -> consistent (snap_graph view) ->
  match admit_named_constraints view None named [] with
  | Ok (ty, self) => ty = named /\ admitted named (snap_graph view) (unique_declarations (Some named)) self
  | Err (Panic _) => False
  | Err (Fails _) => True
  end.
Proof.
  intros Hsym G. unfold admit_named_constraints. cbn [mbind option_bind]. pose proof (entity_shape_calm view named (sh_columns _ (con_shape _ G))) as HS.
  destruct (validate_entity_shape view named) as [w|[w|]] eqn:Es; [|by destruct (HS w)|done]. cbn [validate_changes].
  assert (Hc : conforms named (logical (snap_graph view))) by (apply entity_shape_conforms; [apply G|apply G|by exists w]).
  pose proof (build_admits named (bind_type named (snap_graph view)) (with_graph (bind_type named (snap_graph view)) view) _ Hsym (bind_consistent named _ G) eq_refl Hc
    (unique_declarations_properties (Some named)) eq_refl) as HB. by destruct (constraints_build _ _) as [self|[]].
Qed.
Lemma admission_spec physical workspace graph providers : (forall s u, compatible s u = compatible u s) -> columns_ok (pub_graph graph) ->
  (forall row n, node_at (node_store (pub_graph graph)) row = Some n -> sorted_names (n_labels n)) ->
  match from_graph_with_providers physical workspace graph providers with
  | Ok self => valid (shared self) /\ logical (pub_graph (shared self)) = logical (pub_graph graph) /\ meta (pub_graph (shared self)) = meta (pub_graph graph) /\
      exists tags, self = from_validated_graph (shared self) tags
  | Err (Panic _) => False
  | Err (Fails _) => True
  end.
Proof.
  intros Hsym C HS. unfold from_graph_with_providers. destruct (validate_properties _) as [[]|]; cbn [lift map_err]; [|done].
  destruct (validate_unique_provider_tags _ _) as [[]|]; cbn [lift map_err]; [|done]. pose proof (rebuild_spec (pub_graph graph) C HS) as HR.
  destruct (rebuild_derived_state (pub_graph graph)) as [g|[]]; [|done|done]. destruct HR as (G & EL & EM & _). destruct (rebuild_indexes g) as [i|]; cbn [lift map_err]; [|done].
  set (snapshot := {| snap_graph := set_indexes i g; snap_physical := physical; snap_workspace_binding := workspace |}).
  assert (G' : consistent (snap_graph snapshot)) by (by apply consistent_indexes). destruct (candidate_provider _) as [provider|]; cbn [lift map_err]; [|done].
  destruct (match provider with Some _ => _ | None => _ end) as [tags|[w|]] eqn:Etags; [|destruct provider as [tag|]; [by destruct (validate_unique_provider_tags ∅ (providers ++ [tag]))|done]|done].
  assert (HE : match (match m_bound_type (meta (set_indexes i g)) with Some td => let? _ := lift (validate_ref td) in violation (validate_entity_state snapshot (pub_declarations graph) td) | None => Ok [] end)
    with Ok _ => forall td, m_bound_type (meta (snap_graph snapshot)) = Some td -> conforms td (logical (snap_graph snapshot)) | Err (Panic _) => False | Err (Fails _) => True end).
  { cbn [snap_graph snapshot]. destruct (m_bound_type _) as [td|]; [|done]. destruct (validate_ref td) as [[]|]; cbn [lift map_err]; [|done].
    pose proof (entity_state_admits snapshot (pub_declarations graph) td Hsym G') as HE. unfold violation. destruct (validate_entity_state _ _ _) as [ws|[]]; cbn [map_err]; [|done|done]. by intros td' [= <-]. }
  destruct (match m_bound_type (meta (set_indexes i g)) with Some _ => _ | None => _ end) as [ws|[]]; [|done|done].
  pose proof (rebuilt_admits snapshot (pub_declarations graph) Hsym G' HE) as HB. destruct (rebuild_constraints _ _) as [cons|[]]; [|done|done].
  assert (HN : match (match pub_named graph with Some (named, _) => let? a := violation (admit_named_constraints snapshot None named []) in Ok (Some a) | None => Ok None end)
    with Ok named => forall td self, named = Some (td, self) -> admitted td (snap_graph snapshot) (unique_declarations (Some td)) self | Err (Panic _) => False | Err (Fails _) => True end).
  { destruct (pub_named graph) as [[named self]|]; [|done]. pose proof (named_fresh snapshot named Hsym G') as HA. unfold violation.
    destruct (admit_named_constraints _ _ _ _) as [[ty self']|[]]; cbn [map_err]; [|done|done]. destruct HA as [-> HA]. by intros td self0 [= <- <-]. }
  destruct (match pub_named graph with Some _ => _ | None => _ end) as [named|[]]; [|done|done]. cbn [from_validated_graph shared pub_graph pub_snapshot]. split_and!; [by split|done|done|by exists tags].
Qed.
Lemma admitted_opens graph tags : valid graph -> (forall id, id ∈ lg_node_ids (logical (pub_graph graph)) -> id < m_next_node_id (meta (pub_graph graph))) ->
  (forall id, id ∈ lg_edge_ids (logical (pub_graph graph)) -> id < m_next_edge_id (meta (pub_graph graph))) -> opens (from_validated_graph graph tags).
Proof.
  intros V HN HE. split; [done|]. cbn [begin_write from_validated_graph begin_txn tx_work shared shared_allocator].
  split; cbn [txn_graph allocator from_meta_with_floors next_node_id next_edge_id]; [apply V|intros id Hid%HN; lia|intros id Hid%HE; lia|lia].
Qed.

(** ** Transactions under the lock *)

(** A transaction leaves the lock on its sealed work or as it found it. *)
Definition sealed_as (self : SharedGraph) (w : WriteTxn) (work : SealedCommit) : Prop :=
  let next := next_snapshot (sealed work) in
  seal_seq work = Z.of_nat (length (sealed_works self)) /\ valid next /\ logical (pub_graph next) = logical (txn_graph w) /\
  m_generation (meta (pub_graph next)) = m_generation (meta (pub_graph (shared self))) + 1 /\ prepared_changes (sealed work) = changes w /\
  spec_apply_all (logical (pub_graph (shared self))) (changes w) = Ok (logical (pub_graph next)) /\
  spec_apply_all (logical (pub_graph (shared self))) (default (changes w) (fanout_changes work)) = Ok (logical (pub_graph next)).
Lemma seal_spec calls r w principal cancel self : (forall s u, compatible s u = compatible u s) -> opens self -> run calls (tx_work (begin_write self)) = (r, w) ->
  r = Ok tt \/ total_indexes -> Forall call_ok calls ->
  match seal principal cancel (Z.of_nat (length (sealed_works self))) (after_run w (begin_write self)) with
  | (Ok work, graph) => graph = next_snapshot (sealed work) /\ sealed_as self w work /\ cancel <> Some true
  | (Err (Fails _), graph) => graph = shared self
  | (Err (Panic _), _) => False
  end.
Proof.
  intros Hsym [V T] E HI Hc. pose proof (run_runs_to (shared self) (shared_allocator self) calls r w E HI Hc T) as R. unfold seal, begin_write.
  pose proof (prepare_spec _ _ principal cancel Hsym V R) as HP. destruct (prepare_commit_parts _ _ _) as [[c fanout]|[]]; [|done|done].
  destruct HP as (HV & HL & Hg & _ & Hch & _ & Hcan & Hf). destruct R as [_ _ _ HS [_ HV2]]. split; [done|]. split; [|done].
  unfold sealed_as. cbn [sealed fanout_changes seal_seq]. rewrite HL, Hf. by split_and!.
Qed.
Lemma reopened self graph w calls r : txn_ok (tx_work (begin_write self)) -> run calls (tx_work (begin_write self)) = (r, w) -> r = Ok tt \/ total_indexes -> Forall call_ok calls ->
  consistent (pub_graph graph) -> logical (pub_graph graph) = logical (txn_graph w) \/ graph = shared self -> txn_ok (tx_work (begin_txn graph (allocator w))).
Proof.
  intros T E HI Hc HG HL. destruct (run_reaches calls _ r w E HI Hc T) as [[_ HN HE [H1 H2]] (cs & _ & _ & _ & _ & _ & HS & _)]. apply ids_kept in HS as [IN IE].
  cbn [begin_write begin_txn tx_work txn_graph] in *. destruct HL as [HL|HL]; [|subst graph]; split; cbn [begin_txn tx_work txn_graph allocator]; rewrite ?HL; auto.
Qed.
Lemma transact_spec calls ending self : (forall s u, compatible s u = compatible u s) -> opens self -> fst (transact calls ending self) = Ok tt \/ total_indexes -> Forall call_ok calls ->
  let self' := snd (transact calls ending self) in let w := snd (run calls (tx_work (begin_write self))) in
  opens self' /\ ((exists work, sealed_works self' = sealed_works self ++ [work] /\ shared self' = next_snapshot (sealed work) /\ sealed_as self w work) \/
    (sealed_works self' = sealed_works self /\ shared self' = shared self)).
Proof.
  intros Hsym HO. unfold transact. destruct (run calls (tx_work (begin_write self))) as [r w] eqn:E. cbn [fst snd]. intros HI Hc. pose proof HO as [V T].
  assert (Hkept : opens {| shared := shared self; shared_allocator := allocator w; sealed_works := sealed_works self; provider_tags := provider_tags self |}).
  { split; [done|]. by apply (reopened self (shared self) w calls r T E HI Hc (va_graph _ V)); right. }
  destruct ending as [principal cancel|]; [|by split; [|right]]. unfold finish. pose proof (seal_spec calls r w principal cancel self Hsym HO E HI Hc) as HS.
  destruct (seal _ _ _ _) as [[work|[]] graph]; [|done|subst graph; by split; [|right]]. destruct HS as (-> & HW & _). pose proof HW as (_ & HV & HL & _).
  split; [|left; exists work; by split_and!]. split; [done|]. by apply (reopened self _ w calls r T E HI Hc (va_graph _ HV)); left.
Qed.

(** ** Histories *)

(** Transactions one after another under the lock. *)
Inductive reachable (start : SharedGraph) : SharedGraph -> Prop :=
| Opened : reachable start start
| Transacts self calls ending : reachable start self -> Forall call_ok calls -> fst (transact calls ending self) = Ok tt \/ total_indexes ->
    reachable start (snd (transact calls ending self)).
(** The states of a history: where it starts, and each sealed one. *)
Definition states (start self : SharedGraph) : list Published := shared start :: map (fun work => next_snapshot (sealed work)) (sealed_works self).
(** The state after a number of commits is valid, and the replay of their logs. *)
Definition state_ok (start self : SharedGraph) (k : nat) (p : Published) : Prop :=
  valid p /\ m_generation (meta (pub_graph p)) = m_generation (meta (pub_graph (shared start))) + Z.of_nat k /\
  spec_apply_all (logical (pub_graph (shared start))) (concat (map (fun work => prepared_changes (sealed work)) (take k (sealed_works self)))) = Ok (logical (pub_graph p)).
Record history_ok (start self : SharedGraph) : Prop := {
  ho_opens : opens self;
  ho_seq : forall i work, sealed_works self !! i = Some work -> seal_seq work = Z.of_nat i;
  ho_last : last (states start self) = Some (shared self);
  ho_states : forall k p, states start self !! k = Some p -> state_ok start self k p
}.
Lemma reachable_ok start self : (forall s u, compatible s u = compatible u s) -> opens start -> sealed_works start = [] -> reachable start self -> history_ok start self.
Proof.
  intros Hsym HO H0. induction 1 as [|self calls ending HR IH Hc HI].
  - split; unfold states; rewrite ?H0; [done|done|done|]. intros k p Hk. destruct k; [|done]. injection Hk as <-. split_and!; [apply HO|lia|by rewrite take_0].
  - destruct IH as [IO Iseq Ilast Ist]. destruct (transact_spec calls ending self Hsym IO HI Hc) as [HO' HT]. destruct (transact calls ending self) as [r self']. cbn [snd] in *.
    destruct HT as [(work & Ew & Es & (Hseq & HV & HL & Hg & Hch & HS & _))|[Ew Es]]; [|split; unfold states, state_ok in *; rewrite ?Ew, ?Es; done].
    assert (Hlen : length (states start self) = S (length (sealed_works self))) by (unfold states; cbn; by rewrite length_map).
    split; [done|..]; unfold states; rewrite Ew.
    + intros i x [Hi|[? Hx]]%lookup_app_Some; [by apply Iseq|]. apply list_lookup_singleton_Some in Hx as [Hi <-]. rewrite Hseq. lia.
    + rewrite map_app, app_comm_cons. cbn [map]. by rewrite last_snoc, Es.
    + intros k p. rewrite map_app, app_comm_cons. fold (states start self). intros [Hk|[Hle Hk]]%lookup_app_Some.
      * destruct (Ist k p Hk) as (A & B & C). apply lookup_lt_Some in Hk. rewrite Hlen in Hk. unfold state_ok. rewrite Ew, take_app_le by lia. by split_and!.
      * rewrite Hlen in Hle, Hk. apply list_lookup_singleton_Some in Hk as [Hk <-]. assert (k = S (length (sealed_works self))) as -> by lia.
        destruct (Ist (length (sealed_works self)) (shared self)) as (_ & B & C); [rewrite <- Ilast, last_lookup, Hlen; done|].
        unfold state_ok. rewrite Ew, take_ge by (rewrite length_app; cbn; lia). rewrite take_ge in C by lia. rewrite map_app, concat_app, spec_apply_app, C. cbn [map concat].
        rewrite app_nil_r, Hch. split_and!; [done|lia|done].
Qed.

(** ** Publication *)

Lemma ready_prefix arrived works : exists k, ready arrived works = take k works.
Proof.
  induction works as [|w works [k IH]]; [by exists 0%nat|]. cbn. case_bool_decide; [|by exists 0%nat]. exists (S k). by rewrite IH.
Qed.
Lemma protected_snapshot faults work m : let '(_, m', failed) := publish_protected faults (WorkCommit work) m in
  mem_snapshot m' = next_snapshot (sealed work) \/ (failed = true /\ mem_snapshot m' = mem_snapshot m).
Proof.
  unfold publish_protected. destruct (faults _) as [[|[|[|[]]]]|]; cbn; auto.
Qed.
Lemma in_sequence_snapshot faults works m : let '(m', _, _) := in_sequence faults (map WorkCommit works) m in
  exists k, (mem_snapshot m :: map (fun work => next_snapshot (sealed work)) works) !! k = Some (mem_snapshot m').
Proof.
  revert m. induction works as [|w works IH]; intros m; cbn [map in_sequence]; [by exists 0%nat|]. pose proof (protected_snapshot faults w m) as HP.
  destruct (publish_protected faults (WorkCommit w) m) as [[r m'] []]; [destruct HP as [E|[_ E]]; [exists 1%nat|exists 0%nat]; cbn; by rewrite E|].
  destruct HP as [E|[? _]]; [|done]. specialize (IH m'). destruct (in_sequence _ _ m') as [[m2 f] rest]. destruct IH as [k Hk]. exists (S k). cbn [lookup list_lookup]. by rewrite <- E.
Qed.
(** The committer, for works in the order of their sequence. *)
Lemma arrivals_in_sequence faults m works arrival : (forall i w, works !! i = Some w -> work_seq w = Z.of_nat i) -> arrival ⊆+ works ->
  let st := run_committer faults m arrival in (memory st, poisoned st, replies st) = in_sequence faults (ready (map work_seq arrival) works) m.
Proof.
  intros Hseq Hsub. assert (Hinj : forall x y, x ∈ works -> y ∈ works -> work_seq x = work_seq y -> x = y).
  { intros x y [i Hi]%list_elem_of_lookup [j Hj]%list_elem_of_lookup E. pose proof (Hseq i x Hi). pose proof (Hseq j y Hj). assert (i = j) as -> by lia. congruence. }
  assert (Hnd : NoDup (map work_seq works)).
  { apply NoDup_alt. intros i j x Hi Hj. apply list_lookup_fmap_Some in Hi as (a & -> & Ha), Hj as (b & E & Hb). pose proof (Hseq i a Ha). pose proof (Hseq j b Hb). lia. }
  assert (Hnd' : NoDup (map work_seq arrival)).
  { destruct (submseteq_Permutation arrival works Hsub) as [rest Hrest]. assert (HP : map work_seq works ≡ₚ map work_seq (arrival ++ rest)) by (by apply (fmap_Permutation work_seq)).
    rewrite HP, map_app in Hnd. by apply NoDup_app in Hnd as [? _]. }
  pose proof (run_agrees faults m arrival Hnd') as HA. destruct (waiting_idle m arrival) as (Hp & Hn & Hm & Hr).
  pose proof (settled_in_sequence faults (map work_seq arrival) works (waiting m arrival) 0 Hp Hn) as HS. rewrite Hm, Hr in HS.
  assert (EO : observed (run_committer faults m arrival) = observed (settled faults (waiting m arrival))) by (destruct HA as [->|[_ HA]]; done). injection EO as _ E1 E2 E3.
  cbv zeta. rewrite E1, E2, E3. destruct (in_sequence _ _ m) as [[m' failed] rest]. destruct HS as (-> & -> & ->); [done| |done].
  intros seq w _. rewrite waiting_lookup by done. split.
  - intros [Hw <-]. split_and!; [by eapply elem_of_submseteq|done|by apply list_elem_of_fmap_2].
  - intros (Hw & <- & (x & E & Hx)%list_elem_of_fmap). split; [|done]. by rewrite (Hinj w x Hw (elem_of_submseteq _ _ _ Hx Hsub) E).
Qed.
End CommitProps.
