(* ===== verification/GraphProps.v ===== *)
(** What the graph promises: a run of the mutation funnel keeps every derived
    structure as a rebuild makes it, and replay, the view of index providers and
    incremental validation agree with what it did; with a concrete session on a new
    graph. *)

From stdpp Require Import sorting.
From S2P Require Import Prelude Errors Wire Value ValueProps Ordered LabelSet PropertyMap GraphDelta DeltaProps Columns GraphTypes Store Derived Candidates TypeValidator Fanout GraphApply GraphApplyProps Mutator Consistent CandidateProps Rebuild RebuildProps ValidatorProps MutatorProps Session.

(** ** New graphs *)

Section New.
Context `{L : Leaves} {GE : GraphEnv} {TO : TypeOps} {EN : Engine} {LE : LegacyEvents} {LC : LegacyChecks}.

Lemma no_bound_rows : bound_rows 0 cv_new ∅ ∅.
Proof.
  split; [by apply cv_new_wf|done|done| |set_solver|intros id [? ?%lookup_empty_Some]; done|done].
  intros id row. rewrite lookup_empty. split; [done|]. by intros [_ ?].
Qed.
Lemma no_node_at row : node_at ns_new row = None.
Proof. done. Qed.
Lemma no_edge_at row : edge_at es_new row = None.
Proof. done. Qed.
Lemma logical_new id : logical (graph_new id) = {| lg_nodes := ∅; lg_edges := ∅; lg_node_ids := ∅; lg_edge_ids := ∅ |}.
Proof. done. Qed.
Lemma graph_new_consistent id : consistent (graph_new id).
Proof.
  split.
  - split.
    + split; split; try split; try apply cv_new_wf; try done; apply no_bound_rows.
    + intros k. cbn [graph_new idx_label]. rewrite lookup_empty. intros row (n & Hn & _). by rewrite no_node_at in Hn.
    + intros k. cbn [graph_new idx_edge_label]. rewrite lookup_empty. intros row (n & Hn & _). by rewrite no_edge_at in Hn.
    + intros row n Hn. by rewrite no_node_at in Hn.
  - rewrite logical_new. split; intros node; cbn [graph_new adjacency_out adjacency_in adjacency_undirected lg_edges]; rewrite lookup_empty; intros a [(e & He & _) _]; by rewrite lookup_empty in He.
  - rewrite logical_new. intros i e He. cbn in He. by rewrite lookup_empty in He.
Qed.
(** A transaction on a graph, with nothing logged. *)
Definition begin_on (g : SeleneGraph) (a : IdAllocator) : WriteTxn := {| txn_graph := g; allocator := a; changes := []; truncate_expansions := [] |}.
Lemma new_txn_ok id : txn_ok (begin_on (graph_new id) {| next_node_id := 1; next_edge_id := 1 |}).
Proof. split; [apply graph_new_consistent|..]; rewrite ?logical_new; cbn; [set_solver..|lia]. Qed.
Lemma begin_ok s : txn_ok s -> txn_ok (begin_on (txn_graph s) (allocator s)).
Proof. intros [G A B C]. by split. Qed.
End New.

(** ** A session *)

Module GraphExample.
Import ValueExample DeltaExample.

#[export] Instance env : GraphEnv := {| PropertyDetail := unit; GraphErrorRest := unit; Indexes := nat; new_indexes := 0%nat |}.
#[export] Instance ops : TypeOps := {|
  validate_property_element_types := fun _ _ => Ok tt;
  default_value := fun _ => None;
  declaration_may_coerce := fun _ => false;
  coerce_property_value := fun _ value => Ok value;
  property_value_matches := fun _ value => match value with Value.Int _ => true | _ => false end;
  observed_name := fun _ => "value"%string |}.
#[export] Instance engine : Engine := {|
  index_node := fun _ _ _ _ i => (Ok tt, S i);
  index_edge := fun _ _ _ _ i => (Ok tt, S i) |}.
#[export] Instance checks : LegacyChecks := {| schema_change_validate := fun _ => Ok tt |}.

Definition text (s : string) : bytes := ascii_bytes s.
Definition value (k : string) (v : Z) : PropertyMap := Compact [text k] [Some (Value.Int v)].
(** Two people and a city, one friendship and two moves. *)
Definition opening : list Call :=
  [CreateNode [text "Person"] (value "n" 1); CreateNode [text "Person"] (value "n" 2); CreateNode [text "City"] pm_new;
   CreateMixedEdge (text "KNOWS") 2 1 EdgeDirectionality.Undirected pm_new;
   CreateMixedEdge (text "IN") 1 3 EdgeDirectionality.Directed (value "n" 7);
   CreateMixedEdge (text "IN") 2 3 EdgeDirectionality.Directed pm_new].
(** An update, a deletion with its cascade, and a truncation. *)
Definition closing : list Call :=
  [UpdateNode 2 {| ld_added := [text "City"]; ld_removed := [text "Person"] |} {| pd_set := [(text "n", Value.Int 3)]; pd_removed := [] |};
   UpdateNode 2 {| ld_added := [text "Person"]; ld_removed := [text "City"] |} {| pd_set := []; pd_removed := [] |};
   CreateMixedEdge (text "KNOWS") 1 1 EdgeDirectionality.Directed pm_new; TruncateEdgeType (text "KNOWS"); DeleteNode 1].
Definition opened : WriteTxn := snd (run opening (begin_on (graph_new 9) {| next_node_id := 1; next_edge_id := 1 |})).
Definition started : WriteTxn := begin_on (txn_graph opened) (allocator opened).
Definition closed_result := run closing started.
Definition closed_txn : WriteTxn := snd closed_result.

Lemma indexes_total : total_indexes.
Proof. split; intros; by eexists. Qed.
Lemma single_sorted name : sorted_names [name].
Proof. apply ok_sorted. done. Qed.
Lemma opening_ok : Forall call_ok opening.
Proof. repeat constructor. Qed.
Lemma closing_ok : Forall call_ok closing.
Proof. repeat constructor. Qed.
Lemma opened_ok : txn_ok opened.
Proof. exact (proj1 (run_reaches opening _ _ opened (surjective_pairing _) (or_intror indexes_total) opening_ok (new_txn_ok 9))). Qed.
Lemma started_ok : txn_ok started.
Proof. apply begin_ok, opened_ok. Qed.

Definition accepted {E A} (r : result E A) : bool := match r with Ok _ => true | Err _ => false end.
Lemma accepted_ok {E A} (r : result E A) : accepted r = true -> is_ok r.
Proof. destruct r as [a|]; [by exists a|done]. Qed.
Lemma accepted_all g td cs : forallb (fun c => accepted (validate_change c g td)) cs = true -> Forall (fun c => is_ok (validate_change c g td)) cs.
Proof. rewrite forallb_forall, Forall_forall. intros H c Hc%list_elem_of_In. by apply accepted_ok, H. Qed.
Lemma closing_runs : accepted (fst (run closing started)) = true.
Proof. vm_compute. reflexivity. Qed.

(** The type of its graphs. *)
Definition person_type : GraphTypeDef := {|
  gt_name := text "G";
  gt_node_types := [{| nt_name := text "PersonType"; nt_key_labels := [text "Person"];
                       nt_properties := [{| pt_name := text "n"; pt_required := true; pt_immutable := false; pt_unique := true; pt_detail := tt |}]; nt_validation_mode := Strict |};
                    {| nt_name := text "CityType"; nt_key_labels := [text "City"]; nt_properties := []; nt_validation_mode := Strict |}];
  gt_edge_types := [{| et_name := text "KnowsType"; et_label := text "KNOWS"; et_source := NodeType 0; et_target := NodeType 0; et_properties := []; et_validation_mode := Strict |};
                    {| et_name := text "InType"; et_label := text "IN"; et_source := OneOf [0; 1]; et_target := AnyNode; et_properties := []; et_validation_mode := Warn |}] |}.
Definition snapshot_of (g : SeleneGraph) : Snapshot := {| snap_graph := g; snap_physical := 1; snap_workspace_binding := 4 |}.
Lemma conforms_of g td : consistent g -> accepted (validate_entity_shape (snapshot_of g) td) = true -> conforms td (logical g).
Proof. intros G H. by apply (entity_shape_conforms (snapshot_of g) td); [apply G|apply G|apply accepted_ok]. Qed.
Lemma opened_conforms : conforms person_type (logical (txn_graph started)).
Proof. apply (conforms_of (txn_graph started) person_type (ok_graph _ started_ok)). vm_compute. reflexivity. Qed.
End GraphExample.

Section GraphProps.
Context `{L : Leaves} {GE : GraphEnv} {TO : TypeOps} {EN : Engine} {LE : LegacyEvents} {LC : LegacyChecks}.

(** C5: A run of any sequence of mutator calls (creations, updates, removals,
    deletions with their cascade, truncations, factory reset) on a consistent
    transaction does not panic.  The changes it logged, applied by replay to any graph
    with the contents the transaction started from, succeed and give the contents the
    transaction ended with; and the allocator stays ahead of every identity.  The run
    may also have failed part-way, if index maintenance never fails. *)
Theorem run_replays calls s r s' : run calls s = (r, s') -> r = Ok tt \/ total_indexes -> Forall call_ok calls -> txn_ok s ->
  (forall what, r <> Err (Panic what)) /\ txn_ok s' /\
  exists cs, changes s' = changes s ++ cs /\
    forall g, columns_ok g -> logical g = logical (txn_graph s) -> exists g', apply_all g cs = Ok g' /\ logical g' = logical (txn_graph s').
Proof.
  intros E HI Hc T. destruct (run_reaches calls s r s' E HI Hc T) as [T' (cs & es & Ec & _ & _ & _ & HS & _)]. split_and!; [|done|].
  { intros what ->. pose proof (run_post calls s Hc T) as HP. unfold post in HP. by rewrite E in HP. }
  exists cs. split; [done|]. intros g C EL. pose proof (apply_all_refines cs g C) as HR. unfold refines in HR. rewrite EL, HS in HR.
  destruct (apply_all g cs) as [g'|[]]; [|done|done]. exists g'. destruct HR as (_ & _ & _ & HR). split; [done|]. congruence.
Qed.

(** C11: The label bitmaps, adjacency lists and identity maps that the calls of a run
    maintain in place are those [rebuild_derived_state] computes from the columns
    alone: rebuilding the graph a run ended with changes nothing.  The run succeeded,
    or else index maintenance never fails. *)
Theorem run_keeps_derived_state calls s r s' : run calls s = (r, s') -> r = Ok tt \/ total_indexes -> Forall call_ok calls -> txn_ok s ->
  rebuild_derived_state (txn_graph s') = Ok (txn_graph s').
Proof. intros E HI Hc T. destruct (run_reaches calls s r s' E HI Hc T) as [T' _]. apply rebuild_same. apply T'. Qed.

(** C16: The view of a run's log that index providers are given (each declarative
    change replaced by the tombstones staged for it) has no declarative change left,
    and means the same as the log: applied to the contents the run started from it
    gives the contents the run ended with.  The run succeeded, or else index
    maintenance never fails. *)
Theorem fanout_view_means_run calls s r s' : run calls s = (r, s') -> r = Ok tt \/ total_indexes -> Forall call_ok calls -> txn_ok s ->
  changes s = [] -> truncate_expansions s = [] ->
  let view := default (changes s') (expand_truncates_for_fanout (changes s') (truncate_expansions s')) in
  Forall (fun c => declarative c = false) view /\ spec_apply_all (logical (txn_graph s)) view = Ok (logical (txn_graph s')).
Proof.
  intros E HI Hc T E0 X0. destruct (run_reaches calls s r s' E HI Hc T) as [_ (cs & es & Ec & Ee & [Hs Hcov] & _ & HS & HV)]. rewrite E0, X0 in *. cbn [app length] in *. rewrite Ec, Ee.
  unfold expand_truncates_for_fanout. destruct es as [|x es]; cbn [default]; [split; [by apply (covered_plain 0)|done]|]. split; [|done]. by eapply fanout_view_plain.
Qed.

(** C12: Incremental type validation is complete.  A run starts from a graph whose
    live elements conform to the graph type; if each change of its log passes
    [validate_change] on the graph it ended with, then validating every live element
    of that graph from scratch succeeds too.  The run succeeded, or else index
    maintenance never fails. *)
Theorem incremental_validation_complete calls s r s' td snapshot : run calls s = (r, s') -> r = Ok tt \/ total_indexes -> Forall call_ok calls -> txn_ok s -> changes s = [] ->
  conforms td (logical (txn_graph s)) -> snap_graph snapshot = txn_graph s' ->
  Forall (fun c => is_ok (validate_change c (txn_graph s') td)) (changes s') -> is_ok (validate_entity_shape snapshot td).
Proof.
  intros E HI Hc T E0 Hconf Hsnap Hval. destruct (run_reaches calls s r s' E HI Hc T) as [T' (cs & es & Ec & _ & _ & _ & HS & _)]. rewrite E0 in Ec. cbn in Ec. rewrite Ec in Hval.
  pose proof (ok_graph _ T') as G'. apply entity_shape_conforms; rewrite Hsnap; [apply G'|apply G'|]. exact (incremental_conforms (txn_graph s) (txn_graph s') cs td (ok_graph _ T) G' HS Hconf Hval).
Qed.

(** C35: [rebuild_derived_state] on columns whose identities are bound and whose
    label sets are ordered does not panic.  It succeeds exactly when every live edge
    joins two live nodes and every live undirected edge has its endpoints in canonical
    order ([closed]), and then gives a consistent graph with the same columns and
    contents. *)
Theorem rebuild_succeeds_iff_closed g : columns_ok g -> (forall row n, node_at (node_store g) row = Some n -> sorted_names (n_labels n)) ->
  match rebuild_derived_state g with
  | Ok g' => closed (logical g) /\ consistent g' /\ logical g' = logical g /\ node_store g' = node_store g /\ edge_store g' = edge_store g
  | Err (Fails _) => ~ closed (logical g)
  | Err (Panic _) => False
  end.
Proof.
  intros C HS. pose proof (rebuild_spec g C HS) as HR. destruct (rebuild_derived_state g) as [g'|[]]; [|done..]. destruct HR as (G & EL & _ & _ & E1 & E2 & _).
  split; [rewrite <- EL; apply G|done].
Qed.

(** C34: Replay of one change does what the change means on the contents of the
    graph: it fails exactly when the meaning is undefined, with the same error; it
    keeps the columns well formed and does not panic. *)
Theorem replay_refines_meaning g c : columns_ok g ->
  match apply g c, spec_apply (logical g) c with
  | Ok g', Ok lg => columns_ok g' /\ logical g' = lg /\ meta g' = meta g
  | Err (Fails e), Err e' => e = e'
  | _, _ => False
  end.
Proof.
  intros C. pose proof (each_change_refines g c C) as HR. unfold refines in HR. destruct (apply g c) as [g'|[|e]]; [|done|by rewrite HR]. by destruct HR as (C' & Em & _ & ->).
Qed.
End GraphProps.

(** ** Witnesses *)

Import ValueExample DeltaExample GraphExample.

Lemma closing_result : run closing started = (fst closed_result, closed_txn).
Proof. unfold closed_txn, closed_result. by destruct (run closing started). Qed.
Lemma closed_ok : txn_ok closed_txn.
Proof. exact (proj1 (run_reaches closing started _ closed_txn closing_result (or_intror indexes_total) closing_ok started_ok)). Qed.

Lemma run_replays_witness : length (changes closed_txn) = 6%nat /\
  exists cs, changes closed_txn = changes started ++ cs /\ exists g', apply_all (txn_graph started) cs = Ok g' /\ logical g' = logical (txn_graph closed_txn).
Proof.
  split; [vm_compute; reflexivity|]. destruct (run_replays closing started _ closed_txn closing_result (or_intror indexes_total) closing_ok started_ok) as (_ & _ & cs & E & H).
  exists cs. split; [exact E|]. apply H; [apply (sh_columns _ (con_shape _ (ok_graph _ started_ok)))|reflexivity].
Defined.
Lemma run_keeps_derived_state_witness : rebuild_derived_state (txn_graph closed_txn) = Ok (txn_graph closed_txn).
Proof. exact (run_keeps_derived_state closing started _ closed_txn closing_result (or_intror indexes_total) closing_ok started_ok). Defined.
Lemma fanout_view_means_run_witness :
  length (default [] (expand_truncates_for_fanout (changes closed_txn) (truncate_expansions closed_txn))) = 7%nat /\
  spec_apply_all (logical (txn_graph started)) (default (changes closed_txn) (expand_truncates_for_fanout (changes closed_txn) (truncate_expansions closed_txn))) = Ok (logical (txn_graph closed_txn)).
Proof.
  split; [vm_compute; reflexivity|].
  exact (proj2 (fanout_view_means_run closing started _ closed_txn closing_result (or_intror indexes_total) closing_ok started_ok eq_refl eq_refl)).
Defined.
Lemma closed_changes_valid : Forall (fun c => is_ok (validate_change c (txn_graph closed_txn) person_type)) (changes closed_txn).
Proof. apply (accepted_all (txn_graph closed_txn) person_type (changes closed_txn)). vm_compute. reflexivity. Qed.
Lemma snapshot_graph g : snap_graph (snapshot_of g) = g.
Proof. done. Qed.
Lemma incremental_validation_complete_witness : is_ok (validate_entity_shape (snapshot_of (txn_graph closed_txn)) person_type).
Proof.
  exact (incremental_validation_complete closing started _ closed_txn person_type (snapshot_of (txn_graph closed_txn)) closing_result (or_intror indexes_total) closing_ok started_ok eq_refl opened_conforms
    (snapshot_graph _) closed_changes_valid).
Defined.
Lemma rebuild_succeeds_iff_closed_witness : match rebuild_derived_state (txn_graph closed_txn) with Ok _ => closed (logical (txn_graph closed_txn)) | Err _ => False end.
Proof.
  pose proof (rebuild_succeeds_iff_closed (txn_graph closed_txn) (sh_columns _ (con_shape _ (ok_graph _ closed_ok))) (sh_sorted _ (con_shape _ (ok_graph _ closed_ok)))) as H.
  rewrite (rebuild_same _ (ok_graph _ closed_ok)) in *. exact (proj1 H).
Defined.
Lemma replay_refines_meaning_witness : match apply (txn_graph started) (EdgeDeleted 1), spec_apply (logical (txn_graph started)) (EdgeDeleted 1) with
  | Ok g', Ok lg => logical g' = lg | Err (Fails e), Err e' => e = e' | _, _ => False end.
Proof.
  pose proof (replay_refines_meaning (txn_graph started) (EdgeDeleted 1) (sh_columns _ (con_shape _ (ok_graph _ started_ok)))) as H.
  destruct (apply (txn_graph started) (EdgeDeleted 1)) as [g'|[|e]], (spec_apply (logical (txn_graph started)) (EdgeDeleted 1)) as [lg|e']; try done. exact (proj1 (proj2 H)).
Defined.
Lemma candidate_queries_mean_sets_witness :
  exists self, answer EdgeKind (snapshot_of (txn_graph opened)) (QDifference QLive (QLabel (text "IN"))) = Ok self /\ cs_iter self = [1].
Proof.
  destruct (candidate_queries_mean_sets EdgeKind (snapshot_of (txn_graph opened)) (QDifference QLive (QLabel (text "IN"))) (ok_graph _ opened_ok)) as (self & E & _ & _ & _).
  exists self. split; [exact E|]. apply (f_equal (fun r => match r with Ok self => cs_iter self | Err _ => [] end)) in E. rewrite <- E. vm_compute. reflexivity.
Defined.
