(* ===== verification/SharedProps.v ===== *)
(** The theorems on the shared graph: constraints kept incrementally, commits that are
    all or nothing, publication in the order of the seals. *)

From stdpp Require Import sorting.
From S2P Require Import Prelude Errors Wire Value ValueProps Ordered LabelSet PropertyMap GraphDelta DeltaProps Catalog Columns GraphTypes Store Derived Candidates TypeValidator Fanout Unique UniqueProps GraphApply GraphApplyProps Mutator Seal Shared Consistent CandidateProps Rebuild RebuildProps ValidatorProps MutatorProps Session ConstraintProps CommitProps GraphProps.

Section SharedProps.
Context `{L : Leaves} {GE : GraphEnv} {TO : TypeOps} {CO : Comparison} {EN : Engine} {LE : LegacyEvents} {LC : LegacyChecks} {AD : Admission}.

(** C4: Readers never see a half-done or invalid graph.  Start from an open shared
    graph and let any transactions (with any calls, each committed, cancelled, refused
    or rolled back) go through the write lock; let any part of the sealed works reach
    the committer in any order, and let publications panic anywhere.  What readers then
    see is the state after some number of the commits: a consistent graph whose live
    elements conform to its type and satisfy its constraints, with that many
    generations more, and with exactly the contents that the logs of those commits
    give when they are replayed in order on the graph at the start.  The calls are the
    data calls of [Call], which change no schema; those of every transaction succeed,
    or else index maintenance never fails; comparability of value types is symmetric. *)
Theorem readers_see_committed_states start self arrival faults : (forall s t, comparable_with s t = comparable_with t s) -> opens start -> sealed_works start = [] -> reachable start self ->
  arrival ⊆+ map WorkCommit (sealed_works self) ->
  exists k, (k <= length (sealed_works self))%nat /\ state_ok start self k (mem_snapshot (memory (run_committer faults (opening_memory start) arrival))).
Proof.
  intros Hsym HO H0 HR Hsub. pose proof (reachable_ok start self (compatible_sym Hsym) HO H0 HR) as [_ Hseq _ Hst].
  assert (Hworks : forall i w, map WorkCommit (sealed_works self) !! i = Some w -> work_seq w = Z.of_nat i).
  { intros i w (x & -> & Hx)%list_lookup_fmap_Some. by apply Hseq. }
  pose proof (arrivals_in_sequence faults (opening_memory start) _ arrival Hworks Hsub) as HA. destruct (ready_prefix (map work_seq arrival) (map WorkCommit (sealed_works self))) as [j Hj].
  rewrite Hj in HA. assert (Et : take j (map WorkCommit (sealed_works self)) = map WorkCommit (take j (sealed_works self))) by (symmetry; apply fmap_take).
  rewrite Et in HA. pose proof (in_sequence_snapshot faults (take j (sealed_works self)) (opening_memory start)) as HI. cbv zeta in HA. rewrite <- HA in HI.
  destruct HI as [k Hk]. exists k. cbn [opening_memory mem_snapshot] in Hk.
  assert (Hk' : states start self !! k = Some (mem_snapshot (memory (run_committer faults (opening_memory start) arrival)))).
  { destruct k as [|k]; [done|]. unfold states. cbn [lookup list_lookup] in *. apply list_lookup_fmap_Some in Hk as (x & -> & Hx). rewrite lookup_take_Some in Hx.
    apply list_lookup_fmap_Some. exists x. by split; [|apply Hx]. }
  split; [|by apply Hst]. apply lookup_lt_Some in Hk'. unfold states in Hk'. cbn [length] in Hk'. rewrite length_map in Hk'. lia.
Qed.

(** C6: [WriteTxn::seal] is all or nothing and never panics.  After any run of mutator
    calls on an open shared graph it either seals, and the graph under the lock is then
    a valid one of the next generation with the contents the run made, reached by the
    log and by the view of the providers alike; or it fails, and the graph under the
    lock is the one before.  It does seal when the graph has no type, its values can be
    stored, generations are left and it is not cancelled.  The run succeeded, or else
    index maintenance never fails. *)
Theorem seal_all_or_nothing calls r w principal cancel self : (forall s t, comparable_with s t = comparable_with t s) -> opens self ->
  run calls (tx_work (begin_write self)) = (r, w) -> r = Ok tt \/ total_indexes -> Forall call_ok calls ->
  match seal principal cancel (Z.of_nat (length (sealed_works self))) (after_run w (begin_write self)) with
  | (Ok work, graph) => graph = next_snapshot (sealed work) /\ sealed_as self w work /\ cancel <> Some true
  | (Err (Fails _), graph) => graph = shared self /\
      (is_ok (validate_stored (changes w)) -> m_bound_type (meta (txn_graph w)) = None -> pub_named (shared self) = None -> m_generation (meta (txn_graph w)) < u64_max -> cancel = Some true)
  | (Err (Panic _), _) => False
  end.
Proof.
  intros Hsym HO E HI Hc. pose proof (seal_spec calls r w principal cancel self (compatible_sym Hsym) HO E HI Hc) as HS.
  pose proof (open_commits (after_run w (begin_write self)) principal cancel) as HC. unfold seal in *. destruct (prepare_commit_parts _ _ _) as [[c fanout]|[]]; [done|done|].
  split; [done|]. intros Hv Hb Hn Hg. destruct (decide (cancel = Some true)) as [|Hcan]; [done|]. by destruct (HC Hv Hb Hn Hg Hcan) as [? ?].
Qed.

(** C13: The committer publishes in the order of the seals, whatever the order of
    arrival.  For works numbered in sequence of which any part has arrived in any order,
    what is in memory, whether the runtime is fenced and what senders are told is what
    publishing the works before the first missing one, one after another and up to the
    first that fails, comes to. *)
Theorem committer_publishes_in_order faults m works arrival : (forall i w, works !! i = Some w -> work_seq w = Z.of_nat i) -> arrival ⊆+ works ->
  let st := run_committer faults m arrival in (memory st, poisoned st, replies st) = in_sequence faults (ready (map work_seq arrival) works) m.
Proof. apply arrivals_in_sequence. Qed.

(** C7: Unique and key constraints are kept incrementally.  When the indexes of the
    rules were built on a graph and a run has changed it, changing the indexes by the
    view of the log ([ConstraintIndexes::apply]) and building them anew on the final
    graph ([ConstraintIndexes::build]) both accept, and then the graph satisfies every
    rule, or both refuse, and then it violates one; neither panics.  The graph has the
    same type before and after and conforms to it; the run succeeded, or else index
    maintenance never fails. *)
Theorem constraints_incremental calls s r s' td rules self before after : (forall s t, comparable_with s t = comparable_with t s) -> run calls s = (r, s') -> r = Ok tt \/ total_indexes ->
  Forall call_ok calls -> txn_ok s -> changes s = [] -> truncate_expansions s = [] -> Forall (fun rule => rule_properties rule <> []) rules ->
  m_bound_type (meta (txn_graph s)) = Some td -> m_bound_type (meta (txn_graph s')) = Some td -> conforms td (logical (txn_graph s)) -> conforms td (logical (txn_graph s')) ->
  snap_graph before = txn_graph s -> snap_graph after = txn_graph s' -> constraints_build before rules = Ok self ->
  match constraints_apply (default (changes s') (expand_truncates_for_fanout (changes s') (truncate_expansions s'))) (txn_graph s) (txn_graph s') self, constraints_build after rules with
  | Ok _, Ok _ => Forall (satisfied td (logical (txn_graph s'))) rules
  | Err (Fails _), Err (Fails _) => ~ Forall (satisfied td (logical (txn_graph s'))) rules
  | _, _ => False
  end.
Proof.
  intros Hcmp E HI Hc T E0 X0 Hp B0 B1 C0 C1 S0 S1 Hb. pose proof (compatible_sym Hcmp) as Hsym. destruct (run_view calls s r s' E HI Hc T E0 X0) as (T' & Hpl & HV).
  pose proof (constraints_build_spec _ td (ok_graph _ T) B0 C0 rules before Hsym Hp S0) as HB. rewrite Hb in HB. destruct HB as [HB _].
  pose proof (constraints_build_spec _ td (ok_graph _ T') B1 C1 rules after Hsym Hp S1) as HB'.
  pose proof (constraints_apply_spec _ _ _ td (ok_graph _ T) (ok_graph _ T') HV Hpl rules self Hsym B0 B1 C0 C1 HB) as HA.
  destruct (constraints_apply _ _ _ _) as [self1|[]], (constraints_build after rules) as [self2|[]]; try done; [apply HA|apply HB', HA|apply HA, HB'].
Qed.

(** C14: Admission establishes what commits preserve.  A graph with well-formed columns
    that [from_graph_with_providers] admits is valid, with the contents and metadata it
    came with, and when its identities are below the counters of its metadata,
    transactions can be begun on it; admission never panics. *)
Theorem admission_establishes_validity physical workspace graph providers : (forall s t, comparable_with s t = comparable_with t s) -> columns_ok (pub_graph graph) ->
  (forall row n, node_at (node_store (pub_graph graph)) row = Some n -> sorted_names (n_labels n)) ->
  match from_graph_with_providers physical workspace graph providers with
  | Ok self => valid (shared self) /\ logical (pub_graph (shared self)) = logical (pub_graph graph) /\ meta (pub_graph (shared self)) = meta (pub_graph graph) /\ sealed_works self = [] /\
      ((forall id, id ∈ lg_node_ids (logical (pub_graph graph)) -> id < m_next_node_id (meta (pub_graph graph))) ->
       (forall id, id ∈ lg_edge_ids (logical (pub_graph graph)) -> id < m_next_edge_id (meta (pub_graph graph))) -> opens self)
  | Err (Panic _) => False
  | Err (Fails _) => True
  end.
Proof.
  intros Hsym C HS. pose proof (admission_spec physical workspace graph providers (compatible_sym Hsym) C HS) as HA. destruct (from_graph_with_providers _ _ _ _) as [self|[]]; [|done|done].
  destruct HA as (V & EL & EM & tags & Es). split_and!; [done|done|done|by rewrite Es|]. intros HN HE. rewrite Es. apply admitted_opens; [done|by rewrite EL, EM..].
Qed.
End SharedProps.

(** ** Witnesses *)

Module SharedExample.
Import ValueExample DeltaExample GraphExample.

#[export] Instance comparison : Comparison := {|
  StructuralType := unit;
  comparison_leaf_type := fun _ => Ok tt;
  comparable_with := fun _ _ => true;
  key_write := fun value => match value with Value.Int z => Ok (to_le 8 z) | _ => Ok [] end |}.
#[export] Instance admission : Admission := {|
  rebuild_indexes := fun _ => Ok 0%nat;
  candidate_provider := fun _ => Ok (Some (text "CAND"));
  duplicate_tag := fun _ => tt |}.

(** An empty graph with a type, admitted. *)
Definition typed : Published := {| pub_snapshot := snapshot_of (bind_type person_type (graph_new 9)); pub_constraints := []; pub_named := Some (person_type, []); pub_declarations := [] |}.
Definition admission_result := from_graph_with_providers 1 4 typed [text "OBSV"].
Definition start : SharedGraph := match admission_result with Ok self => self | Err _ => from_validated_graph typed [] end.
(** Two commits, one that repeats a unique value, and one that is rolled back. *)
Definition first : SharedGraph := snd (transact opening (Commits None None) start).
Definition second : SharedGraph := snd (transact closing (Commits (Some (text "P")) (Some false)) first).
Definition repeated : list Call := [CreateNode [text "Person"] (value "n" 3)].
Definition third : SharedGraph := snd (transact repeated (Commits None None) second).
Definition fourth : SharedGraph := snd (transact [CreateNode [text "City"] pm_new] RollsBack third).

Lemma any_comparable (s t : StructuralType) : comparable_with s t = comparable_with t s.
Proof. done. Qed.
Lemma typed_consistent : consistent (pub_graph typed).
Proof. apply bind_consistent, graph_new_consistent. Qed.
Lemma typed_labels row n : node_at (node_store (pub_graph typed)) row = Some n -> sorted_names (n_labels n).
Proof. apply (sh_sorted _ (con_shape _ typed_consistent)). Qed.
Lemma typed_node_ids id : id ∈ lg_node_ids (logical (pub_graph typed)) -> id < m_next_node_id (meta (pub_graph typed)).
Proof. change (id ∈ (∅ : gset Z) -> id < m_next_node_id (meta (pub_graph typed))). set_solver. Qed.
Lemma typed_edge_ids id : id ∈ lg_edge_ids (logical (pub_graph typed)) -> id < m_next_edge_id (meta (pub_graph typed)).
Proof. change (id ∈ (∅ : gset Z) -> id < m_next_edge_id (meta (pub_graph typed))). set_solver. Qed.
Lemma admission_accepts : accepted admission_result = true.
Proof. vm_compute. reflexivity. Qed.
Lemma start_opens : opens start /\ sealed_works start = [].
Proof.
  pose proof (admission_spec 1 4 typed [text "OBSV"] (compatible_sym any_comparable) (sh_columns _ (con_shape _ typed_consistent)) typed_labels) as HA.
  pose proof admission_accepts as Hok. unfold start, admission_result in *. destruct (from_graph_with_providers _ _ _ _) as [self|]; [|done]. destruct HA as (V & EL & EM & tags & ->).
  split; [|done]. apply admitted_opens; [done|rewrite EL, EM; apply typed_node_ids|rewrite EL, EM; apply typed_edge_ids].
Qed.
Lemma repeated_ok : Forall call_ok repeated.
Proof. repeat constructor. Qed.
Lemma city_ok : Forall call_ok [CreateNode [text "City"] pm_new].
Proof. repeat constructor. Qed.
Lemma first_reachable : reachable start first.
Proof. exact (Transacts start start opening (Commits None None) (Opened start) opening_ok (or_intror indexes_total)). Qed.
Lemma fourth_reachable : reachable start fourth.
Proof.
  exact (Transacts start third _ RollsBack (Transacts start second repeated (Commits None None) (Transacts start first closing (Commits (Some (text "P")) (Some false)) first_reachable
    closing_ok (or_intror indexes_total)) repeated_ok (or_intror indexes_total)) city_ok (or_intror indexes_total)).
Qed.
Lemma first_opens : opens first.
Proof. exact (ho_opens _ _ (reachable_ok start first (compatible_sym any_comparable) (proj1 start_opens) (proj2 start_opens) first_reachable)). Qed.

(** The works arrive in reverse order, and the second publication panics after it has
    stored its snapshot. *)
Definition arrival : list Work := rev (map WorkCommit (sealed_works fourth)).
Definition faults (seq : Z) : option nat := if seq =? 1 then Some 1%nat else None.
Lemma arrival_part : arrival ⊆+ map WorkCommit (sealed_works fourth).
Proof. unfold arrival. apply Permutation_submseteq. symmetry. apply Permutation_rev. Qed.
Lemma numbered i w : map WorkCommit (sealed_works fourth) !! i = Some w -> work_seq w = Z.of_nat i.
Proof.
  intros (x & -> & Hx)%list_lookup_fmap_Some.
  exact (ho_seq _ _ (reachable_ok start fourth (compatible_sym any_comparable) (proj1 start_opens) (proj2 start_opens) fourth_reachable) i x Hx).
Qed.
Definition run_of (calls : list Call) (self : SharedGraph) := run calls (tx_work (begin_write self)).
Definition unique_rules : list ConstraintDeclaration := unique_declarations (Some person_type).
Definition built (self : SharedGraph) := constraints_build (pub_snapshot (shared self)) unique_rules.
Definition built_indexes (self : SharedGraph) : list RuleIndex := match built self with Ok indexes => indexes | Err _ => [] end.
Lemma built_ok self : accepted (built self) = true -> built self = Ok (built_indexes self).
Proof. unfold built_indexes. by destruct (built self). Qed.
Lemma run_pair calls self : run calls (tx_work (begin_write self)) = (fst (run_of calls self), snd (run_of calls self)).
Proof. unfold run_of. by destruct (run calls (tx_work (begin_write self))). Qed.
Lemma first_bound : m_bound_type (meta (txn_graph (tx_work (begin_write first)))) = Some person_type.
Proof. vm_compute. reflexivity. Qed.
Lemma second_bound : m_bound_type (meta (txn_graph (snd (run_of closing first)))) = Some person_type.
Proof. vm_compute. reflexivity. Qed.
Lemma first_conforms : conforms person_type (logical (txn_graph (tx_work (begin_write first)))).
Proof. apply (conforms_of _ person_type (ok_graph _ (proj2 first_opens))). vm_compute. reflexivity. Qed.
Lemma second_conforms : conforms person_type (logical (txn_graph (snd (run_of closing first)))).
Proof.
  apply (conforms_of _ person_type (ok_graph _ (proj1 (run_reaches closing _ _ _ (run_pair closing first) (or_intror indexes_total) closing_ok (proj2 first_opens))))). vm_compute. reflexivity.
Qed.
Lemma first_built : accepted (built first) = true.
Proof. vm_compute. reflexivity. Qed.
End SharedExample.
Import ValueExample DeltaExample GraphExample SharedExample.

Lemma admission_establishes_validity_witness : accepted admission_result = true /\ valid (shared start) /\ opens start.
Proof.
  split; [exact admission_accepts|].
  pose proof (admission_establishes_validity 1 4 typed [text "OBSV"] any_comparable (sh_columns _ (con_shape _ typed_consistent)) typed_labels) as HA.
  pose proof admission_accepts as Hok. unfold start, admission_result in *. destruct (from_graph_with_providers _ _ _ _) as [self|]; [|done].
  destruct HA as (V & _ & _ & _ & HO). split; [exact V|]. exact (HO typed_node_ids typed_edge_ids).
Defined.
Lemma readers_see_committed_states_witness :
  m_generation (meta (pub_graph (mem_snapshot (memory (run_committer faults (opening_memory start) arrival))))) = 2 /\ length (sealed_works fourth) = 2%nat /\
  exists k, (k <= length (sealed_works fourth))%nat /\ state_ok start fourth k (mem_snapshot (memory (run_committer faults (opening_memory start) arrival))).
Proof.
  split; [vm_compute; reflexivity|]. split; [vm_compute; reflexivity|].
  exact (readers_see_committed_states start fourth arrival faults any_comparable (proj1 start_opens) (proj2 start_opens) fourth_reachable arrival_part).
Defined.
Lemma committer_publishes_in_order_witness :
  let st := run_committer faults (opening_memory start) arrival in poisoned st = true /\
  (memory st, poisoned st, replies st) = in_sequence faults (ready (map work_seq arrival) (map WorkCommit (sealed_works fourth))) (opening_memory start).
Proof. split; [vm_compute; reflexivity|]. exact (committer_publishes_in_order faults (opening_memory start) _ arrival numbered arrival_part). Defined.
Lemma seal_all_or_nothing_witness : let w := snd (run_of closing first) in
  exists work, fst (seal None None (Z.of_nat (length (sealed_works first))) (after_run w (begin_write first))) = Ok work /\ sealed_as first w work.
Proof.
  cbv zeta. pose proof (seal_all_or_nothing closing _ _ None None first any_comparable first_opens (run_pair closing first) (or_intror indexes_total) closing_ok) as HS.
  assert (Hok : accepted (fst (seal None None (Z.of_nat (length (sealed_works first))) (after_run (snd (run_of closing first)) (begin_write first)))) = true) by (vm_compute; reflexivity).
  destruct (seal _ _ _ _) as [[work|] graph]; [|discriminate Hok]. exists work. split; [reflexivity|]. exact (proj1 (proj2 HS)).
Defined.
Lemma constraints_incremental_witness : let s := tx_work (begin_write first) in let s' := snd (run_of closing first) in
  accepted (constraints_apply (default (changes s') (expand_truncates_for_fanout (changes s') (truncate_expansions s'))) (txn_graph s) (txn_graph s') (built_indexes first)) = true /\
  length unique_rules = 1%nat /\ Forall (satisfied person_type (logical (txn_graph s'))) unique_rules.
Proof.
  cbv zeta. assert (Hok : accepted (constraints_build (snapshot_of (txn_graph (snd (run_of closing first)))) unique_rules) = true) by (vm_compute; reflexivity).
  assert (Ha : accepted (constraints_apply (default (changes (snd (run_of closing first))) (expand_truncates_for_fanout (changes (snd (run_of closing first))) (truncate_expansions (snd (run_of closing first)))))
    (txn_graph (tx_work (begin_write first))) (txn_graph (snd (run_of closing first))) (built_indexes first)) = true) by (vm_compute; reflexivity).
  split; [exact Ha|]. split; [reflexivity|].
  pose proof (constraints_incremental closing (tx_work (begin_write first)) _ _ person_type unique_rules (built_indexes first) (pub_snapshot (shared first))
    (snapshot_of (txn_graph (snd (run_of closing first)))) any_comparable (run_pair closing first) (or_intror indexes_total) closing_ok (proj2 first_opens) eq_refl eq_refl
    (unique_declarations_properties (Some person_type)) first_bound second_bound first_conforms second_conforms eq_refl eq_refl (built_ok first first_built)) as HC.
  destruct (constraints_apply _ _ _ _) as [self|]; [|discriminate Ha]. destruct (constraints_build _ _) as [self2|]; [exact HC|destruct HC].
Defined.
